(* ===== verification/_CoqProject ===== *)
-Q . S2P
Prelude.v
Sha256.v
Shachain.v
Tlv.v
Ids.v
Features.v
Amounts.v
FwdPkg.v
UpdateLog.v
Channel.v
ChannelEval.v
ChannelInv.v
ChannelCompact.v
ChannelThms.v
CommitTx.v
CommitTxInv.v
CommitDance.v
CommitInv.v
DanceInv.v
DanceRun.v
CommitThms.v
Circuit.v
CircuitMap.v
CircuitMapInv.v
PaymentCodec.v
Amp.v
Payments.v
InvoiceCodec.v
InvoiceCodecInv.v
Invoices.v
InvoiceInv.v
PaymentInv.v
PaymentRun.v
PaymentThms.v
InvoiceRegistry.v
InvoiceDbInv.v
InvoiceRun.v
InvoiceThms.v
StateRes.v
WireSig.v
CoopClose.v
CoopCloseThms.v
ChanSync.v
ChanSyncInv.v
ChanSyncThms.v
Arbitrator.v
ArbitratorInv.v
ArbitratorRun.v
ArbitratorThms.v
Routing.v
RoutingThms.v
