(* ===== verification/Prelude.v ===== *)
(** * dcrlnd: a shallow embedding of its core

    dcrlnd is a Lightning Network daemon for Decred.  Two parties of a channel keep two
    chains of commitment transactions over one funding output; they exchange updates
    (add, settle, fail an HTLC, change the fee), sign each other's next commitment and
    revoke the previous one by revealing its secret; what is locked in on both chains is
    forwarded to other channels, and the switch remembers for every forwarded HTLC the
    circuit its settlement travels back on.  Payments of the node's own are recorded with
    their attempts, so that none is made twice; payments to the node are matched with the
    invoices it issued, held until a set of parts is complete, and settled with the
    preimages.  A channel ends when both parties sign a closing transaction, or when a
    commitment is broadcast and the contracts on it are resolved one by one.  This library
    models the parts of the Go sources (under [src/]) that carry this logic, and proves
    what makes them correct.

    ** Conventions

    Go's integers are [Z] with the wrap-around written out ([u8] .. [u64], [i32], [i64]
    below); byte slices and arrays are [list byte]; structs are records and interfaces
    are inductive types or type classes.  A call that can return an error or panic
    returns [res]: [Ok], [Err] or [Panic].  An operation that writes before it may fail
    returns the state next to the result, on every path.  Mutexes, logging, metrics and
    contexts are left out; whether a database transaction commits is an argument of the
    operation that runs it, and a transaction that fails leaves the database as it was.
    Code outside the repository is a type class: the digest ([Hasher], with SHA-256 as
    an instance), the wire encoding of updates in forwarding packages ([LogUpdateCodec]),
    onion error encrypters ([Sphinx]), curve points ([Secp256k1]), script templates and
    consensus checks ([Scripts]), keys and signatures ([Crypto]), byte strings of package
    wire ([VarBytes]), the order Go iterates over maps in ([MapRange], [GoRange]), the
    encoding of onion failures ([FailureCodec]), the zone of a time stamp ([TimeZone]), the
    size of a variable-length integer ([WireVarInt]) and the sorting and checking of closing
    transactions ([CloseEnv], with its laws in [CloseLaws]).  The channel arbitrator's
    surroundings answer through a record ([Arbitrator.env]), anew at every step.

    ** The files

    - [Prelude]: results, machine integers, big-endian encodings, lists, automation.
    - [Sha256]: the compression function as a [Hasher].
    - [Shachain] ([shachain/]): the tree of revocation secrets, the producer that derives
      them and the store that keeps 48 of them and derives the rest.
    - [Tlv] ([tlv/]): varints, truncated integers, records and streams.
    - [Ids] ([lnwire/short_channel_id.go], [channeldb]): identifiers and their keys.
    - [Features] ([lnwire/features.go], [feature/]): feature vectors, their encodings and
      dependencies, and the vectors a node advertises.
    - [Amounts] ([lnwire/mat.go], [chainfee/rates.go], [input/size.go], channel types and
      fees of [lnwallet/commitment.go]): milli-atoms, fee rates, sizes, dust.
    - [FwdPkg] ([channeldb/forwarding_package.go]): packages, filters, the packager.
    - [UpdateLog], [Channel] ([lnwallet/channel.go]): payment descriptors on a heap that
      logs, views and commitments share; update logs and their compaction; views, their
      evaluation, the constraints, and every operation that adds or removes an update.
    - [ChannelEval], [ChannelInv], [ChannelCompact], [ChannelThms]: the invariant of the
      logs ([logs_wf]) and of a channel ([chan_wf]); evaluations conserve value; dry runs
      agree with runs that write; histories of updates; compaction.
    - [CommitTx] ([lnwallet/commitment.go], [commit_sort.go], [transactions.go]): the
      commitment transaction, state hints, canonical order, the outputs of HTLCs.
    - [CommitTxInv]: what building a transaction establishes.
    - [CommitDance] ([lnwallet/channel.go], [channeldb/channel.go]): signing, receiving,
      revoking and being revoked, and the writes to the database.
    - [CommitInv], [DanceInv], [DanceRun]: which update is on which commitment, the
      invariant of a session ([session_inv]), every step and every history keeps it.
    - [CommitThms]: the claims about commitments and the dance, and a concrete session.
    - [StateRes]: operations on a state that can fail, as a monad.
    - [WireSig] ([lnwire/signature.go]): signatures on the wire and their DER encoding.
    - [CoopClose], [CoopCloseThms] ([lnwallet/chancloser/], [lnwallet/channel.go]): the
      state machine of a cooperative close; two parties that run it over queues.
    - [ChanSync] ([lnwallet/channel.go], [channeldb/channel.go]): restoring a channel from
      its database, the reestablish message and its handling.
    - [ChanSyncInv], [ChanSyncThms]: what each operation does to the chains; worlds of two
      parties whose connection can be lost at any point.
    - [Arbitrator] ([contractcourt/channel_arbitrator.go], [briefcase.go]): chain actions,
      the resolvers of a confirmed commitment, the state machine, its events and restart.
    - [ArbitratorInv], [ArbitratorRun], [ArbitratorThms]: what is prepared for a confirmed
      commitment; histories of events and their invariant ([held]); the claims.
    - [Routing] ([routing/pathfind.go], [routing/route/], [record/], [htlcswitch/hop/],
      [htlcswitch/link.go]): the route built for a path, the payloads of its hops, and the
      checks of the links on the way.
    - [RoutingThms]: what is packed is read; a route is forwarded.
    - [Circuit], [CircuitMap], [CircuitMapInv] ([htlcswitch/circuit.go],
      [circuit_map.go]): payment circuits in memory and on disk.
    - [PaymentCodec] ([routing/route], [record/mpp.go], [channeldb/payments.go],
      [mp_payment.go]): routes, attempts and outcomes, and their form on disk.
    - [Payments] ([channeldb/payment_control.go], [payments.go], [payments_inflight.go],
      [duplicate_payments.go], [paginate.go]): the buckets of payments, both indexes, and
      every operation on them.
    - [PaymentInv]: reading a bucket, the invariant of the database ([db_inv]), and that
      every operation keeps it.
    - [PaymentRun]: the abstract life of a payment ([pay_rule]), histories with restarts,
      what the queries return in the states they reach.
    - [PaymentThms]: the claims about payments, and a concrete history.
    - [Amp] ([amp/], [record/amp.go]): sharing the root seed of an atomic multi-path
      payment, the sender's tracker of its shards, reconstruction.
    - [InvoiceCodec], [InvoiceCodecInv] ([channeldb/invoices.go]): invoices with their
      HTLCs and AMP sub-invoices, and their form on disk; what is written is read back.
    - [Invoices] ([channeldb/invoices.go]): the buckets of invoices and every operation.
    - [InvoiceInv]: what one update does to an invoice ([applied]), loop by loop, and the
      accounting of invoices without AMP ([mpp_ok]).
    - [InvoiceRegistry] ([invoices/update.go], [invoiceregistry.go],
      [invoice_expiry_watcher.go], [resolution.go], [resolution_result.go]): what becomes
      of an HTLC, spontaneous payments, hold invoices, cancellation, the links and clients
      that are told, the timers and the expiry of invoices.
    - [InvoiceDbInv]: the invariant of the database ([db_ok]) and that updates keep it.
    - [InvoiceRun]: what every callback of the registry asks for is sound ([answer_ok]);
      every operation keeps the invariant of the registry ([reg_ok]).
    - [InvoiceThms]: the interleavings of the registry's operations ([reg_step]), the
      claims about them, and concrete runs.

    ** What the theorems show

    Revocation secrets: the store returns exactly the secrets it accepted, accepts what
    a producer generates and refuses what the producer did not generate.  TLV streams:
    decoding accepts exactly the canonical encodings of the known records, never panics,
    and inverts encoding.  Forwarding packages: a package goes through its states as its
    filters fill, over any history of acknowledgements.  Channels: evaluating the logs
    neither creates nor loses funds; no update disturbs what is committed; an HTLC is
    removed once; compaction drops only what both chains have forgotten.  The dance:
    over any history of steps that succeed, both chains carry the same value, the
    database holds what the chains hold, revoked states are recorded once and kept, only
    the secret of the oldest commitment is revealed, and each update of the other party
    is forwarded exactly once, when it is locked in.  Commitment transactions: both
    parties order outputs alike, hints are read back, every HTLC that is not dust has an
    output of its own.  Circuits: the map in memory stays consistent over every
    history, failing transactions included; its two buckets hold nothing else as long as no
    trim failed since the last restart, and then a restart recovers the map (a trim that
    failed is undone by a restart at once); a circuit is closed once.  Payments: over every
    history of operations and restarts a hash is paid once, the attempts at stake never
    exceed the amount, the payments in flight are found exactly, numbers are not reused,
    deleting spares what is in flight, pages are pages of the whole list, and each
    payment lives by the rules of an abstract specification.  Features: the check of
    dependencies ends and accepts exactly the closed vectors.  Invoices: an invoice is read
    back as written; over every interleaving of the registry's operations, the timers, the
    watcher and restarts, a link is told to settle only with a preimage of its HTLC's hash,
    a stored invoice without AMP accounts for its HTLCs and is settled only when its value
    is covered; an update moves invoices and HTLCs along the allowed transitions, and
    without AMP stores what it returns; an HTLC of an incomplete set of an invoice without
    AMP is released when its time has run out; the
    receiver of an AMP payment reconstructs what the sender's tracker derived.  A theorem
    shows HTLCs that make the registry panic.  Cooperative close: every interleaving of
    two parties that shut down ends with both broadcasting the same transaction, at a fee
    between the fees they started from.  Reestablishing: however often the connection is
    lost, a party sends again exactly what the other has not acted upon, in the first
    order.  The contract court: a block brings a channel on chain exactly when an HTLC is
    due; when a commitment is confirmed, without a breach, the step taken for the closure,
    or for a block at which an HTLC is due, gives every HTLC on it a resolver and cancels
    exactly the lost ones; a channel is marked resolved only when every recorded contract is;
    runs of the state machine end; anchor deadlines meet the earliest timeout.  One
    theorem shows that a restart after resolvers could not be written, at a height at which
    no HTLC is due, loses the HTLCs.  Routes: every hop reads what the sender
    packed for it, links that keep the announced policies forward the payment, and one
    milli-atom or one block less would be refused.  Signatures: the forms on the wire and
    in DER are converted into each other without loss.

    ** Bounds and fuel

    Loops over slices are structural.  [Tlv.decode_loop] is given one more than the
    length of its input, since every record consumes a byte; [CircuitMap.trim_mem] is
    given one more than the number of open circuits, since every iteration removes one;
    both are proved not to run out; [Payments.query_loop] is given one more than the number
    of entries, since the cursor moves in one direction, and [query_pages] shows that the
    whole page is found.  Histories are lists of operations; those that append
    to logs assume room below 2^64 for as many operations, and heights stay below 2^48
    because the state hint refuses larger ones.  Payment histories assume amounts below
    2^63 and room for a block of a thousand sequence numbers per operation.
    [Features.validateDeps] is given the depth of the dependency graph ([deps_fuel]);
    [InvoiceCodec.deserialize_htlcs] one more than the length of its input, since every
    HTLC is preceded by eight bytes.  [Arbitrator.advance] is given
    seven iterations, one for each state, and [advance_terminates] shows that the loop needs
    no more.  Runs of the invoice registry assume that an invoice
    added by a caller has the preimage of its hash, that AMP invoices set the required
    feature bit and have no preimage, and that there is room below 2^32 for its number.

    ** Not modelled

    The resolvers' own procedures, the chain watcher, the breach arbiter and the nursery;
    second-level transactions, script bytes and key derivation; the event loops of links and
    switch, path finding and mission control, onion packets, funding, the graph, gossip, the transport, the notifiers, the sweeper, the
    watchtower, the RPC server and the wallets.  RPC, generated code and chain backends are
    input and output around this logic; links, funding and gossip are event loops whose
    decisions lie in the components above or in packages outside the repository.  Of the
    invoice registry, shutdown and the goroutines that forward a client's queue are left
    out, and a client is registered in the step that collects its backlog.  Of the channel
    arbitrator, the encoding of its log and reports are left out: the log holds values. *)

From Stdlib Require Import ZArith Lia.
From Stdlib Require Export Init.Byte.
From stdpp Require Export prelude strings gmap sorting.

#[global] Open Scope Z_scope.

(** ** Go errors and results *)

(** A Go [error] value: the two end-of-file sentinels of package [io], and any
    other sentinel or formatted error, identified by its name. *)
Inductive error : Set :=
| EOF
| ErrUnexpectedEOF
| Error (msg : string).

#[export] Instance error_eq_dec : EqDecision error.
Proof. solve_decision. Defined.

(** The outcome of a Go call that can return an error or panic. *)
Inductive res (A : Type) : Type :=
| Ok (a : A)
| Err (e : error)
| Panic.
Arguments Ok {A} a.
Arguments Err {A} e.
Arguments Panic {A}.

#[export] Instance res_ret : MRet res := fun A a => Ok a.
#[export] Instance res_bind : MBind res := fun A B f m =>
  match m with Ok a => f a | Err e => Err e | Panic => Panic end.
#[export] Instance res_fmap : FMap res := fun A B f m =>
  match m with Ok a => Ok (f a) | Err e => Err e | Panic => Panic end.

Definition is_ok {A} (m : res A) : bool :=
  match m with Ok _ => true | _ => false end.

(** Index into a slice or an array: out of range panics. *)
Definition index {A} (l : list A) (i : nat) : res A :=
  match l !! i with Some a => Ok a | None => Panic end.

(** ** Machine integers *)

(** Unsigned and signed machine integers are [Z] with the wrap written out. *)
Definition u8 (z : Z) : Z := z mod 2 ^ 8.
Definition u16 (z : Z) : Z := z mod 2 ^ 16.
Definition u32 (z : Z) : Z := z mod 2 ^ 32.
Definition u64 (z : Z) : Z := z mod 2 ^ 64.
Definition i32 (z : Z) : Z := (z + 2 ^ 31) mod 2 ^ 32 - 2 ^ 31.
Definition i64 (z : Z) : Z := (z + 2 ^ 63) mod 2 ^ 64 - 2 ^ 63.

Definition is_u8 (z : Z) : Prop := 0 <= z < 2 ^ 8.
Definition is_u16 (z : Z) : Prop := 0 <= z < 2 ^ 16.
Definition is_u32 (z : Z) : Prop := 0 <= z < 2 ^ 32.
Definition is_u64 (z : Z) : Prop := 0 <= z < 2 ^ 64.

(** ** Bytes, big-endian integers *)

#[export] Instance byte_eq_decision : EqDecision byte.
Proof. intros a b. destruct (Byte.byte_eq_dec a b); [left|right]; done. Defined.

#[export] Instance byte_countable : Countable byte.
Proof. refine (inj_countable Byte.to_N Byte.of_N _). apply Byte.of_to_N. Defined.

Definition bval (b : byte) : Z := Z.of_N (Byte.to_N b).

Definition byte_of (z : Z) : byte :=
  match Byte.of_N (Z.to_N (z mod 256)) with Some b => b | None => x00 end.

(** [binary.BigEndian.PutUintN]: the [n] low-order bytes of [z], most significant
    first. *)
Fixpoint be_bytes (n : nat) (z : Z) : list byte :=
  match n with
  | O => []
  | S n' => byte_of (z / 256 ^ Z.of_nat n') :: be_bytes n' z
  end.

(** [binary.BigEndian.UintN] of a buffer. *)
Fixpoint be_val (bs : list byte) : Z :=
  match bs with
  | [] => 0
  | b :: bs' => bval b * 256 ^ Z.of_nat (length bs') + be_val bs'
  end.

(** ** Readers *)

(** [io.ReadFull] on an in-memory reader, whose state is the bytes left. *)
Definition read_full (n : nat) (r : list byte) : res (list byte * list byte) :=
  if (n =? 0)%nat then Ok ([], r)
  else match r with
       | [] => Err EOF
       | _ => if (length r <? n)%nat then Err ErrUnexpectedEOF
              else Ok (take n r, drop n r)
       end.

(** [binary.Read] of an unsigned big-endian integer of [n] bytes. *)
Definition read_be (n : nat) (r : list byte) : res (Z * list byte) :=
  '(bs, r') ← read_full n r; Ok (be_val bs, r').

(** ** Automation *)

Create HintDb go discriminated.
Create Rewrite HintDb go.

(** [wrap] removes the machine-integer wraps whose argument is in range. *)
Ltac wrap :=
  repeat match goal with
  | |- context [?z mod ?m] => rewrite (Z.mod_small z m) by lia
  end.

(** [rsimpl] runs the result monad and nothing else. *)
Ltac rsimpl := cbn [mbind res_bind mret res_ret fmap res_fmap].

(** [inv_res] decomposes an equation [m = Ok a] over the result monad. *)
Ltac inv_res :=
  repeat match goal with
  | H : _ ≫= _ = Ok _ |- _ => unfold mbind, res_bind in H; simpl in H
  | H : context [match ?m with _ => _ end] |- _ =>
      lazymatch type of m with
      | res _ => destruct m eqn:?
      end
  | H : Ok _ = Ok _ |- _ => injection H as H
  | H : _ = Ok _ |- _ => discriminate H
  | H : (_, _) = (_, _) |- _ => injection H as H
  | p : _ * _ |- _ => destruct p
  end.

(** ** Lemmas on results *)

Lemma Ok_inj {A} (a b : A) : Ok a = Ok b -> a = b.
Proof. by intros [=]. Qed.

Lemma bind_ok {A B} (m : res A) (f : A -> res B) (b : B) :
  m ≫= f = Ok b <-> exists a, m = Ok a /\ f a = Ok b.
Proof.
  destruct m; split.
  - intros H. exists a. split; [reflexivity | exact H].
  - intros (a' & [= <-] & H). exact H.
  - discriminate.
  - intros (a' & [=] & _).
  - discriminate.
  - intros (a' & [=] & _).
Qed.

Lemma index_ok {A} (l : list A) i a : index l i = Ok a <-> l !! i = Some a.
Proof. unfold index. destruct (l !! i); split; congruence. Qed.

Lemma Forall_filter {A} (P Q : A -> Prop) `{!forall x, Decision (Q x)} (l : list A) :
  Forall P l -> Forall P (base.filter Q l).
Proof. rewrite !Forall_forall. intros Hl x [_ Hx]%list_elem_of_filter. by apply Hl. Qed.

Lemma filter_none {A} (P : A -> Prop) `{!forall x, Decision (P x)} (l : list A) :
  (forall x, x ∈ l -> ~ P x) -> base.filter P l = [].
Proof.
  induction l as [|x l IH]; intros Hn; [done|]. rewrite filter_cons_False by (apply Hn; by left).
  apply IH. intros y Hy. apply Hn. by right.
Qed.

Lemma filter_all {A} (P : A -> Prop) `{!forall x, Decision (P x)} (l : list A) :
  (forall x, x ∈ l -> P x) -> base.filter P l = l.
Proof.
  induction l as [|x l IH]; intros Hn; [done|]. rewrite filter_cons_True by (apply Hn; by left).
  f_equal. apply IH. intros y Hy. apply Hn. by right.
Qed.

(** ** Lemmas on machine integers *)

Lemma u64_small z : is_u64 z -> u64 z = z.
Proof. apply Z.mod_small. Qed.

Lemma u64_range z : is_u64 (u64 z).
Proof. apply Z.mod_pos_bound. lia. Qed.

Lemma u32_small z : is_u32 z -> u32 z = z.
Proof. apply Z.mod_small. Qed.

Lemma u16_small z : is_u16 z -> u16 z = z.
Proof. apply Z.mod_small. Qed.

Lemma u8_small z : is_u8 z -> u8 z = z.
Proof. apply Z.mod_small. Qed.

#[export] Hint Rewrite u64_small u32_small u16_small u8_small using (assumption || lia) : go.

Lemma testbit_above w z k : 0 <= w <= k -> 0 <= z < 2 ^ w -> Z.testbit z k = false.
Proof.
  intros Hk Hz. rewrite <- (Z.mod_small z (2 ^ w)) by done.
  apply Z.mod_pow2_bits_high. lia.
Qed.

(** Masking with the bits from [k] to [w - 1] clears the [k] low bits. *)
Lemma land_high_mask w k z :
  0 <= k <= w -> 0 <= z < 2 ^ w -> Z.land z (2 ^ w - 2 ^ k) = (z / 2 ^ k) * 2 ^ k.
Proof.
  intros Hk Hz.
  assert (2 ^ w - 2 ^ k = Z.ldiff (Z.ones w) (Z.ones k)) as ->.
  { assert (Z.ldiff (Z.ones k) (Z.ones w) = 0) as Hld.
    { apply Z.bits_inj'. intros i Hi. rewrite Z.ldiff_spec, Z.bits_0.
      destruct (Z.lt_ge_cases i k); [rewrite (Z.ones_spec_low w) by lia; apply andb_false_r|].
      rewrite (Z.ones_spec_high k) by lia. done. }
    rewrite <- Z.sub_nocarry_ldiff by done. rewrite !Z.ones_equiv. lia. }
  rewrite <- Z.shiftr_div_pow2, <- Z.shiftl_mul_pow2, <- Z.ldiff_ones_r by lia.
  apply Z.bits_inj'. intros i Hi. rewrite Z.land_spec, !Z.ldiff_spec.
  destruct (Z.lt_ge_cases i w).
  - rewrite (Z.ones_spec_low w) by lia. by rewrite andb_true_l.
  - rewrite (testbit_above w z i) by lia. done.
Qed.

Lemma land_high_mask_zero w k z :
  0 <= k <= w -> 0 <= z < 2 ^ w -> (Z.land z (2 ^ w - 2 ^ k) =? 0) = (z <? 2 ^ k).
Proof.
  intros Hk Hz. rewrite land_high_mask by done.
  assert (0 < 2 ^ k) by lia. pose proof (Z.div_mod z (2 ^ k) ltac:(lia)).
  pose proof (Z.mod_pos_bound z (2 ^ k) ltac:(lia)).
  destruct (Z.ltb_spec z (2 ^ k)); [rewrite Z.div_small by lia; done|].
  apply Z.eqb_neq. pose proof (Z.div_le_lower_bound z (2 ^ k) 1 ltac:(lia) ltac:(lia)). nia.
Qed.

(** ** Lemmas on bytes *)

Lemma bval_range b : 0 <= bval b < 256.
Proof.
  unfold bval. pose proof (Byte.to_N_bounded b). lia.
Qed.

Lemma bval_byte_of z : bval (byte_of z) = z mod 256.
Proof.
  unfold bval, byte_of.
  pose proof (Z.mod_pos_bound z 256 ltac:(lia)).
  destruct (Byte.of_N (Z.to_N (z mod 256))) as [b|] eqn:E.
  - apply Byte.to_of_N in E. rewrite E. lia.
  - apply Byte.of_N_None_iff in E. lia.
Qed.

Lemma byte_of_bval b : byte_of (bval b) = b.
Proof.
  unfold byte_of, bval.
  pose proof (Byte.to_N_bounded b).
  rewrite Z.mod_small by lia. rewrite N2Z.id.
  by rewrite Byte.of_to_N.
Qed.

Lemma bval_inj a b : bval a = bval b -> a = b.
Proof. intros H. rewrite <- (byte_of_bval a), H. apply byte_of_bval. Qed.

Lemma length_be_bytes n z : length (be_bytes n z) = n.
Proof. induction n; simpl; congruence. Qed.

Lemma be_val_range bs : 0 <= be_val bs < 256 ^ Z.of_nat (length bs).
Proof.
  induction bs as [|b bs IH]; simpl be_val; [done|].
  pose proof (bval_range b). rewrite length_cons, Nat2Z.inj_succ, Z.pow_succ_r by lia.
  nia.
Qed.

Lemma be_val_be_bytes n z : be_val (be_bytes n z) = z mod 256 ^ Z.of_nat n.
Proof.
  induction n as [|n IH]; simpl be_val; [by rewrite Z.mod_1_r|].
  rewrite length_be_bytes, bval_byte_of, IH, Nat2Z.inj_succ, Z.pow_succ_r by lia.
  rewrite (Z.mul_comm 256 (256 ^ Z.of_nat n)), Z.rem_mul_r by lia. lia.
Qed.

Lemma be_val_be_bytes_small n z :
  0 <= z < 256 ^ Z.of_nat n -> be_val (be_bytes n z) = z.
Proof. intros H. rewrite be_val_be_bytes. by apply Z.mod_small. Qed.

Lemma be_bytes_mod n z k :
  (n <= k)%nat -> be_bytes n (z mod 256 ^ Z.of_nat k) = be_bytes n z.
Proof.
  induction n as [|n IH]; intros Hk; simpl; [done|].
  f_equal; [|apply IH; lia].
  apply bval_inj. rewrite !bval_byte_of.
  replace (Z.of_nat k) with (Z.of_nat n + (1 + (Z.of_nat k - Z.of_nat n - 1))) by lia.
  rewrite !Z.pow_add_r by lia.
  rewrite Z.rem_mul_r by lia.
  rewrite Z.mul_comm, Z.div_add, Z.div_small by (try apply Z.mod_pos_bound; lia).
  rewrite Z.add_0_l, Z.rem_mul_r by lia.
  rewrite Z.mul_comm, Z_mod_plus_full.
  apply Z.mod_mod. lia.
Qed.

Lemma be_bytes_be_val bs : be_bytes (length bs) (be_val bs) = bs.
Proof.
  induction bs as [|b bs IH]; simpl; [done|].
  pose proof (be_val_range bs). f_equal.
  - rewrite Z.div_add_l, (Z.div_small (be_val bs)), Z.add_0_r by lia.
    apply byte_of_bval.
  - transitivity (be_bytes (length bs) (be_val bs)); [|exact IH].
    set (z := _ + _). rewrite <- (be_bytes_mod _ z (length bs)) by lia. subst z.
    rewrite (Z.add_comm (_ * _)), Z_mod_plus_full, Z.mod_small by lia. done.
Qed.

Lemma be_val_app bs bs' :
  be_val (bs ++ bs') = be_val bs * 256 ^ Z.of_nat (length bs') + be_val bs'.
Proof.
  induction bs as [|b bs IH]; [done|].
  cbn [app be_val]. rewrite IH, length_app, Nat2Z.inj_add, Z.pow_add_r by lia. lia.
Qed.

Lemma be_val_zeros n bs : be_val (replicate n x00 ++ bs) = be_val bs.
Proof. induction n as [|n IH]; [done|]. cbn [replicate app be_val]. by rewrite IH. Qed.

Lemma drop_be_bytes n m z : drop n (be_bytes (n + m) z) = be_bytes m z.
Proof. induction n as [|n IH]; [done|]. cbn. apply IH. Qed.

Lemma be_bytes_inj n a b :
  0 <= a < 256 ^ Z.of_nat n -> 0 <= b < 256 ^ Z.of_nat n ->
  be_bytes n a = be_bytes n b -> a = b.
Proof.
  intros Ha Hb H.
  rewrite <- (be_val_be_bytes_small n a), <- (be_val_be_bytes_small n b) by done.
  by rewrite H.
Qed.

(** ** Lemmas on readers *)

Lemma read_full_app bs r : read_full (length bs) (bs ++ r) = Ok (bs, r).
Proof.
  unfold read_full. destruct bs as [|b bs]; [done|].
  cbn [length Nat.eqb app].
  destruct (Nat.ltb_spec (S (length (bs ++ r))) (S (length bs))) as [Hlt|_].
  { rewrite length_app in Hlt. lia. }
  cbn [take drop]. by rewrite take_app_length, drop_app_length.
Qed.

Lemma read_full_app' n bs r : length bs = n -> read_full n (bs ++ r) = Ok (bs, r).
Proof. intros <-. apply read_full_app. Qed.

Lemma read_full_ok n r bs r' :
  read_full n r = Ok (bs, r') -> r = bs ++ r' /\ length bs = n.
Proof.
  unfold read_full. destruct (Nat.eqb_spec n 0) as [->|Hn]; [by intros [= <- <-]|].
  destruct r as [|b r]; [done|].
  destruct (Nat.ltb_spec (length (b :: r)) n) as [|Hge]; [done|].
  intros [= <- <-]. split; [by rewrite take_drop|].
  rewrite length_take. lia.
Qed.

Lemma read_be_app n z r :
  0 <= z < 256 ^ Z.of_nat n -> read_be n (be_bytes n z ++ r) = Ok (z, r).
Proof.
  intros Hz. unfold read_be.
  rewrite (read_full_app' n) by apply length_be_bytes.
  cbn. by rewrite be_val_be_bytes_small.
Qed.

Lemma read_be_ok n r z r' :
  read_be n r = Ok (z, r') -> r = be_bytes n z ++ r' /\ 0 <= z < 256 ^ Z.of_nat n.
Proof.
  unfold read_be. intros (p & H & Hp)%bind_ok. destruct p as [bs q].
  apply read_full_ok in H as [-> Hlen]. injection Hp as <- <-. subst n.
  split; [by rewrite be_bytes_be_val | apply be_val_range].
Qed.

(** ** Sums *)

Definition zsum {A} (f : A -> Z) (l : list A) : Z := foldr (fun x s => f x + s) 0 l.

Lemma zsum_app {A} (f : A -> Z) l k : zsum f (l ++ k) = zsum f l + zsum f k.
Proof. induction l as [|x l IH]; simpl; lia. Qed.

Lemma zsum_perm {A} (f : A -> Z) l k : l ≡ₚ k -> zsum f l = zsum f k.
Proof. induction 1; simpl; lia. Qed.

Lemma zsum_ext {A} (f g : A -> Z) l :
  (forall x, x ∈ l -> f x = g x) -> zsum f l = zsum g l.
Proof.
  induction l as [|x l IH]; intros Hfg; [done|]. simpl.
  rewrite (Hfg x), IH; [done| |]; set_solver.
Qed.

Lemma zsum_filter {A} (f : A -> Z) (P : A -> Prop) `{!forall x, Decision (P x)} l :
  zsum f (filter P l) = zsum (fun x => if decide (P x) then f x else 0) l.
Proof.
  induction l as [|x l IH]; [done|]. rewrite filter_cons. simpl.
  destruct (decide (P x)); simpl; lia.
Qed.

Lemma zsum_fmap {A B} (g : A -> B) (f : B -> Z) l : zsum f (g <$> l) = zsum (f ∘ g) l.
Proof. induction l as [|x l IH]; [done|]. rewrite fmap_cons. simpl. by rewrite <- IH. Qed.

Lemma zsum_add {A} (f g : A -> Z) l : zsum (fun x => f x + g x) l = zsum f l + zsum g l.
Proof. induction l as [|x l IH]; simpl; lia. Qed.

#[export] Hint Rewrite @length_be_bytes : go.
#[export] Hint Resolve u64_range bval_range be_val_range : go.

#[global] Arguments be_bytes : simpl never.
#[global] Arguments be_val : simpl never.
#[global] Arguments read_full : simpl never.
#[global] Arguments read_be : simpl never.
