(* ===== verification/Sha256.v ===== *)
(** * SHA-256

    A model of Go's [crypto/sha256.Sum256] on byte lists, used by the shachain.
    The components that hash are proved against the class [Hasher], which asks only
    that a digest has 32 bytes; [sha256_hasher] discharges it with the real
    function, so every witness about hashes evaluates. *)

From S2P Require Import Prelude.

(** ** The compression function *)

Definition round_constants : list Z :=
  [
   1116352408; 1899447441; 3049323471; 3921009573; 961987163; 1508970993;
   2453635748; 2870763221; 3624381080; 310598401; 607225278; 1426881987;
   1925078388; 2162078206; 2614888103; 3248222580; 3835390401; 4022224774;
   264347078; 604807628; 770255983; 1249150122; 1555081692; 1996064986;
   2554220882; 2821834349; 2952996808; 3210313671; 3336571891; 3584528711;
   113926993; 338241895; 666307205; 773529912; 1294757372; 1396182291;
   1695183700; 1986661051; 2177026350; 2456956037; 2730485921; 2820302411;
   3259730800; 3345764771; 3516065817; 3600352804; 4094571909; 275423344;
   430227734; 506948616; 659060556; 883997877; 958139571; 1322822218;
   1537002063; 1747873779; 1955562222; 2024104815; 2227730452; 2361852424;
   2428436474; 2756734187; 3204031479; 3329325298].

Definition initial_state : list Z :=
  [
   1779033703; 3144134277; 1013904242; 2773480762; 1359893119; 2600822924;
   528734635; 1541459225].

Definition rotr (x n : Z) : Z := u32 (Z.lor (Z.shiftr x n) (Z.shiftl x (32 - n))).

Definition not32 (x : Z) : Z := Z.lxor x (Z.ones 32).

Definition small_sigma0 (x : Z) : Z :=
  Z.lxor (Z.lxor (rotr x 7) (rotr x 18)) (Z.shiftr x 3).

Definition small_sigma1 (x : Z) : Z :=
  Z.lxor (Z.lxor (rotr x 17) (rotr x 19)) (Z.shiftr x 10).

Definition big_sigma0 (x : Z) : Z :=
  Z.lxor (Z.lxor (rotr x 2) (rotr x 13)) (rotr x 22).

Definition big_sigma1 (x : Z) : Z :=
  Z.lxor (Z.lxor (rotr x 6) (rotr x 11)) (rotr x 25).

Definition choose (x y z : Z) : Z := Z.lxor (Z.land x y) (Z.land (not32 x) z).

Definition majority (x y z : Z) : Z :=
  Z.lxor (Z.lxor (Z.land x y) (Z.land x z)) (Z.land y z).

(** The message schedule, kept newest word first. *)
Fixpoint schedule (n : nat) (ws : list Z) : list Z :=
  match n with
  | O => ws
  | S n' =>
      let w i := nth i ws 0 in
      schedule n' (u32 (small_sigma1 (w 1%nat) + w 6%nat
                        + small_sigma0 (w 14%nat) + w 15%nat) :: ws)
  end.

Definition round (st : list Z) (kw : Z * Z) : list Z :=
  match st with
  | [a; b; c; d; e; f; g; h] =>
      let t1 := h + big_sigma1 e + choose e f g + fst kw + snd kw in
      let t2 := big_sigma0 a + majority a b c in
      [u32 (t1 + t2); a; b; c; u32 (d + t1); e; f; g]
  | _ => st
  end.

Fixpoint words (n : nat) (bs : list byte) : list Z :=
  match n with
  | O => []
  | S n' => be_val (take 4 bs) :: words n' (drop 4 bs)
  end.

Definition compress (st : list Z) (block : list byte) : list Z :=
  let ws := rev (schedule 48 (rev (words 16 block))) in
  let st' := foldl round st (zip round_constants ws) in
  zip_with (fun a b => u32 (a + b)) st st'.

(** ** Padding and iteration *)

Definition pad (msg : list byte) : list byte :=
  let n := Z.of_nat (length msg) in
  let zeros := Z.to_nat ((55 - n) mod 64) in
  msg ++ x80 :: replicate zeros x00 ++ be_bytes 8 (8 * n).

Fixpoint blocks (n : nat) (st : list Z) (bs : list byte) : list Z :=
  match n with
  | O => st
  | S n' => blocks n' (compress st (take 64 bs)) (drop 64 bs)
  end.

(** [sha256.Sum256] *)
Definition sha256 (msg : list byte) : list byte :=
  let p := pad msg in
  concat (map (be_bytes 4) (blocks (length p / 64) initial_state p)).

(** ** The interface the components are proved against *)

(** A digest function with 32-byte output, as [sha256.Sum256] is documented. *)
Class Hasher := {
  digest : list byte -> list byte;
  length_digest : forall msg, length (digest msg) = 32%nat;
}.

Lemma length_round st kw : length (round st kw) = length st.
Proof. unfold round. by repeat case_match. Qed.

Lemma length_rounds kws st : length (foldl round st kws) = length st.
Proof.
  revert st. induction kws as [|kw kws IH]; intros st; simpl; [done|].
  by rewrite IH, length_round.
Qed.

Lemma length_compress st block : length (compress st block) = length st.
Proof. unfold compress. rewrite length_zip_with, length_rounds. lia. Qed.

Lemma length_blocks n st bs : length (blocks n st bs) = length st.
Proof.
  revert st bs. induction n as [|n IH]; intros st bs; simpl; [done|].
  by rewrite IH, length_compress.
Qed.

Lemma length_concat_be_bytes n zs :
  length (concat (map (be_bytes n) zs)) = (n * length zs)%nat.
Proof.
  induction zs as [|z zs IH]; simpl; [lia|].
  rewrite length_app, length_be_bytes, IH. lia.
Qed.

Lemma length_sha256 msg : length (sha256 msg) = 32%nat.
Proof. unfold sha256. by rewrite length_concat_be_bytes, length_blocks. Qed.

#[export] Instance sha256_hasher : Hasher :=
  {| digest := sha256; length_digest := length_sha256 |}.

(** The published test vector for the three-byte message abc. *)
Example sha256_abc :
  map bval (take 4 (sha256 [x61; x62; x63])) = [186; 120; 22; 191].
Proof. vm_compute. reflexivity. Qed.

(** The published test vector for the empty message. *)
Example sha256_empty :
  be_val (sha256 [])
  = 0xe3b0c44298fc1c149afbf4c8996fb92427ae41e4649b934ca495991b7852b855.
Proof. vm_compute. reflexivity. Qed.
