(* ===== verification/Shachain.v ===== *)
(** * The revocation shachain

    Package [shachain]: the tree-shaped PRF that produces the per-commitment
    secrets of a channel ([element.go], [utils.go], [producer.go]) and the
    logarithmic store that keeps the counterparty's revealed secrets
    ([store.go]).  The digest is the class [Hasher]; arrays of 32 bytes are byte
    lists. *)

From S2P Require Import Prelude Sha256.

(** ** Indexes and bit positions ([utils.go], [element.go]) *)

Definition maxHeight : Z := 48.
Definition rootIndex : Z := 0.
Definition startIndex : Z := u64 (u64 (Z.shiftl 1 maxHeight) - 1).

Definition newIndex (v : Z) : Z := u64 (startIndex - u64 v).

Definition getBit (index position : Z) : Z :=
  u8 (Z.land (Z.shiftr index position) 1).

Definition getPrefix (index position : Z) : Z :=
  let mask := u64 (u64 (0 - 1) - u64 (u64 (Z.shiftl 1 position) - 1)) in
  Z.land index mask.

(** The loop of [countTrailingZeros]; [n] is [maxHeight - zeros]. *)
Fixpoint count_zeros_from (n : nat) (index zeros : Z) : Z :=
  match n with
  | O => zeros
  | S n' => if negb (getBit index zeros =? 0) then zeros
            else count_zeros_from n' index (zeros + 1)
  end.

Definition countTrailingZeros (index : Z) : Z :=
  count_zeros_from (Z.to_nat maxHeight) index 0.

(** The loop of [deriveBitTransformations], from [position] down to zero. *)
Fixpoint collect_positions (position : nat) (to : Z) : list Z :=
  (if getBit to (Z.of_nat position) =? 1 then [Z.of_nat position] else [])
  ++ match position with O => [] | S p => collect_positions p to end.

Definition errNotDerivable : error :=
  Error "prefixes are different - indexes aren't derivable".

Definition deriveBitTransformations (from to : Z) : res (list Z) :=
  if from =? to then Ok []
  else
    let zeros := countTrailingZeros from in
    if negb (from =? getPrefix to zeros) then Err errNotDerivable
    else Ok (collect_positions (Z.to_nat (u8 (zeros - 1))) to).

(** ** Elements ([element.go]) *)

Record element := Element { el_index : Z; el_hash : list byte }.

#[export] Instance element_eq_dec : EqDecision element.
Proof. solve_decision. Defined.

Definition isEqual (e e2 : element) : bool :=
  (el_index e =? el_index e2) && bool_decide (el_hash e = el_hash e2).

(** [buf[position/8] ^= 1 << (position%8)] *)
Definition flip_bit (buf : list byte) (position : Z) : list byte :=
  let byteNumber := position / 8 in
  let bitNumber := position mod 8 in
  alter (fun b => byte_of (Z.lxor (bval b) (u8 (Z.shiftl 1 bitNumber))))
        (Z.to_nat byteNumber) buf.

(** [NewHash] of [shahash.go]. *)
Definition NewHash (newHash : list byte) : res (list byte) :=
  if negb (length newHash =? 32)%nat then Err (Error "invalid hash length")
  else Ok newHash.

(** ** The store's state ([store.go]) *)

Record RevocationStore := Store {
  lenBuckets : Z;
  buckets : list element;
  store_index : Z;
}.

Definition zero_element : element := Element 0 (replicate 32 x00).

Definition NewRevocationStore : RevocationStore :=
  Store 0 (replicate (Z.to_nat maxHeight) zero_element) startIndex.

(** The loop of [Encode] over the active buckets. *)
Fixpoint encode_buckets (n i : nat) (bs : list element) : res (list byte) :=
  match n with
  | O => Ok []
  | S n' =>
      e ← index bs i;
      rest ← encode_buckets n' (S i) bs;
      Ok (be_bytes 8 (el_index e) ++ el_hash e ++ rest)
  end.

Definition Encode (store : RevocationStore) : res (list byte) :=
  body ← encode_buckets (Z.to_nat (lenBuckets store)) 0 (buckets store);
  Ok (be_bytes 1 (lenBuckets store) ++ body ++ be_bytes 8 (store_index store)).

(** The loop of [NewRevocationStoreFromBytes]; the array write panics past its
    last bucket. *)
Fixpoint decode_buckets (n i : nat) (bs : list element) (r : list byte)
    : res (list element * list byte) :=
  match n with
  | O => Ok (bs, r)
  | S n' =>
      '(hashIndex, r1) ← read_be 8 r;
      '(nextHash, r2) ← read_full 32 r1;
      if (i <? length bs)%nat
      then decode_buckets n' (S i) (<[i := Element hashIndex nextHash]> bs) r2
      else Panic
  end.

Definition NewRevocationStoreFromBytes (r : list byte)
    : res (RevocationStore * list byte) :=
  '(len, r1) ← read_be 1 r;
  '(bs, r2) ← decode_buckets (Z.to_nat len) 0
                (replicate (Z.to_nat maxHeight) zero_element) r1;
  '(idx, r3) ← read_be 8 r2;
  Ok (Store len bs idx, r3).

Section Hashing.
Context `{Hasher}.

(** ** Derivation ([element.go]) *)

Definition derive (e : element) (toIndex : Z) : res element :=
  positions ← deriveBitTransformations (el_index e) toIndex;
  Ok (Element toIndex
        (foldl (fun buf position => digest (flip_bit buf position))
               (el_hash e) positions)).

(** ** The producer ([producer.go]) *)

Record RevocationProducer := Producer { root : element }.

Definition NewRevocationProducer (h : list byte) : RevocationProducer :=
  Producer (Element rootIndex h).

Definition NewRevocationProducerFromBytes (data : list byte)
    : res RevocationProducer :=
  h ← NewHash data; Ok (Producer (Element rootIndex h)).

Definition AtIndex (p : RevocationProducer) (v : Z) : res (list byte) :=
  e ← derive (root p) (newIndex v); Ok (el_hash e).

Definition EncodeProducer (p : RevocationProducer) : list byte := el_hash (root p).

(** ** The store's operations ([store.go]) *)

Definition errNotInStore : error := Error "unable to derive hash".
Definition errHashNotDerivable : error :=
  Error "hash isn't derivable from previous ones".

(** The loop of [LookUp]; an element that cannot derive the index is skipped. *)
Fixpoint lookup_from (n i : nat) (bs : list element) (ind : Z)
    : res (list byte) :=
  match n with
  | O => Err errNotInStore
  | S n' =>
      b ← index bs i;
      match derive b ind with
      | Ok e => Ok (el_hash e)
      | Err _ => lookup_from n' (S i) bs ind
      | Panic => Panic
      end
  end.

Definition LookUp (store : RevocationStore) (v : Z) : res (list byte) :=
  lookup_from (Z.to_nat (lenBuckets store)) 0 (buckets store) (newIndex v).

(** The loop of [AddNextEntry] over the buckets below the new element's. *)
Fixpoint check_buckets (n i : nat) (bs : list element) (newElement : element)
    : res unit :=
  match n with
  | O => Ok tt
  | S n' =>
      b ← index bs i;
      e ← derive newElement (el_index b);
      if negb (isEqual e b) then Err errHashNotDerivable
      else check_buckets n' (S i) bs newElement
  end.

Definition AddNextEntry (store : RevocationStore) (hash : list byte)
    : res RevocationStore :=
  let newElement := Element (store_index store) hash in
  let bucket := countTrailingZeros (el_index newElement) in
  _ ← check_buckets (Z.to_nat bucket) 0 (buckets store) newElement;
  if (Z.to_nat bucket <? length (buckets store))%nat then
    let bs := <[Z.to_nat bucket := newElement]> (buckets store) in
    let len := if u8 (bucket + 1) >? lenBuckets store
               then u8 (bucket + 1) else lenBuckets store in
    Ok (Store len bs (u64 (store_index store - 1)))
  else Panic.

(** A run of the store: the entries are added in the order given. *)
Fixpoint add_all (store : RevocationStore) (hs : list (list byte))
    : res RevocationStore :=
  match hs with
  | [] => Ok store
  | h :: hs' => s' ← AddNextEntry store h; add_all s' hs'
  end.

End Hashing.

(** ** Arithmetic of the index tree *)

Lemma startIndex_val : startIndex = 2 ^ 48 - 1.
Proof. reflexivity. Qed.

Lemma newIndex_small v : 0 <= v < 2 ^ 48 -> newIndex v = startIndex - v.
Proof.
  intros Hv. unfold newIndex. rewrite (u64_small v) by (unfold is_u64; lia).
  apply u64_small. rewrite startIndex_val. unfold is_u64. lia.
Qed.

Lemma getBit_testbit i k :
  0 <= k -> getBit i k = if Z.testbit i k then 1 else 0.
Proof.
  intros Hk. unfold getBit. rewrite Z.shiftr_div_pow2 by done.
  change 1 with (Z.ones 1) at 1. rewrite Z.land_ones by lia.
  rewrite Z.testbit_eqb by done.
  pose proof (Z.mod_pos_bound (i / 2 ^ k) 2 ltac:(lia)).
  change (2 ^ 1) with 2. unfold u8.
  destruct (Z.eqb_spec ((i / 2 ^ k) mod 2) 1) as [->|]; [done|].
  assert ((i / 2 ^ k) mod 2 = 0) as -> by lia. done.
Qed.

(** The index [i] with its [z] low bits cleared. *)
Lemma getPrefix_spec i z :
  is_u64 i -> 0 <= z <= 48 -> getPrefix i z = (i / 2 ^ z) * 2 ^ z.
Proof.
  intros Hi Hz. unfold getPrefix.
  assert (0 < 2 ^ z <= 2 ^ 48) as Hp.
  { split; [lia|]. apply Z.pow_le_mono_r; lia. }
  rewrite Z.shiftl_1_l, (u64_small (2 ^ z)) by (unfold is_u64; lia).
  rewrite (u64_small (2 ^ z - 1)) by (unfold is_u64; lia).
  change (u64 (0 - 1)) with (2 ^ 64 - 1).
  rewrite u64_small by (unfold is_u64; lia).
  replace (2 ^ 64 - 1 - (2 ^ z - 1)) with (2 ^ 64 - 2 ^ z) by lia.
  apply land_high_mask; [lia|apply Hi].
Qed.

(** The arithmetic content of [countTrailingZeros]: the [z] low bits are zero, and
    bit [z] is set unless the index is a multiple of [2 ^ 48]. *)
Definition zeros_spec (i z : Z) : Prop :=
  0 <= z <= maxHeight /\ i mod 2 ^ z = 0 /\ (z < maxHeight -> Z.testbit i z = true).

Lemma mod_pow2_succ i z :
  0 <= z -> i mod 2 ^ z = 0 -> Z.testbit i z = false -> i mod 2 ^ (z + 1) = 0.
Proof.
  intros Hz Hm Hb. rewrite Z.testbit_eqb in Hb by done.
  rewrite Z.pow_add_r, Z.rem_mul_r by lia. change (2 ^ 1) with 2.
  pose proof (Z.mod_pos_bound (i / 2 ^ z) 2 ltac:(lia)). lia.
Qed.

Lemma count_zeros_from_spec n i z :
  0 <= z -> Z.of_nat n = maxHeight - z -> i mod 2 ^ z = 0 ->
  zeros_spec i (count_zeros_from n i z).
Proof.
  revert z. induction n as [|n IH]; intros z Hz Hn Hm; simpl.
  - split; [lia|]. split; [done|]. lia.
  - rewrite getBit_testbit by done. destruct (Z.testbit i z) eqn:Hb; simpl.
    + split; [unfold maxHeight in *; lia|]. done.
    + apply IH; [lia|lia|]. by apply mod_pow2_succ.
Qed.

Lemma countTrailingZeros_spec i : zeros_spec i (countTrailingZeros i).
Proof. apply count_zeros_from_spec; [lia|done|]. by rewrite Z.mod_1_r. Qed.

Lemma testbit_set_mod i k : 0 <= k -> Z.testbit i k = true -> i mod 2 ^ (k + 1) <> 0.
Proof.
  intros Hk Hb H. rewrite Z.testbit_eqb in Hb by done.
  rewrite Z.pow_add_r, Z.rem_mul_r in H by lia. change (2 ^ 1) with 2 in H.
  pose proof (Z.mod_pos_bound (i / 2 ^ k) 2 ltac:(lia)).
  pose proof (Z.mod_pos_bound i (2 ^ k) ltac:(lia)). lia.
Qed.

Lemma mod_pow2_le i a b : 0 <= a <= b -> i mod 2 ^ b = 0 -> i mod 2 ^ a = 0.
Proof.
  intros Hab H. apply Z.mod_divide in H; [|lia]. apply Z.mod_divide; [lia|].
  etrans; [|exact H]. exists (2 ^ (b - a)). rewrite <- Z.pow_add_r by lia. f_equal. lia.
Qed.

Lemma zeros_spec_unique i z z' : zeros_spec i z -> zeros_spec i z' -> z = z'.
Proof.
  intros (Hz & Hm & Hb) (Hz' & Hm' & Hb').
  destruct (Z.lt_trichotomy z z') as [Hlt|[->|Hlt]]; [|done|]; exfalso.
  - eapply testbit_set_mod; [|apply Hb; lia|]; [lia|].
    eapply (mod_pow2_le _ _ z'); [lia|done].
  - eapply testbit_set_mod; [|apply Hb'; lia|]; [lia|].
    eapply (mod_pow2_le _ _ z); [lia|done].
Qed.

Lemma countTrailingZeros_eq i z : zeros_spec i z -> countTrailingZeros i = z.
Proof. apply zeros_spec_unique, countTrailingZeros_spec. Qed.

Lemma countTrailingZeros_range i : 0 <= countTrailingZeros i <= 48.
Proof. apply (countTrailingZeros_spec i). Qed.

(** ** Derivability *)

(** [a] is an ancestor of [m]: they agree above the trailing zeros of [a]. *)
Definition ancestor (a m : Z) : Prop :=
  a / 2 ^ countTrailingZeros a = m / 2 ^ countTrailingZeros a.

Lemma ancestor_refl a : ancestor a a.
Proof. done. Qed.

Lemma prefix_ancestor a m :
  is_u64 m -> a = getPrefix m (countTrailingZeros a) <-> ancestor a m.
Proof.
  intros Hm. destruct (countTrailingZeros_spec a) as (Hz & Ha & _).
  rewrite getPrefix_spec by done. unfold ancestor.
  set (p := 2 ^ countTrailingZeros a) in *.
  assert (0 < p) by (subst p; lia).
  pose proof (Z.div_mod a p ltac:(lia)). split; intros E; nia.
Qed.

Lemma ancestor_le a m : 0 <= m -> ancestor a m -> a <= m.
Proof.
  intros Hm E. unfold ancestor in E.
  destruct (countTrailingZeros_spec a) as (Hz & Ha & _).
  set (p := 2 ^ countTrailingZeros a) in *.
  assert (0 < p) by (subst p; lia).
  pose proof (Z.div_mod a p ltac:(lia)). pose proof (Z.div_mod m p ltac:(lia)).
  pose proof (Z.mod_pos_bound m p ltac:(lia)). nia.
Qed.

(** The positions set in [m] below [n], highest first. *)
Fixpoint bits_below (n : nat) (m : Z) : list Z :=
  match n with
  | O => []
  | S n' => (if Z.testbit m (Z.of_nat n') then [Z.of_nat n'] else []) ++ bits_below n' m
  end.

Lemma collect_positions_bits p m : collect_positions p m = bits_below (S p) m.
Proof.
  induction p as [|p IH]; cbn [collect_positions]; rewrite getBit_testbit by lia.
  - cbn [bits_below]. by destruct (Z.testbit m (Z.of_nat 0)).
  - rewrite IH. cbn [bits_below]. by destruct (Z.testbit m (Z.of_nat (S p))).
Qed.

Lemma bits_below_zero n m : m mod 2 ^ Z.of_nat n = 0 -> bits_below n m = [].
Proof.
  intros Hm. induction n as [|n IH]; cbn [bits_below]; [done|].
  assert (Z.testbit m (Z.of_nat n) = false) as ->.
  { apply not_true_is_false. intros Hb. apply testbit_set_mod in Hb; [|lia].
    by replace (Z.of_nat n + 1) with (Z.of_nat (S n)) in Hb by lia. }
  apply IH. eapply mod_pow2_le; [|exact Hm]. lia.
Qed.

Lemma deriveBitTransformations_ok from to :
  is_u64 to -> ancestor from to ->
  deriveBitTransformations from to
  = Ok (bits_below (Z.to_nat (countTrailingZeros from)) to).
Proof.
  intros Hto Ha. unfold deriveBitTransformations.
  destruct (countTrailingZeros_spec from) as (Hz & Hm & _).
  destruct (Z.eqb_spec from to) as [<-|Hne].
  - rewrite bits_below_zero; [done|]. by rewrite Z2Nat.id by lia.
  - pose proof Ha as Hp. apply prefix_ancestor in Hp; [|done].
    rewrite <- Hp, Z.eqb_refl. cbn [negb]. f_equal.
    assert (countTrailingZeros from <> 0) as Hnz.
    { intros E. unfold ancestor in Ha. rewrite E, !Z.div_1_r in Ha. done. }
    unfold maxHeight in Hz.
    rewrite collect_positions_bits, u8_small by (unfold is_u8; lia).
    f_equal. lia.
Qed.

Lemma deriveBitTransformations_err from to :
  is_u64 to -> ~ ancestor from to ->
  deriveBitTransformations from to = Err errNotDerivable.
Proof.
  intros Hto Ha. unfold deriveBitTransformations.
  destruct (Z.eqb_spec from to) as [<-|Hne]; [by destruct Ha|].
  destruct (Z.eqb_spec from (getPrefix to (countTrailingZeros from))) as [E|]; [|done].
  exfalso. apply Ha. by apply prefix_ancestor.
Qed.

Section Walks.
Context `{Hasher}.

(** ** Walking down the tree *)

Definition walk (h : list byte) (positions : list Z) : list byte :=
  foldl (fun buf position => digest (flip_bit buf position)) h positions.

(** The secret at index [m] of the tree whose node [a] holds [h]. *)
Definition descend (a : Z) (h : list byte) (m : Z) : list byte :=
  walk h (bits_below (Z.to_nat (countTrailingZeros a)) m).

Lemma derive_ok e m :
  is_u64 m -> ancestor (el_index e) m ->
  derive e m = Ok (Element m (descend (el_index e) (el_hash e) m)).
Proof. intros Hm Ha. unfold derive. by rewrite deriveBitTransformations_ok. Qed.

Lemma derive_err e m :
  is_u64 m -> ~ ancestor (el_index e) m -> derive e m = Err errNotDerivable.
Proof. intros Hm Ha. unfold derive. by rewrite deriveBitTransformations_err. Qed.

Lemma ancestor_dec a m : Decision (ancestor a m).
Proof. unfold ancestor. apply _. Qed.

Lemma walk_through n zb b c h :
  (zb <= n)%nat -> b mod 2 ^ Z.of_nat zb = 0 ->
  b / 2 ^ Z.of_nat zb = c / 2 ^ Z.of_nat zb ->
  walk h (bits_below n c) = walk (walk h (bits_below n b)) (bits_below zb c).
Proof.
  intros Hn Hb Hbc. revert h. induction Hn as [|n Hn IH]; intros h.
  - by rewrite (bits_below_zero zb b).
  - cbn [bits_below]. unfold walk at 1 2 3. rewrite !foldl_app.
    assert (Z.testbit b (Z.of_nat n) = Z.testbit c (Z.of_nat n)) as ->; [|apply IH].
    replace (Z.of_nat n) with (Z.of_nat n - Z.of_nat zb + Z.of_nat zb) by lia.
    rewrite <- !Z.div_pow2_bits by lia. by rewrite Hbc.
Qed.

Lemma ancestor_zeros_le a b :
  ancestor a b -> countTrailingZeros b <= countTrailingZeros a.
Proof.
  intros Ha. destruct (countTrailingZeros_spec a) as (Hza & Hma & Hba).
  destruct (countTrailingZeros_spec b) as (Hzb & Hmb & _).
  destruct (Z.eq_dec (countTrailingZeros a) 48) as [->|Hlt]; [apply Hzb|].
  destruct (Z.le_gt_cases (countTrailingZeros b) (countTrailingZeros a)) as [|Hgt]; [done|].
  exfalso. unfold maxHeight in *.
  apply (testbit_set_mod b (countTrailingZeros a)); [lia| |].
  - rewrite <- (Z.add_0_l (countTrailingZeros a)), <- Z.div_pow2_bits by lia.
    unfold ancestor in Ha. rewrite <- Ha, Z.div_pow2_bits, Z.add_0_l by lia.
    apply Hba. lia.
  - eapply mod_pow2_le; [|exact Hmb]. lia.
Qed.

Lemma descend_through a b c h :
  ancestor a b -> ancestor b c ->
  descend a h c = descend b (descend a h b) c.
Proof.
  intros Hab Hbc. pose proof (ancestor_zeros_le _ _ Hab).
  destruct (countTrailingZeros_spec b) as (Hzb & Hmb & _).
  unfold descend. apply walk_through; [lia| |]; rewrite Z2Nat.id by lia; done.
Qed.

Lemma descend_refl a h : descend a h a = h.
Proof.
  unfold descend. rewrite bits_below_zero; [done|].
  destruct (countTrailingZeros_spec a) as (Hz & Hm & _). by rewrite Z2Nat.id by lia.
Qed.

Lemma root_zeros : countTrailingZeros rootIndex = 48.
Proof. by vm_compute. Qed.

Lemma ancestor_root m : 0 <= m < 2 ^ 48 -> ancestor rootIndex m.
Proof. intros Hm. unfold ancestor. rewrite root_zeros, (Z.div_small m) by lia. done. Qed.

(** ** Geometry of the buckets *)

(** Two nodes with the same number of trailing zeros are [2 ^ (z + 1)] apart. *)
Lemma same_zeros_apart a b :
  0 <= a < b -> b < 2 ^ 48 -> countTrailingZeros a = countTrailingZeros b ->
  a <> 0 -> b - a >= 2 ^ (countTrailingZeros b + 1).
Proof.
  intros Hab Hb E Ha0.
  destruct (countTrailingZeros_spec a) as (Hza & Hma & Hba).
  destruct (countTrailingZeros_spec b) as (Hzb & Hmb & Hbb).
  set (z := countTrailingZeros b) in *. rewrite E in *. unfold maxHeight in *.
  assert (z < 48) as Hz.
  { destruct (Z.eq_dec z 48) as [Ez|]; [|lia]. rewrite Ez, Z.mod_small in Hmb by lia. lia. }
  specialize (Hba Hz). specialize (Hbb Hz).
  rewrite Z.testbit_eqb in Hba, Hbb by lia.
  apply Z.eqb_eq in Hba, Hbb.
  rewrite Z.pow_add_r by lia. change (2 ^ 1) with 2.
  assert (0 < 2 ^ z) by lia.
  pose proof (Z.div_mod a (2 ^ z) ltac:(lia)). pose proof (Z.div_mod b (2 ^ z) ltac:(lia)).
  pose proof (Z.div_mod (a / 2 ^ z) 2 ltac:(lia)).
  pose proof (Z.div_mod (b / 2 ^ z) 2 ltac:(lia)).
  assert (a / 2 ^ z < b / 2 ^ z) by nia.
  assert (b / 2 ^ z - a / 2 ^ z >= 2) by lia.
  assert (b - a = 2 ^ z * (b / 2 ^ z - a / 2 ^ z)) as -> by lia. nia.
Qed.

Lemma drop_level (P : nat -> Prop) n :
  (forall k, Decision (P k)) -> P O -> ~ P n -> exists k, (k < n)%nat /\ P k /\ ~ P (S k).
Proof.
  intros HP H0. induction n as [|n IH]; intros Hn; [done|].
  destruct (decide (P n)) as [Hp|Hp]; [exists n; eauto|].
  destruct (IH Hp) as (k & ? & ? & ?). exists k. split; [lia|done].
Qed.

(** Every index above [idx] has an ancestor among the nodes that are the first
    of their level above [idx]. *)
Lemma covering idx m :
  0 <= idx < m -> m < 2 ^ 48 ->
  exists b, idx < b <= m /\ ancestor b m /\ countTrailingZeros b < 48 /\
            b - idx <= 2 ^ countTrailingZeros b.
Proof.
  intros Hidx Hm.
  destruct (drop_level (fun k => idx / 2 ^ Z.of_nat k < m / 2 ^ Z.of_nat k) 48)
    as (k & Hk & Hlt & Hge).
  - intros k. apply _.
  - rewrite !Z.div_1_r. lia.
  - change (Z.of_nat 48) with 48. rewrite !Z.div_small by lia. lia.
  - set (p := 2 ^ Z.of_nat k) in *. assert (0 < p) by (subst p; lia).
    replace (2 ^ Z.of_nat (S k)) with (p * 2) in Hge
      by (rewrite Nat2Z.inj_succ, Z.pow_succ_r by lia; subst p; lia).
    rewrite <- !Z.div_div in Hge by lia.
    pose proof (Z.div_mod m p ltac:(lia)). pose proof (Z.mod_pos_bound m p ltac:(lia)).
    pose proof (Z.div_mod idx p ltac:(lia)). pose proof (Z.mod_pos_bound idx p ltac:(lia)).
    pose proof (Z.div_mod (m / p) 2 ltac:(lia)).
    pose proof (Z.div_mod (idx / p) 2 ltac:(lia)).
    pose proof (Z.mod_pos_bound (m / p) 2 ltac:(lia)).
    pose proof (Z.mod_pos_bound (idx / p) 2 ltac:(lia)).
    assert ((m / p) mod 2 = 1 /\ m / p = idx / p + 1) as [Hodd Hs] by nia.
    assert (m / p * p / p = m / p) as Hd by (apply Z.div_mul; lia).
    assert (countTrailingZeros (m / p * p) = Z.of_nat k) as Hz.
    { apply countTrailingZeros_eq. split; [unfold maxHeight; lia|]. fold p. split.
      - apply Z.mod_mul. lia.
      - intros _. rewrite Z.testbit_eqb by lia. fold p. rewrite Hd, Hodd. done. }
    exists (m / p * p). unfold ancestor. rewrite Hz. fold p. rewrite Hd.
    split; [nia|]. split; [done|]. split; [lia|]. nia.
Qed.

End Walks.

Section StoreInvariant.
Context `{Hasher}.

Lemma isEqual_eq e e2 : isEqual e e2 = true <-> e = e2.
Proof.
  destruct e, e2. unfold isEqual. cbn.
  rewrite andb_true_iff, Z.eqb_eq, bool_decide_eq_true. split; [intros [-> ->]; done|].
  by intros [= -> ->].
Qed.

Lemma check_buckets_ok n i bs e :
  check_buckets n i bs e = Ok tt <->
  forall j, (i <= j < i + n)%nat ->
    exists b, bs !! j = Some b /\ derive e (el_index b) = Ok b.
Proof.
  revert i. induction n as [|n IH]; intros i; cbn [check_buckets].
  { split; [intros _ j Hj; lia|done]. }
  split.
  - intros (b & Hb & (e' & He & Hc)%bind_ok)%bind_ok j Hj.
    apply index_ok in Hb. destruct (isEqual e' b) eqn:Eq; [|done].
    apply isEqual_eq in Eq as ->. destruct (decide (i = j)) as [<-|]; [eauto|].
    cbn [negb] in Hc. apply (proj1 (IH _) Hc). lia.
  - intros Hall. destruct (Hall i ltac:(lia)) as (b & Hb & Hd).
    apply bind_ok. exists b. split; [by apply index_ok|].
    apply bind_ok. exists b. split; [done|].
    assert (isEqual b b = true) as -> by by apply isEqual_eq.
    cbn. apply IH. intros j Hj. apply Hall. lia.
Qed.

Lemma lookup_from_ok n i bs m h :
  is_u64 m ->
  (forall j, (i <= j < i + n)%nat -> exists e, bs !! j = Some e /\
     (ancestor (el_index e) m -> descend (el_index e) (el_hash e) m = h)) ->
  (exists j e, (i <= j < i + n)%nat /\ bs !! j = Some e /\ ancestor (el_index e) m) ->
  lookup_from n i bs m = Ok h.
Proof.
  intros Hm. revert i. induction n as [|n IH]; intros i Hall (j & e & Hj & He & Ha); [lia|].
  cbn [lookup_from]. destruct (Hall i ltac:(lia)) as (b & Hb & Hd).
  rewrite (proj2 (index_ok bs i b) Hb). cbn.
  destruct (ancestor_dec (el_index b) m) as [Hab|Hab].
  - rewrite derive_ok by done. cbn. by rewrite Hd.
  - rewrite derive_err by done. apply IH; [intros j' Hj'; apply Hall; lia|].
    exists j, e. split; [|done]. enough (i <> j) by lia. intros ->. congruence.
Qed.

(** What the store knows after it accepted [hs], the secrets of the first
    [length hs] indexes: the first node of every level above the next index is in
    its bucket, and every bucket derives exactly the accepted secrets below it. *)
Record store_inv (hs : list (list byte)) (s : RevocationStore) : Prop := {
  inv_bound : Z.of_nat (length hs) < 2 ^ 48;
  inv_buckets : length (buckets s) = 48%nat;
  inv_index : store_index s = startIndex - Z.of_nat (length hs);
  inv_len : 0 <= lenBuckets s <= 48;
  inv_first : forall m, store_index s < m <= startIndex ->
    m - store_index s <= 2 ^ (countTrailingZeros m + 1) ->
    countTrailingZeros m < lenBuckets s /\
    exists h, buckets s !! Z.to_nat (countTrailingZeros m) = Some (Element m h);
  inv_sound : forall k e, Z.of_nat k < lenBuckets s -> buckets s !! k = Some e ->
    store_index s < el_index e <= startIndex /\
    countTrailingZeros (el_index e) = Z.of_nat k /\
    forall m h, m <= startIndex -> ancestor (el_index e) m ->
      hs !! Z.to_nat (startIndex - m) = Some h ->
      descend (el_index e) (el_hash e) m = h;
}.

Lemma store_inv_new : store_inv [] NewRevocationStore.
Proof.
  split; cbn; try done; intros; lia.
Qed.

(** The level-[j] child of [idx], for [j] below the level of [idx]. *)
Lemma child_zeros idx j :
  0 <= idx < 2 ^ 48 -> 0 <= j < countTrailingZeros idx ->
  countTrailingZeros (idx + 2 ^ j) = j /\ idx + 2 ^ j < 2 ^ 48.
Proof.
  intros Hidx Hj. destruct (countTrailingZeros_spec idx) as (Hz & Hm & _).
  set (z := countTrailingZeros idx) in *. unfold maxHeight in Hz.
  assert (2 ^ 48 = 2 ^ (48 - z) * 2 ^ z) as Hsplit
    by (rewrite <- Z.pow_add_r by lia; f_equal; lia).
  assert (2 ^ z = 2 ^ (z - j - 1) * 2 * 2 ^ j) as Hzj.
  { replace (2 ^ (z - j - 1) * 2) with (2 ^ (z - j - 1 + 1))
      by (rewrite Z.pow_add_r by lia; lia).
    rewrite <- Z.pow_add_r by lia. f_equal. lia. }
  pose proof (Z.div_mod idx (2 ^ z) ltac:(lia)) as Hd.
  assert (0 < 2 ^ j) by lia. assert (0 < 2 ^ (z - j - 1)) by lia.
  split.
  - apply countTrailingZeros_eq. split; [unfold maxHeight; lia|]. split.
    + rewrite Z.add_mod, Z.mod_same, (mod_pow2_le idx j z), Z.add_0_l by (done || lia).
      apply Z.mod_0_l. lia.
    + intros _. rewrite Z.testbit_eqb by lia.
      replace (idx + 2 ^ j) with ((1 + (2 ^ (z - j - 1) * (idx / 2 ^ z)) * 2) * 2 ^ j) by nia.
      rewrite Z.div_mul, Z_mod_plus_full by lia. done.
  - assert (idx / 2 ^ z < 2 ^ (48 - z)) by nia. nia.
Qed.

Lemma ancestor_child idx j :
  0 <= idx < 2 ^ 48 -> 0 <= j < countTrailingZeros idx -> ancestor idx (idx + 2 ^ j).
Proof.
  intros Hidx Hj. destruct (countTrailingZeros_spec idx) as (Hz & Hm & _).
  unfold ancestor. set (z := countTrailingZeros idx) in *.
  assert (2 ^ j < 2 ^ z) by (apply Z.pow_lt_mono_r; lia).
  pose proof (Z.div_mod idx (2 ^ z) ltac:(lia)) as Hd. rewrite Hm, Z.add_0_r in Hd.
  rewrite Hd at 2. rewrite Z.mul_comm, Z.div_add_l, (Z.div_small (2 ^ j)) by lia. lia.
Qed.

(** A node first of its level above [idx] and below [idx] in the tree is of a
    lower level than [idx]. *)
Lemma below_zeros idx b :
  0 <= idx < b -> ancestor idx b -> countTrailingZeros b < countTrailingZeros idx.
Proof.
  intros Hidx Ha. pose proof (ancestor_zeros_le _ _ Ha).
  enough (countTrailingZeros b <> countTrailingZeros idx) by lia. intros E.
  destruct (countTrailingZeros_spec idx) as (Hz & Hm & _).
  destruct (countTrailingZeros_spec b) as (_ & Hmb & _).
  unfold ancestor in Ha. rewrite E in Hmb. set (p := 2 ^ countTrailingZeros idx) in *.
  assert (0 < p) by (subst p; lia).
  pose proof (Z.div_mod idx p ltac:(lia)). pose proof (Z.div_mod b p ltac:(lia)). nia.
Qed.

Lemma ancestor_between idx b m :
  0 <= idx <= b -> b <= m -> ancestor idx m -> ancestor idx b.
Proof.
  unfold ancestor. intros Hidx Hb Ha.
  destruct (countTrailingZeros_spec idx) as (Hz & _).
  set (p := 2 ^ countTrailingZeros idx) in *. assert (0 < p) by (subst p; lia).
  pose proof (Z.div_le_mono idx b p ltac:(lia) ltac:(lia)).
  pose proof (Z.div_le_mono b m p ltac:(lia) ltac:(lia)). lia.
Qed.

Lemma AddNextEntry_ok s h s' :
  AddNextEntry s h = Ok s' ->
  let idx := store_index s in let b := countTrailingZeros idx in
  (forall j, (j < Z.to_nat b)%nat -> exists e, buckets s !! j = Some e /\
     derive (Element idx h) (el_index e) = Ok e) /\
  (Z.to_nat b < length (buckets s))%nat /\
  s' = Store (if b + 1 >? lenBuckets s then b + 1 else lenBuckets s)
             (<[Z.to_nat b := Element idx h]> (buckets s)) (u64 (idx - 1)).
Proof.
  unfold AddNextEntry. cbn [el_index].
  intros ([] & Hc & Hs)%bind_ok. pose proof (countTrailingZeros_range (store_index s)).
  rewrite u8_small in Hs by (unfold is_u8; lia).
  destruct (Nat.ltb_spec (Z.to_nat (countTrailingZeros (store_index s)))
              (length (buckets s))); [|done].
  injection Hs as <-. split; [|done].
  intros j Hj. apply (proj1 (check_buckets_ok _ _ _ _) Hc). lia.
Qed.

Section Step.
Context (hs : list (list byte)) (s : RevocationStore) (h : list byte).
Context (Hinv : store_inv hs s).
#[local] Abbreviation idx := (store_index s).

Lemma step_index_range : 0 <= idx < 2 ^ 48.
Proof.
  rewrite (inv_index _ _ Hinv), startIndex_val.
  pose proof (inv_bound _ _ Hinv). lia.
Qed.

(** The node of a level below the next index is in its bucket. *)
Lemma step_child j :
  0 <= j < countTrailingZeros idx ->
  j < lenBuckets s /\ exists h', buckets s !! Z.to_nat j = Some (Element (idx + 2 ^ j) h').
Proof.
  intros Hj. pose proof step_index_range as Hidx.
  destruct (child_zeros idx j Hidx Hj) as [Hz Hlt].
  destruct (inv_first _ _ Hinv (idx + 2 ^ j)) as [Hlen (h' & Hb)].
  - rewrite startIndex_val. lia.
  - rewrite Hz, Z.pow_add_r by lia. lia.
  - rewrite Hz in *. eauto.
Qed.

(** Every bucket below the level of the next index holds the secret of the
    index it is labelled with. *)
Lemma step_bucket k e :
  Z.of_nat k < lenBuckets s -> buckets s !! k = Some e ->
  hs !! Z.to_nat (startIndex - el_index e) = Some (el_hash e).
Proof.
  intros Hk He. destruct (inv_sound _ _ Hinv k e Hk He) as (Hr & _ & Hd).
  destruct (hs !! Z.to_nat (startIndex - el_index e)) as [h'|] eqn:E.
  - rewrite <- (Hd (el_index e) h'); [by rewrite descend_refl|lia|done|done].
  - exfalso. apply lookup_ge_None in E. rewrite (inv_index _ _ Hinv) in Hr. lia.
Qed.

Lemma step_first s' m :
  AddNextEntry s h = Ok s' -> idx - 1 < m <= startIndex ->
  m - (idx - 1) <= 2 ^ (countTrailingZeros m + 1) ->
  countTrailingZeros m < lenBuckets s' /\
  exists h', buckets s' !! Z.to_nat (countTrailingZeros m) = Some (Element m h').
Proof.
  intros Hadd Hm Hd. pose proof step_index_range as Hidx.
  pose proof (countTrailingZeros_range m). pose proof (countTrailingZeros_range idx).
  apply AddNextEntry_ok in Hadd as (Hchk & Hb & ->). cbn.
  destruct (decide (m = idx)) as [->|Hne].
  - split; [destruct (Z.gtb_spec (countTrailingZeros idx + 1) (lenBuckets s)); lia|].
    exists h. by rewrite list_lookup_insert_eq.
  - destruct (inv_first _ _ Hinv m) as [Hlen (h' & Hm')]; [lia|lia|].
    split; [destruct (Z.gtb_spec (countTrailingZeros idx + 1) (lenBuckets s)); lia|].
    exists h'. rewrite list_lookup_insert_ne; [done|].
    intros E. apply Z2Nat.inj in E; [|lia..].
    rewrite startIndex_val in Hm. destruct (decide (idx = 0)) as [E0|].
    + rewrite (inv_buckets _ _ Hinv), E0 in Hb. change 0 with rootIndex in Hb.
      rewrite root_zeros in Hb. lia.
    + pose proof (same_zeros_apart idx m ltac:(lia) ltac:(lia) E ltac:(done)). lia.
Qed.

(** The new element derives every accepted secret below it: the buckets it was
    checked against stand between them. *)
Lemma step_derives s' m h' :
  AddNextEntry s h = Ok s' -> idx < m -> m <= startIndex -> ancestor idx m ->
  hs !! Z.to_nat (startIndex - m) = Some h' -> descend idx h m = h'.
Proof.
  intros Hadd Hlt Hm Ha Hh. pose proof step_index_range as Hidx.
  apply AddNextEntry_ok in Hadd as (Hchk & _ & _). 
  rewrite startIndex_val in Hm.
  destruct (covering idx m ltac:(lia) ltac:(lia)) as (b & Hb & Hbm & Hbz & Hbd).
  assert (ancestor idx b) as Hib by (eapply ancestor_between; [| |exact Ha]; lia).
  pose proof (below_zeros idx b ltac:(lia) Hib) as Hz.
  pose proof (countTrailingZeros_range b).
  destruct (inv_first _ _ Hinv b) as [Hlen (hb & Hbk)].
  { rewrite startIndex_val. lia. }
  { rewrite Z.pow_add_r by lia. lia. }
  destruct (Hchk (Z.to_nat (countTrailingZeros b)) ltac:(lia)) as (e & He & Hde).
  rewrite Hbk in He. injection He as <-. cbn in Hde.
  rewrite derive_ok in Hde by (done || unfold is_u64; lia). cbn in Hde. injection Hde as Hde.
  rewrite (descend_through idx b m) by done. rewrite Hde.
  destruct (inv_sound _ _ Hinv (Z.to_nat (countTrailingZeros b)) (Element b hb))
    as (_ & _ & Hs); [lia|done|].
  apply Hs; [rewrite startIndex_val; lia|done|done].
Qed.

(** The level of the next index is at most one above the active buckets. *)
Lemma step_level_le : countTrailingZeros idx <= lenBuckets s.
Proof.
  pose proof (countTrailingZeros_range idx). pose proof (inv_len _ _ Hinv).
  destruct (decide (countTrailingZeros idx = 0)); [lia|].
  destruct (step_child (countTrailingZeros idx - 1)); lia.
Qed.

Lemma known_nonneg (l : list (list byte)) m h' :
  Z.of_nat (length l) <= 2 ^ 48 ->
  l !! Z.to_nat (startIndex - m) = Some h' -> 0 <= m.
Proof.
  intros Hl Hh%lookup_lt_Some. rewrite startIndex_val in Hh.
  destruct (decide (0 <= m)); lia.
Qed.

(** The new bucket is sound. *)
Lemma step_sound_new s' m h' :
  AddNextEntry s h = Ok s' -> m <= startIndex -> ancestor idx m ->
  (hs ++ [h]) !! Z.to_nat (startIndex - m) = Some h' -> descend idx h m = h'.
Proof.
  intros Hadd Hm Ha Hh. pose proof (inv_index _ _ Hinv) as Hi.
  pose proof (inv_bound _ _ Hinv) as Hn. rewrite startIndex_val in *.
  assert (0 <= m) as Hm0.
  { eapply known_nonneg; [|rewrite startIndex_val; exact Hh]. rewrite length_app. cbn. lia. }
  pose proof (ancestor_le _ _ Hm0 Ha) as Hle.
  destruct (decide (m = idx)) as [->|Hne].
  - rewrite descend_refl. rewrite lookup_app_r in Hh by lia.
    replace (_ - _)%nat with O in Hh by lia. by injection Hh.
  - rewrite lookup_app_l in Hh by lia.
    eapply step_derives; eauto; rewrite ?startIndex_val; (done || lia).
Qed.

(** The other buckets stay sound: the new index is not below them. *)
Lemma step_sound_old k e m h' :
  Z.of_nat k < lenBuckets s -> buckets s !! k = Some e ->
  m <= startIndex -> ancestor (el_index e) m ->
  (hs ++ [h]) !! Z.to_nat (startIndex - m) = Some h' ->
  descend (el_index e) (el_hash e) m = h'.
Proof.
  intros Hk He Hm Ha Hh. destruct (inv_sound _ _ Hinv k e Hk He) as (Hr & _ & Hd).
  pose proof (inv_index _ _ Hinv) as Hi. pose proof (inv_bound _ _ Hinv) as Hn.
  assert (0 <= m) as Hm0.
  { eapply known_nonneg; [|exact Hh]. rewrite length_app. cbn. lia. }
  pose proof (ancestor_le _ _ Hm0 Ha).
  apply Hd; [done|done|]. rewrite lookup_app_l in Hh; [done|]. lia.
Qed.

End Step.

(** The step keeps the invariant, whatever secret the peer sent. *)
Lemma store_inv_step hs s h s' :
  store_inv hs s -> AddNextEntry s h = Ok s' -> store_inv (hs ++ [h]) s'.
Proof.
  intros Hinv Hadd. pose proof (step_index_range _ _ Hinv) as Hidx.
  pose proof (AddNextEntry_ok _ _ _ Hadd) as (_ & Hb & Hs').
  pose proof (inv_buckets _ _ Hinv) as Hlenb. pose proof (inv_len _ _ Hinv) as HlenB.
  pose proof (step_level_le _ _ Hinv) as Hlev.
  pose proof (countTrailingZeros_range (store_index s)) as Hz.
  assert (0 < store_index s) as Hpos.
  { enough (store_index s <> 0) by lia. intros E.
    rewrite Hlenb, E in Hb. change 0 with rootIndex in Hb. rewrite root_zeros in Hb. lia. }
  assert (store_index s' = store_index s - 1) as Hi'.
  { subst s'. cbn. apply u64_small. unfold is_u64. lia. }
  assert (Z.of_nat (length (hs ++ [h])) = Z.of_nat (length hs) + 1) as Hlen'.
  { rewrite length_app. cbn. lia. }
  pose proof (inv_index _ _ Hinv) as Hi.
  split.
  - rewrite Hlen'. rewrite startIndex_val in Hi. lia.
  - subst s'. cbn. by rewrite length_insert.
  - rewrite Hi', Hlen', Hi. lia.
  - subst s'. cbn.
    destruct (Z.gtb_spec (countTrailingZeros (store_index s) + 1) (lenBuckets s)); lia.
  - rewrite Hi'. intros m Hm Hd. eapply step_first; eauto.
  - intros k e Hk He. rewrite Hi'.
    destruct (decide (k = Z.to_nat (countTrailingZeros (store_index s)))) as [->|Hne].
    + subst s'. cbn in He. rewrite list_lookup_insert_eq in He by done. injection He as <-.
      cbn. split; [rewrite startIndex_val; lia|]. split; [lia|].
      intros m h' Hm Ha Hh. eapply step_sound_new; eauto.
    + subst s'. cbn in He, Hk. rewrite list_lookup_insert_ne in He by done.
      assert (Z.of_nat k < lenBuckets s) as Hk'.
      { destruct (Z.gtb_spec (countTrailingZeros (store_index s) + 1) (lenBuckets s)); lia. }
      destruct (inv_sound _ _ Hinv k e Hk' He) as (Hr & Hc & _).
      split; [lia|]. split; [done|]. intros m h' Hm Ha Hh. eapply step_sound_old; eauto.
Qed.

Lemma add_all_inv hs hs' s s' :
  store_inv hs s -> add_all s hs' = Ok s' -> store_inv (hs ++ hs') s'.
Proof.
  revert hs s. induction hs' as [|h hs' IH]; intros hs s Hinv; cbn [add_all].
  - intros [= <-]. by rewrite app_nil_r.
  - intros (s1 & Hadd & Hrest)%bind_ok.
    rewrite cons_middle, app_assoc. eapply IH; [|done]. by eapply store_inv_step.
Qed.

Lemma bucket_lookup hs s j :
  store_inv hs s -> (j < Z.to_nat (lenBuckets s))%nat -> exists e, buckets s !! j = Some e.
Proof.
  intros Hinv Hj. apply lookup_lt_is_Some. rewrite (inv_buckets _ _ Hinv).
  pose proof (inv_len _ _ Hinv). lia.
Qed.

Lemma LookUp_inv hs s v h :
  store_inv hs s -> hs !! v = Some h -> LookUp s (Z.of_nat v) = Ok h.
Proof.
  intros Hinv Hv. pose proof (inv_bound _ _ Hinv) as Hn. pose proof (inv_index _ _ Hinv) as Hi.
  pose proof (lookup_lt_Some _ _ _ Hv) as Hlt.
  unfold LookUp. rewrite newIndex_small by lia.
  assert (Z.to_nat (startIndex - (startIndex - Z.of_nat v)) = v) as Hback by lia.
  rewrite startIndex_val in Hi.
  apply lookup_from_ok; [rewrite startIndex_val; unfold is_u64; lia| |].
  - intros j Hj. destruct (bucket_lookup _ _ j Hinv ltac:(lia)) as [e He].
    exists e. split; [done|]. intros Ha.
    destruct (inv_sound _ _ Hinv j e ltac:(lia) He) as (_ & _ & Hd).
    apply Hd; [lia|done|by rewrite Hback].
  - rewrite startIndex_val.
    destruct (covering (store_index s) (2 ^ 48 - 1 - Z.of_nat v)) as (b & Hb & Ha & Hz & Hd);
      [lia|lia|].
    pose proof (countTrailingZeros_range b).
    destruct (inv_first _ _ Hinv b) as [Hlen (hb & He)].
    { rewrite startIndex_val. lia. }
    { rewrite Z.pow_add_r by lia. lia. }
    exists (Z.to_nat (countTrailingZeros b)), (Element b hb). split; [lia|done].
Qed.

(** C15. Whatever secrets a peer reveals, if the store accepts them one after the
    other then it can return each of them: [LookUp v] is the [v]-th accepted
    secret. *)
Theorem store_returns_accepted hs s v h :
  add_all NewRevocationStore hs = Ok s -> hs !! v = Some h ->
  LookUp s (Z.of_nat v) = Ok h.
Proof.
  intros Hadd. apply LookUp_inv.
  apply (add_all_inv [] hs _ _ store_inv_new Hadd).
Qed.

(** ** Lookups of secrets not yet revealed *)

Lemma newIndex_range v : is_u64 v -> is_u64 (newIndex v).
Proof. intros _. apply u64_range. Qed.

Lemma newIndex_large v : is_u64 v -> 2 ^ 48 <= v -> 2 ^ 48 <= newIndex v < 2 ^ 64.
Proof.
  intros Hv Hge. split; [|apply u64_range].
  unfold newIndex. rewrite (u64_small v) by done. rewrite startIndex_val.
  unfold u64, is_u64 in *.
  replace (2 ^ 48 - 1 - v) with (2 ^ 48 - 1 - v + 2 ^ 64 + (-1) * 2 ^ 64) by lia.
  rewrite Z_mod_plus_full, Z.mod_small by lia. lia.
Qed.

Lemma not_ancestor_large a m : 0 <= a < 2 ^ 48 -> 2 ^ 48 <= m -> ~ ancestor a m.
Proof.
  intros Ha Hm E. unfold ancestor in E. pose proof (countTrailingZeros_range a) as Hz.
  set (z := countTrailingZeros a) in *.
  assert (2 ^ 48 = 2 ^ (48 - z) * 2 ^ z) as Hs by (rewrite <- Z.pow_add_r by lia; f_equal; lia).
  assert (0 < 2 ^ z) by lia.
  pose proof (Z.div_lt_upper_bound a (2 ^ z) (2 ^ (48 - z)) ltac:(lia) ltac:(lia)).
  pose proof (Z.div_le_lower_bound m (2 ^ z) (2 ^ (48 - z)) ltac:(lia) ltac:(lia)). lia.
Qed.

Lemma lookup_from_err n i bs m :
  is_u64 m ->
  (forall j, (i <= j < i + n)%nat -> exists e, bs !! j = Some e /\ ~ ancestor (el_index e) m) ->
  lookup_from n i bs m = Err errNotInStore.
Proof.
  intros Hm. revert i. induction n as [|n IH]; intros i Hall; [done|].
  cbn [lookup_from]. destruct (Hall i ltac:(lia)) as (e & He & Ha).
  rewrite (proj2 (index_ok bs i e) He). cbn. rewrite derive_err by done.
  apply IH. intros j Hj. apply Hall. lia.
Qed.

(** The store knows nothing it was not given: looking up an index at or past
    the number of accepted secrets, or past the tree, is an error and never a
    made-up secret. *)
Theorem store_rejects_unrevealed hs s v :
  add_all NewRevocationStore hs = Ok s -> is_u64 v -> Z.of_nat (length hs) <= v ->
  LookUp s v = Err errNotInStore.
Proof.
  intros Hadd Hv Hge.
  pose proof (add_all_inv [] hs _ _ store_inv_new Hadd) as Hinv.
  pose proof (inv_index _ _ Hinv) as Hi. cbn in Hi.
  apply lookup_from_err; [by apply newIndex_range|]. intros j Hj.
  destruct (bucket_lookup _ _ j Hinv ltac:(lia)) as [e He]. exists e. split; [done|].
  destruct (inv_sound _ _ Hinv j e ltac:(lia) He) as (Hr & _ & _).
  rewrite startIndex_val in *. pose proof (step_index_range _ _ Hinv).
  destruct (Z.lt_ge_cases v (2 ^ 48)) as [Hlt|Hlarge].
  - rewrite newIndex_small, startIndex_val by lia.
    intros Ha%ancestor_le; [|lia]. lia.
  - apply not_ancestor_large; [lia|]. by apply newIndex_large.
Qed.

(** ** The producer *)

(** The producer's domain: [AtIndex v] is defined exactly below [2 ^ 48]; the
    wrap-around of [startIndex - v] never yields a secret. *)
Theorem AtIndex_domain h v :
  is_u64 v -> (exists s, AtIndex (NewRevocationProducer h) v = Ok s) <-> v < 2 ^ 48.
Proof.
  intros Hv. unfold AtIndex, NewRevocationProducer. cbn [root]. split.
  - intros (s & Hs). destruct (Z.lt_ge_cases v (2 ^ 48)) as [|Hge]; [done|].
    rewrite derive_err in Hs; [done|by apply newIndex_range|].
    apply not_ancestor_large; [cbn [el_index]; unfold rootIndex; lia|]. by apply newIndex_large.
  - intros Hlt. unfold is_u64 in Hv. rewrite newIndex_small, startIndex_val by lia.
    eexists. rewrite derive_ok; [reflexivity|unfold is_u64; lia|].
    apply ancestor_root. lia.
Qed.

Lemma AtIndex_val h v :
  0 <= v < 2 ^ 48 ->
  AtIndex (NewRevocationProducer h) v = Ok (descend rootIndex h (startIndex - v)).
Proof.
  intros Hv. unfold AtIndex, NewRevocationProducer. cbn [root].
  rewrite newIndex_small by done. rewrite startIndex_val.
  rewrite derive_ok; [done|unfold is_u64; lia|]. apply ancestor_root. lia.
Qed.

(** The first [n] secrets of a producer, in the order they are revealed. *)
Definition secrets (h : list byte) (n : nat) : list (list byte) :=
  map (fun v => descend rootIndex h (startIndex - Z.of_nat v)) (seq 0 n).

Lemma secrets_lookup h n v :
  (v < n)%nat -> secrets h n !! v = Some (descend rootIndex h (startIndex - Z.of_nat v)).
Proof.
  intros Hv. unfold secrets. rewrite list_lookup_fmap, lookup_seq_lt by done. done.
Qed.

Lemma secrets_S h n :
  secrets h (S n) = secrets h n ++ [descend rootIndex h (startIndex - Z.of_nat n)].
Proof. unfold secrets. rewrite seq_S, map_app. done. Qed.

Lemma add_all_app s hs h :
  add_all s (hs ++ [h]) = s' ← add_all s hs; AddNextEntry s' h.
Proof.
  revert s. induction hs as [|h' hs IH]; intros s; cbn [add_all app].
  - cbn. by destruct (AddNextEntry s h).
  - cbn. destruct (AddNextEntry s h'); [apply IH|done|done].
Qed.

(** A producer's next secret passes the checks of a store that holds the
    previous ones. *)
Lemma producer_next h n s :
  store_inv (secrets h n) s -> (Z.of_nat n + 1 < 2 ^ 48) ->
  exists s', AddNextEntry s (descend rootIndex h (startIndex - Z.of_nat n)) = Ok s'.
Proof.
  intros Hinv Hn. pose proof (step_index_range _ _ Hinv) as Hidx.
  pose proof (inv_index _ _ Hinv) as Hi. unfold secrets in Hi.
  rewrite length_map, length_seq in Hi.
  pose proof (countTrailingZeros_range (store_index s)) as Hz. rewrite <- Hi.
  assert (countTrailingZeros (store_index s) < 48) as Hz'.
  { enough (countTrailingZeros (store_index s) <> 48) by lia. intros E.
    destruct (countTrailingZeros_spec (store_index s)) as (_ & Hm & _).
    rewrite E, Z.mod_small in Hm by lia. rewrite startIndex_val in Hi. lia. }
  eexists. unfold AddNextEntry. cbn [el_index]. apply bind_ok. exists tt. split.
  - apply check_buckets_ok. intros j Hj.
    destruct (step_child _ _ Hinv (Z.of_nat j) ltac:(lia)) as [Hlen (hb & Hb)].
    rewrite Nat2Z.id in Hb. exists (Element (store_index s + 2 ^ Z.of_nat j) hb).
    split; [done|]. cbn [el_index].
    destruct (child_zeros (store_index s) (Z.of_nat j) Hidx ltac:(lia)) as [Hcz Hclt].
    pose proof (ancestor_child (store_index s) (Z.of_nat j) Hidx ltac:(lia)) as Hac.
    rewrite derive_ok by (done || unfold is_u64; lia). cbn [el_index el_hash].
    rewrite <- descend_through by (done || apply ancestor_root; lia).
    pose proof (step_bucket _ _ Hinv j _ ltac:(lia) Hb) as Hs. cbn in Hs.
    rewrite secrets_lookup in Hs by (rewrite startIndex_val in *; lia). injection Hs as <-.
    do 3 f_equal. rewrite startIndex_val in *. lia.
  - rewrite (inv_buckets _ _ Hinv).
    destruct (Nat.ltb_spec (Z.to_nat (countTrailingZeros (store_index s))) 48); [done|lia].
Qed.

Lemma producer_accepted_inv h n :
  Z.of_nat n < 2 ^ 48 -> exists s, add_all NewRevocationStore (secrets h n) = Ok s.
Proof.
  induction n as [|n IH]; intros Hn; [by eexists|].
  destruct (IH ltac:(lia)) as [s Hs]. rewrite secrets_S, add_all_app, Hs.
  apply producer_next; [|lia]. apply (add_all_inv [] _ _ _ store_inv_new Hs).
Qed.

Lemma mapM_AtIndex h n k :
  Z.of_nat (k + n) <= 2 ^ 48 ->
  mapM (AtIndex (NewRevocationProducer h)) (map Z.of_nat (seq k n))
  = Ok (map (fun v => descend rootIndex h (startIndex - Z.of_nat v)) (seq k n)).
Proof.
  revert k. induction n as [|n IH]; intros k Hk; cbn [seq map mapM]; [done|].
  rewrite AtIndex_val by lia. cbn. rewrite IH by lia. done.
Qed.

(** C21. Producer and store fit together: for every root and every [n] below
    [2 ^ 48] the first [n] secrets exist, the store accepts all of them in order,
    and afterwards it agrees with the producer on every index below [n]. *)
Theorem store_accepts_producer h n :
  Z.of_nat n < 2 ^ 48 ->
  exists hs s,
    mapM (AtIndex (NewRevocationProducer h)) (map Z.of_nat (seq 0 n)) = Ok hs /\
    add_all NewRevocationStore hs = Ok s /\
    forall v, (v < n)%nat ->
      LookUp s (Z.of_nat v) = AtIndex (NewRevocationProducer h) (Z.of_nat v).
Proof.
  intros Hn. destruct (producer_accepted_inv h n Hn) as [s Hs].
  exists (secrets h n), s. split; [apply mapM_AtIndex; lia|]. split; [done|].
  intros v Hv. rewrite AtIndex_val by lia.
  apply (LookUp_inv (secrets h n)); [|by apply secrets_lookup].
  apply (add_all_inv [] _ _ _ store_inv_new Hs).
Qed.

(** ** Serialization of the store *)

Definition wf_element (e : element) : Prop :=
  is_u64 (el_index e) /\ length (el_hash e) = 32%nat.

Lemma encode_buckets_ok n i bs :
  (i + n <= length bs)%nat -> exists enc, encode_buckets n i bs = Ok enc.
Proof.
  revert i. induction n as [|n IH]; intros i Hi; cbn [encode_buckets]; [by eexists|].
  destruct (lookup_lt_is_Some_2 bs i ltac:(lia)) as [e He].
  rewrite (proj2 (index_ok bs i e) He). cbn.
  destruct (IH (S i) ltac:(lia)) as [enc ->]. by eexists.
Qed.

Lemma decode_encode_buckets n i bs bs0 enc r :
  encode_buckets n i bs = Ok enc -> length bs0 = length bs ->
  (forall j, ~ (i <= j < i + n)%nat -> bs0 !! j = bs !! j) ->
  (forall j e, (i <= j < i + n)%nat -> bs !! j = Some e -> wf_element e) ->
  decode_buckets n i bs0 (enc ++ r) = Ok (bs, r).
Proof.
  revert i bs0 enc. induction n as [|n IH]; intros i bs0 enc Henc Hlen Hout Hwf;
    cbn [encode_buckets decode_buckets] in *.
  { injection Henc as <-. cbn. do 2 f_equal. apply list_eq. intros j. apply Hout. lia. }
  apply bind_ok in Henc as (e & He & Henc). apply index_ok in He.
  apply bind_ok in Henc as (rest & Hrest & Henc). apply Ok_inj in Henc as <-.
  destruct (Hwf i e ltac:(lia) He) as [Hu Hh].
  rewrite <- !app_assoc, read_be_app by apply Hu. rsimpl.
  rewrite (read_full_app' 32) by done. rsimpl.
  pose proof (lookup_lt_Some _ _ _ He) as Hi.
  destruct (Nat.ltb_spec i (length bs0)); [|lia].
  apply IH; [done|by rewrite length_insert| |].
  - intros j Hj. destruct (decide (i = j)) as [<-|Hne].
    + rewrite list_lookup_insert_eq by lia. rewrite He. by destruct e.
    + rewrite list_lookup_insert_ne by done. apply Hout. lia.
  - intros j e' Hj. apply Hwf. lia.
Qed.

(** The unused buckets of a store are the zero elements it was created with. *)
Definition store_tail (s : RevocationStore) : Prop :=
  forall k, lenBuckets s <= Z.of_nat k < 48 -> buckets s !! k = Some zero_element.

Lemma store_tail_step hs s h s' :
  store_inv hs s -> store_tail s -> AddNextEntry s h = Ok s' -> store_tail s'.
Proof.
  intros Hinv Htail Hadd. pose proof (step_level_le _ _ Hinv).
  pose proof (countTrailingZeros_range (store_index s)).
  apply AddNextEntry_ok in Hadd as (_ & _ & ->). intros k Hk. cbn in *.
  destruct (Z.gtb_spec (countTrailingZeros (store_index s) + 1) (lenBuckets s));
    rewrite list_lookup_insert_ne by lia; apply Htail; lia.
Qed.

Lemma add_all_tail hs hs' s s' :
  store_inv hs s -> store_tail s -> add_all s hs' = Ok s' -> store_tail s'.
Proof.
  revert hs s. induction hs' as [|h hs' IH]; intros hs s Hinv Htail; cbn [add_all].
  - by intros [= <-].
  - intros (s1 & Hadd & Hrest)%bind_ok. eapply IH; [| |done].
    + by eapply store_inv_step.
    + by eapply store_tail_step.
Qed.

Lemma store_tail_new : store_tail NewRevocationStore.
Proof. intros k Hk. cbn [buckets NewRevocationStore]. apply lookup_replicate_2.
  cbn in Hk. unfold maxHeight. lia. Qed.

Lemma replicate_lookup_eq s k :
  length (buckets s) = 48%nat -> store_tail s -> lenBuckets s <= Z.of_nat k ->
  replicate (Z.to_nat maxHeight) zero_element !! k = buckets s !! k.
Proof.
  intros Hlen Htail Hk. destruct (decide (k < 48)%nat).
  - rewrite Htail by lia. apply lookup_replicate_2. unfold maxHeight. lia.
  - rewrite !(proj2 (lookup_ge_None _ _)); [done| |]; rewrite ?length_replicate; unfold maxHeight; lia.
Qed.

(** A store that accepted 32-byte secrets survives a restart: decoding its
    encoding gives the same store back and leaves the rest of the reader. *)
Theorem store_encode_roundtrip hs s rest :
  add_all NewRevocationStore hs = Ok s -> Forall (fun h => length h = 32%nat) hs ->
  exists bs, Encode s = Ok bs /\
             NewRevocationStoreFromBytes (bs ++ rest) = Ok (s, rest).
Proof.
  intros Hadd H32. pose proof (add_all_inv [] hs _ _ store_inv_new Hadd) as Hinv.
  pose proof (add_all_tail [] hs _ _ store_inv_new store_tail_new Hadd) as Htail.
  pose proof (inv_buckets _ _ Hinv) as Hlen. pose proof (inv_len _ _ Hinv) as HlenB.
  destruct (encode_buckets_ok (Z.to_nat (lenBuckets s)) 0 (buckets s)) as [enc Henc]; [lia|].
  unfold Encode. rewrite Henc. cbn. eexists. split; [done|].
  unfold NewRevocationStoreFromBytes. rewrite <- !app_assoc.
  rewrite read_be_app by lia. cbn.
  rewrite (decode_encode_buckets _ _ (buckets s)); [|done|by rewrite length_replicate, Hlen| |].
  - cbn. pose proof (step_index_range _ _ Hinv). rewrite read_be_app by lia. by destruct s.
  - intros j Hj. apply replicate_lookup_eq; [done|done|lia].
  - intros j e Hj He. destruct (inv_sound _ _ Hinv j e ltac:(lia) He) as (Hr & _ & _).
    pose proof (step_index_range _ _ Hinv). rewrite startIndex_val in Hr.
    pose proof (step_bucket _ _ Hinv j e ltac:(lia) He) as Hin. cbn in Hin.
    split; [unfold is_u64; lia|].
    rewrite Forall_forall in H32. eapply H32, list_elem_of_lookup_2; exact Hin.
Qed.

(** ** The ends of the index space *)

Lemma decode_buckets_panic n i bs r :
  (i <= length bs < i + n)%nat -> (40 * n <= length r)%nat ->
  decode_buckets n i bs r = Panic.
Proof.
  revert i bs r. induction n as [|n IH]; intros i bs r Hi Hr; [lia|].
  cbn [decode_buckets].
  assert (exists a b r', r = a ++ b ++ r' /\ length a = 8%nat /\ length b = 32%nat)
    as (a & b & r' & -> & Ha & Hb).
  { exists (take 8 r), (take 32 (drop 8 r)), (drop 32 (drop 8 r)).
    rewrite take_drop, take_drop, !length_take, length_drop. split; [done|]. lia. }
  unfold read_be. rewrite (read_full_app' 8) by done. rsimpl.
  rewrite (read_full_app' 32) by done. rsimpl.
  destruct (Nat.ltb_spec i (length bs)); [|done].
  apply IH; [rewrite length_insert; lia|]. rewrite !length_app in Hr. lia.
Qed.

(** Decoding a store whose first byte claims more than 48 buckets does not
    fail with an error: it indexes the bucket array out of range and panics. *)
Theorem store_decode_overlong_panics len body :
  48 < len < 256 -> 40 * len <= Z.of_nat (length body) ->
  NewRevocationStoreFromBytes (be_bytes 1 len ++ body) = Panic.
Proof.
  intros Hlen Hbody. unfold NewRevocationStoreFromBytes.
  rewrite read_be_app by lia. rsimpl.
  rewrite decode_buckets_panic; [done| |lia].
  rewrite length_replicate. unfold maxHeight. lia.
Qed.

(** The store has no room for the secret of index zero: the last of the [2 ^ 48]
    secrets is never accepted. *)
Lemma store_exhausted s h s' :
  store_index s = 0 -> length (buckets s) = 48%nat -> AddNextEntry s h <> Ok s'.
Proof.
  intros Hi Hlen (_ & Hb & _)%AddNextEntry_ok.
  rewrite Hi, Hlen in Hb. change 0 with rootIndex in Hb. rewrite root_zeros in Hb. lia.
Qed.

End StoreInvariant.

(** ** Concrete runs, with the real SHA-256 *)

Definition demo_secret1 : list byte := replicate 32 x07.
Definition demo_secret0 : list byte := sha256 (flip_bit demo_secret1 0).
Definition demo_store : RevocationStore :=
  match add_all NewRevocationStore [demo_secret0; demo_secret1] with
  | Ok s => s
  | _ => NewRevocationStore
  end.

Lemma store_returns_accepted_witness : LookUp demo_store 0 = Ok demo_secret0.
Proof.
  apply (store_returns_accepted [demo_secret0; demo_secret1] demo_store 0);
    vm_compute; reflexivity.
Defined.

Lemma store_rejects_unrevealed_witness : LookUp demo_store 2 = Err errNotInStore.
Proof.
  apply (store_rejects_unrevealed [demo_secret0; demo_secret1]).
  - vm_compute. reflexivity.
  - split; vm_compute; congruence.
  - vm_compute. congruence.
Defined.

Lemma AtIndex_domain_witness :
  (exists s, AtIndex (NewRevocationProducer demo_secret1) 5 = Ok s) <-> 5 < 2 ^ 48.
Proof. apply AtIndex_domain. split; vm_compute; congruence. Defined.

Lemma store_accepts_producer_witness :
  exists hs s,
    mapM (AtIndex (NewRevocationProducer demo_secret1)) (map Z.of_nat (seq 0 3)) = Ok hs /\
    add_all NewRevocationStore hs = Ok s /\
    forall v, (v < 3)%nat ->
      LookUp s (Z.of_nat v) = AtIndex (NewRevocationProducer demo_secret1) (Z.of_nat v).
Proof. apply store_accepts_producer. vm_compute. reflexivity. Defined.

Lemma store_encode_roundtrip_witness :
  exists bs, Encode demo_store = Ok bs /\
             NewRevocationStoreFromBytes (bs ++ [x01]) = Ok (demo_store, [x01]).
Proof.
  apply (store_encode_roundtrip [demo_secret0; demo_secret1]).
  - vm_compute. reflexivity.
  - repeat constructor.
Defined.

Lemma store_decode_overlong_panics_witness :
  NewRevocationStoreFromBytes (be_bytes 1 49 ++ replicate 1960 x00) = Panic.
Proof.
  apply store_decode_overlong_panics.
  - split; reflexivity.
  - rewrite length_replicate. vm_compute. congruence.
Defined.
