(* ===== verification/Tlv.v ===== *)
(** * TLV streams

    Package [tlv]: the canonical variable-length integer ([varint.go]), the
    truncated integers ([truncated.go]), the primitive codecs ([primitive.go]),
    records ([record.go]) and streams of records ([stream.go]).

    A writer is the list of bytes it received; a reader is the list of bytes it
    still holds.  The dynamically typed pointer [val interface{}] is a [tlv_val]:
    the constructor is the pointer's type, the argument the value it points to, and
    a decoder returns the value it stores through the pointer.  The eight-byte
    scratch buffer carries nothing from one call to the next and is left out.
    Public keys come from a library outside the repository: the class [Secp256k1]
    names the two functions used and what is documented of them. *)

From S2P Require Import Prelude.

(** ** Variable-length integers ([varint.go]) *)

Definition ErrVarIntNotCanonical : error := Error "ErrVarIntNotCanonical".

(** [io.EOF] in the middle of a value is reported as [io.ErrUnexpectedEOF]. *)
Definition no_eof {A} (m : res A) : res A :=
  match m with Err EOF => Err ErrUnexpectedEOF | _ => m end.

Definition ReadVarInt (r : list byte) : res (Z * list byte) :=
  '(discriminant, r1) ← read_be 1 r;
  if discriminant <? 0xfd then Ok (discriminant, r1)
  else if discriminant =? 0xfd then
    '(rv, r2) ← no_eof (read_be 2 r1);
    if rv <? 0xfd then Err ErrVarIntNotCanonical else Ok (rv, r2)
  else if discriminant =? 0xfe then
    '(rv, r2) ← no_eof (read_be 4 r1);
    if rv <=? 0xffff then Err ErrVarIntNotCanonical else Ok (rv, r2)
  else
    '(rv, r2) ← no_eof (read_be 8 r1);
    if rv <=? 0xffffffff then Err ErrVarIntNotCanonical else Ok (rv, r2).

Definition WriteVarInt (val : Z) : list byte :=
  if val <? 0xfd then be_bytes 1 (u8 val)
  else if val <=? 0xffff then be_bytes 1 0xfd ++ be_bytes 2 (u16 val)
  else if val <=? 0xffffffff then be_bytes 1 0xfe ++ be_bytes 4 (u32 val)
  else be_bytes 1 0xff ++ be_bytes 8 val.

(** ** Truncated integers ([truncated.go]) *)

Definition ErrTUintNotMinimal : error := Error "ErrTUintNotMinimal".

Definition numLeadingZeroBytes16 (v : Z) : Z :=
  if v =? 0 then 2
  else if Z.land v 0xff00 =? 0 then 1
  else 0.

Definition SizeTUint16 (v : Z) : Z := u64 (2 - numLeadingZeroBytes16 v).

Definition ETUint16T (val : Z) : list byte :=
  drop (Z.to_nat (numLeadingZeroBytes16 val)) (be_bytes 2 val).

Definition numLeadingZeroBytes32 (v : Z) : Z :=
  if v =? 0 then 4
  else if Z.land v 0xffffff00 =? 0 then 3
  else if Z.land v 0xffff0000 =? 0 then 2
  else if Z.land v 0xff000000 =? 0 then 1
  else 0.

Definition SizeTUint32 (v : Z) : Z := u64 (4 - numLeadingZeroBytes32 v).

Definition ETUint32T (val : Z) : list byte :=
  drop (Z.to_nat (numLeadingZeroBytes32 val)) (be_bytes 4 val).

Definition numLeadingZeroBytes64 (v : Z) : Z :=
  if v =? 0 then 8
  else if Z.land v 0xffffffffffffff00 =? 0 then 7
  else if Z.land v 0xffffffffffff0000 =? 0 then 6
  else if Z.land v 0xffffffffff000000 =? 0 then 5
  else if Z.land v 0xffffffff00000000 =? 0 then 4
  else if Z.land v 0xffffff0000000000 =? 0 then 3
  else if Z.land v 0xffff000000000000 =? 0 then 2
  else if Z.land v 0xff00000000000000 =? 0 then 1
  else 0.

Definition SizeTUint64 (v : Z) : Z := u64 (8 - numLeadingZeroBytes64 v).

Definition ETUint64T (val : Z) : list byte :=
  drop (Z.to_nat (numLeadingZeroBytes64 val)) (be_bytes 8 val).

(** ** Values and codecs *)

(** Compressed public keys of the secp256k1 package. *)
Class Secp256k1 := {
  pubkey : Type;
  SerializeCompressed : pubkey -> list byte;
  ParsePubKey : list byte -> option pubkey;
  length_SerializeCompressed : forall k, length (SerializeCompressed k) = 33%nat;
  ParsePubKey_Serialize : forall k, ParsePubKey (SerializeCompressed k) = Some k;
  Serialize_ParsePubKey : forall b k,
    length b = 33%nat -> ParsePubKey b = Some k -> SerializeCompressed k = b;
}.

Section Codecs.
Context `{Secp256k1}.

Inductive tlv_val : Type :=
| PUint8 (v : Z)
| PUint16 (v : Z)
| PUint32 (v : Z)
| PUint64 (v : Z)
| PBytes32 (b : list byte)
| PBytes33 (b : list byte)
| PBytes64 (b : list byte)
| PPubKey (k : pubkey)
| PVarBytes (b : list byte)
| PNil.

Definition Encoder : Type := tlv_val -> res (list byte).
Definition Decoder : Type := tlv_val -> Z -> list byte -> res (tlv_val * list byte).

Definition ErrTypeForEncoding : error := Error "ErrTypeForEncoding".
Definition ErrTypeForDecoding : error := Error "ErrTypeForDecoding".

Definition ENOP : Encoder := fun _ => Ok [].
Definition DNOP : Decoder := fun val _ r => Ok (val, r).

Definition EUint8T (val : Z) : list byte := be_bytes 1 val.
Definition EUint16T (val : Z) : list byte := be_bytes 2 val.
Definition EUint32T (val : Z) : list byte := be_bytes 4 val.
Definition EUint64T (val : Z) : list byte := be_bytes 8 val.

Definition EUint8 : Encoder := fun val =>
  match val with PUint8 i => Ok (be_bytes 1 i) | _ => Err ErrTypeForEncoding end.
Definition EUint16 : Encoder := fun val =>
  match val with PUint16 i => Ok (be_bytes 2 i) | _ => Err ErrTypeForEncoding end.
Definition EUint32 : Encoder := fun val =>
  match val with PUint32 i => Ok (be_bytes 4 i) | _ => Err ErrTypeForEncoding end.
Definition EUint64 : Encoder := fun val =>
  match val with PUint64 i => Ok (be_bytes 8 i) | _ => Err ErrTypeForEncoding end.

Definition DUint8 : Decoder := fun val l r =>
  match val with
  | PUint8 _ => if l =? 1 then '(i, r') ← read_be 1 r; Ok (PUint8 i, r')
                else Err ErrTypeForDecoding
  | _ => Err ErrTypeForDecoding
  end.
Definition DUint16 : Decoder := fun val l r =>
  match val with
  | PUint16 _ => if l =? 2 then '(i, r') ← read_be 2 r; Ok (PUint16 i, r')
                 else Err ErrTypeForDecoding
  | _ => Err ErrTypeForDecoding
  end.
Definition DUint32 : Decoder := fun val l r =>
  match val with
  | PUint32 _ => if l =? 4 then '(i, r') ← read_be 4 r; Ok (PUint32 i, r')
                 else Err ErrTypeForDecoding
  | _ => Err ErrTypeForDecoding
  end.
Definition DUint64 : Decoder := fun val l r =>
  match val with
  | PUint64 _ => if l =? 8 then '(i, r') ← read_be 8 r; Ok (PUint64 i, r')
                 else Err ErrTypeForDecoding
  | _ => Err ErrTypeForDecoding
  end.

Definition EBytes32 : Encoder := fun val =>
  match val with PBytes32 b => Ok b | _ => Err ErrTypeForEncoding end.
Definition DBytes32 : Decoder := fun val l r =>
  match val with
  | PBytes32 _ => if l =? 32 then '(b, r') ← read_full 32 r; Ok (PBytes32 b, r')
                  else Err ErrTypeForDecoding
  | _ => Err ErrTypeForDecoding
  end.
Definition EBytes33 : Encoder := fun val =>
  match val with PBytes33 b => Ok b | _ => Err ErrTypeForEncoding end.
Definition DBytes33 : Decoder := fun val l r =>
  match val with
  | PBytes33 _ => '(b, r') ← read_full 33 r; Ok (PBytes33 b, r')
  | _ => Err ErrTypeForDecoding
  end.
Definition EBytes64 : Encoder := fun val =>
  match val with PBytes64 b => Ok b | _ => Err ErrTypeForEncoding end.
Definition DBytes64 : Decoder := fun val l r =>
  match val with
  | PBytes64 _ => if l =? 64 then '(b, r') ← read_full 64 r; Ok (PBytes64 b, r')
                  else Err ErrTypeForDecoding
  | _ => Err ErrTypeForDecoding
  end.

Definition EPubKey : Encoder := fun val =>
  match val with PPubKey k => Ok (SerializeCompressed k) | _ => Err ErrTypeForEncoding end.
Definition DPubKey : Decoder := fun val l r =>
  match val with
  | PPubKey _ =>
      if l =? 33 then
        '(b, r') ← read_full 33 r;
        match ParsePubKey b with
        | Some p => Ok (PPubKey p, r')
        | None => Err (Error "invalid public key")
        end
      else Err ErrTypeForDecoding
  | _ => Err ErrTypeForDecoding
  end.

Definition EVarBytes : Encoder := fun val =>
  match val with PVarBytes b => Ok b | _ => Err ErrTypeForEncoding end.
Definition DVarBytes : Decoder := fun val l r =>
  match val with
  | PVarBytes _ => '(b, r') ← read_full (Z.to_nat l) r; Ok (PVarBytes b, r')
  | _ => Err ErrTypeForDecoding
  end.

(** Truncated integers as record codecs ([truncated.go]). *)
Definition ETUint16 : Encoder := fun val =>
  match val with
  | PUint16 t => Ok (drop (Z.to_nat (numLeadingZeroBytes16 t)) (be_bytes 2 t))
  | _ => Err ErrTypeForEncoding
  end.
Definition DTUint16 : Decoder := fun val l r =>
  match val with
  | PUint16 _ =>
      if l <=? 2 then
        '(b, r') ← read_full (Z.to_nat l) r;
        let t := be_val (replicate (Z.to_nat (2 - l)) x00 ++ b) in
        if negb (u64 (2 - numLeadingZeroBytes16 t) =? l) then Err ErrTUintNotMinimal
        else Ok (PUint16 t, r')
      else Err ErrTypeForDecoding
  | _ => Err ErrTypeForDecoding
  end.

Definition ETUint32 : Encoder := fun val =>
  match val with
  | PUint32 t => Ok (drop (Z.to_nat (numLeadingZeroBytes32 t)) (be_bytes 4 t))
  | _ => Err ErrTypeForEncoding
  end.
Definition DTUint32 : Decoder := fun val l r =>
  match val with
  | PUint32 _ =>
      if l <=? 4 then
        '(b, r') ← read_full (Z.to_nat l) r;
        let t := be_val (replicate (Z.to_nat (4 - l)) x00 ++ b) in
        if negb (u64 (4 - numLeadingZeroBytes32 t) =? l) then Err ErrTUintNotMinimal
        else Ok (PUint32 t, r')
      else Err ErrTypeForDecoding
  | _ => Err ErrTypeForDecoding
  end.

Definition ETUint64 : Encoder := fun val =>
  match val with
  | PUint64 t => Ok (drop (Z.to_nat (numLeadingZeroBytes64 t)) (be_bytes 8 t))
  | _ => Err ErrTypeForEncoding
  end.
Definition DTUint64 : Decoder := fun val l r =>
  match val with
  | PUint64 _ =>
      if l <=? 8 then
        '(b, r') ← read_full (Z.to_nat l) r;
        let t := be_val (replicate (Z.to_nat (8 - l)) x00 ++ b) in
        if negb (u64 (8 - numLeadingZeroBytes64 t) =? l) then Err ErrTUintNotMinimal
        else Ok (PUint64 t, r')
      else Err ErrTypeForDecoding
  | _ => Err ErrTypeForDecoding
  end.

(** ** Records ([record.go]) *)

(** A nil function value is [None]; calling it panics. *)
Record tlv_record := Record_ {
  value : tlv_val;
  typ : Z;
  staticSize : Z;
  sizeFunc : option (tlv_val -> Z);
  encoder : option Encoder;
  decoder : option Decoder;
}.

Definition set_value (rec : tlv_record) (v : tlv_val) : tlv_record :=
  Record_ v (typ rec) (staticSize rec) (sizeFunc rec) (encoder rec) (decoder rec).

(** The closure made by [SizeVarBytes]. *)
Definition SizeVarBytes (val : tlv_val) : Z :=
  match val with PVarBytes b => u64 (Z.of_nat (length b)) | _ => 0 end.

Definition Size (f : tlv_record) : Z :=
  match sizeFunc f with
  | None => staticSize f
  | Some size => size (value f)
  end.

Definition RecordEncode (f : tlv_record) : res (list byte) :=
  match encoder f with Some e => e (value f) | None => Panic end.

Definition RecordDecode (f : tlv_record) (l : Z) (r : list byte)
    : res (tlv_val * list byte) :=
  match decoder f with Some d => d (value f) l r | None => Panic end.

Definition MakePrimitiveRecord (t : Z) (val : tlv_val) : res tlv_record :=
  let static n e d := Ok (Record_ val t n None (Some e) (Some d)) in
  match val with
  | PUint8 _ => static 1 EUint8 DUint8
  | PUint16 _ => static 2 EUint16 DUint16
  | PUint32 _ => static 4 EUint32 DUint32
  | PUint64 _ => static 8 EUint64 DUint64
  | PBytes32 _ => static 32 EBytes32 DBytes32
  | PBytes33 _ => static 33 EBytes33 DBytes33
  | PPubKey _ => static 33 EPubKey DPubKey
  | PBytes64 _ => static 64 EBytes64 DBytes64
  | PVarBytes _ =>
      Ok (Record_ val t 0 (Some SizeVarBytes) (Some EVarBytes) (Some DVarBytes))
  | PNil => Panic
  end.

Definition MakeStaticRecord (t : Z) (val : tlv_val) (size : Z)
    (e : option Encoder) (d : option Decoder) : tlv_record :=
  Record_ val t size None e d.

Definition MakeDynamicRecord (t : Z) (val : tlv_val) (size : tlv_val -> Z)
    (e : option Encoder) (d : option Decoder) : tlv_record :=
  Record_ val t 0 (Some size) e d.

Definition StubEncoder (v : list byte) : Encoder := fun _ => Ok v.

Fixpoint records_to_map (records : list tlv_record) (m : gmap Z (list byte))
    : res (gmap Z (list byte)) :=
  match records with
  | [] => Ok m
  | rec :: rest => b ← RecordEncode rec; records_to_map rest (<[typ rec := b]> m)
  end.

Definition RecordsToMap (records : list tlv_record) : res (gmap Z (list byte)) :=
  records_to_map records ∅.

(** [sort.Slice] by type. *)
Definition typ_le (a b : tlv_record) : Prop := typ a <= typ b.
#[export] Instance typ_le_dec : RelDecision typ_le.
Proof. intros a b. unfold typ_le. apply _. Defined.

Definition SortRecords (records : list tlv_record) : list tlv_record :=
  merge_sort typ_le records.

Definition MapToRecords (tlvMap : gmap Z (list byte)) : list tlv_record :=
  SortRecords
    (map (fun kv => MakeStaticRecord (fst kv) PNil (u64 (Z.of_nat (length (snd kv))))
                      (Some (StubEncoder (snd kv))) None)
         (map_to_list tlvMap)).

(** ** Streams ([stream.go]) *)

Definition MaxRecordSize : Z := 65535.
Definition MaxUint64 : Z := 2 ^ 64 - 1.
Definition ErrStreamNotCanonical : error := Error "ErrStreamNotCanonical".
Definition ErrRecordTooLarge : error := Error "ErrRecordTooLarge".

(** The loop of [NewStream].  Its two assignments to the loop variable's [encoder]
    and [decoder] change a copy of the record, not the slice. *)
Fixpoint check_order (records : list tlv_record) (min : Z) (overflow : bool) : res unit :=
  match records with
  | [] => Ok tt
  | record :: rest =>
      if overflow || (typ record <? min) then Err ErrStreamNotCanonical
      else check_order rest (u64 (typ record + 1)) (overflow || (typ record =? MaxUint64))
  end.

Definition NewStream (records : list tlv_record) : res (list tlv_record) :=
  _ ← check_order records 0 false; Ok records.

Fixpoint StreamEncode (records : list tlv_record) : res (list byte) :=
  match records with
  | [] => Ok []
  | rec :: rest =>
      body ← RecordEncode rec;
      tail ← StreamEncode rest;
      Ok (WriteVarInt (typ rec) ++ WriteVarInt (Size rec) ++ body ++ tail)
  end.

(** [getRecord]: the index of the record of type [t], the index to search from
    next, and whether it was found; [n] is [len(s.records) - idx]. *)
Fixpoint getRecord (n : nat) (records : list tlv_record) (t : Z) (idx : nat)
    : option tlv_record * nat :=
  match n with
  | O => (None, idx)
  | S n' =>
      match records !! idx with
      | None => (None, idx)
      | Some record =>
          if typ record =? t then (Some record, S idx)
          else if typ record <? t then getRecord n' records t (S idx)
          else (None, idx)
      end
  end.

(** [TypeMap]: a nil slice marks a type that was decoded. *)
Definition TypeMap : Type := gmap Z (option (list byte)).

Definition note_type (parsedTypes : option TypeMap) (t : Z) (v : option (list byte))
    : option TypeMap :=
  match parsedTypes with Some m => Some (<[t := v]> m) | None => None end.

(** [io.CopyN] into a buffer; too few bytes is [io.EOF]. *)
Definition copy_n (n : nat) (r : list byte) : res (list byte * list byte) :=
  if (length r <? n)%nat then Err EOF else Ok (take n r, drop n r).

(** One run of the loop of [decode]; every run consumes at least one byte of the
    reader, so [fuel] above the reader's length is never exhausted. *)
Fixpoint decode_loop (fuel : nat) (records : list tlv_record) (r : list byte)
    (parsedTypes : option TypeMap) (min : Z) (recordIdx : nat) (overflow : bool)
    : res (list tlv_record * option TypeMap) :=
  match fuel with
  | O => Panic
  | S fuel' =>
      match ReadVarInt r with
      | Err EOF => Ok (records, parsedTypes)
      | Err e => Err e
      | Panic => Panic
      | Ok (t, r1) =>
          if overflow || (t <? min) then Err ErrStreamNotCanonical
          else
            '(length, r2) ← no_eof (ReadVarInt r1);
            if length >? MaxRecordSize then Err ErrRecordTooLarge
            else
              let '(rec, newIdx) :=
                getRecord (List.length records - recordIdx) records t recordIdx in
              '(records', pt', r3) ←
                match rec with
                | Some rec =>
                    '(v, r3) ← no_eof (RecordDecode rec length r2);
                    Ok (<[(newIdx - 1)%nat := set_value rec v]> records,
                        note_type parsedTypes t None, r3)
                | None =>
                    '(b, r3) ← no_eof (copy_n (Z.to_nat length) r2);
                    Ok (records, note_type parsedTypes t (Some b), r3)
                end;
              decode_loop fuel' records' r3 pt' (u64 (t + 1)) newIdx
                (overflow || (t =? MaxUint64))
      end
  end.

(** [decode], with the stream's records and their values after the run. *)
Definition decode (records : list tlv_record) (r : list byte)
    (parsedTypes : option TypeMap) : res (list tlv_record * option TypeMap) :=
  decode_loop (S (List.length r)) records r parsedTypes 0 0 false.

Definition Decode (records : list tlv_record) (r : list byte) : res (list tlv_record) :=
  '(records', _) ← decode records r None; Ok records'.

Definition DecodeWithParsedTypes (records : list tlv_record) (r : list byte)
    : res (list tlv_record * option TypeMap) :=
  decode records r (Some ∅).

End Codecs.

(** ** The variable-length integer is a canonical code *)

Lemma no_eof_ok {A} (m : res A) (a : A) : no_eof m = Ok a -> m = Ok a.
Proof. destruct m as [|[]|]; simpl; congruence. Qed.

Lemma be_bytes_1_cons z r : be_bytes 1 z ++ r = byte_of z :: r.
Proof. unfold be_bytes. by rewrite Z.div_1_r. Qed.

Lemma ReadVarInt_WriteVarInt v r : is_u64 v -> ReadVarInt (WriteVarInt v ++ r) = Ok (v, r).
Proof.
  unfold is_u64, ReadVarInt, WriteVarInt, u8, u16, u32. intros Hv.
  destruct (Z.ltb_spec v 0xfd); [|destruct (Z.leb_spec v 0xffff);
    [|destruct (Z.leb_spec v 0xffffffff)]];
    wrap; rewrite <- ?app_assoc, read_be_app by lia; rsimpl; simpl Z.ltb; simpl Z.eqb.
  - by rewrite (proj2 (Z.ltb_lt v 0xfd)).
  - rewrite read_be_app by lia; simpl; by rewrite (proj2 (Z.ltb_ge v 0xfd)) by lia.
  - rewrite read_be_app by lia; simpl; by rewrite (proj2 (Z.leb_gt v 0xffff)) by lia.
  - rewrite read_be_app by lia; simpl; by rewrite (proj2 (Z.leb_gt v 0xffffffff)) by lia.
Qed.

(** One multi-byte branch of [ReadVarInt]: the marker byte [d], a payload of [n]
    bytes and the guard that refuses payloads a shorter form could carry. *)
Lemma varint_branch n d (small : Z -> bool) r1 v r' :
  ('(rv, r2) ← no_eof (read_be n r1);
   if small rv then Err ErrVarIntNotCanonical else Ok (rv, r2)) = Ok (v, r') ->
  be_bytes 1 d ++ r1 = be_bytes 1 d ++ be_bytes n v ++ r' /\
  0 <= v < 256 ^ Z.of_nat n /\ small v = false.
Proof.
  intros ([rv r2] & Hr%no_eof_ok & Hk)%bind_ok. apply read_be_ok in Hr as [-> Hr].
  destruct (small rv) eqn:Hs; [done|]. by injection Hk as <- <-.
Qed.

Lemma ReadVarInt_ok r v r' :
  ReadVarInt r = Ok (v, r') -> is_u64 v /\ r = WriteVarInt v ++ r'.
Proof.
  unfold ReadVarInt. intros ([d r1] & Hd & Hk)%bind_ok.
  apply read_be_ok in Hd as [-> Hd]. change (256 ^ Z.of_nat 1) with 256 in Hd.
  unfold WriteVarInt, u8, u16, u32, is_u64.
  destruct (Z.ltb_spec d 0xfd).
  { injection Hk as <- <-. rewrite (proj2 (Z.ltb_lt _ _)) by done. wrap. split; [lia|done]. }
  destruct (Z.eqb_spec d 0xfd) as [->|]; [|destruct (Z.eqb_spec d 0xfe) as [->|]].
  - apply (varint_branch 2 0xfd (fun rv => rv <? 0xfd)) in Hk as (-> & Hv & Hs%Z.ltb_ge).
    change (256 ^ Z.of_nat 2) with 65536 in Hv.
    rewrite (proj2 (Z.ltb_ge _ _)), (proj2 (Z.leb_le v 0xffff)), <- app_assoc by lia.
    wrap. split; [lia|done].
  - apply (varint_branch 4 0xfe (fun rv => rv <=? 0xffff)) in Hk as (-> & Hv & Hs%Z.leb_gt).
    change (256 ^ Z.of_nat 4) with 4294967296 in Hv.
    rewrite (proj2 (Z.ltb_ge _ _)), (proj2 (Z.leb_gt v 0xffff)),
      (proj2 (Z.leb_le v 0xffffffff)), <- app_assoc by lia.
    wrap. split; [lia|done].
  - assert (d = 0xff) as -> by lia.
    apply (varint_branch 8 0xff (fun rv => rv <=? 0xffffffff)) in Hk as (-> & Hv & Hs%Z.leb_gt).
    rewrite (proj2 (Z.ltb_ge _ _)), (proj2 (Z.leb_gt v 0xffff)),
      (proj2 (Z.leb_gt v 0xffffffff)), <- app_assoc by lia.
    split; [lia|done].
Qed.

(** The integer code is canonical: a byte string starts with a readable integer
    [v] and the remainder [r'] exactly when it is the encoding of [v], a 64-bit
    value, followed by [r'].  Every value round-trips and no value has a second
    encoding that is accepted. *)
Theorem varint_canonical (r : list byte) (v : Z) (r' : list byte) :
  ReadVarInt r = Ok (v, r') <-> is_u64 v /\ r = WriteVarInt v ++ r'.
Proof.
  split; [apply ReadVarInt_ok | intros [Hv ->]; by apply ReadVarInt_WriteVarInt].
Qed.

(** ** Truncated integers are a canonical code *)

(** What the three [numLeadingZeroBytes] functions compute, for a width of [w]
    bytes: the number of leading zero bytes. *)
Definition leading_zeros_of (w : Z) (lead : Z -> Z) : Prop :=
  forall v, 0 <= v < 256 ^ w ->
    0 <= lead v <= w /\ v < 256 ^ (w - lead v) /\
    (lead v < w -> 256 ^ (w - lead v - 1) <= v).

(** Evaluates a cascade of mask tests as comparisons with powers of two. *)
Ltac masks w :=
  repeat match goal with
  | |- context [Z.land ?v ?m =? 0] =>
      let k := eval vm_compute in (Z.log2 (2 ^ w - m)) in
      let Hm := fresh in
      assert (m = 2 ^ w - 2 ^ k) as Hm by reflexivity; rewrite Hm; clear Hm;
      rewrite (land_high_mask_zero w k v) by lia
  end;
  repeat case_match;
  repeat match goal with
  | H : (_ =? _) = true |- _ => apply Z.eqb_eq in H; subst
  | H : (_ =? _) = false |- _ => apply Z.eqb_neq in H
  | H : (_ <? _) = true |- _ => apply Z.ltb_lt in H
  | H : (_ <? _) = false |- _ => apply Z.ltb_ge in H
  end; simpl in *; lia.

Lemma numLeadingZeroBytes16_spec : leading_zeros_of 2 numLeadingZeroBytes16.
Proof. intros v Hv. unfold numLeadingZeroBytes16. masks 16. Qed.

Lemma numLeadingZeroBytes32_spec : leading_zeros_of 4 numLeadingZeroBytes32.
Proof. intros v Hv. unfold numLeadingZeroBytes32. masks 32. Qed.

Lemma numLeadingZeroBytes64_spec : leading_zeros_of 8 numLeadingZeroBytes64.
Proof. intros v Hv. unfold numLeadingZeroBytes64. masks 64. Qed.

Section Truncated.
Context (w : nat) (lead : Z -> Z).
Hypothesis Hw : (w <= 8)%nat.
Hypothesis Hlead : leading_zeros_of (Z.of_nat w) lead.

(** The common body of [DTUint16], [DTUint32] and [DTUint64]. *)
Definition read_truncated (l : Z) (r : list byte) : res (Z * list byte) :=
  '(b, r') ← read_full (Z.to_nat l) r;
  let t := be_val (replicate (Z.to_nat (Z.of_nat w - l)) x00 ++ b) in
  if negb (u64 (Z.of_nat w - lead t) =? l) then Err ErrTUintNotMinimal else Ok (t, r').

Definition write_truncated (v : Z) : list byte := drop (Z.to_nat (lead v)) (be_bytes w v).

Lemma truncated_bounds v : 0 <= v < 256 ^ Z.of_nat w -> is_u64 (Z.of_nat w - lead v).
Proof. intros Hv. destruct (Hlead v Hv) as (? & _). unfold is_u64. lia. Qed.

Lemma write_truncated_be v :
  0 <= v < 256 ^ Z.of_nat w ->
  write_truncated v = be_bytes (Z.to_nat (Z.of_nat w - lead v)) v.
Proof.
  intros Hv. destruct (Hlead v Hv) as (Hl & _). unfold write_truncated.
  replace w with (Z.to_nat (lead v) + Z.to_nat (Z.of_nat w - lead v))%nat at 1 by lia.
  apply drop_be_bytes.
Qed.

Lemma read_write_truncated v r :
  0 <= v < 256 ^ Z.of_nat w ->
  read_truncated (Z.of_nat w - lead v) (write_truncated v ++ r) = Ok (v, r).
Proof.
  intros Hv. destruct (Hlead v Hv) as (Hl & Hlt & _). unfold read_truncated.
  rewrite write_truncated_be, read_full_app' by (done || apply length_be_bytes). rsimpl.
  rewrite be_val_zeros, be_val_be_bytes_small by (rewrite Z2Nat.id; lia).
  by rewrite (u64_small _ (truncated_bounds v Hv)), Z.eqb_refl.
Qed.

Lemma read_truncated_ok l r v r' :
  0 <= l <= Z.of_nat w -> read_truncated l r = Ok (v, r') ->
  0 <= v < 256 ^ Z.of_nat w /\ l = Z.of_nat w - lead v /\ r = write_truncated v ++ r'.
Proof.
  intros Hl. unfold read_truncated. intros ([b r1] & Hb & Hk)%bind_ok.
  apply read_full_ok in Hb as [-> Hlen]. rewrite be_val_zeros in Hk.
  destruct (Z.eqb_spec (u64 (Z.of_nat w - lead (be_val b))) l) as [He|]; [|done].
  injection Hk as <- <-.
  assert (0 <= be_val b < 256 ^ Z.of_nat w) as Hv.
  { pose proof (be_val_range b). rewrite Hlen, Z2Nat.id in H by lia.
    pose proof (Z.pow_le_mono_r 256 l (Z.of_nat w)). lia. }
  rewrite (u64_small _ (truncated_bounds _ Hv)) in He. subst l.
  split; [done|]. split; [done|].
  by rewrite write_truncated_be, <- Hlen, be_bytes_be_val.
Qed.

(** The record decoder built from [read_truncated], for a pointer of type [con]. *)
Lemma truncated_canonical `{Secp256k1} (con : Z -> tlv_val) l r x r' :
  0 <= l ->
  (if l <=? Z.of_nat w then '(t, r1) ← read_truncated l r; Ok (con t, r1)
   else Err ErrTypeForDecoding) = Ok (x, r') <->
  exists v, 0 <= v < 256 ^ Z.of_nat w /\ x = con v /\ l = u64 (Z.of_nat w - lead v) /\
    r = write_truncated v ++ r'.
Proof.
  intros Hl0. split.
  - destruct (Z.leb_spec l (Z.of_nat w)) as [Hle|]; [|done].
    intros ([v r1] & Hr & [= <- <-])%bind_ok.
    apply read_truncated_ok in Hr as (Hv & -> & ->); [|lia].
    exists v. by rewrite (u64_small _ (truncated_bounds v Hv)).
  - intros (v & Hv & -> & -> & ->). rewrite (u64_small _ (truncated_bounds v Hv)).
    destruct (Hlead v Hv) as (? & _). rewrite (proj2 (Z.leb_le _ _)) by lia.
    by rewrite read_write_truncated.
Qed.
End Truncated.

Lemma read_truncated_con `{Secp256k1} w lead l r (con : Z -> tlv_val) :
  ('(t, r1) ← read_truncated w lead l r; Ok (con t, r1)) =
  '(b, r') ← read_full (Z.to_nat l) r;
  let t := be_val (replicate (Z.to_nat (Z.of_nat w - l)) x00 ++ b) in
  if negb (u64 (Z.of_nat w - lead t) =? l) then Err ErrTUintNotMinimal else Ok (con t, r').
Proof.
  unfold read_truncated. destruct (read_full (Z.to_nat l) r) as [[b r1]| |]; [|done..].
  rsimpl. by case_match.
Qed.

(** The truncated integers of all three widths are canonical codes: for a
    declared length [l], the decoder stores [x] and leaves [r'] exactly when [x] is
    a value of the width, [l] is its minimal size and the input is its minimal
    encoding followed by [r'].  Over-long and zero-padded forms are refused. *)
Theorem truncated_ints_canonical `{Secp256k1} (v0 l : Z) (r r' : list byte) (x : tlv_val) :
  0 <= l ->
  (DTUint16 (PUint16 v0) l r = Ok (x, r') <->
     exists v, is_u16 v /\ x = PUint16 v /\ l = SizeTUint16 v /\ r = ETUint16T v ++ r') /\
  (DTUint32 (PUint32 v0) l r = Ok (x, r') <->
     exists v, is_u32 v /\ x = PUint32 v /\ l = SizeTUint32 v /\ r = ETUint32T v ++ r') /\
  (DTUint64 (PUint64 v0) l r = Ok (x, r') <->
     exists v, is_u64 v /\ x = PUint64 v /\ l = SizeTUint64 v /\ r = ETUint64T v ++ r').
Proof.
  intros Hl.
  pose proof (truncated_canonical 2 _ ltac:(lia) numLeadingZeroBytes16_spec PUint16 l r x r' Hl) as H2.
  pose proof (truncated_canonical 4 _ ltac:(lia) numLeadingZeroBytes32_spec PUint32 l r x r' Hl) as H4.
  pose proof (truncated_canonical 8 _ ltac:(lia) numLeadingZeroBytes64_spec PUint64 l r x r' Hl) as H8.
  rewrite read_truncated_con in H2, H4, H8.
  split; [exact H2|]. split; [exact H4 | exact H8].
Qed.

(** An instance of [Secp256k1] in which every string of 33 bytes is a key. *)
Definition toy_key : Type := dsig (fun b : list byte => length b = 33%nat).

#[refine] Instance toy_secp256k1 : Secp256k1 := {
  pubkey := toy_key;
  SerializeCompressed k := proj1_sig k;
  ParsePubKey b :=
    match decide (length b = 33%nat) with
    | left E => Some (dexist b E)
    | right _ => None
    end;
}.
Proof.
  - intros k. apply (proj2_dsig k).
  - intros k. destruct (decide _) as [E|E]; [|destruct E; apply (proj2_dsig k)].
    f_equal. by apply dsig_eq.
  - intros b k Hb. destruct (decide _); [|done]. by intros [= <-].
Defined.

Lemma truncated_ints_canonical_witness :
  0 <= 2 /\ DTUint16 (PUint16 7) 2 [x01; x02; xff] = Ok (PUint16 258, [xff]).
Proof.
  split; [lia|].
  apply (truncated_ints_canonical 7 2 [x01; x02; xff] [xff] (PUint16 258) ltac:(lia)).
  exists 258. split; [split; [lia | reflexivity]|]. vm_compute. auto.
Defined.

(** ** Primitive records are lawful *)

Section Streams.
Context `{Secp256k1}.

(** The invariant of a Go value: arrays have their length, integers their width,
    and a byte slice fits a 64-bit length. *)
Definition wf_val (v : tlv_val) : Prop :=
  match v with
  | PUint8 i => is_u8 i
  | PUint16 i => is_u16 i
  | PUint32 i => is_u32 i
  | PUint64 i => is_u64 i
  | PBytes32 b => length b = 32%nat
  | PBytes33 b => length b = 33%nat
  | PBytes64 b => length b = 64%nat
  | PPubKey _ => True
  | PVarBytes b => is_u64 (Z.of_nat (length b))
  | PNil => True
  end.

(** [decodes rec b v]: given the declared length of [b], the record's decoder
    consumes exactly [b] and stores [v]. *)
Definition decodes (rec : tlv_record) (b : list byte) (v : tlv_val) : Prop :=
  forall r, RecordDecode rec (Z.of_nat (length b)) (b ++ r) = Ok (v, r).

(** A decoder that accepts only what it consumes exactly. *)
Definition framed (rec : tlv_record) : Prop :=
  forall l r v r', 0 <= l -> RecordDecode rec l r = Ok (v, r') ->
  exists b, r = b ++ r' /\ l = Z.of_nat (length b) /\ decodes rec b v.

(** Two values a pointer of the same Go type can point to. *)
Definition same_kind (v w : tlv_val) : Prop :=
  match v, w with
  | PUint8 _, PUint8 _ | PUint16 _, PUint16 _ | PUint32 _, PUint32 _
  | PUint64 _, PUint64 _ | PBytes32 _, PBytes32 _ | PBytes33 _, PBytes33 _
  | PBytes64 _, PBytes64 _ | PPubKey _, PPubKey _ | PVarBytes _, PVarBytes _ => True
  | _, _ => False
  end.

Lemma primitive_codec t v v0 rec tmpl :
  wf_val v -> same_kind v v0 ->
  MakePrimitiveRecord t v = Ok rec -> MakePrimitiveRecord t v0 = Ok tmpl ->
  exists b, RecordEncode rec = Ok b /\ Size rec = Z.of_nat (length b) /\ decodes tmpl b v.
Proof.
  intros Hwf Hk Hr Ht.
  destruct v, v0; simpl in Hk; try done; injection Hr as <-; injection Ht as <-;
    simpl in Hwf; eexists; (split; [reflexivity|]);
    unfold Size, decodes, RecordDecode; cbn [value staticSize sizeFunc encoder decoder];
    rewrite ?length_be_bytes, ?length_SerializeCompressed, ?Hwf;
    (split; [try reflexivity | intros r;
      unfold DUint8, DUint16, DUint32, DUint64, DBytes32, DBytes33, DBytes64, DPubKey, DVarBytes;
      cbn [Z.of_nat Z.eqb Pos.eqb Pos.of_succ_nat Pos.succ]]);
    try (rewrite read_be_app by exact Hwf; reflexivity);
    try (rewrite read_full_app' by exact Hwf; reflexivity).
  - rewrite read_full_app' by apply length_SerializeCompressed. rsimpl.
    by rewrite ParsePubKey_Serialize.
  - by apply u64_small.
  - by rewrite Nat2Z.id, read_full_app.
Qed.

(** The fixed-size decoders, by the guard they share. *)
Lemma framed_be t v0 n con d :
  (forall l r, d v0 l r = if l =? Z.of_nat n then '(i, r') ← read_be n r; Ok (con i, r')
                          else Err ErrTypeForDecoding) ->
  framed (Record_ v0 t (Z.of_nat n) None None (Some d)).
Proof.
  intros Hd l r v r' _. unfold RecordDecode, decodes; simpl. rewrite Hd.
  destruct (Z.eqb_spec l (Z.of_nat n)) as [->|]; [|done].
  intros ([i r1] & Hi & [= <- <-])%bind_ok. apply read_be_ok in Hi as [-> Hi].
  exists (be_bytes n i). rewrite length_be_bytes. split_and!; [done..|].
  intros r2. unfold RecordDecode; cbn [decoder value]. by rewrite Hd, Z.eqb_refl, read_be_app.
Qed.

Lemma framed_full t v0 n con d :
  (forall l r, d v0 l r = if l =? Z.of_nat n then '(b, r') ← read_full n r; x ← con b; Ok (x, r')
                          else Err ErrTypeForDecoding) ->
  framed (Record_ v0 t (Z.of_nat n) None None (Some d)).
Proof.
  intros Hd l r v r' _. unfold RecordDecode, decodes; simpl. rewrite Hd.
  destruct (Z.eqb_spec l (Z.of_nat n)) as [->|]; [|done].
  intros ([b r1] & Hb & (x & Hx & [= <- <-])%bind_ok)%bind_ok.
  apply read_full_ok in Hb as [-> Hlen].
  exists b. rewrite Hlen. split_and!; [done..|].
  intros r2. unfold RecordDecode; cbn [decoder value]. rewrite Hd, Z.eqb_refl, read_full_app' by done. rsimpl. by rewrite Hx.
Qed.

Lemma framed_decoder rec rec' :
  value rec = value rec' -> decoder rec = decoder rec' -> framed rec -> framed rec'.
Proof. unfold framed, decodes, RecordDecode. by intros -> ->. Qed.

Lemma primitive_framed t v rec :
  MakePrimitiveRecord t v = Ok rec ->
  match v with PBytes33 _ => False | _ => True end -> framed rec.
Proof.
  destruct v; simpl; try done; intros Hr _; injection Hr as <-.
  - eapply framed_decoder; [..|apply (framed_be t (PUint8 v) 1 PUint8 DUint8)]; done.
  - eapply framed_decoder; [..|apply (framed_be t (PUint16 v) 2 PUint16 DUint16)]; done.
  - eapply framed_decoder; [..|apply (framed_be t (PUint32 v) 4 PUint32 DUint32)]; done.
  - eapply framed_decoder; [..|apply (framed_be t (PUint64 v) 8 PUint64 DUint64)]; done.
  - eapply framed_decoder;
      [..|apply (framed_full t (PBytes32 b) 32 (fun b => Ok (PBytes32 b)) DBytes32)]; done.
  - eapply framed_decoder;
      [..|apply (framed_full t (PBytes64 b) 64 (fun b => Ok (PBytes64 b)) DBytes64)]; done.
  - eapply framed_decoder;
      [..|apply (framed_full t (PPubKey k) 33
           (fun b => match ParsePubKey b with
                     | Some p => Ok (PPubKey p)
                     | None => Err (Error "invalid public key")
                     end) DPubKey)]; [done..|].
    intros l r. unfold DPubKey. change (Z.of_nat 33) with 33. destruct (l =? 33); [|done].
    destruct (read_full 33 r) as [[b' r1]| |]; [|done..]. rsimpl. by case_match.
  - intros l r x r' Hl. unfold RecordDecode, decodes; simpl.
    intros ([b' r1] & Hb & [= <- <-])%bind_ok. apply read_full_ok in Hb as [-> Hlen].
    exists b'. split_and!; [done|lia|]. intros r2.
    unfold RecordDecode; cbn [decoder value DVarBytes].
    by rewrite Nat2Z.id, read_full_app.
Qed.

End Streams.

(** ** What a stream is *)

Section StreamSpec.
Context `{Secp256k1}.

(** A raw record: its type and the bytes of its value. *)
Definition raw : Type := Z * list byte.

(** Strictly increasing 64-bit types, values of at most [MaxRecordSize] bytes. *)
Definition canonical (raws : list raw) : Prop :=
  StronglySorted Z.lt raws.*1 /\
  Forall (fun '(t, b) => is_u64 t /\ Z.of_nat (length b) <= MaxRecordSize) raws.

Fixpoint encode_raw (raws : list raw) : list byte :=
  match raws with
  | [] => []
  | (t, b) :: rest =>
      WriteVarInt t ++ WriteVarInt (Z.of_nat (length b)) ++ b ++ encode_raw rest
  end.

Definition raw_map (raws : list raw) : gmap Z (list byte) := list_to_map raws.

(** What becomes of a record [rec] of the stream when [raws] is decoded. *)
Definition reads (raws : list raw) (rec rec' : tlv_record) : Prop :=
  match raw_map raws !! typ rec with
  | None => rec' = rec
  | Some b => exists v, decodes rec b v /\ rec' = set_value rec v
  end.

Definition sorted_records (recs : list tlv_record) : Prop :=
  StronglySorted Z.lt (typ <$> recs).

(** The parsed-type map after [raws]: nothing for a known type, the value otherwise. *)
Definition parsed (recs : list tlv_record) (raws : list raw) : TypeMap :=
  map_imap (fun t b => Some (if bool_decide (t ∈ typ <$> recs) then None else Some b))
    (raw_map raws).

Lemma WriteVarInt_length v : (0 < length (WriteVarInt v))%nat.
Proof.
  unfold WriteVarInt. repeat case_match;
    rewrite ?length_app, ?length_be_bytes; lia.
Qed.

Lemma ReadVarInt_eof r : ReadVarInt r = Err EOF -> r = [].
Proof.
  unfold ReadVarInt, read_be, read_full. destruct r as [|b r]; [done|]. simpl.
  repeat case_match; try done; intros He; exfalso;
    match goal with
    | He : context [(no_eof ?m)] |- _ => destruct m as [[]|[]|]; simpl in He; try done
    end; by case_match.
Qed.

Lemma encode_raw_length raws : (length raws <= length (encode_raw raws))%nat.
Proof.
  induction raws as [|[t b] raws IH]; [done|]. cbn [encode_raw length].
  rewrite !length_app. pose proof (WriteVarInt_length t). lia.
Qed.

Lemma sorted_records_app sk rest :
  sorted_records (sk ++ rest) -> sorted_records sk /\ sorted_records rest.
Proof. unfold sorted_records. rewrite fmap_app. by intros (_ & ? & ?)%StronglySorted_app. Qed.

Lemma sorted_records_cons rec rest :
  sorted_records (rec :: rest) ->
  sorted_records rest /\ Forall (fun x => typ rec < typ x) rest.
Proof.
  unfold sorted_records. rewrite fmap_cons.
  intros [? Hf]%StronglySorted_inv. split; [done|]. exact (proj1 (Forall_fmap _ _ _) Hf).
Qed.

(** [getRecord] skips the records below [t] and stops at the first one that is not. *)
Lemma getRecord_split t : forall todo done, sorted_records todo -> exists sk rest,
  todo = sk ++ rest /\ Forall (fun x => typ x < t) sk /\
  ((exists rec rest', rest = rec :: rest' /\ typ rec = t /\
      Forall (fun x => t < typ x) rest' /\
      getRecord (length todo) (done ++ todo) t (length done) =
        (Some rec, S (length (done ++ sk)))) \/
   (Forall (fun x => t < typ x) rest /\
      getRecord (length todo) (done ++ todo) t (length done) = (None, length (done ++ sk)))).
Proof.
  induction todo as [|rec todo IH]; intros done Hs.
  { exists [], []. rewrite !app_nil_r. split_and!; [done..|]. right. done. }
  apply sorted_records_cons in Hs as [Hs Hgt].
  cbn [length getRecord]. rewrite list_lookup_middle by done.
  destruct (Z.eqb_spec (typ rec) t) as [He|Hne].
  { exists [], (rec :: todo). rewrite app_nil_r. split_and!; [done..|]. left.
    exists rec, todo. subst t. done. }
  destruct (Z.ltb_spec (typ rec) t) as [Hlt|Hge].
  - destruct (IH (done ++ [rec]) Hs) as (sk & rest & -> & Hsk & Hcase).
    rewrite <- !app_assoc, (length_app done [rec]), Nat.add_1_r in Hcase. simpl in Hcase.
    exists (rec :: sk), rest. split_and!; [done|by constructor|].
    destruct Hcase as [(x & rest' & -> & Hx & Hr & ->)|(Hr & ->)]; [left|right]; [|done].
    by exists x, rest'.
  - exists [], (rec :: todo). rewrite app_nil_r. split_and!; [done..|]. right.
    split; [|done]. constructor; [lia|]. eapply Forall_impl; [exact Hgt|]. simpl. lia.
Qed.

(** One run of the loop on a well-formed header. *)
Lemma decode_loop_step fuel done todo t l r2 pm min :
  sorted_records todo -> is_u64 t -> 0 <= l <= MaxRecordSize -> min <= t ->
  exists sk rest, todo = sk ++ rest /\ Forall (fun x => typ x < t) sk /\
  ((exists rec rest', rest = rec :: rest' /\ typ rec = t /\ Forall (fun x => t < typ x) rest' /\
      decode_loop (S fuel) (done ++ todo) (WriteVarInt t ++ WriteVarInt l ++ r2) (Some pm)
        min (length done) false =
      '(v, r3) ← no_eof (RecordDecode rec l r2);
      decode_loop fuel ((done ++ sk ++ [set_value rec v]) ++ rest') r3 (Some (<[t := None]> pm))
        (u64 (t + 1)) (length (done ++ sk ++ [set_value rec v])) (t =? MaxUint64)) \/
   (Forall (fun x => t < typ x) rest /\
      decode_loop (S fuel) (done ++ todo) (WriteVarInt t ++ WriteVarInt l ++ r2) (Some pm)
        min (length done) false =
      '(b, r3) ← no_eof (copy_n (Z.to_nat l) r2);
      decode_loop fuel ((done ++ sk) ++ rest) r3 (Some (<[t := Some b]> pm))
        (u64 (t + 1)) (length (done ++ sk)) (t =? MaxUint64))).
Proof.
  intros Hs Ht Hl Hmin. unfold MaxRecordSize in Hl.
  destruct (getRecord_split t todo done Hs) as (sk & rest & -> & Hsk & Hcase).
  exists sk, rest. split; [done|]. split; [done|].
  cbn [decode_loop]. rewrite ReadVarInt_WriteVarInt by done.
  rewrite orb_false_l, (proj2 (Z.ltb_ge t min)) by done.
  rewrite ReadVarInt_WriteVarInt by (unfold is_u64; lia). cbn [no_eof]. rsimpl.
  replace (l >? MaxRecordSize) with false by (symmetry; unfold MaxRecordSize; lia).
  rewrite length_app, (Nat.add_comm (length done)), Nat.add_sub.
  destruct Hcase as [(rec & rest' & -> & Hrec & Hr & ->)|(Hr & ->)]; [left|right].
  - exists rec, rest'. split_and!; [done..|].
    destruct (no_eof (RecordDecode rec l r2)) as [[v r3]| |]; [|done..]. rsimpl.
    rewrite Nat.sub_1_r. cbn [Nat.pred].
    rewrite (app_assoc done sk), insert_app_r_alt, Nat.sub_diag by done. simpl.
    rewrite <- !app_assoc, !length_app. simpl. by rewrite Nat.add_assoc, !Nat.add_1_r.
  - split; [done|]. destruct (no_eof _) as [[b r3]| |]; [|done..]. rsimpl.
    by rewrite app_assoc.
Qed.

(** What the loop may still read after a record with successor [min], or after the
    last 64-bit type. *)
Definition reads_from (min : Z) (overflow : bool) (raws : list raw) : Prop :=
  if overflow then raws = [] else Forall (fun x => min <= x.1) raws.

Lemma canonical_cons t b raws :
  canonical ((t, b) :: raws) <->
  is_u64 t /\ Z.of_nat (length b) <= MaxRecordSize /\ canonical raws /\
  reads_from (u64 (t + 1)) (t =? MaxUint64) raws.
Proof.
  unfold canonical, reads_from. rewrite fmap_cons, Forall_cons. simpl. split.
  - intros [[Hs Hlt]%StronglySorted_inv [[Ht Hb] Hf]]. split_and!; try done.
    rewrite Forall_fmap in Hlt. destruct (Z.eqb_spec t MaxUint64) as [->|Hne].
    + destruct raws as [|[t' b'] raws]; [done|]. exfalso.
      apply Forall_inv in Hf as [Hf _]. apply Forall_inv in Hlt. simpl in *.
      unfold is_u64, MaxUint64 in *. lia.
    + rewrite u64_small by (unfold is_u64, MaxUint64 in *; lia).
      eapply Forall_impl; [exact Hlt|]. simpl. lia.
  - intros (Ht & Hb & [Hs Hf] & Hr). split; [|done]. constructor; [done|].
    destruct (Z.eqb_spec t MaxUint64) as [->|Hne]; [by subst|].
    rewrite u64_small in Hr by (unfold is_u64, MaxUint64 in *; lia).
    rewrite Forall_fmap. eapply Forall_impl; [exact Hr|]. simpl. lia.
Qed.

Lemma canonical_above t b raws :
  canonical ((t, b) :: raws) -> Forall (fun x => t < x.1) raws.
Proof.
  unfold canonical. rewrite fmap_cons. intros [[_ Hlt]%StronglySorted_inv _].
  exact (proj1 (Forall_fmap _ _ _) Hlt).
Qed.

Lemma raw_map_above t raws k :
  Forall (fun x => t < x.1) raws -> k <= t -> raw_map raws !! k = None.
Proof.
  intros Hf Hk. apply not_elem_of_list_to_map_1. intros Hin.
  apply list_elem_of_fmap in Hin as (x & -> & Hx).
  rewrite Forall_forall in Hf. apply Hf in Hx. lia.
Qed.

Lemma raw_map_cons t b raws : raw_map ((t, b) :: raws) = <[t := b]> (raw_map raws).
Proof. done. Qed.

(** Records below the first raw type are left alone; records above it see the rest. *)
Lemma reads_below t b raws sk :
  Forall (fun x => t < x.1) raws -> Forall (fun x => typ x < t) sk ->
  forall sk', Forall2 (reads ((t, b) :: raws)) sk sk' <-> sk' = sk.
Proof.
  intros Hr Hsk.
  assert (forall x x', typ x < t -> reads ((t, b) :: raws) x x' <-> x' = x) as Hone.
  { intros x x' Hx. unfold reads.
    rewrite raw_map_cons, lookup_insert_ne, (raw_map_above t) by (done || lia). done. }
  induction Hsk as [|x sk Hx Hsk IH]; intros sk'; split.
  - by intros ->%Forall2_nil_inv_l.
  - intros ->. constructor.
  - intros (x' & l' & Hxx & Hl & ->)%Forall2_cons_inv_l.
    apply Hone in Hxx as ->; [|done]. by apply IH in Hl as ->.
  - intros ->. constructor; [by apply Hone | by apply IH].
Qed.

Lemma reads_above t b raws rest rest' :
  Forall (fun x => t < typ x) rest ->
  Forall2 (reads ((t, b) :: raws)) rest rest' <-> Forall2 (reads raws) rest rest'.
Proof.
  intros Hrest. assert (forall x x', t < typ x ->
    reads ((t, b) :: raws) x x' <-> reads raws x x') as Hone.
  { intros x x' Hx. unfold reads. by rewrite raw_map_cons, lookup_insert_ne by lia. }
  revert rest'. induction Hrest as [|x rest Hx Hrest IH]; intros rest'.
  - split; intros ->%Forall2_nil_inv_l; constructor.
  - split; intros (x' & l' & Hxx & Hl & ->)%Forall2_cons_inv_l; constructor;
      by (apply Hone || apply IH).
Qed.

(** The parsed-type map [pm'] after reading [raws] on top of [pm]. *)
Definition noted (recs : list tlv_record) (raws : list raw) (pm pm' : TypeMap) : Prop :=
  forall t, pm' !! t =
    match raw_map raws !! t with
    | Some b => Some (if bool_decide (t ∈ typ <$> recs) then None else Some b)
    | None => pm !! t
    end.

Lemma noted_cons recs rest t b raws pm pm' :
  Forall (fun x => t < x.1) raws ->
  (forall k, t < k -> k ∈ typ <$> recs <-> k ∈ typ <$> rest) ->
  noted rest raws
    (<[t := if bool_decide (t ∈ typ <$> recs) then None else Some b]> pm) pm' <->
  noted recs ((t, b) :: raws) pm pm'.
Proof.
  intros Hr Hk. unfold noted, TypeMap in *. apply forall_proper. intros k. rewrite raw_map_cons.
  destruct (decide (k = t)) as [->|Hne].
  { rewrite (raw_map_above t raws t) by (done || lia).
    by rewrite !lookup_insert_eq. }
  rewrite !lookup_insert_ne by done.
  destruct (raw_map raws !! k) as [b'|] eqn:Hb; [|done].
  assert (t < k) as Hlt.
  { destruct (Z.lt_ge_cases t k); [done|]. by rewrite (raw_map_above t) in Hb by done. }
  by rewrite (bool_decide_ext _ _ (Hk k Hlt)).
Qed.

(** The two cases of [decode_loop_step] agree on which later types are known. *)
Lemma known_above t sk rest :
  Forall (fun x => typ x < t) sk ->
  forall k, t < k -> k ∈ typ <$> sk ++ rest <-> k ∈ typ <$> rest.
Proof.
  intros Hsk k Hk. rewrite fmap_app, elem_of_app. split; [|by right].
  intros [Hin|]; [|done]. apply list_elem_of_fmap in Hin as (x & -> & Hx).
  rewrite Forall_forall in Hsk. apply Hsk in Hx. lia.
Qed.

Lemma unknown_type t sk rest :
  Forall (fun x => typ x < t) sk -> Forall (fun x => t < typ x) rest ->
  bool_decide (t ∈ typ <$> sk ++ rest) = false.
Proof.
  rewrite !Forall_forall. intros Hsk Hrest. apply bool_decide_eq_false. intros Hin.
  apply list_elem_of_fmap in Hin as (x & Ht & [Hx|Hx]%elem_of_app).
  - apply Hsk in Hx. lia.
  - apply Hrest in Hx. lia.
Qed.

Lemma known_type t sk rec rest :
  typ rec = t -> bool_decide (t ∈ typ <$> sk ++ rec :: rest) = true.
Proof. intros <-. apply bool_decide_eq_true. rewrite fmap_app, fmap_cons. set_solver. Qed.

Lemma known_after t sk rec rest :
  Forall (fun x => typ x < t) sk -> typ rec = t ->
  forall k, t < k -> k ∈ typ <$> sk ++ rec :: rest <-> k ∈ typ <$> rest.
Proof.
  intros Hsk Hrec k Hk. rewrite (known_above t) by done. rewrite fmap_cons, elem_of_cons.
  split; [intros [->|]; [lia|done] | by right].
Qed.

Lemma copy_n_app b r : copy_n (length b) (b ++ r) = Ok (b, r).
Proof.
  unfold copy_n. rewrite length_app. destruct (Nat.ltb_spec (length b + length r) (length b)).
  - lia.
  - by rewrite take_app_length, drop_app_length.
Qed.

Lemma copy_n_ok n r b r' : copy_n n r = Ok (b, r') -> r = b ++ r' /\ length b = n.
Proof.
  unfold copy_n. destruct (Nat.ltb_spec (length r) n); [done|]. intros [= <- <-].
  rewrite take_drop, length_take. split; [done|lia].
Qed.

(** Reading a canonical encoding succeeds, with the values and the map the
    specification gives. *)
Lemma decode_loop_complete raws : forall fuel done todo todo' pm min ovf,
  canonical raws -> reads_from min ovf raws -> (length raws < fuel)%nat ->
  sorted_records todo -> Forall2 (reads raws) todo todo' ->
  exists pm', decode_loop fuel (done ++ todo) (encode_raw raws) (Some pm) min (length done) ovf =
      Ok (done ++ todo', Some pm') /\ noted todo raws pm pm'.
Proof.
  induction raws as [|[t b] raws IH]; intros fuel done todo todo' pm min ovf Hc Hfrom Hfuel Hs Hreads;
    (destruct fuel as [|fuel]; [simpl in Hfuel; lia|]).
  { exists pm. split; [|done]. simpl.
    assert (todo' = todo) as ->; [|done].
    symmetry. apply list_eq_Forall2. eapply Forall2_impl; [exact Hreads|]. by unfold reads. }
  pose proof (canonical_above _ _ _ Hc) as Habove.
  apply canonical_cons in Hc as (Ht & Hlen & Hc & Hnext).
  destruct ovf; [done|]. pose proof (Forall_inv Hfrom) as Hmin. simpl in Hmin, Hfuel.
  cbn [encode_raw].
  destruct (decode_loop_step fuel done todo t (Z.of_nat (length b)) (b ++ encode_raw raws) pm min)
    as (sk & rest & -> & Hsk & Hcase); [done..|lia|done|].
  apply sorted_records_app in Hs as [_ Hs].
  apply Forall2_app_inv_l in Hreads as (sk' & k' & Hsk' & Hk' & ->).
  apply reads_below in Hsk' as ->; [|done..].
  destruct Hcase as [(rec & rest' & -> & Hrec & Hrest & ->)|(Hrest & ->)].
  - apply Forall2_cons_inv_l in Hk' as (x' & l' & Hx & Hl & ->).
    apply reads_above in Hl; [|done]. apply sorted_records_cons in Hs as [Hs _].
    unfold reads in Hx. rewrite raw_map_cons, Hrec, lookup_insert_eq in Hx.
    destruct Hx as (v & Hv & ->). rewrite Hv. cbn [no_eof]. rsimpl.
    destruct (IH fuel (done ++ sk ++ [set_value rec v]) rest' l' (<[t:=None]> pm) _ _
      Hc Hnext ltac:(lia) Hs Hl) as (pm' & -> & Hpm).
    exists pm'. rewrite <- !app_assoc. split; [done|].
    apply (noted_cons _ rest'); [done | by apply known_after |].
    by rewrite (known_type t sk rec rest' Hrec).
  - apply reads_above in Hk'; [|done].
    rewrite Nat2Z.id, copy_n_app. cbn [no_eof]. rsimpl.
    destruct (IH fuel (done ++ sk) rest k' (<[t:=Some b]> pm) _ _
      Hc Hnext ltac:(lia) Hs Hk') as (pm' & -> & Hpm).
    exists pm'. rewrite <- !app_assoc. split; [done|].
    apply (noted_cons _ rest); [done | by apply known_above |].
    by rewrite (unknown_type t sk rest Hsk Hrest).
Qed.

(** Splits a successful run of the loop into its header and the rest. *)
Lemma decode_loop_header fuel recs r pm min idx ovf out :
  decode_loop (S fuel) recs r (Some pm) min idx ovf = Ok out ->
  (r = [] /\ out = (recs, Some pm)) \/
  (ovf = false /\ exists t l r2, min <= t /\ is_u64 t /\ 0 <= l <= MaxRecordSize /\
     r = WriteVarInt t ++ WriteVarInt l ++ r2).
Proof.
  cbn [decode_loop]. destruct (ReadVarInt r) as [[t r1]|e|] eqn:Hr; [..|done].
  2: { destruct e; [|done..]. intros [= <-]. left. by apply ReadVarInt_eof in Hr. }
  apply ReadVarInt_ok in Hr as [Ht ->].
  destruct ovf; [done|]. rewrite orb_false_l.
  destruct (Z.ltb_spec t min) as [|Hmin]; [done|].
  intros ([l r2] & Hl & Hk)%bind_ok. apply no_eof_ok, ReadVarInt_ok in Hl as [Hl ->].
  destruct (l >? MaxRecordSize) eqn:Hmax; [done|]. right. split; [done|].
  exists t, l, r2. split_and!; [done..| | |done]; unfold is_u64 in Hl; lia.
Qed.

(** Only canonical encodings are accepted, provided every record's decoder consumes
    exactly the bytes it was told to. *)
Lemma decode_loop_sound fuel : forall pre todo r pm min ovf recs' pt',
  sorted_records todo -> Forall framed todo ->
  decode_loop fuel (pre ++ todo) r (Some pm) min (length pre) ovf = Ok (recs', pt') ->
  exists raws todo' pm', canonical raws /\ reads_from min ovf raws /\ r = encode_raw raws /\
    Forall2 (reads raws) todo todo' /\ recs' = pre ++ todo' /\ pt' = Some pm' /\
    noted todo raws pm pm'.
Proof.
  induction fuel as [|fuel IH]; intros pre todo r pm min ovf recs' pt' Hs Hframed Hdec; [done|].
  pose proof Hdec as Hdec'.
  apply decode_loop_header in Hdec' as [(-> & Hout)|(-> & t & l & r2 & Hmin & Ht & Hl & ->)].
  { injection Hout as -> ->. exists [], todo, pm.
    split; [split; constructor|]. split; [destruct ovf; [done|constructor]|]. split_and!; try done.
    apply Forall_Forall2_diag, Forall_true. by intros x. }
  destruct (decode_loop_step fuel pre todo t l r2 pm min)
    as (sk & rest & -> & Hsk & Hcase); [done..|].
  apply sorted_records_app in Hs as [_ Hs]. apply Forall_app in Hframed as [_ Hframed].
  destruct Hcase as [(rec & rest' & -> & Hrec & Hrest & Heq)|(Hrest & Heq)]; rewrite Heq in Hdec.
  - apply bind_ok in Hdec as ([v r3] & Hv%no_eof_ok & Hdec).
    apply Forall_cons in Hframed as [Hrecf Hframed].
    apply Hrecf in Hv as (b & -> & -> & Hv); [|lia].
    apply sorted_records_cons in Hs as [Hs _].
    apply IH in Hdec as (raws & todo' & pm' & Hc & Hfrom & -> & Hreads & -> & -> & Hpm); [|done..].
    assert (canonical ((t, b) :: raws)) as Hc' by (apply canonical_cons; tauto).
    pose proof (canonical_above _ _ _ Hc') as Habove.
    exists ((t, b) :: raws), (sk ++ set_value rec v :: todo'), pm'.
    split; [done|]. split; [|split_and!; [done| | |done|]].
    + constructor; [done|]. eapply Forall_impl; [exact Habove|]. simpl. lia.
    + apply Forall2_app; [by apply reads_below|]. constructor; [|by apply reads_above].
      unfold reads. rewrite raw_map_cons, Hrec, lookup_insert_eq. by exists v.
    + by rewrite <- !app_assoc.
    + apply (noted_cons _ rest'); [done | by apply known_after |].
      by rewrite (known_type t sk rec rest' Hrec).
  - apply bind_ok in Hdec as ([b r3] & Hb%no_eof_ok & Hdec).
    apply copy_n_ok in Hb as [-> Hb]. assert (l = Z.of_nat (length b)) as -> by lia.
    apply IH in Hdec as (raws & todo' & pm' & Hc & Hfrom & -> & Hreads & -> & -> & Hpm); [|done..].
    assert (canonical ((t, b) :: raws)) as Hc' by (apply canonical_cons; tauto).
    pose proof (canonical_above _ _ _ Hc') as Habove.
    exists ((t, b) :: raws), (sk ++ todo'), pm'.
    split; [done|]. split; [|split_and!; [done| |by rewrite <- app_assoc|done|]].
    + constructor; [done|]. eapply Forall_impl; [exact Habove|]. simpl. lia.
    + apply Forall2_app; [by apply reads_below | by apply reads_above].
    + apply (noted_cons _ rest); [done | by apply known_above |].
      by rewrite (unknown_type t sk rest Hsk Hrest).
Qed.

Lemma noted_parsed recs raws pm : noted recs raws ∅ pm <-> pm = parsed recs raws.
Proof.
  unfold noted, parsed, TypeMap in *. split.
  - intros Hn. apply map_eq. intros t. rewrite Hn, map_lookup_imap.
    by destruct (raw_map raws !! t).
  - intros -> t. rewrite map_lookup_imap. by destruct (raw_map raws !! t).
Qed.

Lemma DecodeWithParsedTypes_complete recs recs' raws :
  sorted_records recs -> canonical raws -> Forall2 (reads raws) recs recs' ->
  DecodeWithParsedTypes recs (encode_raw raws) = Ok (recs', Some (parsed recs raws)).
Proof.
  intros Hs Hc Hr. unfold DecodeWithParsedTypes, decode.
  destruct (decode_loop_complete raws (S (length (encode_raw raws))) [] recs recs' ∅ 0 false)
    as (pm & Heq & Hpm%noted_parsed); [done| |pose proof (encode_raw_length raws); lia|done..|].
  - simpl. destruct Hc as [_ Hc]. eapply Forall_impl; [exact Hc|].
    intros [t b] [[? _] _]. done.
  - rewrite Hpm in Heq. exact Heq.
Qed.

End StreamSpec.

(** C27. The accepted language of a stream, and what is read from it.  For records in
    increasing type order whose decoders consume exactly their declared length, a
    byte string is decoded to records [recs'] and parsed-type map [pt] exactly when
    it is the encoding of a canonical sequence of raw records (strictly increasing
    64-bit types, values of at most 65535 bytes), each known record present in the
    sequence took its value, the others are unchanged, and [pt] maps each type read
    to nothing when known and to its bytes when unknown. *)
Theorem stream_decode_iff `{Secp256k1} (recs recs' : list tlv_record) (r : list byte)
    (pt : option TypeMap) :
  sorted_records recs -> Forall framed recs ->
  DecodeWithParsedTypes recs r = Ok (recs', pt) <->
  exists raws, canonical raws /\ r = encode_raw raws /\
    Forall2 (reads raws) recs recs' /\ pt = Some (parsed recs raws).
Proof.
  intros Hs Hf. split.
  - intros Hdec. apply (decode_loop_sound _ []) in Hdec
      as (raws & todo' & pm' & Hc & _ & -> & Hr & -> & -> & Hpm%noted_parsed); [|done..].
    exists raws. by rewrite Hpm.
  - intros (raws & Hc & -> & Hr & ->). by apply DecodeWithParsedTypes_complete.
Qed.

(** ** Encoding streams *)

Section Encoding.
Context `{Secp256k1}.

(** The record [rec] writes the raw record [x]. *)
Definition writes (rec : tlv_record) (x : raw) : Prop :=
  typ rec = x.1 /\ RecordEncode rec = Ok x.2 /\ Size rec = Z.of_nat (length x.2).

Lemma StreamEncode_raw recs raws :
  Forall2 writes recs raws -> StreamEncode recs = Ok (encode_raw raws).
Proof.
  induction 1 as [|rec [t b] recs raws (Ht & Hb & Hs) _ IH]; [done|].
  cbn [StreamEncode encode_raw]. rewrite Hb, IH. rsimpl. by rewrite Ht, Hs.
Qed.

Lemma check_order_iff recs : forall min ovf,
  Forall (fun x => is_u64 (typ x)) recs ->
  check_order recs min ovf = Ok tt <->
  sorted_records recs /\ if ovf then recs = [] else Forall (fun x => min <= typ x) recs.
Proof.
  induction recs as [|rec recs IH]; intros min ovf Hu.
  { split; [|done]. intros _. split; [constructor|]. destruct ovf; [done|constructor]. }
  apply Forall_cons in Hu as [Ht Hu]. cbn [check_order].
  destruct ovf; [split; [done|intros [_ ?]; done]|]. rewrite orb_false_l.
  destruct (Z.ltb_spec (typ rec) min) as [Hlt|Hge].
  { split; [done|]. intros [_ Hf%Forall_inv]. lia. }
  rewrite orb_false_l, (IH _ _ Hu). unfold sorted_records. rewrite fmap_cons.
  unfold is_u64, MaxUint64 in *. destruct (Z.eqb_spec (typ rec) (2 ^ 64 - 1)) as [He|Hne].
  - split.
    + intros [_ ->]. split; repeat constructor; done.
    + intros [[Hs Hf]%StronglySorted_inv _]. split; [done|].
      destruct recs as [|x recs]; [done|]. apply Forall_inv in Hf, Hu. simpl in *. lia.
  - rewrite u64_small by (unfold is_u64; lia). split.
    + intros [Hs Hf]. split.
      * constructor; [done|]. rewrite Forall_fmap. eapply Forall_impl; [exact Hf|]. simpl. lia.
      * constructor; [done|]. eapply Forall_impl; [exact Hf|]. simpl. lia.
    + intros [[Hs Hf]%StronglySorted_inv _]. split; [done|].
      rewrite Forall_fmap in Hf. eapply Forall_impl; [exact Hf|]. simpl. lia.
Qed.

Lemma NewStream_iff recs :
  Forall (fun x => is_u64 (typ x)) recs -> NewStream recs = Ok recs <-> sorted_records recs.
Proof.
  intros Hu. unfold NewStream. pose proof (check_order_iff recs 0 false Hu) as Hc.
  assert (Forall (fun x => 0 <= typ x) recs).
  { eapply Forall_impl; [exact Hu|]. unfold is_u64. simpl. lia. }
  destruct (check_order recs 0 false) as [[]|e|]; rsimpl; split; try done.
  - intros _. by apply Hc.
  - intros Hs. destruct Hc as [_ Hc]. discriminate Hc. done.
  - intros Hs. destruct Hc as [_ Hc]. discriminate Hc. done.
Qed.

(** A sender's record and the receiver's record of the same type for it. *)
Definition paired (s r : tlv_record) : Prop :=
  exists t v v0, is_u64 t /\ wf_val v /\ same_kind v v0 /\
    MakePrimitiveRecord t v = Ok s /\ MakePrimitiveRecord t v0 = Ok r /\
    Size s <= MaxRecordSize.

Lemma paired_spec s r :
  paired s r -> exists b, writes s (typ s, b) /\ typ r = typ s /\ is_u64 (typ s) /\
    Z.of_nat (length b) <= MaxRecordSize /\ decodes r b (value s) /\ set_value r (value s) = s.
Proof.
  intros (t & v & v0 & Ht & Hwf & Hk & Hs & Hr & Hsize).
  destruct (primitive_codec t v v0 s r Hwf Hk Hs Hr) as (b & Hb & Hl & Hd).
  exists b. unfold writes. rewrite <- Hl.
  destruct v, v0; simpl in Hk; try done; injection Hs as <-; injection Hr as <-; done.
Qed.

Lemma paired_raws ss rs :
  Forall2 paired ss rs -> exists raws, Forall2 writes ss raws /\
    raws.*1 = typ <$> ss /\ typ <$> rs = typ <$> ss /\
    Forall (fun '(t, b) => is_u64 t /\ Z.of_nat (length b) <= MaxRecordSize) raws /\
    Forall (fun x => is_u64 (typ x)) ss /\
    Forall2 (fun x p => decodes x.1 p.2 (value x.2) /\ set_value x.1 (value x.2) = x.2)
      (zip rs ss) raws.
Proof.
  induction 1 as [|s r ss rs Hp _ (raws & Hw & Hk & Ht & Hl & Hu & Hd)]; [by exists []|].
  apply paired_spec in Hp as (b & Hb & Htr & Hus & Hlen & Hdec & Hset).
  exists ((typ s, b) :: raws). rewrite !fmap_cons. simpl.
  split_and!; [by constructor | by f_equal | by f_equal | by constructor..].
Qed.

Lemma reads_zip raws rs ss :
  NoDup raws.*1 -> raws.*1 = typ <$> ss -> typ <$> rs = typ <$> ss -> length rs = length ss ->
  Forall2 (fun x p => decodes x.1 p.2 (value x.2) /\ set_value x.1 (value x.2) = x.2)
    (zip rs ss) raws ->
  Forall2 (reads raws) rs ss.
Proof.
  intros Hnd Hk Ht Hlen Hd. apply Forall2_same_length_lookup_2; [done|].
  intros i r s Hr Hs.
  assert (zip rs ss !! i = Some (r, s)) as Hz by (apply lookup_zip_Some; done).
  destruct (Forall2_lookup_l _ _ _ _ _ Hd Hz) as ([t b] & Hx & Hdec & Hset). simpl in *.
  assert (typ r = t) as Htr.
  { assert ((typ <$> rs) !! i = Some (typ r)) as H1 by by rewrite list_lookup_fmap, Hr.
    assert (raws.*1 !! i = Some t) as H2 by by rewrite list_lookup_fmap, Hx.
    congruence. }
  unfold reads, raw_map. rewrite Htr.
  rewrite (elem_of_list_to_map_1 raws t b); [by exists (value s)|done|].
  by apply list_elem_of_lookup_2 in Hx.
Qed.

Lemma sorted_NoDup (l : list Z) : StronglySorted Z.lt l -> NoDup l.
Proof.
  induction 1 as [|x l Hs IH Hf]; constructor; [|done].
  intros Hin. rewrite Forall_forall in Hf. apply Hf in Hin. lia.
Qed.

End Encoding.

(** Streams of primitive records round-trip: when the sender's records are
    accepted by [NewStream], encoding succeeds and a receiver with records of the
    same types and kinds, holding any values, decodes the encoding to the sender's
    values and notes every type as known. *)
Theorem stream_roundtrip `{Secp256k1} (ss rs : list tlv_record) :
  Forall2 paired ss rs -> NewStream ss = Ok ss ->
  exists enc, StreamEncode ss = Ok enc /\
    DecodeWithParsedTypes rs enc =
      Ok (ss, Some (list_to_map ((fun s => (typ s, None)) <$> ss))).
Proof.
  intros Hp Hn. pose proof (Forall2_length _ _ _ Hp) as Hlen.
  destruct (paired_raws ss rs Hp) as (raws & Hw & Hk & Ht & Hl & Hu & Hd).
  apply NewStream_iff in Hn; [|done].
  exists (encode_raw raws). split; [by apply StreamEncode_raw|].
  assert (canonical raws) as Hc by (split; [by rewrite Hk | done]).
  rewrite (DecodeWithParsedTypes_complete rs ss); [|by unfold sorted_records; rewrite Ht|done|].
  2: { apply reads_zip; try done. rewrite Hk. by apply sorted_NoDup. }
  do 3 f_equal. apply map_eq. intros t. unfold parsed. rewrite map_lookup_imap, Ht.
  destruct (raw_map raws !! t) as [b|] eqn:Hb; simpl.
  - apply elem_of_list_to_map_2 in Hb. rewrite bool_decide_eq_true_2.
    2: { rewrite <- Hk. apply list_elem_of_fmap. by exists (t, b). }
    symmetry. apply elem_of_list_to_map_1.
    + rewrite <- list_fmap_compose. by apply sorted_NoDup.
    + apply list_elem_of_fmap. assert (t ∈ typ <$> ss) as Hin.
      { rewrite <- Hk. apply list_elem_of_fmap. by exists (t, b). }
      apply list_elem_of_fmap in Hin as (s & -> & Hs). by exists s.
  - symmetry. apply not_elem_of_list_to_map_1. rewrite <- list_fmap_compose.
    apply not_elem_of_list_to_map_2 in Hb. by rewrite Hk in Hb.
Qed.

(** Two records, an integer and a byte slice. *)
Definition example_records (n : Z) (b : list byte) : list tlv_record :=
  [Record_ (PUint32 n) 3 4 None (Some EUint32) (Some DUint32);
   Record_ (PVarBytes b) 70000 0 (Some SizeVarBytes) (Some EVarBytes) (Some DVarBytes)].

Lemma stream_roundtrip_witness :
  Forall2 paired (example_records 5 [x01]) (example_records 0 []) /\
  NewStream (example_records 5 [x01]) = Ok (example_records 5 [x01]) /\
  exists enc, StreamEncode (example_records 5 [x01]) = Ok enc /\
    DecodeWithParsedTypes (example_records 0 []) enc =
      Ok (example_records 5 [x01],
          Some (list_to_map ((fun s => (typ s, None)) <$> example_records 5 [x01]))).
Proof.
  assert (Forall2 paired (example_records 5 [x01]) (example_records 0 [])) as Hp.
  { repeat constructor.
    - exists 3, (PUint32 5), (PUint32 0). by split_and!.
    - exists 70000, (PVarBytes [x01]), (PVarBytes []). by split_and!. }
  split; [exact Hp|]. split; [reflexivity|].
  apply (stream_roundtrip (example_records 5 [x01]) (example_records 0 []) Hp). reflexivity.
Defined.

(** ** Maps of custom records *)

Section CustomRecords.
Context `{Secp256k1}.

#[local] Instance typ_le_total : Total typ_le.
Proof. intros a b. unfold typ_le. lia. Qed.
#[local] Instance typ_le_trans : Transitive typ_le.
Proof. intros a b c. unfold typ_le. lia. Qed.

(** The record [MapToRecords] makes for a raw record. *)
Definition stub_record (kv : raw) : tlv_record :=
  MakeStaticRecord (fst kv) PNil (u64 (Z.of_nat (length (snd kv))))
    (Some (StubEncoder (snd kv))) None.

Lemma sorted_le_NoDup (l : list tlv_record) :
  StronglySorted typ_le l -> NoDup (typ <$> l) -> sorted_records l.
Proof.
  unfold sorted_records. induction 1 as [|x l Hs IH Hf]; [constructor|].
  rewrite fmap_cons. intros [Hx Hnd]%NoDup_cons. constructor; [by apply IH|].
  rewrite Forall_fmap. apply Forall_forall. intros y Hy. simpl.
  rewrite Forall_forall in Hf. specialize (Hf y Hy). unfold typ_le in Hf.
  assert (typ x <> typ y); [|lia].
  intros He. apply Hx. rewrite He. by apply list_elem_of_fmap_2.
Qed.

(** The records are those of some ordering of the map's entries. *)
Lemma MapToRecords_entries (m : gmap Z (list byte)) :
  exists raws, MapToRecords m = stub_record <$> raws /\ raws ≡ₚ map_to_list m.
Proof.
  unfold MapToRecords, SortRecords.
  set (l := map _ _). pose proof (merge_sort_Permutation typ_le l) as Hp.
  apply Permutation_map_inv in Hp as (raws & -> & Hraws). by exists raws.
Qed.

Lemma MapToRecords_raws (m : gmap Z (list byte)) :
  map_Forall (fun t b => is_u64 t /\ Z.of_nat (length b) <= MaxRecordSize) m ->
  exists raws, MapToRecords m = stub_record <$> raws /\ canonical raws /\ raw_map raws = m.
Proof.
  intros Hm. destruct (MapToRecords_entries m) as (raws & Hr & Hp).
  assert (NoDup raws.*1) as Hnd by (rewrite Hp; apply NoDup_fst_map_to_list).
  assert (typ <$> (stub_record <$> raws) = raws.*1) as Htyp.
  { rewrite <- list_fmap_compose. done. }
  exists raws. split; [done|]. split; [split|].
  - rewrite <- Htyp. apply sorted_le_NoDup; [|by rewrite Htyp].
    rewrite <- Hr. by apply StronglySorted_merge_sort; apply _.
  - apply Forall_forall. intros [t b] Hin. rewrite Hp in Hin.
    apply elem_of_map_to_list in Hin. by apply Hm in Hin.
  - unfold raw_map. rewrite <- (list_to_map_to_list m).
    by apply list_to_map_proper.
Qed.

Lemma stub_records_write raws :
  Forall (fun '(t, b) => is_u64 t /\ Z.of_nat (length b) <= MaxRecordSize) raws ->
  Forall2 writes (stub_record <$> raws) raws.
Proof.
  induction 1 as [|[t b] raws [_ Hb] _ IH]; [constructor|]. rewrite fmap_cons.
  constructor; [|done]. unfold writes, Size, RecordEncode, StubEncoder. simpl.
  split_and!; [done..|]. apply u64_small. unfold is_u64, MaxRecordSize in *. lia.
Qed.

End CustomRecords.

(** Custom-record maps round-trip: the records made from a map of 64-bit types to
    values of at most 65535 bytes are accepted by [NewStream], their encoding
    succeeds, and a stream that knows none of them decodes the encoding back to the
    same map. *)
Theorem custom_records_roundtrip `{Secp256k1} (m : gmap Z (list byte)) :
  map_Forall (fun t b => is_u64 t /\ Z.of_nat (length b) <= MaxRecordSize) m ->
  NewStream (MapToRecords m) = Ok (MapToRecords m) /\
  exists enc, StreamEncode (MapToRecords m) = Ok enc /\
    DecodeWithParsedTypes [] enc = Ok ([], Some (Some <$> m)).
Proof.
  intros Hm. destruct (MapToRecords_raws m Hm) as (raws & -> & Hc & <-).
  pose proof Hc as [Hs Hf]. split.
  - apply NewStream_iff.
    + apply Forall_fmap. eapply Forall_impl; [exact Hf|]. by intros [t b] [? _].
    + unfold sorted_records. by rewrite <- list_fmap_compose.
  - exists (encode_raw raws). split; [by apply StreamEncode_raw, stub_records_write|].
    rewrite (DecodeWithParsedTypes_complete [] [] raws); [|constructor|done|constructor].
    do 3 f_equal. apply map_eq. intros t. unfold parsed.
    rewrite map_lookup_imap, lookup_fmap. by destruct (raw_map raws !! t).
Qed.

Lemma custom_records_roundtrip_witness :
  map_Forall (fun t b => is_u64 t /\ Z.of_nat (length b) <= MaxRecordSize)
    (<[65536 := [x01; x02]]> (<[5 := []]> ∅) : gmap Z (list byte)) /\
  exists enc, StreamEncode (MapToRecords (<[65536 := [x01; x02]]> (<[5 := []]> ∅))) = Ok enc /\
    DecodeWithParsedTypes [] enc =
      Ok ([], Some (Some <$> (<[65536 := [x01; x02]]> (<[5 := []]> ∅) : gmap Z (list byte)))).
Proof.
  assert (map_Forall (fun t b => is_u64 t /\ Z.of_nat (length b) <= MaxRecordSize)
    (<[65536 := [x01; x02]]> (<[5 := []]> ∅) : gmap Z (list byte))) as Hm.
  { repeat apply map_Forall_insert_2; [by split_and!..|apply map_Forall_empty]. }
  split; [exact Hm|]. apply (custom_records_roundtrip _ Hm).
Defined.

Lemma stream_decode_iff_witness :
  sorted_records (example_records 0 []) /\ Forall framed (example_records 0 []) /\
  DecodeWithParsedTypes (example_records 0 [])
    (encode_raw [(1, [xaa]); (3, be_bytes 4 9)]) =
  Ok (example_records 9 [], Some (parsed (example_records 0 []) [(1, [xaa]); (3, be_bytes 4 9)])).
Proof.
  assert (sorted_records (example_records 0 [])) as Hs by (repeat constructor).
  assert (Forall framed (example_records 0 [])) as Hf.
  { repeat constructor.
    - by apply (primitive_framed 3 (PUint32 0)).
    - by apply (primitive_framed 70000 (PVarBytes [])). }
  split; [exact Hs|]. split; [exact Hf|].
  apply (stream_decode_iff (example_records 0 []) _ _ _ Hs Hf).
  exists [(1, [xaa]); (3, be_bytes 4 9)]. split; [split|split_and!; [done| |done]].
  - repeat constructor.
  - repeat constructor; done.
  - constructor; [|constructor; [done|constructor]].
    exists (PUint32 9). split; [|done]. intros r. done.
Defined.

(** ** Decoding never panics *)

Section Safety.
Context `{Secp256k1}.

(** A decoder that never panics and never gives bytes back. *)
Definition safe_decoder (d : Decoder) : Prop :=
  forall val l r, 0 <= l ->
  match d val l r with
  | Ok (_, r') => (length r' <= length r)%nat
  | Err _ => True
  | Panic => False
  end.

Definition safe_record (rec : tlv_record) : Prop :=
  exists d, decoder rec = Some d /\ safe_decoder d.

Lemma read_full_safe n r :
  match read_full n r with
  | Ok (_, r') => (length r' <= length r)%nat
  | Err _ => True
  | Panic => False
  end.
Proof.
  destruct (read_full n r) as [[b r']| |] eqn:E; [|done|].
  - apply read_full_ok in E as [-> _]. rewrite length_app. lia.
  - unfold read_full in E. by repeat case_match.
Qed.

Lemma read_be_safe n r :
  match read_be n r with
  | Ok (_, r') => (length r' <= length r)%nat
  | Err _ => True
  | Panic => False
  end.
Proof.
  unfold read_be. pose proof (read_full_safe n r).
  by destruct (read_full n r) as [[b r']| |].
Qed.

Lemma primitive_safe t v rec : MakePrimitiveRecord t v = Ok rec -> safe_record rec.
Proof.
  destruct v; simpl; intros Hr; try discriminate Hr; injection Hr as <-;
    eexists; (split; [reflexivity|]); intros val l r _;
    unfold DUint8, DUint16, DUint32, DUint64, DBytes32, DBytes33, DBytes64, DPubKey, DVarBytes;
    destruct val; try done; try (destruct (l =? _); [|done]);
    match goal with
    | |- context [read_be ?n ?r] =>
        pose proof (read_be_safe n r); by destruct (read_be n r) as [[]| |]
    | |- context [read_full ?n ?r] =>
        pose proof (read_full_safe n r); destruct (read_full n r) as [[]| |]; rsimpl;
        try destruct (ParsePubKey _); done
    end.
Qed.

Lemma ReadVarInt_safe r :
  match ReadVarInt r with
  | Ok (_, r') => (length r' < length r)%nat
  | Err _ => True
  | Panic => False
  end.
Proof.
  destruct (ReadVarInt r) as [[v r']| |] eqn:E; [|done|].
  - apply ReadVarInt_ok in E as [_ ->]. rewrite length_app.
    pose proof (WriteVarInt_length v). lia.
  - unfold ReadVarInt in E. pose proof (read_be_safe 1 r).
    destruct (read_be 1 r) as [[d r1]| |]; try done. cbn [mbind res_bind] in E.
    repeat case_match; try done;
      match type of E with
      | context [read_be ?n r1] =>
          pose proof (read_be_safe n r1);
          destruct (read_be n r1) as [[]|[]|]; try done; simpl in E; by case_match
      end.
Qed.

Lemma getRecord_Some n recs t : forall idx rec newIdx,
  getRecord n recs t idx = (Some rec, newIdx) ->
  recs !! (newIdx - 1)%nat = Some rec /\ (0 < newIdx)%nat.
Proof.
  induction n as [|n IH]; intros idx rec newIdx; simpl; [done|].
  destruct (recs !! idx) as [x|] eqn:Hx; [|done].
  destruct (typ x =? t); [intros [= <- <-]; rewrite Nat.sub_1_r; split; [done|lia]|].
  destruct (typ x <? t); [apply IH | done].
Qed.

Lemma no_eof_panic {A} (m : res A) : no_eof m = Panic -> m = Panic.
Proof. by destruct m as [|[]|]. Qed.

Lemma decode_loop_no_panic fuel : forall recs r pt min idx ovf,
  (length r < fuel)%nat -> Forall safe_record recs ->
  decode_loop fuel recs r pt min idx ovf <> Panic.
Proof.
  induction fuel as [|fuel IH]; intros recs r pt min idx ovf Hlen Hsafe; [lia|].
  cbn [decode_loop]. pose proof (ReadVarInt_safe r) as Hr.
  destruct (ReadVarInt r) as [[t r1]|[]|]; try done.
  destruct (ovf || (t <? min)); [done|].
  pose proof (ReadVarInt_safe r1) as Hr1.
  destruct (ReadVarInt r1) as [[l r2]|[]|] eqn:El; try done. cbn [no_eof]. rsimpl.
  apply ReadVarInt_ok in El as [[Hl _] _].
  destruct (l >? MaxRecordSize); [done|].
  destruct (getRecord _ recs t idx) as [[rec|] newIdx] eqn:Hg.
  - apply getRecord_Some in Hg as [Hrec _].
    destruct (Forall_lookup_1 _ _ _ _ Hsafe Hrec) as (d & Hd & Hsd).
    unfold RecordDecode. rewrite Hd. pose proof Hsd as Hsd0. specialize (Hsd (value rec) l r2 Hl).
    destruct (d (value rec) l r2) as [[v r3]|[]|]; try done. cbn [no_eof]. rsimpl.
    apply IH; [lia|]. apply Forall_insert; [done|]. exists d. split; [exact Hd|]. intros ? ? ?. apply Hsd0.
  - destruct (copy_n (Z.to_nat l) r2) as [[b r3]|[]|] eqn:Ec; try done.
    + cbn [no_eof]. rsimpl. apply copy_n_ok in Ec as [-> _]. rewrite length_app in *.
      apply IH; [lia|done].
    + unfold copy_n in Ec. by case_match.
Qed.

End Safety.

(** Whatever bytes arrive, decoding into primitive records returns: it never
    panics, and the bound on the number of rounds is never what stops it. *)
Theorem decode_no_panic `{Secp256k1} (recs : list tlv_record) (r : list byte)
    (pt : option TypeMap) :
  Forall (fun rec => exists t v, MakePrimitiveRecord t v = Ok rec) recs ->
  decode recs r pt <> Panic.
Proof.
  intros Hp. apply decode_loop_no_panic; [lia|].
  eapply Forall_impl; [exact Hp|]. intros rec (t & v & Hr). by eapply primitive_safe.
Qed.

Lemma decode_no_panic_witness :
  Forall (fun rec => exists t v, MakePrimitiveRecord t v = Ok rec) (example_records 0 []) /\
  decode (example_records 0 []) [x03; x04; x00] None <> Panic.
Proof.
  assert (Forall (fun rec => exists t v, MakePrimitiveRecord t v = Ok rec)
    (example_records 0 [])) as Hp.
  { repeat constructor; [by exists 3, (PUint32 0) | by exists 70000, (PVarBytes [])]. }
  split; [exact Hp|]. by apply (decode_no_panic (example_records 0 [])).
Defined.

(** The 33-byte array decoder ignores the declared length: a record of any type
    whose declared length is zero but which is followed by 33 bytes is accepted, and
    the bytes that should have been read as the next record become the value. *)
Theorem Bytes33_ignores_length `{Secp256k1} (t : Z) (old b : list byte) (rec : tlv_record) :
  is_u64 t -> length b = 33%nat -> MakePrimitiveRecord t (PBytes33 old) = Ok rec ->
  Decode [rec] (WriteVarInt t ++ WriteVarInt 0 ++ b) = Ok [set_value rec (PBytes33 b)].
Proof.
  intros Ht Hb Hr. injection Hr as <-. unfold Decode, decode.
  pose proof (read_full_app' 33 b [] Hb) as Hread. rewrite app_nil_r in Hread.
  cbn [decode_loop]. rewrite ReadVarInt_WriteVarInt by done.
  rewrite orb_false_l, (proj2 (Z.ltb_ge t 0)) by (unfold is_u64 in Ht; lia).
  rewrite ReadVarInt_WriteVarInt by done. cbn [no_eof]. rsimpl. cbn [Z.gtb Z.compare].
  cbn [List.length Nat.sub getRecord typ lookup list_lookup]. rewrite Z.eqb_refl.
  unfold RecordDecode, DBytes33. cbn [decoder value].
  rewrite Hread. cbn [no_eof]. rsimpl.
  rewrite !length_app. destruct (length (WriteVarInt t)) eqn:Hl; [|done].
  pose proof (WriteVarInt_length t). lia.
Qed.

Lemma Bytes33_ignores_length_witness :
  is_u64 1 /\ Decode [Record_ (PBytes33 []) 1 33 None (Some EBytes33) (Some DBytes33)]
    (WriteVarInt 1 ++ WriteVarInt 0 ++ replicate 33 x02) =
  Ok [Record_ (PBytes33 (replicate 33 x02)) 1 33 None (Some EBytes33) (Some DBytes33)].
Proof.
  split; [done|].
  apply (Bytes33_ignores_length 1 [] (replicate 33 x02)
    (Record_ (PBytes33 []) 1 33 None (Some EBytes33) (Some DBytes33))); done.
Defined.
