(* ===== verification/Ids.v ===== *)
(** * Identifiers and buckets

    The identifiers the components below share: short channel ids
    ([lnwire/short_channel_id.go]), circuit keys ([channeldb/channel.go]) and the
    references into forwarding packages ([channeldb/forwarding_package.go]).

    A database bucket whose keys are fixed-width big-endian integers is a [gmap]
    on the integers; its [ForEach] visits the keys in byte order, which is the
    numeric order, and is [bucket_entries]. *)

From S2P Require Import Prelude.

(** ** Buckets with integer keys *)

Definition key_le {V} (a b : Z * V) : Prop := a.1 <= b.1.
#[export] Instance key_le_dec {V} : RelDecision (@key_le V).
Proof. intros a b. unfold key_le. apply _. Defined.

(** [ForEach] on a bucket. *)
Definition bucket_entries {V} (m : gmap Z V) : list (Z * V) := merge_sort key_le (map_to_list m).

#[export] Instance key_le_total {V} : Total (@key_le V).
Proof. intros a b. unfold key_le. lia. Qed.
#[export] Instance key_le_trans {V} : Transitive (@key_le V).
Proof. intros a b c. unfold key_le. lia. Qed.

(** The entries are the strictly sorted list of the map's bindings. *)
Lemma bucket_entries_unique {V} (m : gmap Z V) (l : list (Z * V)) :
  StronglySorted Z.lt l.*1 -> list_to_map l = m -> bucket_entries m = l.
Proof.
  intros Hs <-.
  assert (NoDup l.*1) as Hnd.
  { clear -Hs. induction Hs as [|x l' _ IH Hf]; constructor; [|done].
    intros Hin. rewrite Forall_forall in Hf. apply Hf in Hin. lia. }
  assert (bucket_entries (list_to_map l) ≡ₚ l) as Hp.
  { unfold bucket_entries. rewrite merge_sort_Permutation. by apply map_to_list_to_map. }
  apply (StronglySorted_unique_strong key_le); [|by apply StronglySorted_merge_sort; apply _| |exact Hp].
  - intros x1 x2 H1 H2 Ha Hb. rewrite Hp in H1. unfold key_le in *.
    assert (x1.1 = x2.1) as He by lia. destruct x1 as [k1 v1], x2 as [k2 v2]; simpl in *; subst.
    f_equal. apply (elem_of_list_to_map_1 _ _ _ Hnd) in H1, H2. congruence.
  - clear -Hs. induction l as [|x l IH]; [constructor|]. rewrite fmap_cons in Hs.
    apply StronglySorted_inv in Hs as [Hs Hf]. constructor; [by apply IH|].
    rewrite Forall_fmap in Hf. eapply Forall_impl; [exact Hf|]. unfold key_le. simpl. lia.
Qed.

(** A list written under its indexes. *)
Definition indexed {V} (l : list V) : list (Z * V) := imap (fun i v => (Z.of_nat i, v)) l.

Lemma indexed_snd {V} (l : list V) : (indexed l).*2 = l.
Proof.
  unfold indexed. rewrite fmap_imap.
  apply list_eq. intros i. rewrite list_lookup_imap. by destruct (l !! i).
Qed.

Lemma imap_sorted {V} (l : list V) k :
  StronglySorted Z.lt (imap (fun i _ => Z.of_nat (k + i)) l).
Proof.
  revert k. induction l as [|v l IH]; intros k; [constructor|]. simpl. constructor.
  - replace (imap _ l) with (imap (fun i (_ : V) => Z.of_nat (S k + i)) l); [apply IH|].
    apply imap_ext. intros. simpl. lia.
  - apply Forall_lookup_2. intros i z Hz. rewrite list_lookup_imap in Hz.
    destruct (l !! i); [|done]. injection Hz as <-. lia.
Qed.

Lemma indexed_sorted {V} (l : list V) : StronglySorted Z.lt (indexed l).*1.
Proof. unfold indexed. rewrite fmap_imap. apply (imap_sorted l 0). Qed.

Lemma bucket_entries_indexed {V} (l : list V) :
  bucket_entries (list_to_map (indexed l)) = indexed l.
Proof. by apply bucket_entries_unique; [apply indexed_sorted|]. Qed.

(** ** Short channel ids *)

Record ShortChannelID := { BlockHeight : Z; TxIndex : Z; TxPosition : Z }.

#[export] Instance ShortChannelID_eq_dec : EqDecision ShortChannelID.
Proof. solve_decision. Defined.
#[export] Instance ShortChannelID_countable : Countable ShortChannelID.
Proof.
  refine (inj_countable' (fun c => (BlockHeight c, TxIndex c, TxPosition c))
    (fun '(b, t, p) => {| BlockHeight := b; TxIndex := t; TxPosition := p |}) _).
  by intros [].
Defined.

Definition NewShortChanIDFromInt (chanID : Z) : ShortChannelID :=
  {| BlockHeight := u32 (Z.shiftr chanID 40);
     TxIndex := Z.land (u32 (Z.shiftr chanID 16)) 0xFFFFFF;
     TxPosition := u16 chanID |}.

Definition ToUint64 (c : ShortChannelID) : Z :=
  Z.lor (Z.lor (u64 (Z.shiftl (BlockHeight c) 40)) (u64 (Z.shiftl (TxIndex c) 16)))
    (TxPosition c).

(** The zero id, [hop.Source]: a locally initiated payment. *)
Definition hop_Source : ShortChannelID := {| BlockHeight := 0; TxIndex := 0; TxPosition := 0 |}.

(** The ids the comments of the type allow: heights and indexes of three bytes. *)
Definition valid_scid (c : ShortChannelID) : Prop :=
  0 <= BlockHeight c < 2 ^ 24 /\ 0 <= TxIndex c < 2 ^ 24 /\ 0 <= TxPosition c < 2 ^ 16.

Lemma lor_add a b k : 0 <= k -> 0 <= b < 2 ^ k -> Z.lor (a * 2 ^ k) b = a * 2 ^ k + b.
Proof.
  intros Hk Hb. symmetry. apply Z.add_nocarry_lor.
  apply Z.bits_inj'. intros i Hi. rewrite Z.land_spec, Z.bits_0.
  destruct (Z.lt_ge_cases i k).
  - by rewrite Z.mul_pow2_bits_low.
  - rewrite (testbit_above k b i) by lia. apply andb_false_r.
Qed.

(** The packed id as a sum: the fields do not overlap. *)
Lemma ToUint64_sum c :
  valid_scid c -> ToUint64 c = BlockHeight c * 2 ^ 40 + TxIndex c * 2 ^ 16 + TxPosition c.
Proof.
  intros (Hb & Ht & Hp). unfold ToUint64, u64. rewrite !Z.shiftl_mul_pow2 by lia.
  rewrite !Z.mod_small by lia.
  replace (BlockHeight c * 2 ^ 40) with (BlockHeight c * 2 ^ 24 * 2 ^ 16) by lia.
  rewrite <- Z.lor_assoc, (lor_add (TxIndex c) (TxPosition c) 16) by lia.
  replace (BlockHeight c * 2 ^ 24 * 2 ^ 16) with (BlockHeight c * 2 ^ 40) by lia.
  rewrite lor_add by lia. lia.
Qed.

Lemma NewShortChanIDFromInt_valid z : is_u64 z -> valid_scid (NewShortChanIDFromInt z).
Proof.
  unfold is_u64, valid_scid, NewShortChanIDFromInt, u32, u16. intros Hz. simpl.
  rewrite !Z.shiftr_div_pow2 by lia. change 0xFFFFFF with (Z.ones 24).
  rewrite Z.land_ones by lia.
  pose proof (Z.div_lt_upper_bound z (2 ^ 40) (2 ^ 24)).
  pose proof (Z.div_pos z (2 ^ 40)).
  rewrite (Z.mod_small (z / 2 ^ 40)) by lia.
  split_and!; try lia; try (apply Z.mod_pos_bound; lia).
Qed.

Lemma NewShortChanIDFromInt_ToUint64 c :
  valid_scid c -> NewShortChanIDFromInt (ToUint64 c) = c.
Proof.
  intros Hc. pose proof (ToUint64_sum c Hc) as Hs. destruct Hc as (Hb & Ht & Hp).
  destruct c as [b t p]. unfold NewShortChanIDFromInt, u32, u16. simpl in *. rewrite Hs.
  rewrite !Z.shiftr_div_pow2 by lia. change 0xFFFFFF with (Z.ones 24).
  rewrite Z.land_ones by lia.
  replace (b * 2 ^ 40 + t * 2 ^ 16 + p) with (b * 2 ^ 40 + (t * 2 ^ 16 + p)) by lia.
  rewrite Z.div_add_l, (Z.div_small (t * 2 ^ 16 + p)) by lia.
  replace (b * 2 ^ 40 + (t * 2 ^ 16 + p)) with ((b * 2 ^ 24 + t) * 2 ^ 16 + p) by lia.
  rewrite Z.div_add_l, (Z.div_small p) by lia.
  rewrite (Z.add_comm _ p), Z_mod_plus_full, !Z.add_0_r, (Z.mod_small p), (Z.mod_small b) by lia.
  f_equal. rewrite <- (Z.mod_small t (2 ^ 24)) at 2 by lia.
  replace (2 ^ 32) with (2 ^ 24 * 2 ^ 8) by lia. rewrite Z.rem_mul_r by lia.
  rewrite (Z.mul_comm (2 ^ 24)), Z_mod_plus_full, Z.mod_mod by lia.
  by rewrite Z.add_comm, Z_mod_plus_full.
Qed.

Lemma ToUint64_range c : valid_scid c -> is_u64 (ToUint64 c).
Proof. intros Hc. rewrite (ToUint64_sum c Hc). destruct Hc. unfold is_u64. lia. Qed.

Lemma ToUint64_NewShortChanIDFromInt z :
  is_u64 z -> ToUint64 (NewShortChanIDFromInt z) = z.
Proof.
  intros Hz. rewrite ToUint64_sum by by apply NewShortChanIDFromInt_valid.
  unfold is_u64, NewShortChanIDFromInt, u32, u16 in *. simpl.
  rewrite !Z.shiftr_div_pow2 by lia. change 0xFFFFFF with (Z.ones 24).
  rewrite Z.land_ones by lia.
  replace (2 ^ 40) with (2 ^ 16 * 2 ^ 24) at 1 by lia.
  rewrite <- Z.div_div by lia. set (q := z / 2 ^ 16).
  assert (0 <= q < 2 ^ 48) as Hq.
  { subst q. split; [apply Z.div_pos; lia | apply Z.div_lt_upper_bound; lia]. }
  replace (2 ^ 32) with (2 ^ 24 * 2 ^ 8) by lia.
  rewrite (Z.mod_small (q / 2 ^ 24)).
  2: { split; [apply Z.div_pos; lia | apply Z.div_lt_upper_bound; lia]. }
  rewrite (Z.rem_mul_r q) by lia.
  rewrite (Z.mul_comm (2 ^ 24)), Z_mod_plus_full, Z.mod_mod by lia.
  pose proof (Z.div_mod z (2 ^ 16) ltac:(lia)) as H1. fold q in H1.
  pose proof (Z.div_mod q (2 ^ 24) ltac:(lia)) as H2. lia.
Qed.

(** ** Circuit keys *)

Record CircuitKey := { ChanID : ShortChannelID; HtlcID : Z }.

#[export] Instance CircuitKey_eq_dec : EqDecision CircuitKey.
Proof. solve_decision. Defined.
#[export] Instance CircuitKey_countable : Countable CircuitKey.
Proof.
  refine (inj_countable' (fun k => (ChanID k, HtlcID k))
    (fun '(c, h) => {| ChanID := c; HtlcID := h |}) _).
  by intros [].
Defined.

Definition ErrInvalidCircuitKeyLen : error := Error "ErrInvalidCircuitKeyLen".

Definition Bytes (k : CircuitKey) : list byte :=
  be_bytes 8 (ToUint64 (ChanID k)) ++ be_bytes 8 (HtlcID k).

Definition SetBytes (bs : list byte) : res CircuitKey :=
  if negb (length bs =? 16)%nat then Err ErrInvalidCircuitKeyLen
  else Ok {| ChanID := NewShortChanIDFromInt (be_val (take 8 bs));
             HtlcID := be_val (drop 8 bs) |}.

Definition CircuitKey_Encode (k : CircuitKey) : list byte :=
  be_bytes 8 (ToUint64 (ChanID k)) ++ be_bytes 8 (HtlcID k).

Definition CircuitKey_Decode (r : list byte) : res (CircuitKey * list byte) :=
  '(scratch, r') ← read_full 16 r;
  Ok ({| ChanID := NewShortChanIDFromInt (be_val (take 8 scratch));
         HtlcID := be_val (drop 8 scratch) |}, r').

Definition valid_key (k : CircuitKey) : Prop := valid_scid (ChanID k) /\ is_u64 (HtlcID k).

Lemma length_Bytes k : length (Bytes k) = 16%nat.
Proof. unfold Bytes. by rewrite length_app, !length_be_bytes. Qed.

Lemma Bytes_parts k :
  valid_key k ->
  {| ChanID := NewShortChanIDFromInt (be_val (take 8 (Bytes k)));
     HtlcID := be_val (drop 8 (Bytes k)) |} = k.
Proof.
  intros [Hc Hh]. unfold Bytes.
  rewrite take_app_length', drop_app_length' by by rewrite length_be_bytes.
  rewrite !be_val_be_bytes_small by (apply Hh || apply (ToUint64_range _ Hc)).
  rewrite NewShortChanIDFromInt_ToUint64 by done. by destruct k.
Qed.

Lemma SetBytes_Bytes k : valid_key k -> SetBytes (Bytes k) = Ok k.
Proof. intros Hk. unfold SetBytes. rewrite length_Bytes. simpl negb. by rewrite Bytes_parts. Qed.

Lemma CircuitKey_Decode_Encode k r :
  valid_key k -> CircuitKey_Decode (CircuitKey_Encode k ++ r) = Ok (k, r).
Proof.
  intros Hk. unfold CircuitKey_Decode. change (CircuitKey_Encode k) with (Bytes k).
  rewrite read_full_app' by apply length_Bytes. rsimpl. by rewrite Bytes_parts.
Qed.

(** ** References into forwarding packages *)

Record AddRef := { AddRef_Height : Z; AddRef_Index : Z }.

#[export] Instance AddRef_eq_dec : EqDecision AddRef.
Proof. solve_decision. Defined.

Definition AddRef_Encode (a : AddRef) : list byte :=
  be_bytes 8 (AddRef_Height a) ++ be_bytes 2 (AddRef_Index a).

Definition AddRef_Decode (r : list byte) : res (AddRef * list byte) :=
  '(h, r1) ← read_be 8 r;
  '(i, r2) ← read_be 2 r1;
  Ok ({| AddRef_Height := h; AddRef_Index := i |}, r2).

Definition valid_addref (a : AddRef) : Prop :=
  is_u64 (AddRef_Height a) /\ is_u16 (AddRef_Index a).

Lemma AddRef_Decode_Encode a r :
  valid_addref a -> AddRef_Decode (AddRef_Encode a ++ r) = Ok (a, r).
Proof.
  intros [Hh Hi]. unfold AddRef_Decode, AddRef_Encode.
  rewrite <- app_assoc, read_be_app by exact Hh. rsimpl.
  rewrite read_be_app by exact Hi. rsimpl. by destruct a.
Qed.

Record SettleFailRef := { SF_Source : ShortChannelID; SF_Height : Z; SF_Index : Z }.

(** Short channel ids and their packed 64-bit form are in bijection: packing an id
    whose block height and transaction index fit three bytes and unpacking it gives
    the id back, and every 64-bit value is the packing of exactly one such id, so
    circuit keys also survive their 16-byte form. *)
Theorem scid_key_bijection (c : ShortChannelID) (z h : Z) :
  valid_scid c -> is_u64 z -> is_u64 h ->
  NewShortChanIDFromInt (ToUint64 c) = c /\
  (valid_scid (NewShortChanIDFromInt z) /\ ToUint64 (NewShortChanIDFromInt z) = z) /\
  SetBytes (Bytes {| ChanID := c; HtlcID := h |}) = Ok {| ChanID := c; HtlcID := h |}.
Proof.
  intros Hc Hz Hh. split; [by apply NewShortChanIDFromInt_ToUint64|]. split.
  - split; [by apply NewShortChanIDFromInt_valid | by apply ToUint64_NewShortChanIDFromInt].
  - by apply SetBytes_Bytes.
Qed.

Lemma scid_key_bijection_witness :
  valid_scid {| BlockHeight := 700000; TxIndex := 3; TxPosition := 1 |} /\
  NewShortChanIDFromInt (ToUint64 {| BlockHeight := 700000; TxIndex := 3; TxPosition := 1 |}) =
    {| BlockHeight := 700000; TxIndex := 3; TxPosition := 1 |}.
Proof.
  assert (valid_scid {| BlockHeight := 700000; TxIndex := 3; TxPosition := 1 |}) as Hc
    by (unfold valid_scid; simpl; lia).
  split; [exact Hc|].
  apply (scid_key_bijection {| BlockHeight := 700000; TxIndex := 3; TxPosition := 1 |} 7 7 Hc);
    unfold is_u64; lia.
Defined.
