(* ===== verification/Features.v ===== *)
(** * Feature vectors

    Feature bits and their vectors ([lnwire/features.go]), the check of their
    dependencies ([feature/deps.go], [feature/required.go]) and the vectors a node
    advertises ([feature/manager.go], [feature/default_sets.go]).

    A vector is the set of its bits; every vector of the code binds them to the names in
    [Features].  Go visits a map in an unspecified order: loops over a vector, a
    descriptor or the dependencies of a bit visit the elements in the order of their
    finite set or list, and what they compute is shown not to depend on it where a
    result could. *)

From S2P Require Import Prelude.

(** ** Feature bits *)

Definition DataLossProtectRequired : Z := 0.
Definition DataLossProtectOptional : Z := 1.
Definition InitialRoutingSync : Z := 3.
Definition UpfrontShutdownScriptRequired : Z := 4.
Definition UpfrontShutdownScriptOptional : Z := 5.
Definition GossipQueriesRequired : Z := 6.
Definition GossipQueriesOptional : Z := 7.
Definition TLVOnionPayloadRequired : Z := 8.
Definition TLVOnionPayloadOptional : Z := 9.
Definition StaticRemoteKeyRequired : Z := 12.
Definition StaticRemoteKeyOptional : Z := 13.
Definition PaymentAddrRequired : Z := 14.
Definition PaymentAddrOptional : Z := 15.
Definition MPPRequired : Z := 16.
Definition MPPOptional : Z := 17.
Definition WumboChannelsRequired : Z := 18.
Definition WumboChannelsOptional : Z := 19.
Definition AnchorsRequired : Z := 20.
Definition AnchorsOptional : Z := 21.
Definition AnchorsZeroFeeHtlcTxRequired : Z := 22.
Definition AnchorsZeroFeeHtlcTxOptional : Z := 23.
Definition AMPRequired : Z := 30.
Definition AMPOptional : Z := 31.
Definition ExplicitChannelTypeRequired : Z := 44.
Definition ExplicitChannelTypeOptional : Z := 45.
Definition ScriptEnforcedLeaseRequired : Z := 2022.
Definition ScriptEnforcedLeaseOptional : Z := 2023.

Definition IsRequired (b : Z) : bool := Z.land b 1 =? 0.

Definition Features : gmap Z string := list_to_map
  [(DataLossProtectRequired, "data-loss-protect"); (DataLossProtectOptional, "data-loss-protect");
   (InitialRoutingSync, "initial-routing-sync");
   (UpfrontShutdownScriptRequired, "upfront-shutdown-script");
   (UpfrontShutdownScriptOptional, "upfront-shutdown-script");
   (GossipQueriesRequired, "gossip-queries"); (GossipQueriesOptional, "gossip-queries");
   (TLVOnionPayloadRequired, "tlv-onion"); (TLVOnionPayloadOptional, "tlv-onion");
   (StaticRemoteKeyOptional, "static-remote-key"); (StaticRemoteKeyRequired, "static-remote-key");
   (PaymentAddrOptional, "payment-addr"); (PaymentAddrRequired, "payment-addr");
   (MPPOptional, "multi-path-payments"); (MPPRequired, "multi-path-payments");
   (AnchorsRequired, "anchor-commitments"); (AnchorsOptional, "anchor-commitments");
   (AnchorsZeroFeeHtlcTxRequired, "anchors-zero-fee-htlc-tx");
   (AnchorsZeroFeeHtlcTxOptional, "anchors-zero-fee-htlc-tx");
   (WumboChannelsRequired, "wumbo-channels"); (WumboChannelsOptional, "wumbo-channels");
   (AMPRequired, "amp"); (AMPOptional, "amp");
   (ExplicitChannelTypeOptional, "explicit-commitment-type");
   (ExplicitChannelTypeRequired, "explicit-commitment-type");
   (ScriptEnforcedLeaseRequired, "script-enforced-lease");
   (ScriptEnforcedLeaseOptional, "script-enforced-lease")]%string.

(** ** Raw vectors *)

Definition RawFeatureVector : Type := gset Z.

Definition ErrFeaturePairExists : error := Error "ErrFeaturePairExists".

Definition IsEmpty (fv : RawFeatureVector) : bool := (size fv =? 0)%nat.

Definition IsSet (fv : RawFeatureVector) (feature : Z) : bool := bool_decide (feature ∈ fv).

Definition Set_ (fv : RawFeatureVector) (feature : Z) : RawFeatureVector := {[feature]} ∪ fv.

Definition NewRawFeatureVector (bits : list Z) : RawFeatureVector := foldl Set_ ∅ bits.

Definition OnlyContains (fv : RawFeatureVector) (bits : list Z) : bool :=
  if negb (length bits =? size fv)%nat then false else forallb (IsSet fv) bits.

Definition Equals (fv other : RawFeatureVector) : bool :=
  if negb (size fv =? size other)%nat then false else forallb (IsSet other) (elements fv).

Definition SafeSet (fv : RawFeatureVector) (feature : Z) : res RawFeatureVector :=
  if IsSet fv (Z.lxor feature 1) then Err ErrFeaturePairExists else Ok (Set_ fv feature).

Fixpoint merge_bits (bits : list Z) (fv : RawFeatureVector) : RawFeatureVector * res unit :=
  match bits with
  | [] => (fv, Ok tt)
  | bit :: rest =>
      match SafeSet fv bit with
      | Ok fv' => merge_bits rest fv'
      | Err e => (fv, Err e)
      | Panic => (fv, Panic)
      end
  end.

Definition Merge (fv other : RawFeatureVector) : RawFeatureVector * res unit :=
  merge_bits (elements other) fv.

Definition Unset (fv : RawFeatureVector) (feature : Z) : RawFeatureVector := fv ∖ {[feature]}.

(** ** Encodings *)

Definition serializeSize (fv : RawFeatureVector) (width : Z) : Z :=
  let max := foldl Z.max (-1) (elements fv) in
  if max =? -1 then 0 else max / width + 1.

Definition SerializeSize (fv : RawFeatureVector) : Z := serializeSize fv 8.
Definition SerializeSize32 (fv : RawFeatureVector) : Z := serializeSize fv 5.

(** The position in [data] of the byte that carries a bit. *)
Definition byte_index (length width feature : Z) : Z := length - feature / width - 1.

Definition set_bit (length width : Z) (data : list byte) (feature : Z) : res (list byte) :=
  let i := byte_index length width feature in
  if i <? 0 then Panic
  else
    b ← index data (Z.to_nat i);
    Ok (<[Z.to_nat i := byte_of (Z.lor (bval b) (Z.shiftl 1 (feature mod width)))]> data).

Fixpoint set_bits (length width : Z) (data : list byte) (bits : list Z) : res (list byte) :=
  match bits with
  | [] => Ok data
  | feature :: rest => data' ← set_bit length width data feature; set_bits length width data' rest
  end.

Definition encode_vector (fv : RawFeatureVector) (length width : Z) : res (list byte) :=
  set_bits length width (replicate (Z.to_nat length) x00) (elements fv).

Definition EncodeBase256 (fv : RawFeatureVector) : res (list byte) :=
  encode_vector fv (SerializeSize fv) 8.

Definition EncodeBase32 (fv : RawFeatureVector) : res (list byte) :=
  encode_vector fv (SerializeSize32 fv) 5.

Definition Encode_vector (fv : RawFeatureVector) : res (list byte) :=
  let length := SerializeSize fv in
  data ← encode_vector fv length 8; Ok (be_bytes 2 (u16 length) ++ data).

(** Bit [i] of [data], counted from the end. *)
Definition get_bit (length width : Z) (data : list byte) (i : Z) : bool :=
  match data !! Z.to_nat (byte_index length width i) with
  | Some b => Z.testbit (bval b) (i mod width)
  | None => false
  end.

Fixpoint read_bits (n : nat) (length width : Z) (data : list byte) (fv : RawFeatureVector)
    : RawFeatureVector :=
  match n with
  | O => fv
  | S n' =>
      let fv := read_bits n' length width data fv in
      let i := Z.of_nat n' in
      if get_bit length width data i then Set_ fv (u16 i) else fv
  end.

Definition decode_vector (fv : RawFeatureVector) (r : list byte) (length width : Z)
    : res (RawFeatureVector * list byte) :=
  '(data, r') ← read_full (Z.to_nat length) r;
  let bitsNumber := Z.of_nat (List.length data) * width in
  Ok (read_bits (Z.to_nat bitsNumber) length width data fv, r').

Definition DecodeBase256 (fv : RawFeatureVector) (r : list byte) (length : Z)
    : res (RawFeatureVector * list byte) := decode_vector fv r length 8.

Definition DecodeBase32 (fv : RawFeatureVector) (r : list byte) (length : Z)
    : res (RawFeatureVector * list byte) := decode_vector fv r length 5.

Definition Decode_vector (fv : RawFeatureVector) (r : list byte)
    : res (RawFeatureVector * list byte) :=
  '(length, r) ← read_be 2 r; decode_vector fv r length 8.

(** ** Vectors with the names of their bits *)

Definition IsKnown (bit : Z) : bool := bool_decide (is_Some (Features !! bit)).

Definition isFeatureBitPair (bit : Z) : bool :=
  match Features !! bit, Features !! Z.lxor bit 1 with
  | Some name1, Some name2 => bool_decide (name1 = name2)
  | _, _ => false
  end.

Definition HasFeature (fv : RawFeatureVector) (feature : Z) : bool :=
  IsSet fv feature || (isFeatureBitPair feature && IsSet fv (Z.lxor feature 1)).

Definition RequiresFeature (fv : RawFeatureVector) (feature : Z) : bool :=
  IsSet fv (if negb (IsRequired feature) then Z.lxor feature 1 else feature).

Definition UnknownRequiredFeatures (fv : RawFeatureVector) : list Z :=
  List.filter (fun feature => (feature mod 2 =? 0) && negb (IsKnown feature)) (elements fv).

Definition ErrUnknownRequired : error := Error "ErrUnknownRequired".

Definition ValidateRequired (fv : RawFeatureVector) : res unit :=
  match UnknownRequiredFeatures fv with [] => Ok tt | _ => Err ErrUnknownRequired end.

(** ** Dependencies *)

Definition deps : gmap Z (list Z) := list_to_map
  [(PaymentAddrOptional, [TLVOnionPayloadOptional]);
   (MPPOptional, [PaymentAddrOptional]);
   (AnchorsOptional, [StaticRemoteKeyOptional]);
   (AnchorsZeroFeeHtlcTxOptional, [StaticRemoteKeyOptional]);
   (AMPOptional, [PaymentAddrOptional]);
   (ExplicitChannelTypeOptional, []);
   (ScriptEnforcedLeaseOptional, [ExplicitChannelTypeOptional; AnchorsZeroFeeHtlcTxOptional])].

Definition ErrMissingFeatureDep : error := Error "ErrMissingFeatureDep".

Definition mapToOptional (bit : Z) : Z := if IsRequired bit then Z.lxor bit 1 else bit.

Definition initSupported (features : list Z) : gmap Z bool :=
  foldl (fun supported bit => <[mapToOptional bit := false]> supported) ∅ features.

(** The loop over a set of features; [validate] is the recursive call. *)
Fixpoint deps_loop (validate : list Z -> gmap Z bool -> res (gmap Z bool))
    (features : list Z) (supported : gmap Z bool) : res (gmap Z bool) :=
  match features with
  | [] => Ok supported
  | bit :: rest =>
      let bit := mapToOptional bit in
      match supported !! bit with
      | None => Err ErrMissingFeatureDep
      | Some true => deps_loop validate rest supported
      | Some false =>
          supported ← validate (default [] (deps !! bit)) supported;
          deps_loop validate rest (<[bit := true]> supported)
      end
  end.

(** The recursion follows the descriptor of dependencies; [fuel] bounds its depth. *)
Fixpoint validateDeps (fuel : nat) (features : list Z) (supported : gmap Z bool)
    : res (gmap Z bool) :=
  match fuel with
  | O => Panic
  | S fuel' => deps_loop (validateDeps fuel') features supported
  end.

(** The number of dependencies on a path of the descriptor, and the vector's own bits. *)
Definition deps_fuel : nat := 4.

Definition ValidateDeps (fv : RawFeatureVector) : res unit :=
  let features := elements fv in
  _ ← validateDeps deps_fuel features (initSupported features); Ok tt.

(** ** The vectors a node advertises *)

Inductive feature_set := SetInit | SetLegacyGlobal | SetNodeAnn | SetInvoice | SetInvoiceAmp.

#[export] Instance feature_set_eq_dec : EqDecision feature_set.
Proof. solve_decision. Defined.

#[export] Instance feature_set_countable : Countable feature_set.
Proof.
  refine (inj_countable
    (fun s => match s with SetInit => 0 | SetLegacyGlobal => 1 | SetNodeAnn => 2
                         | SetInvoice => 3 | SetInvoiceAmp => 4 end)
    (fun n => match n with 0 => Some SetInit | 1 => Some SetLegacyGlobal
       | 2 => Some SetNodeAnn | 3 => Some SetInvoice | 4 => Some SetInvoiceAmp | _ => None end) _).
  by intros [].
Defined.

Definition defaultSetDesc : list (Z * list feature_set) :=
  [(DataLossProtectRequired, [SetInit; SetNodeAnn]);
   (GossipQueriesOptional, [SetInit; SetNodeAnn]);
   (TLVOnionPayloadOptional, [SetInit; SetNodeAnn; SetInvoice; SetInvoiceAmp; SetLegacyGlobal]);
   (StaticRemoteKeyRequired, [SetInit; SetNodeAnn; SetLegacyGlobal]);
   (UpfrontShutdownScriptOptional, [SetInit; SetNodeAnn]);
   (PaymentAddrRequired, [SetInit; SetNodeAnn; SetInvoice; SetInvoiceAmp]);
   (MPPOptional, [SetInit; SetNodeAnn; SetInvoice]);
   (AnchorsZeroFeeHtlcTxOptional, [SetInit; SetNodeAnn]);
   (WumboChannelsOptional, [SetInit; SetNodeAnn]);
   (AMPOptional, [SetInit; SetNodeAnn]);
   (AMPRequired, [SetInvoiceAmp]);
   (ExplicitChannelTypeOptional, [SetInit; SetNodeAnn]);
   (ScriptEnforcedLeaseOptional, [SetInit; SetNodeAnn])].

Record feature_config := {
  NoTLVOnion : bool;
  NoStaticRemoteKey : bool;
  NoAnchors : bool;
  NoWumbo : bool;
  NoScriptEnforcementLease : bool;
}.

Definition Manager : Type := gmap feature_set RawFeatureVector.

Fixpoint add_to_sets (bit : Z) (sets : list feature_set) (fsets : Manager) : res Manager :=
  match sets with
  | [] => Ok fsets
  | s :: rest =>
      fv ← SafeSet (default ∅ (fsets !! s)) bit; add_to_sets bit rest (<[s := fv]> fsets)
  end.

Fixpoint build_sets (desc : list (Z * list feature_set)) (fsets : Manager) : res Manager :=
  match desc with
  | [] => Ok fsets
  | (bit, sets) :: rest => fsets ← add_to_sets bit sets fsets; build_sets rest fsets
  end.

(** The bits that depend on anchors. *)
Definition anchor_dependents : list Z :=
  (List.filter (fun kv : Z * list Z => existsb (fun d =>
     (d =? AnchorsZeroFeeHtlcTxRequired) || (d =? AnchorsZeroFeeHtlcTxOptional)) kv.2)
   (map_to_list deps)).*1.

Definition unset_if (c : bool) (bits : list Z) (raw : RawFeatureVector) : RawFeatureVector :=
  if c then foldl Unset raw bits else raw.

Definition apply_config (cfg : feature_config) (raw : RawFeatureVector) : RawFeatureVector :=
  let raw := unset_if (NoTLVOnion cfg)
    [TLVOnionPayloadOptional; TLVOnionPayloadRequired; PaymentAddrOptional; PaymentAddrRequired;
     MPPOptional; MPPRequired; AMPOptional; AMPRequired] raw in
  let raw := unset_if (NoStaticRemoteKey cfg)
    [StaticRemoteKeyOptional; StaticRemoteKeyRequired] raw in
  let raw := unset_if (NoAnchors cfg)
    ([AnchorsZeroFeeHtlcTxOptional; AnchorsZeroFeeHtlcTxRequired] ++ anchor_dependents) raw in
  let raw := unset_if (NoWumbo cfg) [WumboChannelsOptional; WumboChannelsRequired] raw in
  unset_if (NoScriptEnforcementLease cfg)
    [ScriptEnforcedLeaseOptional; ScriptEnforcedLeaseRequired] raw.

Definition errInvalidFeatureSet : error := Error "invalid feature set".
Definition errUnableToSet : error := Error "unable to set".

Definition newManager (cfg : feature_config) (desc : list (Z * list feature_set)) : res Manager :=
  match build_sets desc ∅ with
  | Ok fsets =>
      let fsets := apply_config cfg <$> fsets in
      if forallb (fun kv => is_ok (ValidateDeps kv.2)) (map_to_list fsets) then Ok fsets
      else Err errInvalidFeatureSet
  | Err _ => Err errUnableToSet
  | Panic => Panic
  end.

Definition NewManager (cfg : feature_config) : res Manager := newManager cfg defaultSetDesc.

Definition GetRaw (m : Manager) (s : feature_set) : RawFeatureVector := default ∅ (m !! s).

(** ** Encoding and decoding *)

Section Bits.
Context (width : Z) (Hwidth : 1 <= width <= 8).

Lemma byte_index_range length i :
  0 <= i < length * width -> 0 <= byte_index length width i < length.
Proof.
  intros Hi. unfold byte_index. assert (0 <= i / width < length); [|lia].
  split; [apply Z.div_pos; lia|apply Z.div_lt_upper_bound; lia].
Qed.

(** Two bits in the same byte at the same place are the same. *)
Lemma byte_index_inj length i j :
  byte_index length width i = byte_index length width j -> i mod width = j mod width -> i = j.
Proof.
  unfold byte_index. intros H1 H2. assert (i / width = j / width) as H3 by lia.
  pose proof (Z.div_mod i width ltac:(lia)). pose proof (Z.div_mod j width ltac:(lia)).
  rewrite H2, H3 in *. lia.
Qed.

Lemma bval_or_bit b k : 0 <= k < 8 ->
  bval (byte_of (Z.lor (bval b) (Z.shiftl 1 k))) = Z.lor (bval b) (Z.shiftl 1 k).
Proof.
  intros Hk. rewrite bval_byte_of. apply Z.mod_small. pose proof (bval_range b).
  assert (0 <= Z.shiftl 1 k) by (rewrite Z.shiftl_mul_pow2; lia).
  split; [apply Z.lor_nonneg; lia|].
  destruct (Z.eq_dec (Z.lor (bval b) (Z.shiftl 1 k)) 0) as [->|Hn]; [lia|].
  change 256 with (2 ^ 8). apply Z.log2_lt_pow2.
  { assert (0 <= Z.lor (bval b) (Z.shiftl 1 k)) by (apply Z.lor_nonneg; lia). lia. }
  rewrite Z.log2_lor by lia. apply Z.max_lub_lt.
  - destruct (Z.eq_dec (bval b) 0) as [->|]; [done|]. apply Z.log2_lt_pow2; lia.
  - rewrite Z.log2_shiftl by lia. simpl. lia.
Qed.

Lemma set_bit_ok length data f :
  Z.of_nat (List.length data) = length -> 0 <= f < length * width ->
  exists data', set_bit length width data f = Ok data' /\
    Z.of_nat (List.length data') = length /\
    forall i, 0 <= i < length * width ->
      get_bit length width data' i = get_bit length width data i || (i =? f).
Proof.
  intros Hl Hf. pose proof (byte_index_range length f Hf) as Hi. unfold set_bit.
  rewrite (proj2 (Z.ltb_ge _ _)) by lia. unfold index.
  destruct (lookup_lt_is_Some_2 data (Z.to_nat (byte_index length width f)) ltac:(lia))
    as [b Eb].
  rewrite Eb. rsimpl. eexists. split; [done|]. rewrite length_insert. split; [done|].
  intros i Hi'. pose proof (byte_index_range length i Hi') as Hbi. unfold get_bit.
  pose proof (Z.mod_pos_bound f width ltac:(lia)) as Hm.
  pose proof (Z.mod_pos_bound i width ltac:(lia)) as Hmi.
  destruct (Z.eq_dec (byte_index length width i) (byte_index length width f)) as [E|Hne].
  - rewrite E, list_lookup_insert_eq, Eb by lia.
    rewrite bval_or_bit by lia. rewrite Z.lor_spec. f_equal.
    rewrite Z.shiftl_spec by lia.
    destruct (Z.eqb_spec i f) as [->|Hif]; [by rewrite Z.sub_diag|].
    assert (i mod width <> f mod width) by (intros H; apply Hif; by eapply byte_index_inj).
    destruct (Z.lt_ge_cases (i mod width) (f mod width)).
    + apply Z.testbit_neg_r. lia.
    + apply (testbit_above 1); lia.
  - rewrite list_lookup_insert_ne by lia.
    rewrite (proj2 (Z.eqb_neq i f)) by (intros ->; done). by rewrite orb_false_r.
Qed.

Lemma set_bits_ok length bits : forall data,
  Z.of_nat (List.length data) = length -> Forall (fun f => 0 <= f < length * width) bits ->
  exists data', set_bits length width data bits = Ok data' /\
    Z.of_nat (List.length data') = length /\
    forall i, 0 <= i < length * width ->
      get_bit length width data' i = get_bit length width data i || bool_decide (i ∈ bits).
Proof.
  induction bits as [|f bits IH]; intros data Hl Hb.
  - exists data. split_and!; [done..|]. intros i _. by rewrite orb_false_r.
  - apply Forall_cons in Hb as [Hf Hb].
    destruct (set_bit_ok length data f Hl Hf) as (d1 & E1 & Hl1 & H1).
    destruct (IH d1 Hl1 Hb) as (d2 & E2 & Hl2 & H2). exists d2.
    cbn [set_bits]. rewrite E1. rsimpl. split_and!; [done..|]. intros i Hi.
    rewrite H2, H1 by done. rewrite <- orb_assoc. f_equal.
    destruct (Z.eqb_spec i f) as [->|Hne]; simpl.
    + symmetry. apply bool_decide_eq_true. by left.
    + apply bool_decide_ext. rewrite elem_of_cons. naive_solver.
Qed.

Lemma foldl_max_le l : forall a, a <= foldl Z.max a l /\ Forall (fun x => x <= foldl Z.max a l) l.
Proof.
  induction l as [|x l IH]; intros a; [by split|]. simpl.
  destruct (IH (Z.max a x)) as [H1 H2]. split; [lia|]. constructor; [lia|done].
Qed.

Lemma serializeSize_fits fv :
  set_Forall (fun f => 0 <= f) fv -> 0 <= serializeSize fv width /\
  set_Forall (fun f => 0 <= f < serializeSize fv width * width) fv.
Proof.
  intros Hfv. unfold serializeSize.
  destruct (foldl_max_le (elements fv) (-1)) as [Hm Hall].
  set (m := foldl Z.max (-1) (elements fv)) in *.
  assert (set_Forall (fun f => f <= m) fv) as Hle.
  { intros f Hf. rewrite Forall_forall in Hall. apply Hall. by apply elem_of_elements. }
  destruct (Z.eqb_spec m (-1)) as [E|Hne].
  - split; [done|]. intros f Hf. pose proof (Hle f Hf). pose proof (Hfv f Hf). simpl in *. lia.
  - assert (0 <= m) by lia. pose proof (Z.div_pos m width ltac:(lia) ltac:(lia)). split; [lia|].
    intros f Hf. pose proof (Hle f Hf). pose proof (Hfv f Hf). simpl in *.
    pose proof (Z.div_mod m width ltac:(lia)). pose proof (Z.mod_pos_bound m width ltac:(lia)). nia.
Qed.

Lemma get_bit_zero length n i : get_bit length width (replicate n x00) i = false.
Proof.
  unfold get_bit. destruct (_ !! _) as [b|] eqn:E; [|done].
  apply lookup_replicate in E as [-> _]. apply Z.testbit_0_l.
Qed.

Lemma encode_vector_ok fv :
  set_Forall (fun f => 0 <= f) fv ->
  exists data, encode_vector fv (serializeSize fv width) width = Ok data /\
    Z.of_nat (List.length data) = serializeSize fv width /\
    forall i, 0 <= i < serializeSize fv width * width ->
      get_bit (serializeSize fv width) width data i = bool_decide (i ∈ fv).
Proof.
  intros Hfv. destruct (serializeSize_fits fv Hfv) as [Hs Hin]. unfold encode_vector.
  destruct (set_bits_ok (serializeSize fv width) (elements fv)
    (replicate (Z.to_nat (serializeSize fv width)) x00)) as (data & E & Hl & Hb).
  - rewrite length_replicate. lia.
  - apply Forall_forall. intros f Hf%elem_of_elements. by apply Hin.
  - exists data. split_and!; [done..|]. intros i Hi. rewrite Hb by done.
    rewrite get_bit_zero. apply bool_decide_ext, elem_of_elements.
Qed.

(** A vector of 16-bit features is read back. *)
Lemma vector_roundtrip fv r :
  set_Forall is_u16 fv ->
  exists data, encode_vector fv (serializeSize fv width) width = Ok data /\
    Z.of_nat (List.length data) = serializeSize fv width /\
    decode_vector ∅ (data ++ r) (serializeSize fv width) width = Ok (fv, r).
Proof.
  intros Hfv. destruct (encode_vector_ok fv) as (data & E & Hl & Hb).
  { intros f Hf. apply Hfv in Hf. unfold is_u16 in Hf. simpl in *. lia. }
  exists data. split_and!; [done..|]. unfold decode_vector.
  rewrite <- Hl, Nat2Z.id, read_full_app. rsimpl. rewrite Hl. do 2 f_equal.
  assert (forall m, Z.of_nat m <= serializeSize fv width * width ->
    read_bits m (serializeSize fv width) width data ∅ = base.filter (fun x => x < Z.of_nat m) fv)
    as Hread.
  { induction m as [|m IH]; intros Hm.
    - simpl. symmetry. apply set_eq. intros x. rewrite elem_of_filter. split; [|set_solver].
      intros [? Hx]. apply Hfv in Hx. unfold is_u16 in Hx. simpl in *. lia.
    - cbn [read_bits]. rewrite IH by lia. rewrite Hb by lia.
      apply set_eq. intros x. rewrite elem_of_filter.
      destruct (bool_decide_reflect (Z.of_nat m ∈ fv)) as [Hin|Hout].
      + unfold Set_. rewrite elem_of_union, elem_of_singleton, elem_of_filter.
        pose proof (Hfv _ Hin) as Hu. simpl in Hu. rewrite u16_small by done.
        split; [intros [->|[? ?]]; split; [lia|done|lia|done]|].
        intros [Hlt Hx]. assert (x = Z.of_nat m \/ x < Z.of_nat m) as [->|?] by lia; [by left|].
        right. by split.
      + rewrite elem_of_filter. split; intros [Hlt Hx]; (split; [|done]); [lia|].
        assert (x <> Z.of_nat m) by (by intros ->). lia. }
  pose proof (serializeSize_fits fv) as [Hs Hin].
  { intros f Hf. apply Hfv in Hf. unfold is_u16 in Hf. simpl in *. lia. }
  rewrite Hread by (rewrite Z2Nat.id; nia). apply set_eq. intros x. rewrite elem_of_filter.
  split; [by intros [_ ?]|]. intros Hx. split; [|done]. pose proof (Hin x Hx). simpl in *. nia.
Qed.
End Bits.

(** ** Validating dependencies *)

(** The dependencies of a bit. *)
Definition deps_of (bit : Z) : list Z := default [] (deps !! bit).

(** The length of the longest path of dependencies from a bit. *)
Definition dep_rank (bit : Z) : nat :=
  if bool_decide (bit ∈ [MPPOptional; AMPOptional; ScriptEnforcedLeaseOptional]) then 2
  else if bool_decide (bit ∈ [PaymentAddrOptional; AnchorsOptional; AnchorsZeroFeeHtlcTxOptional])
  then 1 else 0.

Lemma dep_rank_deps bit : Forall (fun d => (dep_rank (mapToOptional d) < dep_rank bit)%nat) (deps_of bit).
Proof.
  unfold deps_of. destruct (deps !! bit) as [l|] eqn:E; [|constructor]. simpl.
  unfold deps in E. apply elem_of_list_to_map_2 in E.
  repeat (apply elem_of_cons in E as [[= -> ->]|E]; [repeat constructor; vm_compute; lia|]).
  by apply elem_of_nil in E.
Qed.

Lemma dep_rank_le bit : (dep_rank bit <= 2)%nat.
Proof. unfold dep_rank. repeat case_bool_decide; lia. Qed.

(** What the marks of [supported] mean: a checked bit has its dependencies. *)
Definition checked_ok (supported : gmap Z bool) : Prop :=
  forall b, supported !! b = Some true ->
  Forall (fun d => is_Some (supported !! mapToOptional d)) (deps_of b).

(** A run that succeeds marks every feature it was given. *)
Record validated (fs : list Z) (sup sup' : gmap Z bool) : Prop := {
  vd_dom : forall b, is_Some (sup' !! b) <-> is_Some (sup !! b);
  vd_checked : checked_ok sup';
  vd_kept : forall b, sup !! b = Some true -> sup' !! b = Some true;
  vd_marked : Forall (fun f => sup' !! mapToOptional f = Some true) fs;
}.

Definition complete (fs : list Z) (sup : gmap Z bool) : Prop :=
  Forall (fun f => is_Some (sup !! mapToOptional f)) fs /\
  forall b, is_Some (sup !! b) -> Forall (fun d => is_Some (sup !! mapToOptional d)) (deps_of b).

Definition validates (m : res (gmap Z bool)) (fs : list Z) (sup : gmap Z bool) : Prop :=
  (exists sup', m = Ok sup' /\ validated fs sup sup') \/
  (m = Err ErrMissingFeatureDep /\ ~ complete fs sup).

Lemma Forall_dom_ext (fs : list Z) (sup sup' : gmap Z bool) :
  (forall b, is_Some (sup' !! b) <-> is_Some (sup !! b)) ->
  Forall (fun f => is_Some (sup' !! mapToOptional f)) fs <->
  Forall (fun f => is_Some (sup !! mapToOptional f)) fs.
Proof. intros Hd. rewrite !Forall_forall. by setoid_rewrite Hd. Qed.

Lemma complete_ext fs sup sup' :
  (forall b, is_Some (sup' !! b) <-> is_Some (sup !! b)) -> complete fs sup -> complete fs sup'.
Proof.
  intros Hd [H1 H2]. split; [by apply (Forall_dom_ext _ sup)|].
  intros b Hb%Hd. apply (Forall_dom_ext _ sup); [done|]. by apply H2.
Qed.

Lemma validated_mark b fs sup sup' :
  validated fs sup sup' -> is_Some (sup !! b) -> fs = deps_of b ->
  validated [] sup (<[b := true]> sup').
Proof.
  intros [Hd Hc Hk Hm] Hb ->.
  assert (forall x, is_Some (<[b := true]> sup' !! x) <-> is_Some (sup !! x)) as Hdom.
  { intros x. rewrite <- Hd. destruct (decide (x = b)) as [->|Hne].
    - rewrite lookup_insert_eq. split; [|done]. intros _. by apply Hd.
    - by rewrite lookup_insert_ne. }
  split; [done| |intros x Hx|constructor].
  - intros x Hx. apply (Forall_dom_ext _ sup); [done|].
    apply (Forall_dom_ext _ sup'); [by intros ?; rewrite Hd|].
    destruct (decide (x = b)) as [->|Hne].
    + eapply Forall_impl; [exact Hm|]. by intros f ->.
    + rewrite lookup_insert_ne in Hx by done. by apply Hc.
  - destruct (decide (x = b)) as [->|Hne]; [by rewrite lookup_insert_eq|].
    rewrite lookup_insert_ne by done. by apply Hk.
Qed.

Lemma validated_cons f fs sup sup1 sup2 :
  validated [] sup sup1 -> sup1 !! mapToOptional f = Some true -> validated fs sup1 sup2 ->
  validated (f :: fs) sup sup2.
Proof.
  intros [Hd1 Hc1 Hk1 _] Hf [Hd2 Hc2 Hk2 Hm2]. split; [|done| |constructor; [by apply Hk2|done]].
  - intros b. by rewrite Hd2.
  - intros b Hb. by apply Hk2, Hk1.
Qed.

Lemma deps_loop_ok validate fs : forall sup,
  (forall f sup, f ∈ fs -> checked_ok sup ->
     validates (validate (deps_of (mapToOptional f)) sup) (deps_of (mapToOptional f)) sup) ->
  checked_ok sup -> validates (deps_loop validate fs sup) fs sup.
Proof.
  induction fs as [|f fs IH]; intros sup Hv Hc.
  { left. exists sup. by split. }
  assert (forall sup1, validated [] sup sup1 -> sup1 !! mapToOptional f = Some true ->
    validates (deps_loop validate fs sup1) (f :: fs) sup) as Hgo.
  { intros sup1 H1 Hf. destruct (IH sup1) as [(sup2 & E & H2)|[E Hn]].
    - intros g s Hg. apply Hv. by right.
    - apply H1.
    - left. exists sup2. split; [done|]. by eapply validated_cons.
    - right. split; [done|]. intros [Ha Hb]. apply Hn. apply (complete_ext _ sup).
      + apply H1.
      + split; [by apply Forall_inv_tail in Ha|done]. }
  cbn [deps_loop]. destruct (sup !! mapToOptional f) as [[]|] eqn:E.
  - by apply Hgo.
  - destruct (Hv f sup ltac:(by left) Hc) as [(sup1 & E1 & H1)|[E1 Hn]]; fold (deps_of (mapToOptional f));
      rewrite E1; rsimpl.
    + apply Hgo; [|apply lookup_insert_eq]. eapply validated_mark; [done|by rewrite E|done].
    + right. split; [done|]. intros [Ha Hb]. apply Hn. split; [|done]. apply Hb. by rewrite E.
  - right. split; [done|]. intros [Ha _]. apply Forall_inv in Ha. rewrite E in Ha.
    by destruct Ha.
Qed.

Lemma validateDeps_ok fuel : forall fs sup,
  Forall (fun f => (dep_rank (mapToOptional f) + 2 <= fuel)%nat) fs -> (1 <= fuel)%nat ->
  checked_ok sup -> validates (validateDeps fuel fs sup) fs sup.
Proof.
  induction fuel as [|fuel IH]; intros fs sup Hr Hf Hc; [lia|]. cbn [validateDeps].
  apply deps_loop_ok; [|done]. intros f s Hin Hs. rewrite Forall_forall in Hr.
  specialize (Hr f Hin). simpl in Hr. apply IH; [|lia|done].
  eapply Forall_impl; [apply dep_rank_deps|]. simpl. lia.
Qed.

Lemma initSupported_lookup fs : forall (sup : gmap Z bool) b,
  foldl (fun (supported : gmap Z bool) bit => <[mapToOptional bit := false]> supported) sup fs !! b =
  if bool_decide (b ∈ mapToOptional <$> fs) then Some false else sup !! b.
Proof.
  induction fs as [|f fs IH]; intros sup b; [done|]. simpl. rewrite IH.
  repeat case_bool_decide; try done.
  - exfalso. set_solver.
  - assert (b = mapToOptional f) as -> by set_solver. by rewrite lookup_insert_eq.
  - rewrite lookup_insert_ne; [done|]. intros <-. set_solver.
Qed.

(** A vector is closed when every dependency of its bits is set, as the optional or
    the required bit of its pair. *)
Definition deps_closed (fv : RawFeatureVector) : Prop :=
  forall b d, b ∈ fv -> d ∈ deps_of (mapToOptional b) ->
  exists b', b' ∈ fv /\ mapToOptional b' = mapToOptional d.

Lemma validateDeps_exact (fv : RawFeatureVector) :
  (ValidateDeps fv = Ok tt /\ deps_closed fv) \/
  (ValidateDeps fv = Err ErrMissingFeatureDep /\ ~ deps_closed fv).
Proof.
  unfold ValidateDeps. set (sup := initSupported (elements fv)).
  assert (forall b, is_Some (sup !! b) <-> exists b', b' ∈ fv /\ mapToOptional b' = b) as Hsup.
  { intros b. unfold sup, initSupported. rewrite initSupported_lookup, lookup_empty.
    case_bool_decide as Hb.
    - split; [|by eauto]. intros _. apply list_elem_of_fmap in Hb as (b' & -> & Hb').
      exists b'. split; [by apply elem_of_elements|done].
    - split; [by intros [? [=]]|]. intros (b' & Hb' & <-). destruct Hb.
      apply list_elem_of_fmap_2. by apply elem_of_elements. }
  assert (checked_ok sup) as Hc.
  { intros b. unfold sup, initSupported. rewrite initSupported_lookup.
    case_bool_decide; [done|]. by rewrite lookup_empty. }
  assert (deps_closed fv <-> complete (elements fv) sup) as Hcl.
  { unfold complete. split.
    - intros Hcl. split.
      + apply Forall_forall. intros f Hf%elem_of_elements. apply Hsup. by exists f.
      + intros b (b' & Hb' & <-)%Hsup. apply Forall_forall. intros d Hd. apply Hsup. by eapply Hcl.
    - intros [_ Hcl] b d Hb Hd. apply Hsup. specialize (Hcl (mapToOptional b)).
      rewrite Forall_forall in Hcl. apply Hcl; [apply Hsup; by exists b|done]. }
  destruct (validateDeps_ok deps_fuel (elements fv) sup) as [(sup' & -> & Hv)|[-> Hn]].
  - apply Forall_forall. intros f _. pose proof (dep_rank_le (mapToOptional f)).
    unfold deps_fuel. lia.
  - unfold deps_fuel. lia.
  - done.
  - left. split; [done|]. apply Hcl. destruct Hv as [Hd Hch _ Hm]. split.
    + apply Forall_forall. intros f Hf%elem_of_elements. apply Hsup. by exists f.
    + intros b Hb. apply (Forall_dom_ext _ sup'); [by intros x; rewrite Hd|]. apply Hch.
      apply Hsup in Hb as (b' & Hb' & <-). rewrite Forall_forall in Hm. apply Hm.
      by apply elem_of_elements.
  - right. split; [done|]. by rewrite Hcl.
Qed.

(** C40. Validating the dependencies of a feature vector always terminates, and accepts
    exactly the vectors that are closed under the dependencies of [deps]; the marks that
    let it skip bits it has already checked do not change the answer. *)
Theorem ValidateDeps_closed (fv : RawFeatureVector) :
  (ValidateDeps fv = Ok tt /\ deps_closed fv) \/
  (ValidateDeps fv = Err ErrMissingFeatureDep /\ ~ deps_closed fv).
Proof. apply validateDeps_exact. Qed.

Lemma serializeSize_u16 fv : set_Forall is_u16 fv -> is_u16 (SerializeSize fv).
Proof.
  intros Hfv. unfold SerializeSize, serializeSize.
  assert (forall l a, a < 2 ^ 16 -> Forall (fun x => x < 2 ^ 16) l -> foldl Z.max a l < 2 ^ 16) as Hm.
  { induction l as [|x l IH]; intros a Ha Hl; [done|]. apply Forall_cons in Hl as [Hx Hl].
    apply IH; [simpl in *; lia|done]. }
  destruct (foldl_max_le (elements fv) (-1)) as [Hlo _].
  assert (foldl Z.max (-1) (elements fv) < 2 ^ 16) as Hhi.
  { apply Hm; [lia|]. apply Forall_forall. intros x Hx%elem_of_elements. apply Hfv in Hx.
    unfold is_u16 in Hx. simpl in *. lia. }
  set (m := foldl Z.max (-1) (elements fv)) in *.
  destruct (Z.eqb_spec m (-1)) as [|Hne]; unfold is_u16 in *; [lia|].
  assert (m / 8 < 2 ^ 13) by (apply Z.div_lt_upper_bound; lia).
  assert (0 <= m / 8) by (apply Z.div_pos; lia). lia.
Qed.

Lemma NewManager_config (cfg : feature_config) :
  is_ok (NewManager cfg) = negb (NoStaticRemoteKey cfg) || NoAnchors cfg.
Proof. destruct cfg as [[] [] [] [] []]; vm_compute; reflexivity. Qed.

(** A manager's vectors are valid, and it exists unless static remote keys are disabled
    while anchors, which depend on them, are kept. *)
Theorem manager_valid (cfg : feature_config) :
  is_ok (NewManager cfg) = negb (NoStaticRemoteKey cfg) || NoAnchors cfg /\
  forall m s, NewManager cfg = Ok m -> deps_closed (GetRaw m s).
Proof.
  split; [apply NewManager_config|]. intros m s. unfold NewManager, newManager.
  destruct (build_sets defaultSetDesc ∅) as [fsets|e|]; [|done..].
  destruct (forallb _ _) eqn:E; [|done]. intros [= <-]. unfold GetRaw.
  destruct (_ !! s) as [fv|] eqn:Es.
  2:{ change (deps_closed ∅). intros b d Hb. by apply elem_of_empty in Hb. }
  change (deps_closed fv).
  rewrite forallb_forall in E.
  assert (is_ok (ValidateDeps fv) = true) as Hok.
  { apply (E (s, fv)). by apply list_elem_of_In, elem_of_map_to_list. }
  destruct (validateDeps_exact fv) as [[_ ?]|[Hv _]]; [done|]. by rewrite Hv in Hok.
Qed.

(** The three encodings of a feature vector are read back, whatever follows them:
    the length-prefixed form of messages, and the base 256 and base 32 forms of invoices,
    whose length the reader is told. *)
Theorem features_roundtrip (fv : RawFeatureVector) (r : list byte) :
  set_Forall is_u16 fv ->
  (exists b, Encode_vector fv = Ok b /\ Decode_vector ∅ (b ++ r) = Ok (fv, r)) /\
  (exists b, EncodeBase256 fv = Ok b /\
     DecodeBase256 ∅ (b ++ r) (Z.of_nat (length b)) = Ok (fv, r)) /\
  (exists b, EncodeBase32 fv = Ok b /\
     DecodeBase32 ∅ (b ++ r) (Z.of_nat (length b)) = Ok (fv, r)).
Proof.
  intros Hfv. destruct (vector_roundtrip 8 ltac:(lia) fv r Hfv) as (b8 & E8 & L8 & D8).
  destruct (vector_roundtrip 5 ltac:(lia) fv r Hfv) as (b5 & E5 & L5 & D5).
  assert (is_u16 (SerializeSize fv)) as Hs by (by apply serializeSize_u16).
  split_and!.
  - unfold Encode_vector, SerializeSize. rewrite E8. rsimpl. eexists. split; [reflexivity|].
    unfold Decode_vector. rewrite u16_small by exact Hs. rewrite <- app_assoc.
    rewrite read_be_app by exact Hs. exact D8.
  - exists b8. split; [done|]. unfold DecodeBase256. by rewrite L8.
  - exists b5. split; [done|]. unfold DecodeBase32. by rewrite L5.
Qed.

Lemma features_roundtrip_witness :
  set_Forall is_u16 (NewRawFeatureVector [0; 9; 2023]) /\
  exists b, Encode_vector (NewRawFeatureVector [0; 9; 2023]) = Ok b /\
    Decode_vector ∅ (b ++ [x07]) = Ok (NewRawFeatureVector [0; 9; 2023], [x07]).
Proof.
  assert (set_Forall is_u16 (NewRawFeatureVector [0; 9; 2023])) as H
    by (apply (bool_decide_unpack _); vm_compute; exact I).
  split; [exact H|]. apply (features_roundtrip (NewRawFeatureVector [0; 9; 2023]) [x07] H).
Defined.

(** A bit position is narrowed to 16 bits: in a vector of more than 8192 bytes the bit
    65536 is read as bit 0. *)
Lemma read_bits_wraps n length width data fv i :
  0 <= i < Z.of_nat n -> get_bit length width data i = true ->
  u16 i ∈ read_bits n length width data fv.
Proof.
  induction n as [|n IH]; intros Hi Hb; [lia|]. cbn [read_bits].
  destruct (Z.eq_dec i (Z.of_nat n)) as [->|Hne].
  - rewrite Hb. unfold Set_. set_solver.
  - specialize (IH ltac:(lia) Hb). destruct (get_bit _ _ _ (Z.of_nat n)); [|done].
    unfold Set_. set_solver.
Qed.

Lemma long_vector_aliases :
  exists fv, DecodeBase256 ∅ (x01 :: replicate (Z.to_nat 8192) x00) 8193 = Ok (fv, []) /\
    DataLossProtectRequired ∈ fv.
Proof.
  unfold DecodeBase256, decode_vector. set (data := x01 :: replicate (Z.to_nat 8192) x00).
  assert (length data = Z.to_nat 8193) as Hl.
  { unfold data. cbn [length]. rewrite length_replicate. lia. }
  rewrite <- (app_nil_r data), <- Hl, read_full_app. rsimpl. eexists. split; [reflexivity|].
  change DataLossProtectRequired with (u16 65536). rewrite Hl.
  apply read_bits_wraps; [lia|]. reflexivity.
Qed.
