(* ===== verification/Amounts.v ===== *)
(** * Amounts, fees and channel parameters

    [lnwire/mat.go] (milli-atoms), [lnwallet/chainfee/rates.go] (fee rates),
    [input/size.go] (the sizes commitments are charged for), and from
    [lnwallet/commitment.go], [lnwallet/channel.go] and [channeldb/channel.go] the
    fee, dust and balance rules that depend on the channel type only.

    [MilliAtom] is an unsigned and [dcrutil.Amount] a signed 64-bit integer; both
    wrap.  Go's integer division truncates, which is [Z.quot]. *)

From S2P Require Import Prelude.

(** ** Milli-atoms and atoms *)

Definition mAtomScale : Z := 1000.

Definition NewMAtomsFromAtoms (atoms : Z) : Z := u64 (u64 atoms * mAtomScale).

Definition ToAtoms (mat : Z) : Z := i64 (mat / mAtomScale).

(** ** Fee rates *)

Definition FeePerKBFloor : Z := 10000.

Definition FeeForSize (feePerKB bytes : Z) : Z := Z.quot (i64 (feePerKB * bytes)) 1000.

(** ** Sizes *)

Definition offByOneCompatDecrement : Z := -1.
Definition baseTxSize : Z := 4 + 4 + 4.
Definition InputSize : Z := 32 + 4 + 1 + 4 + 8 + 4 + 4.
Definition OutputSize : Z := 8 + 2.
Definition P2PKHPkScriptSize : Z := 1 + 1 + 1 + 20 + 1 + 1.
Definition P2SHPkScriptSize : Z := 1 + 1 + 20 + 1.
Definition multiSig2Of2RedeemScriptSize : Z := 1 + 1 + 33 + 1 + 33 + 1 + 1.
Definition acceptedHtlcRedeemScriptSize : Z :=
  3*1 + 20 + 5*1 + 33 + 9*1 + 20 + 4*1 + 33 + 5*1 + 5 + 5*1 + offByOneCompatDecrement.
Definition offeredHtlcRedeemScriptSize : Z :=
  3*1 + 20 + 5*1 + 33 + 10*1 + 33 + 6*1 + 20 + 4*1.
Definition FundingOutputSigScriptSize : Z :=
  1 + 73 + 1 + 73 + 1 + multiSig2Of2RedeemScriptSize.
Definition AcceptedHtlcSuccessSigScriptSize : Z :=
  1 + 73 + 1 + 73 + 1 + 32 + 1 + 1 + acceptedHtlcRedeemScriptSize.
Definition OfferedHtlcTimeoutSigScriptSize : Z :=
  1 + 73 + 1 + 73 + 1 + 1 + 1 + offeredHtlcRedeemScriptSize.
Definition HTLCOutputSize : Z := OutputSize + 1 + P2SHPkScriptSize.
Definition CommitmentTxSize : Z :=
  baseTxSize + 1 + InputSize + 3 + OutputSize + 1 + P2PKHPkScriptSize + OutputSize
  + 1 + P2SHPkScriptSize + 1 + 1 + FundingOutputSigScriptSize + offByOneCompatDecrement.
Definition CommitmentWithAnchorsTxSize : Z :=
  CommitmentTxSize + 2*OutputSize + 2*1 + 2*P2SHPkScriptSize.
Definition htlcConfirmedScriptOverhead : Z := 3.
Definition HTLCTimeoutTxSize : Z :=
  baseTxSize + 1 + InputSize + 1 + OutputSize + 1 + P2SHPkScriptSize + 1 + 3
  + OfferedHtlcTimeoutSigScriptSize + offByOneCompatDecrement.
Definition HTLCTimeoutConfirmedTxSize : Z := HTLCTimeoutTxSize + htlcConfirmedScriptOverhead.
Definition HTLCSuccessTxSize : Z :=
  baseTxSize + 1 + InputSize + 1 + OutputSize + 1 + P2PKHPkScriptSize + 1 + 3
  + AcceptedHtlcSuccessSigScriptSize + offByOneCompatDecrement.
Definition HTLCSuccessConfirmedTxSize : Z := HTLCSuccessTxSize + htlcConfirmedScriptOverhead.

(** ** Channel types: a bit field *)

Definition ChannelType := Z.

Definition DualFunderBit : ChannelType := 1.
Definition SingleFunderTweaklessBit : ChannelType := 2.
Definition AnchorOutputsBit : ChannelType := 8.
Definition ZeroHtlcTxFeeBit : ChannelType := 32.
Definition LeaseExpirationBit : ChannelType := 64.

Definition IsTweakless (c : ChannelType) : bool :=
  Z.land c SingleFunderTweaklessBit =? SingleFunderTweaklessBit.
Definition HasAnchors (c : ChannelType) : bool :=
  Z.land c AnchorOutputsBit =? AnchorOutputsBit.
Definition ZeroHtlcTxFee (c : ChannelType) : bool :=
  Z.land c ZeroHtlcTxFeeBit =? ZeroHtlcTxFeeBit.
Definition HasLeaseExpiration (c : ChannelType) : bool :=
  Z.land c LeaseExpirationBit =? LeaseExpirationBit.

(** ** Channel constraints *)

Record ChannelConstraints := {
  DustLimit : Z;
  ChanReserve : Z;
  MaxPendingAmount : Z;
  MinHTLC : Z;
  MaxAcceptedHtlcs : Z;
  CsvDelay : Z;
}.

(** ** Fees and dust *)

Definition CommitSize (chanType : ChannelType) : Z :=
  if HasAnchors chanType then CommitmentWithAnchorsTxSize else CommitmentTxSize.

Definition HtlcTimeoutFee (chanType : ChannelType) (feePerKB : Z) : Z :=
  if ZeroHtlcTxFee chanType then 0
  else if HasAnchors chanType then FeeForSize feePerKB HTLCTimeoutConfirmedTxSize
  else FeeForSize feePerKB HTLCTimeoutTxSize.

Definition HtlcSuccessFee (chanType : ChannelType) (feePerKB : Z) : Z :=
  if ZeroHtlcTxFee chanType then 0
  else if HasAnchors chanType then FeeForSize feePerKB HTLCSuccessConfirmedTxSize
  else FeeForSize feePerKB HTLCSuccessTxSize.

Definition HtlcIsDust (chanType : ChannelType) (incoming ourCommit : bool)
    (feePerKB htlcAmt dustLimit : Z) : bool :=
  let htlcFee :=
    match incoming, ourCommit with
    | true, true => HtlcSuccessFee chanType feePerKB
    | true, false => HtlcTimeoutFee chanType feePerKB
    | false, true => HtlcTimeoutFee chanType feePerKB
    | false, false => HtlcSuccessFee chanType feePerKB
    end in
  i64 (htlcAmt - htlcFee) <? dustLimit.

(** The arguments of one party mirror those of the other: an HTLC that is incoming
    for one is outgoing for the other, on the commitment that is its own. *)
Lemma HtlcIsDust_mirror chanType incoming ourCommit feePerKB amt dust :
  HtlcIsDust chanType (negb incoming) (negb ourCommit) feePerKB amt dust
  = HtlcIsDust chanType incoming ourCommit feePerKB amt dust.
Proof. by destruct incoming, ourCommit. Qed.

Lemma NewMAtomsFromAtoms_u64 a : is_u64 (NewMAtomsFromAtoms a).
Proof. apply u64_range. Qed.

Lemma NewMAtomsFromAtoms_small a :
  0 <= a < 2 ^ 54 -> NewMAtomsFromAtoms a = 1000 * a.
Proof.
  intros Ha. unfold NewMAtomsFromAtoms, mAtomScale.
  rewrite (u64_small a) by (unfold is_u64; lia).
  rewrite u64_small by (unfold is_u64; lia). lia.
Qed.

(** On values that fit, the fee comparison of [createUnsignedCommitmentTx] in atoms
    is the comparison in milli-atoms. *)
Lemma ToAtoms_lt fee bal :
  0 <= fee -> is_u64 bal -> (fee >? ToAtoms bal) = (bal <? 1000 * fee).
Proof.
  intros Hf Hb. unfold ToAtoms, mAtomScale, is_u64 in *.
  assert (0 <= bal / 1000 < 2 ^ 63) as Hr.
  { split; [apply Z.div_pos; lia|]. apply Z.div_lt_upper_bound; lia. }
  unfold i64. rewrite Z.mod_small by lia.
  pose proof (Z.div_mod bal 1000 ltac:(lia)). pose proof (Z.mod_pos_bound bal 1000 ltac:(lia)).
  apply eq_true_iff_eq. rewrite Z.gtb_lt, Z.ltb_lt. lia.
Qed.
