(* ===== verification/FwdPkg.v ===== *)
(** * Forwarding packages

    [channeldb/forwarding_package.go]: the bit vectors that record which updates of
    a package were forwarded or acknowledged ([PkgFilter]), the packages
    ([FwdPkg]), and their persistent store with the operations of
    [ChannelPackager] and [SwitchPackager].

    The store is the bucket tree of the comment in the source: a root bucket that
    may not exist, one bucket per source channel (keyed by the packed short channel
    id), one per commitment height, and in it the two buckets of log updates and the
    three encoded filters.  Each operation runs inside a database transaction: an
    error discards its writes, so a failing operation returns no store.  Failures of
    the database itself are left out.

    Log updates are wire messages; [LogUpdateCodec] states what this component needs
    of their serialization. *)

From S2P Require Import Prelude Ids.

(** ** Filters *)

Record PkgFilter := { count : Z; filter : list byte }.

#[export] Instance PkgFilter_eq_dec : EqDecision PkgFilter.
Proof. solve_decision. Defined.

Definition NewPkgFilter (count : Z) : PkgFilter :=
  let filterLen := u16 (count + 7) / 8 in
  {| count := count; filter := replicate (Z.to_nat filterLen) x00 |}.

Definition Set_ (f : PkgFilter) (i : Z) : res PkgFilter :=
  let byt := Z.to_nat (i / 8) in
  let bit := i mod 8 in
  b ← index (filter f) byt;
  Ok {| count := count f;
        filter := <[byt := byte_of (Z.lor (bval b) (u8 (Z.shiftl 1 (7 - bit))))]> (filter f) |}.

Definition Contains (f : PkgFilter) (i : Z) : res bool :=
  let byt := Z.to_nat (i / 8) in
  let bit := i mod 8 in
  b ← index (filter f) byt;
  Ok (negb (Z.land (bval b) (Z.shiftl 1 (7 - bit)) =? 0)).

Definition Equal (f f2 : PkgFilter) : bool :=
  if negb (count f =? count f2) then false else bool_decide (filter f = filter f2).

(** The loop over the fully used bytes. *)
Fixpoint full_bytes (bs : list byte) (idxs : list nat) : res bool :=
  match idxs with
  | [] => Ok true
  | i :: rest => b ← index bs i; if negb (bval b =? 0xFF) then Ok false else full_bytes bs rest
  end.

(** The loop over the remaining bits. *)
Fixpoint contains_all (f : PkgFilter) (idxs : list Z) : res bool :=
  match idxs with
  | [] => Ok true
  | idx :: rest => c ← Contains f idx; if negb c then Ok false else contains_all f rest
  end.

Definition IsFull (f : PkgFilter) : res bool :=
  full ← full_bytes (filter f) (seq 0 (Z.to_nat (count f / 8)));
  if negb full then Ok false
  else
    let rem := count f mod 8 in
    contains_all f (seqZ (count f - rem) rem).

Definition Size (f : PkgFilter) : Z := u16 (2 + u16 (count f + 7) / 8).

Definition Encode (f : PkgFilter) : list byte := be_bytes 2 (count f) ++ filter f.

Definition Decode (r : list byte) : res (PkgFilter * list byte) :=
  '(c, r1) ← read_be 2 r;
  let f := {| count := c; filter := [] |} in
  '(bs, r2) ← read_full (Z.to_nat (u16 (Size f - 2))) r1;
  Ok ({| count := c; filter := bs |}, r2).

(** ** Packages *)

(** Serialization of log updates, as far as the packager depends on it. *)
Class LogUpdateCodec := {
  LogUpdate : Type;
  serializeLogUpdate : LogUpdate -> res (list byte);
  deserializeLogUpdate : list byte -> res LogUpdate;
  deserialize_serialize : forall u b,
    serializeLogUpdate u = Ok b -> deserializeLogUpdate b = Ok u;
}.

Inductive FwdState := FwdStateLockedIn | FwdStateProcessed | FwdStateCompleted.

#[export] Instance FwdState_eq_dec : EqDecision FwdState.
Proof. solve_decision. Defined.

Definition ErrCorruptedFwdPkg : error := Error "ErrCorruptedFwdPkg".
Definition ErrBucketNotFound : error := Error "ErrBucketNotFound".

Section Packager.
Context `{LogUpdateCodec}.

Record FwdPkg := {
  Source : ShortChannelID;
  Height : Z;
  State : FwdState;
  Adds : list LogUpdate;
  FwdFilter : PkgFilter;
  AckFilter : PkgFilter;
  SettleFails : list LogUpdate;
  SettleFailFilter : PkgFilter;
}.

Definition NewFwdPkg (source : ShortChannelID) (height : Z)
    (addUpdates settleFailUpdates : list LogUpdate) : FwdPkg :=
  let nAddUpdates := u16 (Z.of_nat (length addUpdates)) in
  let nSettleFailUpdates := u16 (Z.of_nat (length settleFailUpdates)) in
  {| Source := source; Height := height; State := FwdStateLockedIn;
     Adds := addUpdates;
     FwdFilter := NewPkgFilter nAddUpdates;
     AckFilter := NewPkgFilter nAddUpdates;
     SettleFails := settleFailUpdates;
     SettleFailFilter := NewPkgFilter nSettleFailUpdates |}.

(** ** The store *)

Record height_bucket := {
  addBkt : option (gmap Z (list byte));
  failSettleBkt : option (gmap Z (list byte));
  ackFilterKey : option (list byte);
  settleFailFilterKey : option (list byte);
  fwdFilterKey : option (list byte);
}.

Definition empty_height : height_bucket :=
  {| addBkt := None; failSettleBkt := None; ackFilterKey := None;
     settleFailFilterKey := None; fwdFilterKey := None |}.

Definition source_bucket : Type := gmap Z height_bucket.
Definition fwd_store : Type := option (gmap Z source_bucket).

Definition putLogUpdate (bkt : gmap Z (list byte)) (idx : Z) (htlc : LogUpdate)
    : res (gmap Z (list byte)) :=
  b ← serializeLogUpdate htlc; Ok (<[idx := b]> bkt).

Fixpoint putLogUpdates (bkt : gmap Z (list byte)) (i : nat) (htlcs : list LogUpdate)
    : res (gmap Z (list byte)) :=
  match htlcs with
  | [] => Ok bkt
  | htlc :: rest =>
      bkt' ← putLogUpdate bkt (u16 (Z.of_nat i)) htlc;
      putLogUpdates bkt' (S i) rest
  end.

Definition AddFwdPkg (tx : fwd_store) (fwdPkg : FwdPkg) : res fwd_store :=
  let fwdPkgBkt := default ∅ tx in
  let source := ToUint64 (Source fwdPkg) in
  let sourceBkt := default ∅ (fwdPkgBkt !! source) in
  let heightBkt := default empty_height (sourceBkt !! Height fwdPkg) in
  adds ← putLogUpdates (default ∅ (addBkt heightBkt)) 0 (Adds fwdPkg);
  failSettles ← putLogUpdates (default ∅ (failSettleBkt heightBkt)) 0 (SettleFails fwdPkg);
  let heightBkt' :=
    {| addBkt := Some adds;
       failSettleBkt := Some failSettles;
       ackFilterKey := Some (Encode (AckFilter fwdPkg));
       settleFailFilterKey := Some (Encode (SettleFailFilter fwdPkg));
       fwdFilterKey := fwdFilterKey heightBkt |} in
  Ok (Some (<[source := <[Height fwdPkg := heightBkt']> sourceBkt]> fwdPkgBkt)).

(** [loadHtlcs] on the values in index order. *)
Fixpoint load_values (vs : list (list byte)) : res (list LogUpdate) :=
  match vs with
  | [] => Ok []
  | v :: rest => htlc ← deserializeLogUpdate v; htlcs ← load_values rest; Ok (htlc :: htlcs)
  end.

Definition loadHtlcs (bkt : gmap Z (list byte)) : res (list LogUpdate) :=
  load_values (bucket_entries bkt).*2.

Definition get_or_corrupted {A} (o : option A) : res A :=
  match o with Some a => Ok a | None => Err ErrCorruptedFwdPkg end.

Definition loadFwdPkg (fwdPkgBkt : gmap Z source_bucket) (source : ShortChannelID)
    (height : Z) : res FwdPkg :=
  sourceBkt ← get_or_corrupted (fwdPkgBkt !! ToUint64 source);
  heightBkt ← get_or_corrupted (sourceBkt !! height);
  adds_bkt ← get_or_corrupted (addBkt heightBkt);
  adds ← loadHtlcs adds_bkt;
  ackFilterBytes ← get_or_corrupted (ackFilterKey heightBkt);
  '(ackFilter, _) ← Decode ackFilterBytes;
  fs_bkt ← get_or_corrupted (failSettleBkt heightBkt);
  failSettles ← loadHtlcs fs_bkt;
  settleFailFilterBytes ← get_or_corrupted (settleFailFilterKey heightBkt);
  '(settleFailFilter, _) ← Decode settleFailFilterBytes;
  let fwdPkg st ff :=
    {| Source := source; Height := height; State := st; Adds := adds; FwdFilter := ff;
       AckFilter := ackFilter; SettleFails := failSettles;
       SettleFailFilter := settleFailFilter |} in
  match fwdFilterKey heightBkt with
  | None => Ok (fwdPkg FwdStateLockedIn (NewPkgFilter (u16 (Z.of_nat (length adds)))))
  | Some fwdFilterBytes =>
      '(ff, _) ← Decode fwdFilterBytes;
      ackFull ← IsFull ackFilter;
      full ← (if (ackFull : bool) then IsFull settleFailFilter else Ok false);
      Ok (fwdPkg (if (full : bool) then FwdStateCompleted else FwdStateProcessed) ff)
  end.

Fixpoint load_heights (fwdPkgBkt : gmap Z source_bucket) (source : ShortChannelID)
    (heights : list Z) : res (list FwdPkg) :=
  match heights with
  | [] => Ok []
  | height :: rest =>
      fwdPkg ← loadFwdPkg fwdPkgBkt source height;
      fwdPkgs ← load_heights fwdPkgBkt source rest;
      Ok (fwdPkg :: fwdPkgs)
  end.

Definition loadChannelFwdPkgs (tx : fwd_store) (source : ShortChannelID) : res (list FwdPkg) :=
  match tx with
  | None => Ok []
  | Some fwdPkgBkt =>
      match fwdPkgBkt !! ToUint64 source with
      | None => Ok []
      | Some sourceBkt => load_heights fwdPkgBkt source (bucket_entries sourceBkt).*1
      end
  end.

Definition SetFwdFilter (source : ShortChannelID) (tx : fwd_store) (height : Z)
    (fwdFilter : PkgFilter) : res fwd_store :=
  fwdPkgBkt ← get_or_corrupted tx;
  sourceBkt ← get_or_corrupted (fwdPkgBkt !! ToUint64 source);
  heightBkt ← get_or_corrupted (sourceBkt !! height);
  match fwdFilterKey heightBkt with
  | Some _ => Ok tx
  | None =>
      let heightBkt' :=
        {| addBkt := addBkt heightBkt; failSettleBkt := failSettleBkt heightBkt;
           ackFilterKey := ackFilterKey heightBkt;
           settleFailFilterKey := settleFailFilterKey heightBkt;
           fwdFilterKey := Some (Encode fwdFilter) |} in
      Ok (Some (<[ToUint64 source := <[height := heightBkt']> sourceBkt]> fwdPkgBkt))
  end.

Fixpoint set_indexes (f : PkgFilter) (indexes : list Z) : res PkgFilter :=
  match indexes with
  | [] => Ok f
  | i :: rest => f' ← Set_ f i; set_indexes f' rest
  end.

Definition ackAddHtlcsAtHeight (sourceBkt : source_bucket) (height : Z) (indexes : list Z)
    : res source_bucket :=
  match sourceBkt !! height with
  | None => Ok sourceBkt
  | Some heightBkt =>
      ackFilterBytes ← get_or_corrupted (ackFilterKey heightBkt);
      '(ackFilter, _) ← Decode ackFilterBytes;
      ackFilter' ← set_indexes ackFilter indexes;
      Ok (<[height :=
        {| addBkt := addBkt heightBkt; failSettleBkt := failSettleBkt heightBkt;
           ackFilterKey := Some (Encode ackFilter');
           settleFailFilterKey := settleFailFilterKey heightBkt;
           fwdFilterKey := fwdFilterKey heightBkt |}]> sourceBkt)
  end.

Definition ackSettleFailsAtHeight (destBkt : source_bucket) (height : Z) (indexes : list Z)
    : res source_bucket :=
  match destBkt !! height with
  | None => Ok destBkt
  | Some heightBkt =>
      settleFailFilterBytes ← get_or_corrupted (settleFailFilterKey heightBkt);
      '(settleFailFilter, _) ← Decode settleFailFilterBytes;
      settleFailFilter' ← set_indexes settleFailFilter indexes;
      Ok (<[height :=
        {| addBkt := addBkt heightBkt; failSettleBkt := failSettleBkt heightBkt;
           ackFilterKey := ackFilterKey heightBkt;
           settleFailFilterKey := Some (Encode settleFailFilter');
           fwdFilterKey := fwdFilterKey heightBkt |}]> destBkt)
  end.

(** Appends [idx] to the slice under [h], as the code groups references by height. *)
Definition add_index (m : gmap Z (list Z)) (h idx : Z) : gmap Z (list Z) :=
  <[h := default [] (m !! h) ++ [idx]]> m.

(** The loop over a Go map of heights; [ack] is one of the two functions above.  The
    heights are distinct buckets, so the order Go picks does not matter. *)
Fixpoint ack_heights (ack : source_bucket -> Z -> list Z -> res source_bucket)
    (bkt : source_bucket) (diffs : list (Z * list Z)) : res source_bucket :=
  match diffs with
  | [] => Ok bkt
  | (height, indexes) :: rest => bkt' ← ack bkt height indexes; ack_heights ack bkt' rest
  end.

Definition heightDiffs (addRefs : list AddRef) : gmap Z (list Z) :=
  foldl (fun m r => add_index m (AddRef_Height r) (AddRef_Index r)) ∅ addRefs.

Definition AckAddHtlcs (source : ShortChannelID) (tx : fwd_store) (addRefs : list AddRef)
    : res fwd_store :=
  match addRefs with
  | [] => Ok tx
  | _ =>
      fwdPkgBkt ← get_or_corrupted tx;
      sourceBkt ← get_or_corrupted (fwdPkgBkt !! ToUint64 source);
      sourceBkt' ← ack_heights ackAddHtlcsAtHeight sourceBkt (map_to_list (heightDiffs addRefs));
      Ok (Some (<[ToUint64 source := sourceBkt']> fwdPkgBkt))
  end.

Definition destHeightDiffs (refs : list SettleFailRef) : gmap ShortChannelID (gmap Z (list Z)) :=
  foldl (fun m r =>
           <[SF_Source r := add_index (default ∅ (m !! SF_Source r)) (SF_Height r) (SF_Index r)]> m)
        ∅ refs.

Fixpoint ack_dests (fwdPkgBkt : gmap Z source_bucket)
    (dests : list (ShortChannelID * gmap Z (list Z))) : res (gmap Z source_bucket) :=
  match dests with
  | [] => Ok fwdPkgBkt
  | (dest, destHeights) :: rest =>
      match fwdPkgBkt !! ToUint64 dest with
      | None => ack_dests fwdPkgBkt rest
      | Some destBkt =>
          destBkt' ← ack_heights ackSettleFailsAtHeight destBkt (map_to_list destHeights);
          ack_dests (<[ToUint64 dest := destBkt']> fwdPkgBkt) rest
      end
  end.

Definition ackSettleFails (tx : fwd_store) (settleFailRefs : list SettleFailRef)
    : res fwd_store :=
  match settleFailRefs with
  | [] => Ok tx
  | _ =>
      fwdPkgBkt ← get_or_corrupted tx;
      fwdPkgBkt' ← ack_dests fwdPkgBkt (map_to_list (destHeightDiffs settleFailRefs));
      Ok (Some fwdPkgBkt')
  end.

Definition RemovePkg (source : ShortChannelID) (tx : fwd_store) (height : Z) : res fwd_store :=
  match tx with
  | None => Ok tx
  | Some fwdPkgBkt =>
      sourceBkt ← get_or_corrupted (fwdPkgBkt !! ToUint64 source);
      match sourceBkt !! height with
      | None => Err ErrBucketNotFound
      | Some _ => Ok (Some (<[ToUint64 source := delete height sourceBkt]> fwdPkgBkt))
      end
  end.

Definition Wipe (source : ShortChannelID) (tx : fwd_store) : res fwd_store :=
  match tx with
  | None => Ok tx
  | Some fwdPkgBkt =>
      match fwdPkgBkt !! ToUint64 source with
      | None => Ok tx
      | Some _ => Ok (Some (delete (ToUint64 source) fwdPkgBkt))
      end
  end.

End Packager.

(** ** Filters are sets of indexes *)

(** Membership of index [i]: bit [7 - i mod 8] of byte [i / 8]. *)
Definition mem (f : PkgFilter) (i : Z) : bool :=
  match filter f !! Z.to_nat (i / 8) with
  | Some b => Z.testbit (bval b) (7 - i mod 8)
  | None => false
  end.

(** A filter whose vector has the length its count calls for; the count must leave
    room for the rounding not to overflow sixteen bits. *)
Definition wf_filter (f : PkgFilter) : Prop :=
  0 <= count f <= 65528 /\ length (filter f) = Z.to_nat ((count f + 7) / 8).

Lemma land_pow2 z k : 0 <= k -> negb (Z.land z (Z.shiftl 1 k) =? 0) = Z.testbit z k.
Proof.
  intros Hk. rewrite Z.shiftl_1_l. destruct (Z.testbit z k) eqn:Hb.
  - destruct (Z.eqb_spec (Z.land z (2 ^ k)) 0) as [He|]; [|done].
    apply (f_equal (fun x => Z.testbit x k)) in He.
    by rewrite Z.land_spec, Hb, Z.pow2_bits_true, Z.bits_0 in He.
  - assert (Z.land z (2 ^ k) = 0) as ->; [|done].
    apply Z.bits_inj'. intros i Hi. rewrite Z.land_spec, Z.bits_0, Z.pow2_bits_eqb by lia.
    destruct (Z.eqb_spec k i) as [<-|]; [by rewrite Hb | apply andb_false_r].
Qed.

Lemma byte_full b : (bval b =? 0xFF) = forallb (fun k => Z.testbit (bval b) (7 - k)) (seqZ 0 8).
Proof. by destruct b. Qed.

Lemma Contains_ok f i c :
  0 <= i -> Contains f i = Ok c <-> (Z.to_nat (i / 8) < length (filter f))%nat /\ c = mem f i.
Proof.
  intros Hi. unfold Contains, mem, index.
  pose proof (Z.mod_pos_bound i 8 ltac:(lia)).
  destruct (filter f !! Z.to_nat (i / 8)) as [b|] eqn:Hb; rsimpl.
  - rewrite land_pow2 by lia. split; [|by intros [_ ->]].
    intros [= <-]. split; [|done]. by eapply lookup_lt_Some.
  - apply lookup_ge_None in Hb. split; [done|]. intros []. lia.
Qed.

Lemma Set_ok f i f' :
  0 <= i -> Set_ f i = Ok f' ->
  count f' = count f /\ length (filter f') = length (filter f) /\
  forall j, 0 <= j -> mem f' j = (i =? j) || mem f j.
Proof.
  intros Hi. unfold Set_, index.
  destruct (filter f !! Z.to_nat (i / 8)) as [b|] eqn:Hb; [|done].
  intros [= <-]. cbn [count filter]. rewrite length_insert. split_and!; [done..|].
  intros j Hj. unfold mem. cbn [filter].
  pose proof (Z.mod_pos_bound i 8 ltac:(lia)). pose proof (Z.mod_pos_bound j 8 ltac:(lia)).
  pose proof (Z.div_mod i 8 ltac:(lia)). pose proof (Z.div_mod j 8 ltac:(lia)).
  pose proof (Z.div_pos i 8 ltac:(lia) ltac:(lia)). pose proof (Z.div_pos j 8 ltac:(lia) ltac:(lia)).
  destruct (Z.eq_dec (i / 8) (j / 8)) as [He|Hne].
  - rewrite <- He, list_lookup_insert_eq by by eapply lookup_lt_Some. rewrite Hb.
    rewrite bval_byte_of. unfold u8. change 256 with (2 ^ 8).
    rewrite Z.mod_pow2_bits_low, Z.lor_spec, Z.mod_pow2_bits_low by lia.
    rewrite Z.shiftl_1_l, Z.pow2_bits_eqb, orb_comm by lia. f_equal.
    destruct (Z.eqb_spec i j) as [->|]; [by rewrite Z.eqb_refl|]. apply Z.eqb_neq. lia.
  - rewrite list_lookup_insert_ne by lia.
    destruct (Z.eqb_spec i j) as [->|]; [done|]. done.
Qed.

Lemma set_indexes_ok idxs : forall f f',
  Forall (fun i => 0 <= i) idxs -> set_indexes f idxs = Ok f' ->
  count f' = count f /\ length (filter f') = length (filter f) /\
  forall j, 0 <= j -> mem f' j = bool_decide (j ∈ idxs) || mem f j.
Proof.
  induction idxs as [|i idxs IH]; intros f f' Hpos; simpl.
  { intros [= <-]. done. }
  apply Forall_cons in Hpos as [Hi Hpos]. intros (f1 & H1 & H2)%bind_ok.
  apply Set_ok in H1 as (Hc & Hl & Hm); [|done].
  apply IH in H2 as (Hc' & Hl' & Hm'); [|done].
  split_and!; [congruence..|]. intros j Hj. rewrite Hm', Hm by done.
  destruct (Z.eqb_spec i j) as [->|Hne].
  - rewrite orb_true_r. symmetry. apply orb_true_iff. left. apply bool_decide_eq_true. by left.
  - rewrite orb_false_l. f_equal. apply bool_decide_ext. rewrite elem_of_cons.
    split; [by right | by intros [->|]].
Qed.

Lemma NewPkgFilter_wf c : 0 <= c <= 65528 -> wf_filter (NewPkgFilter c).
Proof.
  intros Hc. unfold wf_filter, NewPkgFilter, u16. cbn [count filter].
  rewrite length_replicate. wrap. done.
Qed.

Lemma mem_NewPkgFilter c i : mem (NewPkgFilter c) i = false.
Proof.
  unfold mem, NewPkgFilter. cbn [filter].
  destruct (replicate _ _ !! _) as [b|] eqn:Hb; [|done].
  apply lookup_replicate in Hb as [-> _]. apply Z.bits_0.
Qed.

Lemma Decode_Encode f r : wf_filter f -> Decode (Encode f ++ r) = Ok (f, r).
Proof.
  intros [Hc Hl]. unfold Decode, Encode. rewrite <- app_assoc, read_be_app by lia. rsimpl.
  unfold Size. cbn [count].
  rewrite read_full_app'; [rsimpl; by destruct f|].
  rewrite Hl. unfold u16. pose proof (Z.div_pos (count f + 7) 8).
  pose proof (Z.div_lt_upper_bound (count f + 7) 8 8192).
  wrap. f_equal. lia.
Qed.

Lemma full_bytes_ok bs n :
  (n <= length bs)%nat ->
  exists b, full_bytes bs (seq 0 n) = Ok b /\
    (b = true <-> forall j x, (j < n)%nat -> bs !! j = Some x -> bval x = 0xFF).
Proof.
  intros Hn. assert (forall idxs, Forall (fun j => (j < length bs)%nat) idxs ->
    exists b, full_bytes bs idxs = Ok b /\
      (b = true <-> forall j x, j ∈ idxs -> bs !! j = Some x -> bval x = 0xFF)) as Hgen.
  { induction 1 as [|j idxs Hj _ (b & Hb & Hiff)]; simpl.
    - exists true. split; [done|]. split; [|done]. intros _ j x Hj. set_solver.
    - destruct (lookup_lt_is_Some_2 bs j Hj) as [x Hx]. unfold index. rewrite Hx. rsimpl.
      destruct (Z.eqb_spec (bval x) 0xFF) as [He|Hne]; simpl.
      + exists b. split; [done|]. rewrite Hiff. split; intros Hall j' x' Hj' Hx'.
        * apply elem_of_cons in Hj' as [->|Hj']; [congruence|]. by eapply Hall.
        * eapply Hall; [|done]. by right.
      + exists false. split; [done|]. split; [done|]. intros Hall. exfalso.
        apply Hne. eapply Hall; [by left|done]. }
  destruct (Hgen (seq 0 n)) as (b & Hb & Hiff).
  { apply Forall_forall. intros j Hj%elem_of_seq. lia. }
  exists b. split; [done|]. rewrite Hiff. split; intros Hall j x Hj; apply Hall.
  - apply elem_of_seq. lia.
  - apply elem_of_seq in Hj. lia.
Qed.

Lemma contains_all_ok f idxs :
  Forall (fun i => 0 <= i /\ (Z.to_nat (i / 8) < length (filter f))%nat) idxs ->
  contains_all f idxs = Ok (forallb (mem f) idxs).
Proof.
  induction 1 as [|i idxs [Hi Hlt] _ IH]; [done|]. simpl.
  assert (Contains f i = Ok (mem f i)) as -> by by apply Contains_ok.
  rsimpl. destruct (mem f i); simpl; [exact IH|done].
Qed.

Lemma mem_byte f (n i : Z) b :
  0 <= n -> 0 <= i < 8 -> filter f !! Z.to_nat n = Some b ->
  mem f (8 * n + i) = Z.testbit (bval b) (7 - i).
Proof.
  intros Hn Hi Hb. unfold mem.
  rewrite (Z.mul_comm 8), Z.div_add_l, (Z.div_small i), Z.add_0_r, Hb by lia.
  by rewrite Z.add_comm, Z_mod_plus_full, Z.mod_small by lia.
Qed.

(** [IsFull] on a well-formed filter: it returns, and says whether every index below
    the count is a member. *)
Lemma IsFull_ok f :
  wf_filter f ->
  exists b, IsFull f = Ok b /\ (b = true <-> forall i, 0 <= i < count f -> mem f i = true).
Proof.
  intros [Hc Hl]. unfold IsFull.
  pose proof (Z.div_mod (count f) 8 ltac:(lia)) as Hdm.
  pose proof (Z.mod_pos_bound (count f) 8 ltac:(lia)) as Hm.
  set (n := count f / 8) in *. set (rm := count f mod 8) in *.
  assert ((count f + 7) / 8 = n + (if rm =? 0 then 0 else 1)) as Hlen.
  { destruct (Z.eqb_spec rm 0).
    - symmetry. apply Z.div_unique with (r := 7); lia.
    - symmetry. apply Z.div_unique with (r := rm - 1); lia. }
  destruct (full_bytes_ok (filter f) (Z.to_nat n)) as (b & Hb & Hiff).
  { rewrite Hl, Hlen. destruct (rm =? 0); lia. }
  rewrite Hb. rsimpl.
  assert (b = true <-> forall i, 0 <= i < 8 * n -> mem f i = true) as Hfirst.
  { rewrite Hiff. split.
    - intros Hall i Hi. pose proof (Z.div_mod i 8 ltac:(lia)).
      pose proof (Z.mod_pos_bound i 8 ltac:(lia)).
      destruct (lookup_lt_is_Some_2 (filter f) (Z.to_nat (i / 8))) as [x Hx].
      { rewrite Hl, Hlen. destruct (rm =? 0); lia. }
      replace i with (8 * (i / 8) + i mod 8) by lia. rewrite (mem_byte f _ _ x) by (done || lia).
      pose proof (Hall (Z.to_nat (i / 8)) x ltac:(lia) Hx) as Hfull.
      apply Z.eqb_eq in Hfull. rewrite byte_full, forallb_forall in Hfull. apply Hfull.
      apply list_elem_of_In, elem_of_seqZ. lia.
    - intros Hall j x Hj Hx. apply Z.eqb_eq. rewrite byte_full. apply forallb_forall.
      intros k Hk. apply list_elem_of_In, elem_of_seqZ in Hk.
      rewrite <- (mem_byte f (Z.of_nat j) k x) by (rewrite ?Nat2Z.id; done || lia).
      apply Hall. lia. }
  destruct b; simpl.
  - rewrite contains_all_ok.
    2: { apply Forall_forall. intros i Hi%elem_of_seqZ. split; [lia|].
         assert (i / 8 = n) as ->; [|rewrite Hl, Hlen; destruct (Z.eqb_spec rm 0); lia].
         symmetry. apply Z.div_unique with (r := i - 8 * n); lia. }
    eexists. split; [done|]. rewrite forallb_forall. split.
    + intros Hrest i Hi. destruct (Z.lt_ge_cases i (8 * n)).
      * apply Hfirst; [done|lia].
      * apply Hrest, list_elem_of_In, elem_of_seqZ. lia.
    + intros Hall i Hi. apply list_elem_of_In, elem_of_seqZ in Hi. apply Hall. lia.
  - exists false. split; [done|]. split; [done|]. intros Hall. apply Hfirst.
    intros i Hi. apply Hall. lia.
Qed.

(** A filter behaves as a set of indexes.  For a filter made for [c] updates, at
    most 65528, whose indexes [set] were marked: membership is membership in [set]
    and never panics, the filter is full exactly when every index below [c] was
    marked, and it survives serialization. *)
Theorem filter_is_set (c : Z) (set : list Z) (f : PkgFilter) :
  0 <= c <= 65528 -> Forall (fun i => 0 <= i < c) set ->
  set_indexes (NewPkgFilter c) set = Ok f ->
  (forall i, 0 <= i < c -> Contains f i = Ok (bool_decide (i ∈ set))) /\
  (exists full, IsFull f = Ok full /\ (full = true <-> forall i, 0 <= i < c -> i ∈ set)) /\
  (forall r, Decode (Encode f ++ r) = Ok (f, r)).
Proof.
  intros Hc Hset Hf.
  apply set_indexes_ok in Hf as (Hcount & Hlen & Hmem).
  2: { eapply Forall_impl; [exact Hset|]. simpl. lia. }
  destruct (NewPkgFilter_wf c Hc) as [Hwc Hwl].
  assert (wf_filter f) as Hwf by (split; [by rewrite Hcount | by rewrite Hlen, Hcount]).
  assert (forall i, 0 <= i -> mem f i = bool_decide (i ∈ set)) as Hm.
  { intros i Hi. by rewrite Hmem, mem_NewPkgFilter, orb_false_r by lia. }
  split_and!.
  - intros i Hi. apply Contains_ok; [lia|]. split; [|by rewrite Hm by lia].
    rewrite Hlen, Hwl. simpl. pose proof (Z.div_le_mono (i + 8) (c + 7) 8 ltac:(lia) ltac:(lia)).
    replace (i + 8) with (i + 1 * 8) in * by lia. rewrite Z.div_add in * by lia.
    pose proof (Z.div_pos i 8). lia.
  - destruct (IsFull_ok f Hwf) as (full & Hfull & Hiff). exists full. split; [done|].
    rewrite Hiff, Hcount. simpl. split; intros Hall i Hi.
    + specialize (Hall i Hi). rewrite Hm in Hall by lia. by apply bool_decide_eq_true in Hall.
    + rewrite Hm by lia. apply bool_decide_eq_true_2. by apply Hall.
  - intros r. by apply Decode_Encode.
Qed.

Lemma filter_is_set_witness :
  0 <= 10 <= 65528 /\ Forall (fun i => 0 <= i < 10) [9; 0; 3] /\
  exists f, set_indexes (NewPkgFilter 10) [9; 0; 3] = Ok f /\ Contains f 3 = Ok true.
Proof.
  assert (Forall (fun i => 0 <= i < 10) [9; 0; 3]) as Hs by (repeat constructor; lia).
  split; [lia|]. split; [exact Hs|].
  eexists. split; [vm_compute; reflexivity|].
  apply (filter_is_set 10 [9; 0; 3] _ ltac:(lia) Hs eq_refl). lia.
Defined.

(** ** The life of a package

    A package is followed through an arbitrary history of operations on the store,
    on this and on other channels' packages. *)

Section Lifecycle.
Context `{LogUpdateCodec}.

(** The operations of the packagers. *)
Inductive fwd_op :=
| OpAdd (pkg : FwdPkg)
| OpSetFwd (source : ShortChannelID) (height : Z) (f : PkgFilter)
| OpAckAdds (source : ShortChannelID) (refs : list AddRef)
| OpAckSettleFails (refs : list SettleFailRef)
| OpRemove (source : ShortChannelID) (height : Z)
| OpWipe (source : ShortChannelID).

Definition apply_op (tx : fwd_store) (op : fwd_op) : res fwd_store :=
  match op with
  | OpAdd pkg => AddFwdPkg tx pkg
  | OpSetFwd source height f => SetFwdFilter source tx height f
  | OpAckAdds source refs => AckAddHtlcs source tx refs
  | OpAckSettleFails refs => ackSettleFails tx refs
  | OpRemove source height => RemovePkg source tx height
  | OpWipe source => Wipe source tx
  end.

Fixpoint run_ops (tx : fwd_store) (ops : list fwd_op) : res fwd_store :=
  match ops with
  | [] => Ok tx
  | op :: rest => tx' ← apply_op tx op; run_ops tx' rest
  end.

(** Arguments the Go types allow: short channel ids of their width, unsigned
    indexes, filters made by [NewPkgFilter]. *)
Definition wf_op (op : fwd_op) : Prop :=
  match op with
  | OpAdd pkg => valid_scid (Source pkg)
  | OpSetFwd source _ f => valid_scid source /\ wf_filter f
  | OpAckAdds source refs => valid_scid source /\ Forall (fun r => 0 <= AddRef_Index r) refs
  | OpAckSettleFails refs =>
      Forall (fun r => valid_scid (SF_Source r) /\ 0 <= SF_Index r) refs
  | OpRemove source _ | OpWipe source => valid_scid source
  end.

(** The operation neither rewrites nor removes the package of [s] at [h]. *)
Definition keeps (s : ShortChannelID) (h : Z) (op : fwd_op) : bool :=
  match op with
  | OpAdd pkg => negb (bool_decide (Source pkg = s /\ Height pkg = h))
  | OpRemove source height => negb (bool_decide (source = s /\ height = h))
  | OpWipe source => negb (bool_decide (source = s))
  | _ => true
  end.

(** The Add indexes of the package that the operation acknowledges. *)
Definition adds_acked (s : ShortChannelID) (h : Z) (op : fwd_op) : list Z :=
  match op with
  | OpAckAdds source refs =>
      if bool_decide (source = s)
      then AddRef_Index <$> base.filter (fun r => AddRef_Height r = h) refs else []
  | _ => []
  end.

(** The Settle/Fail indexes of the package that the operation acknowledges. *)
Definition settle_fails_acked (s : ShortChannelID) (h : Z) (op : fwd_op) : list Z :=
  match op with
  | OpAckSettleFails refs =>
      SF_Index <$> base.filter (fun r => SF_Source r = s /\ SF_Height r = h) refs
  | _ => []
  end.

(** The forwarding decision after the operation: the first one stays. *)
Definition fwd_after (s : ShortChannelID) (h : Z) (ff : option PkgFilter) (op : fwd_op)
    : option PkgFilter :=
  match ff, op with
  | None, OpSetFwd source height f =>
      if bool_decide (source = s /\ height = h) then Some f else None
  | _, _ => ff
  end.

(** The bucket of a package. *)
Definition bucket_at (tx : fwd_store) (s : ShortChannelID) (h : Z) : option height_bucket :=
  tx ≫= fun m => m !! ToUint64 s ≫= fun b => b !! h.

Definition stores (us : list LogUpdate) (bkt : option (gmap Z (list byte))) : Prop :=
  exists bs, Forall2 (fun u b => serializeLogUpdate u = Ok b) us bs /\
    bkt = Some (list_to_map (indexed bs)).

Definition stores_filter (n : nat) (set : list Z) (o : option (list byte)) : Prop :=
  exists f, o = Some (Encode f) /\ wf_filter f /\ count f = Z.of_nat n /\
    forall i, 0 <= i -> mem f i = bool_decide (i ∈ set).

(** The bucket [hb] holds the updates, the decision [ff] and the acknowledged sets. *)
Record represents (hb : height_bucket) (adds sfs : list LogUpdate) (ff : option PkgFilter)
    (acked sf_acked : list Z) : Prop := {
  rep_adds : stores adds (addBkt hb);
  rep_sfs : stores sfs (failSettleBkt hb);
  rep_ack : stores_filter (length adds) acked (ackFilterKey hb);
  rep_sf_ack : stores_filter (length sfs) sf_acked (settleFailFilterKey hb);
  rep_fwd : fwdFilterKey hb = Encode <$> ff /\ from_option wf_filter True ff;
}.

Lemma ToUint64_inj a b : valid_scid a -> valid_scid b -> ToUint64 a = ToUint64 b -> a = b.
Proof.
  intros Ha Hb He.
  by rewrite <- (NewShortChanIDFromInt_ToUint64 a), He, NewShortChanIDFromInt_ToUint64.
Qed.

(** *** Acknowledging *)

Lemma stores_filter_set n set o idxs f f' bs r :
  stores_filter n set o -> o = Some bs -> Decode bs = Ok (f, r) ->
  Forall (fun i => 0 <= i) idxs -> set_indexes f idxs = Ok f' ->
  stores_filter n (set ++ idxs) (Some (Encode f')).
Proof.
  intros (g & -> & Hwf & Hc & Hm) [= <-] Hd Hpos Hset.
  pose proof (Decode_Encode g [] Hwf) as Hg. rewrite app_nil_r, Hd in Hg.
  injection Hg as -> ->.
  apply set_indexes_ok in Hset as (Hc' & Hl' & Hm'); [|done].
  exists f'. split; [done|]. split; [|split; [congruence|]].
  - destruct Hwf. unfold wf_filter. by rewrite Hc', Hl'.
  - intros i Hi. rewrite Hm', Hm, orb_comm by done.
    rewrite <- bool_decide_or. apply bool_decide_ext. by rewrite elem_of_app.
Qed.

(** Acknowledging at one height touches that height's bucket only; [upd] is the
    change it makes there. *)
Definition local_ack (ack : source_bucket -> Z -> list Z -> res source_bucket)
    (upd : height_bucket -> list Z -> res height_bucket) : Prop :=
  forall bkt h idxs, ack bkt h idxs =
    match bkt !! h with
    | None => Ok bkt
    | Some hb => hb' ← upd hb idxs; Ok (<[h := hb']> bkt)
    end.

Lemma ack_heights_ok ack upd diffs : local_ack ack upd -> NoDup diffs.*1 ->
  forall bkt bkt' h hb, ack_heights ack bkt diffs = Ok bkt' -> bkt !! h = Some hb ->
  match (list_to_map diffs : gmap Z (list Z)) !! h with
  | None => bkt' !! h = Some hb
  | Some idxs => exists hb', upd hb idxs = Ok hb' /\ bkt' !! h = Some hb'
  end.
Proof.
  unfold source_bucket. intros Hloc. unfold local_ack, source_bucket in Hloc.
  induction diffs as [|[k idxs] diffs IH]; intros Hnd bkt bkt' h hb.
  { simpl. intros [= <-]. done. }
  apply NoDup_cons in Hnd as [Hk Hnd]. simpl. intros (b1 & H1 & H2)%bind_ok Hh.
  rewrite Hloc in H1. destruct (decide (k = h)) as [->|Hne].
  - rewrite lookup_insert_eq. rewrite Hh in H1.
    apply bind_ok in H1 as (hb' & Hu & [= <-]). exists hb'. split; [done|].
    specialize (IH Hnd _ _ h hb' H2 (lookup_insert_eq _ _ _)).
    by rewrite (not_elem_of_list_to_map_1 diffs h Hk) in IH.
  - rewrite lookup_insert_ne by done. apply (IH Hnd b1); [done|].
    destruct (bkt !! k) as [hk|]; [|by injection H1 as <-].
    apply bind_ok in H1 as (hb' & _ & [= <-]). by rewrite lookup_insert_ne.
Qed.

Definition ack_add_bucket (hb : height_bucket) (idxs : list Z) : res height_bucket :=
  bs ← get_or_corrupted (ackFilterKey hb);
  '(f, _) ← Decode bs;
  f' ← set_indexes f idxs;
  Ok {| addBkt := addBkt hb; failSettleBkt := failSettleBkt hb;
        ackFilterKey := Some (Encode f'); settleFailFilterKey := settleFailFilterKey hb;
        fwdFilterKey := fwdFilterKey hb |}.

Definition ack_sf_bucket (hb : height_bucket) (idxs : list Z) : res height_bucket :=
  bs ← get_or_corrupted (settleFailFilterKey hb);
  '(f, _) ← Decode bs;
  f' ← set_indexes f idxs;
  Ok {| addBkt := addBkt hb; failSettleBkt := failSettleBkt hb;
        ackFilterKey := ackFilterKey hb; settleFailFilterKey := Some (Encode f');
        fwdFilterKey := fwdFilterKey hb |}.

Ltac run_acks :=
  intros bkt h idxs; unfold ackAddHtlcsAtHeight, ackSettleFailsAtHeight, ack_add_bucket, ack_sf_bucket;
  destruct (bkt !! h) as [hb|]; [|done];
  destruct (get_or_corrupted _) as [bs| |]; [|done..]; rsimpl;
  destruct (Decode bs) as [[f r]| |]; [|done..]; rsimpl;
  by destruct (set_indexes f idxs).

Lemma ack_add_local : local_ack ackAddHtlcsAtHeight ack_add_bucket.
Proof. run_acks. Qed.

Lemma ack_sf_local : local_ack ackSettleFailsAtHeight ack_sf_bucket.
Proof. run_acks. Qed.

Lemma ack_add_represents hb hb' adds sfs ff acked sfa idxs :
  represents hb adds sfs ff acked sfa -> Forall (fun i => 0 <= i) idxs ->
  ack_add_bucket hb idxs = Ok hb' -> represents hb' adds sfs ff (acked ++ idxs) sfa.
Proof.
  intros [Ha Hs Hk Hsk Hf] Hpos. unfold ack_add_bucket.
  destruct (ackFilterKey hb) as [bs|] eqn:Hbs; [|done]. simpl.
  intros ([f r] & Hd & (f' & Hset & [= <-])%bind_ok)%bind_ok.
  split; try done. by eapply stores_filter_set.
Qed.

Lemma ack_sf_represents hb hb' adds sfs ff acked sfa idxs :
  represents hb adds sfs ff acked sfa -> Forall (fun i => 0 <= i) idxs ->
  ack_sf_bucket hb idxs = Ok hb' -> represents hb' adds sfs ff acked (sfa ++ idxs).
Proof.
  intros [Ha Hs Hk Hsk Hf] Hpos. unfold ack_sf_bucket.
  destruct (settleFailFilterKey hb) as [bs|] eqn:Hbs; [|done]. simpl.
  intros ([f r] & Hd & (f' & Hset & [= <-])%bind_ok)%bind_ok.
  split; try done. by eapply stores_filter_set.
Qed.

(** *** Grouping references *)

(** A slice under a key, absent when empty. *)
Definition nonempty (l : list Z) : option (list Z) := match l with [] => None | _ => Some l end.

Lemma nonempty_snoc l x : nonempty (l ++ [x]) = Some (l ++ [x]).
Proof. by destruct l. Qed.

Lemma default_nonempty l : default [] (nonempty l) = l.
Proof. by destruct l. Qed.

Lemma add_index_lookup m h idx k :
  add_index m h idx !! k =
  if decide (h = k) then Some (default [] (m !! h) ++ [idx]) else m !! k.
Proof.
  unfold add_index. destruct (decide (h = k)) as [->|Hne];
    [apply lookup_insert_eq | by apply lookup_insert_ne].
Qed.

Lemma heightDiffs_lookup refs h :
  heightDiffs refs !! h =
  nonempty (AddRef_Index <$> base.filter (fun r => AddRef_Height r = h) refs).
Proof.
  unfold heightDiffs. induction refs as [|r refs IH] using rev_ind; [done|].
  rewrite foldl_snoc, filter_app, fmap_app, filter_cons, filter_nil, add_index_lookup.
  destruct (decide (AddRef_Height r = h)) as [Hr|Hne]; [|by rewrite app_nil_r].
  subst h. change (AddRef_Index <$> [r]) with [AddRef_Index r].
  by rewrite IH, default_nonempty, nonempty_snoc.
Qed.

Lemma destHeightDiffs_lookup refs s h :
  default ∅ (destHeightDiffs refs !! s) !! h =
  nonempty (SF_Index <$> base.filter (fun r => SF_Source r = s /\ SF_Height r = h) refs).
Proof.
  unfold destHeightDiffs. induction refs as [|r refs IH] using rev_ind; [done|].
  rewrite foldl_snoc, filter_app, fmap_app, filter_cons, filter_nil.
  destruct (decide (SF_Source r = s)) as [Hs|Hs].
  - subst s. rewrite lookup_insert_eq. cbn [default from_option id]. rewrite add_index_lookup.
    destruct (decide (SF_Height r = h)) as [Hh|Hh].
    + subst h. rewrite decide_True by done. change (SF_Index <$> [r]) with [SF_Index r].
      by rewrite IH, default_nonempty, nonempty_snoc.
    + rewrite decide_False by tauto. by rewrite app_nil_r.
  - rewrite decide_False by tauto. by rewrite lookup_insert_ne, app_nil_r.
Qed.

Lemma destHeightDiffs_valid refs s :
  Forall (fun r => valid_scid (SF_Source r)) refs -> is_Some (destHeightDiffs refs !! s) ->
  valid_scid s.
Proof.
  unfold destHeightDiffs. induction refs as [|r refs IH] using rev_ind; [by intros _ []|].
  rewrite Forall_app, Forall_singleton, foldl_snoc. intros [Hf Hr].
  destruct (decide (SF_Source r = s)) as [<-|Hne]; [done|].
  rewrite lookup_insert_ne by done. by apply IH.
Qed.

(** Destinations are distinct buckets. *)
Lemma ack_dests_ok dests : NoDup dests.*1 -> Forall valid_scid dests.*1 ->
  forall m m' s bkt, valid_scid s -> ack_dests m dests = Ok m' -> m !! ToUint64 s = Some bkt ->
  match (list_to_map dests : gmap ShortChannelID (gmap Z (list Z))) !! s with
  | None => m' !! ToUint64 s = Some bkt
  | Some dh => exists bkt',
      ack_heights ackSettleFailsAtHeight bkt (map_to_list dh) = Ok bkt' /\
      m' !! ToUint64 s = Some bkt'
  end.
Proof.
  induction dests as [|[d dh] dests IH]; intros Hnd Hv m m' s bkt Hs.
  { simpl. intros [= <-]. done. }
  rewrite fmap_cons in Hnd, Hv. apply NoDup_cons in Hnd as [Hd Hnd].
  apply Forall_cons in Hv as [Hvd Hv]. simpl. destruct (decide (d = s)) as [->|Hne].
  - rewrite lookup_insert_eq. intros Hack Hm. rewrite Hm in Hack.
    apply bind_ok in Hack as (bkt' & Hb & Hrest). exists bkt'. split; [done|].
    specialize (IH Hnd Hv _ _ s bkt' Hs Hrest (lookup_insert_eq _ _ _)).
    by rewrite (not_elem_of_list_to_map_1 dests s Hd) in IH.
  - rewrite lookup_insert_ne by done. intros Hack Hm.
    destruct (m !! ToUint64 d) as [bd|]; [|by apply (IH Hnd Hv m)].
    apply bind_ok in Hack as (bkt' & _ & Hrest). apply (IH Hnd Hv _ _ _ _ Hs Hrest).
    rewrite lookup_insert_ne; [done|]. intros He. apply Hne. by apply ToUint64_inj.
Qed.

(** *** Writing and reading a package *)

Lemma putLogUpdates_ok us : forall i bkt bkt',
  (Z.of_nat (i + length us) <= 65536) ->
  putLogUpdates bkt i us = Ok bkt' ->
  exists bs, Forall2 (fun u b => serializeLogUpdate u = Ok b) us bs /\
    bkt' = foldl (fun m kv => <[kv.1 := kv.2]> m) bkt
             (imap (fun j b => (Z.of_nat (i + j), b)) bs).
Proof.
  induction us as [|u us IH]; intros i bkt bkt' Hlen; simpl.
  { intros [= <-]. exists []. by split; [constructor|]. }
  unfold putLogUpdate. intros (b1 & (b & Hb & [= <-])%bind_ok & Hrest)%bind_ok.
  simpl in Hlen. apply IH in Hrest as (bs & Hbs & ->); [|lia].
  exists (b :: bs). split; [by constructor|]. simpl. rewrite Nat.add_0_r.
  unfold u16. rewrite Z.mod_small by lia. f_equal. apply imap_ext. intros j x Hj. simpl.
  f_equal. lia.
Qed.

Lemma foldl_insert_map (l : list (Z * list byte)) (m : gmap Z (list byte)) :
  NoDup l.*1 -> foldl (fun m kv => <[kv.1 := kv.2]> m) m l = list_to_map l ∪ m.
Proof.
  revert m. induction l as [|[k v] l IH]; intros m Hnd; simpl; [by rewrite (left_id_L ∅ _)|].
  apply NoDup_cons in Hnd as [Hk Hnd]. rewrite IH by done.
  rewrite <- insert_union_r, insert_union_l; [done|].
  by apply not_elem_of_list_to_map_1.
Qed.

Lemma putLogUpdates_stores us bkt :
  Z.of_nat (length us) <= 65528 -> putLogUpdates ∅ 0 us = Ok bkt -> stores us (Some bkt).
Proof.
  intros Hlen Hput. apply putLogUpdates_ok in Hput as (bs & Hbs & ->); [|simpl; lia].
  exists bs. split; [done|]. f_equal. simpl. change (imap _ bs) with (indexed bs).
  rewrite foldl_insert_map; [by rewrite (right_id_L ∅ _)|].
  pose proof (indexed_sorted bs) as Hs.
  induction Hs as [|x l _ IH Hf]; constructor; [|done].
  intros Hin. rewrite Forall_forall in Hf. apply Hf in Hin. lia.
Qed.

Lemma loadHtlcs_stores us bkt : stores us (Some bkt) -> loadHtlcs bkt = Ok us.
Proof.
  intros (bs & Hbs & [= ->]). unfold loadHtlcs. rewrite bucket_entries_indexed, indexed_snd.
  induction Hbs as [|u b us bs Hub _ IH]; [done|]. simpl.
  rewrite (deserialize_serialize u b Hub), IH. done.
Qed.

(** Reading the bucket of a package. *)
Definition state_of (adds sfs : list LogUpdate) (ff : option PkgFilter) (acked sfa : list Z)
    : FwdState :=
  match ff with
  | None => FwdStateLockedIn
  | Some _ =>
      if bool_decide (Forall (fun i => i ∈ acked) (seqZ 0 (Z.of_nat (length adds)))) &&
         bool_decide (Forall (fun i => i ∈ sfa) (seqZ 0 (Z.of_nat (length sfs))))
      then FwdStateCompleted else FwdStateProcessed
  end.

Lemma stores_filter_full n set bs f r :
  stores_filter n set (Some bs) -> Decode bs = Ok (f, r) ->
  wf_filter f /\ count f = Z.of_nat n /\ (forall i, 0 <= i -> mem f i = bool_decide (i ∈ set)) /\
  IsFull f = Ok (bool_decide (Forall (fun i => i ∈ set) (seqZ 0 (Z.of_nat n)))).
Proof.
  intros (g & [= ->] & Hwf & Hc & Hm) Hd.
  pose proof (Decode_Encode g [] Hwf) as Hg. rewrite app_nil_r, Hd in Hg.
  injection Hg as -> ->. split_and!; [done..|].
  destruct (IsFull_ok g Hwf) as (b & -> & Hb). f_equal. apply eq_true_iff_eq.
  rewrite Hb, bool_decide_eq_true, Forall_forall, Hc. split.
  - intros Hall i Hi%elem_of_seqZ. specialize (Hall i ltac:(lia)).
    rewrite Hm in Hall by lia. by apply bool_decide_eq_true in Hall.
  - intros Hall i Hi. rewrite Hm by lia. apply bool_decide_eq_true_2, Hall, elem_of_seqZ. lia.
Qed.

Lemma stores_filter_decode n set o :
  stores_filter n set o -> exists bs f, o = Some bs /\ Decode bs = Ok (f, []).
Proof.
  intros (f & -> & Hwf & _). exists (Encode f), f. split; [done|].
  rewrite <- (app_nil_r (Encode f)). by apply Decode_Encode.
Qed.

Lemma loadFwdPkg_represents tx s h hb adds sfs ff acked sfa :
  bucket_at (Some tx) s h = Some hb -> represents hb adds sfs ff acked sfa ->
  exists pkg, loadFwdPkg tx s h = Ok pkg /\
    Source pkg = s /\ Height pkg = h /\ Adds pkg = adds /\ SettleFails pkg = sfs /\
    State pkg = state_of adds sfs ff acked sfa /\
    FwdFilter pkg = default (NewPkgFilter (u16 (Z.of_nat (length adds)))) ff /\
    (forall i, 0 <= i < Z.of_nat (length adds) -> mem (AckFilter pkg) i = bool_decide (i ∈ acked)) /\
    (forall i, 0 <= i < Z.of_nat (length sfs) ->
       mem (SettleFailFilter pkg) i = bool_decide (i ∈ sfa)).
Proof.
  unfold bucket_at. simpl. intros Hb [Ha Hs Hk Hsk [Hf Hfwf]].
  destruct (tx !! ToUint64 s) as [bkt|] eqn:Hsrc; [|done]. simpl in Hb.
  destruct Ha as (abs & Habs & Hadd). destruct Hs as (sbs & Hsbs & Hsf).
  assert (loadHtlcs (list_to_map (indexed abs)) = Ok adds) as La
    by (apply loadHtlcs_stores; by exists abs).
  assert (loadHtlcs (list_to_map (indexed sbs)) = Ok sfs) as Ls
    by (apply loadHtlcs_stores; by exists sbs).
  destruct (stores_filter_decode _ _ _ Hk) as (kb & kf & Hkb & Hkd).
  destruct (stores_filter_decode _ _ _ Hsk) as (skb & skf & Hskb & Hskd).
  rewrite Hkb in Hk. rewrite Hskb in Hsk.
  apply (stores_filter_full _ _ _ _ _ Hk) in Hkd as HK.
  apply (stores_filter_full _ _ _ _ _ Hsk) in Hskd as HS.
  destruct HK as (_ & _ & Hkm & Hkfull). destruct HS as (_ & _ & Hskm & Hskfull).
  unfold loadFwdPkg. rewrite Hsrc. cbn [get_or_corrupted]. rsimpl. rewrite Hb.
  cbn [get_or_corrupted]. rsimpl. rewrite Hadd, Hkb, Hsf, Hskb. cbn [get_or_corrupted]. rsimpl.
  rewrite La. rsimpl. rewrite Hkd. rsimpl. rewrite Ls. rsimpl. rewrite Hskd. rsimpl. rewrite Hf.
  unfold state_of. destruct ff as [f|].
  - cbn [fmap option_fmap option_map].
    pose proof (Decode_Encode f [] Hfwf) as Hfd. rewrite app_nil_r in Hfd. rewrite Hfd. rsimpl.
    rewrite Hkfull. rsimpl.
    destruct (bool_decide (Forall (fun i => i ∈ acked) _)); simpl.
    + rewrite Hskfull. rsimpl. eexists. split; [reflexivity|]. simpl.
      split_and!; try done; intros i Hi; [apply Hkm | apply Hskm]; lia.
    + eexists. split; [reflexivity|]. simpl.
      split_and!; try done; intros i Hi; [apply Hkm | apply Hskm]; lia.
  - cbn [fmap option_fmap option_map]. eexists. split; [reflexivity|]. simpl.
    split_and!; try done; intros i Hi; [apply Hkm | apply Hskm]; lia.
Qed.

(** *** One operation *)

Lemma bucket_at_insert (m : gmap Z (gmap Z height_bucket)) s s' h (bkt : gmap Z height_bucket) :
  valid_scid s -> valid_scid s' ->
  bucket_at (Some (<[ToUint64 s' := bkt]> m)) s h =
  if decide (s' = s) then bkt !! h else bucket_at (Some m) s h.
Proof.
  intros Hs Hs'. unfold bucket_at, source_bucket in *. cbn [mbind option_bind].
  destruct (decide (s' = s)) as [->|Hne]; [by rewrite lookup_insert_eq|].
  rewrite lookup_insert_ne; [done|]. intros He. apply Hne. by apply ToUint64_inj.
Qed.

Lemma bucket_at_lookup (m : gmap Z (gmap Z height_bucket)) s h hb :
  bucket_at (Some m) s h = Some hb <-> exists bkt, m !! ToUint64 s = Some bkt /\ bkt !! h = Some hb.
Proof.
  unfold bucket_at, source_bucket in *. cbn [mbind option_bind].
  destruct (m !! ToUint64 s) as [bkt|]; cbn [mbind option_bind]; split.
  - intros Hb. by exists bkt.
  - by intros (b & [= <-] & Hb).
  - done.
  - by intros (b & [=] & _).
Qed.

(** Acknowledging in a source bucket that was found. *)
Lemma ack_adds_step refs bkt bkt' h hb adds sfs ff acked sfa :
  represents hb adds sfs ff acked sfa -> Forall (fun r => 0 <= AddRef_Index r) refs ->
  ack_heights ackAddHtlcsAtHeight bkt (map_to_list (heightDiffs refs)) = Ok bkt' ->
  bkt !! h = Some hb ->
  exists hb', bkt' !! h = Some hb' /\ represents hb' adds sfs ff
    (acked ++ (AddRef_Index <$> base.filter (fun r => AddRef_Height r = h) refs)) sfa.
Proof.
  intros Hrep Hpos Hack Hh.
  pose proof (ack_heights_ok _ _ _ ack_add_local (NoDup_fst_map_to_list _) _ _ h hb Hack Hh) as Hk.
  rewrite list_to_map_to_list, heightDiffs_lookup in Hk.
  destruct (AddRef_Index <$> _) as [|i idxs] eqn:Hidx; simpl in Hk.
  - exists hb. by rewrite app_nil_r.
  - destruct Hk as (hb' & Hu & Hb'). exists hb'. split; [done|].
    eapply ack_add_represents; [done| |done]. rewrite <- Hidx.
    apply Forall_fmap. by apply Forall_filter.
Qed.

Lemma ack_sfs_step dh idxs bkt bkt' h hb adds sfs ff acked sfa :
  represents hb adds sfs ff acked sfa -> Forall (fun i => 0 <= i) idxs ->
  ack_heights ackSettleFailsAtHeight bkt (map_to_list dh) = Ok bkt' ->
  bkt !! h = Some hb -> dh !! h = nonempty idxs ->
  exists hb', bkt' !! h = Some hb' /\ represents hb' adds sfs ff acked (sfa ++ idxs).
Proof.
  intros Hrep Hpos Hack Hh Hdh.
  pose proof (ack_heights_ok _ _ _ ack_sf_local (NoDup_fst_map_to_list _) _ _ h hb Hack Hh) as Hk.
  rewrite list_to_map_to_list, Hdh in Hk.
  destruct idxs as [|i idxs]; simpl in Hk.
  - exists hb. by rewrite app_nil_r.
  - destruct Hk as (hb' & Hu & Hb'). exists hb'. split; [done|]. by eapply ack_sf_represents.
Qed.

Lemma ack_settle_fails_step m m' refs s h hb adds sfs ff acked sfa :
  valid_scid s -> Forall (fun r => valid_scid (SF_Source r) /\ 0 <= SF_Index r) refs ->
  bucket_at (Some m) s h = Some hb -> represents hb adds sfs ff acked sfa ->
  ack_dests m (map_to_list (destHeightDiffs refs)) = Ok m' ->
  exists hb', bucket_at (Some m') s h = Some hb' /\
    represents hb' adds sfs ff acked (sfa ++ settle_fails_acked s h (OpAckSettleFails refs)).
Proof.
  intros Hs Hrefs (bkt & Hm & Hh)%bucket_at_lookup Hrep Hack.
  apply Forall_and in Hrefs as [Hval Hpos]. cbn [settle_fails_acked].
  set (idxs := SF_Index <$> _).
  assert (Forall (fun i => 0 <= i) idxs) as Hidx
    by (apply Forall_fmap; by apply Forall_filter).
  pose proof (destHeightDiffs_lookup refs s h) as Hdh. fold idxs in Hdh.
  assert (Forall valid_scid (map_to_list (destHeightDiffs refs)).*1) as Hvd.
  { apply Forall_fmap, Forall_forall. intros [d x] Hin. apply elem_of_map_to_list in Hin.
    by apply (destHeightDiffs_valid refs). }
  pose proof (ack_dests_ok _ (NoDup_fst_map_to_list _) Hvd m m' s bkt Hs Hack Hm) as Hd.
  rewrite list_to_map_to_list in Hd.
  destruct (destHeightDiffs refs !! s) as [dh|]; cbn [default from_option id] in Hdh.
  - destruct Hd as (bkt' & Hb' & Hm').
    destruct (ack_sfs_step dh idxs _ _ h hb _ _ _ _ _ Hrep Hidx Hb' Hh Hdh) as (hb' & Hhb' & Hr').
    exists hb'. split; [|done]. apply bucket_at_lookup. by exists bkt'.
  - rewrite lookup_empty in Hdh. destruct idxs; [|done]. exists hb. rewrite app_nil_r.
    split; [|done]. apply bucket_at_lookup. by exists bkt.
Qed.

Lemma get_or_corrupted_ok {A} (o : option A) a : get_or_corrupted o = Ok a -> o = Some a.
Proof. destruct o; simpl; congruence. Qed.

Lemma set_fwd_step m s s' h h' f tx' hb adds sfs ff acked sfa :
  valid_scid s -> valid_scid s' -> wf_filter f ->
  bucket_at (Some m) s h = Some hb -> represents hb adds sfs ff acked sfa ->
  SetFwdFilter s' (Some m) h' f = Ok tx' ->
  exists hb', bucket_at tx' s h = Some hb' /\
    represents hb' adds sfs (fwd_after s h ff (OpSetFwd s' h' f)) acked sfa.
Proof.
  unfold source_bucket in *.
  intros Hs Hs' Hf Hb Hrep. unfold SetFwdFilter, source_bucket. cbn [get_or_corrupted]. rsimpl.
  intros (bkt & Hbkt%get_or_corrupted_ok & (hk & Hhk%get_or_corrupted_ok & Hset)%bind_ok)%bind_ok.
  destruct (decide (s' = s /\ h' = h)) as [[-> ->]|Hne].
  - apply bucket_at_lookup in Hb as (bkt' & Hbkt' & Hh).
    rewrite Hbkt in Hbkt'. injection Hbkt' as <-. rewrite Hhk in Hh. injection Hh as ->.
    destruct Hrep as [Ha Hsf Hk Hsk [Hff Hwf]]. rewrite Hff in Hset. unfold fwd_after.
    destruct ff as [g|]; cbn [fmap option_fmap option_map] in Hset; injection Hset as <-.
    + exists hb. split; [apply bucket_at_lookup; by exists bkt|]. by split.
    + rewrite bool_decide_eq_true_2 by done. eexists. split.
      * rewrite bucket_at_insert by done. rewrite decide_True by done. apply lookup_insert_eq.
      * by split.
  - assert (fwd_after s h ff (OpSetFwd s' h' f) = ff) as ->.
    { unfold fwd_after. destruct ff; [done|]. by rewrite bool_decide_eq_false_2. }
    exists hb. split; [|done]. destruct (fwdFilterKey hk); injection Hset as <-; [done|].
    rewrite bucket_at_insert by done. destruct (decide (s' = s)) as [->|]; [|done].
    rewrite lookup_insert_ne by tauto. apply bucket_at_lookup in Hb as (b2 & Hb2 & Hh).
    congruence.
Qed.

(** Adding another package leaves this one alone. *)
Lemma add_other_step m s h pkg tx' hb :
  valid_scid s -> valid_scid (Source pkg) -> ~ (Source pkg = s /\ Height pkg = h) ->
  bucket_at (Some m) s h = Some hb -> AddFwdPkg (Some m) pkg = Ok tx' ->
  bucket_at tx' s h = Some hb.
Proof.
  unfold source_bucket in *.
  intros Hs Hp Hne Hb. unfold AddFwdPkg, source_bucket. cbn [default from_option id].
  intros (adds & _ & (fs & _ & [= <-])%bind_ok)%bind_ok.
  rewrite bucket_at_insert by done. destruct (decide (Source pkg = s)) as [He|]; [|done].
  rewrite lookup_insert_ne by tauto.
  apply bucket_at_lookup in Hb as (bkt & Hbkt & Hh). rewrite He, Hbkt. done.
Qed.

Lemma remove_other_step m s s' h h' tx' hb :
  valid_scid s -> valid_scid s' -> ~ (s' = s /\ h' = h) ->
  bucket_at (Some m) s h = Some hb -> RemovePkg s' (Some m) h' = Ok tx' ->
  bucket_at tx' s h = Some hb.
Proof.
  unfold source_bucket in *.
  intros Hs Hp Hne Hb. unfold RemovePkg, source_bucket.
  intros (bkt & Hbkt%get_or_corrupted_ok & Hrm)%bind_ok.
  destruct (bkt !! h'); [|done]. injection Hrm as <-.
  rewrite bucket_at_insert by done. destruct (decide (s' = s)) as [He|]; [|done]. subst s'.
  rewrite lookup_delete_ne by tauto.
  apply bucket_at_lookup in Hb as (b2 & Hb2 & Hh). congruence.
Qed.

Lemma wipe_other_step m s s' h tx' hb :
  valid_scid s -> valid_scid s' -> s' <> s ->
  bucket_at (Some m) s h = Some hb -> Wipe s' (Some m) = Ok tx' -> bucket_at tx' s h = Some hb.
Proof.
  unfold fwd_store, source_bucket in *. intros Hs Hs' Hne Hb Hw.
  unfold Wipe, fwd_store, source_bucket in Hw.
  destruct (m !! ToUint64 s') eqn:Hm; injection Hw as <-; [|done].
  apply bucket_at_lookup in Hb as (bkt & Hbkt & Hh). apply bucket_at_lookup. exists bkt.
  split; [|done]. unfold source_bucket in *. rewrite lookup_delete_ne; [done|].
  intros He. apply Hne. by apply ToUint64_inj.
Qed.

Lemma op_step tx tx' op s h hb adds sfs ff acked sfa :
  valid_scid s -> wf_op op -> keeps s h op = true ->
  bucket_at tx s h = Some hb -> represents hb adds sfs ff acked sfa ->
  apply_op tx op = Ok tx' ->
  exists hb', bucket_at tx' s h = Some hb' /\
    represents hb' adds sfs (fwd_after s h ff op) (acked ++ adds_acked s h op)
      (sfa ++ settle_fails_acked s h op).
Proof.
  unfold source_bucket in *.
  intros Hs Hwf Hkeep Hb Hrep Hop. destruct tx as [m|]; [|done].
  destruct op as [pkg|s' h' f|s' refs|refs|s' h'|s']; simpl in Hwf, Hkeep, Hop;
    cbn [adds_acked settle_fails_acked]; rewrite ?app_nil_r;
    try (apply negb_true_iff, bool_decide_eq_false in Hkeep).
  - exists hb. split; [by eapply add_other_step|]. by destruct ff.
  - destruct Hwf. by eapply (set_fwd_step m).
  - assert (fwd_after s h ff (OpAckAdds s' refs) = ff) as -> by by destruct ff.
    destruct Hwf as [Hs' Hpos]. unfold AckAddHtlcs in Hop. destruct refs as [|r refs].
    { injection Hop as <-. exists hb. by destruct (bool_decide _); rewrite app_nil_r. }
    apply bind_ok in Hop as (m' & [= <-] & (bkt & Hbkt%get_or_corrupted_ok & Hop)%bind_ok).
    apply bind_ok in Hop as (bkt' & Hack & [= <-]).
    rewrite bucket_at_insert by done. destruct (decide (s' = s)) as [->|Hne].
    + rewrite bool_decide_eq_true_2 by done.
      apply bucket_at_lookup in Hb as (b2 & Hb2 & Hh). unfold source_bucket in *.
      rewrite Hbkt in Hb2. injection Hb2 as <-. by eapply ack_adds_step.
    + rewrite bool_decide_eq_false_2 by done. rewrite app_nil_r. by exists hb.
  - assert (fwd_after s h ff (OpAckSettleFails refs) = ff) as -> by by destruct ff.
    unfold ackSettleFails in Hop. destruct refs as [|r refs].
    { injection Hop as <-. exists hb. by rewrite app_nil_r. }
    apply bind_ok in Hop as (m0 & [= <-] & (m' & Hack & [= <-])%bind_ok).
    by eapply ack_settle_fails_step.
  - exists hb. split; [by eapply remove_other_step|]. by destruct ff.
  - exists hb. split; [by eapply wipe_other_step|]. by destruct ff.
Qed.

(** *** Whole histories *)

Lemma run_ops_step ops : forall tx tx' s h hb adds sfs ff acked sfa,
  valid_scid s -> Forall wf_op ops -> forallb (keeps s h) ops = true ->
  bucket_at tx s h = Some hb -> represents hb adds sfs ff acked sfa ->
  run_ops tx ops = Ok tx' ->
  exists hb', bucket_at tx' s h = Some hb' /\
    represents hb' adds sfs (foldl (fwd_after s h) ff ops) (acked ++ (ops ≫= adds_acked s h))
      (sfa ++ (ops ≫= settle_fails_acked s h)).
Proof.
  induction ops as [|op ops IH]; intros tx tx' s h hb adds sfs ff acked sfa Hs Hwf Hkeep Hb Hrep Hrun.
  { injection Hrun as <-. exists hb. simpl. by rewrite !app_nil_r. }
  apply Forall_cons in Hwf as [Hop Hwf]. simpl in Hkeep. apply andb_true_iff in Hkeep as [Hk Hkeep].
  apply bind_ok in Hrun as (tx1 & H1 & Hrun).
  destruct (op_step tx tx1 op s h hb _ _ _ _ _ Hs Hop Hk Hb Hrep H1) as (hb1 & Hb1 & Hrep1).
  destruct (IH tx1 tx' s h hb1 _ _ _ _ _ Hs Hwf Hkeep Hb1 Hrep1 Hrun) as (hb' & Hb' & Hrep').
  exists hb'. split; [done|]. cbn [foldl mbind list_bind]. by rewrite !app_assoc.
Qed.

Lemma stores_filter_new (us : list LogUpdate) :
  Z.of_nat (length us) <= 65528 ->
  stores_filter (length us) [] (Some (Encode (NewPkgFilter (u16 (Z.of_nat (length us)))))).
Proof.
  intros Hlen. eexists. split; [done|]. unfold u16. rewrite Z.mod_small by lia.
  split; [apply NewPkgFilter_wf; lia|]. split; [done|].
  intros i Hi. by rewrite mem_NewPkgFilter.
Qed.

Lemma add_represents tx tx' s h adds sfs :
  valid_scid s -> Z.of_nat (length adds) <= 65528 -> Z.of_nat (length sfs) <= 65528 ->
  bucket_at tx s h = None -> AddFwdPkg tx (NewFwdPkg s h adds sfs) = Ok tx' ->
  exists hb, bucket_at tx' s h = Some hb /\ represents hb adds sfs None [] [].
Proof.
  intros Hs Ha Hf Hnone. unfold AddFwdPkg. cbn [Source Height Adds SettleFails NewFwdPkg].
  assert (default empty_height (default ∅ (default ∅ tx !! ToUint64 s) !! h) = empty_height) as ->.
  { unfold bucket_at, fwd_store, source_bucket in *. destruct tx as [m|]; cbn [default from_option id mbind option_bind] in *;
      [destruct (m !! ToUint64 s) as [b|]; cbn [default from_option id mbind option_bind] in *|].
    - by rewrite Hnone.
    - by rewrite lookup_empty.
    - done. }
  cbn [addBkt failSettleBkt empty_height default from_option id fwdFilterKey].
  intros (abkt & Hab & (fbkt & Hfb & [= <-])%bind_ok)%bind_ok. eexists. split.
  - rewrite bucket_at_insert by done. rewrite decide_True by done. apply lookup_insert_eq.
  - split; cbn [addBkt failSettleBkt ackFilterKey settleFailFilterKey fwdFilterKey];
      [by apply putLogUpdates_stores|by apply putLogUpdates_stores|by apply stores_filter_new|by apply stores_filter_new|done].
Qed.

End Lifecycle.

(** C38. The life of a forwarding package.  A package is written for channel [s] at
    height [h], where none was, and then any operations on the store succeed that do
    not rewrite or remove it: other channels' packages come and go, forwarding
    decisions are recorded, adds and settles/fails are acknowledged in any order and
    any number of times.  Loading it then returns the same updates, the first
    forwarding decision recorded (an empty one if none was), ack filters that hold
    exactly the indexes acknowledged for this package, and the state the interface
    promises: locked in until a decision is recorded, completed once every add and
    every settle/fail is acknowledged, processed in between. *)
Theorem fwdpkg_lifecycle `{LogUpdateCodec} (s : ShortChannelID) (h : Z)
    (adds sfs : list LogUpdate) (tx0 tx : fwd_store) (ops : list fwd_op) :
  valid_scid s -> Z.of_nat (length adds) <= 65528 -> Z.of_nat (length sfs) <= 65528 ->
  bucket_at tx0 s h = None ->
  Forall wf_op ops -> forallb (keeps s h) ops = true ->
  run_ops tx0 (OpAdd (NewFwdPkg s h adds sfs) :: ops) = Ok tx ->
  let acked := ops ≫= adds_acked s h in
  let sf_acked := ops ≫= settle_fails_acked s h in
  let decision := foldl (fwd_after s h) None ops in
  exists m pkg, tx = Some m /\ loadFwdPkg m s h = Ok pkg /\
    Adds pkg = adds /\ SettleFails pkg = sfs /\
    FwdFilter pkg = default (NewPkgFilter (u16 (Z.of_nat (length adds)))) decision /\
    (forall i, 0 <= i < Z.of_nat (length adds) ->
       mem (AckFilter pkg) i = bool_decide (i ∈ acked)) /\
    (forall i, 0 <= i < Z.of_nat (length sfs) ->
       mem (SettleFailFilter pkg) i = bool_decide (i ∈ sf_acked)) /\
    State pkg = state_of adds sfs decision acked sf_acked.
Proof.
  intros Hs Ha Hf Hnone Hwf Hkeep Hrun acked sfa decision.
  apply bind_ok in Hrun as (tx1 & Hadd & Hrun).
  destruct (add_represents tx0 tx1 s h adds sfs Hs Ha Hf Hnone Hadd) as (hb1 & Hb1 & Hrep1).
  destruct (run_ops_step ops tx1 tx s h hb1 _ _ _ _ _ Hs Hwf Hkeep Hb1 Hrep1 Hrun)
    as (hb & Hb & Hrep).
  destruct tx as [m|]; [|done].
  destruct (loadFwdPkg_represents m s h hb adds sfs _ _ _ Hb Hrep)
    as (pkg & Hload & _ & _ & Ha' & Hf' & Hst & Hff & Hack & Hsf).
  exists m, pkg. by split_and!.
Qed.

(** Log updates as opaque bytes. *)
#[refine] Instance bytes_codec : LogUpdateCodec := {
  LogUpdate := list byte;
  serializeLogUpdate u := Ok u;
  deserializeLogUpdate b := Ok b;
}.
Proof. by intros u b [= ->]. Defined.

Definition scid1 : ShortChannelID := {| BlockHeight := 1; TxIndex := 2; TxPosition := 3 |}.
Definition scid2 : ShortChannelID := {| BlockHeight := 9; TxIndex := 2; TxPosition := 3 |}.

Definition example_adds : list (@LogUpdate bytes_codec) := [[x01]; [x02]].
Definition example_settles : list (@LogUpdate bytes_codec) := [[x03]].

(** Two adds and one settle; a decision, an acknowledgement from another channel's
    link, another package, then both adds. *)
Definition example_ops : list fwd_op :=
  [OpSetFwd scid1 7 (NewPkgFilter 2);
   OpAdd (NewFwdPkg scid2 7 [[x05]] []);
   OpAckAdds scid1 [{| AddRef_Height := 7; AddRef_Index := 1 |};
                    {| AddRef_Height := 6; AddRef_Index := 0 |}];
   OpAckSettleFails [{| SF_Source := scid1; SF_Height := 7; SF_Index := 0 |}];
   OpWipe scid2;
   OpAckAdds scid1 [{| AddRef_Height := 7; AddRef_Index := 0 |}]].

Lemma fwdpkg_lifecycle_witness :
  Forall wf_op example_ops /\ forallb (keeps scid1 7) example_ops = true /\
  exists tx m pkg, run_ops None (OpAdd (NewFwdPkg scid1 7 example_adds example_settles) :: example_ops) = Ok tx /\
    tx = Some m /\ loadFwdPkg m scid1 7 = Ok pkg /\ State pkg = FwdStateCompleted.
Proof.
  assert (Forall wf_op example_ops) as Hwf.
  { repeat constructor; unfold valid_scid; simpl; lia. }
  split; [exact Hwf|]. split; [reflexivity|].
  destruct (run_ops None (OpAdd (NewFwdPkg scid1 7 example_adds example_settles) :: example_ops))
    as [tx| |] eqn:Hrun; [|vm_compute in Hrun; discriminate..].
  destruct (fwdpkg_lifecycle scid1 7 example_adds example_settles None tx example_ops)
    as (m & pkg & Htx & Hload & _ & _ & _ & _ & _ & Hst);
    [unfold valid_scid; simpl; lia|simpl; lia|simpl; lia|reflexivity|exact Hwf|reflexivity|exact Hrun|].
  exists tx, m, pkg. split; [reflexivity|]. split; [exact Htx|]. split; [exact Hload|].
  rewrite Hst. reflexivity.
Defined.

(** The rounding of a filter's length wraps: for every count above 65528 the new
    filter has no bytes at all, so marking any index panics. *)
Theorem large_filter_panics (c i : Z) :
  65528 < c < 65536 -> 0 <= i -> filter (NewPkgFilter c) = [] /\ Set_ (NewPkgFilter c) i = Panic.
Proof.
  intros Hc Hi.
  assert (filter (NewPkgFilter c) = []) as Hnil.
  { unfold NewPkgFilter. cbn [filter].
    assert (u16 (c + 7) / 8 = 0) as ->; [|done].
    unfold u16. replace (c + 7) with ((c + 7 - 65536) + 1 * 2 ^ 16) by lia.
    rewrite Z_mod_plus_full, Z.mod_small by lia. apply Z.div_small. lia. }
  split; [done|]. unfold Set_, index. by rewrite Hnil.
Qed.

Lemma large_filter_panics_witness :
  65528 < 65529 < 65536 /\ Set_ (NewPkgFilter 65529) 3 = Panic.
Proof. split; [lia|]. apply (large_filter_panics 65529 3); lia. Defined.
