(* ===== verification/UpdateLog.v ===== *)
(** * Payment descriptors and update logs

    [lnwallet/channel.go], the log part: the descriptors of the updates both parties
    make to a channel, the two logs that hold them until they are committed on both
    commitment chains, and the compaction that garbage-collects them.

    Descriptors are shared by pointer: the log's list, its two indexes and the views
    built from it refer to the same objects, and evaluating a view writes the commit
    heights through these pointers.  [heap] holds every descriptor that was allocated
    and a pointer is its index.  An element of a log's [list.List] is identified with
    the pointer it carries, since every descriptor is pushed once. *)

From S2P Require Import Prelude Ids.

(** ** Descriptors *)

Inductive updateType := Add | Fail | MalformedFail | Settle | FeeUpdate.

#[export] Instance updateType_eq_dec : EqDecision updateType.
Proof. solve_decision. Defined.

Record PaymentDescriptor := {
  RHash : list byte;
  RPreimage : list byte;
  Timeout : Z;
  Amount : Z;
  LogIndex : Z;
  HtlcIndex : Z;
  ParentIndex : Z;
  SourceRef : option AddRef;
  DestRef : option SettleFailRef;
  OpenCircuitKey : option CircuitKey;
  ClosedCircuitKey : option CircuitKey;
  localOutputIndex : Z;
  remoteOutputIndex : Z;
  pd_sig : option (list byte);
  addCommitHeightRemote : Z;
  addCommitHeightLocal : Z;
  removeCommitHeightRemote : Z;
  removeCommitHeightLocal : Z;
  OnionBlob : list byte;
  ShaOnionBlob : list byte;
  FailReason : list byte;
  FailCode : Z;
  ourPkScript : list byte;
  ourWitnessScript : list byte;
  theirPkScript : list byte;
  theirWitnessScript : list byte;
  EntryType : updateType;
  isForwarded : bool;
}.

(** The zero value of the struct, on which Go's composite literals are built. *)
Definition emptyPD : PaymentDescriptor :=
  {| RHash := []; RPreimage := []; Timeout := 0; Amount := 0; LogIndex := 0;
     HtlcIndex := 0; ParentIndex := 0; SourceRef := None; DestRef := None;
     OpenCircuitKey := None; ClosedCircuitKey := None; localOutputIndex := 0;
     remoteOutputIndex := 0; pd_sig := None; addCommitHeightRemote := 0;
     addCommitHeightLocal := 0; removeCommitHeightRemote := 0;
     removeCommitHeightLocal := 0; OnionBlob := []; ShaOnionBlob := [];
     FailReason := []; FailCode := 0; ourPkScript := []; ourWitnessScript := [];
     theirPkScript := []; theirWitnessScript := []; EntryType := Add;
     isForwarded := false |}.

Definition eta_pd (x : PaymentDescriptor) : PaymentDescriptor :=
  {| RHash := RHash x; RPreimage := RPreimage x; Timeout := Timeout x;
     Amount := Amount x; LogIndex := LogIndex x; HtlcIndex := HtlcIndex x;
     ParentIndex := ParentIndex x; SourceRef := SourceRef x; DestRef := DestRef x;
     OpenCircuitKey := OpenCircuitKey x; ClosedCircuitKey := ClosedCircuitKey x;
     localOutputIndex := localOutputIndex x; remoteOutputIndex := remoteOutputIndex x;
     pd_sig := pd_sig x; addCommitHeightRemote := addCommitHeightRemote x;
     addCommitHeightLocal := addCommitHeightLocal x;
     removeCommitHeightRemote := removeCommitHeightRemote x;
     removeCommitHeightLocal := removeCommitHeightLocal x; OnionBlob := OnionBlob x;
     ShaOnionBlob := ShaOnionBlob x; FailReason := FailReason x; FailCode := FailCode x;
     ourPkScript := ourPkScript x; ourWitnessScript := ourWitnessScript x;
     theirPkScript := theirPkScript x; theirWitnessScript := theirWitnessScript x;
     EntryType := EntryType x; isForwarded := isForwarded x |}.

(** Assignment to a field of a descriptor: [pd <| f := v |>]. *)
Notation "x '<|' f ':=' v '|>'" := (ltac:(
  let t := eval cbv beta delta [eta_pd] in (eta_pd x) in
  let p := eval pattern (f x) in t in
  match p with
  | ?g _ =>
      let r := eval cbv beta in (g v) in
      let r := eval cbn [RHash RPreimage Timeout Amount LogIndex HtlcIndex ParentIndex
        SourceRef DestRef OpenCircuitKey ClosedCircuitKey localOutputIndex
        remoteOutputIndex pd_sig addCommitHeightRemote addCommitHeightLocal
        removeCommitHeightRemote removeCommitHeightLocal OnionBlob ShaOnionBlob
        FailReason FailCode ourPkScript ourWitnessScript theirPkScript
        theirWitnessScript EntryType isForwarded emptyPD] in r in
      exact r
  end))
  (at level 1, left associativity, f constr, v constr at level 99, only parsing).

(** The heights of a descriptor on the local or the remote commitment chain. *)
Definition addHeight (remoteChain : bool) (pd : PaymentDescriptor) : Z :=
  if remoteChain then addCommitHeightRemote pd else addCommitHeightLocal pd.

Definition removeHeight (remoteChain : bool) (pd : PaymentDescriptor) : Z :=
  if remoteChain then removeCommitHeightRemote pd else removeCommitHeightLocal pd.

Definition set_addHeight (remoteChain : bool) (h : Z) (pd : PaymentDescriptor)
    : PaymentDescriptor :=
  if remoteChain then pd <| addCommitHeightRemote := h |>
  else pd <| addCommitHeightLocal := h |>.

Definition set_removeHeight (remoteChain : bool) (h : Z) (pd : PaymentDescriptor)
    : PaymentDescriptor :=
  if remoteChain then pd <| removeCommitHeightRemote := h |>
  else pd <| removeCommitHeightLocal := h |>.

(** ** The heap of descriptors *)

Abbreviation ptr := nat (only parsing).
Abbreviation pd_heap := (list PaymentDescriptor) (only parsing).

(** [&PaymentDescriptor{...}]: allocation never fails. *)
Definition alloc (h : pd_heap) (pd : PaymentDescriptor) : pd_heap * ptr :=
  (h ++ [pd], length h).

(** The descriptors behind a list of pointers. *)
Definition deref (h : pd_heap) (ps : list ptr) : list PaymentDescriptor := omap (h !!.) ps.

(** ** Update logs *)

Record updateLog := {
  logIndex : Z;
  htlcCounter : Z;
  ul_list : list ptr;
  updateIndex : gmap Z ptr;
  htlcIndex : gmap Z ptr;
  modifiedHtlcs : gset Z;
}.

Definition newUpdateLog (logIndex_ htlcCounter_ : Z) : updateLog :=
  {| logIndex := logIndex_; htlcCounter := htlcCounter_; ul_list := [];
     updateIndex := ∅; htlcIndex := ∅; modifiedHtlcs := ∅ |}.

(** [list.List.Remove]: an element that is not on the list is left alone. *)
Definition list_remove (p : ptr) (l : list ptr) : list ptr := filter (fun q => q <> p) l.

Definition restoreHtlc (h : pd_heap) (u : updateLog) (p : ptr) : res updateLog :=
  pd ← index h p;
  match htlcIndex u !! HtlcIndex pd with
  | Some _ => Ok u
  | None =>
      Ok {| logIndex := logIndex u; htlcCounter := htlcCounter u;
            ul_list := ul_list u ++ [p]; updateIndex := updateIndex u;
            htlcIndex := <[HtlcIndex pd := p]> (htlcIndex u);
            modifiedHtlcs := modifiedHtlcs u |}
  end.

Definition appendUpdate (u : updateLog) (p : ptr) : updateLog :=
  {| logIndex := u64 (logIndex u + 1); htlcCounter := htlcCounter u;
     ul_list := ul_list u ++ [p]; updateIndex := <[logIndex u := p]> (updateIndex u);
     htlcIndex := htlcIndex u; modifiedHtlcs := modifiedHtlcs u |}.

Definition restoreUpdate (h : pd_heap) (u : updateLog) (p : ptr) : res updateLog :=
  pd ← index h p;
  Ok {| logIndex := logIndex u; htlcCounter := htlcCounter u;
        ul_list := ul_list u ++ [p];
        updateIndex := <[LogIndex pd := p]> (updateIndex u);
        htlcIndex := htlcIndex u; modifiedHtlcs := modifiedHtlcs u |}.

Definition appendHtlc (u : updateLog) (p : ptr) : updateLog :=
  {| logIndex := u64 (logIndex u + 1); htlcCounter := u64 (htlcCounter u + 1);
     ul_list := ul_list u ++ [p]; updateIndex := updateIndex u;
     htlcIndex := <[htlcCounter u := p]> (htlcIndex u);
     modifiedHtlcs := modifiedHtlcs u |}.

Definition lookupHtlc (u : updateLog) (i : Z) : option ptr := htlcIndex u !! i.

(** Removing the nil element of a missing index entry dereferences it. *)
Definition removeUpdate (u : updateLog) (i : Z) : res updateLog :=
  match updateIndex u !! i with
  | None => Panic
  | Some entry =>
      Ok {| logIndex := logIndex u; htlcCounter := htlcCounter u;
            ul_list := list_remove entry (ul_list u);
            updateIndex := delete i (updateIndex u);
            htlcIndex := htlcIndex u; modifiedHtlcs := modifiedHtlcs u |}
  end.

Definition removeHtlc (u : updateLog) (i : Z) : res updateLog :=
  match htlcIndex u !! i with
  | None => Panic
  | Some entry =>
      Ok {| logIndex := logIndex u; htlcCounter := htlcCounter u;
            ul_list := list_remove entry (ul_list u);
            updateIndex := updateIndex u;
            htlcIndex := delete i (htlcIndex u);
            modifiedHtlcs := modifiedHtlcs u ∖ {[ i ]} |}
  end.

Definition htlcHasModification (u : updateLog) (i : Z) : bool :=
  bool_decide (i ∈ modifiedHtlcs u).

Definition markHtlcModified (u : updateLog) (i : Z) : updateLog :=
  {| logIndex := logIndex u; htlcCounter := htlcCounter u; ul_list := ul_list u;
     updateIndex := updateIndex u; htlcIndex := htlcIndex u;
     modifiedHtlcs := {[ i ]} ∪ modifiedHtlcs u |}.

(** ** Compaction *)

(** The loop of [compactLog]; the next element is read before the current one may
    be removed, so the loop visits the elements that are on the list when it starts. *)
Fixpoint compact_entries (h : pd_heap) (es : list ptr) (logA logB : updateLog)
    (localChainTail remoteChainTail : Z) : res (updateLog * updateLog) :=
  match es with
  | [] => Ok (logA, logB)
  | e :: es' =>
      htlc ← index h e;
      if bool_decide (EntryType htlc = Add) then
        compact_entries h es' logA logB localChainTail remoteChainTail
      else if (removeCommitHeightRemote htlc =? 0) || (removeCommitHeightLocal htlc =? 0) then
        compact_entries h es' logA logB localChainTail remoteChainTail
      else if (removeCommitHeightRemote htlc <=? remoteChainTail)
              && (removeCommitHeightLocal htlc <=? localChainTail) then
        if bool_decide (EntryType htlc = FeeUpdate) then
          logA' ← removeUpdate logA (LogIndex htlc);
          compact_entries h es' logA' logB localChainTail remoteChainTail
        else
          logA' ← removeUpdate logA (LogIndex htlc);
          logB' ← removeHtlc logB (ParentIndex htlc);
          compact_entries h es' logA' logB' localChainTail remoteChainTail
      else compact_entries h es' logA logB localChainTail remoteChainTail
  end.

Definition compactLog (h : pd_heap) (logA logB : updateLog)
    (localChainTail remoteChainTail : Z) : res (updateLog * updateLog) :=
  compact_entries h (ul_list logA) logA logB localChainTail remoteChainTail.

Definition compactLogs (h : pd_heap) (ourLog theirLog : updateLog)
    (localChainTail remoteChainTail : Z) : res (updateLog * updateLog) :=
  '(ourLog1, theirLog1) ← compactLog h ourLog theirLog localChainTail remoteChainTail;
  '(theirLog2, ourLog2) ← compactLog h theirLog1 ourLog1 localChainTail remoteChainTail;
  Ok (ourLog2, theirLog2).
