(* ===== verification/Channel.v ===== *)
(** * The commitment state machine: logs, views and updates

    [lnwallet/channel.go]: a channel as one party sees it, with the two chains of
    commitments and the two update logs; the evaluation of the logs into the view a
    commitment is built from; the checks a view must pass; and the operations that
    add, settle, fail or re-price HTLCs.

    Operations on a channel return the channel afterwards together with a result,
    because some of them write before they fail.  The mutex and logging are left out.
    Transactions and signatures are carried by commitments but not built here. *)

From S2P Require Import Prelude Sha256 Ids Amounts UpdateLog.

(** ** Commitments *)

(** A transaction of package [wire], as far as commitments look into it. *)
Record TxOut := { Value : Z; TxOut_Version : Z; PkScript : list byte }.
Record TxIn := { PrevHash : list byte; PrevIndex : Z; Sequence : Z }.
Record MsgTx := { MsgTx_TxIn : list TxIn; MsgTx_TxOut : list TxOut; LockTime : Z }.

Record commitment := {
  height : Z;
  isOurs : bool;
  ourMessageIndex : Z;
  theirMessageIndex : Z;
  ourHtlcIndex : Z;
  theirHtlcIndex : Z;
  txn : MsgTx;
  sig : list byte;
  ourBalance : Z;
  theirBalance : Z;
  fee : Z;
  feePerKB : Z;
  dustLimit : Z;
  outgoingHTLCs : list PaymentDescriptor;
  incomingHTLCs : list PaymentDescriptor;
  outgoingHTLCIndex : gmap Z nat;
  incomingHTLCIndex : gmap Z nat;
}.

(** A chain, tail first. *)
Abbreviation commitmentChain := (list commitment) (only parsing).

Definition addCommitment (s : commitmentChain) (c : commitment) : commitmentChain := s ++ [c].

(** Removing the nil front of an empty list dereferences it. *)
Definition advanceTail (s : commitmentChain) : res commitmentChain :=
  match s with [] => Panic | _ :: s' => Ok s' end.

Definition tip (s : commitmentChain) : res commitment :=
  match last s with Some c => Ok c | None => Panic end.

Definition tail (s : commitmentChain) : res commitment :=
  match s with c :: _ => Ok c | [] => Panic end.

Definition hasUnackedCommitment (s : commitmentChain) : bool := (1 <? length s)%nat.

(** ** Channels *)

Record OpenChannel := {
  ChanType : ChannelType;
  FundingOutpoint : list byte * Z;
  Capacity : Z;
  ThawHeight : Z;
  IsInitiator : bool;
  LocalChanCfg : ChannelConstraints;
  RemoteChanCfg : ChannelConstraints;
  LocalMultiSigKey : list byte;
  RemoteMultiSigKey : list byte;
  TotalMAtomsSent : Z;
  TotalMAtomsReceived : Z;
}.

Record LightningChannel := {
  lc_heap : pd_heap;
  channelState : OpenChannel;
  localCommitChain : commitmentChain;
  remoteCommitChain : commitmentChain;
  localUpdateLog : updateLog;
  remoteUpdateLog : updateLog;
}.

Definition with_heap (lc : LightningChannel) (h : pd_heap) : LightningChannel :=
  {| lc_heap := h; channelState := channelState lc;
     localCommitChain := localCommitChain lc; remoteCommitChain := remoteCommitChain lc;
     localUpdateLog := localUpdateLog lc; remoteUpdateLog := remoteUpdateLog lc |}.

Definition with_logs (lc : LightningChannel) (l r : updateLog) : LightningChannel :=
  {| lc_heap := lc_heap lc; channelState := channelState lc;
     localCommitChain := localCommitChain lc; remoteCommitChain := remoteCommitChain lc;
     localUpdateLog := l; remoteUpdateLog := r |}.

Definition with_totals (lc : LightningChannel) (sent received : Z) : LightningChannel :=
  {| lc_heap := lc_heap lc;
     channelState :=
       {| ChanType := ChanType (channelState lc);
          FundingOutpoint := FundingOutpoint (channelState lc);
          Capacity := Capacity (channelState lc);
          ThawHeight := ThawHeight (channelState lc);
          IsInitiator := IsInitiator (channelState lc);
          LocalChanCfg := LocalChanCfg (channelState lc);
          RemoteChanCfg := RemoteChanCfg (channelState lc);
          LocalMultiSigKey := LocalMultiSigKey (channelState lc);
          RemoteMultiSigKey := RemoteMultiSigKey (channelState lc);
          TotalMAtomsSent := sent; TotalMAtomsReceived := received |};
     localCommitChain := localCommitChain lc; remoteCommitChain := remoteCommitChain lc;
     localUpdateLog := localUpdateLog lc; remoteUpdateLog := remoteUpdateLog lc |}.

Definition commitChain (lc : LightningChannel) (remoteChain : bool) : commitmentChain :=
  if remoteChain then remoteCommitChain lc else localCommitChain lc.

Definition chanCfg (lc : LightningChannel) (remoteChain : bool) : ChannelConstraints :=
  if remoteChain then RemoteChanCfg (channelState lc) else LocalChanCfg (channelState lc).

(** ** Views *)

Record htlcView := {
  ourUpdates : list ptr;
  theirUpdates : list ptr;
  view_feePerKB : Z;
}.

(** The pointers of a log whose descriptors are below a log index. *)
Definition is_below (h : pd_heap) (bound : Z) (p : ptr) : bool :=
  match h !! p with Some pd => LogIndex pd <? bound | None => false end.

Definition updates_below (h : pd_heap) (bound : Z) (ps : list ptr) : list ptr :=
  filter (is_below h bound) ps.

Definition fetchHTLCView (lc : LightningChannel) (theirLogIndex ourLogIndex : Z) : htlcView :=
  {| ourUpdates := updates_below (lc_heap lc) ourLogIndex (ul_list (localUpdateLog lc));
     theirUpdates := updates_below (lc_heap lc) theirLogIndex (ul_list (remoteUpdateLog lc));
     view_feePerKB := 0 |}.

Definition errNoParent : error := Error "unable to find parent entry in update log".
Definition errZeroRemoteAddHeight : error := Error "parent entry had zero remote add height".
Definition errZeroLocalAddHeight : error := Error "parent entry had zero local add height".

Definition fetchParent (lc : LightningChannel) (entry : PaymentDescriptor)
    (remoteChain remoteLog : bool) : res PaymentDescriptor :=
  let log := if remoteLog then remoteUpdateLog lc else localUpdateLog lc in
  match lookupHtlc log (ParentIndex entry) with
  | None => Err errNoParent
  | Some p =>
      addEntry ← index (lc_heap lc) p;
      if remoteChain && (addCommitHeightRemote addEntry =? 0) then Err errZeroRemoteAddHeight
      else if negb remoteChain && (addCommitHeightLocal addEntry =? 0)
      then Err errZeroLocalAddHeight
      else Ok addEntry
  end.

(** The three processors take the descriptor their pointer refers to and return what
    is written back, with the balances. *)
Definition processAddEntry (htlc : PaymentDescriptor) (our their nextHeight : Z)
    (remoteChain isIncoming mutateState : bool) : PaymentDescriptor * Z * Z :=
  if negb (addHeight remoteChain htlc =? 0) then (htlc, our, their)
  else
    let '(our', their') :=
      if isIncoming then (our, u64 (their - Amount htlc))
      else (u64 (our - Amount htlc), their) in
    (if mutateState then set_addHeight remoteChain nextHeight htlc else htlc, our', their').

Definition processRemoveEntry (htlc : PaymentDescriptor) (our their nextHeight : Z)
    (remoteChain isIncoming mutateState : bool) : PaymentDescriptor * Z * Z :=
  if negb (removeHeight remoteChain htlc =? 0) then (htlc, our, their)
  else
    let '(our', their') :=
      match isIncoming, EntryType htlc with
      | true, Settle => (u64 (our + Amount htlc), their)
      | true, (Fail | MalformedFail) => (our, u64 (their + Amount htlc))
      | false, Settle => (our, u64 (their + Amount htlc))
      | false, (Fail | MalformedFail) => (u64 (our + Amount htlc), their)
      | _, _ => (our, their)
      end in
    (if mutateState then set_removeHeight remoteChain nextHeight htlc else htlc, our', their').

Definition processFeeUpdate (feeUpdate : PaymentDescriptor) (nextHeight : Z)
    (remoteChain mutateState : bool) (viewFee : Z) : PaymentDescriptor * Z :=
  if negb (addHeight remoteChain feeUpdate =? 0) then (feeUpdate, viewFee)
  else
    (if mutateState
     then set_removeHeight remoteChain nextHeight (set_addHeight remoteChain nextHeight feeUpdate)
     else feeUpdate,
     ToAtoms (Amount feeUpdate)).

(** The variables [evaluateHTLCView] works on. *)
Record eval_state := {
  ev_lc : LightningChannel;
  ev_our : Z;
  ev_their : Z;
  ev_fee : Z;
}.

Definition ev_write (st : eval_state) (p : ptr) (pd : PaymentDescriptor) (our their viewFee : Z)
    : eval_state :=
  {| ev_lc := with_heap (ev_lc st) (<[p := pd]> (lc_heap (ev_lc st)));
     ev_our := our; ev_their := their; ev_fee := viewFee |}.

(** The accounting of settled amounts that precedes a removal. *)
Definition count_settle (lc : LightningChannel) (entry : PaymentDescriptor)
    (ours remoteChain mutateState : bool) : LightningChannel :=
  if mutateState && bool_decide (EntryType entry = Settle) && negb remoteChain
     && (removeCommitHeightLocal entry =? 0)
  then
    let cs := channelState lc in
    if ours
    then with_totals lc (TotalMAtomsSent cs) (u64 (TotalMAtomsReceived cs + Amount entry))
    else with_totals lc (u64 (TotalMAtomsSent cs + Amount entry)) (TotalMAtomsReceived cs)
  else lc.

(** One iteration of the first pass over a log: fee updates and removals.  [ours]
    tells whose log it is; our removals take HTLCs off the remote log and theirs off
    the local log, and [skip] collects the HTLC indexes they remove. *)
Definition eval_removal (ours remoteChain mutateState : bool) (nextHeight : Z) (p : ptr)
    (st : eval_state) (skip : gset Z) : eval_state * res (gset Z) :=
  match index (lc_heap (ev_lc st)) p with
  | Ok entry =>
      match EntryType entry with
      | Add => (st, Ok skip)
      | FeeUpdate =>
          let '(entry', viewFee) :=
            processFeeUpdate entry nextHeight remoteChain mutateState (ev_fee st) in
          (ev_write st p entry' (ev_our st) (ev_their st) viewFee, Ok skip)
      | _ =>
          let lc1 := count_settle (ev_lc st) entry ours remoteChain mutateState in
          let st1 := {| ev_lc := lc1; ev_our := ev_our st; ev_their := ev_their st;
                        ev_fee := ev_fee st |} in
          match fetchParent lc1 entry remoteChain ours with
          | Ok addEntry =>
              let '(entry', our', their') :=
                processRemoveEntry entry (ev_our st1) (ev_their st1) nextHeight
                  remoteChain ours mutateState in
              (ev_write st1 p entry' our' their' (ev_fee st1),
               Ok ({[ HtlcIndex addEntry ]} ∪ skip))
          | Err e => (st1, Err e)
          | Panic => (st1, Panic)
          end
      end
  | Err e => (st, Err e)
  | Panic => (st, Panic)
  end.

Fixpoint eval_removals (ours remoteChain mutateState : bool) (nextHeight : Z)
    (ps : list ptr) (st : eval_state) (skip : gset Z) : eval_state * res (gset Z) :=
  match ps with
  | [] => (st, Ok skip)
  | p :: ps' =>
      match eval_removal ours remoteChain mutateState nextHeight p st skip with
      | (st', Ok skip') => eval_removals ours remoteChain mutateState nextHeight ps' st' skip'
      | (st', Err e) => (st', Err e)
      | (st', Panic) => (st', Panic)
      end
  end.

(** The second pass over one log: the additions that are not skipped. *)
Fixpoint eval_adds (isIncoming remoteChain mutateState : bool) (nextHeight : Z)
    (skip : gset Z) (ps : list ptr) (st : eval_state) : eval_state * res (list ptr) :=
  match ps with
  | [] => (st, Ok [])
  | p :: ps' =>
      match index (lc_heap (ev_lc st)) p with
      | Ok entry =>
          if bool_decide (EntryType entry <> Add) || bool_decide (HtlcIndex entry ∈ skip)
          then eval_adds isIncoming remoteChain mutateState nextHeight skip ps' st
          else
            let '(entry', our', their') :=
              processAddEntry entry (ev_our st) (ev_their st) nextHeight
                remoteChain isIncoming mutateState in
            let '(st', r) := eval_adds isIncoming remoteChain mutateState nextHeight skip ps'
                (ev_write st p entry' our' their' (ev_fee st)) in
            (st', rest ← r; Ok (p :: rest))
      | Err e => (st, Err e)
      | Panic => (st, Panic)
      end
  end.

Definition evaluateHTLCView (lc : LightningChannel) (view : htlcView) (our their : Z)
    (nextHeight : Z) (remoteChain mutateState : bool) : eval_state * res htlcView :=
  let st0 := {| ev_lc := lc; ev_our := our; ev_their := their;
                ev_fee := view_feePerKB view |} in
  match eval_removals true remoteChain mutateState nextHeight (ourUpdates view) st0 ∅ with
  | (st1, Ok skipThem) =>
      match eval_removals false remoteChain mutateState nextHeight (theirUpdates view) st1 ∅ with
      | (st2, Ok skipUs) =>
          match eval_adds false remoteChain mutateState nextHeight skipUs
                  (ourUpdates view) st2 with
          | (st3, Ok us) =>
              let '(st4, r) := eval_adds true remoteChain mutateState nextHeight skipThem
                                 (theirUpdates view) st3 in
              (st4, them ← r;
                    Ok {| ourUpdates := us; theirUpdates := them;
                          view_feePerKB := ev_fee st4 |})
          | (st3, Err e) => (st3, Err e)
          | (st3, Panic) => (st3, Panic)
          end
      | (st2, Err e) => (st2, Err e)
      | (st2, Panic) => (st2, Panic)
      end
  | (st1, Err e) => (st1, Err e)
  | (st1, Panic) => (st1, Panic)
  end.

(** The loop over the HTLCs of one direction: each that is not dust adds an output. *)
Definition htlc_size (lc : LightningChannel) (h : pd_heap) (incoming remoteChain : bool)
    (rate dust : Z) (ps : list ptr) (total0 : Z) : Z :=
  foldl (fun total htlc =>
           if HtlcIsDust (ChanType (channelState lc)) incoming (negb remoteChain) rate
                (ToAtoms (Amount htlc)) dust
           then total else i64 (total + HTLCOutputSize)) total0 (deref h ps).

Definition computeView (lc : LightningChannel) (view : htlcView)
    (remoteChain updateState : bool) : LightningChannel * res (Z * Z * Z * htlcView) :=
  let dust := DustLimit (chanCfg lc remoteChain) in
  match tip (commitChain lc remoteChain) with
  | Ok c =>
      let feeBack := NewMAtomsFromAtoms (fee c) in
      let our := if IsInitiator (channelState lc) then u64 (ourBalance c + feeBack)
                 else ourBalance c in
      let their := if IsInitiator (channelState lc) then theirBalance c
                   else u64 (theirBalance c + feeBack) in
      let nextHeight := u64 (height c + 1) in
      let view1 := {| ourUpdates := ourUpdates view; theirUpdates := theirUpdates view;
                      view_feePerKB := feePerKB c |} in
      let '(st, r) := evaluateHTLCView lc view1 our their nextHeight remoteChain updateState in
      (ev_lc st,
       filtered ← r;
       let rate := view_feePerKB filtered in
       let h := lc_heap (ev_lc st) in
       let totalHtlcSize :=
         htlc_size lc h true remoteChain rate dust (theirUpdates filtered)
           (htlc_size lc h false remoteChain rate dust (ourUpdates filtered) 0) in
       Ok (ev_our st, ev_their st,
           i64 (CommitSize (ChanType (channelState lc)) + totalHtlcSize), filtered))
  | Err e => (lc, Err e)
  | Panic => (lc, Panic)
  end.

(** ** Constraints *)

Definition disableFeeFloorCheck : bool := false.

Definition ErrMaxHTLCNumber : error := Error "ErrMaxHTLCNumber".
Definition ErrMaxPendingAmount : error := Error "ErrMaxPendingAmount".
Definition ErrBelowChanReserve : error := Error "ErrBelowChanReserve".
Definition ErrBelowMinHTLC : error := Error "ErrBelowMinHTLC".
Definition ErrInvalidHTLCAmt : error := Error "ErrInvalidHTLCAmt".
Definition errBelowFeeFloor : error := Error "commitment fee per kb below fee floor".

(** The loop of [validateUpdates]: the amount and the number of HTLCs in flight. *)
Fixpoint count_in_flight (updates : list PaymentDescriptor) (minHTLC amtInFlight numInFlight : Z)
    : res (Z * Z) :=
  match updates with
  | [] => Ok (amtInFlight, numInFlight)
  | entry :: updates' =>
      if bool_decide (EntryType entry = Add) then
        let amt := u64 (amtInFlight + Amount entry) in
        let num := u16 (numInFlight + 1) in
        if Amount entry =? 0 then Err ErrInvalidHTLCAmt
        else if Amount entry <? minHTLC then Err ErrBelowMinHTLC
        else count_in_flight updates' minHTLC amt num
      else count_in_flight updates' minHTLC amtInFlight numInFlight
  end.

Definition validateUpdates (updates : list PaymentDescriptor) (constraints : ChannelConstraints)
    : res unit :=
  '(amtInFlight, numInFlight) ← count_in_flight updates (MinHTLC constraints) 0 0;
  if amtInFlight >? MaxPendingAmount constraints then Err ErrMaxPendingAmount
  else if numInFlight >? MaxAcceptedHtlcs constraints then Err ErrMaxHTLCNumber
  else Ok tt.

Definition validateCommitmentSanity (lc : LightningChannel) (theirLogCounter ourLogCounter : Z)
    (remoteChain : bool) (predictOurAdd predictTheirAdd : option ptr)
    : LightningChannel * res unit :=
  let v := fetchHTLCView lc theirLogCounter ourLogCounter in
  let view := {| ourUpdates := ourUpdates v ++ option_list predictOurAdd;
                 theirUpdates := theirUpdates v ++ option_list predictTheirAdd;
                 view_feePerKB := view_feePerKB v |} in
  match tip (commitChain lc remoteChain) with
  | Ok c =>
      let '(lc', r) := computeView lc view remoteChain false in
      (lc',
       '(our0, their0, commitSize, filtered) ← r;
       let rate := view_feePerKB filtered in
       let commitFeeMAtoms := NewMAtomsFromAtoms (FeeForSize rate commitSize) in
       let initiator := IsInitiator (channelState lc') in
       let our := if initiator then u64 (our0 - commitFeeMAtoms) else our0 in
       let their := if initiator then their0 else u64 (their0 - commitFeeMAtoms) in
       if i64 our <? 0 then Err ErrBelowChanReserve
       else if i64 their <? 0 then Err ErrBelowChanReserve
       else if (rate <? FeePerKBFloor) && negb disableFeeFloorCheck then Err errBelowFeeFloor
       else if (our <? ourBalance c)
               && (our <? NewMAtomsFromAtoms (ChanReserve (LocalChanCfg (channelState lc'))))
       then Err ErrBelowChanReserve
       else if (their <? theirBalance c)
               && (their <? NewMAtomsFromAtoms (ChanReserve (RemoteChanCfg (channelState lc'))))
       then Err ErrBelowChanReserve
       else
         _ ← validateUpdates (deref (lc_heap lc') (theirUpdates filtered))
               (RemoteChanCfg (channelState lc'));
         validateUpdates (deref (lc_heap lc') (ourUpdates filtered))
           (LocalChanCfg (channelState lc')))
  | Err e => (lc, Err e)
  | Panic => (lc, Panic)
  end.

(** ** Adding HTLCs *)

(** The message [update_add_htlc] of package [lnwire], without the channel it names. *)
Record UpdateAddHTLC := {
  Add_ID : Z;
  Add_Amount : Z;
  Add_PaymentHash : list byte;
  Add_Expiry : Z;
  Add_OnionBlob : list byte;
}.

Definition htlcAddDescriptor (lc : LightningChannel) (htlc : UpdateAddHTLC)
    (openKey : option CircuitKey) : PaymentDescriptor :=
  emptyPD <| EntryType := Add |>
          <| RHash := Add_PaymentHash htlc |>
          <| Timeout := Add_Expiry htlc |>
          <| Amount := Add_Amount htlc |>
          <| LogIndex := logIndex (localUpdateLog lc) |>
          <| HtlcIndex := htlcCounter (localUpdateLog lc) |>
          <| OnionBlob := Add_OnionBlob htlc |>
          <| OpenCircuitKey := openKey |>.

(** [pd] is the pointer of the descriptor to add. *)
Definition validateAddHtlc (lc : LightningChannel) (pd : ptr) : LightningChannel * res unit :=
  match tail (localCommitChain lc) with
  | Ok c =>
      let remoteACKedIndex := theirMessageIndex c in
      match validateCommitmentSanity lc remoteACKedIndex (logIndex (localUpdateLog lc))
              true (Some pd) None with
      | (lc1, Ok _) =>
          validateCommitmentSanity lc1 (logIndex (remoteUpdateLog lc1))
            (logIndex (localUpdateLog lc1)) false (Some pd) None
      | (lc1, Err e) => (lc1, Err e)
      | (lc1, Panic) => (lc1, Panic)
      end
  | Err e => (lc, Err e)
  | Panic => (lc, Panic)
  end.

(** When the addition is rejected nothing refers to its descriptor any more, and the
    channel keeps the heap it had. *)
Definition AddHTLC (lc : LightningChannel) (htlc : UpdateAddHTLC) (openKey : option CircuitKey)
    : LightningChannel * res Z :=
  let pd := htlcAddDescriptor lc htlc openKey in
  let '(h, p) := alloc (lc_heap lc) pd in
  match validateAddHtlc (with_heap lc h) p with
  | (lc1, Ok _) =>
      (with_logs lc1 (appendHtlc (localUpdateLog lc1) p) (remoteUpdateLog lc1),
       Ok (HtlcIndex pd))
  | (lc1, Err e) => (with_heap lc1 (lc_heap lc), Err e)
  | (lc1, Panic) => (with_heap lc1 (lc_heap lc), Panic)
  end.

Definition MayAddOutgoingHtlc (lc : LightningChannel) (amt : Z) : LightningChannel * res unit :=
  let mockHtlcAmt :=
    if negb (amt =? 0) then amt
    else if negb (MinHTLC (LocalChanCfg (channelState lc)) =? 0)
    then MinHTLC (LocalChanCfg (channelState lc)) else 1 in
  let mock := {| Add_ID := 0; Add_Amount := mockHtlcAmt;
                 Add_PaymentHash := replicate 32 x00; Add_Expiry := 0;
                 Add_OnionBlob := replicate 1366 x00 |} in
  let pd := htlcAddDescriptor lc mock
              (Some {| ChanID := hop_Source; HtlcID := 0 |}) in
  let '(h, p) := alloc (lc_heap lc) pd in
  let '(lc1, r) := validateAddHtlc (with_heap lc h) p in
  (with_heap lc1 (lc_heap lc), r).

Definition errUnexpectedHtlcID : error := Error "ID on HTLC add does not match expected next ID".

Definition ReceiveHTLC (lc : LightningChannel) (htlc : UpdateAddHTLC)
    : LightningChannel * res Z :=
  if negb (Add_ID htlc =? htlcCounter (remoteUpdateLog lc)) then (lc, Err errUnexpectedHtlcID)
  else
    let pd :=
      emptyPD <| EntryType := Add |>
              <| RHash := Add_PaymentHash htlc |>
              <| Timeout := Add_Expiry htlc |>
              <| Amount := Add_Amount htlc |>
              <| LogIndex := logIndex (remoteUpdateLog lc) |>
              <| HtlcIndex := htlcCounter (remoteUpdateLog lc) |>
              <| OnionBlob := Add_OnionBlob htlc |> in
    let '(h, p) := alloc (lc_heap lc) pd in
    match tail (remoteCommitChain lc) with
    | Ok c =>
        let localACKedIndex := ourMessageIndex c in
        match validateCommitmentSanity (with_heap lc h) (logIndex (remoteUpdateLog lc))
                localACKedIndex false None (Some p) with
        | (lc1, Ok _) =>
            (with_logs lc1 (localUpdateLog lc1) (appendHtlc (remoteUpdateLog lc1) p),
             Ok (HtlcIndex pd))
        | (lc1, Err e) => (with_heap lc1 (lc_heap lc), Err e)
        | (lc1, Panic) => (with_heap lc1 (lc_heap lc), Panic)
        end
    | Err e => (lc, Err e)
    | Panic => (lc, Panic)
    end.

(** ** Removing HTLCs *)

Definition ErrUnknownHtlcIndex : error := Error "ErrUnknownHtlcIndex".
Definition ErrHtlcIndexAlreadySettled : error := Error "ErrHtlcIndexAlreadySettled".
Definition ErrHtlcIndexAlreadyFailed : error := Error "ErrHtlcIndexAlreadyFailed".
Definition ErrInvalidSettlePreimage : error := Error "ErrInvalidSettlePreimage".

(** Our removals go to the local log and mark the HTLC of the remote log, and the
    other way round. *)
Definition append_local_removal (lc : LightningChannel) (pd : PaymentDescriptor)
    (htlcIndex : Z) : LightningChannel :=
  let '(h, p) := alloc (lc_heap lc) pd in
  with_logs (with_heap lc h) (appendUpdate (localUpdateLog lc) p)
    (markHtlcModified (remoteUpdateLog lc) htlcIndex).

Definition append_remote_removal (lc : LightningChannel) (pd : PaymentDescriptor)
    (htlcIndex : Z) : LightningChannel :=
  let '(h, p) := alloc (lc_heap lc) pd in
  with_logs (with_heap lc h) (markHtlcModified (localUpdateLog lc) htlcIndex)
    (appendUpdate (remoteUpdateLog lc) p).

(** The lookups the four removals start with: the HTLC exists and was not removed. *)
Definition removable (lc : LightningChannel) (log : updateLog) (htlcIndex : Z)
    (already : error) : res PaymentDescriptor :=
  match lookupHtlc log htlcIndex with
  | None => Err ErrUnknownHtlcIndex
  | Some q =>
      htlc ← index (lc_heap lc) q;
      if htlcHasModification log htlcIndex then Err already else Ok htlc
  end.

Section Settling.
Context `{Hasher}.

Definition SettleHTLC (lc : LightningChannel) (preimage : list byte) (htlcIndex : Z)
    (sourceRef : option AddRef) (destRef : option SettleFailRef)
    (closeKey : option CircuitKey) : res LightningChannel :=
  htlc ← removable lc (remoteUpdateLog lc) htlcIndex ErrHtlcIndexAlreadySettled;
  if negb (bool_decide (RHash htlc = digest preimage)) then Err ErrInvalidSettlePreimage
  else
    let pd :=
      emptyPD <| Amount := Amount htlc |>
              <| RPreimage := preimage |>
              <| LogIndex := logIndex (localUpdateLog lc) |>
              <| ParentIndex := htlcIndex |>
              <| EntryType := Settle |>
              <| SourceRef := sourceRef |>
              <| DestRef := destRef |>
              <| ClosedCircuitKey := closeKey |> in
    Ok (append_local_removal lc pd htlcIndex).

Definition ReceiveHTLCSettle (lc : LightningChannel) (preimage : list byte) (htlcIndex : Z)
    : res LightningChannel :=
  htlc ← removable lc (localUpdateLog lc) htlcIndex ErrHtlcIndexAlreadySettled;
  if negb (bool_decide (RHash htlc = digest preimage)) then Err ErrInvalidSettlePreimage
  else
    let pd :=
      emptyPD <| Amount := Amount htlc |>
              <| RPreimage := preimage |>
              <| ParentIndex := HtlcIndex htlc |>
              <| RHash := RHash htlc |>
              <| LogIndex := logIndex (remoteUpdateLog lc) |>
              <| EntryType := Settle |> in
    Ok (append_remote_removal lc pd htlcIndex).

End Settling.

Definition FailHTLC (lc : LightningChannel) (htlcIndex : Z) (reason : list byte)
    (sourceRef : option AddRef) (destRef : option SettleFailRef)
    (closeKey : option CircuitKey) : res LightningChannel :=
  htlc ← removable lc (remoteUpdateLog lc) htlcIndex ErrHtlcIndexAlreadyFailed;
  let pd :=
    emptyPD <| Amount := Amount htlc |>
            <| RHash := RHash htlc |>
            <| ParentIndex := htlcIndex |>
            <| LogIndex := logIndex (localUpdateLog lc) |>
            <| EntryType := Fail |>
            <| FailReason := reason |>
            <| SourceRef := sourceRef |>
            <| DestRef := destRef |>
            <| ClosedCircuitKey := closeKey |> in
  Ok (append_local_removal lc pd htlcIndex).

Definition MalformedFailHTLC (lc : LightningChannel) (htlcIndex failCode : Z)
    (shaOnionBlob : list byte) (sourceRef : option AddRef) : res LightningChannel :=
  htlc ← removable lc (remoteUpdateLog lc) htlcIndex ErrHtlcIndexAlreadyFailed;
  let pd :=
    emptyPD <| Amount := Amount htlc |>
            <| RHash := RHash htlc |>
            <| ParentIndex := htlcIndex |>
            <| LogIndex := logIndex (localUpdateLog lc) |>
            <| EntryType := MalformedFail |>
            <| FailCode := failCode |>
            <| ShaOnionBlob := shaOnionBlob |>
            <| SourceRef := sourceRef |> in
  Ok (append_local_removal lc pd htlcIndex).

Definition ReceiveFailHTLC (lc : LightningChannel) (htlcIndex : Z) (reason : list byte)
    : res LightningChannel :=
  htlc ← removable lc (localUpdateLog lc) htlcIndex ErrHtlcIndexAlreadyFailed;
  let pd :=
    emptyPD <| Amount := Amount htlc |>
            <| RHash := RHash htlc |>
            <| ParentIndex := HtlcIndex htlc |>
            <| LogIndex := logIndex (remoteUpdateLog lc) |>
            <| EntryType := Fail |>
            <| FailReason := reason |> in
  Ok (append_remote_removal lc pd htlcIndex).

(** ** Fees *)

Definition availableCommitmentBalance (lc : LightningChannel) (view : htlcView)
    (remoteChain : bool) : LightningChannel * (Z * Z) :=
  match computeView lc view remoteChain false with
  | (lc1, Ok (our0, their0, commitSize, filtered)) =>
      let cs := channelState lc1 in
      let ourReserve := NewMAtomsFromAtoms (ChanReserve (LocalChanCfg cs)) in
      let our := if ourReserve <=? our0 then u64 (our0 - ourReserve) else 0 in
      let rate := view_feePerKB filtered in
      let htlcCommitFee :=
        NewMAtomsFromAtoms (FeeForSize rate (i64 (commitSize + HTLCOutputSize))) in
      if IsInitiator cs then
        (lc1, if our <? htlcCommitFee then (0, commitSize)
              else (u64 (our - htlcCommitFee), commitSize))
      else
        let theirReserve := NewMAtomsFromAtoms (ChanReserve (RemoteChanCfg cs)) in
        let their := if theirReserve <=? their0 then u64 (their0 - theirReserve) else 0 in
        let dust := NewMAtomsFromAtoms (DustLimit (chanCfg lc1 remoteChain)) in
        let htlcFee :=
          NewMAtomsFromAtoms (if remoteChain then HtlcSuccessFee (ChanType cs) rate
                              else HtlcTimeoutFee (ChanType cs) rate) in
        let nonDustHtlcAmt := u64 (dust + htlcFee) in
        (lc1, if (their <? htlcCommitFee) && (nonDustHtlcAmt <=? our)
              then (u64 (nonDustHtlcAmt - 1), commitSize) else (our, commitSize))
  | (lc1, _) => (lc1, (0, 0))
  end.

Definition availableBalance (lc : LightningChannel) : LightningChannel * res (Z * Z) :=
  match tip (localCommitChain lc) with
  | Ok c =>
      let view := fetchHTLCView lc (theirMessageIndex c) (logIndex (localUpdateLog lc)) in
      let '(lc1, (ourLocalCommitBalance, commitSize)) :=
        availableCommitmentBalance lc view false in
      let '(lc2, (ourRemoteCommitBalance, _)) := availableCommitmentBalance lc1 view true in
      (lc2, Ok (if ourRemoteCommitBalance <? ourLocalCommitBalance
                then (ourRemoteCommitBalance, commitSize)
                else (ourLocalCommitBalance, commitSize)))
  | Err e => (lc, Err e)
  | Panic => (lc, Panic)
  end.

Definition errFeeTooHigh : error := Error "cannot apply fee_update: new fee greater than balance".
Definition errFeeNonInitiator : error := Error "local fee update as non-initiator".
Definition errFeeAsInitiator : error := Error "received fee update as initiator".

Definition validateFeeRate (lc : LightningChannel) (feePerKB_ : Z)
    : LightningChannel * res unit :=
  let '(lc1, r) := availableBalance lc in
  (lc1,
   '(balance, txSize) ← r;
   c ← tip (localCommitChain lc1);
   let oldFee := NewMAtomsFromAtoms (FeeForSize (feePerKB c) txSize) in
   let baseBalance := u64 (balance + oldFee) in
   let newFee := NewMAtomsFromAtoms (FeeForSize feePerKB_ txSize) in
   if newFee >? baseBalance then Err errFeeTooHigh else Ok tt).

Definition fee_update_pd (log : updateLog) (feePerKB_ : Z) : PaymentDescriptor :=
  emptyPD <| LogIndex := logIndex log |>
          <| Amount := NewMAtomsFromAtoms feePerKB_ |>
          <| EntryType := FeeUpdate |>.

Definition UpdateFee (lc : LightningChannel) (feePerKB_ : Z) : LightningChannel * res unit :=
  if negb (IsInitiator (channelState lc)) then (lc, Err errFeeNonInitiator)
  else
    match validateFeeRate lc feePerKB_ with
    | (lc1, Ok _) =>
        let '(h, p) := alloc (lc_heap lc1) (fee_update_pd (localUpdateLog lc1) feePerKB_) in
        (with_logs (with_heap lc1 h) (appendUpdate (localUpdateLog lc1) p)
           (remoteUpdateLog lc1), Ok tt)
    | (lc1, Err e) => (lc1, Err e)
    | (lc1, Panic) => (lc1, Panic)
    end.

Definition ReceiveUpdateFee (lc : LightningChannel) (feePerKB_ : Z)
    : LightningChannel * res unit :=
  if IsInitiator (channelState lc) then (lc, Err errFeeAsInitiator)
  else
    let '(h, p) := alloc (lc_heap lc) (fee_update_pd (remoteUpdateLog lc) feePerKB_) in
    (with_logs (with_heap lc h) (localUpdateLog lc) (appendUpdate (remoteUpdateLog lc) p), Ok tt).

(** ** Owed commitments *)

Definition oweCommitment (lc : LightningChannel) (local : bool) : res bool :=
  lastLocalCommit ← tip (localCommitChain lc);
  lastRemoteCommit ← tip (remoteCommitChain lc);
  if local then
    let localUpdatesPending :=
      negb (logIndex (localUpdateLog lc) =? ourMessageIndex lastRemoteCommit) in
    let remoteUpdatesPending :=
      negb (theirMessageIndex lastLocalCommit =? theirMessageIndex lastRemoteCommit) in
    Ok (localUpdatesPending || remoteUpdatesPending)
  else
    let localUpdatesPending :=
      negb (logIndex (remoteUpdateLog lc) =? theirMessageIndex lastLocalCommit) in
    let remoteUpdatesPending :=
      negb (ourMessageIndex lastRemoteCommit =? ourMessageIndex lastLocalCommit) in
    Ok (localUpdatesPending || remoteUpdatesPending).

Definition PendingLocalUpdateCount (lc : LightningChannel) : res Z :=
  lastRemoteCommit ← tip (remoteCommitChain lc);
  Ok (u64 (logIndex (localUpdateLog lc) - ourMessageIndex lastRemoteCommit)).
