(* ===== verification/ChannelEval.v ===== *)
(** * The commitment state machine: what evaluating the logs computes

    For well-formed logs ([logs_wf]) and a view that contains everything the chain has
    committed, a mutating evaluation leaves exactly the HTLCs in flight on the chain
    ([active]) in the filtered view, keeps the logs well-formed, and conserves the sum
    of both balances and the amounts in flight modulo 2^64 ([evaluate_mutates]); a dry
    evaluation computes the same balances and view and changes nothing
    ([evaluate_dry]). *)

From Stdlib Require Import Lia.
From S2P Require Import Prelude Sha256 Ids Amounts UpdateLog Channel.

(** ** Filters *)

Lemma filter_ext_in {A} (P Q : A -> Prop) `{!forall x, Decision (P x)} `{!forall x, Decision (Q x)}
    (l : list A) : (forall x, x ∈ l -> P x <-> Q x) -> filter P l = filter Q l.
Proof.
  induction l as [|x l IH]; intros Hpq; [done|]. rewrite !filter_cons.
  assert (P x <-> Q x) as Hx by (apply Hpq; set_solver).
  rewrite IH by (intros; apply Hpq; set_solver).
  destruct (decide (P x)), (decide (Q x)); tauto.
Qed.

(** Congruence of 64-bit sums. *)
Definition cong (a b : Z) : Prop := a mod 2 ^ 64 = b mod 2 ^ 64.

Lemma cong_u64 a : cong (u64 a) a.
Proof. unfold cong, u64. by rewrite Zmod_mod. Qed.

Lemma cong_eq a b : a = b -> cong a b.
Proof. by intros ->. Qed.

Lemma cong_alt a b : cong a b <-> exists k, a = b + k * 2 ^ 64.
Proof.
  unfold cong. split.
  - intros E. exists (a / 2 ^ 64 - b / 2 ^ 64).
    pose proof (Z.div_mod a (2 ^ 64) ltac:(lia)). pose proof (Z.div_mod b (2 ^ 64) ltac:(lia)).
    lia.
  - intros [k ->]. apply Z_mod_plus_full.
Qed.

#[export] Instance cong_equiv : Equivalence cong.
Proof. split; unfold cong; [done|by intros ???|]. intros a b c -> ->. done. Qed.

#[export] Instance cong_add : Proper (cong ==> cong ==> cong) Z.add.
Proof. intros a b H c d H'. unfold cong in *. by rewrite Zplus_mod, H, H', <- Zplus_mod. Qed.

#[export] Instance cong_sub : Proper (cong ==> cong ==> cong) Z.sub.
Proof. intros a b H c d H'. unfold cong in *. by rewrite Zminus_mod, H, H', <- Zminus_mod. Qed.

(** ** Descriptors *)

Definition is_removal (t : updateType) : bool :=
  match t with Fail | MalformedFail | Settle => true | _ => false end.

(** What a write of commit heights leaves alone. *)
Record same_update (a b : PaymentDescriptor) : Prop := {
  su_type : EntryType a = EntryType b;
  su_amount : Amount a = Amount b;
  su_log : LogIndex a = LogIndex b;
  su_htlc : HtlcIndex a = HtlcIndex b;
  su_parent : ParentIndex a = ParentIndex b;
  su_hash : RHash a = RHash b;
}.

#[export] Instance same_update_equiv : Equivalence same_update.
Proof.
  split.
  - done.
  - intros a b []. split; congruence.
  - intros a b c [] []. split; congruence.
Qed.

Lemma same_set_addHeight rc h pd : same_update (set_addHeight rc h pd) pd.
Proof. by destruct rc. Qed.

Lemma same_set_removeHeight rc h pd : same_update (set_removeHeight rc h pd) pd.
Proof. by destruct rc. Qed.

Lemma addHeight_set rc h pd rc' :
  addHeight rc' (set_addHeight rc h pd) = if eqb rc rc' then h else addHeight rc' pd.
Proof. by destruct rc, rc'. Qed.

Lemma addHeight_set_remove rc h pd rc' :
  addHeight rc' (set_removeHeight rc h pd) = addHeight rc' pd.
Proof. by destruct rc, rc'. Qed.

Lemma removeHeight_set rc h pd rc' :
  removeHeight rc' (set_removeHeight rc h pd) = if eqb rc rc' then h else removeHeight rc' pd.
Proof. by destruct rc, rc'. Qed.

Lemma removeHeight_set_add rc h pd rc' :
  removeHeight rc' (set_addHeight rc h pd) = removeHeight rc' pd.
Proof. by destruct rc, rc'. Qed.

(** The descriptor after the first and after the second pass of an evaluation. *)
Definition removal_write (rc : bool) (nh : Z) (pd : PaymentDescriptor) : PaymentDescriptor :=
  match EntryType pd with
  | Add => pd
  | FeeUpdate =>
      if addHeight rc pd =? 0 then set_removeHeight rc nh (set_addHeight rc nh pd) else pd
  | _ => if removeHeight rc pd =? 0 then set_removeHeight rc nh pd else pd
  end.

Definition add_write (rc : bool) (nh : Z) (pd : PaymentDescriptor) : PaymentDescriptor :=
  if addHeight rc pd =? 0 then set_addHeight rc nh pd else pd.

Lemma same_removal_write rc nh pd : same_update (removal_write rc nh pd) pd.
Proof.
  unfold removal_write. destruct (EntryType pd) eqn:E; try case_match; try done;
    first [apply same_set_removeHeight | idtac].
  etrans; [apply same_set_removeHeight|apply same_set_addHeight].
Qed.

Lemma same_add_write rc nh pd : same_update (add_write rc nh pd) pd.
Proof. unfold add_write. case_match; [apply same_set_addHeight|done]. Qed.

(** Writing through a list of pointers. *)
Definition write_all (f : PaymentDescriptor -> PaymentDescriptor) (ps : list ptr) (h : pd_heap)
    : pd_heap := foldl (fun h p => alter f p h) h ps.

Lemma write_all_notin f ps h q : q ∉ ps -> write_all f ps h !! q = h !! q.
Proof.
  revert h. induction ps as [|p ps IH]; intros h Hq; [done|]. simpl.
  rewrite IH by set_solver. apply list_lookup_alter_ne. set_solver.
Qed.

Lemma write_all_in f ps h q :
  NoDup ps -> q ∈ ps -> write_all f ps h !! q = f <$> h !! q.
Proof.
  revert h. induction ps as [|p ps IH]; intros h Hnd Hq; [set_solver|]. simpl.
  apply NoDup_cons in Hnd as [Hp Hnd]. apply elem_of_cons in Hq as [->|Hq].
  - rewrite write_all_notin by done. apply list_lookup_alter_eq.
  - rewrite IH by done. f_equal. apply list_lookup_alter_ne. set_solver.
Qed.

Lemma length_write_all f ps h : length (write_all f ps h) = length h.
Proof.
  revert h. induction ps as [|p ps IH]; intros h; [done|]. simpl.
  by rewrite IH, length_alter.
Qed.

Lemma insert_alter (h : pd_heap) p pd f :
  h !! p = Some pd -> <[p := f pd]> h = alter f p h.
Proof.
  intros Hp. apply list_eq. intros i. destruct (decide (i = p)) as [->|].
  - rewrite list_lookup_alter_eq, Hp. simpl. apply list_lookup_insert_eq.
    by eapply lookup_lt_Some.
  - rewrite list_lookup_insert_ne, list_lookup_alter_ne by done. done.
Qed.

Lemma alter_same (h : pd_heap) p pd f : h !! p = Some pd -> f pd = pd -> alter f p h = h.
Proof.
  intros Hp Hf. rewrite <- (insert_alter h p pd) by done. rewrite Hf.
  by apply list_insert_id.
Qed.

(** ** What an evaluation leaves alone *)

(** Only descriptors and the totals of settled amounts are written. *)
Record frame (lc lc' : LightningChannel) : Prop := {
  fr_local : localUpdateLog lc' = localUpdateLog lc;
  fr_remote : remoteUpdateLog lc' = remoteUpdateLog lc;
  fr_lchain : localCommitChain lc' = localCommitChain lc;
  fr_rchain : remoteCommitChain lc' = remoteCommitChain lc;
  fr_funding : FundingOutpoint (channelState lc') = FundingOutpoint (channelState lc);
  fr_capacity : Capacity (channelState lc') = Capacity (channelState lc);
  fr_thaw : ThawHeight (channelState lc') = ThawHeight (channelState lc);
  fr_lkey : LocalMultiSigKey (channelState lc') = LocalMultiSigKey (channelState lc);
  fr_rkey : RemoteMultiSigKey (channelState lc') = RemoteMultiSigKey (channelState lc);
  fr_type : ChanType (channelState lc') = ChanType (channelState lc);
  fr_init : IsInitiator (channelState lc') = IsInitiator (channelState lc);
  fr_lcfg : LocalChanCfg (channelState lc') = LocalChanCfg (channelState lc);
  fr_rcfg : RemoteChanCfg (channelState lc') = RemoteChanCfg (channelState lc);
}.

#[export] Instance frame_preorder : PreOrder frame.
Proof. split; [done|]. intros a b c [] []. split; congruence. Qed.

Lemma frame_count_settle lc e ours rc m : frame lc (count_settle lc e ours rc m).
Proof. unfold count_settle. by repeat case_match. Qed.

Lemma heap_count_settle lc e ours rc m : lc_heap (count_settle lc e ours rc m) = lc_heap lc.
Proof. unfold count_settle. by repeat case_match. Qed.

Definition log_of (lc : LightningChannel) (remoteLog : bool) : updateLog :=
  if remoteLog then remoteUpdateLog lc else localUpdateLog lc.

Lemma log_of_frame lc lc' b : frame lc lc' -> log_of lc' b = log_of lc b.
Proof. intros []. unfold log_of. by case_match. Qed.

(** The HTLC index of a log refers to additions with that index. *)
Definition adds_indexed (h : pd_heap) (u : updateLog) : Prop :=
  forall i q, htlcIndex u !! i = Some q ->
  exists qd, h !! q = Some qd /\ EntryType qd = Add /\ HtlcIndex qd = i.

Lemma adds_indexed_write h u p pd pd' :
  adds_indexed h u -> h !! p = Some pd -> same_update pd' pd ->
  adds_indexed (<[p := pd']> h) u.
Proof.
  intros Hai Hp Hs i q Hq. destruct (Hai i q Hq) as (qd & Hqd & Ht & Hi).
  destruct (decide (q = p)) as [->|Hne].
  - exists pd'. rewrite list_lookup_insert_eq by (by eapply lookup_lt_Some).
    assert (qd = pd) as -> by congruence. destruct Hs. split; [done|]. split; congruence.
  - exists qd. by rewrite list_lookup_insert_ne.
Qed.

(** What an entry contributes to the amount in flight on a chain. *)
Definition contrib (rc : bool) (pd : PaymentDescriptor) : Z :=
  match EntryType pd with
  | Add => if addHeight rc pd =? 0 then 0 else Amount pd
  | FeeUpdate => 0
  | _ => if removeHeight rc pd =? 0 then 0 else - Amount pd
  end.

Definition contrib_at (rc : bool) (h : pd_heap) (p : ptr) : Z :=
  match h !! p with Some pd => contrib rc pd | None => 0 end.

Definition csum (rc : bool) (h : pd_heap) (ps : list ptr) : Z := zsum (contrib_at rc h) ps.

Lemma csum_notin rc h p pd ps : p ∉ ps -> csum rc (<[p := pd]> h) ps = csum rc h ps.
Proof.
  intros Hp. apply zsum_ext. intros q Hq. unfold contrib_at.
  rewrite list_lookup_insert_ne; [done|]. set_solver.
Qed.

Lemma contrib_insert rc h p pd pd' :
  h !! p = Some pd' -> contrib_at rc (<[p := pd]> h) p = contrib rc pd.
Proof.
  intros Hp. unfold contrib_at.
  rewrite list_lookup_insert_eq by (by eapply lookup_lt_Some). done.
Qed.

(** ** The first pass *)

(** The parent a removal of log [log_of lc (negb ours)] refers to. *)
Definition parent_committed (lc : LightningChannel) (ours rc : bool) (pd : PaymentDescriptor) : Prop :=
  exists q qd, htlcIndex (log_of lc ours) !! ParentIndex pd = Some q /\
    lc_heap lc !! q = Some qd /\ addHeight rc qd <> 0.

Lemma fetchParent_ok lc entry rc ours qd :
  fetchParent lc entry rc ours = Ok qd <->
  exists q, htlcIndex (log_of lc ours) !! ParentIndex entry = Some q /\
    lc_heap lc !! q = Some qd /\ addHeight rc qd <> 0.
Proof.
  unfold fetchParent, lookupHtlc, log_of, index, addHeight.
  destruct (htlcIndex _ !! ParentIndex entry) as [q|]; [|by split; [|intros (?&?&?)]].
  destruct (lc_heap lc !! q) as [qd'|] eqn:Hq;
    [|by split; [|intros (?&?&?&?); simplify_eq]].
  simpl. destruct rc; simpl; case_match eqn:Hz; rewrite ?Z.eqb_eq, ?Z.eqb_neq in Hz;
    (split; [intros [= ->]; eauto|]; intros (?&?&?&?); simplify_eq/=; congruence).
Qed.

Lemma processRemoveEntry_cong rc ours nh pd our their pd' our' their' :
  is_removal (EntryType pd) = true -> nh <> 0 ->
  processRemoveEntry pd our their nh rc ours true = (pd', our', their') ->
  pd' = removal_write rc nh pd /\
  cong (our' + their' + contrib rc pd') (our + their + contrib rc pd).
Proof.
  unfold processRemoveEntry, removal_write, contrib. intros Hr Hnh.
  destruct (Z.eqb_spec (removeHeight rc pd) 0) as [Hz|Hz]; simpl.
  - intros E.
    assert (pd' = set_removeHeight rc nh pd) as -> by (by repeat case_match; simplify_eq).
    split; [by destruct (EntryType pd)|].
    destruct (same_set_removeHeight rc nh pd) as [-> -> _ _ _ _].
    rewrite removeHeight_set, eqb_reflx, (proj2 (Z.eqb_neq nh 0)) by done.
    destruct (EntryType pd), ours; simplify_eq/=; rewrite !cong_u64; apply cong_eq; lia.
  - intros [= <- <- <-]. split; [by destruct (EntryType pd)|]. by rewrite (proj2 (Z.eqb_neq _ 0) Hz).
Qed.

Lemma processFeeUpdate_write rc nh pd viewFee pd' viewFee' :
  EntryType pd = FeeUpdate ->
  processFeeUpdate pd nh rc true viewFee = (pd', viewFee') ->
  pd' = removal_write rc nh pd /\ contrib rc pd' = contrib rc pd.
Proof.
  unfold processFeeUpdate, removal_write. intros Ht.
  destruct (Z.eqb_spec (addHeight rc pd) 0) as [Hz|Hz]; simpl; intros [= <- <-]; rewrite Ht.
  - split; [done|]. unfold contrib.
    assert (EntryType (set_removeHeight rc nh (set_addHeight rc nh pd)) = FeeUpdate) as ->.
    { rewrite <- Ht. etrans; [apply same_set_removeHeight|apply same_set_addHeight]. }
    by rewrite Ht.
  - done.
Qed.

(** One write of the first pass, seen from the pointers still to come. *)
Lemma csum_write rc h p pd pd' ps :
  p ∉ ps -> h !! p = Some pd ->
  csum rc (<[p := pd']> h) (p :: ps) = contrib rc pd' + csum rc h ps.
Proof.
  intros Hp Hpd. unfold csum. simpl. rewrite (contrib_insert _ _ _ _ pd) by done.
  f_equal. by apply csum_notin.
Qed.

Record removals_done (ours rc : bool) (nh : Z) (ps : list ptr) (st : eval_state)
    (skip : gset Z) (st' : eval_state) (skip' : gset Z) : Prop := {
  rd_frame : frame (ev_lc st) (ev_lc st');
  rd_heap : lc_heap (ev_lc st') = write_all (removal_write rc nh) ps (lc_heap (ev_lc st));
  rd_parents : forall p pd, p ∈ ps -> lc_heap (ev_lc st) !! p = Some pd ->
    is_removal (EntryType pd) = true -> parent_committed (ev_lc st) ours rc pd;
  rd_skip : forall i, i ∈ skip' <-> i ∈ skip \/
    exists p pd, p ∈ ps /\ lc_heap (ev_lc st) !! p = Some pd /\
      is_removal (EntryType pd) = true /\ ParentIndex pd = i;
  rd_balance : cong (ev_our st' + ev_their st' + csum rc (lc_heap (ev_lc st')) ps)
                    (ev_our st + ev_their st + csum rc (lc_heap (ev_lc st)) ps);
}.

Lemma ev_lc_write st p pd our their viewFee :
  frame (ev_lc st) (ev_lc (ev_write st p pd our their viewFee)).
Proof. done. Qed.

(** One processed entry followed by a finished rest. *)
Lemma removals_done_cons ours rc nh p pd ps st skip st1 skip1 st' skip' :
  p ∉ ps -> lc_heap (ev_lc st) !! p = Some pd ->
  adds_indexed (lc_heap (ev_lc st)) (log_of (ev_lc st) ours) ->
  frame (ev_lc st) (ev_lc st1) ->
  lc_heap (ev_lc st1) = <[p := removal_write rc nh pd]> (lc_heap (ev_lc st)) ->
  (is_removal (EntryType pd) = true -> parent_committed (ev_lc st) ours rc pd) ->
  (forall i, i ∈ skip1 <-> i ∈ skip \/ (is_removal (EntryType pd) = true /\ ParentIndex pd = i)) ->
  cong (ev_our st1 + ev_their st1 + contrib rc (removal_write rc nh pd))
       (ev_our st + ev_their st + contrib rc pd) ->
  removals_done ours rc nh ps st1 skip1 st' skip' ->
  removals_done ours rc nh (p :: ps) st skip st' skip'.
Proof.
  intros Hp Hpd Hai Hfr Hh Hpar Hsk Hbal [Ifr Ih Ipar Isk Ibal].
  assert (forall q, q ∈ ps -> lc_heap (ev_lc st1) !! q = lc_heap (ev_lc st) !! q) as Hsame.
  { intros q Hq. rewrite Hh, list_lookup_insert_ne; [done|]. by intros ->. }
  split.
  - by etrans.
  - rewrite Ih, Hh. simpl. by rewrite (insert_alter _ p pd).
  - intros q qd Hq Hqd Hr. apply elem_of_cons in Hq as [->|Hq].
    + assert (qd = pd) as -> by congruence. by apply Hpar.
    + destruct (Ipar q qd Hq) as (r & rd & Hi & Hrd & Ha); [by rewrite Hsame|done|].
      assert (log_of (ev_lc st1) ours = log_of (ev_lc st) ours) as Hl
        by (destruct Hfr; unfold log_of; by case_match).
      rewrite Hl in Hi. destruct (Hai _ _ Hi) as (rd0 & Hrd0 & Ht0 & _).
      exists r, rd0. split; [done|]. split; [done|].
      rewrite Hh in Hrd. destruct (decide (r = p)) as [->|Hne].
      * rewrite list_lookup_insert_eq in Hrd by (by eapply lookup_lt_Some).
        simplify_eq. unfold removal_write in Ha. by rewrite Ht0 in Ha.
      * rewrite list_lookup_insert_ne in Hrd by done. congruence.
  - intros i. rewrite Isk, Hsk. split.
    + intros [[?|[??]]|(q & qd & Hq & Hqd & ?)]; [by left| |].
      * right. exists p, pd. set_solver.
      * right. exists q, qd. rewrite Hsame in Hqd by done. set_solver.
    + intros [?|(q & qd & Hq & Hqd & Hr & ?)]; [by left; left|].
      apply elem_of_cons in Hq as [->|Hq].
      * left. right. assert (qd = pd) as -> by congruence. done.
      * right. exists q, qd. by rewrite Hsame.
  - assert (lc_heap (ev_lc st') !! p = Some (removal_write rc nh pd)) as Hp'.
    { rewrite Ih, write_all_notin, Hh by done.
      by apply list_lookup_insert_eq; eapply lookup_lt_Some. }
    unfold csum in *. simpl.
    assert (contrib_at rc (lc_heap (ev_lc st')) p = contrib rc (removal_write rc nh pd)) as ->
      by (unfold contrib_at; by rewrite Hp').
    assert (contrib_at rc (lc_heap (ev_lc st)) p = contrib rc pd) as ->
      by (unfold contrib_at; by rewrite Hpd).
    assert (zsum (contrib_at rc (lc_heap (ev_lc st1))) ps
            = zsum (contrib_at rc (lc_heap (ev_lc st))) ps) as Hz.
    { apply zsum_ext. intros q Hq. unfold contrib_at. by rewrite Hsame. }
    rewrite Hz in Ibal. apply cong_alt in Ibal as [k Ibal], Hbal as [k' Hbal].
    apply cong_alt. exists (k + k'). lia.
Qed.

(** What one iteration of the first pass does. *)
Lemma eval_removal_mutates ours rc nh p st skip st1 skip1 :
  nh <> 0 -> adds_indexed (lc_heap (ev_lc st)) (log_of (ev_lc st) ours) ->
  eval_removal ours rc true nh p st skip = (st1, Ok skip1) ->
  exists pd, lc_heap (ev_lc st) !! p = Some pd /\
    frame (ev_lc st) (ev_lc st1) /\
    lc_heap (ev_lc st1) = <[p := removal_write rc nh pd]> (lc_heap (ev_lc st)) /\
    (is_removal (EntryType pd) = true -> parent_committed (ev_lc st) ours rc pd) /\
    (forall i, i ∈ skip1 <-> i ∈ skip \/ (is_removal (EntryType pd) = true /\ ParentIndex pd = i)) /\
    cong (ev_our st1 + ev_their st1 + contrib rc (removal_write rc nh pd))
         (ev_our st + ev_their st + contrib rc pd).
Proof.
  intros Hnh Hai. unfold eval_removal, index at 1.
  destruct (lc_heap (ev_lc st) !! p) as [pd|] eqn:Hpd; [|done]. intros E.
  exists pd. split; [done|].
  destruct (is_removal (EntryType pd)) eqn:Hr.
  - set (lc1 := count_settle (ev_lc st) pd ours rc true) in E.
    assert (frame (ev_lc st) lc1) as Hfr by apply frame_count_settle.
    assert (lc_heap lc1 = lc_heap (ev_lc st)) as Hh1 by apply heap_count_settle.
    destruct (fetchParent lc1 pd rc ours) as [qd|e|] eqn:Hfp;
      [|by destruct (EntryType pd)..].
    destruct (processRemoveEntry _ _ _ _ _ _ _) as [[pd' our'] their'] eqn:Hpr.
    apply processRemoveEntry_cong in Hpr as [-> Hc]; [|done|done].
    apply fetchParent_ok in Hfp as (q & Hq & Hqd & Ha).
    rewrite (log_of_frame _ _ ours Hfr) in Hq. rewrite Hh1 in Hqd.
    destruct (Hai _ _ Hq) as (qd' & Hqd' & _ & Hi). assert (qd' = qd) as -> by congruence.
    assert (st1 = ev_write {| ev_lc := lc1; ev_our := ev_our st; ev_their := ev_their st;
              ev_fee := ev_fee st |} p (removal_write rc nh pd) our' their' (ev_fee st)
            /\ skip1 = {[ HtlcIndex qd ]} ∪ skip) as [-> ->] by (by destruct (EntryType pd); simplify_eq).
    simpl. split; [by etrans|]. split; [by rewrite Hh1|].
    split; [intros _; by exists q, qd|]. split; [rewrite Hi; set_solver|done].
  - destruct (EntryType pd) eqn:Ht; try done.
    + simplify_eq. unfold removal_write. rewrite Ht, list_insert_id by done.
      split; [done|]. split; [done|]. split; [done|]. split; [naive_solver|done].
    + destruct (processFeeUpdate _ _ _ _ _) as [pd' vf] eqn:Hf.
      apply (processFeeUpdate_write _ _ _ _ _ _ Ht) in Hf as [-> Hc]. simplify_eq.
      split; [done|]. split; [done|]. split; [done|]. split; [naive_solver|].
      simpl. by rewrite Hc.
Qed.

Lemma eval_removals_mutates ours rc nh ps st skip st' skip' :
  nh <> 0 -> NoDup ps ->
  adds_indexed (lc_heap (ev_lc st)) (log_of (ev_lc st) ours) ->
  eval_removals ours rc true nh ps st skip = (st', Ok skip') ->
  removals_done ours rc nh ps st skip st' skip'.
Proof.
  intros Hnh. revert st skip. induction ps as [|p ps IH]; intros st skip Hnd Hai; simpl.
  { intros [= <- <-]. split; [done|done|set_solver| |reflexivity].
    intros i. split; [by left|]. intros [?|(?&?&?&?)]; [done|set_solver]. }
  apply NoDup_cons in Hnd as [Hp Hnd].
  destruct (eval_removal _ _ _ _ _ _ _) as [st1 r1] eqn:E1. destruct r1 as [skip1| |]; [|done|done].
  destruct (eval_removal_mutates _ _ _ _ _ _ _ _ Hnh Hai E1)
    as (pd & Hpd & Hf & Hh & Hpar & Hsk & Hb).
  intros E. eapply removals_done_cons; try done. apply IH; [done| |done].
  rewrite (log_of_frame _ _ _ Hf), Hh.
  eapply adds_indexed_write; [done|done|apply same_removal_write].
Qed.

(** ** The second pass *)

Definition unskipped (h : pd_heap) (skip : gset Z) (p : ptr) : bool :=
  match h !! p with
  | Some pd => bool_decide (EntryType pd = Add) && negb (bool_decide (HtlcIndex pd ∈ skip))
  | None => false
  end.

Lemma processAddEntry_cong rc isIncoming nh pd our their pd' our' their' :
  EntryType pd = Add -> nh <> 0 ->
  processAddEntry pd our their nh rc isIncoming true = (pd', our', their') ->
  pd' = add_write rc nh pd /\
  cong (our' + their' + contrib rc pd') (our + their + contrib rc pd).
Proof.
  unfold processAddEntry, add_write, contrib. intros Ht Hnh.
  destruct (Z.eqb_spec (addHeight rc pd) 0) as [Hz|Hz]; simpl.
  - intros E.
    assert (pd' = set_addHeight rc nh pd) as -> by (by repeat case_match; simplify_eq).
    split; [done|].
    destruct (same_set_addHeight rc nh pd) as [-> -> _ _ _ _]. rewrite Ht.
    rewrite addHeight_set, eqb_reflx, (proj2 (Z.eqb_neq nh 0)) by done.
    destruct isIncoming; simplify_eq/=; rewrite cong_u64; apply cong_eq; lia.
  - intros [= <- <- <-]. split; [done|]. by rewrite (proj2 (Z.eqb_neq _ 0) Hz).
Qed.

Record adds_done (rc : bool) (nh : Z) (skip : gset Z) (ps : list ptr) (st st' : eval_state)
    (us : list ptr) : Prop := {
  ad_frame : frame (ev_lc st) (ev_lc st');
  ad_fee : ev_fee st' = ev_fee st;
  ad_list : us = filter (unskipped (lc_heap (ev_lc st)) skip) ps;
  ad_heap : lc_heap (ev_lc st') = write_all (add_write rc nh) us (lc_heap (ev_lc st));
  ad_balance : cong (ev_our st' + ev_their st' + csum rc (lc_heap (ev_lc st')) ps)
                    (ev_our st + ev_their st + csum rc (lc_heap (ev_lc st)) ps);
}.

Lemma eval_adds_mutates isIncoming rc nh skip ps st st' us :
  nh <> 0 -> NoDup ps ->
  eval_adds isIncoming rc true nh skip ps st = (st', Ok us) ->
  adds_done rc nh skip ps st st' us.
Proof.
  intros Hnh. revert st st' us. induction ps as [|p ps IH]; intros st st' us Hnd; simpl.
  { by intros [= <- <-]. }
  apply NoDup_cons in Hnd as [Hp Hnd].
  unfold index at 1. destruct (lc_heap (ev_lc st) !! p) as [pd|] eqn:Hpd; [|done].
  assert (unskipped (lc_heap (ev_lc st)) skip p
          = negb (bool_decide (EntryType pd <> Add) || bool_decide (HtlcIndex pd ∈ skip))) as Hu.
  { unfold unskipped. rewrite Hpd. destruct (decide (EntryType pd = Add)).
    - by rewrite !bool_decide_true, (bool_decide_false (_ <> _)) by naive_solver.
    - by rewrite bool_decide_false, (bool_decide_true (_ <> _)) by naive_solver. }
  destruct (bool_decide (EntryType pd <> Add) || bool_decide (HtlcIndex pd ∈ skip)) eqn:Hs.
  - intros E. destruct (IH st st' us Hnd E) as [If Ie Il Ih Ib].
    split; [done|done| |done|].
    + rewrite filter_cons_False; [done|]. rewrite Hu. by intros [].
    + unfold csum in *. simpl.
      assert (contrib_at rc (lc_heap (ev_lc st')) p = contrib_at rc (lc_heap (ev_lc st)) p) as ->.
      { unfold contrib_at. rewrite Ih, write_all_notin; [done|]. rewrite Il.
        intros Hin. apply list_elem_of_filter in Hin as [_ ?]. done. }
      apply cong_alt in Ib as [k Ib]. apply cong_alt. exists k. lia.
  - apply orb_false_iff in Hs as [Ht Hs]. apply bool_decide_eq_false in Ht.
    apply dec_stable in Ht.
    destruct (processAddEntry _ _ _ _ _ _ _) as [[pd' our'] their'] eqn:Hpa.
    apply processAddEntry_cong in Hpa as [-> Hc]; [|done|done].
    destruct (eval_adds _ _ _ _ _ _ _) as [st2 r] eqn:E2. intros [= <- Hr].
    destruct r as [rest| |]; simplify_eq/=.
    destruct (IH _ _ _ Hnd E2) as [If Ie Il Ih Ib]. simpl in *.
    assert (rest = filter (unskipped (lc_heap (ev_lc st)) skip) ps) as Hrest.
    { rewrite Il. apply filter_ext_in. intros q Hq. unfold unskipped.
      rewrite list_lookup_insert_ne; [done|]. by intros ->. }
    assert (p ∉ rest) as Hpr.
    { rewrite Hrest. intros Hin. by apply list_elem_of_filter in Hin as [_ ?]. }
    split.
    + by destruct If.
    + done.
    + rewrite filter_cons_True by (by rewrite Hu). by rewrite Hrest.
    + simpl. by rewrite Ih, (insert_alter _ p pd).
    + unfold csum in *. simpl.
      assert (contrib_at rc (lc_heap (ev_lc st2)) p = contrib rc (add_write rc nh pd)) as ->.
      { unfold contrib_at. rewrite Ih, write_all_notin by done.
        by rewrite list_lookup_insert_eq by (by eapply lookup_lt_Some). }
      assert (contrib_at rc (lc_heap (ev_lc st)) p = contrib rc pd) as ->
        by (unfold contrib_at; by rewrite Hpd).
      pose proof (csum_notin rc (lc_heap (ev_lc st)) p (add_write rc nh pd) ps Hp) as Hz.
      unfold csum in Hz. rewrite Hz in Ib.
      apply cong_alt in Ib as [k Ib], Hc as [k' Hc]. apply cong_alt. exists (k + k'). lia.
Qed.

(** ** Well-formed logs *)

(** The list of a log and its two indexes describe the same entries. *)
Record log_wf (h : pd_heap) (u : updateLog) : Prop := {
  lw_nodup : NoDup (ul_list u);
  lw_heap : forall p, p ∈ ul_list u -> is_Some (h !! p);
  lw_add : forall p pd, p ∈ ul_list u -> h !! p = Some pd -> EntryType pd = Add ->
    htlcIndex u !! HtlcIndex pd = Some p /\ HtlcIndex pd < htlcCounter u;
  lw_update : forall p pd, p ∈ ul_list u -> h !! p = Some pd -> EntryType pd <> Add ->
    updateIndex u !! LogIndex pd = Some p;
  lw_below : forall p pd, p ∈ ul_list u -> h !! p = Some pd -> LogIndex pd < logIndex u;
  lw_htlcs : forall i p, htlcIndex u !! i = Some p -> p ∈ ul_list u /\
    exists pd, h !! p = Some pd /\ EntryType pd = Add /\ HtlcIndex pd = i;
  lw_updates : forall i p, updateIndex u !! i = Some p -> p ∈ ul_list u /\
    exists pd, h !! p = Some pd /\ EntryType pd <> Add /\ LogIndex pd = i;
}.

(** The removals of log [A] each take a different HTLC off log [B], for its amount,
    and [B] has it marked as modified; a removal that is committed on a chain removes
    an HTLC that is committed there. *)
Record removals_wf (h : pd_heap) (A B : updateLog) : Prop := {
  rw_parent : forall p pd, p ∈ ul_list A -> h !! p = Some pd ->
    is_removal (EntryType pd) = true ->
    exists q qd, htlcIndex B !! ParentIndex pd = Some q /\ h !! q = Some qd /\
      Amount qd = Amount pd /\ ParentIndex pd ∈ modifiedHtlcs B /\
      forall rc, removeHeight rc pd <> 0 -> addHeight rc qd <> 0;
  rw_unique : forall p pd p' pd', p ∈ ul_list A -> h !! p = Some pd ->
    p' ∈ ul_list A -> h !! p' = Some pd' ->
    is_removal (EntryType pd) = true -> is_removal (EntryType pd') = true ->
    ParentIndex pd = ParentIndex pd' -> p = p';
}.

Record logs_wf (h : pd_heap) (l r : updateLog) : Prop := {
  gw_local : log_wf h l;
  gw_remote : log_wf h r;
  gw_disjoint : forall p, p ∈ ul_list l -> p ∉ ul_list r;
  gw_ours : removals_wf h l r;
  gw_theirs : removals_wf h r l;
}.

Lemma logs_wf_sym h l r : logs_wf h l r -> logs_wf h r l.
Proof. intros [? ? Hd ? ?]. split; try done. intros p Hr Hl. by apply (Hd p). Qed.

Lemma log_wf_adds_indexed h u : log_wf h u -> adds_indexed h u.
Proof. intros Hw i q Hq. by destruct (lw_htlcs _ _ Hw i q Hq). Qed.

(** ** HTLCs in flight on a chain *)

Definition amount_at (h : pd_heap) (p : ptr) : Z :=
  match h !! p with Some pd => Amount pd | None => 0 end.

(** The HTLC indexes the entries of a log have removed from a chain. *)
Definition removed_by (rc : bool) (h : pd_heap) (u : updateLog) : gset Z :=
  list_to_set (omap (fun pd =>
    if is_removal (EntryType pd) && negb (removeHeight rc pd =? 0)
    then Some (ParentIndex pd) else None) (deref h (ul_list u))).

Definition is_active (rc : bool) (h : pd_heap) (removed : gset Z) (p : ptr) : bool :=
  match h !! p with
  | Some pd => bool_decide (EntryType pd = Add) && negb (addHeight rc pd =? 0)
               && negb (bool_decide (HtlcIndex pd ∈ removed))
  | None => false
  end.

(** The HTLCs of log [A] that are on the chain: added there and not yet removed. *)
Definition active (rc : bool) (h : pd_heap) (A B : updateLog) : list ptr :=
  filter (is_active rc h (removed_by rc h B)) (ul_list A).

Lemma elem_of_deref h ps pd :
  pd ∈ deref h ps <-> exists p, p ∈ ps /\ h !! p = Some pd.
Proof. apply list_elem_of_omap. Qed.

Lemma elem_of_removed_by rc h u i :
  i ∈ removed_by rc h u <->
  exists p pd, p ∈ ul_list u /\ h !! p = Some pd /\ is_removal (EntryType pd) = true /\
    removeHeight rc pd <> 0 /\ ParentIndex pd = i.
Proof.
  unfold removed_by. rewrite elem_of_list_to_set, list_elem_of_omap. split.
  - intros (pd & Hpd & Hi). apply elem_of_deref in Hpd as (p & Hp & Hl).
    case_match eqn:Hc; simplify_eq. apply andb_true_iff in Hc as [Hr Hz].
    apply negb_true_iff, Z.eqb_neq in Hz. by exists p, pd.
  - intros (p & pd & Hp & Hl & Hr & Hz & <-). exists pd. split; [apply elem_of_deref; eauto|].
    by rewrite Hr, (proj2 (Z.eqb_neq _ 0)).
Qed.

Lemma is_active_spec rc h s p pd :
  h !! p = Some pd ->
  is_active rc h s p <-> EntryType pd = Add /\ addHeight rc pd <> 0 /\ HtlcIndex pd ∉ s.
Proof.
  intros Hp. unfold is_active. rewrite Hp.
  rewrite !andb_True, !negb_True, bool_decide_spec, Is_true_true, Z.eqb_eq, bool_decide_spec.
  tauto.
Qed.

(** The sum of the contributions of the entries of one log that concern the HTLCs of
    another is minus what the removed HTLCs amount to. *)
Definition removed_amount (rc : bool) (h : pd_heap) (u : updateLog) : Z :=
  zsum (fun p => match h !! p with
                 | Some pd => if is_removal (EntryType pd) && negb (removeHeight rc pd =? 0)
                              then Amount pd else 0
                 | None => 0 end) (ul_list u).

Definition added_amount (rc : bool) (h : pd_heap) (u : updateLog) : Z :=
  zsum (fun p => match h !! p with
                 | Some pd => if bool_decide (EntryType pd = Add) && negb (addHeight rc pd =? 0)
                              then Amount pd else 0
                 | None => 0 end) (ul_list u).

Lemma csum_split rc h u :
  csum rc h (ul_list u) = added_amount rc h u - removed_amount rc h u.
Proof.
  unfold csum, added_amount, removed_amount.
  assert (forall (f g : ptr -> Z) l, zsum f l - zsum g l = zsum (fun x => f x - g x) l) as Hsub.
  { intros f g l. induction l as [|x l IH]; simpl; lia. }
  rewrite Hsub. apply zsum_ext. intros p _. unfold contrib_at, contrib.
  destruct (h !! p) as [pd|]; [|done].
  destruct (EntryType pd) eqn:Ht; simpl; rewrite ?Ht; simpl;
    repeat case_match; simpl; try done; try lia.
Qed.

Definition committed_removal (rc : bool) (h : pd_heap) (p : ptr) : bool :=
  match h !! p with
  | Some pd => is_removal (EntryType pd) && negb (removeHeight rc pd =? 0)
  | None => false
  end.

Definition is_gone (h : pd_heap) (removed : gset Z) (p : ptr) : bool :=
  match h !! p with
  | Some pd => bool_decide (EntryType pd = Add) && bool_decide (HtlcIndex pd ∈ removed)
  | None => false
  end.

Definition parent_ptr (h : pd_heap) (u : updateLog) (p : ptr) : ptr :=
  match h !! p with
  | Some pd => default 0%nat (htlcIndex u !! ParentIndex pd)
  | None => 0%nat
  end.

Lemma committed_removal_spec rc h p :
  committed_removal rc h p <->
  exists pd, h !! p = Some pd /\ is_removal (EntryType pd) = true /\ removeHeight rc pd <> 0.
Proof.
  unfold committed_removal. destruct (h !! p) as [pd|].
  - rewrite andb_True, negb_True, !Is_true_true, Z.eqb_eq. naive_solver.
  - split; [done|]. by intros (? & ? & ?).
Qed.

(** The parents of the removals committed in [B] are the removed HTLCs of [A]. *)
Lemma parents_gone rc h A B :
  log_wf h A -> log_wf h B -> removals_wf h B A ->
  parent_ptr h A <$> filter (committed_removal rc h) (ul_list B)
    ≡ₚ filter (is_gone h (removed_by rc h B)) (ul_list A).
Proof.
  intros HA HB Hrw. apply NoDup_Permutation.
  - apply NoDup_fmap_2_strong; [|apply NoDup_filter, HB].
    intros p p' Hp Hp' E.
    apply list_elem_of_filter in Hp as [(pd & Hpd & Hr & _)%committed_removal_spec Hp].
    apply list_elem_of_filter in Hp' as [(pd' & Hpd' & Hr' & _)%committed_removal_spec Hp'].
    destruct (rw_parent _ _ _ Hrw p pd) as (q & qd & Hq & Hqd & _); [done..|].
    destruct (rw_parent _ _ _ Hrw p' pd') as (q' & qd' & Hq' & Hqd' & _); [done..|].
    unfold parent_ptr in E. rewrite Hpd, Hpd', Hq, Hq' in E. simpl in E. subst q'.
    eapply (rw_unique _ _ _ Hrw p pd p' pd'); try done.
    apply (lw_htlcs _ _ HA) in Hq as (_ & ? & ? & _ & <-), Hq' as (_ & ? & ? & _ & <-).
    congruence.
  - apply NoDup_filter, HA.
  - intros q. rewrite list_elem_of_fmap, list_elem_of_filter. split.
    + intros (p & -> & Hp).
      apply list_elem_of_filter in Hp as [(pd & Hpd & Hr & Hz)%committed_removal_spec Hp].
      destruct (rw_parent _ _ _ Hrw p pd) as (q & qd & Hq & Hqd & _); [done..|].
      unfold parent_ptr. rewrite Hpd, Hq. simpl.
      destruct (lw_htlcs _ _ HA _ _ Hq) as (Hin & qd' & Hqd' & Ht & Hi). split; [|done].
      unfold is_gone. rewrite Hqd', Ht, Hi, bool_decide_true, bool_decide_true; [done| |done].
      apply elem_of_removed_by. by exists p, pd.
    + intros [Hg Hq]. unfold is_gone in Hg. destruct (h !! q) as [qd|] eqn:Hqd; [|done].
      apply andb_True in Hg as [Ht%bool_decide_unpack Hi%bool_decide_unpack].
      apply elem_of_removed_by in Hi as (p & pd & Hp & Hpd & Hr & Hz & Hi).
      exists p. split.
      * unfold parent_ptr. rewrite Hpd, Hi.
        by destruct (lw_add _ _ HA q qd) as [-> _].
      * apply list_elem_of_filter. split; [|done]. apply committed_removal_spec. eauto.
Qed.

Lemma removed_amount_gone rc h A B :
  log_wf h A -> log_wf h B -> removals_wf h B A ->
  removed_amount rc h B
  = zsum (amount_at h) (filter (is_gone h (removed_by rc h B)) (ul_list A)).
Proof.
  intros HA HB Hrw. rewrite <- (zsum_perm _ _ _ (parents_gone rc h A B HA HB Hrw)).
  rewrite zsum_fmap, zsum_filter. unfold removed_amount. apply zsum_ext.
  intros p Hp. destruct (lw_heap _ _ HB p Hp) as [pd Hpd].
  destruct (decide _) as [Hc|Hc].
  - apply committed_removal_spec in Hc as (pd' & ? & Hr & Hz). simplify_eq.
    rewrite Hpd, Hr, (proj2 (Z.eqb_neq _ 0)) by done. simpl.
    destruct (rw_parent _ _ _ Hrw p pd) as (q & qd & Hq & Hqd & Ha & _); [done..|].
    unfold compose, parent_ptr, amount_at. rewrite Hpd, Hq. simpl. by rewrite Hqd.
  - unfold committed_removal in Hc. rewrite Hpd in *. by case_match.
Qed.

(** An HTLC is in flight on a chain when it was added there and not removed; the
    amount in flight of the HTLCs of [A] is what was added less what [B] removed. *)
Lemma active_amount rc h A B :
  log_wf h A -> log_wf h B -> removals_wf h B A ->
  zsum (amount_at h) (active rc h A B) = added_amount rc h A - removed_amount rc h B.
Proof.
  intros HA HB Hrw. rewrite (removed_amount_gone rc h A B) by done.
  unfold active, added_amount. rewrite !zsum_filter.
  assert (forall (f g k : ptr -> Z) l, (forall x, x ∈ l -> f x + g x = k x) ->
          zsum f l = zsum k l - zsum g l) as Hsub.
  { intros f g k l. induction l as [|x l IH]; intros Hx; [done|]. simpl.
    rewrite IH, <- (Hx x); [lia|set_solver|set_solver]. }
  apply Hsub. intros p Hp. destruct (lw_heap _ _ HA p Hp) as [pd Hpd].
  rewrite Hpd. unfold amount_at, is_gone. rewrite Hpd.
  destruct (decide (is_active rc h (removed_by rc h B) p)) as [Ha|Ha];
    rewrite (is_active_spec _ _ _ _ pd) in Ha by done.
  - destruct Ha as (Ht & Hz & Hi). rewrite Ht, bool_decide_true by done.
    rewrite (bool_decide_false (HtlcIndex pd ∈ _)), (proj2 (Z.eqb_neq _ 0)) by done.
    simpl. lia.
  - destruct (decide (EntryType pd = Add)) as [Ht|Ht].
    + rewrite Ht, bool_decide_true by done. simpl.
      destruct (decide (HtlcIndex pd ∈ removed_by rc h B)) as [Hi|Hi].
      * rewrite bool_decide_true by done. simpl.
        apply elem_of_removed_by in Hi as (p' & pd' & Hp' & Hpd' & Hr & Hz & Hi).
        destruct (rw_parent _ _ _ Hrw p' pd') as (q & qd & Hq & Hqd & _ & _ & Hlink); [done..|].
        rewrite Hi in Hq. destruct (lw_add _ _ HA p pd) as [Hq' _]; [done..|].
        simplify_eq. rewrite (proj2 (Z.eqb_neq _ 0)) by eauto. done.
      * rewrite bool_decide_false by done. simpl.
        assert (addHeight rc pd = 0) as -> by (destruct (Z.eq_dec (addHeight rc pd) 0); naive_solver).
        done.
    + by rewrite bool_decide_false.
Qed.

Lemma csum_active rc h l r :
  logs_wf h l r ->
  csum rc h (ul_list l) + csum rc h (ul_list r)
  = zsum (amount_at h) (active rc h l r) + zsum (amount_at h) (active rc h r l).
Proof.
  intros [Hl Hr _ Ho Ht]. rewrite !csum_split, !active_amount by done. lia.
Qed.

(** ** Heaps that differ by commit heights only *)

(** Heights are only ever set, and only those of chain [rc]. *)
Record grown (rc : bool) (pd pd' : PaymentDescriptor) : Prop := {
  gr_same : same_update pd' pd;
  gr_add : addHeight rc pd <> 0 -> addHeight rc pd' <> 0;
  gr_remove : removeHeight rc pd <> 0 -> removeHeight rc pd' <> 0;
  gr_add_other : addHeight (negb rc) pd' = addHeight (negb rc) pd;
  gr_remove_other : removeHeight (negb rc) pd' = removeHeight (negb rc) pd;
  gr_forwarded : isForwarded pd' = isForwarded pd;
}.

#[export] Instance grown_preorder rc : PreOrder (grown rc).
Proof.
  split; [done|]. intros a b c [] []. split; [by etrans|auto|auto|congruence..].
Qed.

Lemma grown_add rc pd pd' rc' : grown rc pd pd' -> addHeight rc' pd <> 0 -> addHeight rc' pd' <> 0.
Proof. intros [_ H1 _ H2 _ _]. destruct rc, rc'; simpl in *; congruence || auto. Qed.

Lemma removal_write_grown rc nh pd : nh <> 0 -> grown rc pd (removal_write rc nh pd).
Proof.
  intros Hnh. split; [apply same_removal_write|..]; unfold removal_write;
    destruct (EntryType pd); try done; case_match; try done;
    rewrite ?addHeight_set_remove, ?addHeight_set, ?removeHeight_set, ?removeHeight_set_add,
      ?eqb_reflx, ?eqb_negb2; by destruct rc.
Qed.

Lemma add_write_grown rc nh pd : nh <> 0 -> grown rc pd (add_write rc nh pd).
Proof.
  intros Hnh. split; [apply same_add_write|..]; unfold add_write; case_match; try done;
    rewrite ?addHeight_set, ?removeHeight_set_add, ?eqb_reflx, ?eqb_negb2; by destruct rc.
Qed.

Lemma add_write_committed rc nh pd : nh <> 0 -> addHeight rc (add_write rc nh pd) <> 0.
Proof.
  intros Hnh. unfold add_write. case_match eqn:Hz.
  - by rewrite addHeight_set, eqb_reflx.
  - by apply Z.eqb_neq in Hz.
Qed.

Lemma removal_write_committed rc nh pd :
  nh <> 0 -> is_removal (EntryType pd) = true -> removeHeight rc (removal_write rc nh pd) <> 0.
Proof.
  intros Hnh Hr. unfold removal_write.
  destruct (EntryType pd); try done; case_match eqn:Hz;
    first [by apply Z.eqb_neq in Hz | by rewrite removeHeight_set, eqb_reflx].
Qed.

Definition heap_grows (rc : bool) (h h' : pd_heap) : Prop :=
  length h' = length h /\
  forall p pd, h !! p = Some pd -> exists pd', h' !! p = Some pd' /\ grown rc pd pd'.

#[export] Instance heap_grows_preorder rc : PreOrder (heap_grows rc).
Proof.
  split.
  - intros h. split; [done|]. intros p pd Hp. exists pd. done.
  - intros a b c [La Ha] [Lb Hb]. split; [congruence|]. intros p pd Hp.
    destruct (Ha p pd Hp) as (pd' & Hp' & Hg). destruct (Hb p pd' Hp') as (pd'' & Hp'' & Hg').
    exists pd''. split; [done|]. by etrans.
Qed.

Lemma heap_grows_inv rc h h' p pd' :
  heap_grows rc h h' -> h' !! p = Some pd' -> exists pd, h !! p = Some pd /\ grown rc pd pd'.
Proof.
  intros [Hl Hg] Hp. destruct (lookup_lt_is_Some_2 h p) as [pd Hpd].
  { rewrite <- Hl. by eapply lookup_lt_Some. }
  exists pd. split; [done|]. destruct (Hg p pd Hpd) as (pd2 & ? & ?). by simplify_eq.
Qed.

Lemma write_all_grows rc f ps h :
  (forall pd, grown rc pd (f pd)) -> heap_grows rc h (write_all f ps h).
Proof.
  intros Hf. revert h. induction ps as [|p ps IH]; intros h; [done|]. simpl.
  etrans; [|apply IH]. split; [by rewrite length_alter|].
  intros q qd Hq. destruct (decide (q = p)) as [->|Hne].
  - exists (f qd). by rewrite list_lookup_alter_eq, Hq.
  - exists qd. rewrite list_lookup_alter_ne by done. done.
Qed.

(** Heaps with the same updates. *)
Definition heap_same (h h' : pd_heap) : Prop :=
  length h' = length h /\
  forall p pd, h !! p = Some pd -> exists pd', h' !! p = Some pd' /\ same_update pd' pd.

Lemma heap_same_inv h h' p pd' :
  heap_same h h' -> h' !! p = Some pd' -> exists pd, h !! p = Some pd /\ same_update pd' pd.
Proof.
  intros [Hl Hg] Hp. destruct (lookup_lt_is_Some_2 h p) as [pd Hpd].
  { rewrite <- Hl. by eapply lookup_lt_Some. }
  exists pd. split; [done|]. destruct (Hg p pd Hpd) as (pd2 & ? & ?). by simplify_eq.
Qed.

Lemma heap_grows_same rc h h' : heap_grows rc h h' -> heap_same h h'.
Proof.
  intros [Hl Hg]. split; [done|]. intros p pd Hp. destruct (Hg p pd Hp) as (pd' & ? & []). eauto.
Qed.

Lemma log_wf_same h h' u : heap_same h h' -> log_wf h u -> log_wf h' u.
Proof.
  intros Hg [Hn Hh Ha Hu Hb Hi Hj]. split; [done| | | | | |].
  - intros p Hp. destruct (Hh p Hp) as [pd Hpd].
    destruct (proj2 Hg p pd Hpd) as (pd' & ? & _). eauto.
  - intros p pd' Hp Hpd' Ht. destruct (heap_same_inv _ _ _ _ Hg Hpd') as (pd & Hpd & []).
    replace (HtlcIndex pd') with (HtlcIndex pd) by done. apply (Ha p pd); congruence.
  - intros p pd' Hp Hpd' Ht. destruct (heap_same_inv _ _ _ _ Hg Hpd') as (pd & Hpd & []).
    replace (LogIndex pd') with (LogIndex pd) by done. apply (Hu p pd); congruence.
  - intros p pd' Hp Hpd'. destruct (heap_same_inv _ _ _ _ Hg Hpd') as (pd & Hpd & []).
    replace (LogIndex pd') with (LogIndex pd) by done. by apply (Hb p pd).
  - intros i p Hp. destruct (Hi i p Hp) as (Hin & pd & Hpd & Ht & Hid). split; [done|].
    destruct (proj2 Hg p pd Hpd) as (pd' & ? & []). exists pd'. split; [done|].
    split; congruence.
  - intros i p Hp. destruct (Hj i p Hp) as (Hin & pd & Hpd & Ht & Hid). split; [done|].
    destruct (proj2 Hg p pd Hpd) as (pd' & ? & []). exists pd'. split; [done|].
    split; congruence.
Qed.

Lemma log_wf_grows rc h h' u : heap_grows rc h h' -> log_wf h u -> log_wf h' u.
Proof. intros Hg. eapply log_wf_same, heap_grows_same, Hg. Qed.

(** A removal that became committed needs a committed parent. *)
Lemma removals_wf_grows rc h h' A B :
  heap_grows rc h h' -> removals_wf h A B ->
  (forall p pd pd' q qd', p ∈ ul_list A -> h !! p = Some pd -> h' !! p = Some pd' ->
     is_removal (EntryType pd) = true -> htlcIndex B !! ParentIndex pd = Some q ->
     h' !! q = Some qd' ->
     removeHeight rc pd = 0 -> removeHeight rc pd' <> 0 -> addHeight rc qd' <> 0) ->
  removals_wf h' A B.
Proof.
  intros Hg [Hp Hu] Hnew. split.
  - intros p pd' Hin Hpd' Hr. destruct (heap_grows_inv _ _ _ _ _ Hg Hpd') as (pd & Hpd & Hgr).
    pose proof (gr_same _ _ _ Hgr) as [Et Ea _ _ Ep _]. rewrite Et in Hr. rewrite Ep, Ea.
    destruct (Hp p pd Hin Hpd Hr) as (q & qd & Hq & Hqd & Ham & Hm & Hlink).
    destruct (proj2 Hg q qd Hqd) as (qd' & Hqd' & Hgq).
    exists q, qd'. split; [done|]. split; [done|].
    split; [rewrite (su_amount _ _ (gr_same _ _ _ Hgq)); done|]. split; [done|].
    intros rc' Hz. destruct (Z.eq_dec (removeHeight rc' pd) 0) as [E0|E0].
    + destruct (decide (rc' = rc)) as [->|Hne]; [by eapply Hnew|].
      assert (rc' = negb rc) as -> by (destruct rc, rc'; done).
      by rewrite (gr_remove_other _ _ _ Hgr) in Hz.
    + eapply grown_add; [exact Hgq|]. by apply Hlink.
  - intros p pd1 p' pd2 Hin H1 Hin' H2 Hr1 Hr2 E.
    destruct (heap_grows_inv _ _ _ _ _ Hg H1) as (o1 & Ho1 & [[Et1 _ _ _ Ep1 _]]).
    destruct (heap_grows_inv _ _ _ _ _ Hg H2) as (o2 & Ho2 & [[Et2 _ _ _ Ep2 _]]).
    apply (Hu p o1 p' o2); congruence.
Qed.

(** ** A whole evaluation *)

(** What a chain has committed of a log lies below a log index. *)
Definition committed_below (rc : bool) (h : pd_heap) (u : updateLog) (bound : Z) : Prop :=
  forall p pd, p ∈ ul_list u -> h !! p = Some pd ->
  addHeight rc pd <> 0 \/ removeHeight rc pd <> 0 -> LogIndex pd < bound.

Lemma elem_of_below h b ps p :
  p ∈ updates_below h b ps <-> p ∈ ps /\ exists pd, h !! p = Some pd /\ LogIndex pd < b.
Proof.
  unfold updates_below. rewrite list_elem_of_filter. unfold is_below.
  destruct (h !! p) as [pd|].
  - rewrite Is_true_true, Z.ltb_lt. naive_solver.
  - split; [by intros [? _]|]. by intros [_ (? & ? & _)].
Qed.

Lemma contrib_zero rc pd : addHeight rc pd = 0 -> removeHeight rc pd = 0 -> contrib rc pd = 0.
Proof. intros Ha Hr. unfold contrib. rewrite Ha, Hr. by destruct (EntryType pd). Qed.

(** Outside the view nothing is in flight. *)
Lemma csum_below rc h h' u b :
  log_wf h u -> committed_below rc h u b ->
  (forall p, p ∈ ul_list u -> p ∉ updates_below h b (ul_list u) -> h' !! p = h !! p) ->
  csum rc h' (ul_list u) = csum rc h' (updates_below h b (ul_list u)).
Proof.
  intros Hw Hc Hout. unfold csum, updates_below. rewrite zsum_filter. apply zsum_ext.
  intros p Hp. case_decide as Hb; [done|]. unfold contrib_at.
  destruct (lw_heap _ _ Hw p Hp) as [pd Hpd].
  assert (p ∉ updates_below h b (ul_list u)) as Hni.
  { intros Hin. apply list_elem_of_filter in Hin as [? _]. done. }
  rewrite Hout, Hpd by done.
  assert (~ LogIndex pd < b) as Hge.
  { intros Hlt. apply Hni, elem_of_below. eauto. }
  apply contrib_zero.
  - destruct (Z.eq_dec (addHeight rc pd) 0); [done|]. exfalso. apply Hge. eapply Hc; eauto.
  - destruct (Z.eq_dec (removeHeight rc pd) 0); [done|]. exfalso. apply Hge. eapply Hc; eauto.
Qed.

(** The descriptor an evaluation leaves behind. *)
Definition final_write (rc : bool) (nh : Z) (skip : gset Z) (pd : PaymentDescriptor)
    : PaymentDescriptor :=
  if bool_decide (EntryType pd = Add) then
    if bool_decide (HtlcIndex pd ∈ skip) then pd else add_write rc nh pd
  else removal_write rc nh pd.

(** One side of an evaluation: log [A] is evaluated into [us], against the removals
    of log [B] that the same evaluation commits. *)
Lemma side_active rc nh h h4 A B ua ub skip us :
  nh <> 0 -> log_wf h A -> log_wf h B ->
  committed_below rc h A ua -> committed_below rc h B ub ->
  (forall p, p ∈ ul_list A -> p ∉ updates_below h ua (ul_list A) -> h4 !! p = h !! p) ->
  (forall p, p ∈ ul_list B -> p ∉ updates_below h ub (ul_list B) -> h4 !! p = h !! p) ->
  (forall p pd, p ∈ updates_below h ua (ul_list A) -> h !! p = Some pd ->
     h4 !! p = Some (final_write rc nh skip pd)) ->
  (forall p pd, p ∈ updates_below h ub (ul_list B) -> h !! p = Some pd ->
     is_removal (EntryType pd) = true -> h4 !! p = Some (removal_write rc nh pd)) ->
  heap_grows rc h h4 ->
  (forall i, i ∈ skip <-> exists p pd, p ∈ updates_below h ub (ul_list B) /\
     h !! p = Some pd /\ is_removal (EntryType pd) = true /\ ParentIndex pd = i) ->
  us = filter (unskipped h skip) (updates_below h ua (ul_list A)) ->
  us = active rc h4 A B.
Proof.
  intros Hnh HA HB HcA HcB HoA HoB HfA HfB Hg Hskip ->.
  assert (forall i, i ∈ removed_by rc h4 B <-> i ∈ skip) as Hrem.
  { intros i. rewrite elem_of_removed_by, Hskip. split.
    - intros (p & pd' & Hp & Hpd' & Hr & Hz & Hi).
      destruct (heap_grows_inv _ _ _ _ _ Hg Hpd') as (pd & Hpd & Hgr).
      pose proof (gr_same _ _ _ Hgr) as [Et _ _ _ Ep _]. rewrite Et in Hr. rewrite Ep in Hi.
      exists p, pd. split; [|done].
      destruct (decide (p ∈ updates_below h ub (ul_list B))) as [|Hni]; [done|].
      rewrite HoB in Hpd' by done. assert (pd' = pd) as -> by congruence.
      apply elem_of_below. split; [done|]. exists pd. split; [done|]. eapply HcB; eauto.
    - intros (p & pd & Hp & Hpd & Hr & Hi). exists p, (removal_write rc nh pd).
      pose proof (same_removal_write rc nh pd) as [-> _ _ _ -> _].
      split; [by apply elem_of_below in Hp as [? _]|]. split; [by apply HfB|].
      split; [done|]. split; [|done]. by apply removal_write_committed. }
  unfold updates_below at 1, active. rewrite list_filter_filter. apply filter_ext_in.
  intros p Hp. destruct (lw_heap _ _ HA p Hp) as [pd Hpd].
  assert (is_below h ua p <-> p ∈ updates_below h ua (ul_list A)) as ->.
  { unfold updates_below. rewrite list_elem_of_filter. tauto. }
  assert (unskipped h skip p <-> EntryType pd = Add /\ HtlcIndex pd ∉ skip) as ->.
  { unfold unskipped. rewrite Hpd, andb_True, negb_True, !bool_decide_spec. tauto. }
  destruct (decide (p ∈ updates_below h ua (ul_list A))) as [Hin|Hni].
  - assert (h4 !! p = Some (final_write rc nh skip pd)) as H4 by by apply HfA.
    rewrite (is_active_spec _ _ _ _ _ H4), Hrem. unfold final_write.
    destruct (decide (EntryType pd = Add)) as [Ht|Ht].
    + rewrite bool_decide_true by done.
      destruct (decide (HtlcIndex pd ∈ skip)) as [Hs|Hs].
      * rewrite bool_decide_true by done. tauto.
      * rewrite bool_decide_false by done.
        pose proof (same_add_write rc nh pd) as [-> _ _ -> _ _].
        pose proof (add_write_committed rc nh pd Hnh). tauto.
    + rewrite bool_decide_false by done.
      pose proof (same_removal_write rc nh pd) as [-> _ _ _ _ _]. tauto.
  - assert (h4 !! p = Some pd) as H4 by by rewrite HoA.
    rewrite (is_active_spec _ _ _ _ _ H4). split; [tauto|]. intros (Ht & Hz & _). exfalso.
    apply Hni, elem_of_below. split; [done|]. exists pd. split; [done|]. eapply HcA; eauto.
Qed.

Lemma unskipped_grows rc h h' skip p :
  heap_grows rc h h' -> unskipped h' skip p = unskipped h skip p.
Proof.
  intros Hg. unfold unskipped. destruct (h' !! p) as [pd'|] eqn:Hp'.
  - destruct (heap_grows_inv _ _ _ _ _ Hg Hp') as (pd & -> & [[-> _ _ -> _ _]]). done.
  - destruct (h !! p) as [pd|] eqn:Hp; [|done].
    destruct (proj2 Hg p pd Hp) as (? & ? & _). congruence.
Qed.

Lemma final_at rc nh skip U us h k p pd :
  NoDup U -> us = filter (unskipped h skip) U -> p ∈ U -> h !! p = Some pd ->
  k !! p = Some (removal_write rc nh pd) ->
  write_all (add_write rc nh) us k !! p = Some (final_write rc nh skip pd).
Proof.
  intros Hnd -> Hp Hpd Hk. unfold final_write.
  destruct (decide (unskipped h skip p)) as [Hu|Hu].
  - rewrite write_all_in, Hk; [|by apply NoDup_filter|by apply list_elem_of_filter].
    unfold unskipped in Hu. rewrite Hpd, andb_True, negb_True, !bool_decide_spec in Hu.
    destruct Hu as [Ht Hs]. rewrite bool_decide_true, bool_decide_false by done.
    unfold removal_write. by rewrite Ht.
  - rewrite write_all_notin, Hk by (by intros [? _]%list_elem_of_filter).
    unfold unskipped in Hu. rewrite Hpd, andb_True, negb_True, !bool_decide_spec in Hu.
    destruct (decide (EntryType pd = Add)) as [Ht|Ht].
    + rewrite bool_decide_true, bool_decide_true by (done || (apply dec_stable; tauto)).
      unfold removal_write. by rewrite Ht.
    + by rewrite bool_decide_false.
Qed.

Lemma csum_agree rc h h' ps : (forall p, p ∈ ps -> h' !! p = h !! p) -> csum rc h' ps = csum rc h ps.
Proof. intros E. apply zsum_ext. intros p Hp. unfold contrib_at. by rewrite E. Qed.

(** What a mutating evaluation of a view establishes. *)
Record evaluated (rc : bool) (ob tb our their : Z) (lc : LightningChannel) (st : eval_state)
    (fv : htlcView) : Prop := {
  el_frame : frame lc (ev_lc st);
  el_grows : heap_grows rc (lc_heap lc) (lc_heap (ev_lc st));
  el_wf : logs_wf (lc_heap (ev_lc st)) (localUpdateLog lc) (remoteUpdateLog lc);
  el_local : committed_below rc (lc_heap (ev_lc st)) (localUpdateLog lc) ob;
  el_remote : committed_below rc (lc_heap (ev_lc st)) (remoteUpdateLog lc) tb;
  el_ours : ourUpdates fv
    = active rc (lc_heap (ev_lc st)) (localUpdateLog lc) (remoteUpdateLog lc);
  el_theirs : theirUpdates fv
    = active rc (lc_heap (ev_lc st)) (remoteUpdateLog lc) (localUpdateLog lc);
  el_balance :
    cong (ev_our st + ev_their st
          + zsum (amount_at (lc_heap (ev_lc st))) (ourUpdates fv ++ theirUpdates fv))
         (our + their
          + zsum (amount_at (lc_heap lc))
              (active rc (lc_heap lc) (localUpdateLog lc) (remoteUpdateLog lc)
               ++ active rc (lc_heap lc) (remoteUpdateLog lc) (localUpdateLog lc)));
}.

Lemma committed_below_after rc h h4 u b :
  committed_below rc h u b -> heap_grows rc h h4 ->
  (forall p, p ∈ ul_list u -> p ∉ updates_below h b (ul_list u) -> h4 !! p = h !! p) ->
  committed_below rc h4 u b.
Proof.
  intros Hc Hg Ho p pd' Hp Hpd' Hz.
  destruct (heap_grows_inv _ _ _ _ _ Hg Hpd') as (pd & Hpd & Hgr).
  rewrite (su_log _ _ (gr_same _ _ _ Hgr)).
  destruct (decide (p ∈ updates_below h b (ul_list u))) as [Hin|Hni].
  - apply elem_of_below in Hin as (_ & pd2 & ? & ?). by simplify_eq.
  - rewrite Ho in Hpd' by done. assert (pd' = pd) as -> by congruence. by eapply Hc.
Qed.

(** The removals a first pass commits have committed parents. *)
Lemma link_after rc h h4 A B b (lc : LightningChannel) ours ha :
  removals_wf h A B -> heap_grows rc h h4 -> heap_grows rc ha h4 ->
  log_of lc ours = B -> lc_heap lc = ha ->
  (forall p, p ∈ updates_below h b (ul_list A) -> ha !! p = h !! p) ->
  (forall p, p ∈ ul_list A -> p ∉ updates_below h b (ul_list A) -> h4 !! p = h !! p) ->
  (forall p pd, p ∈ updates_below h b (ul_list A) -> lc_heap lc !! p = Some pd ->
    is_removal (EntryType pd) = true -> parent_committed lc ours rc pd) ->
  removals_wf h4 A B.
Proof.
  intros Hrw Hg Hga <- <- Hagree Hout Hpar. eapply removals_wf_grows; [exact Hg|done|].
  intros p pd pd' q qd' Hp Hpd Hpd' Hr Hq Hqd' Hz Hz'.
  destruct (decide (p ∈ updates_below h b (ul_list A))) as [Hin|Hni].
  - destruct (Hpar p pd Hin) as (q1 & qd1 & Hq1 & Hqd1 & Ha1); [by rewrite Hagree|done|].
    assert (q1 = q) as -> by congruence.
    destruct (proj2 Hga q qd1 Hqd1) as (qd2 & ? & Hgq). simplify_eq.
    by apply (gr_add _ _ _ Hgq).
  - rewrite Hout in Hpd' by done. congruence.
Qed.

(** The four passes of an evaluation, one after the other. *)
Record passes (rc : bool) (nh : Z) (ourU theirU : list ptr) (st0 st1 st2 st3 st4 : eval_state)
    (skipThem skipUs : gset Z) (us them : list ptr) : Prop := {
  ps_1 : removals_done true rc nh ourU st0 ∅ st1 skipThem;
  ps_2 : removals_done false rc nh theirU st1 ∅ st2 skipUs;
  ps_3 : adds_done rc nh skipUs ourU st2 st3 us;
  ps_4 : adds_done rc nh skipThem theirU st3 st4 them;
}.

Lemma removals_done_grows ours rc nh ps st skip st' skip' :
  nh <> 0 -> removals_done ours rc nh ps st skip st' skip' ->
  heap_grows rc (lc_heap (ev_lc st)) (lc_heap (ev_lc st')).
Proof.
  intros Hnh [_ -> _ _ _]. apply write_all_grows. intros pd. by apply removal_write_grown.
Qed.

Lemma adds_done_grows rc nh skip ps st st' us :
  nh <> 0 -> adds_done rc nh skip ps st st' us ->
  heap_grows rc (lc_heap (ev_lc st)) (lc_heap (ev_lc st')).
Proof.
  intros Hnh [_ _ _ -> _]. apply write_all_grows. intros pd. by apply add_write_grown.
Qed.

Lemma evaluate_passes lc view our their nh rc st4 fv :
  nh <> 0 -> NoDup (ourUpdates view) -> NoDup (theirUpdates view) ->
  log_wf (lc_heap lc) (localUpdateLog lc) -> log_wf (lc_heap lc) (remoteUpdateLog lc) ->
  evaluateHTLCView lc view our their nh rc true = (st4, Ok fv) ->
  exists st1 st2 st3 skipThem skipUs,
    passes rc nh (ourUpdates view) (theirUpdates view)
      {| ev_lc := lc; ev_our := our; ev_their := their; ev_fee := view_feePerKB view |}
      st1 st2 st3 st4 skipThem skipUs (ourUpdates fv) (theirUpdates fv).
Proof.
  intros Hnh HnO HnT Hl Hr. unfold evaluateHTLCView.
  destruct (eval_removals true _ _ _ _ _ _) as [st1 r1] eqn:E1.
  destruct r1 as [skipThem| |]; [|done|done].
  apply eval_removals_mutates in E1; [|done|done|by apply log_wf_adds_indexed].
  destruct (eval_removals false _ _ _ _ _ _) as [st2 r2] eqn:E2.
  destruct r2 as [skipUs| |]; [|done|done].
  pose proof (removals_done_grows _ _ _ _ _ _ _ _ Hnh E1) as G1.
  apply eval_removals_mutates in E2; [|done|done|].
  2:{ rewrite (log_of_frame _ _ _ (rd_frame _ _ _ _ _ _ _ _ E1)).
      apply log_wf_adds_indexed. by eapply log_wf_grows. }
  destruct (eval_adds false _ _ _ _ _ _) as [st3 r3] eqn:E3.
  destruct r3 as [us| |]; [|done|done]. apply eval_adds_mutates in E3; [|done|done].
  destruct (eval_adds true _ _ _ _ _ _) as [st4' r4] eqn:E4.
  destruct r4 as [them| |]; cbn; intros [= <- <-].
  apply eval_adds_mutates in E4; [|done|done].
  exists st1, st2, st3, skipThem, skipUs. by split.
Qed.

Section Passes.
Context (rc : bool) (nh ob tb : Z) (Hnh : nh <> 0).
Context (st0 st1 st2 st3 st4 : eval_state) (skipThem skipUs : gset Z) (us them : list ptr).

Let h := lc_heap (ev_lc st0).
Let l := localUpdateLog (ev_lc st0).
Let r := remoteUpdateLog (ev_lc st0).
Let ourU := updates_below h ob (ul_list l).
Let theirU := updates_below h tb (ul_list r).
Let h1 := lc_heap (ev_lc st1).
Let h2 := lc_heap (ev_lc st2).
Let h3 := lc_heap (ev_lc st3).
Let h4 := lc_heap (ev_lc st4).

Context (Hwf : logs_wf h l r).
Context (Hco : committed_below rc h l ob) (Hct : committed_below rc h r tb).
Context (Hps : passes rc nh ourU theirU st0 st1 st2 st3 st4 skipThem skipUs us them).

Lemma pass_grows_1 : heap_grows rc h h1.
Proof using Hps Hnh. eapply removals_done_grows; [done|apply Hps]. Qed.

Lemma pass_grows_2 : heap_grows rc h1 h2.
Proof using Hps Hnh. eapply removals_done_grows; [done|apply Hps]. Qed.

Lemma pass_grows_3 : heap_grows rc h2 h3.
Proof using Hps Hnh. eapply adds_done_grows; [done|apply Hps]. Qed.

Lemma pass_grows_4 : heap_grows rc h3 h4.
Proof using Hps Hnh. eapply adds_done_grows; [done|apply Hps]. Qed.

Lemma pass_grows : heap_grows rc h h4.
Proof using Hps Hnh.
  etrans; [apply pass_grows_1|]. etrans; [apply pass_grows_2|].
  etrans; [apply pass_grows_3|apply pass_grows_4].
Qed.

Lemma pass_frame : frame (ev_lc st0) (ev_lc st4).
Proof using Hps.
  etrans; [apply (ps_1 _ _ _ _ _ _ _ _ _ _ _ _ _ Hps)|].
  etrans; [apply (ps_2 _ _ _ _ _ _ _ _ _ _ _ _ _ Hps)|].
  etrans; [apply (ps_3 _ _ _ _ _ _ _ _ _ _ _ _ _ Hps)|].
  apply (ps_4 _ _ _ _ _ _ _ _ _ _ _ _ _ Hps).
Qed.

Lemma view_disjoint p : p ∈ ourU -> p ∉ theirU.
Proof using Hwf.
  intros [Ho _]%elem_of_below [Ht _]%elem_of_below. by apply (gw_disjoint _ _ _ Hwf p).
Qed.

Lemma pass_us : us = filter (unskipped h skipUs) ourU.
Proof using Hps Hnh.
  rewrite (ad_list _ _ _ _ _ _ _ (ps_3 _ _ _ _ _ _ _ _ _ _ _ _ _ Hps)).
  apply filter_ext_in. intros p _. erewrite unskipped_grows; [done|].
  etrans; [apply pass_grows_1|apply pass_grows_2].
Qed.

Lemma pass_them : them = filter (unskipped h skipThem) theirU.
Proof using Hps Hnh.
  rewrite (ad_list _ _ _ _ _ _ _ (ps_4 _ _ _ _ _ _ _ _ _ _ _ _ _ Hps)).
  apply filter_ext_in. intros p _. erewrite unskipped_grows; [done|].
  etrans; [apply pass_grows_1|]. etrans; [apply pass_grows_2|apply pass_grows_3].
Qed.

Lemma us_in p : p ∈ us -> p ∈ ourU.
Proof using Hps Hnh. rewrite pass_us. by intros [_ ?]%list_elem_of_filter. Qed.

Lemma them_in p : p ∈ them -> p ∈ theirU.
Proof using Hps Hnh. rewrite pass_them. by intros [_ ?]%list_elem_of_filter. Qed.

Lemma pass_1_out p : p ∉ ourU -> h1 !! p = h !! p.
Proof using Hps.
  intros Hp. unfold h1. rewrite (rd_heap _ _ _ _ _ _ _ _ (ps_1 _ _ _ _ _ _ _ _ _ _ _ _ _ Hps)).
  by apply write_all_notin.
Qed.

Lemma pass_2_out p : p ∉ theirU -> h2 !! p = h1 !! p.
Proof using Hps.
  intros Hp. unfold h2. rewrite (rd_heap _ _ _ _ _ _ _ _ (ps_2 _ _ _ _ _ _ _ _ _ _ _ _ _ Hps)).
  by apply write_all_notin.
Qed.

Lemma pass_3_out p : p ∉ ourU -> h3 !! p = h2 !! p.
Proof using Hps Hnh.
  intros Hp. unfold h3. rewrite (ad_heap _ _ _ _ _ _ _ (ps_3 _ _ _ _ _ _ _ _ _ _ _ _ _ Hps)).
  apply write_all_notin. intros Hin. by apply Hp, us_in.
Qed.

Lemma pass_4_out p : p ∉ theirU -> h4 !! p = h3 !! p.
Proof using Hps Hnh.
  intros Hp. unfold h4. rewrite (ad_heap _ _ _ _ _ _ _ (ps_4 _ _ _ _ _ _ _ _ _ _ _ _ _ Hps)).
  apply write_all_notin. intros Hin. by apply Hp, them_in.
Qed.

Lemma pass_out p : p ∉ ourU -> p ∉ theirU -> h4 !! p = h !! p.
Proof using Hps Hnh.
  intros Ho Ht. by rewrite pass_4_out, pass_3_out, pass_2_out, pass_1_out.
Qed.

Lemma pass_ours p pd :
  p ∈ ourU -> h !! p = Some pd -> h4 !! p = Some (final_write rc nh skipUs pd).
Proof using Hps Hnh Hwf.
  intros Hp Hpd. rewrite pass_4_out by by apply view_disjoint.
  unfold h3. rewrite (ad_heap _ _ _ _ _ _ _ (ps_3 _ _ _ _ _ _ _ _ _ _ _ _ _ Hps)).
  assert (NoDup ourU) as HnO by apply NoDup_filter, Hwf.
  eapply final_at; [exact HnO|apply pass_us|done|done|].
  fold h2. rewrite pass_2_out by by apply view_disjoint.
  unfold h1. rewrite (rd_heap _ _ _ _ _ _ _ _ (ps_1 _ _ _ _ _ _ _ _ _ _ _ _ _ Hps)).
  rewrite write_all_in by done. fold h. by rewrite Hpd.
Qed.

Lemma pass_theirs p pd :
  p ∈ theirU -> h !! p = Some pd -> h4 !! p = Some (final_write rc nh skipThem pd).
Proof using Hps Hnh Hwf.
  intros Hp Hpd. assert (p ∉ ourU) as Hno by (intros Ho; by apply (view_disjoint p)).
  unfold h4. rewrite (ad_heap _ _ _ _ _ _ _ (ps_4 _ _ _ _ _ _ _ _ _ _ _ _ _ Hps)).
  assert (NoDup theirU) as HnT by apply NoDup_filter, Hwf.
  eapply final_at; [exact HnT|apply pass_them|done|done|].
  fold h3. rewrite pass_3_out by done.
  unfold h2. rewrite (rd_heap _ _ _ _ _ _ _ _ (ps_2 _ _ _ _ _ _ _ _ _ _ _ _ _ Hps)).
  rewrite write_all_in by done. fold h1. rewrite pass_1_out by done. by rewrite Hpd.
Qed.

Lemma out_local p : p ∈ ul_list l -> p ∉ ourU -> h4 !! p = h !! p.
Proof using Hps Hnh Hwf.
  intros Hl Ho. apply pass_out; [done|]. intros [Hr _]%elem_of_below.
  by apply (gw_disjoint _ _ _ Hwf p).
Qed.

Lemma out_remote p : p ∈ ul_list r -> p ∉ theirU -> h4 !! p = h !! p.
Proof using Hps Hnh Hwf.
  intros Hr Ht. apply pass_out; [|done]. intros [Hl _]%elem_of_below.
  by apply (gw_disjoint _ _ _ Hwf p).
Qed.

Lemma final_removal skip pd :
  is_removal (EntryType pd) = true -> final_write rc nh skip pd = removal_write rc nh pd.
Proof using Type. intros Hr. unfold final_write. by destruct (EntryType pd). Qed.

Lemma pass_skipThem i : i ∈ skipThem <->
  exists p pd, p ∈ ourU /\ h !! p = Some pd /\ is_removal (EntryType pd) = true
    /\ ParentIndex pd = i.
Proof using Hps.
  rewrite (rd_skip _ _ _ _ _ _ _ _ (ps_1 _ _ _ _ _ _ _ _ _ _ _ _ _ Hps)).
  rewrite elem_of_empty. fold h. naive_solver.
Qed.

Lemma pass_skipUs i : i ∈ skipUs <->
  exists p pd, p ∈ theirU /\ h !! p = Some pd /\ is_removal (EntryType pd) = true
    /\ ParentIndex pd = i.
Proof using Hps Hwf.
  rewrite (rd_skip _ _ _ _ _ _ _ _ (ps_2 _ _ _ _ _ _ _ _ _ _ _ _ _ Hps)).
  rewrite elem_of_empty. fold h1.
  assert (forall p, p ∈ theirU -> h1 !! p = h !! p) as E.
  { intros p Hp. apply pass_1_out. intros Ho. by apply (view_disjoint p). }
  split.
  - intros [[]|(p & pd & Hp & Hpd & ?)]. exists p, pd. rewrite E in Hpd by done. done.
  - intros (p & pd & Hp & Hpd & ?). right. exists p, pd. by rewrite E.
Qed.

Lemma pass_active_ours : us = active rc h4 l r.
Proof using Hps Hnh Hwf Hco Hct.
  eapply (side_active rc nh h h4 l r ob tb skipUs); try done; try apply Hwf.
  - apply out_local.
  - apply out_remote.
  - apply pass_ours.
  - intros p pd Hp Hpd Hr. rewrite (pass_theirs p pd), final_removal by done. done.
  - apply pass_grows.
  - apply pass_skipUs.
  - apply pass_us.
Qed.

Lemma pass_active_theirs : them = active rc h4 r l.
Proof using Hps Hnh Hwf Hco Hct.
  eapply (side_active rc nh h h4 r l tb ob skipThem); try done; try apply Hwf.
  - apply out_remote.
  - apply out_local.
  - apply pass_theirs.
  - intros p pd Hp Hpd Hr. rewrite (pass_ours p pd), final_removal by done. done.
  - apply pass_grows.
  - apply pass_skipThem.
  - apply pass_them.
Qed.

Lemma pass_wf : logs_wf h4 l r.
Proof using Hps Hnh Hwf.
  split.
  - eapply log_wf_grows; [apply pass_grows|apply Hwf].
  - eapply log_wf_grows; [apply pass_grows|apply Hwf].
  - apply Hwf.
  - eapply (link_after rc h h4 l r ob (ev_lc st0) true h);
      [apply Hwf|apply pass_grows|apply pass_grows|done|done|done|apply out_local|].
    apply (ps_1 _ _ _ _ _ _ _ _ _ _ _ _ _ Hps).
  - eapply (link_after rc h h4 r l tb (ev_lc st1) false h1);
      [apply Hwf|apply pass_grows| | |done| |apply out_remote|].
    + etrans; [apply pass_grows_2|]. etrans; [apply pass_grows_3|apply pass_grows_4].
    + apply (log_of_frame _ _ false), (ps_1 _ _ _ _ _ _ _ _ _ _ _ _ _ Hps).
    + intros p Hp. apply pass_1_out. intros Ho. by apply (view_disjoint p).
    + apply (ps_2 _ _ _ _ _ _ _ _ _ _ _ _ _ Hps).
Qed.

Lemma pass_csum :
  cong (ev_our st4 + ev_their st4 + csum rc h4 (ul_list l) + csum rc h4 (ul_list r))
       (ev_our st0 + ev_their st0 + csum rc h (ul_list l) + csum rc h (ul_list r)).
Proof using Hps Hnh Hwf Hco Hct.
  rewrite (csum_below rc h h4 l ob), (csum_below rc h h4 r tb), (csum_below rc h h l ob),
    (csum_below rc h h r tb);
    try done; try apply Hwf; try apply out_remote; try apply out_local.
  fold ourU theirU.
  pose proof (rd_balance _ _ _ _ _ _ _ _ (ps_1 _ _ _ _ _ _ _ _ _ _ _ _ _ Hps)) as B1.
  pose proof (rd_balance _ _ _ _ _ _ _ _ (ps_2 _ _ _ _ _ _ _ _ _ _ _ _ _ Hps)) as B2.
  pose proof (ad_balance _ _ _ _ _ _ _ (ps_3 _ _ _ _ _ _ _ _ _ _ _ _ _ Hps)) as B3.
  pose proof (ad_balance _ _ _ _ _ _ _ (ps_4 _ _ _ _ _ _ _ _ _ _ _ _ _ Hps)) as B4.
  fold h h1 h2 h3 h4 in B1, B2, B3, B4.
  rewrite (csum_agree rc h h1 theirU) in B2
    by (intros p Hp; apply pass_1_out; intros Ho; by apply (view_disjoint p)).
  rewrite (csum_agree rc h1 h2 ourU) in B3
    by (intros p Hp; by apply pass_2_out, view_disjoint).
  rewrite (csum_agree rc h2 h3 theirU) in B4
    by (intros p Hp; apply pass_3_out; intros Ho; by apply (view_disjoint p)).
  rewrite (csum_agree rc h3 h4 ourU)
    by (intros p Hp; by apply pass_4_out, view_disjoint).
  apply cong_alt in B1 as [k1 B1], B2 as [k2 B2], B3 as [k3 B3], B4 as [k4 B4].
  apply cong_alt. exists (k1 + k2 + k3 + k4). lia.
Qed.

End Passes.

(** Evaluating a view that contains all that the chain has committed gives the HTLCs
    that are then in flight on the chain, and moves no value between the parties and
    the HTLCs except as they say. *)
Lemma evaluate_mutates lc view our their nh rc st fv ob tb :
  nh <> 0 ->
  logs_wf (lc_heap lc) (localUpdateLog lc) (remoteUpdateLog lc) ->
  ourUpdates view = updates_below (lc_heap lc) ob (ul_list (localUpdateLog lc)) ->
  theirUpdates view = updates_below (lc_heap lc) tb (ul_list (remoteUpdateLog lc)) ->
  committed_below rc (lc_heap lc) (localUpdateLog lc) ob ->
  committed_below rc (lc_heap lc) (remoteUpdateLog lc) tb ->
  evaluateHTLCView lc view our their nh rc true = (st, Ok fv) ->
  evaluated rc ob tb our their lc st fv.
Proof.
  intros Hnh Hwf Hvo Hvt Hco Hct E.
  apply evaluate_passes in E as (st1 & st2 & st3 & skipThem & skipUs & Hps);
    [|done|rewrite Hvo; apply NoDup_filter, Hwf|rewrite Hvt; apply NoDup_filter, Hwf
     |apply Hwf|apply Hwf].
  rewrite Hvo, Hvt in Hps.
  set (st0 := {| ev_lc := lc; ev_our := our; ev_their := their; ev_fee := view_feePerKB view |})
    in *.
  pose proof (pass_wf rc nh ob tb Hnh st0 st1 st2 st3 st _ _ _ _ Hwf Hps) as Hwf4.
  pose proof (pass_active_ours rc nh ob tb Hnh st0 st1 st2 st3 st _ _ _ _ Hwf Hco Hct Hps) as Eo.
  pose proof (pass_active_theirs rc nh ob tb Hnh st0 st1 st2 st3 st _ _ _ _ Hwf Hco Hct Hps) as Et.
  cbn [ev_lc st0] in Hwf4, Eo, Et.
  split; [| |done| | |done|done|].
  - eapply (pass_frame rc nh ob tb st0); exact Hps.
  - eapply (pass_grows rc nh ob tb Hnh st0); exact Hps.
  - eapply committed_below_after; [exact Hco| |].
    + eapply (pass_grows rc nh ob tb Hnh st0); exact Hps.
    + eapply (out_local rc nh ob tb Hnh st0); [exact Hwf|exact Hps].
  - eapply committed_below_after; [exact Hct| |].
    + eapply (pass_grows rc nh ob tb Hnh st0); exact Hps.
    + eapply (out_remote rc nh ob tb Hnh st0); [exact Hwf|exact Hps].
  - rewrite !zsum_app, Eo, Et.
    pose proof (csum_active rc _ _ _ Hwf) as C0. pose proof (csum_active rc _ _ _ Hwf4) as C4.
    pose proof (pass_csum rc nh ob tb Hnh st0 st1 st2 st3 st _ _ _ _ Hwf Hco Hct Hps) as B.
    cbn [ev_lc ev_our ev_their st0] in B. apply cong_alt in B as [k B]. apply cong_alt.
    exists k. lia.
Qed.

(** ** Dry runs *)

Lemma with_heap_id lc : with_heap lc (lc_heap lc) = lc.
Proof. by destruct lc. Qed.

(** A dry run [d] and a mutating run [m] of the same evaluation: they agree on the
    balances, on the rate and on all additions. *)
Record in_step (d m : eval_state) : Prop := {
  is_frame : frame (ev_lc d) (ev_lc m);
  is_our : ev_our m = ev_our d;
  is_their : ev_their m = ev_their d;
  is_fee : ev_fee m = ev_fee d;
  is_length : length (lc_heap (ev_lc m)) = length (lc_heap (ev_lc d));
  is_same : forall p pd, lc_heap (ev_lc d) !! p = Some pd ->
    exists pd', lc_heap (ev_lc m) !! p = Some pd' /\ same_update pd' pd;
  is_adds : forall p pd, lc_heap (ev_lc d) !! p = Some pd -> EntryType pd = Add ->
    lc_heap (ev_lc m) !! p = Some pd;
}.

Definition agree_on (ps : list ptr) (d m : eval_state) : Prop :=
  forall p, p ∈ ps -> lc_heap (ev_lc m) !! p = lc_heap (ev_lc d) !! p.

Lemma ev_write_id st p pd :
  lc_heap (ev_lc st) !! p = Some pd ->
  ev_write st p pd (ev_our st) (ev_their st) (ev_fee st) = st.
Proof.
  intros Hp. unfold ev_write. rewrite list_insert_id by done. rewrite with_heap_id.
  by destruct st.
Qed.

Lemma count_settle_dry lc e ours rc : count_settle lc e ours rc false = lc.
Proof. done. Qed.

Lemma processRemoveEntry_dry pd our their nh rc ours :
  exists our' their',
    processRemoveEntry pd our their nh rc ours false = (pd, our', their') /\
    exists pd', processRemoveEntry pd our their nh rc ours true = (pd', our', their')
      /\ same_update pd' pd.
Proof.
  pose proof (same_set_removeHeight rc nh pd) as E. assert (same_update pd pd) by done.
  unfold processRemoveEntry. destruct (negb _); [eauto 10|].
  repeat case_match; simplify_eq; eauto 10.
Qed.

Lemma processFeeUpdate_dry pd nh rc vf :
  exists vf', processFeeUpdate pd nh rc false vf = (pd, vf') /\
    exists pd', processFeeUpdate pd nh rc true vf = (pd', vf') /\ same_update pd' pd.
Proof.
  assert (same_update (set_removeHeight rc nh (set_addHeight rc nh pd)) pd) as E
    by by destruct rc.
  assert (same_update pd pd) by done. unfold processFeeUpdate. repeat case_match; simplify_eq; eauto 10.
Qed.

Lemma processAddEntry_dry pd our their nh rc isIncoming :
  exists our' their',
    processAddEntry pd our their nh rc isIncoming false = (pd, our', their') /\
    exists pd', processAddEntry pd our their nh rc isIncoming true = (pd', our', their')
      /\ same_update pd' pd.
Proof.
  pose proof (same_set_addHeight rc nh pd) as E. assert (same_update pd pd) by done.
  unfold processAddEntry. destruct (negb _); [eauto 10|].
  repeat case_match; simplify_eq; eauto 10.
Qed.

Lemma fetchParent_agree lcd lcm entry rc ours :
  frame lcd lcm -> adds_indexed (lc_heap lcd) (log_of lcd ours) ->
  (forall q qd, lc_heap lcd !! q = Some qd -> EntryType qd = Add -> lc_heap lcm !! q = Some qd) ->
  fetchParent lcm entry rc ours = fetchParent lcd entry rc ours.
Proof.
  intros Hf Hai Ha. pose proof (log_of_frame _ _ ours Hf) as Hl.
  unfold fetchParent, lookupHtlc. fold (log_of lcm ours). fold (log_of lcd ours). rewrite Hl.
  destruct (htlcIndex (log_of lcd ours) !! ParentIndex entry) as [q|] eqn:Hq; [|done].
  destruct (Hai _ _ Hq) as (qd & Hqd & Ht & _). unfold index. by rewrite (Ha q qd), Hqd.
Qed.

(** A write to an entry that is not an addition keeps the runs in step. *)
Lemma in_step_write d m lcm p pd pd' our their vf ps :
  in_step d m -> frame (ev_lc m) lcm -> lc_heap lcm = lc_heap (ev_lc m) ->
  lc_heap (ev_lc d) !! p = Some pd -> EntryType pd <> Add -> same_update pd' pd ->
  p ∉ ps -> agree_on (p :: ps) d m ->
  let d' := {| ev_lc := ev_lc d; ev_our := our; ev_their := their; ev_fee := vf |} in
  let m' := ev_write {| ev_lc := lcm; ev_our := ev_our m; ev_their := ev_their m;
                        ev_fee := ev_fee m |} p pd' our their vf in
  in_step d' m' /\ agree_on ps d' m'.
Proof.
  intros [Hf _ _ _ Hlen Hsm Ha] Hf' Hh Hpd Ht Ht' Hp Hag d' m'. split.
  - split; [|done|done|done| | |].
    + simpl. destruct Hf, Hf'. split; simpl; congruence.
    + simpl. by rewrite length_insert, Hh.
    + simpl. intros q qd Hq. destruct (decide (q = p)) as [->|Hne].
      * assert (qd = pd) as -> by congruence. exists pd'. rewrite list_lookup_insert_eq; [done|].
        rewrite Hh, Hlen. by eapply lookup_lt_Some.
      * rewrite list_lookup_insert_ne, Hh by done. by apply Hsm.
    + simpl. intros q qd Hq Hqt. rewrite list_lookup_insert_ne; [rewrite Hh; auto|].
      intros ->. congruence.
  - intros q Hq. simpl. rewrite list_lookup_insert_ne by (by intros ->).
    rewrite Hh. apply Hag. set_solver.
Qed.

(** One iteration keeps the runs in step. *)
Lemma eval_removal_in_step ours rc nh p ps d m skip :
  p ∉ ps -> adds_indexed (lc_heap (ev_lc d)) (log_of (ev_lc d) ours) ->
  in_step d m -> agree_on (p :: ps) d m ->
  exists d' m' r,
    eval_removal ours rc false nh p d skip = (d', r) /\
    eval_removal ours rc true nh p m skip = (m', r) /\
    ev_lc d' = ev_lc d /\ in_step d' m' /\ agree_on ps d' m' /\
    (forall q, q <> p -> lc_heap (ev_lc m') !! q = lc_heap (ev_lc m) !! q).
Proof.
  intros Hp Hai His Hag. unfold eval_removal, index at 1 2. rewrite (Hag p) by set_solver.
  assert (agree_on ps d m) as Hag' by (intros q Hq; apply Hag; set_solver).
  destruct (lc_heap (ev_lc d) !! p) as [pd|] eqn:Hpd; [|by exists d, m, Panic].
  pose proof His as [Hf Eo Et Ee Hlen Hsm Ha].
  destruct (is_removal (EntryType pd)) eqn:Hr.
  - rewrite count_settle_dry. set (lcm := count_settle _ _ _ _ true).
    assert (frame (ev_lc m) lcm) as Hfm by apply frame_count_settle.
    assert (lc_heap lcm = lc_heap (ev_lc m)) as Hhm by apply heap_count_settle.
    assert (frame (ev_lc d) lcm) as Hfd by by etrans.
    rewrite (fetchParent_agree (ev_lc d) lcm)
      by (done || (rewrite Hhm; done)).
    set (dl := {| ev_lc := ev_lc d; ev_our := ev_our d; ev_their := ev_their d; ev_fee := ev_fee d |}).
    set (ml := {| ev_lc := lcm; ev_our := ev_our m; ev_their := ev_their m; ev_fee := ev_fee m |}).
    assert (in_step dl ml) as Hsl by (split; simpl; rewrite ?Hhm; done).
    destruct (fetchParent (ev_lc d) pd rc ours) as [qd|e|].
    + destruct (processRemoveEntry_dry pd (ev_our d) (ev_their d) nh rc ours)
        as (our' & their' & Ed & pd' & Em & Htp).
      exists {| ev_lc := ev_lc d; ev_our := our'; ev_their := their'; ev_fee := ev_fee d |},
        (ev_write ml p pd' our' their' (ev_fee d)), (Ok ({[ HtlcIndex qd ]} ∪ skip)).
      destruct (in_step_write d m lcm p pd pd' our' their' (ev_fee d) ps) as [Hs' Ha']; try done.
      { by destruct (EntryType pd). }
      split; [|split; [|split; [done|split; [done|split; [done|]]]]].
      * simpl. rewrite Ed. unfold ev_write. simpl.
        rewrite (list_insert_id _ p pd), with_heap_id by done. by destruct (EntryType pd).
      * simpl. rewrite Eo, Et, Ee, Em. by destruct (EntryType pd).
      * intros q Hq. simpl. by rewrite list_lookup_insert_ne, Hhm.
    + exists dl, ml, (Err e). split; [by destruct (EntryType pd)|].
      split; [by destruct (EntryType pd)|]. split; [done|]. split; [done|].
      split; intros q Hq; simpl; rewrite Hhm; auto.
    + exists dl, ml, Panic. split; [by destruct (EntryType pd)|].
      split; [by destruct (EntryType pd)|]. split; [done|]. split; [done|].
      split; intros q Hq; simpl; rewrite Hhm; auto.
  - destruct (EntryType pd) eqn:Ht; try done.
    + by exists d, m, (Ok skip).
    + rewrite Ee. destruct (processFeeUpdate_dry pd nh rc (ev_fee d)) as (vf' & -> & pd' & -> & Htp).
      destruct (in_step_write d m (ev_lc m) p pd pd' (ev_our d) (ev_their d) vf' ps)
        as [Hs' Ha']; try done; [congruence|].
      exists {| ev_lc := ev_lc d; ev_our := ev_our d; ev_their := ev_their d; ev_fee := vf' |},
        (ev_write m p pd' (ev_our d) (ev_their d) vf'), (Ok skip).
      split; [|split; [by rewrite Eo, Et|split; [done|split; [exact Hs'|split; [exact Ha'|]]]]].
      * unfold ev_write. by rewrite (list_insert_id _ p pd), with_heap_id.
      * intros q Hq. simpl. by rewrite list_lookup_insert_ne.
Qed.

Lemma eval_removals_in_step ours rc nh ps d m skip :
  NoDup ps -> adds_indexed (lc_heap (ev_lc d)) (log_of (ev_lc d) ours) ->
  in_step d m -> agree_on ps d m ->
  exists d' m' r,
    eval_removals ours rc false nh ps d skip = (d', r) /\
    eval_removals ours rc true nh ps m skip = (m', r) /\
    ev_lc d' = ev_lc d /\ in_step d' m' /\
    (forall p, p ∉ ps -> lc_heap (ev_lc m') !! p = lc_heap (ev_lc m) !! p).
Proof.
  revert d m skip. induction ps as [|p ps IH]; intros d m skip Hnd Hai His Hag.
  { by exists d, m, (Ok skip). }
  apply NoDup_cons in Hnd as [Hp Hnd].
  destruct (eval_removal_in_step ours rc nh p ps d m skip Hp Hai His Hag)
    as (d1 & m1 & r1 & Ed & Em & El & Es & Ea & Eo). simpl. rewrite Ed, Em.
  destruct r1 as [skip1|e|].
  - destruct (IH d1 m1 skip1 Hnd) as (d' & m' & r & Ed' & Em' & El' & Es' & Eo');
      [by rewrite El|done|done|].
    exists d', m', r. split; [done|]. split; [done|]. split; [congruence|]. split; [done|].
    intros q Hq. rewrite Eo', Eo by set_solver. done.
  - exists d1, m1, (Err e). do 4 (split; [done|]). intros q Hq. apply Eo. set_solver.
  - exists d1, m1, Panic. do 4 (split; [done|]). intros q Hq. apply Eo. set_solver.
Qed.

(** During the second pass the runs agree on the additions still to come. *)
Record in_step_adds (ps : list ptr) (d m : eval_state) : Prop := {
  ia_frame : frame (ev_lc d) (ev_lc m);
  ia_our : ev_our m = ev_our d;
  ia_their : ev_their m = ev_their d;
  ia_fee : ev_fee m = ev_fee d;
  ia_length : length (lc_heap (ev_lc m)) = length (lc_heap (ev_lc d));
  ia_same : forall p pd, lc_heap (ev_lc d) !! p = Some pd ->
    exists pd', lc_heap (ev_lc m) !! p = Some pd' /\ same_update pd' pd;
  ia_adds : forall p pd, p ∈ ps -> lc_heap (ev_lc d) !! p = Some pd -> EntryType pd = Add ->
    lc_heap (ev_lc m) !! p = Some pd;
}.

Lemma in_step_adds_sub ps ps' d m :
  (forall p, p ∈ ps' -> p ∈ ps) -> in_step_adds ps d m -> in_step_adds ps' d m.
Proof. intros Hs [? ? ? ? ? ? Ha]. split; try done. intros p pd Hp. apply Ha; auto. Qed.

Lemma eval_adds_in_step isIncoming rc nh skip ps d m :
  NoDup ps -> in_step_adds ps d m ->
  exists d' m' r,
    eval_adds isIncoming rc false nh skip ps d = (d', r) /\
    eval_adds isIncoming rc true nh skip ps m = (m', r) /\
    ev_lc d' = ev_lc d /\ in_step_adds [] d' m' /\
    (forall p, p ∉ ps -> lc_heap (ev_lc m') !! p = lc_heap (ev_lc m) !! p).
Proof.
  revert d m. induction ps as [|p ps IH]; intros d m Hnd His.
  { by exists d, m, (Ok []). }
  apply NoDup_cons in Hnd as [Hp Hnd]. simpl. unfold index at 1 2.
  pose proof His as [Hf Eo Et Ee Hlen Hsm Hag].
  destruct (lc_heap (ev_lc d) !! p) as [pd|] eqn:Hpd.
  2:{ assert (lc_heap (ev_lc m) !! p = None) as ->.
      { apply lookup_ge_None. rewrite Hlen. by apply lookup_ge_None. }
      exists d, m, Panic. do 3 (split; [done|]). split; [|done].
      eapply in_step_adds_sub; [|exact His]. set_solver. }
  destruct (Hsm p pd) as (pdm & Hpdm & Htm); [done|]. rewrite Hpdm.
  assert (in_step_adds ps d m) as His' by (eapply in_step_adds_sub; [|exact His]; set_solver).
  destruct (decide (EntryType pd = Add)) as [Ht|Ht].
  2:{ rewrite !(bool_decide_true (_ <> Add)) by (destruct Htm; congruence). simpl.
      destruct (IH d m Hnd His') as (d' & m' & r & -> & -> & El & Es & Eq).
      exists d', m', r. do 4 (split; [done|]). intros q Hq. apply Eq. set_solver. }
  assert (pdm = pd) as -> by (apply (Hag p) in Hpd; [congruence|set_solver|done]).
  rewrite (bool_decide_false (_ <> Add)) by naive_solver. simpl.
  destruct (bool_decide (HtlcIndex pd ∈ skip)).
  { destruct (IH d m Hnd His') as (d' & m' & r & -> & -> & El & Es & Eq).
    exists d', m', r. do 4 (split; [done|]). intros q Hq. apply Eq. set_solver. }
  destruct (processAddEntry_dry pd (ev_our d) (ev_their d) nh rc isIncoming)
    as (our' & their' & Hd & pd' & Hm & Hsp). rewrite Eo, Et, Hd, Hm, Ee.
  set (d1 := {| ev_lc := ev_lc d; ev_our := our'; ev_their := their'; ev_fee := ev_fee d |}).
  assert (ev_write d p pd our' their' (ev_fee d) = d1) as ->.
  { unfold ev_write. by rewrite (list_insert_id _ p pd), with_heap_id. }
  destruct (IH d1 (ev_write m p pd' our' their' (ev_fee d)) Hnd)
    as (d' & m' & r & -> & -> & El & Es & Eq).
  { split; try done; simpl; [by destruct Hf|by rewrite length_insert| |].
    - intros q qd Hq. destruct (decide (q = p)) as [->|Hne].
      + exists pd'. assert (qd = pd) as -> by congruence.
        by rewrite list_lookup_insert_eq by (by eapply lookup_lt_Some).
      + rewrite list_lookup_insert_ne by done. by apply Hsm.
    - intros q qd Hq Hqd Hqt. rewrite list_lookup_insert_ne by (by intros ->).
      apply Hag; [set_solver|done|done]. }
  exists d', m', (rest ← r; Ok (p :: rest)). do 4 (split; [done|]).
  intros q Hq. rewrite Eq by set_solver. simpl. apply list_lookup_insert_ne. set_solver.
Qed.

(** A dry evaluation leaves the channel alone and computes the balances, the fee rate
    and the HTLCs of the mutating one. *)
Lemma evaluate_dry lc view our their nh rc d r :
  NoDup (ourUpdates view ++ theirUpdates view) ->
  adds_indexed (lc_heap lc) (localUpdateLog lc) ->
  adds_indexed (lc_heap lc) (remoteUpdateLog lc) ->
  evaluateHTLCView lc view our their nh rc false = (d, r) ->
  ev_lc d = lc /\
  exists m, evaluateHTLCView lc view our their nh rc true = (m, r) /\ in_step_adds [] d m.
Proof.
  rewrite NoDup_app. intros (HnO & Hdis & HnT) Hal Har.
  set (st0 := {| ev_lc := lc; ev_our := our; ev_their := their; ev_fee := view_feePerKB view |}).
  assert (in_step st0 st0) as H0 by (split; try done; intros p pd; by exists pd).
  destruct (eval_removals_in_step true rc nh (ourUpdates view) st0 st0 ∅)
    as (d1 & m1 & r1 & Ed1 & Em1 & El1 & Es1 & Eo1); [done..|].
  unfold evaluateHTLCView. fold st0. rewrite Ed1, Em1.
  change (ev_lc st0) with lc in El1.
  destruct r1 as [skipThem|e|]; cycle 1.
  1-2: intros [= <- <-]; split; [done|]; exists m1; destruct Es1; split; [done|split; eauto].
  assert (forall p, p ∈ theirUpdates view -> p ∉ ourUpdates view) as Hdis'.
  { intros p Ht Ho. by apply (Hdis p). }
  destruct (eval_removals_in_step false rc nh (theirUpdates view) d1 m1 ∅)
    as (d2 & m2 & r2 & Ed2 & Em2 & El2 & Es2 & Eo2); [done|by rewrite El1|done| |].
  { intros p Hp. by rewrite Eo1, El1 by by apply Hdis'. }
  rewrite Ed2, Em2. rewrite El1 in El2.
  destruct r2 as [skipUs|e|]; cycle 1.
  1-2: intros [= <- <-]; split; [done|]; exists m2; destruct Es2; split; [done|split; eauto].
  assert (forall ps, in_step_adds ps d2 m2) as Hs2 by (intros ps; destruct Es2; split; eauto).
  destruct (eval_adds_in_step false rc nh skipUs (ourUpdates view) d2 m2)
    as (d3 & m3 & r3 & Ed3 & Em3 & El3 & Es3 & Eo3); [done..|].
  rewrite Ed3, Em3. rewrite El2 in El3.
  destruct r3 as [us|e|]; cycle 1.
  1-2: intros [= <- <-]; split; [done|]; by exists m3.
  destruct (eval_adds_in_step true rc nh skipThem (theirUpdates view) d3 m3)
    as (d4 & m4 & r4 & Ed4 & Em4 & El4 & Es4 & Eo4); [done| |].
  { destruct Es3 as [? ? ? ? ? ? _]. split; try done. intros p pd Hp Hpd.
    rewrite Eo3 by by apply Hdis'. apply (is_adds _ _ Es2). by rewrite El2, <- El3. }
  rewrite Ed4, Em4. rewrite El3 in El4. intros [= <- <-]. split; [done|]. exists m4.
  by rewrite (ia_fee _ _ _ Es4).
Qed.
