(* ===== verification/ChannelInv.v ===== *)
(** * The commitment state machine: invariants and theorems

    The invariant [chan_wf] of a channel, its preservation by the operations that
    update the logs and by compaction, and the theorems about them. *)

From Stdlib Require Import Lia.
From S2P Require Import Prelude Sha256 Ids Amounts UpdateLog Channel ChannelEval.

(** ** Appending to a log *)

Lemma lookup_alloc (h : pd_heap) pd p pd' :
  (h ++ [pd]) !! p = Some pd' <->
  h !! p = Some pd' \/ (p = length h /\ pd' = pd).
Proof.
  destruct (Nat.lt_trichotomy p (length h)) as [Hl|[->|Hg]].
  - rewrite lookup_app_l by done. split; [by left|]. intros [?|[-> _]]; [done|lia].
  - rewrite list_lookup_middle by done. rewrite (lookup_ge_None_2 h) by lia. naive_solver.
  - rewrite (lookup_ge_None_2 (_ ++ _)), (lookup_ge_None_2 h) by (rewrite ?length_app; simpl; lia).
    split; [done|]. intros [?|[-> _]]; [done|lia].
Qed.

Lemma lookup_alloc_old (h : pd_heap) pd p :
  is_Some (h !! p) -> (h ++ [pd]) !! p = h !! p.
Proof. intros [pd' Hp]. rewrite Hp. apply lookup_alloc. by left. Qed.

Lemma list_below_heap h u p : log_wf h u -> p ∈ ul_list u -> p <> length h.
Proof.
  intros Hw Hp ->. destruct (lw_heap _ _ Hw _ Hp) as [? Hx%lookup_lt_Some]. lia.
Qed.

Lemma log_wf_alloc h u pd : log_wf h u -> log_wf (h ++ [pd]) u.
Proof.
  intros Hw.
  assert (forall p, p ∈ ul_list u -> (h ++ [pd]) !! p = h !! p) as E.
  { intros p Hp. by apply lookup_alloc_old, Hw. }
  destruct Hw as [Hn Hh Ha Hu Hb Hi Hj]. split; [done| | | | | |].
  - intros p Hp. rewrite E by done. auto.
  - intros p pd' Hp. rewrite E by done. eauto.
  - intros p pd' Hp. rewrite E by done. eauto.
  - intros p pd' Hp. rewrite E by done. eauto.
  - intros i p Hp. destruct (Hi i p Hp) as [? ?]. split; [done|]. by rewrite E.
  - intros i p Hp. destruct (Hj i p Hp) as [? ?]. split; [done|]. by rewrite E.
Qed.

Lemma log_wf_mark h u i : log_wf h u -> log_wf h (markHtlcModified u i).
Proof. by intros []. Qed.

Lemma log_wf_appendUpdate h u pd :
  log_wf h u -> EntryType pd <> Add -> LogIndex pd = logIndex u ->
  0 <= logIndex u -> logIndex u + 1 < 2 ^ 64 ->
  log_wf (h ++ [pd]) (appendUpdate u (length h)).
Proof.
  intros Hw Ht Hi H0 H1.
  pose proof (log_wf_alloc _ _ pd Hw) as Hw'. pose proof (list_below_heap h u) as Hfr.
  assert (u64 (logIndex u + 1) = logIndex u + 1) as Eu by (apply u64_small; unfold is_u64; lia).
  assert ((h ++ [pd]) !! length h = Some pd) as Hnew by (apply lookup_alloc; by right).
  destruct Hw' as [Hn Hh Ha Hup Hb Hhi Hui]. unfold appendUpdate.
  split; cbn [ul_list updateIndex htlcIndex logIndex htlcCounter]; rewrite ?Eu.
  - apply NoDup_app. split; [done|]. split; [|apply NoDup_singleton].
    intros p Hp ->%list_elem_of_singleton. by eapply Hfr.
  - intros p [Hp| ->%list_elem_of_singleton]%elem_of_app; [auto|by rewrite Hnew].
  - intros p pd' [Hp| ->%list_elem_of_singleton]%elem_of_app Hpd' Ht'; [eauto|congruence].
  - intros p pd' [Hp| ->%list_elem_of_singleton]%elem_of_app Hpd' Ht'.
    + rewrite lookup_insert_ne; [eauto|]. specialize (Hb p pd' Hp Hpd'). lia.
    + assert (pd' = pd) as -> by congruence. by rewrite Hi, lookup_insert_eq.
  - intros p pd' [Hp| ->%list_elem_of_singleton]%elem_of_app Hpd'.
    + specialize (Hb p pd' Hp Hpd'). lia.
    + assert (pd' = pd) as -> by congruence. lia.
  - intros i p Hp. destruct (Hhi i p Hp) as [? ?]. split; [|done]. apply elem_of_app. by left.
  - intros i p [[<- <-]|[Hne Hp]]%lookup_insert_Some.
    + split; [set_solver|]. by exists pd.
    + destruct (Hui i p Hp) as [? ?]. split; [|done]. apply elem_of_app. by left.
Qed.

Lemma log_wf_appendHtlc h u pd :
  log_wf h u -> EntryType pd = Add -> LogIndex pd = logIndex u -> HtlcIndex pd = htlcCounter u ->
  0 <= logIndex u -> logIndex u + 1 < 2 ^ 64 -> 0 <= htlcCounter u -> htlcCounter u + 1 < 2 ^ 64 ->
  log_wf (h ++ [pd]) (appendHtlc u (length h)).
Proof.
  intros Hw Ht Hi Hc H0 H1 C0 C1.
  pose proof (log_wf_alloc _ _ pd Hw) as Hw'. pose proof (list_below_heap h u) as Hfr.
  assert (u64 (logIndex u + 1) = logIndex u + 1) as Eu by (apply u64_small; unfold is_u64; lia).
  assert (u64 (htlcCounter u + 1) = htlcCounter u + 1) as Ec
    by (apply u64_small; unfold is_u64; lia).
  assert ((h ++ [pd]) !! length h = Some pd) as Hnew by (apply lookup_alloc; by right).
  destruct Hw' as [Hn Hh Ha Hup Hb Hhi Hui]. unfold appendHtlc.
  split; cbn [ul_list updateIndex htlcIndex logIndex htlcCounter]; rewrite ?Eu, ?Ec.
  - apply NoDup_app. split; [done|]. split; [|apply NoDup_singleton].
    intros p Hp ->%list_elem_of_singleton. by eapply Hfr.
  - intros p [Hp| ->%list_elem_of_singleton]%elem_of_app; [auto|by rewrite Hnew].
  - intros p pd' [Hp| ->%list_elem_of_singleton]%elem_of_app Hpd' Ht'.
    + destruct (Ha p pd' Hp Hpd' Ht') as [? ?]. rewrite lookup_insert_ne by lia. split; [done|lia].
    + assert (pd' = pd) as -> by congruence. rewrite Hc, lookup_insert_eq. split; [done|lia].
  - intros p pd' [Hp| ->%list_elem_of_singleton]%elem_of_app Hpd' Ht'; [eauto|congruence].
  - intros p pd' [Hp| ->%list_elem_of_singleton]%elem_of_app Hpd'.
    + specialize (Hb p pd' Hp Hpd'). lia.
    + assert (pd' = pd) as -> by congruence. lia.
  - intros i p [[<- <-]|[Hne Hp]]%lookup_insert_Some.
    + split; [set_solver|]. by exists pd.
    + destruct (Hhi i p Hp) as [? ?]. split; [|done]. apply elem_of_app. by left.
  - intros i p Hp. destruct (Hui i p Hp) as [? ?]. split; [|done]. apply elem_of_app. by left.
Qed.

(** What a new removal must satisfy: its parent exists, was not modified before and is
    now, and the removal is on no commitment yet. *)
Definition fresh_removal (h : pd_heap) (B B' : updateLog) (pd : PaymentDescriptor) : Prop :=
  exists q qd, htlcIndex B !! ParentIndex pd = Some q /\ h !! q = Some qd /\
    Amount qd = Amount pd /\ (ParentIndex pd ∉ modifiedHtlcs B) /\ (ParentIndex pd ∈ modifiedHtlcs B')
    /\ (forall rc, removeHeight rc pd = 0).

Lemma removals_wf_extend h h' A B A' B' p0 pd0 :
  removals_wf h A B -> log_wf h A -> log_wf h B ->
  (forall p, is_Some (h !! p) -> h' !! p = h !! p) ->
  (forall i q, htlcIndex B !! i = Some q -> htlcIndex B' !! i = Some q) ->
  modifiedHtlcs B ⊆ modifiedHtlcs B' ->
  h' !! p0 = Some pd0 ->
  (forall p, p ∈ ul_list A' -> p ∈ ul_list A \/ p = p0) ->
  (is_removal (EntryType pd0) = true -> p0 ∈ ul_list A' -> p0 ∉ ul_list A ->
   fresh_removal h B B' pd0) ->
  removals_wf h' A' B'.
Proof.
  intros [Hpar Huni] HA HB Hext Hidx Hmod Hp0 Hlist Hnew.
  assert (forall p pd, p ∈ ul_list A' -> h' !! p = Some pd -> is_removal (EntryType pd) = true ->
    (p ∈ ul_list A /\ h !! p = Some pd) \/
    (p = p0 /\ pd = pd0 /\ (p0 ∉ ul_list A) /\ fresh_removal h B B' pd0)) as Hcase.
  { intros p pd Hp Hpd Hr. destruct (decide (p ∈ ul_list A)) as [Hin|Hni].
    - left. split; [done|]. by rewrite <- Hext by by apply HA.
    - right. destruct (Hlist p Hp) as [?| ->]; [done|]. assert (pd = pd0) as -> by congruence. auto. }
  split.
  - intros p pd Hp Hpd Hr. destruct (Hcase p pd Hp Hpd Hr) as [[Hin Hold]|(-> & -> & Hni & Hf)].
    + destruct (Hpar p pd Hin Hold Hr) as (q & qd & Hq & Hqd & ? & ? & ?).
      exists q, qd. rewrite Hext by (by rewrite Hqd). split; [auto|]. do 2 (split; [done|]).
      split; [set_solver|done].
    + destruct Hf as (q & qd & Hq & Hqd & Ha & _ & Hm & Hz). exists q, qd.
      rewrite Hext by (by rewrite Hqd). split; [auto|]. do 3 (split; [done|]).
      intros rc Hc. by rewrite Hz in Hc.
  - intros p pd p' pd' Hp Hpd Hp' Hpd' Hr Hr' E.
    destruct (Hcase p pd Hp Hpd Hr) as [[Hin Hold]|(-> & -> & Hni & Hf)],
      (Hcase p' pd' Hp' Hpd' Hr') as [[Hin' Hold']|(-> & -> & Hni' & Hf')]; [by eapply Huni| | |done].
    + destruct Hf' as (_ & _ & _ & _ & _ & Hn & _).
      destruct (Hpar p pd Hin Hold Hr) as (_ & _ & _ & _ & _ & Hm & _). congruence.
    + destruct Hf as (_ & _ & _ & _ & _ & Hn & _).
      destruct (Hpar p' pd' Hin' Hold' Hr') as (_ & _ & _ & _ & _ & Hm & _). congruence.
Qed.

(** An entry that is on no commitment: it is not in flight and removes nothing. *)
Definition uncommitted (pd : PaymentDescriptor) : Prop :=
  forall rc, addHeight rc pd = 0 /\ removeHeight rc pd = 0 /\ isForwarded pd = false.

(** The three ways the logs grow.  [A] gets the new entry. *)
Section Grow.
Context (h : pd_heap) (A B : updateLog) (pd : PaymentDescriptor).
Context (Hwf : logs_wf h A B) (Hun : uncommitted pd) (Hli : LogIndex pd = logIndex A).
Context (HA0 : 0 <= logIndex A) (HA1 : logIndex A + 1 < 2 ^ 64).

Let h' := h ++ [pd].
Let p := length h.

Lemma grow_ext q : is_Some (h !! q) -> h' !! q = h !! q.
Proof using Type. apply lookup_alloc_old. Qed.

Lemma grow_new : h' !! p = Some pd.
Proof using Type. apply lookup_alloc. by right. Qed.

Lemma grow_disjoint A' B' :
  ul_list A' = ul_list A ++ [p] -> ul_list B' = ul_list B ->
  forall q, q ∈ ul_list A' -> q ∉ ul_list B'.
Proof using Hwf.
  intros -> -> q [Hq| ->%list_elem_of_singleton]%elem_of_app Hb.
  - by apply (gw_disjoint _ _ _ Hwf q).
  - eapply (list_below_heap h B); [apply Hwf|done|done].
Qed.

Lemma grow_htlc :
  EntryType pd = Add -> HtlcIndex pd = htlcCounter A ->
  0 <= htlcCounter A -> htlcCounter A + 1 < 2 ^ 64 ->
  logs_wf h' (appendHtlc A p) B.
Proof using Hwf Hun Hli HA0 HA1.
  intros Ht Hc C0 C1. split.
  - apply log_wf_appendHtlc; try done; apply Hwf.
  - apply log_wf_alloc, Hwf.
  - by apply grow_disjoint.
  - eapply (removals_wf_extend h h' A B _ _ p pd); try apply Hwf; try done.
    + apply grow_ext.
    + apply grow_new.
    + cbn [appendHtlc ul_list]. intros q [?| ->%list_elem_of_singleton]%elem_of_app; auto.
    + by rewrite Ht.
  - eapply (removals_wf_extend h h' B A _ _ p pd); try apply Hwf; try done.
    + apply grow_ext.
    + cbn [appendHtlc htlcIndex]. intros i q Hq. rewrite lookup_insert_ne; [done|].
      intros <-. destruct (lw_htlcs _ _ (gw_local _ _ _ Hwf) _ _ Hq) as (Hin & qd & Hqd & Hqt & Hqi).
      destruct (lw_add _ _ (gw_local _ _ _ Hwf) _ _ Hin Hqd Hqt) as [_ ?]. lia.
    + apply grow_new.
    + by left.
Qed.

Lemma grow_update i :
  EntryType pd <> Add ->
  (is_removal (EntryType pd) = true -> ParentIndex pd = i /\
     fresh_removal h B (markHtlcModified B i) pd) ->
  logs_wf h' (appendUpdate A p) (if is_removal (EntryType pd) then markHtlcModified B i else B).
Proof using Hwf Hun Hli HA0 HA1.
  intros Ht Hr. set (B' := if is_removal _ then _ else _).
  assert (ul_list B' = ul_list B) as El by (unfold B'; by case_match).
  assert (htlcIndex B' = htlcIndex B) as Eh by (unfold B'; by case_match).
  assert (modifiedHtlcs B ⊆ modifiedHtlcs B') as Em.
  { unfold B'. case_match; [|done]. cbn [markHtlcModified modifiedHtlcs]. set_solver. }
  split.
  - apply log_wf_appendUpdate; try done; apply Hwf.
  - unfold B'. case_match; [apply log_wf_mark|]; apply log_wf_alloc, Hwf.
  - by apply grow_disjoint.
  - eapply (removals_wf_extend h h' A B _ _ p pd); try apply Hwf; try done.
    + apply grow_ext.
    + by rewrite Eh.
    + apply grow_new.
    + cbn [appendUpdate ul_list]. intros q [?| ->%list_elem_of_singleton]%elem_of_app; auto.
    + intros Hrm _ _. unfold B'. rewrite Hrm. by apply Hr.
  - eapply (removals_wf_extend h h' B A _ _ p pd); try apply Hwf; try done.
    + apply grow_ext.
    + apply grow_new.
    + rewrite El. by left.
    + rewrite El. done.
Qed.

End Grow.

(** ** Growing logs leave every commitment alone *)

(** [h'] and the lists [la'], [lb'] extend [h], [la], [lb] by entries that are on no
    commitment. *)
Record quiet (h h' : pd_heap) (u u' : updateLog) : Prop := {
  qt_ext : forall p, p ∈ ul_list u -> h' !! p = h !! p;
  qt_list : exists new, ul_list u' = ul_list u ++ new /\
    forall p, p ∈ new -> exists pd, h' !! p = Some pd /\ uncommitted pd;
}.

Lemma removed_by_quiet rc h h' u u' : quiet h h' u u' -> removed_by rc h' u' = removed_by rc h u.
Proof.
  intros [He (new & El & Hnew)]. apply set_eq. intros i. rewrite !elem_of_removed_by, El. split.
  - intros (p & pd & [Hp|Hp]%elem_of_app & Hpd & Hr & Hz & Hi).
    + exists p, pd. by rewrite <- He.
    + destruct (Hnew p Hp) as (pd' & ? & Hu). simplify_eq. by destruct (Hu rc) as (? & ? & ?).
  - intros (p & pd & Hp & Hpd & ?). exists p, pd. rewrite He by done.
    split; [apply elem_of_app; by left|done].
Qed.

Lemma active_quiet rc h h' A B A' B' :
  quiet h h' A A' -> quiet h h' B B' -> active rc h' A' B' = active rc h A B.
Proof.
  intros HA HB. unfold active. rewrite (removed_by_quiet rc h h' B B') by done.
  destruct HA as [He (new & -> & Hnew)]. rewrite filter_app.
  assert (filter (is_active rc h' (removed_by rc h B)) new = []) as ->.
  { apply filter_none. intros p Hp Hact. destruct (Hnew p Hp) as (pd & Hpd & Hu).
    pose proof (proj1 (is_active_spec _ _ _ _ _ Hpd) Hact) as (_ & Hz & _).
    by destruct (Hu rc) as (? & ? & ?). }
  rewrite app_nil_r. apply filter_ext_in. intros p Hp. unfold is_active. by rewrite He.
Qed.

Lemma amount_quiet h h' u u' l :
  quiet h h' u u' -> (forall p, p ∈ l -> p ∈ ul_list u) ->
  zsum (amount_at h') l = zsum (amount_at h) l.
Proof. intros [He _] Hl. apply zsum_ext. intros p Hp. unfold amount_at. by rewrite He; auto. Qed.

Lemma active_in rc h A B p : p ∈ active rc h A B -> p ∈ ul_list A.
Proof. by intros [_ ?]%list_elem_of_filter. Qed.

(** ** The channel invariant *)

(** The value of a commitment chain's tip: both balances, the fee, and the HTLCs in
    flight on the chain. *)
Definition chain_value (lc : LightningChannel) (rc : bool) (c : commitment) : Z :=
  ourBalance c + theirBalance c + NewMAtomsFromAtoms (fee c)
  + zsum (amount_at (lc_heap lc))
      (active rc (lc_heap lc) (localUpdateLog lc) (remoteUpdateLog lc)
       ++ active rc (lc_heap lc) (remoteUpdateLog lc) (localUpdateLog lc)).

(** The logs are well-formed and what a chain has committed is below the message
    indexes of its tip, which are below those of the logs. *)
Record chan_wf (lc : LightningChannel) : Prop := {
  cw_logs : logs_wf (lc_heap lc) (localUpdateLog lc) (remoteUpdateLog lc);
  cw_tip : forall rc, exists c, tip (commitChain lc rc) = Ok c /\
    0 <= height c < 2 ^ 64 - 1 /\
    committed_below rc (lc_heap lc) (localUpdateLog lc) (ourMessageIndex c) /\
    committed_below rc (lc_heap lc) (remoteUpdateLog lc) (theirMessageIndex c);
  cw_local : 0 <= logIndex (localUpdateLog lc) /\ 0 <= htlcCounter (localUpdateLog lc);
  cw_remote : 0 <= logIndex (remoteUpdateLog lc) /\ 0 <= htlcCounter (remoteUpdateLog lc);
}.

(** Room for [n] more updates before a 64-bit counter wraps. *)
Definition room (n : Z) (lc : LightningChannel) : Prop :=
  logIndex (localUpdateLog lc) + n < 2 ^ 64 /\ htlcCounter (localUpdateLog lc) + n < 2 ^ 64 /\
  logIndex (remoteUpdateLog lc) + n < 2 ^ 64 /\ htlcCounter (remoteUpdateLog lc) + n < 2 ^ 64.

(** What every update operation guarantees: the invariant, the chains and the HTLCs on
    them stay as they are, and HTLCs marked as removed stay marked. *)
Record kept (lc lc' : LightningChannel) : Prop := {
  kp_wf : chan_wf lc';
  kp_state : channelState lc' = channelState lc;
  kp_lchain : localCommitChain lc' = localCommitChain lc;
  kp_rchain : remoteCommitChain lc' = remoteCommitChain lc;
  kp_local : forall rc,
    active rc (lc_heap lc') (localUpdateLog lc') (remoteUpdateLog lc')
    = active rc (lc_heap lc) (localUpdateLog lc) (remoteUpdateLog lc);
  kp_remote : forall rc,
    active rc (lc_heap lc') (remoteUpdateLog lc') (localUpdateLog lc')
    = active rc (lc_heap lc) (remoteUpdateLog lc) (localUpdateLog lc);
  kp_value : forall rc c, chain_value lc' rc c = chain_value lc rc c;
  kp_marks : modifiedHtlcs (localUpdateLog lc) ⊆ modifiedHtlcs (localUpdateLog lc') /\
             modifiedHtlcs (remoteUpdateLog lc) ⊆ modifiedHtlcs (remoteUpdateLog lc');
  kp_htlcs : (forall i q, lookupHtlc (localUpdateLog lc) i = Some q ->
                lookupHtlc (localUpdateLog lc') i = Some q) /\
             (forall i q, lookupHtlc (remoteUpdateLog lc) i = Some q ->
                lookupHtlc (remoteUpdateLog lc') i = Some q);
}.

(** What an update does to a log: new entries are on no commitment and behind all that
    were in the log. *)
Record appended (h h' : pd_heap) (u u' : updateLog) : Prop := {
  ap_quiet : quiet h h' u u';
  ap_index : logIndex u <= logIndex u';
  ap_new : forall p pd, p ∈ ul_list u' -> p ∉ ul_list u -> h' !! p = Some pd ->
    logIndex u <= LogIndex pd;
}.

(** An update moves every counter by at most one. *)
Record updated (lc lc' : LightningChannel) : Prop := {
  up_kept : kept lc lc';
  up_room : forall n, room (n + 1) lc -> room n lc';
  up_local : appended (lc_heap lc) (lc_heap lc') (localUpdateLog lc) (localUpdateLog lc');
  up_remote : appended (lc_heap lc) (lc_heap lc') (remoteUpdateLog lc) (remoteUpdateLog lc');
  up_heap : lc_heap lc `prefix_of` lc_heap lc';
}.

Lemma committed_below_quiet rc h h' u u' b :
  quiet h h' u u' -> committed_below rc h u b -> committed_below rc h' u' b.
Proof.
  intros [He (new & El & Hnew)] Hc p pd. rewrite El.
  intros [Hp|Hp]%elem_of_app Hpd Hz.
  - eapply Hc; [done| |done]. by rewrite <- He.
  - destruct (Hnew p Hp) as (pd' & ? & Hu). simplify_eq. destruct (Hu rc) as (? & ? & ?). naive_solver.
Qed.

Lemma updated_quiet lc lc' :
  chan_wf lc -> channelState lc' = channelState lc ->
  localCommitChain lc' = localCommitChain lc -> remoteCommitChain lc' = remoteCommitChain lc ->
  logs_wf (lc_heap lc') (localUpdateLog lc') (remoteUpdateLog lc') ->
  appended (lc_heap lc) (lc_heap lc') (localUpdateLog lc) (localUpdateLog lc') ->
  appended (lc_heap lc) (lc_heap lc') (remoteUpdateLog lc) (remoteUpdateLog lc') ->
  0 <= logIndex (localUpdateLog lc') /\ 0 <= htlcCounter (localUpdateLog lc') ->
  0 <= logIndex (remoteUpdateLog lc') /\ 0 <= htlcCounter (remoteUpdateLog lc') ->
  modifiedHtlcs (localUpdateLog lc) ⊆ modifiedHtlcs (localUpdateLog lc') /\
    modifiedHtlcs (remoteUpdateLog lc) ⊆ modifiedHtlcs (remoteUpdateLog lc') ->
  (forall i q, lookupHtlc (localUpdateLog lc) i = Some q ->
     lookupHtlc (localUpdateLog lc') i = Some q) /\
    (forall i q, lookupHtlc (remoteUpdateLog lc) i = Some q ->
     lookupHtlc (remoteUpdateLog lc') i = Some q) ->
  (forall n, room (n + 1) lc -> room n lc') -> lc_heap lc `prefix_of` lc_heap lc' ->
  updated lc lc'.
Proof.
  intros Hwf Hcs Hlc Hrc Hlogs Hal Har Hl Hr Hm Hh Hroom Hpre.
  pose proof (ap_quiet _ _ _ _ Hal) as Hql. pose proof (ap_quiet _ _ _ _ Har) as Hqr.
  assert (forall rc, commitChain lc' rc = commitChain lc rc) as Hchain
    by (intros []; simpl; congruence).
  assert (forall rc, active rc (lc_heap lc') (localUpdateLog lc') (remoteUpdateLog lc')
          = active rc (lc_heap lc) (localUpdateLog lc) (remoteUpdateLog lc)) as Eo
    by (intros rc; by apply active_quiet).
  assert (forall rc, active rc (lc_heap lc') (remoteUpdateLog lc') (localUpdateLog lc')
          = active rc (lc_heap lc) (remoteUpdateLog lc) (localUpdateLog lc)) as Et
    by (intros rc; by apply active_quiet).
  split; [|done..]. split; try done.
  - split; try done. intros rc. rewrite Hchain.
    destruct (cw_tip _ Hwf rc) as (c & Hc & Hht & Hcl & Hcr). exists c.
    do 2 (split; [done|]). split; by eapply committed_below_quiet.
  - intros rc c. unfold chain_value. rewrite Eo, Et, !zsum_app. f_equal. f_equal.
    + eapply amount_quiet; [exact Hql|]. intros p. apply active_in.
    + eapply amount_quiet; [exact Hqr|]. intros p. apply active_in.
Qed.

(** ** Dry runs *)

Lemma deref_Forall2 (h h' : pd_heap) ps :
  length h' = length h ->
  (forall p pd, h !! p = Some pd -> exists pd', h' !! p = Some pd' /\ same_update pd' pd) ->
  Forall2 same_update (deref h' ps) (deref h ps).
Proof.
  intros Hlen Hs. induction ps as [|p ps IH]; [constructor|]. unfold deref. simpl.
  destruct (h !! p) as [pd|] eqn:Hp.
  - destruct (Hs p pd Hp) as (pd' & -> & Hsu). by constructor.
  - apply lookup_ge_None in Hp. rewrite (lookup_ge_None_2 h') by lia. done.
Qed.

Lemma htlc_size_same lc h h' incoming rc rate dust ps t :
  length h' = length h ->
  (forall p pd, h !! p = Some pd -> exists pd', h' !! p = Some pd' /\ same_update pd' pd) ->
  htlc_size lc h' incoming rc rate dust ps t = htlc_size lc h incoming rc rate dust ps t.
Proof.
  intros Hlen Hs. unfold htlc_size. pose proof (deref_Forall2 h h' ps Hlen Hs) as Hf.
  revert t. induction Hf as [|x y l k Hxy _ IH]; intros t; [done|]. simpl.
  by rewrite (su_amount _ _ Hxy), IH.
Qed.

(** Without [updateState] a view is computed without writing to the channel, and gives
    what the writing computation gives: balances, size and HTLCs, or the same error. *)
Lemma computeView_dry lc view rc lc' r :
  NoDup (ourUpdates view ++ theirUpdates view) ->
  adds_indexed (lc_heap lc) (localUpdateLog lc) ->
  adds_indexed (lc_heap lc) (remoteUpdateLog lc) ->
  computeView lc view rc false = (lc', r) ->
  lc' = lc /\ exists lcm, computeView lc view rc true = (lcm, r) /\ frame lc lcm.
Proof.
  intros Hn Hl Hr. unfold computeView.
  destruct (tip (commitChain lc rc)) as [c|e|]; [|intros [= <- <-]; split; [done|]; by exists lc..].
  match goal with |- context [evaluateHTLCView lc ?v ?o ?t ?n rc false] =>
    set (view1 := v); set (our := o); set (their := t); set (nh := n) end.
  destruct (evaluateHTLCView lc view1 our their nh rc false) as [d r0] eqn:Ed.
  apply evaluate_dry in Ed as (El & m & -> & Hs); [|done..].
  intros [= <- <-]. split; [done|]. destruct Hs as [Hf Eo Et _ Hlen Hsm _].
  exists (ev_lc m). split; [|by rewrite <- El]. f_equal. destruct r0 as [fv|e|]; [|done..].
  simpl. by rewrite Eo, Et, !(htlc_size_same lc (lc_heap (ev_lc d)) (lc_heap (ev_lc m))).
Qed.

Lemma view_nodup h l r ob tb :
  logs_wf h l r -> NoDup (updates_below h ob (ul_list l) ++ updates_below h tb (ul_list r)).
Proof.
  intros Hwf. apply NoDup_app. split; [apply NoDup_filter, Hwf|]. split; [|apply NoDup_filter, Hwf].
  intros p [_ Hp]%list_elem_of_filter [_ Hp']%list_elem_of_filter.
  by apply (gw_disjoint _ _ _ Hwf p).
Qed.

Lemma logs_wf_alloc h l r pd : logs_wf h l r -> logs_wf (h ++ [pd]) l r.
Proof.
  intros [? ? ? Ho Ht]. split; [by apply log_wf_alloc|by apply log_wf_alloc|done| |].
  - eapply (removals_wf_extend h _ l r l r (length h) pd); try done.
    + apply lookup_alloc_old.
    + apply lookup_alloc. by right.
    + by left.
  - eapply (removals_wf_extend h _ r l r l (length h) pd); try done.
    + apply lookup_alloc_old.
    + apply lookup_alloc. by right.
    + by left.
Qed.

(** The HTLCs a sanity check predicts: at most one, which is the newest descriptor. *)
Definition predicts (p : ptr) (po pt : option ptr) : Prop :=
  (po = Some p /\ pt = None) \/ (po = None /\ pt = Some p) \/ (po = None /\ pt = None).

Lemma view_alloc_nodup h l r ob tb pd po pt :
  logs_wf h l r ->
  predicts (length h) po pt ->
  let h' := h ++ [pd] in
  NoDup ((updates_below h' ob (ul_list l) ++ option_list po)
         ++ (updates_below h' tb (ul_list r) ++ option_list pt)).
Proof.
  intros Hwf Hpo h'.
  assert (forall b u, log_wf h u -> length h ∉ updates_below h' b (ul_list u)) as Hf.
  { intros b u Hu [_ Hp]%list_elem_of_filter. by eapply list_below_heap. }
  pose proof (logs_wf_alloc h l r pd Hwf) as Hwf'.
  pose proof (view_nodup h' l r ob tb Hwf') as (Hl & Hd & Hr)%NoDup_app.
  pose proof (Hf ob l (gw_local _ _ _ Hwf)) as Hfl. pose proof (Hf tb r (gw_remote _ _ _ Hwf)) as Hfr.
  destruct Hpo as [[-> ->]|[[-> ->]|[-> ->]]]; simpl; rewrite ?app_nil_r.
  - rewrite <- app_assoc. apply NoDup_app. split; [done|]. split.
    + intros p Hp [->|?]%elem_of_cons; [done|]. by apply (Hd p).
    + simpl. apply NoDup_cons. done.
  - apply NoDup_app. split; [done|]. split.
    + intros p Hp [?| ->%list_elem_of_singleton]%elem_of_app; [by apply (Hd p)|done].
    + apply NoDup_app. split; [done|]. split; [|apply NoDup_singleton].
      by intros p Hp ->%list_elem_of_singleton.
  - by apply NoDup_app.
Qed.

(** A sanity check writes nothing. *)
Lemma sanity_dry lc pd tl ol rc po pt lc' r :
  logs_wf (lc_heap lc) (localUpdateLog lc) (remoteUpdateLog lc) ->
  predicts (length (lc_heap lc)) po pt ->
  validateCommitmentSanity (with_heap lc (lc_heap lc ++ [pd])) tl ol rc po pt = (lc', r) ->
  lc' = with_heap lc (lc_heap lc ++ [pd]).
Proof.
  intros Hwf Hpr. unfold validateCommitmentSanity.
  pose proof (logs_wf_alloc _ _ _ pd Hwf) as Hwf'.
  destruct (tip _) as [c|e|]; [|by intros [= <- <-]..].
  destruct (computeView _ _ rc false) as [lc1 r1] eqn:Ec.
  apply computeView_dry in Ec as [-> _].
  - by intros [= <- <-].
  - by apply view_alloc_nodup.
  - apply log_wf_adds_indexed, Hwf'.
  - apply log_wf_adds_indexed, Hwf'.
Qed.

Lemma validateAddHtlc_dry lc pd lc' r :
  logs_wf (lc_heap lc) (localUpdateLog lc) (remoteUpdateLog lc) ->
  validateAddHtlc (with_heap lc (lc_heap lc ++ [pd])) (length (lc_heap lc)) = (lc', r) ->
  lc' = with_heap lc (lc_heap lc ++ [pd]).
Proof.
  intros Hwf. unfold validateAddHtlc. destruct (tail _) as [c|e|]; [|by intros [= <- <-]..].
  destruct (validateCommitmentSanity _ _ _ true _ _) as [lc1 r1] eqn:E1.
  apply sanity_dry in E1 as ->; [|done|by left].
  destruct r1; [|by intros [= <- <-]..]. intros E2. apply sanity_dry in E2; [done|done|by left].
Qed.

(** ** The operations *)

Lemma uncommitted_heights pd :
  addCommitHeightLocal pd = 0 -> addCommitHeightRemote pd = 0 ->
  removeCommitHeightLocal pd = 0 -> removeCommitHeightRemote pd = 0 ->
  isForwarded pd = false -> uncommitted pd.
Proof. by intros ? ? ? ? ? []. Qed.

(** One new descriptor, appended to a log or not, leaves the commitments alone. *)
Lemma quiet_alloc h pd u u' :
  log_wf h u -> uncommitted pd -> ul_list u' = ul_list u \/ ul_list u' = ul_list u ++ [length h] ->
  quiet h (h ++ [pd]) u u'.
Proof.
  intros Hw Hu Hl. split.
  - intros p Hp. by apply lookup_alloc_old, Hw.
  - destruct Hl as [-> | ->]; [exists []|exists [length h]].
    + rewrite app_nil_r. split; [done|]. by intros p ?%elem_of_nil.
    + split; [done|]. intros p ->%list_elem_of_singleton. exists pd. split; [|done].
      apply lookup_alloc. by right.
Qed.

(** How one operation may change a log; [li] is the log index of what it allocates. *)
Record log_extends (h : pd_heap) (li : Z) (u u' : updateLog) : Prop := {
  le_list : ul_list u' = ul_list u \/ (ul_list u' = ul_list u ++ [length h] /\ li = logIndex u);
  le_marks : modifiedHtlcs u ⊆ modifiedHtlcs u';
  le_htlcs : forall i q, lookupHtlc u i = Some q -> lookupHtlc u' i = Some q;
  le_log : 0 <= logIndex u <= logIndex u' /\ logIndex u' <= logIndex u + 1;
  le_counter : 0 <= htlcCounter u' <= htlcCounter u + 1;
}.

Lemma extends_refl h li u : 0 <= logIndex u -> 0 <= htlcCounter u -> log_extends h li u u.
Proof. intros. split; [by left|done|done|lia|lia]. Qed.

Lemma extends_mark h li u i :
  0 <= logIndex u -> 0 <= htlcCounter u -> log_extends h li u (markHtlcModified u i).
Proof.
  intros. split; [by left| |done|simpl; lia|simpl; lia]. simpl. set_solver.
Qed.

Lemma extends_appendUpdate h li u :
  li = logIndex u ->
  0 <= logIndex u -> logIndex u + 1 < 2 ^ 64 -> 0 <= htlcCounter u ->
  log_extends h li u (appendUpdate u (length h)).
Proof.
  intros. split; [by right|done|done| |simpl; lia]. simpl.
  rewrite u64_small by (unfold is_u64; lia). lia.
Qed.

Lemma extends_appendHtlc h li u :
  log_wf h u -> li = logIndex u ->
  0 <= logIndex u -> logIndex u + 1 < 2 ^ 64 -> 0 <= htlcCounter u -> htlcCounter u + 1 < 2 ^ 64 ->
  log_extends h li u (appendHtlc u (length h)).
Proof.
  intros Hw ? ? ? ? ?. split; [by right|done| | |]; simpl.
  - unfold lookupHtlc. simpl. intros i q Hq. rewrite lookup_insert_ne; [done|]. intros <-.
    destruct (lw_htlcs _ _ Hw _ _ Hq) as (Hin & qd & Hqd & Hqt & Hqi).
    destruct (lw_add _ _ Hw _ _ Hin Hqd Hqt) as [_ ?]. lia.
  - rewrite u64_small by (unfold is_u64; lia). lia.
  - rewrite u64_small by (unfold is_u64; lia). lia.
Qed.

Lemma appended_alloc h pd u u' :
  log_wf h u -> uncommitted pd -> log_extends h (LogIndex pd) u u' ->
  appended h (h ++ [pd]) u u'.
Proof.
  intros Hw Hu [Hl _ _ Hi _]. split; [apply quiet_alloc; [done|done|tauto]|lia|].
  intros p pd' Hp Hnew Hpd'. destruct Hl as [E|[E Hli]]; rewrite E in Hp; [done|].
  apply elem_of_app in Hp as [?| ->%list_elem_of_singleton]; [done|].
  apply lookup_alloc in Hpd' as [Hpd'|[_ ->]]; [|lia].
  apply lookup_lt_Some in Hpd'. lia.
Qed.

Lemma updated_grow lc pd l' r' :
  chan_wf lc -> uncommitted pd ->
  let h' := lc_heap lc ++ [pd] in
  logs_wf h' l' r' ->
  log_extends (lc_heap lc) (LogIndex pd) (localUpdateLog lc) l' ->
  log_extends (lc_heap lc) (LogIndex pd) (remoteUpdateLog lc) r' ->
  updated lc (with_logs (with_heap lc h') l' r').
Proof.
  intros Hwf Hu h' Hlogs Hxl Hxr. destruct (cw_logs _ Hwf) as [Hl Hr _ _ _].
  pose proof (appended_alloc _ _ _ _ Hl Hu Hxl) as Hal.
  pose proof (appended_alloc _ _ _ _ Hr Hu Hxr) as Har.
  destruct Hxl as [_ Hlm Hlh Hlc Hln], Hxr as [_ Hrm Hrh Hrc Hrn].
  apply updated_quiet; try done; simpl.
  - lia.
  - lia.
  - intros n (? & ? & ? & ?). unfold room. simpl. lia.
  - by apply prefix_app_r.
Qed.

(** What the lookups of a removal establish. *)
Lemma removable_ok lc u i e htlc :
  removable lc u i e = Ok htlc ->
  (i ∉ modifiedHtlcs u) /\
  exists q, htlcIndex u !! i = Some q /\ lc_heap lc !! q = Some htlc.
Proof.
  unfold removable, lookupHtlc, index, htlcHasModification.
  destruct (htlcIndex u !! i) as [q|]; [|done]. simpl.
  destruct (lc_heap lc !! q) as [qd|] eqn:Hqd; [|done]. simpl.
  case_bool_decide; [done|]. intros [= <-]. eauto.
Qed.

Lemma removable_fresh lc u e htlc pd :
  uncommitted pd -> Amount pd = Amount htlc ->
  removable lc u (ParentIndex pd) e = Ok htlc ->
  fresh_removal (lc_heap lc) u (markHtlcModified u (ParentIndex pd)) pd.
Proof.
  intros Hu Ha [Hm (q & Hq & Hqd)]%removable_ok. exists q, htlc. do 4 (split; [done|]).
  split; [simpl; set_solver|]. intros rc. apply Hu.
Qed.

Section Grown.
Context (lc : LightningChannel) (pd : PaymentDescriptor).
Context (Hwf : chan_wf lc) (Hroom : room 1 lc) (Hun : uncommitted pd).

Let h' := lc_heap lc ++ [pd].
Let p := length (lc_heap lc).

Lemma updated_local_htlc :
  EntryType pd = Add -> LogIndex pd = logIndex (localUpdateLog lc) ->
  HtlcIndex pd = htlcCounter (localUpdateLog lc) ->
  updated lc (with_logs (with_heap lc h') (appendHtlc (localUpdateLog lc) p) (remoteUpdateLog lc)).
Proof using Hwf Hroom Hun.
  intros. destruct Hwf as [Hlogs _ [] []], Hroom as (? & ? & ? & ?). apply updated_grow; try done.
  - by apply grow_htlc.
  - apply extends_appendHtlc; [apply Hlogs|done..].
  - by apply extends_refl.
Qed.

Lemma updated_remote_htlc :
  EntryType pd = Add -> LogIndex pd = logIndex (remoteUpdateLog lc) ->
  HtlcIndex pd = htlcCounter (remoteUpdateLog lc) ->
  updated lc (with_logs (with_heap lc h') (localUpdateLog lc) (appendHtlc (remoteUpdateLog lc) p)).
Proof using Hwf Hroom Hun.
  intros. destruct Hwf as [Hlogs _ [] []], Hroom as (? & ? & ? & ?). apply updated_grow; try done.
  - by apply logs_wf_sym, grow_htlc; [apply logs_wf_sym|..].
  - by apply extends_refl.
  - apply extends_appendHtlc; [apply Hlogs|done..].
Qed.

Lemma updated_local_fee :
  EntryType pd = FeeUpdate -> LogIndex pd = logIndex (localUpdateLog lc) ->
  updated lc (with_logs (with_heap lc h') (appendUpdate (localUpdateLog lc) p)
                (remoteUpdateLog lc)).
Proof using Hwf Hroom Hun.
  intros Ht Hi. destruct Hwf as [Hlogs _ [] []], Hroom as (? & ? & ? & ?).
  apply updated_grow; try done.
  - pose proof (grow_update (lc_heap lc) (localUpdateLog lc) (remoteUpdateLog lc) pd) as Hg.
    rewrite Ht in Hg. by apply (Hg Hlogs Hun Hi ltac:(done) ltac:(done) 0).
  - by apply extends_appendUpdate.
  - by apply extends_refl.
Qed.

Lemma updated_remote_fee :
  EntryType pd = FeeUpdate -> LogIndex pd = logIndex (remoteUpdateLog lc) ->
  updated lc (with_logs (with_heap lc h') (localUpdateLog lc)
                (appendUpdate (remoteUpdateLog lc) p)).
Proof using Hwf Hroom Hun.
  intros Ht Hi. destruct Hwf as [Hlogs _ [] []], Hroom as (? & ? & ? & ?).
  apply updated_grow; try done.
  - pose proof (grow_update (lc_heap lc) (remoteUpdateLog lc) (localUpdateLog lc) pd) as Hg.
    rewrite Ht in Hg. apply logs_wf_sym. by apply (Hg (logs_wf_sym _ _ _ Hlogs) Hun Hi ltac:(done) ltac:(done) 0).
  - by apply extends_refl.
  - by apply extends_appendUpdate.
Qed.

Lemma updated_local_removal i htlc e :
  is_removal (EntryType pd) = true -> LogIndex pd = logIndex (localUpdateLog lc) ->
  ParentIndex pd = i -> Amount pd = Amount htlc ->
  removable lc (remoteUpdateLog lc) i e = Ok htlc ->
  updated lc (append_local_removal lc pd i).
Proof using Hwf Hroom Hun.
  intros Ht Hi Hpa Ha Hrm. destruct Hwf as [Hlogs _ [] []], Hroom as (? & ? & ? & ?).
  apply updated_grow; try done.
  - pose proof (grow_update (lc_heap lc) (localUpdateLog lc) (remoteUpdateLog lc) pd) as Hg.
    rewrite Ht in Hg. apply (Hg Hlogs Hun Hi); [done..|by destruct (EntryType pd)|].
    intros _. split; [done|]. rewrite <- Hpa in *. by eapply removable_fresh.
  - by apply extends_appendUpdate.
  - by apply extends_mark.
Qed.

Lemma updated_remote_removal i htlc e :
  is_removal (EntryType pd) = true -> LogIndex pd = logIndex (remoteUpdateLog lc) ->
  ParentIndex pd = i -> Amount pd = Amount htlc ->
  removable lc (localUpdateLog lc) i e = Ok htlc ->
  updated lc (append_remote_removal lc pd i).
Proof using Hwf Hroom Hun.
  intros Ht Hi Hpa Ha Hrm. destruct Hwf as [Hlogs _ [] []], Hroom as (? & ? & ? & ?).
  apply updated_grow; try done.
  - pose proof (grow_update (lc_heap lc) (remoteUpdateLog lc) (localUpdateLog lc) pd) as Hg.
    rewrite Ht in Hg. apply logs_wf_sym.
    apply (Hg (logs_wf_sym _ _ _ Hlogs) Hun Hi); [done..|by destruct (EntryType pd)|].
    intros _. split; [done|]. rewrite <- Hpa in *. by eapply removable_fresh.
  - by apply extends_mark.
  - by apply extends_appendUpdate.
Qed.

End Grown.

(** ** Dry runs do not panic *)

Lemma eval_removal_safe ours rc nh p st skip :
  is_Some (lc_heap (ev_lc st) !! p) ->
  adds_indexed (lc_heap (ev_lc st)) (log_of (ev_lc st) ours) ->
  exists st' r, eval_removal ours rc false nh p st skip = (st', r) /\
    ev_lc st' = ev_lc st /\ r <> Panic.
Proof.
  intros [pd Hpd] Hai. unfold eval_removal, index at 1. rewrite Hpd. rewrite count_settle_dry.
  destruct (is_removal (EntryType pd)) eqn:Hr.
  - assert (fetchParent (ev_lc st) pd rc ours <> Panic) as Hf.
    { unfold fetchParent, lookupHtlc. fold (log_of (ev_lc st) ours).
      destruct (htlcIndex _ !! _) as [q|] eqn:Hq; [|done].
      destruct (Hai _ _ Hq) as (qd & Hqd & _). unfold index. rewrite Hqd. simpl.
      by repeat case_match. }
    destruct (fetchParent (ev_lc st) pd rc ours) as [qd|e|] eqn:Ef; [| |done].
    + destruct (processRemoveEntry_dry pd (ev_our st) (ev_their st) nh rc ours)
        as (our' & their' & Ed & _).
      destruct (EntryType pd); try done; simpl; rewrite Ed; do 2 eexists;
        (split; [done|]); simpl; by rewrite list_insert_id, with_heap_id.
    + destruct (EntryType pd); try done; do 2 eexists; done.
  - destruct (EntryType pd) eqn:Ht; try done.
    + by do 2 eexists.
    + destruct (processFeeUpdate_dry pd nh rc (ev_fee st)) as (vf' & -> & _).
      do 2 eexists. split; [done|]. simpl. by rewrite list_insert_id, with_heap_id.
Qed.

Lemma eval_removals_safe ours rc nh ps st skip :
  (forall p, p ∈ ps -> is_Some (lc_heap (ev_lc st) !! p)) ->
  adds_indexed (lc_heap (ev_lc st)) (log_of (ev_lc st) ours) ->
  exists st' r, eval_removals ours rc false nh ps st skip = (st', r) /\
    ev_lc st' = ev_lc st /\ r <> Panic.
Proof.
  revert st skip. induction ps as [|p ps IH]; intros st skip Hps Hai; [by do 2 eexists|].
  destruct (eval_removal_safe ours rc nh p st skip) as (st1 & r1 & E1 & El & Hr1);
    [apply Hps; set_solver|done|]. simpl. rewrite E1.
  destruct r1 as [skip1|e|]; [|by do 2 eexists|done].
  destruct (IH st1 skip1) as (st' & r & E' & El' & Hr'); rewrite ?El; [|done|].
  - intros q Hq. apply Hps. set_solver.
  - exists st', r. split; [done|]. by rewrite El'.
Qed.

Lemma eval_adds_safe isIncoming rc nh skip ps st :
  (forall p, p ∈ ps -> is_Some (lc_heap (ev_lc st) !! p)) ->
  exists st' r, eval_adds isIncoming rc false nh skip ps st = (st', r) /\
    ev_lc st' = ev_lc st /\ r <> Panic.
Proof.
  revert st. induction ps as [|p ps IH]; intros st Hps; [by do 2 eexists|].
  assert (forall q, q ∈ ps -> is_Some (lc_heap (ev_lc st) !! q)) as Hps'
    by (intros q Hq; apply Hps; set_solver).
  simpl. unfold index. destruct (Hps p) as [pd Hpd]; [set_solver|]. rewrite Hpd.
  destruct (_ || _); [by apply IH|].
  destruct (processAddEntry_dry pd (ev_our st) (ev_their st) nh rc isIncoming)
    as (our' & their' & Hd & _). rewrite Hd.
  set (st1 := ev_write _ _ _ _ _ _).
  assert (ev_lc st1 = ev_lc st) as El by (simpl; by rewrite list_insert_id, with_heap_id).
  destruct (IH st1) as (st' & r & E' & El' & Hr'); [by rewrite El|]. rewrite E'.
  do 2 eexists. split; [done|]. rewrite El', El. split; [done|]. by destruct r.
Qed.

Lemma evaluate_safe lc view our their nh rc :
  (forall p, p ∈ ourUpdates view ++ theirUpdates view -> is_Some (lc_heap lc !! p)) ->
  adds_indexed (lc_heap lc) (localUpdateLog lc) ->
  adds_indexed (lc_heap lc) (remoteUpdateLog lc) ->
  snd (evaluateHTLCView lc view our their nh rc false) <> Panic.
Proof.
  intros Hps Hl Hr. unfold evaluateHTLCView.
  set (st0 := {| ev_lc := lc; ev_our := our; ev_their := their; ev_fee := view_feePerKB view |}).
  destruct (eval_removals_safe true rc nh (ourUpdates view) st0 ∅)
    as (st1 & r1 & -> & E1 & H1); [|done|].
  { intros p Hp. apply Hps. apply elem_of_app. by left. }
  destruct r1 as [s1|e|]; [|done|done].
  destruct (eval_removals_safe false rc nh (theirUpdates view) st1 ∅)
    as (st2 & r2 & -> & E2 & H2); [|by rewrite E1|].
  { intros p Hp. rewrite E1. apply Hps. apply elem_of_app. by right. }
  destruct r2 as [s2|e|]; [|done|done].
  destruct (eval_adds_safe false rc nh s2 (ourUpdates view) st2) as (st3 & r3 & -> & E3 & H3).
  { intros p Hp. rewrite E2, E1. apply Hps. apply elem_of_app. by left. }
  destruct r3 as [us|e|]; [|done|done].
  destruct (eval_adds_safe true rc nh s1 (theirUpdates view) st3) as (st4 & r4 & -> & E4 & H4).
  { intros p Hp. rewrite E3, E2, E1. apply Hps. apply elem_of_app. by right. }
  by destruct r4.
Qed.

Lemma computeView_safe lc view rc :
  commitChain lc rc <> [] ->
  (forall p, p ∈ ourUpdates view ++ theirUpdates view -> is_Some (lc_heap lc !! p)) ->
  adds_indexed (lc_heap lc) (localUpdateLog lc) ->
  adds_indexed (lc_heap lc) (remoteUpdateLog lc) ->
  snd (computeView lc view rc false) <> Panic.
Proof.
  intros Hc Hps Hl Hr. unfold computeView, tip.
  destruct (last (commitChain lc rc)) as [c|] eqn:Hla; [|by apply last_None in Hla].
  match goal with |- context [evaluateHTLCView lc ?v ?o ?t ?n rc false] =>
    pose proof (evaluate_safe lc v o t n rc Hps Hl Hr) as Hs;
    destruct (evaluateHTLCView lc v o t n rc false) as [st r] end.
  by destruct r.
Qed.

Lemma bind_safe {A B} (m : res A) (k : A -> res B) :
  m <> Panic -> (forall a, k a <> Panic) -> (m ≫= k) <> Panic.
Proof. destruct m; [|done..]. intros _ Hk. apply Hk. Qed.

Lemma validateUpdates_safe updates cfg : validateUpdates updates cfg <> Panic.
Proof.
  assert (forall m a n, count_in_flight updates m a n <> Panic) as Hc.
  { induction updates as [|pd l IH]; intros m a n; [done|]. simpl. repeat case_match; auto. }
  unfold validateUpdates. specialize (Hc (MinHTLC cfg) 0 0).
  destruct (count_in_flight _ _ _ _) as [[a n]|e|]; [|done|done]. simpl. by repeat case_match.
Qed.

(** The pointers a sanity check looks at are all allocated. *)
Lemma view_alloc_live (h : pd_heap) pd l r ob tb po pt :
  predicts (length h) po pt ->
  forall p, p ∈ (updates_below (h ++ [pd]) ob l ++ option_list po)
              ++ (updates_below (h ++ [pd]) tb r ++ option_list pt) ->
  is_Some ((h ++ [pd]) !! p).
Proof.
  intros Hpr p Hp.
  assert (is_Some ((h ++ [pd]) !! length h)) as Hn
    by (exists pd; apply lookup_alloc; by right).
  rewrite !elem_of_app, !elem_of_below in Hp.
  destruct Hp as [[(_ & x & -> & _)|Hp]|[(_ & x & -> & _)|Hp]]; try done.
  all: destruct Hpr as [[-> ->]|[[-> ->]|[-> ->]]]; simpl in Hp;
    apply list_elem_of_singleton in Hp as -> || apply elem_of_nil in Hp; done.
Qed.

Lemma sanity_safe lc pd tl ol rc po pt :
  chan_wf lc -> predicts (length (lc_heap lc)) po pt ->
  snd (validateCommitmentSanity (with_heap lc (lc_heap lc ++ [pd])) tl ol rc po pt) <> Panic.
Proof.
  intros Hwf Hpr. unfold validateCommitmentSanity.
  destruct (cw_tip _ Hwf rc) as (c & Hc & _).
  assert (commitChain lc rc <> []) as Hne by (by intros E; rewrite E in Hc).
  pose proof (logs_wf_alloc _ _ _ pd (cw_logs _ Hwf)) as Hwf'.
  change (tip (commitChain (with_heap lc _) rc)) with (tip (commitChain lc rc)). rewrite Hc.
  destruct (computeView _ _ rc false) as [lc1 r1] eqn:Ec.
  assert (r1 <> Panic) as Hr1.
  { change r1 with (snd (lc1, r1)). rewrite <- Ec. apply computeView_safe; simpl; try done.
    - by apply view_alloc_live.
    - apply log_wf_adds_indexed, Hwf'.
    - apply log_wf_adds_indexed, Hwf'. }
  destruct r1 as [[[[our their] size] fv]|e|]; [|done|done]. cbn [snd mbind res_bind].
  pose proof validateUpdates_safe as Hv.
  repeat (case_match; try done).
  all: apply bind_safe; [apply Hv|]; intros _; apply Hv.
Qed.

Lemma chain_tail lc rc : chan_wf lc -> exists c, tail (commitChain lc rc) = Ok c.
Proof.
  intros Hwf. destruct (cw_tip _ Hwf rc) as (c & Hc & _).
  destruct (commitChain lc rc) as [|c0 l]; [done|]. by exists c0.
Qed.

Lemma validateAddHtlc_safe lc pd :
  chan_wf lc ->
  snd (validateAddHtlc (with_heap lc (lc_heap lc ++ [pd])) (length (lc_heap lc))) <> Panic.
Proof.
  intros Hwf. unfold validateAddHtlc.
  destruct (chain_tail lc false Hwf) as [c Hc].
  change (tail (localCommitChain (with_heap lc _))) with (tail (commitChain lc false)).
  rewrite Hc. cbn [with_heap localUpdateLog].
  match goal with |- context [validateCommitmentSanity ?l ?a ?b true ?po ?pt] =>
    pose proof (sanity_safe lc pd a b true po pt Hwf) as Hs;
    destruct (validateCommitmentSanity l a b true po pt) as [lc1 r1] eqn:E1 end.
  apply sanity_dry in E1 as ->; [|apply Hwf|by left].
  destruct r1; [|done|by apply Hs; left]. apply sanity_safe; [done|by left].
Qed.

(** The balance available for sending is computed without writing. *)
Lemma availableCommitmentBalance_dry lc tl ol rc lc' r :
  logs_wf (lc_heap lc) (localUpdateLog lc) (remoteUpdateLog lc) ->
  availableCommitmentBalance lc (fetchHTLCView lc tl ol) rc = (lc', r) -> lc' = lc.
Proof.
  intros Hwf. unfold availableCommitmentBalance.
  destruct (computeView _ _ rc false) as [lc1 r1] eqn:Ec.
  apply computeView_dry in Ec as [-> _].
  - destruct r1 as [[[[our their] size] fv]|e|]; [|by intros [= <- <-]..].
    destruct (IsInitiator _); by intros [= <- <-].
  - by apply view_nodup.
  - apply log_wf_adds_indexed, Hwf.
  - apply log_wf_adds_indexed, Hwf.
Qed.

Lemma availableBalance_dry lc :
  chan_wf lc -> exists b, availableBalance lc = (lc, Ok b).
Proof.
  intros Hwf. unfold availableBalance. destruct (cw_tip _ Hwf false) as (c & Hc & _).
  change (localCommitChain lc) with (commitChain lc false). rewrite Hc.
  destruct (availableCommitmentBalance lc _ false) as [lc1 [b1 s1]] eqn:E1.
  apply availableCommitmentBalance_dry in E1 as ->; [|apply Hwf].
  destruct (availableCommitmentBalance lc _ true) as [lc2 [b2 s2]] eqn:E2.
  apply availableCommitmentBalance_dry in E2 as ->; [|apply Hwf]. eauto.
Qed.

Lemma validateFeeRate_dry lc f lc' r :
  chan_wf lc -> validateFeeRate lc f = (lc', r) -> lc' = lc /\ r <> Panic.
Proof.
  intros Hwf. unfold validateFeeRate. destruct (availableBalance_dry lc Hwf) as [[b s] ->].
  destruct (cw_tip _ Hwf false) as (c & Hc & _).
  change (localCommitChain lc) with (commitChain lc false). rewrite Hc. rsimpl.
  intros [= <- <-]. split; [done|]. by case_match.
Qed.

(** *** The operations as one step *)

Section Steps.
Context `{Hasher}.

Inductive chan_op :=
  | OpAddHTLC (htlc : UpdateAddHTLC) (openKey : option CircuitKey)
  | OpReceiveHTLC (htlc : UpdateAddHTLC)
  | OpSettleHTLC (preimage : list byte) (htlcIndex : Z) (sourceRef : option AddRef)
      (destRef : option SettleFailRef) (closeKey : option CircuitKey)
  | OpReceiveHTLCSettle (preimage : list byte) (htlcIndex : Z)
  | OpFailHTLC (htlcIndex : Z) (reason : list byte) (sourceRef : option AddRef)
      (destRef : option SettleFailRef) (closeKey : option CircuitKey)
  | OpMalformedFailHTLC (htlcIndex failCode : Z) (shaOnionBlob : list byte)
      (sourceRef : option AddRef)
  | OpReceiveFailHTLC (htlcIndex : Z) (reason : list byte)
  | OpUpdateFee (feePerKB : Z)
  | OpReceiveUpdateFee (feePerKB : Z).

Definition drop_result {A} (x : LightningChannel * res A) : LightningChannel * res unit :=
  (fst x, _ ← snd x; Ok tt).

(** A removal that fails has written nothing. *)
Definition or_unchanged (lc : LightningChannel) (x : res LightningChannel)
    : LightningChannel * res unit :=
  match x with Ok lc' => (lc', Ok tt) | Err e => (lc, Err e) | Panic => (lc, Panic) end.

Definition chan_step (op : chan_op) (lc : LightningChannel) : LightningChannel * res unit :=
  match op with
  | OpAddHTLC htlc k => drop_result (AddHTLC lc htlc k)
  | OpReceiveHTLC htlc => drop_result (ReceiveHTLC lc htlc)
  | OpSettleHTLC pre i s d k => or_unchanged lc (SettleHTLC lc pre i s d k)
  | OpReceiveHTLCSettle pre i => or_unchanged lc (ReceiveHTLCSettle lc pre i)
  | OpFailHTLC i re s d k => or_unchanged lc (FailHTLC lc i re s d k)
  | OpMalformedFailHTLC i c sh s => or_unchanged lc (MalformedFailHTLC lc i c sh s)
  | OpReceiveFailHTLC i re => or_unchanged lc (ReceiveFailHTLC lc i re)
  | OpUpdateFee f => UpdateFee lc f
  | OpReceiveUpdateFee f => ReceiveUpdateFee lc f
  end.

(** What a step does: on success an update of the channel, on failure nothing. *)
Definition step_ok (lc lc' : LightningChannel) (r : res unit) : Prop :=
  match r with Ok _ => updated lc lc' | Err _ => lc' = lc | Panic => False end.

Lemma AddHTLC_step lc htlc k lc' r :
  chan_wf lc -> room 1 lc -> drop_result (AddHTLC lc htlc k) = (lc', r) -> step_ok lc lc' r.
Proof.
  intros Hwf Hroom. unfold AddHTLC, alloc.
  set (pd := htlcAddDescriptor lc htlc k).
  pose proof (validateAddHtlc_safe lc pd Hwf) as Hs.
  destruct (validateAddHtlc _ _) as [lc1 r1] eqn:E. apply validateAddHtlc_dry in E as ->; [|apply Hwf].
  destruct r1 as [[]|e|]; [| |done]; intros [= <- <-]; simpl.
  - by apply updated_local_htlc; [|done|apply uncommitted_heights|..].
  - by destruct lc.
Qed.

Lemma ReceiveHTLC_step lc htlc lc' r :
  chan_wf lc -> room 1 lc -> drop_result (ReceiveHTLC lc htlc) = (lc', r) -> step_ok lc lc' r.
Proof.
  intros Hwf Hroom. unfold ReceiveHTLC, alloc. case_match; [by intros [= <- <-]|].
  match goal with |- context [lc_heap lc ++ [?x]] => set (pd := x) end.
  destruct (chain_tail lc true Hwf) as [c Hc].
  change (remoteCommitChain lc) with (commitChain lc true). rewrite Hc.
  match goal with |- context [validateCommitmentSanity ?l ?a ?b false ?po ?pt] =>
    pose proof (sanity_safe lc pd a b false po pt Hwf) as Hs;
    destruct (validateCommitmentSanity l a b false po pt) as [lc1 r1] eqn:E end.
  apply sanity_dry in E as ->; [|apply Hwf|by right; left].
  destruct r1 as [[]|e|]; [| |by destruct Hs; [right; left|]]; intros [= <- <-]; simpl.
  - by apply updated_remote_htlc; [|done|apply uncommitted_heights|..].
  - by destruct lc.
Qed.

Lemma removable_safe lc u i e :
  adds_indexed (lc_heap lc) u -> removable lc u i e <> Panic.
Proof.
  intros Hai. unfold removable, lookupHtlc. destruct (htlcIndex u !! i) as [q|] eqn:Hq; [|done].
  destruct (Hai _ _ Hq) as (qd & Hqd & _). unfold index. rewrite Hqd. simpl. by case_match.
Qed.

(** The HTLC a step takes off: on the remote log ([true]) or on the local one. *)
Definition op_removes (op : chan_op) : option (bool * Z) :=
  match op with
  | OpSettleHTLC _ i _ _ _ | OpFailHTLC i _ _ _ _ | OpMalformedFailHTLC i _ _ _ => Some (true, i)
  | OpReceiveHTLCSettle _ i | OpReceiveFailHTLC i _ => Some (false, i)
  | _ => None
  end.

Lemma removable_index lc u i e htlc :
  log_wf (lc_heap lc) u -> removable lc u i e = Ok htlc -> HtlcIndex htlc = i.
Proof.
  intros Hw (_ & q & Hq & Hqd)%removable_ok.
  destruct (lw_htlcs _ _ Hw _ _ Hq) as (_ & qd & ? & _ & ?). congruence.
Qed.

(** The two shapes of a removal: ours, and one we receive. *)
Lemma local_removal_step lc i e (k : PaymentDescriptor -> res LightningChannel) lc' r :
  chan_wf lc -> room 1 lc ->
  (forall htlc, removable lc (remoteUpdateLog lc) i e = Ok htlc ->
     (exists e', k htlc = Err e') \/
     exists pd, k htlc = Ok (append_local_removal lc pd i) /\ uncommitted pd /\
       is_removal (EntryType pd) = true /\ LogIndex pd = logIndex (localUpdateLog lc) /\
       ParentIndex pd = i /\ Amount pd = Amount htlc) ->
  or_unchanged lc (htlc ← removable lc (remoteUpdateLog lc) i e; k htlc) = (lc', r) ->
  step_ok lc lc' r.
Proof.
  intros Hwf Hroom Hk.
  pose proof (removable_safe lc (remoteUpdateLog lc) i e
    (log_wf_adds_indexed _ _ (gw_remote _ _ _ (cw_logs _ Hwf)))) as Hs.
  destruct (removable _ _ i e) as [htlc|e'|] eqn:Er; [|by intros [= <- <-]|done].
  destruct (Hk htlc eq_refl) as [[e' E]|(pd & E & ? & ? & ? & ? & ?)]; rsimpl; rewrite E;
    intros [= <- <-]; [done|]. simpl. by eapply updated_local_removal.
Qed.

Lemma remote_removal_step lc i e (k : PaymentDescriptor -> res LightningChannel) lc' r :
  chan_wf lc -> room 1 lc ->
  (forall htlc, removable lc (localUpdateLog lc) i e = Ok htlc ->
     (exists e', k htlc = Err e') \/
     exists pd, k htlc = Ok (append_remote_removal lc pd i) /\ uncommitted pd /\
       is_removal (EntryType pd) = true /\ LogIndex pd = logIndex (remoteUpdateLog lc) /\
       ParentIndex pd = i /\ Amount pd = Amount htlc) ->
  or_unchanged lc (htlc ← removable lc (localUpdateLog lc) i e; k htlc) = (lc', r) ->
  step_ok lc lc' r.
Proof.
  intros Hwf Hroom Hk.
  pose proof (removable_safe lc (localUpdateLog lc) i e
    (log_wf_adds_indexed _ _ (gw_local _ _ _ (cw_logs _ Hwf)))) as Hs.
  destruct (removable _ _ i e) as [htlc|e'|] eqn:Er; [|by intros [= <- <-]|done].
  destruct (Hk htlc eq_refl) as [[e' E]|(pd & E & ? & ? & ? & ? & ?)]; rsimpl; rewrite E;
    intros [= <- <-]; [done|]. simpl. by eapply updated_remote_removal.
Qed.

Lemma fee_step lc op lc' r :
  (exists f, op = OpUpdateFee f \/ op = OpReceiveUpdateFee f) ->
  chan_wf lc -> room 1 lc -> chan_step op lc = (lc', r) -> step_ok lc lc' r.
Proof.
  intros [f [-> | ->]] Hwf Hroom; simpl.
  - unfold UpdateFee. case_match; [by intros [= <- <-]|].
    destruct (validateFeeRate lc f) as [lc1 r1] eqn:E.
    apply validateFeeRate_dry in E as [-> Hr]; [|done].
    destruct r1 as [[]|e|]; [|by intros [= <- <-]|done]. intros [= <- <-].
    apply updated_local_fee; try done. by apply uncommitted_heights.
  - unfold ReceiveUpdateFee. case_match; intros [= <- <-]; [done|].
    apply updated_remote_fee; try done. by apply uncommitted_heights.
Qed.

Ltac new_removal :=
  right; eexists; split; [done|]; split; [by apply uncommitted_heights|]; done.

Lemma chan_step_ok op lc lc' r :
  chan_wf lc -> room 1 lc -> chan_step op lc = (lc', r) -> step_ok lc lc' r.
Proof.
  intros Hwf Hroom. destruct op.
  - by apply AddHTLC_step.
  - by apply ReceiveHTLC_step.
  - apply local_removal_step; [done|done|]. intros htlc Hh.
    case_match; [left; eauto|]. new_removal.
  - apply remote_removal_step; [done|done|]. intros htlc Hh.
    apply removable_index in Hh; [|apply Hwf].
    case_match; [left; eauto|]. new_removal.
  - apply local_removal_step; [done|done|]. intros htlc Hh. new_removal.
  - apply local_removal_step; [done|done|]. intros htlc Hh. new_removal.
  - apply remote_removal_step; [done|done|]. intros htlc Hh.
    apply removable_index in Hh; [|apply Hwf]. new_removal.
  - by apply fee_step; [eauto|..].
  - by apply fee_step; [eauto|..].
Qed.

End Steps.

(** ** Histories of updates *)

Lemma kept_refl lc : chan_wf lc -> kept lc lc.
Proof. by split. Qed.

Lemma kept_trans lc1 lc2 lc3 : kept lc1 lc2 -> kept lc2 lc3 -> kept lc1 lc3.
Proof.
  intros [_ S1 L1 R1 AL1 AR1 V1 [M1 N1] [H1 G1]] [W2 S2 L2 R2 AL2 AR2 V2 [M2 N2] [H2 G2]].
  split; [done|congruence|congruence|congruence| | | | |].
  - intros rc. by rewrite AL2.
  - intros rc. by rewrite AR2.
  - intros rc c. by rewrite V2.
  - split; set_solver.
  - split; auto.
Qed.

Section Histories.
Context `{Hasher}.

(** The operations in order, with the result of each. *)
Fixpoint chan_run (ops : list chan_op) (lc : LightningChannel)
    : LightningChannel * list (res unit) :=
  match ops with
  | [] => (lc, [])
  | op :: ops' =>
      let '(lc1, r) := chan_step op lc in
      let '(lc', rs) := chan_run ops' lc1 in (lc', r :: rs)
  end.

Lemma room_le m n lc : m <= n -> room n lc -> room m lc.
Proof. unfold room. lia. Qed.

Lemma step_kept op lc lc' r n :
  chan_wf lc -> room (n + 1) lc -> 0 <= n -> chan_step op lc = (lc', r) ->
  kept lc lc' /\ room n lc' /\ r <> Panic.
Proof.
  intros Hwf Hroom Hn E. apply chan_step_ok in E; [|done|by eapply room_le; [|exact Hroom]; lia].
  destruct r as [u|e|]; simpl in E.
  - destruct E as [Hk Hr _ _ _]. auto.
  - subst lc'. split; [by apply kept_refl|]. split; [|done]. eapply room_le; [|exact Hroom]. lia.
  - done.
Qed.

Lemma run_kept ops lc lc' rs :
  chan_wf lc -> room (Z.of_nat (length ops)) lc -> chan_run ops lc = (lc', rs) ->
  kept lc lc' /\ length rs = length ops /\ Forall (.≠ Panic) rs.
Proof.
  revert lc lc' rs. induction ops as [|op ops IH]; intros lc lc' rs Hwf Hroom; simpl.
  { intros [= <- <-]. split; [by apply kept_refl|done]. }
  destruct (chan_step op lc) as [lc1 r] eqn:E1. destruct (chan_run ops lc1) as [lc2 rs'] eqn:E2.
  intros [= <- <-].
  apply (step_kept _ _ _ _ (Z.of_nat (length ops))) in E1 as (Hk & Hr & Hp);
    [|done|by (eapply room_le; [|exact Hroom]; simpl; lia)|lia].
  apply IH in E2 as (Hk2 & Hl & Hps); [|apply Hk|done].
  split; [by eapply kept_trans|]. split; [simpl; congruence|by constructor].
Qed.

(** The log whose HTLCs a removal takes off. *)
Definition removed_log (lc : LightningChannel) (remote : bool) : updateLog :=
  if remote then remoteUpdateLog lc else localUpdateLog lc.

Lemma step_marks op lc lc' u side i :
  op_removes op = Some (side, i) -> chan_step op lc = (lc', Ok u) ->
  i ∈ modifiedHtlcs (removed_log lc' side).
Proof.
  intros Hop. destruct op; simplify_eq/=; unfold or_unchanged;
    (case_match eqn:E; [|done..]); intros [= <- <-].
  all: unfold SettleHTLC, ReceiveHTLCSettle, FailHTLC, MalformedFailHTLC, ReceiveFailHTLC in E;
    revert E; destruct (removable _ _ _ _); [|done..]; rsimpl; try (case_match; [done|]);
    intros [= <-]; simpl; set_solver.
Qed.

Lemma step_refuses op lc lc' r side i :
  op_removes op = Some (side, i) -> i ∈ modifiedHtlcs (removed_log lc side) ->
  chan_step op lc = (lc', r) -> r <> Ok tt.
Proof.
  intros Hop Hm.
  assert (forall e, forall x, removable lc (removed_log lc side) i e <> Ok x) as Hno.
  { intros e x [Hn _]%removable_ok. done. }
  destruct op; simplify_eq/=; unfold or_unchanged;
    (case_match eqn:E; [|by intros [= <- <-]..]).
  all: unfold SettleHTLC, ReceiveHTLCSettle, FailHTLC, MalformedFailHTLC, ReceiveFailHTLC in E;
    revert E; match goal with |- context [removable ?l ?u ?j ?e] =>
      destruct (removable l u j e) eqn:Er; [by apply Hno in Er|done..] end.
Qed.

Lemma run_marked ops lc lc' rs side i b op r :
  chan_wf lc -> room (Z.of_nat (length ops)) lc -> chan_run ops lc = (lc', rs) ->
  i ∈ modifiedHtlcs (removed_log lc side) ->
  ops !! b = Some op -> op_removes op = Some (side, i) -> rs !! b = Some r -> r <> Ok tt.
Proof.
  revert lc rs b. induction ops as [|o ops IH]; intros lc rs b Hwf Hroom; [done|]. simpl.
  destruct (chan_step o lc) as [lc1 r1] eqn:E1. destruct (chan_run ops lc1) as [lc2 rs'] eqn:E2.
  intros [= <- <-] Hm Hb Hop Hr.
  destruct b as [|b]; simplify_eq/=; [by eapply step_refuses|].
  apply (step_kept _ _ _ _ (Z.of_nat (length ops))) in E1 as (Hk & Hro & _);
    [|done|by (eapply room_le; [|exact Hroom]; simpl; lia)|lia].
  eapply IH; [apply Hk|done|exact E2| |done..].
  destruct (kp_marks _ _ Hk) as [Hl Hrm]. destruct side; simpl in *; set_solver.
Qed.

Lemma run_once ops lc lc' rs a b oa ob k r :
  chan_wf lc -> room (Z.of_nat (length ops)) lc -> chan_run ops lc = (lc', rs) ->
  (a < b)%nat -> ops !! a = Some oa -> ops !! b = Some ob ->
  op_removes oa = Some k -> op_removes ob = Some k ->
  rs !! a = Some (Ok tt) -> rs !! b = Some r -> r <> Ok tt.
Proof.
  revert lc rs a b. induction ops as [|o ops IH]; intros lc rs a b Hwf Hroom; [done|]. simpl.
  destruct (chan_step o lc) as [lc1 r1] eqn:E1. destruct (chan_run ops lc1) as [lc2 rs'] eqn:E2.
  intros [= <- <-] Hab Ha Hb Hka Hkb Hra Hrb.
  pose proof E1 as E1'.
  apply (step_kept _ _ _ _ (Z.of_nat (length ops))) in E1 as (Hk & Hro & _);
    [|done|by (eapply room_le; [|exact Hroom]; simpl; lia)|lia].
  destruct a as [|a], b as [|b]; try lia; simplify_eq/=.
  - destruct k as [side i]. eapply run_marked; [apply Hk|done|exact E2| |done..].
    eapply step_marks; [exact Hka|exact E1'].
  - eapply (IH lc1 rs' a b); try done; [apply Hk|lia].
Qed.

End Histories.
