(* ===== verification/ChannelCompact.v ===== *)
(** * The commitment state machine: compaction of the update logs

    [compactLogs] of [lnwallet/channel.go] never removes an element that is missing
    from an index, keeps the logs well-formed, and leaves the HTLCs in flight on
    either chain alone. *)

From Stdlib Require Import Lia.
From S2P Require Import Prelude Sha256 Ids Amounts UpdateLog Channel ChannelEval ChannelInv.

Lemma elem_of_list_remove p q l : q ∈ list_remove p l <-> q <> p /\ q ∈ l.
Proof. unfold list_remove. by rewrite list_elem_of_filter. Qed.

(** ** Dropping one entry of a log *)

Lemma removeUpdate_wf h u p pd :
  log_wf h u -> p ∈ ul_list u -> h !! p = Some pd -> EntryType pd <> Add ->
  exists u', removeUpdate u (LogIndex pd) = Ok u' /\ log_wf h u' /\
    ul_list u' = list_remove p (ul_list u) /\ htlcIndex u' = htlcIndex u /\
    modifiedHtlcs u' = modifiedHtlcs u /\
    logIndex u' = logIndex u /\ htlcCounter u' = htlcCounter u.
Proof.
  intros [Hn Hh Ha Hu Hb Hi Hj] Hp Hpd Ht. unfold removeUpdate. rewrite (Hu p pd) by done.
  eexists. split; [done|]. split; [|done]. split; simpl.
  - by apply NoDup_filter.
  - intros q [_ Hq]%elem_of_list_remove. auto.
  - intros q qd [_ Hq]%elem_of_list_remove. eauto.
  - intros q qd [Hne Hq]%elem_of_list_remove Hqd Hqt. rewrite lookup_delete_ne; [eauto|].
    intros E. pose proof (Hu q qd Hq Hqd Hqt) as E1. pose proof (Hu p pd Hp Hpd Ht). congruence.
  - intros q qd [_ Hq]%elem_of_list_remove. eauto.
  - intros i q Hq. destruct (Hi i q Hq) as (Hin & qd & Hqd & Hqt & Hqi).
    split; [|by exists qd]. apply elem_of_list_remove. split; [|done]. intros ->. congruence.
  - intros i q [Hne Hq]%lookup_delete_Some. destruct (Hj i q Hq) as (Hin & qd & Hqd & Hqt & Hqi).
    split; [|by exists qd]. apply elem_of_list_remove. split; [|done]. intros ->. congruence.
Qed.

Lemma removeHtlc_wf h u i p :
  log_wf h u -> htlcIndex u !! i = Some p ->
  exists u', removeHtlc u i = Ok u' /\ log_wf h u' /\
    ul_list u' = list_remove p (ul_list u) /\ htlcIndex u' = delete i (htlcIndex u) /\
    modifiedHtlcs u' = modifiedHtlcs u ∖ {[ i ]} /\
    logIndex u' = logIndex u /\ htlcCounter u' = htlcCounter u.
Proof.
  intros [Hn Hh Ha Hu Hb Hi Hj] Hp. unfold removeHtlc. rewrite Hp.
  destruct (Hi i p Hp) as (Hin & pd & Hpd & Ht & Hpi).
  eexists. split; [done|]. split; [|done]. split; simpl.
  - by apply NoDup_filter.
  - intros q [_ Hq]%elem_of_list_remove. auto.
  - intros q qd [Hne Hq]%elem_of_list_remove Hqd Hqt. destruct (Ha q qd Hq Hqd Hqt) as [E ?].
    rewrite lookup_delete_ne; [done|]. intros E'. congruence.
  - intros q qd [_ Hq]%elem_of_list_remove. eauto.
  - intros q qd [_ Hq]%elem_of_list_remove. eauto.
  - intros j q [Hne Hq]%lookup_delete_Some. destruct (Hi j q Hq) as (Hqin & qd & Hqd & Hqt & Hqi).
    split; [|by exists qd]. apply elem_of_list_remove. split; [|done]. intros ->. congruence.
  - intros j q Hq. destruct (Hj j q Hq) as (Hqin & qd & Hqd & Hqt & Hqi).
    split; [|by exists qd]. apply elem_of_list_remove. split; [|done]. intros ->. congruence.
Qed.

(** Entries that are gone from two chains' point of view. *)
Definition removed_everywhere (pd : PaymentDescriptor) : Prop :=
  forall rc, removeHeight rc pd <> 0.

(** [active] does not see an inactive entry go. *)
Lemma filter_list_remove (P : ptr -> Prop) `{!forall x, Decision (P x)} p l :
  ~ P p -> filter P (list_remove p l) = filter P l.
Proof.
  intros Hp. unfold list_remove. induction l as [|q l IH]; [done|].
  destruct (decide (q = p)) as [->|Hne].
  - rewrite (filter_cons_False (fun q => q <> p)) by naive_solver.
    by rewrite (filter_cons_False P p l Hp).
  - rewrite (filter_cons_True (fun q => q <> p)) by done.
    destruct (decide (P q)); [rewrite !(filter_cons_True P) by done; by f_equal|].
    by rewrite !(filter_cons_False P) by done.
Qed.

(** What one step of compaction keeps. *)
Record compacted (h : pd_heap) (A B A' B' : updateLog) : Prop := {
  cp_wf : logs_wf h A' B';
  cp_A : forall rc, active rc h A' B' = active rc h A B;
  cp_B : forall rc, active rc h B' A' = active rc h B A;
  cp_listA : forall p, p ∈ ul_list A' -> p ∈ ul_list A;
  cp_listB : forall p, p ∈ ul_list B' -> p ∈ ul_list B;
  cp_logA : logIndex A' = logIndex A /\ htlcCounter A' = htlcCounter A;
  cp_logB : logIndex B' = logIndex B /\ htlcCounter B' = htlcCounter B;
}.

Lemma compacted_refl h A B : logs_wf h A B -> compacted h A B A B.
Proof. by split. Qed.

Lemma compacted_trans h A B A1 B1 A2 B2 :
  compacted h A B A1 B1 -> compacted h A1 B1 A2 B2 -> compacted h A B A2 B2.
Proof.
  intros [W1 X1 Y1 L1 M1 [I1 J1] [K1 N1]] [W2 X2 Y2 L2 M2 [I2 J2] [K2 N2]].
  split; auto; try (split; congruence); intros rc.
  - by rewrite X2.
  - by rewrite Y2.
Qed.

Lemma compacted_sym h A B A' B' : compacted h A B A' B' -> compacted h B A B' A'.
Proof. intros []. split; try done. by apply logs_wf_sym. Qed.

Lemma removed_by_drop rc h u u' p pd :
  ul_list u' = list_remove p (ul_list u) -> h !! p = Some pd -> is_removal (EntryType pd) = false ->
  removed_by rc h u' = removed_by rc h u.
Proof.
  intros El Hpd Hr. apply set_eq. intros i. rewrite !elem_of_removed_by. split.
  - intros (q & qd & Hq & Hrest). rewrite El in Hq. apply elem_of_list_remove in Hq as [_ Hq].
    by exists q, qd.
  - intros (q & qd & Hq & Hqd & Hqr & Hz & Hi). exists q, qd. rewrite El.
    split; [|done]. apply elem_of_list_remove. split; [|done]. intros ->. congruence.
Qed.

Lemma active_drop rc h A A' B B' p :
  ul_list A' = list_remove p (ul_list A) -> removed_by rc h B' = removed_by rc h B ->
  ~ is_active rc h (removed_by rc h B) p ->
  active rc h A' B' = active rc h A B.
Proof. intros El Er Hn. unfold active. rewrite El, Er. by apply filter_list_remove. Qed.

Lemma not_add_inactive rc h s p pd : h !! p = Some pd -> EntryType pd <> Add -> ~ is_active rc h s p.
Proof. intros Hpd Ht Ha. apply (is_active_spec _ _ _ _ _ Hpd) in Ha as [? _]. done. Qed.

Lemma removals_wf_drop h A B A' B' :
  removals_wf h A B ->
  (forall p, p ∈ ul_list A' -> p ∈ ul_list A) ->
  (forall p pd, p ∈ ul_list A' -> h !! p = Some pd -> is_removal (EntryType pd) = true ->
     htlcIndex B' !! ParentIndex pd = htlcIndex B !! ParentIndex pd /\
     (ParentIndex pd ∈ modifiedHtlcs B -> ParentIndex pd ∈ modifiedHtlcs B')) ->
  removals_wf h A' B'.
Proof.
  intros [Hp Hu] Hl Hk. split.
  - intros p pd Hin Hpd Hr. destruct (Hk p pd Hin Hpd Hr) as [-> Hm].
    destruct (Hp p pd (Hl p Hin) Hpd Hr) as (q & qd & ? & ? & ? & ? & ?). exists q, qd. auto 6.
  - intros p pd p' pd' Hin Hpd Hin' Hpd'. apply Hu; auto.
Qed.

Lemma compact_fee h A B p pd :
  logs_wf h A B -> p ∈ ul_list A -> h !! p = Some pd -> EntryType pd = FeeUpdate ->
  exists A', removeUpdate A (LogIndex pd) = Ok A' /\ compacted h A B A' B /\
    ul_list A' = list_remove p (ul_list A).
Proof.
  intros Hwf Hp Hpd Ht. pose proof Hwf as [HA HB Hd Ho Hth].
  assert (EntryType pd <> Add) as Hna by congruence.
  destruct (removeUpdate_wf h A p pd HA Hp Hpd Hna) as (A' & E & HA' & El & Eh & Em & Ec).
  exists A'. split; [done|]. split; [|done].
  assert (forall q, q ∈ ul_list A' -> q ∈ ul_list A) as Hsub
    by (intros q; rewrite El; by intros [_ ?]%elem_of_list_remove).
  assert (forall rc, removed_by rc h A' = removed_by rc h A) as Er
    by (intros rc; eapply removed_by_drop; [done|done|by rewrite Ht]).
  split; try done.
  - split; auto.
    + eapply removals_wf_drop; [exact Ho|done|done].
    + eapply removals_wf_drop; [exact Hth|done|]. by rewrite Eh, Em.
  - intros rc. eapply active_drop; [done|done|]. by eapply not_add_inactive.
  - intros rc. unfold active. by rewrite Er.
Qed.

(** A removal and the HTLC it removes go together. *)
Lemma removed_by_remove rc h A A' B p pd :
  removals_wf h A B -> p ∈ ul_list A -> h !! p = Some pd ->
  is_removal (EntryType pd) = true -> ul_list A' = list_remove p (ul_list A) ->
  forall i, i ∈ removed_by rc h A' <-> i ∈ removed_by rc h A /\ i <> ParentIndex pd.
Proof.
  intros [_ Hu] Hp Hpd Hr El i. rewrite !elem_of_removed_by. split.
  - intros (q & qd & Hq & Hqd & Hqr & Hz & Hi). rewrite El in Hq.
    apply elem_of_list_remove in Hq as [Hne Hq]. split; [by exists q, qd|].
    intros ->. destruct Hne. by apply (Hu q qd p pd).
  - intros [(q & qd & Hq & Hqd & Hqr & Hz & Hi) Hne]. exists q, qd. split; [|done].
    rewrite El. apply elem_of_list_remove. split; [|done]. intros ->. congruence.
Qed.

Lemma compact_removal h A B p pd :
  logs_wf h A B -> p ∈ ul_list A -> h !! p = Some pd -> is_removal (EntryType pd) = true ->
  removed_everywhere pd ->
  exists A' B', removeUpdate A (LogIndex pd) = Ok A' /\ removeHtlc B (ParentIndex pd) = Ok B' /\
    compacted h A B A' B' /\ ul_list A' = list_remove p (ul_list A).
Proof.
  intros Hwf Hp Hpd Hr Hz. pose proof Hwf as [HA HB Hd Ho Hth].
  assert (EntryType pd <> Add) as Hna by (by destruct (EntryType pd)).
  destruct (rw_parent _ _ _ Ho p pd Hp Hpd Hr) as (q & qd & Hq & Hqd & _).
  destruct (lw_htlcs _ _ HB _ _ Hq) as (Hqin & qd' & Hqd' & Hqt & Hqi). simplify_eq.
  destruct (removeUpdate_wf h A p pd HA Hp Hpd Hna) as (A' & E & HA' & El & Eh & Em & Ec).
  destruct (removeHtlc_wf h B (ParentIndex pd) q HB Hq) as (B' & F & HB' & Fl & Fh & Fm & Fc).
  exists A', B'. do 2 (split; [done|]). split; [|done].
  assert (forall x, x ∈ ul_list A' -> x <> p /\ x ∈ ul_list A) as Hsub
    by (intros x; rewrite El; by intros ?%elem_of_list_remove).
  assert (forall x, x ∈ ul_list B' -> x <> q /\ x ∈ ul_list B) as Hsub'
    by (intros x; rewrite Fl; by intros ?%elem_of_list_remove).
  assert (forall rc, removed_by rc h B' = removed_by rc h B) as Er
    by (intros rc; eapply removed_by_drop; [done|done|by rewrite Hqt]).
  split; [| | |intros x Hx; by apply Hsub|intros x Hx; by apply Hsub'|done|done].
  - split; [done|done| | |].
    + intros x [_ Hx]%Hsub [_ Hx']%Hsub'. by apply (Hd x).
    + eapply removals_wf_drop; [exact Ho|intros x Hx; by apply Hsub|]. intros x xd [Hne Hx]%Hsub Hxd Hxr.
      assert (ParentIndex xd <> ParentIndex pd) as Hnp.
      { intros E'. apply Hne. by apply (rw_unique _ _ _ Ho x xd p pd). }
      rewrite Fh, Fm, lookup_delete_ne by done. set_solver.
    + eapply removals_wf_drop; [exact Hth|intros x Hx; by apply Hsub'|]. by rewrite Eh, Em.
  - intros rc. eapply active_drop; [done|done|]. by eapply not_add_inactive.
  - intros rc. pose proof (removed_by_remove rc h A A' B p pd Ho Hp Hpd Hr El) as Hrm.
    unfold active. rewrite Fl. etrans; [|apply (filter_list_remove _ q)].
    + apply filter_ext_in. intros x [Hne Hx]%elem_of_list_remove.
      destruct (lw_heap _ _ HB x Hx) as [xd Hxd]. rewrite !(is_active_spec _ _ _ _ _ Hxd).
      rewrite Hrm. split; [|naive_solver]. intros (Hxt & Hxa & Hxn). do 2 (split; [done|]).
      intros Hin. apply Hxn. split; [done|]. intros E'. apply Hne.
      destruct (lw_add _ _ HB x xd Hx Hxd Hxt). congruence.
    + rewrite (is_active_spec _ _ _ _ _ Hqd). intros (_ & _ & Hn). apply Hn.
      rewrite Hqi. apply elem_of_removed_by. exists p, pd. by auto 6.
Qed.

(** ** The loop *)

(** The entries compaction evicts: removals and fee updates that the tails of both
    chains have passed. *)
Definition evictable (h : pd_heap) (lt rt : Z) (p : ptr) : bool :=
  match h !! p with
  | Some pd =>
      negb (bool_decide (EntryType pd = Add))
      && negb (removeCommitHeightRemote pd =? 0) && negb (removeCommitHeightLocal pd =? 0)
      && (removeCommitHeightRemote pd <=? rt) && (removeCommitHeightLocal pd <=? lt)
  | None => false
  end.

Definition is_add (h : pd_heap) (p : ptr) : bool :=
  match h !! p with Some pd => bool_decide (EntryType pd = Add) | None => false end.

(** What a pass over the entries [es] of [A] does to the lists. *)
Record evicts (h : pd_heap) (es : list ptr) (lt rt : Z) (A B A' B' : updateLog) : Prop := {
  ev_A : ul_list A' = filter (fun p => ~ (p ∈ es /\ evictable h lt rt p)) (ul_list A);
  ev_B : filter (fun p => ~ is_add h p) (ul_list B') = filter (fun p => ~ is_add h p) (ul_list B);
}.

Lemma evictable_spec h lt rt p pd :
  h !! p = Some pd ->
  evictable h lt rt p =
  if bool_decide (EntryType pd = Add) then false
  else if (removeCommitHeightRemote pd =? 0) || (removeCommitHeightLocal pd =? 0) then false
  else (removeCommitHeightRemote pd <=? rt) && (removeCommitHeightLocal pd <=? lt).
Proof.
  intros Hp. unfold evictable. rewrite Hp.
  destruct (bool_decide _), (_ =? 0), (_ =? 0), (_ <=? _); done.
Qed.

Lemma evicts_skip h e es lt rt A B A' B' :
  evictable h lt rt e = false -> evicts h es lt rt A B A' B' -> evicts h (e :: es) lt rt A B A' B'.
Proof.
  intros He [HA HB]. split; [|done]. rewrite HA. apply filter_ext_in. intros p _.
  rewrite elem_of_cons. split; [|naive_solver]. intros Hn [[->|Hp] Hv]; [|naive_solver].
  by rewrite He in Hv.
Qed.

Lemma evicts_drop h e es lt rt A B A1 B1 A' B' :
  evictable h lt rt e -> ul_list A1 = list_remove e (ul_list A) ->
  filter (fun p => ~ is_add h p) (ul_list B1) = filter (fun p => ~ is_add h p) (ul_list B) ->
  evicts h es lt rt A1 B1 A' B' -> evicts h (e :: es) lt rt A B A' B'.
Proof.
  intros He El Eb [HA HB]. split; [|congruence]. rewrite HA, El. unfold list_remove.
  rewrite list_filter_filter. apply filter_ext_in. intros p _. rewrite elem_of_cons.
  split; [naive_solver|]. intros Hn. split; [naive_solver|]. intros ->. naive_solver.
Qed.

Lemma compact_entries_ok h lt rt es A B :
  logs_wf h A B -> NoDup es -> (forall e, e ∈ es -> e ∈ ul_list A) ->
  exists A' B', compact_entries h es A B lt rt = Ok (A', B') /\ compacted h A B A' B' /\
    evicts h es lt rt A B A' B'.
Proof.
  revert A B. induction es as [|e es IH]; intros A B Hwf Hnd Hin.
  { exists A, B. split; [done|]. split; [by apply compacted_refl|]. split; [|done].
    symmetry. apply filter_all. intros p _ [Hp _]. by apply elem_of_nil in Hp. }
  apply NoDup_cons in Hnd as [He Hnd].
  assert (forall x, x ∈ es -> x ∈ ul_list A) as Hin' by (intros x Hx; apply Hin; set_solver).
  assert (e ∈ ul_list A) as HeA by (apply Hin; set_solver).
  destruct (lw_heap _ _ (gw_local _ _ _ Hwf) e HeA) as [pd Hpd].
  simpl. unfold index. rewrite Hpd. simpl. pose proof (evictable_spec h lt rt e pd Hpd) as Hev.
  assert (evictable h lt rt e = false -> exists A' B',
    compact_entries h es A B lt rt = Ok (A', B') /\ compacted h A B A' B' /\
    evicts h (e :: es) lt rt A B A' B') as Hskip.
  { intros Hf. destruct (IH A B Hwf Hnd Hin') as (A' & B' & E & Hc & Hv).
    exists A', B'. do 2 (split; [done|]). by apply evicts_skip. }
  case_bool_decide as Ht; [by apply Hskip|].
  destruct (_ || _) eqn:Hz; [by apply Hskip|]. apply orb_false_iff in Hz as [Hz1 Hz2].
  destruct (_ && _) eqn:Hle; [|by apply Hskip]. clear Hskip. apply Is_true_true in Hev.
  assert (forall A1 x, ul_list A1 = list_remove e (ul_list A) -> x ∈ es -> x ∈ ul_list A1) as Hin1.
  { intros A1 x -> Hx. apply elem_of_list_remove. split; [by intros ->|auto]. }
  case_bool_decide as Hf.
  - destruct (compact_fee h A B e pd) as (A1 & -> & Hc1 & El); [done..|]. rsimpl.
    destruct (IH A1 B) as (A' & B' & E & Hc & Hv); [apply Hc1|done|eauto|].
    exists A', B'. split; [done|]. split; [by eapply compacted_trans|].
    by eapply evicts_drop.
  - destruct (compact_removal h A B e pd) as (A1 & B1 & -> & F & Hc1 & El); try done.
    { by destruct (EntryType pd). }
    { apply Z.eqb_neq in Hz1, Hz2. by intros []. }
    rewrite F. rsimpl.
    destruct (IH A1 B1) as (A' & B' & E & Hc & Hv); [apply Hc1|done|eauto|].
    exists A', B'. split; [done|]. split; [by eapply compacted_trans|].
    eapply evicts_drop; [done|done| |done].
    unfold removeHtlc in F. destruct (htlcIndex B !! ParentIndex pd) as [q|] eqn:Hq; [|done].
    injection F as <-. apply filter_list_remove.
    destruct (lw_htlcs _ _ (gw_remote _ _ _ Hwf) _ _ Hq) as (_ & qd & Hqd & Hqt & _).
    intros Hn. apply Hn. unfold is_add. by rewrite Hqd, bool_decide_true.
Qed.

(** The entries other than additions that compaction keeps. *)
Definition kept_updates (h : pd_heap) (lt rt : Z) (ps : list ptr) : list ptr :=
  filter (fun p => ~ is_add h p /\ ~ evictable h lt rt p) ps.

Lemma filter_comm (P Q : ptr -> Prop) `{!forall x, Decision (P x)} `{!forall x, Decision (Q x)}
    (l : list ptr) : filter P (filter Q l) = filter Q (filter P l).
Proof. rewrite !list_filter_filter. apply filter_ext_in. naive_solver. Qed.

Lemma pass_evicts h lt rt A B A' B' :
  evicts h (ul_list A) lt rt A B A' B' ->
  ul_list A' = filter (fun p => ~ evictable h lt rt p) (ul_list A).
Proof. intros [-> _]. apply filter_ext_in. intros p Hp. naive_solver. Qed.

Lemma compactLogs_ok h l r lt rt :
  logs_wf h l r ->
  exists l' r', compactLogs h l r lt rt = Ok (l', r') /\ compacted h l r l' r' /\
    filter (fun p => ~ is_add h p) (ul_list l') = kept_updates h lt rt (ul_list l) /\
    filter (fun p => ~ is_add h p) (ul_list r') = kept_updates h lt rt (ul_list r).
Proof.
  intros Hwf. unfold compactLogs, compactLog, kept_updates.
  destruct (compact_entries_ok h lt rt (ul_list l) l r) as (l1 & r1 & -> & C1 & V1);
    [done|apply Hwf|done|]. rsimpl.
  pose proof (logs_wf_sym _ _ _ (cp_wf _ _ _ _ _ C1)) as W1.
  destruct (compact_entries_ok h lt rt (ul_list r1) r1 l1) as (r' & l' & -> & C2 & V2);
    [done|apply W1|done|]. rsimpl.
  exists l', r'. split; [done|].
  split; [eapply compacted_trans; [exact C1|by apply compacted_sym]|].
  pose proof (pass_evicts _ _ _ _ _ _ _ V1) as E1. pose proof (pass_evicts _ _ _ _ _ _ _ V2) as E2.
  split.
  - by rewrite (ev_B _ _ _ _ _ _ _ _ V2), E1, list_filter_filter.
  - rewrite E2, filter_comm, (ev_B _ _ _ _ _ _ _ _ V1), filter_comm. by rewrite list_filter_filter.
Qed.
