(* ===== verification/ChannelThms.v ===== *)
(** * The commitment state machine: what the logs and views guarantee

    Evaluating a view gives the HTLCs in flight and conserves value; dry runs agree with
    the runs that write; updates never touch what is committed; an HTLC is removed at
    most once; compaction only drops what both chains have forgotten. *)

From Stdlib Require Import Lia.
From S2P Require Import Prelude Sha256 Ids Amounts UpdateLog Channel ChannelEval ChannelInv ChannelCompact.

(** ** Evaluations succeed *)

(** The removals of a view refer to HTLCs that are on the chain. *)
Definition removals_committed (lc : LightningChannel) (rc : bool) (v : htlcView) : Prop :=
  (forall p pd, p ∈ ourUpdates v -> lc_heap lc !! p = Some pd ->
     is_removal (EntryType pd) = true -> parent_committed lc true rc pd) /\
  (forall p pd, p ∈ theirUpdates v -> lc_heap lc !! p = Some pd ->
     is_removal (EntryType pd) = true -> parent_committed lc false rc pd).

Lemma eval_removal_total ours rc nh p pd st skip :
  lc_heap (ev_lc st) !! p = Some pd ->
  (is_removal (EntryType pd) = true -> parent_committed (ev_lc st) ours rc pd) ->
  exists st' skip', eval_removal ours rc false nh p st skip = (st', Ok skip') /\
    ev_lc st' = ev_lc st.
Proof.
  intros Hpd Hpar. unfold eval_removal, index. rewrite Hpd, count_settle_dry.
  destruct (is_removal (EntryType pd)) eqn:Hr.
  - destruct (Hpar eq_refl) as (q & qd & Hq).
    rewrite (proj2 (fetchParent_ok (ev_lc st) pd rc ours qd)) by (by exists q).
    destruct (processRemoveEntry_dry pd (ev_our st) (ev_their st) nh rc ours)
      as (our' & their' & Ed & _).
    destruct (EntryType pd); try done; simpl; rewrite Ed; do 2 eexists;
      (split; [done|]); simpl; by rewrite list_insert_id, with_heap_id.
  - destruct (EntryType pd) eqn:Ht; try done; [by do 2 eexists|].
    destruct (processFeeUpdate_dry pd nh rc (ev_fee st)) as (vf' & -> & _).
    do 2 eexists. split; [done|]. simpl. by rewrite list_insert_id, with_heap_id.
Qed.

Lemma eval_removals_total ours rc nh ps st skip :
  (forall p, p ∈ ps -> exists pd, lc_heap (ev_lc st) !! p = Some pd /\
     (is_removal (EntryType pd) = true -> parent_committed (ev_lc st) ours rc pd)) ->
  exists st' skip', eval_removals ours rc false nh ps st skip = (st', Ok skip') /\
    ev_lc st' = ev_lc st.
Proof.
  revert st skip. induction ps as [|p ps IH]; intros st skip Hps; [by do 2 eexists|].
  destruct (Hps p) as (pd & Hpd & Hpar); [apply list_elem_of_here|].
  destruct (eval_removal_total ours rc nh p pd st skip Hpd Hpar) as (st1 & s1 & E1 & El).
  simpl. rewrite E1. destruct (IH st1 s1) as (st' & s' & E' & El').
  - intros q Hq. rewrite El. by apply Hps, list_elem_of_further.
  - exists st', s'. split; [done|congruence].
Qed.

Lemma eval_adds_total isIncoming rc nh skip ps st :
  (forall p, p ∈ ps -> is_Some (lc_heap (ev_lc st) !! p)) ->
  exists st' us, eval_adds isIncoming rc false nh skip ps st = (st', Ok us) /\
    ev_lc st' = ev_lc st.
Proof.
  revert st. induction ps as [|p ps IH]; intros st Hps; [by do 2 eexists|].
  assert (forall q, q ∈ ps -> is_Some (lc_heap (ev_lc st) !! q)) as Hps'
    by (intros q Hq; by apply Hps, list_elem_of_further).
  simpl. unfold index. destruct (Hps p) as [pd Hpd]; [apply list_elem_of_here|]. rewrite Hpd.
  destruct (_ || _); [by apply IH|].
  destruct (processAddEntry_dry pd (ev_our st) (ev_their st) nh rc isIncoming)
    as (our' & their' & Hd & _). rewrite Hd.
  set (st1 := ev_write _ _ _ _ _ _).
  assert (ev_lc st1 = ev_lc st) as El by (simpl; by rewrite list_insert_id, with_heap_id).
  destruct (IH st1) as (st' & us & E' & El'); [by rewrite El|]. rewrite E'. simpl.
  do 2 eexists. split; [done|congruence].
Qed.

Lemma evaluate_total lc view our their nh rc :
  (forall p, p ∈ ourUpdates view ++ theirUpdates view -> is_Some (lc_heap lc !! p)) ->
  removals_committed lc rc view ->
  exists st fv, evaluateHTLCView lc view our their nh rc false = (st, Ok fv).
Proof.
  intros Hps [Ho Ht].
  assert (forall p, p ∈ ourUpdates view -> is_Some (lc_heap lc !! p)) as Hpo
    by (intros p Hp; apply Hps, elem_of_app; by left).
  assert (forall p, p ∈ theirUpdates view -> is_Some (lc_heap lc !! p)) as Hpt
    by (intros p Hp; apply Hps, elem_of_app; by right).
  unfold evaluateHTLCView.
  set (st0 := {| ev_lc := lc; ev_our := our; ev_their := their; ev_fee := view_feePerKB view |}).
  destruct (eval_removals_total true rc nh (ourUpdates view) st0 ∅) as (st1 & s1 & -> & E1).
  { intros p Hp. destruct (Hpo p Hp) as [pd Hpd]. exists pd. eauto. }
  destruct (eval_removals_total false rc nh (theirUpdates view) st1 ∅) as (st2 & s2 & -> & E2).
  { intros p Hp. rewrite E1. destruct (Hpt p Hp) as [pd Hpd]. exists pd. eauto. }
  destruct (eval_adds_total false rc nh s2 (ourUpdates view) st2) as (st3 & us & -> & E3).
  { rewrite E2, E1. done. }
  destruct (eval_adds_total true rc nh s1 (theirUpdates view) st3) as (st4 & them & -> & E4).
  { rewrite E3, E2, E1. done. }
  by do 2 eexists.
Qed.

Lemma view_live lc tb ob p :
  p ∈ ourUpdates (fetchHTLCView lc tb ob) ++ theirUpdates (fetchHTLCView lc tb ob) ->
  is_Some (lc_heap lc !! p).
Proof.
  simpl. rewrite elem_of_app, !elem_of_below.
  by intros [(_ & pd & -> & _)|(_ & pd & -> & _)].
Qed.

Lemma committed_below_mono rc h u b b' :
  committed_below rc h u b -> b <= b' -> committed_below rc h u b'.
Proof. intros Hc Hb p pd Hp Hpd Hz. specialize (Hc p pd Hp Hpd Hz). lia. Qed.

(** ** Views that are committed *)

(** What computing a view for chain [rc], on top of its tip [c], establishes. *)
Record view_committed (rc : bool) (ob tb : Z) (lc : LightningChannel) (c : commitment)
    (lc' : LightningChannel) (our their : Z) (fv : htlcView) : Prop := {
  vc_frame : frame lc lc';
  vc_grows : heap_grows rc (lc_heap lc) (lc_heap lc');
  vc_wf : logs_wf (lc_heap lc') (localUpdateLog lc) (remoteUpdateLog lc);
  vc_local : committed_below rc (lc_heap lc') (localUpdateLog lc) ob;
  vc_remote : committed_below rc (lc_heap lc') (remoteUpdateLog lc) tb;
  vc_ours : ourUpdates fv
    = active rc (lc_heap lc') (localUpdateLog lc) (remoteUpdateLog lc);
  vc_theirs : theirUpdates fv
    = active rc (lc_heap lc') (remoteUpdateLog lc) (localUpdateLog lc);
  vc_value : cong (our + their
                   + zsum (amount_at (lc_heap lc')) (ourUpdates fv ++ theirUpdates fv))
                  (chain_value lc rc c);
}.

Lemma next_height h : 0 <= h < 2 ^ 64 - 1 -> u64 (h + 1) <> 0.
Proof. intros. rewrite u64_small by (unfold is_u64; lia). lia. Qed.

Lemma computeView_mutates lc rc ob tb c lc' our their size fv :
  chan_wf lc -> tip (commitChain lc rc) = Ok c ->
  ourMessageIndex c <= ob -> theirMessageIndex c <= tb ->
  computeView lc (fetchHTLCView lc tb ob) rc true = (lc', Ok (our, their, size, fv)) ->
  view_committed rc ob tb lc c lc' our their fv.
Proof.
  intros Hwf Hc Hob Htb. destruct (cw_tip _ Hwf rc) as (c' & Hc' & Hht & Hcl & Hcr).
  rewrite Hc in Hc'. injection Hc' as <-. unfold computeView. rewrite Hc.
  destruct (evaluateHTLCView _ _ _ _ _ rc true) as [st r] eqn:Ev.
  destruct r as [fv'|e|]; [|done|done]. intros [= <- <- <- <- <-].
  apply (evaluate_mutates _ _ _ _ _ _ _ _ ob tb) in Ev as [? ? ? ? ? ? ? Hb];
    [|by apply next_height|apply Hwf|done|done|by eapply committed_below_mono..].
  split; try done. unfold chain_value. apply cong_alt in Hb as [k Hb].
  destruct (IsInitiator (channelState lc)).
  - pose proof (cong_u64 (ourBalance c + NewMAtomsFromAtoms (fee c))) as [j Hj]%cong_alt.
    apply cong_alt. exists (k + j). lia.
  - pose proof (cong_u64 (theirBalance c + NewMAtomsFromAtoms (fee c))) as [j Hj]%cong_alt.
    apply cong_alt. exists (k + j). lia.
Qed.

Lemma computeView_total lc rc ob tb c :
  chan_wf lc -> tip (commitChain lc rc) = Ok c ->
  removals_committed lc rc (fetchHTLCView lc tb ob) ->
  exists lc' our their size fv,
    computeView lc (fetchHTLCView lc tb ob) rc true = (lc', Ok (our, their, size, fv)) /\
    computeView lc (fetchHTLCView lc tb ob) rc false = (lc, Ok (our, their, size, fv)).
Proof.
  intros Hwf Hc Hrm.
  destruct (computeView lc (fetchHTLCView lc tb ob) rc false) as [lcd r] eqn:Ed.
  assert (exists x, r = Ok x) as [[[[our their] size] fv] ->].
  { revert Ed. unfold computeView. rewrite Hc.
    match goal with |- context [evaluateHTLCView lc ?v ?o ?t ?n rc false] =>
      destruct (evaluate_total lc v o t n rc) as (st & fv & ->) end.
    - apply view_live.
    - done.
    - intros [= <- <-]. by eexists. }
  apply computeView_dry in Ed as (-> & lcm & Em & _).
  - by exists lcm, our, their, size, fv.
  - apply view_nodup, Hwf.
  - apply log_wf_adds_indexed, Hwf.
  - apply log_wf_adds_indexed, Hwf.
Qed.

(** ** The claims *)

(** C22. Computing a view for a chain (with the parents of all its removals on the
    chain) succeeds.  The HTLCs it returns are those then in flight on the chain; the
    logs stay well-formed; what the chain has committed lies below the indexes the view
    was taken at; and both balances together with the HTLCs in flight make up, in
    64-bit arithmetic, what they made up on the tip, its fee included: evaluating the
    logs neither creates nor loses funds. *)
Theorem computeView_conserves (lc : LightningChannel) (rc : bool) (ob tb : Z) (c : commitment)
    (Hwf : chan_wf lc) (Hc : tip (commitChain lc rc) = Ok c)
    (Hob : ourMessageIndex c <= ob) (Htb : theirMessageIndex c <= tb)
    (Hrm : removals_committed lc rc (fetchHTLCView lc tb ob)) :
  exists lc' our their size fv,
    computeView lc (fetchHTLCView lc tb ob) rc true = (lc', Ok (our, their, size, fv)) /\
    view_committed rc ob tb lc c lc' our their fv.
Proof.
  destruct (computeView_total lc rc ob tb c Hwf Hc Hrm) as (lc' & our & their & size & fv & E & _).
  exists lc', our, their, size, fv. split; [done|]. by eapply computeView_mutates.
Qed.


Section Claims.
Context `{Hasher}.

(** Whatever updates are made or received, in whatever order and whether they
    succeed or are refused, none of them panics, the channel's invariant holds
    afterwards, and nothing committed has changed: both chains, the HTLCs in flight on
    each and the value they carry are what they were. *)
Theorem updates_keep_commitments (ops : list chan_op) (lc : LightningChannel)
    (Hwf : chan_wf lc) (Hroom : room (Z.of_nat (length ops)) lc) :
  kept lc (fst (chan_run ops lc)) /\ Forall (.≠ Panic) (snd (chan_run ops lc)).
Proof.
  destruct (chan_run ops lc) as [lc' rs] eqn:E. by apply run_kept in E as (? & _ & ?).
Qed.

(** C28. In any history of updates an HTLC is settled or failed at most once: after a
    removal that succeeded, every later removal of the same HTLC is answered with an
    error, whichever operation asks for it. *)
Theorem removed_at_most_once (ops : list chan_op) (lc : LightningChannel) (a b : nat)
    (oa ob : chan_op) (k : bool * Z)
    (Hwf : chan_wf lc) (Hroom : room (Z.of_nat (length ops)) lc) (Hab : (a < b)%nat)
    (Ha : ops !! a = Some oa) (Hb : ops !! b = Some ob)
    (Hka : op_removes oa = Some k) (Hkb : op_removes ob = Some k)
    (Hok : snd (chan_run ops lc) !! a = Some (Ok tt)) :
  exists e, snd (chan_run ops lc) !! b = Some (Err e).
Proof.
  destruct (chan_run ops lc) as [lc' rs] eqn:E. simpl in *.
  pose proof (run_kept _ _ _ _ Hwf Hroom E) as (_ & Hl & Hp).
  destruct (lookup_lt_is_Some_2 rs b) as [r Hr]; [rewrite Hl; by eapply lookup_lt_Some|].
  pose proof (run_once ops lc lc' rs a b oa ob k r Hwf Hroom E Hab Ha Hb Hka Hkb Hok Hr) as Hn.
  destruct r as [[]|e|]; [done|by exists e|]. by eapply Forall_lookup_1 in Hp.
Qed.

End Claims.

(** Compaction never removes an element that its index does not have (which would
    panic).  The logs stay well-formed, the HTLCs in flight on either chain are the
    same, and of the other entries exactly those are dropped whose removal both tails
    have passed. *)
Theorem compactLogs_keeps (h : pd_heap) (l r : updateLog) (lt rt : Z) (Hwf : logs_wf h l r) :
  exists l' r', compactLogs h l r lt rt = Ok (l', r') /\ compacted h l r l' r' /\
    filter (fun p => ~ is_add h p) (ul_list l') = kept_updates h lt rt (ul_list l) /\
    filter (fun p => ~ is_add h p) (ul_list r') = kept_updates h lt rt (ul_list r).
Proof. by apply compactLogs_ok. Qed.

(** ** A concrete channel *)

Definition ex_cfg : ChannelConstraints :=
  {| DustLimit := 6030; ChanReserve := 100000; MaxPendingAmount := 100000000000;
     MinHTLC := 1; MaxAcceptedHtlcs := 300; CsvDelay := 4 |}.

Definition ex_commit (ours : bool) : commitment :=
  {| height := 0; isOurs := ours; ourMessageIndex := 0; theirMessageIndex := 0;
     ourHtlcIndex := 0; theirHtlcIndex := 0;
     txn := {| MsgTx_TxIn := []; MsgTx_TxOut := []; LockTime := 0 |}; sig := [];
     ourBalance := 500000000000; theirBalance := 499992720000; fee := 7280;
     feePerKB := 20000; dustLimit := 6030; outgoingHTLCs := []; incomingHTLCs := [];
     outgoingHTLCIndex := ∅; incomingHTLCIndex := ∅ |}.

(** A channel the other party opened, without HTLCs. *)
Definition ex_channel : LightningChannel :=
  {| lc_heap := [];
     channelState := {| ChanType := 2; FundingOutpoint := (replicate 32 x01, 0);
                        Capacity := 1000000000; ThawHeight := 0; IsInitiator := false; LocalChanCfg := ex_cfg;
                        RemoteChanCfg := ex_cfg; LocalMultiSigKey := [x02];
                        RemoteMultiSigKey := [x03]; TotalMAtomsSent := 0;
                        TotalMAtomsReceived := 0 |};
     localCommitChain := [ex_commit true]; remoteCommitChain := [ex_commit false];
     localUpdateLog := newUpdateLog 0 0; remoteUpdateLog := newUpdateLog 0 0 |}.

Lemma newUpdateLog_wf h i c : log_wf h (newUpdateLog i c).
Proof.
  split; simpl; [constructor| | | | | |].
  1-4: by intros p ?%elem_of_nil || by intros p pd ?%elem_of_nil.
  all: intros ? ?; by rewrite lookup_empty.
Qed.

Lemma newUpdateLogs_wf h i c j d : logs_wf h (newUpdateLog i c) (newUpdateLog j d).
Proof.
  split; [apply newUpdateLog_wf|apply newUpdateLog_wf| | |]; simpl.
  - intros p ?%elem_of_nil. done.
  - split; simpl; intros p pd; [|intros p' pd']; by intros ?%elem_of_nil.
  - split; simpl; intros p pd; [|intros p' pd']; by intros ?%elem_of_nil.
Qed.

Lemma ex_channel_wf : chan_wf ex_channel.
Proof.
  split; [apply newUpdateLogs_wf| |done|done].
  intros rc. exists (ex_commit (negb rc)). split; [by destruct rc|]. split; [simpl; lia|].
  split; intros p pd ?%elem_of_nil; done.
Qed.

(** An HTLC of 20000000 milli-atoms for the preimage of 32 zero bytes. *)
Definition ex_preimage : list byte := replicate 32 x00.

Definition ex_htlc : UpdateAddHTLC :=
  {| Add_ID := 0; Add_Amount := 20000000; Add_PaymentHash := digest ex_preimage;
     Add_Expiry := 100; Add_OnionBlob := [] |}.

(** The HTLC is received, settled, and then failed. *)
Definition ex_ops : list chan_op :=
  [OpReceiveHTLC ex_htlc; OpSettleHTLC ex_preimage 0 None None None;
   OpFailHTLC 0 [] None None None].

Lemma ex_room n : 0 <= n < 2 ^ 60 -> room n ex_channel.
Proof. intros. unfold room, ex_channel. simpl. lia. Qed.

Definition ex_channel1 : LightningChannel := fst (chan_run [OpReceiveHTLC ex_htlc] ex_channel).

Lemma ex_channel1_wf : chan_wf ex_channel1.
Proof.
  unfold ex_channel1. destruct (chan_run _ _) as [lc rs] eqn:E.
  apply run_kept in E as [Hk _]; [apply Hk|apply ex_channel_wf|]. apply ex_room. simpl. lia.
Qed.

Lemma computeView_conserves_witness :
  exists lc' our their size fv,
    computeView ex_channel1 (fetchHTLCView ex_channel1 1 0) false true
      = (lc', Ok (our, their, size, fv)) /\
    view_committed false 0 1 ex_channel1 (ex_commit true) lc' our their fv.
Proof.
  apply (computeView_conserves ex_channel1 false 0 1 (ex_commit true) ex_channel1_wf).
  - vm_compute. reflexivity.
  - simpl. lia.
  - simpl. lia.
  - split.
    + assert (ourUpdates (fetchHTLCView ex_channel1 1 0) = []) as -> by (vm_compute; reflexivity).
      by intros p pd ?%elem_of_nil.
    + assert (theirUpdates (fetchHTLCView ex_channel1 1 0) = [0%nat]) as ->
        by (vm_compute; reflexivity).
      intros p pd ->%list_elem_of_singleton. vm_compute. intros [= <-]. discriminate.
Defined.


Lemma updates_keep_commitments_witness :
  kept ex_channel (fst (chan_run ex_ops ex_channel)) /\
  Forall (.≠ Panic) (snd (chan_run ex_ops ex_channel)).
Proof.
  apply (updates_keep_commitments ex_ops ex_channel ex_channel_wf). apply ex_room. simpl. lia.
Defined.

Lemma removed_at_most_once_witness :
  exists e, snd (chan_run ex_ops ex_channel) !! 2%nat = Some (Err e).
Proof.
  apply (removed_at_most_once ex_ops ex_channel 1 2 (OpSettleHTLC ex_preimage 0 None None None)
    (OpFailHTLC 0 [] None None None) (true, 0) ex_channel_wf).
  - apply ex_room. simpl. lia.
  - lia.
  - reflexivity.
  - reflexivity.
  - reflexivity.
  - reflexivity.
  - vm_compute. reflexivity.
Defined.

Lemma compactLogs_keeps_witness :
  exists l' r', compactLogs [] (newUpdateLog 0 0) (newUpdateLog 0 0) 1 1 = Ok (l', r') /\
    compacted [] (newUpdateLog 0 0) (newUpdateLog 0 0) l' r' /\
    filter (fun p => ~ is_add [] p) (ul_list l') = kept_updates [] 1 1 [] /\
    filter (fun p => ~ is_add [] p) (ul_list r') = kept_updates [] 1 1 [].
Proof. apply (compactLogs_keeps [] (newUpdateLog 0 0) (newUpdateLog 0 0) 1 1), newUpdateLogs_wf. Defined.

(** ** The limit on the value in flight *)

(** The sum [validateUpdates] compares with [MaxPendingAmount] is kept in 64 bits
    and wraps.  With one HTLC of 1000 milli-atoms accepted, a second one of 2^64 - 500
    milli-atoms is accepted too: the sum comes out as 500, while the limit on this
    channel is 10^11.  Their balance wraps the same way, and the checks on it see a
    value above the reserve. *)
Theorem pending_amount_wraps :
  let add i amt := OpReceiveHTLC {| Add_ID := i; Add_Amount := amt;
    Add_PaymentHash := digest ex_preimage; Add_Expiry := 100; Add_OnionBlob := [] |} in
  snd (chan_run [add 0 1000; add 1 (2 ^ 64 - 500)] ex_channel) = [Ok tt; Ok tt] /\
  MaxPendingAmount (RemoteChanCfg (channelState ex_channel)) < 2 ^ 64 - 500.
Proof. split; [vm_compute; reflexivity|reflexivity]. Qed.
