(* ===== verification/CommitTx.v ===== *)
(** * Building commitment transactions

    [lnwallet/commitment.go], [lnwallet/commit_sort.go] and the state hints of
    [lnwallet/transactions.go]: the outputs of a commitment, the HTLCs on it, their
    canonical order, and the output index each HTLC is found at; and the form a
    commitment has on disk ([toDiskCommit] of [lnwallet/channel.go]).

    Keys and scripts are byte strings.  The scripts themselves are assembled by package
    [input] with the script builder of [txscript]; they are operations of the class
    [Scripts], together with the consensus checks of package [standalone] and the
    serialized size of package [wire]. *)

From Stdlib Require Import Lia.
From S2P Require Import Prelude Sha256 Ids Amounts UpdateLog Channel ChannelEval.

(** ** What the transactions are built from *)

Record CommitmentKeyRing := {
  CommitPoint : list byte;
  LocalHtlcKey : list byte;
  RemoteHtlcKey : list byte;
  ToLocalKey : list byte;
  ToRemoteKey : list byte;
  RevocationKey : list byte;
}.

Class Scripts := {
  LeaseCommitScriptToSelf : list byte -> list byte -> Z -> Z -> res (list byte);
  input_CommitScriptToSelf : Z -> list byte -> list byte -> res (list byte);
  LeaseCommitScriptToRemoteConfirmed : list byte -> Z -> res (list byte);
  CommitScriptToRemoteConfirmed : list byte -> res (list byte);
  CommitScriptUnencumbered : list byte -> res (list byte);
  CommitScriptAnchor : list byte -> res (list byte);
  (** expiry, sender's key, receiver's key, revocation key, payment hash, confirmed *)
  ReceiverHTLCScript : Z -> list byte -> list byte -> list byte -> list byte -> bool ->
    res (list byte);
  SenderHTLCScript : list byte -> list byte -> list byte -> list byte -> bool ->
    res (list byte);
  ScriptHashPkScript : list byte -> res (list byte);
  CheckTransactionSanity : MsgTx -> res unit;
  SerializeSize : MsgTx -> Z;
}.

Definition anchorSize : Z := 12060.
Definition scriptVersion : Z := 0.

(** ** The state hint *)

Definition maxStateHint : Z := 2 ^ 48 - 1.
Definition TimelockShift : Z := Z.shiftl 1 29.

(** [wire.SequenceLockTimeDisabled]. *)
Definition SequenceLockTimeDisabled : Z := Z.shiftl 1 31.

Definition errStateHint : error := Error "unable to encode state".
Definition errOneInput : error := Error "commitment tx must have exactly 1 input".

(** The obfuscator is six bytes, copied behind two zero bytes. *)
Definition obfuscator_int (obfuscator : list byte) : Z := be_val ([x00; x00] ++ obfuscator).

Definition SetStateNumHint (commitTx : MsgTx) (stateNum : Z) (obfuscator : list byte)
    : res MsgTx :=
  if maxStateHint <? stateNum then Err errStateHint
  else
    match MsgTx_TxIn commitTx with
    | [txIn] =>
        let stateNum' := Z.lxor stateNum (obfuscator_int obfuscator) in
        Ok {| MsgTx_TxIn :=
                [{| PrevHash := PrevHash txIn; PrevIndex := PrevIndex txIn;
                    Sequence := Z.lor (u32 (Z.shiftr stateNum' 24))
                                  SequenceLockTimeDisabled |}];
              MsgTx_TxOut := MsgTx_TxOut commitTx;
              LockTime := Z.lor (u32 (Z.land stateNum' 0xFFFFFF)) TimelockShift |}
    | _ => Err errOneInput
    end.

(** A transaction without inputs has no first element to index. *)
Definition GetStateNumHint (commitTx : MsgTx) (obfuscator : list byte) : res Z :=
  txIn ← index (MsgTx_TxIn commitTx) 0;
  let hi := u64 (Z.shiftl (Z.land (Sequence txIn) 0xFFFFFF) 24) in
  let lo := Z.land (LockTime commitTx) 0xFFFFFF in
  Ok (Z.lxor (Z.lor hi lo) (obfuscator_int obfuscator)).

(** ** The order of inputs and outputs *)

(** [bytes.Compare]. *)
Fixpoint bytes_compare (a b : list byte) : comparison :=
  match a, b with
  | [], [] => Eq
  | [], _ :: _ => Lt
  | _ :: _, [] => Gt
  | x :: a', y :: b' =>
      match Z.compare (bval x) (bval y) with Eq => bytes_compare a' b' | c => c end
  end.

Definition input_less (i j : TxIn) : bool :=
  if bool_decide (PrevHash i = PrevHash j) then PrevIndex i <? PrevIndex j
  else match bytes_compare (reverse (PrevHash i)) (reverse (PrevHash j)) with
       | Lt => true | _ => false end.

Definition output_less (i j : TxOut * Z) : bool :=
  if negb (Value i.1 =? Value j.1) then Value i.1 <? Value j.1
  else match bytes_compare (PkScript i.1) (PkScript j.1) with
       | Lt => true
       | Gt => false
       | Eq => i.2 <? j.2
       end.

(** [sort.Sort]: a permutation in which no element is less than one before it.  Go's
    sort is not stable; where it matters the elements that compare equal are equal. *)
Definition not_after {A} (less : A -> A -> bool) (x y : A) : Prop := less y x = false.

#[export] Instance not_after_dec {A} (less : A -> A -> bool) : RelDecision (not_after less).
Proof. intros x y. unfold not_after. apply _. Defined.

Definition go_sort {A} (less : A -> A -> bool) (l : list A) : list A :=
  merge_sort (not_after less) l.

Definition InPlaceCommitSort (tx : MsgTx) (cltvs : list Z) : res (MsgTx * list Z) :=
  if negb (length (MsgTx_TxOut tx) =? length cltvs)%nat then Panic
  else
    let sorted := go_sort output_less (zip (MsgTx_TxOut tx) cltvs) in
    Ok ({| MsgTx_TxIn := go_sort input_less (MsgTx_TxIn tx);
           MsgTx_TxOut := sorted.*1; LockTime := LockTime tx |}, sorted.*2).

(** ** Scripts of a commitment *)

Section Building.
Context `{Scripts}.

Record ScriptInfo := { si_PkScript : list byte; si_WitnessScript : list byte }.

Definition p2sh (script : list byte) : res ScriptInfo :=
  h ← ScriptHashPkScript script; Ok {| si_PkScript := h; si_WitnessScript := script |}.

Definition CommitScriptToSelf (chanType : ChannelType) (initiator : bool)
    (selfKey revokeKey : list byte) (csvDelay leaseExpiry : Z) : res ScriptInfo :=
  script ← (if initiator && HasLeaseExpiration chanType
            then LeaseCommitScriptToSelf selfKey revokeKey csvDelay leaseExpiry
            else input_CommitScriptToSelf csvDelay selfKey revokeKey);
  p2sh script.

Definition CommitScriptToRemote (chanType : ChannelType) (initiator : bool) (key : list byte)
    (leaseExpiry : Z) : res (ScriptInfo * Z) :=
  if HasLeaseExpiration chanType && negb initiator then
    script ← LeaseCommitScriptToRemoteConfirmed key leaseExpiry;
    info ← p2sh script; Ok (info, 1)
  else if HasAnchors chanType then
    script ← CommitScriptToRemoteConfirmed key;
    info ← p2sh script; Ok (info, 1)
  else
    p2pkh ← CommitScriptUnencumbered key;
    Ok ({| si_PkScript := p2pkh; si_WitnessScript := p2pkh |}, 0).

Definition CommitScriptAnchors (localMultiSigKey remoteMultiSigKey : list byte)
    : res (ScriptInfo * ScriptInfo) :=
  localScript ← CommitScriptAnchor localMultiSigKey;
  localAnchor ← p2sh localScript;
  remoteScript ← CommitScriptAnchor remoteMultiSigKey;
  remoteAnchor ← p2sh remoteScript;
  Ok (localAnchor, remoteAnchor).

(** The owner of the commitment is the local party here. *)
Definition CreateCommitTx (chanType : ChannelType) (fundingOutput : TxIn)
    (keyRing : CommitmentKeyRing) (localChanCfg : ChannelConstraints)
    (localMultiSigKey remoteMultiSigKey : list byte)
    (amountToLocal amountToRemote numHTLCs : Z) (initiator : bool) (leaseExpiry : Z)
    : res MsgTx :=
  toLocalScript ← CommitScriptToSelf chanType initiator (ToLocalKey keyRing)
                    (RevocationKey keyRing) (CsvDelay localChanCfg) leaseExpiry;
  '(toRemoteScript, _) ← CommitScriptToRemote chanType initiator (ToRemoteKey keyRing)
                           leaseExpiry;
  let localOutput := DustLimit localChanCfg <=? amountToLocal in
  let remoteOutput := DustLimit localChanCfg <=? amountToRemote in
  let out v s := {| Value := v; TxOut_Version := scriptVersion; PkScript := s |} in
  let outs := (if localOutput then [out amountToLocal (si_PkScript toLocalScript)] else [])
    ++ (if remoteOutput then [out amountToRemote (si_PkScript toRemoteScript)] else []) in
  anchors ←
    (if HasAnchors chanType then
       '(localAnchor, remoteAnchor) ← CommitScriptAnchors localMultiSigKey remoteMultiSigKey;
       Ok ((if localOutput || (0 <? numHTLCs)
            then [out anchorSize (si_PkScript localAnchor)] else [])
           ++ (if remoteOutput || (0 <? numHTLCs)
               then [out anchorSize (si_PkScript remoteAnchor)] else []))
     else Ok []);
  Ok {| MsgTx_TxIn := [fundingOutput]; MsgTx_TxOut := outs ++ anchors; LockTime := 0 |}.

Definition genHtlcScript (chanType : ChannelType) (isIncoming ourCommit : bool) (timeout : Z)
    (rHash : list byte) (keyRing : CommitmentKeyRing) : res (list byte * list byte) :=
  let confirmedHtlcSpends := HasAnchors chanType in
  witnessScript ←
    match isIncoming, ourCommit with
    | true, true => ReceiverHTLCScript timeout (RemoteHtlcKey keyRing) (LocalHtlcKey keyRing)
                      (RevocationKey keyRing) rHash confirmedHtlcSpends
    | true, false => SenderHTLCScript (RemoteHtlcKey keyRing) (LocalHtlcKey keyRing)
                       (RevocationKey keyRing) rHash confirmedHtlcSpends
    | false, true => SenderHTLCScript (LocalHtlcKey keyRing) (RemoteHtlcKey keyRing)
                       (RevocationKey keyRing) rHash confirmedHtlcSpends
    | false, false => ReceiverHTLCScript timeout (LocalHtlcKey keyRing) (RemoteHtlcKey keyRing)
                        (RevocationKey keyRing) rHash confirmedHtlcSpends
    end;
  htlcP2SH ← ScriptHashPkScript witnessScript;
  Ok (htlcP2SH, witnessScript).

(** The descriptor after the scripts were stored in it, and the transaction. *)
Definition addHTLC (commitTx : MsgTx) (ourCommit isIncoming : bool)
    (paymentDesc : PaymentDescriptor) (keyRing : CommitmentKeyRing) (chanType : ChannelType)
    : res (MsgTx * PaymentDescriptor) :=
  '(p2sh_, witnessScript) ← genHtlcScript chanType isIncoming ourCommit (Timeout paymentDesc)
                              (RHash paymentDesc) keyRing;
  let txOut := {| Value := ToAtoms (Amount paymentDesc); TxOut_Version := 0;
                  PkScript := p2sh_ |} in
  Ok ({| MsgTx_TxIn := MsgTx_TxIn commitTx; MsgTx_TxOut := MsgTx_TxOut commitTx ++ [txOut];
         LockTime := LockTime commitTx |},
      if ourCommit
      then paymentDesc <| ourPkScript := p2sh_ |> <| ourWitnessScript := witnessScript |>
      else paymentDesc <| theirPkScript := p2sh_ |> <| theirWitnessScript := witnessScript |>).

(** ** The unsigned commitment *)

Record unsignedCommitmentTx := {
  uc_txn : MsgTx;
  uc_fee : Z;
  uc_ourBalance : Z;
  uc_theirBalance : Z;
  uc_cltvs : list Z;
}.

(** The HTLCs of one direction that get an output. *)
Definition is_nondust (cs : OpenChannel) (incoming isOurs : bool) (rate dust : Z) (h : pd_heap)
    (p : ptr) : bool :=
  match h !! p with
  | Some htlc => negb (HtlcIsDust (ChanType cs) incoming isOurs rate (ToAtoms (Amount htlc)) dust)
  | None => false
  end.

Definition count_nondust (cs : OpenChannel) (incoming isOurs : bool) (rate dust : Z)
    (h : pd_heap) (ps : list ptr) : Z :=
  Z.of_nat (length (filter (is_nondust cs incoming isOurs rate dust h) ps)).

(** The loop that adds the HTLC outputs of one direction. *)
Fixpoint add_htlcs (cs : OpenChannel) (incoming isOurs : bool) (rate dust : Z)
    (keyRing : CommitmentKeyRing) (ps : list ptr) (h : pd_heap) (tx : MsgTx) (cltvs : list Z)
    : pd_heap * res (MsgTx * list Z) :=
  match ps with
  | [] => (h, Ok (tx, cltvs))
  | p :: ps' =>
      match index h p with
      | Ok htlc =>
          if HtlcIsDust (ChanType cs) incoming isOurs rate (ToAtoms (Amount htlc)) dust
          then add_htlcs cs incoming isOurs rate dust keyRing ps' h tx cltvs
          else
            match addHTLC tx isOurs incoming htlc keyRing (ChanType cs) with
            | Ok (tx', htlc') =>
                add_htlcs cs incoming isOurs rate dust keyRing ps' (<[p := htlc']> h) tx'
                  (cltvs ++ [Timeout htlc])
            | Err e => (h, Err e)
            | Panic => (h, Panic)
            end
      | Err e => (h, Err e)
      | Panic => (h, Panic)
      end
  end.

Definition total_out (outs : list TxOut) : Z := foldl (fun t o => i64 (t + Value o)) 0 outs.

(** The initiator pays the fee, with all it has when that is not enough. *)
Definition pay_commit_fee (initiator : bool) (commitFee ourBalance theirBalance : Z) : Z * Z :=
  if initiator && (commitFee >? ToAtoms ourBalance) then (0, theirBalance)
  else if initiator then (u64 (ourBalance - NewMAtomsFromAtoms commitFee), theirBalance)
  else if commitFee >? ToAtoms theirBalance then (ourBalance, 0)
  else (ourBalance, u64 (theirBalance - NewMAtomsFromAtoms commitFee)).

Definition fundingTxIn (cs : OpenChannel) : TxIn :=
  {| PrevHash := (FundingOutpoint cs).1; PrevIndex := (FundingOutpoint cs).2;
     Sequence := 0xFFFFFFFF |}.

Definition errOverCapacity : error := Error "attempts to consume more than channel capacity".

(** The part behind the outputs: hint, order, checks. *)
Definition finish_commitment (cs : OpenChannel) (tx : MsgTx) (cltvs : list Z) (height_ : Z)
    (obfuscator : list byte) (commitFee our their : Z) : res unsignedCommitmentTx :=
  tx1 ← SetStateNumHint tx height_ obfuscator;
  '(tx2, cltvs2) ← InPlaceCommitSort tx1 cltvs;
  _ ← CheckTransactionSanity tx2;
  if i64 (total_out (MsgTx_TxOut tx2) + commitFee) >? Capacity cs then Err errOverCapacity
  else Ok {| uc_txn := tx2; uc_fee := commitFee; uc_ourBalance := our;
             uc_theirBalance := their; uc_cltvs := cltvs2 |}.

(** The transaction before HTLCs, from the point of view of its owner. *)
Definition owner_commit_tx (cs : OpenChannel) (isOurs : bool) (keyRing : CommitmentKeyRing)
    (our their numHTLCs : Z) : res MsgTx :=
  let leaseExpiry := if HasLeaseExpiration (ChanType cs) then ThawHeight cs else 0 in
  if isOurs then
    CreateCommitTx (ChanType cs) (fundingTxIn cs) keyRing (LocalChanCfg cs)
      (LocalMultiSigKey cs) (RemoteMultiSigKey cs) (ToAtoms our) (ToAtoms their)
      numHTLCs (IsInitiator cs) leaseExpiry
  else
    CreateCommitTx (ChanType cs) (fundingTxIn cs) keyRing (RemoteChanCfg cs)
      (RemoteMultiSigKey cs) (LocalMultiSigKey cs) (ToAtoms their) (ToAtoms our)
      numHTLCs (negb (IsInitiator cs)) leaseExpiry.

(** [height_] is the height the hint encodes.  The heap is returned on every path,
    because the scripts are written into the descriptors one by one. *)
Definition createUnsignedCommitmentTx (cs : OpenChannel) (obfuscator : list byte) (h : pd_heap)
    (ourBalance theirBalance : Z) (isOurs : bool) (rate height_ : Z) (view : htlcView)
    (keyRing : CommitmentKeyRing) : pd_heap * res unsignedCommitmentTx :=
  let dust := DustLimit (if isOurs then LocalChanCfg cs else RemoteChanCfg cs) in
  let numHTLCs := count_nondust cs false isOurs rate dust h (ourUpdates view)
                  + count_nondust cs true isOurs rate dust h (theirUpdates view) in
  let totalCommitSize := i64 (CommitSize (ChanType cs) + HTLCOutputSize * numHTLCs) in
  let commitFee := FeeForSize rate totalCommitSize in
  let '(our, their) := pay_commit_fee (IsInitiator cs) commitFee ourBalance theirBalance in
  match owner_commit_tx cs isOurs keyRing our their numHTLCs with
  | Ok tx =>
      let cltvs := replicate (length (MsgTx_TxOut tx)) 0 in
      match add_htlcs cs false isOurs rate dust keyRing (ourUpdates view) h tx cltvs with
      | (h1, Ok (tx1, cltvs1)) =>
          let '(h2, r) := add_htlcs cs true isOurs rate dust keyRing (theirUpdates view)
                            h1 tx1 cltvs1 in
          (h2, '(tx2, cltvs2) ← r;
               finish_commitment cs tx2 cltvs2 height_ obfuscator commitFee our their)
      | (h1, Err e) => (h1, Err e)
      | (h1, Panic) => (h1, Panic)
      end
  | Err e => (h, Err e)
  | Panic => (h, Panic)
  end.

End Building.

(** ** Where an HTLC is on the transaction *)

Definition errHtlcNotFound : error := Error "unable to find htlc".

(** The loop over the outputs; [seen] are the indexes already given to HTLCs with the
    same payment hash. *)
Fixpoint locate_from (i : nat) (outs : list TxOut) (cltvs : list Z) (pkScript : list byte)
    (p : PaymentDescriptor) (seen : list Z) : res Z :=
  match outs with
  | [] => Err errHtlcNotFound
  | txOut :: outs' =>
      cltv ← index cltvs i;
      if bool_decide (PkScript txOut = pkScript) && (Value txOut =? ToAtoms (Amount p))
         && (cltv =? Timeout p) && negb (bool_decide (i32 (Z.of_nat i) ∈ seen))
      then Ok (i32 (Z.of_nat i))
      else locate_from (S i) outs' cltvs pkScript p seen
  end.

Definition locateOutputIndex (p : PaymentDescriptor) (tx : MsgTx) (ourCommit : bool)
    (dups : gmap (list byte) (list Z)) (cltvs : list Z) : res (Z * gmap (list byte) (list Z)) :=
  let pkScript := if ourCommit then ourPkScript p else theirPkScript p in
  let seen := default [] (dups !! RHash p) in
  idx ← locate_from 0 (MsgTx_TxOut tx) cltvs pkScript p seen;
  Ok (idx, <[RHash p := seen ++ [idx]]> dups).

(** [populateIndex] on the HTLCs of one direction, from position [i] on: the HTLCs with
    their output indexes, the duplicates, and the index of this direction. *)
Fixpoint populate_indexes (chanType : ChannelType) (c : commitment) (incoming : bool)
    (cltvs : list Z) (i : nat) (htlcs : list PaymentDescriptor)
    (dups : gmap (list byte) (list Z)) (idx : gmap Z nat)
    : res (list PaymentDescriptor * gmap (list byte) (list Z) * gmap Z nat) :=
  match htlcs with
  | [] => Ok ([], dups, idx)
  | htlc :: htlcs' =>
      '(htlc', dups', idx') ←
        (if HtlcIsDust chanType incoming (isOurs c) (feePerKB c) (ToAtoms (Amount htlc))
              (dustLimit c)
         then Ok (if isOurs c then htlc <| localOutputIndex := -1 |>
                  else htlc <| remoteOutputIndex := -1 |>, dups, idx)
         else
           '(o, dups') ← locateOutputIndex htlc (txn c) (isOurs c) dups cltvs;
           Ok (if isOurs c then (htlc <| localOutputIndex := o |>, dups', <[o := i]> idx)
               else (htlc <| remoteOutputIndex := o |>, dups', idx)));
      '(rest, dups2, idx2) ← populate_indexes chanType c incoming cltvs (S i) htlcs' dups' idx';
      Ok (htlc' :: rest, dups2, idx2)
  end.

Definition with_htlcs (c : commitment) (outs ins : list PaymentDescriptor)
    (outIdx inIdx : gmap Z nat) : commitment :=
  {| height := height c; isOurs := isOurs c; ourMessageIndex := ourMessageIndex c;
     theirMessageIndex := theirMessageIndex c; ourHtlcIndex := ourHtlcIndex c;
     theirHtlcIndex := theirHtlcIndex c; txn := txn c; sig := sig c;
     ourBalance := ourBalance c; theirBalance := theirBalance c; fee := fee c;
     feePerKB := feePerKB c; dustLimit := dustLimit c; outgoingHTLCs := outs;
     incomingHTLCs := ins; outgoingHTLCIndex := outIdx; incomingHTLCIndex := inIdx |}.

Definition populateHtlcIndexes (c : commitment) (chanType : ChannelType) (cltvs : list Z)
    : res commitment :=
  '(outs, dups, outIdx) ← populate_indexes chanType c false cltvs 0 (outgoingHTLCs c) ∅ ∅;
  '(ins, _, inIdx) ← populate_indexes chanType c true cltvs 0 (incomingHTLCs c) dups ∅;
  Ok (with_htlcs c outs ins outIdx inIdx).

(** ** Commitments on disk *)

(** [HTLC] and [ChannelCommitment] of package [channeldb]. *)
Record HTLC := {
  disk_Signature : list byte;
  disk_RHash : list byte;
  disk_Amt : Z;
  disk_RefundTimeout : Z;
  disk_OutputIndex : Z;
  disk_Incoming : bool;
  disk_OnionBlob : list byte;
  disk_HtlcIndex : Z;
  disk_LogIndex : Z;
}.

Record ChannelCommitment := {
  CommitHeight : Z;
  LocalLogIndex : Z;
  LocalHtlcIndex : Z;
  RemoteLogIndex : Z;
  RemoteHtlcIndex : Z;
  LocalBalance : Z;
  RemoteBalance : Z;
  CommitFee : Z;
  FeePerKB : Z;
  CommitTx_ : MsgTx;
  CommitSig : list byte;
  Htlcs : list HTLC;
}.

Definition toDiskHtlc (ourCommit incoming : bool) (htlc : PaymentDescriptor) : HTLC :=
  {| disk_Signature := if ourCommit then default [] (pd_sig htlc) else [];
     disk_RHash := RHash htlc; disk_Amt := Amount htlc; disk_RefundTimeout := Timeout htlc;
     disk_OutputIndex := if ourCommit then localOutputIndex htlc else remoteOutputIndex htlc;
     disk_Incoming := incoming; disk_OnionBlob := OnionBlob htlc;
     disk_HtlcIndex := HtlcIndex htlc; disk_LogIndex := LogIndex htlc |}.

Definition toDiskCommit (c : commitment) (ourCommit : bool) : ChannelCommitment :=
  {| CommitHeight := height c; LocalLogIndex := ourMessageIndex c;
     LocalHtlcIndex := ourHtlcIndex c; RemoteLogIndex := theirMessageIndex c;
     RemoteHtlcIndex := theirHtlcIndex c; LocalBalance := ourBalance c;
     RemoteBalance := theirBalance c; CommitFee := fee c; FeePerKB := feePerKB c;
     CommitTx_ := txn c; CommitSig := sig c;
     Htlcs := (toDiskHtlc ourCommit false <$> outgoingHTLCs c)
              ++ (toDiskHtlc ourCommit true <$> incomingHTLCs c) |}.

(** ** Cooperative close *)

Definition errCannotAffordClose : error := Error "initiator cannot afford proposed coop close fee".

Definition CoopCloseBalance (chanType : ChannelType) (isInitiator : bool) (coopCloseFee : Z)
    (localCommit : ChannelCommitment) : res (Z * Z) :=
  let our := ToAtoms (LocalBalance localCommit) in
  let their := ToAtoms (RemoteBalance localCommit) in
  let delta0 := CommitFee localCommit in
  let delta1 := if HasAnchors chanType then i64 (delta0 + 2 * anchorSize) else delta0 in
  let initiatorDelta := i64 (delta1 - coopCloseFee) in
  let our' := if isInitiator then i64 (our + initiatorDelta) else our in
  let their' := if isInitiator then their else i64 (their + initiatorDelta) in
  if (our' <? 0) || (their' <? 0) then Err errCannotAffordClose else Ok (our', their').
