(* ===== verification/CommitTxInv.v ===== *)
(** * Commitment transactions: order, hints, placement and value

    The order of the outputs is canonical, the state hint can be read back, every HTLC
    on a commitment finds an output of its own, and building a commitment moves the fee
    from the initiator's balance and nothing else. *)

From Stdlib Require Import Lia.
From S2P Require Import Prelude Sha256 Ids Amounts UpdateLog Channel ChannelEval CommitTx.

(** ** The order of outputs *)

Lemma bytes_compare_refl a : bytes_compare a a = Eq.
Proof. induction a as [|x a IH]; [done|]. simpl. by rewrite Z.compare_refl. Qed.

Lemma bytes_compare_eq a b : bytes_compare a b = Eq -> a = b.
Proof.
  revert b. induction a as [|x a IH]; intros [|y b]; try done. simpl.
  destruct (Z.compare_spec (bval x) (bval y)) as [E| |]; try done.
  apply bval_inj in E. intros Hab. f_equal; auto.
Qed.

Lemma bytes_compare_opp a b : bytes_compare b a = CompOpp (bytes_compare a b).
Proof.
  revert b. induction a as [|x a IH]; intros [|y b]; try done. simpl.
  rewrite (Z.compare_antisym (bval x) (bval y)). destruct (bval x ?= bval y); simpl; auto.
Qed.

(** Lexicographic comparison of comparisons. *)
Definition lex (c d : comparison) : comparison := match c with Eq => d | c => c end.

(** A three-way comparison that is a total preorder. *)
Record comparing {A} (cmp : A -> A -> comparison) : Prop := {
  cm_opp : forall x y, cmp y x = CompOpp (cmp x y);
  cm_eq : forall x y z, cmp x y = Eq -> cmp x z = cmp y z;
  cm_lt : forall x y z, cmp x y = Lt -> cmp y z = Lt -> cmp x z = Lt;
}.

Lemma comparing_Z {A} (f : A -> Z) : comparing (fun x y => f x ?= f y).
Proof.
  split.
  - intros. by rewrite Z.compare_antisym.
  - intros x y z ->%Z.compare_eq. done.
  - intros x y z. rewrite !Z.compare_lt_iff. lia.
Qed.

Lemma bytes_compare_lt a b c :
  bytes_compare a b = Lt -> bytes_compare b c = Lt -> bytes_compare a c = Lt.
Proof.
  revert b c. induction a as [|x a IH]; intros [|y b] [|z c]; try done. simpl.
  destruct (Z.compare_spec (bval x) (bval y)) as [E| |]; try done;
    destruct (Z.compare_spec (bval y) (bval z)) as [E'| |]; try done;
    destruct (Z.compare_spec (bval x) (bval z)) as [E''| |]; try done; try lia.
  apply IH.
Qed.

Lemma comparing_bytes {A} (f : A -> list byte) : comparing (fun x y => bytes_compare (f x) (f y)).
Proof.
  split.
  - intros. apply bytes_compare_opp.
  - intros x y z ->%bytes_compare_eq. done.
  - intros x y z. apply bytes_compare_lt.
Qed.

Lemma comparing_lex {A} (c d : A -> A -> comparison) :
  comparing c -> comparing d -> comparing (fun x y => lex (c x y) (d x y)).
Proof.
  intros Hc Hd. split.
  - intros x y. rewrite (cm_opp _ Hc x y), (cm_opp _ Hd x y). by destruct (c x y).
  - intros x y z. destruct (c x y) eqn:E; try done. simpl. intros F.
    by rewrite (cm_eq _ Hc x y z E), (cm_eq _ Hd x y z F).
  - intros x y z. destruct (c x y) eqn:E; simpl; try done.
    + intros F. rewrite (cm_eq _ Hc x y z E). destruct (c y z); simpl; try done.
      by apply (cm_lt _ Hd).
    + intros _. destruct (c y z) eqn:F; simpl; try done.
      * intros _. rewrite (cm_opp _ Hc z x).
        rewrite (cm_eq _ Hc z y x) by (by rewrite (cm_opp _ Hc y z), F).
        by rewrite (cm_opp _ Hc x y), E.
      * intros _. by rewrite (cm_lt _ Hc x y z E F).
Qed.

Lemma comparing_order {A} (cmp : A -> A -> comparison) (less : A -> A -> bool) :
  comparing cmp -> (forall x y, less x y = true <-> cmp x y = Lt) ->
  Transitive (not_after less) /\ Total (not_after less).
Proof.
  intros Hc Hl.
  assert (forall x y, not_after less x y <-> cmp x y <> Gt) as Hn.
  { intros x y. unfold not_after. rewrite <- not_true_iff_false, Hl, (cm_opp _ Hc x y).
    by destruct (cmp x y). }
  split.
  - intros x y z. rewrite !Hn. intros Hxy Hyz Hxz.
    destruct (cmp x y) eqn:E; [|clear Hxy|done].
    + rewrite (cm_eq _ Hc x y z E) in Hxz. done.
    + assert (cmp z x = Lt) as F by (by rewrite (cm_opp _ Hc x z), Hxz).
      rewrite (cm_opp _ Hc z y), (cm_lt _ Hc z x y F E) in Hyz. done.
  - intros x y. rewrite !Hn, (cm_opp _ Hc x y). destruct (cmp x y); simpl; auto.
Qed.

Definition output_cmp (x y : TxOut * Z) : comparison :=
  lex (Value x.1 ?= Value y.1) (lex (bytes_compare (PkScript x.1) (PkScript y.1)) (x.2 ?= y.2)).

Lemma output_less_cmp x y : output_less x y = true <-> output_cmp x y = Lt.
Proof.
  unfold output_less, output_cmp. destruct (Z.compare_spec (Value x.1) (Value y.1)) as [E|E|E].
  - rewrite (proj2 (Z.eqb_eq _ _) E). simpl.
    destruct (bytes_compare _ _); simpl; [by rewrite Z.ltb_lt, Z.compare_lt_iff|done|done].
  - rewrite (proj2 (Z.eqb_neq _ _)) by lia. simpl. by rewrite Z.ltb_lt.
  - rewrite (proj2 (Z.eqb_neq _ _)) by lia. simpl. rewrite Z.ltb_lt. split; [lia|done].
Qed.

Lemma output_comparing : comparing output_cmp.
Proof.
  apply comparing_lex; [apply (comparing_Z (fun x => Value x.1))|].
  apply comparing_lex; [apply (comparing_bytes (fun x => PkScript x.1))|apply (comparing_Z snd)].
Qed.

Lemma output_order : Transitive (not_after output_less) /\ Total (not_after output_less).
Proof.
  apply (comparing_order output_cmp); [apply output_comparing|apply output_less_cmp].
Qed.

Lemma output_cmp_key x y :
  output_cmp x y = Eq -> Value x.1 = Value y.1 /\ PkScript x.1 = PkScript y.1 /\ x.2 = y.2.
Proof.
  unfold output_cmp. destruct (Z.compare_spec (Value x.1) (Value y.1)) as [E| |]; try done.
  simpl. destruct (bytes_compare _ _) eqn:F; try done. simpl.
  intros ?%Z.compare_eq. by apply bytes_compare_eq in F.
Qed.

Lemma go_sort_outputs l :
  go_sort output_less l ≡ₚ l /\ Sorted (not_after output_less) (go_sort output_less l).
Proof.
  destruct output_order as [Ht Ho].
  split; [apply merge_sort_Permutation|exact (Sorted_merge_sort (not_after output_less) l)].
Qed.

(** Two orders of the same outputs, all of one version, are sorted alike. *)
Lemma go_sort_canonical l k v :
  (forall x, x ∈ l -> TxOut_Version x.1 = v) -> l ≡ₚ k ->
  go_sort output_less l = go_sort output_less k.
Proof.
  intros Hv Hp. destruct output_order as [Ht Ho].
  destruct (go_sort_outputs l) as [Pl Sl]. destruct (go_sort_outputs k) as [Pk Sk].
  apply (Sorted_unique_strong (not_after output_less)); [|done|done|by rewrite Pl, Pk].
  intros x y Hx Hy Hxy Hyx. rewrite Pl in Hx. rewrite Pk, <- Hp in Hy.
  assert (output_cmp x y = Eq) as E.
  { unfold not_after in *. rewrite <- not_true_iff_false, output_less_cmp in Hxy, Hyx.
    rewrite (cm_opp _ output_comparing x y) in Hxy. by destruct (output_cmp x y). }
  apply output_cmp_key in E as (E1 & E2 & E3). pose proof (Hv x Hx). pose proof (Hv y Hy).
  destruct x as [[] ?], y as [[] ?]; simpl in *. congruence.
Qed.

Lemma InPlaceCommitSort_ok tx cltvs :
  length (MsgTx_TxOut tx) = length cltvs ->
  exists tx' cltvs', InPlaceCommitSort tx cltvs = Ok (tx', cltvs') /\
    zip (MsgTx_TxOut tx') cltvs' = go_sort output_less (zip (MsgTx_TxOut tx) cltvs) /\
    length (MsgTx_TxOut tx') = length cltvs' /\
    zip (MsgTx_TxOut tx') cltvs' ≡ₚ zip (MsgTx_TxOut tx) cltvs /\
    MsgTx_TxOut tx' ≡ₚ MsgTx_TxOut tx /\ LockTime tx' = LockTime tx.
Proof.
  intros Hl. unfold InPlaceCommitSort. rewrite (proj2 (Nat.eqb_eq _ _)) by done. simpl.
  set (s := go_sort _ _). destruct (go_sort_outputs (zip (MsgTx_TxOut tx) cltvs)) as [Hp _].
  fold s in Hp. eexists _, _. split; [done|]. cbn [MsgTx_TxOut LockTime].
  split; [apply zip_fst_snd|]. split; [by rewrite !length_fmap|].
  split; [by rewrite zip_fst_snd|]. split; [|done].
  rewrite Hp, fst_zip by lia. done.
Qed.

(** ** The state hint *)

Lemma land_ones_24 x : Z.land x 0xFFFFFF = x mod 2 ^ 24.
Proof. change 0xFFFFFF with (Z.ones 24). apply Z.land_ones. lia. Qed.

Lemma hint_hi x : 0 <= x < 2 ^ 48 ->
  Z.land (Z.lor (u32 (Z.shiftr x 24)) SequenceLockTimeDisabled) 0xFFFFFF = Z.shiftr x 24.
Proof.
  intros Hx. rewrite Z.shiftr_div_pow2 by lia.
  assert (0 <= x / 2 ^ 24 < 2 ^ 24) as Hr.
  { split; [apply Z.div_pos; lia|apply Z.div_lt_upper_bound; lia]. }
  unfold u32. rewrite Z.mod_small by lia. rewrite Z.land_lor_distr_l.
  change (Z.land SequenceLockTimeDisabled 0xFFFFFF) with 0. rewrite Z.lor_0_r, land_ones_24.
  apply Z.mod_small. lia.
Qed.

Lemma hint_lo x :
  Z.land (Z.lor (u32 (Z.land x 0xFFFFFF)) TimelockShift) 0xFFFFFF = x mod 2 ^ 24.
Proof.
  rewrite (land_ones_24 x). pose proof (Z.mod_pos_bound x (2 ^ 24) ltac:(lia)) as Hr.
  unfold u32. rewrite (Z.mod_small (x mod 2 ^ 24) (2 ^ 32)) by lia.
  rewrite Z.land_lor_distr_l. change (Z.land TimelockShift 0xFFFFFF) with 0.
  rewrite Z.lor_0_r, land_ones_24. apply Z.mod_small. lia.
Qed.

Lemma obfuscator_range obf : length obf = 6%nat -> 0 <= obfuscator_int obf < 2 ^ 48.
Proof.
  intros Hl. unfold obfuscator_int. rewrite be_val_app, Hl.
  pose proof (be_val_range obf) as Hr. rewrite Hl in Hr.
  change (be_val [x00; x00]) with 0. change (256 ^ Z.of_nat 6) with (2 ^ 48) in *. lia.
Qed.

Lemma lxor_range a b n : 0 <= n -> 0 <= a < 2 ^ n -> 0 <= b < 2 ^ n -> 0 <= Z.lxor a b < 2 ^ n.
Proof.
  intros Hn Ha Hb. assert (Z.lxor a b = Z.lxor a b mod 2 ^ n) as ->.
  { apply Z.bits_inj'. intros i Hi. rewrite Z.testbit_mod_pow2 by done.
    destruct (Z.ltb_spec i n); [done|]. simpl. rewrite Z.lxor_spec.
    by rewrite !(testbit_above n) by lia. }
  apply Z.mod_pos_bound. lia.
Qed.

Lemma GetSet_hint tx n obf :
  length obf = 6%nat -> 0 <= n <= maxStateHint -> (exists i, MsgTx_TxIn tx = [i]) ->
  exists tx', SetStateNumHint tx n obf = Ok tx' /\ GetStateNumHint tx' obf = Ok n /\
    MsgTx_TxOut tx' = MsgTx_TxOut tx /\ length (MsgTx_TxIn tx') = 1%nat.
Proof.
  intros Hl Hn [i Hi]. unfold maxStateHint in Hn. pose proof (obfuscator_range obf Hl) as Ho.
  unfold SetStateNumHint. rewrite (proj2 (Z.ltb_ge _ _)) by (unfold maxStateHint; lia).
  rewrite Hi. eexists. split; [done|]. split; [|done]. unfold GetStateNumHint. simpl.
  pose proof (lxor_range n (obfuscator_int obf) 48 ltac:(lia) ltac:(lia) Ho) as Hx.
  set (x := Z.lxor n (obfuscator_int obf)) in *.
  change (Z.lor (u32 (Z.shiftr x 24)) 2147483648)
    with (Z.lor (u32 (Z.shiftr x 24)) SequenceLockTimeDisabled).
  rewrite hint_hi by done. rewrite hint_lo.
  rewrite Z.shiftr_div_pow2, Z.shiftl_mul_pow2 by lia.
  pose proof (Z.div_mod x (2 ^ 24) ltac:(lia)) as Hd.
  pose proof (Z.mod_pos_bound x (2 ^ 24) ltac:(lia)) as Hm.
  rewrite u64_small by (unfold is_u64; lia).
  rewrite lor_add by lia.
  replace (x / 2 ^ 24 * 2 ^ 24 + x mod 2 ^ 24) with x by lia.
  unfold x. by rewrite Z.lxor_assoc, Z.lxor_nilpotent, Z.lxor_0_r.
Qed.

(** ** Placing HTLCs on outputs *)

(** What an output is found by. *)
Abbreviation out_key := (list byte * Z * Z)%type (only parsing).

Definition key_of (x : TxOut * Z) : out_key := (PkScript x.1, Value x.1, x.2).

Definition out_keys (outs : list TxOut) (cltvs : list Z) : list out_key :=
  key_of <$> zip outs cltvs.

Definition htlc_key (ours : bool) (p : PaymentDescriptor) : out_key :=
  (if ours then ourPkScript p else theirPkScript p, ToAtoms (Amount p), Timeout p).

Lemma length_out_keys outs cltvs :
  length outs = length cltvs -> length (out_keys outs cltvs) = length outs.
Proof. intros Hl. unfold out_keys. rewrite length_fmap, length_zip_with. lia. Qed.

Lemma out_keys_lookup outs cltvs i k :
  out_keys outs cltvs !! i = Some k <->
  exists o c, outs !! i = Some o /\ cltvs !! i = Some c /\ k = (PkScript o, Value o, c).
Proof.
  unfold out_keys. rewrite list_lookup_fmap, fmap_Some. split.
  - intros ([o c] & (o' & c' & [= -> ->] & Ho & Hc)%lookup_zip_with_Some & ->). eauto.
  - intros (o & c & Ho & Hc & ->). exists (o, c). split; [|done].
    apply lookup_zip_with_Some. eauto.
Qed.

Lemma i32_small i : 0 <= i < 2 ^ 31 -> i32 i = i.
Proof. intros. unfold i32. rewrite Z.mod_small by lia. lia. Qed.

(** The outcome of a search that starts at output [n]. *)
Lemma locate_from_spec outs0 outs cltvs script p seen n :
  outs = drop n outs0 -> (n <= length outs0)%nat -> length outs0 = length cltvs ->
  Z.of_nat (length outs0) < 2 ^ 31 ->
  let k := (script, ToAtoms (Amount p), Timeout p) in
  match locate_from n outs cltvs script p seen with
  | Ok idx => exists i, idx = Z.of_nat i /\ out_keys outs0 cltvs !! i = Some k /\ idx ∉ seen
  | Err _ => forall i, (n <= i)%nat -> out_keys outs0 cltvs !! i = Some k -> Z.of_nat i ∈ seen
  | Panic => False
  end.
Proof.
  revert n. induction outs as [|o outs IH]; intros n Hd Hn Hl Hb; simpl.
  { intros i Hi (o & c & Ho & _)%out_keys_lookup. apply lookup_lt_Some in Ho.
    assert (length (drop n outs0) = 0%nat) as E by by rewrite <- Hd.
    rewrite length_drop in E. lia. }
  assert (outs0 !! n = Some o) as Ho by (rewrite <- (Nat.add_0_r n), <- lookup_drop, <- Hd; done).
  assert (outs = drop (S n) outs0) as Hd' by (rewrite <- (Nat.add_1_r n), <- drop_drop, <- Hd; done).
  pose proof (lookup_lt_Some _ _ _ Ho) as Hlt. unfold index.
  destruct (lookup_lt_is_Some_2 cltvs n) as [c Hc]; [lia|]. rewrite Hc. rsimpl.
  rewrite i32_small by lia.
  destruct (_ && negb _) eqn:E.
  - rewrite !andb_true_iff in E. destruct E as [[[E1 E2] E3] E4].
    apply bool_decide_eq_true in E1. apply Z.eqb_eq in E2, E3.
    apply negb_true_iff, bool_decide_eq_false in E4. exists n. split; [done|]. split; [|done].
    apply out_keys_lookup. exists o, c. split; [done|]. split; [done|]. congruence.
  - specialize (IH (S n) Hd' ltac:(lia) Hl Hb). simpl in IH.
    destruct (locate_from (S n) outs cltvs script p seen) as [idx|e|]; [done| |done].
    intros i Hi Hk. destruct (decide (i = n)) as [->|Hne]; [|apply IH; [lia|done]].
    apply out_keys_lookup in Hk as (o' & c' & Ho' & Hc' & [= -> Ev Et]).
    rewrite Ho in Ho'. injection Ho' as <-. rewrite Hc in Hc'. injection Hc' as <-.
    apply andb_false_iff in E as [E|E].
    + rewrite bool_decide_true, Ev, Et, !Z.eqb_refl in E by done. done.
    + by apply negb_false_iff, bool_decide_eq_true in E.
Qed.

(** The positions a key is found at. *)
Definition positions (k : out_key) (ks : list out_key) : list nat :=
  filter (fun i => ks !! i = Some k) (seq 0 (length ks)).

Lemma elem_of_positions k ks i : i ∈ positions k ks <-> ks !! i = Some k.
Proof.
  unfold positions. rewrite list_elem_of_filter, elem_of_seq. split; [by intros []|].
  intros Hi. split; [done|]. apply lookup_lt_Some in Hi. lia.
Qed.

Lemma filter_fmap {A B} (f : A -> B) (P : B -> Prop) `{!forall x, Decision (P x)} (l : list A) :
  filter P (f <$> l) = f <$> filter (fun x => P (f x)) l.
Proof.
  induction l as [|x l IH]; [done|]. rewrite fmap_cons.
  destruct (decide (P (f x))); [rewrite !filter_cons_True by done; by rewrite IH|].
  by rewrite !filter_cons_False.
Qed.

Lemma length_positions k ks : length (positions k ks) = length (filter (.= k) ks).
Proof.
  unfold positions. induction ks as [|x ks IH]; [done|]. simpl. rewrite <- fmap_S_seq.
  assert (length (filter (fun i => (x :: ks) !! i = Some k) (S <$> seq 0 (length ks)))
          = length (filter (.= k) ks)) as E.
  { rewrite <- IH, filter_fmap, length_fmap. f_equal. }
  destruct (decide (x = k)) as [->|Hne].
  - rewrite !filter_cons_True by done. simpl. by rewrite E.
  - rewrite !filter_cons_False by (simpl; congruence). done.
Qed.

Lemma NoDup_positions k ks : NoDup (positions k ks).
Proof. apply NoDup_filter, NoDup_seq. Qed.

(** The HTLCs placed so far, with their outputs, and the duplicates map. *)
Record placed (ours : bool) (ks : list out_key) (asg : list (PaymentDescriptor * nat))
    (dups : gmap (list byte) (list Z)) : Prop := {
  pl_key : forall p i, (p, i) ∈ asg -> ks !! i = Some (htlc_key ours p);
  pl_dups : forall r, default [] (dups !! r)
    = Z.of_nat <$> ((filter (fun x => RHash x.1 = r) asg).*2);
  pl_nodup : forall r, NoDup (default [] (dups !! r));
}.

Lemma placed_nil ours ks : placed ours ks [] ∅.
Proof.
  split; intros *.
  - by intros ?%elem_of_nil.
  - by rewrite lookup_empty.
  - rewrite lookup_empty. constructor.
Qed.

(** There is an output left for every HTLC the transaction has one for. *)
Lemma placed_room ours ks asg dups p rest other :
  placed ours ks asg dups ->
  (htlc_key ours <$> asg.*1) ++ htlc_key ours p :: rest ++ other ≡ₚ ks ->
  ~ forall i, ks !! i = Some (htlc_key ours p) -> Z.of_nat i ∈ default [] (dups !! RHash p).
Proof.
  intros [Hk Hd Hn] Hperm Hall. set (k := htlc_key ours p) in *.
  set (same := filter (fun x => htlc_key ours x.1 = k) asg).
  assert (positions k ks ⊆+ same.*2) as Hsub.
  { apply NoDup_submseteq; [apply NoDup_positions|]. intros i Hi. apply elem_of_positions in Hi.
    pose proof (Hall i Hi) as Hin. rewrite Hd in Hin.
    apply list_elem_of_fmap in Hin as (j & Hj & Hin). apply Nat2Z.inj in Hj as <-.
    apply list_elem_of_fmap in Hin as ([q j] & Hj & Hin). simpl in Hj. subst j.
    apply list_elem_of_filter in Hin as [_ Hin]. apply list_elem_of_fmap. exists (q, i).
    split; [done|]. apply list_elem_of_filter. split; [|done].
    pose proof (Hk q i Hin) as E. simpl. congruence. }
  apply submseteq_length in Hsub. rewrite length_positions, length_fmap in Hsub.
  assert (length (filter (.= k) ks) = length same + 1 + length (filter (.= k) (rest ++ other)))%nat
    as E.
  { rewrite <- Hperm, filter_app, filter_cons_True, length_app by done. simpl.
    assert (length (filter (.= k) (htlc_key ours <$> asg.*1)) = length same) as ->; [|lia].
    rewrite <- list_fmap_compose, filter_fmap, length_fmap. done. }
  lia.
Qed.

Lemma place_one ours tx cltvs asg dups p rest other :
  let ks := out_keys (MsgTx_TxOut tx) cltvs in
  length (MsgTx_TxOut tx) = length cltvs -> Z.of_nat (length cltvs) < 2 ^ 31 ->
  placed ours ks asg dups ->
  (htlc_key ours <$> asg.*1) ++ htlc_key ours p :: rest ++ other ≡ₚ ks ->
  exists i dups', locateOutputIndex p tx ours dups cltvs = Ok (Z.of_nat i, dups') /\
    placed ours ks (asg ++ [(p, i)]) dups'.
Proof.
  intros ks Hl Hb Hpl Hperm. unfold locateOutputIndex.
  set (seen := default [] (dups !! RHash p)).
  pose proof (locate_from_spec (MsgTx_TxOut tx) (MsgTx_TxOut tx) cltvs
    (if ours then ourPkScript p else theirPkScript p) p seen 0 eq_refl ltac:(lia) Hl ltac:(lia)) as Hs.
  simpl in Hs. fold ks in Hs. change (_, ToAtoms (Amount p), Timeout p) with (htlc_key ours p) in Hs.
  destruct (locate_from _ _ _ _ _ _) as [idx|e|]; [| |done].
  2:{ exfalso. eapply placed_room; [exact Hpl|exact Hperm|]. intros i. apply Hs. lia. }
  destruct Hs as (i & -> & Hi & Hn). exists i. eexists. split; [done|].
  destruct Hpl as [Hk Hd Hnd]. split.
  - intros q j [Hq|[= -> ->]%list_elem_of_singleton]%elem_of_app; [by apply Hk|done].
  - intros r. rewrite filter_app, fmap_app, fmap_app, <- Hd.
    destruct (decide (RHash p = r)) as [<-|Hne].
    + rewrite lookup_insert_eq, filter_cons_True by done. done.
    + rewrite lookup_insert_ne, filter_cons_False by done. simpl. by rewrite app_nil_r.
  - intros r. destruct (decide (RHash p = r)) as [<-|Hne].
    + rewrite lookup_insert_eq. simpl. apply NoDup_app. split; [apply Hnd|].
      split; [|apply NoDup_singleton]. by intros x Hx ->%list_elem_of_singleton.
    + rewrite lookup_insert_ne by done. apply Hnd.
Qed.

(** The HTLCs of a commitment that get an output, and where they found it. *)
Definition has_output (chanType : ChannelType) (c : commitment) (incoming : bool)
    (htlc : PaymentDescriptor) : bool :=
  negb (HtlcIsDust chanType incoming (isOurs c) (feePerKB c) (ToAtoms (Amount htlc)) (dustLimit c)).

Definition out_index (c : commitment) (htlc : PaymentDescriptor) : Z :=
  if isOurs c then localOutputIndex htlc else remoteOutputIndex htlc.

(** Only the output index differs. *)
Definition reindexed (c : commitment) (a b : PaymentDescriptor) : Prop :=
  b = if isOurs c then a <| localOutputIndex := localOutputIndex b |>
      else a <| remoteOutputIndex := remoteOutputIndex b |>.

Lemma reindexed_key c a b : reindexed c a b -> htlc_key (isOurs c) b = htlc_key (isOurs c) a.
Proof. unfold reindexed. intros ->. by destruct (isOurs c). Qed.

Lemma populate_ok chanType c incoming cltvs i htlcs dups idx asg other :
  let ks := out_keys (MsgTx_TxOut (txn c)) cltvs in
  let wanted := filter (has_output chanType c incoming) htlcs in
  length (MsgTx_TxOut (txn c)) = length cltvs -> Z.of_nat (length cltvs) < 2 ^ 31 ->
  placed (isOurs c) ks asg dups ->
  (htlc_key (isOurs c) <$> asg.*1) ++ (htlc_key (isOurs c) <$> wanted) ++ other ≡ₚ ks ->
  exists htlcs' dups' idx' new,
    populate_indexes chanType c incoming cltvs i htlcs dups idx = Ok (htlcs', dups', idx') /\
    placed (isOurs c) ks (asg ++ new) dups' /\ new.*1 = wanted /\
    Forall2 (reindexed c) htlcs htlcs' /\
    out_index c <$> filter (has_output chanType c incoming) htlcs' = Z.of_nat <$> new.*2.
Proof.
  intros ks wanted Hl Hb. subst wanted. revert i dups idx asg.
  induction htlcs as [|p htlcs IH]; intros i dups idx asg Hpl Hperm.
  { exists [], dups, idx, []. rewrite app_nil_r. split; [done|]. split; [done|]. done. }
  simpl. destruct (HtlcIsDust _ incoming _ _ _ _) eqn:Hdust.
  - assert (~ has_output chanType c incoming p) as Hno
      by (unfold has_output; rewrite Hdust; simpl; tauto).
    rewrite filter_cons_False in Hperm |- * by done.
    set (p' := if isOurs c then _ else _).
    destruct (IH (S i) dups idx asg Hpl Hperm) as (hs & dups' & idx' & new & E & ? & ? & ? & Eo).
    exists (p' :: hs), dups', idx', new. rsimpl. rewrite E. split; [done|].
    split; [done|]. split; [done|]. split.
    + constructor; [|done]. unfold reindexed, p'. by destruct (isOurs c).
    + rewrite filter_cons_False; [done|]. unfold has_output, p' in *.
      destruct (isOurs c); exact Hno.
  - assert (has_output chanType c incoming p) as Hyes by (unfold has_output; by rewrite Hdust).
    rewrite filter_cons_True in Hperm |- * by done. rewrite fmap_cons in Hperm.
    destruct (place_one (isOurs c) (txn c) cltvs asg dups p
      (htlc_key (isOurs c) <$> filter (has_output chanType c incoming) htlcs) other)
      as (o & dups1 & E1 & Hpl1); [done..|]. rewrite E1. rsimpl.
    set (p' := if isOurs c then p <| localOutputIndex := Z.of_nat o |>
               else p <| remoteOutputIndex := Z.of_nat o |>).
    set (idx1 := if isOurs c then <[Z.of_nat o := i]> idx else idx).
    destruct (IH (S i) dups1 idx1 (asg ++ [(p, o)]) Hpl1)
      as (hs & dups' & idx' & new & E & Hpl2 & Hw & Hf & Eo).
    { rewrite fmap_app, fmap_app, <- app_assoc. exact Hperm. }
    exists (p' :: hs), dups', idx', ((p, o) :: new).
    split; [|split; [by rewrite <- app_assoc in Hpl2|split; [by rewrite fmap_cons, Hw|split]]].
    + unfold p', idx1 in *. destruct (isOurs c); rsimpl; by rewrite E.
    + constructor; [|done]. unfold reindexed, p'. by destruct (isOurs c).
    + rewrite filter_cons_True.
      * rewrite fmap_cons, Eo. simpl. f_equal. unfold out_index, p'. by destruct (isOurs c).
      * unfold has_output, p' in *. destruct (isOurs c); exact Hyes.
Qed.

Lemma NoDup_by_class {A B C} `{EqDecision C} (f : A -> B) (g : A -> C) (l : list A) :
  (forall x y, x ∈ l -> y ∈ l -> f x = f y -> g x = g y) ->
  (forall r, NoDup (f <$> filter (fun x => g x = r) l)) -> NoDup (f <$> l).
Proof.
  induction l as [|x l IH]; intros Hg Hf; [constructor|]. rewrite fmap_cons. apply NoDup_cons. split.
  - intros (y & E & Hy)%list_elem_of_fmap. pose proof (Hf (g x)) as Hn.
    rewrite filter_cons_True, fmap_cons in Hn by done. apply NoDup_cons in Hn as [Hn _].
    apply Hn. rewrite E. apply list_elem_of_fmap_2, list_elem_of_filter. split; [|done].
    symmetry. apply Hg; [apply list_elem_of_here|by apply list_elem_of_further|done].
  - apply IH.
    + intros a b Ha Hb. apply Hg; by apply list_elem_of_further.
    + intros r. specialize (Hf r). destruct (decide (g x = r)).
      * rewrite filter_cons_True, fmap_cons in Hf by done. by apply NoDup_cons in Hf as [_ ?].
      * by rewrite filter_cons_False in Hf.
Qed.

Lemma placed_distinct ours ks asg dups :
  placed ours ks asg dups ->
  (forall a b, a ∈ asg.*1 -> b ∈ asg.*1 -> htlc_key ours a = htlc_key ours b -> RHash a = RHash b) ->
  NoDup asg.*2.
Proof.
  intros [Hk Hd Hn] Hb. apply (NoDup_by_class snd (fun x => RHash x.1)).
  - intros [p i] [q j] Hp Hq E. simpl in *. subst j. apply Hb.
    + apply list_elem_of_fmap. by exists (p, i).
    + apply list_elem_of_fmap. by exists (q, i).
    + pose proof (Hk p i Hp). pose proof (Hk q i Hq). congruence.
  - intros r. specialize (Hn r). rewrite Hd in Hn. by apply NoDup_fmap_1 in Hn.
Qed.

(** What the HTLCs of a commitment find. *)
Record htlcs_placed (chanType : ChannelType) (cltvs : list Z) (c c' : commitment) : Prop := {
  hp_rest : c' = with_htlcs c (outgoingHTLCs c') (incomingHTLCs c')
                   (outgoingHTLCIndex c') (incomingHTLCIndex c');
  hp_out : Forall2 (reindexed c) (outgoingHTLCs c) (outgoingHTLCs c');
  hp_in : Forall2 (reindexed c) (incomingHTLCs c) (incomingHTLCs c');
  hp_found : forall htlc,
    htlc ∈ filter (has_output chanType c false) (outgoingHTLCs c')
           ++ filter (has_output chanType c true) (incomingHTLCs c') ->
    exists i o, out_index c htlc = Z.of_nat i /\ MsgTx_TxOut (txn c) !! i = Some o /\
      PkScript o = (if isOurs c then ourPkScript htlc else theirPkScript htlc) /\
      Value o = ToAtoms (Amount htlc) /\ cltvs !! i = Some (Timeout htlc);
  hp_distinct : NoDup (out_index c <$>
    filter (has_output chanType c false) (outgoingHTLCs c')
    ++ filter (has_output chanType c true) (incomingHTLCs c'));
}.

Lemma has_output_reindexed chanType c incoming a b :
  reindexed c a b -> has_output chanType c incoming b = has_output chanType c incoming a.
Proof. unfold reindexed, has_output. intros ->. by destruct (isOurs c). Qed.

Lemma filter_reindexed chanType c incoming l l' :
  Forall2 (reindexed c) l l' ->
  Forall2 (reindexed c) (filter (has_output chanType c incoming) l)
    (filter (has_output chanType c incoming) l').
Proof.
  induction 1 as [|a b l l' Hab _ IH]; [constructor|].
  pose proof (has_output_reindexed chanType c incoming a b Hab) as E.
  destruct (has_output chanType c incoming a) eqn:Ha.
  - rewrite !filter_cons_True by (rewrite ?E, ?Ha; done). by constructor.
  - by rewrite !filter_cons_False by (rewrite ?E, ?Ha; simpl; tauto).
Qed.

Lemma populateHtlcIndexes_ok c chanType cltvs other :
  let wanted := filter (has_output chanType c false) (outgoingHTLCs c)
                ++ filter (has_output chanType c true) (incomingHTLCs c) in
  length (MsgTx_TxOut (txn c)) = length cltvs -> Z.of_nat (length cltvs) < 2 ^ 31 ->
  (htlc_key (isOurs c) <$> wanted) ++ other ≡ₚ out_keys (MsgTx_TxOut (txn c)) cltvs ->
  (forall a b, a ∈ wanted -> b ∈ wanted ->
     htlc_key (isOurs c) a = htlc_key (isOurs c) b -> RHash a = RHash b) ->
  exists c', populateHtlcIndexes c chanType cltvs = Ok c' /\ htlcs_placed chanType cltvs c c'.
Proof.
  intros wanted Hl Hb Hperm Hbind. unfold populateHtlcIndexes.
  set (wo := filter (has_output chanType c false) (outgoingHTLCs c)) in *.
  set (wi := filter (has_output chanType c true) (incomingHTLCs c)) in *.
  destruct (populate_ok chanType c false cltvs 0 (outgoingHTLCs c) ∅ ∅ []
    ((htlc_key (isOurs c) <$> wi) ++ other)) as (outs & dups & oi & new1 & E1 & P1 & W1 & F1 & O1);
    [done|done|apply placed_nil| |].
  { rewrite fmap_nil, fmap_nil, app_nil_l, app_assoc, <- fmap_app. exact Hperm. }
  rewrite E1. rsimpl. fold wo in W1.
  destruct (populate_ok chanType c true cltvs 0 (incomingHTLCs c) dups ∅ new1 other)
    as (ins & dups2 & ii & new2 & E2 & P2 & W2 & F2 & O2); [done|done|done| |].
  { rewrite app_assoc, W1, <- fmap_app. exact Hperm. }
  rewrite E2. rsimpl. fold wi in W2. eexists. split; [done|].
  assert (NoDup (new1 ++ new2).*2) as Hnd.
  { eapply placed_distinct; [exact P2|]. rewrite fmap_app, W1, W2. exact Hbind. }
  assert (out_index c <$> filter (has_output chanType c false) outs
          ++ filter (has_output chanType c true) ins = Z.of_nat <$> (new1 ++ new2).*2) as Eo
    by by rewrite fmap_app, O1, O2, fmap_app, fmap_app.
  split; simpl; try done.
  - intros htlc Hin.
    assert (Forall2 (reindexed c) (new1 ++ new2).*1
      (filter (has_output chanType c false) outs ++ filter (has_output chanType c true) ins)) as Hf.
    { rewrite fmap_app, W1, W2. apply Forall2_app; by apply filter_reindexed. }
    apply list_elem_of_lookup in Hin as [n Hn].
    destruct (Forall2_lookup_r _ _ _ _ _ Hf Hn) as (a & Ha & Hr).
    rewrite list_lookup_fmap in Ha.
    destruct ((new1 ++ new2) !! n) as [[a' i]|] eqn:Hni; [|done]. simpl in Ha. injection Ha as ->.
    assert (out_index c htlc = Z.of_nat i) as Ei.
    { assert ((out_index c <$> filter (has_output chanType c false) outs
          ++ filter (has_output chanType c true) ins) !! n = Some (out_index c htlc)) as Hx
        by (by rewrite list_lookup_fmap, Hn).
      rewrite Eo, !list_lookup_fmap, Hni in Hx. simpl in Hx. congruence. }
    pose proof (pl_key _ _ _ _ P2 a i (list_elem_of_lookup_2 _ _ _ Hni)) as Hk.
    rewrite <- (reindexed_key c a htlc Hr) in Hk.
    apply out_keys_lookup in Hk as (o & cl & Ho & Hc & E). exists i, o. unfold htlc_key in E.
    injection E as Es Ev Et. repeat split; try done; congruence.
  - rewrite Eo. by apply (NoDup_fmap_2 Z.of_nat).
Qed.

(** ** The HTLC outputs *)

(** Descriptors that differ in their scripts only. *)
Definition scripted (a b : PaymentDescriptor) : Prop :=
  b = a <| ourPkScript := ourPkScript b |> <| ourWitnessScript := ourWitnessScript b |>
        <| theirPkScript := theirPkScript b |> <| theirWitnessScript := theirWitnessScript b |>.

#[export] Instance scripted_preorder : PreOrder scripted.
Proof.
  split.
  - intros []. done.
  - intros a b c -> Hbc. unfold scripted in *. rewrite Hbc. done.
Qed.

(** Heaps whose descriptors differ in their scripts only. *)
Definition heap_scripted (h h' : pd_heap) : Prop := Forall2 scripted h h'.

#[export] Instance heap_scripted_preorder : PreOrder heap_scripted.
Proof. change heap_scripted with (Forall2 scripted). apply _. Qed.

Lemma heap_scripted_write h p pd pd' :
  h !! p = Some pd -> scripted pd pd' -> heap_scripted h (<[p := pd']> h).
Proof.
  intros Hp Hs. rewrite <- (list_insert_id h p pd Hp) at 1.
  apply Forall2_insert; [|done]. apply (reflexivity (R := heap_scripted)).
Qed.

(** Dust does not depend on scripts. *)
Lemma is_nondust_scripted cs incoming ours rate dust h h' p :
  heap_scripted h h' ->
  is_nondust cs incoming ours rate dust h' p = is_nondust cs incoming ours rate dust h p.
Proof.
  intros Hs. unfold is_nondust. destruct (h !! p) as [pd|] eqn:Hp.
  - destruct (Forall2_lookup_l _ _ _ _ _ Hs Hp) as (pd' & -> & E). by rewrite E.
  - apply lookup_ge_None in Hp. rewrite (Forall2_length _ _ _ Hs) in Hp.
    by rewrite (proj2 (lookup_ge_None h' p)).
Qed.

Section Outputs.
Context `{Scripts}.

Lemma addHTLC_ok tx ours incoming pd keyRing chanType tx' pd' :
  addHTLC tx ours incoming pd keyRing chanType = Ok (tx', pd') ->
  scripted pd pd' /\
  exists o, MsgTx_TxOut tx' = MsgTx_TxOut tx ++ [o] /\ MsgTx_TxIn tx' = MsgTx_TxIn tx /\
    LockTime tx' = LockTime tx /\ TxOut_Version o = 0 /\
    key_of (o, Timeout pd) = htlc_key ours pd'.
Proof.
  unfold addHTLC. destruct (genHtlcScript _ _ _ _ _ _) as [[s w]|e|]; [|done|done]. rsimpl.
  intros [= <- <-]. split; [by destruct ours|]. eexists. do 4 (split; [done|]). by destruct ours.
Qed.

(** What the loop over one direction adds. *)
Record htlcs_added (cs : OpenChannel) (incoming ours : bool) (rate dust : Z) (ps : list ptr)
    (h h' : pd_heap) (tx tx' : MsgTx) (cltvs cltvs' : list Z) : Prop := {
  ha_heap : heap_scripted h h';
  ha_rest : forall p, p ∉ ps -> h' !! p = h !! p;
  ha_in : MsgTx_TxIn tx' = MsgTx_TxIn tx;
  ha_lock : LockTime tx' = LockTime tx;
  ha_out : exists outs cs', MsgTx_TxOut tx' = MsgTx_TxOut tx ++ outs /\ cltvs' = cltvs ++ cs' /\
    length outs = length cs' /\ Forall (fun o => TxOut_Version o = 0) outs /\
    key_of <$> zip outs cs' =
      htlc_key ours <$> deref h' (filter (is_nondust cs incoming ours rate dust h) ps);
}.

Lemma add_htlcs_ok cs incoming ours rate dust keyRing ps h tx cltvs h' tx' cltvs' :
  NoDup ps ->
  add_htlcs cs incoming ours rate dust keyRing ps h tx cltvs = (h', Ok (tx', cltvs')) ->
  htlcs_added cs incoming ours rate dust ps h h' tx tx' cltvs cltvs'.
Proof.
  revert h tx cltvs. induction ps as [|p ps IH]; intros h tx cltvs Hnd; simpl.
  { intros [= <- <- <-]. split; [reflexivity|done|done|done|]. exists [], [].
    rewrite !app_nil_r. done. }
  apply NoDup_cons in Hnd as [Hp Hnd]. unfold index.
  destruct (h !! p) as [pd|] eqn:Hpd; [|done].
  destruct (HtlcIsDust _ _ _ _ _ _) eqn:Hdust.
  - intros E. apply IH in E as [? Hr ? ? Ho]; [|done]. split; try done.
    + intros q Hq. apply Hr. set_solver.
    + rewrite filter_cons_False; [done|]. unfold is_nondust. rewrite Hpd, Hdust. simpl. tauto.
  - destruct (addHTLC tx ours incoming pd keyRing (ChanType cs)) as [[tx1 pd1]|e|] eqn:Ea;
      [|done|done].
    apply addHTLC_ok in Ea as (Hsc & o & Eo & Ei & El & Ev & Ek). intros E.
    pose proof (heap_scripted_write h p pd pd1 Hpd Hsc) as Hw.
    apply IH in E as [Hh Hr Hi Hlk (outs & cs' & E1 & E2 & E3 & E4 & E5)]; [|done].
    assert (h' !! p = Some pd1) as Hp'.
    { rewrite Hr by done. apply list_lookup_insert_eq. by eapply lookup_lt_Some. }
    split.
    + by etrans.
    + intros q Hq. rewrite Hr by set_solver. apply list_lookup_insert_ne. set_solver.
    + congruence.
    + congruence.
    + exists (o :: outs), (Timeout pd :: cs'). rewrite E1, Eo, E2, <- !app_assoc. simpl.
      do 2 (split; [done|]). split; [by rewrite E3|]. split; [by constructor|].
      rewrite filter_cons_True by (unfold is_nondust; by rewrite Hpd, Hdust).
      unfold deref. simpl. rewrite Hp'. rewrite fmap_cons, Ek. f_equal. etrans; [exact E5|].
      unfold deref. f_equal. f_equal. apply filter_ext_in. intros q _.
      by rewrite (is_nondust_scripted _ _ _ _ _ h).
Qed.

Lemma Forall_if {A} (P : A -> Prop) (b : bool) x : P x -> Forall P (if b then [x] else []).
Proof. destruct b; by repeat constructor. Qed.

Lemma CreateCommitTx_shape chanType fin keyRing cfg lk rk al ar num ini lease tx :
  CreateCommitTx chanType fin keyRing cfg lk rk al ar num ini lease = Ok tx ->
  MsgTx_TxIn tx = [fin] /\ Forall (fun o => TxOut_Version o = 0) (MsgTx_TxOut tx).
Proof.
  unfold CreateCommitTx. destruct (CommitScriptToSelf _ _ _ _ _ _); [|done|done]. rsimpl.
  destruct (CommitScriptToRemote _ _ _ _) as [[]|e|]; [|done|done]. rsimpl.
  match goal with |- context [if HasAnchors chanType then ?x else ?y] =>
    destruct (if HasAnchors chanType then x else y) as [anchors|e|] eqn:Ea; [|done|done] end.
  rsimpl. intros [= <-]. split; [done|]. cbn [MsgTx_TxOut].
  apply Forall_app. split; [apply Forall_app; split; by apply Forall_if|].
  revert Ea. destruct (HasAnchors chanType); [|by intros [= <-]].
  destruct (CommitScriptAnchors _ _) as [[]|e'|]; [|done|done]. rsimpl. intros [= <-].
  apply Forall_app; split; by apply Forall_if.
Qed.

Lemma owner_commit_tx_shape cs ours keyRing our their num tx :
  owner_commit_tx cs ours keyRing our their num = Ok tx ->
  MsgTx_TxIn tx = [fundingTxIn cs] /\ Forall (fun o => TxOut_Version o = 0) (MsgTx_TxOut tx).
Proof. unfold owner_commit_tx. destruct ours; apply CreateCommitTx_shape. Qed.

(** The HTLCs of a view that get an output, our own first. *)
Definition view_outputs (cs : OpenChannel) (ours : bool) (rate : Z) (h : pd_heap) (v : htlcView)
    : list ptr :=
  let dust := DustLimit (if ours then LocalChanCfg cs else RemoteChanCfg cs) in
  filter (is_nondust cs false ours rate dust h) (ourUpdates v)
  ++ filter (is_nondust cs true ours rate dust h) (theirUpdates v).

Definition view_fee (cs : OpenChannel) (ours : bool) (rate : Z) (h : pd_heap) (v : htlcView) : Z :=
  FeeForSize rate (i64 (CommitSize (ChanType cs)
                        + HTLCOutputSize * Z.of_nat (length (view_outputs cs ours rate h v)))).

Record commitment_built (cs : OpenChannel) (obf : list byte) (h : pd_heap) (our their : Z)
    (ours : bool) (rate height_ : Z) (v : htlcView) (h' : pd_heap) (u : unsignedCommitmentTx)
    : Prop := {
  cb_heap : heap_scripted h h';
  cb_fee : uc_fee u = view_fee cs ours rate h v;
  cb_balances : (uc_ourBalance u, uc_theirBalance u)
    = pay_commit_fee (IsInitiator cs) (uc_fee u) our their;
  cb_length : length (MsgTx_TxOut (uc_txn u)) = length (uc_cltvs u);
  cb_version : Forall (fun o => TxOut_Version o = 0) (MsgTx_TxOut (uc_txn u));
  cb_sorted : Sorted (not_after output_less) (zip (MsgTx_TxOut (uc_txn u)) (uc_cltvs u));
  cb_keys : exists other,
    (htlc_key ours <$> deref h' (view_outputs cs ours rate h v)) ++ other
    ≡ₚ out_keys (MsgTx_TxOut (uc_txn u)) (uc_cltvs u);
  cb_capacity : i64 (total_out (MsgTx_TxOut (uc_txn u)) + uc_fee u) <= Capacity cs;
  cb_hint : length obf = 6%nat -> 0 <= height_ -> GetStateNumHint (uc_txn u) obf = Ok height_;
}.

Lemma finish_ok cs tx cltvs height_ obf fee our their u :
  length (MsgTx_TxOut tx) = length cltvs -> (exists i, MsgTx_TxIn tx = [i]) ->
  finish_commitment cs tx cltvs height_ obf fee our their = Ok u ->
  uc_fee u = fee /\ uc_ourBalance u = our /\ uc_theirBalance u = their /\
  length (MsgTx_TxOut (uc_txn u)) = length (uc_cltvs u) /\
  zip (MsgTx_TxOut (uc_txn u)) (uc_cltvs u) = go_sort output_less (zip (MsgTx_TxOut tx) cltvs) /\
  MsgTx_TxOut (uc_txn u) ≡ₚ MsgTx_TxOut tx /\
  i64 (total_out (MsgTx_TxOut (uc_txn u)) + fee) <= Capacity cs /\
  (length obf = 6%nat -> 0 <= height_ -> GetStateNumHint (uc_txn u) obf = Ok height_).
Proof.
  intros Hl [i Hi]. unfold finish_commitment.
  destruct (SetStateNumHint tx height_ obf) as [tx1|e|] eqn:Eh; [|done|done]. rsimpl.
  assert (MsgTx_TxOut tx1 = MsgTx_TxOut tx /\ exists i', MsgTx_TxIn tx1 = [i']) as [Ho [i' Hi']].
  { revert Eh. unfold SetStateNumHint. rewrite Hi. case_match; [done|]. intros [= <-]. eauto. }
  destruct (InPlaceCommitSort_ok tx1 cltvs) as (tx2 & cl2 & Es & Ez & El & _ & Ep & Ek);
    [by rewrite Ho|]. rewrite Es. rsimpl. destruct (CheckTransactionSanity tx2); [|done|done]. rsimpl.
  destruct (_ >? _) eqn:Ec; [done|]. intros [= <-]. simpl. rewrite Ho in Ez, Ep.
  do 6 (split; [done|]). split; [rewrite Z.gtb_ltb in Ec; apply Z.ltb_ge in Ec; done|].
  intros Hobf Hh. assert (height_ <= maxStateHint) as Hm.
  { revert Eh. unfold SetStateNumHint. case_match eqn:E; [done|]. by apply Z.ltb_ge in E. }
  destruct (GetSet_hint tx height_ obf Hobf ltac:(lia) ltac:(by exists i)) as (tx1' & E1 & E2 & _).
  rewrite E1 in Eh. injection Eh as ->. revert Es E2. unfold InPlaceCommitSort, GetStateNumHint.
  rewrite Hi'. case_match; [done|]. intros [= <- <-]. done.
Qed.

Lemma deref_app h ps qs : deref h (ps ++ qs) = deref h ps ++ deref h qs.
Proof. unfold deref. apply omap_app. Qed.

Lemma deref_ext h h' ps : (forall p, p ∈ ps -> h' !! p = h !! p) -> deref h' ps = deref h ps.
Proof.
  intros Hps. unfold deref. induction ps as [|p ps IH]; [done|]. simpl.
  rewrite Hps by apply list_elem_of_here.
  destruct (h !! p); [f_equal|]; apply IH; intros q Hq; by apply Hps, list_elem_of_further.
Qed.

Lemma createUnsigned_ok cs obf h our their ours rate height_ v keyRing h' u :
  NoDup (ourUpdates v ++ theirUpdates v) ->
  createUnsignedCommitmentTx cs obf h our their ours rate height_ v keyRing = (h', Ok u) ->
  commitment_built cs obf h our their ours rate height_ v h' u.
Proof.
  intros (HnO & Hdis & HnT)%NoDup_app. unfold createUnsignedCommitmentTx.
  set (dust := DustLimit _). set (num := _ + count_nondust _ _ _ _ _ _ (theirUpdates v)).
  set (fee := FeeForSize rate _).
  assert (fee = view_fee cs ours rate h v) as Ef.
  { unfold fee, num, view_fee, view_outputs. rewrite length_app, Nat2Z.inj_add. done. }
  destruct (pay_commit_fee _ fee our their) as [our' their'] eqn:Epay.
  destruct (owner_commit_tx _ _ _ _ _ _) as [tx|e|] eqn:Eo; [|done|done].
  apply owner_commit_tx_shape in Eo as [Hin Hver].
  destruct (add_htlcs cs false _ _ _ _ _ h tx _) as [h1 [[tx1 cl1]|e|]] eqn:E1; [|done|done].
  apply add_htlcs_ok in E1 as [Hh1 Hr1 Hi1 Hk1 (o1 & c1 & Eo1 & Ec1 & El1 & Ev1 & Ek1)]; [|done].
  destruct (add_htlcs cs true _ _ _ _ _ h1 tx1 cl1) as [h2 r] eqn:E2.
  destruct r as [[tx2 cl2]|e|]; [|done|done]. rsimpl.
  apply add_htlcs_ok in E2 as [Hh2 Hr2 Hi2 Hk2 (o2 & c2 & Eo2 & Ec2 & El2 & Ev2 & Ek2)]; [|done].
  intros [= <- Ef'].
  assert (length (MsgTx_TxOut tx2) = length cl2) as Hlen.
  { rewrite Eo2, Eo1, Ec2, Ec1, !length_app, length_replicate. lia. }
  apply finish_ok in Ef' as (F1 & F2 & F3 & F4 & F5 & F6 & F7 & F8);
    [|done|exists (fundingTxIn cs); congruence].
  destruct (go_sort_outputs (zip (MsgTx_TxOut tx2) cl2)) as [Hp Hs].
  split; [by etrans|congruence|congruence|done| |by rewrite F5| |congruence|done].
  - rewrite F6, Eo2, Eo1. by repeat (apply Forall_app; split).
  - exists (key_of <$> zip (MsgTx_TxOut tx) (replicate (length (MsgTx_TxOut tx)) 0)).
    unfold out_keys. rewrite F5, Hp, Eo2, Eo1, Ec2, Ec1.
    rewrite zip_with_app by (rewrite !length_app, length_replicate; lia).
    rewrite zip_with_app by (by rewrite length_replicate).
    rewrite !fmap_app, Ek1, Ek2. unfold view_outputs. fold dust.
    rewrite deref_app, fmap_app, <- app_assoc.
    assert (deref h2 (filter (is_nondust cs false ours rate dust h) (ourUpdates v))
            = deref h1 (filter (is_nondust cs false ours rate dust h) (ourUpdates v))) as ->.
    { apply deref_ext. intros p [_ Hpo]%list_elem_of_filter. apply Hr2. intros Ht.
      by apply (Hdis p). }
    assert (filter (is_nondust cs true ours rate dust h1) (theirUpdates v)
            = filter (is_nondust cs true ours rate dust h) (theirUpdates v)) as ->.
    { apply filter_ext_in. intros p _. by rewrite (is_nondust_scripted _ _ _ _ _ h). }
    set (x := htlc_key ours <$> _). set (y := htlc_key ours <$> _). set (z := key_of <$> _).
    rewrite (Permutation_app_comm z x), <- app_assoc. by rewrite (Permutation_app_comm z y).
Qed.

End Outputs.
