(* ===== verification/CommitDance.v ===== *)
(** * The commitment state machine: signing and revoking

    [lnwallet/channel.go]: building the next commitment of either chain from the logs
    ([fetchCommitmentView]), extending the remote chain ([SignNextCommitment]) and the
    local one ([ReceiveNewCommitment]), revoking ([RevokeCurrentCommitment]) and being
    revoked to ([ReceiveRevocation]); and what each step writes to the database
    ([UpdateCommitment], [AppendRemoteCommitChain], [AdvanceCommitChainTail] of
    [channeldb/channel.go]).

    Keys and signatures are the operations of the class [Crypto].  Whether a database
    transaction commits is an argument of the operation that runs it.  An operation
    returns the channel on every path, since several of them write before they fail. *)

From Stdlib Require Import Lia.
From S2P Require Import Prelude Sha256 Shachain Ids Amounts UpdateLog Channel ChannelEval CommitTx.

Class Crypto := {
  (** commitment point, whether it is ours, the channel *)
  DeriveCommitmentKeys : list byte -> bool -> OpenChannel -> CommitmentKeyRing;
  ComputeCommitmentPoint : list byte -> list byte;
  SignOutputRaw : MsgTx -> res (list byte);
  (** an HTLC of a commitment, incoming or not *)
  SignHtlc : CommitmentKeyRing -> commitment -> bool -> PaymentDescriptor -> res (list byte);
  CommitSigHash : MsgTx -> res (list byte);
  HtlcSigHash : CommitmentKeyRing -> commitment -> bool -> PaymentDescriptor -> res (list byte);
  ToSignature : list byte -> res (list byte);
  (** signature, hash, key *)
  VerifySig : list byte -> list byte -> list byte -> bool;
}.

(** ** Wire messages of updates *)

Inductive update_msg :=
  | MsgAdd (m : UpdateAddHTLC)
  | MsgFulfill (id : Z) (preimage : list byte)
  | MsgFail (id : Z) (reason : list byte)
  | MsgFailMalformed (id : Z) (shaOnionBlob : list byte) (failureCode : Z)
  | MsgFee (feePerKB : Z).

Record LogUpdate := { lu_LogIndex : Z; UpdateMsg : update_msg }.

(** Copying into the fixed array of an onion packet. *)
Definition OnionPacketSize : nat := 1366.

Definition onion_copy (blob : list byte) : list byte :=
  take OnionPacketSize blob ++ replicate (OnionPacketSize - length blob) x00.

Definition to_msg (pd : PaymentDescriptor) : update_msg :=
  match EntryType pd with
  | Add => MsgAdd {| Add_ID := HtlcIndex pd; Add_Amount := Amount pd;
                     Add_PaymentHash := RHash pd; Add_Expiry := Timeout pd;
                     Add_OnionBlob := onion_copy (OnionBlob pd) |}
  | Settle => MsgFulfill (ParentIndex pd) (RPreimage pd)
  | Fail => MsgFail (ParentIndex pd) (FailReason pd)
  | MalformedFail => MsgFailMalformed (ParentIndex pd) (ShaOnionBlob pd) (FailCode pd)
  | FeeUpdate => MsgFee (u32 (ToAtoms (Amount pd)))
  end.

Definition to_log_update (pd : PaymentDescriptor) : LogUpdate :=
  {| lu_LogIndex := LogIndex pd; UpdateMsg := to_msg pd |}.

(** ** The database of a channel *)

Record CommitDiff := {
  cd_Commitment : ChannelCommitment;
  cd_LogUpdates : list LogUpdate;
  cd_CommitSig : list byte;
  cd_HtlcSigs : list (list byte);
  OpenedCircuitKeys : list CircuitKey;
  ClosedCircuitKeys : list CircuitKey;
  AddAcks : list AddRef;
  SettleFailAcks : list SettleFailRef;
}.

(** The arguments of [NewFwdPkg]. *)
Record fwd_package := {
  fp_Source : ShortChannelID;
  fp_Height : Z;
  fp_Adds : list LogUpdate;
  fp_SettleFails : list LogUpdate;
}.

(** The channel's bucket.  Packages and acknowledgements go to the forwarding
    packager; what it was given is recorded. *)
Record chan_db := {
  db_Restored : bool;
  db_Borked : bool;
  LocalCommitment : ChannelCommitment;
  RemoteCommitment : ChannelCommitment;
  commitDiff : option CommitDiff;
  unsignedAckedUpdates : option (list LogUpdate);
  remoteUnsignedLocalUpdates : option (list LogUpdate);
  lastWasRevoke : option bool;
  revocationLog : gmap Z ChannelCommitment;
  db_FwdPkgs : list fwd_package;
  db_AddAcks : list AddRef;
  db_SettleFailAcks : list SettleFailRef;
}.

Definition ErrNoRestoredChannelMutation : error := Error "ErrNoRestoredChannelMutation".
Definition ErrChanBorked : error := Error "ErrChanBorked".

(** [db] tells whether the transaction commits. *)
Definition mutable (d : chan_db) (db : res unit) : res unit :=
  if db_Restored d then Err ErrNoRestoredChannelMutation
  else if db_Borked d then Err ErrChanBorked
  else db.

Definition UpdateCommitment (d : chan_db) (newCommitment : ChannelCommitment)
    (unsignedAcked : list LogUpdate) (db : res unit) : res chan_db :=
  _ ← mutable d db;
  let keep u := LocalLogIndex newCommitment <=? lu_LogIndex u in
  Ok {| db_Restored := db_Restored d; db_Borked := db_Borked d;
        LocalCommitment := newCommitment; RemoteCommitment := RemoteCommitment d;
        commitDiff := commitDiff d; unsignedAckedUpdates := Some unsignedAcked;
        remoteUnsignedLocalUpdates := filter keep <$> remoteUnsignedLocalUpdates d;
        lastWasRevoke := Some true; revocationLog := revocationLog d;
        db_FwdPkgs := db_FwdPkgs d; db_AddAcks := db_AddAcks d;
        db_SettleFailAcks := db_SettleFailAcks d |}.

Definition AppendRemoteCommitChain (d : chan_db) (diff : CommitDiff) (db : res unit)
    : res chan_db :=
  _ ← mutable d db;
  Ok {| db_Restored := db_Restored d; db_Borked := db_Borked d;
        LocalCommitment := LocalCommitment d; RemoteCommitment := RemoteCommitment d;
        commitDiff := Some diff; unsignedAckedUpdates := unsignedAckedUpdates d;
        remoteUnsignedLocalUpdates := remoteUnsignedLocalUpdates d;
        lastWasRevoke := Some false; revocationLog := revocationLog d;
        db_FwdPkgs := db_FwdPkgs d; db_AddAcks := db_AddAcks d ++ AddAcks diff;
        db_SettleFailAcks := db_SettleFailAcks d ++ SettleFailAcks diff |}.

(** Without a pending commitment there is nothing to deserialize.  Without stored
    updates (channels of older versions) the rest of the updates is not written. *)
Definition AdvanceCommitChainTail (d : chan_db) (fwdPkg : fwd_package)
    (updates : list LogUpdate) (db : res unit) : res chan_db :=
  _ ← mutable d db;
  match commitDiff d with
  | None => Err EOF
  | Some newCommit =>
      let keep u := RemoteLogIndex (cd_Commitment newCommit) <=? lu_LogIndex u in
      Ok {| db_Restored := db_Restored d; db_Borked := db_Borked d;
            LocalCommitment := LocalCommitment d; RemoteCommitment := cd_Commitment newCommit;
            commitDiff := None;
            unsignedAckedUpdates := filter keep <$> unsignedAckedUpdates d;
            remoteUnsignedLocalUpdates :=
              match unsignedAckedUpdates d with
              | None => remoteUnsignedLocalUpdates d
              | Some _ => Some updates
              end;
            lastWasRevoke := lastWasRevoke d;
            revocationLog := <[CommitHeight (RemoteCommitment d) := RemoteCommitment d]>
                               (revocationLog d);
            db_FwdPkgs := db_FwdPkgs d ++ [fwdPkg]; db_AddAcks := db_AddAcks d;
            db_SettleFailAcks := db_SettleFailAcks d |}
  end.

(** [NextLocalHtlcIndex]. *)
Definition NextLocalHtlcIndex (d : chan_db) : Z :=
  match commitDiff d with
  | Some diff => LocalHtlcIndex (cd_Commitment diff)
  | None => LocalHtlcIndex (RemoteCommitment d)
  end.

(** ** A session on a channel *)

Record session := {
  ss_lc : LightningChannel;
  ss_db : chan_db;
  currentHeight : Z;
  ss_obfuscator : list byte;
  ss_ShortChannelID : ShortChannelID;
  ss_Producer : RevocationProducer;
  ss_Store : RevocationStore;
  RemoteCurrentRevocation : option (list byte);
  RemoteNextRevocation : option (list byte);
}.

Definition set_lc (s : session) (lc : LightningChannel) : session :=
  {| ss_lc := lc; ss_db := ss_db s; currentHeight := currentHeight s;
     ss_obfuscator := ss_obfuscator s; ss_ShortChannelID := ss_ShortChannelID s;
     ss_Producer := ss_Producer s; ss_Store := ss_Store s;
     RemoteCurrentRevocation := RemoteCurrentRevocation s;
     RemoteNextRevocation := RemoteNextRevocation s |}.

Definition set_db (s : session) (d : chan_db) : session :=
  {| ss_lc := ss_lc s; ss_db := d; currentHeight := currentHeight s;
     ss_obfuscator := ss_obfuscator s; ss_ShortChannelID := ss_ShortChannelID s;
     ss_Producer := ss_Producer s; ss_Store := ss_Store s;
     RemoteCurrentRevocation := RemoteCurrentRevocation s;
     RemoteNextRevocation := RemoteNextRevocation s |}.

Definition set_height (s : session) (h : Z) : session :=
  {| ss_lc := ss_lc s; ss_db := ss_db s; currentHeight := h;
     ss_obfuscator := ss_obfuscator s; ss_ShortChannelID := ss_ShortChannelID s;
     ss_Producer := ss_Producer s; ss_Store := ss_Store s;
     RemoteCurrentRevocation := RemoteCurrentRevocation s;
     RemoteNextRevocation := RemoteNextRevocation s |}.

Definition set_revocations (s : session) (store : RevocationStore)
    (current next : option (list byte)) : session :=
  {| ss_lc := ss_lc s; ss_db := ss_db s; currentHeight := currentHeight s;
     ss_obfuscator := ss_obfuscator s; ss_ShortChannelID := ss_ShortChannelID s;
     ss_Producer := ss_Producer s; ss_Store := store;
     RemoteCurrentRevocation := current; RemoteNextRevocation := next |}.

Definition with_chains (lc : LightningChannel) (local remote : commitmentChain)
    : LightningChannel :=
  {| lc_heap := lc_heap lc; channelState := channelState lc;
     localCommitChain := local; remoteCommitChain := remote;
     localUpdateLog := localUpdateLog lc; remoteUpdateLog := remoteUpdateLog lc |}.

Definition set_sig (c : commitment) (s : list byte) : commitment :=
  {| height := height c; isOurs := isOurs c; ourMessageIndex := ourMessageIndex c;
     theirMessageIndex := theirMessageIndex c; ourHtlcIndex := ourHtlcIndex c;
     theirHtlcIndex := theirHtlcIndex c; txn := txn c; sig := s;
     ourBalance := ourBalance c; theirBalance := theirBalance c; fee := fee c;
     feePerKB := feePerKB c; dustLimit := dustLimit c; outgoingHTLCs := outgoingHTLCs c;
     incomingHTLCs := incomingHTLCs c; outgoingHTLCIndex := outgoingHTLCIndex c;
     incomingHTLCIndex := incomingHTLCIndex c |}.

Section Dance.
Context `{Hasher} `{Scripts} `{Crypto}.

(** ** The next commitment of a chain *)

Definition errFeeRateTooLow : error := Error "attempts to create commitment with too low feerate".

(** The checks on the finished transaction and the commitment that is returned; [h] is
    the heap after the scripts were stored, of which the HTLCs are copied. *)
Definition commitment_of_tx (cs : OpenChannel) (h : pd_heap) (remoteChain : bool)
    (u : unsignedCommitmentTx) (filtered : htlcView) (nextHeight : Z)
    (ourLogIndex ourHtlcIndex_ theirLogIndex theirHtlcIndex_ : Z) : res commitment :=
  let actualFee := i64 (Capacity cs - total_out (MsgTx_TxOut (uc_txn u))) in
  let size := i64 (SerializeSize (uc_txn u) + FundingOutputSigScriptSize) in
  effFeeRate ← (if size =? 0 then Panic else Ok (Z.quot (i64 (actualFee * 1000)) size));
  if (effFeeRate <? FeePerKBFloor) && negb disableFeeFloorCheck then Err errFeeRateTooLow
  else
    populateHtlcIndexes
      {| height := nextHeight; isOurs := negb remoteChain;
         ourMessageIndex := ourLogIndex; theirMessageIndex := theirLogIndex;
         ourHtlcIndex := ourHtlcIndex_; theirHtlcIndex := theirHtlcIndex_;
         txn := uc_txn u; sig := []; ourBalance := uc_ourBalance u;
         theirBalance := uc_theirBalance u; fee := uc_fee u;
         feePerKB := view_feePerKB filtered;
         dustLimit := DustLimit (if remoteChain then RemoteChanCfg cs else LocalChanCfg cs);
         outgoingHTLCs := deref h (ourUpdates filtered);
         incomingHTLCs := deref h (theirUpdates filtered);
         outgoingHTLCIndex := ∅; incomingHTLCIndex := ∅ |}
      (ChanType cs) (uc_cltvs u).

Definition fetchCommitmentView (lc : LightningChannel) (obfuscator : list byte)
    (remoteChain : bool) (ourLogIndex ourHtlcIndex_ theirLogIndex theirHtlcIndex_ : Z)
    (keyRing : CommitmentKeyRing) : LightningChannel * res commitment :=
  match tip (commitChain lc remoteChain) with
  | Ok c =>
      let nextHeight := u64 (height c + 1) in
      match computeView lc (fetchHTLCView lc theirLogIndex ourLogIndex) remoteChain true with
      | (lc1, Ok (our, their, _, filtered)) =>
          let '(h, r) := createUnsignedCommitmentTx (channelState lc1) obfuscator (lc_heap lc1)
            our their (negb remoteChain) (view_feePerKB filtered) nextHeight filtered keyRing in
          (with_heap lc1 h,
           u ← r;
           commitment_of_tx (channelState lc1) h remoteChain u filtered nextHeight
             ourLogIndex ourHtlcIndex_ theirLogIndex theirHtlcIndex_)
      | (lc1, Err e) => (lc1, Err e)
      | (lc1, Panic) => (lc1, Panic)
      end
  | Err e => (lc, Err e)
  | Panic => (lc, Panic)
  end.

(** ** Extending the remote chain *)

(** The HTLCs of a remote commitment that need a signature, in the order of their
    outputs; [txOut] is indexed for each. *)
Definition sig_job_less (a b : bool * PaymentDescriptor) : bool :=
  remoteOutputIndex a.2 <? remoteOutputIndex b.2.

Definition genRemoteHtlcSigJobs (cs : OpenChannel) (c : commitment)
    : res (list (bool * PaymentDescriptor)) :=
  let nondust incoming htlc :=
    negb (HtlcIsDust (ChanType cs) incoming false (feePerKB c) (ToAtoms (Amount htlc))
            (DustLimit (RemoteChanCfg cs))) in
  let jobs := (pair true <$> filter (nondust true) (incomingHTLCs c))
              ++ (pair false <$> filter (nondust false) (outgoingHTLCs c)) in
  _ ← mapM (fun j => if remoteOutputIndex j.2 <? 0 then Panic
                     else index (MsgTx_TxOut (txn c)) (Z.to_nat (remoteOutputIndex j.2))) jobs;
  Ok (go_sort sig_job_less jobs).

(** The entries of our log that were committed at the height of the new commitment. *)
Definition committed_at (h : Z) (pd : PaymentDescriptor) : bool :=
  (addCommitHeightRemote pd =? h) || (removeCommitHeightRemote pd =? h).

Definition createCommitDiff (lc : LightningChannel) (newCommit : commitment)
    (commitSig : list byte) (htlcSigs : list (list byte)) : CommitDiff :=
  let fresh := filter (committed_at (height newCommit))
                 (deref (lc_heap lc) (ul_list (localUpdateLog lc))) in
  let adds := filter (fun pd => EntryType pd = Add) fresh in
  let others := filter (fun pd => EntryType pd <> Add) fresh in
  {| cd_Commitment := toDiskCommit newCommit false;
     cd_LogUpdates := to_log_update <$> fresh;
     cd_CommitSig := commitSig; cd_HtlcSigs := htlcSigs;
     OpenedCircuitKeys := omap OpenCircuitKey adds;
     ClosedCircuitKeys := omap ClosedCircuitKey others;
     AddAcks := omap SourceRef others;
     SettleFailAcks := omap DestRef others |}.

Definition ErrNoWindow : error := Error "ErrNoWindow".

(** Signatures of a new remote commitment. *)
Definition sign_commitment (cs : OpenChannel) (keyRing : CommitmentKeyRing) (c : commitment)
    : res (list byte * list (list byte)) :=
  jobs ← genRemoteHtlcSigJobs cs c;
  commitSig ← SignOutputRaw (txn c);
  htlcSigs ← mapM (fun j => SignHtlc keyRing c j.1 j.2) jobs;
  Ok (commitSig, htlcSigs).

Definition SignNextCommitment (s : session) (db : res unit)
    : session * res (list byte * list (list byte) * list HTLC) :=
  let lc := ss_lc s in
  match oweCommitment lc true with
  | Ok _ =>
      match hasUnackedCommitment (remoteCommitChain lc), RemoteNextRevocation s with
      | false, Some commitPoint =>
          match tail (localCommitChain lc) with
          | Ok localTail =>
              let remoteACKedIndex := theirMessageIndex localTail in
              match validateCommitmentSanity lc remoteACKedIndex
                      (logIndex (localUpdateLog lc)) true None None with
              | (lc1, Ok _) =>
                  let keyRing := DeriveCommitmentKeys commitPoint false (channelState lc1) in
                  match fetchCommitmentView lc1 (ss_obfuscator s) true
                          (logIndex (localUpdateLog lc1)) (htlcCounter (localUpdateLog lc1))
                          remoteACKedIndex (theirHtlcIndex localTail) keyRing with
                  | (lc2, Ok newCommitView) =>
                      let s2 := set_lc s lc2 in
                      match sign_commitment (channelState lc2) keyRing newCommitView with
                      | Ok (commitSig, htlcSigs) =>
                          let diff := createCommitDiff lc2 newCommitView commitSig htlcSigs in
                          match AppendRemoteCommitChain (ss_db s2) diff db with
                          | Ok d =>
                              (set_db (set_lc s2 (with_chains lc2 (localCommitChain lc2)
                                 (addCommitment (remoteCommitChain lc2) newCommitView))) d,
                               Ok (commitSig, htlcSigs, Htlcs (cd_Commitment diff)))
                          | Err e => (s2, Err e)
                          | Panic => (s2, Panic)
                          end
                      | Err e => (s2, Err e)
                      | Panic => (s2, Panic)
                      end
                  | (lc2, Err e) => (set_lc s lc2, Err e)
                  | (lc2, Panic) => (set_lc s lc2, Panic)
                  end
              | (lc1, Err e) => (set_lc s lc1, Err e)
              | (lc1, Panic) => (set_lc s lc1, Panic)
              end
          | Err e => (s, Err e)
          | Panic => (s, Panic)
          end
      | _, _ => (s, Err ErrNoWindow)
      end
  | Err e => (s, Err e)
  | Panic => (s, Panic)
  end.

(** ** Extending the local chain *)

Definition errNotEnoughSigs : error := Error "not enough HTLC signatures".
Definition errSigMismatch : error := Error "number of htlc sig mismatch".
Definition InvalidCommitSigError : error := Error "InvalidCommitSigError".
Definition InvalidHtlcSigError : error := Error "InvalidHtlcSigError".

(** The jobs of [genHtlcSigValidationJobs] from output [n] on: for each output that is
    an HTLC its direction, its position on the commitment and its signature. *)
Fixpoint htlc_sig_jobs (c : commitment) (n k : nat) (sigs : list (list byte))
    : res (list (bool * nat * list byte)) :=
  match k with
  | O => if bool_decide (sigs = []) then Ok [] else Err errSigMismatch
  | S k' =>
      let found :=
        match incomingHTLCIndex c !! Z.of_nat n with
        | Some pos => Some (true, pos)
        | None => match outgoingHTLCIndex c !! Z.of_nat n with
                  | Some pos => Some (false, pos)
                  | None => None
                  end
        end in
      match found with
      | None => htlc_sig_jobs c (S n) k' sigs
      | Some (incoming, pos) =>
          match sigs with
          | [] => Err errNotEnoughSigs
          | s :: sigs' =>
              s' ← ToSignature s;
              rest ← htlc_sig_jobs c (S n) k' sigs';
              Ok ((incoming, pos, s') :: rest)
          end
      end
  end.

Definition genHtlcSigValidationJobs (c : commitment) (htlcSigs : list (list byte))
    : res (list (bool * nat * list byte)) :=
  htlc_sig_jobs c 0 (length (MsgTx_TxOut (txn c))) htlcSigs.

(** The signatures are stored with the HTLCs of the commitment. *)
Definition store_sigs (c : commitment) (jobs : list (bool * nat * list byte)) : commitment :=
  let put incoming l :=
    foldl (fun l j => if bool_decide (j.1.1 = incoming)
                      then alter (fun pd => pd <| pd_sig := Some j.2 |>) j.1.2 l else l) l jobs in
  with_htlcs c (put false (outgoingHTLCs c)) (put true (incomingHTLCs c))
    (outgoingHTLCIndex c) (incomingHTLCIndex c).

Definition verify_job (keyRing : CommitmentKeyRing) (c : commitment)
    (j : bool * nat * list byte) : res unit :=
  htlc ← index (if j.1.1 then incomingHTLCs c else outgoingHTLCs c) j.1.2;
  h ← HtlcSigHash keyRing c j.1.1 htlc;
  if VerifySig j.2 h (RemoteHtlcKey keyRing) then Ok tt else Err InvalidHtlcSigError.

(** All checks of signatures, and the commitment that is kept when they pass. *)
Definition verify_commitment (cs : OpenChannel) (keyRing : CommitmentKeyRing) (c : commitment)
    (commitSig : list byte) (htlcSigs : list (list byte)) : res commitment :=
  sigHash ← CommitSigHash (txn c);
  jobs ← genHtlcSigValidationJobs c htlcSigs;
  cSig ← ToSignature commitSig;
  if negb (VerifySig cSig sigHash (RemoteMultiSigKey cs)) then Err InvalidCommitSigError
  else
    let c' := store_sigs c jobs in
    _ ← mapM (verify_job keyRing c') jobs;
    Ok (set_sig c' commitSig).

Definition ReceiveNewCommitment (s : session) (commitSig : list byte)
    (htlcSigs : list (list byte)) : session * res unit :=
  let lc := ss_lc s in
  match oweCommitment lc false, tail (remoteCommitChain lc) with
  | Ok _, Ok remoteTail =>
      let localACKedIndex := ourMessageIndex remoteTail in
      match validateCommitmentSanity lc (logIndex (remoteUpdateLog lc)) localACKedIndex
              false None None with
      | (lc1, Ok _) =>
          match AtIndex (ss_Producer s) (u64 (currentHeight s + 1)) with
          | Ok commitSecret =>
              let keyRing := DeriveCommitmentKeys (ComputeCommitmentPoint commitSecret) true
                               (channelState lc1) in
              match fetchCommitmentView lc1 (ss_obfuscator s) false localACKedIndex
                      (ourHtlcIndex remoteTail) (logIndex (remoteUpdateLog lc1))
                      (htlcCounter (remoteUpdateLog lc1)) keyRing with
              | (lc2, Ok localCommitmentView) =>
                  match verify_commitment (channelState lc2) keyRing localCommitmentView
                          commitSig htlcSigs with
                  | Ok c =>
                      (set_lc s (with_chains lc2 (addCommitment (localCommitChain lc2) c)
                                   (remoteCommitChain lc2)), Ok tt)
                  | Err e => (set_lc s lc2, Err e)
                  | Panic => (set_lc s lc2, Panic)
                  end
              | (lc2, Err e) => (set_lc s lc2, Err e)
              | (lc2, Panic) => (set_lc s lc2, Panic)
              end
          | Err e => (set_lc s lc1, Err e)
          | Panic => (set_lc s lc1, Panic)
          end
      | (lc1, Err e) => (set_lc s lc1, Err e)
      | (lc1, Panic) => (set_lc s lc1, Panic)
      end
  | _, _ => (s, Panic)
  end.

(** ** Revoking *)

Record RevokeAndAck := { Revocation : list byte; NextRevocationKey : list byte }.

Definition generateRevocation (s : session) (height_ : Z) : res RevokeAndAck :=
  commitSecret ← AtIndex (ss_Producer s) height_;
  nextCommitSecret ← AtIndex (ss_Producer s) (u64 (height_ + 2));
  Ok {| Revocation := commitSecret;
        NextRevocationKey := ComputeCommitmentPoint nextCommitSecret |}.

(** The updates of the other party that are on our commitment but not on theirs. *)
Definition getUnsignedAckedUpdates (lc : LightningChannel) : res (list LogUpdate) :=
  remoteTail ← tail (remoteCommitChain lc);
  localTail ← tail (localCommitChain lc);
  let lastRemoteCommitted := theirMessageIndex remoteTail in
  let lastLocalCommitted := theirMessageIndex localTail in
  let pending pd := negb (LogIndex pd <? lastRemoteCommitted)
                    && negb (lastLocalCommitted <=? LogIndex pd) in
  Ok (to_log_update <$> filter pending (deref (lc_heap lc) (ul_list (remoteUpdateLog lc)))).

(** The chain and the height move before the database is written. *)
Definition RevokeCurrentCommitment (s : session) (db : res unit)
    : session * res (RevokeAndAck * list HTLC) :=
  match generateRevocation s (currentHeight s) with
  | Ok revocationMsg =>
      let lc := ss_lc s in
      match advanceTail (localCommitChain lc) with
      | Ok chain =>
          let lc1 := with_chains lc chain (remoteCommitChain lc) in
          let s1 := set_height (set_lc s lc1) (u64 (currentHeight s + 1)) in
          match (chainTail ← tail (localCommitChain lc1);
                 unsigned ← getUnsignedAckedUpdates lc1;
                 let newCommitment := toDiskCommit chainTail true in
                 d ← UpdateCommitment (ss_db s1) newCommitment unsigned db;
                 Ok (d, Htlcs newCommitment)) with
          | Ok (d, htlcs) => (set_db s1 d, Ok (revocationMsg, htlcs))
          | Err e => (s1, Err e)
          | Panic => (s1, Panic)
          end
      | Err e => (s, Err e)
      | Panic => (s, Panic)
      end
  | Err e => (s, Err e)
  | Panic => (s, Panic)
  end.

(** ** Being revoked to *)

Definition errRevocationMismatch : error := Error "revocation key mismatch".

(** Whether an entry of the remote log is forwarded when the remote tail reaches
    [remoteChainTail], and as what. *)
Definition fwd_add (localChainTail remoteChainTail : Z) (pd : PaymentDescriptor) : bool :=
  bool_decide (EntryType pd = Add)
  && ((0 <? addCommitHeightRemote pd) && (0 <? addCommitHeightLocal pd))
  && ((remoteChainTail =? addCommitHeightRemote pd) && (addCommitHeightLocal pd <=? localChainTail)).

Definition fwd_rmv (localChainTail remoteChainTail : Z) (pd : PaymentDescriptor) : bool :=
  bool_decide (EntryType pd <> Add)
  && ((0 <? removeCommitHeightRemote pd) && (0 <? removeCommitHeightLocal pd))
  && ((remoteChainTail =? removeCommitHeightRemote pd)
      && (removeCommitHeightLocal pd <=? localChainTail)).

(** The loop over the remote log: the heap, the entries to forward as additions and as
    removals, and their updates. *)
Record fwd_state := {
  fs_heap : pd_heap;
  addIndex : Z;
  settleFailIndex : Z;
  addsToForward : list ptr;
  settleFailsToForward : list ptr;
  addUpdates : list LogUpdate;
  settleFailUpdates : list LogUpdate;
}.

Definition fwd_entry (source : ShortChannelID) (localChainTail remoteChainTail : Z) (p : ptr)
    (st : fwd_state) : res fwd_state :=
  pd ← index (fs_heap st) p;
  if bool_decide (EntryType pd = FeeUpdate) || isForwarded pd then Ok st
  else if fwd_add localChainTail remoteChainTail pd then
    let pd' := pd <| SourceRef := Some {| AddRef_Height := remoteChainTail; AddRef_Index := addIndex st |} |>
                  <| isForwarded := true |> in
    Ok {| fs_heap := <[p := pd']> (fs_heap st); addIndex := u16 (addIndex st + 1);
          settleFailIndex := settleFailIndex st;
          addsToForward := addsToForward st ++ [p];
          settleFailsToForward := settleFailsToForward st;
          addUpdates := addUpdates st ++ [to_log_update pd'];
          settleFailUpdates := settleFailUpdates st |}
  else if fwd_rmv localChainTail remoteChainTail pd then
    let pd' := pd <| DestRef := Some {| SF_Source := source; SF_Height := remoteChainTail;
                                        SF_Index := settleFailIndex st |} |>
                  <| isForwarded := true |> in
    Ok {| fs_heap := <[p := pd']> (fs_heap st); addIndex := addIndex st;
          settleFailIndex := u16 (settleFailIndex st + 1);
          addsToForward := addsToForward st;
          settleFailsToForward := settleFailsToForward st ++ [p];
          addUpdates := addUpdates st;
          settleFailUpdates := settleFailUpdates st ++ [to_log_update pd'] |}
  else Ok st.

Fixpoint fwd_entries (source : ShortChannelID) (localChainTail remoteChainTail : Z)
    (ps : list ptr) (st : fwd_state) : res fwd_state :=
  match ps with
  | [] => Ok st
  | p :: ps' =>
      st' ← fwd_entry source localChainTail remoteChainTail p st;
      fwd_entries source localChainTail remoteChainTail ps' st'
  end.

(** Our removals and fee updates that are on their commitment but not on ours. *)
Definition unsignedLocalUpdates (lc : LightningChannel) (remoteMessageIndex localMessageIndex : Z)
    : list LogUpdate :=
  let pending pd := bool_decide (EntryType pd <> Add)
    && ((LogIndex pd <? remoteMessageIndex) && (localMessageIndex <=? LogIndex pd)) in
  to_log_update <$> filter pending (deref (lc_heap lc) (ul_list (localUpdateLog lc))).

(** The part behind the checks of the revocation: what is forwarded, the database, the
    chain and the logs.  The heap is written before the database. *)
Definition advance_remote (s : session) (db : res unit)
    : session * res (fwd_package * list ptr * list ptr * list HTLC) :=
  let lc := ss_lc s in
  match (remoteTail ← tail (remoteCommitChain lc);
         localTail ← tail (localCommitChain lc);
         let remoteChainTail := u64 (height remoteTail + 1) in
         let localChainTail := height localTail in
         st ← fwd_entries (ss_ShortChannelID s) localChainTail remoteChainTail
                (ul_list (remoteUpdateLog lc))
                {| fs_heap := lc_heap lc; addIndex := 0; settleFailIndex := 0;
                   addsToForward := []; settleFailsToForward := []; addUpdates := [];
                   settleFailUpdates := [] |};
         remoteTip ← tip (remoteCommitChain lc);
         Ok (remoteChainTail, localTail, remoteTip, st)) with
  | Ok (remoteChainTail, localTail, remoteTip, st) =>
      let lc1 := with_heap lc (fs_heap st) in
      let s1 := set_lc s lc1 in
      let fwdPkg := {| fp_Source := ss_ShortChannelID s; fp_Height := remoteChainTail;
                       fp_Adds := addUpdates st; fp_SettleFails := settleFailUpdates st |} in
      let peerUpdates := unsignedLocalUpdates lc1 (ourMessageIndex remoteTip)
                           (ourMessageIndex localTail) in
      match AdvanceCommitChainTail (ss_db s1) fwdPkg peerUpdates db with
      | Ok d =>
          match (chain ← advanceTail (remoteCommitChain lc1);
                 '(l, r) ← compactLogs (lc_heap lc1) (localUpdateLog lc1) (remoteUpdateLog lc1)
                             (height localTail) remoteChainTail;
                 Ok (chain, l, r)) with
          | Ok (chain, l, r) =>
              (set_db (set_lc s1 (with_logs (with_chains lc1 (localCommitChain lc1) chain) l r)) d,
               Ok (fwdPkg, addsToForward st, settleFailsToForward st, Htlcs (RemoteCommitment d)))
          | Err e => (s1, Err e)
          | Panic => (s1, Panic)
          end
      | Err e => (s1, Err e)
      | Panic => (s1, Panic)
      end
  | Err e => (s, Err e)
  | Panic => (s, Panic)
  end.

(** The store takes the secret before its commitment point is compared. *)
Definition ReceiveRevocation (s : session) (revMsg : RevokeAndAck) (db : res unit)
    : session * res (fwd_package * list ptr * list ptr * list HTLC) :=
  match (revocation ← NewHash (Revocation revMsg); AddNextEntry (ss_Store s) revocation) with
  | Ok store =>
      let s1 := set_revocations s store (RemoteCurrentRevocation s) (RemoteNextRevocation s) in
      match RemoteCurrentRevocation s with
      | None => (s1, Panic)
      | Some currentCommitPoint =>
          if negb (bool_decide (ComputeCommitmentPoint (Revocation revMsg) = currentCommitPoint))
          then (s1, Err errRevocationMismatch)
          else
            advance_remote
              (set_revocations s1 store (RemoteNextRevocation s) (Some (NextRevocationKey revMsg)))
              db
      end
  | Err e => (s, Err e)
  | Panic => (s, Panic)
  end.

(** ** Clean channels *)

(** [ActiveHtlcs]: the HTLCs of our commitment whose onion is on theirs too. *)
Definition ActiveHtlcs (d : chan_db) : list HTLC :=
  let remoteHtlcs := (fun htlc => digest (disk_OnionBlob htlc)) <$> Htlcs (RemoteCommitment d) in
  filter (fun htlc => digest (disk_OnionBlob htlc) ∈ remoteHtlcs) (Htlcs (LocalCommitment d)).

Definition IsChannelClean (s : session) : res bool :=
  let lc := ss_lc s in
  if hasUnackedCommitment (localCommitChain lc) then Ok false
  else if hasUnackedCommitment (remoteCommitChain lc) then Ok false
  else if negb (length (ActiveHtlcs (ss_db s)) =? 0)%nat then Ok false
  else
    oweLocal ← oweCommitment lc true;
    if (oweLocal : bool) then Ok false
    else
      oweRemote ← oweCommitment lc false;
      Ok (negb (oweRemote : bool)).

End Dance.
