(* ===== verification/CommitInv.v ===== *)
(** * The commitment state machine: the invariant of a session

    What signing, receiving, revoking and being revoked keep: which updates are on
    which commitment, the value both chains carry, the order of the message indexes the
    two chains acknowledge, and the agreement of the chains with the database. *)

From Stdlib Require Import Lia.
From S2P Require Import Prelude Sha256 Shachain Ids Amounts UpdateLog Channel ChannelEval ChannelInv ChannelCompact ChannelThms CommitTx CommitTxInv CommitDance.

(** ** The height an update was committed at *)

Definition entryHeight (rc : bool) (pd : PaymentDescriptor) : Z :=
  if is_removal (EntryType pd) then removeHeight rc pd else addHeight rc pd.

(** An addition is only ever added and a removal only ever removed; a fee update is both
    at once. *)
Definition tidy (rc : bool) (pd : PaymentDescriptor) : Prop :=
  match EntryType pd with
  | Add => removeHeight rc pd = 0
  | FeeUpdate => removeHeight rc pd = addHeight rc pd
  | _ => addHeight rc pd = 0
  end.

Lemma tidy_heights rc pd h :
  tidy rc pd -> h <> 0 -> (addHeight rc pd = h \/ removeHeight rc pd = h <-> entryHeight rc pd = h).
Proof. unfold tidy, entryHeight. destruct (EntryType pd); simpl; intros E Hh; rewrite E; intuition congruence. Qed.

(** The entries of [u] below [b] that were on no commitment of chain [rc] are now on
    the one of height [nh]; all others are where they were. *)
Definition heights_written (rc : bool) (nh b : Z) (h h' : pd_heap) (u : updateLog) : Prop :=
  forall p pd, p ∈ ul_list u -> h !! p = Some pd ->
  exists pd', h' !! p = Some pd' /\
    entryHeight rc pd' = (if (LogIndex pd <? b) && (entryHeight rc pd =? 0) then nh
                          else entryHeight rc pd) /\
    (tidy rc pd -> tidy rc pd').

Lemma final_write_height rc nh skip pd :
  (EntryType pd = Add -> HtlcIndex pd ∈ skip -> addHeight rc pd <> 0) ->
  entryHeight rc (final_write rc nh skip pd)
  = if entryHeight rc pd =? 0 then nh else entryHeight rc pd.
Proof.
  intros Hskip. unfold final_write, entryHeight, removal_write, add_write.
  destruct (EntryType pd) eqn:Ht.
  - rewrite bool_decide_true by done. case_bool_decide as Hs; simpl.
    + rewrite Ht. simpl. by rewrite (proj2 (Z.eqb_neq _ _)) by auto.
    + destruct (addHeight rc pd =? 0) eqn:E; [|by rewrite Ht].
      destruct rc; simpl; by rewrite Ht.
  - rewrite bool_decide_false by done. simpl. destruct (removeHeight rc pd =? 0) eqn:E;
      [destruct rc; simpl|]; by rewrite Ht.
  - rewrite bool_decide_false by done. simpl. destruct (removeHeight rc pd =? 0) eqn:E;
      [destruct rc; simpl|]; by rewrite Ht.
  - rewrite bool_decide_false by done. simpl. destruct (removeHeight rc pd =? 0) eqn:E;
      [destruct rc; simpl|]; by rewrite Ht.
  - rewrite bool_decide_false by done. simpl. destruct (addHeight rc pd =? 0) eqn:E;
      [destruct rc; simpl|]; by rewrite Ht.
Qed.

Lemma final_write_tidy rc nh skip pd : tidy rc pd -> tidy rc (final_write rc nh skip pd).
Proof.
  unfold tidy, final_write, removal_write, add_write. destruct (EntryType pd) eqn:Ht; intros E.
  - rewrite bool_decide_true by done. repeat case_match; destruct rc; simpl in *; congruence.
  - rewrite bool_decide_false by done. repeat case_match; destruct rc; simpl in *; congruence.
  - rewrite bool_decide_false by done. repeat case_match; destruct rc; simpl in *; congruence.
  - rewrite bool_decide_false by done. repeat case_match; destruct rc; simpl in *; congruence.
  - rewrite bool_decide_false by done. repeat case_match; destruct rc; simpl in *; congruence.
Qed.

(** One side of an evaluation, from what its passes leave behind. *)
Lemma side_heights rc nh b h h4 u skip :
  (forall p, p ∈ ul_list u -> p ∉ updates_below h b (ul_list u) -> h4 !! p = h !! p) ->
  (forall p pd, p ∈ updates_below h b (ul_list u) -> h !! p = Some pd ->
     h4 !! p = Some (final_write rc nh skip pd)) ->
  (forall p pd, p ∈ ul_list u -> h !! p = Some pd -> EntryType pd = Add -> HtlcIndex pd ∈ skip ->
     addHeight rc pd <> 0) ->
  heights_written rc nh b h h4 u.
Proof.
  intros Hout Hin Hskip p pd Hp Hpd. destruct (Z.ltb_spec (LogIndex pd) b) as [Hb|Hb]; simpl.
  - eexists. split; [apply Hin; [|done]; apply elem_of_below; eauto|].
    split; [apply final_write_height; eauto|apply final_write_tidy].
  - exists pd. split; [|done]. rewrite Hout; [done|done|]. intros (_ & pd' & ? & ?)%elem_of_below.
    simplify_eq. lia.
Qed.

Lemma evaluate_heights lc view our their nh rc st fv ob tb :
  nh <> 0 ->
  logs_wf (lc_heap lc) (localUpdateLog lc) (remoteUpdateLog lc) ->
  ourUpdates view = updates_below (lc_heap lc) ob (ul_list (localUpdateLog lc)) ->
  theirUpdates view = updates_below (lc_heap lc) tb (ul_list (remoteUpdateLog lc)) ->
  evaluateHTLCView lc view our their nh rc true = (st, Ok fv) ->
  heights_written rc nh ob (lc_heap lc) (lc_heap (ev_lc st)) (localUpdateLog lc) /\
  heights_written rc nh tb (lc_heap lc) (lc_heap (ev_lc st)) (remoteUpdateLog lc).
Proof.
  intros Hnh Hwf Hvo Hvt E.
  apply evaluate_passes in E as (st1 & st2 & st3 & skipThem & skipUs & Hps);
    [|done|rewrite Hvo; apply NoDup_filter, Hwf|rewrite Hvt; apply NoDup_filter, Hwf
     |apply Hwf|apply Hwf].
  rewrite Hvo, Hvt in Hps.
  set (st0 := {| ev_lc := lc; ev_our := our; ev_their := their; ev_fee := view_feePerKB view |})
    in *.
  split.
  - apply (side_heights _ _ _ _ _ _ skipUs).
    + eapply (out_local rc nh ob tb Hnh st0); [exact Hwf|exact Hps].
    + eapply (pass_ours rc nh ob tb Hnh st0); [exact Hwf|exact Hps].
    + intros p pd Hp Hpd Ht Hs.
      apply (pass_skipUs rc nh ob tb st0 st1 st2 st3 st _ _ _ _ Hwf Hps) in Hs
        as (q & qd & Hq & Hqd & Hr & Hi). cbn [ev_lc st0] in Hq, Hqd.
      assert (q ∉ updates_below (lc_heap lc) ob (ul_list (localUpdateLog lc))) as Hqo.
      { intros [Hl _]%elem_of_below. apply elem_of_below in Hq as [Hq _].
        by apply (gw_disjoint _ _ _ Hwf q). }
      destruct (rd_parents _ _ _ _ _ _ _ _ (ps_2 _ _ _ _ _ _ _ _ _ _ _ _ _ Hps) q qd Hq)
        as (p' & pd' & Hp' & Hpd' & Hz); [|done|].
      { rewrite <- Hqd. by apply (pass_1_out rc nh ob tb st0 st1 st2 st3 st _ _ _ _ Hps). }
      rewrite (log_of_frame _ _ _ (rd_frame _ _ _ _ _ _ _ _ (ps_1 _ _ _ _ _ _ _ _ _ _ _ _ _ Hps)))
        in Hp'. cbn [log_of ev_lc st0] in Hp'. rewrite Hi in Hp'.
      destruct (lw_add _ _ (gw_local _ _ _ Hwf) p pd Hp Hpd Ht) as [Hx _].
      assert (p' = p) as -> by congruence.
      rewrite (rd_heap _ _ _ _ _ _ _ _ (ps_1 _ _ _ _ _ _ _ _ _ _ _ _ _ Hps)) in Hpd'.
      cbn [ev_lc st0] in Hpd'.
      destruct (decide (p ∈ updates_below (lc_heap lc) ob (ul_list (localUpdateLog lc)))) as [Hin|Hn].
      * rewrite write_all_in, Hpd in Hpd' by (done || apply NoDup_filter, Hwf). simpl in Hpd'.
        unfold removal_write in Hpd'. rewrite Ht in Hpd'. congruence.
      * rewrite write_all_notin in Hpd' by done. congruence.
  - apply (side_heights _ _ _ _ _ _ skipThem).
    + eapply (out_remote rc nh ob tb Hnh st0); [exact Hwf|exact Hps].
    + eapply (pass_theirs rc nh ob tb Hnh st0); [exact Hwf|exact Hps].
    + intros p pd Hp Hpd Ht Hs.
      apply (pass_skipThem rc nh ob tb st0 st1 st2 st3 st _ _ _ _ Hps) in Hs
        as (q & qd & Hq & Hqd & Hr & Hi). cbn [ev_lc st0] in Hq, Hqd.
      destruct (rd_parents _ _ _ _ _ _ _ _ (ps_1 _ _ _ _ _ _ _ _ _ _ _ _ _ Hps) q qd Hq Hqd Hr)
        as (p' & pd' & Hp' & Hpd' & Hz).
      cbn [log_of ev_lc st0] in Hp', Hpd'. rewrite Hi in Hp'.
      destruct (lw_add _ _ (gw_remote _ _ _ Hwf) p pd Hp Hpd Ht) as [Hx _]. congruence.
Qed.

(** ** Heaps that agree on a chain *)

Record alike (rc : bool) (pd pd' : PaymentDescriptor) : Prop := {
  al_same : same_update pd' pd;
  al_add : addHeight rc pd' = addHeight rc pd;
  al_remove : removeHeight rc pd' = removeHeight rc pd;
}.

(** The updates are the same and so are their heights on chain [rc]. *)
Definition agree (rc : bool) (h h' : pd_heap) : Prop :=
  length h' = length h /\
  forall p pd, h !! p = Some pd -> exists pd', h' !! p = Some pd' /\ alike rc pd pd'.

#[export] Instance agree_preorder rc : PreOrder (agree rc).
Proof.
  split.
  - intros h. split; [done|]. intros p pd Hp. by exists pd.
  - intros a b c [La Ha] [Lb Hb]. split; [congruence|]. intros p pd Hp.
    destruct (Ha p pd Hp) as (pd' & Hp' & [S1 A1 R1]).
    destruct (Hb p pd' Hp') as (pd'' & Hp'' & [S2 A2 R2]).
    exists pd''. split; [done|]. split; [by etrans|congruence|congruence].
Qed.

Lemma agree_same rc h h' : agree rc h h' -> heap_same h h'.
Proof.
  intros [Hl Hg]. split; [done|]. intros p pd Hp. destruct (Hg p pd Hp) as (pd' & ? & []). eauto.
Qed.

Lemma grows_agree rc h h' : heap_grows rc h h' -> agree (negb rc) h h'.
Proof.
  intros [Hl Hg]. split; [done|]. intros p pd Hp.
  destruct (Hg p pd Hp) as (pd' & ? & []). exists pd'. by split.
Qed.

Lemma scripted_agree rc h h' : heap_scripted h h' -> agree rc h h'.
Proof.
  intros Hs. split; [symmetry; by eapply Forall2_length|]. intros p pd Hp.
  destruct (Forall2_lookup_l _ _ _ _ _ Hs Hp) as (pd' & Hp' & E). exists pd'. split; [done|].
  rewrite E. by destruct rc.
Qed.

Lemma agree_lookup rc h h' p :
  agree rc h h' -> match h !! p, h' !! p with
                   | Some pd, Some pd' => alike rc pd pd'
                   | None, None => True
                   | _, _ => False
                   end.
Proof.
  intros [Hl Hg]. destruct (h !! p) as [pd|] eqn:Hp.
  - by destruct (Hg p pd Hp) as (pd' & -> & ?).
  - apply lookup_ge_None in Hp. by rewrite lookup_ge_None_2 by lia.
Qed.

Lemma amount_agree rc h h' l : agree rc h h' -> zsum (amount_at h') l = zsum (amount_at h) l.
Proof.
  intros Hg. apply zsum_ext. intros p _. unfold amount_at.
  pose proof (agree_lookup rc h h' p Hg) as Hl. destruct (h !! p), (h' !! p); try done.
  apply Hl.
Qed.

Lemma removed_by_agree rc h h' u : agree rc h h' -> removed_by rc h' u = removed_by rc h u.
Proof.
  intros Hg. apply set_eq. intros i. rewrite !elem_of_removed_by. split.
  - intros (p & pd' & Hp & Hpd' & Hr & Hz & Hi). pose proof (agree_lookup rc h h' p Hg) as Hl.
    rewrite Hpd' in Hl. destruct (h !! p) as [pd|] eqn:Hpd; [|done].
    destruct Hl as [[] Ea Er]. exists p, pd. repeat split; congruence.
  - intros (p & pd & Hp & Hpd & Hr & Hz & Hi). pose proof (agree_lookup rc h h' p Hg) as Hl.
    rewrite Hpd in Hl. destruct (h' !! p) as [pd'|] eqn:Hpd'; [|done].
    destruct Hl as [[] Ea Er]. exists p, pd'. repeat split; congruence.
Qed.

Lemma active_agree rc h h' A B : agree rc h h' -> active rc h' A B = active rc h A B.
Proof.
  intros Hg. unfold active. rewrite (removed_by_agree rc h h') by done. apply filter_ext_in.
  intros p _. pose proof (agree_lookup rc h h' p Hg) as Hl. unfold is_active.
  destruct (h !! p), (h' !! p); try done. destruct Hl as [[] Ea Er].
  by rewrite su_type, su_htlc, Ea.
Qed.

Lemma committed_below_agree rc h h' u b :
  agree rc h h' -> committed_below rc h u b -> committed_below rc h' u b.
Proof.
  intros Hg Hc p pd' Hp Hpd' Hz. pose proof (agree_lookup rc h h' p Hg) as Hl.
  rewrite Hpd' in Hl. destruct (h !! p) as [pd|] eqn:Hpd; [|done]. destruct Hl as [[] Ea Er].
  replace (LogIndex pd') with (LogIndex pd) by done. apply (Hc p pd Hp Hpd).
  by rewrite <- Ea, <- Er.
Qed.

Lemma removals_wf_agree h h' A B :
  (forall rc, agree rc h h') -> removals_wf h A B -> removals_wf h' A B.
Proof.
  intros Hg [Hp Hu]. pose proof (agree_same true _ _ (Hg true)) as Hs. split.
  - intros p pd' Hin Hpd' Hr. destruct (heap_same_inv _ _ _ _ Hs Hpd') as (pd & Hpd & [Et Ea _ _ Ep _]).
    rewrite Et in Hr. rewrite Ep, Ea.
    destruct (Hp p pd Hin Hpd Hr) as (q & qd & Hq & Hqd & Ham & Hm & Hlink).
    destruct (proj2 Hs q qd Hqd) as (qd' & Hqd' & Hsq). exists q, qd'.
    do 2 (split; [done|]). split; [rewrite (su_amount _ _ Hsq); done|]. split; [done|].
    intros rc Hz. pose proof (agree_lookup rc h h' p (Hg rc)) as H1.
    pose proof (agree_lookup rc h h' q (Hg rc)) as H2. rewrite Hpd, Hpd' in H1. rewrite Hqd, Hqd' in H2.
    destruct H1 as [_ _ Er], H2 as [_ E2 _]. rewrite E2. apply Hlink. by rewrite <- Er.
  - intros p pd1 p' pd2 Hin H1 Hin' H2 Hr1 Hr2 E.
    destruct (heap_same_inv _ _ _ _ Hs H1) as (o1 & Ho1 & [Et1 _ _ _ Ep1 _]).
    destruct (heap_same_inv _ _ _ _ Hs H2) as (o2 & Ho2 & [Et2 _ _ _ Ep2 _]).
    apply (Hu p o1 p' o2); congruence.
Qed.

Lemma logs_wf_agree h h' l r :
  (forall rc, agree rc h h') -> logs_wf h l r -> logs_wf h' l r.
Proof.
  intros Hg [Hl Hr Hd Ho Ht]. pose proof (agree_same true _ _ (Hg true)) as Hs.
  split; [by eapply log_wf_same|by eapply log_wf_same|done|by eapply removals_wf_agree..].
Qed.

(** ** Balances and fees *)

Definition u64_state (st : eval_state) : Prop := is_u64 (ev_our st) /\ is_u64 (ev_their st).

Lemma processRemoveEntry_u64 pd our their nh rc incoming m pd' our' their' :
  is_u64 our -> is_u64 their ->
  processRemoveEntry pd our their nh rc incoming m = (pd', our', their') ->
  is_u64 our' /\ is_u64 their'.
Proof.
  intros Ho Ht. unfold processRemoveEntry. destruct (negb _); [by intros [= <- <- <-]|].
  repeat case_match; intros; simplify_eq; split; try done; apply u64_range.
Qed.

Lemma eval_removals_u64 ours rc m nh ps st skip :
  u64_state st -> u64_state (fst (eval_removals ours rc m nh ps st skip)).
Proof.
  revert st skip. induction ps as [|p ps IH]; intros st skip Hs; [done|]. simpl.
  destruct (eval_removal ours rc m nh p st skip) as [st1 r1] eqn:E.
  assert (u64_state st1) as Hs1.
  { revert E. unfold eval_removal. destruct (index _ p) as [pd|e|]; [|by intros [= <- <-]..].
    destruct (is_removal (EntryType pd)) eqn:Hr.
    - destruct (fetchParent _ _ _ _) as [qd|e|];
        [|destruct (EntryType pd); try done; by intros [= <- <-]..].
      destruct (processRemoveEntry _ _ _ _ _ _ _) as [[pd' our'] their'] eqn:Ep.
      apply processRemoveEntry_u64 in Ep; [|apply Hs|apply Hs].
      destruct (EntryType pd); try done; intros [= <- <-]; done.
    - destruct (EntryType pd); try done; [by intros [= <- <-]|].
      destruct (processFeeUpdate _ _ _ _ _). by intros [= <- <-]. }
  destruct r1; [by apply IH|done|done].
Qed.

Lemma eval_adds_u64 incoming rc m nh skip ps st :
  u64_state st -> u64_state (fst (eval_adds incoming rc m nh skip ps st)).
Proof.
  revert st. induction ps as [|p ps IH]; intros st Hs; [done|]. simpl.
  destruct (index _ p) as [pd|e|]; [|done|done]. destruct (_ || _); [by apply IH|].
  destruct (processAddEntry _ _ _ _ _ _ _) as [[pd' our'] their'] eqn:Ep.
  assert (is_u64 our' /\ is_u64 their') as Hu.
  { revert Ep. unfold processAddEntry. destruct Hs. repeat case_match; intros; simplify_eq;
      split; try done; apply u64_range. }
  match goal with |- context [eval_adds _ _ _ _ _ _ ?x] => set (st1 := x) end.
  pose proof (IH st1 Hu) as IH1. by destruct (eval_adds _ _ _ _ _ ps st1).
Qed.

Lemma evaluate_u64 lc view our their nh rc m :
  is_u64 our -> is_u64 their -> u64_state (fst (evaluateHTLCView lc view our their nh rc m)).
Proof.
  intros Ho Ht. unfold evaluateHTLCView.
  set (st0 := {| ev_lc := lc; ev_our := our; ev_their := their; ev_fee := view_feePerKB view |}).
  pose proof (eval_removals_u64 true rc m nh (ourUpdates view) st0 ∅ (conj Ho Ht)) as H1.
  destruct (eval_removals true _ _ _ _ _ _) as [st1 r1]. destruct r1 as [s1|e|]; [|done|done].
  pose proof (eval_removals_u64 false rc m nh (theirUpdates view) st1 ∅ H1) as H2.
  destruct (eval_removals false _ _ _ _ _ _) as [st2 r2]. destruct r2 as [s2|e|]; [|done|done].
  pose proof (eval_adds_u64 false rc m nh s2 (ourUpdates view) st2 H2) as H3.
  destruct (eval_adds false _ _ _ _ _ _) as [st3 r3]. destruct r3 as [us|e|]; [|done|done].
  pose proof (eval_adds_u64 true rc m nh s1 (theirUpdates view) st3 H3) as H4.
  by destruct (eval_adds true _ _ _ _ _ _) as [st4 r4].
Qed.

Lemma computeView_u64 lc v rc m lc' our their size fv c :
  tip (commitChain lc rc) = Ok c -> is_u64 (ourBalance c) -> is_u64 (theirBalance c) ->
  computeView lc v rc m = (lc', Ok (our, their, size, fv)) -> is_u64 our /\ is_u64 their.
Proof.
  intros Hc Ho Ht. unfold computeView. rewrite Hc.
  match goal with |- context [evaluateHTLCView lc ?v' ?o ?t ?n rc m] =>
    pose proof (evaluate_u64 lc v' o t n rc m) as Hu end.
  destruct (evaluateHTLCView _ _ _ _ _ _ _) as [st r]. destruct r as [fv'|e|]; [|done|done].
  intros [= <- <- <- <- <-]. apply Hu.
  - destruct (IsInitiator _); [apply u64_range|done].
  - destruct (IsInitiator _); [done|apply u64_range].
Qed.

(** The size a view is checked with is the size its transaction is built with. *)
Lemma i64_cong a b : cong a b -> i64 a = i64 b.
Proof.
  unfold i64. intros [k ->]%cong_alt. f_equal.
  replace (b + k * 2 ^ 64 + 2 ^ 63) with (b + 2 ^ 63 + k * 2 ^ 64) by lia. apply Z_mod_plus_full.
Qed.

Lemma cong_i64 a : cong (i64 a) a.
Proof.
  unfold i64. apply cong_alt. exists (- ((a + 2 ^ 63) / 2 ^ 64)).
  pose proof (Z.div_mod (a + 2 ^ 63) (2 ^ 64) ltac:(lia)). lia.
Qed.

Lemma htlc_size_count lc cs h incoming rc rate dust ps t :
  ChanType cs = ChanType (channelState lc) ->
  cong (htlc_size lc h incoming rc rate dust ps t)
    (t + HTLCOutputSize * count_nondust cs incoming (negb rc) rate dust h ps).
Proof.
  intros Ect. unfold htlc_size, count_nondust, deref. revert t.
  induction ps as [|p ps IH]; intros t; [simpl; apply cong_eq; lia|]. simpl.
  assert (is_nondust cs incoming (negb rc) rate dust h p =
    match h !! p with Some htlc => negb (HtlcIsDust (ChanType (channelState lc)) incoming (negb rc)
      rate (ToAtoms (Amount htlc)) dust) | None => false end) as En
    by (unfold is_nondust; by rewrite Ect).
  destruct (h !! p) as [pd|]; simpl.
  - destruct (HtlcIsDust _ _ _ _ _ _); simpl in *.
    + rewrite filter_cons_False by (rewrite En; simpl; tauto). apply IH.
    + rewrite filter_cons_True by (by rewrite En). simpl. rewrite IH, cong_i64.
      apply cong_eq. lia.
  - rewrite filter_cons_False by (rewrite En; simpl; tauto). apply IH.
Qed.

Lemma view_fee_size lc lc1 rc h v size :
  frame lc lc1 ->
  size = i64 (CommitSize (ChanType (channelState lc))
    + htlc_size lc h true rc (view_feePerKB v) (DustLimit (chanCfg lc rc)) (theirUpdates v)
        (htlc_size lc h false rc (view_feePerKB v) (DustLimit (chanCfg lc rc)) (ourUpdates v) 0)) ->
  view_fee (channelState lc1) (negb rc) (view_feePerKB v) h v = FeeForSize (view_feePerKB v) size.
Proof.
  intros Hf ->. unfold view_fee, view_outputs. f_equal. apply i64_cong. rewrite length_app.
  rewrite (htlc_size_count lc (channelState lc1)) by apply Hf.
  rewrite (htlc_size_count lc (channelState lc1)) by apply Hf.
  unfold count_nondust, chanCfg. rewrite (fr_type _ _ Hf), (fr_lcfg _ _ Hf), (fr_rcfg _ _ Hf).
  apply cong_eq. destruct rc; simpl; lia.
Qed.

(** A fee that leaves a signed balance that is not negative can be paid. *)
Lemma fee_affordable rate size bal :
  is_u64 bal -> 0 <= i64 (u64 (bal - NewMAtomsFromAtoms (FeeForSize rate size))) ->
  (FeeForSize rate size >? ToAtoms bal) = false.
Proof.
  intros Hb Hs. destruct (FeeForSize rate size >? ToAtoms bal) eqn:E; [exfalso|done].
  set (x := i64 (rate * size)) in *.
  assert (- 2 ^ 63 <= x < 2 ^ 63) as Hx.
  { unfold x, i64. pose proof (Z.mod_pos_bound (rate * size + 2 ^ 63) (2 ^ 64) ltac:(lia)). lia. }
  assert (FeeForSize rate size = Z.quot x 1000) as Ef by done.
  assert (0 <= ToAtoms bal) as Hp.
  { unfold ToAtoms, i64, is_u64, mAtomScale in *.
    assert (0 <= bal / 1000 < 2 ^ 63) by (split; [apply Z.div_pos; lia|apply Z.div_lt_upper_bound; lia]).
    rewrite Z.mod_small by lia. lia. }
  pose proof E as E'. rewrite Z.gtb_lt in E'.
  assert (0 < Z.quot x 1000) as Hq by lia.
  assert (0 < x) as Hx0. { apply Z.nle_gt. intros Hn.
    pose proof (Z.quot_le_mono x 0 1000 ltac:(lia) Hn) as Hm. rewrite Z.quot_0_l in Hm by lia. lia. }
  rewrite Z.quot_div_nonneg in Hq by lia. rewrite Z.quot_div_nonneg in Ef by lia.
  pose proof (Z.div_mod x 1000 ltac:(lia)). pose proof (Z.mod_pos_bound x 1000 ltac:(lia)).
  rewrite ToAtoms_lt in E by (done || lia). apply Z.ltb_lt in E.
  rewrite Ef in *. rewrite NewMAtomsFromAtoms_small in Hs by lia. unfold is_u64 in Hb.
  set (f := x / 1000) in *.
  assert (u64 (bal - 1000 * f) = bal - 1000 * f + 2 ^ 64) as Eu.
  { unfold u64. rewrite <- (Z_mod_plus_full _ 1), Z.mod_small by lia. lia. }
  rewrite Eu in Hs. unfold i64 in Hs.
  replace (bal - 1000 * f + 2 ^ 64 + 2 ^ 63) with (bal - 1000 * f + 2 ^ 63 + 1 * 2 ^ 64) in Hs by lia.
  rewrite Z_mod_plus_full, Z.mod_small in Hs by lia. lia.
Qed.

(** Paying such a fee conserves value. *)
Lemma pay_conserves ini rate size our their our' their' :
  let f := FeeForSize rate size in
  is_u64 our -> is_u64 their ->
  0 <= i64 (u64 ((if ini : bool then our else their) - NewMAtomsFromAtoms f)) ->
  pay_commit_fee ini f our their = (our', their') ->
  is_u64 our' /\ is_u64 their' /\
  cong (our' + their' + NewMAtomsFromAtoms f) (our + their).
Proof.
  intros f Ho Ht Hs. unfold pay_commit_fee.
  pose proof (fee_affordable rate size (if ini then our else their)) as Ha. fold f in Ha.
  destruct ini; rewrite Ha by done; simpl; intros [= <- <-].
  - split; [apply u64_range|]. split; [done|]. rewrite cong_u64. apply cong_eq. lia.
  - split; [done|]. split; [apply u64_range|]. rewrite cong_u64. apply cong_eq. lia.
Qed.

(** What the checks before a commitment say about the view it is built from. *)
Lemma sanity_pays lc tb ob rc lc' lcm our their size fv :
  logs_wf (lc_heap lc) (localUpdateLog lc) (remoteUpdateLog lc) ->
  validateCommitmentSanity lc tb ob rc None None = (lc', Ok tt) ->
  computeView lc (fetchHTLCView lc tb ob) rc true = (lcm, Ok (our, their, size, fv)) ->
  lc' = lc /\
  0 <= i64 (u64 ((if IsInitiator (channelState lc) then our else their)
                 - NewMAtomsFromAtoms (FeeForSize (view_feePerKB fv) size))).
Proof.
  intros Hwf. unfold validateCommitmentSanity. cbn [option_list]. rewrite !app_nil_r.
  replace {| ourUpdates := ourUpdates (fetchHTLCView lc tb ob);
             theirUpdates := theirUpdates (fetchHTLCView lc tb ob);
             view_feePerKB := view_feePerKB (fetchHTLCView lc tb ob) |}
    with (fetchHTLCView lc tb ob) by done.
  destruct (tip (commitChain lc rc)) as [c|e|]; [|done|done].
  destruct (computeView lc (fetchHTLCView lc tb ob) rc false) as [lcd r] eqn:Ed.
  apply computeView_dry in Ed as (-> & lcm' & Em & _);
    [|by apply view_nodup|apply log_wf_adds_indexed, Hwf|apply log_wf_adds_indexed, Hwf].
  rewrite Em. intros Hs [= -> ->]. revert Hs. rsimpl. intros [= <- Hs]. split; [done|].
  revert Hs. destruct (IsInitiator _).
  - case_match eqn:E1; [done|]. intros _. by apply Z.ltb_ge in E1.
  - case_match eqn:E1; [done|]. case_match eqn:E2; [done|]. intros _. by apply Z.ltb_ge in E2.
Qed.

Lemma sanity_same lc tb ob rc lc' r :
  logs_wf (lc_heap lc) (localUpdateLog lc) (remoteUpdateLog lc) ->
  validateCommitmentSanity lc tb ob rc None None = (lc', r) -> lc' = lc.
Proof.
  intros Hwf. unfold validateCommitmentSanity. cbn [option_list]. rewrite !app_nil_r.
  destruct (tip (commitChain lc rc)) as [c|e|]; [|by intros [= <- <-]..].
  destruct (computeView lc _ rc false) as [lcd r'] eqn:Ed.
  apply computeView_dry in Ed as [-> _];
    [by intros [= <- <-]|by apply view_nodup|apply log_wf_adds_indexed, Hwf|apply log_wf_adds_indexed, Hwf].
Qed.

(** ** A commitment on top of a chain *)

Lemma populate_indexes_shape chanType c incoming cltvs i htlcs dups idx r dups' idx' :
  populate_indexes chanType c incoming cltvs i htlcs dups idx = Ok (r, dups', idx') ->
  Forall2 (reindexed c) htlcs r.
Proof.
  revert i dups idx r dups' idx'. induction htlcs as [|p ps IH]; intros i dups idx r dups' idx'; simpl.
  { by intros [= <- <- <-]. }
  destruct (HtlcIsDust _ _ _ _ _ _); rsimpl.
  - destruct (populate_indexes _ _ _ _ _ _ _ _) as [[[r' d'] x']|e|] eqn:E; [|done|done]. rsimpl.
    intros [= <- <- <-]. constructor; [|by eapply IH]. unfold reindexed. by destruct (isOurs c).
  - destruct (locateOutputIndex _ _ _ _ _) as [[o d1]|e|]; [|done|done]. rsimpl.
    destruct (isOurs c) eqn:Eo; rsimpl;
      (destruct (populate_indexes _ _ _ _ _ _ _ _) as [[[r' d'] x']|e|] eqn:E; [|done|done]; rsimpl;
       intros [= <- <- <-]; constructor; [|by eapply IH]; unfold reindexed; by rewrite Eo).
Qed.

(** Placing the HTLCs of a commitment changes nothing but their output indexes. *)
Lemma populate_shape c chanType cltvs c' :
  populateHtlcIndexes c chanType cltvs = Ok c' ->
  c' = with_htlcs c (outgoingHTLCs c') (incomingHTLCs c') (outgoingHTLCIndex c')
         (incomingHTLCIndex c') /\
  Forall2 (reindexed c) (outgoingHTLCs c) (outgoingHTLCs c') /\
  Forall2 (reindexed c) (incomingHTLCs c) (incomingHTLCs c').
Proof.
  unfold populateHtlcIndexes.
  destruct (populate_indexes _ _ false _ _ _ _ _) as [[[outs d1] oi]|e|] eqn:E1; [|done|done]. rsimpl.
  destruct (populate_indexes _ _ true _ _ _ _ _) as [[[ins d2] ii]|e|] eqn:E2; [|done|done]. rsimpl.
  intros [= <-]. apply populate_indexes_shape in E1, E2. done.
Qed.

(** What a new commitment [c'] on top of [c] records, and what building it wrote. *)
Record extended (rc : bool) (ob oh tb th : Z) (lc : LightningChannel) (c : commitment)
    (lc' : LightningChannel) (c' : commitment) : Prop := {
  xt_frame : frame lc lc';
  xt_other : agree (negb rc) (lc_heap lc) (lc_heap lc');
  xt_wf : logs_wf (lc_heap lc') (localUpdateLog lc) (remoteUpdateLog lc);
  xt_below_local : committed_below rc (lc_heap lc') (localUpdateLog lc) ob;
  xt_below_remote : committed_below rc (lc_heap lc') (remoteUpdateLog lc) tb;
  xt_local : heights_written rc (height c + 1) ob (lc_heap lc) (lc_heap lc') (localUpdateLog lc);
  xt_remote : heights_written rc (height c + 1) tb (lc_heap lc) (lc_heap lc') (remoteUpdateLog lc);
  xt_forwarded : forall p pd pd', lc_heap lc !! p = Some pd -> lc_heap lc' !! p = Some pd' ->
    isForwarded pd' = isForwarded pd;
  xt_height : height c' = height c + 1 /\ height c' <= maxStateHint;
  xt_index : ourMessageIndex c' = ob /\ theirMessageIndex c' = tb;
  xt_htlcs : ourHtlcIndex c' = oh /\ theirHtlcIndex c' = th;
  xt_u64 : is_u64 (ourBalance c') /\ is_u64 (theirBalance c');
  xt_value : cong (chain_value lc' rc c') (chain_value lc rc c);
  xt_out : Forall2 (reindexed c')
    (deref (lc_heap lc') (active rc (lc_heap lc') (localUpdateLog lc) (remoteUpdateLog lc)))
    (outgoingHTLCs c');
  xt_in : Forall2 (reindexed c')
    (deref (lc_heap lc') (active rc (lc_heap lc') (remoteUpdateLog lc) (localUpdateLog lc)))
    (incomingHTLCs c');
}.

Lemma computeView_heights lc rc ob tb c lc' x :
  chan_wf lc -> tip (commitChain lc rc) = Ok c ->
  computeView lc (fetchHTLCView lc tb ob) rc true = (lc', Ok x) ->
  heights_written rc (height c + 1) ob (lc_heap lc) (lc_heap lc') (localUpdateLog lc) /\
  heights_written rc (height c + 1) tb (lc_heap lc) (lc_heap lc') (remoteUpdateLog lc).
Proof.
  intros Hwf Hc. destruct (cw_tip _ Hwf rc) as (c' & Hc' & Hht & _).
  rewrite Hc in Hc'. injection Hc' as <-. unfold computeView. rewrite Hc.
  destruct (evaluateHTLCView _ _ _ _ _ rc true) as [st r] eqn:Ev.
  destruct r as [fv'|e|]; [|done|done]. intros [= <- <-].
  rewrite (u64_small (height c + 1)) in Ev by (unfold is_u64; lia).
  eapply evaluate_heights in Ev; [done|lia|apply Hwf|done|done].
Qed.

Lemma computeView_size lc v rc m lc' our their size fv :
  computeView lc v rc m = (lc', Ok (our, their, size, fv)) ->
  size = i64 (CommitSize (ChanType (channelState lc))
    + htlc_size lc (lc_heap lc') true rc (view_feePerKB fv) (DustLimit (chanCfg lc rc)) (theirUpdates fv)
        (htlc_size lc (lc_heap lc') false rc (view_feePerKB fv) (DustLimit (chanCfg lc rc))
           (ourUpdates fv) 0)).
Proof.
  unfold computeView. destruct (tip _) as [c|e|]; [|done|done].
  destruct (evaluateHTLCView _ _ _ _ _ _ _) as [st r]. destruct r as [fv'|e|]; [|done|done].
  by intros [= <- <- <- <- <-].
Qed.

Lemma heights_agree rc nh b h h1 h2 u :
  agree rc h1 h2 -> heights_written rc nh b h h1 u -> heights_written rc nh b h h2 u.
Proof.
  intros [_ Hg] Hw p pd Hp Hpd. destruct (Hw p pd Hp Hpd) as (pd1 & Hpd1 & E & Ht).
  destruct (Hg p pd1 Hpd1) as (pd2 & Hpd2 & [[] Ea Er]). exists pd2. split; [done|].
  rewrite <- E. unfold entryHeight, tidy. rewrite su_type, Ea, Er. done.
Qed.

Section Extending.
Context `{Hasher} `{Scripts} `{Crypto}.

Lemma commitment_of_tx_shape cs h rc u fv nh ol oh tl th c' :
  commitment_of_tx cs h rc u fv nh ol oh tl th = Ok c' ->
  height c' = nh /\ isOurs c' = negb rc /\ ourMessageIndex c' = ol /\ theirMessageIndex c' = tl /\
  ourHtlcIndex c' = oh /\ theirHtlcIndex c' = th /\ txn c' = uc_txn u /\
  ourBalance c' = uc_ourBalance u /\ theirBalance c' = uc_theirBalance u /\ fee c' = uc_fee u /\
  Forall2 (reindexed c') (deref h (ourUpdates fv)) (outgoingHTLCs c') /\
  Forall2 (reindexed c') (deref h (theirUpdates fv)) (incomingHTLCs c').
Proof.
  unfold commitment_of_tx. destruct (_ =? 0); [done|]. rsimpl. destruct (_ && _); [done|].
  intros (E & Ho & Hi)%populate_shape. rewrite E. simpl. do 10 (split; [done|]).
  unfold reindexed in *. by rewrite E.
Qed.

Lemma finish_height cs tx cltvs height_ obf fee our their u :
  finish_commitment cs tx cltvs height_ obf fee our their = Ok u -> height_ <= maxStateHint.
Proof.
  unfold finish_commitment, SetStateNumHint. case_match eqn:E; [done|]. by apply Z.ltb_ge in E.
Qed.

Lemma createUnsigned_height cs obf h our their ours rate height_ v keyRing h' u :
  createUnsignedCommitmentTx cs obf h our their ours rate height_ v keyRing = (h', Ok u) ->
  height_ <= maxStateHint.
Proof.
  unfold createUnsignedCommitmentTx. destruct (pay_commit_fee _ _ _ _).
  destruct (owner_commit_tx _ _ _ _ _ _); [|done|done].
  destruct (add_htlcs _ _ _ _ _ _ _ _ _ _) as [h1 [[tx1 c1]|e|]]; [|done|done].
  destruct (add_htlcs _ _ _ _ _ _ _ h1 _ _) as [h2 [[tx2 c2]|e|]]; [|done|done]. rsimpl.
  intros [= <- E]. by eapply finish_height.
Qed.

Lemma fetch_ok lc obf rc ob oh tb th keyRing lc' c c' :
  chan_wf lc -> tip (commitChain lc rc) = Ok c ->
  is_u64 (ourBalance c) -> is_u64 (theirBalance c) ->
  ourMessageIndex c <= ob -> theirMessageIndex c <= tb ->
  snd (validateCommitmentSanity lc tb ob rc None None) = Ok tt ->
  fetchCommitmentView lc obf rc ob oh tb th keyRing = (lc', Ok c') ->
  extended rc ob oh tb th lc c lc' c'.
Proof.
  intros Hwf Hc Huo Hut Hob Htb Hsan. unfold fetchCommitmentView. rewrite Hc.
  destruct (computeView lc _ rc true) as [lc1 [[[[our their] size] fv]|e|]] eqn:Ev; [|done|done].
  pose proof (computeView_mutates _ _ _ _ _ _ _ _ _ _ Hwf Hc Hob Htb Ev) as Hvc.
  pose proof (computeView_heights _ _ _ _ _ _ _ Hwf Hc Ev) as [Hwl Hwr].
  pose proof (computeView_u64 _ _ _ _ _ _ _ _ _ _ Hc Huo Hut Ev) as [Uo Ut].
  pose proof (view_fee_size _ _ rc _ fv size (vc_frame _ _ _ _ _ _ _ _ _ Hvc)
    (computeView_size _ _ _ _ _ _ _ _ _ Ev)) as Efee.
  destruct (validateCommitmentSanity lc tb ob rc None None) as [lcs rs] eqn:Es. simpl in Hsan.
  subst rs. pose proof (sanity_pays _ _ _ _ _ _ _ _ _ _ (cw_logs _ Hwf) Es Ev) as [_ Hpay].
  destruct (createUnsignedCommitmentTx _ _ _ _ _ _ _ _ _ _) as [h2 r2] eqn:Eu.
  destruct r2 as [u|e|]; [|done|done]. rsimpl. intros [= <- Ec].
  destruct (cw_tip _ Hwf rc) as (c0 & Hc0 & Hht & _). assert (c0 = c) as -> by congruence.
  rewrite (u64_small (height c + 1)) in Eu, Ec by (unfold is_u64; lia).
  pose proof (createUnsigned_height _ _ _ _ _ _ _ _ _ _ _ _ Eu) as Hmax.
  destruct Hvc as [Hf Hg Hw Hbl Hbr Eo Et Hv].
  apply createUnsigned_ok in Eu as [Hs Ef Eb _ _ _ _ _ _].
  2:{ rewrite Eo, Et. apply NoDup_app. split; [apply NoDup_filter, Hw|]. split; [|apply NoDup_filter, Hw].
      intros p ?%active_in ?%active_in. by apply (gw_disjoint _ _ _ Hw p). }
  rewrite Ef, Efee in Eb. rewrite (fr_init _ _ Hf) in Eb.
  symmetry in Eb. apply pay_conserves in Eb as (Vo & Vt & Hcons); [|done|done|done].
  apply commitment_of_tx_shape in Ec
    as (Eh & _ & Eob & Etb & Eoh & Eth & _ & Ebo & Ebt & Efe & Houts & Hins).
  assert (forall b, agree b (lc_heap lc1) h2) as Hag by (intros b; by apply scripted_agree).
  rewrite Eo, <- (active_agree rc _ _ _ _ (Hag rc)) in Houts.
  rewrite Et, <- (active_agree rc _ _ _ _ (Hag rc)) in Hins.
  split; try done; cbn [with_heap lc_heap].
  - destruct Hf. by split.
  - etrans; [by apply grows_agree|apply Hag].
  - by eapply logs_wf_agree, Hw.
  - eapply committed_below_agree; [apply Hag|done].
  - eapply committed_below_agree; [apply Hag|done].
  - eapply heights_agree; [apply Hag|done].
  - eapply heights_agree; [apply Hag|done].
  - intros p pd pd2 Hpd Hpd2. destruct (proj2 Hg p pd Hpd) as (pd1 & Hpd1 & Hgr).
    destruct (Forall2_lookup_l _ _ _ _ _ Hs Hpd1) as (pd2' & ? & Esc). simplify_eq.
    rewrite Esc. simpl. apply Hgr.
  - lia.
  - by rewrite Ebo, Ebt.
  - unfold chain_value at 1. cbn [with_heap lc_heap localUpdateLog remoteUpdateLog].
    rewrite (fr_local _ _ Hf), (fr_remote _ _ Hf), !(active_agree rc _ _ _ _ (Hag rc)).
    rewrite (amount_agree rc _ _ _ (Hag rc)). rewrite Eo, Et in Hv. rewrite Ebo, Ebt, Efe, Ef, Efee.
    apply cong_alt in Hcons as [k Hcons], Hv as [j Hv]. apply cong_alt. exists (k + j). lia.
Qed.

End Extending.

(** ** Chains *)

(** A commitment directly on top of another one. *)
Definition next_commit (c c' : commitment) : Prop :=
  height c' = height c + 1 /\ ourMessageIndex c <= ourMessageIndex c' /\
  theirMessageIndex c <= theirMessageIndex c'.

Definition before (c c' : commitment) : Prop :=
  height c <= height c' /\ ourMessageIndex c <= ourMessageIndex c' /\
  theirMessageIndex c <= theirMessageIndex c'.

#[export] Instance before_preorder : PreOrder before.
Proof. split; [intros c|intros a b c]; unfold before; lia. Qed.

Lemma chain_strongly chain : Sorted next_commit chain -> StronglySorted before chain.
Proof.
  intros Hs. apply Sorted_StronglySorted; [apply _|]. induction Hs as [|c l _ IH Hd]; [done|].
  constructor; [done|]. destruct Hd as [|c' l [? ?]]; constructor. unfold before. lia.
Qed.

Lemma chain_last chain c c' :
  Sorted next_commit chain -> last chain = Some c' -> c ∈ chain -> before c c'.
Proof.
  intros Hs%chain_strongly Hl Hc. revert Hl. induction Hs as [|x l Hs IH Hx].
  - by apply elem_of_nil in Hc.
  - apply elem_of_cons in Hc as [->|Hc].
    + destruct l as [|y l]; [by intros [= <-]|]. rewrite last_cons_cons. intros Hl.
      rewrite Forall_forall in Hx. apply Hx. by apply last_Some_elem_of.
    + destruct l as [|y l]; [by apply elem_of_nil in Hc|]. rewrite last_cons_cons. by apply IH.
Qed.

Lemma chain_snoc chain c c' :
  Sorted next_commit chain -> last chain = Some c -> next_commit c c' ->
  Sorted next_commit (chain ++ [c']).
Proof.
  intros Hs Hl Hn. induction Hs as [|x l Hs IH Hx]; [done|]. simpl.
  destruct l as [|y l]; simpl in *.
  - injection Hl as ->. constructor; [by repeat constructor|by constructor].
  - constructor; [by apply IH|]. inversion Hx; by constructor.
Qed.

Lemma tip_last chain c : tip chain = Ok c <-> last chain = Some c.
Proof. unfold tip. by destruct (last chain); split; intros [= ->]. Qed.

Lemma tail_head chain c : tail chain = Ok c <-> exists l, chain = c :: l.
Proof.
  unfold tail. destruct chain as [|x l]; split; [done|by intros []|intros [= ->]; eauto|].
  by intros [l' [= -> ->]].
Qed.

(** ** Which updates are on which commitment *)

(** The updates of [u] that a commitment of chain [rc] contains are those below its
    message index, and they are those committed at its height or before. *)
Record marked (rc : bool) (chain : list commitment) (h : pd_heap) (u : updateLog)
    (idx : commitment -> Z) : Prop := {
  mk_range : forall p pd c, p ∈ ul_list u -> h !! p = Some pd -> last chain = Some c ->
    0 <= entryHeight rc pd <= height c;
  mk_iff : forall p pd c, p ∈ ul_list u -> h !! p = Some pd -> c ∈ chain ->
    LogIndex pd < idx c <-> 0 < entryHeight rc pd <= height c;
  mk_tidy : forall p pd, p ∈ ul_list u -> h !! p = Some pd -> tidy rc pd;
}.

Lemma marked_extend rc chain h h' u idx c c' b :
  marked rc chain h u idx -> Sorted next_commit chain -> last chain = Some c ->
  (forall p, p ∈ ul_list u -> is_Some (h !! p)) -> heap_same h h' ->
  heights_written rc (height c + 1) b h h' u -> 0 <= height c ->
  height c' = height c + 1 -> idx c <= b -> idx c' = b ->
  marked rc (chain ++ [c']) h' u idx.
Proof.
  intros [Hr Hi Hty] Hs Hl Hh Hsm Hw H0 Eh Hb Eb.
  assert (forall p pd', p ∈ ul_list u -> h' !! p = Some pd' -> exists pd, h !! p = Some pd /\
    LogIndex pd' = LogIndex pd /\
    entryHeight rc pd' = (if (LogIndex pd <? b) && (entryHeight rc pd =? 0) then height c + 1
                          else entryHeight rc pd) /\ (tidy rc pd -> tidy rc pd')) as Hback.
  { intros p pd' Hp Hpd'. destruct (Hh p Hp) as [pd Hpd].
    destruct (Hw p pd Hp Hpd) as (pd1 & ? & E & ?). destruct (proj2 Hsm p pd Hpd) as (pd2 & ? & []).
    simplify_eq. eauto 6. }
  split.
  - intros p pd' x Hp Hpd'. rewrite last_snoc. intros [= <-].
    destruct (Hback p pd' Hp Hpd') as (pd & Hpd & _ & -> & _).
    pose proof (Hr p pd c Hp Hpd Hl). case_match; lia.
  - intros p pd' x Hp Hpd' Hx. destruct (Hback p pd' Hp Hpd') as (pd & Hpd & -> & -> & _).
    pose proof (Hr p pd c Hp Hpd Hl) as Hrange.
    apply elem_of_app in Hx as [Hx| ->%list_elem_of_singleton].
    + pose proof (Hi p pd x Hp Hpd Hx) as Hiff.
      destruct (chain_last chain x c Hs Hl Hx) as (? & _).
      destruct (Z.ltb_spec (LogIndex pd) b); destruct (Z.eqb_spec (entryHeight rc pd) 0); simpl; lia.
    + pose proof (Hi p pd c Hp Hpd (last_Some_elem_of _ _ Hl)) as Hiff.
      destruct (Z.ltb_spec (LogIndex pd) b); destruct (Z.eqb_spec (entryHeight rc pd) 0); simpl; lia.
  - intros p pd' Hp Hpd'. destruct (Hback p pd' Hp Hpd') as (pd & Hpd & _ & _ & Ht). eauto.
Qed.

Lemma marked_agree rc chain h h' u idx :
  agree rc h h' -> marked rc chain h u idx -> marked rc chain h' u idx.
Proof.
  intros Hg [Hr Hi Hty]. assert (forall p pd', h' !! p = Some pd' -> exists pd, h !! p = Some pd /\
    LogIndex pd' = LogIndex pd /\ entryHeight rc pd' = entryHeight rc pd /\
    (tidy rc pd -> tidy rc pd')) as Hback.
  { intros p pd' Hpd'. pose proof (agree_lookup rc h h' p Hg) as Hl. rewrite Hpd' in Hl.
    destruct (h !! p) as [pd|]; [|done]. destruct Hl as [[] Ea Er]. exists pd.
    unfold entryHeight, tidy. by rewrite su_type, Ea, Er. }
  split; [intros p pd' c Hp Hpd' Hc|intros p pd' c Hp Hpd' Hc|intros p pd' Hp Hpd'];
    destruct (Hback p pd' Hpd') as (pd & Hpd & El & Eh & Ht); rewrite ?El, ?Eh; eauto.
Qed.

Lemma marked_append rc chain h h' u u' idx :
  appended h h' u u' -> (forall c, c ∈ chain -> idx c <= logIndex u /\ 0 <= height c) ->
  marked rc chain h u idx -> marked rc chain h' u' idx.
Proof.
  intros [[He (new & El & Hnew)] _ Hlog] Hidx [Hr Hi Hty].
  assert (forall p pd, p ∈ ul_list u' -> h' !! p = Some pd ->
    (p ∈ ul_list u /\ h !! p = Some pd) \/
    (logIndex u <= LogIndex pd /\ entryHeight rc pd = 0 /\ tidy rc pd)) as Hcase.
  { intros p pd Hp Hpd. destruct (decide (p ∈ ul_list u)) as [Hin|Hni].
    - left. split; [done|]. by rewrite <- He.
    - right. split; [by eapply Hlog|]. rewrite El in Hp. apply elem_of_app in Hp as [?|Hp]; [done|].
      destruct (Hnew p Hp) as (pd' & ? & Hu). simplify_eq. destruct (Hu rc) as (Ea & Er & _).
      unfold entryHeight, tidy. rewrite Ea, Er. by destruct (EntryType pd). }
  split; [intros p pd c Hp Hpd Hc|intros p pd c Hp Hpd Hc|intros p pd Hp Hpd];
    destruct (Hcase p pd Hp Hpd) as [[Hp' Hpd']|(Hlo & Eh & Ht)]; rewrite ?Eh; eauto.
  - destruct (Hidx c) as [_ ?]; [by apply last_Some_elem_of|lia].
  - destruct (Hidx c Hc). lia.
Qed.

Lemma marked_advance rc c chain h u u' idx :
  marked rc (c :: chain) h u idx -> chain <> [] ->
  (forall p, p ∈ ul_list u' -> p ∈ ul_list u) -> marked rc chain h u' idx.
Proof.
  intros [Hr Hi Hty] Hne Hsub. destruct chain as [|x chain]; [done|]. split; [| |eauto].
  - intros p pd y Hp Hpd Hy. eapply Hr; [by apply Hsub|done|]. by rewrite last_cons_cons.
  - intros p pd y Hp Hpd Hy. eapply Hi; [by apply Hsub|done|]. by apply list_elem_of_further.
Qed.
