(* ===== verification/DanceInv.v ===== *)
(** * The commitment dance: every step keeps the invariant

    A session is a channel together with its database and its revocation state.  Each
    update and each of the four commitment operations, when it succeeds, keeps the
    invariant below; histories of steps keep it by induction. *)

From Stdlib Require Import Lia.
From S2P Require Import Prelude Sha256 Shachain Ids Amounts UpdateLog Channel ChannelEval ChannelInv ChannelCompact ChannelThms CommitTx CommitTxInv CommitDance CommitInv.

(** ** The channel *)

(** [V] is the value of the channel: both chains carry it, in 64-bit arithmetic.  What a
    chain commits was acknowledged on the other one: the updates of the other party on
    our commitments before ours on theirs, and the other way round.  An update of the
    other party is marked as forwarded when it is on the tail of their chain. *)
Record lc_inv (V : Z) (lc : LightningChannel) : Prop := {
  li_wf : chan_wf lc;
  li_value : forall rc c, tip (commitChain lc rc) = Ok c -> cong (chain_value lc rc c) V;
  li_u64 : forall rc c, tip (commitChain lc rc) = Ok c ->
    is_u64 (ourBalance c) /\ is_u64 (theirBalance c);
  li_chain : forall rc, Sorted next_commit (commitChain lc rc);
  li_heights : forall rc c, c ∈ commitChain lc rc -> 0 <= height c;
  li_acked_ours : forall c r, tip (localCommitChain lc) = Ok c -> tail (remoteCommitChain lc) = Ok r ->
    ourMessageIndex c <= ourMessageIndex r;
  li_acked_theirs : forall c r, tail (localCommitChain lc) = Ok c ->
    tip (remoteCommitChain lc) = Ok r -> theirMessageIndex r <= theirMessageIndex c;
  li_signed_ours : forall r, tip (remoteCommitChain lc) = Ok r ->
    ourMessageIndex r <= logIndex (localUpdateLog lc);
  li_signed_theirs : forall c, tip (localCommitChain lc) = Ok c ->
    theirMessageIndex c <= logIndex (remoteUpdateLog lc);
  li_marked_ours : forall rc,
    marked rc (commitChain lc rc) (lc_heap lc) (localUpdateLog lc) ourMessageIndex;
  li_marked_theirs : forall rc,
    marked rc (commitChain lc rc) (lc_heap lc) (remoteUpdateLog lc) theirMessageIndex;
  li_forwarded : forall p pd r, p ∈ ul_list (remoteUpdateLog lc) -> lc_heap lc !! p = Some pd ->
    tail (remoteCommitChain lc) = Ok r ->
    isForwarded pd = bool_decide (EntryType pd <> FeeUpdate /\ LogIndex pd < theirMessageIndex r);
}.

Lemma chain_nonempty lc rc : chan_wf lc -> exists t c, tail (commitChain lc rc) = Ok t /\
  tip (commitChain lc rc) = Ok c /\ t ∈ commitChain lc rc.
Proof.
  intros Hwf. destruct (cw_tip _ Hwf rc) as (c & Hc & _). destruct (chain_tail lc rc Hwf) as [t Ht].
  exists t, c. do 2 (split; [done|]). apply tail_head in Ht as [l ->]. apply list_elem_of_here.
Qed.

(** The tail of a chain is not above its tip. *)
Lemma tail_before_tip V lc rc t c :
  lc_inv V lc -> tail (commitChain lc rc) = Ok t -> tip (commitChain lc rc) = Ok c -> before t c.
Proof.
  intros Hi [l El]%tail_head Hc%tip_last. eapply chain_last; [apply Hi|exact Hc|].
  rewrite El. apply list_elem_of_here.
Qed.

Lemma in_before_tip V lc rc x c :
  lc_inv V lc -> x ∈ commitChain lc rc -> tip (commitChain lc rc) = Ok c -> before x c.
Proof. intros Hi Hx Hc%tip_last. eapply chain_last; [apply Hi|exact Hc|done]. Qed.

(** ** A chain grows *)

Definition with_commit (lc : LightningChannel) (rc : bool) (c : commitment) : LightningChannel :=
  if rc then with_chains lc (localCommitChain lc) (addCommitment (remoteCommitChain lc) c)
  else with_chains lc (addCommitment (localCommitChain lc) c) (remoteCommitChain lc).

(** Storing signatures leaves the numbers of a commitment alone. *)
Record same_commit (a b : commitment) : Prop := {
  sc_height : height b = height a;
  sc_our : ourMessageIndex b = ourMessageIndex a;
  sc_their : theirMessageIndex b = theirMessageIndex a;
  sc_ourBalance : ourBalance b = ourBalance a;
  sc_theirBalance : theirBalance b = theirBalance a;
  sc_fee : fee b = fee a;
}.

Lemma with_commit_same lc rc c : commitChain (with_commit lc rc c) rc = commitChain lc rc ++ [c].
Proof. by destruct rc. Qed.

Lemma with_commit_other lc rc c :
  commitChain (with_commit lc rc c) (negb rc) = commitChain lc (negb rc).
Proof. by destruct rc. Qed.

Lemma with_commit_rest lc rc c :
  lc_heap (with_commit lc rc c) = lc_heap lc /\
  localUpdateLog (with_commit lc rc c) = localUpdateLog lc /\
  remoteUpdateLog (with_commit lc rc c) = remoteUpdateLog lc.
Proof. by destruct rc. Qed.

Lemma chain_value_frame lc lc' rc c c' :
  agree rc (lc_heap lc) (lc_heap lc') ->
  localUpdateLog lc' = localUpdateLog lc -> remoteUpdateLog lc' = remoteUpdateLog lc ->
  same_commit c c' -> chain_value lc' rc c' = chain_value lc rc c.
Proof.
  intros Hg El Er []. unfold chain_value. rewrite El, Er, !(active_agree rc _ _ _ _ Hg).
  rewrite (amount_agree rc _ _ _ Hg). congruence.
Qed.

Lemma tail_snoc (chain : list commitment) c x t :
  tip chain = Ok x -> tail (chain ++ [c]) = Ok t <-> tail chain = Ok t.
Proof. intros Hx. by destruct chain. Qed.

Lemma other_rc (P : bool -> Prop) rc : P rc -> P (negb rc) -> forall rc', P rc'.
Proof. intros H1 H2 rc'. by destruct rc, rc'. Qed.

Section Extend.
Context (V : Z) (lc lc' : LightningChannel) (rc : bool) (ob oh tb th : Z) (c c0 c' : commitment).
Context (Hinv : lc_inv V lc) (Hc : tip (commitChain lc rc) = Ok c).
Context (Hob : ourMessageIndex c <= ob) (Htb : theirMessageIndex c <= tb).
Context (Hext : extended rc ob oh tb th lc c lc' c0) (Hsame : same_commit c0 c').

Let lc2 := with_commit lc' rc c'.

Lemma extend_height : 0 <= height c.
Proof using Hinv Hc. eapply (li_heights _ _ Hinv rc), last_Some_elem_of, tip_last, Hc. Qed.

Lemma extend_next : next_commit c c'.
Proof using Hob Htb Hext Hsame.
  destruct (xt_height _ _ _ _ _ _ _ _ _ Hext), (xt_index _ _ _ _ _ _ _ _ _ Hext), Hsame.
  unfold next_commit. lia.
Qed.

Lemma extend_chains : commitChain lc2 rc = commitChain lc rc ++ [c'] /\
  commitChain lc2 (negb rc) = commitChain lc (negb rc).
Proof using Hext Hc.
  destruct (xt_frame _ _ _ _ _ _ _ _ _ Hext) as [_ _ El Er]. unfold lc2.
  rewrite with_commit_same, with_commit_other. by destruct rc; simpl; rewrite El, Er.
Qed.

Lemma extend_heap : heap_same (lc_heap lc) (lc_heap lc2).
Proof using Hext.
  unfold lc2. rewrite (proj1 (with_commit_rest _ _ _)). eapply agree_same, Hext.
Qed.

Lemma extend_logs : localUpdateLog lc2 = localUpdateLog lc /\ remoteUpdateLog lc2 = remoteUpdateLog lc.
Proof using Hext.
  destruct (xt_frame _ _ _ _ _ _ _ _ _ Hext) as [El Er _ _].
  destruct (with_commit_rest lc' rc c') as (_ & E1 & E2). unfold lc2. split; congruence.
Qed.

Lemma extend_wf : chan_wf lc2.
Proof using Hinv Hc Hob Htb Hext Hsame.
  pose proof (li_wf _ _ Hinv) as Hwf. destruct extend_logs as [El Er], extend_chains as [Es Eo].
  assert (lc_heap lc2 = lc_heap lc') as Eh by apply with_commit_rest.
  split.
  - rewrite El, Er, Eh. apply Hext.
  - apply (other_rc _ rc).
    + exists c'. rewrite Es, El, Er, Eh. split; [apply tip_last, last_snoc|].
      pose proof extend_height.
      destruct (xt_height _ _ _ _ _ _ _ _ _ Hext), (xt_index _ _ _ _ _ _ _ _ _ Hext), Hsame.
      unfold maxStateHint in *. split; [lia|].
      rewrite sc_our0, sc_their0. split; [|].
      * replace (ourMessageIndex c0) with ob by done. apply Hext.
      * replace (theirMessageIndex c0) with tb by done. apply Hext.
    + rewrite Eo, El, Er, Eh. destruct (cw_tip _ Hwf (negb rc)) as (x & Hx & Hh & Hbl & Hbr).
      exists x. do 2 (split; [done|]).
      split; (eapply committed_below_agree; [apply Hext|done]).
  - rewrite El. apply Hwf.
  - rewrite Er. apply Hwf.
Qed.

Lemma extend_marked u (idx : commitment -> Z) b :
  u = localUpdateLog lc /\ idx = ourMessageIndex /\ b = ob \/
  u = remoteUpdateLog lc /\ idx = theirMessageIndex /\ b = tb ->
  (forall rc, marked rc (commitChain lc rc) (lc_heap lc) u idx) ->
  forall rc', marked rc' (commitChain lc2 rc') (lc_heap lc2) u idx.
Proof using Hinv Hc Hob Htb Hext Hsame.
  intros Hu Hm. destruct extend_chains as [Es Eo]. pose proof (li_wf _ _ Hinv) as Hwf.
  assert (lc_heap lc2 = lc_heap lc') as Eh by apply with_commit_rest.
  destruct (xt_height _ _ _ _ _ _ _ _ _ Hext), (xt_index _ _ _ _ _ _ _ _ _ Hext), Hsame.
  apply (other_rc _ rc).
  - rewrite Es. eapply (marked_extend rc _ (lc_heap lc) _ u idx c c' b);
      [apply Hm|apply Hinv|by apply tip_last| |apply extend_heap| |apply extend_height|lia| |].
    + destruct Hu as [(-> & _)|(-> & _)]; apply Hwf.
    + rewrite Eh. destruct Hu as [(-> & _ & ->)|(-> & _ & ->)]; apply Hext.
    + by destruct Hu as [(_ & -> & ->)|(_ & -> & ->)].
    + destruct Hu as [(_ & -> & ->)|(_ & -> & ->)]; congruence.
  - rewrite Eo, Eh. eapply marked_agree; [apply Hext|apply Hm].
Qed.

Lemma extend_value rc' x : tip (commitChain lc2 rc') = Ok x -> cong (chain_value lc2 rc' x) V.
Proof using Hinv Hc Hext Hsame.
  revert x. destruct extend_logs as [El Er], extend_chains as [Es Eo].
  destruct (with_commit_rest lc' rc c') as (Eh & El' & Er').
  pattern rc'. apply (other_rc _ rc); intros x.
  - rewrite Es. intros E%tip_last. rewrite last_snoc in E. injection E as <-.
    rewrite (chain_value_frame lc' lc2 rc c0 c').
    + etrans; [apply Hext|]. by apply Hinv.
    + unfold lc2. by rewrite Eh.
    + done.
    + done.
    + done.
  - rewrite Eo. intros Hx. rewrite (chain_value_frame lc lc2 (negb rc) x x).
    + by apply Hinv.
    + unfold lc2. rewrite Eh. apply Hext.
    + done.
    + done.
    + done.
Qed.

Lemma extend_tip rc' x : tip (commitChain lc2 rc') = Ok x ->
  (rc' = rc /\ x = c') \/ tip (commitChain lc rc') = Ok x.
Proof using Hext Hc.
  destruct extend_chains as [Es Eo]. revert x. pattern rc'. apply (other_rc _ rc); intros x.
  - rewrite Es. intros E%tip_last. rewrite last_snoc in E. injection E as <-. by left.
  - rewrite Eo. by right.
Qed.

Lemma extend_tail rc' x : tail (commitChain lc2 rc') = Ok x -> tail (commitChain lc rc') = Ok x.
Proof using Hext Hc.
  destruct extend_chains as [Es Eo]. revert x. pattern rc'. apply (other_rc _ rc); intros x.
  - rewrite Es. by apply (tail_snoc _ _ _ _ Hc).
  - by rewrite Eo.
Qed.

Lemma lc_inv_extend :
  (rc = false -> (forall r, tail (remoteCommitChain lc) = Ok r -> ob <= ourMessageIndex r) /\
                 tb <= logIndex (remoteUpdateLog lc)) ->
  (rc = true -> (forall l, tail (localCommitChain lc) = Ok l -> tb <= theirMessageIndex l) /\
                ob <= logIndex (localUpdateLog lc)) ->
  lc_inv V lc2.
Proof using Hinv Hc Hob Htb Hext Hsame.
  intros Hfalse Htrue. destruct extend_logs as [El Er].
  destruct (xt_index _ _ _ _ _ _ _ _ _ Hext) as [Ei Ej].
  pose proof (sc_our _ _ Hsame) as Eo'. pose proof (sc_their _ _ Hsame) as Et'.
  split.
  - apply extend_wf.
  - apply extend_value.
  - intros rc' x [[-> ->]|Hx]%extend_tip; [|by eapply (li_u64 _ _ Hinv)].
    rewrite (sc_ourBalance _ _ Hsame), (sc_theirBalance _ _ Hsame). apply Hext.
  - destruct extend_chains as [Es Eo]. apply (other_rc _ rc); [|rewrite Eo; apply Hinv].
    rewrite Es. eapply chain_snoc; [apply Hinv|by apply tip_last|apply extend_next].
  - destruct extend_chains as [Es Eo]. intros rc'. pattern rc'.
    apply (other_rc _ rc); [|rewrite Eo; apply Hinv]. intros x. rewrite Es. intros [Hx| ->%list_elem_of_singleton]%elem_of_app; [by eapply (li_heights _ _ Hinv)|].
    pose proof extend_height. destruct extend_next. lia.
  - intros x r Hx%(extend_tip false) Hr%(extend_tail true).
    destruct Hx as [[Erc ->]|Hx]; [|by eapply (li_acked_ours _ _ Hinv)]. destruct (Hfalse (eq_sym Erc)) as [Hf _].
    specialize (Hf r Hr). lia.
  - intros x r Hx%(extend_tail false) Hr%(extend_tip true).
    destruct Hr as [[Erc ->]|Hr]; [|by eapply (li_acked_theirs _ _ Hinv)]. destruct (Htrue (eq_sym Erc)) as [Hf _].
    specialize (Hf x Hx). lia.
  - intros r Hr%(extend_tip true). rewrite El.
    destruct Hr as [[Erc ->]|Hr]; [|by apply (li_signed_ours _ _ Hinv)].
    destruct (Htrue (eq_sym Erc)). lia.
  - intros r Hr%(extend_tip false). rewrite Er.
    destruct Hr as [[Erc ->]|Hr]; [|by apply (li_signed_theirs _ _ Hinv)].
    destruct (Hfalse (eq_sym Erc)). lia.
  - rewrite El. eapply extend_marked; [by left|apply Hinv].
  - rewrite Er. eapply extend_marked; [by right|apply Hinv].
  - intros p pd' r. rewrite Er. intros Hp Hpd' Hr%(extend_tail true).
    destruct (heap_same_inv _ _ _ _ extend_heap Hpd') as (pd & Hpd & [Et _ El' _ _ _]).
    rewrite Et, El'. rewrite <- (li_forwarded _ _ Hinv p pd r Hp Hpd Hr).
    eapply (xt_forwarded _ _ _ _ _ _ _ _ _ Hext); [exact Hpd|].
    unfold lc2 in Hpd'. by rewrite (proj1 (with_commit_rest _ _ _)) in Hpd'.
Qed.

End Extend.

(** ** Updates *)

(** Every commitment is below the logs. *)
Lemma indexes_below V lc rc c :
  lc_inv V lc -> c ∈ commitChain lc rc ->
  ourMessageIndex c <= logIndex (localUpdateLog lc) /\
  theirMessageIndex c <= logIndex (remoteUpdateLog lc).
Proof.
  intros Hi Hx. pose proof (li_wf _ _ Hi) as Hwf.
  destruct (chain_nonempty lc false Hwf) as (lt & lp & Hlt & Hlp & _).
  destruct (chain_nonempty lc true Hwf) as (rt & rp & Hrt & Hrp & _).
  pose proof (tail_before_tip _ _ false _ _ Hi Hlt Hlp) as (_ & _ & ?).
  pose proof (tail_before_tip _ _ true _ _ Hi Hrt Hrp) as (_ & ? & _).
  pose proof (li_acked_ours _ _ Hi _ _ Hlp Hrt). pose proof (li_acked_theirs _ _ Hi _ _ Hlt Hrp).
  pose proof (li_signed_ours _ _ Hi _ Hrp). pose proof (li_signed_theirs _ _ Hi _ Hlp).
  destruct rc.
  - destruct (in_before_tip _ _ true _ _ Hi Hx Hrp) as (_ & ? & ?). lia.
  - destruct (in_before_tip _ _ false _ _ Hi Hx Hlp) as (_ & ? & ?). lia.
Qed.

Lemma lc_inv_updated V lc lc' : lc_inv V lc -> updated lc lc' -> lc_inv V lc'.
Proof.
  intros Hi [Hk _ Hal Har _]. pose proof (kp_lchain _ _ Hk) as Ecl.
  pose proof (kp_rchain _ _ Hk) as Ecr.
  assert (forall rc, commitChain lc' rc = commitChain lc rc) as Ec by (by intros []).
  split.
  - apply Hk.
  - intros rc c. rewrite Ec, (kp_value _ _ Hk). apply Hi.
  - intros rc c. rewrite Ec. apply Hi.
  - intros rc. rewrite Ec. apply Hi.
  - intros rc c. rewrite Ec. apply Hi.
  - intros c r. rewrite Ecl, Ecr. apply Hi.
  - intros c r. rewrite Ecl, Ecr. apply Hi.
  - intros r. rewrite Ecr. intros Hr. pose proof (li_signed_ours _ _ Hi r Hr).
    pose proof (ap_index _ _ _ _ Hal). lia.
  - intros r. rewrite Ecl. intros Hr. pose proof (li_signed_theirs _ _ Hi r Hr).
    pose proof (ap_index _ _ _ _ Har). lia.
  - intros rc. rewrite Ec. eapply marked_append; [exact Hal| |apply Hi]. intros c Hc.
    split; [by eapply indexes_below|by eapply (li_heights _ _ Hi)].
  - intros rc. rewrite Ec. eapply marked_append; [exact Har| |apply Hi]. intros c Hc.
    split; [by eapply indexes_below|by eapply (li_heights _ _ Hi)].
  - intros p pd r Hp Hpd. rewrite Ecr. intros Hr. destruct Har as [[He (new & El & Hnew)] _ Hlog].
    destruct (decide (p ∈ ul_list (remoteUpdateLog lc))) as [Hin|Hni].
    + eapply (li_forwarded _ _ Hi); [done| |done]. by rewrite <- He.
    + specialize (Hlog p pd Hp Hni Hpd). rewrite El in Hp. apply elem_of_app in Hp as [?|Hp]; [done|].
      destruct (Hnew p Hp) as (pd' & ? & Hu). simplify_eq. destruct (Hu true) as (_ & _ & ->).
      symmetry. apply bool_decide_eq_false. intros [_ Hlt].
      destruct (indexes_below V lc true r Hi) as [_ ?]; [|lia].
      apply tail_head in Hr as [l Er]. simpl. rewrite Er. apply list_elem_of_here.
Qed.

(** ** A chain loses its tail *)

Lemma sorted_tl c l : Sorted next_commit (c :: l) -> Sorted next_commit l.
Proof. by inversion 1. Qed.

Lemma last_advance (c x : commitment) l : l <> [] -> last (c :: l) = Some x <-> last l = Some x.
Proof. intros Hl. destruct l; [done|]. by rewrite last_cons_cons. Qed.

Lemma tip_advance (c x : commitment) l : l <> [] -> tip (c :: l) = Ok x <-> tip l = Ok x.
Proof. intros Hl. rewrite !tip_last. by apply last_advance. Qed.

Lemma lc_inv_revoke V lc c l :
  lc_inv V lc -> localCommitChain lc = c :: l -> l <> [] ->
  lc_inv V (with_chains lc l (remoteCommitChain lc)).
Proof.
  intros Hi El Hl. set (lc' := with_chains _ _ _).
  assert (forall rc x, tip (commitChain lc' rc) = Ok x -> tip (commitChain lc rc) = Ok x) as Htip.
  { intros [] x; simpl; [done|]. rewrite El. by apply tip_advance. }
  assert (forall rc x, x ∈ commitChain lc' rc -> x ∈ commitChain lc rc) as Hin.
  { intros [] x; simpl; [done|]. rewrite El. apply list_elem_of_further. }
  split; try apply Hi.
  - destruct (li_wf _ _ Hi) as [Hlogs Ht Hc1 Hc2]. split; try done. intros rc.
    destruct (Ht rc) as (x & Hx & Hrest). exists x. split; [|done]. destruct rc; [done|]. simpl in *.
    rewrite El in Hx. by apply tip_advance in Hx.
  - intros rc x Hx%Htip. by apply (li_value _ _ Hi).
  - intros rc x Hx%Htip. by apply (li_u64 _ _ Hi) in Hx.
  - intros []; [apply (li_chain _ _ Hi true)|]. simpl.
    pose proof (li_chain _ _ Hi false) as Hs. simpl in Hs. rewrite El in Hs. by eapply sorted_tl.
  - intros rc x Hx%Hin. by apply (li_heights _ _ Hi rc).
  - intros x r Hx%(Htip false). by apply (li_acked_ours _ _ Hi).
  - intros x r Hx%tail_head Hr. simpl in Hx, Hr. destruct Hx as [l' ->].
    pose proof (li_acked_theirs _ _ Hi c r) as Ha. rewrite El in Ha. specialize (Ha eq_refl Hr).
    pose proof (li_chain _ _ Hi false) as Hs. simpl in Hs. rewrite El in Hs.
    apply chain_strongly in Hs. inversion Hs as [|? ? _ Hall]; subst.
    inversion Hall as [|? ? (_ & _ & ?) _]; subst. lia.
  - intros x Hx%(Htip false). by apply (li_signed_theirs _ _ Hi).
  - intros []; [apply (li_marked_ours _ _ Hi true)|]. pose proof (li_marked_ours _ _ Hi false) as Hm.
    simpl in *. rewrite El in Hm. by eapply marked_advance.
  - intros []; [apply (li_marked_theirs _ _ Hi true)|]. pose proof (li_marked_theirs _ _ Hi false) as Hm.
    simpl in *. rewrite El in Hm. by eapply marked_advance.
Qed.

(** ** What a revocation forwards *)

(** The entries of the other party's log between two of its commitments. *)
Definition locked_in (h : pd_heap) (lo hi : Z) (p : ptr) : bool :=
  match h !! p with
  | Some pd => bool_decide (EntryType pd <> FeeUpdate) && (lo <=? LogIndex pd) && (LogIndex pd <? hi)
  | None => false
  end.

(** The entries the loop of a revocation picks. *)
Definition picked (h : pd_heap) (lt rt : Z) (p : ptr) : bool :=
  match h !! p with
  | Some pd => negb (bool_decide (EntryType pd = FeeUpdate) || isForwarded pd)
               && (fwd_add lt rt pd || fwd_rmv lt rt pd)
  | None => false
  end.

Definition picked_add (h : pd_heap) (lt rt : Z) (p : ptr) : bool := picked h lt rt p && is_add h p.
Definition picked_rmv (h : pd_heap) (lt rt : Z) (p : ptr) : bool :=
  picked h lt rt p && negb (is_add h p).

(** What the loop writes: references and marks, at the picked entries. *)
Record forwarded_by (pick : ptr -> bool) (h h' : pd_heap) : Prop := {
  fb_agree : forall rc, agree rc h h';
  fb_marks : forall p pd pd', h !! p = Some pd -> h' !! p = Some pd' ->
    to_log_update pd' = to_log_update pd /\ isForwarded pd' = isForwarded pd || pick p;
}.

Lemma forwarded_refl h : forwarded_by (fun _ => false) h h.
Proof.
  split; [done|]. intros p pd pd' Hp Hp'. assert (pd' = pd) as -> by congruence.
  by rewrite orb_false_r.
Qed.

Lemma forwarded_write pick h p pd pd' :
  h !! p = Some pd -> (forall rc, alike rc pd pd') -> to_log_update pd' = to_log_update pd ->
  isForwarded pd' = isForwarded pd || pick p -> (forall q, q <> p -> pick q = false) ->
  forwarded_by pick h (<[p := pd']> h).
Proof.
  intros Hp Ha Hu Hf Hq. split.
  - intros rc. split; [by rewrite length_insert|]. intros q qd Hqd.
    destruct (decide (q = p)) as [->|Hne].
    + simplify_eq. exists pd'. split; [|done]. apply list_lookup_insert_eq. by eapply lookup_lt_Some.
    + exists qd. rewrite list_lookup_insert_ne by done. split; [done|]. by split.
  - intros q qd qd' Hqd Hqd'. destruct (decide (q = p)) as [->|Hne].
    + rewrite list_lookup_insert_eq in Hqd' by (by eapply lookup_lt_Some).
      assert (qd = pd) as -> by congruence. assert (qd' = pd') as -> by congruence. done.
    + rewrite list_lookup_insert_ne in Hqd' by done. assert (qd' = qd) as -> by congruence.
      by rewrite Hq, orb_false_r.
Qed.

Lemma forwarded_trans pick1 pick2 pick3 h1 h2 h3 :
  forwarded_by pick1 h1 h2 -> forwarded_by pick2 h2 h3 ->
  (forall p, pick3 p = pick1 p || pick2 p) -> forwarded_by pick3 h1 h3.
Proof.
  intros [A1 M1] [A2 M2] E. split; [intros rc; etrans; [apply A1|apply A2]|]. intros p pd pd3 H1 H3.
  destruct (proj2 (A1 true) p pd H1) as (pd2 & H2 & _).
  destruct (M1 p pd pd2 H1 H2) as [U1 F1]. destruct (M2 p pd2 pd3 H2 H3) as [U2 F2].
  split; [by rewrite U2|]. by rewrite F2, F1, E, orb_assoc.
Qed.

(** What the loop did, for the entries [ps]. *)
Record forwards (lt rt : Z) (ps : list ptr) (st st' : fwd_state) : Prop := {
  fw_heap : forwarded_by (fun p => bool_decide (p ∈ ps) && picked (fs_heap st) lt rt p)
              (fs_heap st) (fs_heap st');
  fw_adds : addsToForward st'
    = addsToForward st ++ filter (picked_add (fs_heap st) lt rt) ps;
  fw_rmvs : settleFailsToForward st'
    = settleFailsToForward st ++ filter (picked_rmv (fs_heap st) lt rt) ps;
  fw_addUpdates : addUpdates st' = addUpdates st
    ++ (to_log_update <$> deref (fs_heap st) (filter (picked_add (fs_heap st) lt rt) ps));
  fw_rmvUpdates : settleFailUpdates st' = settleFailUpdates st
    ++ (to_log_update <$> deref (fs_heap st) (filter (picked_rmv (fs_heap st) lt rt) ps));
}.

Lemma fwd_entry_ok src lt rt p pd st :
  fs_heap st !! p = Some pd ->
  exists st', fwd_entry src lt rt p st = Ok st' /\ forwards lt rt [p] st st'.
Proof.
  intros Hp. unfold fwd_entry, index. rewrite Hp. rsimpl.
  assert (picked (fs_heap st) lt rt p = negb (bool_decide (EntryType pd = FeeUpdate) || isForwarded pd)
    && (fwd_add lt rt pd || fwd_rmv lt rt pd)) as Ep by (unfold picked; by rewrite Hp).
  assert (is_add (fs_heap st) p = bool_decide (EntryType pd = Add)) as Ea
    by (unfold is_add; by rewrite Hp).
  assert (forall q, q <> p -> bool_decide (q ∈ [p]) && picked (fs_heap st) lt rt q = false) as Hq.
  { intros q Hne. rewrite bool_decide_false; [done|]. by intros ->%list_elem_of_singleton. }
  assert (picked (fs_heap st) lt rt p = false -> forwards lt rt [p] st st) as Hskip.
  { intros E. split; rewrite ?(filter_none _ [p]), ?fmap_nil, ?app_nil_r; try done;
      try (intros q ->%list_elem_of_singleton; unfold picked_add, picked_rmv; rewrite E; by intros []).
    split; [done|]. intros q qd qd' H1 H2. assert (qd' = qd) as -> by congruence. split; [done|].
    destruct (decide (q = p)) as [->|Hne]; [by rewrite E, andb_false_r, orb_false_r|].
    by rewrite Hq, orb_false_r. }
  destruct (_ || isForwarded pd) eqn:Eskip; [eexists; split; [done|]; apply Hskip; by rewrite Ep|].
  apply orb_false_elim in Eskip as [Efee Efwd].
  destruct (fwd_add lt rt pd) eqn:E1; [|destruct (fwd_rmv lt rt pd) eqn:E2].
  - assert (picked_add (fs_heap st) lt rt p = true /\ picked_rmv (fs_heap st) lt rt p = false) as [Pa Pr].
    { unfold picked_add, picked_rmv. rewrite Ep, Ea. unfold fwd_add in E1.
      destruct (bool_decide (EntryType pd = Add)); done. }
    eexists. split; [done|].
    split; cbn [fs_heap addsToForward settleFailsToForward addUpdates settleFailUpdates];
      rewrite ?(filter_cons_True (picked_add _ _ _)), ?(filter_cons_False (picked_rmv _ _ _)),
        ?filter_nil, ?app_nil_r by (rewrite ?Pa, ?Pr; simpl; tauto); try done.
    + apply (forwarded_write _ _ p pd); [done|by intros []|done| |done].
      simpl. rewrite Efwd, Ep, bool_decide_true by (by apply list_elem_of_singleton). done.
    + unfold deref. simpl. by rewrite Hp.
  - assert (picked_add (fs_heap st) lt rt p = false /\ picked_rmv (fs_heap st) lt rt p = true) as [Pa Pr].
    { unfold picked_add, picked_rmv. rewrite Ep, Ea. unfold fwd_rmv in E2.
      destruct (decide (EntryType pd = Add)) as [Et|Et]; [|by rewrite bool_decide_false].
      by rewrite bool_decide_false in E2 by tauto. }
    eexists. split; [done|].
    split; cbn [fs_heap addsToForward settleFailsToForward addUpdates settleFailUpdates];
      rewrite ?(filter_cons_False (picked_add _ _ _)), ?(filter_cons_True (picked_rmv _ _ _)),
        ?filter_nil, ?app_nil_r by (rewrite ?Pa, ?Pr; simpl; tauto); try done.
    + apply (forwarded_write _ _ p pd); [done|by intros []|done| |done].
      simpl. rewrite Efwd, Ep, bool_decide_true by (by apply list_elem_of_singleton). done.
    + unfold deref. simpl. by rewrite Hp.
  - eexists. split; [done|]. apply Hskip. by rewrite Ep.
Qed.

(** Marks on other entries do not change what is picked. *)
Lemma picked_forwarded pick h h' lt rt q :
  forwarded_by pick h h' -> pick q = false ->
  picked h' lt rt q = picked h lt rt q /\ is_add h' q = is_add h q.
Proof.
  intros [Hg Hm] Hq. unfold picked, is_add.
  pose proof (agree_lookup true h h' q (Hg true)) as H1.
  pose proof (agree_lookup false h h' q (Hg false)) as H2.
  destruct (h !! q) as [pd|] eqn:Hpd, (h' !! q) as [pd'|] eqn:Hpd'; try done.
  destruct (Hm q pd pd' Hpd Hpd') as [_ E]. rewrite Hq, orb_false_r in E.
  destruct H1 as [[Et _ _ _ _ _] Ea1 Er1], H2 as [_ Ea2 Er2]. simpl in *.
  unfold fwd_add, fwd_rmv. by rewrite Et, E, Ea1, Er1, Ea2, Er2.
Qed.

Lemma deref_log_updates pick h h' ps :
  forwarded_by pick h h' -> to_log_update <$> deref h' ps = to_log_update <$> deref h ps.
Proof.
  intros [Hg Hm]. induction ps as [|p ps IH]; [done|]. unfold deref in *. simpl in *.
  pose proof (agree_lookup true h h' p (Hg true)) as H1.
  destruct (h !! p) as [pd|] eqn:Hpd, (h' !! p) as [pd'|] eqn:Hpd'; try done.
  destruct (Hm p pd pd' Hpd Hpd') as [E _]. simpl. f_equal; [exact E|exact IH].
Qed.

Lemma fwd_entries_ok src lt rt ps st :
  NoDup ps -> (forall p, p ∈ ps -> is_Some (fs_heap st !! p)) ->
  exists st', fwd_entries src lt rt ps st = Ok st' /\ forwards lt rt ps st st'.
Proof.
  revert st. induction ps as [|p ps IH]; intros st Hnd Hlive.
  { exists st. split; [done|]. split; rewrite ?filter_nil, ?fmap_nil, ?app_nil_r; try done.
    split; [done|]. intros p pd pd' H1 H2. assert (pd' = pd) as -> by congruence.
    rewrite bool_decide_false by apply not_elem_of_nil. by rewrite orb_false_r. }
  apply NoDup_cons in Hnd as [Hp Hnd].
  destruct (Hlive p) as [pd Hpd]; [apply list_elem_of_here|].
  destruct (fwd_entry_ok src lt rt p pd st Hpd) as (st1 & E1 & [H1 A1 R1 U1 V1]).
  assert (forall q, q ∈ ps -> bool_decide (q ∈ [p]) && picked (fs_heap st) lt rt q = false) as Hother.
  { intros q Hq. rewrite bool_decide_false; [done|]. by intros ->%list_elem_of_singleton. }
  assert (forall q, q ∈ ps -> picked (fs_heap st1) lt rt q = picked (fs_heap st) lt rt q /\
    is_add (fs_heap st1) q = is_add (fs_heap st) q) as Hpick
    by (intros q Hq; eapply picked_forwarded; [exact H1|by apply Hother]).
  destruct (IH st1 Hnd) as (st' & E2 & [H2 A2 R2 U2 V2]).
  { intros q Hq. destruct (Hlive q) as [qd Hqd]; [by apply list_elem_of_further|].
    destruct (proj2 (fb_agree _ _ _ H1 true) q qd Hqd) as (qd' & ? & _). eauto. }
  exists st'. simpl. rewrite E1. split; [done|].
  assert (filter (picked_add (fs_heap st1) lt rt) ps = filter (picked_add (fs_heap st) lt rt) ps) as Fa.
  { apply filter_ext_in. intros q Hq. unfold picked_add. by destruct (Hpick q Hq) as [-> ->]. }
  assert (filter (picked_rmv (fs_heap st1) lt rt) ps = filter (picked_rmv (fs_heap st) lt rt) ps) as Fr.
  { apply filter_ext_in. intros q Hq. unfold picked_rmv. by destruct (Hpick q Hq) as [-> ->]. }
  assert (forall (P : ptr -> bool), filter P [p] ++ filter P ps = filter P (p :: ps)) as Hcons
    by (intros P; by rewrite <- filter_app).
  split.
  - eapply forwarded_trans; [exact H1|exact H2|]. intros q. simpl.
    destruct (decide (q = p)) as [->|Hne].
    + rewrite !(bool_decide_true (p ∈ _)) by apply list_elem_of_here.
      rewrite (bool_decide_false (p ∈ ps)) by done. simpl. by rewrite orb_false_r.
    + rewrite (bool_decide_false (q ∈ [p])) by (by intros ->%list_elem_of_singleton). simpl.
      destruct (decide (q ∈ ps)) as [Hq|Hq].
      * rewrite !bool_decide_true by (done || by apply list_elem_of_further). simpl.
        symmetry. by apply Hpick.
      * rewrite !bool_decide_false; [done|done|]. by intros [?|?]%elem_of_cons.
  - by rewrite A2, A1, Fa, <- app_assoc, Hcons.
  - by rewrite R2, R1, Fr, <- app_assoc, Hcons.
  - rewrite U2, U1, Fa, (deref_log_updates _ _ _ _ H1), <- app_assoc, <- fmap_app.
    by rewrite <- deref_app, Hcons.
  - rewrite V2, V1, Fr, (deref_log_updates _ _ _ _ H1), <- app_assoc, <- fmap_app.
    by rewrite <- deref_app, Hcons.
Qed.

(** Between the tail and the tip of the other party's chain, the loop picks exactly the
    updates that the revocation locks in. *)
Lemma picked_locked_in V lc t c l p :
  lc_inv V lc -> remoteCommitChain lc = [t; c] -> tail (localCommitChain lc) = Ok l ->
  p ∈ ul_list (remoteUpdateLog lc) ->
  picked (lc_heap lc) (height l) (height c) p
  = locked_in (lc_heap lc) (theirMessageIndex t) (theirMessageIndex c) p.
Proof.
  intros Hi Ec Hl Hp. destruct (lw_heap _ _ (gw_remote _ _ _ (cw_logs _ (li_wf _ _ Hi))) p Hp) as [pd Hpd].
  unfold picked, locked_in. rewrite Hpd.
  pose proof (li_forwarded _ _ Hi p pd t Hp Hpd) as Hf. rewrite Ec in Hf. specialize (Hf eq_refl).
  pose proof (li_marked_theirs _ _ Hi true) as [Hr Hm _]. simpl in Hr, Hm. rewrite Ec in Hr, Hm.
  pose proof (li_marked_theirs _ _ Hi false) as [_ Hml _]. simpl in Hml.
  specialize (Hr p pd c Hp Hpd eq_refl).
  assert (t ∈ [t; c] /\ c ∈ [t; c]) as [Ht Hc] by set_solver.
  pose proof (Hm p pd t Hp Hpd Ht) as Hmt. pose proof (Hm p pd c Hp Hpd Hc) as Hmc.
  assert (l ∈ localCommitChain lc) as Hlin by (apply tail_head in Hl as [? ->]; apply list_elem_of_here).
  pose proof (Hml p pd l Hp Hpd Hlin) as Hmll.
  assert (theirMessageIndex c <= theirMessageIndex l) as Hack
    by (eapply (li_acked_theirs _ _ Hi); [done|by rewrite Ec]).
  pose proof (li_chain _ _ Hi true) as Hs. simpl in Hs. rewrite Ec in Hs.
  inversion Hs as [|? ? _ Hd]; subst. inversion Hd as [|? ? (Hh & _)]; subst.
  pose proof (li_heights _ _ Hi true t) as Hht. simpl in Hht. rewrite Ec in Hht. specialize (Hht Ht).
  rewrite Hf. unfold fwd_add, fwd_rmv. unfold entryHeight in *.
  destruct (EntryType pd) eqn:Et; simpl in *; [..|done].
  all: rewrite ?orb_false_r.
  all: destruct (Z.ltb_spec (LogIndex pd) (theirMessageIndex c)) as [Hlc|Hlc];
    destruct (Z.leb_spec (theirMessageIndex t) (LogIndex pd)) as [Hlt|Hlt].
  all: first [rewrite bool_decide_true by (split; [done|lia]) | rewrite bool_decide_false by lia]; simpl.
  all: try reflexivity.
  all: repeat match goal with
    | |- context [?a <? ?b] => destruct (Z.ltb_spec a b)
    | |- context [?a <=? ?b] => destruct (Z.leb_spec a b)
    | |- context [?a =? ?b] => destruct (Z.eqb_spec a b)
    end; simpl; try reflexivity; exfalso; lia.
Qed.

(** ** The other party revokes *)

Section Revoked.
Context (V : Z) (lc : LightningChannel) (t c l : commitment) (h' : pd_heap) (L R : updateLog).
Context (Hi : lc_inv V lc) (Ec : remoteCommitChain lc = [t; c]).
Context (Hl : tail (localCommitChain lc) = Ok l).
Context (Hf : forwarded_by (fun p => bool_decide (p ∈ ul_list (remoteUpdateLog lc))
    && picked (lc_heap lc) (height l) (height c) p) (lc_heap lc) h').
Context (Hcp : compacted h' (localUpdateLog lc) (remoteUpdateLog lc) L R).

Let lc' := with_logs (with_chains (with_heap lc h') (localCommitChain lc) [c]) L R.

Lemma revoked_chain rc x : x ∈ commitChain lc' rc -> x ∈ commitChain lc rc.
Proof using Ec.
  clear Hi Hl Hf Hcp. destruct rc; [|done]. simpl. rewrite Ec.
  intros ->%list_elem_of_singleton. set_solver.
Qed.

Lemma revoked_tip rc x : tip (commitChain lc' rc) = Ok x -> tip (commitChain lc rc) = Ok x.
Proof using Ec. clear Hi Hl Hf Hcp. destruct rc; [|done]. simpl. by rewrite Ec. Qed.

Lemma revoked_tip_inv rc x : tip (commitChain lc rc) = Ok x -> tip (commitChain lc' rc) = Ok x.
Proof using Ec. clear Hi Hl Hf Hcp. destruct rc; [|done]. simpl. by rewrite Ec. Qed.

Lemma below_sub rc h u u' b :
  (forall p, p ∈ ul_list u' -> p ∈ ul_list u) -> committed_below rc h u b -> committed_below rc h u' b.
Proof using Type. intros Hs Hb p pd Hp. apply Hb. by apply Hs. Qed.

Lemma revoked_wf : chan_wf lc'.
Proof using Hi Ec Hf Hcp.
  destruct (li_wf _ _ Hi) as [_ Ht C1 C2], Hcp as [Hw _ _ Hsl Hsr [E1 E2] [E3 E4]].
  split; simpl; [done| |by rewrite E1, E2|by rewrite E3, E4].
  intros rc. destruct (Ht rc) as (x & Hx & Hh & Hbl & Hbr). exists x.
  split; [by apply revoked_tip_inv|]. split; [done|].
  split; (eapply below_sub; [done|]); (eapply committed_below_agree; [apply Hf|done]).
Qed.

Lemma revoked_value rc x : chain_value lc' rc x = chain_value lc rc x.
Proof using Hf Hcp.
  unfold chain_value. simpl. rewrite (cp_A _ _ _ _ _ Hcp), (cp_B _ _ _ _ _ Hcp).
  rewrite !(active_agree rc _ _ _ _ (fb_agree _ _ _ Hf rc)).
  by rewrite (amount_agree rc _ _ _ (fb_agree _ _ _ Hf rc)).
Qed.

Lemma revoked_marked u u' (idx : commitment -> Z) :
  (forall rc, marked rc (commitChain lc rc) (lc_heap lc) u idx) ->
  (forall p, p ∈ ul_list u' -> p ∈ ul_list u) ->
  forall rc, marked rc (commitChain lc' rc) h' u' idx.
Proof using Ec Hf.
  intros Hm Hs rc. pose proof (marked_agree rc _ _ _ _ _ (fb_agree _ _ _ Hf rc) (Hm rc)) as [Hr Hx Hty].
  split; [| |eauto].
  - intros p pd x Hp Hpd Hlast%tip_last%revoked_tip%tip_last. apply (Hr p pd x); [by apply Hs|done|done].
  - intros p pd x Hp Hpd Hin%revoked_chain. apply (Hx p pd x); [by apply Hs|done|done].
Qed.

Lemma revoked_forwarded p pd : p ∈ ul_list R -> h' !! p = Some pd ->
  isForwarded pd = bool_decide (EntryType pd <> FeeUpdate /\ LogIndex pd < theirMessageIndex c).
Proof using Hi Ec Hl Hf Hcp.
  intros Hp%(cp_listB _ _ _ _ _ Hcp) Hpd.
  destruct (heap_same_inv _ _ _ _ (agree_same true _ _ (fb_agree _ _ _ Hf true)) Hpd)
    as (pd0 & Hpd0 & [Et _ El _ _ _]).
  destruct (fb_marks _ _ _ Hf p pd0 pd Hpd0 Hpd) as [_ ->].
  rewrite bool_decide_true by done. simpl. rewrite (picked_locked_in V lc t c l p Hi Ec Hl Hp).
  unfold locked_in. rewrite Hpd0, Et, El.
  rewrite (li_forwarded _ _ Hi p pd0 t Hp Hpd0) by (by rewrite Ec).
  pose proof (li_chain _ _ Hi true) as Hs. simpl in Hs. rewrite Ec in Hs.
  inversion Hs as [|? ? _ Hd]; subst. inversion Hd as [|? ? (_ & _ & Hle)]; subst.
  apply eq_true_iff_eq.
  rewrite orb_true_iff, !andb_true_iff, !bool_decide_eq_true, Z.leb_le, Z.ltb_lt.
  split; [intros [[? ?]|[[? ?] ?]]; split; (done || lia)|]. intros [? ?].
  destruct (Z.lt_ge_cases (LogIndex pd0) (theirMessageIndex t)); [by left|by right].
Qed.

Lemma lc_inv_revoked : lc_inv V lc'.
Proof using Hi Ec Hl Hf Hcp.
  destruct (cp_logA _ _ _ _ _ Hcp) as [E1 _]. destruct (cp_logB _ _ _ _ _ Hcp) as [E3 _].
  pose proof (li_chain _ _ Hi true) as Hs. simpl in Hs. rewrite Ec in Hs.
  inversion Hs as [|? ? Hs1 Hd]; subst. inversion Hd as [|? ? (_ & Hle & _)]; subst.
  split.
  - apply revoked_wf.
  - intros rc x Hx%revoked_tip. rewrite revoked_value. by apply (li_value _ _ Hi).
  - intros rc x Hx%revoked_tip. by apply (li_u64 _ _ Hi) in Hx.
  - intros []; [done|]. apply (li_chain _ _ Hi false).
  - intros rc x Hx%revoked_chain. by apply (li_heights _ _ Hi rc).
  - intros x r Hx. simpl. intros [= <-].
    pose proof (li_acked_ours _ _ Hi x t Hx) as Ha. rewrite Ec in Ha. specialize (Ha eq_refl). lia.
  - intros x r Hx Hr%(revoked_tip true). by apply (li_acked_theirs _ _ Hi).
  - intros r Hr%(revoked_tip true). simpl. rewrite E1. by apply (li_signed_ours _ _ Hi).
  - intros r Hr%(revoked_tip false). simpl. rewrite E3. by apply (li_signed_theirs _ _ Hi).
  - apply (revoked_marked _ _ _ (li_marked_ours _ _ Hi) (cp_listA _ _ _ _ _ Hcp)).
  - apply (revoked_marked _ _ _ (li_marked_theirs _ _ Hi) (cp_listB _ _ _ _ _ Hcp)).
  - intros p pd r Hp Hpd. simpl. intros [= <-]. by apply (revoked_forwarded p).
Qed.

End Revoked.
