(* ===== verification/DanceRun.v ===== *)
(** * The commitment dance: sessions and histories

    Sessions: the channel, its database and its revocation state.  Value is conserved
    over any history, the database always holds what the chains hold, revoked states
    are recorded once and kept, and every update of the other party is forwarded exactly
    when it is locked in, once. *)

From Stdlib Require Import Lia.
From S2P Require Import Prelude Sha256 Shachain Ids Amounts UpdateLog Channel ChannelEval ChannelInv ChannelCompact ChannelThms CommitTx CommitTxInv CommitDance CommitInv DanceInv.

(** ** Sessions *)

(** The database holds both tails, and the tip of the remote chain as the pending
    commitment when it is not the tail.  The revocation log is below the tail. *)
Record db_mirrors (lc : LightningChannel) (d : chan_db) : Prop := {
  dm_local : forall c, tail (localCommitChain lc) = Ok c -> LocalCommitment d = toDiskCommit c true;
  dm_remote : forall c, tail (remoteCommitChain lc) = Ok c ->
    RemoteCommitment d = toDiskCommit c false;
  dm_pending : (exists c, remoteCommitChain lc = [c] /\ commitDiff d = None) \/
    (exists t c diff, remoteCommitChain lc = [t; c] /\ commitDiff d = Some diff /\
       cd_Commitment diff = toDiskCommit c false);
  dm_revoked : forall h x, revocationLog d !! h = Some x -> h < CommitHeight (RemoteCommitment d);
}.

Record session_inv (V : Z) (s : session) : Prop := {
  si_lc : lc_inv V (ss_lc s);
  si_db : db_mirrors (ss_lc s) (ss_db s);
  si_height : forall c, tail (localCommitChain (ss_lc s)) = Ok c -> currentHeight s = height c;
}.

(** Nothing is marked as forwarded, or loses its mark. *)
Definition keeps_marks (h h' : pd_heap) : Prop :=
  forall p pd, h !! p = Some pd -> exists pd', h' !! p = Some pd' /\ isForwarded pd' = isForwarded pd.

Lemma extended_marks rc ob oh tb th lc c lc' c' :
  extended rc ob oh tb th lc c lc' c' -> keeps_marks (lc_heap lc) (lc_heap lc').
Proof.
  intros Hx p pd Hp. destruct (proj2 (xt_other _ _ _ _ _ _ _ _ _ Hx) p pd Hp) as (pd' & Hp' & _).
  exists pd'. split; [done|]. by eapply (xt_forwarded _ _ _ _ _ _ _ _ _ Hx).
Qed.

Section Steps.
Context `{Hasher} `{Scripts} `{Crypto}.

(** What a successful signature establishes. *)
Record signed (V : Z) (s s' : session) (t c : commitment) : Prop := {
  sg_inv : session_inv V s';
  sg_before : remoteCommitChain (ss_lc s) = [t];
  sg_after : remoteCommitChain (ss_lc s') = [t; c];
  sg_height : height c = height t + 1;
  sg_ours : ourMessageIndex c = logIndex (localUpdateLog (ss_lc s));
  sg_local : localCommitChain (ss_lc s') = localCommitChain (ss_lc s);
  sg_logs : localUpdateLog (ss_lc s') = localUpdateLog (ss_lc s) /\
            remoteUpdateLog (ss_lc s') = remoteUpdateLog (ss_lc s);
  sg_revoked : revocationLog (ss_db s') = revocationLog (ss_db s);
  sg_marks : keeps_marks (lc_heap (ss_lc s)) (lc_heap (ss_lc s'));
  sg_diff : exists diff, commitDiff (ss_db s') = Some diff /\
    cd_Commitment diff = toDiskCommit c false /\
    cd_LogUpdates diff = to_log_update <$> filter (committed_at (height c))
      (deref (lc_heap (ss_lc s')) (ul_list (localUpdateLog (ss_lc s'))));
}.

Lemma same_commit_refl c : same_commit c c.
Proof. done. Qed.

Lemma mutable_ok d db x : mutable d db = Ok x -> db_Restored d = false /\ db_Borked d = false.
Proof. unfold mutable. by destruct (db_Restored d), (db_Borked d). Qed.

Lemma single_chain lc c : hasUnackedCommitment (remoteCommitChain lc) = false ->
  tip (remoteCommitChain lc) = Ok c -> remoteCommitChain lc = [c].
Proof.
  unfold hasUnackedCommitment, tip. destruct (remoteCommitChain lc) as [|x [|y l]]; [done| |done].
  intros _ [= ->]. done.
Qed.

Lemma sign_ok V s db s' r :
  session_inv V s -> SignNextCommitment s db = (s', Ok r) -> exists t c, signed V s s' t c.
Proof.
  intros [Hi Hdb Hh]. unfold SignNextCommitment. set (lc := ss_lc s) in *.
  destruct (oweCommitment lc true); [|done|done].
  destruct (hasUnackedCommitment _) eqn:Hun; [done|].
  destruct (RemoteNextRevocation s) as [point|]; [|done].
  destruct (tail (localCommitChain lc)) as [lt|e|] eqn:Hlt; [|done|done].
  destruct (validateCommitmentSanity lc _ _ true None None) as [lc1 rs] eqn:Es.
  pose proof (sanity_same _ _ _ _ _ _ (cw_logs _ (li_wf _ _ Hi)) Es) as ->.
  destruct rs as [[]|e|]; [|done|done].
  destruct (fetchCommitmentView _ _ _ _ _ _ _ _) as [lc2 rf] eqn:Ef.
  destruct rf as [c|e|]; [|done|done].
  destruct (sign_commitment _ _ _) as [[sg hs]|e|]; [|done|done].
  destruct (AppendRemoteCommitChain _ _ db) as [d|e|] eqn:Ed; [|done|done].
  intros [= <- <-]. destruct (chain_nonempty lc true (li_wf _ _ Hi)) as (t' & t & Htl & Htip & _).
  pose proof (single_chain lc t Hun Htip) as Echain.
  destruct (li_u64 _ _ Hi true t Htip) as [U1 U2].
  assert (theirMessageIndex t <= theirMessageIndex lt) as Hack
    by by eapply (li_acked_theirs _ _ Hi).
  apply (fetch_ok _ _ _ _ _ _ _ _ _ t) in Ef;
    [|apply Hi|done|done|done|by apply (li_signed_ours _ _ Hi)|done|by rewrite Es].
  pose proof (xt_frame _ _ _ _ _ _ _ _ _ Ef) as [F1 F2 F3 F4].
  exists t, c. split.
  - split; simpl.
    + eapply (lc_inv_extend V lc lc2 true _ _ _ _ t c c Hi Htip); [|done|exact Ef|done|done|].
      * by apply (li_signed_ours _ _ Hi).
      * intros _. split; [|done]. intros l Hl. assert (l = lt) as -> by congruence. done.
    + revert Ed. unfold AppendRemoteCommitChain. destruct (mutable _ _); [|done|done]. rsimpl.
      intros [= <-]. destruct Hdb as [D1 D2 D3 D4]. split; simpl.
      * intros x. rewrite F3. apply D1.
      * intros x. rewrite F4. fold lc in D2. rewrite Echain in *. simpl. apply D2.
      * right. exists t, c. eexists. rewrite F4. fold lc. rewrite Echain. done.
      * done.
    + intros x. rewrite F3, Hlt. apply Hh.
  - done.
  - simpl. by rewrite F4, Echain.
  - apply Ef.
  - apply Ef.
  - simpl. by rewrite F3.
  - simpl. by rewrite F1, F2.
  - revert Ed. unfold AppendRemoteCommitChain. destruct (mutable _ _); [|done|done]. rsimpl.
    by intros [= <-].
  - exact (extended_marks _ _ _ _ _ _ _ _ _ Ef).
  - revert Ed. unfold AppendRemoteCommitChain. destruct (mutable _ _); [|done|done]. rsimpl.
    intros [= <-]. by eexists.
Qed.

(** The updates of ours that were committed at the height of the newest remote
    commitment are those behind the one before it. *)
Lemma fresh_updates V lc t c p pd :
  lc_inv V lc -> remoteCommitChain lc = [t; c] -> ourMessageIndex c = logIndex (localUpdateLog lc) ->
  p ∈ ul_list (localUpdateLog lc) -> lc_heap lc !! p = Some pd ->
  committed_at (height c) pd <-> ourMessageIndex t <= LogIndex pd.
Proof.
  intros Hi Ec Eo Hp Hpd. destruct (li_marked_ours _ _ Hi true) as [Hr Hm Ht]. simpl in Hr, Hm, Ht.
  rewrite Ec in Hr, Hm. specialize (Hr p pd c Hp Hpd eq_refl).
  pose proof (Hm p pd t Hp Hpd ltac:(set_solver)) as Hmt.
  pose proof (Hm p pd c Hp Hpd ltac:(set_solver)) as Hmc.
  pose proof (lw_below _ _ (gw_local _ _ _ (cw_logs _ (li_wf _ _ Hi))) p pd Hp Hpd) as Hb.
  pose proof (li_chain _ _ Hi true) as Hs. simpl in Hs. rewrite Ec in Hs.
  inversion Hs as [|? ? _ Hd]; subst. inversion Hd as [|? ? (Hh & _)]; subst.
  pose proof (li_heights _ _ Hi true t) as Hht. simpl in Hht. rewrite Ec in Hht.
  specialize (Hht ltac:(set_solver)).
  unfold committed_at. rewrite orb_True, !Is_true_true, !Z.eqb_eq.
  change (addCommitHeightRemote pd) with (addHeight true pd).
  change (removeCommitHeightRemote pd) with (removeHeight true pd).
  rewrite (tidy_heights true pd (height c)) by (by apply (Ht p) || lia). lia.
Qed.

(** What a commitment that was received establishes. *)
Record received (V : Z) (s s' : session) (c : commitment) : Prop := {
  rv_inv : session_inv V s';
  rv_local : localCommitChain (ss_lc s') = localCommitChain (ss_lc s) ++ [c];
  rv_remote : remoteCommitChain (ss_lc s') = remoteCommitChain (ss_lc s);
  rv_theirs : theirMessageIndex c = logIndex (remoteUpdateLog (ss_lc s));
  rv_logs : localUpdateLog (ss_lc s') = localUpdateLog (ss_lc s) /\
            remoteUpdateLog (ss_lc s') = remoteUpdateLog (ss_lc s);
  rv_db : ss_db s' = ss_db s;
  rv_marks : keeps_marks (lc_heap (ss_lc s)) (lc_heap (ss_lc s'));
}.

Lemma verify_same cs k c sg hs c' : verify_commitment cs k c sg hs = Ok c' -> same_commit c c'.
Proof.
  unfold verify_commitment. destruct (CommitSigHash _); [|done|done]. rsimpl.
  destruct (genHtlcSigValidationJobs _ _) as [jobs|e|]; [|done|done]. rsimpl.
  destruct (ToSignature _); [|done|done]. rsimpl. destruct (negb _); [done|].
  destruct (mapM _ _); [|done|done]. rsimpl. by intros [= <-].
Qed.

Lemma receive_ok V s sg hs s' :
  session_inv V s -> ReceiveNewCommitment s sg hs = (s', Ok tt) -> exists c, received V s s' c.
Proof.
  intros [Hi Hdb Hh]. unfold ReceiveNewCommitment. set (lc := ss_lc s) in *.
  destruct (oweCommitment lc false); [|done|done].
  destruct (tail (remoteCommitChain lc)) as [rt|e|] eqn:Hrt; [|done|done].
  destruct (validateCommitmentSanity lc _ _ false None None) as [lc1 rs] eqn:Es.
  pose proof (sanity_same _ _ _ _ _ _ (cw_logs _ (li_wf _ _ Hi)) Es) as ->.
  destruct rs as [[]|e|]; [|done|done].
  destruct (AtIndex _ _) as [sec|e|]; [|done|done].
  destruct (fetchCommitmentView _ _ _ _ _ _ _ _) as [lc2 rf] eqn:Ef.
  destruct rf as [c0|e|]; [|done|done].
  destruct (verify_commitment _ _ _ _ _) as [c|e|] eqn:Ev; [|done|done].
  intros [= <-]. apply verify_same in Ev.
  destruct (chain_nonempty lc false (li_wf _ _ Hi)) as (lt & lp & Htl & Htip & _).
  destruct (li_u64 _ _ Hi false lp Htip) as [U1 U2].
  assert (ourMessageIndex lp <= ourMessageIndex rt) as Hack by by eapply (li_acked_ours _ _ Hi).
  apply (fetch_ok _ _ _ _ _ _ _ _ _ lp) in Ef;
    [|apply Hi|done|done|done|done|by apply (li_signed_theirs _ _ Hi)|by rewrite Es].
  pose proof (xt_frame _ _ _ _ _ _ _ _ _ Ef) as [F1 F2 F3 F4].
  exists c. split.
  - split; simpl.
    + eapply (lc_inv_extend V lc lc2 false _ _ _ _ lp c0 c Hi Htip); [done| |exact Ef|done| |done].
      * by apply (li_signed_theirs _ _ Hi).
      * intros _. split; [|done]. intros x Hx. assert (x = rt) as -> by congruence. done.
    + destruct Hdb as [D1 D2 D3 D4]. split; simpl.
      * intros x Hx. rewrite F3 in Hx. apply D1. by apply (tail_snoc _ _ _ _ Htip) in Hx.
      * by rewrite F4.
      * by rewrite F4.
      * done.
    + intros x Hx. rewrite F3 in Hx. apply Hh. by apply (tail_snoc _ _ _ _ Htip) in Hx.
  - simpl. by rewrite F3.
  - simpl. by rewrite F4.
  - rewrite (sc_their _ _ Ev). apply Ef.
  - simpl. by rewrite F1, F2.
  - done.
  - exact (extended_marks _ _ _ _ _ _ _ _ _ Ef).
Qed.

(** What a revocation of our own establishes. *)
Record revoked (V : Z) (s s' : session) (msg : RevokeAndAck) (t : commitment)
    (l : list commitment) : Prop := {
  ro_inv : session_inv V s';
  ro_before : localCommitChain (ss_lc s) = t :: l;
  ro_after : localCommitChain (ss_lc s') = l;
  ro_secret : AtIndex (ss_Producer s) (height t) = Ok (Revocation msg);
  ro_remote : remoteCommitChain (ss_lc s') = remoteCommitChain (ss_lc s);
  ro_rest : lc_heap (ss_lc s') = lc_heap (ss_lc s) /\
            localUpdateLog (ss_lc s') = localUpdateLog (ss_lc s) /\
            remoteUpdateLog (ss_lc s') = remoteUpdateLog (ss_lc s);
  ro_revoked : revocationLog (ss_db s') = revocationLog (ss_db s);
}.

(** Heights do not wrap. *)
Lemma height_small V lc rc x : lc_inv V lc -> x ∈ commitChain lc rc -> 0 <= height x < 2 ^ 64 - 1.
Proof.
  intros Hi Hx. destruct (cw_tip _ (li_wf _ _ Hi) rc) as (c & Hc & Hh & _).
  pose proof (in_before_tip _ _ _ _ _ Hi Hx Hc) as (? & _).
  pose proof (li_heights _ _ Hi rc x Hx). lia.
Qed.

Lemma revoke_ok V s db s' msg htlcs :
  session_inv V s -> RevokeCurrentCommitment s db = (s', Ok (msg, htlcs)) ->
  exists t l, revoked V s s' msg t l /\ htlcs = Htlcs (LocalCommitment (ss_db s')).
Proof.
  intros [Hi Hdb Hh]. unfold RevokeCurrentCommitment, generateRevocation.
  destruct (AtIndex _ (currentHeight s)) as [sec|e|] eqn:Es; [|done|done]. rsimpl.
  destruct (AtIndex _ (u64 _)) as [sec2|e|]; [|done|done]. rsimpl.
  destruct (localCommitChain (ss_lc s)) as [|t l] eqn:El; [done|]. simpl.
  destruct l as [|x l']; [done|]. set (l := x :: l') in *. simpl tail. rsimpl.
  destruct (getUnsignedAckedUpdates _) as [us|e|]; [|done|done]. rsimpl.
  destruct (UpdateCommitment _ _ _ _) as [d|e|] eqn:Ed; [|done|done]. rsimpl.
  intros [= <- <- <-]. pose proof (Hh t eq_refl) as Et. exists t, l.
  assert (t ∈ commitChain (ss_lc s) false) as Ht by (simpl; rewrite El; apply list_elem_of_here).
  pose proof (height_small _ _ false t Hi Ht) as Hsmall.
  pose proof (li_chain _ _ Hi false) as Hs. simpl in Hs. rewrite El in Hs.
  inversion Hs as [|? ? _ Hd]; subst. inversion Hd as [|? ? (Hx & _)]; subst.
  revert Ed. unfold UpdateCommitment. destruct (mutable _ _); [|done|done]. rsimpl. intros [= <-].
  split; [|done]. split; simpl; try done.
  - split; simpl.
    + by apply (lc_inv_revoke V (ss_lc s) t l).
    + destruct Hdb as [D1 D2 D3 D4]. split; simpl; try done. by intros c [= <-].
    + intros c [= <-]. rewrite u64_small by (unfold is_u64; lia). lia.
  - by rewrite <- Et.
Qed.

(** What the other party's revocation establishes. *)
Record acknowledged (V : Z) (s s' : session) (pkg : fwd_package) (adds rmvs : list ptr)
    (t c : commitment) : Prop := {
  ak_inv : session_inv V s';
  ak_before : remoteCommitChain (ss_lc s) = [t; c];
  ak_after : remoteCommitChain (ss_lc s') = [c];
  ak_local : localCommitChain (ss_lc s') = localCommitChain (ss_lc s);
  ak_adds : adds = filter (fun p => locked_in (lc_heap (ss_lc s)) (theirMessageIndex t)
                              (theirMessageIndex c) p /\ is_add (lc_heap (ss_lc s)) p)
                     (ul_list (remoteUpdateLog (ss_lc s)));
  ak_rmvs : rmvs = filter (fun p => locked_in (lc_heap (ss_lc s)) (theirMessageIndex t)
                              (theirMessageIndex c) p /\ ~ is_add (lc_heap (ss_lc s)) p)
                     (ul_list (remoteUpdateLog (ss_lc s)));
  ak_package : fp_Height pkg = height c /\
    fp_Adds pkg = to_log_update <$> deref (lc_heap (ss_lc s)) adds /\
    fp_SettleFails pkg = to_log_update <$> deref (lc_heap (ss_lc s)) rmvs;
  ak_packages : db_FwdPkgs (ss_db s') = db_FwdPkgs (ss_db s) ++ [pkg];
  ak_fresh : revocationLog (ss_db s) !! height t = None;
  ak_revoked : revocationLog (ss_db s')
    = <[height t := toDiskCommit t false]> (revocationLog (ss_db s));
  ak_heap : forwarded_by (fun p => bool_decide (p ∈ adds ++ rmvs))
              (lc_heap (ss_lc s)) (lc_heap (ss_lc s'));
  ak_logs : forall p, p ∈ ul_list (remoteUpdateLog (ss_lc s')) ->
    p ∈ ul_list (remoteUpdateLog (ss_lc s));
  ak_counters : forall n, room n (ss_lc s) -> room n (ss_lc s');
}.

(** Without a pending commitment nothing can be revoked. *)
Lemma advance_single s db c :
  remoteCommitChain (ss_lc s) = [c] -> commitDiff (ss_db s) = None ->
  forall x, snd (advance_remote s db) <> Ok x.
Proof.
  intros Ec Ed x. unfold advance_remote. rewrite Ec. simpl tail. rsimpl.
  destruct (tail _) as [l|e|]; [|done|done]. rsimpl.
  destruct (fwd_entries _ _ _ _ _) as [st|e|]; [|done|done]. rsimpl.
  unfold AdvanceCommitChainTail. simpl ss_db. destruct (mutable _ _); [|done|done]. rsimpl.
  by rewrite Ed.
Qed.

Lemma filter_picked V lc t c l (P : bool -> Prop) `{!forall b, Decision (P b)} (f : ptr -> bool) :
  lc_inv V lc -> remoteCommitChain lc = [t; c] -> tail (localCommitChain lc) = Ok l ->
  (forall p, f p <-> picked (lc_heap lc) (height l) (height c) p /\ P (is_add (lc_heap lc) p)) ->
  filter f (ul_list (remoteUpdateLog lc))
  = filter (fun p => locked_in (lc_heap lc) (theirMessageIndex t) (theirMessageIndex c) p
                     /\ P (is_add (lc_heap lc) p)) (ul_list (remoteUpdateLog lc)).
Proof.
  intros Hi Ec Hl Hf. apply filter_ext_in. intros p Hp. rewrite Hf.
  by rewrite (picked_locked_in V lc t c l p Hi Ec Hl Hp).
Qed.

(** The run of a revocation with a pending commitment [c]. *)
Record advanced (s s' : session) (pkg : fwd_package) (adds rmvs : list ptr) (t c l : commitment)
    (L R : updateLog) : Prop := {
  av_heap : forwarded_by (fun p => bool_decide (p ∈ ul_list (remoteUpdateLog (ss_lc s)))
      && picked (lc_heap (ss_lc s)) (height l) (height c) p) (lc_heap (ss_lc s)) (lc_heap (ss_lc s'));
  av_compact : compacted (lc_heap (ss_lc s')) (localUpdateLog (ss_lc s))
                 (remoteUpdateLog (ss_lc s)) L R;
  av_lc : ss_lc s' = with_logs (with_chains (with_heap (ss_lc s) (lc_heap (ss_lc s')))
            (localCommitChain (ss_lc s)) [c]) L R;
  av_height : currentHeight s' = currentHeight s;
  av_adds : adds = filter (picked_add (lc_heap (ss_lc s)) (height l) (height c))
              (ul_list (remoteUpdateLog (ss_lc s)));
  av_rmvs : rmvs = filter (picked_rmv (lc_heap (ss_lc s)) (height l) (height c))
              (ul_list (remoteUpdateLog (ss_lc s)));
  av_package : fp_Height pkg = height c /\
    fp_Adds pkg = to_log_update <$> deref (lc_heap (ss_lc s)) adds /\
    fp_SettleFails pkg = to_log_update <$> deref (lc_heap (ss_lc s)) rmvs;
  av_packages : db_FwdPkgs (ss_db s') = db_FwdPkgs (ss_db s) ++ [pkg];
  av_local : LocalCommitment (ss_db s') = LocalCommitment (ss_db s);
  av_remote : RemoteCommitment (ss_db s') = toDiskCommit c false /\ commitDiff (ss_db s') = None;
  av_revoked : revocationLog (ss_db s')
    = <[height t := toDiskCommit t false]> (revocationLog (ss_db s));
}.

Lemma advance_run V s db s' pkg adds rmvs htlcs t c l diff :
  session_inv V s -> remoteCommitChain (ss_lc s) = [t; c] ->
  tail (localCommitChain (ss_lc s)) = Ok l -> commitDiff (ss_db s) = Some diff ->
  cd_Commitment diff = toDiskCommit c false ->
  advance_remote s db = (s', Ok (pkg, adds, rmvs, htlcs)) ->
  (exists L R, advanced s s' pkg adds rmvs t c l L R) /\ htlcs = Htlcs (RemoteCommitment (ss_db s')).
Proof.
  intros [Hi Hdb _] Ec El Ed Ediff. unfold advance_remote. rewrite Ec, El. simpl tail. rsimpl.
  pose proof (li_chain _ _ Hi true) as Hs. simpl in Hs. rewrite Ec in Hs.
  inversion Hs as [|? ? _ Hd]; subst. inversion Hd as [|? ? (Hht & _)]; subst.
  pose proof (height_small V (ss_lc s) true t Hi) as Ht. simpl in Ht. rewrite Ec in Ht.
  specialize (Ht (list_elem_of_here _ _)).
  rewrite (u64_small (height t + 1)) by (unfold is_u64; lia). rewrite <- Hht.
  pose proof (cw_logs _ (li_wf _ _ Hi)) as Hw.
  match goal with |- context [fwd_entries ?a ?b ?cc ?d ?x] =>
    destruct (fwd_entries_ok a b cc d x) as (st & Est & [Hfb A1 A2 A3 A4]);
      [apply Hw|apply (lw_heap _ _ (gw_remote _ _ _ Hw))|]; rewrite Est end.
  rsimpl. change (tip [t; c]) with (Ok c : res commitment). rsimpl. cbn [fs_heap addsToForward
    settleFailsToForward addUpdates settleFailUpdates] in Hfb, A1, A2, A3, A4.
  simpl app in A1, A2, A3, A4.
  unfold AdvanceCommitChainTail. simpl ss_db. destruct (mutable _ _); [|done|done]. rsimpl.
  rewrite Ed. cbn [with_heap lc_heap localUpdateLog remoteUpdateLog remoteCommitChain].
  rewrite Ec. simpl advanceTail. rsimpl.
  destruct (compactLogs_ok (fs_heap st) (localUpdateLog (ss_lc s)) (remoteUpdateLog (ss_lc s))
    (height l) (height c)) as (L & R & EL & Hcp & _).
  { eapply logs_wf_agree; [apply Hfb|done]. }
  rewrite EL. rsimpl. intros [= <- <- <- <- <-]. split; [|done]. exists L, R.
  split; simpl; try done.
  - by rewrite A1, A2.
  - by rewrite (dm_remote _ _ Hdb t) by (by rewrite Ec).
Qed.

Lemma locked_in_picked V lc t c l p :
  lc_inv V lc -> remoteCommitChain lc = [t; c] -> tail (localCommitChain lc) = Ok l ->
  bool_decide (p ∈ ul_list (remoteUpdateLog lc)) && picked (lc_heap lc) (height l) (height c) p
  = bool_decide (p ∈
      filter (fun q => locked_in (lc_heap lc) (theirMessageIndex t) (theirMessageIndex c) q
                       /\ is_add (lc_heap lc) q) (ul_list (remoteUpdateLog lc))
      ++ filter (fun q => locked_in (lc_heap lc) (theirMessageIndex t) (theirMessageIndex c) q
                       /\ ~ is_add (lc_heap lc) q) (ul_list (remoteUpdateLog lc))).
Proof.
  intros Hi Ec El. apply eq_true_iff_eq.
  rewrite andb_true_iff, !bool_decide_eq_true, elem_of_app, !list_elem_of_filter. split.
  - intros [Hp Hpk]. rewrite (picked_locked_in V _ t c l p Hi Ec El Hp) in Hpk.
    apply Is_true_true in Hpk. destruct (decide (is_add (lc_heap lc) p)); tauto.
  - intros Hx. assert (p ∈ ul_list (remoteUpdateLog lc)) as Hp by tauto. split; [done|].
    rewrite (picked_locked_in V _ t c l p Hi Ec El Hp). apply Is_true_true. tauto.
Qed.

Lemma advance_ok V s db s' pkg adds rmvs htlcs :
  session_inv V s -> advance_remote s db = (s', Ok (pkg, adds, rmvs, htlcs)) ->
  exists t c, acknowledged V s s' pkg adds rmvs t c /\ htlcs = Htlcs (RemoteCommitment (ss_db s')).
Proof.
  intros Hinv E. pose proof Hinv as [Hi Hdb Hh].
  destruct (dm_pending _ _ Hdb) as [(c0 & Ec & Ed)|(t & c & diff & Ec & Ed & Ediff)].
  { exfalso. apply (advance_single s db c0 Ec Ed (pkg, adds, rmvs, htlcs)). by rewrite E. }
  destruct (chain_tail _ false (li_wf _ _ Hi)) as [l El]. simpl in El. exists t, c.
  apply (advance_run V _ _ _ _ _ _ _ t c l diff) in E as [(L & R & Hav) ->]; [|done..]. split; [|done].
  pose proof Hav as [Hfb Hcp Elc Eh Ea Er Hpk Hpks Hl [Hrm Hnone] Hrev].
  rewrite (filter_picked V _ t c l (fun b => Is_true b) _ Hi Ec El) in Ea
    by (intros p; unfold picked_add; by rewrite andb_True).
  rewrite (filter_picked V _ t c l (fun b => ~ Is_true b) _ Hi Ec El) in Er
    by (intros p; unfold picked_rmv; by rewrite andb_True, negb_True).
  assert (CommitHeight (RemoteCommitment (ss_db s)) = height t) as Et
    by (by rewrite (dm_remote _ _ Hdb t) by (by rewrite Ec)).
  pose proof (li_chain _ _ Hi true) as Hs. simpl in Hs. rewrite Ec in Hs.
  inversion Hs as [|? ? _ Hd]; subst. inversion Hd as [|? ? (Hht & _)]; subst.
  split; try done; try (by rewrite Elc).
  - split.
    + rewrite Elc. by apply (lc_inv_revoked V (ss_lc s) t c l).
    + rewrite Elc. split; rewrite ?Hl, ?Hrm, ?Hrev; simpl.
      * apply Hdb.
      * by intros x [= <-].
      * left. by exists c.
      * intros h x. rewrite lookup_insert_Some.
        intros [[<- _]|[_ Hx%(dm_revoked _ _ Hdb)]]; lia.
    + rewrite Elc, Eh. apply Hh.
  - destruct (revocationLog (ss_db s) !! height t) eqn:Eq; [|done].
    apply (dm_revoked _ _ Hdb) in Eq. lia.
  - destruct Hfb as [Hag Hm]. split; [done|]. intros p pd pd' H1' H2'.
    destruct (Hm p pd pd' H1' H2') as [? ->]. split; [done|]. f_equal.
    by apply (locked_in_picked V _ t c l).
  - rewrite Elc. apply Hcp.
  - intros n. rewrite Elc. unfold room. simpl. destruct Hcp as [_ _ _ _ _ [-> ->] [-> ->]]. done.
Qed.

Lemma revocation_ok V s msg db s' pkg adds rmvs htlcs :
  session_inv V s -> ReceiveRevocation s msg db = (s', Ok (pkg, adds, rmvs, htlcs)) ->
  (exists t c, acknowledged V s s' pkg adds rmvs t c) /\
  RemoteCurrentRevocation s = Some (ComputeCommitmentPoint (Revocation msg)).
Proof.
  intros [Hi Hdb Hh]. unfold ReceiveRevocation.
  destruct (_ ≫= _) as [store|e|]; [|done|done].
  destruct (RemoteCurrentRevocation s) as [point|]; [|done].
  case_bool_decide as Hp; [|done]. simpl. intros E. split; [|by rewrite Hp].
  set (s1 := set_revocations _ _ _ _) in E.
  apply (advance_ok V) in E as (t & c & [] & _); [|done]. exists t, c. by split.
Qed.

(** ** Histories *)

Inductive dance_op :=
  | DUpdate (op : chan_op)
  | DSign (db : res unit)
  | DReceive (commitSig : list byte) (htlcSigs : list (list byte))
  | DRevoke (db : res unit)
  | DRevoked (msg : RevokeAndAck) (db : res unit).

(** One step and the entries it hands over for forwarding.  An update that is refused
    changes nothing and the session goes on. *)
Definition dance_step (op : dance_op) (s : session) : session * res (list ptr) :=
  match op with
  | DUpdate op =>
      let '(lc, r) := chan_step op (ss_lc s) in
      (set_lc s lc, match r with Panic => Panic | _ => Ok [] end)
  | DSign db => let '(s', r) := SignNextCommitment s db in (s', _ ← r; Ok [])
  | DReceive sg hs => let '(s', r) := ReceiveNewCommitment s sg hs in (s', _ ← r; Ok [])
  | DRevoke db => let '(s', r) := RevokeCurrentCommitment s db in (s', _ ← r; Ok [])
  | DRevoked msg db =>
      let '(s', r) := ReceiveRevocation s msg db in
      (s', '(_, adds, rmvs, _) ← r; Ok (adds ++ rmvs))
  end.

(** The session ends with the first commitment step that fails. *)
Fixpoint dance_run (ops : list dance_op) (s : session) : res (session * list ptr) :=
  match ops with
  | [] => Ok (s, [])
  | op :: ops' =>
      let '(s1, r) := dance_step op s in
      fwd ← r;
      '(s', rest) ← dance_run ops' s1;
      Ok (s', fwd ++ rest)
  end.

(** What a step or a history guarantees. *)
Record danced (V : Z) (s s' : session) (fwd : list ptr) : Prop := {
  dn_inv : session_inv V s';
  dn_nodup : NoDup fwd;
  dn_fresh : forall p pd, p ∈ fwd -> lc_heap (ss_lc s) !! p = Some pd -> isForwarded pd = false;
  dn_done : forall p, p ∈ fwd ->
    exists pd', lc_heap (ss_lc s') !! p = Some pd' /\ isForwarded pd' = true;
  dn_marks : forall p pd, lc_heap (ss_lc s) !! p = Some pd ->
    exists pd', lc_heap (ss_lc s') !! p = Some pd' /\
      isForwarded pd' = isForwarded pd || bool_decide (p ∈ fwd);
  dn_revoked : revocationLog (ss_db s) ⊆ revocationLog (ss_db s');
}.

Lemma danced_quiet V s s' :
  session_inv V s' -> keeps_marks (lc_heap (ss_lc s)) (lc_heap (ss_lc s')) ->
  revocationLog (ss_db s') = revocationLog (ss_db s) -> danced V s s' [].
Proof.
  intros Hi Hm Hr. split; [done|constructor|by intros p pd ?%elem_of_nil|by intros p ?%elem_of_nil| |by rewrite Hr].
  intros p pd Hp. destruct (Hm p pd Hp) as (pd' & ? & E). exists pd'. split; [done|].
  by rewrite E, bool_decide_false, orb_false_r by apply not_elem_of_nil.
Qed.

Lemma keeps_marks_refl h : keeps_marks h h.
Proof. intros p pd Hp. by exists pd. Qed.

Lemma update_danced V s op n s' fwd :
  session_inv V s -> room (n + 1) (ss_lc s) -> 0 <= n -> dance_step (DUpdate op) s = (s', Ok fwd) ->
  danced V s s' fwd /\ room n (ss_lc s').
Proof.
  intros [Hi Hdb Hh] Hroom Hn. simpl. destruct (chan_step op (ss_lc s)) as [lc r] eqn:E.
  apply chan_step_ok in E; [|apply Hi|by eapply room_le; [|exact Hroom]; lia].
  destruct r as [u|e|]; [| |done]; intros [= <- <-]; simpl in E.
  - destruct E as [Hk Hr Hl Hrm [new Hpre]]. split; [|by apply Hr].
    apply danced_quiet; simpl; [|intros p pd Hp|done].
    + split; simpl.
      * eapply lc_inv_updated; [exact Hi|]. split; try done. by exists new.
      * destruct Hk as [_ _ El Er _ _ _ _ _]. destruct Hdb as [D1 D2 D3 D4].
        split; rewrite ?El, ?Er; done.
      * by rewrite (kp_lchain _ _ Hk).
    + exists pd. split; [|done]. rewrite Hpre. by apply lookup_app_l_Some.
  - subst lc. split; [|by eapply room_le; [|exact Hroom]; lia].
    apply danced_quiet; [|apply keeps_marks_refl|done]. by split.
Qed.

Lemma revoked_danced V s msg db s' fwd n :
  session_inv V s -> dance_step (DRevoked msg db) s = (s', Ok fwd) -> room n (ss_lc s) ->
  danced V s s' fwd /\ room n (ss_lc s').
Proof.
  intros Hinv. simpl. destruct (ReceiveRevocation s msg db) as [s1 r] eqn:E.
  destruct r as [[[[pkg adds] rmvs] htlcs]|e|]; [|done|done]. rsimpl. intros [= <- <-] Hroom.
  apply (revocation_ok V) in E as [(t & c & Hk) _]; [|done].
  pose proof (ak_adds _ _ _ _ _ _ _ _ Hk) as Ea. pose proof (ak_rmvs _ _ _ _ _ _ _ _ Hk) as Er.
  pose proof (cw_logs _ (li_wf _ _ (si_lc _ _ Hinv))) as Hw.
  assert (forall p, p ∈ adds ++ rmvs ->
    locked_in (lc_heap (ss_lc s)) (theirMessageIndex t) (theirMessageIndex c) p
    /\ p ∈ ul_list (remoteUpdateLog (ss_lc s))) as Hsel.
  { intros p. rewrite Ea, Er, elem_of_app, !list_elem_of_filter. tauto. }
  destruct (ak_heap _ _ _ _ _ _ _ _ Hk) as [Hag Hm]. split; [|by apply Hk]. split.
  - apply Hk.
  - rewrite Ea, Er. apply NoDup_app.
    split; [apply NoDup_filter, Hw|]. split; [|apply NoDup_filter, Hw].
    intros p [[_ H1'] _]%list_elem_of_filter [[_ H2'] _]%list_elem_of_filter. done.
  - intros p pd Hp Hpd.
    destruct (Hsel p Hp) as [Hlk Hin]. unfold locked_in in Hlk. rewrite Hpd, !andb_True, !Is_true_true, Z.leb_le in Hlk.
    rewrite (li_forwarded _ _ (si_lc _ _ Hinv) p pd t Hin Hpd)
      by (by rewrite (ak_before _ _ _ _ _ _ _ _ Hk)).
    apply bool_decide_eq_false. lia.
  - intros p Hp. destruct (Hsel p Hp) as [_ [pd Hpd]%(lw_heap _ _ (gw_remote _ _ _ Hw))].
    destruct (proj2 (Hag true) p pd Hpd) as (pd' & Hp' & _). exists pd'. split; [done|].
    destruct (Hm p pd pd' Hpd Hp') as [_ ->]. by rewrite bool_decide_true, orb_true_r.
  - intros p pd Hp. destruct (proj2 (Hag true) p pd Hp) as (pd' & Hp' & _). exists pd'.
    split; [done|]. by destruct (Hm p pd pd' Hp Hp') as [_ ->].
  - rewrite (ak_revoked _ _ _ _ _ _ _ _ Hk). apply insert_subseteq, Hk.
Qed.

Lemma step_danced V s op n s' fwd :
  session_inv V s -> room (n + 1) (ss_lc s) -> 0 <= n -> dance_step op s = (s', Ok fwd) ->
  danced V s s' fwd /\ room n (ss_lc s').
Proof.
  intros Hinv Hroom Hn. assert (room n (ss_lc s)) as Hroom' by (eapply room_le; [|exact Hroom]; lia).
  destruct op as [op|db|sg hs|db|msg db].
  - by apply update_danced.
  - simpl. destruct (SignNextCommitment s db) as [s1 r] eqn:E. destruct r as [x|e|]; [|done|done].
    rsimpl. intros [= <- <-]. apply (sign_ok V) in E as (t & c & Hk); [|done].
    split; [apply danced_quiet; apply Hk|]. unfold room in *.
    by destruct (sg_logs _ _ _ _ _ Hk) as [-> ->].
  - simpl. destruct (ReceiveNewCommitment s sg hs) as [s1 r] eqn:E. destruct r as [[]|e|]; [|done|done].
    rsimpl. intros [= <- <-]. apply (receive_ok V) in E as (c & Hk); [|done].
    split; [apply danced_quiet; [apply Hk|apply Hk|by rewrite (rv_db _ _ _ _ Hk)]|]. unfold room in *.
    by destruct (rv_logs _ _ _ _ Hk) as [-> ->].
  - simpl. destruct (RevokeCurrentCommitment s db) as [s1 r] eqn:E.
    destruct r as [[msg htlcs]|e|]; [|done|done]. rsimpl. intros [= <- <-].
    apply (revoke_ok V) in E as (t & l & Hk & _); [|done].
    destruct (ro_rest _ _ _ _ _ _ Hk) as (Eh & El & Er).
    split; [apply danced_quiet; [apply Hk|rewrite Eh; apply keeps_marks_refl|apply Hk]|].
    unfold room in *. by rewrite El, Er.
  - intros E. by eapply revoked_danced.
Qed.

Lemma run_danced V ops s s' fwd :
  session_inv V s -> room (Z.of_nat (length ops)) (ss_lc s) -> dance_run ops s = Ok (s', fwd) ->
  danced V s s' fwd.
Proof.
  revert s s' fwd. induction ops as [|op ops IH]; intros s s' fwd Hinv Hroom; simpl.
  { intros [= <- <-]. apply danced_quiet; [done|apply keeps_marks_refl|done]. }
  destruct (dance_step op s) as [s1 r] eqn:E1. destruct r as [f1|e|]; [|done|done]. rsimpl.
  destruct (dance_run ops s1) as [[s2 f2]|e|] eqn:E2; [|done|done]. rsimpl. intros [= <- <-].
  apply (step_danced V _ _ (Z.of_nat (length ops))) in E1 as [[I1 N1 F1 G1 M1 R1] Hr];
    [|done|by (eapply room_le; [|exact Hroom]; simpl; lia)|lia].
  apply IH in E2 as [I2 N2 F2 G2 M2 R2]; [|done|done]. split; [done| | | | |by etrans].
  - apply NoDup_app. split; [done|]. split; [|done]. intros p H1' H2'.
    destruct (G1 p H1') as (pd1 & Hp1 & E). pose proof (F2 p pd1 H2' Hp1). congruence.
  - intros p pd [Hp|Hp]%elem_of_app Hpd; [by eapply F1|].
    destruct (M1 p pd Hpd) as (pd1 & Hp1 & E). pose proof (F2 p pd1 Hp Hp1) as E'.
    rewrite E' in E. symmetry in E. by apply orb_false_elim in E as [? _].
  - intros p [Hp|Hp]%elem_of_app; [|by apply G2]. destruct (G1 p Hp) as (pd1 & Hp1 & E).
    destruct (M2 p pd1 Hp1) as (pd2 & Hp2 & E'). exists pd2. split; [done|]. by rewrite E', E.
  - intros p pd Hpd. destruct (M1 p pd Hpd) as (pd1 & Hp1 & E).
    destruct (M2 p pd1 Hp1) as (pd2 & Hp2 & E'). exists pd2. split; [done|].
    rewrite E', E, <- orb_assoc. f_equal. apply eq_true_iff_eq.
    rewrite orb_true_iff, !bool_decide_eq_true, elem_of_app. done.
Qed.

End Steps.
