(* ===== verification/CommitThms.v ===== *)
(** * The commitment state machine: what signing and revoking guarantee

    The claims about commitment transactions and about the commitment dance, with a
    session on which they are evaluated. *)

From Stdlib Require Import Lia.
From S2P Require Import Prelude Sha256 Shachain Ids Amounts UpdateLog Channel ChannelEval ChannelInv ChannelCompact ChannelThms CommitTx CommitTxInv CommitDance CommitInv DanceInv DanceRun.

(** The HTLCs with an output are those the transaction was built with. *)
Lemma filter_has_output cs c incoming h h' ps :
  heap_scripted h h' ->
  filter (has_output (ChanType cs) c incoming) (deref h' ps)
  = deref h' (filter (is_nondust cs incoming (isOurs c) (feePerKB c) (dustLimit c) h) ps).
Proof.
  intros Hs. unfold deref. induction ps as [|p ps IH]; [done|]. simpl.
  pose proof (is_nondust_scripted cs incoming (isOurs c) (feePerKB c) (dustLimit c) h h' p Hs) as E.
  unfold is_nondust in E at 1. destruct (h' !! p) as [pd|] eqn:Hp.
  - fold (has_output (ChanType cs) c incoming pd) in E. rewrite !filter_cons.
    rewrite <- E. case_decide; simpl; rewrite ?Hp; [f_equal|]; exact IH.
  - rewrite (filter_cons_False _ p) by (rewrite <- E; simpl; tauto). apply IH.
Qed.

Section Claims.
Context `{Hasher} `{Scripts} `{Crypto}.

(** ** Commitment transactions *)

(** Both parties build the same transaction: outputs that are the same up to their
    order, with the same expiries, are put into the same order. *)
Theorem commit_sort_canonical (tx tx' : MsgTx) (cltvs cltvs' : list Z)
    (Hin : MsgTx_TxIn tx = MsgTx_TxIn tx') (Hlock : LockTime tx = LockTime tx')
    (Hl : length (MsgTx_TxOut tx) = length cltvs) (Hl' : length (MsgTx_TxOut tx') = length cltvs')
    (Hver : Forall (fun o => TxOut_Version o = scriptVersion) (MsgTx_TxOut tx))
    (Hperm : zip (MsgTx_TxOut tx) cltvs ≡ₚ zip (MsgTx_TxOut tx') cltvs') :
  InPlaceCommitSort tx cltvs = InPlaceCommitSort tx' cltvs'.
Proof.
  unfold InPlaceCommitSort. rewrite !(proj2 (Nat.eqb_eq _ _)) by done. simpl.
  rewrite (go_sort_canonical _ (zip (MsgTx_TxOut tx') cltvs') scriptVersion), Hin, Hlock; [done| |done].
  intros [o z] Ho%elem_of_zip_l. by eapply Forall_forall in Hver.
Qed.

(** The number of a state that is hidden in its transaction is read back with the
    same obfuscator, for every number the hint can hold; larger numbers are refused. *)
Theorem state_hint_roundtrip (tx : MsgTx) (i : TxIn) (n : Z) (obf : list byte)
    (Hobf : length obf = 6%nat) (Hn : 0 <= n) (Hin : MsgTx_TxIn tx = [i]) :
  match SetStateNumHint tx n obf with
  | Ok tx' => n <= maxStateHint /\ GetStateNumHint tx' obf = Ok n /\ MsgTx_TxOut tx' = MsgTx_TxOut tx
  | Err e => maxStateHint < n
  | Panic => False
  end.
Proof.
  destruct (Z.le_gt_cases n maxStateHint) as [Hm|Hm].
  - destruct (GetSet_hint tx n obf Hobf ltac:(lia) ltac:(eauto)) as (tx' & -> & ? & ? & _). done.
  - unfold SetStateNumHint. by rewrite (proj2 (Z.ltb_lt _ _)).
Qed.

(** C25. Every HTLC that is not dust gets an output of its own.  On a commitment
    transaction that was built, the search for the outputs succeeds; each HTLC finds an
    output with its script, its value in atoms and its expiry, and no two HTLCs, of
    either direction, find the same one.  (HTLCs with the same script, value and expiry
    have the same payment hash, which the script contains.) *)
Theorem htlc_outputs_distinct (cs : OpenChannel) (obf : list byte) (h h' : pd_heap)
    (our their rate height_ : Z) (c : commitment) (v : htlcView) (keyRing : CommitmentKeyRing)
    (u : unsignedCommitmentTx)
    (Hnd : NoDup (ourUpdates v ++ theirUpdates v))
    (Hbuilt : createUnsignedCommitmentTx cs obf h our their (isOurs c) rate height_ v keyRing
              = (h', Ok u))
    (Htx : txn c = uc_txn u) (Hrate : feePerKB c = rate)
    (Hdust : dustLimit c = DustLimit (if isOurs c then LocalChanCfg cs else RemoteChanCfg cs))
    (Hout : outgoingHTLCs c = deref h' (ourUpdates v))
    (Hinc : incomingHTLCs c = deref h' (theirUpdates v))
    (Hsize : Z.of_nat (length (uc_cltvs u)) < 2 ^ 31)
    (Hbind : forall a b, a ∈ deref h' (ourUpdates v ++ theirUpdates v) ->
       b ∈ deref h' (ourUpdates v ++ theirUpdates v) ->
       htlc_key (isOurs c) a = htlc_key (isOurs c) b -> RHash a = RHash b) :
  exists c', populateHtlcIndexes c (ChanType cs) (uc_cltvs u) = Ok c' /\
    htlcs_placed (ChanType cs) (uc_cltvs u) c c'.
Proof.
  apply createUnsigned_ok in Hbuilt as [Hs _ _ Hlen _ _ (other & Hkeys) _ _]; [|done].
  apply (populateHtlcIndexes_ok c (ChanType cs) (uc_cltvs u) other).
  - by rewrite Htx.
  - done.
  - rewrite Htx, <- Hkeys, Hout, Hinc. unfold view_outputs. rewrite <- Hrate, <- Hdust, deref_app.
    by rewrite !(filter_has_output _ _ _ h h').
  - intros a b Ha Hb. apply Hbind; rewrite deref_app, <- Hout, <- Hinc; rewrite !elem_of_app in *;
      rewrite !list_elem_of_filter in *; tauto.
Qed.

(** ** The commitment dance *)

(** C1. Value is conserved.  Over every history of updates, signatures, commitments
    received, and revocations sent and received, the channel's invariant is kept; in
    particular both balances, the fee and the HTLCs in flight add up to the same amount
    [V] on the newest commitment of either chain, in 64-bit arithmetic.  (In no history
    does the initiator's balance fall short of the fee: the checks before each
    commitment rule it out.) *)
Theorem dance_conserves (V : Z) (ops : list dance_op) (s s' : session) (fwd : list ptr)
    (Hinv : session_inv V s) (Hroom : room (Z.of_nat (length ops)) (ss_lc s))
    (Hrun : dance_run ops s = Ok (s', fwd)) :
  session_inv V s' /\
  forall rc c, tip (commitChain (ss_lc s') rc) = Ok c -> cong (chain_value (ss_lc s') rc c) V.
Proof.
  apply (run_danced V) in Hrun as [Hi _ _ _ _ _]; [|done|done]. split; [done|].
  intros rc c. apply (li_value _ _ (si_lc _ _ Hi)).
Qed.

(** C16. The database always holds what the chains hold.  After every history the stored
    local and remote commitments are the tails of the two chains, a commitment is stored
    as pending exactly when the remote chain has one that is not yet acknowledged, and it
    is that one; so the next HTLC index read from the database is the one the newest
    remote commitment was signed with. *)
Theorem database_mirrors (V : Z) (ops : list dance_op) (s s' : session) (fwd : list ptr)
    (cl cr ct : commitment)
    (Hinv : session_inv V s) (Hroom : room (Z.of_nat (length ops)) (ss_lc s))
    (Hrun : dance_run ops s = Ok (s', fwd))
    (Hcl : tail (localCommitChain (ss_lc s')) = Ok cl)
    (Hcr : tail (remoteCommitChain (ss_lc s')) = Ok cr)
    (Hct : tip (remoteCommitChain (ss_lc s')) = Ok ct) :
  let d := ss_db s' in
  LocalCommitment d = toDiskCommit cl true /\ RemoteCommitment d = toDiskCommit cr false /\
  match commitDiff d with
  | None => remoteCommitChain (ss_lc s') = [cr]
  | Some diff => remoteCommitChain (ss_lc s') = [cr; ct] /\
                 cd_Commitment diff = toDiskCommit ct false
  end /\
  NextLocalHtlcIndex d = ourHtlcIndex ct.
Proof.
  intros d. apply (run_danced V) in Hrun as [Hi _ _ _ _ _]; [|done|done].
  destruct (si_db _ _ Hi) as [D1 D2 D3 _]. split; [by apply D1|]. split; [by apply D2|].
  unfold NextLocalHtlcIndex.
  destruct D3 as [(c & Ec & Ed)|(t & c & diff & Ec & Ed & Ediff)]; unfold d; rewrite Ec, Ed in *.
  - injection Hcr as ->. injection Hct as ->. split; [done|]. by rewrite (D2 ct).
  - injection Hcr as ->. injection Hct as ->. split; [done|]. by rewrite Ediff.
Qed.

(** C2. Forwarding is exact.  A revocation that is accepted reveals the secret of the
    commitment at the tail of the other party's chain and is answered only when a newer
    commitment is pending.  It hands over, in the order of their log, exactly the updates
    of the other party that lie between the two commitments, fee updates excepted:
    additions and removals apart, the same ones in the package that is stored. *)
Theorem revocation_forwards_exactly (V : Z) (s s' : session) (msg : RevokeAndAck) (db : res unit)
    (pkg : fwd_package) (adds rmvs : list ptr) (htlcs : list HTLC)
    (Hinv : session_inv V s)
    (Hrev : ReceiveRevocation s msg db = (s', Ok (pkg, adds, rmvs, htlcs))) :
  let lc := ss_lc s in
  RemoteCurrentRevocation s = Some (ComputeCommitmentPoint (Revocation msg)) /\
  exists t c, remoteCommitChain lc = [t; c] /\
    let window p := locked_in (lc_heap lc) (theirMessageIndex t) (theirMessageIndex c) p in
    adds = filter (fun p => window p /\ is_add (lc_heap lc) p) (ul_list (remoteUpdateLog lc)) /\
    rmvs = filter (fun p => window p /\ ~ is_add (lc_heap lc) p) (ul_list (remoteUpdateLog lc)) /\
    fp_Height pkg = height c /\
    fp_Adds pkg = to_log_update <$> deref (lc_heap lc) adds /\
    fp_SettleFails pkg = to_log_update <$> deref (lc_heap lc) rmvs /\
    db_FwdPkgs (ss_db s') = db_FwdPkgs (ss_db s) ++ [pkg].
Proof.
  intros lc. apply (revocation_ok V) in Hrev as [(t & c & Hk) Hp]; [|done]. split; [done|].
  exists t, c. destruct Hk as [_ ? _ _ Ea Er (? & ? & ?) ? _ _ _ _ _]. auto 10.
Qed.

(** C8. Over every history no update of the other party is forwarded twice.  What is
    forwarded was not marked as forwarded at the start, and is at the end. *)
Theorem forwarded_once (V : Z) (ops : list dance_op) (s s' : session) (fwd : list ptr)
    (Hinv : session_inv V s) (Hroom : room (Z.of_nat (length ops)) (ss_lc s))
    (Hrun : dance_run ops s = Ok (s', fwd)) :
  NoDup fwd /\
  (forall p pd, p ∈ fwd -> lc_heap (ss_lc s) !! p = Some pd -> isForwarded pd = false) /\
  (forall p, p ∈ fwd -> exists pd, lc_heap (ss_lc s') !! p = Some pd /\ isForwarded pd = true).
Proof. by apply (run_danced V) in Hrun as [_ ? ? ? _ _]. Qed.

(** C23. Revoked states are recorded once and kept.  Over every history nothing recorded
    in the revocation log changes or disappears; and a revocation that is accepted
    records the revoked commitment of the other party at its height, where nothing was
    recorded before. *)
Theorem revoked_states_kept (V : Z) (ops : list dance_op) (s s1 s2 : session) (fwd : list ptr)
    (msg : RevokeAndAck) (db : res unit) (pkg : fwd_package) (adds rmvs : list ptr)
    (htlcs : list HTLC)
    (Hinv : session_inv V s) (Hroom : room (Z.of_nat (length ops)) (ss_lc s))
    (Hrun : dance_run ops s = Ok (s1, fwd))
    (Hrev : ReceiveRevocation s1 msg db = (s2, Ok (pkg, adds, rmvs, htlcs))) :
  revocationLog (ss_db s) ⊆ revocationLog (ss_db s1) /\
  exists t, tail (remoteCommitChain (ss_lc s1)) = Ok t /\
    revocationLog (ss_db s1) !! height t = None /\
    revocationLog (ss_db s2)
    = <[height t := toDiskCommit t false]> (revocationLog (ss_db s1)).
Proof.
  apply (run_danced V) in Hrun as [Hi _ _ _ _ Hsub]; [|done|done]. split; [done|].
  apply (revocation_ok V) in Hrev as [(t & c & Hk) _]; [|done]. exists t.
  split; [by rewrite (ak_before _ _ _ _ _ _ _ _ Hk)|]. split; apply Hk.
Qed.

(** C18. Revoking reveals the secret of the oldest commitment of our chain and no other:
    every commitment that stays is newer, and the stored local commitment is the oldest
    of those. *)
Theorem revoke_reveals_tail (V : Z) (s s' : session) (db : res unit) (msg : RevokeAndAck)
    (htlcs : list HTLC)
    (Hinv : session_inv V s)
    (Hrev : RevokeCurrentCommitment s db = (s', Ok (msg, htlcs))) :
  exists t x l, localCommitChain (ss_lc s) = t :: x :: l /\
    localCommitChain (ss_lc s') = x :: l /\
    AtIndex (ss_Producer s) (height t) = Ok (Revocation msg) /\
    Forall (fun c => height t < height c) (x :: l) /\
    LocalCommitment (ss_db s') = toDiskCommit x true.
Proof.
  apply (revoke_ok V) in Hrev as (t & l0 & Hk & _); [|done].
  destruct Hk as [Hi' Eb Ea Hsec _ _ _].
  destruct l0 as [|x l].
  { destruct (chain_tail _ false (li_wf _ _ (si_lc _ _ Hi'))) as [y Hy]. simpl in Hy.
    by rewrite Ea in Hy. }
  exists t, x, l. do 3 (split; [done|]). split.
  - pose proof (li_chain _ _ (si_lc _ _ Hinv) false) as Hs. simpl in Hs. rewrite Eb in Hs.
    inversion Hs as [|? ? Hs' Hd]; subst. inversion Hd as [|? ? (Hx & _)]; subst.
    apply chain_strongly in Hs'. inversion Hs' as [|? ? _ Hall]; subst.
    constructor; [lia|]. eapply Forall_impl; [exact Hall|]. intros c (? & _). lia.
  - apply (dm_local _ _ (si_db _ _ Hi')). by rewrite Ea.
Qed.

(** C35. What is stored for retransmission is exact.  A signature stores, with the new
    commitment of the other party, exactly the updates of ours that it adds, in the order
    of our log: those not below the message index of the commitment before. *)
Theorem commit_diff_exact (V : Z) (s s' : session) (db : res unit)
    (sigs : list byte * list (list byte) * list HTLC)
    (Hinv : session_inv V s) (Hsign : SignNextCommitment s db = (s', Ok sigs)) :
  let lc := ss_lc s' in
  exists t c diff, remoteCommitChain (ss_lc s) = [t] /\ remoteCommitChain lc = [t; c] /\
    ourMessageIndex c = logIndex (localUpdateLog lc) /\
    commitDiff (ss_db s') = Some diff /\ cd_Commitment diff = toDiskCommit c false /\
    cd_LogUpdates diff = to_log_update <$> filter (fun pd => ourMessageIndex t <= LogIndex pd)
      (deref (lc_heap lc) (ul_list (localUpdateLog lc))).
Proof.
  intros lc. apply (sign_ok V) in Hsign as (t & c & Hk); [|done].
  destruct (sg_diff _ _ _ _ _ Hk) as (diff & Ed & Ec & El). destruct (sg_logs _ _ _ _ _ Hk) as [Eg _].
  assert (ourMessageIndex c = logIndex (localUpdateLog lc)) as Eo
    by (unfold lc; rewrite Eg; apply Hk).
  exists t, c, diff. do 2 (split; [apply Hk|]). do 3 (split; [done|]). rewrite El. f_equal.
  apply filter_ext_in. intros pd (p & Hp & Hpd)%elem_of_deref.
  by eapply (fresh_updates V); [apply Hk|apply Hk| | |].
Qed.

(** A channel that reports itself clean is at rest: each chain has one commitment,
    both contain every update of both logs, and no HTLC is stored on both. *)
Theorem clean_at_rest (V : Z) (s : session) (Hinv : session_inv V s)
    (Hclean : IsChannelClean s = Ok true) :
  exists cl cr, localCommitChain (ss_lc s) = [cl] /\ remoteCommitChain (ss_lc s) = [cr] /\
    ourMessageIndex cl = logIndex (localUpdateLog (ss_lc s)) /\
    ourMessageIndex cr = logIndex (localUpdateLog (ss_lc s)) /\
    theirMessageIndex cl = logIndex (remoteUpdateLog (ss_lc s)) /\
    theirMessageIndex cr = logIndex (remoteUpdateLog (ss_lc s)) /\
    ActiveHtlcs (ss_db s) = [].
Proof.
  revert Hclean. unfold IsChannelClean, oweCommitment, hasUnackedCommitment.
  pose proof (li_wf _ _ (si_lc _ _ Hinv)) as Hwf.
  destruct (cw_tip _ Hwf false) as (cl & Hcl & _). destruct (cw_tip _ Hwf true) as (cr & Hcr & _).
  simpl in Hcl, Hcr. rewrite Hcl, Hcr. rsimpl.
  destruct (localCommitChain (ss_lc s)) as [|x [|]]; [done| |done]. injection Hcl as ->.
  destruct (remoteCommitChain (ss_lc s)) as [|y [|]]; [done| |done]. injection Hcr as ->. simpl.
  destruct (ActiveHtlcs (ss_db s)) as [|]; [|done]. simpl.
  rsimpl. destruct (negb (_ =? ourMessageIndex cr) || _) eqn:E1; [done|]. rsimpl.
  destruct (negb (_ =? theirMessageIndex cl) || _) eqn:E2; [done|].
  intros _. rewrite orb_false_iff, !negb_false_iff, !Z.eqb_eq in E1, E2.
  exists cl, cr. repeat (split; [done || lia|]). done.
Qed.

End Claims.

(** ** A session without updates *)

Lemma fresh_session_inv V s cl cr li lh ri rh :
  localCommitChain (ss_lc s) = [cl] -> remoteCommitChain (ss_lc s) = [cr] ->
  localUpdateLog (ss_lc s) = newUpdateLog li lh -> remoteUpdateLog (ss_lc s) = newUpdateLog ri rh ->
  0 <= lh -> 0 <= rh -> 0 <= li -> 0 <= ri ->
  ourMessageIndex cl <= ourMessageIndex cr <= li -> theirMessageIndex cr <= theirMessageIndex cl <= ri ->
  (forall c, c ∈ [cl; cr] -> 0 <= height c < 2 ^ 64 - 1 /\ is_u64 (ourBalance c) /\
     is_u64 (theirBalance c) /\
     cong (ourBalance c + theirBalance c + NewMAtomsFromAtoms (fee c)) V) ->
  LocalCommitment (ss_db s) = toDiskCommit cl true ->
  RemoteCommitment (ss_db s) = toDiskCommit cr false ->
  commitDiff (ss_db s) = None -> revocationLog (ss_db s) = ∅ -> currentHeight s = height cl ->
  session_inv V s.
Proof.
  intros El Er Ll Lr ? ? ? ? Hour Htheir Hc Dl Dr Dp Dv Hh.
  assert (forall rc, exists c, commitChain (ss_lc s) rc = [c] /\ c ∈ [cl; cr] /\
    (rc = true -> c = cr) /\ (rc = false -> c = cl)) as Hch.
  { intros []; [exists cr|exists cl]; simpl; rewrite ?El, ?Er; set_solver. }
  split; [|split|]; rewrite ?El, ?Er.
  - split; rewrite ?El, ?Er, ?Ll, ?Lr.
    + split; rewrite ?Ll, ?Lr; [apply newUpdateLogs_wf| |done|done]. intros rc.
      destruct (Hch rc) as (c & Ec & Hin & _). exists c. rewrite Ec. split; [done|].
      split; [by apply Hc|]. split; intros p pd ?%elem_of_nil; done.
    + intros rc c. destruct (Hch rc) as (c0 & Ec & Hin & _). rewrite Ec. intros [= <-].
      unfold chain_value. rewrite Ll, Lr. simpl. rewrite Z.add_0_r. by apply Hc.
    + intros rc c. destruct (Hch rc) as (c0 & Ec & Hin & _). rewrite Ec. intros [= <-].
      split; by apply Hc.
    + intros rc. destruct (Hch rc) as (c0 & Ec & _). rewrite Ec. by repeat constructor.
    + intros rc c. destruct (Hch rc) as (c0 & Ec & Hin & _). rewrite Ec.
      intros ->%list_elem_of_singleton. by apply Hc.
    + intros c r [= <-] [= <-]. lia.
    + intros c r [= <-] [= <-]. lia.
    + intros r [= <-]. simpl. lia.
    + intros r [= <-]. simpl. lia.
    + intros rc. split; [intros p pd c|intros p pd c|intros p pd]; by intros ?%elem_of_nil.
    + intros rc. split; [intros p pd c|intros p pd c|intros p pd]; by intros ?%elem_of_nil.
    + intros p pd c ?%elem_of_nil. done.
  - by intros c [= <-].
  - by intros c [= <-].
  - left. by exists cr.
  - intros h x. by rewrite Dv, lookup_empty.
  - by intros c [= <-].
Qed.

(** ** A concrete session *)

(** Scripts that contain what they commit to; transactions of about the size the fee
    estimates assume. *)
#[local] Instance ex_scripts : Scripts :=
  {| LeaseCommitScriptToSelf a b _ _ := Ok (x01 :: a ++ b);
     input_CommitScriptToSelf _ a b := Ok (x02 :: a ++ b);
     LeaseCommitScriptToRemoteConfirmed a _ := Ok (x03 :: a);
     CommitScriptToRemoteConfirmed a := Ok (x04 :: a);
     CommitScriptUnencumbered a := Ok (x05 :: a);
     CommitScriptAnchor a := Ok (x06 :: a);
     ReceiverHTLCScript _ a b _ rh _ := Ok (x07 :: a ++ b ++ rh);
     SenderHTLCScript a b _ rh _ := Ok (x08 :: a ++ b ++ rh);
     ScriptHashPkScript s := Ok s;
     CheckTransactionSanity _ := Ok tt;
     SerializeSize tx := 60 + 36 * Z.of_nat (length (MsgTx_TxOut tx)) |}.

(** A digest that is quick to evaluate. *)
Definition ex_digest (m : list byte) : list byte :=
  take 32 ((match m with b :: m' => m' ++ [b] | [] => [] end) ++ replicate 32 x00).

Lemma length_ex_digest m : length (ex_digest m) = 32%nat.
Proof. unfold ex_digest. rewrite length_take, length_app, length_replicate. lia. Qed.

#[local] Instance ex_hasher : Hasher := {| digest := ex_digest; length_digest := length_ex_digest |}.

(** A commitment point is its secret; every signature is accepted. *)
#[local] Instance ex_crypto : Crypto :=
  {| DeriveCommitmentKeys p ours _ :=
       {| CommitPoint := p; LocalHtlcKey := [x0a]; RemoteHtlcKey := [x0b]; ToLocalKey := [x0c];
          ToRemoteKey := [x0d]; RevocationKey := [x0e] |};
     ComputeCommitmentPoint s := s;
     SignOutputRaw _ := Ok [xaa];
     SignHtlc _ _ _ _ := Ok [xbb];
     CommitSigHash _ := Ok [xcc];
     HtlcSigHash _ _ _ _ := Ok [xcd];
     ToSignature s := Ok s;
     VerifySig _ _ _ := true |}.

Definition ex_secret : list byte := replicate 32 x11.

Definition ex_session : session :=
  {| ss_lc := ex_channel;
     ss_db := {| db_Restored := false; db_Borked := false;
                 LocalCommitment := toDiskCommit (ex_commit true) true;
                 RemoteCommitment := toDiskCommit (ex_commit false) false; commitDiff := None;
                 unsignedAckedUpdates := Some []; remoteUnsignedLocalUpdates := Some [];
                 lastWasRevoke := None; revocationLog := ∅; db_FwdPkgs := []; db_AddAcks := [];
                 db_SettleFailAcks := [] |};
     currentHeight := 0; ss_obfuscator := replicate 6 x22; ss_ShortChannelID := hop_Source;
     ss_Producer := NewRevocationProducer (replicate 32 x33); ss_Store := NewRevocationStore;
     RemoteCurrentRevocation := Some ex_secret; RemoteNextRevocation := Some (replicate 32 x12) |}.

(** They add an HTLC and sign it; we revoke, sign, and they revoke. *)
Definition ex_msg : RevokeAndAck :=
  {| Revocation := ex_secret; NextRevocationKey := replicate 32 x13 |}.

Definition ex_signed : list dance_op :=
  [DUpdate (OpReceiveHTLC ex_htlc); DReceive [xaa] [[xbb]]; DRevoke (Ok tt); DSign (Ok tt)].

Definition ex_dance : list dance_op := ex_signed ++ [DRevoked ex_msg (Ok tt)].

Lemma ex_session_inv : session_inv (10 ^ 12) ex_session.
Proof.
  apply (fresh_session_inv _ _ (ex_commit true) (ex_commit false) 0 0 0 0); try done; try (simpl; lia).
  intros c Hc. assert (c = ex_commit true \/ c = ex_commit false) as [-> | ->] by set_solver;
    (split; [simpl; lia|]; split; [unfold is_u64; simpl; lia|]; split; [unfold is_u64; simpl; lia|]);
    vm_compute; reflexivity.
Qed.

Lemma ex_session_room n : 0 <= n < 2 ^ 60 -> room n (ss_lc ex_session).
Proof. apply ex_room. Qed.

(** A run that is known to succeed. *)
Definition run_ok (ops : list dance_op) : bool :=
  match dance_run ops ex_session with Ok _ => true | _ => false end.

Lemma run_ok_inv ops : run_ok ops = true -> exists s fwd, dance_run ops ex_session = Ok (s, fwd).
Proof. unfold run_ok. destruct (dance_run ops ex_session) as [[s fwd]| |]; [eauto|done|done]. Qed.

Lemma dance_conserves_witness :
  exists s' fwd, dance_run ex_dance ex_session = Ok (s', fwd) /\ session_inv (10 ^ 12) s' /\
    forall rc c, tip (commitChain (ss_lc s') rc) = Ok c ->
      cong (chain_value (ss_lc s') rc c) (10 ^ 12).
Proof.
  destruct (run_ok_inv ex_dance) as (s' & fwd & E); [vm_compute; reflexivity|].
  exists s', fwd. split; [exact E|]. apply (dance_conserves _ ex_dance ex_session s' fwd).
  - apply ex_session_inv.
  - apply ex_session_room. simpl. lia.
  - exact E.
Defined.

Lemma ex_run_inv ops s fwd :
  Z.of_nat (length ops) < 2 ^ 60 -> dance_run ops ex_session = Ok (s, fwd) -> session_inv (10 ^ 12) s.
Proof.
  intros Hl E. apply (run_danced (10 ^ 12)) in E as [Hi _ _ _ _ _]; [done|apply ex_session_inv|].
  apply ex_session_room. lia.
Qed.

Lemma database_mirrors_witness :
  exists s' fwd cl cr ct, dance_run ex_signed ex_session = Ok (s', fwd) /\
    LocalCommitment (ss_db s') = toDiskCommit cl true /\
    RemoteCommitment (ss_db s') = toDiskCommit cr false /\
    match commitDiff (ss_db s') with
    | None => remoteCommitChain (ss_lc s') = [cr]
    | Some diff => remoteCommitChain (ss_lc s') = [cr; ct] /\
                   cd_Commitment diff = toDiskCommit ct false
    end /\
    NextLocalHtlcIndex (ss_db s') = ourHtlcIndex ct.
Proof.
  destruct (run_ok_inv ex_signed) as (s' & fwd & E); [vm_compute; reflexivity|].
  pose proof (li_wf _ _ (si_lc _ _ (ex_run_inv ex_signed s' fwd ltac:(simpl; lia) E))) as Hwf.
  destruct (chain_nonempty _ false Hwf) as (cl & cl' & Hcl & _).
  destruct (chain_nonempty _ true Hwf) as (cr & ct & Hcr & Hct & _).
  exists s', fwd, cl, cr, ct. split; [exact E|].
  apply (database_mirrors (10 ^ 12) ex_signed ex_session s' fwd cl cr ct).
  - apply ex_session_inv.
  - apply ex_session_room. simpl. lia.
  - exact E.
  - exact Hcl.
  - exact Hcr.
  - exact Hct.
Defined.

(** The other party's revocation after [ops]. *)
Definition ex_revocation (ops : list dance_op) : option (session * session * fwd_package * list ptr * list ptr * list HTLC) :=
  match dance_run ops ex_session with
  | Ok (s, _) =>
      match ReceiveRevocation s ex_msg (Ok tt) with
      | (s', Ok (pkg, adds, rmvs, htlcs)) => Some (s, s', pkg, adds, rmvs, htlcs)
      | _ => None
      end
  | _ => None
  end.

Lemma ex_revocation_inv ops :
  bool_decide (is_Some (ex_revocation ops)) = true ->
  exists s fwd s' pkg adds rmvs htlcs, dance_run ops ex_session = Ok (s, fwd) /\
    ReceiveRevocation s ex_msg (Ok tt) = (s', Ok (pkg, adds, rmvs, htlcs)).
Proof.
  unfold ex_revocation. destruct (dance_run ops ex_session) as [[s fwd]|e|]; [|done|done].
  destruct (ReceiveRevocation s ex_msg (Ok tt)) as [s' [[[[pkg adds] rmvs] htlcs]|e|]] eqn:E;
    [|done|done]. intros _. exists s, fwd, s', pkg, adds, rmvs, htlcs. done.
Qed.

Lemma revocation_forwards_exactly_witness :
  exists s s' pkg adds rmvs htlcs t c,
    ReceiveRevocation s ex_msg (Ok tt) = (s', Ok (pkg, adds, rmvs, htlcs)) /\
    remoteCommitChain (ss_lc s) = [t; c] /\
    adds = filter (fun p => locked_in (lc_heap (ss_lc s)) (theirMessageIndex t)
                              (theirMessageIndex c) p /\ is_add (lc_heap (ss_lc s)) p)
             (ul_list (remoteUpdateLog (ss_lc s))).
Proof.
  destruct (ex_revocation_inv ex_signed) as (s & fwd & s' & pkg & adds & rmvs & htlcs & E & Er);
    [vm_compute; reflexivity|].
  destruct (revocation_forwards_exactly (10 ^ 12) s s' ex_msg (Ok tt) pkg adds rmvs htlcs
    (ex_run_inv ex_signed s fwd ltac:(simpl; lia) E) Er) as (_ & t & c & Ec & Ea & _).
  exists s, s', pkg, adds, rmvs, htlcs, t, c. split; [exact Er|]. split; [exact Ec|exact Ea].
Defined.

Lemma forwarded_once_witness :
  exists s' fwd, dance_run ex_dance ex_session = Ok (s', fwd) /\ NoDup fwd /\
    (forall p pd, p ∈ fwd -> lc_heap (ss_lc ex_session) !! p = Some pd -> isForwarded pd = false) /\
    (forall p, p ∈ fwd -> exists pd, lc_heap (ss_lc s') !! p = Some pd /\ isForwarded pd = true).
Proof.
  destruct (run_ok_inv ex_dance) as (s' & fwd & E); [vm_compute; reflexivity|].
  exists s', fwd. split; [exact E|]. apply (forwarded_once (10 ^ 12) ex_dance ex_session s' fwd).
  - apply ex_session_inv.
  - apply ex_session_room. simpl. lia.
  - exact E.
Defined.

Lemma revoked_states_kept_witness :
  exists s1 s2 pkg adds rmvs htlcs,
    ReceiveRevocation s1 ex_msg (Ok tt) = (s2, Ok (pkg, adds, rmvs, htlcs)) /\
    revocationLog (ss_db ex_session) ⊆ revocationLog (ss_db s1) /\
    exists t, tail (remoteCommitChain (ss_lc s1)) = Ok t /\
      revocationLog (ss_db s1) !! height t = None /\
      revocationLog (ss_db s2) = <[height t := toDiskCommit t false]> (revocationLog (ss_db s1)).
Proof.
  destruct (ex_revocation_inv ex_signed) as (s & fwd & s' & pkg & adds & rmvs & htlcs & E & Er);
    [vm_compute; reflexivity|].
  exists s, s', pkg, adds, rmvs, htlcs. split; [exact Er|].
  apply (revoked_states_kept (10 ^ 12) ex_signed ex_session s s' fwd ex_msg (Ok tt) pkg adds rmvs htlcs).
  - apply ex_session_inv.
  - apply ex_session_room. simpl. lia.
  - exact E.
  - exact Er.
Defined.

(** Our own revocation after their signature. *)
Definition ex_received : list dance_op := take 2 ex_signed.

Lemma ex_revoke_inv :
  exists s fwd s' msg htlcs, dance_run ex_received ex_session = Ok (s, fwd) /\
    RevokeCurrentCommitment s (Ok tt) = (s', Ok (msg, htlcs)).
Proof.
  assert (match dance_run ex_received ex_session with
          | Ok (s, _) => match RevokeCurrentCommitment s (Ok tt) with
                         | (_, Ok _) => true | _ => false end
          | _ => false end = true) as E by (vm_compute; reflexivity).
  destruct (dance_run ex_received ex_session) as [[s fwd]|e|]; [|done|done].
  destruct (RevokeCurrentCommitment s (Ok tt)) as [s' [[msg htlcs]|e|]] eqn:Er; [|done|done].
  exists s, fwd, s', msg, htlcs. done.
Qed.

Lemma revoke_reveals_tail_witness :
  exists s s' msg htlcs t x l, RevokeCurrentCommitment s (Ok tt) = (s', Ok (msg, htlcs)) /\
    localCommitChain (ss_lc s) = t :: x :: l /\ localCommitChain (ss_lc s') = x :: l /\
    AtIndex (ss_Producer s) (height t) = Ok (Revocation msg) /\
    Forall (fun c => height t < height c) (x :: l) /\
    LocalCommitment (ss_db s') = toDiskCommit x true.
Proof.
  destruct ex_revoke_inv as (s & fwd & s' & msg & htlcs & E & Er).
  destruct (revoke_reveals_tail (10 ^ 12) s s' (Ok tt) msg htlcs
    (ex_run_inv ex_received s fwd ltac:(simpl; lia) E) Er) as (t & x & l & Hx).
  exists s, s', msg, htlcs, t, x, l. split; [exact Er|exact Hx].
Defined.

(** Our signature after theirs. *)
Lemma ex_sign_inv :
  exists s fwd s' sigs, dance_run (take 3 ex_signed) ex_session = Ok (s, fwd) /\
    SignNextCommitment s (Ok tt) = (s', Ok sigs).
Proof.
  assert (match dance_run (take 3 ex_signed) ex_session with
          | Ok (s, _) => match SignNextCommitment s (Ok tt) with
                         | (_, Ok _) => true | _ => false end
          | _ => false end = true) as E by (vm_compute; reflexivity).
  destruct (dance_run (take 3 ex_signed) ex_session) as [[s fwd]|e|]; [|done|done].
  destruct (SignNextCommitment s (Ok tt)) as [s' [sigs|e|]] eqn:Er; [|done|done].
  exists s, fwd, s', sigs. done.
Qed.

Lemma commit_diff_exact_witness :
  exists s s' sigs t c diff, SignNextCommitment s (Ok tt) = (s', Ok sigs) /\
    remoteCommitChain (ss_lc s) = [t] /\ remoteCommitChain (ss_lc s') = [t; c] /\
    commitDiff (ss_db s') = Some diff.
Proof.
  destruct ex_sign_inv as (s & fwd & s' & sigs & E & Er).
  destruct (commit_diff_exact (10 ^ 12) s s' (Ok tt) sigs
    (ex_run_inv (take 3 ex_signed) s fwd ltac:(simpl; lia) E) Er)
    as (t & c & diff & Hb & Ha & _ & Hd & _).
  exists s, s', sigs, t, c, diff. split; [exact Er|]. split; [exact Hb|]. split; [exact Ha|exact Hd].
Defined.

Lemma clean_at_rest_witness :
  exists cl cr, localCommitChain (ss_lc ex_session) = [cl] /\
    remoteCommitChain (ss_lc ex_session) = [cr] /\
    ourMessageIndex cl = 0 /\ ourMessageIndex cr = 0 /\ theirMessageIndex cl = 0 /\
    theirMessageIndex cr = 0 /\ ActiveHtlcs (ss_db ex_session) = [].
Proof.
  apply (clean_at_rest (10 ^ 12) ex_session ex_session_inv). vm_compute. reflexivity.
Defined.

(** ** Concrete transactions *)

Definition ex_out (v : Z) (b : byte) : TxOut := {| Value := v; TxOut_Version := 0; PkScript := [b] |}.
Definition ex_in : TxIn := {| PrevHash := replicate 32 x01; PrevIndex := 0; Sequence := 0 |}.
Definition ex_tx (outs : list TxOut) : MsgTx :=
  {| MsgTx_TxIn := [ex_in]; MsgTx_TxOut := outs; LockTime := 0 |}.

Lemma commit_sort_canonical_witness :
  InPlaceCommitSort (ex_tx [ex_out 7 x02; ex_out 5 x01]) [9; 8]
  = InPlaceCommitSort (ex_tx [ex_out 5 x01; ex_out 7 x02]) [8; 9].
Proof.
  apply (commit_sort_canonical (ex_tx [ex_out 7 x02; ex_out 5 x01])
    (ex_tx [ex_out 5 x01; ex_out 7 x02]) [9; 8] [8; 9]).
  - reflexivity.
  - reflexivity.
  - reflexivity.
  - reflexivity.
  - repeat constructor.
  - constructor.
Defined.

Lemma state_hint_roundtrip_witness :
  match SetStateNumHint (ex_tx []) 12345678 (replicate 6 x22) with
  | Ok tx' => 12345678 <= maxStateHint /\ GetStateNumHint tx' (replicate 6 x22) = Ok 12345678 /\
              MsgTx_TxOut tx' = []
  | Err e => maxStateHint < 12345678
  | Panic => False
  end.
Proof.
  apply (state_hint_roundtrip (ex_tx []) ex_in 12345678 (replicate 6 x22)).
  - reflexivity.
  - lia.
  - reflexivity.
Defined.

(** Two HTLCs that cannot be told apart. *)
Definition ex_pd : PaymentDescriptor :=
  emptyPD <| Amount := 20000000 |> <| Timeout := 100 |> <| RHash := [x01] |>.

Definition ex_view : htlcView :=
  {| ourUpdates := [0%nat; 1%nat]; theirUpdates := []; view_feePerKB := 20000 |}.

Definition ex_keys : CommitmentKeyRing :=
  {| CommitPoint := []; LocalHtlcKey := [x0a]; RemoteHtlcKey := [x0b]; ToLocalKey := [x0c];
     ToRemoteKey := [x0d]; RevocationKey := [x0e] |}.

Definition ex_build : pd_heap * res unsignedCommitmentTx :=
  createUnsignedCommitmentTx (channelState ex_channel) (replicate 6 x22) [ex_pd; ex_pd]
    499960000000 500000000000 true 20000 1 ex_view ex_keys.

Definition ex_built (h : pd_heap) (u : unsignedCommitmentTx) : commitment :=
  {| height := 1; isOurs := true; ourMessageIndex := 2; theirMessageIndex := 0; ourHtlcIndex := 2;
     theirHtlcIndex := 0; txn := uc_txn u; sig := []; ourBalance := uc_ourBalance u;
     theirBalance := uc_theirBalance u; fee := uc_fee u; feePerKB := 20000; dustLimit := 6030;
     outgoingHTLCs := deref h [0%nat; 1%nat]; incomingHTLCs := []; outgoingHTLCIndex := ∅;
     incomingHTLCIndex := ∅ |}.

Lemma htlc_outputs_distinct_witness :
  exists h' u c', ex_build = (h', Ok u) /\
    populateHtlcIndexes (ex_built h' u) (ChanType (channelState ex_channel)) (uc_cltvs u) = Ok c' /\
    htlcs_placed (ChanType (channelState ex_channel)) (uc_cltvs u) (ex_built h' u) c'.
Proof.
  destruct ex_build as [h' r] eqn:E. destruct r as [u|e|];
    [|exfalso; vm_compute in E; discriminate E|exfalso; vm_compute in E; discriminate E].
  exists h', u.
  assert (Z.of_nat (length (uc_cltvs u)) < 2 ^ 31 /\
          forall a, a ∈ deref h' [0%nat; 1%nat] -> RHash a = [x01]) as [Hs Hr].
  { vm_compute in E. injection E as <- <-. split; [vm_compute; reflexivity|].
    intros a Ha. vm_compute deref in Ha. rewrite !elem_of_cons, elem_of_nil in Ha.
    destruct Ha as [-> |[-> |[]]]; reflexivity. }
  destruct (htlc_outputs_distinct (channelState ex_channel) (replicate 6 x22) [ex_pd; ex_pd] h'
    499960000000 500000000000 20000 1 (ex_built h' u) ex_view ex_keys u) as (c' & H1 & H2).
  - compute_done.
  - exact E.
  - reflexivity.
  - reflexivity.
  - reflexivity.
  - reflexivity.
  - reflexivity.
  - exact Hs.
  - intros a b Ha Hb _. rewrite (Hr a Ha), (Hr b Hb). reflexivity.
  - exists c'. split; [reflexivity|]. split; [exact H1|exact H2].
Defined.

(** ** Active HTLCs *)

(** [ActiveHtlcs] is said to return the HTLCs that are on both commitments.  It compares
    digests of onion packets only, so an HTLC that is on our commitment alone is returned
    when another HTLC with the same packet is on theirs. *)
Theorem active_by_onion `{Hasher} :
  let htlc i := {| disk_Signature := []; disk_RHash := [x01]; disk_Amt := 1000;
                   disk_RefundTimeout := 10; disk_OutputIndex := -1; disk_Incoming := true;
                   disk_OnionBlob := [x05]; disk_HtlcIndex := i; disk_LogIndex := i |} in
  let commit htlcs := {| CommitHeight := 1; LocalLogIndex := 0; LocalHtlcIndex := 0;
                         RemoteLogIndex := 2; RemoteHtlcIndex := 2; LocalBalance := 0;
                         RemoteBalance := 0; CommitFee := 0; FeePerKB := 0;
                         CommitTx_ := ex_tx []; CommitSig := []; Htlcs := htlcs |} in
  ActiveHtlcs {| db_Restored := false; db_Borked := false; LocalCommitment := commit [htlc 0; htlc 1];
                 RemoteCommitment := commit [htlc 0]; commitDiff := None;
                 unsignedAckedUpdates := None; remoteUnsignedLocalUpdates := None;
                 lastWasRevoke := None; revocationLog := ∅; db_FwdPkgs := []; db_AddAcks := [];
                 db_SettleFailAcks := [] |} = [htlc 0; htlc 1].
Proof.
  intros htlc commit. unfold ActiveHtlcs. cbn [LocalCommitment RemoteCommitment Htlcs commit].
  rewrite !filter_cons_True by apply list_elem_of_here. done.
Qed.
