(* ===== verification/Circuit.v ===== *)
(** * Payment circuits

    [htlcswitch/circuit.go] and [htlcswitch/hop/error_encryptor.go]: the circuit the
    switch keeps for a forwarded HTLC, its error encrypter, and their serialization.

    The onion error encrypter itself belongs to the sphinx library and the extracter
    that derives it from an ephemeral key needs the node's private key: both are
    parameters. *)

From S2P Require Import Prelude Tlv Ids.

(** ** Error encrypters *)

Class Sphinx := {
  sphinx_keys :: Secp256k1;
  OnionErrorEncrypter : Type;
}.

Section Circuits.
Context `{Sphinx}.

(** The implementations of the [hop.ErrorEncrypter] interface.  A sphinx encrypter
    read from disk has no onion encrypter until it is extracted again. *)
Inductive ErrorEncrypter :=
| SphinxErrorEncrypter (onion : option OnionErrorEncrypter) (EphemeralKey : pubkey)
| MockObfuscator.

Definition EncrypterTypeNone : Z := 0.
Definition EncrypterTypeSphinx : Z := 1.
Definition EncrypterTypeMock : Z := 2.

Definition encrypter_Type (e : ErrorEncrypter) : Z :=
  match e with
  | SphinxErrorEncrypter _ _ => EncrypterTypeSphinx
  | MockObfuscator => EncrypterTypeMock
  end.

Definition encrypter_Encode (e : ErrorEncrypter) : list byte :=
  match e with
  | SphinxErrorEncrypter _ k => SerializeCompressed k
  | MockObfuscator => []
  end.

(** [SphinxErrorEncrypter.Decode]: the key of a fresh encrypter. *)
Definition sphinx_Decode (r : list byte) : res (ErrorEncrypter * list byte) :=
  '(ephemeral, r') ← read_full 33 r;
  match ParsePubKey ephemeral with
  | Some k => Ok (SphinxErrorEncrypter None k, r')
  | None => Err (Error "invalid public key")
  end.

(** [hop.ErrorEncrypterExtracter]: an encrypter, or a failure code. *)
Definition Extracter : Type := pubkey -> ErrorEncrypter + Z.

Definition Reextract (extract : Extracter) (e : ErrorEncrypter) : res ErrorEncrypter :=
  match e with
  | MockObfuscator => Ok e
  | SphinxErrorEncrypter _ k =>
      match extract k with
      | inr _ => Err (Error "unable to reconstruct onion obfuscator")
      | inl (SphinxErrorEncrypter onion _) => Ok (SphinxErrorEncrypter onion k)
      | inl MockObfuscator => Err (Error "incorrect onion error extracter")
      end
  end.

(** ** Circuits *)

Record PaymentCircuit := {
  AddRef_ : AddRef;
  Incoming : CircuitKey;
  Outgoing : option CircuitKey;
  PaymentHash : list byte;
  IncomingAmount : Z;
  OutgoingAmount : Z;
  Encrypter : option ErrorEncrypter;
  LoadedFromDisk : bool;
}.

Definition set_Outgoing (c : PaymentCircuit) (o : option CircuitKey) : PaymentCircuit :=
  {| AddRef_ := AddRef_ c; Incoming := Incoming c; Outgoing := o;
     PaymentHash := PaymentHash c; IncomingAmount := IncomingAmount c;
     OutgoingAmount := OutgoingAmount c; Encrypter := Encrypter c;
     LoadedFromDisk := LoadedFromDisk c |}.

Definition set_LoadedFromDisk (c : PaymentCircuit) (b : bool) : PaymentCircuit :=
  {| AddRef_ := AddRef_ c; Incoming := Incoming c; Outgoing := Outgoing c;
     PaymentHash := PaymentHash c; IncomingAmount := IncomingAmount c;
     OutgoingAmount := OutgoingAmount c; Encrypter := Encrypter c;
     LoadedFromDisk := b |}.

Definition set_Encrypter (c : PaymentCircuit) (e : option ErrorEncrypter) : PaymentCircuit :=
  {| AddRef_ := AddRef_ c; Incoming := Incoming c; Outgoing := Outgoing c;
     PaymentHash := PaymentHash c; IncomingAmount := IncomingAmount c;
     OutgoingAmount := OutgoingAmount c; Encrypter := e;
     LoadedFromDisk := LoadedFromDisk c |}.

Definition EmptyCircuitKey : CircuitKey := {| ChanID := hop_Source; HtlcID := 0 |}.

Definition HasKeystone (c : PaymentCircuit) : bool :=
  match Outgoing c with Some _ => true | None => false end.

Definition InKey (c : PaymentCircuit) : CircuitKey := Incoming c.

Definition OutKey (c : PaymentCircuit) : CircuitKey :=
  match Outgoing c with Some k => k | None => EmptyCircuitKey end.

(** The fields of an [htlcPacket] a circuit is made from. *)
Record htlcPacket := {
  sourceRef : option AddRef;
  incomingChanID : ShortChannelID;
  incomingHTLCID : Z;
  incomingAmount : Z;
  amount : Z;
  obfuscator : option ErrorEncrypter;
}.

Definition newPaymentCircuit (hash : list byte) (pkt : htlcPacket) : PaymentCircuit :=
  {| AddRef_ := default {| AddRef_Height := 0; AddRef_Index := 0 |} (sourceRef pkt);
     Incoming := {| ChanID := incomingChanID pkt; HtlcID := incomingHTLCID pkt |};
     Outgoing := None; PaymentHash := hash;
     IncomingAmount := incomingAmount pkt; OutgoingAmount := amount pkt;
     Encrypter := obfuscator pkt; LoadedFromDisk := false |}.

Definition Encode (c : PaymentCircuit) : list byte :=
  AddRef_Encode (AddRef_ c) ++ CircuitKey_Encode (Incoming c) ++ PaymentHash c ++
  be_bytes 8 (IncomingAmount c) ++ be_bytes 8 (OutgoingAmount c) ++
  match Encrypter c with
  | None => be_bytes 1 EncrypterTypeNone
  | Some e => be_bytes 1 (encrypter_Type e) ++ encrypter_Encode e
  end.

Definition Decode (r : list byte) : res (PaymentCircuit * list byte) :=
  '(addRef, r) ← AddRef_Decode r;
  '(incoming, r) ← CircuitKey_Decode r;
  '(hash, r) ← read_full 32 r;
  '(inAmt, r) ← read_be 8 r;
  '(outAmt, r) ← read_be 8 r;
  '(encrypterType, r) ← read_be 1 r;
  let c e :=
    {| AddRef_ := addRef; Incoming := incoming; Outgoing := None; PaymentHash := hash;
       IncomingAmount := inAmt; OutgoingAmount := outAmt; Encrypter := e;
       LoadedFromDisk := false |} in
  if encrypterType =? EncrypterTypeNone then Ok (c None, r)
  else if encrypterType =? EncrypterTypeSphinx then
    '(e, r) ← sphinx_Decode r; Ok (c (Some e), r)
  else if encrypterType =? EncrypterTypeMock then Ok (c (Some MockObfuscator), r)
  else Err (Error "UnknownEncrypterType").

(** [circuitMap.decodeCircuit]. *)
Definition decodeCircuit (extract : Extracter) (v : list byte) : res PaymentCircuit :=
  '(circuit, _) ← Decode v;
  match Encrypter circuit with
  | None => Ok circuit
  | Some e => e' ← Reextract extract e; Ok (set_Encrypter circuit (Some e'))
  end.

(** ** Round trip *)

Definition wf_circuit (c : PaymentCircuit) : Prop :=
  valid_addref (AddRef_ c) /\ valid_key (Incoming c) /\ length (PaymentHash c) = 32%nat /\
  is_u64 (IncomingAmount c) /\ is_u64 (OutgoingAmount c).

(** The extracter derives again the encrypter the circuit was created with. *)
Definition extractable (extract : Extracter) (c : PaymentCircuit) : Prop :=
  match Encrypter c with
  | Some (SphinxErrorEncrypter o k) =>
      exists k', extract k = inl (SphinxErrorEncrypter o k')
  | _ => True
  end.

Lemma sphinx_Decode_Encode o k r :
  sphinx_Decode (encrypter_Encode (SphinxErrorEncrypter o k) ++ r) =
  Ok (SphinxErrorEncrypter None k, r).
Proof.
  unfold sphinx_Decode. cbn [encrypter_Encode].
  rewrite read_full_app' by apply length_SerializeCompressed. rsimpl.
  by rewrite ParsePubKey_Serialize.
Qed.

Lemma decodeCircuit_Encode extract c :
  wf_circuit c -> extractable extract c ->
  decodeCircuit extract (Encode c) = Ok (set_LoadedFromDisk (set_Outgoing c None) false).
Proof.
  intros (Ha & Hk & Hh & Hi & Ho) Hex. unfold decodeCircuit, Decode, Encode.
  rewrite AddRef_Decode_Encode by done. rsimpl.
  rewrite CircuitKey_Decode_Encode by done. rsimpl.
  rewrite read_full_app' by done. rsimpl.
  rewrite read_be_app by exact Hi. rsimpl.
  rewrite read_be_app by exact Ho. rsimpl.
  unfold extractable in Hex. destruct c as [a i og h ia oa e l]; cbn in *.
  destruct e as [[o k|]|].
  - rewrite read_be_app by done. rsimpl. cbn [encrypter_Type EncrypterTypeSphinx Z.eqb].
    pose proof (sphinx_Decode_Encode o k []) as Hd. rewrite app_nil_r in Hd. simpl Z.eqb.
    rewrite Hd. destruct Hex as (k2 & Hex). simpl. rewrite Hex. done.
  - rewrite read_be_app by done. done.
  - pose proof (read_be_app 1 EncrypterTypeNone []) as Hr. rewrite app_nil_r in Hr.
    rewrite Hr by done. done.
Qed.

End Circuits.

(** A circuit written to disk and decoded, with its error encrypter extracted
    again, is the circuit that was written, except that it has no outgoing key (which
    is stored apart, as a keystone) and does not remember having been loaded. *)
Theorem circuit_disk_roundtrip `{Sphinx} (extract : Extracter) (c : PaymentCircuit) :
  wf_circuit c -> extractable extract c ->
  decodeCircuit extract (Encode c) = Ok (set_LoadedFromDisk (set_Outgoing c None) false).
Proof. apply decodeCircuit_Encode. Qed.

(** Encrypters that carry a number, on top of the example keys. *)
#[export] Instance toy_sphinx : Sphinx :=
  {| sphinx_keys := toy_secp256k1; OnionErrorEncrypter := nat |}.

Definition toy_pubkey : @pubkey toy_secp256k1 :=
  dexist (P := fun b : list byte => length b = 33%nat) (replicate 33 x02) eq_refl.

Definition toy_extract : @Extracter toy_sphinx :=
  fun k => inl (@SphinxErrorEncrypter toy_sphinx (Some 5%nat) k).

Definition toy_circuit : @PaymentCircuit toy_sphinx :=
  {| AddRef_ := {| AddRef_Height := 3; AddRef_Index := 1 |};
     Incoming := {| ChanID := {| BlockHeight := 1; TxIndex := 2; TxPosition := 3 |}; HtlcID := 4 |};
     Outgoing := Some {| ChanID := {| BlockHeight := 5; TxIndex := 6; TxPosition := 7 |}; HtlcID := 8 |};
     PaymentHash := replicate 32 x11; IncomingAmount := 1000; OutgoingAmount := 990;
     Encrypter := Some (@SphinxErrorEncrypter toy_sphinx (Some 5%nat) toy_pubkey);
     LoadedFromDisk := true |}.

Lemma toy_circuit_wf : wf_circuit toy_circuit.
Proof. unfold wf_circuit, valid_addref, valid_key, valid_scid, is_u64, is_u16; simpl. split_and!; lia || done. Qed.

Lemma circuit_disk_roundtrip_witness :
  wf_circuit toy_circuit /\ extractable toy_extract toy_circuit /\
  decodeCircuit toy_extract (Encode toy_circuit) =
    Ok (set_LoadedFromDisk (set_Outgoing toy_circuit None) false).
Proof.
  assert (extractable toy_extract toy_circuit) as He by (exists toy_pubkey; reflexivity).
  split; [exact toy_circuit_wf|]. split; [exact He|].
  exact (circuit_disk_roundtrip toy_extract toy_circuit toy_circuit_wf He).
Defined.
