(* ===== verification/CircuitMap.v ===== *)
(** * The circuit map of the switch

    [htlcswitch/circuit_map.go].  Circuits are shared objects: the pending map, the
    opened map and the callers hold pointers to the same [PaymentCircuit], so the
    model has a heap of circuits and the maps hold references.  The two buckets on
    disk are [disk_adds] (encoded circuits under their incoming key) and
    [disk_keystones] (incoming key under the outgoing key); keys are written in their
    16-byte form, an order-preserving code.  Whether a database transaction fails is
    an input ([None], or the error it returns); a failing transaction changes
    nothing.

    The mutex makes each in-memory phase atomic; every operation below runs its
    phases without another operation in between. *)

From S2P Require Import Prelude Tlv Ids Circuit.

Section CircuitMaps.
Context `{Sphinx}.

(** ** State *)

Record circuitMap := CircuitMap {
  heap : gmap nat PaymentCircuit;
  pending : gmap CircuitKey nat;
  opened : gmap CircuitKey nat;
  closed : gset CircuitKey;
  hashIndex : gmap (list byte) (gset CircuitKey);
  disk_adds : gmap CircuitKey (list byte);
  disk_keystones : gmap CircuitKey CircuitKey;
}.

Definition set_heap (cm : circuitMap) x :=
  CircuitMap x (pending cm) (opened cm) (closed cm) (hashIndex cm) (disk_adds cm) (disk_keystones cm).
Definition set_pending (cm : circuitMap) x :=
  CircuitMap (heap cm) x (opened cm) (closed cm) (hashIndex cm) (disk_adds cm) (disk_keystones cm).
Definition set_opened (cm : circuitMap) x :=
  CircuitMap (heap cm) (pending cm) x (closed cm) (hashIndex cm) (disk_adds cm) (disk_keystones cm).
Definition set_closed (cm : circuitMap) x :=
  CircuitMap (heap cm) (pending cm) (opened cm) x (hashIndex cm) (disk_adds cm) (disk_keystones cm).
Definition set_hashIndex (cm : circuitMap) x :=
  CircuitMap (heap cm) (pending cm) (opened cm) (closed cm) x (disk_adds cm) (disk_keystones cm).
Definition set_disk_adds (cm : circuitMap) x :=
  CircuitMap (heap cm) (pending cm) (opened cm) (closed cm) (hashIndex cm) x (disk_keystones cm).
Definition set_disk_keystones (cm : circuitMap) x :=
  CircuitMap (heap cm) (pending cm) (opened cm) (closed cm) (hashIndex cm) (disk_adds cm) x.

Definition ErrUnknownCircuit : error := Error "ErrUnknownCircuit".
Definition ErrCircuitClosing : error := Error "ErrCircuitClosing".
Definition ErrDuplicateKeystone : error := Error "ErrDuplicateKeystone".

(** Dereferences a circuit pointer. *)
Definition deref (cm : circuitMap) (r : nat) : res PaymentCircuit :=
  match heap cm !! r with Some c => Ok c | None => Panic end.

(** ** Hash index *)

Definition addCircuitToHashIndex (cm : circuitMap) (c : PaymentCircuit) : circuitMap :=
  set_hashIndex cm
    (<[PaymentHash c := {[ OutKey c ]} ∪ default ∅ (hashIndex cm !! PaymentHash c)]> (hashIndex cm)).

Definition removeCircuitFromHashIndex (cm : circuitMap) (c : PaymentCircuit) : circuitMap :=
  match hashIndex cm !! PaymentHash c with
  | None => cm
  | Some circuitsWithHash =>
      let rest := circuitsWithHash ∖ {[ OutKey c ]} in
      if bool_decide (rest = ∅) then set_hashIndex cm (delete (PaymentHash c) (hashIndex cm))
      else set_hashIndex cm (<[PaymentHash c := rest]> (hashIndex cm))
  end.

(** ** Lookups *)

Definition LookupCircuit (cm : circuitMap) (inKey : CircuitKey) : option nat := pending cm !! inKey.
Definition LookupOpenCircuit (cm : circuitMap) (outKey : CircuitKey) : option nat :=
  opened cm !! outKey.

Definition LookupByPaymentHash (cm : circuitMap) (hash : list byte) : list nat :=
  match hashIndex cm !! hash with
  | None => []
  | Some circuitSet => omap (fun key => opened cm !! key) (elements circuitSet)
  end.

Definition NumPending (cm : circuitMap) : nat := size (pending cm).
Definition NumOpen (cm : circuitMap) : nat := size (opened cm).

(** ** Committing *)

Record CircuitFwdActions := { Adds : list nat; Drops : list nat; Fails : list nat }.

(** The four sub-sequences the first loop of [CommitCircuits] builds. *)
Record commit_split := Split {
  s_adds : list nat; s_drops : list nat; s_fails : list nat; s_addFails : list nat }.

Fixpoint commit_mem (cm : circuitMap) (circuits : list nat) (s : commit_split)
    : res (circuitMap * commit_split) :=
  match circuits with
  | [] => Ok (cm, s)
  | r :: rest =>
      circuit ← deref cm r;
      match pending cm !! InKey circuit with
      | Some found =>
          foundCircuit ← deref cm found;
          if HasKeystone foundCircuit then
            commit_mem cm rest (Split (s_adds s) (s_drops s ++ [r]) (s_fails s) (s_addFails s))
          else if negb (LoadedFromDisk foundCircuit) then
            commit_mem cm rest (Split (s_adds s) (s_drops s ++ [r]) (s_fails s) (s_addFails s))
          else
            commit_mem cm rest
              (Split (s_adds s) (s_drops s) (s_fails s ++ [r]) (s_addFails s ++ [r]))
      | None =>
          commit_mem (set_pending cm (<[InKey circuit := r]> (pending cm))) rest
            (Split (s_adds s ++ [r]) (s_drops s) (s_fails s) (s_addFails s ++ [r]))
      end
  end.

(** The puts of the batch write. *)
Fixpoint put_adds (cm : circuitMap) (adds : list nat) : res circuitMap :=
  match adds with
  | [] => Ok cm
  | r :: rest =>
      circuit ← deref cm r;
      put_adds (set_disk_adds cm (<[InKey circuit := Encode circuit]> (disk_adds cm))) rest
  end.

(** The roll back of the pending set. *)
Fixpoint rollback_adds (cm : circuitMap) (adds : list nat) : res circuitMap :=
  match adds with
  | [] => Ok cm
  | r :: rest =>
      circuit ← deref cm r;
      rollback_adds (set_pending cm (delete (InKey circuit) (pending cm))) rest
  end.

Definition CommitCircuits (cm : circuitMap) (circuits : list nat) (db : option error)
    : res (circuitMap * CircuitFwdActions * option error) :=
  match circuits with
  | [] => Ok (cm, {| Adds := []; Drops := []; Fails := [] |}, None)
  | _ =>
      '(cm1, s) ← commit_mem cm circuits (Split [] [] [] []);
      match s_adds s with
      | [] => Ok (cm1, {| Adds := []; Drops := s_drops s; Fails := s_fails s |}, None)
      | _ =>
          match db with
          | None =>
              cm2 ← put_adds cm1 (s_adds s);
              Ok (cm2, {| Adds := s_adds s; Drops := s_drops s; Fails := s_fails s |}, None)
          | Some e =>
              cm2 ← rollback_adds cm1 (s_adds s);
              Ok (cm2, {| Adds := []; Drops := s_drops s; Fails := s_addFails s |}, Some e)
          end
      end
  end.

(** ** Opening *)

Record Keystone := { ks_InKey : CircuitKey; ks_OutKey : CircuitKey }.

Fixpoint check_keystones (cm : circuitMap) (keystones : list Keystone) : res (list nat) :=
  match keystones with
  | [] => Ok []
  | ks :: rest =>
      match opened cm !! ks_OutKey ks with
      | Some _ => Err ErrDuplicateKeystone
      | None =>
          match pending cm !! ks_InKey ks with
          | None => Err ErrUnknownCircuit
          | Some circuit => rs ← check_keystones cm rest; Ok (circuit :: rs)
          end
      end
  end.

Definition put_keystones (cm : circuitMap) (keystones : list Keystone) : circuitMap :=
  set_disk_keystones cm
    (foldl (fun m ks => <[ks_OutKey ks := ks_InKey ks]> m) (disk_keystones cm) keystones).

Fixpoint open_mem (cm : circuitMap) (l : list (nat * Keystone)) : res circuitMap :=
  match l with
  | [] => Ok cm
  | (r, ks) :: rest =>
      circuit ← deref cm r;
      let circuit' := set_Outgoing circuit (Some (ks_OutKey ks)) in
      let cm1 := set_heap cm (<[r := circuit']> (heap cm)) in
      let cm2 := set_opened cm1 (<[ks_OutKey ks := r]> (opened cm1)) in
      open_mem (addCircuitToHashIndex cm2 circuit') rest
  end.

Definition OpenCircuits (cm : circuitMap) (keystones : list Keystone) (db : option error)
    : res (circuitMap * option error) :=
  match keystones with
  | [] => Ok (cm, None)
  | _ =>
      match check_keystones cm keystones with
      | Err e => Ok (cm, Some e)
      | Panic => Panic
      | Ok openedCircuits =>
          match db with
          | Some e => Ok (cm, Some e)
          | None =>
              cm' ← open_mem (put_keystones cm keystones) (zip openedCircuits keystones);
              Ok (cm', None)
          end
      end
  end.

(** ** Closing *)

Definition FailCircuit (cm : circuitMap) (inKey : CircuitKey) : circuitMap * res nat :=
  match pending cm !! inKey with
  | None => (cm, Err ErrUnknownCircuit)
  | Some circuit =>
      if bool_decide (inKey ∈ closed cm) then (cm, Err ErrCircuitClosing)
      else (set_closed cm ({[ inKey ]} ∪ closed cm), Ok circuit)
  end.

Definition CloseCircuit (cm : circuitMap) (outKey : CircuitKey) : circuitMap * res nat :=
  match opened cm !! outKey with
  | None => (cm, Err ErrUnknownCircuit)
  | Some r =>
      match deref cm r with
      | Ok circuit =>
          if bool_decide (Incoming circuit ∈ closed cm) then (cm, Err ErrCircuitClosing)
          else (set_closed cm ({[ Incoming circuit ]} ∪ closed cm), Ok r)
      | _ => (cm, Panic)
      end
  end.

(** ** Deleting *)

(** The first loop of [DeleteCircuits]. *)
Fixpoint delete_mem (cm : circuitMap) (inKeys : list CircuitKey)
    (closing : gset CircuitKey) (removed : gmap CircuitKey nat)
    : res (circuitMap * gset CircuitKey * gmap CircuitKey nat) :=
  match inKeys with
  | [] => Ok (cm, closing, removed)
  | inKey :: rest =>
      match pending cm !! inKey with
      | None => delete_mem cm rest closing removed
      | Some r =>
          circuit ← deref cm r;
          let cm1 := set_pending cm (delete inKey (pending cm)) in
          let '(cm2, closing2) :=
            if bool_decide (inKey ∈ closed cm1)
            then (set_closed cm1 (closed cm1 ∖ {[ inKey ]}), {[ inKey ]} ∪ closing)
            else (cm1, closing) in
          let cm3 :=
            if HasKeystone circuit
            then removeCircuitFromHashIndex
                   (set_opened cm2 (delete (OutKey circuit) (opened cm2))) circuit
            else cm2 in
          delete_mem cm3 rest closing2 (<[inKey := r]> removed)
      end
  end.

(** The transaction over the removed circuits. *)
Fixpoint delete_disk (cm : circuitMap) (removed : list (CircuitKey * nat)) : res circuitMap :=
  match removed with
  | [] => Ok cm
  | (_, r) :: rest =>
      circuit ← deref cm r;
      let cm1 :=
        if HasKeystone circuit
        then set_disk_keystones cm (delete (OutKey circuit) (disk_keystones cm)) else cm in
      delete_disk (set_disk_adds cm1 (delete (InKey circuit) (disk_adds cm1))) rest
  end.

(** The roll back of the in-memory state. *)
Fixpoint restore_removed (cm : circuitMap) (closing : gset CircuitKey)
    (removed : list (CircuitKey * nat)) : res circuitMap :=
  match removed with
  | [] => Ok cm
  | (inKey, r) :: rest =>
      circuit ← deref cm r;
      let cm1 := set_pending cm (<[inKey := r]> (pending cm)) in
      let cm2 :=
        if bool_decide (inKey ∈ closing) then set_closed cm1 ({[ inKey ]} ∪ closed cm1) else cm1 in
      let cm3 :=
        if HasKeystone circuit
        then addCircuitToHashIndex (set_opened cm2 (<[OutKey circuit := r]> (opened cm2))) circuit
        else cm2 in
      restore_removed cm3 closing rest
  end.

Definition DeleteCircuits (cm : circuitMap) (inKeys : list CircuitKey) (db : option error)
    : res (circuitMap * option error) :=
  '(cm1, closing, removed) ← delete_mem cm inKeys ∅ ∅;
  match db with
  | None => cm2 ← delete_disk cm1 (map_to_list removed); Ok (cm2, None)
  | Some e => cm2 ← restore_removed cm1 closing (map_to_list removed); Ok (cm2, Some e)
  end.

(** ** Trimming *)

(** The scan of [TrimOpenCircuits]; each round removes an entry of the opened map, so
    [fuel] above its size is never exhausted. *)
Fixpoint trim_mem (fuel : nat) (cm : circuitMap) (chanID : ShortChannelID) (i : Z)
    (trimmed : list CircuitKey) : res (circuitMap * list CircuitKey) :=
  match fuel with
  | O => Panic
  | S fuel' =>
      let outKey := {| ChanID := chanID; HtlcID := i |} in
      match opened cm !! outKey with
      | None => Ok (cm, trimmed)
      | Some r =>
          circuit ← deref cm r;
          let circuit' := set_Outgoing circuit None in
          let cm1 := set_heap cm (<[r := circuit']> (heap cm)) in
          let cm2 := set_opened cm1 (delete outKey (opened cm1)) in
          trim_mem fuel' (removeCircuitFromHashIndex cm2 circuit') chanID (u64 (i + 1))
            (trimmed ++ [outKey])
      end
  end.

Definition TrimOpenCircuits (cm : circuitMap) (chanID : ShortChannelID) (start : Z)
    (db : option error) : res (circuitMap * option error) :=
  '(cm1, trimmedOutKeys) ← trim_mem (S (size (opened cm))) cm chanID start [];
  match trimmedOutKeys with
  | [] => Ok (cm1, None)
  | _ =>
      match db with
      | Some e => Ok (cm1, Some e)
      | None =>
          Ok (set_disk_keystones cm1
                (foldl (fun m k => delete k m) (disk_keystones cm1) trimmedOutKeys), None)
      end
  end.

(** ** Start-up *)

(** [ForEach] on a bucket keyed by circuit keys: big-endian byte order. *)
Definition key_num (k : CircuitKey) : Z := ToUint64 (ChanID k) * 2 ^ 64 + HtlcID k.
Definition entry_le {V} (a b : CircuitKey * V) : Prop := key_num a.1 <= key_num b.1.
#[export] Instance entry_le_dec {V} : RelDecision (@entry_le V).
Proof. intros a b. unfold entry_le. apply _. Defined.
Definition key_entries {V} (m : gmap CircuitKey V) : list (CircuitKey * V) :=
  merge_sort entry_le (map_to_list m).

(** [isClosedChannel]: the zero id never is. *)
Definition isClosedChannel (closedChanIDSet : gset ShortChannelID) (chanID : ShortChannelID) : bool :=
  if ToUint64 chanID =? 0 then false else bool_decide (chanID ∈ closedChanIDSet).

(** The scan of the circuit bucket. *)
Fixpoint scan_circuits (extract : Extracter) (ids : gset ShortChannelID)
    (entries : list (CircuitKey * list byte)) (circuitKeySet : gset CircuitKey)
    : res (gset CircuitKey) :=
  match entries with
  | [] => Ok circuitKeySet
  | (_, v) :: rest =>
      circuit ← decodeCircuit extract v;
      scan_circuits extract ids rest
        (if isClosedChannel ids (ChanID (Incoming circuit))
         then {[ Incoming circuit ]} ∪ circuitKeySet else circuitKeySet)
  end.

(** The scan of the keystone bucket. *)
Fixpoint scan_keystones (ids : gset ShortChannelID) (entries : list (CircuitKey * CircuitKey))
    (circuitKeySet keystoneKeySet : gset CircuitKey) : gset CircuitKey * gset CircuitKey :=
  match entries with
  | [] => (circuitKeySet, keystoneKeySet)
  | (outKey, inKey) :: rest =>
      if isClosedChannel ids (ChanID inKey) then
        scan_keystones ids rest ({[ inKey ]} ∪ circuitKeySet) ({[ outKey ]} ∪ keystoneKeySet)
      else if isClosedChannel ids (ChanID outKey) then
        scan_keystones ids rest ({[ inKey ]} ∪ circuitKeySet) ({[ outKey ]} ∪ keystoneKeySet)
      else scan_keystones ids rest circuitKeySet keystoneKeySet
  end.

(** [closedChannels] are the close summaries: the id and whether the close is
    pending. *)
Definition cleanClosedChannels (extract : Extracter) (cm : circuitMap)
    (closedChannels : list (ShortChannelID * bool)) (db : option error)
    : res circuitMap :=
  let closedChanIDSet : gset ShortChannelID :=
    list_to_set (base.filter (fun x => x.2 = false) closedChannels).*1 in
  if bool_decide (closedChanIDSet = ∅) then Ok cm
  else
    circuitKeySet ← scan_circuits extract closedChanIDSet (key_entries (disk_adds cm)) ∅;
    let '(circuitKeySet, keystoneKeySet) :=
      scan_keystones closedChanIDSet (key_entries (disk_keystones cm)) circuitKeySet ∅ in
    match db with
    | Some e => Err e
    | None =>
        let cm1 := set_disk_adds cm
          (foldr delete (disk_adds cm) (elements circuitKeySet)) in
        Ok (set_disk_keystones cm1 (foldr delete (disk_keystones cm1) (elements keystoneKeySet)))
    end.

(** The circuits of the bucket become fresh objects. *)
Fixpoint restore_pending (extract : Extracter) (entries : list (CircuitKey * list byte))
    (next : nat) (h : gmap nat PaymentCircuit) (p : gmap CircuitKey nat)
    : res (gmap nat PaymentCircuit * gmap CircuitKey nat) :=
  match entries with
  | [] => Ok (h, p)
  | (_, v) :: rest =>
      circuit ← decodeCircuit extract v;
      let circuit' := set_LoadedFromDisk circuit true in
      restore_pending extract rest (S next) (<[next := circuit']> h)
        (<[Incoming circuit' := next]> p)
  end.

Fixpoint restore_opened (entries : list (CircuitKey * CircuitKey))
    (h : gmap nat PaymentCircuit) (p o : gmap CircuitKey nat) (stray : list Keystone)
    : res (gmap nat PaymentCircuit * gmap CircuitKey nat * list Keystone) :=
  match entries with
  | [] => Ok (h, o, stray)
  | (outKey, inKey) :: rest =>
      match p !! inKey with
      | Some r =>
          match h !! r with
          | None => Panic
          | Some circuit =>
              restore_opened rest (<[r := set_Outgoing circuit (Some outKey)]> h) p
                (<[outKey := r]> o) stray
          end
      | None =>
          restore_opened rest h p o (stray ++ [{| ks_InKey := inKey; ks_OutKey := outKey |}])
      end
  end.

(** Stray keystones are pruned only when their outgoing channel is the zero id. *)
Definition prune_stray (m : gmap CircuitKey CircuitKey) (stray : list Keystone)
    : gmap CircuitKey CircuitKey :=
  foldl (fun m ks =>
           if bool_decide (ChanID (ks_OutKey ks) = hop_Source)
           then delete (ks_OutKey ks) m else m) m stray.

Fixpoint index_opened (cm : circuitMap) (l : list (CircuitKey * nat)) : res circuitMap :=
  match l with
  | [] => Ok cm
  | (_, r) :: rest => c ← deref cm r; index_opened (addCircuitToHashIndex cm c) rest
  end.

Definition restoreMemState (extract : Extracter) (cm : circuitMap) (db : option error)
    : res circuitMap :=
  '(h, p) ← restore_pending extract (key_entries (disk_adds cm)) 0 ∅ ∅;
  '(h', o, stray) ← restore_opened (key_entries (disk_keystones cm)) h p ∅ [];
  match db with
  | Some e => Err e
  | None =>
      index_opened
        (CircuitMap h' p o ∅ ∅ (disk_adds cm) (prune_stray (disk_keystones cm) stray))
        (map_to_list o)
  end.

(** An open channel as the start-up sees it. *)
Record active_channel := {
  ch_IsPending : bool;
  ch_ShortChanID : ShortChannelID;
  ch_NextLocalHtlcIndex : res Z;
}.

(** [db] is the outcome of the transaction of each trim. *)
Fixpoint trimAllOpenCircuits (cm : circuitMap) (activeChannels : list active_channel)
    (db : ShortChannelID -> option error) : res circuitMap :=
  match activeChannels with
  | [] => Ok cm
  | ch :: rest =>
      if ch_IsPending ch then trimAllOpenCircuits cm rest db
      else if bool_decide (ch_ShortChanID ch = hop_Source) then trimAllOpenCircuits cm rest db
      else
        start ← ch_NextLocalHtlcIndex ch;
        '(cm', err) ← TrimOpenCircuits cm (ch_ShortChanID ch) start (db (ch_ShortChanID ch));
        match err with
        | Some e => Err e
        | None => trimAllOpenCircuits cm' rest db
        end
  end.

(** [disk] is a map whose buckets were initialized; its memory is not read. *)
Definition NewCircuitMap (extract : Extracter) (disk : circuitMap)
    (closedChannels : list (ShortChannelID * bool)) (activeChannels : list active_channel)
    (db_clean db_restore : option error) (db_trim : ShortChannelID -> option error)
    : res circuitMap :=
  cm1 ← cleanClosedChannels extract disk closedChannels db_clean;
  cm2 ← restoreMemState extract cm1 db_restore;
  trimAllOpenCircuits cm2 activeChannels db_trim.

End CircuitMaps.
