(* ===== verification/CircuitMapInv.v ===== *)
(** * Correctness of the circuit map

    The invariant that ties the memory of the circuit map ([CircuitMap]) to its two
    buckets on disk, its preservation by every operation and by a restart, and the
    theorems on committing, closing, deleting, trimming and recovering circuits. *)

From S2P Require Import Prelude Tlv Ids Circuit CircuitMap.

(** ** The invariant *)

Section Invariant.
Context `{Sphinx}.

(** The hash index as a set of pairs. *)
Definition in_index (hi : gmap (list byte) (gset CircuitKey)) (h : list byte) (o : CircuitKey) : Prop :=
  exists S, hi !! h = Some S /\ o ∈ S.

(** What holds of the memory between operations: a pending circuit is filed under its
    incoming key; an opened circuit is a pending one, filed under its own outgoing key
    and findable by its payment hash; only pending circuits are closing; the hash
    index has no empty sets. *)
Record mem_inv (cm : circuitMap) : Prop := {
  inv_pending : forall k r, pending cm !! k = Some r ->
    exists c, heap cm !! r = Some c /\ Incoming c = k;
  inv_opened : forall o r, opened cm !! o = Some r ->
    exists c, heap cm !! r = Some c /\ Outgoing c = Some o /\ o <> EmptyCircuitKey /\
      pending cm !! Incoming c = Some r;
  inv_keystone : forall k r c o, pending cm !! k = Some r -> heap cm !! r = Some c ->
    Outgoing c = Some o -> opened cm !! o = Some r;
  inv_closed : forall k, k ∈ closed cm -> is_Some (pending cm !! k);
  inv_index : forall o r c, opened cm !! o = Some r -> heap cm !! r = Some c ->
    in_index (hashIndex cm) (PaymentHash c) o;
  inv_index_ne : forall h S, hashIndex cm !! h = Some S -> S <> ∅;
}.

(** The circuit bucket mirrors the pending map, the keystone bucket the opened map. *)
Definition disk_inv (cm : circuitMap) : Prop :=
  (forall k, disk_adds cm !! k = pending cm !! k ≫= fun r => Encode <$> heap cm !! r) /\
  (forall o, disk_keystones cm !! o = opened cm !! o ≫= fun r => Incoming <$> heap cm !! r).

Definition inv (cm : circuitMap) : Prop := mem_inv cm /\ disk_inv cm.

Definition empty_map : circuitMap := CircuitMap ∅ ∅ ∅ ∅ ∅ ∅ ∅.

Lemma empty_map_inv : inv empty_map.
Proof. split; [split; set_solver | split; done]. Qed.

Lemma deref_ok cm r c : deref cm r = Ok c <-> heap cm !! r = Some c.
Proof. unfold deref. destruct (heap cm !! r); split; congruence. Qed.

(** *** The hash index *)

Lemma in_index_add cm c h o :
  in_index (hashIndex (addCircuitToHashIndex cm c)) h o <->
  in_index (hashIndex cm) h o \/ (h = PaymentHash c /\ o = OutKey c).
Proof.
  unfold in_index, addCircuitToHashIndex. cbn [hashIndex set_hashIndex].
  destruct (decide (PaymentHash c = h)) as [Heq|Hne].
  - subst h. rewrite lookup_insert_eq.
    destruct (hashIndex cm !! PaymentHash c) as [S|]; simpl; naive_solver set_solver.
  - rewrite lookup_insert_ne by done. naive_solver.
Qed.

Lemma index_ne_add cm c :
  (forall h S, hashIndex cm !! h = Some S -> S <> ∅) ->
  forall h S, hashIndex (addCircuitToHashIndex cm c) !! h = Some S -> S <> ∅.
Proof.
  intros Hne h S. unfold addCircuitToHashIndex. cbn [hashIndex set_hashIndex].
  intros [(-> & <-)|(_ & HS)]%lookup_insert_Some; [set_solver | by eapply Hne].
Qed.

Lemma in_index_remove cm c h o :
  in_index (hashIndex (removeCircuitFromHashIndex cm c)) h o <->
  in_index (hashIndex cm) h o /\ ~ (h = PaymentHash c /\ o = OutKey c).
Proof.
  unfold in_index, removeCircuitFromHashIndex.
  destruct (hashIndex cm !! PaymentHash c) as [S0|] eqn:HS0; [|naive_solver].
  case_bool_decide as Hrest; cbn [hashIndex set_hashIndex];
    (destruct (decide (PaymentHash c = h)) as [Heq|Hne];
      [subst h|rewrite ?lookup_delete_ne, ?lookup_insert_ne by done; naive_solver]).
  - rewrite lookup_delete_eq, HS0. split; [naive_solver|].
    intros ((S & [= <-] & Ho) & Hn). exfalso.
    assert (o ∈ S0 ∖ {[OutKey c]}) as Hin by set_solver. rewrite Hrest in Hin. set_solver.
  - rewrite lookup_insert_eq, HS0. split.
    + intros (S & [= <-] & Ho). set_solver.
    + intros ((S & [= <-] & Ho) & Hn). eexists. split; [done|]. set_solver.
Qed.

Lemma index_ne_remove cm c :
  (forall h S, hashIndex cm !! h = Some S -> S <> ∅) ->
  forall h S, hashIndex (removeCircuitFromHashIndex cm c) !! h = Some S -> S <> ∅.
Proof.
  intros Hne h S. unfold removeCircuitFromHashIndex.
  destruct (hashIndex cm !! PaymentHash c) as [S0|] eqn:HS0; [|apply Hne].
  case_bool_decide as Hrest; cbn [hashIndex set_hashIndex].
  - intros [_ HS]%lookup_delete_Some. by eapply Hne.
  - intros [(_ & <-)|(_ & HS)]%lookup_insert_Some; [done | by eapply Hne].
Qed.

(** An index without empty sets is determined by its pairs. *)
Lemma index_ext (hi hj : gmap (list byte) (gset CircuitKey)) :
  (forall h S, hi !! h = Some S -> S <> ∅) -> (forall h S, hj !! h = Some S -> S <> ∅) ->
  (forall h o, in_index hi h o <-> in_index hj h o) -> hi = hj.
Proof.
  intros Hi Hj Hext. apply map_eq. intros h.
  destruct (hi !! h) as [S|] eqn:HS, (hj !! h) as [T|] eqn:HT; [|exfalso..|done].
  - f_equal. apply set_eq. intros o. specialize (Hext h o). unfold in_index in Hext.
    rewrite HS, HT in Hext. naive_solver.
  - destruct (set_choose_L S) as [o Ho]; [by eapply Hi|].
    destruct (proj1 (Hext h o)) as (T & HT' & _); [by exists S|]. congruence.
  - destruct (set_choose_L T) as [o Ho]; [by eapply Hj|].
    destruct (proj2 (Hext h o)) as (S & HS' & _); [by exists T|]. congruence.
Qed.

Lemma removeCircuitFromHashIndex_rest cm c :
  removeCircuitFromHashIndex cm c =
  set_hashIndex cm (hashIndex (removeCircuitFromHashIndex cm c)).
Proof.
  unfold removeCircuitFromHashIndex. destruct (hashIndex cm !! PaymentHash c); [|by destruct cm].
  by case_bool_decide.
Qed.

(** *** Committing *)

(** The incoming key of a referenced circuit. *)
Definition kin (cm : circuitMap) (r : nat) : CircuitKey :=
  from_option Incoming EmptyCircuitKey (heap cm !! r).

Definition add_map (cm : circuitMap) (rs : list nat) : gmap CircuitKey nat :=
  list_to_map ((fun r => (kin cm r, r)) <$> rs).

Lemma add_map_cons cm r rs : add_map cm (r :: rs) = <[kin cm r := r]> (add_map cm rs).
Proof. done. Qed.

Lemma add_map_None cm rs k : k ∉ kin cm <$> rs -> add_map cm rs !! k = None.
Proof.
  intros Hk. apply not_elem_of_list_to_map_1. rewrite <- list_fmap_compose. done.
Qed.

Lemma kin_deref cm r c : deref cm r = Ok c -> kin cm r = InKey c.
Proof. intros Hd%deref_ok. unfold kin. by rewrite Hd. Qed.

(** How the first loop of [CommitCircuits] splits a batch: [found] is the circuit
    pending under the same key when the batch has been merged. *)
Definition dropped (cm cm' : circuitMap) (r : nat) : Prop :=
  exists found c, pending cm' !! kin cm r = Some found /\ heap cm !! found = Some c /\
    (HasKeystone c = true \/ LoadedFromDisk c = false).
Definition failed (cm cm' : circuitMap) (r : nat) : Prop :=
  exists found c, pending cm' !! kin cm r = Some found /\ heap cm !! found = Some c /\
    HasKeystone c = false /\ LoadedFromDisk c = true.

Record commit_result (cm cm' : circuitMap) (circuits adds drops fails addFails : list nat) : Prop := {
  cr_state : cm' = set_pending cm (add_map cm adds ∪ pending cm);
  cr_keys : NoDup (kin cm <$> adds);
  cr_new : Forall (fun r => pending cm !! kin cm r = None /\ is_Some (heap cm !! r)) adds;
  cr_drops : Forall (dropped cm cm') drops;
  cr_fails : Forall (failed cm cm') fails;
  cr_adds_sub : adds `sublist_of` circuits;
  cr_drops_sub : drops `sublist_of` circuits;
  cr_fails_sub : fails `sublist_of` circuits;
  cr_perm : adds ++ drops ++ fails ≡ₚ circuits;
  cr_addFails_sub : addFails `sublist_of` circuits;
  cr_addFails : addFails ≡ₚ adds ++ fails;
}.

(** A batch whose first circuit joined an already pending one. *)
Lemma commit_result_found cm cm' r circuits adds drops fails addFails (isdrop : bool) :
  commit_result cm cm' circuits adds drops fails addFails ->
  (if isdrop then dropped cm cm' r else failed cm cm' r) ->
  commit_result cm cm' (r :: circuits) adds
    (if isdrop then r :: drops else drops) (if isdrop then fails else r :: fails)
    (if isdrop then addFails else r :: addFails).
Proof.
  intros [] Hr. destruct isdrop; split; try done;
    try (by constructor); try (by constructor 2); try (by constructor 3).
  - rewrite <- cr_perm0. symmetry. apply (Permutation_middle adds (drops ++ fails) r).
  - rewrite <- cr_perm0, !app_assoc. symmetry. apply Permutation_middle.
  - rewrite cr_addFails0. apply Permutation_middle.
Qed.

(** A batch whose first circuit is new. *)
Lemma commit_result_new cm cm1 cm' r circuits adds drops fails addFails :
  cm1 = set_pending cm (<[kin cm r := r]> (pending cm)) ->
  pending cm !! kin cm r = None -> is_Some (heap cm !! r) ->
  commit_result cm1 cm' circuits adds drops fails addFails ->
  commit_result cm cm' (r :: circuits) (r :: adds) drops fails (r :: addFails).
Proof.
  intros -> Hnone Hsome []. set (cm1 := set_pending cm _) in *.
  assert (forall x, kin cm1 x = kin cm x) as Hkin by done.
  assert (kin cm r ∉ kin cm <$> adds) as Hnotin.
  { intros Hin. apply list_elem_of_fmap in Hin as (x & Hx & Hin).
    rewrite Forall_forall in cr_new0. destruct (cr_new0 x Hin) as [Hp _].
    cbn [pending set_pending cm1] in Hp. rewrite Hkin, <- Hx, lookup_insert_eq in Hp. done. }
  assert (cr : cm' = set_pending cm (add_map cm (r :: adds) ∪ pending cm)).
  { rewrite cr_state0, add_map_cons. subst cm1. unfold set_pending; simpl. f_equal.
    rewrite <- insert_union_l, insert_union_r; [done|]. by apply add_map_None. }
  split; try done; try (by constructor 2); try (by constructor 3).
  constructor; [done|]. eapply Forall_impl; [exact cr_new0|]. intros x [Hp Hx].
  split; [|done]. cbn [pending set_pending cm1] in Hp. rewrite Hkin in Hp.
  apply lookup_insert_None in Hp. tauto.
Qed.

Lemma commit_mem_ok circuits : forall cm s cm' s',
  commit_mem cm circuits s = Ok (cm', s') ->
  exists adds drops fails addFails,
    s' = Split (s_adds s ++ adds) (s_drops s ++ drops) (s_fails s ++ fails) (s_addFails s ++ addFails) /\
    commit_result cm cm' circuits adds drops fails addFails.
Proof.
  induction circuits as [|r circuits IH]; intros cm s cm' s'; simpl.
  { intros [= <- <-]. exists [], [], [], []. rewrite !app_nil_r. split; [by destruct s|].
    split; try done; try constructor.
    unfold add_map. rewrite fmap_nil, list_to_map_nil, (left_id_L ∅ _). by destruct cm. }
  intros (circuit & Hd & Hk)%bind_ok. pose proof (kin_deref _ _ _ Hd) as Hkin.
  rewrite <- Hkin in Hk. destruct (pending cm !! kin cm r) as [found|] eqn:Hp.
  - apply bind_ok in Hk as (fc & Hfc%deref_ok & Hk).
    assert (forall s0, commit_mem cm circuits s0 = Ok (cm', s') ->
      pending cm' !! kin cm r = Some found) as Hfound.
    { intros s0 Hs0. apply IH in Hs0 as (adds & ? & ? & ? & _ & []). rewrite cr_state0. simpl.
      rewrite lookup_union_r; [done|]. apply add_map_None. intros Hin.
      apply list_elem_of_fmap in Hin as (y & Hy & Hin). rewrite Forall_forall in cr_new0.
      destruct (cr_new0 y Hin) as [Hn _]. congruence. }
    destruct (HasKeystone fc) eqn:Hks; [|destruct (LoadedFromDisk fc) eqn:Hld; simpl in Hk].
    + pose proof (Hfound _ Hk) as Hf. apply IH in Hk as (adds & drops & fails & aF & -> & Hcr).
      exists adds, (r :: drops), fails, aF. simpl. rewrite <- !app_assoc. split; [done|].
      apply (commit_result_found cm cm' r circuits adds drops fails aF true Hcr).
      exists found, fc. tauto.
    + pose proof (Hfound _ Hk) as Hf. apply IH in Hk as (adds & drops & fails & aF & -> & Hcr).
      exists adds, drops, (r :: fails), (r :: aF). simpl. rewrite <- !app_assoc. split; [done|].
      apply (commit_result_found cm cm' r circuits adds drops fails aF false Hcr).
      exists found, fc. tauto.
    + pose proof (Hfound _ Hk) as Hf. apply IH in Hk as (adds & drops & fails & aF & -> & Hcr).
      exists adds, (r :: drops), fails, aF. simpl. rewrite <- !app_assoc. split; [done|].
      apply (commit_result_found cm cm' r circuits adds drops fails aF true Hcr).
      exists found, fc. tauto.
  - apply IH in Hk as (adds & drops & fails & aF & -> & Hcr).
    exists (r :: adds), drops, fails, (r :: aF). simpl. rewrite <- !app_assoc. split; [done|].
    apply deref_ok in Hd. by eapply commit_result_new.
Qed.

(** The roll back undoes the merge; the batch write adds the encoded circuits. *)
Lemma rollback_adds_ok adds : forall cm p,
  NoDup (kin cm <$> adds) ->
  Forall (fun r => p !! kin cm r = None /\ is_Some (heap cm !! r)) adds ->
  pending cm = add_map cm adds ∪ p -> rollback_adds cm adds = Ok (set_pending cm p).
Proof.
  induction adds as [|r adds IH]; intros cm p Hnd Hf Hp; simpl.
  { unfold add_map in Hp. rewrite fmap_nil, list_to_map_nil, (left_id_L ∅ _) in Hp.
    rewrite <- Hp. by destruct cm. }
  rewrite fmap_cons in Hnd. apply NoDup_cons in Hnd as [Hnot Hnd].
  apply Forall_cons in Hf as [[Hn [c Hc]] Hf]. apply deref_ok in Hc as Hd.
  rewrite Hd. rsimpl. rewrite <- (kin_deref _ _ _ Hd).
  rewrite (IH (set_pending cm (delete (kin cm r) (pending cm))) p Hnd Hf); [done|].
  cbn [pending set_pending]. rewrite Hp, add_map_cons, <- insert_union_l.
  rewrite delete_insert_id; [done|]. apply lookup_union_None. split; [|done].
  by apply add_map_None.
Qed.

Lemma put_adds_ok adds : forall cm,
  Forall (fun r => is_Some (heap cm !! r)) adds -> NoDup (kin cm <$> adds) ->
  exists d, put_adds cm adds = Ok (set_disk_adds cm d) /\
    forall k, d !! k = match add_map cm adds !! k with
                       | Some r => Encode <$> heap cm !! r
                       | None => disk_adds cm !! k
                       end.
Proof.
  induction adds as [|r adds IH]; intros cm Hf Hnd; simpl.
  { exists (disk_adds cm). split; [by destruct cm|]. done. }
  apply Forall_cons in Hf as [[c Hc] Hf]. rewrite fmap_cons in Hnd.
  apply NoDup_cons in Hnd as [Hnot Hnd]. apply deref_ok in Hc as Hd. rewrite Hd. rsimpl.
  destruct (IH (set_disk_adds cm (<[InKey c:=Encode c]> (disk_adds cm))) Hf Hnd) as (d & Hput & Hd').
  exists d. split; [done|]. intros k. rewrite Hd', add_map_cons.
  change (add_map (set_disk_adds cm _) adds) with (add_map cm adds). cbn [heap disk_adds set_disk_adds].
  rewrite <- (kin_deref _ _ _ Hd). destruct (decide (kin cm r = k)) as [<-|Hne].
  - rewrite (add_map_None _ _ _ Hnot), !lookup_insert_eq, Hc. done.
  - by rewrite !lookup_insert_ne by done.
Qed.

(** Every circuit a caller passes is an allocated object that is not open, unless it
    is already pending. *)
Definition commit_args (cm : circuitMap) (circuits : list nat) : Prop :=
  Forall (fun r => exists c, heap cm !! r = Some c /\
    (Outgoing c = None \/ is_Some (pending cm !! Incoming c))) circuits.

Lemma set_pending_same cm : set_pending cm (pending cm) = cm.
Proof. by destruct cm. Qed.

(** The three ways [CommitCircuits] ends. *)
Lemma CommitCircuits_ok cm circuits db cm' acts err :
  CommitCircuits cm circuits db = Ok (cm', acts, err) ->
  exists cm1 adds drops fails addFails,
    commit_result cm cm1 circuits adds drops fails addFails /\
    Drops acts = drops /\
    ((err = None /\ Adds acts = adds /\ Fails acts = fails /\
       exists d, cm' = set_disk_adds cm1 d /\
         forall k, d !! k = match add_map cm adds !! k with
                            | Some r => Encode <$> heap cm !! r
                            | None => disk_adds cm !! k
                            end) \/
     (exists e, err = Some e /\ db = Some e /\ Adds acts = [] /\ Fails acts = addFails /\ cm' = cm)).
Proof.
  unfold CommitCircuits. destruct circuits as [|r circuits].
  { intros [= <- <- <-]. exists cm, [], [], [], []. split; [|split; [done|left]].
    - split; try done; try constructor.
      unfold add_map. rewrite fmap_nil, list_to_map_nil, (left_id_L ∅ _). by destruct cm.
    - split_and!; [done..|]. exists (disk_adds cm). split; [by destruct cm|done]. }
  intros ([cm1 s] & Hmem & Hk)%bind_ok.
  apply commit_mem_ok in Hmem as (adds & drops & fails & aF & -> & Hcr). simpl in Hk.
  exists cm1, adds, drops, fails, aF. split; [done|].
  destruct adds as [|a adds].
  { injection Hk as <- <- <-. split; [done|]. left. split_and!; [done..|].
    exists (disk_adds cm1). split; [by destruct cm1|]. intros k.
    by rewrite (cr_state _ _ _ _ _ _ _ Hcr). }
  pose proof Hcr as [-> Hnd Hnew _ _ _ _ _ _ _ _]. destruct db as [e|].
  - apply bind_ok in Hk as (cm2 & Hroll & [= <- <- <-]). split; [done|]. right.
    exists e. split_and!; [done..|].
    rewrite (rollback_adds_ok (a :: adds) _ (pending cm)) in Hroll; [|done..].
    injection Hroll as <-. by destruct cm.
  - apply bind_ok in Hk as (cm2 & Hput & [= <- <- <-]). split; [done|]. left.
    split_and!; [done..|].
    destruct (put_adds_ok (a :: adds) (set_pending cm (add_map cm (a :: adds) ∪ pending cm)))
      as (d & Hput' & Hd); [|done|].
    { eapply Forall_impl; [exact Hnew|]. by intros x []. }
    rewrite Hput in Hput'. injection Hput' as ->. exists d. done.
Qed.

(** The batch write returns: no pointer is nil. *)
Lemma CommitCircuits_total cm circuits db :
  mem_inv cm -> commit_args cm circuits ->
  exists cm' acts err, CommitCircuits cm circuits db = Ok (cm', acts, err).
Proof.
  intros Hinv Hargs.
  assert (forall cm s, (forall k r, pending cm !! k = Some r -> is_Some (heap cm !! r)) ->
    Forall (fun r => is_Some (heap cm !! r)) circuits ->
    exists cm' s', commit_mem cm circuits s = Ok (cm', s')) as Hmem.
  { clear. induction circuits as [|r circuits IH]; intros cm s Hp Hf; [by eexists _, _|].
    apply Forall_cons in Hf as [[c Hc] Hf]. cbn [commit_mem].
    rewrite (proj2 (deref_ok cm r c) Hc). rsimpl.
    destruct (pending cm !! InKey c) as [found|] eqn:Hfound.
    - destruct (Hp _ _ Hfound) as [fc Hfc]. rewrite (proj2 (deref_ok cm found fc) Hfc). rsimpl.
      repeat case_match; by apply IH.
    - apply IH; [|done]. simpl. intros k x [(_ & <-)|(_ & Hx)]%lookup_insert_Some;
        [by exists c | by eapply Hp]. }
  unfold CommitCircuits. destruct circuits as [|r circuits]; [by eexists _, _, _|].
  destruct (Hmem cm (Split [] [] [] [])) as (cm1 & s & Hm).
  { intros k x Hx. destruct (inv_pending _ Hinv _ _ Hx) as (c & Hc & _). by exists c. }
  { eapply Forall_impl; [exact Hargs|]. intros x (c & Hc & _). by exists c. }
  rewrite Hm. rsimpl. apply commit_mem_ok in Hm as (adds & drops & fails & aF & -> & Hcr). simpl.
  destruct adds as [|a adds]; [by eexists _, _, _|].
  pose proof Hcr as [-> Hnd Hnew _ _ _ _ _ _ _ _]. destruct db as [e|].
  - rewrite (rollback_adds_ok (a :: adds) _ (pending cm)) by done. by eexists _, _, _.
  - destruct (put_adds_ok (a :: adds) (set_pending cm (add_map cm (a :: adds) ∪ pending cm)))
      as (d & -> & _); [|done|by eexists _, _, _].
    eapply Forall_impl; [exact Hnew|]. by intros x [].
Qed.

Lemma add_map_Some cm adds k r :
  add_map cm adds !! k = Some r -> r ∈ adds /\ k = kin cm r.
Proof.
  intros Hk. apply elem_of_list_to_map_2 in Hk.
  apply list_elem_of_fmap in Hk as (x & [= -> ->] & Hx). done.
Qed.

Lemma CommitCircuits_inv cm circuits db cm' acts err :
  inv cm -> commit_args cm circuits -> CommitCircuits cm circuits db = Ok (cm', acts, err) -> inv cm'.
Proof.
  intros [Hm [Hda Hdk]] Hargs Hc.
  apply CommitCircuits_ok in Hc as (cm1 & adds & drops & fails & aF & Hcr & _ & Hcase).
  destruct Hcase as [(_ & _ & _ & d & -> & Hd)|(e & _ & _ & _ & _ & ->)]; [|by split].
  destruct Hcr as [-> Hnd Hnew _ _ Hsub _ _ _ _ _].
  assert (forall k r, (add_map cm adds ∪ pending cm) !! k = Some r ->
    (exists c, r ∈ adds /\ heap cm !! r = Some c /\ Incoming c = k /\ Outgoing c = None /\ pending cm !! k = None) \/
    (add_map cm adds !! k = None /\ pending cm !! k = Some r)) as Hcases.
  { intros k r [Hk|[Hn Hk]]%lookup_union_Some_raw; [left|by right].
    apply add_map_Some in Hk as [Hin ->]. rewrite Forall_forall in Hnew.
    destruct (Hnew r Hin) as [Hn [c Hc]]. exists c.
    assert (Incoming c = kin cm r) as Hkin by (unfold kin; by rewrite Hc).
    split_and!; try done.
    apply (Forall_forall _ _) with (x := r) in Hargs; [|by eapply elem_of_sublist].
    destruct Hargs as (c' & Hc' & [Ho|[x Hx]]); [congruence|].
    rewrite Hc in Hc'. injection Hc' as <-. rewrite Hkin in Hx. congruence. }
  assert (forall k r, pending cm !! k = Some r -> (add_map cm adds ∪ pending cm) !! k = Some r) as Hold.
  { intros k r Hk. rewrite lookup_union_r; [done|]. apply add_map_None. intros Hin.
    apply list_elem_of_fmap in Hin as (x & -> & Hin). rewrite Forall_forall in Hnew.
    destruct (Hnew x Hin). congruence. }
  split; [|split].
  - destruct Hm as [Ip Io Ik Ic Ii In]. split; cbn [set_disk_adds set_pending pending heap opened closed hashIndex].
    + intros k r [(c & _ & Hc & Hk & _)|[_ Hk]]%Hcases; [by exists c | by apply Ip].
    + intros o r Ho. destruct (Io o r Ho) as (c & Hc & Hout & Hne & Hp). exists c.
      split_and!; try done. by apply Hold.
    + intros k r c o [(c' & _ & Hc & _ & Hn & _)|[_ Hk]]%Hcases Hc' Ho; [congruence|].
      by eapply Ik.
    + intros k Hk. destruct (Ic k Hk) as [r Hr]. exists r. by apply Hold.
    + exact Ii.
    + exact In.
  - intros k. cbn [set_disk_adds set_pending pending heap opened disk_adds].
    rewrite Hd. destruct (add_map cm adds !! k) as [r|] eqn:Hk.
    + by rewrite (lookup_union_Some_l _ _ _ _ Hk).
    + by rewrite lookup_union_r.
  - exact Hdk.
Qed.

(** *** Opening *)

(** What a link must respect when it opens circuits: no circuit and no outgoing key
    twice, no circuit that is already open, never the empty key. *)
Definition open_args (cm : circuitMap) (keystones : list Keystone) : Prop :=
  NoDup (ks_OutKey <$> keystones) /\ NoDup (ks_InKey <$> keystones) /\
  Forall (fun ks => ks_OutKey ks <> EmptyCircuitKey /\
    forall r c, pending cm !! ks_InKey ks = Some r -> heap cm !! r = Some c -> Outgoing c = None)
    keystones.

Definition adds_rel (cm : circuitMap) : Prop :=
  forall k, disk_adds cm !! k = pending cm !! k ≫= fun r => Encode <$> heap cm !! r.

(** The keystone bucket already holds the keystones [todo]. *)
Definition keystones_rel (cm : circuitMap) (todo : list Keystone) : Prop :=
  forall o, disk_keystones cm !! o =
    match (list_to_map ((fun ks => (ks_OutKey ks, ks_InKey ks)) <$> todo) : gmap CircuitKey CircuitKey) !! o with
    | Some k => Some k
    | None => opened cm !! o ≫= fun r => Incoming <$> heap cm !! r
    end.

Definition open_step (cm : circuitMap) (r : nat) (c : PaymentCircuit) (o : CircuitKey) : circuitMap :=
  let c' := set_Outgoing c (Some o) in
  let cm1 := set_heap cm (<[r := c']> (heap cm)) in
  addCircuitToHashIndex (set_opened cm1 (<[o := r]> (opened cm1))) c'.

Lemma open_step_inv cm k r c o :
  mem_inv cm -> pending cm !! k = Some r -> heap cm !! r = Some c -> Outgoing c = None ->
  opened cm !! o = None -> o <> EmptyCircuitKey -> mem_inv (open_step cm r c o).
Proof.
  intros [Ip Io Ik Ic Ii In] Hp Hc Hn Ho Hne.
  assert (Incoming c = k) as Hk by (destruct (Ip k r Hp) as (c' & Hc' & Hi); congruence).
  assert (forall o' , opened cm !! o' <> Some r) as Hnot.
  { intros o' Ho'. destruct (Io o' r Ho') as (c' & Hc' & Hout & _). congruence. }
  split.
  - intros k' r' Hp'. cbn [open_step addCircuitToHashIndex set_hashIndex set_opened set_heap heap pending] in *.
    destruct (decide (r = r')) as [<-|Hr]; [|rewrite lookup_insert_ne by done; by apply Ip].
    rewrite lookup_insert_eq. eexists. split; [done|]. simpl.
    destruct (Ip k' r Hp') as (c' & Hc' & Hi). congruence.
  - intros o' r' Ho'. cbn [open_step addCircuitToHashIndex set_hashIndex set_opened set_heap heap pending opened] in *.
    apply lookup_insert_Some in Ho' as [(<- & <-)|(Hne' & Ho')].
    + rewrite lookup_insert_eq. eexists. split_and!; try done. simpl. by rewrite Hk.
    + assert (r <> r') by (intros <-; by eapply Hnot).
      rewrite lookup_insert_ne by done. by apply Io.
  - intros k' r' c' o' Hp' Hc' Ho'. cbn [open_step addCircuitToHashIndex set_hashIndex set_opened set_heap heap pending opened] in *.
    apply lookup_insert_Some in Hc' as [(<- & <-)|(Hr & Hc')].
    + injection Ho' as <-. by rewrite lookup_insert_eq.
    + assert (opened cm !! o' = Some r') as Hold by by eapply Ik.
      rewrite lookup_insert_ne; [done|]. congruence.
  - exact Ic.
  - intros o' r' c' Ho' Hc'. apply in_index_add.
    cbn [open_step addCircuitToHashIndex set_hashIndex set_opened set_heap heap pending opened hashIndex] in *.
    apply lookup_insert_Some in Ho' as [(<- & <-)|(Hne' & Ho')].
    + rewrite lookup_insert_eq in Hc'. injection Hc' as <-. by right.
    + assert (r <> r') by (intros <-; by eapply Hnot).
      rewrite lookup_insert_ne in Hc' by done. left. by eapply Ii.
  - apply index_ne_add. exact In.
Qed.

Lemma open_mem_ok kss : forall rs cm,
  mem_inv cm -> adds_rel cm -> keystones_rel cm kss -> open_args cm kss ->
  Forall2 (fun ks r => opened cm !! ks_OutKey ks = None /\ pending cm !! ks_InKey ks = Some r) kss rs ->
  exists cm', open_mem cm (zip rs kss) = Ok cm' /\ inv cm'.
Proof.
  induction kss as [|ks kss IH]; intros rs cm Hm Ha Hks (Hno & Hni & Hf) Hall.
  { apply Forall2_nil_inv_l in Hall as ->. exists cm. split; [done|]. by split. }
  apply Forall2_cons_inv_l in Hall as (r & rs' & [Ho Hp] & Hall & ->).
  rewrite fmap_cons in Hno, Hni. apply NoDup_cons in Hno as [Hno1 Hno].
  apply NoDup_cons in Hni as [Hni1 Hni]. apply Forall_cons in Hf as [[Hne Hout] Hf].
  destruct (inv_pending _ Hm _ _ Hp) as (c & Hc & Hin). pose proof (Hout r c Hp Hc) as Hn.
  cbn [zip zip_with open_mem]. rewrite (proj2 (deref_ok cm r c) Hc). rsimpl.
  set (cm1 := open_step cm r c (ks_OutKey ks)).
  assert (forall k x, pending cm !! k = Some x -> k <> ks_InKey ks -> x <> r) as Hinj.
  { intros k x Hk Hkne ->. destruct (inv_pending _ Hm _ _ Hk) as (c' & Hc' & Hk'). congruence. }
  apply (IH rs' cm1).
  - by eapply open_step_inv.
  - intros k. change (disk_adds cm1) with (disk_adds cm). rewrite (Ha k). cbn [cm1 open_step addCircuitToHashIndex set_hashIndex set_opened set_heap heap pending].
    destruct (pending cm !! k) as [x|]; cbn [mbind option_bind]; [|done].
    destruct (decide (r = x)) as [<-|]; [by rewrite lookup_insert_eq, Hc | by rewrite lookup_insert_ne].
  - intros o. change (disk_keystones cm1) with (disk_keystones cm). rewrite (Hks o), fmap_cons. simpl.
    cbn [cm1 open_step addCircuitToHashIndex set_hashIndex set_opened set_heap heap opened].
    destruct (decide (ks_OutKey ks = o)) as [<-|Hneo].
    + rewrite !lookup_insert_eq, not_elem_of_list_to_map_1; [|by rewrite <- list_fmap_compose].
      cbn [mbind option_bind]. rewrite lookup_insert_eq. simpl. by rewrite Hin.
    + rewrite !lookup_insert_ne by done. destruct (list_to_map _ !! o); [done|].
      destruct (opened cm !! o) as [x|]; cbn [mbind option_bind]; [|done].
      destruct (decide (r = x)) as [<-|]; [by rewrite lookup_insert_eq, Hc | by rewrite lookup_insert_ne].
  - split_and!; [done..|]. apply Forall_forall. intros ks' Hks'. rewrite Forall_forall in Hf.
    destruct (Hf ks' Hks') as [Hne' Hout']. split; [done|]. intros x c' Hx Hc'.
    cbn [cm1 open_step addCircuitToHashIndex set_hashIndex set_opened set_heap heap pending] in Hx, Hc'.
    assert (ks_InKey ks' <> ks_InKey ks) as Hdiff.
    { intros He. apply Hni1. rewrite <- He. by apply list_elem_of_fmap_2. }
    rewrite lookup_insert_ne in Hc'; [by eapply Hout'|]. intros <-. by eapply Hinj.
  - apply Forall2_same_length_lookup. split; [by eapply Forall2_length|].
    intros i ks' x Hi Hx. destruct (Forall2_lookup_lr _ _ _ _ _ _ Hall Hi Hx) as [Ho' Hp'].
    split; [|done]. cbn [cm1 open_step addCircuitToHashIndex set_hashIndex set_opened set_heap opened].
    rewrite lookup_insert_ne; [done|]. intros He. apply Hno1. rewrite He.
    by apply list_elem_of_fmap_2, list_elem_of_lookup_2 with i.
Qed.

Lemma check_keystones_ok cm kss rs :
  check_keystones cm kss = Ok rs ->
  Forall2 (fun ks r => opened cm !! ks_OutKey ks = None /\ pending cm !! ks_InKey ks = Some r) kss rs.
Proof.
  revert rs. induction kss as [|ks kss IH]; intros rs; simpl.
  { intros [= <-]. constructor. }
  destruct (opened cm !! ks_OutKey ks) eqn:Ho; [done|].
  destruct (pending cm !! ks_InKey ks) as [r|] eqn:Hp; [|done].
  intros (rs' & Hrs & [= <-])%bind_ok. constructor; [done|by apply IH].
Qed.

Lemma put_keystones_lookup kss : forall (m : gmap CircuitKey CircuitKey) o,
  NoDup (ks_OutKey <$> kss) ->
  foldl (fun m ks => <[ks_OutKey ks := ks_InKey ks]> m) m kss !! o =
  match (list_to_map ((fun ks => (ks_OutKey ks, ks_InKey ks)) <$> kss) : gmap CircuitKey CircuitKey) !! o with
  | Some k => Some k
  | None => m !! o
  end.
Proof.
  induction kss as [|ks kss IH]; intros m o Hnd; [done|].
  rewrite fmap_cons in Hnd. apply NoDup_cons in Hnd as [Hn Hnd]. simpl. rewrite IH by done.
  destruct (decide (ks_OutKey ks = o)) as [<-|Hne].
  - rewrite !lookup_insert_eq, not_elem_of_list_to_map_1; [done|]. by rewrite <- list_fmap_compose.
  - by rewrite !lookup_insert_ne by done.
Qed.

Lemma OpenCircuits_inv cm kss db :
  inv cm -> open_args cm kss ->
  exists cm' err, OpenCircuits cm kss db = Ok (cm', err) /\ inv cm' /\ (err <> None -> cm' = cm).
Proof.
  intros [Hm [Ha Hk]] Hargs. unfold OpenCircuits. destruct kss as [|ks kss]; [by eexists _, _|].
  set (l := ks :: kss) in *. destruct (check_keystones cm l) as [rs|e|] eqn:Hcheck.
  - destruct db as [e|]; [by eexists _, _|].
    apply check_keystones_ok in Hcheck.
    destruct (open_mem_ok l rs (put_keystones cm l)) as (cm' & -> & Hinv); try done.
    + destruct Hm. by split.
    + intros o. cbn [put_keystones set_disk_keystones disk_keystones opened heap].
      rewrite put_keystones_lookup by apply Hargs. by rewrite Hk.
    + rsimpl. by eexists _, _.
  - by eexists _, _.
  - exfalso. clear -Hcheck. revert Hcheck. generalize l. clear l ks kss.
    induction l as [|ks l IH]; simpl; [done|].
    destruct (opened cm !! ks_OutKey ks), (pending cm !! ks_InKey ks); try done.
    by destruct (check_keystones cm l).
Qed.

(** *** Closing *)

Lemma set_closed_inv cm k r :
  inv cm -> pending cm !! k = Some r -> inv (set_closed cm ({[ k ]} ∪ closed cm)).
Proof.
  intros [[Ip Io Ik Ic Ii In] Hd] Hk. split; [|exact Hd]. split; try done.
  cbn [set_closed closed pending]. intros k' [->%elem_of_singleton|Hk']%elem_of_union;
    [by exists r | by apply Ic].
Qed.

Lemma FailCircuit_inv cm k : inv cm -> inv (FailCircuit cm k).1.
Proof.
  intros Hi. unfold FailCircuit. destruct (pending cm !! k) eqn:Hk; [|done].
  case_bool_decide; [done|]. by eapply set_closed_inv.
Qed.

Lemma CloseCircuit_inv cm o : inv cm -> inv (CloseCircuit cm o).1.
Proof.
  intros Hi. unfold CloseCircuit. destruct (opened cm !! o) as [r|] eqn:Ho; [|done].
  destruct (inv_opened _ (proj1 Hi) _ _ Ho) as (c & Hc & _ & _ & Hp).
  rewrite (proj2 (deref_ok cm r c) Hc). case_bool_decide; [done|]. by eapply set_closed_inv.
Qed.

(** *** Deleting *)

(** One removal of the first loop of [DeleteCircuits]. *)
Definition remove_step (cm : circuitMap) (k : CircuitKey) (c : PaymentCircuit) : circuitMap :=
  let cm2 := set_closed (set_pending cm (delete k (pending cm))) (closed cm ∖ {[ k ]}) in
  if HasKeystone c
  then removeCircuitFromHashIndex (set_opened cm2 (delete (OutKey c) (opened cm2))) c
  else cm2.

Lemma HasKeystone_Some c : HasKeystone c = true -> Outgoing c = Some (OutKey c).
Proof. unfold HasKeystone, OutKey. by destruct (Outgoing c). Qed.

Lemma HasKeystone_None c : HasKeystone c = false -> Outgoing c = None.
Proof. unfold HasKeystone. by destruct (Outgoing c). Qed.

(** The fields of the map after a removal. *)
Lemma remove_step_fields cm k c :
  heap (remove_step cm k c) = heap cm /\
  pending (remove_step cm k c) = delete k (pending cm) /\
  closed (remove_step cm k c) = closed cm ∖ {[ k ]} /\
  opened (remove_step cm k c) =
    (if HasKeystone c then delete (OutKey c) (opened cm) else opened cm) /\
  disk_adds (remove_step cm k c) = disk_adds cm /\
  disk_keystones (remove_step cm k c) = disk_keystones cm.
Proof.
  unfold remove_step. destruct (HasKeystone c); [|done].
  by rewrite removeCircuitFromHashIndex_rest.
Qed.

Lemma remove_step_index cm k c h o :
  in_index (hashIndex (remove_step cm k c)) h o <->
  in_index (hashIndex cm) h o /\ ~ (Outgoing c = Some o /\ h = PaymentHash c).
Proof.
  unfold remove_step. destruct (HasKeystone c) eqn:Hks.
  - rewrite in_index_remove. cbn [set_opened set_closed set_pending hashIndex].
    apply HasKeystone_Some in Hks. rewrite Hks. naive_solver.
  - cbn [set_opened set_closed set_pending hashIndex]. apply HasKeystone_None in Hks.
    rewrite Hks. naive_solver.
Qed.

Lemma remove_step_inv cm k r c :
  mem_inv cm -> pending cm !! k = Some r -> heap cm !! r = Some c -> mem_inv (remove_step cm k c).
Proof.
  intros [Ip Io Ik Ic Ii In] Hp Hc.
  destruct (remove_step_fields cm k c) as (Fh & Fp & Fc & Fo & _ & _).
  assert (Incoming c = k) as Hin by (destruct (Ip k r Hp) as (c' & Hc' & Hi); congruence).
  assert (forall o r', opened (remove_step cm k c) !! o = Some r' ->
    opened cm !! o = Some r' /\ r' <> r) as Hopened.
  { intros o r'. rewrite Fo. destruct (HasKeystone c) eqn:Hks.
    - apply HasKeystone_Some in Hks. intros [Hne Ho]%lookup_delete_Some. split; [done|].
      intros ->. destruct (Io o r Ho) as (c' & Hc' & Hout & _). congruence.
    - apply HasKeystone_None in Hks. intros Ho. split; [done|].
      intros ->. destruct (Io o r Ho) as (c' & Hc' & Hout & _). congruence. }
  split; rewrite ?Fh, ?Fp, ?Fc.
  - intros k' r' [_ Hp']%lookup_delete_Some. by apply Ip.
  - intros o r' [Ho Hr]%Hopened. destruct (Io o r' Ho) as (c' & Hc' & Hout & Hne & Hp').
    exists c'. split_and!; try done. rewrite lookup_delete_ne; [done|]. intros He. congruence.
  - intros k' r' c' o [Hkne Hp']%lookup_delete_Some Hc' Ho.
    pose proof (Ik k' r' c' o Hp' Hc' Ho) as Hold. rewrite Fo.
    destruct (HasKeystone c) eqn:Hks; [|done]. apply HasKeystone_Some in Hks.
    rewrite lookup_delete_ne; [done|]. intros <-.
    pose proof (Ik k r c _ Hp Hc Hks) as Hr. assert (r' = r) as -> by congruence.
    destruct (Ip k' r Hp') as (c2 & Hc2 & Hk2). congruence.
  - intros k' [Hk' Hne]%elem_of_difference. rewrite lookup_delete_ne; [by apply Ic|]. set_solver.
  - intros o r' c' [Ho Hr]%Hopened Hc'. apply remove_step_index. split; [by eapply Ii|].
    intros [Hout _]. pose proof (Ik k r c o Hp Hc Hout). congruence.
  - unfold remove_step. destruct (HasKeystone c); [|exact In]. apply index_ne_remove. exact In.
Qed.

(** The memory after the first loop, related to the memory before it. *)
Record delete_result (cm cm1 : circuitMap) (closing : gset CircuitKey)
    (removed : gmap CircuitKey nat) : Prop := {
  dr_inv : mem_inv cm1;
  dr_heap : heap cm1 = heap cm;
  dr_removed : removed ⊆ pending cm;
  dr_pending : pending cm1 = pending cm ∖ removed;
  dr_closed : closed cm1 = closed cm ∖ dom removed;
  dr_closing : closing = closed cm ∩ dom removed;
  dr_opened : forall o r, opened cm1 !! o = Some r <->
    opened cm !! o = Some r /\ ~ exists k, removed !! k = Some r;
  dr_index : forall h o, in_index (hashIndex cm1) h o <->
    in_index (hashIndex cm) h o /\
    ~ exists k r c, removed !! k = Some r /\ heap cm !! r = Some c /\ Outgoing c = Some o /\
        PaymentHash c = h;
  dr_disk : disk_adds cm1 = disk_adds cm /\ disk_keystones cm1 = disk_keystones cm;
}.

Lemma delete_result_step cm cm1 closing removed k r c :
  delete_result cm cm1 closing removed -> pending cm1 !! k = Some r -> heap cm1 !! r = Some c ->
  delete_result cm (remove_step cm1 k c)
    (if bool_decide (k ∈ closed cm1) then {[ k ]} ∪ closing else closing) (<[k := r]> removed).
Proof.
  intros [Di Dh Dr Dp Dc Dcl Do Dx [Da Dk]] Hp Hc.
  destruct (remove_step_fields cm1 k c) as (Fh & Fp & Fc & Fo & Fa & Fk).
  pose proof Hp as Hp0. rewrite Dp in Hp0. apply lookup_difference_Some in Hp0 as [Hpc Hrn].
  split.
  - by eapply remove_step_inv.
  - congruence.
  - by apply insert_subseteq_l.
  - rewrite Fp, Dp. apply map_eq. intros k'. apply option_eq. intros x.
    rewrite lookup_delete_Some, !lookup_difference_Some, lookup_insert_None. naive_solver.
  - rewrite Fc, Dc, dom_insert_L. set_solver.
  - rewrite Dcl, dom_insert_L, Dc.
    assert (k ∉ dom removed) by by apply not_elem_of_dom.
    case_bool_decide; set_solver.
  - intros o x. rewrite Fo. destruct (HasKeystone c) eqn:Hks.
    + rewrite lookup_delete_Some, Do. apply HasKeystone_Some in Hks.
      pose proof (inv_keystone _ Di k r c _ Hp Hc Hks) as Hor.
      split.
      * intros (Hne & Ho & Hnx). split; [done|]. intros (k' & [(<- & <-)|(_ & Hk')]%lookup_insert_Some);
          [|by apply Hnx; exists k'].
        assert (opened cm1 !! o = Some r) as Ho1 by by apply Do.
        destruct (inv_opened _ Di o r Ho1) as (c' & Hc' & Hout & _). congruence.
      * intros (Ho & Hnx). split_and!; [|done|].
        -- intros <-. apply Hnx. exists k. apply Do in Hor as [Hor _].
           rewrite lookup_insert_eq. congruence.
        -- intros (k' & Hk'). apply Hnx. exists k'. rewrite lookup_insert_ne; [done|]. congruence.
    + rewrite Do. apply HasKeystone_None in Hks. split.
      * intros (Ho & Hnx). split; [done|]. intros (k' & [(<- & <-)|(_ & Hk')]%lookup_insert_Some);
          [|by apply Hnx; exists k'].
        assert (opened cm1 !! o = Some r) as Ho1 by by apply Do.
        destruct (inv_opened _ Di o r Ho1) as (c' & Hc' & Hout & _). congruence.
      * intros (Ho & Hnx). split; [done|]. intros (k' & Hk'). apply Hnx. exists k'.
        rewrite lookup_insert_ne; [done|]. congruence.
  - intros h o. rewrite remove_step_index, Dx. rewrite Dh in Hc. split.
    + intros ((Hi & Hnx) & Hno). split; [done|].
      intros (k' & x & c' & [(<- & <-)|(_ & Hk')]%lookup_insert_Some & Hc' & Hout & Hh).
      * apply Hno. split; congruence.
      * apply Hnx. by exists k', x, c'.
    + intros (Hi & Hnx). split; [split; [done|]|].
      * intros (k' & x & c' & Hk' & Hc' & Hout & Hh). apply Hnx. exists k', x, c'.
        rewrite lookup_insert_ne; [done|]. congruence.
      * intros [Hout ->]. apply Hnx. exists k, r, c. by rewrite lookup_insert_eq.
  - split; congruence.
Qed.

Lemma delete_mem_step cm k r c inKeys closing removed :
  pending cm !! k = Some r -> heap cm !! r = Some c ->
  delete_mem cm (k :: inKeys) closing removed =
  delete_mem (remove_step cm k c) inKeys
    (if bool_decide (k ∈ closed cm) then {[ k ]} ∪ closing else closing) (<[k := r]> removed).
Proof.
  intros Hp Hc. cbn [delete_mem]. rewrite Hp, (proj2 (deref_ok cm r c) Hc). rsimpl.
  unfold remove_step. cbn [closed set_pending pending set_closed].
  destruct (bool_decide (k ∈ closed cm)) eqn:Hb; [done|]. apply bool_decide_eq_false in Hb.
  replace (closed cm ∖ {[k]}) with (closed cm) by set_solver. by destruct cm.
Qed.

Lemma delete_mem_ok inKeys : forall cm cm1 closing removed,
  delete_result cm cm1 closing removed ->
  exists cm2 closing2 removed2, delete_mem cm1 inKeys closing removed = Ok (cm2, closing2, removed2) /\
    delete_result cm cm2 closing2 removed2 /\
    forall k, is_Some (removed2 !! k) <-> is_Some (removed !! k) \/ (k ∈ inKeys /\ is_Some (pending cm !! k)).
Proof.
  induction inKeys as [|k inKeys IH]; intros cm cm1 closing removed Hdr.
  { eexists _, _, _. split; [done|]. split; [done|]. set_solver. }
  destruct (pending cm1 !! k) as [r|] eqn:Hp.
  - destruct (inv_pending _ (dr_inv _ _ _ _ Hdr) _ _ Hp) as (c & Hc & _).
    pose proof (delete_result_step _ _ _ _ k r c Hdr Hp Hc) as Hstep.
    assert (is_Some (pending cm !! k)) as Hpk.
    { rewrite (dr_pending _ _ _ _ Hdr) in Hp. apply lookup_difference_Some in Hp as [Hp _].
      by exists r. }
    destruct (IH _ _ _ _ Hstep) as (cm2 & cl2 & rm2 & Hdel & Hdr2 & Hrm).
    exists cm2, cl2, rm2. split; [|split; [done|]].
    + by rewrite (delete_mem_step _ _ r c).
    + intros k'. rewrite Hrm. unfold is_Some in *.
      destruct (decide (k = k')) as [<-|Hne].
      * rewrite lookup_insert_eq. split; [right; split; [by left|done] | left; by eexists].
      * rewrite lookup_insert_ne by done. rewrite elem_of_cons. naive_solver.
  - destruct (IH _ _ _ _ Hdr) as (cm2 & cl2 & rm2 & Hdel & Hdr2 & Hrm).
    exists cm2, cl2, rm2. split; [cbn [delete_mem]; by rewrite Hp|]. split; [done|].
    intros k'. rewrite Hrm, elem_of_cons.
    split; [naive_solver|]. intros [?|[[->|?] Hs]]; [by left| |by right].
    left. rewrite (dr_pending _ _ _ _ Hdr) in Hp. apply lookup_difference_None in Hp as [Hp|Hp]; [|done].
    rewrite Hp in Hs. by destruct Hs.
Qed.

Lemma delete_result_refl cm : mem_inv cm -> delete_result cm cm ∅ ∅.
Proof.
  intros Hm. split; try done.
  - apply map_empty_subseteq.
  - by rewrite map_difference_empty.
  - set_solver.
  - set_solver.
  - intros o r. split; [|by intros []]. intros Ho. split; [done|].
    intros (k & Hk). by rewrite lookup_empty in Hk.
  - intros h o. split; [|by intros []]. intros Hi. split; [done|].
    intros (k & r & c & Hk & _). by rewrite lookup_empty in Hk.
Qed.

(** The outgoing keys of a list of removed circuits. *)
Definition out_of (cm : circuitMap) (l : list (CircuitKey * nat)) (o : CircuitKey) (r : nat) : Prop :=
  exists k c, (k, r) ∈ l /\ heap cm !! r = Some c /\ Outgoing c = Some o.

Definition entries_ok (cm : circuitMap) (l : list (CircuitKey * nat)) : Prop :=
  forall k r, (k, r) ∈ l -> exists c, heap cm !! r = Some c /\ Incoming c = k.

Lemma entries_ok_cons cm k r l :
  entries_ok cm ((k, r) :: l) ->
  (exists c, heap cm !! r = Some c /\ Incoming c = k) /\ entries_ok cm l.
Proof. intros He. split; [apply He; by left|]. intros k' r' Hin. apply He. by right. Qed.

Lemma out_of_cons cm k r c l o x :
  heap cm !! r = Some c ->
  out_of cm ((k, r) :: l) o x <-> (x = r /\ Outgoing c = Some o) \/ out_of cm l o x.
Proof.
  intros Hc. unfold out_of. split.
  - intros (k' & c' & [[= -> ->]|Hin]%elem_of_cons & Hc' & Ho); [left; split; congruence|].
    right. by exists k', c'.
  - intros [(-> & Ho)|(k' & c' & Hin & Hc' & Ho)].
    + exists k, c. split; [by left|done].
    + exists k', c'. split; [by right|done].
Qed.

(** The transaction of [DeleteCircuits] removes what the loop removed. *)
Lemma delete_disk_ok l : forall cm, entries_ok cm l ->
  exists da dk, delete_disk cm l = Ok (set_disk_keystones (set_disk_adds cm da) dk) /\
    (forall k b, da !! k = Some b <-> disk_adds cm !! k = Some b /\ k ∉ l.*1) /\
    (forall o k, dk !! o = Some k <-> disk_keystones cm !! o = Some k /\ ~ exists r, out_of cm l o r).
Proof.
  induction l as [|[k r] l IH]; intros cm He; simpl.
  { exists (disk_adds cm), (disk_keystones cm). split; [by destruct cm|]. split.
    - intros k b. set_solver.
    - intros o k. split; [|tauto]. intros Hk. split; [done|]. intros (r & k' & c & Hin & _). set_solver. }
  apply entries_ok_cons in He as [(c & Hc & Hk) He].
  rewrite (proj2 (deref_ok cm r c) Hc). rsimpl. unfold InKey. rewrite Hk.
  set (cm1 := if HasKeystone c then _ else cm).
  destruct (IH (set_disk_adds cm1 (delete k (disk_adds cm1)))) as (da & dk & Hdel & Hda & Hdk).
  { subst cm1. by destruct (HasKeystone c). }
  exists da, dk. split; [|split].
  - rewrite Hdel. subst cm1. by destruct (HasKeystone c).
  - intros k' b. rewrite Hda. cbn [set_disk_adds disk_adds]. rewrite lookup_delete_Some, not_elem_of_cons.
    assert (disk_adds cm1 = disk_adds cm) as -> by (subst cm1; by destruct (HasKeystone c)).
    naive_solver.
  - intros o k'. rewrite Hdk.
    assert (forall x, out_of (set_disk_adds cm1 (delete k (disk_adds cm1))) l o x <-> out_of cm l o x) as Hsame.
    { intros x. subst cm1. by destruct (HasKeystone c). }
    setoid_rewrite Hsame.
    pose proof (fun y => out_of_cons cm k r c l o y Hc) as Hoc. setoid_rewrite Hoc.
    subst cm1. cbn [set_disk_adds disk_keystones]. destruct (HasKeystone c) eqn:Hks.
    + apply HasKeystone_Some in Hks. cbn [set_disk_keystones disk_keystones].
      rewrite lookup_delete_Some, Hks. split.
      * intros ((Hne & Hd) & Hn). split; [done|]. intros (x & [(_ & [= <-])|Hx]); [done|].
        apply Hn. by exists x.
      * intros (Hd & Hn). split; [split; [|done]|].
        -- intros <-. apply Hn. exists r. by left.
        -- intros (x & Hx). apply Hn. exists x. by right.
    + apply HasKeystone_None in Hks. rewrite Hks. naive_solver.
Qed.

(** The roll back of [DeleteCircuits]. *)
Lemma restore_removed_ok l : forall cm closing, entries_ok cm l -> NoDup l.*1 ->
  (forall o r r', out_of cm l o r -> out_of cm l o r' -> r = r') ->
  (forall h S, hashIndex cm !! h = Some S -> S <> ∅) ->
  exists p o cl hi, restore_removed cm closing l =
      Ok (CircuitMap (heap cm) p o cl hi (disk_adds cm) (disk_keystones cm)) /\
    p = list_to_map l ∪ pending cm /\
    (forall k, k ∈ cl <-> k ∈ closed cm \/ (k ∈ closing /\ k ∈ l.*1)) /\
    (forall x r, o !! x = Some r <->
       out_of cm l x r \/ (opened cm !! x = Some r /\ ~ exists r', out_of cm l x r')) /\
    (forall h x, in_index hi h x <-> in_index (hashIndex cm) h x \/
       exists r c, out_of cm l x r /\ heap cm !! r = Some c /\ PaymentHash c = h) /\
    (forall h S, hi !! h = Some S -> S <> ∅).
Proof.
  induction l as [|[k r] l IH]; intros cm closing He Hnd Huniq Hne; simpl.
  { exists (pending cm), (opened cm), (closed cm), (hashIndex cm).
    split; [by destruct cm|]. split; [by rewrite (left_id_L ∅ _)|].
    assert (forall x r, ~ out_of cm [] x r) as Hno by (intros x r (k & c & Hin & _); set_solver).
    split_and!; [set_solver| |naive_solver|done].
    intros x r. split; [|intros [?|[]]; [exfalso; by eapply Hno|done]].
    intros Hx. right. split; [done|]. intros (r' & Hr'). by eapply Hno. }
  apply entries_ok_cons in He as [(c & Hc & Hk) He]. apply NoDup_cons in Hnd as [Hkn Hnd].
  rewrite (proj2 (deref_ok cm r c) Hc). rsimpl.
  set (cm3 := if HasKeystone c then _ else _).
  assert (heap cm3 = heap cm /\ pending cm3 = <[k := r]> (pending cm) /\
    disk_adds cm3 = disk_adds cm /\ disk_keystones cm3 = disk_keystones cm /\
    closed cm3 = (if bool_decide (k ∈ closing) then {[ k ]} ∪ closed cm else closed cm) /\
    opened cm3 = (if HasKeystone c then <[OutKey c := r]> (opened cm) else opened cm) /\
    (forall h x, in_index (hashIndex cm3) h x <->
       in_index (hashIndex cm) h x \/ (Outgoing c = Some x /\ PaymentHash c = h)) /\
    (forall h S, hashIndex cm3 !! h = Some S -> S <> ∅)) as (Fh & Fp & Fa & Fk & Fc & Fo & Fx & Fn).
  { subst cm3. destruct (HasKeystone c) eqn:Hks.
    - split_and!; try by case_bool_decide.
      + intros h x. rewrite in_index_add. apply HasKeystone_Some in Hks. rewrite Hks.
        case_bool_decide; cbn [set_opened set_closed set_pending hashIndex]; naive_solver.
      + apply index_ne_add. by case_bool_decide.
    - apply HasKeystone_None in Hks. rewrite Hks. split_and!; try by case_bool_decide.
      intros h x. case_bool_decide; cbn [set_closed set_pending hashIndex]; naive_solver. }
  assert (forall x y, out_of cm3 l x y <-> out_of cm l x y) as Hsame.
  { intros x y. unfold out_of. by rewrite Fh. }
  destruct (IH cm3 closing) as (p & o & cl & hi & Hres & -> & Hcl & Ho & Hi & Hn).
  { unfold entries_ok. by rewrite Fh. }
  { done. }
  { intros x y y' Hy%Hsame Hy'%Hsame. eapply Huniq; rewrite (out_of_cons cm k r c l) by done; by right. }
  { done. }
  eexists _, o, cl, hi. split; [rewrite Hres, Fh, Fa, Fk; reflexivity|].
  split_and!; [|..|done].
  - rewrite Fp, <- insert_union_r, insert_union_l; [done|].
    by apply not_elem_of_list_to_map_1.
  - intros k'. rewrite Hcl, Fc, elem_of_cons. case_bool_decide; set_solver.
  - intros x y. rewrite Ho, Fo. setoid_rewrite Hsame.
    pose proof (fun y => out_of_cons cm k r c l x y Hc) as Hoc. setoid_rewrite Hoc.
    assert (Outgoing c = Some x -> ~ exists z, out_of cm l x z) as Hz.
    { intros Hox (z & Hz). assert (z = r) as ->.
      { apply (Huniq x); apply Hoc; [by right|by left]. }
      destruct Hz as (k' & c' & Hin & Hc' & _). destruct (He k' r Hin) as (c2 & Hc2 & Hk2).
      apply Hkn. apply list_elem_of_fmap. exists (k', r). split; [simpl; congruence|done]. }
    destruct (HasKeystone c) eqn:Hks.
    + apply HasKeystone_Some in Hks. rewrite Hks in *.
      destruct (decide (OutKey c = x)) as [<-|Hnx].
      * rewrite lookup_insert_eq. specialize (Hz eq_refl). naive_solver.
      * rewrite lookup_insert_ne by done. naive_solver.
    + apply HasKeystone_None in Hks. rewrite Hks in *. naive_solver.
  - intros h x. rewrite Hi, Fx. setoid_rewrite Hsame. rewrite Fh.
    pose proof (fun y => out_of_cons cm k r c l x y Hc) as Hoc. setoid_rewrite Hoc.
    naive_solver.
Qed.

(** What follows of the removed circuits from the state before. *)
Section Removed.
Context (cm cm1 : circuitMap) (closing : gset CircuitKey) (removed : gmap CircuitKey nat).
Hypothesis Hinv : inv cm.
Hypothesis Hdr : delete_result cm cm1 closing removed.

#[local] Abbreviation l := (map_to_list removed).

Lemma removed_pending k r : removed !! k = Some r -> pending cm !! k = Some r.
Proof. intros Hr. eapply lookup_weaken; [done|]. apply Hdr. Qed.

Lemma removed_incoming k r c :
  removed !! k = Some r -> heap cm !! r = Some c -> Incoming c = k.
Proof.
  intros Hr%removed_pending Hc. destruct (inv_pending _ (proj1 Hinv) _ _ Hr) as (c' & Hc' & <-).
  congruence.
Qed.

Lemma removed_keys k : k ∈ l.*1 <-> is_Some (removed !! k).
Proof.
  rewrite list_elem_of_fmap. split.
  - intros ([k' r] & -> & Hkr%elem_of_map_to_list). by exists r.
  - intros [r Hr]. exists (k, r). split; [done|]. by apply elem_of_map_to_list.
Qed.

Lemma removed_entries : entries_ok cm1 l.
Proof.
  intros k r Hkr%elem_of_map_to_list. rewrite (dr_heap _ _ _ _ Hdr).
  by apply (inv_pending _ (proj1 Hinv)), removed_pending.
Qed.

Lemma removed_out o r :
  out_of cm1 l o r <-> opened cm !! o = Some r /\ exists k, removed !! k = Some r.
Proof.
  unfold out_of. setoid_rewrite elem_of_map_to_list. rewrite (dr_heap _ _ _ _ Hdr). split.
  - intros (k & c & Hr & Hc & Ho). split; [|by exists k].
    exact (inv_keystone _ (proj1 Hinv) k r c o (removed_pending _ _ Hr) Hc Ho).
  - intros (Ho & k & Hr). destruct (inv_opened _ (proj1 Hinv) _ _ Ho) as (c & Hc & Hoc & _).
    by exists k, c.
Qed.

(** An opened circuit was removed exactly when its incoming key was. *)
Lemma removed_opened o r c :
  opened cm !! o = Some r -> heap cm !! r = Some c ->
  (exists k, removed !! k = Some r) <-> is_Some (removed !! Incoming c).
Proof.
  intros Ho Hc. destruct (inv_opened _ (proj1 Hinv) _ _ Ho) as (c' & Hc' & _ & _ & Hp).
  assert (c' = c) as -> by congruence. split.
  - intros (k & Hk). rewrite (removed_incoming k r c Hk Hc). by exists r.
  - intros [r' Hr']. exists (Incoming c). apply removed_pending in Hr' as Hp'. congruence.
Qed.

Lemma restored_closed cl :
  (forall k, k ∈ cl <-> k ∈ closed cm1 \/ (k ∈ closing /\ k ∈ l.*1)) -> cl = closed cm.
Proof.
  intros Hcl. apply set_eq. intros k.
  rewrite Hcl, (dr_closed _ _ _ _ Hdr), (dr_closing _ _ _ _ Hdr), removed_keys, <- elem_of_dom.
  destruct (decide (k ∈ dom removed)); set_solver.
Qed.

Lemma restored_opened o :
  (forall x r, o !! x = Some r <->
     out_of cm1 l x r \/ (opened cm1 !! x = Some r /\ ~ exists r', out_of cm1 l x r')) ->
  o = opened cm.
Proof.
  intros Ho. apply map_eq. intros x. apply option_eq. intros r.
  rewrite Ho, (dr_opened _ _ _ _ Hdr). setoid_rewrite removed_out. split; [tauto|]. intros Hx.
  destruct (inv_opened _ (proj1 Hinv) _ _ Hx) as (c & Hc & _).
  pose proof (removed_opened x r c Hx Hc) as Hr.
  destruct (removed !! Incoming c) as [r'|]; [left; split; [done|]; apply Hr; by exists r'|].
  right. assert (~ exists k, removed !! k = Some r) as Hnr by (rewrite Hr; by intros [? [=]]).
  split; [done|]. intros (r' & Hr' & Hex). assert (r' = r) as -> by congruence. done.
Qed.

Lemma restored_index hi :
  (forall h S, hi !! h = Some S -> S <> ∅) ->
  (forall h x, in_index hi h x <-> in_index (hashIndex cm1) h x \/
     exists r c, out_of cm1 l x r /\ heap cm1 !! r = Some c /\ PaymentHash c = h) ->
  hi = hashIndex cm.
Proof.
  intros Hn Hi. apply index_ext; [done|apply Hinv|]. intros h x.
  rewrite Hi, (dr_index _ _ _ _ Hdr). setoid_rewrite removed_out. rewrite (dr_heap _ _ _ _ Hdr).
  split; [intros [[Hix _]|(r & c & [Hor _] & Hc & <-)]; [done|];
    exact (inv_index _ (proj1 Hinv) x r c Hor Hc)|].
  intros Hix.
  assert (forall k r c, removed !! k = Some r -> heap cm !! r = Some c -> Outgoing c = Some x ->
    opened cm !! x = Some r) as Hold.
  { intros k r c Hr%removed_pending Hc Ho. exact (inv_keystone _ (proj1 Hinv) k r c x Hr Hc Ho). }
  destruct (opened cm !! x) as [r|] eqn:Hx.
  2: { left. split; [done|]. intros (k & r & c & Hr & Hc & Ho & _). by specialize (Hold k r c Hr Hc Ho). }
  destruct (inv_opened _ (proj1 Hinv) _ _ Hx) as (c & Hc & _).
  destruct (decide (PaymentHash c = h /\ is_Some (removed !! Incoming c))) as [[Hh Hr]|Hno].
  - right. exists r, c. split_and!; try done. by apply (removed_opened x r c Hx Hc).
  - left. split; [done|]. intros (k & r' & c' & Hr & Hc' & Ho' & Hh'). apply Hno.
    specialize (Hold k r' c' Hr Hc' Ho'). assert (r' = r) as -> by congruence.
    assert (c' = c) as -> by congruence. split; [done|].
    rewrite (removed_incoming k r c Hr Hc). by exists r.
Qed.

Lemma delete_rollback : restore_removed cm1 closing l = Ok cm.
Proof.
  destruct (restore_removed_ok l cm1 closing) as (p & o & cl & hi & -> & -> & Hcl & Ho & Hi & Hn).
  - apply removed_entries.
  - apply NoDup_fst_map_to_list.
  - intros o r r' [Hr _]%removed_out [Hr' _]%removed_out. congruence.
  - apply Hdr.
  - rewrite (restored_closed cl Hcl), (restored_opened o Ho), (restored_index hi Hn Hi).
    destruct Hdr as [_ Dh Dr Dp _ _ _ _ [Da Dk]].
    rewrite Dh, Da, Dk, list_to_map_to_list, Dp, map_difference_union by done. by destruct cm.
Qed.

Lemma delete_commit :
  exists da dk, delete_disk cm1 l = Ok (set_disk_keystones (set_disk_adds cm1 da) dk) /\
    inv (set_disk_keystones (set_disk_adds cm1 da) dk).
Proof.
  destruct (delete_disk_ok l cm1 removed_entries) as (da & dk & Hdel & Hda & Hdk).
  destruct Hinv as [Hm [Ha Hk]]. pose proof Hdr as [Di Dh Dr Dp _ _ Do _ [Da Dk]].
  exists da, dk. split; [done|]. split; [by destruct Di; split|split].
  - intros k. cbn [set_disk_keystones set_disk_adds disk_adds pending heap].
    apply option_eq. intros b. rewrite Hda, Da, Ha, removed_keys, Dh, Dp.
    destruct (removed !! k) as [r|] eqn:Hr.
    + rewrite (proj2 (lookup_difference_None _ _ _)) by (right; by exists r).
      cbn [mbind option_bind]. split; [intros [_ []]; by exists r|done].
    + assert ((pending cm ∖ removed) !! k = pending cm !! k) as ->.
      { apply option_eq. intros x. rewrite lookup_difference_Some. tauto. }
      split; [tauto|]. intros Hb. split; [done|]. by intros [? [=]].
  - intros o. cbn [set_disk_keystones set_disk_adds disk_keystones opened heap].
    apply option_eq. intros k. rewrite Hdk, Dk, Hk, Dh. setoid_rewrite removed_out.
    destruct (opened cm1 !! o) as [r|] eqn:Ho1.
    + apply Do in Ho1 as [Ho1 Hnr]. rewrite Ho1. cbn [mbind option_bind]. split; [tauto|].
      intros Hi. split; [done|]. intros (r' & [= <-] & Hex). done.
    + cbn [mbind option_bind]. split; [|done]. intros (Ho & Hn). exfalso.
      destruct (opened cm !! o) as [r|] eqn:Ho2; [|done].
      assert (~ exists k, removed !! k = Some r) as Hnr by (intros Hex; apply Hn; by exists r).
      assert (opened cm1 !! o = Some r) as Hbad by by apply Do. congruence.
Qed.
End Removed.

(** [DeleteCircuits] returns; when its transaction fails the map is exactly what it
    was, when it succeeds the invariant holds of the rest. *)
Lemma DeleteCircuits_ok cm inKeys db :
  inv cm ->
  exists cm', DeleteCircuits cm inKeys db = Ok (cm', db) /\ inv cm' /\
    match db with
    | Some _ => cm' = cm
    | None =>
        (forall k r, pending cm' !! k = Some r <-> pending cm !! k = Some r /\ k ∉ inKeys) /\
        (forall k, k ∈ closed cm' <-> k ∈ closed cm /\ k ∉ inKeys) /\
        (forall o r, opened cm' !! o = Some r -> opened cm !! o = Some r) /\ heap cm' = heap cm
    end.
Proof.
  intros Hinv. unfold DeleteCircuits.
  destruct (delete_mem_ok inKeys _ _ _ _ (delete_result_refl cm (proj1 Hinv)))
    as (cm1 & closing & removed & -> & Hdr & Hrm). rsimpl.
  assert (forall k, is_Some (removed !! k) <-> k ∈ inKeys /\ is_Some (pending cm !! k)) as Hrm'.
  { intros k. rewrite Hrm, lookup_empty. split; [intros [[? [=]]|]; done | by right]. }
  destruct db as [e|]; [rewrite (delete_rollback cm cm1 closing removed) by done; by exists cm|].
  destruct (delete_commit cm cm1 closing removed Hinv Hdr) as (da & dk & -> & Hi). rsimpl.
  eexists. split; [done|]. split; [done|].
  destruct Hdr as [_ Dh _ Dp Dc _ Do _ _]. split_and!; [| | |exact Dh].
  - intros k r. cbn [set_disk_keystones set_disk_adds pending]. rewrite Dp, lookup_difference_Some.
    split; intros [Hp Hn]; (split; [done|]).
    + intros Hki. assert (is_Some (removed !! k)) as [? Hs]; [|congruence].
      apply Hrm'. split; [done|by exists r].
    + apply eq_None_not_Some. rewrite Hrm'. tauto.
  - intros k. cbn [set_disk_keystones set_disk_adds closed].
    rewrite Dc, elem_of_difference, elem_of_dom, Hrm'.
    split; [|tauto]. intros [Hc Hn]. split; [done|]. intros Hki. apply Hn. split; [done|].
    by apply (inv_closed _ (proj1 Hinv)).
  - intros o r Ho. by apply Do in Ho as [Ho _].
Qed.

(** *** Trimming *)

(** [n] consecutive outgoing keys of a channel from [i] on. *)
Fixpoint trim_keys (chanID : ShortChannelID) (i : Z) (n : nat) : list CircuitKey :=
  match n with
  | O => []
  | S n' => {| ChanID := chanID; HtlcID := i |} :: trim_keys chanID (u64 (i + 1)) n'
  end.

(** The index the scan stops at. *)
Fixpoint trim_end (i : Z) (n : nat) : Z :=
  match n with O => i | S n' => trim_end (u64 (i + 1)) n' end.

Definition trim_step (cm : circuitMap) (r : nat) (c : PaymentCircuit) (o : CircuitKey) : circuitMap :=
  let c' := set_Outgoing c None in
  let cm1 := set_heap cm (<[r := c']> (heap cm)) in
  removeCircuitFromHashIndex (set_opened cm1 (delete o (opened cm1))) c'.

Lemma trim_step_fields cm r c o :
  heap (trim_step cm r c o) = <[r := set_Outgoing c None]> (heap cm) /\
  pending (trim_step cm r c o) = pending cm /\ closed (trim_step cm r c o) = closed cm /\
  opened (trim_step cm r c o) = delete o (opened cm) /\
  disk_adds (trim_step cm r c o) = disk_adds cm /\
  disk_keystones (trim_step cm r c o) = disk_keystones cm.
Proof. unfold trim_step. by rewrite removeCircuitFromHashIndex_rest. Qed.

Lemma trim_step_index cm r c o h x :
  in_index (hashIndex (trim_step cm r c o)) h x <->
  in_index (hashIndex cm) h x /\ ~ (h = PaymentHash c /\ x = EmptyCircuitKey).
Proof. unfold trim_step. by rewrite in_index_remove. Qed.

Lemma trim_step_inv cm r c o :
  mem_inv cm -> opened cm !! o = Some r -> heap cm !! r = Some c -> mem_inv (trim_step cm r c o).
Proof.
  intros [Ip Io Ik Ic Ii In] Ho Hc.
  destruct (trim_step_fields cm r c o) as (Fh & Fp & Fc & Fo & _ & _).
  destruct (Io o r Ho) as (c0 & Hc0 & Hout & Hne & Hp). assert (c0 = c) as -> by congruence.
  assert (forall o' r', o <> o' -> opened cm !! o' = Some r' -> r <> r') as Hdiff.
  { intros o' r' Hoo Ho' <-. destruct (Io o' r Ho') as (c' & Hc' & Hout' & _). congruence. }
  split; rewrite ?Fh, ?Fp, ?Fc, ?Fo.
  - intros k r' Hp'. destruct (decide (r = r')) as [<-|Hr]; [|rewrite lookup_insert_ne by done; by apply Ip].
    rewrite lookup_insert_eq. eexists. split; [done|]. simpl.
    destruct (Ip k r Hp') as (c' & Hc' & Hi). congruence.
  - intros o' r' [Hoo Ho']%lookup_delete_Some. rewrite lookup_insert_ne by by eapply Hdiff.
    by apply Io.
  - intros k r' c' o' Hp' [(<- & <-)|(Hr & Hc')]%lookup_insert_Some Ho'; [done|].
    pose proof (Ik k r' c' o' Hp' Hc' Ho') as Hold. rewrite lookup_delete_ne; [done|]. congruence.
  - exact Ic.
  - intros o' r' c' [Hoo Ho']%lookup_delete_Some Hc'. rewrite lookup_insert_ne in Hc' by by eapply Hdiff.
    apply trim_step_index. split; [by eapply Ii|]. intros [_ ->].
    by destruct (Io _ _ Ho') as (? & _ & _ & ? & _).
  - unfold trim_step. apply index_ne_remove. exact In.
Qed.

(** The memory after the scan. *)
Record trim_result (cm cm' : circuitMap) (keys : list CircuitKey) : Prop := {
  tr_inv : mem_inv cm';
  tr_pending : pending cm' = pending cm;
  tr_closed : closed cm' = closed cm;
  tr_disk : disk_adds cm' = disk_adds cm /\ disk_keystones cm' = disk_keystones cm;
  tr_keys : Forall (fun o => is_Some (opened cm !! o)) keys;
  tr_opened : forall o r, opened cm' !! o = Some r <-> opened cm !! o = Some r /\ o ∉ keys;
  tr_heap : forall r, set_Outgoing <$> heap cm' !! r = set_Outgoing <$> heap cm !! r;
  tr_index : forall h o, o <> EmptyCircuitKey ->
    in_index (hashIndex cm') h o <-> in_index (hashIndex cm) h o;
}.

Lemma trim_mem_ok fuel : forall cm chanID i trimmed,
  (size (opened cm) < fuel)%nat -> mem_inv cm ->
  exists cm' n, trim_mem fuel cm chanID i trimmed = Ok (cm', trimmed ++ trim_keys chanID i n) /\
    trim_result cm cm' (trim_keys chanID i n) /\
    opened cm' !! {| ChanID := chanID; HtlcID := trim_end i n |} = None.
Proof.
  induction fuel as [|fuel IH]; intros cm chanID i trimmed Hsize Hm; [lia|]. cbn [trim_mem].
  destruct (opened cm !! {| ChanID := chanID; HtlcID := i |}) as [r|] eqn:Ho.
  - destruct (inv_opened _ Hm _ _ Ho) as (c & Hc & _ & _ & _).
    rewrite (proj2 (deref_ok cm r c) Hc). rsimpl.
    set (o := {| ChanID := chanID; HtlcID := i |}) in *.
    destruct (trim_step_fields cm r c o) as (Fh & Fp & Fc & Fo & Fa & Fk).
    destruct (IH (trim_step cm r c o) chanID (u64 (i + 1)) (trimmed ++ [o]))
      as (cm' & n & Htrim & [Ti Tp Tc [Ta Tk] Tks To Th Tx] & Hend).
    { rewrite Fo, map_size_delete, Ho. simpl.
      assert (size (opened cm) <> 0%nat); [|lia]. intros Hz%map_size_empty_inv.
      by rewrite Hz, lookup_empty in Ho. }
    { by apply trim_step_inv. }
    exists cm', (S n). cbn [trim_keys trim_end]. fold o.
    split; [rewrite <- app_assoc in Htrim; exact Htrim|]. split; [|done].
    split; try congruence.
    + split; congruence.
    + constructor; [by exists r|]. eapply Forall_impl; [exact Tks|]. simpl. intros x [y Hy].
      rewrite Fo in Hy. apply lookup_delete_Some in Hy as [_ Hy]. by exists y.
    + intros o' r'. rewrite To, Fo, lookup_delete_Some, not_elem_of_cons. naive_solver.
    + intros r'. rewrite Th, Fh. destruct (decide (r = r')) as [<-|Hr];
        [by rewrite lookup_insert_eq, Hc | by rewrite lookup_insert_ne].
    + intros h x Hx. rewrite Tx, trim_step_index by done. tauto.
  - exists cm, 0%nat. rewrite app_nil_r. split; [done|]. split; [|done].
    split; try done. intros o r. set_solver.
Qed.

Lemma foldl_delete_lookup (keys : list CircuitKey) : forall (m : gmap CircuitKey CircuitKey) o x,
  foldl (fun m k => delete k m) m keys !! o = Some x <-> m !! o = Some x /\ o ∉ keys.
Proof.
  induction keys as [|k keys IH]; intros m o x; simpl; [set_solver|].
  rewrite IH, lookup_delete_Some, not_elem_of_cons. naive_solver.
Qed.

(** [TrimOpenCircuits] returns, whatever the start index. *)
Lemma TrimOpenCircuits_ok cm chanID start db :
  inv cm ->
  exists cm' err n, TrimOpenCircuits cm chanID start db = Ok (cm', err) /\
    trim_result cm (set_disk_keystones cm' (disk_keystones cm)) (trim_keys chanID start n) /\
    opened cm' !! {| ChanID := chanID; HtlcID := trim_end start n |} = None /\
    (err = None -> inv cm').
Proof.
  intros [Hm [Ha Hk]]. unfold TrimOpenCircuits.
  destruct (trim_mem_ok (S (size (opened cm))) cm chanID start [] ltac:(lia) Hm)
    as (cm1 & n & -> & Htr & Hend). rsimpl. simpl app.
  pose proof Htr as [Ti Tp Tc [Ta Tk] Tks To Th Tx].
  assert (forall r, Encode <$> heap cm1 !! r = Encode <$> heap cm !! r) as He.
  { intros r. specialize (Th r). destruct (heap cm1 !! r) as [c1|], (heap cm !! r) as [c|]; try done.
    injection Th as Th. apply (f_equal (fun f => Encode (f None))) in Th. simpl. f_equal. exact Th. }
  assert (forall r, Incoming <$> heap cm1 !! r = Incoming <$> heap cm !! r) as Hi.
  { intros r. specialize (Th r). destruct (heap cm1 !! r) as [c1|], (heap cm !! r) as [c|]; try done.
    injection Th as Th. apply (f_equal (fun f => Incoming (f None))) in Th. simpl. f_equal. exact Th. }
  assert (forall d, trim_result cm (set_disk_keystones (set_disk_keystones cm1 d) (disk_keystones cm))
    (trim_keys chanID start n)) as Htr' by (intros d; split; try done; by destruct Ti; split).
  assert (disk_inv (set_disk_keystones cm1
    (foldl (fun m k => delete k m) (disk_keystones cm1) (trim_keys chanID start n)))) as Hdisk.
  { split; cbn [set_disk_keystones disk_adds disk_keystones opened pending heap].
    - intros k. rewrite Ta, Ha, Tp. destruct (pending cm !! k); [|done]. simpl. by rewrite He.
    - intros o. apply option_eq. intros x. rewrite foldl_delete_lookup, Tk, Hk.
      destruct (opened cm1 !! o) as [r|] eqn:Ho.
      + apply To in Ho as [Ho Hn]. rewrite Ho. cbn [mbind option_bind]. rewrite Hi. tauto.
      + cbn [mbind option_bind]. split; [|done]. intros [Hx Hn]. exfalso.
        destruct (opened cm !! o) as [r|] eqn:Ho2; [|done].
        assert (opened cm1 !! o = Some r) by by apply To. congruence. }
  assert (forall d, mem_inv (set_disk_keystones cm1 d)) as Hmem by (intros d; by destruct Ti; split).
  destruct (trim_keys chanID start n) as [|k0 ks] eqn:Hks.
  { exists cm1, None, n. rewrite Hks. split; [done|].
    specialize (Htr' (disk_keystones cm1)).
    split; [by destruct cm1|]. split; [done|]. intros _. split; [by destruct cm1|].
    simpl in Hdisk. by destruct cm1. }
  destruct db as [e|].
  - exists cm1, (Some e), n. rewrite Hks. split; [done|]. specialize (Htr' (disk_keystones cm1)).
    split; [by destruct cm1|]. split; done.
  - eexists _, None, n. rewrite Hks. split; [reflexivity|]. split; [apply Htr'|]. split; [done|].
    intros _. by split.
Qed.

(** *** Restarting *)

(** Every circuit object is well formed and its encrypter can be derived again. *)
Definition heap_ok (extract : Extracter) (cm : circuitMap) : Prop :=
  forall r c, heap cm !! r = Some c -> wf_circuit c /\ extractable extract c.

(** The circuit filed under a key. *)
Definition circuit_at (m : gmap CircuitKey nat) (cm : circuitMap) (k : CircuitKey)
    : option PaymentCircuit := m !! k ≫= fun r => heap cm !! r.

(** References and circuits determine each other. *)
Definition consistent (h : gmap nat PaymentCircuit) (p : gmap CircuitKey nat) : Prop :=
  (forall k r, p !! k = Some r -> exists c, h !! r = Some c /\ Incoming c = k) /\
  (forall r c, h !! r = Some c -> p !! Incoming c = Some r).

Definition loaded (c : PaymentCircuit) : PaymentCircuit :=
  set_LoadedFromDisk (set_Outgoing c None) true.

Lemma Encode_loaded extract c c0 :
  wf_circuit c -> extractable extract c -> wf_circuit c0 -> extractable extract c0 ->
  Encode c = Encode c0 -> loaded c = loaded c0.
Proof.
  intros Hwf Hex Hwf0 Hex0 He.
  pose proof (decodeCircuit_Encode extract c Hwf Hex) as D1.
  pose proof (decodeCircuit_Encode extract c0 Hwf0 Hex0) as D2.
  rewrite <- He, D1 in D2. apply Ok_inj in D2.
  exact (f_equal (fun x => set_LoadedFromDisk x true) D2).
Qed.

Lemma restore_pending_ok extract l : forall next h p,
  NoDup l.*1 ->
  Forall (fun x => exists c, wf_circuit c /\ extractable extract c /\ Incoming c = x.1 /\ x.2 = Encode c) l ->
  consistent h p -> (forall k, k ∈ l.*1 -> p !! k = None) -> (forall r, is_Some (h !! r) -> (r < next)%nat) ->
  exists h' p', restore_pending extract l next h p = Ok (h', p') /\ consistent h' p' /\
    forall k c, (p' !! k ≫= fun r => h' !! r) = Some c <->
      (exists c0, (k, Encode c0) ∈ l /\ wf_circuit c0 /\ extractable extract c0 /\
         Incoming c0 = k /\ c = loaded c0) \/
      ((k ∉ l.*1) /\ (p !! k ≫= fun r => h !! r) = Some c).
Proof.
  induction l as [|[k b] l IH]; intros next h p Hnd Hf [C1 C2] Hp Hlt.
  { exists h, p. split; [done|]. split; [done|]. intros k c. set_solver. }
  rewrite fmap_cons in Hnd. apply NoDup_cons in Hnd as [Hkn Hnd].
  apply Forall_cons in Hf as [(c & Hwf & Hex & Hin & Hb) Hf]. simpl in Hin, Hb. subst b.
  cbn [restore_pending]. rewrite decodeCircuit_Encode by done. rsimpl.
  assert (next ∉ dom h) as Hfresh.
  { intros [x Hx]%elem_of_dom. assert (next < next)%nat; [apply Hlt; by exists x|lia]. }
  apply not_elem_of_dom in Hfresh.
  change (set_LoadedFromDisk (set_LoadedFromDisk (set_Outgoing c None) false) true) with (loaded c).
  change (Incoming (loaded c)) with (Incoming c). rewrite Hin.
  assert (forall k' r, p !! k' = Some r -> r <> next) as Hrn.
  { intros k' r Hr ->. destruct (C1 _ _ Hr) as (c' & Hc' & _). congruence. }
  assert (p !! k = None) as Hpk by (apply Hp; by left).
  destruct (IH (S next) (<[next := loaded c]> h) (<[k := next]> p)) as (h' & p' & Hres & Hcons & Hlook).
  - done.
  - done.
  - split.
    + intros k' r [(<- & <-)|(Hne & Hr)]%lookup_insert_Some.
      * exists (loaded c). by rewrite lookup_insert_eq.
      * rewrite lookup_insert_ne by (symmetry; by eapply Hrn). by apply C1.
    + intros r c' [(<- & <-)|(Hne & Hc')]%lookup_insert_Some.
      * change (Incoming (loaded c)) with (Incoming c). rewrite Hin. apply lookup_insert_eq.
      * pose proof (C2 _ _ Hc') as Hc2. rewrite lookup_insert_ne; [done|]. intros He. congruence.
  - intros k' Hk'. rewrite lookup_insert_ne; [apply Hp; by right|]. intros <-. done.
  - intros r [x [(<- & _)|(_ & Hx)]%lookup_insert_Some]; [lia|].
    assert (r < next)%nat; [apply Hlt; by exists x|lia].
  - exists h', p'. split; [done|]. split; [done|]. intros k' c'. rewrite Hlook. clear Hlook Hres.
    setoid_rewrite elem_of_cons. destruct (decide (k' = k)) as [->|Hne].
    + rewrite lookup_insert_eq. cbn [mbind option_bind]. rewrite lookup_insert_eq. split.
      * intros [(c0 & Hin' & _)|(_ & [= <-])].
        -- exfalso. apply Hkn. apply list_elem_of_fmap. by exists (k, Encode c0).
        -- left. exists c. split_and!; try done. by left.
      * intros [(c0 & [He|Hin'] & Hwf0 & Hex0 & Hk0 & ->)|(Hk' & _)].
        -- right. split; [done|]. f_equal. apply (Encode_loaded extract); try done.
           exact (eq_sym (f_equal snd He)).
        -- exfalso. apply Hkn. apply list_elem_of_fmap. by exists (k, Encode c0).
        -- exfalso. apply Hk'. by left.
    + rewrite lookup_insert_ne by done.
      assert (p !! k' ≫= (fun r => <[next:=loaded c]> h !! r) = p !! k' ≫= fun r => h !! r) as ->.
      { destruct (p !! k') as [r|] eqn:Hr; [|done]. cbn [mbind option_bind].
        rewrite lookup_insert_ne; [done|]. symmetry. by eapply Hrn. }
      split.
      * intros [(c0 & Hin' & Hrest)|(Hk' & Hc')]; [left; exists c0; split; [by right|done]|].
        right. split; [|done]. intros [?|?]; done.
      * intros [(c0 & [He|Hin'] & Hrest)|(Hk' & Hc')]; [by destruct Hne; apply (f_equal fst) in He|left; by exists c0|].
        right. split; [|done]. intros ?. apply Hk'. by right.
Qed.

(** The keystone a list of keystone entries gives a circuit. *)
Definition reopen (l : list (CircuitKey * CircuitKey)) (c : PaymentCircuit) : PaymentCircuit :=
  match (list_to_map ((fun x => (x.2, x.1)) <$> l) : gmap CircuitKey CircuitKey) !! Incoming c with
  | Some o => set_Outgoing c (Some o)
  | None => c
  end.

Lemma reopen_Incoming l c : Incoming (reopen l c) = Incoming c.
Proof. unfold reopen. by destruct (list_to_map _ !! _). Qed.

Lemma restore_opened_ok l : forall h p o stray,
  NoDup l.*1 -> NoDup l.*2 -> consistent h p -> Forall (fun x => is_Some (p !! x.2)) l ->
  exists h' o', restore_opened l h p o stray = Ok (h', o', stray) /\
    (forall r, h' !! r = reopen l <$> h !! r) /\
    (forall x, o' !! x = match (list_to_map l : gmap CircuitKey CircuitKey) !! x with
                         | Some k => p !! k
                         | None => o !! x
                         end).
Proof.
  induction l as [|[x k] l IH]; intros h p o stray Hn1 Hn2 [C1 C2] Hf; simpl.
  { exists h, o. split; [done|]. split; [|done]. intros r. by destruct (h !! r). }
  rewrite fmap_cons in Hn1, Hn2. apply NoDup_cons in Hn1 as [Hx Hn1]. apply NoDup_cons in Hn2 as [Hk Hn2].
  apply Forall_cons in Hf as [[r Hr] Hf]. simpl in Hr, Hx, Hk. rewrite Hr.
  destruct (C1 _ _ Hr) as (c & Hc & Hin). rewrite Hc.
  destruct (IH (<[r := set_Outgoing c (Some x)]> h) p (<[x := r]> o) stray) as (h' & o' & Hres & Hh & Ho).
  - done.
  - done.
  - split.
    + intros k' r' Hr'. destruct (decide (r = r')) as [<-|Hne].
      * rewrite lookup_insert_eq. eexists. split; [done|]. simpl. destruct (C1 _ _ Hr') as (c' & Hc' & Hi). congruence.
      * rewrite lookup_insert_ne by done. by apply C1.
    + intros r' c' [(<- & <-)|(Hne & Hc')]%lookup_insert_Some; [simpl; congruence|by apply C2].
  - done.
  - exists h', o'. split; [done|]. split.
    + intros r'. rewrite Hh. unfold reopen. rewrite fmap_cons. cbn [list_to_map fst snd].
      assert ((list_to_map ((fun x => (x.2, x.1)) <$> l) : gmap CircuitKey CircuitKey) !! k = None) as Hnone.
      { apply not_elem_of_list_to_map_1. rewrite <- list_fmap_compose. done. }
      destruct (decide (r = r')) as [<-|Hne].
      * rewrite lookup_insert_eq, Hc. simpl. by rewrite Hin, Hnone, lookup_insert_eq.
      * rewrite lookup_insert_ne by done. destruct (h !! r') as [c'|] eqn:Hc'; [|done]. simpl. f_equal.
        rewrite lookup_insert_ne; [done|]. intros He. apply C2 in Hc'. congruence.
    + intros y. rewrite Ho. destruct (decide (x = y)) as [<-|Hne].
      * rewrite (not_elem_of_list_to_map_1 l x Hx), !lookup_insert_eq. done.
      * by rewrite !lookup_insert_ne by done.
Qed.

Lemma index_opened_ok l : forall cm,
  (forall k r, (k, r) ∈ l -> is_Some (heap cm !! r)) ->
  (forall h S, hashIndex cm !! h = Some S -> S <> ∅) ->
  exists hi, index_opened cm l = Ok (set_hashIndex cm hi) /\
    (forall h x, in_index hi h x <-> in_index (hashIndex cm) h x \/
       exists k r c, (k, r) ∈ l /\ heap cm !! r = Some c /\ x = OutKey c /\ h = PaymentHash c) /\
    (forall h S, hi !! h = Some S -> S <> ∅).
Proof.
  induction l as [|[k r] l IH]; intros cm Hh Hne; simpl.
  { exists (hashIndex cm). split; [by destruct cm|]. split; [|done]. set_solver. }
  destruct (Hh k r) as [c Hc]; [by left|]. rewrite (proj2 (deref_ok cm r c) Hc). rsimpl.
  destruct (IH (addCircuitToHashIndex cm c)) as (hi & Hres & Hi & Hn).
  - intros k' r' Hin. apply (Hh k'). by right.
  - by apply index_ne_add.
  - exists hi. split; [done|]. split; [|done]. intros h x. rewrite Hi, in_index_add.
    cbn [addCircuitToHashIndex set_hashIndex heap]. setoid_rewrite elem_of_cons. split.
    + intros [[?|[-> ->]]|(k' & r' & c' & Hin & Hc' & -> & ->)]; [by left| |].
      * right. exists k, r, c. split; [by left|done].
      * right. exists k', r', c'. split; [by right|done].
    + intros [?|(k' & r' & c' & [[= -> ->]|Hin] & Hc' & -> & ->)]; [by left; left| |].
      * left. right. split; congruence.
      * right. by exists k', r', c'.
Qed.

(** The entries of the two buckets, under the invariant. *)
Lemma key_entries_spec {V} (m : gmap CircuitKey V) :
  NoDup (key_entries m).*1 /\ forall k v, (k, v) ∈ key_entries m <-> m !! k = Some v.
Proof.
  unfold key_entries. split.
  - rewrite merge_sort_Permutation. apply NoDup_fst_map_to_list.
  - intros k v. rewrite merge_sort_Permutation. apply elem_of_map_to_list.
Qed.

Lemma disk_adds_entries extract cm :
  inv cm -> heap_ok extract cm ->
  forall k b, disk_adds cm !! k = Some b <->
    exists r c, pending cm !! k = Some r /\ heap cm !! r = Some c /\ Incoming c = k /\ b = Encode c /\
      wf_circuit c /\ extractable extract c.
Proof.
  intros [Hm [Ha _]] Hok k b. rewrite Ha. split.
  - intros Hb. destruct (pending cm !! k) as [r|] eqn:Hr; [|done]. simpl in Hb.
    destruct (inv_pending _ Hm _ _ Hr) as (c & Hc & Hin). rewrite Hc in Hb. injection Hb as <-.
    exists r, c. destruct (Hok r c Hc). done.
  - intros (r & c & Hr & Hc & _ & -> & _). rewrite Hr. simpl. by rewrite Hc.
Qed.

Lemma disk_keystones_entries cm :
  inv cm -> forall o k, disk_keystones cm !! o = Some k <->
    exists r c, pending cm !! k = Some r /\ heap cm !! r = Some c /\ Incoming c = k /\
      Outgoing c = Some o /\ opened cm !! o = Some r.
Proof.
  intros [Hm [_ Hk]] o k. rewrite Hk. split.
  - intros Hb. destruct (opened cm !! o) as [r|] eqn:Hr; [|done]. simpl in Hb.
    destruct (inv_opened _ Hm _ _ Hr) as (c & Hc & Hout & _ & Hp). rewrite Hc in Hb. injection Hb as <-.
    by exists r, c.
  - intros (r & c & _ & Hc & Hin & _ & Ho). rewrite Ho. simpl. by rewrite Hc, <- Hin.
Qed.

Section Restart.
Context (extract : Extracter) (cm : circuitMap).
Hypothesis Hinv : inv cm.
Hypothesis Hok : heap_ok extract cm.

#[local] Abbreviation adds_entries := (key_entries (disk_adds cm)).
#[local] Abbreviation ks_entries := (key_entries (disk_keystones cm)).

Lemma pending_restored :
  exists h p, restore_pending extract adds_entries 0 ∅ ∅ = Ok (h, p) /\ consistent h p /\
    forall k, (p !! k ≫= fun r => h !! r) = loaded <$> circuit_at (pending cm) cm k.
Proof.
  destruct (key_entries_spec (disk_adds cm)) as [Hnd Hin].
  destruct (restore_pending_ok extract adds_entries 0 ∅ ∅) as (h & p & Hres & Hcons & Hlook); try done.
  - apply Forall_forall. intros [k b] (r & c & _ & _ & Hi & Hb & Hwf & Hex)%Hin%(disk_adds_entries extract); [|done..].
    by exists c.
  - intros r [x Hx]. by rewrite lookup_empty in Hx.
  - exists h, p. split; [done|]. split; [done|]. intros k. apply option_eq. intros c.
    rewrite Hlook, lookup_empty. setoid_rewrite Hin. unfold circuit_at. split.
    + intros [(c0 & Hd & Hwf0 & Hex0 & _ & ->)|[_ Hc]]; [|done].
      apply (disk_adds_entries extract) in Hd as (r & c & Hr & Hc & _ & He & Hwf & Hex); [|done..].
      rewrite Hr. simpl. rewrite Hc. simpl. f_equal. by apply (Encode_loaded extract).
    + intros Hc. left. destruct (pending cm !! k) as [r|] eqn:Hr; [|done]. simpl in Hc.
      destruct (inv_pending _ (proj1 Hinv) _ _ Hr) as (c0 & Hc0 & Hk0). rewrite Hc0 in Hc.
      injection Hc as <-. exists c0. destruct (Hok r c0 Hc0). split_and!; try done.
      apply (disk_adds_entries extract); [done..|]. by exists r, c0.
Qed.

Lemma ks_entries_ins : NoDup ks_entries.*2.
Proof.
  destruct (key_entries_spec (disk_keystones cm)) as [Hnd Hin].
  apply NoDup_fmap_2_strong; [|by eapply NoDup_fmap_1].
  intros [o k] [o' k'] Hx%Hin Hx'%Hin He. simpl in He. subst k'.
  apply disk_keystones_entries in Hx as (r & c & Hr & Hc & _ & Ho & _); [|done].
  apply disk_keystones_entries in Hx' as (r' & c' & Hr' & Hc' & _ & Ho' & _); [|done]. congruence.
Qed.

(** The reverse of the keystone bucket is the outgoing key of the circuit. *)
Lemma ks_entries_reverse k r c :
  pending cm !! k = Some r -> heap cm !! r = Some c ->
  (list_to_map ((fun x => (x.2, x.1)) <$> ks_entries) : gmap CircuitKey CircuitKey) !! k = Outgoing c.
Proof.
  intros Hr Hc. destruct (key_entries_spec (disk_keystones cm)) as [Hnd Hin].
  apply option_eq. intros o.
  assert (NoDup ((fun x : CircuitKey * CircuitKey => (x.2, x.1)) <$> ks_entries).*1) as Hnd'.
  { rewrite <- list_fmap_compose. apply ks_entries_ins. }
  rewrite <- (elem_of_list_to_map _ _ _ Hnd'), list_elem_of_fmap. split.
  - intros ([o' k'] & [= -> ->] & Hx%Hin).
    apply disk_keystones_entries in Hx as (r' & c' & Hr' & Hc' & _ & Ho' & _); [|done]. congruence.
  - intros Ho. exists (o, k). split; [done|]. apply Hin, disk_keystones_entries; [done|].
    pose proof (inv_keystone _ (proj1 Hinv) _ _ _ _ Hr Hc Ho) as Hop. exists r, c.
    destruct (inv_pending _ (proj1 Hinv) _ _ Hr) as (c' & Hc' & Hk'). split_and!; congruence.
Qed.

Lemma reopen_loaded k r c :
  pending cm !! k = Some r -> heap cm !! r = Some c ->
  reopen ks_entries (loaded c) = set_LoadedFromDisk c true.
Proof.
  intros Hr Hc. unfold reopen. change (Incoming (loaded c)) with (Incoming c).
  destruct (inv_pending _ (proj1 Hinv) _ _ Hr) as (c' & Hc' & Hk'). assert (c' = c) as -> by congruence.
  rewrite Hk', (ks_entries_reverse k r c Hr Hc).
  unfold loaded, set_LoadedFromDisk, set_Outgoing. destruct c as [? ? [o|] ? ? ? ? ?]; done.
Qed.

(** The state that [restoreMemState] rebuilds. *)
Definition restored (cm' : circuitMap) : Prop :=
  inv cm' /\ heap_ok extract cm' /\ closed cm' = ∅ /\
  disk_adds cm' = disk_adds cm /\ disk_keystones cm' = disk_keystones cm /\
  (forall k, circuit_at (pending cm') cm' k =
     (fun c => set_LoadedFromDisk c true) <$> circuit_at (pending cm) cm k) /\
  (forall o, circuit_at (opened cm') cm' o =
     (fun c => set_LoadedFromDisk c true) <$> circuit_at (opened cm) cm o) /\
  (forall h o, in_index (hashIndex cm') h o <->
     exists c, circuit_at (opened cm) cm o = Some c /\ PaymentHash c = h).

Lemma opened_circuit_at x :
  circuit_at (opened cm) cm x = disk_keystones cm !! x ≫= circuit_at (pending cm) cm.
Proof.
  apply option_eq. intros c. unfold circuit_at. split.
  - intros Hx. destruct (opened cm !! x) as [r|] eqn:Ho; [|done]. simpl in Hx.
    destruct (inv_opened _ (proj1 Hinv) _ _ Ho) as (c' & Hc' & Hout & _ & Hp).
    assert (c' = c) as -> by congruence.
    rewrite (proj2 (disk_keystones_entries cm Hinv x (Incoming c))); [|by exists r, c].
    simpl. by rewrite Hp.
  - intros Hx. destruct (disk_keystones cm !! x) as [k|] eqn:Hk; [|done]. simpl in Hx.
    apply disk_keystones_entries in Hk as (r & c' & Hr & Hc' & _ & _ & Ho); [|done].
    rewrite Hr in Hx. rewrite Ho. done.
Qed.

(** The rebuilt heap, pending map and opened map, before the hash index. *)
Lemma opened_restored :
  exists h p h2 o2, restore_pending extract adds_entries 0 ∅ ∅ = Ok (h, p) /\
    restore_opened ks_entries h p ∅ [] = Ok (h2, o2, []) /\ consistent h2 p /\
    (forall k, (p !! k ≫= fun r => h2 !! r) =
       (fun c => set_LoadedFromDisk c true) <$> circuit_at (pending cm) cm k) /\
    (forall x, o2 !! x = disk_keystones cm !! x ≫= fun k => p !! k).
Proof.
  destruct pending_restored as (h & p & Hp & [C1 C2] & Hlook).
  destruct (key_entries_spec (disk_keystones cm)) as [Hnd Hin].
  destruct (restore_opened_ok ks_entries h p ∅ []) as (h2 & o2 & Ho & Hh2 & Ho2);
    [done|apply ks_entries_ins|done| |].
  { apply Forall_forall. intros [x k] (r & c & Hr & Hc & _)%Hin%disk_keystones_entries; [|done].
    specialize (Hlook k). unfold circuit_at in Hlook. rewrite Hr in Hlook. simpl in Hlook.
    rewrite Hc in Hlook. simpl. by destruct (p !! k). }
  exists h, p, h2, o2. split; [done|]. split; [done|]. split; [split|split].
  - intros k r Hr. destruct (C1 _ _ Hr) as (c & Hc & Hk). rewrite Hh2, Hc. simpl.
    eexists. split; [done|]. by rewrite reopen_Incoming.
  - intros r c Hc. rewrite Hh2 in Hc. destruct (h !! r) as [c0|] eqn:Hc0; [|done].
    injection Hc as <-. rewrite reopen_Incoming. by apply C2.
  - intros k. specialize (Hlook k). unfold circuit_at in *.
    destruct (pending cm !! k) as [r|] eqn:Hr; simpl in *.
    + destruct (inv_pending _ (proj1 Hinv) _ _ Hr) as (c & Hc & _). rewrite Hc in *. simpl in *.
      destruct (p !! k) as [r'|]; [|done]. simpl in *. rewrite Hh2, Hlook. simpl. f_equal.
      by eapply reopen_loaded.
    + destruct (p !! k) as [r'|]; [|done]. simpl in *. by rewrite Hh2, Hlook.
  - intros x. rewrite Ho2.
    assert ((list_to_map ks_entries : gmap CircuitKey CircuitKey) !! x = disk_keystones cm !! x) as ->.
    { apply option_eq. intros k. by rewrite <- (elem_of_list_to_map _ _ _ Hnd), Hin. }
    by destruct (disk_keystones cm !! x).
Qed.

(** An opened entry of the rebuilt map is a circuit with that outgoing key. *)
Lemma opened_restored_iff (h2 : gmap nat PaymentCircuit) (p o2 : gmap CircuitKey nat) x r :
  consistent h2 p ->
  (forall k, (p !! k ≫= fun r => h2 !! r) =
     (fun c => set_LoadedFromDisk c true) <$> circuit_at (pending cm) cm k) ->
  (forall x, o2 !! x = disk_keystones cm !! x ≫= fun k => p !! k) ->
  o2 !! x = Some r <-> exists c, h2 !! r = Some c /\ Outgoing c = Some x.
Proof.
  intros [C1 C2] Hp Ho. rewrite Ho. split.
  - intros Hx. destruct (disk_keystones cm !! x) as [k|] eqn:Hk; [|done]. simpl in Hx.
    apply disk_keystones_entries in Hk as (r0 & c & Hr & Hc & _ & Hout & _); [|done].
    specialize (Hp k). unfold circuit_at in Hp. rewrite Hx, Hr in Hp. simpl in Hp.
    rewrite Hc in Hp. simpl in Hp. eexists. split; [exact Hp|]. exact Hout.
  - intros (c' & Hc' & Hout). pose proof (C2 _ _ Hc') as Hpk. specialize (Hp (Incoming c')).
    rewrite Hpk in Hp. simpl in Hp. rewrite Hc' in Hp. unfold circuit_at in Hp.
    destruct (pending cm !! Incoming c') as [r0|] eqn:Hr; [|done]. simpl in Hp.
    destruct (heap cm !! r0) as [c|] eqn:Hc; [|done]. injection Hp as ->. simpl in *.
    pose proof (inv_keystone _ (proj1 Hinv) _ _ _ _ Hr Hc Hout) as Hop.
    rewrite (proj2 (disk_keystones_entries cm Hinv x (Incoming c))); [done|]. by exists r0, c.
Qed.

Lemma restored_state (h2 : gmap nat PaymentCircuit) (p o2 : gmap CircuitKey nat) hi :
  consistent h2 p ->
  (forall k, (p !! k ≫= fun r => h2 !! r) =
     (fun c => set_LoadedFromDisk c true) <$> circuit_at (pending cm) cm k) ->
  (forall x, o2 !! x = disk_keystones cm !! x ≫= fun k => p !! k) ->
  (forall x, (o2 !! x ≫= fun r => h2 !! r) =
     (fun c => set_LoadedFromDisk c true) <$> circuit_at (opened cm) cm x) ->
  (forall h x, in_index hi h x <->
     exists c, circuit_at (opened cm) cm x = Some c /\ PaymentHash c = h) ->
  (forall h S, hi !! h = Some S -> S <> ∅) ->
  restored (CircuitMap h2 p o2 ∅ hi (disk_adds cm) (disk_keystones cm)).
Proof.
  intros Hcons Hlp Hlo Hop Hindex Hn. pose proof Hcons as [C1 C2].
  pose proof (fun x r => opened_restored_iff h2 p o2 x r Hcons Hlp Hlo) as Hiff.
  assert (forall r c, h2 !! r = Some c -> exists r0 c0, heap cm !! r0 = Some c0 /\ c = set_LoadedFromDisk c0 true) as Horig.
  { intros r c Hc. specialize (Hlp (Incoming c)). rewrite (C2 _ _ Hc) in Hlp. simpl in Hlp. rewrite Hc in Hlp.
    unfold circuit_at in Hlp. destruct (pending cm !! Incoming c) as [r0|]; [|done]. simpl in Hlp.
    destruct (heap cm !! r0) as [c0|] eqn:Hc0; [|done]. injection Hlp as ->. by exists r0, c0. }
  split; [split; [split|split]|split_and!]; cbn [heap pending opened closed hashIndex disk_adds disk_keystones]; try done.
  - intros o r Ho. pose proof Ho as (c & Hc & Hout)%Hiff. exists c. split_and!; try done; [|by apply C2].
    rewrite Hlo in Ho. destruct (disk_keystones cm !! o) as [k|] eqn:Hk; [|done].
    apply disk_keystones_entries in Hk as (r0 & c0 & _ & _ & _ & _ & Hopen); [|done].
    by destruct (inv_opened _ (proj1 Hinv) _ _ Hopen) as (? & _ & _ & ? & _).
  - intros k r c o _ Hc Ho. apply Hiff. by exists c.
  - intros o r c Ho Hc. apply Hindex. specialize (Hop o). rewrite Ho in Hop. simpl in Hop.
    rewrite Hc in Hop. destruct (circuit_at (opened cm) cm o) as [c0|]; [|done].
    injection Hop as ->. by exists c0.
  - intros k. specialize (Hlp k). destruct Hinv as [_ [Ha _]]. rewrite Ha. unfold circuit_at in Hlp.
    destruct (pending cm !! k) as [r0|], (p !! k) as [r|]; simpl in *; rewrite ?Hlp; try done.
    + by destruct (heap cm !! r0).
    + by destruct (heap cm !! r0).
  - intros o. specialize (Hop o). destruct Hinv as [_ [_ Hk]]. rewrite Hk. unfold circuit_at in Hop.
    destruct (opened cm !! o) as [r0|], (o2 !! o) as [r|]; simpl in *; rewrite ?Hop; try done.
    + by destruct (heap cm !! r0).
    + by destruct (heap cm !! r0).
  - intros r c Hc. destruct (Horig r c Hc) as (r0 & c0 & Hc0 & ->). exact (Hok r0 c0 Hc0).
Qed.

Lemma restoreMemState_ok : exists cm', restoreMemState extract cm None = Ok cm' /\ restored cm'.
Proof.
  destruct opened_restored as (h & p & h2 & o2 & Hp & Ho & [C1 C2] & Hlp & Hlo).
  pose proof (fun x r => opened_restored_iff h2 p o2 x r (conj C1 C2) Hlp Hlo) as Hiff.
  unfold restoreMemState. rewrite Hp. rsimpl. rewrite Ho. rsimpl.
  set (cm0 := CircuitMap h2 p o2 ∅ ∅ (disk_adds cm) (prune_stray (disk_keystones cm) [])).
  destruct (index_opened_ok (map_to_list o2) cm0) as (hi & -> & Hi & Hn).
  { intros x r Hx%elem_of_map_to_list. apply Hiff in Hx as (c & Hc & _). by exists c. }
  { intros x S Hx. cbn [hashIndex cm0] in Hx. by rewrite lookup_empty in Hx. }
  eexists. split; [reflexivity|].
  assert (forall x, (o2 !! x ≫= fun r => h2 !! r) =
    (fun c => set_LoadedFromDisk c true) <$> circuit_at (opened cm) cm x) as Hop.
  { intros x. rewrite Hlo, opened_circuit_at.
    destruct (disk_keystones cm !! x) as [k|]; [|done]. simpl. apply Hlp. }
  assert (forall h x, in_index hi h x <->
    exists c, circuit_at (opened cm) cm x = Some c /\ PaymentHash c = h) as Hindex.
  { intros y x. rewrite Hi. setoid_rewrite elem_of_map_to_list. split.
    - intros [(S & HS & _)|(k & r & c & Hk & Hc & -> & ->)]; [cbn [hashIndex cm0] in HS; by rewrite lookup_empty in HS|].
      cbn [heap cm0] in Hc. pose proof Hk as (c' & Hc' & Hout)%Hiff. assert (c' = c) as -> by congruence.
      assert (OutKey c = k) as -> by (unfold OutKey; by rewrite Hout).
      specialize (Hop k). rewrite Hk in Hop. simpl in Hop. rewrite Hc in Hop.
      destruct (circuit_at (opened cm) cm k) as [c1|]; [|done]. injection Hop as ->. by exists c1.
    - intros (c & Hc & <-). right. specialize (Hop x). rewrite Hc in Hop. simpl in Hop.
      destruct (o2 !! x) as [r|] eqn:Hx; [|done]. simpl in Hop. exists x, r. eexists.
      split; [done|]. split; [exact Hop|]. split; [|done].
      apply Hiff in Hx as (c' & Hc' & Hout). unfold OutKey. rewrite Hop in Hc'. injection Hc' as <-.
      by rewrite Hout. }
  eapply restored_state; done.
Qed.

End Restart.

End Invariant.

(** ** Histories *)

Section Histories.
Context `{Sphinx} (extract : Extracter).

(** The operations the switch and its links perform.  [OAlloc] is the creation of a
    circuit object by [newPaymentCircuit]; the other arguments are those of the
    methods, with the outcome of the database transaction last. *)
Inductive cm_op :=
| OAlloc (r : nat) (c : PaymentCircuit)
| OCommit (circuits : list nat) (db : option error)
| OOpen (keystones : list Keystone) (db : option error)
| OClose (outKey : CircuitKey)
| OFail (inKey : CircuitKey)
| ODelete (inKeys : list CircuitKey) (db : option error)
| OTrim (chanID : ShortChannelID) (start : Z) (db : option error)
| ORestart.

(** The transaction of a trim, if the operation is one, is written.  A failing commit, open
    or delete is rolled back in memory, a failing trim is not. *)
Definition written (op : cm_op) : bool :=
  match op with OTrim _ _ (Some _) => false | _ => true end.

Definition apply_op (cm : circuitMap) (op : cm_op) : res circuitMap :=
  match op with
  | OAlloc r c => Ok (set_heap cm (<[r := c]> (heap cm)))
  | OCommit circuits db => '(cm', _, _) ← CommitCircuits cm circuits db; Ok cm'
  | OOpen keystones db => '(cm', _) ← OpenCircuits cm keystones db; Ok cm'
  | OClose outKey => Ok (CloseCircuit cm outKey).1
  | OFail inKey => Ok (FailCircuit cm inKey).1
  | ODelete inKeys db => '(cm', _) ← DeleteCircuits cm inKeys db; Ok cm'
  | OTrim chanID start db => '(cm', _) ← TrimOpenCircuits cm chanID start db; Ok cm'
  | ORestart => restoreMemState extract cm None
  end.

(** What the callers respect. *)
Definition op_args (cm : circuitMap) (op : cm_op) : Prop :=
  match op with
  | OAlloc r c =>
      heap cm !! r = None /\ Outgoing c = None /\ wf_circuit c /\ extractable extract c
  | OCommit circuits _ => commit_args cm circuits
  | OOpen keystones _ => open_args cm keystones
  | _ => True
  end.

(** The states of the switch, from an empty database on, and whether every trim since the
    last restart was written.  A trim whose transaction fails may be followed by a restart,
    as it is at start-up, or by any other operations; of the histories with a restart after
    such operations nothing is said: the keystones left on disk may then belong to circuits
    that were opened under another key meanwhile. *)
Inductive reachable : bool -> circuitMap -> Prop :=
| reach_empty : reachable true empty_map
| reach_step b cm op cm' :
    reachable b cm -> op_args cm op -> (op = ORestart -> b = true) ->
    apply_op cm op = Ok cm' -> reachable (b && written op) cm'
| reach_retry cm chanID start e cm1 err cm' :
    reachable true cm -> TrimOpenCircuits cm chanID start (Some e) = Ok (cm1, err) ->
    apply_op cm1 ORestart = Ok cm' -> reachable true cm'.

Lemma alloc_inv cm r c :
  inv cm -> heap cm !! r = None -> inv (set_heap cm (<[r := c]> (heap cm))).
Proof.
  intros [[Ip Io Ik Ic Ii In] [Ha Hk]] Hr.
  assert (forall k x, pending cm !! k = Some x -> r <> x) as Hp.
  { intros k x Hx <-. destruct (Ip _ _ Hx) as (c' & Hc' & _). congruence. }
  assert (forall o x, opened cm !! o = Some x -> r <> x) as Ho.
  { intros o x Hx <-. destruct (Io _ _ Hx) as (c' & Hc' & _). congruence. }
  split; [split|split]; cbn [set_heap heap pending opened closed hashIndex disk_adds disk_keystones]; try done.
  - intros k x Hx. rewrite lookup_insert_ne by by eapply Hp. by apply Ip.
  - intros o x Hx. rewrite lookup_insert_ne by by eapply Ho. by apply Io.
  - intros k x c' o Hx Hc'. rewrite lookup_insert_ne in Hc' by by eapply Hp. by eapply Ik.
  - intros o x c' Hx Hc'. rewrite lookup_insert_ne in Hc' by by eapply Ho. by eapply Ii.
  - intros k. rewrite Ha. destruct (pending cm !! k) as [x|] eqn:Hx; [|done]. simpl.
    by rewrite lookup_insert_ne by by eapply Hp.
  - intros o. rewrite Hk. destruct (opened cm !! o) as [x|] eqn:Hx; [|done]. simpl.
    by rewrite lookup_insert_ne by by eapply Ho.
Qed.

(** An operation that only changes outgoing keys keeps the circuits well formed. *)
Lemma heap_ok_weaken cm cm' :
  heap_ok extract cm ->
  (forall r c', heap cm' !! r = Some c' -> exists c o, heap cm !! r = Some c /\ c' = set_Outgoing c o) ->
  heap_ok extract cm'.
Proof. intros Hok Hw r c' Hc'. destruct (Hw r c' Hc') as (c & o & Hc & ->). exact (Hok r c Hc). Qed.

Lemma set_Outgoing_same c : set_Outgoing c (Outgoing c) = c.
Proof. by destruct c. Qed.

Lemma heap_ok_same cm cm' : heap_ok extract cm -> heap cm' = heap cm -> heap_ok extract cm'.
Proof. unfold heap_ok. by intros Hok ->. Qed.

Lemma open_mem_heap l : forall cm cm', open_mem cm l = Ok cm' ->
  forall r c', heap cm' !! r = Some c' -> exists c o, heap cm !! r = Some c /\ c' = set_Outgoing c o.
Proof.
  induction l as [|[r0 ks] l IH]; intros cm cm'; simpl.
  { intros [= <-] r c' Hc'. exists c', (Outgoing c'). by rewrite set_Outgoing_same. }
  intros (c0 & Hc0%deref_ok & Hrest)%bind_ok r c' Hc'.
  destruct (IH _ _ Hrest r c' Hc') as (c1 & o & Hc1 & ->).
  cbn [addCircuitToHashIndex set_hashIndex set_opened set_heap heap] in Hc1.
  apply lookup_insert_Some in Hc1 as [(<- & <-)|(_ & Hc1)]; [by exists c0, o | by exists c1, o].
Qed.

Lemma OpenCircuits_heap cm kss db cm' err :
  OpenCircuits cm kss db = Ok (cm', err) -> heap_ok extract cm -> heap_ok extract cm'.
Proof.
  unfold OpenCircuits. destruct kss as [|ks kss]; [by intros [= <- _]|].
  destruct (check_keystones cm (ks :: kss)); [|by intros [= <- _]|done].
  destruct db; [by intros [= <- _]|]. intros (cm1 & Hopen & [= <- _])%bind_ok Hok.
  eapply heap_ok_weaken; [exact Hok|]. exact (open_mem_heap _ _ _ Hopen).
Qed.

Lemma trim_heap_ok cm cm' keys : trim_result cm cm' keys -> heap_ok extract cm -> heap_ok extract cm'.
Proof.
  intros Htr Hok. eapply heap_ok_weaken; [exact Hok|]. intros r c' Hc'.
  pose proof (tr_heap _ _ _ Htr r) as Hh. rewrite Hc' in Hh.
  destruct (heap cm !! r) as [c|]; [|done]. injection Hh as Hh. exists c, (Outgoing c').
  split; [done|]. apply (f_equal (fun f => f (Outgoing c'))) in Hh. by rewrite set_Outgoing_same in Hh.
Qed.

Lemma FailCircuit_heap cm k : heap (FailCircuit cm k).1 = heap cm.
Proof. unfold FailCircuit. repeat case_match; done. Qed.

Lemma CloseCircuit_heap cm o : heap (CloseCircuit cm o).1 = heap cm.
Proof. unfold CloseCircuit. repeat case_match; done. Qed.

Lemma CommitCircuits_heap cm circuits db cm' acts err :
  CommitCircuits cm circuits db = Ok (cm', acts, err) -> heap cm' = heap cm.
Proof.
  intros Hc. apply CommitCircuits_ok in Hc as (cm1 & adds & drops & fails & aF & Hcr & _ & Hcase).
  destruct Hcase as [(_ & _ & _ & d & -> & _)|(e & _ & _ & _ & _ & ->)]; [|done].
  by rewrite (cr_state _ _ _ _ _ _ _ Hcr).
Qed.

(** One operation: it returns and keeps the invariant. *)
Lemma apply_op_ok cm op :
  inv cm -> heap_ok extract cm -> op_args cm op -> written op = true ->
  exists cm', apply_op cm op = Ok cm' /\ inv cm' /\ heap_ok extract cm'.
Proof.
  intros Hi Hok Hargs Hw. destruct op as [r c|circuits db|kss db|o|k|ks db|ch st [e|]|]; cbn [apply_op op_args] in *.
  - destruct Hargs as (Hr & _ & Hwf & Hex). eexists. split; [done|]. split; [by apply alloc_inv|].
    intros r' c' Hc'. cbn [set_heap heap] in Hc'.
    apply lookup_insert_Some in Hc' as [(_ & <-)|(_ & Hc')]; [done | by eapply Hok].
  - destruct (CommitCircuits_total cm circuits db (proj1 Hi) Hargs) as (cm' & acts & err & Hc).
    rewrite Hc. rsimpl. eexists. split; [done|]. split; [by eapply CommitCircuits_inv|].
    eapply heap_ok_same; [done|]. by eapply CommitCircuits_heap.
  - destruct (OpenCircuits_inv cm kss db Hi Hargs) as (cm' & err & Ho & Hi' & _).
    rewrite Ho. rsimpl. eexists. split; [done|]. split; [done|]. by eapply OpenCircuits_heap.
  - eexists. split; [done|]. split; [by apply CloseCircuit_inv|].
    eapply heap_ok_same; [done|]. apply CloseCircuit_heap.
  - eexists. split; [done|]. split; [by apply FailCircuit_inv|].
    eapply heap_ok_same; [done|]. apply FailCircuit_heap.
  - destruct (DeleteCircuits_ok cm ks db Hi) as (cm' & -> & Hi' & Hdb). rsimpl.
    eexists. split; [done|]. split; [done|]. eapply heap_ok_same; [done|].
    destruct db; [by rewrite Hdb | apply Hdb].
  - done.
  - destruct (TrimOpenCircuits_ok cm ch st None Hi) as (cm' & err & n & Ht & Htr & _ & Hi').
    assert (err = None) as ->.
    { unfold TrimOpenCircuits in Ht. apply bind_ok in Ht as ([cm1 tk] & _ & Ht).
      by destruct tk; injection Ht as _ <-. }
    rewrite Ht. rsimpl. eexists. split; [done|]. split; [by apply Hi'|].
    apply trim_heap_ok in Htr; [|done]. exact Htr.
  - destruct (restoreMemState_ok extract cm Hi Hok) as (cm' & -> & Hr). eexists. split; [done|].
    by destruct Hr as (? & ? & _).
Qed.

(** *** When a trim was not written *)

(** The keystone bucket may hold keystones that memory has forgotten. *)
Definition live_inv (cm : circuitMap) : Prop :=
  exists D, D ⊆ disk_keystones cm /\ inv (set_disk_keystones cm D).

Lemma inv_live cm : inv cm -> live_inv cm.
Proof. intros Hi. exists (disk_keystones cm). split; [done|]. by destruct cm. Qed.

Lemma heap_ok_keystones cm D : heap_ok extract cm -> heap_ok extract (set_disk_keystones cm D).
Proof. done. Qed.

(** No operation but a restart reads the bucket. *)
Abbreviation with_ks D m := ((fun cm => set_disk_keystones cm D) <$> m).

Lemma commit_mem_keystones circuits : forall cm s D,
  commit_mem (set_disk_keystones cm D) circuits s
  = (fun p => (set_disk_keystones p.1 D, p.2)) <$> commit_mem cm circuits s.
Proof.
  induction circuits as [|r circuits IH]; intros cm s D; [done|]. cbn [commit_mem].
  change (deref (set_disk_keystones cm D) r) with (deref cm r).
  destruct (deref cm r) as [c| |]; [|done..]. rsimpl. cbn [pending set_disk_keystones].
  destruct (pending cm !! InKey c) as [found|].
  - change (deref (set_disk_keystones cm D) found) with (deref cm found).
    destruct (deref cm found) as [fc| |]; [|done..]. rsimpl.
    destruct (HasKeystone fc); [apply IH|]. destruct (negb (LoadedFromDisk fc)); apply IH.
  - exact (IH (set_pending cm (<[InKey c:=r]> (pending cm))) _ D).
Qed.

Lemma put_adds_keystones adds : forall cm D,
  put_adds (set_disk_keystones cm D) adds = with_ks D (put_adds cm adds).
Proof.
  induction adds as [|r adds IH]; intros cm D; [done|]. cbn [put_adds].
  change (deref (set_disk_keystones cm D) r) with (deref cm r).
  destruct (deref cm r) as [c| |]; [|done..]. exact (IH (set_disk_adds cm (<[InKey c:=Encode c]> (disk_adds cm))) D).
Qed.

Lemma rollback_adds_keystones adds : forall cm D,
  rollback_adds (set_disk_keystones cm D) adds = with_ks D (rollback_adds cm adds).
Proof.
  induction adds as [|r adds IH]; intros cm D; [done|]. cbn [rollback_adds].
  change (deref (set_disk_keystones cm D) r) with (deref cm r).
  destruct (deref cm r) as [c| |]; [|done..]. exact (IH (set_pending cm (delete (InKey c) (pending cm))) D).
Qed.

Lemma CommitCircuits_keystones cm circuits db D cm1 acts err :
  CommitCircuits cm circuits db = Ok (cm1, acts, err) ->
  disk_keystones cm1 = disk_keystones cm /\
  CommitCircuits (set_disk_keystones cm D) circuits db = Ok (set_disk_keystones cm1 D, acts, err).
Proof.
  intros Hc. split.
  { apply CommitCircuits_ok in Hc as (cm2 & ? & ? & ? & ? & Hcr & _ & Hcase).
    destruct Hcase as [(_ & _ & _ & d & -> & _)|(e & _ & _ & _ & _ & ->)]; [|done].
    by rewrite (cr_state _ _ _ _ _ _ _ Hcr). }
  revert Hc. unfold CommitCircuits. destruct circuits as [|r circuits]; [by intros [= <- <- <-]|].
  rewrite commit_mem_keystones. destruct (commit_mem cm _ _) as [[cm2 s]| |]; [|done..]. rsimpl. cbn [fst snd].
  destruct (s_adds s) as [|a adds]; [by intros [= <- <- <-]|]. destruct db as [e|].
  - rewrite rollback_adds_keystones. destruct (rollback_adds cm2 _); [|done..]. by intros [= <- <- <-].
  - rewrite put_adds_keystones. destruct (put_adds cm2 _); [|done..]. by intros [= <- <- <-].
Qed.

Lemma open_mem_keystones l : forall cm D,
  open_mem (set_disk_keystones cm D) l = with_ks D (open_mem cm l).
Proof.
  induction l as [|[r ks] l IH]; intros cm D; [done|]. cbn [open_mem].
  change (deref (set_disk_keystones cm D) r) with (deref cm r).
  destruct (deref cm r) as [c| |]; [|done..]. rsimpl. exact (IH (open_step cm r c (ks_OutKey ks)) D).
Qed.

Lemma check_keystones_keystones cm D kss :
  check_keystones (set_disk_keystones cm D) kss = check_keystones cm kss.
Proof. induction kss as [|ks kss IH]; [done|]. cbn [check_keystones]. by rewrite IH. Qed.

Lemma foldl_keystones_mono {A} (f : gmap CircuitKey CircuitKey -> A -> gmap CircuitKey CircuitKey) l :
  (forall x m m', m ⊆ m' -> f m x ⊆ f m' x) -> forall m m', m ⊆ m' -> foldl f m l ⊆ foldl f m' l.
Proof. intros Hf. induction l as [|x l IH]; intros m m' Hm; [done|]. simpl. by apply IH, Hf. Qed.

Lemma OpenCircuits_keystones cm kss db D cm1 err :
  OpenCircuits cm kss db = Ok (cm1, err) -> disk_keystones cm ⊆ D ->
  exists D', OpenCircuits (set_disk_keystones cm D) kss db = Ok (set_disk_keystones cm1 D', err) /\
    disk_keystones cm1 ⊆ D'.
Proof.
  intros Ho Hsub. revert Ho. unfold OpenCircuits. destruct kss as [|ks kss]; [intros [= <- <-]; by exists D|].
  rewrite check_keystones_keystones.
  destruct (check_keystones cm (ks :: kss)) as [rs|e|]; [|intros [= <- <-]; by exists D|done].
  destruct db as [e|]; [intros [= <- <-]; by exists D|]. unfold put_keystones. cbn [disk_keystones set_disk_keystones].
  change (set_disk_keystones (set_disk_keystones cm D)) with (set_disk_keystones cm).
  rewrite !open_mem_keystones. destruct (open_mem cm _) as [cm2| |]; [|done..]. rsimpl. intros [= <- <-].
  eexists. split; [reflexivity|]. cbn [disk_keystones set_disk_keystones].
  refine (foldl_keystones_mono (fun m ks => <[ks_OutKey ks := ks_InKey ks]> m) (ks :: kss) _ _ _ Hsub).
  intros x m m' Hm. by apply insert_mono.
Qed.

Lemma removeCircuitFromHashIndex_keystones cm D c :
  removeCircuitFromHashIndex (set_disk_keystones cm D) c
  = set_disk_keystones (removeCircuitFromHashIndex cm c) D.
Proof. unfold removeCircuitFromHashIndex. cbn [hashIndex set_disk_keystones]. by repeat case_match. Qed.

Lemma delete_mem_keystones ks : forall cm C R D,
  delete_mem (set_disk_keystones cm D) ks C R
  = (fun p => (set_disk_keystones p.1.1 D, p.1.2, p.2)) <$> delete_mem cm ks C R.
Proof.
  induction ks as [|k ks IH]; intros cm C R D; [done|]. cbn [delete_mem]. cbn [pending set_disk_keystones].
  destruct (pending cm !! k) as [r|]; [|apply IH].
  change (deref (set_disk_keystones cm D) r) with (deref cm r).
  destruct (deref cm r) as [c| |]; [|done..]. rsimpl.
  cbn [set_pending closed set_disk_keystones].
  destruct (bool_decide (k ∈ closed cm)); destruct (HasKeystone c); rewrite <- IH; f_equal;
    by rewrite <- removeCircuitFromHashIndex_keystones.
Qed.

Lemma delete_disk_keystones l : forall cm D cm1, delete_disk cm l = Ok cm1 -> disk_keystones cm ⊆ D ->
  exists D', delete_disk (set_disk_keystones cm D) l = Ok (set_disk_keystones cm1 D') /\ disk_keystones cm1 ⊆ D'.
Proof.
  induction l as [|[k r] l IH]; intros cm D cm1; cbn [delete_disk].
  { intros [= <-] Hs. by exists D. }
  change (deref (set_disk_keystones cm D) r) with (deref cm r).
  destruct (deref cm r) as [c| |]; [|done..]. rsimpl. intros Hd Hs. destruct (HasKeystone c).
  - apply (IH _ (delete (OutKey c) D) cm1 Hd). by apply delete_mono.
  - apply (IH _ D cm1 Hd). done.
Qed.

Lemma restore_removed_keystones l : forall cm C D,
  restore_removed (set_disk_keystones cm D) C l = with_ks D (restore_removed cm C l).
Proof.
  induction l as [|[k r] l IH]; intros cm C D; [done|]. cbn [restore_removed].
  change (deref (set_disk_keystones cm D) r) with (deref cm r).
  destruct (deref cm r) as [c| |]; [|done..]. rsimpl. rewrite <- IH. f_equal.
  by destruct (bool_decide (k ∈ C)), (HasKeystone c).
Qed.

Lemma restore_removed_disk l : forall cm C cm1, restore_removed cm C l = Ok cm1 -> disk_keystones cm1 = disk_keystones cm.
Proof.
  induction l as [|[k r] l IH]; intros cm C cm1; cbn [restore_removed]; [by intros [= <-]|].
  destruct (deref cm r) as [c| |]; [|done..]. rsimpl. intros Hr. rewrite (IH _ _ _ Hr).
  by destruct (bool_decide (k ∈ C)), (HasKeystone c).
Qed.

Lemma delete_mem_disk ks : forall cm C R cm1 C1 R1,
  delete_mem cm ks C R = Ok (cm1, C1, R1) -> disk_keystones cm1 = disk_keystones cm.
Proof.
  intros cm C R cm1 C1 R1 Hd.
  pose proof (delete_mem_keystones ks cm C R (disk_keystones cm)) as E.
  rewrite Hd in E. replace (set_disk_keystones cm (disk_keystones cm)) with cm in E by (by destruct cm).
  rewrite Hd in E. injection E as E. by rewrite E.
Qed.

Lemma DeleteCircuits_keystones cm ks db D cm1 err :
  DeleteCircuits cm ks db = Ok (cm1, err) -> disk_keystones cm ⊆ D ->
  exists D', DeleteCircuits (set_disk_keystones cm D) ks db = Ok (set_disk_keystones cm1 D', err) /\
    disk_keystones cm1 ⊆ D'.
Proof.
  unfold DeleteCircuits. rewrite delete_mem_keystones.
  destruct (delete_mem cm ks ∅ ∅) as [[[cm2 C] R]| |] eqn:Hm; [|done..]. apply delete_mem_disk in Hm. rsimpl.
  cbn [fst snd]. intros Hd Hs. rewrite <- Hm in Hs. destruct db as [e|].
  - rewrite restore_removed_keystones.
    destruct (restore_removed cm2 C (map_to_list R)) as [cm3| |] eqn:Hr; [|done..]. rsimpl.
    injection Hd as <- <-. exists D. split; [done|]. by rewrite (restore_removed_disk _ _ _ _ Hr).
  - destruct (delete_disk cm2 (map_to_list R)) as [cm3| |] eqn:Hr; [|done..]. injection Hd as <- <-.
    destruct (delete_disk_keystones _ _ _ _ Hr Hs) as (D' & -> & Hs'). by exists D'.
Qed.

Lemma trim_mem_keystones fuel : forall cm ch i t D,
  trim_mem fuel (set_disk_keystones cm D) ch i t
  = (fun p => (set_disk_keystones p.1 D, p.2)) <$> trim_mem fuel cm ch i t.
Proof.
  induction fuel as [|fuel IH]; intros cm ch i t D; [done|]. cbn [trim_mem]. cbn [opened set_disk_keystones].
  destruct (opened cm !! _) as [r|]; [|done].
  change (deref (set_disk_keystones cm D) r) with (deref cm r).
  destruct (deref cm r) as [c| |]; [|done..]. rsimpl. rewrite <- IH. f_equal.
  by rewrite <- removeCircuitFromHashIndex_keystones.
Qed.

Lemma trim_mem_disk fuel cm ch i t cm1 t1 :
  trim_mem fuel cm ch i t = Ok (cm1, t1) -> disk_keystones cm1 = disk_keystones cm.
Proof.
  intros Hd. pose proof (trim_mem_keystones fuel cm ch i t (disk_keystones cm)) as E.
  replace (set_disk_keystones cm (disk_keystones cm)) with cm in E by (by destruct cm).
  rewrite Hd in E. injection E as E. by rewrite E.
Qed.

Lemma foldl_delete_sub (l : list CircuitKey) : forall m : gmap CircuitKey CircuitKey,
  foldl (fun m k => delete k m) m l ⊆ m.
Proof.
  induction l as [|k l IH]; intros m; [reflexivity|]. simpl. etrans; [apply IH|]. apply delete_subseteq.
Qed.

(** A trim, written or not, on more keystones. *)
Lemma TrimOpenCircuits_keystones cm ch st db D cm1 err :
  TrimOpenCircuits cm ch st None = Ok (cm1, err) -> disk_keystones cm ⊆ D ->
  exists D' err', TrimOpenCircuits (set_disk_keystones cm D) ch st db = Ok (set_disk_keystones cm1 D', err') /\
    disk_keystones cm1 ⊆ D'.
Proof.
  unfold TrimOpenCircuits. cbn [opened set_disk_keystones]. rewrite trim_mem_keystones.
  destruct (trim_mem _ cm ch st []) as [[cm2 t]| |] eqn:Hm; [|done..]. apply trim_mem_disk in Hm. rsimpl.
  cbn [fst snd]. intros Ht Hs. rewrite <- Hm in Hs. destruct t as [|o t].
  { injection Ht as <- <-. by exists D, None. }
  injection Ht as <- <-. change (set_disk_keystones (set_disk_keystones cm2 ?x)) with (set_disk_keystones cm2).
  destruct db as [e|].
  - exists D, (Some e). split; [done|]. cbn [disk_keystones set_disk_keystones].
    etrans; [|exact Hs]. exact (foldl_delete_sub (o :: t) (disk_keystones cm2)).
  - eexists _, None. split; [reflexivity|]. cbn [disk_keystones set_disk_keystones].
    refine (foldl_keystones_mono (fun m k => delete k m) (o :: t) _ _ _ Hs).
    intros x m m' Hle. by apply delete_mono.
Qed.

Lemma restart_or_not (op : cm_op) : op = ORestart \/ op <> ORestart.
Proof. destruct op; (by left) || by right. Qed.

(** The operation as it is when its trim is written. *)
Definition as_written (op : cm_op) : cm_op :=
  match op with OTrim ch st _ => OTrim ch st None | op => op end.

(** Memory does the same, and keystones that are on disk stay there. *)
Lemma apply_op_keystones cm D op cm1 :
  op <> ORestart -> apply_op cm (as_written op) = Ok cm1 -> disk_keystones cm ⊆ D ->
  exists D', apply_op (set_disk_keystones cm D) op = Ok (set_disk_keystones cm1 D') /\ disk_keystones cm1 ⊆ D'.
Proof.
  intros Hop. destruct op as [r c|circuits db|kss db|o|k|ks db|ch st db|]; cbn [as_written apply_op]; [..|done].
  - intros [= <-] Hs. exists D. by split.
  - intros ([[cm2 acts] err] & Hc & [= <-])%bind_ok Hs.
    destruct (CommitCircuits_keystones _ _ _ D _ _ _ Hc) as [E ->]. exists D. rsimpl. rewrite E. by split.
  - intros ([cm2 err] & Ho & [= <-])%bind_ok Hs.
    destruct (OpenCircuits_keystones _ _ _ D _ _ Ho Hs) as (D' & -> & Hs'). by exists D'.
  - intros [= <-] Hs. exists D. unfold CloseCircuit. cbn [opened set_disk_keystones].
    change (deref (set_disk_keystones cm D)) with (deref cm).
    destruct (opened cm !! o) as [r|]; [|by split]. destruct (deref cm r) as [c| |]; [|by split..].
    cbn [closed set_disk_keystones]. destruct (bool_decide _); by split.
  - intros [= <-] Hs. exists D. unfold FailCircuit. cbn [pending closed set_disk_keystones].
    destruct (pending cm !! k) as [r|]; [|by split]. destruct (bool_decide _); by split.
  - intros ([cm2 err] & Ho & [= <-])%bind_ok Hs.
    destruct (DeleteCircuits_keystones _ _ _ D _ _ Ho Hs) as (D' & -> & Hs'). by exists D'.
  - intros ([cm2 err] & Ho & [= <-])%bind_ok Hs.
    destruct (TrimOpenCircuits_keystones _ _ _ db D _ _ Ho Hs) as (D' & err' & -> & Hs'). by exists D'.
Qed.

Lemma apply_op_live cm op :
  live_inv cm -> heap_ok extract cm -> op_args cm op -> op <> ORestart ->
  exists cm', apply_op cm op = Ok cm' /\ live_inv cm' /\ heap_ok extract cm'.
Proof.
  intros (D & HD & Hi) Hok Hargs Hop.
  destruct (apply_op_ok (set_disk_keystones cm D) (as_written op) Hi Hok) as (cm1 & Ha & Hi1 & Hok1).
  { by destruct op. }
  { by destruct op. }
  destruct (apply_op_keystones _ (disk_keystones cm) op cm1 Hop Ha HD) as (D' & Ha' & Hs').
  change (set_disk_keystones (set_disk_keystones cm D)) with (set_disk_keystones cm) in Ha'.
  replace (set_disk_keystones cm (disk_keystones cm)) with cm in Ha' by (by destruct cm).
  eexists. split; [exact Ha'|]. split; [|done]. exists (disk_keystones cm1). split; [done|].
  change (inv (set_disk_keystones cm1 (disk_keystones cm1))). by destruct cm1.
Qed.

(** A trim that fails does not touch the disk, so a restart undoes it. *)
Lemma failed_trim_disk cm ch st e cm1 err :
  inv cm -> TrimOpenCircuits cm ch st (Some e) = Ok (cm1, err) ->
  disk_adds cm1 = disk_adds cm /\ disk_keystones cm1 = disk_keystones cm.
Proof.
  intros [Hm _]. unfold TrimOpenCircuits.
  destruct (trim_mem_ok (S (size (opened cm))) cm ch st [] ltac:(lia) Hm) as (cm2 & n & -> & Htr & _).
  rsimpl. destruct (tr_disk _ _ _ Htr) as [E1 E2]. destruct ([] ++ trim_keys ch st n); by intros [= <- _].
Qed.

Lemma failed_trim_undone cm ch st e cm1 err :
  inv cm -> TrimOpenCircuits cm ch st (Some e) = Ok (cm1, err) ->
  restoreMemState extract cm1 None = restoreMemState extract cm None.
Proof.
  intros Hi Ht. destruct (failed_trim_disk _ _ _ _ _ _ Hi Ht) as [E1 E2].
  unfold restoreMemState. by rewrite E1, E2.
Qed.

Lemma reachable_live b cm :
  reachable b cm -> live_inv cm /\ (b = true -> inv cm) /\ heap_ok extract cm.
Proof.
  induction 1 as [|b cm op cm' _ (Hl & Hi & Hok) Hargs Hre Hop|cm ch st e cm1 err cm' _ (_ & Hi & Hok) Ht Hre].
  - split; [apply inv_live, empty_map_inv|]. split; [intros _; apply empty_map_inv|]. intros r c Hc. done.
  - destruct (restart_or_not op) as [->|Hne].
    + destruct (apply_op_ok cm ORestart (Hi (Hre eq_refl)) Hok Hargs eq_refl) as (cm2 & Hop2 & Hi2 & Hok2).
      rewrite Hop in Hop2. injection Hop2 as <-. split; [by apply inv_live|done].
    + destruct (apply_op_live cm op Hl Hok Hargs Hne) as (cm2 & Hop2 & Hl2 & Hok2).
      rewrite Hop in Hop2. injection Hop2 as <-. split; [done|]. split; [|done].
      intros [Hb Hw]%andb_true_iff. destruct (apply_op_ok cm op (Hi Hb) Hok Hargs Hw) as (cm3 & Hop3 & Hi3 & _).
      rewrite Hop in Hop3. by injection Hop3 as <-.
  - specialize (Hi eq_refl). cbn [apply_op] in Hre. rewrite (failed_trim_undone _ _ _ _ _ _ Hi Ht) in Hre.
    destruct (apply_op_ok cm ORestart Hi Hok I eq_refl) as (cm2 & Hop2 & Hi2 & Hok2).
    cbn [apply_op] in Hop2. rewrite Hre in Hop2. injection Hop2 as <-. split; [by apply inv_live|done].
Qed.

Lemma reachable_inv cm : reachable true cm -> inv cm /\ heap_ok extract cm.
Proof. intros (_ & Hi & Hok)%reachable_live. by split; [apply Hi|]. Qed.

End Histories.

(** ** Theorems *)

(** C30. In every state the switch can reach from an empty database, through any sequence of
    operations that respects the callers' obligations, with failing transactions of commits,
    opens, deletes and trims and with restarts, memory is consistent: opened circuits are
    pending, filed under their own outgoing key and findable by payment hash, and only pending
    circuits are closing.  The circuit bucket holds exactly the pending circuits and the
    keystone bucket the keystones of the opened ones; it holds nothing else as long as no trim
    since the last restart failed.  No operation panics, and each leads to such a state again.
    A restart is part of a history when every trim since the previous one was written, or when
    it follows a failing trim at once. *)
Theorem circuit_map_safe `{Sphinx} (extract : Extracter) (b : bool) (cm : circuitMap) (op : cm_op) :
  reachable extract b cm -> op_args extract cm op -> (op = ORestart -> b = true) ->
  live_inv cm /\ (b = true -> inv cm) /\
  exists cm', apply_op extract cm op = Ok cm' /\ live_inv cm' /\ (b && written op = true -> inv cm').
Proof.
  intros Hr Hargs Hre. pose proof (reachable_live extract b cm Hr) as (Hl & Hi & Hok).
  split; [done|]. split; [done|].
  assert (exists cm', apply_op extract cm op = Ok cm') as [cm' Hop].
  { destruct (restart_or_not op) as [->|Hne].
    - destruct (apply_op_ok extract cm ORestart (Hi (Hre eq_refl)) Hok Hargs eq_refl) as (cm' & ? & _). by exists cm'.
    - destruct (apply_op_live extract cm op Hl Hok Hargs Hne) as (cm' & ? & _). by exists cm'. }
  exists cm'. split; [done|].
  destruct (reachable_live extract _ cm' (reach_step _ _ _ _ _ Hr Hargs Hre Hop)) as (? & ? & _). done.
Qed.

(** [CommitCircuits] splits a batch into three order-preserving sub-sequences that
    together are the batch.  When it succeeds the added circuits have distinct
    incoming keys none of which was pending, they are now pending and on disk, and
    nothing else changed; a dropped circuit meets a pending one that is open or was
    committed since the restart, a failed circuit meets a half-open one reloaded from
    disk.  When the database fails the map is exactly what it was, nothing is added
    and every circuit that is not dropped is failed. *)
Theorem commit_partition `{Sphinx} (cm cm' : circuitMap) (circuits : list nat)
    (db err : option error) (acts : CircuitFwdActions) :
  CommitCircuits cm circuits db = Ok (cm', acts, err) ->
  Adds acts `sublist_of` circuits /\ Drops acts `sublist_of` circuits /\
  Fails acts `sublist_of` circuits /\ Adds acts ++ Drops acts ++ Fails acts ≡ₚ circuits /\
  match err with
  | None =>
      NoDup (kin cm <$> Adds acts) /\
      (forall r, r ∈ Adds acts -> LookupCircuit cm (kin cm r) = None /\
         LookupCircuit cm' (kin cm r) = Some r /\
         disk_adds cm' !! kin cm r = Encode <$> heap cm !! r) /\
      (forall k, k ∉ kin cm <$> Adds acts ->
         LookupCircuit cm' k = LookupCircuit cm k /\ disk_adds cm' !! k = disk_adds cm !! k) /\
      Forall (dropped cm cm') (Drops acts) /\ Forall (failed cm cm') (Fails acts)
  | Some e => db = Some e /\ cm' = cm /\ Adds acts = []
  end.
Proof.
  intros Hc. apply CommitCircuits_ok in Hc as (cm1 & adds & drops & fails & aF & Hcr & <- & Hcase).
  destruct Hcr as [Hst Hnd Hnew Hdr Hfl Hs1 Hs2 Hs3 Hperm Hs4 HaF].
  destruct Hcase as [(-> & <- & <- & d & -> & Hd)|(e & -> & -> & Ha & <- & ->)].
  - split_and!; try done.
    + intros r Hr. rewrite Forall_forall in Hnew. destruct (Hnew r Hr) as [Hn _].
      assert (add_map cm (Adds acts) !! kin cm r = Some r) as Hin.
      { apply elem_of_list_to_map_1; [by rewrite <- list_fmap_compose|].
        apply list_elem_of_fmap. by exists r. }
      split; [done|]. unfold LookupCircuit. cbn [set_disk_adds disk_adds pending]. split.
      * rewrite Hst. by apply lookup_union_Some_l.
      * by rewrite Hd, Hin.
    + intros k Hk. unfold LookupCircuit. cbn [set_disk_adds disk_adds pending].
      pose proof (add_map_None cm _ _ Hk) as Hn. rewrite Hd, Hn. split; [|done].
      rewrite Hst. by apply lookup_union_r.
  - rewrite Ha. split_and!; try done; [apply sublist_nil_l|].
    simpl. rewrite HaF. rewrite <- Hperm. rewrite !app_assoc. f_equiv. apply Permutation_app_comm.
Qed.

(** When the transaction of [DeleteCircuits] fails, the roll back leaves the map
    exactly as it was, hash index and closing marks included; when it succeeds, the
    named circuits are gone from memory and disk and no others are. *)
Theorem delete_all_or_nothing `{Sphinx} (cm : circuitMap) (inKeys : list CircuitKey)
    (db : option error) :
  inv cm ->
  exists cm', DeleteCircuits cm inKeys db = Ok (cm', db) /\
    match db with
    | Some _ => cm' = cm
    | None => inv cm' /\ forall k,
        LookupCircuit cm' k = (if decide (k ∈ inKeys) then None else LookupCircuit cm k) /\
        disk_adds cm' !! k = (if decide (k ∈ inKeys) then None else disk_adds cm !! k)
    end.
Proof.
  intros Hi. destruct (DeleteCircuits_ok cm inKeys db Hi) as (cm' & Hdel & Hi' & Hdb).
  exists cm'. split; [done|]. destruct db as [e|]; [done|]. split; [done|].
  destruct Hdb as (Hp & _ & _ & Hh). intros k.
  assert (pending cm' !! k = if decide (k ∈ inKeys) then None else pending cm !! k) as Hk.
  { apply option_eq. intros r. rewrite Hp. destruct (decide (k ∈ inKeys)); split; try done.
    - by intros [_ []].
    - by intros []. }
  split; [done|]. destruct Hi' as [_ [Ha' _]], Hi as [_ [Ha _]].
  rewrite Ha', Ha, Hk, Hh. by destruct (decide (k ∈ inKeys)).
Qed.

(** A circuit with incoming key [k] is closed, by a response from the outgoing link or
    by a local failure. *)
Definition closes `{Sphinx} (cm : circuitMap) (k : CircuitKey) (cm' : circuitMap) : Prop :=
  (exists r, FailCircuit cm k = (cm', Ok r)) \/
  (exists o r c, CloseCircuit cm o = (cm', Ok r) /\ heap cm !! r = Some c /\ Incoming c = k).

(** The operation does not delete circuit [k], is not a restart, and if it is a trim it is
    written. *)
Definition keeps `{Sphinx} (k : CircuitKey) (op : cm_op) : Prop :=
  match op with ODelete ks _ => k ∉ ks | OTrim _ _ db => db = None | ORestart => False | _ => True end.

Inductive steps_keeping `{Sphinx} (extract : Extracter) (k : CircuitKey) : circuitMap -> circuitMap -> Prop :=
| steps_refl cm : steps_keeping extract k cm cm
| steps_step cm op cm1 cm2 :
    op_args extract cm op -> keeps k op -> apply_op extract cm op = Ok cm1 ->
    steps_keeping extract k cm1 cm2 -> steps_keeping extract k cm cm2.

Lemma closes_closed `{Sphinx} cm k cm' : closes cm k cm' -> (k ∉ closed cm) /\ (k ∈ closed cm').
Proof.
  intros [(r & Hf)|(o & r & c & Hcl & Hc & <-)].
  - unfold FailCircuit in Hf. destruct (pending cm !! k); [|done].
    case_bool_decide; [done|]. injection Hf as <- _. split; [done|]. cbn [set_closed closed]. set_solver.
  - unfold CloseCircuit in Hcl. destruct (opened cm !! o) as [r'|]; [|done].
    unfold deref in Hcl. destruct (heap cm !! r') as [c'|] eqn:Hc'; [|done].
    case_bool_decide; [done|]. injection Hcl as <- <-. assert (c' = c) as -> by congruence.
    split; [done|]. cbn [set_closed closed]. set_solver.
Qed.

Lemma apply_op_closed `{Sphinx} extract cm op cm' k :
  inv cm -> op_args extract cm op -> keeps k op -> apply_op extract cm op = Ok cm' ->
  k ∈ closed cm -> k ∈ closed cm'.
Proof.
  intros Hi Hargs Hk Hop Hc. destruct op as [r c|circuits db|kss db|o|k'|ks db|ch st db|]; cbn [apply_op keeps] in *.
  - by injection Hop as <-.
  - apply bind_ok in Hop as ([[cm1 acts] err] & Hcm & [= <-]).
    apply CommitCircuits_ok in Hcm as (cm2 & ? & ? & ? & ? & Hcr & _ & Hcase).
    destruct Hcase as [(_ & _ & _ & d & -> & _)|(e & _ & _ & _ & _ & ->)]; [|done].
    by rewrite (cr_state _ _ _ _ _ _ _ Hcr).
  - apply bind_ok in Hop as ([cm1 err] & Ho & [= <-]). unfold OpenCircuits in Ho.
    destruct kss as [|ks kss]; [by injection Ho as <- _|].
    destruct (check_keystones cm (ks :: kss)); [|by injection Ho as <- _|done].
    destruct db; [by injection Ho as <- _|]. apply bind_ok in Ho as (cm2 & Ho & [= <- _]).
    assert (forall l cm cm', open_mem cm l = Ok cm' -> closed cm' = closed cm) as Hcl.
    { clear. induction l as [|[r ks] l IH]; intros cm cm'; simpl; [by intros [= <-]|].
      intros (c & _ & Hrest)%bind_ok. by rewrite (IH _ _ Hrest). }
    by rewrite (Hcl _ _ _ Ho).
  - injection Hop as <-. unfold CloseCircuit. repeat case_match; try done. cbn [fst set_closed closed]. set_solver.
  - injection Hop as <-. unfold FailCircuit. repeat case_match; try done. cbn [fst set_closed closed]. set_solver.
  - destruct (DeleteCircuits_ok cm ks db Hi) as (cm1 & Hdel & _ & Hdb). rewrite Hdel in Hop.
    injection Hop as <-. destruct db; [by rewrite Hdb|]. destruct Hdb as (_ & Hcl & _). by apply Hcl.
  - subst db. destruct (TrimOpenCircuits_ok cm ch st None Hi) as (cm1 & err & n & Ht & Htr & _).
    rewrite Ht in Hop. injection Hop as <-. pose proof (tr_closed _ _ _ Htr) as Hcl.
    cbn [set_disk_keystones closed] in Hcl. by rewrite Hcl.
  - done.
Qed.

(** A circuit is closed at most once: once a settle or fail has closed it, no
    later settle, fail or local failure closes it again, whatever operations happen in
    between, until the circuit is deleted, a trim fails or the switch restarts. *)
Theorem close_at_most_once `{Sphinx} (extract : Extracter) (cm cm1 cm2 : circuitMap)
    (k : CircuitKey) :
  reachable extract true cm -> closes cm k cm1 -> steps_keeping extract k cm1 cm2 ->
  ~ exists cm3, closes cm2 k cm3.
Proof.
  intros Hr Hcl Hsteps (cm3 & Hcl3).
  apply reachable_inv in Hr as [Hi Hok].
  assert (inv cm1 /\ heap_ok extract cm1) as [Hi1 Hok1].
  { destruct Hcl as [(r & Hf)|(o & r & c & Hc & _)].
    - pose proof (FailCircuit_inv cm k Hi). pose proof (FailCircuit_heap cm k) as Hh.
      rewrite Hf in *. split; [done|]. by eapply heap_ok_same.
    - pose proof (CloseCircuit_inv cm o Hi). pose proof (CloseCircuit_heap cm o) as Hh.
      rewrite Hc in *. split; [done|]. by eapply heap_ok_same. }
  apply closes_closed in Hcl as [_ Hin]. apply closes_closed in Hcl3 as [Hnot _].
  clear Hi Hok. induction Hsteps as [|cm1 op cm1' cm2 Hargs Hk Hop Hsteps IH]; [done|].
  assert (written op = true) as Hw by (destruct op as [| | | | | |? ? db|]; try done; simpl in Hk; by subst db).
  destruct (apply_op_ok extract cm1 op Hi1 Hok1 Hargs Hw) as (cm4 & Hop4 & Hi4 & Hok4).
  rewrite Hop in Hop4. injection Hop4 as <-.
  apply IH; try done. exact (apply_op_closed extract cm1 op cm1' k Hi1 Hargs Hk Hop Hin).
Qed.

(** C34. A restart recovers the circuits.  Restoring the memory from the disk of any state
    reached with every trim since the last restart written succeeds; under every incoming key
    and every outgoing key it finds the same circuit as before, outgoing key included, now
    marked as loaded from disk; nothing is closing; and the payment-hash index is exactly the
    opened circuits by their hash.  When the last operation before the restart is a trim whose
    transaction failed, the restart leads to the very same state as if the trim had not been
    tried. *)
Theorem restart_recovers `{Sphinx} (extract : Extracter) (cm : circuitMap) :
  reachable extract true cm ->
  exists cm', restoreMemState extract cm None = Ok cm' /\ inv cm' /\ closed cm' = ∅ /\
    (forall k, circuit_at (pending cm') cm' k =
       (fun c => set_LoadedFromDisk c true) <$> circuit_at (pending cm) cm k) /\
    (forall o, circuit_at (opened cm') cm' o =
       (fun c => set_LoadedFromDisk c true) <$> circuit_at (opened cm) cm o) /\
    (forall h o, in_index (hashIndex cm') h o <->
       exists c, circuit_at (opened cm) cm o = Some c /\ PaymentHash c = h) /\
    (forall chanID start e cm1 err, TrimOpenCircuits cm chanID start (Some e) = Ok (cm1, err) ->
       restoreMemState extract cm1 None = Ok cm').
Proof.
  intros [Hi Hok]%reachable_inv.
  destruct (restoreMemState_ok extract cm Hi Hok) as (cm' & Hres & Hi' & _ & Hc & _ & _ & Hp & Ho & Hx).
  exists cm'. split_and!; try done. intros ch st e cm1 err Ht.
  by rewrite (failed_trim_undone extract _ _ _ _ _ _ Hi Ht).
Qed.

(** [TrimOpenCircuits] returns for every start index and closes exactly the
    unbroken run of open circuits of the channel from that index on: the circuits of
    the run are still pending and half open again, no other circuit changes, the next
    key after the run is not open, and, when the database does not fail, memory and
    disk still agree. *)
Theorem trim_run `{Sphinx} (cm : circuitMap) (chanID : ShortChannelID) (start : Z)
    (db : option error) :
  inv cm ->
  exists cm' err n, TrimOpenCircuits cm chanID start db = Ok (cm', err) /\
    Forall (fun o => is_Some (opened cm !! o)) (trim_keys chanID start n) /\
    opened cm' !! {| ChanID := chanID; HtlcID := trim_end start n |} = None /\
    (forall o, opened cm' !! o = if decide (o ∈ trim_keys chanID start n) then None else opened cm !! o) /\
    pending cm' = pending cm /\
    (forall k r c, pending cm' !! k = Some r -> heap cm' !! r = Some c ->
       HasKeystone c = bool_decide (is_Some (opened cm' !! OutKey c))) /\
    (err = None -> inv cm').
Proof.
  intros Hi. destruct (TrimOpenCircuits_ok cm chanID start db Hi) as (cm' & err & n & Ht & Htr & Hend & Hi').
  destruct Htr as [Tm Tp Tc _ Tk To Th _]. exists cm', err, n. split_and!; try done.
  - intros o. apply option_eq. intros r. specialize (To o r). cbn [set_disk_keystones opened] in To.
    rewrite To. destruct (decide (o ∈ trim_keys chanID start n)); split; try done; try tauto.
  - intros k r c Hk Hc. destruct (HasKeystone c) eqn:Hks.
    + apply HasKeystone_Some in Hks. symmetry. apply bool_decide_eq_true. exists r.
      exact (inv_keystone _ Tm k r c _ Hk Hc Hks).
    + apply HasKeystone_None in Hks. symmetry. apply bool_decide_eq_false. unfold OutKey. rewrite Hks.
      intros [x Hx]. by destruct (inv_opened _ Tm _ _ Hx) as (? & _ & _ & ? & _).
Qed.

(** Trimming leaves a stale entry in the payment-hash index: the entry is looked up
    after the circuit's outgoing key was cleared.  When the outgoing key is used again,
    as it is after a trim, the lookup by the first circuit's hash returns the second
    circuit, whatever its hash. *)
Theorem trim_stale_hash_index `{Sphinx} (cm cm1 cm2 : circuitMap) (chanID : ShortChannelID)
    (start : Z) (r r2 : nat) (c : PaymentCircuit) (k2 : CircuitKey) :
  inv cm -> opened cm !! {| ChanID := chanID; HtlcID := start |} = Some r -> heap cm !! r = Some c ->
  TrimOpenCircuits cm chanID start None = Ok (cm1, None) ->
  pending cm1 !! k2 = Some r2 ->
  OpenCircuits cm1 [{| ks_InKey := k2; ks_OutKey := {| ChanID := chanID; HtlcID := start |} |}] None =
    Ok (cm2, None) ->
  r2 ∈ LookupByPaymentHash cm2 (PaymentHash c).
Proof.
  intros Hi Ho Hc Ht Hp2 Hopen. set (o := {| ChanID := chanID; HtlcID := start |}) in *.
  destruct (TrimOpenCircuits_ok cm chanID start None Hi) as (cm' & err & n & Ht' & Htr & _ & Hi').
  rewrite Ht in Ht'. injection Ht' as <- <-.
  destruct (inv_opened _ (proj1 Hi) _ _ Ho) as (c' & Hc' & _ & Hne & _).
  pose proof (inv_index _ (proj1 Hi) _ _ _ Ho Hc) as Hix.
  apply (tr_index _ _ _ Htr _ _ Hne) in Hix. cbn [set_disk_keystones hashIndex] in Hix.
  unfold OpenCircuits in Hopen. cbn [check_keystones ks_OutKey ks_InKey] in Hopen.
  destruct (opened cm1 !! o) eqn:Ho1; [done|]. rewrite Hp2 in Hopen.
  cbn [mbind res_bind zip zip_with open_mem] in Hopen.
  destruct (inv_pending _ (tr_inv _ _ _ Htr) _ _ Hp2) as (c2 & Hc2 & _).
  cbn [set_disk_keystones heap] in Hc2.
  unfold deref in Hopen. cbn [put_keystones set_disk_keystones heap] in Hopen. rewrite Hc2 in Hopen.
  injection Hopen as <-. set (cm2 := addCircuitToHashIndex _ _).
  assert (in_index (hashIndex cm2) (PaymentHash c) o) as (S & HS & Hin) by (apply in_index_add; by left).
  unfold LookupByPaymentHash. rewrite HS. apply list_elem_of_omap. exists o.
  split; [by apply elem_of_elements|]. apply lookup_insert_eq.
Qed.

(** [OpenCircuits] does not refuse a circuit that is already open: a second
    keystone, under a fresh outgoing key, is accepted, and the first one then survives
    the deletion of the circuit, in memory and on disk. *)
Theorem second_keystone_leaks `{Sphinx} (cm cm1 cm2 : circuitMap) (k o1 o2 : CircuitKey)
    (r : nat) (c : PaymentCircuit) :
  inv cm -> pending cm !! k = Some r -> heap cm !! r = Some c -> Outgoing c = Some o1 ->
  opened cm !! o2 = None ->
  OpenCircuits cm [{| ks_InKey := k; ks_OutKey := o2 |}] None = Ok (cm1, None) ->
  DeleteCircuits cm1 [k] None = Ok (cm2, None) ->
  pending cm2 !! k = None /\ opened cm2 !! o1 = Some r /\ disk_keystones cm2 !! o1 = Some k.
Proof.
  intros Hi Hp Hc Ho Hn Hopen Hdel.
  pose proof (inv_keystone _ (proj1 Hi) _ _ _ _ Hp Hc Ho) as Ho1.
  assert (o1 <> o2) as Hne by congruence.
  destruct (inv_pending _ (proj1 Hi) _ _ Hp) as (c' & Hc' & Hin). assert (c' = c) as -> by congruence.
  assert (disk_keystones cm !! o1 = Some k) as Hd
    by (apply disk_keystones_entries; [done|]; by exists r, c).
  unfold OpenCircuits in Hopen. cbn [check_keystones ks_OutKey ks_InKey] in Hopen.
  rewrite Hn, Hp in Hopen. cbn [mbind res_bind zip zip_with open_mem] in Hopen.
  unfold deref in Hopen. cbn [put_keystones set_disk_keystones heap] in Hopen. rewrite Hc in Hopen.
  injection Hopen as <-.
  change (addCircuitToHashIndex _ _) with (open_step (put_keystones cm [{| ks_InKey := k; ks_OutKey := o2 |}]) r c o2) in Hdel.
  set (cm1 := open_step _ r c o2) in Hdel. set (c1 := set_Outgoing c (Some o2)).
  assert (heap cm1 !! r = Some c1) as Hc1 by apply lookup_insert_eq.
  unfold DeleteCircuits in Hdel. rewrite (delete_mem_step cm1 k r c1) in Hdel by done.
  cbn [delete_mem mbind res_bind] in Hdel. rewrite insert_empty, map_to_list_singleton in Hdel.
  destruct (remove_step_fields cm1 k c1) as (Fh & Fp & _ & Fo & _ & Fk).
  cbn [delete_disk] in Hdel. unfold deref in Hdel. rewrite Fh, Hc1 in Hdel.
  cbn [mbind res_bind HasKeystone c1 Outgoing set_Outgoing OutKey InKey Incoming] in Hdel.
  injection Hdel as <-. cbn [set_disk_adds set_disk_keystones pending opened disk_keystones].
  rewrite Fp, Fo, Fk. cbn [HasKeystone c1 Outgoing set_Outgoing OutKey]. split_and!.
  - apply lookup_delete_eq.
  - rewrite lookup_delete_ne by done.
    cbn [cm1 open_step addCircuitToHashIndex set_hashIndex set_opened set_heap put_keystones set_disk_keystones opened].
    by rewrite lookup_insert_ne.
  - rewrite lookup_delete_ne by done.
    cbn [cm1 open_step addCircuitToHashIndex set_hashIndex set_opened set_heap put_keystones
      set_disk_keystones disk_keystones foldl ks_OutKey ks_InKey].
    by rewrite lookup_insert_ne.
Qed.

(** ** Cleaning closed channels *)

Section Cleaning.
Context `{Sphinx} (extract : Extracter) (ids : gset ShortChannelID).

#[local] Abbreviation is_closed k := (isClosedChannel ids (ChanID k)).

Lemma scan_circuits_ok l : forall S,
  Forall (fun x => exists c, decodeCircuit extract x.2 = Ok c /\ Incoming c = x.1) l ->
  exists S', scan_circuits extract ids l S = Ok S' /\
    forall k, k ∈ S' <-> k ∈ S \/ (k ∈ l.*1 /\ is_closed k = true).
Proof.
  induction l as [|[k v] l IH]; intros S Hf; simpl.
  { exists S. split; [done|]. set_solver. }
  apply Forall_cons in Hf as [(c & Hd & Hin) Hf]. simpl in Hd, Hin. rewrite Hd. rsimpl. rewrite Hin.
  destruct (IH (if is_closed k then {[ k ]} ∪ S else S) Hf) as (S' & -> & HS).
  exists S'. split; [done|]. intros k'. rewrite HS, elem_of_cons.
  destruct (is_closed k) eqn:Hk; rewrite ?elem_of_union, ?elem_of_singleton; split.
  - intros [[->|?]|[? ?]]; [right; split; [by left|done] | by left | right; split; [by right|done]].
  - intros [?|[[->|?] ?]]; [by left; right | by left; left | by right].
  - intros [?|[? ?]]; [by left | right; split; [by right|done]].
  - intros [?|[[->|?] ?]]; [by left | congruence | by right].
Qed.

Lemma scan_keystones_ok l : forall C K,
  (forall k, k ∈ (scan_keystones ids l C K).1 <->
     k ∈ C \/ exists o, (o, k) ∈ l /\ (is_closed k || is_closed o) = true) /\
  (forall o, o ∈ (scan_keystones ids l C K).2 <->
     o ∈ K \/ exists k, (o, k) ∈ l /\ (is_closed k || is_closed o) = true).
Proof.
  induction l as [|[o k] l IH]; intros C K; [simpl; set_solver|].
  assert (forall x y, (x, y) ∈ (o, k) :: l <-> (x = o /\ y = k) \/ (x, y) ∈ l) as Hcons.
  { intros x y. rewrite elem_of_cons. naive_solver. }
  assert (scan_keystones ids ((o, k) :: l) C K =
    if is_closed k || is_closed o then scan_keystones ids l ({[k]} ∪ C) ({[o]} ∪ K)
    else scan_keystones ids l C K) as ->.
  { simpl. by destruct (is_closed k), (is_closed o). }
  setoid_rewrite Hcons. destruct (is_closed k || is_closed o) eqn:Hb.
  - destruct (IH ({[k]} ∪ C) ({[o]} ∪ K)) as [I1 I2].
    split; intros x; rewrite ?I1, ?I2, elem_of_union, elem_of_singleton; naive_solver.
  - destruct (IH C K) as [I1 I2]. split; intros x; rewrite ?I1, ?I2; split.
    + naive_solver.
    + intros [?|(y & [[-> ->]|?] & Hy)]; [by left|congruence|right; by exists y].
    + naive_solver.
    + intros [?|(y & [[-> ->]|?] & Hy)]; [by left|congruence|right; by exists y].
Qed.

Lemma foldr_delete_lookup {V} (m : gmap CircuitKey V) (S : gset CircuitKey) k :
  foldr delete m (elements S) !! k = if decide (k ∈ S) then None else m !! k.
Proof.
  assert (forall ks, foldr delete m ks !! k = if decide (k ∈ ks) then None else m !! k) as Hl.
  { induction ks as [|x ks IH]; simpl; [done|].
    destruct (decide (x = k)) as [<-|Hne].
    - rewrite lookup_delete_eq, decide_True by by left. done.
    - rewrite lookup_delete_ne, IH by done. apply decide_ext. rewrite elem_of_cons. naive_solver. }
  rewrite Hl. apply decide_ext. apply elem_of_elements.
Qed.

End Cleaning.

(** At start-up the circuits of closed channels are removed from disk and nothing
    else is: after [cleanClosedChannels] a circuit is gone exactly when its incoming
    channel, or the outgoing channel of its keystone, is fully closed, a keystone
    exactly when either of its channels is; locally initiated payments (zero channel
    id) are never matched by that id. *)
Theorem clean_exactly_closed `{Sphinx} (extract : Extracter) (cm : circuitMap)
    (closedChannels : list (ShortChannelID * bool)) :
  reachable extract true cm ->
  let ids : gset ShortChannelID := list_to_set (base.filter (fun x => x.2 = false) closedChannels).*1 in
  exists cm', cleanClosedChannels extract cm closedChannels None = Ok cm' /\
    (forall k b, disk_adds cm' !! k = Some b <-> disk_adds cm !! k = Some b /\
       isClosedChannel ids (ChanID k) = false /\
       forall o, disk_keystones cm !! o = Some k -> isClosedChannel ids (ChanID o) = false) /\
    (forall o k, disk_keystones cm' !! o = Some k <-> disk_keystones cm !! o = Some k /\
       isClosedChannel ids (ChanID k) = false /\ isClosedChannel ids (ChanID o) = false).
Proof.
  intros [Hi Hok]%reachable_inv ids. unfold cleanClosedChannels. fold ids.
  case_bool_decide as Hempty.
  { assert (forall c, isClosedChannel ids c = false) as Hn.
    { intros c. unfold isClosedChannel. rewrite Hempty. case_match; [done|]. by apply bool_decide_eq_false. }
    exists cm. split; [done|]. setoid_rewrite Hn. naive_solver. }
  destruct (key_entries_spec (disk_adds cm)) as [_ Hadds].
  destruct (key_entries_spec (disk_keystones cm)) as [_ Hks].
  destruct (scan_circuits_ok extract ids (key_entries (disk_adds cm)) ∅) as (S & -> & HS).
  { apply Forall_forall. intros [k b] (r & c & _ & _ & Hin & -> & Hwf & Hex)%Hadds%(disk_adds_entries extract); [|done..].
    exists (set_LoadedFromDisk (set_Outgoing c None) false). split; [by apply decodeCircuit_Encode|done]. }
  rsimpl. destruct (scan_keystones_ok ids (key_entries (disk_keystones cm)) S ∅) as [HC HK].
  destruct (scan_keystones ids (key_entries (disk_keystones cm)) S ∅) as [C K]. cbn [fst snd] in HC, HK.
  eexists. split; [done|]. cbn [set_disk_keystones set_disk_adds disk_adds disk_keystones]. split.
  - intros k b. rewrite foldr_delete_lookup.
    assert (forall b, disk_adds cm !! k = Some b -> k ∈ C <->
      isClosedChannel ids (ChanID k) = true \/
      exists o, disk_keystones cm !! o = Some k /\ isClosedChannel ids (ChanID o) = true) as HkC.
    { intros b' Hb'. rewrite HC, HS. setoid_rewrite Hks. setoid_rewrite orb_true_iff.
      assert (k ∈ (key_entries (disk_adds cm)).*1) as Hkin
        by (apply list_elem_of_fmap; exists (k, b'); split; [done|by apply Hadds]).
      split; [set_solver|]. intros [?|(o & ? & ?)]; [by left; right|right; exists o; tauto]. }
    destruct (decide (k ∈ C)) as [Hin|Hnot].
    + split; [done|]. intros (Hb & Hk & Ho). apply (HkC b Hb) in Hin as [?|(o & Hok' & ?)]; [congruence|].
      rewrite (Ho o Hok') in *. done.
    + split; [|tauto]. intros Hb. split; [done|]. rewrite (HkC b Hb) in Hnot. split.
      * destruct (isClosedChannel ids (ChanID k)); tauto.
      * intros o Ho. destruct (isClosedChannel ids (ChanID o)) eqn:Hc; [|done].
        exfalso. apply Hnot. right. by exists o.
  - intros o k. rewrite foldr_delete_lookup.
    assert (o ∈ K <-> exists k, disk_keystones cm !! o = Some k /\
      (isClosedChannel ids (ChanID k) || isClosedChannel ids (ChanID o)) = true) as HoK.
    { rewrite HK. setoid_rewrite Hks. set_solver. }
    destruct (decide (o ∈ K)) as [Hin|Hnot].
    + split; [done|]. intros (Hk & Hc1 & Hc2). apply HoK in Hin as (k' & Hk' & Hb).
      assert (k' = k) as -> by congruence. by rewrite Hc1, Hc2 in Hb.
    + split; [|tauto]. intros Hk. split; [done|].
      apply orb_false_iff. destruct (isClosedChannel ids (ChanID k) || _) eqn:Hb; [|done].
      exfalso. apply Hnot, HoK. by exists k.
Qed.

(** ** A concrete history *)

Definition ex_key (chan htlc : Z) : CircuitKey :=
  {| ChanID := {| BlockHeight := chan; TxIndex := 0; TxPosition := 0 |}; HtlcID := htlc |}.

Definition ex_circuit (chan htlc : Z) (hash : byte) : @PaymentCircuit toy_sphinx :=
  {| AddRef_ := {| AddRef_Height := 1; AddRef_Index := 0 |}; Incoming := ex_key chan htlc;
     Outgoing := None; PaymentHash := replicate 32 hash; IncomingAmount := 10;
     OutgoingAmount := 9; Encrypter := None; LoadedFromDisk := false |}.

Definition after (cm : @circuitMap toy_sphinx) (op : @cm_op toy_sphinx) : @circuitMap toy_sphinx :=
  match apply_op toy_extract cm op with Ok cm' => cm' | _ => cm end.

Definition ex_keystone : Keystone := {| ks_InKey := ex_key 1 0; ks_OutKey := ex_key 7 0 |}.

(** Two circuits are created and committed, the first is opened. *)
Definition ex1 := after empty_map (OAlloc 1 (ex_circuit 1 0 x11)).
Definition ex2 := after ex1 (OCommit [1%nat] None).
Definition ex3 := after ex2 (OAlloc 2 (ex_circuit 2 0 x22)).
Definition ex4 := after ex3 (OCommit [2%nat] None).
Definition ex5 := after ex4 (OOpen [ex_keystone] None).

Lemma ex_circuit_args chan hash :
  0 <= chan < 2 ^ 24 -> wf_circuit (ex_circuit chan 0 hash) /\ extractable toy_extract (ex_circuit chan 0 hash).
Proof.
  intros Hc. split; [|done]. unfold wf_circuit, valid_addref, valid_key, valid_scid, is_u64, is_u16.
  simpl. split_and!; lia || done.
Qed.

Lemma ex4_open_args : open_args ex4 [ex_keystone].
Proof.
  split_and!; [apply NoDup_singleton..|]. repeat constructor; [done|].
  intros r c Hr Hc. vm_compute in Hr. injection Hr as <-. vm_compute in Hc. by injection Hc as <-.
Qed.

Lemma ex4_reachable : reachable toy_extract true ex4.
Proof.
  assert (reachable toy_extract true ex1) as R1.
  { eapply (reach_step toy_extract true _ (OAlloc 1 (ex_circuit 1 0 x11)) _); [constructor| |done|reflexivity].
    split_and!; [done..|apply ex_circuit_args; lia|done]. }
  assert (reachable toy_extract true ex2) as R2.
  { eapply (reach_step toy_extract true _ (OCommit [1%nat] None) _); [exact R1| |done|vm_compute; reflexivity].
    repeat constructor. eexists. split; [vm_compute; reflexivity|by left]. }
  assert (reachable toy_extract true ex3) as R3.
  { eapply (reach_step toy_extract true _ (OAlloc 2 (ex_circuit 2 0 x22)) _); [exact R2| |done|vm_compute; reflexivity].
    split_and!; [done..|apply ex_circuit_args; lia|done]. }
  eapply (reach_step toy_extract true _ (OCommit [2%nat] None) _); [exact R3| |done|vm_compute; reflexivity].
  repeat constructor. eexists. split; [vm_compute; reflexivity|by left].
Qed.

Lemma ex5_reachable : reachable toy_extract true ex5.
Proof.
  eapply (reach_step toy_extract true _ (OOpen [ex_keystone] None) _);
    [exact ex4_reachable|exact ex4_open_args|done|vm_compute; reflexivity].
Qed.

(** A trim that opens the first circuit again fails, and memory and disk differ. *)
Lemma circuit_map_safe_witness :
  let trim := OTrim (ChanID (ex_key 7 0)) 0 (Some (Error "disk full")) in
  reachable toy_extract true ex5 /\ op_args toy_extract ex5 trim /\ inv ex5 /\
  exists cm', apply_op toy_extract ex5 trim = Ok cm' /\ live_inv cm' /\
    opened cm' !! ex_key 7 0 = None /\ disk_keystones cm' !! ex_key 7 0 = Some (ex_key 1 0).
Proof.
  intros trim. split; [exact ex5_reachable|]. split; [exact I|].
  destruct (circuit_map_safe toy_extract true ex5 trim ex5_reachable I ltac:(done)) as (_ & Hi & cm' & Ha & Hl & _).
  split; [by apply Hi|]. exists cm'. split; [exact Ha|]. split; [exact Hl|].
  vm_compute in Ha. injection Ha as <-. split; reflexivity.
Defined.

Lemma commit_partition_witness :
  CommitCircuits ex3 [2%nat; 1%nat] None =
    Ok (ex4, {| Adds := [2%nat]; Drops := [1%nat]; Fails := [] |}, None) /\
  [2%nat] ++ [1%nat] ++ [] ≡ₚ [2%nat; 1%nat].
Proof.
  assert (CommitCircuits ex3 [2%nat; 1%nat] None =
    Ok (ex4, {| Adds := [2%nat]; Drops := [1%nat]; Fails := [] |}, None)) as Hc
    by (vm_compute; reflexivity).
  split; [exact Hc|]. apply (commit_partition _ _ _ _ _ _ Hc).
Defined.

Lemma delete_all_or_nothing_witness :
  inv ex5 /\ DeleteCircuits ex5 [ex_key 1 0] (Some (Error "disk full")) =
    Ok (ex5, Some (Error "disk full")).
Proof.
  assert (inv ex5) as Hi by exact (proj1 (reachable_inv toy_extract ex5 ex5_reachable)).
  split; [exact Hi|].
  destruct (delete_all_or_nothing ex5 [ex_key 1 0] (Some (Error "disk full")) Hi) as (cm' & Hd & ->).
  exact Hd.
Defined.

Lemma close_at_most_once_witness :
  reachable toy_extract true ex5 /\ closes ex5 (ex_key 1 0) (CloseCircuit ex5 (ex_key 7 0)).1 /\
  ~ exists cm3, closes (CloseCircuit ex5 (ex_key 7 0)).1 (ex_key 1 0) cm3.
Proof.
  assert (closes ex5 (ex_key 1 0) (CloseCircuit ex5 (ex_key 7 0)).1) as Hc.
  { right. exists (ex_key 7 0), 1%nat. eexists. split; [vm_compute; reflexivity|].
    split; [vm_compute; reflexivity|reflexivity]. }
  split; [exact ex5_reachable|]. split; [exact Hc|].
  apply (close_at_most_once toy_extract ex5 _ _ (ex_key 1 0) ex5_reachable Hc). constructor.
Defined.

Lemma restart_recovers_witness :
  reachable toy_extract true ex5 /\
  exists cm', restoreMemState toy_extract ex5 None = Ok cm' /\
    circuit_at (opened cm') cm' (ex_key 7 0) =
      Some (set_LoadedFromDisk (set_Outgoing (ex_circuit 1 0 x11) (Some (ex_key 7 0))) true).
Proof.
  split; [exact ex5_reachable|].
  destruct (restart_recovers toy_extract ex5 ex5_reachable) as (cm' & Hr & _ & _ & _ & Ho & _).
  exists cm'. split; [exact Hr|]. rewrite (Ho (ex_key 7 0)). reflexivity.
Defined.

Lemma trim_run_witness :
  inv ex5 /\ exists cm' err n,
    TrimOpenCircuits ex5 (ChanID (ex_key 7 0)) 0 None = Ok (cm', err) /\
    Forall (fun o => is_Some (opened ex5 !! o)) (trim_keys (ChanID (ex_key 7 0)) 0 n).
Proof.
  assert (inv ex5) as Hi by exact (proj1 (reachable_inv toy_extract ex5 ex5_reachable)).
  split; [exact Hi|].
  destruct (trim_run ex5 (ChanID (ex_key 7 0)) 0 None Hi) as (cm' & err & n & Ht & Hf & _).
  exists cm', err, n. split; [exact Ht|exact Hf].
Defined.

Definition ex6 := after ex5 (OTrim (ChanID (ex_key 7 0)) 0 None).
Definition ex7 := after ex6 (OOpen [{| ks_InKey := ex_key 2 0; ks_OutKey := ex_key 7 0 |}] None).

(** The circuit found under the hash [11..] has the hash [22..]. *)
Lemma trim_stale_hash_index_witness :
  inv ex5 /\ 2%nat ∈ LookupByPaymentHash ex7 (replicate 32 x11) /\
  (PaymentHash <$> heap ex7 !! 2%nat) = Some (replicate 32 x22).
Proof.
  assert (inv ex5) as Hi by exact (proj1 (reachable_inv toy_extract ex5 ex5_reachable)).
  split; [exact Hi|]. split; [|vm_compute; reflexivity].
  apply (trim_stale_hash_index ex5 ex6 ex7 (ChanID (ex_key 7 0)) 0 1 2
    (set_Outgoing (ex_circuit 1 0 x11) (Some (ex_key 7 0))) (ex_key 2 0) Hi);
    vm_compute; reflexivity.
Defined.

Definition ex8 := after ex5 (OOpen [{| ks_InKey := ex_key 1 0; ks_OutKey := ex_key 7 1 |}] None).
Definition ex9 := after ex8 (ODelete [ex_key 1 0] None).

Lemma second_keystone_leaks_witness :
  inv ex5 /\ pending ex9 !! ex_key 1 0 = None /\ opened ex9 !! ex_key 7 0 = Some 1%nat.
Proof.
  assert (inv ex5) as Hi by exact (proj1 (reachable_inv toy_extract ex5 ex5_reachable)).
  split; [exact Hi|].
  destruct (second_keystone_leaks ex5 ex8 ex9 (ex_key 1 0) (ex_key 7 0) (ex_key 7 1) 1
    (set_Outgoing (ex_circuit 1 0 x11) (Some (ex_key 7 0))) Hi) as (Hp & Ho & _);
    [vm_compute; reflexivity..|]. split; [exact Hp|exact Ho].
Defined.

(** A trim whose transaction fails, a circuit opened again under another key, a restart: the
    keystone that was trimmed is back, and the one circuit is open under two keys. *)
Definition ex10 := after ex5 (OTrim (ChanID (ex_key 7 0)) 0 (Some (Error "disk full"))).
Definition ex11 := after ex10 (OOpen [{| ks_InKey := ex_key 1 0; ks_OutKey := ex_key 8 0 |}] None).
Definition ex12 := after ex11 ORestart.

Example trimmed_keystone_returns :
  opened ex11 !! ex_key 7 0 = None /\ is_Some (opened ex12 !! ex_key 7 0) /\
  opened ex12 !! ex_key 7 0 = opened ex12 !! ex_key 8 0.
Proof. vm_compute. split_and!; [done|by eexists|done]. Qed.

Lemma clean_exactly_closed_witness :
  reachable toy_extract true ex5 /\
  exists cm', cleanClosedChannels toy_extract ex5 [(ChanID (ex_key 7 0), false)] None = Ok cm' /\
    disk_keystones cm' !! ex_key 7 0 <> Some (ex_key 1 0).
Proof.
  split; [exact ex5_reachable|].
  destruct (clean_exactly_closed toy_extract ex5 [(ChanID (ex_key 7 0), false)] ex5_reachable)
    as (cm' & Hc & _ & Hk).
  exists cm'. split; [exact Hc|]. intros Hs. apply Hk in Hs as (_ & _ & Hn). vm_compute in Hn. discriminate.
Defined.
