(* ===== verification/PaymentCodec.v ===== *)
(** * Routes and payment records

    The data of an outgoing payment and its form on disk: routes
    ([routing/route/route.go]), the multi-path record of the final hop
    ([record/mpp.go]), creation info, attempts and their outcomes
    ([channeldb/payments.go], [channeldb/mp_payment.go]).

    Three things come from outside: the variable-length byte strings of package [wire]
    ([VarBytes]), the order in which Go iterates over a map, which the language leaves
    open ([MapRange]), and the encoding of onion failure messages ([FailureCodec]).
    A nil map of custom records is read like an empty one and is the empty map. *)

From Stdlib Require Import Lia.
From S2P Require Import Prelude Tlv.

(** ** What the records are built on *)

Class VarBytes := {
  WriteVarBytes : list byte -> list byte;
  ReadVarBytes : Z -> list byte -> res (list byte * list byte);
  ReadVarBytes_Write : forall max b r,
    Z.of_nat (length b) <= max -> ReadVarBytes max (WriteVarBytes b ++ r) = Ok (b, r);
}.

Class MapRange := {
  range_map : gmap Z (list byte) -> list (Z * list byte);
  range_map_entries : forall m, range_map m ≡ₚ map_to_list m;
}.

Class FailureCodec := {
  FailureMessage : Type;
  EncodeFailureMessage : FailureMessage -> res (list byte);
  DecodeFailureMessage : list byte -> res FailureMessage;
  Decode_EncodeFailureMessage : forall m b,
    EncodeFailureMessage m = Ok b -> DecodeFailureMessage b = Ok m;
  EncodeFailureMessage_code : forall m b, EncodeFailureMessage m = Ok b -> b <> [];
}.

(** ** Routes *)

Record MPP := { paymentAddr : list byte; totalMAtoms : Z }.

Record AMP := { rootShare : list byte; setID : list byte; childIndex : Z }.

Record Hop := {
  PubKeyBytes : list byte;
  ChannelID : Z;
  OutgoingTimeLock : Z;
  AmtToForward : Z;
  hop_MPP : option MPP;
  hop_AMP : option AMP;
  CustomRecords : gmap Z (list byte);
  LegacyPayload : bool;
}.

Record Route := {
  TotalTimeLock : Z;
  TotalAmount : Z;
  SourcePubKey : list byte;
  Hops : list Hop;
}.

#[export] Instance MPP_eq_dec : EqDecision MPP.
Proof. solve_decision. Defined.
#[export] Instance AMP_eq_dec : EqDecision AMP.
Proof. solve_decision. Defined.
#[export] Instance Hop_eq_dec : EqDecision Hop.
Proof. solve_decision. Defined.
#[export] Instance Route_eq_dec : EqDecision Route.
Proof. solve_decision. Defined.

Definition HopFee (r : Route) (hopIndex : nat) : res Z :=
  incomingAmt ← (match hopIndex with
                 | O => Ok (TotalAmount r)
                 | S i => h ← index (Hops r) i; Ok (AmtToForward h)
                 end);
  h ← index (Hops r) hopIndex;
  Ok (u64 (incomingAmt - AmtToForward h)).

Definition ReceiverAmt (r : Route) : Z :=
  match last (Hops r) with None => 0 | Some h => AmtToForward h end.

Definition TotalFees (r : Route) : Z :=
  match Hops r with [] => 0 | _ => u64 (TotalAmount r - ReceiverAmt r) end.

Definition FinalHop (r : Route) : option Hop := last (Hops r).

(** ** Times *)

(** A [time.Time] is the zero time or an instant in nanoseconds since the epoch. *)
Inductive Time := ZeroTime | UnixNano (ns : Z).

#[export] Instance Time_eq_dec : EqDecision Time.
Proof. solve_decision. Defined.

Definition serializeTime (t : Time) : list byte :=
  be_bytes 8 (match t with ZeroTime => 0 | UnixNano ns => u64 ns end).

Definition deserializeTime (r : list byte) : res (Time * list byte) :=
  '(unixNano, r') ← read_be 8 r;
  Ok (if unixNano =? 0 then ZeroTime else UnixNano (i64 unixNano), r').

(** ** Payment records *)

Record PaymentCreationInfo := {
  PaymentIdentifier : list byte;
  Value : Z;
  CreationTime : Time;
  PaymentRequest : list byte;
}.

Record HTLCAttemptInfo := {
  AttemptID : Z;
  sessionKey : list byte;
  attempt_Route : Route;
  AttemptTime : Time;
  attempt_Hash : option (list byte);
}.

Record HTLCSettleInfo := { Preimage : list byte; SettleTime : Time }.

Definition HTLCFailUnknown : Z := 0.
Definition HTLCFailUnreadable : Z := 1.
Definition HTLCFailInternal : Z := 2.
Definition HTLCFailMessage : Z := 3.

Definition serializePaymentCreationInfo (c : PaymentCreationInfo) : list byte :=
  PaymentIdentifier c ++ be_bytes 8 (Value c) ++ serializeTime (CreationTime c) ++
  be_bytes 4 (u32 (Z.of_nat (length (PaymentRequest c)))) ++ PaymentRequest c.

Definition deserializePaymentCreationInfo (r : list byte) : res PaymentCreationInfo :=
  '(id, r) ← read_full 32 r;
  '(v, r) ← read_be 8 r;
  '(creationTime, r) ← deserializeTime r;
  '(reqLen, r) ← read_be 4 r;
  '(payReq, _) ← (if 0 <? reqLen then read_full (Z.to_nat reqLen) r else Ok ([], r));
  Ok {| PaymentIdentifier := id; Value := v; CreationTime := creationTime;
        PaymentRequest := payReq |}.

Definition serializeHTLCSettleInfo (s : HTLCSettleInfo) : list byte :=
  Preimage s ++ serializeTime (SettleTime s).

Definition deserializeHTLCSettleInfo (r : list byte) : res HTLCSettleInfo :=
  '(preimage, r) ← read_full 32 r;
  '(settleTime, _) ← deserializeTime r;
  Ok {| Preimage := preimage; SettleTime := settleTime |}.

(** The multi-path record. *)
Definition MPPOnionType : Z := 8.
Definition minMPPLength : Z := 32.
Definition maxMPPLength : Z := 40.

Definition CustomTypeStart : Z := 65536.
Definition maxOnionPayloadSize : Z := 1300.
Definition VertexSize : nat := 33.

(** The limit of a byte slice in [ReadElement]. *)
Definition maxElementBytes : Z := 66000.

Definition errCustomRecord : error := Error "no custom records with types below 65536".

Definition Validate (c : gmap Z (list byte)) : res unit :=
  if forallb (fun kv => CustomTypeStart <=? kv.1) (map_to_list c) then Ok tt
  else Err errCustomRecord.

(** [copy] into a zeroed array of [n] bytes. *)
Definition copy_array (n : nat) (b : list byte) : list byte :=
  take n b ++ replicate (n - length b) x00.

Definition encode_bool (b : bool) : list byte := [if b then x01 else x00].
Definition read_bool (r : list byte) : res (bool * list byte) :=
  '(v, r') ← read_be 1 r; Ok (negb (v =? 0), r').

Section Records.
Context `{Secp256k1, VarBytes, MapRange}.

Definition MPPEncoder (v : MPP) : list byte := paymentAddr v ++ ETUint64T (totalMAtoms v).

Definition MPPDecoder (l : Z) (r : list byte) : res (MPP * list byte) :=
  if (minMPPLength <=? l) && (l <=? maxMPPLength) then
    '(addr, r) ← DBytes32 (PBytes32 (replicate 32 x00)) 32 r;
    '(total, r) ← DTUint64 (PUint64 0) (l - 32) r;
    match addr, total with
    | PBytes32 a, PUint64 t => Ok ({| paymentAddr := a; totalMAtoms := t |}, r)
    | _, _ => Panic
    end
  else Err ErrTypeForDecoding.

Definition MPP_PayloadSize (m : MPP) : Z := u64 (32 + SizeTUint64 (totalMAtoms m)).

(** The record holds a pointer to the [MPP] it was made from. *)
Definition MPP_Record (m : MPP) : tlv_record :=
  MakeDynamicRecord MPPOnionType PNil (fun _ => MPP_PayloadSize m)
    (Some (fun _ => Ok (MPPEncoder m))) None.

Definition encode_tlv (kv : Z * list byte) : list byte :=
  be_bytes 8 kv.1 ++ WriteVarBytes kv.2.

Definition serializeHop (h : Hop) : res (list byte) :=
  let head :=
    WriteVarBytes (PubKeyBytes h) ++ be_bytes 8 (ChannelID h) ++
    be_bytes 4 (OutgoingTimeLock h) ++ be_bytes 8 (AmtToForward h) ++
    encode_bool (LegacyPayload h) in
  if LegacyPayload h then Ok (head ++ be_bytes 4 0)
  else
    let records := match hop_MPP h with Some m => [MPP_Record m] | None => [] end in
    _ ← Validate (CustomRecords h);
    let records := records ++ MapToRecords (CustomRecords h) in
    mapRecords ← RecordsToMap records;
    let numRecords := u32 (Z.of_nat (size mapRecords)) in
    Ok (head ++ be_bytes 4 numRecords ++ concat (encode_tlv <$> range_map mapRecords)).

Fixpoint read_tlvs (n : nat) (r : list byte) (tlvMap : gmap Z (list byte))
    : res (gmap Z (list byte) * list byte) :=
  match n with
  | O => Ok (tlvMap, r)
  | S n' =>
      '(tlvType, r) ← read_be 8 r;
      '(rawRecordBytes, r) ← ReadVarBytes maxOnionPayloadSize r;
      read_tlvs n' r (<[tlvType := rawRecordBytes]> tlvMap)
  end.

Definition deserializeHop (r : list byte) : res (Hop * list byte) :=
  '(pub, r) ← ReadVarBytes maxElementBytes r;
  '(channelID, r) ← read_be 8 r;
  '(timeLock, r) ← read_be 4 r;
  '(amt, r) ← read_be 8 r;
  '(legacy, r) ← read_bool r;
  '(numElements, r) ← read_be 4 r;
  let hop mpp custom :=
    {| PubKeyBytes := copy_array VertexSize pub; ChannelID := channelID;
       OutgoingTimeLock := timeLock; AmtToForward := amt; hop_MPP := mpp;
       hop_AMP := None; CustomRecords := custom; LegacyPayload := legacy |} in
  if numElements =? 0 then Ok (hop None ∅, r)
  else
    '(tlvMap, r) ← read_tlvs (Z.to_nat numElements) r ∅;
    match tlvMap !! MPPOnionType with
    | Some mppBytes =>
        '(mpp, _) ← MPPDecoder (Z.of_nat (length mppBytes)) mppBytes;
        Ok (hop (Some mpp) (delete MPPOnionType tlvMap), r)
    | None => Ok (hop None tlvMap, r)
    end.

Fixpoint serialize_hops (hops : list Hop) : res (list byte) :=
  match hops with
  | [] => Ok []
  | h :: rest => b ← serializeHop h; bs ← serialize_hops rest; Ok (b ++ bs)
  end.

Definition SerializeRoute (r : Route) : res (list byte) :=
  hops ← serialize_hops (Hops r);
  Ok (be_bytes 4 (TotalTimeLock r) ++ be_bytes 8 (TotalAmount r) ++
      WriteVarBytes (SourcePubKey r) ++ be_bytes 4 (u32 (Z.of_nat (length (Hops r)))) ++ hops).

Fixpoint read_hops (n : nat) (r : list byte) : res (list Hop * list byte) :=
  match n with
  | O => Ok ([], r)
  | S n' => '(hop, r) ← deserializeHop r; '(hops, r) ← read_hops n' r; Ok (hop :: hops, r)
  end.

Definition DeserializeRoute (r : list byte) : res (Route * list byte) :=
  '(timeLock, r) ← read_be 4 r;
  '(amount, r) ← read_be 8 r;
  '(pub, r) ← ReadVarBytes maxElementBytes r;
  '(numHops, r) ← read_be 4 r;
  '(hops, r) ← read_hops (Z.to_nat numHops) r;
  Ok ({| TotalTimeLock := timeLock; TotalAmount := amount;
         SourcePubKey := copy_array VertexSize pub; Hops := hops |}, r).

Definition serializeHTLCAttemptInfo (a : HTLCAttemptInfo) : res (list byte) :=
  route ← SerializeRoute (attempt_Route a);
  Ok (sessionKey a ++ route ++ serializeTime (AttemptTime a) ++ default [] (attempt_Hash a)).

(** The attempt id is the key the record is stored under. *)
Definition deserializeHTLCAttemptInfo (r : list byte) : res HTLCAttemptInfo :=
  '(key, r) ← read_full 32 r;
  '(route, r) ← DeserializeRoute r;
  '(attemptTime, r) ← deserializeTime r;
  let attempt hash :=
    {| AttemptID := 0; sessionKey := key; attempt_Route := route;
       AttemptTime := attemptTime; attempt_Hash := hash |} in
  match read_full 32 r with
  | Err EOF | Err ErrUnexpectedEOF => Ok (attempt None)
  | Err e => Err e
  | Panic => Panic
  | Ok (hash, _) => Ok (attempt (Some hash))
  end.
End Records.

(** Failed attempts. *)
Definition FailureMessageLength : Z := 256.

Section Failures.
Context `{VarBytes, FailureCodec}.

Record HTLCFailInfo := {
  FailTime : Time;
  Message : option FailureMessage;
  Reason : Z;
  FailureSourceIndex : Z;
}.

Definition serializeHTLCFailInfo (f : HTLCFailInfo) : res (list byte) :=
  messageBytes ← (match Message f with
                  | Some m => EncodeFailureMessage m
                  | None => Ok []
                  end);
  Ok (serializeTime (FailTime f) ++ WriteVarBytes messageBytes ++
      be_bytes 1 (Reason f) ++ be_bytes 4 (FailureSourceIndex f)).

Definition deserializeHTLCFailInfo (r : list byte) : res HTLCFailInfo :=
  '(failTime, r) ← deserializeTime r;
  '(failureBytes, r) ← ReadVarBytes FailureMessageLength r;
  message ← (match failureBytes with
             | [] => Ok None
             | _ => m ← DecodeFailureMessage failureBytes; Ok (Some m)
             end);
  '(reason, r) ← read_be 1 r;
  '(sourceIndex, _) ← read_be 4 r;
  Ok {| FailTime := failTime; Message := message; Reason := reason;
        FailureSourceIndex := sourceIndex |}.
End Failures.

(** ** What reading back gives *)

(** A stored hop keeps its routing fields; an AMP record is never written, and the
    other records only with a TLV payload. *)
Definition stored_hop (h : Hop) : Hop :=
  {| PubKeyBytes := PubKeyBytes h; ChannelID := ChannelID h;
     OutgoingTimeLock := OutgoingTimeLock h; AmtToForward := AmtToForward h;
     hop_MPP := if LegacyPayload h then None else hop_MPP h;
     hop_AMP := None;
     CustomRecords := if LegacyPayload h then ∅ else CustomRecords h;
     LegacyPayload := LegacyPayload h |}.

Definition stored_route (r : Route) : Route :=
  {| TotalTimeLock := TotalTimeLock r; TotalAmount := TotalAmount r;
     SourcePubKey := SourcePubKey r; Hops := stored_hop <$> Hops r |}.

(** The epoch itself is written like the zero time. *)
Definition stored_time (t : Time) : Time :=
  match t with UnixNano 0 => ZeroTime | _ => t end.

Definition stored_attempt (a : HTLCAttemptInfo) : HTLCAttemptInfo :=
  {| AttemptID := 0; sessionKey := sessionKey a; attempt_Route := stored_route (attempt_Route a);
     AttemptTime := stored_time (AttemptTime a); attempt_Hash := attempt_Hash a |}.

(** Go values: arrays have their length, integers their width. *)
Definition wf_time (t : Time) : Prop :=
  match t with ZeroTime => True | UnixNano ns => - 2 ^ 63 <= ns < 2 ^ 63 end.

Definition wf_mpp (m : MPP) : Prop := length (paymentAddr m) = 32%nat /\ is_u64 (totalMAtoms m).

Record wf_hop (h : Hop) : Prop := {
  wh_pub : length (PubKeyBytes h) = VertexSize;
  wh_chan : is_u64 (ChannelID h);
  wh_lock : is_u32 (OutgoingTimeLock h);
  wh_amt : is_u64 (AmtToForward h);
  wh_mpp : forall m, hop_MPP h = Some m -> wf_mpp m;
}.

(** The custom records an onion can carry. *)
Definition custom_ok (h : Hop) : Prop :=
  LegacyPayload h = false ->
  map_Forall (fun t b => CustomTypeStart <= t < 2 ^ 64 /\
    Z.of_nat (length b) <= maxOnionPayloadSize) (CustomRecords h) /\
  Z.of_nat (size (CustomRecords h)) < 2 ^ 32 - 1.

Record wf_route (r : Route) : Prop := {
  wr_lock : is_u32 (TotalTimeLock r);
  wr_amt : is_u64 (TotalAmount r);
  wr_pub : length (SourcePubKey r) = VertexSize;
  wr_hops : Forall wf_hop (Hops r);
  wr_custom : Forall custom_ok (Hops r);
  wr_count : is_u32 (Z.of_nat (length (Hops r)));
}.

Record wf_attempt (a : HTLCAttemptInfo) : Prop := {
  wa_key : length (sessionKey a) = 32%nat;
  wa_route : wf_route (attempt_Route a);
  wa_time : wf_time (AttemptTime a);
  wa_hash : forall h, attempt_Hash a = Some h -> length h = 32%nat;
}.

Record wf_creation (c : PaymentCreationInfo) : Prop := {
  wc_id : length (PaymentIdentifier c) = 32%nat;
  wc_value : is_u64 (Value c);
  wc_time : wf_time (CreationTime c);
  wc_request : is_u32 (Z.of_nat (length (PaymentRequest c)));
}.

Definition stored_creation (c : PaymentCreationInfo) : PaymentCreationInfo :=
  {| PaymentIdentifier := PaymentIdentifier c; Value := Value c;
     CreationTime := stored_time (CreationTime c); PaymentRequest := PaymentRequest c |}.

Lemma deserializeTime_serialize t r :
  wf_time t -> deserializeTime (serializeTime t ++ r) = Ok (stored_time t, r).
Proof.
  intros Ht. unfold deserializeTime, serializeTime.
  rewrite read_be_app by (destruct t; [simpl; lia|apply u64_range]). rsimpl.
  destruct t as [|ns]; [done|]. cbn [stored_time wf_time] in *. unfold u64, i64.
  destruct (Z.eqb_spec (ns mod 2 ^ 64) 0) as [E|E].
  - assert (ns = 0) as -> by (apply Z.mod_divide in E as [k E]; lia). done.
  - replace ((ns mod 2 ^ 64 + 2 ^ 63) mod 2 ^ 64) with (ns + 2 ^ 63).
    2:{ rewrite Zplus_mod_idemp_l. rewrite Z.mod_small; lia. }
    replace (ns + 2 ^ 63 - 2 ^ 63) with ns by lia.
    assert (ns <> 0) by (by intros ->). by destruct ns.
Qed.

Lemma creation_info_roundtrip c :
  wf_creation c ->
  deserializePaymentCreationInfo (serializePaymentCreationInfo c) = Ok (stored_creation c).
Proof.
  intros [Hid Hv Ht Hr]. unfold deserializePaymentCreationInfo, serializePaymentCreationInfo.
  rewrite read_full_app' by done. rsimpl.
  rewrite read_be_app by exact Hv. rsimpl.
  rewrite deserializeTime_serialize by done. rsimpl.
  rewrite u32_small by done. rewrite read_be_app by exact Hr. rsimpl.
  rewrite Nat2Z.id. destruct (PaymentRequest c) as [|b bs] eqn:E; [by unfold stored_creation; rewrite E|].
  rewrite (proj2 (Z.ltb_lt _ _)) by (simpl; lia).
  rewrite <- (app_nil_r (b :: bs)) at 2. rewrite read_full_app. rsimpl.
  unfold stored_creation. by rewrite E.
Qed.

Lemma copy_array_exact n b : length b = n -> copy_array n b = b.
Proof.
  intros <-. unfold copy_array. rewrite firstn_all, Nat.sub_diag. apply app_nil_r.
Qed.

Section Reading.
Context `{Secp256k1, VarBytes, MapRange}.

Lemma MPPDecoder_Encoder m :
  wf_mpp m ->
  MPPDecoder (Z.of_nat (length (MPPEncoder m))) (MPPEncoder m) = Ok (m, []) /\
  Z.of_nat (length (MPPEncoder m)) <= maxMPPLength.
Proof.
  intros [Ha Ht]. unfold MPPDecoder, MPPEncoder. rewrite length_app, Ha.
  pose proof numLeadingZeroBytes64_spec as Hl. pose proof (Hl (totalMAtoms m) Ht) as (Hb & _).
  assert (Z.of_nat (length (ETUint64T (totalMAtoms m))) =
    Z.of_nat 8 - numLeadingZeroBytes64 (totalMAtoms m)) as El.
  { unfold ETUint64T. rewrite length_drop, length_be_bytes. lia. }
  rewrite Nat2Z.inj_add, El. unfold minMPPLength, maxMPPLength. split; [|lia].
  rewrite !(proj2 (Z.leb_le _ _)) by lia. cbn [andb].
  unfold DBytes32. cbn [Z.eqb Pos.eqb]. rewrite read_full_app' by done. rsimpl.
  unfold DTUint64. rewrite (proj2 (Z.leb_le _ 8)) by lia.
  change 8 with (Z.of_nat 8) at 2 3.
  replace (Z.of_nat 32 + (Z.of_nat 8 - numLeadingZeroBytes64 (totalMAtoms m)) - 32)
    with (Z.of_nat 8 - numLeadingZeroBytes64 (totalMAtoms m)) by lia.
  rewrite <- (read_truncated_con 8 numLeadingZeroBytes64 _ _ PUint64).
  rewrite <- (app_nil_r (ETUint64T _)).
  rewrite (read_write_truncated 8 numLeadingZeroBytes64 ltac:(lia) Hl); [|exact Ht].
  by destruct m.
Qed.

(** The map of records a hop is written with. *)
Definition hop_records (h : Hop) : gmap Z (list byte) :=
  match hop_MPP h with
  | Some m => <[MPPOnionType := MPPEncoder m]> (CustomRecords h)
  | None => CustomRecords h
  end.

Lemma records_to_map_stubs raws : forall m,
  NoDup raws.*1 ->
  records_to_map (stub_record <$> raws) m = Ok (list_to_map raws ∪ m).
Proof.
  induction raws as [|[t b] raws IH]; intros m Hn.
  - simpl. f_equal. by rewrite (left_id_L ∅ (∪)).
  - apply NoDup_cons in Hn as [Hn1 Hn]. rewrite fmap_cons. simpl.
    rewrite IH by done. f_equal. rewrite <- insert_union_l. symmetry.
    apply insert_union_r. by apply not_elem_of_list_to_map.
Qed.

Lemma RecordsToMap_hop h :
  map_Forall (fun t _ => CustomTypeStart <= t) (CustomRecords h) ->
  RecordsToMap (match hop_MPP h with Some m => [MPP_Record m] | None => [] end ++
                MapToRecords (CustomRecords h)) = Ok (hop_records h).
Proof.
  intros Hc. destruct (MapToRecords_entries (CustomRecords h)) as (raws & -> & Hp).
  assert (NoDup raws.*1) as Hn by (rewrite Hp; apply NoDup_fst_map_to_list).
  assert ((list_to_map raws : gmap Z (list byte)) = CustomRecords h) as El.
  { rewrite <- (list_to_map_to_list (CustomRecords h)). by apply list_to_map_proper. }
  unfold RecordsToMap, hop_records. destruct (hop_MPP h) as [m|]; simpl;
    rewrite records_to_map_stubs, El by done; f_equal.
  - rewrite <- insert_union_r; [by rewrite (right_id_L ∅ (∪))|].
    destruct (CustomRecords h !! MPPOnionType) eqn:E; [|done]. apply Hc in E.
    unfold CustomTypeStart, MPPOnionType in E. lia.
  - by rewrite (right_id_L ∅ (∪)).
Qed.

Lemma read_tlvs_entries l : forall r m,
  Forall (fun kv => is_u64 kv.1 /\ Z.of_nat (length kv.2) <= maxOnionPayloadSize) l ->
  NoDup l.*1 ->
  read_tlvs (length l) (concat (encode_tlv <$> l) ++ r) m = Ok (list_to_map l ∪ m, r).
Proof.
  induction l as [|[t b] l IH]; intros r m Hl Hn.
  - simpl. by rewrite (left_id_L ∅ (∪)).
  - apply Forall_cons in Hl as [[Ht Hb] Hl]. apply NoDup_cons in Hn as [Hn1 Hn]. simpl in Ht, Hb.
    rewrite fmap_cons. cbn [concat length read_tlvs]. unfold encode_tlv at 1. cbn [fst snd].
    rewrite <- !app_assoc. rewrite read_be_app by exact Ht. rsimpl.
    rewrite ReadVarBytes_Write by done. rsimpl. rewrite IH by done. do 2 f_equal.
    simpl. rewrite <- insert_union_l. symmetry.
    apply insert_union_r. by apply not_elem_of_list_to_map.
Qed.

Lemma read_tlvs_map m r :
  map_Forall (fun t b => is_u64 t /\ Z.of_nat (length b) <= maxOnionPayloadSize) m ->
  read_tlvs (size m) (concat (encode_tlv <$> range_map m) ++ r) ∅ = Ok (m, r).
Proof.
  intros Hm. pose proof (range_map_entries m) as Hp.
  replace (size m) with (length (range_map m)).
  2:{ rewrite Hp. apply length_map_to_list. }
  rewrite read_tlvs_entries.
  - do 2 f_equal. rewrite (right_id_L ∅ (∪)).
    etrans; [|apply (list_to_map_to_list m)]. apply list_to_map_proper; [|exact Hp].
    rewrite Hp. apply NoDup_fst_map_to_list.
  - apply Forall_forall. intros [t b] Hin. rewrite Hp in Hin.
    apply elem_of_map_to_list in Hin. by apply Hm in Hin.
  - rewrite Hp. apply NoDup_fst_map_to_list.
Qed.

Lemma hop_records_bounded h :
  wf_hop h -> LegacyPayload h = false -> custom_ok h ->
  map_Forall (fun t b => is_u64 t /\ Z.of_nat (length b) <= maxOnionPayloadSize) (hop_records h) /\
  is_u32 (Z.of_nat (size (hop_records h))).
Proof.
  intros Hwf El Hc. destruct (Hc El) as [Hm Hs].
  assert (map_Forall (fun t b => is_u64 t /\ Z.of_nat (length b) <= maxOnionPayloadSize)
    (CustomRecords h)) as Hm'.
  { eapply map_Forall_impl; [exact Hm|]. intros t b. simpl.
    unfold is_u64, CustomTypeStart. lia. }
  unfold hop_records. destruct (hop_MPP h) as [m|] eqn:Em; [|split; [done|unfold is_u32; lia]].
  split.
  - apply map_Forall_insert_2; [|done]. split; [done|].
    destruct (MPPDecoder_Encoder m (wh_mpp h Hwf m Em)) as [_ Hb].
    unfold maxMPPLength, maxOnionPayloadSize in *. lia.
  - destruct (CustomRecords h !! MPPOnionType) eqn:E.
    + rewrite map_size_insert_Some by (by rewrite E). unfold is_u32. lia.
    + rewrite map_size_insert_None by done. unfold is_u32. lia.
Qed.

Lemma Validate_ok c :
  map_Forall (fun t _ => CustomTypeStart <= t) c -> Validate c = Ok tt.
Proof.
  intros Hc. unfold Validate. rewrite (proj2 (forallb_forall _ _)); [done|].
  intros [t b] Hin. apply list_elem_of_In, elem_of_map_to_list, Hc in Hin. by apply Z.leb_le.
Qed.

Lemma read_bool_encode b r : read_bool (encode_bool b ++ r) = Ok (b, r).
Proof. destruct b; destruct r; reflexivity. Qed.

(** The records of a hop, split again. *)
Lemma hop_records_split h :
  map_Forall (fun t _ => CustomTypeStart <= t) (CustomRecords h) ->
  hop_records h !! MPPOnionType = MPPEncoder <$> hop_MPP h /\
  delete MPPOnionType (hop_records h) = CustomRecords h.
Proof.
  intros Hc.
  assert (CustomRecords h !! MPPOnionType = None) as En.
  { destruct (CustomRecords h !! MPPOnionType) eqn:E; [|done]. apply Hc in E.
    unfold CustomTypeStart, MPPOnionType in E. lia. }
  unfold hop_records. destruct (hop_MPP h) as [m|]; simpl; split.
  - by rewrite lookup_insert_eq.
  - rewrite delete_insert_eq. by apply delete_id.
  - done.
  - by apply delete_id.
Qed.

Lemma hop_roundtrip h :
  wf_hop h -> custom_ok h ->
  exists b, serializeHop h = Ok b /\ forall r, deserializeHop (b ++ r) = Ok (stored_hop h, r).
Proof.
  intros Hwf Hc. pose proof Hwf as [Hp Hch Hl Ha _].
  assert (Hread : forall tl r,
    deserializeHop ((WriteVarBytes (PubKeyBytes h) ++ be_bytes 8 (ChannelID h) ++
      be_bytes 4 (OutgoingTimeLock h) ++ be_bytes 8 (AmtToForward h) ++
      encode_bool (LegacyPayload h)) ++ tl ++ r) =
    ('(numElements, r) ← read_be 4 (tl ++ r);
     let hop mpp custom :=
       {| PubKeyBytes := PubKeyBytes h; ChannelID := ChannelID h;
          OutgoingTimeLock := OutgoingTimeLock h; AmtToForward := AmtToForward h;
          hop_MPP := mpp; hop_AMP := None; CustomRecords := custom;
          LegacyPayload := LegacyPayload h |} in
     if numElements =? 0 then Ok (hop None ∅, r)
     else
       '(tlvMap, r) ← read_tlvs (Z.to_nat numElements) r ∅;
       match tlvMap !! MPPOnionType with
       | Some mppBytes =>
           '(mpp, _) ← MPPDecoder (Z.of_nat (length mppBytes)) mppBytes;
           Ok (hop (Some mpp) (delete MPPOnionType tlvMap), r)
       | None => Ok (hop None tlvMap, r)
       end)).
  { intros tl r. unfold deserializeHop. rewrite <- !app_assoc.
    rewrite ReadVarBytes_Write by (rewrite Hp; unfold maxElementBytes, VertexSize; lia). rsimpl.
    rewrite read_be_app by exact Hch. rsimpl. rewrite read_be_app by exact Hl. rsimpl.
    rewrite read_be_app by exact Ha. rsimpl. rewrite read_bool_encode. rsimpl.
    by rewrite copy_array_exact. }
  unfold serializeHop, stored_hop. destruct (LegacyPayload h) eqn:El.
  - eexists. split; [reflexivity|]. intros r. rewrite <- app_assoc, Hread.
    by rewrite read_be_app.
  - destruct (hop_records_bounded h Hwf El Hc) as [Hm Hs].
    assert (map_Forall (fun t _ => CustomTypeStart <= t) (CustomRecords h)) as Hlow.
    { eapply map_Forall_impl; [apply (Hc El)|]. simpl. lia. }
    rewrite Validate_ok, RecordsToMap_hop by done. rsimpl.
    eexists. split; [reflexivity|]. intros r. rewrite <- app_assoc, Hread.
    rewrite <- app_assoc. rewrite u32_small by done.
    rewrite read_be_app by exact Hs. rsimpl.
    destruct (hop_records_split h Hlow) as [Eh Ed].
    destruct (Z.eqb_spec (Z.of_nat (size (hop_records h))) 0) as [E0|E0].
    + assert (hop_records h = ∅) as Ee by (apply map_size_empty_inv; lia).
      rewrite Ee in Eh, Ed |- *. rewrite delete_empty in Ed. rewrite <- Ed.
      destruct (hop_MPP h); [by rewrite lookup_empty in Eh|].
      pose proof (range_map_entries ∅) as He. rewrite map_to_list_empty in He.
      by apply Permutation_nil_r in He as ->.
    + rewrite Nat2Z.id, read_tlvs_map by done. rsimpl.
      rewrite Eh. destruct (hop_MPP h) as [m|] eqn:Em; simpl.
      * destruct (MPPDecoder_Encoder m (wh_mpp h Hwf m Em)) as [-> _]. rsimpl. by rewrite Ed.
      * rewrite <- Ed. rewrite delete_id; [done|]. by rewrite Eh.
Qed.

Lemma hops_roundtrip hops :
  Forall wf_hop hops -> Forall custom_ok hops ->
  exists b, serialize_hops hops = Ok b /\
    forall r, read_hops (length hops) (b ++ r) = Ok (stored_hop <$> hops, r).
Proof.
  induction hops as [|h hops IH]; intros Hw Hc; [by exists []|].
  apply Forall_cons in Hw as [Hw1 Hw]. apply Forall_cons in Hc as [Hc1 Hc].
  destruct (IH Hw Hc) as (bs & Es & Hs). destruct (hop_roundtrip h Hw1 Hc1) as (b & Eb & Hb).
  exists (b ++ bs). split; [simpl; by rewrite Eb, Es|]. intros r. rewrite <- app_assoc.
  cbn [length read_hops]. rewrite Hb. rsimpl. by rewrite Hs.
Qed.

Lemma route_roundtrip rt :
  wf_route rt ->
  exists b, SerializeRoute rt = Ok b /\
    forall r, DeserializeRoute (b ++ r) = Ok (stored_route rt, r).
Proof.
  intros [Hl Ha Hp Hw Hc Hn]. destruct (hops_roundtrip (Hops rt) Hw Hc) as (b & Eb & Hb).
  unfold SerializeRoute. rewrite Eb. eexists. split; [reflexivity|]. intros r.
  unfold DeserializeRoute. rewrite <- !app_assoc.
  rewrite read_be_app by exact Hl. rsimpl. rewrite read_be_app by exact Ha. rsimpl.
  rewrite ReadVarBytes_Write by (rewrite Hp; unfold maxElementBytes, VertexSize; lia). rsimpl.
  rewrite u32_small by done. rewrite read_be_app by exact Hn. rsimpl.
  rewrite Nat2Z.id, Hb. rsimpl. by rewrite copy_array_exact.
Qed.

Lemma attempt_reads_back a :
  wf_attempt a ->
  exists b, serializeHTLCAttemptInfo a = Ok b /\
    deserializeHTLCAttemptInfo b = Ok (stored_attempt a).
Proof.
  intros [Hk Hr Ht Hh]. destruct (route_roundtrip _ Hr) as (b & Eb & Hb).
  unfold serializeHTLCAttemptInfo. rewrite Eb. eexists. split; [reflexivity|].
  unfold deserializeHTLCAttemptInfo. rewrite read_full_app' by done. rsimpl.
  rewrite Hb. rsimpl. rewrite deserializeTime_serialize by done. rsimpl. unfold stored_attempt.
  destruct (attempt_Hash a) as [h|] eqn:Eh; [|done].
  change (default [] (Some h)) with h. rewrite <- (app_nil_r h) at 1. by rewrite read_full_app' by (by apply Hh).
Qed.
End Reading.

Lemma settle_info_roundtrip s :
  length (Preimage s) = 32%nat -> wf_time (SettleTime s) ->
  deserializeHTLCSettleInfo (serializeHTLCSettleInfo s) =
  Ok {| Preimage := Preimage s; SettleTime := stored_time (SettleTime s) |}.
Proof.
  intros Hp Ht. unfold deserializeHTLCSettleInfo, serializeHTLCSettleInfo.
  rewrite read_full_app' by done. rsimpl. rewrite <- (app_nil_r (serializeTime _)).
  by rewrite deserializeTime_serialize.
Qed.

Lemma fail_info_roundtrip `{VarBytes, FailureCodec} f b :
  wf_time (FailTime f) -> is_u8 (Reason f) -> is_u32 (FailureSourceIndex f) ->
  (forall m b, Message f = Some m -> EncodeFailureMessage m = Ok b ->
    Z.of_nat (length b) <= FailureMessageLength) ->
  serializeHTLCFailInfo f = Ok b ->
  deserializeHTLCFailInfo b =
  Ok {| FailTime := stored_time (FailTime f); Message := Message f; Reason := Reason f;
        FailureSourceIndex := FailureSourceIndex f |}.
Proof.
  intros Ht Hr Hi Hm. unfold serializeHTLCFailInfo.
  intros (mb & Em & E)%bind_ok. apply Ok_inj in E as <-. unfold deserializeHTLCFailInfo.
  rewrite deserializeTime_serialize by done. rsimpl.
  rewrite ReadVarBytes_Write.
  2:{ destruct (Message f) as [m|]; [by apply (Hm m)|injection Em as <-].
      unfold FailureMessageLength. simpl. lia. }
  rsimpl.
  assert ((match mb with
           | [] => Ok None
           | _ => m ← DecodeFailureMessage mb; Ok (Some m)
           end) = Ok (Message f)) as ->.
  { destruct (Message f) as [m|]; [|by injection Em as <-].
    pose proof (EncodeFailureMessage_code m mb Em). destruct mb as [|c mb]; [done|].
    by rewrite (Decode_EncodeFailureMessage m _ Em). }
  rsimpl. rewrite read_be_app by exact Hr. rsimpl. rewrite <- (app_nil_r (be_bytes 4 _)).
  by rewrite read_be_app by exact Hi.
Qed.
