(* ===== verification/Amp.v ===== *)
(** * Atomic multi-path payments

    The sharing of a root seed over the parts of a payment ([amp/child.go],
    [amp/sharer.go]), the sender's tracker of its shards ([amp/shard_tracker.go]) and the
    record each part carries ([record/amp.go]).  Shares are arrays of 32 bytes; what
    [rand.Read] yields is an argument, nothing when it fails. *)

From S2P Require Import Prelude Sha256 Tlv PaymentCodec.

(** ** Shares and children *)

Definition xor_byte (x y : byte) : byte := byte_of (Z.lxor (bval x) (bval y)).

Definition Xor (x y : list byte) : list byte := zip_with xor_byte x y.

Definition zeroShare : list byte := replicate 32 x00.

Record ChildDesc := { Share : list byte; Index : Z }.

Record Child := {
  child_desc : ChildDesc;
  child_Preimage : list byte;
  child_Hash : list byte;
}.

#[export] Instance ChildDesc_eq_dec : EqDecision ChildDesc.
Proof. solve_decision. Defined.
#[export] Instance Child_eq_dec : EqDecision Child.
Proof. solve_decision. Defined.

Record SeedSharer := { root : list byte; curr : list byte }.

Section Amp.
Context `{Hasher}.

Definition DeriveChild (root : list byte) (desc : ChildDesc) : Child :=
  let preimage := digest (root ++ Share desc ++ be_bytes 4 (Index desc)) in
  {| child_desc := desc; child_Preimage := preimage; child_Hash := digest preimage |}.

Definition ReconstructChildren (descs : list ChildDesc) : list Child :=
  let root := foldl (fun root desc => Xor root (Share desc)) zeroShare descs in
  map (DeriveChild root) descs.

Definition SeedSharerFromRoot (r : list byte) : SeedSharer := {| root := r; curr := r |}.

Definition NewSeedSharer (rand : option (list byte)) : res SeedSharer :=
  match rand with
  | None => Err (Error "rand")
  | Some r => Ok (SeedSharerFromRoot r)
  end.

Definition split_share (parent : list byte) (rand : option (list byte))
    : res (list byte * list byte) :=
  match rand with
  | None => Err (Error "rand")
  | Some l => Ok (l, Xor parent l)
  end.

Definition errSplitZero : error := Error "cannot split zero-Sharer".

Definition Split (s : SeedSharer) (rand : option (list byte)) : res (SeedSharer * SeedSharer) :=
  if bool_decide (curr s = zeroShare) then Err errSplitZero
  else
    '(shareLeft, shareRight) ← split_share (curr s) rand;
    Ok ({| root := root s; curr := shareLeft |}, {| root := root s; curr := shareRight |}).

Definition Merge_child (s : SeedSharer) (child : Child) : SeedSharer :=
  {| root := root s; curr := Xor (curr s) (Share (child_desc child)) |}.

Definition Zero (s : SeedSharer) : SeedSharer := {| root := root s; curr := zeroShare |}.

Definition Child_ (s : SeedSharer) (index : Z) : Child :=
  DeriveChild (root s) {| Share := curr s; Index := index |}.

(** ** The sender's shards *)

Record Shard := { shard_child : Child; shard_mpp : MPP; shard_amp : AMP }.

Record ShardTracker := {
  tracker_setID : list byte;
  tracker_paymentAddr : list byte;
  totalAmt : Z;
  sharer : SeedSharer;
  shards : gmap Z Child;
}.

Definition with_shards (t : ShardTracker) (s : SeedSharer) (m : gmap Z Child) : ShardTracker :=
  {| tracker_setID := tracker_setID t; tracker_paymentAddr := tracker_paymentAddr t;
     totalAmt := totalAmt t; sharer := s; shards := m |}.

Definition NewShardTracker (root setID payAddr : list byte) (amt : Z) : ShardTracker :=
  {| tracker_setID := setID; tracker_paymentAddr := payAddr; totalAmt := amt;
     sharer := SeedSharerFromRoot root; shards := ∅ |}.

Definition next_child (s : SeedSharer) (last : bool) (idx : Z) (rand : option (list byte))
    : res (SeedSharer * Child) :=
  if last then Ok (Zero s, Child_ s idx)
  else '(l, r) ← Split s rand; Ok (r, Child_ l idx).

Definition NewShard (t : ShardTracker) (pid : Z) (last : bool)
    (childIndex rand : option (list byte)) : ShardTracker * res Shard :=
  match childIndex with
  | None => (t, Err (Error "rand"))
  | Some idx =>
      match next_child (sharer t) last (be_val idx) rand with
      | Ok (s, child) =>
          (with_shards t s (<[pid := child]> (shards t)),
           Ok {| shard_child := child;
                 shard_mpp := {| paymentAddr := tracker_paymentAddr t; totalMAtoms := totalAmt t |};
                 shard_amp := {| rootShare := Share (child_desc child); setID := tracker_setID t;
                                 childIndex := Index (child_desc child) |} |})
      | Err e => (t, Err e)
      | Panic => (t, Panic)
      end
  end.

Definition errPidNotFound : error := Error "pid not found".
Definition errShardNotFound : error := Error "AMP shard for attempt not found".

Definition CancelShard (t : ShardTracker) (pid : Z) : ShardTracker * res unit :=
  match shards t !! pid with
  | None => (t, Err errPidNotFound)
  | Some c => (with_shards t (Merge_child (sharer t) c) (delete pid (shards t)), Ok tt)
  end.

Definition GetHash (t : ShardTracker) (pid : Z) : res (list byte) :=
  match shards t !! pid with None => Err errShardNotFound | Some c => Ok (child_Hash c) end.

End Amp.

(** ** The record of a part *)

Definition AMPOnionType : Z := 14.
Definition minAMPLength : Z := 64.
Definition maxAMPLength : Z := 68.

Section AmpRecord.
Context `{Secp256k1}.

Definition AMPEncoder (v : AMP) : list byte :=
  rootShare v ++ setID v ++ ETUint32T (childIndex v).

Definition AMPDecoder (l : Z) (r : list byte) : res (AMP * list byte) :=
  if (minAMPLength <=? l) && (l <=? maxAMPLength) then
    '(share, r) ← DBytes32 (PBytes32 (replicate 32 x00)) 32 r;
    '(set, r) ← DBytes32 (PBytes32 (replicate 32 x00)) 32 r;
    '(child, r) ← DTUint32 (PUint32 0) (l - minAMPLength) r;
    match share, set, child with
    | PBytes32 a, PBytes32 s, PUint32 c =>
        Ok ({| rootShare := a; setID := s; childIndex := c |}, r)
    | _, _, _ => Panic
    end
  else Err ErrTypeForDecoding.

Definition AMP_PayloadSize (a : AMP) : Z := u64 (32 + 32 + SizeTUint32 (childIndex a)).

Definition wf_amp (a : AMP) : Prop :=
  length (rootShare a) = 32%nat /\ length (setID a) = 32%nat /\ is_u32 (childIndex a).

Lemma AMPDecoder_Encoder a r :
  wf_amp a ->
  AMPDecoder (Z.of_nat (length (AMPEncoder a))) (AMPEncoder a ++ r) = Ok (a, r) /\
  AMP_PayloadSize a = Z.of_nat (length (AMPEncoder a)) /\
  Z.of_nat (length (AMPEncoder a)) <= maxAMPLength.
Proof.
  intros (Hs & Hi & Hc). unfold AMPDecoder, AMPEncoder. rewrite !length_app, Hs, Hi.
  pose proof numLeadingZeroBytes32_spec as Hl. pose proof (Hl (childIndex a) Hc) as (Hb & _).
  assert (Z.of_nat (length (ETUint32T (childIndex a))) =
    Z.of_nat 4 - numLeadingZeroBytes32 (childIndex a)) as El.
  { unfold ETUint32T. rewrite length_drop, length_be_bytes. lia. }
  rewrite !Nat2Z.inj_add, El. unfold minAMPLength, maxAMPLength.
  split; [|split; [unfold AMP_PayloadSize, SizeTUint32; rewrite !u64_small; unfold is_u64;
    rewrite ?u64_small; unfold is_u64; lia|lia]].
  rewrite !(proj2 (Z.leb_le _ _)) by lia. cbn [andb]. rewrite <- !app_assoc.
  unfold DBytes32. cbn [Z.eqb Pos.eqb]. rewrite read_full_app' by done. rsimpl.
  rewrite read_full_app' by done. rsimpl.
  unfold DTUint32. rewrite (proj2 (Z.leb_le _ 4)) by lia.
  change 4 with (Z.of_nat 4) at 2 3.
  replace (Z.of_nat 32 + (Z.of_nat 32 + (Z.of_nat 4 - numLeadingZeroBytes32 (childIndex a))) - 64)
    with (Z.of_nat 4 - numLeadingZeroBytes32 (childIndex a)) by lia.
  rewrite <- (read_truncated_con 4 numLeadingZeroBytes32 _ _ PUint32).
  rewrite (read_write_truncated 4 numLeadingZeroBytes32 ltac:(lia) Hl); [|exact Hc].
  by destruct a.
Qed.
End AmpRecord.

(** ** Shares add up *)

Lemma bval_xor x y : bval (xor_byte x y) = Z.lxor (bval x) (bval y).
Proof.
  unfold xor_byte. rewrite bval_byte_of. apply Z.mod_small.
  pose proof (bval_range x). pose proof (bval_range y).
  assert (0 <= Z.lxor (bval x) (bval y)) by (apply Z.lxor_nonneg; lia). split; [done|].
  destruct (Z.eq_dec (Z.lxor (bval x) (bval y)) 0) as [->|]; [lia|].
  change 256 with (2 ^ 8). apply Z.log2_lt_pow2; [lia|].
  eapply Z.le_lt_trans; [apply Z.log2_lxor; lia|].
  assert (forall z, 0 <= z < 256 -> Z.log2 z < 8) as Hl.
  { intros z Hz. destruct (Z.eq_dec z 0) as [->|]; [done|]. apply Z.log2_lt_pow2; lia. }
  apply Z.max_lub_lt; by apply Hl.
Qed.

Lemma xor_byte_comm x y : xor_byte x y = xor_byte y x.
Proof. apply bval_inj. rewrite !bval_xor. apply Z.lxor_comm. Qed.

Lemma xor_byte_assoc x y z : xor_byte x (xor_byte y z) = xor_byte (xor_byte x y) z.
Proof. apply bval_inj. rewrite !bval_xor. symmetry. apply Z.lxor_assoc. Qed.

Lemma xor_byte_nilpotent x : xor_byte x x = x00.
Proof. apply bval_inj. rewrite bval_xor. apply Z.lxor_nilpotent. Qed.

Lemma xor_byte_0_l x : xor_byte x00 x = x.
Proof. apply bval_inj. rewrite bval_xor. apply Z.lxor_0_l. Qed.

Lemma Xor_comm x y : Xor x y = Xor y x.
Proof.
  unfold Xor. revert y. induction x as [|a x IH]; intros [|b y]; simpl; [done..|].
  by rewrite xor_byte_comm, IH.
Qed.

Lemma Xor_assoc x : forall y z, Xor x (Xor y z) = Xor (Xor x y) z.
Proof.
  induction x as [|a x IH]; intros [|b y] [|c z]; try done. unfold Xor in *. simpl.
  f_equal; [apply xor_byte_assoc|apply IH].
Qed.

Lemma length_Xor x y n : length x = n -> length y = n -> length (Xor x y) = n.
Proof. intros Hx Hy. unfold Xor. rewrite length_zip_with. lia. Qed.

Lemma Xor_zero_l x : length x = 32%nat -> Xor zeroShare x = x.
Proof.
  unfold zeroShare. intros <-. induction x as [|a x IH]; [done|]. unfold Xor in *. simpl.
  by rewrite xor_byte_0_l, IH.
Qed.

Lemma Xor_self x : length x = 32%nat -> Xor x x = zeroShare.
Proof.
  unfold zeroShare. intros <-. induction x as [|a x IH]; [done|]. unfold Xor in *. simpl.
  by rewrite xor_byte_nilpotent, IH.
Qed.

(** The sum of shares. *)
Definition xor_all (l : list (list byte)) : list byte := foldr Xor zeroShare l.

Lemma xor_all_perm l l' : l ≡ₚ l' -> xor_all l = xor_all l'.
Proof.
  unfold xor_all. induction 1 as [|x l l' _ IH|x y l|l l' l'' _ IH1 _ IH2]; simpl; try congruence.
  by rewrite !Xor_assoc, (Xor_comm x y).
Qed.

Lemma length_xor_all l : Forall (fun s => length s = 32%nat) l -> length (xor_all l) = 32%nat.
Proof. induction 1; [done|]. simpl. by apply length_Xor. Qed.

Lemma foldl_xor (descs : list ChildDesc) : forall a,
  length a = 32%nat -> Forall (fun d => length (Share d) = 32%nat) descs ->
  foldl (fun root desc => Xor root (Share desc)) a descs = Xor a (xor_all (Share <$> descs)).
Proof.
  induction descs as [|d descs IH]; intros a Ha Hd.
  - simpl. by rewrite Xor_comm, Xor_zero_l.
  - apply Forall_cons in Hd as [Hd1 Hd]. simpl. rewrite IH; [|by apply length_Xor|done].
    by rewrite Xor_assoc.
Qed.

(** ** Histories of a tracker *)

Section Tracker.
Context `{Hasher}.

Inductive shard_op :=
| OpNewShard (pid : Z) (last : bool) (childIndex rand : option (list byte))
| OpCancelShard (pid : Z).

Definition shard_step (op : shard_op) (t : ShardTracker) : ShardTracker :=
  match op with
  | OpNewShard pid last idx rand => (NewShard t pid last idx rand).1
  | OpCancelShard pid => (CancelShard t pid).1
  end.

Definition shard_run (ops : list shard_op) (t : ShardTracker) : ShardTracker :=
  foldl (fun t op => shard_step op t) t ops.

(** An attempt id is used for one shard at a time; [rand.Read] fills arrays of 4 and of
    32 bytes. *)
Definition shard_op_ok (op : shard_op) (t : ShardTracker) : Prop :=
  match op with
  | OpNewShard pid _ idx rand =>
      shards t !! pid = None /\
      (forall b, idx = Some b -> length b = 4%nat) /\ (forall b, rand = Some b -> length b = 32%nat)
  | OpCancelShard _ => True
  end.

Fixpoint shard_history (ops : list shard_op) (t : ShardTracker) : Prop :=
  match ops with
  | [] => True
  | op :: rest => shard_op_ok op t /\ shard_history rest (shard_step op t)
  end.

Definition outstanding (t : ShardTracker) : list Child := (map_to_list (shards t)).*2.

Definition child_ok (r : list byte) (c : Child) : Prop :=
  c = DeriveChild r (child_desc c) /\ length (Share (child_desc c)) = 32%nat.

Record tracker_inv (r : list byte) (t : ShardTracker) : Prop := {
  ti_root : root (sharer t) = r;
  ti_curr : length (curr (sharer t)) = 32%nat;
  ti_children : map_Forall (fun _ c => child_ok r c) (shards t);
  ti_sum : Xor (curr (sharer t)) (xor_all (Share ∘ child_desc <$> outstanding t)) = r;
}.

Lemma outstanding_shares r t :
  map_Forall (fun _ c => child_ok r c) (shards t) -> Forall (child_ok r) (outstanding t).
Proof.
  intros Hc. apply Forall_forall. intros c Hin. apply list_elem_of_fmap in Hin as ([pid c'] & -> & Hin).
  apply elem_of_map_to_list in Hin. by apply Hc in Hin.
Qed.

Lemma outstanding_insert t s pid c :
  shards t !! pid = None -> outstanding (with_shards t s (<[pid := c]> (shards t))) ≡ₚ c :: outstanding t.
Proof. intros Hp. unfold outstanding. simpl. by rewrite map_to_list_insert. Qed.

Lemma outstanding_delete t s pid c :
  shards t !! pid = Some c -> c :: outstanding (with_shards t s (delete pid (shards t))) ≡ₚ outstanding t.
Proof. intros Hp. unfold outstanding. simpl. by rewrite <- (map_to_list_delete (shards t) pid c). Qed.

(** A new child and the sharer that is left share what the sharer had. *)
Lemma next_child_ok s last idx rand s' c :
  length (curr s) = 32%nat -> (forall b, rand = Some b -> length b = 32%nat) ->
  next_child s last idx rand = Ok (s', c) ->
  root s' = root s /\ length (curr s') = 32%nat /\ child_ok (root s) c /\
  Xor (curr s') (Share (child_desc c)) = curr s.
Proof.
  intros Hc Hr. unfold next_child. destruct last.
  - intros [= <- <-]. simpl. split_and!; [done..|by apply Xor_zero_l].
  - unfold Split. case_bool_decide; [done|]. unfold split_share.
    destruct rand as [b|]; [|done]. rsimpl. intros [= <- <-]. simpl.
    specialize (Hr b eq_refl). split_and!; [done|by apply length_Xor|done..|].
    rewrite <- Xor_assoc, Xor_self by done. by rewrite Xor_comm, Xor_zero_l.
Qed.

Lemma shard_step_inv r op t :
  shard_op_ok op t -> tracker_inv r t -> tracker_inv r (shard_step op t).
Proof.
  intros Hok [Hr Hc Hch Hs]. pose proof (outstanding_shares r t Hch) as Hout.
  assert (Forall (fun s => length s = 32%nat) (Share ∘ child_desc <$> outstanding t)) as Hlen.
  { rewrite Forall_fmap. eapply Forall_impl; [exact Hout|]. by intros c [_ ?]. }
  destruct op as [pid last idx rand|pid]; simpl in Hok; simpl.
  - destruct Hok as (Hp & _ & Hrand). unfold NewShard. destruct idx as [idx|]; [|by split].
    destruct (next_child _ _ _ _) as [[s c]|e|] eqn:En; [|by split..].
    apply next_child_ok in En as (Er & El & Hco & Hsum); [|done..]. rewrite Hr in *. split; simpl.
    + done.
    + done.
    + by apply map_Forall_insert_2.
    + rewrite (xor_all_perm _ (Share ∘ child_desc <$> c :: outstanding t))
        by (by rewrite outstanding_insert).
      rewrite fmap_cons. simpl. by rewrite Xor_assoc, Hsum.
  - unfold CancelShard. destruct (shards t !! pid) as [c|] eqn:Ep; [|by split]. split; simpl.
    + done.
    + apply length_Xor; [done|]. by apply Hch in Ep as [_ ?].
    + by apply map_Forall_delete.
    + etrans; [|exact Hs]. rewrite <- (xor_all_perm (Share ∘ child_desc <$> c ::
        outstanding (with_shards t (Merge_child (sharer t) c) (delete pid (shards t)))) (_ <$> outstanding t)).
      * rewrite fmap_cons. simpl. by rewrite Xor_assoc.
      * by rewrite outstanding_delete.
Qed.

Lemma shard_run_inv r ops : forall t,
  shard_history ops t -> tracker_inv r t -> tracker_inv r (shard_run ops t).
Proof.
  induction ops as [|op ops IH]; intros t Hh Hi; [done|]. destruct Hh as [Ho Hh].
  apply IH; [done|]. by apply shard_step_inv.
Qed.

Lemma new_tracker_inv r set addr amt :
  length r = 32%nat -> tracker_inv r (NewShardTracker r set addr amt).
Proof.
  intros Hr. split; simpl; [done..|apply map_Forall_empty|].
  unfold outstanding. simpl. rewrite map_to_list_empty. simpl. by rewrite Xor_comm, Xor_zero_l.
Qed.

(** The children whose shares add up to the root are reconstructed from what their
    parts carry. *)
Lemma reconstruct_children r cs :
  Forall (child_ok r) cs -> length r = 32%nat -> xor_all (Share ∘ child_desc <$> cs) = r ->
  ReconstructChildren (child_desc <$> cs) = cs.
Proof.
  intros Hc Hr Hs. unfold ReconstructChildren. rewrite foldl_xor; [|done|].
  2:{ rewrite Forall_fmap. eapply Forall_impl; [exact Hc|]. by intros c [_ ?]. }
  assert (Share <$> (child_desc <$> cs) = Share ∘ child_desc <$> cs) as -> by apply map_map.
  rewrite Hs, Xor_zero_l by done.
  clear Hs. induction Hc as [|c cs [E _] _ IH]; [done|]. rewrite fmap_cons.
  cbn [map]. rewrite <- E. f_equal. exact IH.
Qed.
End Tracker.

(** Over any history of shards handed out and cancelled, once nothing is left to
    share (the last shard was handed out), the receiver of the outstanding parts, in
    whatever order they arrive, reconstructs from their shares and indexes exactly the
    children the sender derived, and each preimage is that of its part's hash. *)
Theorem amp_reconstructs `{Hasher} (r set addr : list byte) (amt : Z) (ops : list shard_op)
    (cs : list Child) :
  let t := shard_run ops (NewShardTracker r set addr amt) in
  length r = 32%nat -> shard_history ops (NewShardTracker r set addr amt) ->
  curr (sharer t) = zeroShare -> cs ≡ₚ outstanding t ->
  ReconstructChildren (child_desc <$> cs) = cs /\
  Forall (fun c => child_Hash c = digest (child_Preimage c)) cs.
Proof.
  intros t Hr Hh Hz Hp.
  assert (tracker_inv r t) as [_ _ Hch Hs] by (by apply shard_run_inv, new_tracker_inv).
  pose proof (outstanding_shares r t Hch) as Ho. rewrite <- Hp in Ho. split.
  - apply (reconstruct_children r); [done..|]. etrans; [|exact Hs].
    rewrite (xor_all_perm _ (Share ∘ child_desc <$> outstanding t)) by (by rewrite Hp).
    rewrite Hz, Xor_zero_l; [done|]. apply length_xor_all. rewrite Forall_fmap. rewrite <- Hp.
    eapply Forall_impl; [exact Ho|]. by intros c [_ ?].
  - eapply Forall_impl; [exact Ho|]. intros c [E _]. by rewrite E.
Qed.

(** A split, a cancelled part and the last part. *)
Definition ex_shard_ops : list shard_op :=
  [OpNewShard 1 false (Some (replicate 4 x00)) (Some (replicate 32 x05));
   OpNewShard 2 false (Some (replicate 4 x01)) (Some (replicate 32 x0a));
   OpCancelShard 1;
   OpNewShard 3 true (Some (replicate 4 x02)) None].

Definition ex_tracker : ShardTracker :=
  shard_run ex_shard_ops (NewShardTracker (replicate 32 x77) (replicate 32 x01) (replicate 32 x02) 50).

Lemma amp_reconstructs_witness :
  length (outstanding ex_tracker) = 2%nat /\
  ReconstructChildren (child_desc <$> outstanding ex_tracker) = outstanding ex_tracker.
Proof.
  split; [vm_compute; reflexivity|].
  apply (amp_reconstructs (replicate 32 x77) (replicate 32 x01) (replicate 32 x02) 50 ex_shard_ops).
  - reflexivity.
  - repeat split; try (vm_compute; reflexivity); by intros b [= <-].
  - vm_compute. reflexivity.
  - reflexivity.
Defined.
