(* ===== verification/Payments.v ===== *)
(** * Outgoing payments

    The payment database of [channeldb]: [payment_control.go] (initiating payments,
    registering and resolving attempts), [payments.go] (reading, querying and deleting
    payments), [payments_inflight.go] (the index of payments in flight),
    [duplicate_payments.go] (payments of old versions), [paginate.go] and
    [mp_payment.go].

    The buckets are those of the comment in [payments.go].  A key that is a fixed-width
    big-endian integer is that integer; the three kinds of keys of the bucket of
    attempts, [ai<id>], [fi<id>] and [si<id>], are three maps, visited in this order,
    which is the order of the keys.  Only sub-buckets are stored in the root bucket and
    in the bucket of duplicates.  A function that runs in a transaction returns the new
    database, or an error that discards its writes. *)

From S2P Require Import Prelude Ids Tlv PaymentCodec.

(** ** Data *)

Inductive PaymentStatus := StatusUnknown | StatusInFlight | StatusSucceeded | StatusFailed.

#[export] Instance PaymentStatus_eq_dec : EqDecision PaymentStatus.
Proof. solve_decision. Defined.

Definition FailureReasonTimeout : Z := 0.
Definition FailureReasonNoRoute : Z := 1.
Definition FailureReasonError : Z := 2.
Definition FailureReasonPaymentDetails : Z := 3.
Definition FailureReasonInsufficientBalance : Z := 4.

Definition ErrAlreadyPaid : error := Error "ErrAlreadyPaid".
Definition ErrPaymentInFlight : error := Error "ErrPaymentInFlight".
Definition ErrPaymentNotInitiated : error := Error "ErrPaymentNotInitiated".
Definition ErrPaymentAlreadySucceeded : error := Error "ErrPaymentAlreadySucceeded".
Definition ErrPaymentAlreadyFailed : error := Error "ErrPaymentAlreadyFailed".
Definition ErrPaymentTerminal : error := Error "ErrPaymentTerminal".
Definition ErrAttemptAlreadySettled : error := Error "ErrAttemptAlreadySettled".
Definition ErrAttemptAlreadyFailed : error := Error "ErrAttemptAlreadyFailed".
Definition ErrValueMismatch : error := Error "ErrValueMismatch".
Definition ErrValueExceedsAmt : error := Error "ErrValueExceedsAmt".
Definition ErrNonMPPayment : error := Error "ErrNonMPPayment".
Definition ErrMPPayment : error := Error "ErrMPPayment".
Definition ErrMPPPaymentAddrMismatch : error := Error "ErrMPPPaymentAddrMismatch".
Definition ErrMPPTotalAmountMismatch : error := Error "ErrMPPTotalAmountMismatch".
Definition errNoAttemptInfo : error := Error "errNoAttemptInfo".
Definition ErrNoSequenceNumber : error := Error "ErrNoSequenceNumber".
Definition ErrDuplicateNotFound : error := Error "ErrDuplicateNotFound".
Definition ErrNoDuplicateBucket : error := Error "ErrNoDuplicateBucket".
Definition errPaymentsInflightIndexNotExists : error :=
  Error "errPaymentsInflightIndexNotExists".
Definition errSequenceNotFound : error := Error "sequence number not found".
Definition errCreationInfo : error := Error "creation info not found".
Definition errHtlcsBucket : error := Error "htlcs bucket not found".
Definition errNotRegistered : error := Error "HTLC with ID not registered".
Definition errIndexType : error := Error "unknown payment index type".
Definition errHashLength : error := Error "invalid hash length".
Definition errNoRoot : error := Error "payments root bucket does not exist".
Definition errNoIndex : error := Error "index bucket does not exist".
Definition errNotIndexed : error := Error "seqnum does not exist in index db".
Definition errNoPaymentBucket : error := Error "non bucket element in payments bucket".
Definition errDeleteInFlight : error := Error "payment has status InFlight".
Definition errExpectedSequence : error := Error "expected sequence number".

(** [bucket.ForEach] with a callback that carries a state. *)
Fixpoint for_each {A B} (f : A -> B -> res B) (l : list A) (b : B) : res B :=
  match l with
  | [] => Ok b
  | a :: rest => b' ← f a b; for_each f rest b'
  end.

(** Buckets keyed by payment hash: the byte order of equally long keys is the order of
    the integers they encode. *)
Definition hash_le {V} (a b : list byte * V) : Prop := be_val a.1 <= be_val b.1.
#[export] Instance hash_le_dec {V} : RelDecision (@hash_le V).
Proof. intros a b. unfold hash_le. apply _. Defined.

Definition hash_entries {V} (m : gmap (list byte) V) : list (list byte * V) :=
  merge_sort hash_le (map_to_list m).

Record htlcs_bucket := {
  ai : gmap Z (list byte);
  fi : gmap Z (list byte);
  si : gmap Z (list byte);
}.

Definition empty_htlcs : htlcs_bucket := {| ai := ∅; fi := ∅; si := ∅ |}.

Record duplicate_bucket := {
  dup_sequence : option Z;
  dup_creation : option (list byte);
  dup_attempt : option (list byte);
  dup_settle : option (list byte);
  dup_fail : option (list byte);
}.

Record payment_bucket := {
  sequence_key : option Z;
  creation_info : option (list byte);
  fail_info : option (list byte);
  htlcs : option htlcs_bucket;
  duplicates : option (gmap Z duplicate_bucket);
}.

Definition empty_payment : payment_bucket :=
  {| sequence_key := None; creation_info := None; fail_info := None; htlcs := None;
     duplicates := None |}.

Record root_bucket := {
  root_sequence : Z;
  root_payments : gmap (list byte) payment_bucket;
}.

Record payments_db := {
  payments_root : option root_bucket;
  payments_index : option (gmap Z (list byte));
  inflight_index : option (gmap Z (list byte));
}.

Record PaymentControl := { currPaymentSeq : Z; storedPaymentSeq : Z }.

Definition NewPaymentControl : PaymentControl := {| currPaymentSeq := 0; storedPaymentSeq := 0 |}.

Section Payments.
Context `{Secp256k1, VarBytes, MapRange, FailureCodec}.

Record HTLCAttempt := {
  attempt_info : HTLCAttemptInfo;
  Settle : option HTLCSettleInfo;
  Failure : option HTLCFailInfo;
}.

Record MPPayment := {
  SequenceNum : Z;
  Info : PaymentCreationInfo;
  HTLCs : list HTLCAttempt;
  FailureReason : option Z;
  Status : PaymentStatus;
}.

(** The settle info of a settled attempt, or else the failure of the payment. *)
Definition TerminalInfo (m : MPPayment) : option HTLCSettleInfo * option Z :=
  match head (omap Settle (HTLCs m)) with
  | Some s => (Some s, None)
  | None => (None, FailureReason m)
  end.

Definition SentAmt (m : MPPayment) : Z * Z :=
  fold_left (fun acc h =>
    match Failure h with
    | Some _ => acc
    | None => (u64 (acc.1 + ReceiverAmt (attempt_Route (attempt_info h))),
               u64 (acc.2 + TotalFees (attempt_Route (attempt_info h))))
    end) (HTLCs m) (0, 0).

Definition in_flight (h : HTLCAttempt) : bool :=
  match Settle h, Failure h with None, None => true | _, _ => false end.

Definition InFlightHTLCs (m : MPPayment) : list HTLCAttempt :=
  filter (fun h => in_flight h = true) (HTLCs m).

Definition errAttemptNotFound : error := Error "htlc attempt not found on payment".

Definition GetAttempt (m : MPPayment) (id : Z) : res HTLCAttempt :=
  match list_find (fun h => AttemptID (attempt_info h) = id) (HTLCs m) with
  | Some (_, h) => Ok h
  | None => Err errAttemptNotFound
  end.

(** ** Reading a payment *)

(** The zero value of [HTLCAttempt]. *)
Definition empty_attempt : HTLCAttempt :=
  {| attempt_info :=
       {| AttemptID := 0; sessionKey := replicate 32 x00;
          attempt_Route := {| TotalTimeLock := 0; TotalAmount := 0;
                              SourcePubKey := replicate VertexSize x00; Hops := [] |};
          AttemptTime := ZeroTime; attempt_Hash := None |};
     Settle := None; Failure := None |}.

Definition with_id (a : HTLCAttemptInfo) (aid : Z) : HTLCAttemptInfo :=
  {| AttemptID := aid; sessionKey := sessionKey a; attempt_Route := attempt_Route a;
     AttemptTime := AttemptTime a; attempt_Hash := attempt_Hash a |}.

Definition put_info (aid : Z) (v : list byte) (h : HTLCAttempt) : res HTLCAttempt :=
  a ← deserializeHTLCAttemptInfo v;
  Ok {| attempt_info := with_id a aid; Settle := Settle h; Failure := Failure h |}.

Definition put_fail (aid : Z) (v : list byte) (h : HTLCAttempt) : res HTLCAttempt :=
  f ← deserializeHTLCFailInfo v;
  Ok {| attempt_info := attempt_info h; Settle := Settle h; Failure := Some f |}.

Definition put_settle (aid : Z) (v : list byte) (h : HTLCAttempt) : res HTLCAttempt :=
  s ← deserializeHTLCSettleInfo v;
  Ok {| attempt_info := attempt_info h; Settle := Some s; Failure := Failure h |}.

(** The callback of [ForEach], for one kind of key. *)
Definition update_attempt (put : Z -> list byte -> HTLCAttempt -> res HTLCAttempt)
    (kv : Z * list byte) (htlcsMap : gmap Z HTLCAttempt) : res (gmap Z HTLCAttempt) :=
  h ← put kv.1 kv.2 (default empty_attempt (htlcsMap !! kv.1));
  Ok (<[kv.1 := h]> htlcsMap).

Definition fetchHtlcAttempts (bucket : htlcs_bucket) : res (list HTLCAttempt) :=
  htlcsMap ← for_each (update_attempt put_info) (bucket_entries (ai bucket)) ∅;
  htlcsMap ← for_each (update_attempt put_fail) (bucket_entries (fi bucket)) htlcsMap;
  htlcsMap ← for_each (update_attempt put_settle) (bucket_entries (si bucket)) htlcsMap;
  let attemptInfoCount := length (bucket_entries (ai bucket)) in
  if negb (attemptInfoCount =? size htlcsMap)%nat then Err errNoAttemptInfo
  else Ok (bucket_entries htlcsMap).*2.

Definition fetchCreationInfo (bucket : payment_bucket) : res PaymentCreationInfo :=
  match creation_info bucket with
  | None => Err errCreationInfo
  | Some b => deserializePaymentCreationInfo b
  end.

Definition payment_status (hs : list HTLCAttempt) (failureReason : option Z) : PaymentStatus :=
  let '(inflight, settled) :=
    fold_left (fun acc h =>
      match Failure h, Settle h with
      | Some _, _ => acc
      | None, Some _ => (acc.1, true)
      | None, None => (true, acc.2)
      end) hs (false, false) in
  if negb inflight && settled then StatusSucceeded
  else if negb inflight && bool_decide (is_Some failureReason) then StatusFailed
  else StatusInFlight.

Definition fetch_htlcs (bucket : payment_bucket) : res (list HTLCAttempt) :=
  match htlcs bucket with None => Ok [] | Some hb => fetchHtlcAttempts hb end.

Definition fetchPayment (bucket : payment_bucket) : res MPPayment :=
  sequenceNum ← (match sequence_key bucket with
                 | None => Err errSequenceNotFound
                 | Some s => Ok s
                 end);
  creationInfo ← fetchCreationInfo bucket;
  hs ← fetch_htlcs bucket;
  failureReason ← (match fail_info bucket with
                   | None => Ok None
                   | Some b => r ← index b 0; Ok (Some (bval r))
                   end);
  Ok {| SequenceNum := sequenceNum; Info := creationInfo; HTLCs := hs;
        FailureReason := failureReason; Status := payment_status hs failureReason |}.

Definition fetchPaymentStatus (bucket : payment_bucket) : res PaymentStatus :=
  match creation_info bucket with
  | None => Ok StatusUnknown
  | Some _ => payment ← fetchPayment bucket; Ok (Status payment)
  end.

Definition ensureInFlight (payment : MPPayment) : res unit :=
  match Status payment with
  | StatusInFlight => Ok tt
  | StatusUnknown => Err ErrPaymentNotInitiated
  | StatusSucceeded => Err ErrPaymentAlreadySucceeded
  | StatusFailed => Err ErrPaymentAlreadyFailed
  end.

(** ** The buckets of a payment *)

Definition fetchPaymentBucket (tx : payments_db) (paymentHash : list byte) : res payment_bucket :=
  match payments_root tx with
  | None => Err ErrPaymentNotInitiated
  | Some root =>
      match root_payments root !! paymentHash with
      | None => Err ErrPaymentNotInitiated
      | Some bucket => Ok bucket
      end
  end.

Definition empty_root : root_bucket := {| root_sequence := 0; root_payments := ∅ |}.

(** Write access to the sub-bucket of a payment, creating the buckets above it. *)
Definition set_payment (tx : payments_db) (paymentHash : list byte) (bucket : payment_bucket)
    : payments_db :=
  let root := default empty_root (payments_root tx) in
  {| payments_root :=
       Some {| root_sequence := root_sequence root;
               root_payments := <[paymentHash := bucket]> (root_payments root) |};
     payments_index := payments_index tx;
     inflight_index := inflight_index tx |}.

Definition set_index (tx : payments_db) (m : gmap Z (list byte)) : payments_db :=
  {| payments_root := payments_root tx; payments_index := Some m;
     inflight_index := inflight_index tx |}.

Definition set_inflight (tx : payments_db) (m : gmap Z (list byte)) : payments_db :=
  {| payments_root := payments_root tx; payments_index := payments_index tx;
     inflight_index := Some m |}.

Definition createPaymentBucket (tx : payments_db) (paymentHash : list byte)
    : payments_db * payment_bucket :=
  let root := default empty_root (payments_root tx) in
  let bucket := default empty_payment (root_payments root !! paymentHash) in
  (set_payment tx paymentHash bucket, bucket).

(** ** The indexes *)

Definition paymentIndexTypeHash : Z := 0.

Definition index_value (id : list byte) : list byte :=
  be_bytes 1 paymentIndexTypeHash ++ WriteVarBytes id.

(** A missing index bucket is a nil interface. *)
Definition createPaymentIndexEntry (tx : payments_db) (sequenceNumber : Z) (id : list byte)
    : res payments_db :=
  match payments_index tx with
  | None => Panic
  | Some indexes => Ok (set_index tx (<[sequenceNumber := index_value id]> indexes))
  end.

Definition MakeHash (b : list byte) : res (list byte) :=
  if negb (length b =? 32)%nat then Err errHashLength else Ok b.

Definition deserializePaymentIndex (r : list byte) : res (list byte) :=
  '(indexType, r) ← read_be 1 r;
  '(paymentHash, _) ← ReadVarBytes maxElementBytes r;
  if negb (indexType =? paymentIndexTypeHash) then Err errIndexType
  else MakeHash paymentHash.

Definition paymentInflightIndexValueVersion : byte := x00.

Definition createPaymentInflightIndexEntry (tx : payments_db) (seqNum : Z) : payments_db :=
  match inflight_index tx with
  | None => tx
  | Some m => set_inflight tx (<[seqNum := [paymentInflightIndexValueVersion]]> m)
  end.

Definition deletePaymentInflightIndexEntry (tx : payments_db) (seqNum : Z) : payments_db :=
  match inflight_index tx with
  | None => tx
  | Some m => set_inflight tx (delete seqNum m)
  end.

Definition updatePaymentInflightIndexEntry (tx : payments_db) (payment : MPPayment)
    : payments_db :=
  if bool_decide (Status payment = StatusInFlight)
  then createPaymentInflightIndexEntry tx (SequenceNum payment)
  else deletePaymentInflightIndexEntry tx (SequenceNum payment).

(** ** The payment control *)

Definition paymentSeqBlockSize : Z := 1000.

(** The next sequence number; a new block is reserved in the database first. *)
Definition nextPaymentSequence (p : PaymentControl) (db : payments_db)
    : PaymentControl * payments_db * Z :=
  let '(p, db) :=
    if currPaymentSeq p =? storedPaymentSeq p then
      let root := default empty_root (payments_root db) in
      let currSeq := root_sequence root in
      let newUpperBound := u64 (currSeq + paymentSeqBlockSize) in
      ({| currPaymentSeq := if currPaymentSeq p =? 0 then currSeq else currPaymentSeq p;
          storedPaymentSeq := newUpperBound |},
       {| payments_root := Some {| root_sequence := newUpperBound;
                                   root_payments := root_payments root |};
          payments_index := payments_index db;
          inflight_index := inflight_index db |})
    else (p, db) in
  let seq := u64 (currPaymentSeq p + 1) in
  ({| currPaymentSeq := seq; storedPaymentSeq := storedPaymentSeq p |}, db, seq).

(** The transaction of [InitPayment].  An error the payment's status calls for is
    returned beside a transaction that commits. *)
Definition init_tx (tx : payments_db) (paymentHash : list byte) (info : PaymentCreationInfo)
    (sequenceNum : Z) : res (payments_db * option error) :=
  let '(tx, bucket) := createPaymentBucket tx paymentHash in
  paymentStatus ← fetchPaymentStatus bucket;
  match paymentStatus with
  | StatusInFlight => Ok (tx, Some ErrPaymentInFlight)
  | StatusSucceeded => Ok (tx, Some ErrAlreadyPaid)
  | StatusFailed | StatusUnknown =>
      tx ← (match sequence_key bucket with
            | None => Ok tx
            | Some seqBytes =>
                match payments_index tx with
                | None => Panic
                | Some indexes => Ok (set_index tx (delete seqBytes indexes))
                end
            end);
      tx ← createPaymentIndexEntry tx sequenceNum (PaymentIdentifier info);
      let bucket :=
        {| sequence_key := Some sequenceNum;
           creation_info := Some (serializePaymentCreationInfo info);
           fail_info := None;
           htlcs := None;
           duplicates := duplicates bucket |} in
      Ok (createPaymentInflightIndexEntry (set_payment tx paymentHash bucket) sequenceNum, None)
  end.

(** A transaction that fails leaves the database as it was. *)
Definition batch {A} (db : payments_db) (r : res (payments_db * A)) : payments_db * res A :=
  match r with
  | Ok (db', a) => (db', Ok a)
  | Err e => (db, Err e)
  | Panic => (db, Panic)
  end.

Definition InitPayment (p : PaymentControl) (db : payments_db) (paymentHash : list byte)
    (info : PaymentCreationInfo) : PaymentControl * payments_db * res unit :=
  let '(p, db, sequenceNum) := nextPaymentSequence p db in
  let '(db, r) := batch db (init_tx db paymentHash info sequenceNum) in
  (p, db, updateErr ← r; match updateErr with None => Ok tt | Some e => Err e end).

(** The comparison of a new shard with the ones in flight. *)
Fixpoint check_shards (mpp : option MPP) (hs : list HTLCAttempt) : res unit :=
  match hs with
  | [] => Ok tt
  | h :: rest =>
      match FinalHop (attempt_Route (attempt_info h)) with
      | None => Panic
      | Some hop =>
          match mpp, hop_MPP hop with
          | None, Some _ => Err ErrMPPayment
          | Some _, None => Err ErrNonMPPayment
          | None, None => check_shards mpp rest
          | Some m, Some hMpp =>
              if negb (bool_decide (paymentAddr m = paymentAddr hMpp))
              then Err ErrMPPPaymentAddrMismatch
              else if negb (totalMAtoms m =? totalMAtoms hMpp)
              then Err ErrMPPTotalAmountMismatch
              else check_shards mpp rest
          end
      end
  end.

Definition set_htlcs (bucket : payment_bucket) (hb : htlcs_bucket) : payment_bucket :=
  {| sequence_key := sequence_key bucket; creation_info := creation_info bucket;
     fail_info := fail_info bucket; htlcs := Some hb; duplicates := duplicates bucket |}.

Definition set_fail_info (bucket : payment_bucket) (v : list byte) : payment_bucket :=
  {| sequence_key := sequence_key bucket; creation_info := creation_info bucket;
     fail_info := Some v; htlcs := htlcs bucket; duplicates := duplicates bucket |}.

(** The end of every update: write the bucket, read the payment back, and move it in or
    out of the in-flight index. *)
Definition write_back (tx : payments_db) (paymentHash : list byte) (bucket : payment_bucket)
    : res (payments_db * MPPayment) :=
  payment ← fetchPayment bucket;
  Ok (updatePaymentInflightIndexEntry (set_payment tx paymentHash bucket) payment, payment).

Definition register_tx (tx : payments_db) (paymentHash : list byte) (attempt : HTLCAttemptInfo)
    (htlcInfoBytes : list byte) : res (payments_db * MPPayment) :=
  bucket ← fetchPaymentBucket tx paymentHash;
  p ← fetchPayment bucket;
  _ ← (match TerminalInfo p with
       | (None, None) => Ok tt
       | _ => Err ErrPaymentTerminal
       end);
  _ ← ensureInFlight p;
  mpp ← (match FinalHop (attempt_Route attempt) with
         | None => Panic
         | Some hop => Ok (hop_MPP hop)
         end);
  _ ← check_shards mpp (InFlightHTLCs p);
  let amt := ReceiverAmt (attempt_Route attempt) in
  _ ← (match mpp with
       | None => if negb (amt =? Value (Info p)) then Err ErrValueMismatch else Ok tt
       | Some _ => Ok tt
       end);
  let '(sentAmt, _) := SentAmt p in
  if Value (Info p) <? u64 (sentAmt + amt) then Err ErrValueExceedsAmt
  else
    let hb := default empty_htlcs (htlcs bucket) in
    write_back tx paymentHash
      (set_htlcs bucket {| ai := <[AttemptID attempt := htlcInfoBytes]> (ai hb);
                           fi := fi hb; si := si hb |}).

Definition RegisterAttempt (db : payments_db) (paymentHash : list byte)
    (attempt : HTLCAttemptInfo) : payments_db * res MPPayment :=
  match serializeHTLCAttemptInfo attempt with
  | Ok htlcInfoBytes => batch db (register_tx db paymentHash attempt htlcInfoBytes)
  | Err e => (db, Err e)
  | Panic => (db, Panic)
  end.

Inductive htlc_key := htlcSettleInfoKey | htlcFailInfoKey.

Definition put_htlc (hb : htlcs_bucket) (key : htlc_key) (aid : Z) (v : list byte)
    : htlcs_bucket :=
  match key with
  | htlcSettleInfoKey => {| ai := ai hb; fi := fi hb; si := <[aid := v]> (si hb) |}
  | htlcFailInfoKey => {| ai := ai hb; fi := <[aid := v]> (fi hb); si := si hb |}
  end.

Definition update_htlc_tx (tx : payments_db) (paymentHash : list byte) (attemptID : Z)
    (key : htlc_key) (v : list byte) : res (payments_db * MPPayment) :=
  bucket ← fetchPaymentBucket tx paymentHash;
  p ← fetchPayment bucket;
  _ ← ensureInFlight p;
  match htlcs bucket with
  | None => Err errHtlcsBucket
  | Some hb =>
      match ai hb !! attemptID, fi hb !! attemptID, si hb !! attemptID with
      | None, _, _ => Err errNotRegistered
      | Some _, Some _, _ => Err ErrAttemptAlreadyFailed
      | Some _, None, Some _ => Err ErrAttemptAlreadySettled
      | Some _, None, None =>
          write_back tx paymentHash (set_htlcs bucket (put_htlc hb key attemptID v))
      end
  end.

Definition updateHtlcKey (db : payments_db) (paymentHash : list byte) (attemptID : Z)
    (key : htlc_key) (v : list byte) : payments_db * res MPPayment :=
  batch db (update_htlc_tx db paymentHash attemptID key v).

Definition SettleAttempt (db : payments_db) (hash : list byte) (attemptID : Z)
    (settleInfo : HTLCSettleInfo) : payments_db * res MPPayment :=
  updateHtlcKey db hash attemptID htlcSettleInfoKey (serializeHTLCSettleInfo settleInfo).

Definition FailAttempt (db : payments_db) (hash : list byte) (attemptID : Z)
    (failInfo : HTLCFailInfo) : payments_db * res MPPayment :=
  match serializeHTLCFailInfo failInfo with
  | Ok failBytes => updateHtlcKey db hash attemptID htlcFailInfoKey failBytes
  | Err e => (db, Err e)
  | Panic => (db, Panic)
  end.

(** The transaction of [Fail]: a payment that was never initiated is reported beside a
    transaction without writes. *)
Definition fail_tx (tx : payments_db) (paymentHash : list byte) (reason : Z)
    : res (payments_db * (option MPPayment * option error)) :=
  match fetchPaymentBucket tx paymentHash with
  | Ok bucket =>
      paymentStatus ← fetchPaymentStatus bucket;
      if bool_decide (paymentStatus = StatusUnknown)
      then Ok (tx, (None, Some ErrPaymentNotInitiated))
      else
        '(tx, payment) ← write_back tx paymentHash (set_fail_info bucket [byte_of reason]);
        Ok (tx, (Some payment, None))
  | Err e =>
      if bool_decide (e = ErrPaymentNotInitiated)
      then Ok (tx, (None, Some ErrPaymentNotInitiated))
      else Err e
  | Panic => Panic
  end.

Definition Fail_ (db : payments_db) (paymentHash : list byte) (reason : Z)
    : payments_db * res (option MPPayment) :=
  let '(db, r) := batch db (fail_tx db paymentHash reason) in
  (db, '(payment, updateErr) ← r;
       match updateErr with None => Ok payment | Some e => Err e end).

Definition FetchPayment (db : payments_db) (paymentHash : list byte) : res MPPayment :=
  bucket ← fetchPaymentBucket db paymentHash; fetchPayment bucket.

(** ** Payments in flight *)

(** The body of [ForEach] over the in-flight index. *)
Definition fetch_indexed (root : root_bucket) (seqIndexes : gmap Z (list byte))
    (k : Z) (inFlights : list MPPayment) : res (list MPPayment) :=
  match seqIndexes !! k with
  | None => Err errNotIndexed
  | Some hash =>
      paymentHash ← deserializePaymentIndex hash;
      match root_payments root !! paymentHash with
      | None => Panic
      | Some bucket =>
          p ← fetchPayment bucket;
          if negb (bool_decide (Status p = StatusInFlight)) then Ok inFlights
          else Ok (inFlights ++ [p])
      end
  end.

Definition fetchInflightPaymentsByIndex (tx : payments_db) : res (list MPPayment) :=
  match inflight_index tx with
  | None => Err errPaymentsInflightIndexNotExists
  | Some indexBucket =>
      match payments_root tx with
      | None => Err errNoRoot
      | Some payments =>
          match payments_index tx with
          | None => Err errNoIndex
          | Some seqIndexes =>
              for_each (fetch_indexed payments seqIndexes) (bucket_entries indexBucket).*1 []
          end
      end
  end.

(** The body of [ForEach] over the root bucket. *)
Definition scan_inflight (kv : list byte * payment_bucket) (inFlights : list MPPayment)
    : res (list MPPayment) :=
  paymentStatus ← fetchPaymentStatus kv.2;
  if negb (bool_decide (paymentStatus = StatusInFlight)) then Ok inFlights
  else p ← fetchPayment kv.2; Ok (inFlights ++ [p]).

Definition FetchInFlightPayments (db : payments_db) : res (list MPPayment) :=
  match payments_root db with
  | None => Ok []
  | Some payments =>
      match fetchInflightPaymentsByIndex db with
      | Ok inFlights => Ok inFlights
      | Err e =>
          if negb (bool_decide (e = errPaymentsInflightIndexNotExists)) then Err e
          else for_each scan_inflight (hash_entries (root_payments payments)) []
      | Panic => Panic
      end
  end.

(** The body of [ForEach] when the index is built. *)
Definition index_payment (kv : list byte * payment_bucket) (tx : payments_db)
    : res payments_db :=
  p ← fetchPayment kv.2; Ok (updatePaymentInflightIndexEntry tx p).

Definition recreatePaymentsInflightIndex (tx : payments_db) : res payments_db :=
  let tx := match inflight_index tx with None => set_inflight tx ∅ | Some _ => tx end in
  match payments_root tx with
  | None => Ok tx
  | Some payments => for_each index_payment (hash_entries (root_payments payments)) tx
  end.

(** The part of [initDcrlndFeatures] that concerns payments. *)
Definition initDcrlndFeatures (db : payments_db) : payments_db * res unit :=
  match inflight_index db with
  | None => batch db (tx ← recreatePaymentsInflightIndex db; Ok (tx, tt))
  | Some _ => (db, Ok tt)
  end.

(** ** Payments of old versions *)

Definition fetchDuplicatePaymentStatus (bucket : duplicate_bucket) : PaymentStatus :=
  match dup_settle bucket, dup_fail bucket, dup_creation bucket with
  | Some _, _, _ => StatusSucceeded
  | None, Some _, _ => StatusFailed
  | None, None, Some _ => StatusInFlight
  | None, None, None => StatusUnknown
  end.

(** Like the current format, with the creation time in seconds. *)
Definition deserializeDuplicatePaymentCreationInfo (r : list byte) : res PaymentCreationInfo :=
  '(id, r) ← read_full 32 r;
  '(v, r) ← read_be 8 r;
  '(seconds, r) ← read_be 8 r;
  '(reqLen, r) ← read_be 4 r;
  '(payReq, _) ← (if 0 <? reqLen then read_full (Z.to_nat reqLen) r else Ok ([], r));
  Ok {| PaymentIdentifier := id; Value := v; CreationTime := UnixNano (i64 seconds * 10 ^ 9);
        PaymentRequest := payReq |}.

Definition deserializeDuplicateHTLCAttemptInfo (r : list byte) : res HTLCAttemptInfo :=
  '(attemptID, r) ← read_be 8 r;
  '(key, r) ← read_full 32 r;
  '(route, _) ← DeserializeRoute r;
  Ok {| AttemptID := attemptID; sessionKey := key; attempt_Route := route;
        AttemptTime := ZeroTime; attempt_Hash := None |}.

Definition fetchDuplicatePayment (bucket : duplicate_bucket) : res MPPayment :=
  sequenceNum ← (match dup_sequence bucket with
                 | None => Err errSequenceNotFound
                 | Some s => Ok s
                 end);
  creationInfo ← (match dup_creation bucket with
                  | None => Err errCreationInfo
                  | Some b => deserializeDuplicatePaymentCreationInfo b
                  end);
  failureReason ← (match dup_fail bucket with
                   | None => Ok None
                   | Some b => r ← index b 0; Ok (Some (bval r))
                   end);
  hs ← (match dup_attempt bucket with
        | None => Ok []
        | Some b =>
            attempt ← deserializeDuplicateHTLCAttemptInfo b;
            Ok [match dup_settle bucket with
                | Some s =>
                    {| attempt_info := attempt;
                       Settle := Some {| Preimage := copy_array 32 s; SettleTime := ZeroTime |};
                       Failure := None |}
                | None =>
                    {| attempt_info := attempt; Settle := None;
                       Failure := Some {| FailTime := ZeroTime; Message := None;
                                          Reason := 0; FailureSourceIndex := 0 |} |}
                end]
        end);
  Ok {| SequenceNum := sequenceNum; Info := creationInfo; HTLCs := hs;
        FailureReason := failureReason; Status := fetchDuplicatePaymentStatus bucket |}.

Definition fetchDuplicatePayments (bucket : payment_bucket) : res (list MPPayment) :=
  match duplicates bucket with
  | None => Ok []
  | Some dup =>
      for_each (fun kv payments => p ← fetchDuplicatePayment kv.2; Ok (payments ++ [p]))
        (bucket_entries dup) []
  end.

(** The search among the duplicates.  A sub-bucket without a sequence number returns the
    nil error of the enclosing function and is passed over. *)
Definition find_duplicate (sequenceNumber : Z) (kv : Z * duplicate_bucket)
    (found : option MPPayment) : res (option MPPayment) :=
  match dup_sequence kv.2 with
  | None => Ok found
  | Some seqBytes =>
      if negb (seqBytes =? sequenceNumber) then Ok found
      else p ← fetchDuplicatePayment kv.2; Ok (Some p)
  end.

Definition fetchPaymentWithSequenceNumber (tx : payments_db) (paymentHash : list byte)
    (sequenceNumber : Z) : res MPPayment :=
  bucket ← fetchPaymentBucket tx paymentHash;
  match sequence_key bucket with
  | None => Err ErrNoSequenceNumber
  | Some seqBytes =>
      if seqBytes =? sequenceNumber then fetchPayment bucket
      else
        match duplicates bucket with
        | None => Err ErrNoDuplicateBucket
        | Some dup =>
            duplicatePayment ← for_each (find_duplicate sequenceNumber) (bucket_entries dup) None;
            match duplicatePayment with
            | None => Err ErrDuplicateNotFound
            | Some p => Ok p
            end
        end
  end.

(** ** Listing *)

(** [sort.Slice] by sequence number. *)
Definition seq_le (a b : MPPayment) : Prop := SequenceNum a <= SequenceNum b.
#[export] Instance seq_le_dec : RelDecision seq_le.
Proof. intros a b. unfold seq_le. apply _. Defined.

Definition fetch_all (kv : list byte * payment_bucket) (payments : list MPPayment)
    : res (list MPPayment) :=
  p ← fetchPayment kv.2;
  duplicatePayments ← fetchDuplicatePayments kv.2;
  Ok (payments ++ p :: duplicatePayments).

Definition FetchPayments (db : payments_db) : res (list MPPayment) :=
  match payments_root db with
  | None => Ok []
  | Some root =>
      payments ← for_each fetch_all (hash_entries (root_payments root)) [];
      Ok (merge_sort seq_le payments)
  end.

(** ** Pages of an index ([paginate.go]) *)

(** A cursor is a position in the sorted entries of a bucket; [None] is a nil key. *)
Section Paginator.
Context {V A : Type} (entries : list (Z * V)).

Record paginator := { reversed : bool; indexOffset : Z; totalItems : Z }.

(** [cursor.Seek]: the first key that is not smaller. *)
Definition Seek (k : Z) : option nat :=
  fst <$> list_find (fun kv => k <= kv.1) entries.

Definition Last : option nat :=
  match entries with [] => None | _ => Some (length entries - 1)%nat end.

Definition Next (pos : nat) : option nat :=
  if (S pos <? length entries)%nat then Some (S pos) else None.

Definition Prev (pos : nat) : option nat :=
  match pos with O => None | S p => Some p end.

Definition lastIndex : Z :=
  match last entries with None => 0 | Some (k, _) => k end.

Definition nextKey (p : paginator) (pos : nat) : option nat :=
  if reversed p then Prev pos else Next pos.

Definition cursorStart (p : paginator) : option nat :=
  if reversed p then
    if indexOffset p =? 0 then Last
    else if indexOffset p =? 1 then None
    else if lastIndex <? indexOffset p then Last
    else pos ← Seek (indexOffset p); Prev pos
  else Seek (u64 (indexOffset p + 1)).

(** The loop, over a callback that says whether it added the entry. *)
Fixpoint query_loop (p : paginator) (fetchAndAppend : Z -> V -> A -> res (A * bool))
    (fuel : nat) (pos : option nat) (count : Z) (a : A) : res A :=
  match fuel, pos with
  | S fuel', Some i =>
      match entries !! i with
      | None => Ok a
      | Some (k, v) =>
          if totalItems p <=? count then Ok a
          else
            '(a, added) ← fetchAndAppend k v a;
            query_loop p fetchAndAppend fuel' (nextKey p i)
              (if added : bool then count + 1 else count) a
      end
  | _, _ => Ok a
  end.

(** Each step moves the cursor in one direction, so the number of entries bounds it. *)
Definition query (p : paginator) (fetchAndAppend : Z -> V -> A -> res (A * bool)) (a : A)
    : res A :=
  query_loop p fetchAndAppend (S (length entries)) (cursorStart p) 0 a.
End Paginator.

Record PaymentsQuery := {
  IndexOffset : Z;
  MaxPayments : Z;
  Reversed : bool;
  IncludeIncomplete : bool;
}.

Record PaymentsResponse := {
  resp_Payments : list MPPayment;
  FirstIndexOffset : Z;
  LastIndexOffset : Z;
}.

Definition accumulatePayments (tx : payments_db) (includeIncomplete : bool)
    (sequenceKey : Z) (hash : list byte) (payments : list MPPayment)
    : res (list MPPayment * bool) :=
  paymentHash ← deserializePaymentIndex hash;
  payment ← fetchPaymentWithSequenceNumber tx paymentHash sequenceKey;
  if negb (bool_decide (Status payment = StatusSucceeded)) && negb includeIncomplete
  then Ok (payments, false)
  else Ok (payments ++ [payment], true).

Definition response (payments : list MPPayment) : PaymentsResponse :=
  {| resp_Payments := payments;
     FirstIndexOffset := match head payments with Some p => SequenceNum p | None => 0 end;
     LastIndexOffset := match last payments with Some p => SequenceNum p | None => 0 end |}.

Definition QueryPayments (db : payments_db) (q : PaymentsQuery) : res PaymentsResponse :=
  payments ← (match payments_root db with
              | None => Ok []
              | Some _ =>
                  match payments_index db with
                  | None => Err errNoIndex
                  | Some indexes =>
                      query (bucket_entries indexes)
                        {| reversed := Reversed q; indexOffset := IndexOffset q;
                           totalItems := MaxPayments q |}
                        (accumulatePayments db (IncludeIncomplete q)) []
                  end
              end);
  Ok (response (if Reversed q then reverse payments else payments)).

(** ** Deleting *)

Definition failed_ids (hs : list HTLCAttempt) : list Z :=
  (fun h => AttemptID (attempt_info h)) <$> filter (fun h => is_Some (Failure h)) hs.

Definition fetchFailedHtlcKeys (bucket : payment_bucket) : res (list Z) :=
  hs ← fetch_htlcs bucket; Ok (failed_ids hs).

Definition fetchSequenceNumbers (bucket : payment_bucket) : res (list Z) :=
  match sequence_key bucket with
  | None => Err errExpectedSequence
  | Some seqNum =>
      match duplicates bucket with
      | None => Ok [seqNum]
      | Some dups => Ok (seqNum :: (bucket_entries dups).*1)
      end
  end.

Definition delete_htlc (hb : htlcs_bucket) (htlcID : Z) : htlcs_bucket :=
  {| ai := delete htlcID (ai hb); fi := delete htlcID (fi hb); si := delete htlcID (si hb) |}.

(** Deleting from a bucket that is missing panics, if there is anything to delete. *)
Definition delete_htlcs (bucket : payment_bucket) (ids : list Z) : res payment_bucket :=
  match ids, htlcs bucket with
  | [], _ => Ok bucket
  | _, None => Panic
  | _, Some hb => Ok (set_htlcs bucket (fold_left delete_htlc ids hb))
  end.

Definition delete_payment_bucket (tx : payments_db) (hash : list byte) : payments_db :=
  {| payments_root :=
       (fun root => {| root_sequence := root_sequence root;
                       root_payments := delete hash (root_payments root) |})
         <$> payments_root tx;
     payments_index := payments_index tx;
     inflight_index := inflight_index tx |}.

Definition delete_index (tx : payments_db) (k : Z) : res payments_db :=
  match payments_index tx with
  | None => Panic
  | Some indexes => Ok (set_index tx (delete k indexes))
  end.

Definition delete_payment_tx (tx : payments_db) (paymentHash : list byte)
    (failedHtlcsOnly : bool) : res (payments_db * unit) :=
  match payments_root tx with
  | None => Ok (tx, tt)
  | Some root =>
      match root_payments root !! paymentHash with
      | None => Err errNoPaymentBucket
      | Some bucket =>
          paymentStatus ← fetchPaymentStatus bucket;
          if bool_decide (paymentStatus = StatusInFlight) then Err errDeleteInFlight
          else if failedHtlcsOnly then
            toDelete ← fetchFailedHtlcKeys bucket;
            bucket ← delete_htlcs bucket toDelete;
            Ok (set_payment tx paymentHash bucket, tt)
          else
            seqNrs ← fetchSequenceNumbers bucket;
            tx ← for_each (fun k tx => delete_index tx k) seqNrs
                   (delete_payment_bucket tx paymentHash);
            Ok (tx, tt)
      end
  end.

Definition DeletePayment (db : payments_db) (paymentHash : list byte) (failedHtlcsOnly : bool)
    : payments_db * res unit :=
  batch db (delete_payment_tx db paymentHash failedHtlcsOnly).

(** What [DeletePayments] collects before it writes. *)
Record deletions := {
  deleteBuckets : list (list byte);
  deleteIndexes : list Z;
  deleteHtlcs : list (list byte * list Z);
}.

Definition collect_deletions (failedOnly failedHtlcsOnly : bool)
    (kv : list byte * payment_bucket) (d : deletions) : res deletions :=
  let '(k, bucket) := kv in
  paymentStatus ← fetchPaymentStatus bucket;
  if bool_decide (paymentStatus = StatusInFlight) then Ok d
  else if failedOnly && negb (bool_decide (paymentStatus = StatusFailed)) then Ok d
  else if failedHtlcsOnly then
    toDelete ← fetchFailedHtlcKeys bucket;
    hash ← MakeHash k;
    Ok {| deleteBuckets := deleteBuckets d; deleteIndexes := deleteIndexes d;
          deleteHtlcs := deleteHtlcs d ++ [(hash, toDelete)] |}
  else
    seqNrs ← fetchSequenceNumbers bucket;
    Ok {| deleteBuckets := deleteBuckets d ++ [k]; deleteIndexes := deleteIndexes d ++ seqNrs;
          deleteHtlcs := deleteHtlcs d |}.

Definition delete_payment_htlcs (kv : list byte * list Z) (tx : payments_db)
    : res payments_db :=
  match fetchPaymentBucket tx kv.1 with
  | Ok bucket => bucket ← delete_htlcs bucket kv.2; Ok (set_payment tx kv.1 bucket)
  | _ => Panic
  end.

(** The second round over the indexes, under the test for the in-flight index, deletes
    from the sequence index again. *)
Definition delete_payments_tx (tx : payments_db) (failedOnly failedHtlcsOnly : bool)
    : res (payments_db * unit) :=
  match payments_root tx with
  | None => Ok (tx, tt)
  | Some root =>
      d ← for_each (collect_deletions failedOnly failedHtlcsOnly)
            (hash_entries (root_payments root))
            {| deleteBuckets := []; deleteIndexes := []; deleteHtlcs := [] |};
      tx ← for_each delete_payment_htlcs (deleteHtlcs d) tx;
      let tx := fold_left delete_payment_bucket (deleteBuckets d) tx in
      tx ← for_each (fun k tx => delete_index tx k) (deleteIndexes d) tx;
      tx ← (match inflight_index tx with
            | None => Ok tx
            | Some _ => for_each (fun k tx => delete_index tx k) (deleteIndexes d) tx
            end);
      Ok (tx, tt)
  end.

Definition DeletePayments (db : payments_db) (failedOnly failedHtlcsOnly : bool)
    : payments_db * res unit :=
  batch db (delete_payments_tx db failedOnly failedHtlcsOnly).
End Payments.
