(* ===== verification/InvoiceCodec.v ===== *)
(** * Invoices and their form on disk

    The data of [channeldb/invoices.go] and its TLV serialization: invoices, the HTLCs
    that pay them, and the state of the sub-invoices of an AMP invoice.

    Three things are left open: the order in which Go visits a map ([GoRange]), the local
    time zone, whose offset a binary time carries ([TimeZone]), and the size package
    [wire] computes for a variable-length integer ([WireVarInt]).  A record that is decoded by a function of its own keeps the bytes the
    function consumed; its value is what the function makes of them.  A [bytes.Buffer]
    panics rather than grow beyond the largest [int]. *)

From S2P Require Import Prelude Ids Tlv Features PaymentCodec Amp.

(** ** What is left open *)

Class GoRange := {
  range : forall {K} `{Countable K} {V}, gmap K V -> list (K * V);
  range_entries : forall {K} `{Countable K} {V} (m : gmap K V), range m ≡ₚ map_to_list m;
}.

Definition range_set `{GoRange} {K} `{Countable K} (s : gset K) : list K :=
  (range (gset_to_gmap tt s)).*1.

(** The offset from UTC in minutes of a local time, or -1 for UTC. *)
Class TimeZone := {
  offsetMin : Time -> Z;
  offsetMin_range : forall t, - 2 ^ 15 <= offsetMin t < 2 ^ 15;
}.

(** The size package [wire] computes for a variable-length integer. *)
Class WireVarInt := {
  VarIntSerializeSize : Z -> Z;
  VarIntSerializeSize_length : forall v,
    is_u64 v -> VarIntSerializeSize v = Z.of_nat (length (WriteVarInt v));
}.

(** ** States *)

Definition ContractOpen : Z := 0.
Definition ContractSettled : Z := 1.
Definition ContractCanceled : Z := 2.
Definition ContractAccepted : Z := 3.

Definition IsFinal (c : Z) : bool := (c =? ContractSettled) || (c =? ContractCanceled).

Definition HtlcStateAccepted : Z := 0.
Definition HtlcStateCanceled : Z := 1.
Definition HtlcStateSettled : Z := 2.

(** ** Invoices *)

Record ContractTerm := {
  FinalCltvDelta : Z;
  term_Expiry : Z;
  PaymentPreimage : option (list byte);
  term_Value : Z;
  PaymentAddr : list byte;
  term_Features : option RawFeatureVector;
}.

Record InvoiceHtlcAMPData := {
  amp_Record : AMP;
  amp_Hash : list byte;
  amp_Preimage : option (list byte);
}.

Record InvoiceHTLC := {
  htlc_Amt : Z;
  MppTotalAmt : Z;
  AcceptHeight : Z;
  AcceptTime : Time;
  ResolveTime : Time;
  htlc_Expiry : Z;
  htlc_State : Z;
  htlc_CustomRecords : gmap Z (list byte);
  htlc_AMP : option InvoiceHtlcAMPData;
}.

Record InvoiceStateAMP := {
  amp_State : Z;
  amp_SettleIndex : Z;
  amp_SettleDate : Time;
  InvoiceKeys : gset CircuitKey;
  amp_AmtPaid : Z;
}.

Notation AMPInvoiceState := (gmap (list byte) InvoiceStateAMP).

Record Invoice := {
  Memo : list byte;
  inv_PaymentRequest : list byte;
  CreationDate : Time;
  SettleDate : Time;
  Terms : ContractTerm;
  AddIndex : Z;
  SettleIndex : Z;
  inv_State : Z;
  inv_AmtPaid : Z;
  Htlcs : gmap CircuitKey InvoiceHTLC;
  AMPState : AMPInvoiceState;
  HodlInvoice : bool;
}.

#[export] Instance ContractTerm_eq_dec : EqDecision ContractTerm.
Proof. solve_decision. Defined.
#[export] Instance InvoiceHtlcAMPData_eq_dec : EqDecision InvoiceHtlcAMPData.
Proof. solve_decision. Defined.
#[export] Instance InvoiceHTLC_eq_dec : EqDecision InvoiceHTLC.
Proof. solve_decision. Defined.
#[export] Instance InvoiceStateAMP_eq_dec : EqDecision InvoiceStateAMP.
Proof. solve_decision. Defined.
#[export] Instance Invoice_eq_dec : EqDecision Invoice.
Proof. solve_decision. Defined.

(** The vector of an invoice that passed [validateInvoice] is not nil. *)
Definition features_of (i : Invoice) : RawFeatureVector := default ∅ (term_Features (Terms i)).

(** ** Types of the records *)

Definition chanIDType : Z := 1.
Definition htlcIDType : Z := 3.
Definition amtType : Z := 5.
Definition acceptHeightType : Z := 7.
Definition acceptTimeType : Z := 9.
Definition resolveTimeType : Z := 11.
Definition expiryHeightType : Z := 13.
Definition htlcStateType : Z := 15.
Definition mppTotalAmtType : Z := 17.
Definition htlcAMPType : Z := 19.
Definition htlcHashType : Z := 21.
Definition htlcPreimageType : Z := 23.

Definition memoType : Z := 0.
Definition payReqType : Z := 1.
Definition createTimeType : Z := 2.
Definition settleTimeType : Z := 3.
Definition addIndexType : Z := 4.
Definition settleIndexType : Z := 5.
Definition preimageType : Z := 6.
Definition valueType : Z := 7.
Definition cltvDeltaType : Z := 8.
Definition expiryType : Z := 9.
Definition paymentAddrType : Z := 10.
Definition featuresType : Z := 11.
Definition invStateType : Z := 12.
Definition amtPaidType : Z := 13.
Definition hodlInvoiceType : Z := 14.
Definition invoiceAmpStateType : Z := 15.

Definition ampStateSetIDType : Z := 0.
Definition ampStateHtlcStateType : Z := 1.
Definition ampStateSettleIndexType : Z := 2.
Definition ampStateSettleDateType : Z := 3.
Definition ampStateCircuitKeysType : Z := 4.
Definition ampStateAmtPaidType : Z := 5.

(** ** Times *)

(** Seconds from the year 1 to the epoch. *)
Definition unixToInternal : Z := 62135596800.

Definition MarshalBinary `{TimeZone} (t : Time) : list byte :=
  let '(sec, nsec) := match t with
    | ZeroTime => (0, 0)
    | UnixNano ns => (ns / 10 ^ 9 + unixToInternal, ns mod 10 ^ 9)
    end in
  x01 :: be_bytes 8 (u64 sec) ++ be_bytes 4 nsec ++ be_bytes 2 (u16 (offsetMin t)).

Definition errTimeBinary : error := Error "Time.UnmarshalBinary".

Definition UnmarshalBinary (data : list byte) : res Time :=
  match data with
  | [] => Err errTimeBinary
  | version :: rest =>
      if bool_decide (version = x01) && (length rest =? 14)%nat ||
         bool_decide (version = x02) && (length rest =? 15)%nat then
        let sec := i64 (be_val (take 8 rest)) in
        let nsec := i32 (be_val (take 4 (drop 8 rest))) in
        Ok (if (sec =? 0) && (nsec =? 0) then ZeroTime
            else UnixNano ((sec - unixToInternal) * 10 ^ 9 + nsec))
      else Err errTimeBinary
  end.

Definition putNanoTime (t : Time) : Z :=
  match t with ZeroTime => 0 | UnixNano ns => u64 ns end.

Definition getNanoTime (ns : Z) : Time := if ns =? 0 then ZeroTime else UnixNano (i64 ns).

(** ** Records of a stream *)

Section Fields.
Context `{Secp256k1}.

Definition primitives (l : list (Z * tlv_val)) : res (list tlv_record) :=
  mapM (fun tv => MakePrimitiveRecord tv.1 tv.2) l.

(** What a variable holds after decoding: the value of the record made for it. *)
Definition field (recs : list tlv_record) (t : Z) : tlv_val :=
  match list_find (fun rec => typ rec = t) recs with
  | Some (_, rec) => value rec
  | None => PNil
  end.

Definition int_field (recs : list tlv_record) (t : Z) : Z :=
  match field recs t with PUint8 v | PUint16 v | PUint32 v | PUint64 v => v | _ => 0 end.

Definition bytes_field (recs : list tlv_record) (t : Z) : list byte :=
  match field recs t with PBytes32 b | PVarBytes b => b | _ => [] end.

(** A record whose decoder is [d]: the variable holds what [d] read. *)
Definition dynamic_decoder {A} (d : Z -> list byte -> res (A * list byte)) : Decoder :=
  fun _ l r => '(_, r') ← d l r; Ok (PVarBytes (take (length r - length r') r), r').

Definition dynamic_target {A} (t : Z) (d : Z -> list byte -> res (A * list byte)) : tlv_record :=
  MakeDynamicRecord t (PVarBytes []) (fun _ => 0) None (Some (dynamic_decoder d)).

Definition dynamic_field {A} (recs : list tlv_record) (t : Z)
    (d : Z -> list byte -> res (A * list byte)) : option A :=
  let b := bytes_field recs t in
  match d (Z.of_nat (length b)) b with Ok (a, _) => Some a | _ => None end.

(** A record encoded from a value the record's functions have captured. *)
Definition dynamic_source (t : Z) (b : list byte) (size : Z) : tlv_record :=
  MakeDynamicRecord t PNil (fun _ => size) (Some (fun _ => Ok b)) None.

(** A stream written behind its length as a 64-bit integer. *)
Definition length_prefixed (b : list byte) : res (list byte) :=
  let n := Z.of_nat (length b) in if 2 ^ 63 <=? n then Panic else Ok (be_bytes 8 (u64 n) ++ b).

(** [io.LimitReader]: the bytes of the limited reader, and those behind it. *)
Definition limit_reader (r : list byte) (n : Z) : list byte * list byte :=
  (take (Z.to_nat n) r, drop (Z.to_nat n) r).

(** ** HTLCs *)

Context `{GoRange}.

Definition htlc_records (key : CircuitKey) (htlc : InvoiceHTLC) : res (list tlv_record) :=
  records ← primitives
    [(chanIDType, PUint64 (ToUint64 (ChanID key))); (htlcIDType, PUint64 (HtlcID key));
     (amtType, PUint64 (htlc_Amt htlc)); (acceptHeightType, PUint32 (AcceptHeight htlc));
     (acceptTimeType, PUint64 (putNanoTime (AcceptTime htlc)));
     (resolveTimeType, PUint64 (putNanoTime (ResolveTime htlc)));
     (expiryHeightType, PUint32 (htlc_Expiry htlc)); (htlcStateType, PUint8 (htlc_State htlc));
     (mppTotalAmtType, PUint64 (MppTotalAmt htlc))];
  amp ← (match htlc_AMP htlc with
         | None => Ok []
         | Some a =>
             let setIDRecord := dynamic_source htlcAMPType (AMPEncoder (amp_Record a))
                                  (AMP_PayloadSize (amp_Record a)) in
             rest ← primitives ((htlcHashType, PBytes32 (amp_Hash a)) ::
               match amp_Preimage a with
               | Some p => [(htlcPreimageType, PBytes32 p)]
               | None => []
               end);
             Ok (setIDRecord :: rest)
         end);
  Ok (records ++ amp ++ MapToRecords (htlc_CustomRecords htlc)).

Definition serializeHtlc (key : CircuitKey) (htlc : InvoiceHTLC) : res (list byte) :=
  records ← htlc_records key htlc;
  tlvStream ← NewStream records;
  b ← StreamEncode tlvStream;
  length_prefixed b.

Fixpoint serialize_htlcs (l : list (CircuitKey * InvoiceHTLC)) : res (list byte) :=
  match l with
  | [] => Ok []
  | (key, htlc) :: rest =>
      b ← serializeHtlc key htlc; bs ← serialize_htlcs rest; Ok (b ++ bs)
  end.

Definition serializeHtlcs (htlcs : gmap CircuitKey InvoiceHTLC) : res (list byte) :=
  serialize_htlcs (range htlcs).

Definition zero32 : list byte := replicate 32 x00.

Definition htlc_targets : res (list tlv_record) :=
  records ← primitives
    [(chanIDType, PUint64 0); (htlcIDType, PUint64 0); (amtType, PUint64 0);
     (acceptHeightType, PUint32 0); (acceptTimeType, PUint64 0); (resolveTimeType, PUint64 0);
     (expiryHeightType, PUint32 0); (htlcStateType, PUint8 0); (mppTotalAmtType, PUint64 0)];
  rest ← primitives [(htlcHashType, PBytes32 zero32); (htlcPreimageType, PBytes32 zero32)];
  Ok (records ++ dynamic_target htlcAMPType AMPDecoder :: rest).

Definition NewCustomRecords (parsedTypes : TypeMap) : gmap Z (list byte) :=
  omap id (base.filter (fun kv : Z * option (list byte) => CustomTypeStart <= kv.1) parsedTypes).

Definition htlc_of_fields (recs : list tlv_record) (parsedTypes : TypeMap)
    : CircuitKey * InvoiceHTLC :=
  let amp := if bool_decide (is_Some (parsedTypes !! htlcAMPType))
             then dynamic_field recs htlcAMPType AMPDecoder else None in
  let parsed_bytes t := if bool_decide (is_Some (parsedTypes !! t))
                        then Some (bytes_field recs t) else None in
  ({| ChanID := NewShortChanIDFromInt (int_field recs chanIDType);
      HtlcID := int_field recs htlcIDType |},
   {| htlc_Amt := int_field recs amtType;
      MppTotalAmt := int_field recs mppTotalAmtType;
      AcceptHeight := int_field recs acceptHeightType;
      AcceptTime := getNanoTime (int_field recs acceptTimeType);
      ResolveTime := getNanoTime (int_field recs resolveTimeType);
      htlc_Expiry := int_field recs expiryHeightType;
      htlc_State := int_field recs htlcStateType;
      htlc_CustomRecords := NewCustomRecords parsedTypes;
      htlc_AMP := match amp, parsed_bytes htlcHashType with
                  | Some a, Some h => Some {| amp_Record := a; amp_Hash := h;
                                              amp_Preimage := parsed_bytes htlcPreimageType |}
                  | _, _ => None
                  end |}).

(** Every run of the loop reads a length of eight bytes, so [fuel] above the length of
    the input is never exhausted. *)
Fixpoint deserialize_htlcs (fuel : nat) (r : list byte) (htlcs : gmap CircuitKey InvoiceHTLC)
    : res (gmap CircuitKey InvoiceHTLC) :=
  match fuel with
  | O => Panic
  | S fuel' =>
      match read_be 8 r with
      | Err EOF => Ok htlcs
      | Err e => Err e
      | Panic => Panic
      | Ok (streamLen, r) =>
          let '(htlcReader, r) := limit_reader r (i64 streamLen) in
          targets ← htlc_targets;
          tlvStream ← NewStream targets;
          '(recs, parsedTypes) ← DecodeWithParsedTypes tlvStream htlcReader;
          let '(key, htlc) := htlc_of_fields recs (default ∅ parsedTypes) in
          deserialize_htlcs fuel' r (<[key := htlc]> htlcs)
      end
  end.

Definition deserializeHtlcs (r : list byte) : res (gmap CircuitKey InvoiceHTLC) :=
  deserialize_htlcs (S (length r)) r ∅.

(** ** The state of AMP sub-invoices *)

Context `{TimeZone} `{WireVarInt}.

Definition encodeCircuitKeys (v : gset CircuitKey) : list byte :=
  WriteVarInt (u64 (Z.of_nat (size v))) ++
  concat ((fun key => EUint64T (ToUint64 (ChanID key)) ++ EUint64T (HtlcID key)) <$> range_set v).

Fixpoint decode_keys (n : nat) (r : list byte) (v : gset CircuitKey)
    : res (gset CircuitKey * list byte) :=
  match n with
  | O => Ok (v, r)
  | S n' =>
      '(scid, r) ← read_be 8 r;
      '(htlcID, r) ← read_be 8 r;
      decode_keys n' r ({[ {| ChanID := NewShortChanIDFromInt scid; HtlcID := htlcID |} ]} ∪ v)
  end.

Definition decodeCircuitKeys (_ : Z) (r : list byte) : res (gset CircuitKey * list byte) :=
  '(numKeys, r) ← ReadVarInt r;
  decode_keys (Z.to_nat numKeys) r ∅.

Definition VarIntSize (val : Z) : Z := u64 (VarIntSerializeSize val).

Definition keys_size (v : gset CircuitKey) : Z :=
  let numKeys := u64 (Z.of_nat (size v)) in u64 (VarIntSize numKeys + u64 (numKeys * 16)).

Definition amp_records (setID : list byte) (s : InvoiceStateAMP) : res (list tlv_record) :=
  head ← primitives
    [(ampStateSetIDType, PBytes32 setID); (ampStateHtlcStateType, PUint8 (amp_State s));
     (ampStateSettleIndexType, PUint64 (amp_SettleIndex s));
     (ampStateSettleDateType, PVarBytes (MarshalBinary (amp_SettleDate s)))];
  tail ← primitives [(ampStateAmtPaidType, PUint64 (amp_AmtPaid s))];
  Ok (head ++ dynamic_source ampStateCircuitKeysType (encodeCircuitKeys (InvoiceKeys s))
                (keys_size (InvoiceKeys s)) :: tail).

Fixpoint encode_amp_states (l : list (list byte * InvoiceStateAMP)) : res (list byte) :=
  match l with
  | [] => Ok []
  | (setID, ampState) :: rest =>
      records ← amp_records setID ampState;
      tlvStream ← NewStream records;
      b ← StreamEncode tlvStream;
      bs ← encode_amp_states rest;
      Ok (WriteVarInt (u64 (Z.of_nat (length b))) ++ b ++ bs)
  end.

Definition ampStateEncoder (v : AMPInvoiceState) : res (list byte) :=
  bs ← encode_amp_states (range v);
  Ok (WriteVarInt (u64 (Z.of_nat (size v))) ++ bs).

Definition amp_targets : res (list tlv_record) :=
  head ← primitives
    [(ampStateSetIDType, PBytes32 zero32); (ampStateHtlcStateType, PUint8 0);
     (ampStateSettleIndexType, PUint64 0); (ampStateSettleDateType, PVarBytes [])];
  tail ← primitives [(ampStateAmtPaidType, PUint64 0)];
  Ok (head ++ dynamic_target ampStateCircuitKeysType decodeCircuitKeys :: tail).

Fixpoint decode_amp_states (n : nat) (r : list byte) (v : AMPInvoiceState)
    : res (AMPInvoiceState * list byte) :=
  match n with
  | O => Ok (v, r)
  | S n' =>
      '(stateRecordSize, r) ← ReadVarInt r;
      let '(innerTlvReader, r) := limit_reader r (i64 stateRecordSize) in
      targets ← amp_targets;
      tlvStream ← NewStream targets;
      recs ← Decode tlvStream innerTlvReader;
      settleDate ← UnmarshalBinary (bytes_field recs ampStateSettleDateType);
      decode_amp_states n' r
        (<[bytes_field recs ampStateSetIDType :=
           {| amp_State := int_field recs ampStateHtlcStateType;
              amp_SettleIndex := int_field recs ampStateSettleIndexType;
              amp_SettleDate := settleDate;
              InvoiceKeys := default ∅
                (dynamic_field recs ampStateCircuitKeysType decodeCircuitKeys);
              amp_AmtPaid := int_field recs ampStateAmtPaidType |}]> v)
  end.

Definition ampStateDecoder (_ : Z) (r : list byte) : res (AMPInvoiceState * list byte) :=
  '(numRecords, r) ← ReadVarInt r;
  decode_amp_states (Z.to_nat numRecords) r ∅.

(** [recordSize] encodes the state and counts. *)
Definition recordSize (a : AMPInvoiceState) : Z :=
  match ampStateEncoder a with Ok b => u64 (Z.of_nat (length b)) | _ => 0 end.

(** ** Invoices *)

Definition unknownPreimage : list byte := replicate 32 x00.
Definition errZeroPreimage : error := Error "cannot use all-zeroes preimage".

Definition invoice_records (i : Invoice) (preimage featureBytes ampState : list byte)
    : res (list tlv_record) :=
  records ← primitives
    [(memoType, PVarBytes (Memo i)); (payReqType, PVarBytes (inv_PaymentRequest i));
     (createTimeType, PVarBytes (MarshalBinary (CreationDate i)));
     (settleTimeType, PVarBytes (MarshalBinary (SettleDate i)));
     (addIndexType, PUint64 (AddIndex i)); (settleIndexType, PUint64 (SettleIndex i));
     (preimageType, PBytes32 preimage); (valueType, PUint64 (term_Value (Terms i)));
     (cltvDeltaType, PUint32 (u32 (FinalCltvDelta (Terms i))));
     (expiryType, PUint64 (u64 (term_Expiry (Terms i))));
     (paymentAddrType, PBytes32 (PaymentAddr (Terms i)));
     (featuresType, PVarBytes featureBytes);
     (invStateType, PUint8 (inv_State i)); (amtPaidType, PUint64 (inv_AmtPaid i));
     (hodlInvoiceType, PUint8 (if HodlInvoice i then 1 else 0))];
  Ok (records ++ [dynamic_source invoiceAmpStateType ampState (recordSize (AMPState i))]).

Definition is_amp_invoice (i : Invoice) : bool := HasFeature (features_of i) AMPOptional.

Definition serializeInvoice (i : Invoice) : res (list byte) :=
  featureBytes ← (match term_Features (Terms i) with
                  | Some fv => EncodeBase256 fv
                  | None => Panic
                  end);
  preimage ← (match PaymentPreimage (Terms i) with
              | None => Ok unknownPreimage
              | Some p => if bool_decide (p = unknownPreimage) then Err errZeroPreimage else Ok p
              end);
  ampState ← ampStateEncoder (AMPState i);
  records ← invoice_records i preimage featureBytes ampState;
  tlvStream ← NewStream records;
  b ← StreamEncode tlvStream;
  body ← length_prefixed b;
  if is_amp_invoice i then Ok body
  else htlcs ← serializeHtlcs (Htlcs i); Ok (body ++ htlcs).

Definition invoice_targets : res (list tlv_record) :=
  records ← primitives
    [(memoType, PVarBytes []); (payReqType, PVarBytes []); (createTimeType, PVarBytes []);
     (settleTimeType, PVarBytes []); (addIndexType, PUint64 0); (settleIndexType, PUint64 0);
     (preimageType, PBytes32 zero32); (valueType, PUint64 0); (cltvDeltaType, PUint32 0);
     (expiryType, PUint64 0); (paymentAddrType, PBytes32 zero32); (featuresType, PVarBytes []);
     (invStateType, PUint8 0); (amtPaidType, PUint64 0); (hodlInvoiceType, PUint8 0)];
  Ok (records ++ [dynamic_target invoiceAmpStateType ampStateDecoder]).

Definition deserializeInvoice (r : list byte) : res Invoice :=
  targets ← invoice_targets;
  tlvStream ← NewStream targets;
  '(bodyLen, r) ← read_be 8 r;
  let '(lr, r) := limit_reader r (i64 bodyLen) in
  recs ← Decode tlvStream lr;
  let preimage := bytes_field recs preimageType in
  creationDate ← UnmarshalBinary (bytes_field recs createTimeType);
  settleDate ← UnmarshalBinary (bytes_field recs settleTimeType);
  let featureBytes := bytes_field recs featuresType in
  '(rawFeatures, _) ← DecodeBase256 ∅ featureBytes (Z.of_nat (length featureBytes));
  htlcs ← deserializeHtlcs r;
  Ok {| Memo := bytes_field recs memoType;
        inv_PaymentRequest := bytes_field recs payReqType;
        CreationDate := creationDate;
        SettleDate := settleDate;
        Terms := {| FinalCltvDelta := i32 (int_field recs cltvDeltaType);
                    term_Expiry := i64 (int_field recs expiryType);
                    PaymentPreimage :=
                      if bool_decide (preimage = unknownPreimage) then None else Some preimage;
                    term_Value := int_field recs valueType;
                    PaymentAddr := bytes_field recs paymentAddrType;
                    term_Features := Some rawFeatures |};
        AddIndex := int_field recs addIndexType;
        SettleIndex := int_field recs settleIndexType;
        inv_State := int_field recs invStateType;
        inv_AmtPaid := int_field recs amtPaidType;
        Htlcs := htlcs;
        AMPState := default ∅ (dynamic_field recs invoiceAmpStateType ampStateDecoder);
        HodlInvoice := negb (int_field recs hodlInvoiceType =? 0) |}.

End Fields.
