(* ===== verification/InvoiceCodecInv.v ===== *)
(** * Invoices are read back

    Writing an invoice, the HTLCs of a set or the state of AMP sub-invoices and reading
    the bytes gives the same value, as long as the state of the sub-invoices fits a TLV
    record; a longer one is written all the same and cannot be read. *)

From S2P Require Import Prelude Ids Tlv Features PaymentCodec Amp InvoiceCodec.

Section Streams.
Context `{Secp256k1}.

(** ** Primitive records *)

Definition prim_bytes (v : tlv_val) : list byte :=
  match v with
  | PUint8 z => be_bytes 1 z
  | PUint16 z => be_bytes 2 z
  | PUint32 z => be_bytes 4 z
  | PUint64 z => be_bytes 8 z
  | PBytes32 b | PBytes33 b | PBytes64 b | PVarBytes b => b
  | PPubKey k => SerializeCompressed k
  | PNil => []
  end.

Lemma prim_writes t v rec :
  wf_val v -> MakePrimitiveRecord t v = Ok rec -> writes rec (t, prim_bytes v).
Proof.
  intros Hwf Hr. destruct v; try done; injection Hr as <-; (split; [done|]); (split; [done|]);
    unfold Size; cbn [sizeFunc staticSize value snd prim_bytes]; simpl in Hwf;
    rewrite ?length_be_bytes, ?length_SerializeCompressed, ?Hwf; try done.
  unfold SizeVarBytes. by rewrite u64_small.
Qed.

Lemma prim_decodes t v v0 tmpl :
  wf_val v -> same_kind v v0 -> MakePrimitiveRecord t v0 = Ok tmpl -> decodes tmpl (prim_bytes v) v.
Proof.
  intros Hwf Hk Ht.
  assert (exists rec, MakePrimitiveRecord t v = Ok rec) as [rec Hr] by (destruct v; try done; by eexists).
  destruct (primitive_codec t v v0 rec tmpl Hwf Hk Hr Ht) as (b & Eb & _ & Hd).
  destruct (prim_writes t v rec Hwf Hr) as (_ & Eb' & _). simpl in Eb'. congruence.
Qed.

(** ** Decoding into a set of variables *)

Lemma decodes_fun rec b v v' : decodes rec b v -> decodes rec b v' -> v = v'.
Proof. intros H1 H2. specialize (H1 []). specialize (H2 []). congruence. Qed.

Definition readable (raws : list raw) (rec : tlv_record) : Prop :=
  match raw_map raws !! typ rec with None => True | Some b => exists v, decodes rec b v end.

Lemma reads_exists raws rs :
  Forall (readable raws) rs -> exists rs', Forall2 (reads raws) rs rs'.
Proof.
  induction 1 as [|rec rs Hr _ [rs' IH]]; [by exists []|].
  unfold readable in Hr. destruct (raw_map raws !! typ rec) as [b|] eqn:E.
  - destruct Hr as [v Hv]. exists (set_value rec v :: rs'). constructor; [|done].
    unfold reads. rewrite E. by exists v.
  - exists (rec :: rs'). constructor; [|done]. unfold reads. by rewrite E.
Qed.

Lemma field_reads raws rs rs' rec :
  Forall2 (reads raws) rs rs' -> sorted_records rs -> rec ∈ rs ->
  match raw_map raws !! typ rec with
  | None => field rs' (typ rec) = value rec
  | Some b => forall v, decodes rec b v -> field rs' (typ rec) = v
  end.
Proof.
  intros Hf Hs Hin. unfold field.
  assert (exists rec', rec' ∈ rs' /\ reads raws rec rec') as (rec' & Hin' & Hrd).
  { apply list_elem_of_lookup in Hin as [i Hi]. destruct (Forall2_lookup_l _ _ _ _ _ Hf Hi) as (x & ? & ?).
    exists x. split; [by eapply list_elem_of_lookup_2|done]. }
  assert (typ <$> rs' = typ <$> rs) as Htyp.
  { clear -Hf. induction Hf as [|x y l l' Hxy _ IH]; [done|]. rewrite !fmap_cons, IH. f_equal.
    unfold reads in Hxy. destruct (_ !! _); [by destruct Hxy as (v & _ & ->)|by subst]. }
  assert (typ rec' = typ rec) as Ht.
  { unfold reads in Hrd. destruct (_ !! _); [by destruct Hrd as (v & _ & ->)|by subst]. }
  assert (list_find (fun x => typ x = typ rec) rs' = Some (default 0%nat (fst <$> list_find (fun x => typ x = typ rec) rs'), rec')) as ->.
  { destruct (list_find_elem_of (fun x => typ x = typ rec) rs' rec' Hin' Ht) as [[i x] Hfind].
    rewrite Hfind. simpl. do 2 f_equal. apply list_find_Some in Hfind as (Hi & Hx & _).
    apply list_elem_of_lookup in Hin' as [j Hj].
    assert (NoDup (typ <$> rs')) as Hnd by (rewrite Htyp; by apply sorted_NoDup).
    assert (i = j) as ->; [|congruence]. eapply NoDup_lookup; [exact Hnd|..];
      rewrite list_lookup_fmap; [by rewrite Hi|]. rewrite Hj. simpl. congruence. }
  unfold reads in Hrd. destruct (_ !! _) as [b|].
  - destruct Hrd as (v & Hv & ->). simpl. intros v' Hv'. by eapply decodes_fun.
  - by subst.
Qed.

Definition fields_read (raws : list raw) (rs rs' : list tlv_record) : Prop :=
  forall rec, rec ∈ rs ->
    match raw_map raws !! typ rec with
    | None => field rs' (typ rec) = value rec
    | Some b => forall v, decodes rec b v -> field rs' (typ rec) = v
    end.

(** Reading a canonical sequence of records into the variables [rs]. *)
Lemma decode_into rs raws :
  sorted_records rs -> canonical raws -> Forall (readable raws) rs ->
  exists rs', DecodeWithParsedTypes rs (encode_raw raws) = Ok (rs', Some (parsed rs raws)) /\
    fields_read raws rs rs'.
Proof.
  intros Hs Hc Hr. destruct (reads_exists raws rs Hr) as [rs' Hf]. exists rs'.
  split; [by apply DecodeWithParsedTypes_complete|]. intros rec. by apply field_reads.
Qed.

(** The record at an index of the sequence, and the variable that reads it. *)
Lemma raw_at raws i t b : NoDup raws.*1 -> raws !! i = Some (t, b) -> raw_map raws !! t = Some b.
Proof.
  intros Hn Hi. apply elem_of_list_to_map_1; [done|]. by eapply list_elem_of_lookup_2.
Qed.

Lemma raw_absent raws t : Forall (fun x => x.1 <> t) raws -> raw_map raws !! t = None.
Proof.
  intros Hf. apply not_elem_of_list_to_map_1. intros Hin. apply list_elem_of_fmap in Hin as (x & -> & Hx).
  rewrite Forall_forall in Hf. by apply Hf in Hx.
Qed.

Lemma readable_at raws i rec b v :
  NoDup raws.*1 -> raws !! i = Some (typ rec, b) -> decodes rec b v -> readable raws rec.
Proof. intros Hn Hi Hd. unfold readable. rewrite (raw_at raws i (typ rec) b) by done. by exists v. Qed.

Lemma field_at raws rs rs' i j t rec b v :
  fields_read raws rs rs' -> NoDup raws.*1 -> rs !! j = Some rec -> typ rec = t ->
  raws !! i = Some (t, b) -> decodes rec b v -> field rs' t = v.
Proof.
  intros Hf Hn Hj <- Hi Hd. apply list_elem_of_lookup_2, Hf in Hj.
  rewrite (raw_at raws i (typ rec) b) in Hj by done. by apply Hj.
Qed.

(** A sequence that fills every variable, in order. *)
Definition reads_all (raws : list raw) (rs : list tlv_record) (vals : list tlv_val) : Prop :=
  Forall2 (fun (x : raw) rv => typ rv.1 = x.1 /\ decodes rv.1 x.2 rv.2) raws (zip rs vals) /\
  length rs = length raws /\ length vals = length raws.

Lemma reads_all_at raws rs vals i t b :
  reads_all raws rs vals -> raws !! i = Some (t, b) ->
  exists rec v, rs !! i = Some rec /\ vals !! i = Some v /\ typ rec = t /\ decodes rec b v.
Proof.
  intros (Hf & Hr & Hv) Hi. destruct (Forall2_lookup_l _ _ _ _ _ Hf Hi) as ([rec v] & Hz & Ht & Hd).
  apply lookup_zip_Some in Hz as [H1 H2]. by exists rec, v.
Qed.

Lemma reads_all_readable raws rs vals :
  NoDup raws.*1 -> reads_all raws rs vals -> Forall (readable raws) rs.
Proof.
  intros Hn Ha. apply Forall_lookup_2. intros i rec Hi. pose proof Ha as (_ & Hl & _).
  destruct (lookup_lt_is_Some_2 raws i) as [[t b] Hr]; [apply lookup_lt_Some in Hi; unfold raw in *; lia|].
  destruct (reads_all_at raws rs vals i t b Ha Hr) as (rec' & v & Hi' & _ & <- & Hd).
  assert (rec' = rec) as -> by congruence. by eapply readable_at.
Qed.

Lemma fields_read_all raws rs rs' vals i t b v :
  fields_read raws rs rs' -> NoDup raws.*1 -> reads_all raws rs vals ->
  raws !! i = Some (t, b) -> vals !! i = Some v -> field rs' t = v.
Proof.
  intros Hf Hn Ha Hr Hv. destruct (reads_all_at raws rs vals i t b Ha Hr) as (rec & v' & Hi & Hv' & Ht & Hd).
  assert (v' = v) as -> by congruence. by eapply field_at.
Qed.

(** Records with a decoder of their own. *)
Lemma dynamic_decodes {A} t (d : Z -> list byte -> res (A * list byte)) b a :
  (forall r, d (Z.of_nat (length b)) (b ++ r) = Ok (a, r)) ->
  decodes (dynamic_target t d) b (PVarBytes b).
Proof.
  intros Hd r. unfold RecordDecode. cbn [decoder dynamic_target MakeDynamicRecord].
  unfold dynamic_decoder. rewrite Hd. rsimpl. rewrite length_app, Nat.add_sub.
  by rewrite take_app_length.
Qed.

Lemma dynamic_field_ok {A} recs t (d : Z -> list byte -> res (A * list byte)) b a :
  field recs t = PVarBytes b -> (forall r, d (Z.of_nat (length b)) (b ++ r) = Ok (a, r)) ->
  dynamic_field recs t d = Some a.
Proof.
  intros Hf Hd. unfold dynamic_field, bytes_field. rewrite Hf.
  specialize (Hd []). rewrite app_nil_r in Hd. by rewrite Hd.
Qed.

(** [Decode] reads the same values. *)
Lemma decode_loop_None fuel : forall recs r min idx ovf pm,
  decode_loop fuel recs r None min idx ovf =
  '(recs', _) ← decode_loop fuel recs r (Some pm) min idx ovf; Ok (recs', None).
Proof.
  induction fuel as [|fuel IH]; intros recs r min idx ovf pm; [done|]. cbn [decode_loop].
  destruct (ReadVarInt r) as [[t r1]|e|]; [|by destruct e|done].
  destruct (ovf || (t <? min)); [done|].
  destruct (no_eof (ReadVarInt r1)) as [[l r2]|e|]; [|done..]. rsimpl.
  destruct (l >? MaxRecordSize); [done|]. destruct (getRecord _ _ _ _) as [[rec|] n].
  - destruct (no_eof _) as [[v r3]|e|]; [|done..]. rsimpl. apply IH.
  - destruct (no_eof _) as [[v r3]|e|]; [|done..]. rsimpl. apply IH.
Qed.

Lemma Decode_fst recs r :
  Decode recs r = '(recs', _) ← DecodeWithParsedTypes recs r; Ok recs'.
Proof.
  unfold Decode, DecodeWithParsedTypes, decode. rewrite (decode_loop_None _ _ _ _ _ _ ∅).
  by destruct (decode_loop _ _ _ (Some ∅) _ _ _) as [[? ?]|e|].
Qed.

(** ** Encoding *)

Lemma stream_encodes ss raws :
  Forall2 writes ss raws -> StronglySorted Z.lt raws.*1 -> Forall is_u64 raws.*1 ->
  NewStream ss = Ok ss /\ StreamEncode ss = Ok (encode_raw raws).
Proof.
  intros Hw Hs Hb. split; [|by apply StreamEncode_raw].
  assert (typ <$> ss = raws.*1) as Ht.
  { clear -Hw. induction Hw as [|s x ss raws (E & _) _ IH]; [done|]. by rewrite !fmap_cons, IH, E. }
  apply NewStream_iff; [|unfold sorted_records; by rewrite Ht].
  assert (Forall is_u64 (typ <$> ss)) as Hu by (by rewrite Ht).
  exact (proj1 (Forall_fmap _ _ _) Hu).
Qed.

Lemma StreamEncode_le recs : forall b rec x,
  StreamEncode recs = Ok b -> rec ∈ recs -> RecordEncode rec = Ok x -> (length x <= length b)%nat.
Proof.
  induction recs as [|rec0 recs IH]; intros b rec x Hb Hin Hx; [by apply elem_of_nil in Hin|].
  cbn [StreamEncode] in Hb. apply bind_ok in Hb as (b0 & E0 & Hb). apply bind_ok in Hb as (b1 & E1 & Hb).
  apply Ok_inj in Hb as <-. rewrite !length_app.
  apply elem_of_cons in Hin as [->|Hin].
  - assert (b0 = x) as -> by congruence. lia.
  - specialize (IH b1 rec x E1 Hin Hx). lia.
Qed.

Lemma encode_raw_le raws t b : (t, b) ∈ raws -> (length b <= length (encode_raw raws))%nat.
Proof.
  induction raws as [|[t' b'] raws IH]; intros Hin; [by apply elem_of_nil in Hin|].
  cbn [encode_raw]. rewrite !length_app. apply elem_of_cons in Hin as [[= -> ->]|Hin]; [lia|].
  specialize (IH Hin). lia.
Qed.

(** The records of a list of targets. *)
Definition targets_of (m : res (list tlv_record)) : list tlv_record :=
  match m with Ok rs => rs | _ => [] end.

(** A record longer than [MaxRecordSize] stops the decoder. *)
Lemma decode_loop_too_large raws t (n : Z) rest : forall fuel done todo todo' pm min,
  canonical raws -> Forall (fun x => x.1 < t) raws -> is_u64 t -> is_u64 n -> MaxRecordSize < n ->
  Forall (fun x => min <= x.1) raws -> min <= t -> (length raws < fuel)%nat ->
  sorted_records todo -> Forall2 (reads raws) todo todo' ->
  decode_loop fuel (done ++ todo) (encode_raw raws ++ WriteVarInt t ++ WriteVarInt n ++ rest)
    (Some pm) min (length done) false = Err ErrRecordTooLarge.
Proof.
  induction raws as [|[u b] raws IH]; intros fuel done todo todo' pm min Hc Hlt Ht Hn Hbig Hmin Hmt Hfuel Hs Hreads;
    (destruct fuel as [|fuel]; [simpl in Hfuel; lia|]).
  { cbn [encode_raw app decode_loop]. rewrite ReadVarInt_WriteVarInt by done.
    rewrite orb_false_l, (proj2 (Z.ltb_ge t min)) by done.
    rewrite ReadVarInt_WriteVarInt by done. cbn [no_eof]. rsimpl.
    replace (n >? MaxRecordSize) with true by (symmetry; apply Z.gtb_lt; lia). done. }
  pose proof (canonical_above _ _ _ Hc) as Habove.
  apply canonical_cons in Hc as (Hu & Hlen & Hc & Hnext). apply Forall_cons in Hlt as [Hut Hlt].
  pose proof (Forall_inv Hmin) as Hm. simpl in Hm, Hfuel, Hut.
  assert ((u =? MaxUint64) = false) as Eu by (apply Z.eqb_neq; unfold is_u64, MaxUint64 in *; lia).
  rewrite Eu in Hnext. simpl in Hnext.
  assert (u64 (u + 1) = u + 1) as Eu1 by (apply u64_small; unfold is_u64 in *; lia).
  cbn [encode_raw]. rewrite <- !app_assoc.
  destruct (decode_loop_step fuel done todo u (Z.of_nat (length b))
    (b ++ encode_raw raws ++ WriteVarInt t ++ WriteVarInt n ++ rest) pm min)
    as (sk & rst & -> & Hsk & Hcase); [done..|lia|done|].
  apply sorted_records_app in Hs as [_ Hs].
  apply Forall2_app_inv_l in Hreads as (sk' & k' & Hsk' & Hk' & ->).
  destruct Hcase as [(rec & rest' & -> & Hrec & Hrest & ->)|(Hrest & ->)].
  - apply Forall2_cons_inv_l in Hk' as (x' & l' & Hx & Hl & ->).
    apply reads_above in Hl; [|done]. apply sorted_records_cons in Hs as [Hs _].
    unfold reads in Hx. rewrite raw_map_cons, Hrec, lookup_insert_eq in Hx.
    destruct Hx as (v & Hv & ->). rewrite Hv. cbn [no_eof]. rsimpl. rewrite Eu.
    eapply IH; try done; [by rewrite Eu1; lia|lia].
  - apply reads_above in Hk'; [|done].
    rewrite Nat2Z.id, copy_n_app. cbn [no_eof]. rsimpl. rewrite Eu.
    eapply IH; try done; [by rewrite Eu1; lia|lia].
Qed.

Lemma decode_too_large rs raws t n rest :
  sorted_records rs -> canonical raws -> Forall (readable raws) rs ->
  Forall (fun x => x.1 < t) raws -> is_u64 t -> is_u64 n -> MaxRecordSize < n ->
  DecodeWithParsedTypes rs (encode_raw raws ++ WriteVarInt t ++ WriteVarInt n ++ rest) =
  Err ErrRecordTooLarge.
Proof.
  intros Hs Hc Hr Hlt Ht Hn Hbig. destruct (reads_exists raws rs Hr) as [rs' Hf].
  unfold DecodeWithParsedTypes, decode. apply (decode_loop_too_large raws t n rest _ [] rs rs' ∅ 0); try done.
  - destruct Hc as [_ Hc]. eapply Forall_impl; [exact Hc|]. intros [x b] [[? _] _]. done.
  - unfold is_u64 in Ht. lia.
  - rewrite length_app. pose proof (encode_raw_length raws). lia.
Qed.
End Streams.

(** ** Times *)

Lemma length_MarshalBinary `{TimeZone} t : length (MarshalBinary t) = 15%nat.
Proof.
  unfold MarshalBinary. destruct t; cbn [length]; by rewrite !length_app, !length_be_bytes.
Qed.

Lemma i64_u64 z : - 2 ^ 63 <= z < 2 ^ 63 -> i64 (u64 z) = z.
Proof. intros Hz. unfold i64, u64. rewrite Zplus_mod_idemp_l, Z.mod_small; lia. Qed.

Lemma i32_u32 z : - 2 ^ 31 <= z < 2 ^ 31 -> i32 (u32 z) = z.
Proof. intros Hz. unfold i32, u32. rewrite Zplus_mod_idemp_l, Z.mod_small; lia. Qed.

Lemma UnmarshalBinary_Marshal `{TimeZone} t : wf_time t -> UnmarshalBinary (MarshalBinary t) = Ok t.
Proof.
  intros Ht. unfold MarshalBinary.
  set (sn := match t with ZeroTime => (0, 0)
    | UnixNano ns => (ns / 10 ^ 9 + unixToInternal, ns mod 10 ^ 9) end).
  assert (- 2 ^ 63 <= sn.1 < 2 ^ 63 /\ 0 <= sn.2 < 2 ^ 31 /\
    (if (sn.1 =? 0) && (sn.2 =? 0) then ZeroTime
     else UnixNano ((sn.1 - unixToInternal) * 10 ^ 9 + sn.2)) = t) as (H1 & H2 & H3).
  { destruct t as [|ns]; [done|]. cbn [fst snd wf_time] in *. unfold sn, unixToInternal. cbn [fst snd].
    pose proof (Z.div_mod ns (10 ^ 9) ltac:(lia)). pose proof (Z.mod_pos_bound ns (10 ^ 9) ltac:(lia)).
    split; [lia|]. split; [lia|]. rewrite (proj2 (Z.eqb_neq (_ + _) 0)) by lia. cbn [andb].
    f_equal. lia. }
  destruct sn as [sec nsec]. cbn [fst snd] in *. cbn [UnmarshalBinary].
  rewrite !length_app, !length_be_bytes. cbn [Nat.add Nat.eqb]. rewrite bool_decide_true by done.
  cbn [andb orb]. rewrite take_app_length', drop_app_length' by by rewrite length_be_bytes.
  rewrite take_app_length' by by rewrite length_be_bytes.
  rewrite !be_val_be_bytes_small by (change (256 ^ Z.of_nat 8) with (2 ^ 64);
    change (256 ^ Z.of_nat 4) with (2 ^ 32); pose proof (u64_range sec); unfold is_u64 in *; lia).
  rewrite i64_u64 by done. rewrite <- (u32_small nsec) by (unfold is_u32; lia).
  rewrite i32_u32 by lia. by rewrite H3.
Qed.

Lemma getNanoTime_put t :
  wf_time t -> t <> UnixNano 0 -> getNanoTime (putNanoTime t) = t /\ is_u64 (putNanoTime t).
Proof.
  intros Ht Hne. unfold getNanoTime, putNanoTime. destruct t as [|ns]; [done|].
  split; [|apply u64_range]. cbn [wf_time] in Ht. rewrite i64_u64 by done.
  destruct (Z.eqb_spec (u64 ns) 0) as [E|]; [|done]. exfalso. apply Hne. f_equal.
  unfold u64 in E. apply Z.mod_divide in E as [k E]; lia.
Qed.

(** ** Circuit keys *)

Section Keys.
Context `{Secp256k1} `{GoRange} `{TimeZone} `{WireVarInt}.

Lemma range_set_elements (s : gset CircuitKey) : range_set s ≡ₚ elements s.
Proof.
  unfold range_set. rewrite range_entries.
  apply NoDup_Permutation.
  - apply NoDup_fst_map_to_list.
  - apply NoDup_elements.
  - intros k. rewrite elem_of_elements, list_elem_of_fmap. split.
    + intros ([k' []] & -> & Hk). apply elem_of_map_to_list in Hk.
      by apply lookup_gset_to_gmap_Some in Hk as [? _].
    + intros Hk. exists (k, tt). split; [done|]. apply elem_of_map_to_list.
      by apply lookup_gset_to_gmap_Some.
Qed.

Definition key_bytes (key : CircuitKey) : list byte :=
  EUint64T (ToUint64 (ChanID key)) ++ EUint64T (HtlcID key).

Lemma length_key_bytes key : length (key_bytes key) = 16%nat.
Proof. unfold key_bytes, EUint64T. by rewrite length_app, !length_be_bytes. Qed.

Lemma decode_keys_app l : forall r v,
  Forall valid_key l ->
  decode_keys (length l) (concat (key_bytes <$> l) ++ r) v = Ok (list_to_set l ∪ v, r).
Proof.
  induction l as [|k l IH]; intros r v Hl.
  - simpl. by rewrite (left_id_L ∅ (∪)).
  - apply Forall_cons in Hl as [[Hc Hh] Hl]. rewrite fmap_cons. cbn [concat length decode_keys].
    unfold key_bytes at 1. rewrite <- !app_assoc. unfold EUint64T.
    rewrite read_be_app by (apply (ToUint64_range _ Hc)). rsimpl.
    rewrite read_be_app by exact Hh. rsimpl. rewrite NewShortChanIDFromInt_ToUint64 by done.
    rewrite IH by done. do 2 f_equal. destruct k as [c h]. simpl. set_solver.
Qed.

Lemma length_concat_keys l : length (concat (key_bytes <$> l)) = (16 * length l)%nat.
Proof.
  induction l as [|k l IH]; [done|]. rewrite fmap_cons. cbn [concat].
  rewrite length_app, length_key_bytes, IH. simpl. lia.
Qed.

Lemma length_encodeCircuitKeys s :
  length (encodeCircuitKeys s) =
  (length (WriteVarInt (u64 (Z.of_nat (size s)))) + 16 * size s)%nat.
Proof.
  unfold encodeCircuitKeys. rewrite length_app. f_equal.
  pose proof (length_concat_keys (range_set s)) as E. unfold key_bytes in E. rewrite E.
  f_equal. by rewrite range_set_elements.
Qed.

Lemma WriteVarInt_short v : (length (WriteVarInt v) <= 9)%nat.
Proof.
  unfold WriteVarInt. repeat case_match; rewrite ?length_cons, ?length_app, ?length_be_bytes; simpl; lia.
Qed.

Lemma keys_roundtrip s :
  set_Forall valid_key s -> Z.of_nat (length (encodeCircuitKeys s)) < 2 ^ 63 ->
  (forall l r, decodeCircuitKeys l (encodeCircuitKeys s ++ r) = Ok (s, r)) /\
  keys_size s = Z.of_nat (length (encodeCircuitKeys s)).
Proof.
  intros Hs Hb. pose proof (length_encodeCircuitKeys s) as El.
  assert (is_u64 (Z.of_nat (size s))) as Hu by (unfold is_u64; lia).
  assert (length (range_set s) = size s) as Er by (by rewrite range_set_elements).
  split.
  - intros l r. unfold decodeCircuitKeys, encodeCircuitKeys. rewrite <- app_assoc.
    rewrite u64_small by done. rewrite ReadVarInt_WriteVarInt by done. rsimpl.
    rewrite Nat2Z.id, <- Er. change (fun key => _) with key_bytes.
    rewrite decode_keys_app.
    + do 2 f_equal. rewrite (right_id_L ∅ (∪)). apply set_eq. intros k.
      by rewrite elem_of_list_to_set, range_set_elements, elem_of_elements.
    + apply Forall_forall. intros k. rewrite range_set_elements, elem_of_elements. apply Hs.
  - unfold keys_size, VarIntSize. rewrite (u64_small (Z.of_nat (size s))) in * by done.
    rewrite VarIntSerializeSize_length by done. pose proof (WriteVarInt_short (Z.of_nat (size s))).
    rewrite !u64_small; unfold is_u64 in *; rewrite ?u64_small; unfold is_u64; lia.
Qed.
End Keys.

(** ** The state of AMP sub-invoices *)

(** Closes the primitive records of a goal [reads_all _ _ _]. *)
Ltac prim_reads_all :=
  split; [|by split];
  repeat match goal with
  | |- Forall2 ?P ?l1 ?l2 =>
      let l1 := eval hnf in l1 in
      let l2 := eval hnf in l2 in
      change (Forall2 P l1 l2); constructor
  | |- typ _ = _ /\ decodes _ _ _ =>
      split; [reflexivity|]; cbn [fst snd];
      match goal with |- decodes ?x ?y ?z => let x := eval hnf in x in change (decodes x y z) end
  | |- decodes (Record_ ?v0 ?t _ _ _ _) _ ?v =>
      refine (prim_decodes t v v0 _ _ I eq_refl); simpl; by auto
  end.

(** Closes the primitive records of a goal [Forall2 writes _ _]. *)
Ltac prim_writes_all :=
  cbn [app];
  repeat match goal with
  | |- Forall2 _ (_ :: _) (_ :: _) => constructor
  | |- Forall2 _ [] [] => constructor
  | |- writes (dynamic_source _ _ _) _ => by (split; [|split])
  | |- writes (Record_ (snd (?t, ?v)) _ _ _ _ _) _ => refine (prim_writes t v _ _ eq_refl); simpl; by auto
  end.

Section AmpStates.
Context `{Secp256k1} `{GoRange} `{TimeZone} `{WireVarInt}.

Record wf_amp_state (id : list byte) (s : InvoiceStateAMP) : Prop := {
  was_id : length id = 32%nat;
  was_state : is_u8 (amp_State s);
  was_index : is_u64 (amp_SettleIndex s);
  was_date : wf_time (amp_SettleDate s);
  was_keys : set_Forall valid_key (InvoiceKeys s);
  was_paid : is_u64 (amp_AmtPaid s);
}.

Definition amp_raws (id : list byte) (s : InvoiceStateAMP) : list raw :=
  [(ampStateSetIDType, id); (ampStateHtlcStateType, be_bytes 1 (amp_State s));
   (ampStateSettleIndexType, be_bytes 8 (amp_SettleIndex s));
   (ampStateSettleDateType, MarshalBinary (amp_SettleDate s));
   (ampStateCircuitKeysType, encodeCircuitKeys (InvoiceKeys s));
   (ampStateAmtPaidType, be_bytes 8 (amp_AmtPaid s))].

Definition amp_block (x : list byte * InvoiceStateAMP) : list byte :=
  WriteVarInt (u64 (Z.of_nat (length (encode_raw (amp_raws x.1 x.2))))) ++
  encode_raw (amp_raws x.1 x.2).

Lemma amp_raws_sorted id s :
  StronglySorted Z.lt (amp_raws id s).*1 /\ Forall is_u64 (amp_raws id s).*1.
Proof. split; [by repeat constructor|repeat (constructor; [done|]); constructor]. Qed.

(** What a sub-invoice is written as, given room for its keys. *)
Lemma amp_state_writes id s :
  wf_amp_state id s ->
  exists recs b, amp_records id s = Ok recs /\ NewStream recs = Ok recs /\ StreamEncode recs = Ok b /\
    (length (encodeCircuitKeys (InvoiceKeys s)) <= length b)%nat /\
    (Z.of_nat (length (encodeCircuitKeys (InvoiceKeys s))) < 2 ^ 63 -> b = encode_raw (amp_raws id s)).
Proof.
  intros [Hid Hst Hix Hdt Hk Hp].
  assert (forall b, is_u64 (Z.of_nat (length (MarshalBinary b)))) as Hm.
  { intros b. rewrite length_MarshalBinary. unfold is_u64. lia. }
  assert (exists recs, amp_records id s = Ok recs /\ NewStream recs = Ok recs /\
    (exists b, StreamEncode recs = Ok b) /\
    dynamic_source ampStateCircuitKeysType (encodeCircuitKeys (InvoiceKeys s))
      (keys_size (InvoiceKeys s)) ∈ recs /\
    (keys_size (InvoiceKeys s) = Z.of_nat (length (encodeCircuitKeys (InvoiceKeys s))) ->
     Forall2 writes recs (amp_raws id s))) as (recs & Er & En & [b Eb] & Hin & Hw).
  { eexists. split; [reflexivity|]. split; [reflexivity|]. split; [by eexists|].
    split; [by apply (list_elem_of_lookup_2 _ 4)|]. intros Hsz. unfold amp_raws.
    prim_writes_all. }
  exists recs, b. split_and!; [done..| |].
  - by eapply StreamEncode_le.
  - intros Hb. destruct (keys_roundtrip (InvoiceKeys s) Hk Hb) as [_ Hsz].
    destruct (amp_raws_sorted id s) as [Hs Hu].
    destruct (stream_encodes _ _ (Hw Hsz) Hs Hu) as [_ E]. congruence.
Qed.

Lemma encode_amp_states_ok l : forall bs,
  Forall (fun x => wf_amp_state x.1 x.2) l -> encode_amp_states l = Ok bs ->
  Z.of_nat (length bs) < 2 ^ 63 ->
  bs = concat (amp_block <$> l) /\
  Forall (fun x => Z.of_nat (length (encodeCircuitKeys (InvoiceKeys x.2))) < 2 ^ 63) l.
Proof.
  induction l as [|[id s] l IH]; intros bs Hwf Hbs Hlen; [by injection Hbs as <-|].
  apply Forall_cons in Hwf as [Hw Hwf]. cbn [encode_amp_states] in Hbs.
  destruct (amp_state_writes id s Hw) as (recs & b & Er & En & Eb & Hle & Heq).
  rewrite Er in Hbs. cbn [mbind res_bind] in Hbs. rewrite En in Hbs. cbn [mbind res_bind] in Hbs.
  rewrite Eb in Hbs. cbn [mbind res_bind] in Hbs.
  destruct (encode_amp_states l) as [bs'|e|]; [|done..]. apply Ok_inj in Hbs as <-.
  rewrite !length_app in Hlen. destruct (IH bs' Hwf eq_refl ltac:(lia)) as [-> Hk].
  assert (Z.of_nat (length (encodeCircuitKeys (InvoiceKeys s))) < 2 ^ 63) as Hk1 by lia.
  rewrite (Heq Hk1). split; [|by constructor]. rewrite fmap_cons. cbn [concat].
  unfold amp_block at 2. cbn [fst snd]. by rewrite <- app_assoc.
Qed.

Lemma encode_amp_states_total l :
  Forall (fun x => wf_amp_state x.1 x.2) l -> is_ok (encode_amp_states l) = true.
Proof.
  induction 1 as [|[id s] l Hw _ IH]; [done|]. cbn [encode_amp_states fst snd] in *.
  destruct (amp_state_writes id s Hw) as (recs & b & Er & En & Eb & _).
  rewrite Er. cbn [mbind res_bind]. rewrite En. cbn [mbind res_bind]. rewrite Eb. cbn [mbind res_bind]. by destruct (encode_amp_states l).
Qed.

Lemma amp_targets_ok :
  amp_targets = Ok (targets_of amp_targets) /\
  NewStream (targets_of amp_targets) = Ok (targets_of amp_targets) /\
  sorted_records (targets_of amp_targets).
Proof. split; [reflexivity|]. split; [reflexivity|]. by repeat constructor. Qed.

Lemma decode_amp_state id s n rest v :
  wf_amp_state id s -> Z.of_nat (length (amp_block (id, s))) <= MaxRecordSize ->
  decode_amp_states (S n) (amp_block (id, s) ++ rest) v =
  decode_amp_states n rest (<[id := s]> v).
Proof.
  intros [Hid Hst Hix Hdt Hk Hp] Hlen. unfold amp_block in *. cbn [fst snd] in *.
  rewrite length_app in Hlen. set (raws := amp_raws id s) in *.
  assert (forall t b, (t, b) ∈ raws -> Z.of_nat (length b) <= MaxRecordSize) as Hb.
  { intros t b Hin. pose proof (encode_raw_le raws t b Hin). lia. }
  assert (Z.of_nat (length (encodeCircuitKeys (InvoiceKeys s))) <= MaxRecordSize) as Hkb.
  { apply (Hb ampStateCircuitKeysType). by apply (list_elem_of_lookup_2 _ 4). }
  unfold MaxRecordSize in *.
  assert (Z.of_nat (length (encodeCircuitKeys (InvoiceKeys s))) < 2 ^ 63) as Hk63 by lia.
  destruct (keys_roundtrip (InvoiceKeys s) Hk Hk63) as [Hkeys _].
  destruct (amp_raws_sorted id s) as [Hs Hu]. fold raws in Hs, Hu.
  assert (canonical raws) as Hc.
  { split; [done|]. apply Forall_forall. intros [t b] Hin. split; [|by eapply Hb].
    rewrite Forall_forall in Hu. apply Hu. by apply (list_elem_of_fmap_2 fst) in Hin. }
  pose proof (sorted_NoDup _ Hs) as Hnd.
  assert (is_u64 (Z.of_nat (length (encode_raw raws)))) as Hlu by (unfold is_u64; lia).
  cbn [decode_amp_states]. rewrite <- app_assoc, (u64_small (Z.of_nat _)) by done.
  rewrite ReadVarInt_WriteVarInt by done. rsimpl. unfold limit_reader.
  rewrite <- (u64_small (Z.of_nat (length (encode_raw raws)))) by done.
  rewrite i64_u64 by lia. rewrite Nat2Z.id, take_app_length, drop_app_length.
  destruct amp_targets_ok as (Ers & Ens & Hss). rewrite Ers. rsimpl. rewrite Ens. rsimpl.
  rewrite Decode_fst. set (rs := targets_of amp_targets) in *.
  assert (forall b, is_u64 (Z.of_nat (length (MarshalBinary b)))) as Hm.
  { intros b. rewrite length_MarshalBinary. unfold is_u64. lia. }
  set (vals := [PBytes32 id; PUint8 (amp_State s); PUint64 (amp_SettleIndex s);
    PVarBytes (MarshalBinary (amp_SettleDate s));
    PVarBytes (encodeCircuitKeys (InvoiceKeys s)); PUint64 (amp_AmtPaid s)]).
  assert (reads_all raws rs vals) as Hall by (unfold raws, rs, vals; prim_reads_all; by eapply dynamic_decodes).
  destruct (decode_into rs raws Hss Hc (reads_all_readable _ _ _ Hnd Hall)) as (rs' & -> & Hf).
  rsimpl. pose proof (fun i t b v => fields_read_all raws rs rs' vals i t b v Hf Hnd Hall) as Hfield.
  unfold bytes_field, int_field.
  rewrite (Hfield 3%nat _ _ _ eq_refl eq_refl), UnmarshalBinary_Marshal by done. rsimpl.
  rewrite (Hfield 0%nat _ _ _ eq_refl eq_refl), (Hfield 1%nat _ _ _ eq_refl eq_refl),
    (Hfield 2%nat _ _ _ eq_refl eq_refl), (Hfield 5%nat _ _ _ eq_refl eq_refl).
  rewrite (dynamic_field_ok _ _ _ _ _ (Hfield 4%nat _ _ _ eq_refl eq_refl) (Hkeys _)).
  by destruct s.
Qed.


Lemma decode_amp_blocks l : forall r v,
  Forall (fun x => wf_amp_state x.1 x.2) l ->
  Forall (fun x => Z.of_nat (length (amp_block x)) <= MaxRecordSize) l -> NoDup l.*1 ->
  decode_amp_states (length l) (concat (amp_block <$> l) ++ r) v = Ok (list_to_map l ∪ v, r).
Proof.
  induction l as [|[id s] l IH]; intros r v Hwf Hlen Hnd.
  - simpl. by rewrite (left_id_L ∅ (∪)).
  - apply Forall_cons in Hwf as [Hw Hwf]. apply Forall_cons in Hlen as [Hl Hlen].
    apply NoDup_cons in Hnd as [Hn Hnd]. rewrite fmap_cons. cbn [concat length].
    rewrite <- app_assoc, decode_amp_state by done. rewrite IH by done.
    assert (list_to_map ((id, s) :: l) ∪ v = list_to_map l ∪ <[id:=s]> v) as ->; [|done].
    rewrite list_to_map_cons.
    rewrite <- insert_union_l. apply insert_union_r. by apply not_elem_of_list_to_map_1.
Qed.

Lemma concat_le {A} (l : list (list A)) x : x ∈ l -> (length x <= length (concat l))%nat.
Proof.
  induction l as [|y l IH]; intros Hin; [by apply elem_of_nil in Hin|]. cbn [concat].
  rewrite length_app. apply elem_of_cons in Hin as [->|Hin]; [lia|]. specialize (IH Hin). lia.
Qed.

Lemma amp_blocks_count l : (length l <= length (concat (amp_block <$> l)))%nat.
Proof.
  induction l as [|x l IH]; [done|]. rewrite fmap_cons. cbn [concat length]. rewrite length_app.
  unfold amp_block at 1. rewrite length_app.
  pose proof (WriteVarInt_length (u64 (Z.of_nat (length (encode_raw (amp_raws x.1 x.2)))))). lia.
Qed.

Definition wf_amp_states (st : AMPInvoiceState) : Prop := map_Forall wf_amp_state st.

Lemma range_wf_amp st : wf_amp_states st -> Forall (fun x => wf_amp_state x.1 x.2) (range st).
Proof.
  intros Hw. apply Forall_forall. intros [id s]. rewrite range_entries, elem_of_map_to_list. apply Hw.
Qed.

Lemma range_NoDup {K} `{Countable K} {V} (m : gmap K V) : NoDup (range m).*1.
Proof. rewrite range_entries. apply NoDup_fst_map_to_list. Qed.

Lemma range_to_map {K} `{Countable K} {V} (m : gmap K V) : list_to_map (range m) = m.
Proof.
  etrans; [|apply (list_to_map_to_list m)]. apply list_to_map_proper; [apply range_NoDup|apply range_entries].
Qed.

Lemma range_length {K} `{Countable K} {V} (m : gmap K V) : length (range m) = size m.
Proof. rewrite range_entries. apply length_map_to_list. Qed.

Lemma ampStateEncoder_total st : wf_amp_states st -> exists b, ampStateEncoder st = Ok b.
Proof.
  intros Hw%range_wf_amp%encode_amp_states_total. unfold ampStateEncoder.
  destruct (encode_amp_states (range st)); [by eexists|done..].
Qed.

(** The state of the sub-invoices is read back when it fits a record. *)
Lemma amp_state_roundtrip st b :
  wf_amp_states st -> ampStateEncoder st = Ok b -> Z.of_nat (length b) <= MaxRecordSize ->
  forall l r, ampStateDecoder l (b ++ r) = Ok (st, r).
Proof.
  unfold MaxRecordSize.
  intros Hw (bs & Ebs & Eb)%bind_ok Hlen l r. apply Ok_inj in Eb as <-. rewrite length_app in Hlen.
  pose proof (range_wf_amp st Hw) as Hwl.
  assert (Z.of_nat (length bs) < 2 ^ 63) as Hbs by lia.
  destruct (encode_amp_states_ok (range st) bs Hwl Ebs Hbs) as [-> _].
  pose proof (amp_blocks_count (range st)) as Hcnt. rewrite range_length in Hcnt.
  assert (is_u64 (Z.of_nat (size st))) as Hsz by (unfold is_u64; lia).
  unfold ampStateDecoder. rewrite u64_small by done. rewrite <- app_assoc, ReadVarInt_WriteVarInt by done.
  rsimpl. rewrite Nat2Z.id, <- range_length, decode_amp_blocks.
  - by rewrite range_to_map, (right_id_L ∅ (∪)).
  - done.
  - apply Forall_forall. intros x Hx. apply (list_elem_of_fmap_2 amp_block) in Hx.
    pose proof (concat_le _ _ Hx). unfold MaxRecordSize. lia.
  - apply range_NoDup.
Qed.

Lemma recordSize_ok st b :
  ampStateEncoder st = Ok b -> is_u64 (Z.of_nat (length b)) -> recordSize st = Z.of_nat (length b).
Proof. intros E Hb. unfold recordSize. rewrite E. by apply u64_small. Qed.
End AmpStates.

(** ** HTLCs *)

(** Goes through a list element by element. *)
Ltac forall_list tac :=
  repeat first [apply List.Forall_nil | apply List.Forall_cons; [tac|]].

Section HtlcCodec.
Context `{Secp256k1} `{GoRange}.

Definition wf_amp_data (a : InvoiceHtlcAMPData) : Prop :=
  wf_amp (amp_Record a) /\ length (amp_Hash a) = 32%nat /\
  forall p, amp_Preimage a = Some p -> length p = 32%nat.

Definition wf_stamp (t : Time) : Prop := wf_time t /\ t <> UnixNano 0.

Definition wf_custom (m : gmap Z (list byte)) : Prop :=
  map_Forall (fun t b => CustomTypeStart <= t < 2 ^ 64 /\ Z.of_nat (length b) <= MaxRecordSize) m.

Record wf_htlc (h : InvoiceHTLC) : Prop := {
  wfh_amt : is_u64 (htlc_Amt h);
  wfh_total : is_u64 (MppTotalAmt h);
  wfh_height : is_u32 (AcceptHeight h);
  wfh_accept : wf_stamp (AcceptTime h);
  wfh_resolve : wf_stamp (ResolveTime h);
  wfh_expiry : is_u32 (htlc_Expiry h);
  wfh_state : is_u8 (htlc_State h);
  wfh_custom : wf_custom (htlc_CustomRecords h);
  wfh_amp : forall a, htlc_AMP h = Some a -> wf_amp_data a;
}.

Definition htlc_head_vals (key : CircuitKey) (h : InvoiceHTLC) : list (Z * tlv_val) :=
  [(chanIDType, PUint64 (ToUint64 (ChanID key))); (htlcIDType, PUint64 (HtlcID key));
   (amtType, PUint64 (htlc_Amt h)); (acceptHeightType, PUint32 (AcceptHeight h));
   (acceptTimeType, PUint64 (putNanoTime (AcceptTime h)));
   (resolveTimeType, PUint64 (putNanoTime (ResolveTime h)));
   (expiryHeightType, PUint32 (htlc_Expiry h)); (htlcStateType, PUint8 (htlc_State h));
   (mppTotalAmtType, PUint64 (MppTotalAmt h))].

Definition prim_raws (l : list (Z * tlv_val)) : list raw := (fun tv => (tv.1, prim_bytes tv.2)) <$> l.

Definition amp_data_raws (a : option InvoiceHtlcAMPData) : list raw :=
  match a with
  | None => []
  | Some a =>
      (htlcAMPType, AMPEncoder (amp_Record a)) :: (htlcHashType, amp_Hash a) ::
      match amp_Preimage a with Some p => [(htlcPreimageType, p)] | None => [] end
  end.

Definition htlc_raws (key : CircuitKey) (h : InvoiceHTLC) (custom : list raw) : list raw :=
  prim_raws (htlc_head_vals key h) ++ amp_data_raws (htlc_AMP h) ++ custom.

(** The records of an HTLC: known types below 24, custom types from 65536. *)
Lemma sorted_app (l1 l2 : list Z) m :
  StronglySorted Z.lt l1 -> StronglySorted Z.lt l2 ->
  Forall (fun x => x < m) l1 -> Forall (fun x => m <= x) l2 -> StronglySorted Z.lt (l1 ++ l2).
Proof.
  intros H1 H2 Hl Hr. induction H1 as [|x l1 H1 IH Hx]; [done|].
  apply Forall_cons in Hl as [Hxm Hl]. simpl. constructor; [by apply IH|].
  apply Forall_app. split; [done|]. eapply Forall_impl; [exact Hr|]. simpl. lia.
Qed.

Lemma amp_data_raws_sorted a :
  StronglySorted Z.lt (amp_data_raws a).*1 /\
  Forall (fun x => 19 <= x < 24) (amp_data_raws a).*1.
Proof.
  destruct a as [[r h [p|]]|]; simpl; split; repeat constructor; done.
Qed.

Lemma htlc_raws_canonical key h custom :
  valid_key key -> wf_htlc h -> canonical custom -> raw_map custom = htlc_CustomRecords h ->
  canonical (htlc_raws key h custom) /\ Forall (fun x => CustomTypeStart <= x.1) custom.
Proof.
  intros [Hc Hk] [Ha Ht Hh Hat Hrt He Hst Hcu Ham] [Hs Hb] Hm.
  assert (Forall (fun x => CustomTypeStart <= x.1) custom) as Hlow.
  { apply Forall_forall. intros [t b] Hin. simpl.
    assert (raw_map custom !! t = Some b) as E.
    { apply elem_of_list_to_map_1; [by apply sorted_NoDup|done]. }
    rewrite Hm in E. apply Hcu in E. lia. }
  split; [|done]. unfold htlc_raws. destruct (amp_data_raws_sorted (htlc_AMP h)) as [Hs2 Hr2].
  split.
  - rewrite !fmap_app. apply (sorted_app _ _ 19).
    + by repeat constructor.
    + apply (sorted_app _ _ CustomTypeStart); [done..| |].
      * eapply Forall_impl; [exact Hr2|]. unfold CustomTypeStart. simpl. lia.
      * by apply Forall_fmap.
    + by repeat constructor.
    + apply Forall_app. split; [eapply Forall_impl; [exact Hr2|]; simpl; lia|].
      apply Forall_fmap. eapply Forall_impl; [exact Hlow|]. unfold CustomTypeStart. simpl. lia.
  - apply Forall_app. split; [|apply Forall_app; split; [|done]].
    + unfold prim_raws, htlc_head_vals. cbn [fmap list_fmap prim_bytes fst snd].
      forall_list ltac:(split; [done|rewrite length_be_bytes; unfold MaxRecordSize; lia]).
    + destruct (htlc_AMP h) as [a|] eqn:Ea; [|done]. destruct (Ham a eq_refl) as (Hwa & Hha & Hpa).
      destruct (AMPDecoder_Encoder (amp_Record a) [] Hwa) as (_ & _ & Hle). simpl.
      unfold maxAMPLength, MaxRecordSize in *.
      destruct (amp_Preimage a) as [p|] eqn:Ep;
        forall_list ltac:(split; [done|rewrite ?Hha, ?(Hpa _ eq_refl); lia]).
Qed.

Lemma custom_writes raws :
  canonical raws -> Forall2 writes (stub_record <$> raws) raws.
Proof.
  intros [_ Hb]. induction Hb as [|[t b] raws [_ Hl] _ IH]; [constructor|].
  rewrite fmap_cons. constructor; [|done]. split; [done|]. split; [done|]. simpl.
  unfold Size. simpl. apply u64_small. unfold is_u64, MaxRecordSize in *. lia.
Qed.

(** What an HTLC is written as. *)
Lemma htlc_writes key h :
  valid_key key -> wf_htlc h ->
  exists recs custom, htlc_records key h = Ok recs /\ NewStream recs = Ok recs /\
    StreamEncode recs = Ok (encode_raw (htlc_raws key h custom)) /\
    canonical (htlc_raws key h custom) /\ raw_map custom = htlc_CustomRecords h /\
    Forall (fun x => CustomTypeStart <= x.1) custom.
Proof.
  intros Hk Hw. pose proof Hw as [Ha Ht Hh Hat Hrt He Hst Hcu Ham].
  destruct (MapToRecords_raws (htlc_CustomRecords h)) as (custom & Em & Hc & Hm).
  { eapply map_Forall_impl; [exact Hcu|]. unfold is_u64, CustomTypeStart. simpl. intros. lia. }
  destruct (htlc_raws_canonical key h custom Hk Hw Hc Hm) as [Hcan Hlow].
  destruct Hk as [Hkc Hkh]. pose proof (ToUint64_range _ Hkc) as Hku.
  destruct (getNanoTime_put (AcceptTime h)) as [_ Hta]; [apply Hat|apply Hat|].
  destruct (getNanoTime_put (ResolveTime h)) as [_ Htr]; [apply Hrt|apply Hrt|].
  assert (exists recs, htlc_records key h = Ok recs /\ Forall2 writes recs (htlc_raws key h custom))
    as (recs & Er & Hwr).
  { unfold htlc_records, htlc_raws. rewrite Em.
    destruct (htlc_AMP h) as [a|] eqn:Ea.
    - destruct (Ham a eq_refl) as (Hwa & Hha & Hpa).
      destruct (AMPDecoder_Encoder (amp_Record a) [] Hwa) as (_ & Hsz & _).
      destruct (amp_Preimage a) as [p|] eqn:Ep.
      + pose proof (Hpa p eq_refl). eexists. split; [reflexivity|].
        unfold prim_raws, htlc_head_vals, amp_data_raws. rewrite Ep. cbn [fmap list_fmap].
        apply Forall2_app; [prim_writes_all|]. apply Forall2_app; [prim_writes_all|]. by apply custom_writes.
      + eexists. split; [reflexivity|].
        unfold prim_raws, htlc_head_vals, amp_data_raws. rewrite Ep. cbn [fmap list_fmap].
        apply Forall2_app; [prim_writes_all|]. apply Forall2_app; [prim_writes_all|]. by apply custom_writes.
    - eexists. split; [reflexivity|]. cbn [fmap list_fmap prim_raws htlc_head_vals amp_data_raws].
      apply Forall2_app; [prim_writes_all|]. by apply custom_writes. }
  assert (Forall is_u64 (htlc_raws key h custom).*1) as Hu.
  { apply Forall_fmap. destruct Hcan as [_ Hb]. eapply Forall_impl; [exact Hb|]. by intros [t b] [? _]. }
  destruct (stream_encodes recs _ Hwr (proj1 Hcan) Hu) as [En Es].
  by exists recs, custom.
Qed.

Lemma parsed_at rs raws t :
  parsed rs raws !! t =
  (fun b => if bool_decide (t ∈ typ <$> rs) then None else Some b) <$> raw_map raws !! t.
Proof.
  unfold parsed, TypeMap. etrans; [apply map_lookup_imap|]. by destruct (raw_map raws !! t).
Qed.

Lemma parsed_is_Some rs raws t : is_Some (parsed rs raws !! t) <-> is_Some (raw_map raws !! t).
Proof. rewrite parsed_at. apply fmap_is_Some. Qed.

Lemma raw_map_app l1 l2 t :
  NoDup (l1 ++ l2).*1 -> raw_map (l1 ++ l2) !! t =
  match raw_map l1 !! t with Some b => Some b | None => raw_map l2 !! t end.
Proof.
  intros Hn. unfold raw_map. rewrite list_to_map_app, lookup_union.
  by destruct (list_to_map l1 !! t), (list_to_map l2 !! t).
Qed.

Lemma raw_map_high l t m : Forall (fun x => x.1 < m) l -> m <= t -> raw_map l !! t = None.
Proof.
  intros Hl Ht. apply raw_absent. eapply Forall_impl; [exact Hl|]. simpl. lia.
Qed.

Lemma htlc_raws_head_low key h :
  Forall (fun x => x.1 < CustomTypeStart) (prim_raws (htlc_head_vals key h) ++ amp_data_raws (htlc_AMP h)).
Proof.
  apply Forall_app. split; [by repeat constructor|].
  destruct (htlc_AMP h) as [[r hh [p|]]|]; by repeat constructor.
Qed.

Lemma parsed_high rs key h custom t :
  canonical (htlc_raws key h custom) -> Forall (fun rec => typ rec < CustomTypeStart) rs ->
  CustomTypeStart <= t ->
  parsed rs (htlc_raws key h custom) !! t = Some <$> raw_map custom !! t.
Proof.
  intros [Hs _] Hrs Ht. pose proof (sorted_NoDup _ Hs) as Hnd.
  rewrite parsed_at. unfold htlc_raws in *. rewrite app_assoc in *.
  rewrite raw_map_app by done.
  rewrite (raw_map_high _ t CustomTypeStart) by (done || apply htlc_raws_head_low).
  destruct (raw_map custom !! t) as [b|]; [|done]. simpl. rewrite bool_decide_false; [done|].
  intros Hin. apply list_elem_of_fmap in Hin as (rec & -> & Hin).
  rewrite Forall_forall in Hrs. apply Hrs in Hin. lia.
Qed.

Lemma custom_records_read rs key h custom :
  canonical (htlc_raws key h custom) -> raw_map custom = htlc_CustomRecords h ->
  Forall (fun x => CustomTypeStart <= x.1) custom ->
  Forall (fun rec => typ rec < CustomTypeStart) rs ->
  NewCustomRecords (parsed rs (htlc_raws key h custom)) = htlc_CustomRecords h.
Proof.
  intros Hc Hm Hlow Hrs. pose proof (parsed_high rs key h custom) as Hp.
  unfold NewCustomRecords. unfold TypeMap in *.
  apply map_eq. intros t. rewrite lookup_omap, <- Hm.
  rewrite (map_lookup_filter (M := gmap Z)).
  destruct (Z.le_gt_cases CustomTypeStart t) as [Ht|Ht].
  - rewrite Hp by done. destruct (raw_map custom !! t); [|done]. simpl.
    by rewrite option_guard_True.
  - assert (raw_map custom !! t = None) as ->.
    { apply raw_absent. eapply Forall_impl; [exact Hlow|]. simpl. lia. }
    match goal with |- (?o ≫= _) ≫= _ = _ => destruct o as [v|]; simpl; [|reflexivity] end.
    case_guard; [simpl in *; lia|reflexivity].
Qed.

Lemma htlc_targets_ok :
  htlc_targets = Ok (targets_of htlc_targets) /\
  NewStream (targets_of htlc_targets) = Ok (targets_of htlc_targets) /\
  sorted_records (targets_of htlc_targets) /\
  Forall (fun rec => typ rec < CustomTypeStart) (targets_of htlc_targets).
Proof. split; [reflexivity|]. split; [reflexivity|]. split; by repeat constructor. Qed.

(** The variable of a record of the head. *)
Lemma head_field key h custom rs' i tv :
  canonical (htlc_raws key h custom) -> fields_read (htlc_raws key h custom) (targets_of htlc_targets) rs' ->
  htlc_head_vals key h !! i = Some tv -> wf_val tv.2 -> field rs' tv.1 = tv.2.
Proof.
  intros [Hs _] Hf Hi Hwf. pose proof (sorted_NoDup _ Hs) as Hnd.
  assert (htlc_raws key h custom !! i = Some (tv.1, prim_bytes tv.2)) as Hraw.
  { unfold htlc_raws. apply lookup_app_l_Some. unfold prim_raws. by rewrite list_lookup_fmap, Hi. }
  assert (exists rec, targets_of htlc_targets !! i = Some rec /\ typ rec = tv.1 /\
    exists v0, same_kind tv.2 v0 /\ MakePrimitiveRecord tv.1 v0 = Ok rec) as (rec & Hrec & Ht & v0 & Hk & Hm).
  { do 9 (destruct i as [|i]; [injection Hi as <-; eexists; split; [reflexivity|]; split; [reflexivity|];
      first [exists (PUint64 0); (split; [done|reflexivity]) | exists (PUint32 0); (split; [done|reflexivity])
        | exists (PUint8 0); (split; [done|reflexivity])]|]). done. }
  eapply (field_at _ _ _ _ _ _ _ _ _ Hf Hnd Hrec Ht Hraw). by eapply prim_decodes.
Qed.

Lemma amp_data_at a key h custom i t b :
  htlc_AMP h = a -> amp_data_raws a !! i = Some (t, b) ->
  htlc_raws key h custom !! (9 + i)%nat = Some (t, b).
Proof.
  intros <- Hi. unfold htlc_raws. rewrite lookup_app_r by (simpl; lia).
  apply lookup_app_l_Some. simpl. by rewrite Nat.sub_0_r.
Qed.

Lemma amp_data_absent key h custom t :
  Forall (fun x => CustomTypeStart <= x.1) custom -> 18 <= t < CustomTypeStart ->
  Forall (fun x => x.1 <> t) (amp_data_raws (htlc_AMP h)) ->
  raw_map (htlc_raws key h custom) !! t = None.
Proof.
  intros Hlow Ht Ha. apply raw_absent. unfold htlc_raws. repeat rewrite Forall_app. split; [|split; [done|]].
  - unfold prim_raws, htlc_head_vals. cbn [fmap list_fmap].
    forall_list ltac:(cbn [fst];
      unfold chanIDType, htlcIDType, amtType, acceptHeightType, acceptTimeType,
      resolveTimeType, expiryHeightType, htlcStateType, mppTotalAmtType; lia).
  - eapply Forall_impl; [exact Hlow|]. simpl. lia.
Qed.

(** The AMP data of an HTLC. *)
Lemma amp_data_read key h custom rs' :
  canonical (htlc_raws key h custom) -> Forall (fun x => CustomTypeStart <= x.1) custom ->
  fields_read (htlc_raws key h custom) (targets_of htlc_targets) rs' -> wf_htlc h ->
  htlc_AMP (htlc_of_fields rs' (parsed (targets_of htlc_targets) (htlc_raws key h custom))).2 = htlc_AMP h.
Proof.
  intros [Hs _] Hlow Hf Hw. pose proof (sorted_NoDup _ Hs) as Hnd.
  unfold htlc_of_fields. cbn [snd htlc_AMP].
  pose proof (fun t => bool_decide_ext _ _ (parsed_is_Some (targets_of htlc_targets) (htlc_raws key h custom) t)) as Hp.
  rewrite !Hp.
  destruct (htlc_AMP h) as [a|] eqn:Ea.
  2: { rewrite (amp_data_absent key h custom htlcAMPType) by (done || by rewrite Ea). done. }
  destruct (wfh_amp h Hw a Ea) as (Hwa & Hha & Hpa).
  pose proof (amp_data_at _ key h custom 0 _ _ Ea eq_refl) as R0.
  pose proof (amp_data_at _ key h custom 1 _ _ Ea eq_refl) as R1.
  rewrite (raw_at _ _ _ _ Hnd R0), (raw_at _ _ _ _ Hnd R1), !bool_decide_true by done.
  rewrite (dynamic_field_ok rs' htlcAMPType AMPDecoder (AMPEncoder (amp_Record a)) (amp_Record a)).
  - unfold bytes_field at 1.
    rewrite (field_at _ _ _ _ 10 htlcHashType _ _ (PBytes32 (amp_Hash a)) Hf Hnd eq_refl eq_refl R1)
      by (by apply (prim_decodes htlcHashType (PBytes32 (amp_Hash a)) (PBytes32 zero32))).
    destruct (amp_Preimage a) as [p|] eqn:Ep.
    + assert (amp_data_raws (Some a) !! 2%nat = Some (htlcPreimageType, p)) as E2 by (simpl; by rewrite Ep).
      pose proof (amp_data_at _ key h custom 2 _ _ Ea E2) as R2.
      rewrite (raw_at _ _ _ _ Hnd R2), bool_decide_true by done. unfold bytes_field.
      rewrite (field_at _ _ _ _ 11 htlcPreimageType _ _ (PBytes32 p) Hf Hnd eq_refl eq_refl R2)
        by (apply (prim_decodes htlcPreimageType (PBytes32 p) (PBytes32 zero32)); [by apply Hpa|done..]).
      destruct a. simpl in *. by rewrite Ep.
    + rewrite (amp_data_absent key h custom htlcPreimageType); [|done|done|].
      * destruct a. simpl in *. by rewrite Ep.
      * rewrite Ea. simpl. rewrite Ep. by repeat constructor.
  - refine (field_at _ _ _ _ 9 htlcAMPType _ _ _ Hf Hnd eq_refl eq_refl R0 _).
    eapply dynamic_decodes. intros r. by apply AMPDecoder_Encoder.
  - intros r. by apply AMPDecoder_Encoder.
Qed.

Lemma htlc_read key h custom rs' :
  valid_key key -> wf_htlc h -> raw_map custom = htlc_CustomRecords h ->
  canonical (htlc_raws key h custom) -> Forall (fun x => CustomTypeStart <= x.1) custom ->
  fields_read (htlc_raws key h custom) (targets_of htlc_targets) rs' ->
  htlc_of_fields rs' (parsed (targets_of htlc_targets) (htlc_raws key h custom)) = (key, h).
Proof.
  intros Hk Hw Hm Hc Hlow Hf.
  pose proof (amp_data_read key h custom rs' Hc Hlow Hf Hw) as Ha.
  destruct htlc_targets_ok as (_ & _ & _ & Hts).
  pose proof (custom_records_read _ key h custom Hc Hm Hlow Hts) as Hcu.
  destruct Hk as [Hkc Hkh]. pose proof (ToUint64_range _ Hkc) as Hku.
  destruct Hw as [Hamt Htot Hh Hat Hrt He Hst _ _].
  destruct (getNanoTime_put (AcceptTime h)) as [Eta Hta]; [apply Hat|apply Hat|].
  destruct (getNanoTime_put (ResolveTime h)) as [Etr Htr]; [apply Hrt|apply Hrt|].
  assert (forall i t v, htlc_head_vals key h !! i = Some (t, v) -> wf_val v -> field rs' t = v) as Hfd.
  { intros i t v. apply (head_field key h custom rs' i (t, v) Hc Hf). }
  unfold htlc_of_fields in Ha |- *. cbn [snd htlc_AMP] in Ha. rewrite Ha, Hcu. unfold int_field.
  rewrite (Hfd 0%nat _ _ eq_refl), (Hfd 1%nat _ _ eq_refl), (Hfd 2%nat _ _ eq_refl), (Hfd 3%nat _ _ eq_refl),
    (Hfd 4%nat _ _ eq_refl), (Hfd 5%nat _ _ eq_refl), (Hfd 6%nat _ _ eq_refl), (Hfd 7%nat _ _ eq_refl),
    (Hfd 8%nat _ _ eq_refl) by done.
  rewrite NewShortChanIDFromInt_ToUint64, Eta, Etr by done. by destruct key, h.
Qed.


Lemma amp_data_elem key h custom t b :
  Forall (fun x => CustomTypeStart <= x.1) custom -> 18 <= t < CustomTypeStart ->
  raw_map (htlc_raws key h custom) !! t = Some b -> (t, b) ∈ amp_data_raws (htlc_AMP h).
Proof.
  intros Hlow Ht Hin. apply elem_of_list_to_map_2 in Hin.
  apply elem_of_app in Hin as [Hin|[Hin|Hin]%elem_of_app]; [|done|].
  - apply list_elem_of_fmap in Hin as (x & [= -> ->] & Hx).
    assert (Forall (fun tv => tv.1 < 18) (htlc_head_vals key h)) as Hl by by repeat constructor.
    rewrite Forall_forall in Hl. apply Hl in Hx. lia.
  - rewrite Forall_forall in Hlow. apply Hlow in Hin. simpl in Hin. lia.
Qed.

(** Every variable is read from its record or left alone. *)
Lemma htlc_readable key h custom :
  valid_key key -> wf_htlc h -> canonical (htlc_raws key h custom) ->
  Forall (fun x => CustomTypeStart <= x.1) custom ->
  Forall (readable (htlc_raws key h custom)) (targets_of htlc_targets).
Proof.
  intros [Hkc Hkh] Hw [Hs _] Hlow. pose proof (sorted_NoDup _ Hs) as Hnd.
  pose proof (ToUint64_range _ Hkc) as Hku. pose proof Hw as [Hamt Htot Hh Hat Hrt He Hst _ Ham].
  destruct (getNanoTime_put (AcceptTime h)) as [_ Hta]; [apply Hat|apply Hat|].
  destruct (getNanoTime_put (ResolveTime h)) as [_ Htr]; [apply Hrt|apply Hrt|].
  assert (forall i t v v0 rec, htlc_head_vals key h !! i = Some (t, v) -> wf_val v ->
    same_kind v v0 -> MakePrimitiveRecord t v0 = Ok rec -> typ rec = t ->
    readable (htlc_raws key h custom) rec) as Hhead.
  { intros i t v v0 rec Hi Hv Hkd Hm <-. eapply (readable_at _ i _ (prim_bytes v)); [done| |by eapply prim_decodes].
    unfold htlc_raws. apply lookup_app_l_Some. unfold prim_raws. by rewrite list_lookup_fmap, Hi. }
  assert (forall rec, 18 <= typ rec < CustomTypeStart ->
    (forall b, (typ rec, b) ∈ amp_data_raws (htlc_AMP h) -> exists v, decodes rec b v) ->
    readable (htlc_raws key h custom) rec) as Hamp.
  { intros rec Ht Hd. unfold readable. destruct (raw_map _ !! typ rec) as [b|] eqn:E; [|done].
    apply Hd. by eapply amp_data_elem. }
  assert (forall rec b, (typ rec, b) ∈ amp_data_raws (htlc_AMP h) ->
    exists a, wf_amp_data a /\ (typ rec, b) ∈ amp_data_raws (Some a)) as Hdata.
  { intros rec b Hin. destruct (htlc_AMP h) as [a|]; [|by apply elem_of_nil in Hin]. exists a. auto. }
  unfold targets_of. cbn [htlc_targets].
  apply List.Forall_cons; [by refine (Hhead 0%nat _ _ (PUint64 0) _ eq_refl _ _ eq_refl eq_refl)|].
  apply List.Forall_cons; [by refine (Hhead 1%nat _ _ (PUint64 0) _ eq_refl _ _ eq_refl eq_refl)|].
  apply List.Forall_cons; [by refine (Hhead 2%nat _ _ (PUint64 0) _ eq_refl _ _ eq_refl eq_refl)|].
  apply List.Forall_cons; [by refine (Hhead 3%nat _ _ (PUint32 0) _ eq_refl _ _ eq_refl eq_refl)|].
  apply List.Forall_cons; [by refine (Hhead 4%nat _ _ (PUint64 0) _ eq_refl _ _ eq_refl eq_refl)|].
  apply List.Forall_cons; [by refine (Hhead 5%nat _ _ (PUint64 0) _ eq_refl _ _ eq_refl eq_refl)|].
  apply List.Forall_cons; [by refine (Hhead 6%nat _ _ (PUint32 0) _ eq_refl _ _ eq_refl eq_refl)|].
  apply List.Forall_cons; [by refine (Hhead 7%nat _ _ (PUint8 0) _ eq_refl _ _ eq_refl eq_refl)|].
  apply List.Forall_cons; [by refine (Hhead 8%nat _ _ (PUint64 0) _ eq_refl _ _ eq_refl eq_refl)|].
  apply List.Forall_cons; [|apply List.Forall_cons; [|apply List.Forall_cons; [|constructor]]].
  - apply Hamp; [done|]. intros b Hin. apply Hdata in Hin as (a & (Hwa & _) & Hin).
    apply elem_of_cons in Hin as [[= ->]|[?|Hin]%elem_of_cons]; [|done|by destruct (amp_Preimage a); set_solver].
    eexists. eapply dynamic_decodes. intros r. by apply AMPDecoder_Encoder.
  - apply Hamp; [done|]. intros b Hin. apply Hdata in Hin as (a & (_ & Hha & _) & Hin).
    apply elem_of_cons in Hin as [?|[[= ->]|Hin]%elem_of_cons]; [done| |by destruct (amp_Preimage a); set_solver].
    exists (PBytes32 (amp_Hash a)). by apply (prim_decodes htlcHashType (PBytes32 (amp_Hash a)) (PBytes32 zero32)).
  - apply Hamp; [done|]. intros b Hin. apply Hdata in Hin as (a & (_ & _ & Hpa) & Hin).
    apply elem_of_cons in Hin as [?|[?|Hin]%elem_of_cons]; [done..|].
    destruct (amp_Preimage a) as [q|]; [|by apply elem_of_nil in Hin].
    apply list_elem_of_singleton in Hin as [= ->]. exists (PBytes32 q).
    apply (prim_decodes htlcPreimageType (PBytes32 q) (PBytes32 zero32)); [by apply Hpa|done..].
Qed.

(** The bytes of an HTLC: its length and its stream. *)
Lemma deserialize_htlc key h b fuel rest m :
  valid_key key -> wf_htlc h -> serializeHtlc key h = Ok b ->
  deserialize_htlcs (S fuel) (b ++ rest) m = deserialize_htlcs fuel rest (<[key := h]> m).
Proof.
  intros Hk Hw Hb. destruct (htlc_writes key h Hk Hw) as (recs & custom & Er & En & Es & Hc & Hm & Hlow).
  unfold serializeHtlc in Hb. rewrite Er in Hb. cbn [mbind res_bind] in Hb. rewrite En in Hb.
  cbn [mbind res_bind] in Hb. rewrite Es in Hb. cbn [mbind res_bind] in Hb. unfold length_prefixed in Hb.
  destruct (Z.leb_spec (2 ^ 63) (Z.of_nat (length (encode_raw (htlc_raws key h custom))))) as [|Hlt]; [done|].
  apply Ok_inj in Hb as <-. set (bs := encode_raw _) in *.
  pose proof (u64_range (Z.of_nat (length bs))) as Hu.
  cbn [deserialize_htlcs]. rewrite <- app_assoc, read_be_app by done.
  unfold limit_reader. rewrite i64_u64 by lia.
  rewrite Nat2Z.id, take_app_length, drop_app_length.
  destruct htlc_targets_ok as (Et & Ens & Hss & _). rewrite Et. cbn [mbind res_bind]. rewrite Ens.
  cbn [mbind res_bind].
  destruct (decode_into (targets_of htlc_targets) (htlc_raws key h custom) Hss Hc) as (rs' & Ed & Hf).
  { by apply htlc_readable. }
  unfold bs. rewrite Ed. cbn [mbind res_bind from_option]. unfold id. by rewrite (htlc_read key h custom rs') by done.
Qed.


Lemma serialize_htlcs_ok l : forall b rest m,
  Forall (fun x => valid_key x.1 /\ wf_htlc x.2) l -> serialize_htlcs l = Ok b ->
  forall fuel, (length l <= fuel)%nat ->
  deserialize_htlcs fuel (b ++ rest) m =
  deserialize_htlcs (fuel - length l) rest (foldl (fun m x => <[x.1 := x.2]> m) m l).
Proof.
  induction l as [|[key h] l IH]; intros b rest m Hwf Hb fuel Hfuel; cbn [serialize_htlcs] in Hb.
  - apply Ok_inj in Hb as <-. by rewrite Nat.sub_0_r.
  - apply Forall_cons in Hwf as [[Hk Hh] Hwf]. apply bind_ok in Hb as (b0 & E0 & Hb).
    apply bind_ok in Hb as (bs & Ebs & Hb). apply Ok_inj in Hb as <-.
    destruct fuel as [|fuel]; [simpl in Hfuel; lia|].
    rewrite <- app_assoc, (deserialize_htlc key h) by done.
    rewrite (IH bs) by (done || (simpl in Hfuel; lia)). done.
Qed.

Lemma serializeHtlc_length key h b : serializeHtlc key h = Ok b -> (0 < length b)%nat.
Proof.
  unfold serializeHtlc. intros (r & _ & Hb)%bind_ok. apply bind_ok in Hb as (s & _ & Hb).
  apply bind_ok in Hb as (x & _ & Hb). unfold length_prefixed in Hb.
  destruct (_ <=? _); [done|]. apply Ok_inj in Hb as <-. rewrite length_app, length_be_bytes. lia.
Qed.

Lemma serialize_htlcs_length l : forall b, serialize_htlcs l = Ok b -> (length l <= length b)%nat.
Proof.
  induction l as [|[key h] l IH]; intros b Hb; [simpl; lia|]. cbn [serialize_htlcs] in Hb.
  apply bind_ok in Hb as (b0 & E0 & Hb). apply bind_ok in Hb as (bs & Ebs & Hb). apply Ok_inj in Hb as <-.
  apply serializeHtlc_length in E0. apply IH in Ebs. rewrite length_app. simpl. lia.
Qed.

Lemma foldl_insert_NoDup {K} `{Countable K} {V} (l : list (K * V)) : forall m : gmap K V,
  NoDup l.*1 -> foldl (fun (m : gmap K V) x => <[x.1 := x.2]> m) m l = list_to_map l ∪ m.
Proof.
  induction l as [|[k v] l IH]; intros m Hnd; simpl; [by rewrite (left_id_L ∅ (∪))|].
  apply NoDup_cons in Hnd as [Hn Hnd]. rewrite IH by done. rewrite <- insert_union_l.
  rewrite insert_union_r; [done|]. by apply not_elem_of_list_to_map_1.
Qed.

Definition wf_htlcs (m : gmap CircuitKey InvoiceHTLC) : Prop :=
  map_Forall (fun key h => valid_key key /\ wf_htlc h) m.

(** The HTLCs of a set are read back, whatever order the map was visited in. *)
Lemma htlcs_roundtrip m b :
  wf_htlcs m -> serializeHtlcs m = Ok b -> deserializeHtlcs b = Ok m.
Proof.
  intros Hw Hb. unfold serializeHtlcs, deserializeHtlcs in *.
  pose proof (serialize_htlcs_length _ _ Hb) as Hl.
  rewrite <- (app_nil_r b) at 2. rewrite (serialize_htlcs_ok (range m) b [] ∅); [|..|lia].
  - rewrite foldl_insert_NoDup, range_to_map, (right_id_L ∅ (∪)) by apply range_NoDup.
    destruct (S (length b) - length (range m))%nat eqn:E; [lia|]. done.
  - apply Forall_forall. intros [k h]. rewrite range_entries, elem_of_map_to_list. apply Hw.
  - done.
Qed.
End HtlcCodec.

(** ** Invoices *)

Section InvoiceRoundtrip.
Context `{Secp256k1} `{GoRange} `{TimeZone} `{WireVarInt}.

Record wf_invoice (i : Invoice) : Prop := {
  wfi_memo : Z.of_nat (length (Memo i)) <= MaxRecordSize;
  wfi_request : Z.of_nat (length (inv_PaymentRequest i)) <= MaxRecordSize;
  wfi_created : wf_time (CreationDate i);
  wfi_settled : wf_time (SettleDate i);
  wfi_add : is_u64 (AddIndex i);
  wfi_settle : is_u64 (SettleIndex i);
  wfi_preimage : forall p, PaymentPreimage (Terms i) = Some p -> length p = 32%nat;
  wfi_value : is_u64 (term_Value (Terms i));
  wfi_delta : - 2 ^ 31 <= FinalCltvDelta (Terms i) < 2 ^ 31;
  wfi_expiry : - 2 ^ 63 <= term_Expiry (Terms i) < 2 ^ 63;
  wfi_addr : length (PaymentAddr (Terms i)) = 32%nat;
  wfi_features : exists fv, term_Features (Terms i) = Some fv /\ set_Forall is_u16 fv;
  wfi_state : is_u8 (inv_State i);
  wfi_paid : is_u64 (inv_AmtPaid i);
  wfi_amp : wf_amp_states (AMPState i);
  wfi_htlcs : wf_htlcs (Htlcs i);
}.

Definition invoice_vals (i : Invoice) (preimage featureBytes : list byte) : list (Z * tlv_val) :=
  [(memoType, PVarBytes (Memo i)); (payReqType, PVarBytes (inv_PaymentRequest i));
   (createTimeType, PVarBytes (MarshalBinary (CreationDate i)));
   (settleTimeType, PVarBytes (MarshalBinary (SettleDate i)));
   (addIndexType, PUint64 (AddIndex i)); (settleIndexType, PUint64 (SettleIndex i));
   (preimageType, PBytes32 preimage); (valueType, PUint64 (term_Value (Terms i)));
   (cltvDeltaType, PUint32 (u32 (FinalCltvDelta (Terms i))));
   (expiryType, PUint64 (u64 (term_Expiry (Terms i))));
   (paymentAddrType, PBytes32 (PaymentAddr (Terms i)));
   (featuresType, PVarBytes featureBytes);
   (invStateType, PUint8 (inv_State i)); (amtPaidType, PUint64 (inv_AmtPaid i));
   (hodlInvoiceType, PUint8 (if HodlInvoice i then 1 else 0))].

Definition invoice_raws (i : Invoice) (preimage featureBytes : list byte) : list raw :=
  prim_raws (invoice_vals i preimage featureBytes).

Definition preimage_of (i : Invoice) : list byte := default unknownPreimage (PaymentPreimage (Terms i)).

Lemma length_preimage_of i : wf_invoice i -> length (preimage_of i) = 32%nat.
Proof.
  intros Hw. unfold preimage_of. destruct (PaymentPreimage (Terms i)) as [p|] eqn:E; [|done].
  by apply (wfi_preimage i Hw).
Qed.

Lemma features_bytes fv :
  set_Forall is_u16 fv -> exists fb, EncodeBase256 fv = Ok fb /\ Z.of_nat (length fb) <= MaxRecordSize /\
    DecodeBase256 ∅ fb (Z.of_nat (length fb)) = Ok (fv, []).
Proof.
  intros Hfv. destruct (vector_roundtrip 8 ltac:(lia) fv [] Hfv) as (b & E & L & D).
  exists b. split; [done|]. rewrite app_nil_r in D. rewrite L. split; [|done].
  pose proof (serializeSize_u16 fv Hfv) as [_ Hs]. unfold SerializeSize, MaxRecordSize in *. lia.
Qed.

Lemma primitives_write l : forall recs,
  Forall (fun tv => wf_val tv.2) l -> primitives l = Ok recs -> Forall2 writes recs (prim_raws l).
Proof.
  unfold primitives. induction l as [|[t v] l IH]; intros recs Hl Hr; [injection Hr as <-; constructor|].
  apply Forall_cons in Hl as [Hv Hl]. cbn [mapM] in Hr. apply bind_ok in Hr as (r & Er & Hr).
  apply bind_ok in Hr as (rs & Ers & Hr). apply Ok_inj in Hr as <-.
  constructor; [by apply prim_writes|by apply IH].
Qed.

Lemma invoice_vals_wf i fb :
  wf_invoice i -> Z.of_nat (length fb) <= MaxRecordSize ->
  Forall (fun tv => wf_val tv.2 /\ Z.of_nat (length (prim_bytes tv.2)) <= MaxRecordSize)
    (invoice_vals i (preimage_of i) fb).
Proof.
  intros Hw Hfb. pose proof (length_preimage_of i Hw) as Hp. destruct Hw. unfold MaxRecordSize in *.
  unfold invoice_vals.
  forall_list ltac:(cbn [snd wf_val prim_bytes];
    rewrite ?length_MarshalBinary, ?length_be_bytes, ?Hp, ?wfi_addr0; split;
    [first [done | apply u64_range | (apply Z.mod_pos_bound; lia) | unfold is_u64; lia | by destruct (HodlInvoice i)]|lia]).
Qed.

Lemma invoice_raws_canonical i fb :
  wf_invoice i -> Z.of_nat (length fb) <= MaxRecordSize ->
  canonical (invoice_raws i (preimage_of i) fb) /\
  Forall (fun x => x.1 < invoiceAmpStateType) (invoice_raws i (preimage_of i) fb).
Proof.
  intros Hw Hfb. split; [split|]; [by repeat constructor| |by repeat constructor].
  pose proof (invoice_vals_wf i fb Hw Hfb) as Hv.
  assert (Forall (fun tv => is_u64 tv.1) (invoice_vals i (preimage_of i) fb)) as Ht
    by (repeat (constructor; [done|]); constructor).
  unfold invoice_raws, prim_raws. apply Forall_fmap.
  rewrite Forall_forall in Ht, Hv |- *. intros [t v] Hin. split; [by apply (Ht (t, v))|by apply (Hv (t, v))].
Qed.

(** What an invoice is written as. *)
Lemma invoice_writes i fb a :
  wf_invoice i -> Z.of_nat (length fb) <= MaxRecordSize -> ampStateEncoder (AMPState i) = Ok a ->
  exists recs b, invoice_records i (preimage_of i) fb a = Ok recs /\ NewStream recs = Ok recs /\
    StreamEncode recs = Ok b /\ (length a <= length b)%nat /\
    (is_u64 (Z.of_nat (length a)) ->
     b = encode_raw (invoice_raws i (preimage_of i) fb ++ [(invoiceAmpStateType, a)])).
Proof.
  intros Hw Hfb Ea. pose proof (invoice_vals_wf i fb Hw Hfb) as Hv.
  destruct (invoice_raws_canonical i fb Hw Hfb) as [[Hs Hb] Hlt].
  assert (exists recs, invoice_records i (preimage_of i) fb a = Ok recs /\ NewStream recs = Ok recs /\
    (exists b, StreamEncode recs = Ok b) /\
    dynamic_source invoiceAmpStateType a (recordSize (AMPState i)) ∈ recs /\
    (recordSize (AMPState i) = Z.of_nat (length a) ->
     Forall2 writes recs (invoice_raws i (preimage_of i) fb ++ [(invoiceAmpStateType, a)])))
    as (recs & Er & En & [b Eb] & Hin & Hwr).
  { eexists. split; [reflexivity|]. split; [reflexivity|]. split; [by eexists|].
    split; [by apply (list_elem_of_lookup_2 _ 15)|]. intros Hsz.
    apply Forall2_app; [|by repeat constructor].
    apply (primitives_write (invoice_vals i (preimage_of i) fb)); [|reflexivity].
    eapply Forall_impl; [exact Hv|]. by intros ? [? _]. }
  exists recs, b. split_and!; [done..|by eapply StreamEncode_le|].
  intros Hu. specialize (Hwr (recordSize_ok _ _ Ea Hu)).
  assert (StronglySorted Z.lt (invoice_raws i (preimage_of i) fb ++ [(invoiceAmpStateType, a)]).*1 /\
    Forall is_u64 (invoice_raws i (preimage_of i) fb ++ [(invoiceAmpStateType, a)]).*1) as [Hs' Hu'].
  { rewrite fmap_app. split.
    - apply (sorted_app _ _ invoiceAmpStateType); [done|by repeat constructor|by apply Forall_fmap|by repeat constructor].
    - apply Forall_app. split; [|by repeat constructor]. apply Forall_fmap.
      eapply Forall_impl; [exact Hb|]. by intros [t x] [? _]. }
  destruct (stream_encodes _ _ Hwr Hs' Hu') as [_ E]. congruence.
Qed.

Lemma reads_all_app raws1 raws2 rs1 rs2 vals1 vals2 :
  reads_all raws1 rs1 vals1 -> reads_all raws2 rs2 vals2 ->
  reads_all (raws1 ++ raws2) (rs1 ++ rs2) (vals1 ++ vals2).
Proof.
  intros (F1 & L1 & M1) (F2 & L2 & M2). unfold reads_all. rewrite !length_app, L1, L2, M1, M2.
  split; [|done]. rewrite zip_with_app by congruence. by apply Forall2_app.
Qed.

(** Variables of the right kinds read primitive records. *)
Lemma primitives_read l : forall tvs recs,
  Forall (fun tv => wf_val tv.2) l -> Forall2 (fun x y => x.1 = y.1 /\ same_kind x.2 y.2) l tvs ->
  primitives tvs = Ok recs -> reads_all (prim_raws l) recs l.*2.
Proof.
  unfold primitives. induction l as [|[t v] l IH]; intros tvs recs Hl Hk Hr.
  - apply Forall2_nil_inv_l in Hk as ->. injection Hr as <-. repeat split. constructor.
  - apply Forall_cons in Hl as [Hv Hl]. apply Forall2_cons_inv_l in Hk as ([t' v0] & tvs' & [Ht Hkd] & Hk & ->).
    simpl in Ht. subst t'. cbn [mapM] in Hr. apply bind_ok in Hr as (r & Er & Hr).
    apply bind_ok in Hr as (rs & Ers & Hr). apply Ok_inj in Hr as <-.
    destruct (IH tvs' rs Hl Hk Ers) as (F & L & M).
    assert (typ r = t) as Ht by (destruct v0; try done; by injection Er as <-).
    split; [|split; cbn [length fmap list_fmap prim_raws]; f_equal; assumption]. simpl. constructor; [|done]. split; [done|].
    by apply (prim_decodes t v v0).
Qed.

Definition invoice_vars : list (Z * tlv_val) :=
    [(memoType, PVarBytes []); (payReqType, PVarBytes []); (createTimeType, PVarBytes []);
     (settleTimeType, PVarBytes []); (addIndexType, PUint64 0); (settleIndexType, PUint64 0);
     (preimageType, PBytes32 zero32); (valueType, PUint64 0); (cltvDeltaType, PUint32 0);
     (expiryType, PUint64 0); (paymentAddrType, PBytes32 zero32); (featuresType, PVarBytes []);
     (invStateType, PUint8 0); (amtPaidType, PUint64 0); (hodlInvoiceType, PUint8 0)].

Lemma invoice_targets_ok :
  invoice_targets = Ok (targets_of invoice_targets) /\
  NewStream (targets_of invoice_targets) = Ok (targets_of invoice_targets) /\
  sorted_records (targets_of invoice_targets) /\
  targets_of invoice_targets =
    targets_of (primitives invoice_vars) ++ [dynamic_target invoiceAmpStateType ampStateDecoder].
Proof. split; [reflexivity|]. split; [reflexivity|]. split; [by repeat constructor|reflexivity]. Qed.

Lemma invoice_vars_read i fb :
  wf_invoice i -> Z.of_nat (length fb) <= MaxRecordSize ->
  reads_all (invoice_raws i (preimage_of i) fb) (targets_of (primitives invoice_vars))
    (invoice_vals i (preimage_of i) fb).*2.
Proof.
  intros Hw Hfb. apply (primitives_read _ invoice_vars); [|by repeat constructor|reflexivity].
  eapply Forall_impl; [by apply invoice_vals_wf|]. by intros ? [? _].
Qed.

Lemma encode_raw_app l1 l2 : encode_raw (l1 ++ l2) = encode_raw l1 ++ encode_raw l2.
Proof. induction l1 as [|[t b] l1 IH]; [done|]. cbn [app encode_raw]. by rewrite IH, !app_assoc. Qed.

(** The body of an invoice whose sub-invoices do not fit a record. *)
Lemma invoice_body_too_large i fb a :
  wf_invoice i -> Z.of_nat (length fb) <= MaxRecordSize -> is_u64 (Z.of_nat (length a)) ->
  MaxRecordSize < Z.of_nat (length a) ->
  Decode (targets_of invoice_targets)
    (encode_raw (invoice_raws i (preimage_of i) fb ++ [(invoiceAmpStateType, a)])) =
  Err ErrRecordTooLarge.
Proof.
  intros Hw Hfb Hu Ha. destruct invoice_targets_ok as (_ & _ & Hs & Ht).
  destruct (invoice_raws_canonical i fb Hw Hfb) as [Hc Hlt].
  rewrite Decode_fst, encode_raw_app. cbn [encode_raw]. rewrite app_nil_r.
  rewrite decode_too_large; try done.
  rewrite Ht. apply Forall_app. split.
  - eapply reads_all_readable; [by apply sorted_NoDup, Hc|by apply invoice_vars_read].
  - constructor; [|done]. unfold readable. rewrite raw_absent; [done|].
    eapply Forall_impl; [exact Hlt|]. simpl. lia.
Qed.

Lemma invoice_body_read i fb a :
  wf_invoice i -> Z.of_nat (length fb) <= MaxRecordSize -> ampStateEncoder (AMPState i) = Ok a ->
  Z.of_nat (length a) <= MaxRecordSize ->
  exists rs', Decode (targets_of invoice_targets)
    (encode_raw (invoice_raws i (preimage_of i) fb ++ [(invoiceAmpStateType, a)])) = Ok rs' /\
    (forall j t v, invoice_vals i (preimage_of i) fb !! j = Some (t, v) -> field rs' t = v) /\
    dynamic_field rs' invoiceAmpStateType ampStateDecoder = Some (AMPState i).
Proof.
  intros Hw Hfb Ea Ha. destruct invoice_targets_ok as (_ & _ & Hs & Ht).
  destruct (invoice_raws_canonical i fb Hw Hfb) as [[Hcs Hcb] Hlt].
  pose proof (amp_state_roundtrip _ _ (wfi_amp i Hw) Ea Ha) as Hamp.
  set (raws := invoice_raws i (preimage_of i) fb ++ [(invoiceAmpStateType, a)]).
  assert (canonical raws) as Hc.
  { split; [|apply Forall_app; split; [done|by repeat constructor]]. unfold raws. rewrite fmap_app.
    apply (sorted_app _ _ invoiceAmpStateType); [done|by repeat constructor|by apply Forall_fmap|by repeat constructor]. }
  pose proof (sorted_NoDup _ (proj1 Hc)) as Hnd.
  assert (reads_all raws (targets_of invoice_targets)
    ((invoice_vals i (preimage_of i) fb).*2 ++ [PVarBytes a])) as Hall.
  { rewrite Ht. apply reads_all_app; [by apply invoice_vars_read|]. split; [|done].
    constructor; [|constructor]. split; [done|]. by eapply dynamic_decodes. }
  destruct (decode_into _ raws Hs Hc (reads_all_readable _ _ _ Hnd Hall)) as (rs' & Ed & Hf).
  exists rs'. rewrite Decode_fst, Ed. split; [done|].
  pose proof (fun j t b v => fields_read_all raws _ rs' _ j t b v Hf Hnd Hall) as Hfd. split.
  - intros j t v Hj. apply (Hfd j t (prim_bytes v)).
    + unfold raws. apply lookup_app_l_Some. unfold invoice_raws, prim_raws. by rewrite list_lookup_fmap, Hj.
    + apply lookup_app_l_Some. by rewrite list_lookup_fmap, Hj.
  - apply (dynamic_field_ok rs' _ _ a); [|intros r; apply Hamp].
    by apply (Hfd 15%nat invoiceAmpStateType a).
Qed.

(** An AMP invoice is stored without its HTLCs. *)
Definition as_stored (i : Invoice) : Invoice :=
  if is_amp_invoice i then
    {| Memo := Memo i; inv_PaymentRequest := inv_PaymentRequest i; CreationDate := CreationDate i;
       SettleDate := SettleDate i; Terms := Terms i; AddIndex := AddIndex i;
       SettleIndex := SettleIndex i; inv_State := inv_State i; inv_AmtPaid := inv_AmtPaid i;
       Htlcs := ∅; AMPState := AMPState i; HodlInvoice := HodlInvoice i |}
  else i.

(** The bytes behind the body of an invoice. *)
Definition stored_htlcs (i : Invoice) : res (list byte) :=
  if is_amp_invoice i then Ok [] else serializeHtlcs (Htlcs i).

Lemma stored_htlcs_read i b :
  wf_invoice i -> stored_htlcs i = Ok b -> deserializeHtlcs b = Ok (Htlcs (as_stored i)).
Proof.
  intros Hw Hb. unfold stored_htlcs, as_stored in *. destruct (is_amp_invoice i).
  - apply Ok_inj in Hb as <-. done.
  - by apply htlcs_roundtrip; [apply wfi_htlcs|].
Qed.

(** Invoices far below the 2^63 bytes a buffer can hold. *)
Definition bounded_invoice (i : Invoice) : Prop :=
  (forall a, ampStateEncoder (AMPState i) = Ok a -> Z.of_nat (length a) < 2 ^ 62) /\
  map_Forall (fun _ h => Z.of_nat (size (htlc_CustomRecords h)) < 2 ^ 40) (Htlcs i).

Lemma encode_raw_bound raws :
  canonical raws -> Z.of_nat (length (encode_raw raws)) <= Z.of_nat (length raws) * 2 ^ 17.
Proof.
  intros [_ Hb]. induction Hb as [|[t b] raws [_ Hl] _ IH]; [done|]. cbn [encode_raw length].
  rewrite !length_app. pose proof (WriteVarInt_short t). pose proof (WriteVarInt_short (Z.of_nat (length b))).
  unfold MaxRecordSize, raw in *. lia.
Qed.

Lemma serializeHtlc_total key h :
  valid_key key -> wf_htlc h -> Z.of_nat (size (htlc_CustomRecords h)) < 2 ^ 40 ->
  exists b, serializeHtlc key h = Ok b.
Proof.
  intros Hk Hw Hsz. destruct (htlc_writes key h Hk Hw) as (recs & custom & Er & En & Es & Hc & Hm & _).
  unfold serializeHtlc. rewrite Er. cbn [mbind res_bind]. rewrite En. cbn [mbind res_bind]. rewrite Es.
  cbn [mbind res_bind]. unfold length_prefixed. pose proof (encode_raw_bound _ Hc) as Hb.
  assert (length (htlc_raws key h custom) <= 12 + size (htlc_CustomRecords h))%nat as Hl.
  { unfold htlc_raws. rewrite !length_app, <- Hm. unfold raw_map.
    assert (size (list_to_map custom : gmap Z (list byte)) = length custom) as ->.
    { rewrite <- length_map_to_list, map_to_list_to_map; [done|].
      destruct Hc as [Hs _]. apply sorted_NoDup in Hs. unfold htlc_raws in Hs. rewrite !fmap_app in Hs.
      apply NoDup_app in Hs as (_ & _ & Hs). by apply NoDup_app in Hs as (_ & _ & Hs). }
    destruct (htlc_AMP h) as [[? ? [?|]]|]; simpl; lia. }
  unfold raw in *. rewrite (proj2 (Z.leb_gt _ _)) by lia. by eexists.
Qed.

Lemma stored_htlcs_total i : wf_invoice i -> bounded_invoice i -> exists b, stored_htlcs i = Ok b.
Proof.
  intros Hw [_ Hb]. unfold stored_htlcs, serializeHtlcs. destruct (is_amp_invoice i); [by eexists|].
  assert (Forall (fun x => exists b, serializeHtlc x.1 x.2 = Ok b) (range (Htlcs i))) as Hf.
  { apply Forall_forall. intros [k h]. rewrite range_entries, elem_of_map_to_list. intros Hin.
    destruct (wfi_htlcs i Hw k h Hin) as [Hk Hh]. apply serializeHtlc_total; [done..|]. exact (Hb k h Hin). }
  induction Hf as [|[k h] l [b Eb] _ [bs IH]]; [by eexists|]. cbn [serialize_htlcs].
  simpl in Eb. rewrite Eb. cbn [mbind res_bind]. rewrite IH. cbn [mbind res_bind]. by eexists.
Qed.

(** An invoice is written as the length of its body, the body and the HTLCs. *)
Lemma serializeInvoice_ok i :
  wf_invoice i -> bounded_invoice i -> PaymentPreimage (Terms i) <> Some unknownPreimage ->
  exists fv fb a hb, term_Features (Terms i) = Some fv /\ Z.of_nat (length fb) <= MaxRecordSize /\
    DecodeBase256 ∅ fb (Z.of_nat (length fb)) = Ok (fv, []) /\
    ampStateEncoder (AMPState i) = Ok a /\ stored_htlcs i = Ok hb /\
    let body := encode_raw (invoice_raws i (preimage_of i) fb ++ [(invoiceAmpStateType, a)]) in
    Z.of_nat (length a) < 2 ^ 62 /\ Z.of_nat (length body) < 2 ^ 63 /\
    serializeInvoice i = Ok (be_bytes 8 (u64 (Z.of_nat (length body))) ++ body ++ hb).
Proof.
  intros Hw Hbd Hpre. destruct (wfi_features i Hw) as (fv & Efv & Hfv).
  destruct (features_bytes fv Hfv) as (fb & Efb & Hfb & Dfb).
  destruct (ampStateEncoder_total _ (wfi_amp i Hw)) as [a Ea].
  destruct (stored_htlcs_total i Hw Hbd) as [hb Ehb]. pose proof (proj1 Hbd a Ea) as Hla.
  exists fv, fb, a, hb. split_and!; [done..|]. cbv zeta.
  destruct (invoice_writes i fb a Hw Hfb Ea) as (recs & bs & Er & En & Es & _ & Hbs).
  assert (is_u64 (Z.of_nat (length a))) as Hu by (unfold is_u64; lia). specialize (Hbs Hu).
  assert (Z.of_nat (length bs) < 2 ^ 63) as Hlt.
  { rewrite Hbs, encode_raw_app, length_app. cbn [encode_raw]. rewrite !length_app.
    destruct (invoice_raws_canonical i fb Hw Hfb) as [Hc _].
    pose proof (encode_raw_bound _ Hc) as Hb.
    change (length (invoice_raws i (preimage_of i) fb)) with 15%nat in Hb.
    pose proof (WriteVarInt_short invoiceAmpStateType). pose proof (WriteVarInt_short (Z.of_nat (length a))).
    cbn [length]. unfold raw in *. lia. }
  split; [done|]. rewrite <- Hbs. split; [done|].
  unfold serializeInvoice. rewrite Efv, Efb. cbn [mbind res_bind].
  assert ((match PaymentPreimage (Terms i) with
     | None => Ok unknownPreimage
     | Some p => if bool_decide (p = unknownPreimage) then Err errZeroPreimage else Ok p
     end) = Ok (preimage_of i)) as ->.
  { unfold preimage_of. destruct (PaymentPreimage (Terms i)) as [p|]; [|done].
    rewrite bool_decide_false; [done|congruence]. }
  cbn [mbind res_bind]. rewrite Ea. cbn [mbind res_bind]. rewrite Er. cbn [mbind res_bind]. rewrite En.
  cbn [mbind res_bind]. rewrite Es. cbn [mbind res_bind]. unfold length_prefixed.
  rewrite (proj2 (Z.leb_gt _ _)) by done. cbn [mbind res_bind]. unfold stored_htlcs in Ehb.
  destruct (is_amp_invoice i); [apply Ok_inj in Ehb as <-; by rewrite app_nil_r|].
  rewrite Ehb. cbn [mbind res_bind]. by rewrite <- app_assoc.
Qed.

(** Reading the bytes of an invoice. *)
Lemma invoice_read i fv fb a hb :
  wf_invoice i -> PaymentPreimage (Terms i) <> Some unknownPreimage ->
  term_Features (Terms i) = Some fv -> Z.of_nat (length fb) <= MaxRecordSize ->
  DecodeBase256 ∅ fb (Z.of_nat (length fb)) = Ok (fv, []) ->
  ampStateEncoder (AMPState i) = Ok a -> stored_htlcs i = Ok hb ->
  let body := encode_raw (invoice_raws i (preimage_of i) fb ++ [(invoiceAmpStateType, a)]) in
  Z.of_nat (length a) < 2 ^ 63 -> Z.of_nat (length body) < 2 ^ 63 ->
  deserializeInvoice (be_bytes 8 (u64 (Z.of_nat (length body))) ++ body ++ hb) =
    if Z.of_nat (length a) <=? MaxRecordSize then Ok (as_stored i) else Err ErrRecordTooLarge.
Proof.
  intros Hw Hpre Efv Hfb Dfb Ea Ehb body Hla Hlb. destruct invoice_targets_ok as (Et & Ens & _ & _).
  unfold deserializeInvoice. rewrite Et. cbn [mbind res_bind]. rewrite Ens. cbn [mbind res_bind].
  rewrite read_be_app by apply u64_range. cbn [mbind res_bind]. unfold limit_reader.
  rewrite i64_u64, Nat2Z.id, take_app_length, drop_app_length by lia.
  destruct (Z.leb_spec (Z.of_nat (length a)) MaxRecordSize) as [Ha|Ha].
  2:{ unfold body. rewrite invoice_body_too_large by (done || (unfold is_u64; lia)). done. }
  destruct (invoice_body_read i fb a Hw Hfb Ea Ha) as (rs' & Ed & Hfd & Hamp).
  unfold body. rewrite Ed. cbn [mbind res_bind]. unfold bytes_field, int_field.
  rewrite (Hfd 2%nat _ _ eq_refl), (Hfd 3%nat _ _ eq_refl), (Hfd 11%nat _ _ eq_refl).
  rewrite !UnmarshalBinary_Marshal by apply Hw. cbn [mbind res_bind]. rewrite Dfb. cbn [mbind res_bind].
  rewrite (stored_htlcs_read i hb Hw Ehb). cbn [mbind res_bind].
  rewrite (Hfd 0%nat _ _ eq_refl), (Hfd 1%nat _ _ eq_refl), (Hfd 4%nat _ _ eq_refl), (Hfd 5%nat _ _ eq_refl),
    (Hfd 6%nat _ _ eq_refl), (Hfd 7%nat _ _ eq_refl), (Hfd 8%nat _ _ eq_refl), (Hfd 9%nat _ _ eq_refl),
    (Hfd 10%nat _ _ eq_refl), (Hfd 12%nat _ _ eq_refl), (Hfd 13%nat _ _ eq_refl), (Hfd 14%nat _ _ eq_refl), Hamp.
  rewrite i32_u32, i64_u64 by apply Hw. cbn [from_option]. unfold id, as_stored, preimage_of.
  assert (HodlInvoice i = negb ((if HodlInvoice i then 1 else 0) =? 0)) as Hh by (by destruct (HodlInvoice i)).
  assert ((if bool_decide (default unknownPreimage (PaymentPreimage (Terms i)) = unknownPreimage)
           then None else Some (default unknownPreimage (PaymentPreimage (Terms i)))) =
          PaymentPreimage (Terms i)) as Hp.
  { destruct (PaymentPreimage (Terms i)) as [p|]; simpl; [|done].
    rewrite bool_decide_false; [done|congruence]. }
  rewrite Hp, <- Hh, <- Efv. clear. destruct i as [? ? ? ? [] ? ? ? ? ? ? ?]. simpl. by destruct (is_amp_invoice _).
Qed.

(** The bytes of an invoice that was written. *)
Lemma serializeInvoice_inv i b :
  wf_invoice i -> serializeInvoice i = Ok b ->
  exists fv fb a hb, PaymentPreimage (Terms i) <> Some unknownPreimage /\
    term_Features (Terms i) = Some fv /\ Z.of_nat (length fb) <= MaxRecordSize /\
    DecodeBase256 ∅ fb (Z.of_nat (length fb)) = Ok (fv, []) /\
    ampStateEncoder (AMPState i) = Ok a /\ stored_htlcs i = Ok hb /\
    let body := encode_raw (invoice_raws i (preimage_of i) fb ++ [(invoiceAmpStateType, a)]) in
    Z.of_nat (length a) < 2 ^ 63 /\ Z.of_nat (length body) < 2 ^ 63 /\
    b = be_bytes 8 (u64 (Z.of_nat (length body))) ++ body ++ hb.
Proof.
  intros Hw Hb. destruct (wfi_features i Hw) as (fv & Efv & Hfv).
  destruct (features_bytes fv Hfv) as (fb & Efb & Hfb & Dfb).
  destruct (ampStateEncoder_total _ (wfi_amp i Hw)) as [a Ea].
  unfold serializeInvoice in Hb. rewrite Efv in Hb. rewrite Efb in Hb. cbn [mbind res_bind] in Hb.
  assert (PaymentPreimage (Terms i) <> Some unknownPreimage /\
    (match PaymentPreimage (Terms i) with
     | None => Ok unknownPreimage
     | Some p => if bool_decide (p = unknownPreimage) then Err errZeroPreimage else Ok p
     end) = Ok (preimage_of i)) as [Hpre Epre].
  { unfold preimage_of. destruct (PaymentPreimage (Terms i)) as [p|]; [|done].
    destruct (bool_decide_reflect (p = unknownPreimage)); [done|]. split; [congruence|done]. }
  rewrite Epre in Hb. cbn [mbind res_bind] in Hb. rewrite Ea in Hb. cbn [mbind res_bind] in Hb.
  destruct (invoice_writes i fb a Hw Hfb Ea) as (recs & bs & Er & En & Es & Hle & Hbs).
  rewrite Er in Hb. cbn [mbind res_bind] in Hb. rewrite En in Hb. cbn [mbind res_bind] in Hb.
  rewrite Es in Hb. cbn [mbind res_bind] in Hb. unfold length_prefixed in Hb.
  destruct (Z.leb_spec (2 ^ 63) (Z.of_nat (length bs))) as [|Hlt]; [done|]. cbn [mbind res_bind] in Hb.
  assert (exists hb, stored_htlcs i = Ok hb /\ b = be_bytes 8 (u64 (Z.of_nat (length bs))) ++ bs ++ hb)
    as (hb & Ehb & ->).
  { unfold stored_htlcs. destruct (is_amp_invoice i).
    - apply Ok_inj in Hb as <-. exists []. by rewrite app_nil_r.
    - apply bind_ok in Hb as (hb & Ehb & Hb). apply Ok_inj in Hb as <-. exists hb. by rewrite <- app_assoc. }
  exists fv, fb, a, hb. cbv zeta. rewrite <- Hbs by (unfold is_u64; lia). split_and!; try done. lia.
Qed.

(** An invoice that was written is read as it was, or not at all. *)
Lemma written_invoice_read i b i' :
  wf_invoice i -> serializeInvoice i = Ok b -> deserializeInvoice b = Ok i' -> i' = as_stored i.
Proof.
  intros Hw Hb Hd. destruct (serializeInvoice_inv i b Hw Hb)
    as (fv & fb & a & hb & Hpre & Efv & Hfb & Dfb & Ea & Ehb & Hla & Hlb & ->).
  rewrite (invoice_read i fv fb a hb) in Hd by done.
  destruct (_ <=? _); [by apply Ok_inj in Hd|done].
Qed.

(** C36. An invoice whose preimage is not all zeroes is written, and read back as it was, an
    AMP invoice without the HTLCs, which are stored apart, as long as the state of its
    sub-invoices fits a TLV record of 65535 bytes; beyond that writing still succeeds, and
    reading fails. *)
Theorem invoice_roundtrip (i : Invoice) :
  wf_invoice i -> bounded_invoice i -> PaymentPreimage (Terms i) <> Some unknownPreimage ->
  exists a b, ampStateEncoder (AMPState i) = Ok a /\ serializeInvoice i = Ok b /\
    deserializeInvoice b =
      if Z.of_nat (length a) <=? MaxRecordSize then Ok (as_stored i) else Err ErrRecordTooLarge.
Proof.
  intros Hw Hbd Hpre. destruct (serializeInvoice_ok i Hw Hbd Hpre)
    as (fv & fb & a & hb & Efv & Hfb & Dfb & Ea & Ehb & Hla & Hlb & Es).
  exists a. eexists. split; [done|]. split; [exact Es|]. apply (invoice_read i fv); try done. lia.
Qed.
End InvoiceRoundtrip.

(** ** An instance *)

#[refine, local] Instance entries_range : GoRange := {| range K _ _ V m := map_to_list m |}.
Proof. intros. done. Defined.

#[refine, local] Instance utc : TimeZone := {| offsetMin _ := -1 |}.
Proof. intros. lia. Defined.

#[refine, local] Instance wire_size : WireVarInt :=
  {| VarIntSerializeSize v := Z.of_nat (length (WriteVarInt v)) |}.
Proof. intros. done. Defined.

Definition ex_key : CircuitKey :=
  {| ChanID := {| BlockHeight := 700000; TxIndex := 3; TxPosition := 1 |}; HtlcID := 4 |}.

Definition ex_htlc : InvoiceHTLC :=
  {| htlc_Amt := 40; MppTotalAmt := 100; AcceptHeight := 700001;
     AcceptTime := UnixNano 1600000000000000000; ResolveTime := ZeroTime; htlc_Expiry := 700040;
     htlc_State := HtlcStateAccepted; htlc_CustomRecords := {[ 70000 := [x01; x02] ]};
     htlc_AMP := None |}.

Definition ex_invoice : Invoice :=
  {| Memo := [x61]; inv_PaymentRequest := [x62; x63]; CreationDate := UnixNano 1500000000000000007;
     SettleDate := ZeroTime;
     Terms := {| FinalCltvDelta := 40; term_Expiry := 3600000000000;
                 PaymentPreimage := Some (replicate 32 x07); term_Value := 100;
                 PaymentAddr := replicate 32 x08;
                 term_Features := Some (NewRawFeatureVector [14; 17]) |};
     AddIndex := 5; SettleIndex := 0; inv_State := ContractOpen; inv_AmtPaid := 0;
     Htlcs := {[ ex_key := ex_htlc ]}; AMPState := ∅; HodlInvoice := false |}.

Lemma ex_invoice_wf : wf_invoice ex_invoice.
Proof.
  split; try done.
  - by intros p [= <-].
  - exists (NewRawFeatureVector [14; 17]). split; [done|]. apply (bool_decide_unpack _). by vm_compute.
  - unfold wf_htlcs, ex_invoice. cbn [Htlcs]. apply map_Forall_singleton. split; [done|].
    split; try done. by apply map_Forall_singleton.
Qed.

Lemma invoice_roundtrip_witness :
  exists a b, ampStateEncoder (AMPState ex_invoice) = Ok a /\ serializeInvoice ex_invoice = Ok b /\
    deserializeInvoice b =
      if Z.of_nat (length a) <=? MaxRecordSize then Ok (as_stored ex_invoice) else Err ErrRecordTooLarge.
Proof.
  apply (@invoice_roundtrip toy_secp256k1 entries_range utc wire_size ex_invoice ex_invoice_wf).
  - split; [intros a [= <-]; vm_compute; reflexivity|]. unfold ex_invoice. cbn [Htlcs].
    apply map_Forall_singleton. vm_compute. reflexivity.
  - discriminate.
Defined.
