(* ===== verification/Invoices.v ===== *)
(** * The database of invoices

    [channeldb/invoices.go]: adding, looking up, listing, updating and deleting invoices.

    The invoice bucket holds an invoice under its number and the HTLCs of an AMP set under
    the number followed by the set ID; the two kinds of keys are two maps here, and a
    fixed-width big-endian key or value is the integer it encodes.  The indexes inside the
    bucket are created on first use; the other buckets always exist.  A set of HTLCs that
    cannot be read is a nil map in the code and an empty one here.  The sets
    an update rewrites are maps of pointers to the HTLCs of the invoice: a set is the keys
    of its HTLCs, which are read when the set is written.  A function that runs in a
    transaction returns the new database, or an error that discards its writes. *)

From S2P Require Import Prelude Sha256 Ids Tlv Features PaymentCodec Amp Payments InvoiceCodec.

Definition ErrInvoiceNotFound : error := Error "ErrInvoiceNotFound".
Definition ErrNoInvoicesCreated : error := Error "ErrNoInvoicesCreated".
Definition ErrDuplicateInvoice : error := Error "ErrDuplicateInvoice".
Definition ErrDuplicatePayAddr : error := Error "ErrDuplicatePayAddr".
Definition ErrInvRefEquivocation : error := Error "ErrInvRefEquivocation".
Definition ErrInvoiceAlreadySettled : error := Error "ErrInvoiceAlreadySettled".
Definition ErrInvoiceAlreadyCanceled : error := Error "ErrInvoiceAlreadyCanceled".
Definition ErrInvoiceAlreadyAccepted : error := Error "ErrInvoiceAlreadyAccepted".
Definition ErrInvoiceStillOpen : error := Error "ErrInvoiceStillOpen".
Definition ErrInvoiceCannotOpen : error := Error "ErrInvoiceCannotOpen".
Definition ErrInvoiceCannotAccept : error := Error "ErrInvoiceCannotAccept".
Definition ErrInvoicePreimageMismatch : error := Error "ErrInvoicePreimageMismatch".
Definition ErrHTLCPreimageMissing : error := Error "ErrHTLCPreimageMissing".
Definition ErrHTLCPreimageMismatch : error := Error "ErrHTLCPreimageMismatch".
Definition ErrHTLCAlreadySettled : error := Error "ErrHTLCAlreadySettled".
Definition ErrInvoiceHasHtlcs : error := Error "ErrInvoiceHasHtlcs".
Definition ErrEmptyHTLCSet : error := Error "ErrEmptyHTLCSet".
Definition ErrUnexpectedInvoicePreimage : error := Error "ErrUnexpectedInvoicePreimage".
Definition ErrHTLCPreimageAlreadyExists : error := Error "ErrHTLCPreimageAlreadyExists".
Definition ErrDuplicateSetID : error := Error "ErrDuplicateSetID".
Definition errZeroHash : error := Error "cannot use hash of all-zeroes preimage".
Definition errMemoSize : error := Error "max length a memo".
Definition errRequestSize : error := Error "max length of payment request".
Definition errNoFeatures : error := Error "invoice must have a feature vector".
Definition errNoPreimage : error := Error "non-hodl invoices must have a preimage".
Definition errDuplicateHtlc : error := Error "duplicate add of htlc".
Definition errNilCustomRecords : error := Error "nil custom records map".
Definition errAddedCanceled : error := Error "added htlc canceled".
Definition errCancelMissing : error := Error "cancel action on non-existent htlc(s)".
Definition errCancelNotOpen : error := Error "htlc canceled on invoice in state".
Definition errCancelNotAccepted : error := Error "htlc canceled in state".
Definition errSetPreimage : error := Error "AMP set cannot have preimage".
Definition errUnknownPreimage : error := Error "unknown preimage".
Definition errUnknownTransition : error := Error "unknown state transition".
Definition errUnknownAdd : error := Error "unknown invoice in add index".
Definition errUnknownSettle : error := Error "unknown invoice in settle index".

Definition MaxMemoSize : Z := 1024.
Definition MaxPaymentRequestSize : Z := 4096.
Definition BlankPayAddr : list byte := replicate 32 x00.

(** ** References *)

Inductive RefModifier := DefaultModifier | HtlcSetOnlyModifier | HtlcSetBlankModifier.

#[export] Instance RefModifier_eq_dec : EqDecision RefModifier.
Proof. solve_decision. Defined.

Record InvoiceRef := {
  ref_payHash : option (list byte);
  ref_payAddr : option (list byte);
  ref_setID : option (list byte);
  refModifier : RefModifier;
}.

Definition InvoiceRefByHash (payHash : list byte) : InvoiceRef :=
  {| ref_payHash := Some payHash; ref_payAddr := None; ref_setID := None; refModifier := DefaultModifier |}.

Definition InvoiceRefByHashAndAddr (payHash payAddr : list byte) : InvoiceRef :=
  {| ref_payHash := Some payHash; ref_payAddr := Some payAddr; ref_setID := None;
     refModifier := DefaultModifier |}.

Definition InvoiceRefByAddr (addr : list byte) : InvoiceRef :=
  {| ref_payHash := None; ref_payAddr := Some addr; ref_setID := None; refModifier := DefaultModifier |}.

Definition InvoiceRefByAddrBlankHtlc (addr : list byte) : InvoiceRef :=
  {| ref_payHash := None; ref_payAddr := Some addr; ref_setID := None;
     refModifier := HtlcSetBlankModifier |}.

Definition InvoiceRefBySetID (setID : list byte) : InvoiceRef :=
  {| ref_payHash := None; ref_payAddr := None; ref_setID := Some setID; refModifier := DefaultModifier |}.

Definition InvoiceRefBySetIDFiltered (setID : list byte) : InvoiceRef :=
  {| ref_payHash := None; ref_payAddr := None; ref_setID := Some setID;
     refModifier := HtlcSetOnlyModifier |}.

(** ** Sets of HTLCs *)

Definition IsInHTLCSet (h : InvoiceHTLC) (setID : option (list byte)) : bool :=
  match setID, htlc_AMP h with
  | None, None => true
  | Some id, Some a => bool_decide (id = PaymentCodec.setID (amp_Record a))
  | _, _ => false
  end.

Definition HTLCSet (i : Invoice) (setID : option (list byte)) (state : Z)
    : gmap CircuitKey InvoiceHTLC :=
  base.filter (fun kh => htlc_State kh.2 = state /\ IsInHTLCSet kh.2 setID = true) (Htlcs i).

Definition HTLCSetCompliment (i : Invoice) (setID : option (list byte)) (state : Z)
    : gmap CircuitKey InvoiceHTLC :=
  base.filter (fun kh => htlc_State kh.2 = state /\ IsInHTLCSet kh.2 setID = false) (Htlcs i).

Definition IsPending (i : Invoice) : bool :=
  (inv_State i =? ContractOpen) || (inv_State i =? ContractAccepted).

(** ** Updates *)

Record HtlcAcceptDesc := {
  desc_AcceptHeight : Z;
  desc_Amt : Z;
  desc_MppTotalAmt : Z;
  desc_Expiry : Z;
  desc_CustomRecords : option (gmap Z (list byte));
  desc_AMP : option InvoiceHtlcAMPData;
}.

Record InvoiceStateUpdateDesc := {
  NewState : Z;
  upd_Preimage : option (list byte);
  HTLCPreimages : gmap CircuitKey (list byte);
  upd_SetID : option (list byte);
}.

Record InvoiceUpdateDesc := {
  desc_State : option InvoiceStateUpdateDesc;
  CancelHtlcs : gset CircuitKey;
  AddHtlcs : gmap CircuitKey HtlcAcceptDesc;
  desc_SetID : option (list byte);
}.

(** *** Fields of an invoice and of an HTLC that change *)

Definition with_htlcs (i : Invoice) (m : gmap CircuitKey InvoiceHTLC) : Invoice :=
  {| Memo := Memo i; inv_PaymentRequest := inv_PaymentRequest i; CreationDate := CreationDate i;
     SettleDate := SettleDate i; Terms := Terms i; AddIndex := AddIndex i;
     SettleIndex := SettleIndex i; inv_State := inv_State i; inv_AmtPaid := inv_AmtPaid i;
     Htlcs := m; AMPState := AMPState i; HodlInvoice := HodlInvoice i |}.

Definition with_amp (i : Invoice) (s : AMPInvoiceState) : Invoice :=
  {| Memo := Memo i; inv_PaymentRequest := inv_PaymentRequest i; CreationDate := CreationDate i;
     SettleDate := SettleDate i; Terms := Terms i; AddIndex := AddIndex i;
     SettleIndex := SettleIndex i; inv_State := inv_State i; inv_AmtPaid := inv_AmtPaid i;
     Htlcs := Htlcs i; AMPState := s; HodlInvoice := HodlInvoice i |}.

Definition with_state (i : Invoice) (s : Z) : Invoice :=
  {| Memo := Memo i; inv_PaymentRequest := inv_PaymentRequest i; CreationDate := CreationDate i;
     SettleDate := SettleDate i; Terms := Terms i; AddIndex := AddIndex i;
     SettleIndex := SettleIndex i; inv_State := s; inv_AmtPaid := inv_AmtPaid i;
     Htlcs := Htlcs i; AMPState := AMPState i; HodlInvoice := HodlInvoice i |}.

Definition with_paid (i : Invoice) (a : Z) : Invoice :=
  {| Memo := Memo i; inv_PaymentRequest := inv_PaymentRequest i; CreationDate := CreationDate i;
     SettleDate := SettleDate i; Terms := Terms i; AddIndex := AddIndex i;
     SettleIndex := SettleIndex i; inv_State := inv_State i; inv_AmtPaid := a;
     Htlcs := Htlcs i; AMPState := AMPState i; HodlInvoice := HodlInvoice i |}.

Definition with_settle (i : Invoice) (date : Time) (index : Z) : Invoice :=
  {| Memo := Memo i; inv_PaymentRequest := inv_PaymentRequest i; CreationDate := CreationDate i;
     SettleDate := date; Terms := Terms i; AddIndex := AddIndex i;
     SettleIndex := index; inv_State := inv_State i; inv_AmtPaid := inv_AmtPaid i;
     Htlcs := Htlcs i; AMPState := AMPState i; HodlInvoice := HodlInvoice i |}.

Definition with_add_index (i : Invoice) (index : Z) : Invoice :=
  {| Memo := Memo i; inv_PaymentRequest := inv_PaymentRequest i; CreationDate := CreationDate i;
     SettleDate := SettleDate i; Terms := Terms i; AddIndex := index;
     SettleIndex := SettleIndex i; inv_State := inv_State i; inv_AmtPaid := inv_AmtPaid i;
     Htlcs := Htlcs i; AMPState := AMPState i; HodlInvoice := HodlInvoice i |}.

Definition with_preimage (i : Invoice) (p : option (list byte)) : Invoice :=
  {| Memo := Memo i; inv_PaymentRequest := inv_PaymentRequest i; CreationDate := CreationDate i;
     SettleDate := SettleDate i;
     Terms := {| FinalCltvDelta := FinalCltvDelta (Terms i); term_Expiry := term_Expiry (Terms i);
                 PaymentPreimage := p; term_Value := term_Value (Terms i);
                 PaymentAddr := PaymentAddr (Terms i); term_Features := term_Features (Terms i) |};
     AddIndex := AddIndex i; SettleIndex := SettleIndex i; inv_State := inv_State i;
     inv_AmtPaid := inv_AmtPaid i; Htlcs := Htlcs i; AMPState := AMPState i;
     HodlInvoice := HodlInvoice i |}.

Definition resolve_htlc (h : InvoiceHTLC) (state : Z) (t : Time) : InvoiceHTLC :=
  {| htlc_Amt := htlc_Amt h; MppTotalAmt := MppTotalAmt h; AcceptHeight := AcceptHeight h;
     AcceptTime := AcceptTime h; ResolveTime := t; htlc_Expiry := htlc_Expiry h;
     htlc_State := state; htlc_CustomRecords := htlc_CustomRecords h; htlc_AMP := htlc_AMP h |}.

Definition with_amp_preimage (h : InvoiceHTLC) (p : list byte) : InvoiceHTLC :=
  {| htlc_Amt := htlc_Amt h; MppTotalAmt := MppTotalAmt h; AcceptHeight := AcceptHeight h;
     AcceptTime := AcceptTime h; ResolveTime := ResolveTime h; htlc_Expiry := htlc_Expiry h;
     htlc_State := htlc_State h; htlc_CustomRecords := htlc_CustomRecords h;
     htlc_AMP := (fun a => {| amp_Record := amp_Record a; amp_Hash := amp_Hash a;
                              amp_Preimage := Some p |}) <$> htlc_AMP h |}.

(** ** The database *)

Record invoice_index := { num_invoices : option Z; pay_hashes : gmap (list byte) Z }.
Record add_index := { add_sequence : Z; add_entries : gmap Z Z }.
Record settle_index := { settle_sequence : Z; settle_entries : gmap Z (Z * option (list byte)) }.

Record invoices_db := {
  invoice_bytes : gmap Z (list byte);
  set_bytes : gmap (Z * list byte) (list byte);
  invoiceIndex : option invoice_index;
  addIndex : option add_index;
  settleIndex : option settle_index;
  payAddrIndex : gmap (list byte) Z;
  setIDIndex : gmap (list byte) Z;
}.

Definition empty_db : invoices_db :=
  {| invoice_bytes := ∅; set_bytes := ∅; invoiceIndex := None; addIndex := None;
     settleIndex := None; payAddrIndex := ∅; setIDIndex := ∅ |}.

Section Invoices.
Context `{Hasher} `{Secp256k1} `{GoRange} `{TimeZone} `{WireVarInt}.

(** ** Reading *)

Definition fetchFilteredAmpInvoices (db : invoices_db) (invoiceNum : Z) (setIDs : list (list byte))
    : gmap CircuitKey InvoiceHTLC * res unit :=
  foldl (fun '(htlcs, r) id =>
    match r with
    | Ok _ =>
        match set_bytes db !! (invoiceNum, id) with
        | None => (htlcs, Err ErrInvoiceNotFound)
        | Some b =>
            match deserializeHtlcs b with
            | Ok htlcsBySetID => (htlcsBySetID ∪ htlcs, Ok tt)
            | Err e => (∅, Err e)
            | Panic => (∅, Panic)
            end
        end
    | _ => (htlcs, r)
    end) (∅, Ok tt) setIDs.

(** The sets of an invoice, in the order of their IDs. *)
Definition set_entries (db : invoices_db) (invoiceNum : Z) : list (list byte * list byte) :=
  merge_sort hash_le
    (omap (fun '((num, id), b) => if num =? invoiceNum then Some (id, b) else None)
       (map_to_list (set_bytes db))).

Definition forEachAMPInvoice {B} (db : invoices_db) (invoiceNum : Z)
    (callback : list byte * list byte -> B -> res B) (b : B) : res B :=
  for_each callback (set_entries db invoiceNum) b.

Definition fetchAmpSubInvoices (db : invoices_db) (invoiceNum : Z) (id : option (list byte))
    : gmap CircuitKey InvoiceHTLC * res unit :=
  match id with
  | Some id => fetchFilteredAmpInvoices db invoiceNum [id]
  | None =>
      match forEachAMPInvoice db invoiceNum
        (fun kv htlcs => htlcsBySetID ← deserializeHtlcs kv.2; Ok (htlcsBySetID ∪ htlcs)) ∅ with
      | Ok htlcs => (htlcs, Ok tt)
      | Err e => (∅, Err e)
      | Panic => (∅, Panic)
      end
  end.

(** A set that is not stored yet, or cannot be read, is no error. *)
Definition fetchInvoice (db : invoices_db) (invoiceNum : Z) (id : option (list byte)) : res Invoice :=
  match invoice_bytes db !! invoiceNum with
  | None => Err ErrInvoiceNotFound
  | Some b =>
      invoice ← deserializeInvoice b;
      if negb (is_amp_invoice invoice) then Ok invoice
      else if negb (bool_decide (Htlcs invoice = ∅)) then Ok invoice
      else if bool_decide (id = Some BlankPayAddr) then Ok invoice
      else
        let '(htlcs, r) := fetchAmpSubInvoices db invoiceNum id in
        match r with Panic => Panic | _ => Ok (with_htlcs invoice htlcs) end
  end.

Definition fetchInvoiceStateAMP (db : invoices_db) (invoiceNum : Z) : res AMPInvoiceState :=
  match invoice_bytes db !! invoiceNum with
  | None => Err ErrInvoiceNotFound
  | Some b =>
      '(bodyLen, r) ← read_be 8 b;
      tlvStream ← NewStream [dynamic_target invoiceAmpStateType ampStateDecoder];
      let '(invoiceReader, _) := limit_reader r (i64 bodyLen) in
      recs ← Decode tlvStream invoiceReader;
      Ok (default ∅ (dynamic_field recs invoiceAmpStateType ampStateDecoder))
  end.

Definition fetchInvoiceNumByRef (db : invoices_db) (index : invoice_index) (ref : InvoiceRef) : res Z :=
  match ref_setID ref with
  | Some id =>
      match setIDIndex db !! id with
      | None => Err ErrInvoiceNotFound
      | Some invoiceNumBySetID => Ok invoiceNumBySetID
      end
  | None =>
      let invoiceNumByHash := payHash ← ref_payHash ref; pay_hashes index !! payHash in
      let invoiceNumByAddr :=
        payAddr ← ref_payAddr ref;
        if bool_decide (payAddr = BlankPayAddr) then None else payAddrIndex db !! payAddr in
      match invoiceNumByAddr, invoiceNumByHash with
      | Some a, Some h => if a =? h then Ok a else Err ErrInvRefEquivocation
      | Some a, None =>
          match ref_payHash ref with None => Ok a | Some _ => Err ErrInvoiceNotFound end
      | None, Some h => Ok h
      | None, None => Err ErrInvoiceNotFound
      end
  end.

Definition ref_set_id (ref : InvoiceRef) : option (list byte) :=
  if bool_decide (is_Some (ref_payAddr ref)) && bool_decide (refModifier ref = HtlcSetBlankModifier)
  then Some BlankPayAddr
  else if bool_decide (refModifier ref = HtlcSetOnlyModifier) then ref_setID ref
  else None.

Definition LookupInvoice (db : invoices_db) (ref : InvoiceRef) : res Invoice :=
  match invoiceIndex db with
  | None => Err ErrNoInvoicesCreated
  | Some index =>
      invoiceNum ← fetchInvoiceNumByRef db index ref;
      fetchInvoice db invoiceNum (ref_set_id ref)
  end.

Definition ScanInvoices {B} (db : invoices_db) (scanFunc : list byte * Invoice -> B -> res B) (b : B)
    : res B :=
  match invoiceIndex db with
  | None => Ok b
  | Some index =>
      for_each (fun kv b =>
        invoice ← fetchInvoice db kv.2 None; scanFunc (kv.1, invoice) b)
        (hash_entries (pay_hashes index)) b
  end.

(** The entries a cursor visits from the one behind the position of [since]. *)
Definition entries_after {V} (m : gmap Z V) (since : Z) : list (Z * V) :=
  let l := bucket_entries m in
  match Seek l since with
  | None => []
  | Some pos => drop (S pos) l
  end.

Fixpoint take_above {V} (l : list (Z * V)) (since : Z) : list (Z * V) :=
  match l with
  | [] => []
  | (k, v) :: rest => if since <? k then (k, v) :: take_above rest since else []
  end.

Definition InvoicesAddedSince (db : invoices_db) (sinceAddIndex : Z) : res (list Invoice) :=
  if sinceAddIndex =? 0 then Ok []
  else
    match addIndex db with
    | None => Ok []
    | Some ix =>
        for_each (fun kv newInvoices =>
          invoice ← fetchInvoice db kv.2 None; Ok (newInvoices ++ [invoice]))
          (take_above (entries_after (add_entries ix) sinceAddIndex) sinceAddIndex) []
    end.

Definition InvoicesSettledSince (db : invoices_db) (sinceSettleIndex : Z) : res (list Invoice) :=
  if sinceSettleIndex =? 0 then Ok []
  else
    match settleIndex db with
    | None => Ok []
    | Some ix =>
        for_each (fun kv settledInvoices =>
          invoice ← fetchInvoice db kv.2.1 kv.2.2; Ok (settledInvoices ++ [invoice]))
          (take_above (entries_after (settle_entries ix) sinceSettleIndex) sinceSettleIndex) []
    end.

Record InvoiceQuery := {
  q_IndexOffset : Z;
  NumMaxInvoices : Z;
  PendingOnly : bool;
  q_Reversed : bool;
}.

Record InvoiceSlice := {
  slice_Invoices : list Invoice;
  slice_FirstIndexOffset : Z;
  slice_LastIndexOffset : Z;
}.

Definition accumulateInvoices (db : invoices_db) (pendingOnly : bool) (_ : Z) (invoiceNum : Z)
    (l : list Invoice) : res (list Invoice * bool) :=
  invoice ← fetchInvoice db invoiceNum None;
  if pendingOnly && negb (IsPending invoice) then Ok (l, false) else Ok (l ++ [invoice], true).

Definition QueryInvoices (db : invoices_db) (q : InvoiceQuery) : res InvoiceSlice :=
  l ← (match addIndex db with
       | None => Ok []
       | Some ix =>
           l ← query (bucket_entries (add_entries ix))
                 {| reversed := q_Reversed q; indexOffset := q_IndexOffset q;
                    totalItems := NumMaxInvoices q |}
                 (accumulateInvoices db (PendingOnly q)) [];
           Ok (if q_Reversed q then reverse l else l)
       end);
  Ok {| slice_Invoices := l;
        slice_FirstIndexOffset := match head l with Some i => AddIndex i | None => 0 end;
        slice_LastIndexOffset := match last l with Some i => AddIndex i | None => 0 end |}.

(** ** Adding *)

Definition validateInvoice (i : Invoice) (paymentHash : list byte) : res unit :=
  if bool_decide (paymentHash = digest unknownPreimage) then Err errZeroHash
  else if MaxMemoSize <? Z.of_nat (length (Memo i)) then Err errMemoSize
  else if MaxPaymentRequestSize <? Z.of_nat (length (inv_PaymentRequest i)) then Err errRequestSize
  else
    match term_Features (Terms i) with
    | None => Err errNoFeatures
    | Some fv =>
        _ ← ValidateDeps fv;
        if bool_decide (PaymentPreimage (Terms i) = None) && negb (HodlInvoice i || is_amp_invoice i)
        then Err errNoPreimage
        else if negb (bool_decide (Htlcs i = ∅)) then Err ErrInvoiceHasHtlcs
        else Ok tt
    end.

(** [NextSequence] of a bucket. *)
Definition NextSequence (seq : Z) : Z := u64 (seq + 1).

Definition putInvoice (db : invoices_db) (index : invoice_index) (ix : add_index) (i : Invoice)
    (invoiceNum : Z) (paymentHash : list byte) : res (invoices_db * Invoice) :=
  let nextAddSeqNo := NextSequence (add_sequence ix) in
  let i := with_add_index i nextAddSeqNo in
  b ← serializeInvoice i;
  Ok ({| invoice_bytes := <[invoiceNum := b]> (invoice_bytes db);
         set_bytes := set_bytes db;
         invoiceIndex := Some {| num_invoices := Some (u32 (invoiceNum + 1));
                                 pay_hashes := <[paymentHash := invoiceNum]> (pay_hashes index) |};
         addIndex := Some {| add_sequence := nextAddSeqNo;
                             add_entries := <[nextAddSeqNo := invoiceNum]> (add_entries ix) |};
         settleIndex := settleIndex db;
         payAddrIndex :=
           if bool_decide (PaymentAddr (Terms i) = BlankPayAddr) then payAddrIndex db
           else <[PaymentAddr (Terms i) := invoiceNum]> (payAddrIndex db);
         setIDIndex := setIDIndex db |}, i).

Definition empty_invoice_index : invoice_index := {| num_invoices := None; pay_hashes := ∅ |}.
Definition empty_add_index : add_index := {| add_sequence := 0; add_entries := ∅ |}.
Definition empty_settle_index : settle_index := {| settle_sequence := 0; settle_entries := ∅ |}.

(** Returns the invoice with its add index, which the code writes into its argument. *)
Definition AddInvoice (db : invoices_db) (newInvoice : Invoice) (paymentHash : list byte)
    : res (invoices_db * Invoice) :=
  _ ← validateInvoice newInvoice paymentHash;
  let index := default empty_invoice_index (invoiceIndex db) in
  let ix := default empty_add_index (addIndex db) in
  if bool_decide (is_Some (pay_hashes index !! paymentHash)) then Err ErrDuplicateInvoice
  else
    let addr := PaymentAddr (Terms newInvoice) in
    if negb (bool_decide (addr = BlankPayAddr)) && bool_decide (is_Some (payAddrIndex db !! addr))
    then Err ErrDuplicatePayAddr
    else putInvoice db index ix newInvoice (default 0 (num_invoices index)) paymentHash.

(** ** Updating *)

Definition copyInvoice (src : Invoice) : Invoice := with_amp src ∅.

Definition set_settle_index (db : invoices_db) (ix : settle_index) : invoices_db :=
  {| invoice_bytes := invoice_bytes db; set_bytes := set_bytes db; invoiceIndex := invoiceIndex db;
     addIndex := addIndex db; settleIndex := Some ix; payAddrIndex := payAddrIndex db;
     setIDIndex := setIDIndex db |}.

Definition set_setid_index (db : invoices_db) (m : gmap (list byte) Z) : invoices_db :=
  {| invoice_bytes := invoice_bytes db; set_bytes := set_bytes db; invoiceIndex := invoiceIndex db;
     addIndex := addIndex db; settleIndex := settleIndex db; payAddrIndex := payAddrIndex db;
     setIDIndex := m |}.

Definition put_invoice_bytes (db : invoices_db) (invoiceNum : Z) (b : list byte) : invoices_db :=
  {| invoice_bytes := <[invoiceNum := b]> (invoice_bytes db); set_bytes := set_bytes db;
     invoiceIndex := invoiceIndex db; addIndex := addIndex db; settleIndex := settleIndex db;
     payAddrIndex := payAddrIndex db; setIDIndex := setIDIndex db |}.

Definition put_set_bytes (db : invoices_db) (invoiceNum : Z) (id b : list byte) : invoices_db :=
  {| invoice_bytes := invoice_bytes db; set_bytes := <[(invoiceNum, id) := b]> (set_bytes db);
     invoiceIndex := invoiceIndex db; addIndex := addIndex db; settleIndex := settleIndex db;
     payAddrIndex := payAddrIndex db; setIDIndex := setIDIndex db |}.

(** What an update works on: the invoice, the sets to be written and the database. *)
Notation update_map := (gmap (list byte) (gset CircuitKey)).

Record update_state := {
  us_invoice : Invoice;
  us_sets : update_map;
  us_db : invoices_db;
}.

Definition updateHtlcsAmp (invoice : Invoice) (updateMap : update_map) (htlc : InvoiceHTLC)
    (id : list byte) (circuitKey : CircuitKey) : Invoice * update_map :=
  let ampState := default {| amp_State := HtlcStateAccepted; amp_SettleIndex := 0;
                             amp_SettleDate := ZeroTime; InvoiceKeys := ∅; amp_AmtPaid := 0 |}
                    (AMPState invoice !! id) in
  let ampState := {| amp_State := amp_State ampState; amp_SettleIndex := amp_SettleIndex ampState;
                     amp_SettleDate := amp_SettleDate ampState;
                     InvoiceKeys := {[ circuitKey ]} ∪ InvoiceKeys ampState;
                     amp_AmtPaid := u64 (amp_AmtPaid ampState + htlc_Amt htlc) |} in
  let invoice := with_amp invoice (<[id := ampState]> (AMPState invoice)) in
  let keys := default (dom (HTLCSet invoice (Some id) HtlcStateAccepted)) (updateMap !! id) in
  (invoice, <[id := {[ circuitKey ]} ∪ keys]> updateMap).

(** The sub-invoice must be known: a missing one has no map of keys to write to. *)
Definition cancelHtlcsAmp (invoice : Invoice) (updateMap : update_map) (htlc : InvoiceHTLC)
    (circuitKey : CircuitKey) : res (Invoice * update_map) :=
  match htlc_AMP htlc with
  | None => Panic
  | Some a =>
      let id := PaymentCodec.setID (amp_Record a) in
      match AMPState invoice !! id with
      | None => Panic
      | Some ampState =>
          let ampState := {| amp_State := HtlcStateCanceled;
                             amp_SettleIndex := amp_SettleIndex ampState;
                             amp_SettleDate := amp_SettleDate ampState;
                             InvoiceKeys := {[ circuitKey ]} ∪ InvoiceKeys ampState;
                             amp_AmtPaid := u64 (amp_AmtPaid ampState - htlc_Amt htlc) |} in
          let invoice := with_amp invoice (<[id := ampState]> (AMPState invoice)) in
          let keys := default (dom (HTLCSet invoice (Some id) HtlcStateAccepted) ∪
                               dom (HTLCSet invoice (Some id) HtlcStateCanceled)) (updateMap !! id) in
          let invoice := if inv_AmtPaid invoice =? 0 then invoice
                         else with_paid invoice (u64 (inv_AmtPaid invoice - htlc_Amt htlc)) in
          Ok (invoice, <[id := {[ circuitKey ]} ∪ keys]> updateMap)
      end
  end.

Definition settleHtlcsAmp (invoice : Invoice) (settledSetIDs : gset (list byte))
    (updateMap : update_map) (htlc : InvoiceHTLC) (circuitKey : CircuitKey)
    : res (Invoice * gset (list byte) * update_map) :=
  match htlc_AMP htlc with
  | None => Panic
  | Some a =>
      let id := PaymentCodec.setID (amp_Record a) in
      match AMPState invoice !! id with
      | None => Panic
      | Some ampState =>
          let ampState := {| amp_State := HtlcStateSettled;
                             amp_SettleIndex := amp_SettleIndex ampState;
                             amp_SettleDate := amp_SettleDate ampState;
                             InvoiceKeys := {[ circuitKey ]} ∪ InvoiceKeys ampState;
                             amp_AmtPaid := amp_AmtPaid ampState |} in
          let invoice := with_amp invoice (<[id := ampState]> (AMPState invoice)) in
          let keys := default ∅ (updateMap !! id) in
          Ok (invoice, {[ id ]} ∪ settledSetIDs, <[id := {[ circuitKey ]} ∪ keys]> updateMap)
      end
  end.

Definition updateInvoiceState (invoice : Invoice) (hash : option (list byte))
    (update : InvoiceStateUpdateDesc) : res (Invoice * Z) :=
  if NewState update =? ContractOpen then Err ErrInvoiceCannotOpen
  else
    let open_ :=
      if NewState update =? ContractCanceled then Ok (invoice, NewState update)
      else if bool_decide (HTLCSet invoice (upd_SetID update) HtlcStateAccepted = ∅)
      then Err ErrEmptyHTLCSet
      else
        match upd_SetID update, upd_Preimage update, hash with
        | Some _, Some _, _ => Err errSetPreimage
        | Some _, None, _ => Ok (invoice, NewState update)
        | None, Some _, None => Err ErrUnexpectedInvoicePreimage
        | None, Some p, Some h =>
            if bool_decide (digest p = h) then Ok (with_preimage invoice (Some p), NewState update)
            else Err ErrInvoicePreimageMismatch
        | None, None, _ =>
            if NewState update =? ContractAccepted then Ok (invoice, NewState update)
            else if (NewState update =? ContractSettled) &&
                    bool_decide (PaymentPreimage (Terms invoice) = None)
            then Err errUnknownPreimage
            else Ok (invoice, NewState update)
        end in
    if inv_State invoice =? ContractAccepted then
      if NewState update =? ContractAccepted then Err ErrInvoiceCannotAccept else open_
    else if inv_State invoice =? ContractOpen then open_
    else if inv_State invoice =? ContractSettled then Err ErrInvoiceAlreadySettled
    else if inv_State invoice =? ContractCanceled then Err ErrInvoiceAlreadyCanceled
    else Err errUnknownTransition.

Definition cancelSingleHtlc (resolveTime : Time) (htlc : InvoiceHTLC) (invState : Z) : res InvoiceHTLC :=
  if negb (invState =? ContractOpen) then Err errCancelNotOpen
  else if negb (htlc_State htlc =? HtlcStateAccepted) then Err errCancelNotAccepted
  else Ok (resolve_htlc htlc HtlcStateCanceled resolveTime).

Definition trySettle (resolveTime : Time) (htlc : InvoiceHTLC) (id : option (list byte)) (persist : bool)
    : res (InvoiceHTLC * bool) :=
  if negb (htlc_State htlc =? HtlcStateAccepted) then Ok (htlc, false)
  else if negb (IsInHTLCSet htlc id) then Ok (htlc, false)
  else
    _ ← (match id, htlc_AMP htlc with
         | Some _, Some a =>
             match amp_Preimage a with
             | None => Err ErrHTLCPreimageMissing
             | Some p => if bool_decide (digest p = amp_Hash a) then Ok tt else Err ErrHTLCPreimageMismatch
             end
         | _, _ => Ok tt
         end);
    if persist then Ok (resolve_htlc htlc HtlcStateSettled resolveTime, true) else Ok (htlc, false).

Definition updateHtlc (resolveTime : Time) (htlc : InvoiceHTLC) (invState : Z) (id : option (list byte))
    : res (InvoiceHTLC * bool) :=
  if invState =? ContractSettled then trySettle resolveTime htlc id true
  else if htlc_State htlc =? HtlcStateSettled then Err ErrHTLCAlreadySettled
  else if invState =? ContractCanceled then
    Ok (if htlc_State htlc =? HtlcStateAccepted then resolve_htlc htlc HtlcStateCanceled resolveTime
        else htlc, false)
  else if invState =? ContractAccepted then trySettle resolveTime htlc id false
  else if invState =? ContractOpen then Ok (htlc, false)
  else Err errUnknownTransition.

Definition setSettleMetaFields (ix : settle_index) (invoiceNum : Z) (invoice : Invoice) (now : Time)
    (id : option (list byte)) : settle_index * Invoice :=
  let nextSettleSeqNo := NextSequence (settle_sequence ix) in
  let ix := {| settle_sequence := nextSettleSeqNo;
               settle_entries := <[nextSettleSeqNo := (invoiceNum, id)]> (settle_entries ix) |} in
  (ix, match id with
       | None => with_settle invoice now nextSettleSeqNo
       | Some id =>
           let ampState := default {| amp_State := 0; amp_SettleIndex := 0; amp_SettleDate := ZeroTime;
                                      InvoiceKeys := ∅; amp_AmtPaid := 0 |} (AMPState invoice !! id) in
           with_amp invoice (<[id := {| amp_State := amp_State ampState;
                                        amp_SettleIndex := nextSettleSeqNo; amp_SettleDate := now;
                                        InvoiceKeys := InvoiceKeys ampState;
                                        amp_AmtPaid := amp_AmtPaid ampState |}]> (AMPState invoice))
       end).

(** *** The steps of an update *)

(** A new HTLC is added to the invoice and its set indexed. *)
Definition index_set (db : invoices_db) (invoiceNum : Z) (amp : option InvoiceHtlcAMPData)
    : res (invoices_db * list byte) :=
  match amp with
  | None => Ok (db, replicate 32 x00)
  | Some a =>
      let id := PaymentCodec.setID (amp_Record a) in
      match setIDIndex db !! id with
      | None => Ok (set_setid_index db (<[id := invoiceNum]> (setIDIndex db)), id)
      | Some n => if n =? invoiceNum then Ok (db, id) else Err ErrDuplicateSetID
      end
  end.

Definition accepted_htlc (now : Time) (d : HtlcAcceptDesc) (custom : gmap Z (list byte)) : InvoiceHTLC :=
  {| htlc_Amt := desc_Amt d; MppTotalAmt := desc_MppTotalAmt d;
     AcceptHeight := u32 (desc_AcceptHeight d); AcceptTime := now; ResolveTime := ZeroTime;
     htlc_Expiry := desc_Expiry d; htlc_State := HtlcStateAccepted; htlc_CustomRecords := custom;
     htlc_AMP := desc_AMP d |}.

Definition add_htlc (now : Time) (invoiceNum : Z) (isAMP : bool) (kd : CircuitKey * HtlcAcceptDesc)
    (st : update_state) : res update_state :=
  let '(key, htlcUpdate) := kd in
  let invoice := us_invoice st in
  if bool_decide (is_Some (Htlcs invoice !! key)) then Err errDuplicateHtlc
  else
    match desc_CustomRecords htlcUpdate with
    | None => Err errNilCustomRecords
    | Some custom =>
        '(db, id) ← index_set (us_db st) invoiceNum (desc_AMP htlcUpdate);
        let htlc := accepted_htlc now htlcUpdate custom in
        let invoice := with_htlcs invoice (<[key := htlc]> (Htlcs invoice)) in
        let '(invoice, sets) := if isAMP then updateHtlcsAmp invoice (us_sets st) htlc id key
                                else (invoice, us_sets st) in
        Ok {| us_invoice := invoice; us_sets := sets; us_db := db |}
    end.

(** An HTLC of the invoice is canceled if it is among those to cancel. *)
Definition cancel_htlc (now : Time) (newState : Z) (isAMP : bool) (added : gmap CircuitKey HtlcAcceptDesc)
    (key : CircuitKey) (st : update_state * gset CircuitKey) : res (update_state * gset CircuitKey) :=
  let '(st, cancelHtlcs) := st in
  let invoice := us_invoice st in
  if negb (bool_decide (key ∈ cancelHtlcs)) then Ok (st, cancelHtlcs)
  else if bool_decide (is_Some (added !! key)) then Err errAddedCanceled
  else
    match Htlcs invoice !! key with
    | None => Ok (st, cancelHtlcs)
    | Some htlc =>
        htlc ← cancelSingleHtlc now htlc newState;
        let invoice := with_htlcs invoice (<[key := htlc]> (Htlcs invoice)) in
        '(invoice, sets) ← (if isAMP then cancelHtlcsAmp invoice (us_sets st) htlc key
                            else Ok (invoice, us_sets st));
        Ok ({| us_invoice := invoice; us_sets := sets; us_db := us_db st |}, cancelHtlcs ∖ {[ key ]})
    end.

(** The preimage of an AMP HTLC is noted, unless it has another one. *)
Definition set_htlc_preimage (htlc : InvoiceHTLC) (preimage : option (list byte)) : res InvoiceHTLC :=
  match preimage with
  | None => Ok htlc
  | Some p =>
      match htlc_AMP htlc with
      | None => Panic
      | Some a =>
          match amp_Preimage a with
          | None => Ok (with_amp_preimage htlc p)
          | Some q => if bool_decide (q = p) then Ok htlc else Err ErrHTLCPreimageAlreadyExists
          end
      end
  end.

Record align_state := {
  al_state : update_state;
  al_settled : gset (list byte);
  al_paid : Z;
}.

(** An HTLC follows the state of the invoice. *)
Definition align_htlc (now : Time) (update : InvoiceUpdateDesc) (id : option (list byte)) (isAMP : bool)
    (key : CircuitKey) (al : align_state) : res align_state :=
  let st := al_state al in
  let invoice := us_invoice st in
  match Htlcs invoice !! key with
  | None => Ok al
  | Some htlc =>
      htlc ← (match id, desc_State update with
              | Some _, Some s => set_htlc_preimage htlc (HTLCPreimages s !! key)
              | _, _ => Ok htlc
              end);
      let settleEligibleAMP := match desc_State update with
                               | Some s => negb (bool_decide (HTLCPreimages s = ∅))
                               | None => false
                               end in
      '(htlc, htlcSettled) ← updateHtlc now htlc
        (if settleEligibleAMP then ContractSettled else inv_State invoice) id;
      let invoice := with_htlcs invoice (<[key := htlc]> (Htlcs invoice)) in
      '(invoice, settledSetIDs, sets) ←
        (if htlcSettled && isAMP
         then settleHtlcsAmp invoice (al_settled al) (us_sets st) htlc key
         else Ok (invoice, al_settled al, us_sets st));
      let invoiceStateReady := (htlc_State htlc =? HtlcStateAccepted) || (htlc_State htlc =? HtlcStateSettled) in
      let counted := if isAMP
        then bool_decide (is_Some (AddHtlcs update !! key)) && (inv_State invoice =? ContractOpen) &&
             invoiceStateReady
        else negb (inv_State invoice =? ContractOpen) && invoiceStateReady in
      Ok {| al_state := {| us_invoice := invoice; us_sets := sets; us_db := us_db st |};
            al_settled := settledSetIDs;
            al_paid := if counted then u64 (al_paid al + htlc_Amt htlc) else al_paid al |}
  end.

Definition htlc_keys (i : Invoice) : list CircuitKey := (range (Htlcs i)).*1.

(** The state of the invoice, and the settle index of an invoice that is settled. *)
Definition update_invoice_state (now : Time) (invoiceNum : Z) (hash : option (list byte)) (isAMP : bool)
    (update : InvoiceUpdateDesc) (st : update_state) : res update_state :=
  match desc_State update with
  | None => Ok st
  | Some s =>
      '(invoice, newState) ← updateInvoiceState (us_invoice st) hash s;
      let invoice := if negb isAMP || (newState =? ContractCanceled) then with_state invoice newState
                     else invoice in
      let db := us_db st in
      let '(db, invoice) :=
        if negb isAMP && (NewState s =? ContractSettled) then
          let '(ix, invoice) := setSettleMetaFields (default empty_settle_index (settleIndex db))
                                  invoiceNum invoice now None in
          (set_settle_index db ix, invoice)
        else (db, invoice) in
      Ok {| us_invoice := invoice; us_sets := us_sets st; us_db := db |}
  end.

Fixpoint updateAMPInvoices (db : invoices_db) (invoiceNum : Z) (invoice : Invoice)
    (sets : list (list byte * gset CircuitKey)) : res invoices_db :=
  match sets with
  | [] => Ok db
  | (id, keys) :: rest =>
      b ← serializeHtlcs (base.filter (fun kh => kh.1 ∈ keys) (Htlcs invoice));
      updateAMPInvoices (put_set_bytes db invoiceNum id b) invoiceNum invoice rest
  end.

(** The sub-invoices that were settled, in the order of a map. *)
Definition settle_sets (now : Time) (invoiceNum : Z) (ids : gset (list byte)) (db : invoices_db)
    (invoice : Invoice) : invoices_db * Invoice :=
  foldl (fun '(db, invoice) id =>
    let '(ix, invoice) := setSettleMetaFields (default empty_settle_index (settleIndex db))
                            invoiceNum invoice now (Some id) in
    (set_settle_index db ix, invoice)) (db, invoice) (range_set ids).

(** The changes of a descriptor, before the invoice is written. *)
Definition apply_update (now : Time) (db : invoices_db) (invoiceNum : Z) (hash : option (list byte))
    (invoice : Invoice) (update : InvoiceUpdateDesc) : res update_state :=
  let isAMP := is_amp_invoice invoice in
  let '(newState, id) := match desc_State update with
    | Some s => (NewState s, upd_SetID s)
    | None => (inv_State invoice, desc_SetID update)
    end in
  st ← for_each (add_htlc now invoiceNum isAMP) (range (AddHtlcs update))
         {| us_invoice := invoice; us_sets := ∅; us_db := db |};
  '(st, cancelHtlcs) ← for_each (cancel_htlc now newState isAMP (AddHtlcs update))
         (htlc_keys (us_invoice st)) (st, CancelHtlcs update);
  if negb (bool_decide (cancelHtlcs = ∅)) then Err errCancelMissing
  else
    st ← update_invoice_state now invoiceNum hash isAMP update st;
    al ← for_each (align_htlc now update id isAMP) (htlc_keys (us_invoice st))
           {| al_state := st; al_settled := ∅; al_paid := 0 |};
    let st := al_state al in
    let invoice := us_invoice st in
    let invoice := with_paid invoice
      (if isAMP then u64 (inv_AmtPaid invoice + al_paid al) else al_paid al) in
    let '(db, invoice) := settle_sets now invoiceNum (al_settled al) (us_db st) invoice in
    Ok {| us_invoice := invoice; us_sets := us_sets st; us_db := db |}.

(** A callback is given a copy of the invoice; it returns what it notes besides the
    descriptor. *)
Definition InvoiceUpdateCallback (A : Type) : Type := Invoice -> res (option InvoiceUpdateDesc * A).

Definition updateInvoice {A} (now : Time) (db : invoices_db) (hash refSetID : option (list byte))
    (invoiceNum : Z) (callback : InvoiceUpdateCallback A) : res (invoices_db * Invoice * A) :=
  invoice ← fetchInvoice db invoiceNum (Some (default BlankPayAddr refSetID));
  '(update, a) ← callback (copyInvoice invoice);
  match update with
  | None => Ok (db, invoice, a)
  | Some update =>
      st ← apply_update now db invoiceNum hash invoice update;
      let invoice := us_invoice st in
      b ← serializeInvoice invoice;
      let db := put_invoice_bytes (us_db st) invoiceNum b in
      db ← (if is_amp_invoice invoice
            then updateAMPInvoices db invoiceNum invoice (range (us_sets st)) else Ok db);
      Ok (db, invoice, a)
  end.

Definition UpdateInvoice {A} (now : Time) (db : invoices_db) (ref : InvoiceRef)
    (setIDHint : option (list byte)) (callback : InvoiceUpdateCallback A)
    : res (invoices_db * Invoice * A) :=
  let index := default empty_invoice_index (invoiceIndex db) in
  let db := {| invoice_bytes := invoice_bytes db; set_bytes := set_bytes db;
               invoiceIndex := Some index; addIndex := addIndex db;
               settleIndex := Some (default empty_settle_index (settleIndex db));
               payAddrIndex := payAddrIndex db; setIDIndex := setIDIndex db |} in
  invoiceNum ← fetchInvoiceNumByRef db index ref;
  updateInvoice now db (ref_payHash ref) setIDHint invoiceNum callback.

(** ** Deleting *)

Record InvoiceDeleteRef := {
  del_PayHash : list byte;
  del_PayAddr : option (list byte);
  del_AddIndex : Z;
  del_SettleIndex : Z;
}.

Definition delAMPInvoices (db : invoices_db) (invoiceNum : Z) : invoices_db :=
  {| invoice_bytes := invoice_bytes db;
     set_bytes := base.filter (fun kv => kv.1.1 <> invoiceNum) (set_bytes db);
     invoiceIndex := invoiceIndex db; addIndex := addIndex db; settleIndex := settleIndex db;
     payAddrIndex := payAddrIndex db; setIDIndex := setIDIndex db |}.

Definition delAMPSettleIndex (db : invoices_db) (invoiceNum : Z) : res invoices_db :=
  ampState ← fetchInvoiceStateAMP db invoiceNum;
  if bool_decide (ampState = ∅) then Ok db
  else
    match settleIndex db with
    | None => Panic
    | Some ix =>
        Ok (set_settle_index db
              {| settle_sequence := settle_sequence ix;
                 settle_entries := foldl (fun m kv => base.delete (amp_SettleIndex kv.2) m)
                                     (settle_entries ix) (range ampState) |})
    end.

Definition delete_invoice (db : invoices_db) (ref : InvoiceDeleteRef) : res invoices_db :=
  match invoiceIndex db, addIndex db with
  | Some index, Some ix =>
      match pay_hashes index !! del_PayHash ref with
      | None => Err ErrInvoiceNotFound
      | Some invoiceKey =>
          let addrs :=
            match del_PayAddr ref with
            | Some addr => if bool_decide (payAddrIndex db !! addr = Some invoiceKey)
                           then base.delete addr (payAddrIndex db) else payAddrIndex db
            | None => payAddrIndex db
            end in
          if negb (bool_decide (add_entries ix !! del_AddIndex ref = Some invoiceKey))
          then Err errUnknownAdd
          else
            settled ← (match settleIndex db with
                       | Some sx =>
                           if 0 <? del_SettleIndex ref then
                             if negb (bool_decide (settle_entries sx !! del_SettleIndex ref =
                                                   Some (invoiceKey, None)))
                             then Err errUnknownSettle
                             else Ok (Some {| settle_sequence := settle_sequence sx;
                                              settle_entries := base.delete (del_SettleIndex ref)
                                                                  (settle_entries sx) |})
                           else Ok (Some sx)
                       | None => Ok None
                       end);
            let db := {| invoice_bytes := invoice_bytes db; set_bytes := set_bytes db;
                         invoiceIndex := Some {| num_invoices := num_invoices index;
                           pay_hashes := base.delete (del_PayHash ref) (pay_hashes index) |};
                         addIndex := Some {| add_sequence := add_sequence ix;
                           add_entries := base.delete (del_AddIndex ref) (add_entries ix) |};
                         settleIndex := settled; payAddrIndex := addrs;
                         setIDIndex := setIDIndex db |} in
            db ← delAMPSettleIndex db invoiceKey;
            let db := delAMPInvoices db invoiceKey in
            Ok {| invoice_bytes := base.delete invoiceKey (invoice_bytes db); set_bytes := set_bytes db;
                  invoiceIndex := invoiceIndex db; addIndex := addIndex db;
                  settleIndex := settleIndex db; payAddrIndex := payAddrIndex db;
                  setIDIndex := setIDIndex db |}
      end
  | _, _ => Err ErrNoInvoicesCreated
  end.

Definition DeleteInvoice (db : invoices_db) (invoicesToDelete : list InvoiceDeleteRef) : res invoices_db :=
  match invoiceIndex db, addIndex db with
  | Some _, Some _ => for_each (fun ref db => delete_invoice db ref) invoicesToDelete db
  | _, _ => Err ErrNoInvoicesCreated
  end.

End Invoices.
