(* ===== verification/InvoiceInv.v ===== *)
(** * Updates of invoices

    What an update does to the HTLCs, the state and the amounts of an invoice: the three
    loops of [updateInvoice] over maps whose order is not known, and the invariant of an
    invoice that every update keeps. *)

From S2P Require Import Prelude Sha256 Ids Tlv Features PaymentCodec Amp Payments InvoiceCodec InvoiceCodecInv Invoices.

(** ** Loops *)

(** An invariant of what has been visited. *)
Lemma for_each_ind {A B} (f : A -> B -> res B) (P : list A -> B -> Prop) l b b' :
  P [] b ->
  (forall pre a post b b', l = pre ++ a :: post -> P pre b -> f a b = Ok b' -> P (pre ++ [a]) b') ->
  for_each f l b = Ok b' -> P l b'.
Proof.
  intros H0 Hstep Hl.
  assert (forall pre post b, l = pre ++ post -> P pre b -> for_each f post b = Ok b' -> P l b') as Hgen.
  { intros pre post. revert pre. induction post as [|a post IH]; intros pre c Hpre Hc Hpost.
    - rewrite app_nil_r in Hpre. subst. by injection Hpost as <-.
    - cbn [for_each] in Hpost. apply bind_ok in Hpost as (c' & Ec & Hpost).
      eapply (IH (pre ++ [a])); [by rewrite <- app_assoc|by eapply Hstep|done]. }
  by apply (Hgen [] l b).
Qed.

(** ** Amounts *)

Definition live (h : InvoiceHTLC) : bool :=
  (htlc_State h =? HtlcStateAccepted) || (htlc_State h =? HtlcStateSettled).

Definition live_amt (h : InvoiceHTLC) : Z := if live h then htlc_Amt h else 0.

(** What the HTLCs of a map that are not canceled pay. *)
Definition paid_by (m : gmap CircuitKey InvoiceHTLC) : Z := zsum live_amt (map_to_list m).*2.

Lemma paid_by_insert m k h :
  m !! k = None -> paid_by (<[k := h]> m) = live_amt h + paid_by m.
Proof.
  intros Hk. unfold paid_by. rewrite (zsum_perm live_amt _ (h :: (map_to_list m).*2)); [done|].
  by rewrite (map_to_list_insert m k h Hk).
Qed.

Lemma paid_by_nonneg m : map_Forall (fun _ h => 0 <= htlc_Amt h) m -> 0 <= paid_by m.
Proof.
  intros Hm. unfold paid_by.
  assert (Forall (fun h => 0 <= live_amt h) (map_to_list m).*2) as Hf.
  { apply Forall_fmap, Forall_forall. intros [k h] Hin. apply elem_of_map_to_list, Hm in Hin.
    unfold live_amt. simpl in *. case_match; lia. }
  induction Hf as [|h l Hh _ IH]; simpl; lia.
Qed.

(** The sum over the keys of a map, in any order. *)
Lemma paid_by_keys (m : gmap CircuitKey InvoiceHTLC) (l : list CircuitKey) :
  l ≡ₚ (map_to_list m).*1 ->
  zsum (fun k => match m !! k with Some h => live_amt h | None => 0 end) l = paid_by m.
Proof.
  intros Hl. rewrite (zsum_perm _ _ _ Hl). unfold paid_by. rewrite !zsum_fmap.
  apply zsum_ext. intros [k h] Hin. apply elem_of_map_to_list in Hin. simpl. by rewrite Hin.
Qed.

(** ** Changing the HTLCs and the amounts of an invoice *)

(** Everything but the HTLCs, the amount paid and the sub-invoices stays. *)
Definition reshape (i : Invoice) (m : gmap CircuitKey InvoiceHTLC) (p : Z) (s : AMPInvoiceState) : Invoice :=
  with_amp (with_paid (with_htlcs i m) p) s.

Lemma reshape_self i : i = reshape i (Htlcs i) (inv_AmtPaid i) (AMPState i).
Proof. by destruct i. Qed.

Lemma reshape_twice i m p s m' p' s' : reshape (reshape i m p s) m' p' s' = reshape i m' p' s'.
Proof. done. Qed.

Lemma updateHtlcsAmp_reshape i sets h id k i' sets' :
  updateHtlcsAmp i sets h id k = (i', sets') ->
  exists s, i' = reshape i (Htlcs i) (inv_AmtPaid i) s /\
    (wf_amp_states (AMPState i) -> length id = 32%nat -> valid_key k -> wf_amp_states s).
Proof.
  unfold updateHtlcsAmp. intros [= <- _]. eexists. split; [by destruct i|].
  intros Hw Hid Hk. apply map_Forall_insert_2; [|done].
  assert (wf_amp_state id (default {| amp_State := HtlcStateAccepted; amp_SettleIndex := 0;
    amp_SettleDate := ZeroTime; InvoiceKeys := ∅; amp_AmtPaid := 0 |} (AMPState i !! id))) as [].
  { destruct (AMPState i !! id) as [s|] eqn:E; simpl; [by apply Hw in E|]. by split. }
  split; try done; simpl in *; [|apply u64_range].
  apply set_Forall_union; [by apply set_Forall_singleton|done].
Qed.

Section Loops.
Context `{Hasher} `{Secp256k1} `{GoRange} `{TimeZone} `{WireVarInt}.

Definition accept_entry (now : Time) (kd : CircuitKey * HtlcAcceptDesc) : CircuitKey * InvoiceHTLC :=
  (kd.1, accepted_htlc now kd.2 (default ∅ (desc_CustomRecords kd.2))).

Lemma accept_entry_keys now l : (accept_entry now <$> l).*1 = l.*1.
Proof. rewrite <- list_fmap_compose. by apply list_fmap_ext. Qed.

(** Adding. *)
Lemma add_htlc_ok now n isAMP k d st st' :
  add_htlc now n isAMP (k, d) st = Ok st' ->
  Htlcs (us_invoice st) !! k = None /\ is_Some (desc_CustomRecords d) /\
  exists s m, us_invoice st' = reshape (us_invoice st)
      (<[k := (accept_entry now (k, d)).2]> (Htlcs (us_invoice st))) (inv_AmtPaid (us_invoice st)) s /\
    us_db st' = set_setid_index (us_db st) m /\
    (isAMP = false -> s = AMPState (us_invoice st) /\ us_sets st' = us_sets st) /\
    (wf_amp_states (AMPState (us_invoice st)) -> valid_key k ->
     (forall a, desc_AMP d = Some a -> length (PaymentCodec.setID (amp_Record a)) = 32%nat) ->
     wf_amp_states s).
Proof.
  unfold add_htlc. intros Hadd. destruct (bool_decide_reflect (is_Some (Htlcs (us_invoice st) !! k))) as [|Hn]; [done|].
  apply eq_None_not_Some in Hn. split; [done|].
  destruct (desc_CustomRecords d) as [c|] eqn:Ec; [|done]. split; [by eexists|].
  apply bind_ok in Hadd as ([db sid] & Ei & Hadd).
  assert ((forall a, desc_AMP d = Some a -> length (PaymentCodec.setID (amp_Record a)) = 32%nat) ->
    length sid = 32%nat) as Hsid.
  { unfold index_set in Ei. intros Hl. destruct (desc_AMP d) as [a|]; [|by injection Ei as _ <-].
    specialize (Hl a eq_refl). destruct (setIDIndex _ !! _); [destruct (_ =? _); [|done]|]; by injection Ei as _ <-. }
  assert (exists m, db = set_setid_index (us_db st) m) as [m ->].
  { unfold index_set in Ei. destruct (desc_AMP d) as [a|].
    - destruct (setIDIndex _ !! _); [destruct (_ =? _); [|done]|]; injection Ei as <- _;
        [|by eexists]. exists (setIDIndex (us_db st)). by destruct (us_db st).
    - injection Ei as <- _. exists (setIDIndex (us_db st)). by destruct (us_db st). }
  unfold accept_entry. cbn [fst snd]. rewrite Ec. cbn [default from_option]. unfold id.
  destruct isAMP.
  - destruct (updateHtlcsAmp _ _ _ _ _) as [i' sets'] eqn:Eu. apply Ok_inj in Hadd as <-.
    apply updateHtlcsAmp_reshape in Eu as (s & -> & Hs). exists s, m. split; [|split; [done|split; [done|]]].
    + cbn [us_invoice]. by destruct (us_invoice st).
    + intros Hw Hk Hl. apply Hs; auto.
  - apply Ok_inj in Hadd as <-. exists (AMPState (us_invoice st)), m. split; [|done].
    cbn [us_invoice]. by destruct (us_invoice st).
Qed.

Definition wf_amp_desc (kd : CircuitKey * HtlcAcceptDesc) : Prop :=
  valid_key kd.1 /\
  forall a, desc_AMP kd.2 = Some a -> length (PaymentCodec.setID (amp_Record a)) = 32%nat.

Record added (now : Time) (isAMP : bool) (st : update_state) (l : list (CircuitKey * HtlcAcceptDesc))
    (st' : update_state) : Prop := {
  added_fresh : Forall (fun kd => Htlcs (us_invoice st) !! kd.1 = None) l;
  added_custom : Forall (fun kd => is_Some (desc_CustomRecords kd.2)) l;
  added_invoice : exists s, us_invoice st' = reshape (us_invoice st)
    (list_to_map (accept_entry now <$> l) ∪ Htlcs (us_invoice st)) (inv_AmtPaid (us_invoice st)) s /\
    (isAMP = false -> s = AMPState (us_invoice st) /\ us_sets st' = us_sets st) /\
    (wf_amp_states (AMPState (us_invoice st)) -> Forall wf_amp_desc l -> wf_amp_states s);
  added_db : exists m, us_db st' = set_setid_index (us_db st) m;
}.

Lemma add_loop now n isAMP l st st' :
  NoDup l.*1 -> for_each (add_htlc now n isAMP) l st = Ok st' -> added now isAMP st l st'.
Proof.
  intros Hnd. apply (for_each_ind _ (fun pre st' => added now isAMP st pre st')).
  { split; [done..| |].
    - exists (AMPState (us_invoice st)). split; [|done]. simpl. rewrite (left_id_L ∅ (∪)). apply reshape_self.
    - exists (setIDIndex (us_db st)). by destruct (us_db st). }
  intros pre [k d] post st1 st2 -> [Hf Hcu (s1 & E1 & Hs1 & Hw1) [m1 D1]] Hadd.
  apply add_htlc_ok in Hadd as (Hk & Hc & s2 & m2 & E2 & D2 & Hs2 & Hw2).
  assert (k ∉ pre.*1) as Hkp.
  { rewrite fmap_app, NoDup_app in Hnd. destruct Hnd as (_ & Hd & _). intros Hin. apply Hd in Hin.
    rewrite fmap_cons in Hin. set_solver. }
  rewrite E1 in Hk. apply lookup_union_None in Hk as [_ Hk].
  split.
  - apply Forall_app. split; [done|]. by repeat constructor.
  - apply Forall_app. split; [done|]. by repeat constructor.
  - exists s2. rewrite E2, E1, reshape_twice. split; [|split].
    + f_equal. rewrite fmap_app, list_to_map_app. cbn [fmap list_fmap list_to_map].
      change (Htlcs (reshape (us_invoice st) ?m ?p ?s)) with m.
      rewrite insert_union_r, <- (assoc_L (∪)); [|].
      * f_equal. unfold list_to_map. simpl. by rewrite <- insert_union_l, (left_id_L ∅ (∪)).
      * apply not_elem_of_list_to_map_1. by rewrite accept_entry_keys.
    + intros Ha. destruct (Hs2 Ha) as [-> ->], (Hs1 Ha) as [-> ->]. by rewrite E1.
    + intros Hw Hl. apply Forall_app in Hl as [Hl1 Hl2]. apply Forall_inv in Hl2 as [Hv Hl2].
      apply Hw2; [by rewrite E1; apply Hw1|done|done].
  - exists m2. by rewrite D2, D1.
Qed.

(** Canceling. *)
Lemma cancelHtlcsAmp_reshape i sets h k i' sets' :
  cancelHtlcsAmp i sets h k = Ok (i', sets') ->
  exists p s, i' = reshape i (Htlcs i) p s /\ (is_u64 (inv_AmtPaid i) -> is_u64 p) /\
    (wf_amp_states (AMPState i) -> valid_key k -> wf_amp_states s).
Proof.
  unfold cancelHtlcsAmp. destruct (htlc_AMP h) as [a|]; [|done].
  destruct (AMPState i !! _) as [s|] eqn:Es; [|done]. intros [= <- _].
  eexists (inv_AmtPaid (if inv_AmtPaid i =? 0 then i else with_paid i (u64 (inv_AmtPaid i - htlc_Amt h)))), _.
  split; [|split].
  - cbn [inv_AmtPaid with_amp]. destruct (_ =? 0); destruct i; reflexivity.
  - intros Hp. destruct (_ =? 0); [done|]. apply u64_range.
  - intros Hw Hk. apply map_Forall_insert_2; [|exact Hw]. apply Hw in Es as [].
    split; try done; simpl in *; [|apply u64_range].
    apply set_Forall_union; [by apply set_Forall_singleton|done].
Qed.

Definition canceled_entry (now : Time) (C : gset CircuitKey) (k : CircuitKey) (h : InvoiceHTLC) : InvoiceHTLC :=
  if bool_decide (k ∈ C) then resolve_htlc h HtlcStateCanceled now else h.

Record canceled (now : Time) (newState : Z) (isAMP : bool) (adds : gmap CircuitKey HtlcAcceptDesc)
    (st : update_state) (C : gset CircuitKey) (l : list CircuitKey) (st' : update_state)
    (C' : gset CircuitKey) : Prop := {
  canceled_invoice : exists m p s, us_invoice st' = reshape (us_invoice st) m p s /\
    (forall k, m !! k = if bool_decide (k ∈ l) then canceled_entry now C k <$> Htlcs (us_invoice st) !! k
                        else Htlcs (us_invoice st) !! k) /\
    (isAMP = false -> p = inv_AmtPaid (us_invoice st) /\ s = AMPState (us_invoice st) /\
                      us_sets st' = us_sets st) /\
    (is_u64 (inv_AmtPaid (us_invoice st)) -> is_u64 p) /\
    (wf_amp_states (AMPState (us_invoice st)) -> map_Forall (fun k _ => valid_key k) (Htlcs (us_invoice st)) ->
     wf_amp_states s);
  canceled_valid : forall k h, k ∈ l -> k ∈ C -> Htlcs (us_invoice st) !! k = Some h ->
    newState = ContractOpen /\ htlc_State h = HtlcStateAccepted /\ adds !! k = None;
  canceled_left : forall k, k ∈ C' <-> k ∈ C /\ ~ (k ∈ l /\ is_Some (Htlcs (us_invoice st) !! k));
  canceled_db : us_db st' = us_db st;
}.

Lemma cancel_htlc_ok now newState isAMP adds k st C st' C' :
  cancel_htlc now newState isAMP adds k (st, C) = Ok (st', C') ->
  canceled now newState isAMP adds st C [k] st' C'.
Proof.
  unfold cancel_htlc. intros Hc.
  assert (forall st C, k ∉ C \/ Htlcs (us_invoice st) !! k = None ->
    canceled now newState isAMP adds st C [k] st C) as Hnone.
  { clear. intros st C Hor. split; [|set_solver| |done].
    - exists (Htlcs (us_invoice st)), (inv_AmtPaid (us_invoice st)), (AMPState (us_invoice st)).
      split; [apply reshape_self|]. split; [|done]. intros k'.
      destruct (bool_decide_reflect (k' ∈ [k])) as [->%list_elem_of_singleton|]; [|done].
      destruct Hor as [Hk|Hk]; [|by rewrite Hk]. unfold canceled_entry. rewrite bool_decide_false by done.
      by destruct (_ !! k).
    - intros k'. split; [|set_solver]. intros Hk'. split; [done|]. rewrite list_elem_of_singleton.
      intros [-> [h Hh]]. destruct Hor; [done|congruence]. }
  destruct (bool_decide_reflect (k ∈ C)) as [HkC|HkC]; [|injection Hc as <- <-; by apply Hnone; left].
  cbn [negb] in Hc. destruct (bool_decide_reflect (is_Some (adds !! k))) as [|Hadd]; [done|].
  apply eq_None_not_Some in Hadd.
  destruct (Htlcs (us_invoice st) !! k) as [h|] eqn:Eh; [|injection Hc as <- <-; by apply Hnone; right].
  unfold cancelSingleHtlc in Hc. destruct (Z.eqb_spec newState ContractOpen) as [->|]; [|done].
  destruct (Z.eqb_spec (htlc_State h) HtlcStateAccepted) as [Est|]; [|done]. cbn [negb mbind res_bind] in Hc.
  set (h' := resolve_htlc h HtlcStateCanceled now) in *.
  apply bind_ok in Hc as ([i' sets'] & Ei & Hc). injection Hc as <- <-.
  split; [|intros k' h0 ->%list_elem_of_singleton _; rewrite Eh; by intros [= <-]| |done].
  - assert (exists p s, i' = reshape (us_invoice st) (<[k := h']> (Htlcs (us_invoice st))) p s /\
      (isAMP = false -> p = inv_AmtPaid (us_invoice st) /\ s = AMPState (us_invoice st) /\ sets' = us_sets st) /\
      (is_u64 (inv_AmtPaid (us_invoice st)) -> is_u64 p) /\
      (wf_amp_states (AMPState (us_invoice st)) -> valid_key k -> wf_amp_states s)) as (p & s & -> & Hs & Hp & Hw).
    { destruct isAMP.
      - apply cancelHtlcsAmp_reshape in Ei as (p & s & -> & Hp & Hw). by exists p, s.
      - injection Ei as <- <-. exists (inv_AmtPaid (us_invoice st)), (AMPState (us_invoice st)).
        split; [by destruct (us_invoice st)|done]. }
    exists (<[k := h']> (Htlcs (us_invoice st))), p, s. split_and!; try done.
    + intros k'. destruct (bool_decide_reflect (k' ∈ [k])) as [->%list_elem_of_singleton|Hne].
      * rewrite lookup_insert_eq, Eh. simpl. unfold canceled_entry. by rewrite bool_decide_true.
      * rewrite lookup_insert_ne; [done|]. intros ->. set_solver.
    + intros Hwa Hv. apply Hw; [done|]. by eapply Hv.
  - intros k'. split.
    + intros [Hin Hne]%elem_of_difference. split; [done|]. set_solver.
    + intros [Hin Hne]. apply elem_of_difference. split; [done|]. intros ->%elem_of_singleton.
      apply Hne. split; [set_solver|]. by eexists.
Qed.

Lemma cancel_loop now newState isAMP adds l st C st' C' :
  NoDup l -> for_each (cancel_htlc now newState isAMP adds) l (st, C) = Ok (st', C') ->
  canceled now newState isAMP adds st C l st' C'.
Proof.
  intros Hnd Hl.
  refine (for_each_ind _ (fun pre x => canceled now newState isAMP adds st C pre x.1 x.2) l (st, C) (st', C') _ _ Hl).
  { split; [|set_solver|set_solver|done]. simpl.
    exists (Htlcs (us_invoice st)), (inv_AmtPaid (us_invoice st)), (AMPState (us_invoice st)).
    split; [apply reshape_self|]. split; [|done]. done. }
  clear Hl st' C'. intros pre k post [st1 C1] [st2 C2] -> [(m1 & p1 & s1 & E1 & Hm1 & Ha1 & Hp1 & Hw1) V1 L1 D1] Hc.
  cbn [fst snd] in *.
  apply cancel_htlc_ok in Hc as [(m2 & p2 & s2 & E2 & Hm2 & Ha2 & Hp2 & Hw2) V2 L2 D2].
  assert (k ∉ pre) as Hkp.
  { apply NoDup_app in Hnd as (_ & Hd & _). intros Hin. apply Hd in Hin. set_solver. }
  rewrite E1 in Hm2, V2, L2, Hw2, Hp2, Ha2. cbn [Htlcs inv_AmtPaid AMPState reshape with_amp with_paid with_htlcs] in *.
  assert (m1 !! k = Htlcs (us_invoice st) !! k) as Ek by (by rewrite Hm1, bool_decide_false).
  assert (k ∈ C1 <-> k ∈ C) as HkC by (rewrite L1; set_solver).
  split.
  - exists m2, p2, s2. rewrite E2, E1, reshape_twice. split_and!; [done| | |tauto|].
    + intros k'. rewrite Hm2. destruct (decide (k' = k)) as [->|Hne].
      * rewrite !bool_decide_true by set_solver. rewrite Ek. f_equal. unfold canceled_entry.
        by rewrite (bool_decide_ext _ _ HkC).
      * rewrite (bool_decide_false (k' ∈ [k])) by set_solver. rewrite Hm1.
        by rewrite (bool_decide_ext (k' ∈ pre) (k' ∈ pre ++ [k])) by set_solver.
    + intros Ha. destruct (Ha1 Ha) as (P1 & S1 & T1). destruct (Ha2 Ha) as (P2 & S2 & T2). split_and!; congruence.
    + intros Hwf Hv. apply Hw2; [by apply Hw1|]. intros k' h. rewrite Hm1. case_bool_decide.
      * intros Hh. apply fmap_Some in Hh as (h0 & Hh & _). by eapply Hv.
      * by apply Hv.
  - intros k' h Hin HC Hh. apply elem_of_app in Hin as [Hin| ->%list_elem_of_singleton].
    + by apply (V1 k' h).
    + apply (V2 k h); [set_solver|by apply HkC|by rewrite Ek].
  - intros k'. rewrite L2, L1. destruct (decide (k' = k)) as [->|Hne].
    + rewrite Ek. set_solver.
    + set_solver.
  - by rewrite D2.
Qed.

(** Aligning. *)
Lemma settleHtlcsAmp_reshape i ids sets h k i' ids' sets' :
  settleHtlcsAmp i ids sets h k = Ok (i', ids', sets') ->
  exists s, i' = reshape i (Htlcs i) (inv_AmtPaid i) s /\
    (wf_amp_states (AMPState i) -> valid_key k -> wf_amp_states s) /\
    (ids ⊆ dom (AMPState i) -> ids' ⊆ dom s).
Proof.
  unfold settleHtlcsAmp. destruct (htlc_AMP h) as [a|]; [|done].
  destruct (AMPState i !! _) as [s|] eqn:Es; [|done]. intros [= <- <- _].
  eexists. split; [by destruct i|]. split; [|set_solver].
  intros Hw Hk. apply map_Forall_insert_2; [|exact Hw]. apply Hw in Es as [].
  split; try done. simpl in *. apply set_Forall_union; [by apply set_Forall_singleton|done].
Qed.

(** What an HTLC becomes. *)
Definition align_entry (now : Time) (update : InvoiceUpdateDesc) (sid : option (list byte)) (state : Z)
    (k : CircuitKey) (h : InvoiceHTLC) : res (InvoiceHTLC * bool) :=
  h' ← (match sid, desc_State update with
        | Some _, Some s => set_htlc_preimage h (HTLCPreimages s !! k)
        | _, _ => Ok h
        end);
  updateHtlc now h'
    (if match desc_State update with Some s => negb (bool_decide (HTLCPreimages s = ∅)) | None => false end
     then ContractSettled else state) sid.

Record aligned (now : Time) (update : InvoiceUpdateDesc) (sid : option (list byte)) (isAMP : bool)
    (al : align_state) (l : list CircuitKey) (al' : align_state) : Prop := {
  aligned_invoice : exists m s, us_invoice (al_state al') = reshape (us_invoice (al_state al)) m
      (inv_AmtPaid (us_invoice (al_state al))) s /\
    (forall k, k ∉ l -> m !! k = Htlcs (us_invoice (al_state al)) !! k) /\
    (forall k, k ∈ l -> match Htlcs (us_invoice (al_state al)) !! k with
      | None => m !! k = None
      | Some h => exists h' b, align_entry now update sid (inv_State (us_invoice (al_state al))) k h = Ok (h', b) /\
                    m !! k = Some h'
      end) /\
    (isAMP = false -> s = AMPState (us_invoice (al_state al)) /\ us_sets (al_state al') = us_sets (al_state al) /\
       al_settled al' = al_settled al /\
       (al_paid al = u64 (al_paid al) -> al_paid al' = u64 (al_paid al +
         zsum (fun k => if inv_State (us_invoice (al_state al)) =? ContractOpen then 0
                        else match m !! k with Some h => live_amt h | None => 0 end) l))) /\
    (wf_amp_states (AMPState (us_invoice (al_state al))) ->
     map_Forall (fun k _ => valid_key k) (Htlcs (us_invoice (al_state al))) -> wf_amp_states s) /\
    (al_settled al ⊆ dom (AMPState (us_invoice (al_state al))) -> al_settled al' ⊆ dom s);
  aligned_db : us_db (al_state al') = us_db (al_state al);
  aligned_paid : is_u64 (al_paid al) -> is_u64 (al_paid al');
}.

Lemma align_htlc_ok now update sid isAMP k al al' :
  align_htlc now update sid isAMP k al = Ok al' -> aligned now update sid isAMP al [k] al'.
Proof.
  unfold align_htlc. destruct (Htlcs (us_invoice (al_state al)) !! k) as [h|] eqn:Eh.
  2:{ intros [= <-]. split; [|done..].
      exists (Htlcs (us_invoice (al_state al))), (AMPState (us_invoice (al_state al))).
      split; [apply reshape_self|]. split; [done|]. split; [|split; [|done]].
      - intros k' ->%list_elem_of_singleton. by rewrite Eh.
      - intros _. split_and!; try done. intros Hu. simpl. rewrite Eh. destruct (_ =? _); by rewrite !Z.add_0_r. }
  intros Hal. apply bind_ok in Hal as (h1 & E1 & Hal). apply bind_ok in Hal as ([h2 b] & E2 & Hal).
  apply bind_ok in Hal as ([[i' ids'] sets'] & E3 & Hal). apply Ok_inj in Hal as <-.
  assert (exists s, i' = reshape (us_invoice (al_state al)) (<[k := h2]> (Htlcs (us_invoice (al_state al))))
      (inv_AmtPaid (us_invoice (al_state al))) s /\
    (isAMP = false -> s = AMPState (us_invoice (al_state al)) /\ sets' = us_sets (al_state al) /\ ids' = al_settled al) /\
    (wf_amp_states (AMPState (us_invoice (al_state al))) -> valid_key k -> wf_amp_states s) /\
    (al_settled al ⊆ dom (AMPState (us_invoice (al_state al))) -> ids' ⊆ dom s))
    as (s & -> & Hs & Hw & Hids).
  { destruct (b && isAMP) eqn:Eb.
    - apply settleHtlcsAmp_reshape in E3 as (s & -> & Hw & Hids). exists s. split; [done|]. split; [|done].
      intros ->. by rewrite andb_false_r in Eb.
    - injection E3 as <- <- <-. exists (AMPState (us_invoice (al_state al))).
      split; [by destruct (us_invoice (al_state al))|done]. }
  split; [|done|].
  - exists (<[k := h2]> (Htlcs (us_invoice (al_state al)))), s. split_and!; [done| | | | |done].
    + intros k' Hk'. rewrite lookup_insert_ne; [done|]. set_solver.
    + intros k' ->%list_elem_of_singleton. rewrite Eh. exists h2, b. split; [|by rewrite lookup_insert_eq].
      unfold align_entry. rewrite E1. cbn [mbind res_bind]. exact E2.
    + intros Ha. destruct (Hs Ha) as (-> & -> & ->). split_and!; [done..|]. rewrite Ha.
      cbn [al_paid inv_State reshape with_amp with_paid with_htlcs zsum foldr]. rewrite lookup_insert_eq.
      intros Hu. unfold live_amt, live. cbn [inv_State with_htlcs].
      destruct (_ =? ContractOpen); cbn [negb andb]; [by rewrite !Z.add_0_r|].
      destruct ((_ =? _) || (_ =? _)); [by rewrite Z.add_0_r|by rewrite !Z.add_0_r].
    + intros Hwf Hv. apply Hw; [done|]. by eapply Hv.
  - intros Hu. simpl. destruct (if isAMP then _ else _); [apply u64_range|done].
Qed.

Lemma align_loop now update sid isAMP l al al' :
  NoDup l -> for_each (align_htlc now update sid isAMP) l al = Ok al' -> aligned now update sid isAMP al l al'.
Proof.
  intros Hnd. apply (for_each_ind _ (fun pre x => aligned now update sid isAMP al pre x)).
  { split; [|done..].
    exists (Htlcs (us_invoice (al_state al))), (AMPState (us_invoice (al_state al))).
    split; [apply reshape_self|]. split; [done|]. split; [set_solver|]. split; [|done].
    intros _. split_and!; try done. simpl. intros Hu. by rewrite Z.add_0_r. }
  intros pre k post al1 al2 -> [(m1 & s1 & E1 & O1 & V1 & A1 & W1 & I1) D1 P1] Hal.
  apply align_htlc_ok in Hal as [(m2 & s2 & E2 & O2 & V2 & A2 & W2 & I2) D2 P2].
  assert (k ∉ pre) as Hkp.
  { apply NoDup_app in Hnd as (_ & Hd & _). intros Hin. apply Hd in Hin. set_solver. }
  rewrite E1 in E2, O2, V2, A2, W2, I2. cbn [Htlcs inv_AmtPaid AMPState inv_State reshape with_amp with_paid with_htlcs] in *.
  rewrite reshape_twice in E2.
  split; [|by rewrite D2|tauto].
  exists m2, s2. split; [done|]. split; [|split; [|split; [|split; [|auto]]]].
  - intros k' Hk'. rewrite O2, O1; [done|set_solver..].
  - intros k' Hin. apply elem_of_app in Hin as [Hin|Hin].
    + rewrite O2 by set_solver. by apply V1.
    + apply list_elem_of_singleton in Hin as ->. specialize (V2 k ltac:(set_solver)).
      by rewrite O1 in V2 by done.
  - intros Ha. destruct (A1 Ha) as (S1 & T1 & U1 & X1), (A2 Ha) as (S2 & T2 & U2 & X2).
    split_and!; [congruence..|]. intros Hu. specialize (X1 Hu).
    rewrite X2 by (rewrite X1; unfold u64; by rewrite Zmod_mod). rewrite X1.
    rewrite zsum_app. cbn [zsum foldr]. unfold u64. rewrite Zplus_mod_idemp_l. f_equal.
    assert (forall k', k' ∈ pre -> m2 !! k' = m1 !! k') as Hpre by (intros k' Hk'; apply O2; set_solver).
    rewrite (zsum_ext (fun k' => if inv_State (us_invoice (al_state al)) =? ContractOpen then 0
                 else match m2 !! k' with Some h => live_amt h | None => 0 end)
      (fun k' => if inv_State (us_invoice (al_state al)) =? ContractOpen then 0
                 else match m1 !! k' with Some h => live_amt h | None => 0 end) pre).
    + lia.
    + intros k' Hk'. by rewrite Hpre.
  - intros Hwf Hv. apply W2; [by apply W1|]. intros k' h Hh. destruct (decide (k' ∈ pre)) as [Hin|Hin].
    + specialize (V1 k' Hin). destruct (Htlcs _ !! k') as [h0|] eqn:E0; [by eapply Hv|congruence].
    + rewrite O1 in Hh by done. by eapply Hv.
Qed.

(** ** The state of the invoice *)

Definition restate (i : Invoice) (s : Z) (p : option (list byte)) (d : Time) (x : Z) : Invoice :=
  with_settle (with_preimage (with_state i s) p) d x.

Lemma restate_self i : i = restate i (inv_State i) (PaymentPreimage (Terms i)) (SettleDate i) (SettleIndex i).
Proof. by destruct i as [? ? ? ? [] ? ? ? ? ? ? ?]. Qed.

(** The transition a state descriptor asks for is allowed, and the preimage it brings is
    that of the hash. *)
Record transition_ok (hash : option (list byte)) (i : Invoice) (sd : InvoiceStateUpdateDesc)
    (p : option (list byte)) : Prop := {
  tr_from : inv_State i = ContractOpen \/ inv_State i = ContractAccepted;
  tr_to : NewState sd <> ContractOpen;
  tr_accept : inv_State i = ContractAccepted -> NewState sd <> ContractAccepted;
  tr_set : NewState sd <> ContractCanceled -> HTLCSet i (upd_SetID sd) HtlcStateAccepted <> ∅;
  tr_preimage : p = PaymentPreimage (Terms i) \/
    exists q h, upd_Preimage sd = Some q /\ hash = Some h /\ digest q = h /\ p = Some q;
  tr_known : NewState sd = ContractSettled -> upd_SetID sd = None -> is_Some p;
}.

Lemma updateInvoiceState_ok i hash sd i' ns :
  updateInvoiceState i hash sd = Ok (i', ns) ->
  exists p, i' = with_preimage i p /\ ns = NewState sd /\ transition_ok hash i sd p.
Proof.
  unfold updateInvoiceState. intros Hu.
  destruct (Z.eqb_spec (NewState sd) ContractOpen) as [|Hno]; [done|].
  set (open_ := if NewState sd =? ContractCanceled then _ else _) in Hu.
  assert (exists p, i' = with_preimage i p /\ ns = NewState sd /\ open_ = Ok (i', ns) /\
    (inv_State i = ContractOpen \/ inv_State i = ContractAccepted) /\
    (inv_State i = ContractAccepted -> NewState sd <> ContractAccepted) /\
    (NewState sd <> ContractCanceled -> HTLCSet i (upd_SetID sd) HtlcStateAccepted <> ∅) /\
    (p = PaymentPreimage (Terms i) \/
     exists q h, upd_Preimage sd = Some q /\ hash = Some h /\ digest q = h /\ p = Some q) /\
    (NewState sd = ContractSettled -> upd_SetID sd = None -> is_Some p)) as (p & -> & -> & _ & T1 & T2 & T3 & T4 & T5).
  2:{ exists p. split_and!; [done..|]. by split. }
  assert (open_ = Ok (i', ns) /\ (inv_State i = ContractOpen \/ inv_State i = ContractAccepted) /\
    (inv_State i = ContractAccepted -> NewState sd <> ContractAccepted)) as (Ho & Hfrom & Hacc).
  { destruct (Z.eqb_spec (inv_State i) ContractAccepted) as [Ea|Ea].
    - destruct (Z.eqb_spec (NewState sd) ContractAccepted); [done|]. tauto.
    - destruct (Z.eqb_spec (inv_State i) ContractOpen); [tauto|].
      destruct (inv_State i =? ContractSettled); [done|]. by destruct (inv_State i =? ContractCanceled). }
  clear Hu. unfold open_ in Ho.
  assert (i = with_preimage i (PaymentPreimage (Terms i))) as Hself by (by destruct i as [? ? ? ? [] ? ? ? ? ? ? ?]).
  destruct (Z.eqb_spec (NewState sd) ContractCanceled) as [Ec|Ec].
  { injection Ho as <- <-. exists (PaymentPreimage (Terms i)). split_and!; try done; [by left|].
    rewrite Ec. done. }
  destruct (bool_decide_reflect (HTLCSet i (upd_SetID sd) HtlcStateAccepted = ∅)) as [|Hne]; [done|].
  destruct (upd_SetID sd) as [sid|] eqn:Esid.
  { destruct (upd_Preimage sd); [done|]. injection Ho as <- <-. exists (PaymentPreimage (Terms i)).
    split_and!; try done; by left. }
  destruct (upd_Preimage sd) as [q|] eqn:Eq.
  { destruct hash as [h|]; [|done]. destruct (bool_decide_reflect (digest q = h)); [|done].
    injection Ho as <- <-. exists (Some q). split_and!; try done. right. by exists q, h. }
  destruct (Z.eqb_spec (NewState sd) ContractAccepted) as [Ea|Ea].
  { injection Ho as <- <-. exists (PaymentPreimage (Terms i)). split_and!; try done; [by left|].
    rewrite Ea. done. }
  destruct (Z.eqb_spec (NewState sd) ContractSettled) as [Es|Es]; cbn [andb] in Ho.
  - destruct (bool_decide_reflect (PaymentPreimage (Terms i) = None)) as [|Hp]; [done|].
    injection Ho as <- <-. exists (PaymentPreimage (Terms i)). split_and!; try done; [by left|].
    intros _ _. by apply not_eq_None_Some.
  - injection Ho as <- <-. exists (PaymentPreimage (Terms i)). split_and!; try done. by left.
Qed.

Lemma update_invoice_state_ok now n hash isAMP update st st' :
  update_invoice_state now n hash isAMP update st = Ok st' ->
  us_sets st' = us_sets st /\
  match desc_State update with
  | None => us_invoice st' = us_invoice st /\ us_db st' = us_db st
  | Some sd =>
      exists p d x, transition_ok hash (us_invoice st) sd p /\
        us_invoice st' = restate (us_invoice st)
          (if negb isAMP || (NewState sd =? ContractCanceled) then NewState sd else inv_State (us_invoice st)) p d x /\
        if negb isAMP && (NewState sd =? ContractSettled) then
          let sx := default empty_settle_index (settleIndex (us_db st)) in
          d = now /\ x = NextSequence (settle_sequence sx) /\
          us_db st' = set_settle_index (us_db st)
            {| settle_sequence := x; settle_entries := <[x := (n, None)]> (settle_entries sx) |}
        else d = SettleDate (us_invoice st) /\ x = SettleIndex (us_invoice st) /\ us_db st' = us_db st
  end.
Proof.
  unfold update_invoice_state. destruct (desc_State update) as [sd|]; [|by intros [= <-]].
  intros (x & Ex & Hu)%bind_ok. destruct x as [i' ns].
  apply updateInvoiceState_ok in Ex as (p & -> & -> & Htr).
  destruct (negb isAMP && (NewState sd =? ContractSettled)) eqn:Es.
  - apply Ok_inj in Hu as <-. split; [done|].
    eexists p, now, _. split; [done|]. cbn [us_invoice us_db]. split; [|done].
    destruct (negb isAMP || _); by destruct (us_invoice st) as [? ? ? ? [] ? ? ? ? ? ? ?].
  - apply Ok_inj in Hu as <-. split; [done|].
    exists p, (SettleDate (us_invoice st)), (SettleIndex (us_invoice st)). split; [done|].
    cbn [us_invoice us_db]. split; [|done].
    destruct (negb isAMP || _); by destruct (us_invoice st) as [? ? ? ? [] ? ? ? ? ? ? ?].
Qed.

Lemma settle_sets_ok now n ids db i db' i' :
  settle_sets now n ids db i = (db', i') ->
  (ids = ∅ -> db' = db /\ i' = i) /\
  exists s, i' = reshape i (Htlcs i) (inv_AmtPaid i) s /\
    (exists sx, db' = db \/ db' = set_settle_index db sx) /\
    (wf_amp_states (AMPState i) -> ids ⊆ dom (AMPState i) -> wf_time now -> wf_amp_states s).
Proof.
  unfold settle_sets. intros Hs. split.
  { intros ->. assert (range_set (∅ : gset (list byte)) = []) as E.
    { unfold range_set. rewrite gset_to_gmap_empty.
      assert (range (∅ : gmap (list byte) unit) = []) as ->; [|done].
      apply Permutation_nil. by rewrite range_entries, map_to_list_empty. }
    rewrite E in Hs. by injection Hs as <- <-. }
  assert (forall id, id ∈ range_set ids -> id ∈ ids) as Hin.
  { intros id. unfold range_set. intros ([k []] & -> & Hk)%list_elem_of_fmap. rewrite range_entries in Hk.
    apply elem_of_map_to_list, lookup_gset_to_gmap_Some in Hk as [? _]. done. }
  revert db i Hs Hin. generalize (range_set ids). intros l. induction l as [|id l IH]; intros db i Hs Hin.
  - injection Hs as <- <-. exists (AMPState i). split; [apply reshape_self|]. split; [|done].
    exists empty_settle_index. by left.
  - cbn [foldl] in Hs. unfold setSettleMetaFields at 2 in Hs.
    set (sx := default empty_settle_index (settleIndex db)) in *.
    set (i1 := with_amp i _) in Hs. set (sx1 := {| settle_sequence := _; settle_entries := _ |}) in Hs.
    destruct (IH _ _ Hs ltac:(set_solver)) as (s & -> & (sx2 & Hdb) & Hw).
    exists s. split; [by destruct i|]. split.
    + destruct Hdb as [->| ->]; eexists; right; [done|by destruct db].
    + intros Hwf Hids Hnow. apply Hw; [|unfold i1; cbn [AMPState with_amp]; rewrite dom_insert_L; set_solver|done].
      unfold i1. cbn [AMPState with_amp]. apply map_Forall_insert_2; [|exact Hwf].
      destruct (AMPState i !! id) as [a|] eqn:Ea; [|exfalso].
      * apply Hwf in Ea as []. split; try done. apply u64_range.
      * specialize (Hids id (Hin id ltac:(set_solver))). apply elem_of_dom in Hids as [? ?]. congruence.
Qed.

(** ** A whole update *)

Definition accept_map (now : Time) (adds : gmap CircuitKey HtlcAcceptDesc) : gmap CircuitKey InvoiceHTLC :=
  (fun d => accepted_htlc now d (default ∅ (desc_CustomRecords d))) <$> adds.

Lemma accept_map_range now adds : list_to_map (accept_entry now <$> range adds) = accept_map now adds.
Proof.
  unfold accept_map. rewrite <- (range_to_map adds) at 2. unfold accept_entry.
  rewrite <- (list_to_map_fmap (fun d => accepted_htlc now d (default ∅ (desc_CustomRecords d)))).
  reflexivity.
Qed.

Lemma htlc_keys_NoDup i : NoDup (htlc_keys i).
Proof. apply range_NoDup. Qed.

Lemma elem_of_htlc_keys i k : k ∈ htlc_keys i <-> is_Some (Htlcs i !! k).
Proof.
  unfold htlc_keys. rewrite list_elem_of_fmap. split.
  - intros ([k' h] & -> & Hin). rewrite range_entries in Hin. apply elem_of_map_to_list in Hin. by eexists.
  - intros [h Hh]. exists (k, h). split; [done|]. rewrite range_entries. by apply elem_of_map_to_list.
Qed.

(** The state the update is for, and the set it concerns. *)
Definition update_set (update : InvoiceUpdateDesc) : option (list byte) :=
  match desc_State update with Some s => upd_SetID s | None => desc_SetID update end.

Definition update_new_state (i : Invoice) (update : InvoiceUpdateDesc) : Z :=
  match desc_State update with Some s => NewState s | None => inv_State i end.

(** The HTLCs after adding and canceling. *)
Definition changed_htlcs (now : Time) (i : Invoice) (update : InvoiceUpdateDesc) : gmap CircuitKey InvoiceHTLC :=
  map_imap (fun k h => Some (canceled_entry now (CancelHtlcs update) k h))
    (accept_map now (AddHtlcs update) ∪ Htlcs i).

Record applied (now : Time) (db : invoices_db) (n : Z) (hash : option (list byte)) (i : Invoice)
    (update : InvoiceUpdateDesc) (st : update_state) (state : Z) (p : option (list byte)) (d : Time) (x : Z)
    (m : gmap CircuitKey InvoiceHTLC) (paid : Z) (amp : AMPInvoiceState) : Prop := {
  app_invoice : us_invoice st = reshape (restate i state p d x) m paid amp;
  app_fresh : map_Forall (fun k dd => Htlcs i !! k = None /\ is_Some (desc_CustomRecords dd)) (AddHtlcs update);
  app_cancels : forall k, k ∈ CancelHtlcs update ->
    update_new_state i update = ContractOpen /\ AddHtlcs update !! k = None /\
    exists h, Htlcs i !! k = Some h /\ htlc_State h = HtlcStateAccepted;
  app_state : match desc_State update with
    | None => state = inv_State i /\ p = PaymentPreimage (Terms i) /\ d = SettleDate i /\ x = SettleIndex i
    | Some sd =>
        transition_ok hash (with_htlcs i (changed_htlcs now i update)) sd p /\
        state = (if negb (is_amp_invoice i) || (NewState sd =? ContractCanceled) then NewState sd else inv_State i) /\
        if negb (is_amp_invoice i) && (NewState sd =? ContractSettled)
        then d = now /\ x = NextSequence (settle_sequence (default empty_settle_index (settleIndex db)))
        else d = SettleDate i /\ x = SettleIndex i
    end;
  app_htlcs : forall k, match changed_htlcs now i update !! k with
    | None => m !! k = None
    | Some h => exists h' b, align_entry now update (update_set update) state k h = Ok (h', b) /\ m !! k = Some h'
    end;
  app_mpp : is_amp_invoice i = false ->
    paid = u64 (if state =? ContractOpen then 0 else paid_by m) /\ amp = AMPState i;
  app_paid : is_u64 paid;
  app_amp : wf_amp_states (AMPState i) -> wf_time now -> map_Forall (fun k _ => valid_key k) (Htlcs i) ->
    Forall wf_amp_desc (map_to_list (AddHtlcs update)) -> wf_amp_states amp;
  app_db : exists ids, exists sx, us_db st = set_setid_index db ids \/
    us_db st = set_settle_index (set_setid_index db ids) sx;
  app_settle : is_amp_invoice i = false -> settleIndex (us_db st) =
    match desc_State update with
    | Some sd => if NewState sd =? ContractSettled then
        let sx := default empty_settle_index (settleIndex db) in
        Some {| settle_sequence := x; settle_entries := <[x := (n, None)]> (settle_entries sx) |}
      else settleIndex db
    | None => settleIndex db
    end;
}.

Lemma apply_update_ok now db n hash i update st :
  apply_update now db n hash i update = Ok st ->
  exists state p d x m paid amp, applied now db n hash i update st state p d x m paid amp.
Proof.
  unfold apply_update. set (isAMP := is_amp_invoice i).
  assert (exists ns sid, match desc_State update with
    | Some s => (NewState s, upd_SetID s) | None => (inv_State i, desc_SetID update) end = (ns, sid) /\
    ns = update_new_state i update /\ sid = update_set update) as (ns & sid & -> & Hns & Hsid).
  { unfold update_new_state, update_set. destruct (desc_State update); by do 2 eexists. }
  intros (st1 & E1 & Hu)%bind_ok. apply bind_ok in Hu as ([st2 C2] & E2 & Hu).
  destruct (bool_decide_reflect (C2 = ∅)) as [->|]; [|done]. cbn [negb] in Hu.
  apply bind_ok in Hu as (st3 & E3 & Hu). apply bind_ok in Hu as (al & E4 & Hu).
  destruct (settle_sets _ _ _ _ _) as [db5 i5] eqn:E5. apply Ok_inj in Hu as <-.
  apply add_loop in E1 as [Hfresh Hcust (s1 & I1 & A1 & W1) [ids D1]]; [|apply range_NoDup].
  cbn [us_invoice us_db us_sets] in *. rewrite accept_map_range in I1.
  apply cancel_loop in E2 as [(m2 & p2 & s2 & I2 & M2 & A2 & P2 & W2) V2 L2 D2]; [|apply htlc_keys_NoDup].
  apply update_invoice_state_ok in E3 as [T3 S3].
  apply align_loop in E4 as [(m4 & s4 & I4 & O4 & V4 & A4 & W4 & K4) D4 P4]; [|apply htlc_keys_NoDup].
  cbn [al_state al_settled al_paid] in *.
  apply settle_sets_ok in E5 as [N5 (s5 & -> & (sx & D5) & W5)].
  assert (m2 = changed_htlcs now i update) as ->.
  { apply map_eq. intros k. rewrite M2, I1. unfold changed_htlcs. rewrite map_lookup_imap.
    cbn [Htlcs reshape with_amp with_paid with_htlcs].
    case_bool_decide as Hk.
    - by destruct ((accept_map now (AddHtlcs update) ∪ Htlcs i) !! k).
    - rewrite elem_of_htlc_keys in Hk. apply eq_None_not_Some in Hk. cbn in Hk. by rewrite Hk. }
  rewrite I1 in I2. rewrite reshape_twice in I2. set (ch := changed_htlcs now i update) in *.
  assert (exists state p d x, us_invoice st3 = reshape (restate i state p d x) ch p2 s2 /\
    match desc_State update with
    | None => (state = inv_State i /\ p = PaymentPreimage (Terms i) /\ d = SettleDate i /\ x = SettleIndex i) /\
        us_db st3 = us_db st2
    | Some sd =>
        transition_ok hash (with_htlcs i ch) sd p /\
        state = (if negb isAMP || (NewState sd =? ContractCanceled) then NewState sd else inv_State i) /\
        if negb isAMP && (NewState sd =? ContractSettled)
        then (d = now /\ x = NextSequence (settle_sequence (default empty_settle_index (settleIndex (us_db st2))))) /\
          us_db st3 = set_settle_index (us_db st2) {| settle_sequence := x;
            settle_entries := <[x := (n, None)]> (settle_entries (default empty_settle_index (settleIndex (us_db st2)))) |}
        else (d = SettleDate i /\ x = SettleIndex i) /\ us_db st3 = us_db st2
    end) as (state & p & d & x & I3 & X3).
  { destruct (desc_State update) as [sd|].
    - destruct S3 as (p & d & x & Htr & I3 & Hrest). exists (if negb isAMP || (NewState sd =? ContractCanceled) then NewState sd else inv_State i), p, d, x.
      rewrite I3, I2. split; [by destruct i|].
      split; [|split; [done|]].
      + rewrite I2 in Htr. destruct Htr. split; assumption.
      + rewrite I2 in Hrest. destruct (negb isAMP && _); cbv zeta in Hrest; destruct Hrest as (-> & -> & ->); done.
    - destruct S3 as [I3 ->]. exists (inv_State i), (PaymentPreimage (Terms i)), (SettleDate i), (SettleIndex i).
      split; [|done]. rewrite I3, I2. by destruct i as [? ? ? ? [] ? ? ? ? ? ? ?]. }
  clear S3. rewrite I3 in I4, O4, V4, A4, W4, K4.
  assert (forall k, k ∈ htlc_keys (us_invoice st3) <-> is_Some (ch !! k)) as Hkeys by (intros k; by rewrite elem_of_htlc_keys, I3).
  rewrite I3 in Hkeys. set (kl := htlc_keys (reshape (restate i state p d x) ch p2 s2)) in *.
  cbn [Htlcs inv_AmtPaid AMPState inv_State reshape with_amp with_paid with_htlcs restate with_settle with_preimage
    with_state] in I4, O4, V4, A4, W4, K4, N5, W5.
  rewrite I4 in *. rewrite reshape_twice in *.
  exists state, p, d, x, m4, (if isAMP then u64 (p2 + al_paid al) else al_paid al), s5.
  split.
  - by destruct i.
  - intros k dd Hk. rewrite Forall_forall in Hfresh, Hcust.
    assert ((k, dd) ∈ range (AddHtlcs update)) as Hin by (rewrite range_entries; by apply elem_of_map_to_list).
    split; [by apply (Hfresh (k, dd))|by apply (Hcust (k, dd))].
  - intros k Hk. assert (is_Some (Htlcs (us_invoice st1) !! k)) as [h Hh].
    { destruct (Htlcs (us_invoice st1) !! k) eqn:E; [by eexists|]. exfalso.
      apply (elem_of_empty (C := gset CircuitKey) k), L2. split; [done|]. intros [_ [? ?]]. congruence. }
    destruct (V2 k h) as (Hopen & Hst & Hadd); [by apply elem_of_htlc_keys; eexists|done..|].
    rewrite <- Hns. split; [done|]. split; [done|]. exists h. split; [|done].
    rewrite I1 in Hh. cbn [Htlcs reshape with_amp with_paid with_htlcs] in Hh. apply lookup_union_Some_raw in Hh as [Hh|[_ ?]]; [|done].
    unfold accept_map in Hh. by rewrite lookup_fmap, Hadd in Hh.
  - destruct (desc_State update) as [sd|]; [|tauto]. destruct X3 as (Htr & Est & X3). split; [done|]. split; [done|].
    rewrite D2, D1 in X3. fold isAMP. destruct (negb isAMP && _); exact (proj1 X3).
  - intros k. rewrite <- Hsid. fold ch. destruct (ch !! k) as [h|] eqn:Ek.
    + specialize (V4 k). rewrite Hkeys in V4. specialize (V4 (ex_intro _ h Ek)). rewrite Ek in V4. exact V4.
    + rewrite O4; [done|]. rewrite Hkeys, Ek. by intros [? ?].
  - intros Ha. destruct (A4 Ha) as (-> & _ & Hempty & Hp4). destruct (N5 Hempty) as [_ Hself].
    assert (kl ≡ₚ (map_to_list m4).*1) as Hperm.
    { apply NoDup_Permutation; [apply htlc_keys_NoDup|apply NoDup_fst_map_to_list|].
      intros k. rewrite Hkeys, list_elem_of_fmap. split.
      - intros [h Hh]. specialize (V4 k (proj2 (Hkeys k) ltac:(by eexists))). rewrite Hh in V4.
        destruct V4 as (h' & b & _ & Hm). exists (k, h'). split; [done|]. by apply elem_of_map_to_list.
      - intros ([k' h] & -> & Hin%elem_of_map_to_list). cbn [fst].
        destruct (ch !! k') eqn:Ek; [by eexists|]. rewrite O4 in Hin; [congruence|].
        rewrite Hkeys, Ek. by intros [? ?]. }
    split.
    + change (is_amp_invoice i) with isAMP in Ha. rewrite Ha, Hp4 by done. f_equal. destruct (state =? ContractOpen).
      * clearbody kl. clear. induction kl as [|k l IH]; [done|]. simpl in *. lia.
      * rewrite Z.add_0_l. by apply paid_by_keys.
    + destruct (A2 Ha) as (_ & E2 & _), (A1 Ha) as [E1 _]. apply (f_equal AMPState) in Hself. cbn in Hself.
      rewrite Hself, E2, I1. cbn. congruence.
  - destruct isAMP; [apply u64_range|by apply P4].
  - intros Hw Hnow Hv Hd.
    assert (map_Forall (fun k _ => valid_key k) (accept_map now (AddHtlcs update) ∪ Htlcs i)) as Hv1.
    { intros k h [Hk|[_ Hk]]%lookup_union_Some_raw; [|by eapply Hv].
      unfold accept_map in Hk. rewrite lookup_fmap in Hk. apply fmap_Some in Hk as (dd & Hk & _).
      rewrite Forall_forall in Hd. by destruct (Hd (k, dd) (proj2 (elem_of_map_to_list _ _ _) Hk)). }
    apply W5; [apply W4; [apply W2|]| |done].
    + rewrite I1. apply W1; [done|]. by rewrite range_entries.
    + by rewrite I1.
    + intros k h Hk. unfold ch, changed_htlcs in Hk. rewrite map_lookup_imap in Hk.
      apply bind_Some in Hk as (h0 & Hk & _). by eapply Hv1.
    + apply K4. set_solver.
  - rewrite D4 in D5. exists ids. cbn [us_db].
    assert (exists sy, us_db st3 = set_setid_index db ids \/ us_db st3 = set_settle_index (set_setid_index db ids) sy)
      as [sy X4].
    { rewrite D2, D1 in X3. destruct (desc_State update) as [sd|]; [|exists empty_settle_index; left; apply X3].
      destruct X3 as (_ & _ & X3). destruct (negb isAMP && _); destruct X3 as [_ ->]; eexists; [by right|by left].
      Unshelve. exact empty_settle_index. }
    destruct D5 as [->| ->], X4 as [->| ->]; eexists; [by left|by right|by right|right; by destruct db].
    Unshelve. all: exact empty_settle_index.
  - intros Ha. cbn [us_db]. destruct (A4 Ha) as (_ & _ & Hempty & _). destruct (N5 Hempty) as [-> _].
    rewrite D4. rewrite D2, D1 in X3. destruct (desc_State update) as [sd|]; [|by rewrite (proj2 X3)].
    destruct X3 as (_ & _ & X3). unfold isAMP in *. rewrite Ha in X3. cbn [negb andb] in X3.
    destruct (NewState sd =? ContractSettled); by rewrite (proj2 X3).
Qed.

(** ** Invoices that are not AMP invoices *)

(** The states an HTLC can have on an invoice: a set is settled or canceled as a whole. *)
Definition fits (state hstate : Z) : Prop :=
  (state = ContractOpen \/ state = ContractAccepted) /\ (hstate = HtlcStateAccepted \/ hstate = HtlcStateCanceled) \/
  state = ContractSettled /\ (hstate = HtlcStateSettled \/ hstate = HtlcStateCanceled) \/
  state = ContractCanceled /\ hstate = HtlcStateCanceled.

Record mpp_ok (i : Invoice) : Prop := {
  mo_htlcs : map_Forall (fun _ h => htlc_AMP h = None /\ fits (inv_State i) (htlc_State h) /\ 0 <= htlc_Amt h)
               (Htlcs i);
  mo_state : inv_State i = ContractOpen \/ inv_State i = ContractSettled \/
             inv_State i = ContractCanceled \/ inv_State i = ContractAccepted;
  mo_paid : inv_AmtPaid i = u64 (if inv_State i =? ContractOpen then 0 else paid_by (Htlcs i));
  mo_value : inv_State i = ContractAccepted \/ inv_State i = ContractSettled ->
             term_Value (Terms i) <= paid_by (Htlcs i);
  mo_preimage : inv_State i = ContractSettled -> is_Some (PaymentPreimage (Terms i));
}.

Lemma paid_by_pointwise m m' :
  (forall k, live_amt <$> m !! k = live_amt <$> m' !! k) -> paid_by m = paid_by m'.
Proof.
  intros Hm. assert (live_amt <$> m = live_amt <$> m') as E by (apply map_eq; intros k; by rewrite !lookup_fmap).
  assert (forall m : gmap CircuitKey InvoiceHTLC, paid_by m = zsum id (map_to_list (live_amt <$> m)).*2) as Hp.
  { intros m0. rewrite map_to_list_fmap. unfold paid_by. rewrite !zsum_fmap. by apply zsum_ext. }
  by rewrite !Hp, E.
Qed.

Lemma paid_by_union m1 m2 : m1 ##ₘ m2 -> paid_by (m1 ∪ m2) = paid_by m1 + paid_by m2.
Proof.
  induction m1 as [|k h m1 Hk IH] using map_ind; intros Hd.
  - by rewrite (left_id_L ∅ (∪)).
  - apply map_disjoint_insert_l in Hd as [Hk2 Hd]. rewrite <- insert_union_l, paid_by_insert, paid_by_insert, IH;
      [lia|done..|by apply lookup_union_None].
Qed.

(** What becomes of an HTLC without AMP data. *)
Lemma updateHtlc_mpp now h state h' b :
  htlc_AMP h = None -> updateHtlc now h state None = Ok (h', b) ->
  (state = ContractOpen \/ state = ContractSettled \/ state = ContractCanceled \/ state = ContractAccepted) /\
  htlc_AMP h' = None /\ htlc_Amt h' = htlc_Amt h /\
  ((htlc_State h = HtlcStateAccepted \/ htlc_State h = HtlcStateCanceled \/
    htlc_State h = HtlcStateSettled) -> fits state (htlc_State h')) /\
  (state <> ContractCanceled -> live h' = live h).
Proof.
  intros Ha. unfold updateHtlc, trySettle, IsInHTLCSet. rewrite Ha. cbn [negb mbind res_bind].
  unfold fits, live, ContractOpen, ContractSettled, ContractCanceled, ContractAccepted,
    HtlcStateAccepted, HtlcStateCanceled, HtlcStateSettled.
  destruct (Z.eqb_spec state 1) as [->|H1'].
  { destruct (Z.eqb_spec (htlc_State h) 0) as [E|E]; cbn [negb]; intros [= <- <-]; simpl; rewrite ?E;
      split_and!; try done; intros; lia || (split_and!; lia). }
  destruct (Z.eqb_spec (htlc_State h) 2) as [|H2']; [done|].
  destruct (Z.eqb_spec state 2) as [->|H3'].
  { intros [= <- <-]. destruct (Z.eqb_spec (htlc_State h) 0) as [E|E]; simpl; split_and!; try done; lia. }
  destruct (Z.eqb_spec state 3) as [->|H4'].
  { destruct (Z.eqb_spec (htlc_State h) 0) as [E|E]; cbn [negb]; intros [= <- <-]; split_and!; try done; lia. }
  destruct (Z.eqb_spec state 0) as [->|H5']; [|done]. intros [= <- <-]. split_and!; try done; lia.
Qed.

(** The updates the registry asks for on such invoices. *)
Record mpp_desc (now : Time) (i : Invoice) (update : InvoiceUpdateDesc) : Prop := {
  md_set : update_set update = None;
  md_preimages : forall sd, desc_State update = Some sd -> HTLCPreimages sd = ∅;
  md_state : forall sd, desc_State update = Some sd ->
    NewState sd = ContractSettled \/ NewState sd = ContractCanceled \/ NewState sd = ContractAccepted;
  md_adds : map_Forall (fun _ d => desc_AMP d = None /\ 0 <= desc_Amt d) (AddHtlcs update);
  md_value : forall sd, desc_State update = Some sd ->
    NewState sd = ContractAccepted \/ NewState sd = ContractSettled ->
    term_Value (Terms i) <= paid_by (accept_map now (AddHtlcs update) ∪ Htlcs i);
}.

Lemma accept_map_disjoint now adds m :
  map_Forall (fun k dd => m !! k = None /\ is_Some (desc_CustomRecords dd)) adds -> accept_map now adds ##ₘ m.
Proof.
  intros Hf. apply map_disjoint_spec. intros k x y Hx Hy. unfold accept_map in Hx.
  rewrite lookup_fmap in Hx. apply fmap_Some in Hx as (dd & Hd & _). apply Hf in Hd as [Hd _]. congruence.
Qed.

(** Canceling only happens on an open invoice. *)
Lemma no_cancels now i update :
  (forall k, k ∈ CancelHtlcs update ->
     update_new_state i update = ContractOpen /\ AddHtlcs update !! k = None /\
     exists h, Htlcs i !! k = Some h /\ htlc_State h = HtlcStateAccepted) ->
  update_new_state i update <> ContractOpen ->
  changed_htlcs now i update = accept_map now (AddHtlcs update) ∪ Htlcs i.
Proof.
  intros Hc Hne. apply map_eq. intros k. unfold changed_htlcs. rewrite map_lookup_imap.
  destruct (_ !! k) as [h|]; [|done]. cbn [mbind option_bind]. unfold canceled_entry.
  rewrite bool_decide_false; [done|]. intros Hk. by destruct (Hc k Hk).
Qed.

Lemma changed_mpp now i update k h :
  mpp_ok i -> mpp_desc now i update -> changed_htlcs now i update !! k = Some h ->
  htlc_AMP h = None /\ 0 <= htlc_Amt h /\
  (htlc_State h = HtlcStateAccepted \/ htlc_State h = HtlcStateCanceled \/ htlc_State h = HtlcStateSettled).
Proof.
  intros Hok Hd Hk. unfold changed_htlcs in Hk. rewrite map_lookup_imap in Hk.
  apply bind_Some in Hk as (h0 & Hk & [= <-]).
  assert (htlc_AMP h0 = None /\ 0 <= htlc_Amt h0 /\ (htlc_State h0 = HtlcStateAccepted \/
    htlc_State h0 = HtlcStateCanceled \/ htlc_State h0 = HtlcStateSettled)) as (Ha & Hn & Hs).
  { apply lookup_union_Some_raw in Hk as [Hk|[_ Hk]].
    - unfold accept_map in Hk. rewrite lookup_fmap in Hk. apply fmap_Some in Hk as (dd & Hdd & ->).
      apply (md_adds _ _ _ Hd) in Hdd as [? ?]. simpl. tauto.
    - apply (mo_htlcs _ Hok) in Hk as (? & Hfit & ?). unfold fits in Hfit. tauto. }
  unfold canceled_entry. case_bool_decide; simpl; tauto.
Qed.

Lemma mpp_update now db n hash i update st state p d x m paid amp :
  is_amp_invoice i = false -> mpp_ok i -> mpp_desc now i update ->
  applied now db n hash i update st state p d x m paid amp -> mpp_ok (us_invoice st).
Proof.
  intros Hamp Hok Hd [Hi Hfr Hca Hst Hh Hm _ _ _ _]. destruct (Hm Hamp) as [Hpaid ->].
  pose proof (md_set _ _ _ Hd) as Hset. rewrite Hset in Hh.
  assert (forall k, match changed_htlcs now i update !! k with
    | None => m !! k = None
    | Some h => exists h' b, updateHtlc now h state None = Ok (h', b) /\ m !! k = Some h'
    end) as Hh'.
  { intros k. specialize (Hh k). destruct (changed_htlcs now i update !! k) as [h|]; [|done].
    destruct Hh as (h' & b & E & Hk). exists h', b. split; [|done]. unfold align_entry in E.
    destruct (desc_State update) as [sd|] eqn:Esd; cbn [mbind res_bind] in E; [|done].
    by rewrite (md_preimages _ _ _ Hd sd Esd), bool_decide_true in E. }
  clear Hh.
  assert (forall k h', m !! k = Some h' -> exists h, changed_htlcs now i update !! k = Some h /\
    htlc_AMP h' = None /\ htlc_Amt h' = htlc_Amt h /\ 0 <= htlc_Amt h /\ fits state (htlc_State h')) as Hpt.
  { intros k h' Hk. specialize (Hh' k). destruct (changed_htlcs now i update !! k) as [h|] eqn:Ek; [|congruence].
    destruct Hh' as (h1 & b & E & Hk1). assert (h1 = h') as -> by congruence.
    destruct (changed_mpp now i update k h Hok Hd Ek) as (Ha & Hn & Hs).
    apply updateHtlc_mpp in E as (_ & Ha' & Hamt & Hfit & _); [|done]. exists h. split_and!; auto. }
  assert (state <> ContractCanceled -> paid_by m = paid_by (changed_htlcs now i update)) as Hpb.
  { intros Hnc. apply paid_by_pointwise. intros k. specialize (Hh' k).
    destruct (changed_htlcs now i update !! k) as [h|] eqn:Ek; [|by rewrite Hh'].
    destruct Hh' as (h1 & b & E & ->). destruct (changed_mpp now i update k h Hok Hd Ek) as (Ha & Hn & Hs).
    apply updateHtlc_mpp in E as (_ & _ & Hamt & _ & Hl); [|done]. simpl. unfold live_amt. by rewrite Hamt, Hl. }
  rewrite Hi. split; cbn [Htlcs inv_State inv_AmtPaid Terms reshape restate with_amp with_paid with_htlcs
    with_settle with_preimage with_state term_Value PaymentPreimage].
  - intros k h' Hk. destruct (Hpt k h' Hk) as (h & _ & ? & -> & ? & ?). done.
  - destruct (desc_State update) as [sd|] eqn:Esd.
    + destruct Hst as (_ & -> & _). rewrite Hamp. cbn [negb orb]. pose proof (md_state _ _ _ Hd sd Esd). tauto.
    + destruct Hst as [-> _]. apply (mo_state _ Hok).
  - done.
  - intros Hs. assert (state <> ContractCanceled /\ state <> ContractOpen) as [Hnc Hno]
      by (destruct Hs as [->| ->]; done).
    assert (update_new_state i update = state) as Hnew.
    { unfold update_new_state. destruct (desc_State update) as [sd|]; destruct Hst as [? Hst]; [|done].
      destruct Hst as [-> _]. by rewrite Hamp. }
    rewrite (Hpb Hnc), (no_cancels now i update Hca) by (by rewrite Hnew).
    destruct (desc_State update) as [sd|] eqn:Esd.
    + apply (md_value _ _ _ Hd sd Esd). unfold update_new_state in Hnew. rewrite Esd in Hnew. by rewrite Hnew.
    + destruct Hst as [-> _]. rewrite paid_by_union by (by apply accept_map_disjoint).
      pose proof (mo_value _ Hok Hs). assert (0 <= paid_by (accept_map now (AddHtlcs update))); [|lia].
      apply paid_by_nonneg. intros k h Hk. unfold accept_map in Hk. rewrite lookup_fmap in Hk.
      apply fmap_Some in Hk as (dd & Hdd & ->). by apply (md_adds _ _ _ Hd) in Hdd as [_ ?].
  - intros ->. destruct (desc_State update) as [sd|] eqn:Esd.
    + destruct Hst as (Htr & Es & _). rewrite Hamp in Es. apply (tr_known _ _ _ _ Htr); [done|].
      unfold update_set in Hset. by rewrite Esd in Hset.
    + destruct Hst as (Es & -> & _). by apply (mo_preimage _ Hok).
Qed.

(** ** Well-formedness *)

Record wf_desc (k : CircuitKey) (d : HtlcAcceptDesc) : Prop := {
  wd_key : valid_key k;
  wd_amt : is_u64 (desc_Amt d);
  wd_total : is_u64 (desc_MppTotalAmt d);
  wd_expiry : is_u32 (desc_Expiry d);
  wd_custom : forall c, desc_CustomRecords d = Some c -> wf_custom c;
  wd_amp : forall a, desc_AMP d = Some a -> wf_amp_data a;
}.

Record wf_update (now : Time) (update : InvoiceUpdateDesc) : Prop := {
  wu_now : wf_stamp now;
  wu_adds : map_Forall wf_desc (AddHtlcs update);
  wu_state : forall sd, desc_State update = Some sd -> is_u8 (NewState sd) /\
    (forall p, upd_Preimage sd = Some p -> length p = 32%nat) /\
    map_Forall (fun _ p => length p = 32%nat) (HTLCPreimages sd);
}.

(** An HTLC is left alone or resolved, and an AMP HTLC may learn its preimage. *)
Lemma set_htlc_preimage_ok h o h1 :
  set_htlc_preimage h o = Ok h1 ->
  h1 = h \/ exists p a, o = Some p /\ htlc_AMP h = Some a /\ amp_Preimage a = None /\ h1 = with_amp_preimage h p.
Proof.
  unfold set_htlc_preimage. destruct o as [p|]; [|intros [= <-]; by left].
  destruct (htlc_AMP h) as [a|] eqn:Ea; [|done]. destruct (amp_Preimage a) as [q|] eqn:Ep.
  - case_bool_decide; [|done]. intros [= <-]. by left.
  - intros [= <-]. right. by exists p, a.
Qed.

Lemma updateHtlc_ok now h state sid h' b :
  updateHtlc now h state sid = Ok (h', b) ->
  h' = h \/ (h' = resolve_htlc h HtlcStateCanceled now /\ htlc_State h = HtlcStateAccepted) \/
  h' = resolve_htlc h HtlcStateSettled now /\ state = ContractSettled /\ htlc_State h = HtlcStateAccepted /\
    IsInHTLCSet h sid = true /\
    forall a, sid <> None -> htlc_AMP h = Some a -> exists p, amp_Preimage a = Some p /\ digest p = amp_Hash a.
Proof.
  unfold updateHtlc.
  assert (forall persist, trySettle now h sid persist = Ok (h', b) -> h' = h \/ persist = true /\
    h' = resolve_htlc h HtlcStateSettled now /\ htlc_State h = HtlcStateAccepted /\ IsInHTLCSet h sid = true /\
    forall a, sid <> None -> htlc_AMP h = Some a -> exists p, amp_Preimage a = Some p /\ digest p = amp_Hash a) as Htry.
  { intros persist. unfold trySettle. destruct (Z.eqb_spec (htlc_State h) HtlcStateAccepted) as [Es|]; cbn [negb];
      [|intros [= <- <-]; by left].
    destruct (IsInHTLCSet h sid) eqn:Ein; cbn [negb]; [|intros [= <- <-]; by left].
    intros (u & Eu & Hp)%bind_ok. destruct persist; injection Hp as <- <-; [|by left].
    right. split_and!; try done. intros a Hsid Ha. destruct sid as [id|]; [|done]. rewrite Ha in Eu.
    destruct (amp_Preimage a) as [p|]; [|done]. case_bool_decide; [|done]. by exists p. }
  destruct (Z.eqb_spec state ContractSettled) as [->|].
  { intros [->|(_ & -> & ?)]%Htry; [by left|right; right; tauto]. }
  destruct (_ =? HtlcStateSettled); [done|]. destruct (_ =? ContractCanceled).
  { intros [= <- <-]. destruct (Z.eqb_spec (htlc_State h) HtlcStateAccepted); auto. }
  destruct (_ =? ContractAccepted).
  { intros [->|(? & _)]%Htry; [by left|done]. }
  destruct (_ =? ContractOpen); [|done]. intros [= <- <-]. by left.
Qed.

Lemma wf_resolve now h s : wf_stamp now -> is_u8 s -> wf_htlc h -> wf_htlc (resolve_htlc h s now).
Proof. intros Hn Hs []. by split. Qed.

Lemma wf_with_preimage h p : length p = 32%nat -> wf_htlc h -> wf_htlc (with_amp_preimage h p).
Proof.
  intros Hp Hh. pose proof (wfh_amp h Hh) as Hamp. destruct Hh. split; try done. simpl.
  intros a Ha. apply fmap_Some in Ha as (a0 & Ha & ->). destruct (Hamp a0 Ha) as (? & ? & _). split_and!; [done..|]. simpl. by intros q [= <-].
Qed.

Lemma wf_align now update sid state k h h' b :
  wf_update now update -> wf_htlc h -> align_entry now update sid state k h = Ok (h', b) -> wf_htlc h'.
Proof.
  intros [Hn _ Hs] Hh. unfold align_entry. intros (h1 & E1 & E2)%bind_ok.
  assert (wf_htlc h1) as Hh1.
  { destruct sid; [|by injection E1 as <-]. destruct (desc_State update) as [sd|] eqn:Esd; [|by injection E1 as <-].
    apply set_htlc_preimage_ok in E1 as [->|(p & a & Ep & _ & _ & ->)]; [done|].
    apply wf_with_preimage; [|done]. destruct (Hs sd eq_refl) as (_ & _ & Hp). by eapply Hp. }
  apply updateHtlc_ok in E2 as [->|[[-> _]|[-> _]]]; [done|by apply wf_resolve|by apply wf_resolve].
Qed.

Lemma wf_changed now i update :
  wf_update now update -> wf_htlcs (Htlcs i) -> wf_htlcs (changed_htlcs now i update).
Proof.
  intros [Hn Ha _] Hh k h Hk. unfold changed_htlcs in Hk. rewrite map_lookup_imap in Hk.
  apply bind_Some in Hk as (h0 & Hk & [= <-]).
  assert (valid_key k /\ wf_htlc h0) as [Hv Hw].
  { apply lookup_union_Some_raw in Hk as [Hk|[_ Hk]]; [|by apply Hh].
    unfold accept_map in Hk. rewrite lookup_fmap in Hk. apply fmap_Some in Hk as (d & Hd & ->).
    apply Ha in Hd. pose proof (wd_custom _ _ Hd) as Hcu. destruct Hd. split; [done|]. split; try done.
    - apply Z.mod_pos_bound. lia.
    - simpl. destruct (desc_CustomRecords d) as [c|]; [by apply Hcu|]. apply map_Forall_empty. }
  split; [done|]. unfold canceled_entry. case_bool_decide; [by apply wf_resolve|done].
Qed.

Lemma wf_applied now db n hash i update st state p d x m paid amp :
  wf_invoice i -> wf_update now update ->
  applied now db n hash i update st state p d x m paid amp -> wf_invoice (us_invoice st).
Proof.
  intros Hw Hu [Hi Hfr Hca Hst Hh Hm Hp Ham _ _]. pose proof Hu as [Hn Ha Hs]. pose proof (wfi_htlcs i Hw) as Hwhs.
  pose proof Hw as [].
  rewrite Hi. split; cbn [Htlcs inv_State inv_AmtPaid Terms reshape restate with_amp with_paid with_htlcs Memo
    inv_PaymentRequest CreationDate SettleDate AddIndex SettleIndex AMPState
    with_settle with_preimage with_state term_Value PaymentPreimage FinalCltvDelta term_Expiry PaymentAddr term_Features];
    try done.
  - destruct (desc_State update) as [sd|]; [|by destruct Hst as (_ & _ & -> & _)].
    destruct Hst as (_ & _ & Hst). destruct (_ && _); destruct Hst as [-> _]; [apply Hn|done].
  - destruct (desc_State update) as [sd|]; [|by destruct Hst as (_ & _ & _ & ->)].
    destruct Hst as (_ & _ & Hst). destruct (_ && _); destruct Hst as [_ ->]; [apply u64_range|done].
  - destruct (desc_State update) as [sd|]; [|by destruct Hst as (_ & -> & _)].
    destruct Hst as (Htr & _). destruct (tr_preimage _ _ _ _ Htr) as [->|(q & hh & Hq & _ & _ & ->)]; [done|].
    intros q' [= <-]. destruct (Hs sd eq_refl) as (_ & Hl & _). by apply Hl.
  - destruct (desc_State update) as [sd|]; [|by destruct Hst as (-> & _)].
    destruct Hst as (_ & -> & _). destruct (_ || _); [|done]. by destruct (Hs sd eq_refl).
  - apply Ham; [done|apply Hn| |].
    + eapply map_Forall_impl; [exact Hwhs|]. by intros ? ? [? _].
    + apply Forall_forall. intros [k dd] Hk%elem_of_map_to_list. apply Ha in Hk. split; [apply (wd_key _ _ Hk)|].
      intros a Hd. by destruct (wd_amp _ _ Hk a Hd) as ((_ & ? & _) & _).
  - pose proof (wf_changed now i update Hu Hwhs) as Hch. intros k h' Hk. specialize (Hh k).
    destruct (changed_htlcs now i update !! k) as [h|] eqn:Ek; [|congruence].
    destruct Hh as (h1 & b & E & Hk1). assert (h1 = h') as -> by congruence.
    destruct (Hch k h Ek) as [Hv Hwf]. split; [done|]. by eapply wf_align.
Qed.
End Loops.
