(* ===== verification/PaymentInv.v ===== *)
(** * What the payment database holds

    Lemmas on [Payments.v]: how a payment is read from its bucket, its status and its
    sums, the invariant of the database, and that every operation preserves it. *)

From Stdlib Require Import Lia.
From S2P Require Import Prelude Ids Tlv PaymentCodec Payments.

(** ** Buckets *)

Lemma bucket_entries_Permutation {V} (m : gmap Z V) : bucket_entries m ≡ₚ map_to_list m.
Proof. apply merge_sort_Permutation. Qed.

Lemma bucket_entries_NoDup {V} (m : gmap Z V) : NoDup (bucket_entries m).*1.
Proof. rewrite bucket_entries_Permutation. apply NoDup_fst_map_to_list. Qed.

Lemma bucket_entries_map {V} (m : gmap Z V) : list_to_map (bucket_entries m) = m.
Proof.
  etrans; [|apply (list_to_map_to_list m)].
  apply list_to_map_proper; [apply bucket_entries_NoDup|apply bucket_entries_Permutation].
Qed.

Lemma bucket_entries_length {V} (m : gmap Z V) : length (bucket_entries m) = size m.
Proof. rewrite bucket_entries_Permutation. apply length_map_to_list. Qed.

Lemma elem_of_bucket_entries {V} (m : gmap Z V) k v : (k, v) ∈ bucket_entries m <-> m !! k = Some v.
Proof. rewrite bucket_entries_Permutation. apply elem_of_map_to_list. Qed.

Lemma elem_of_bucket_values {V} (m : gmap Z V) v :
  v ∈ (bucket_entries m).*2 <-> exists k, m !! k = Some v.
Proof.
  rewrite list_elem_of_fmap. split.
  - intros ([k v'] & -> & Hin). exists k. by apply elem_of_bucket_entries.
  - intros [k Hk]. exists (k, v). by rewrite elem_of_bucket_entries.
Qed.

Lemma for_each_app {A B} (f : A -> B -> res B) l1 l2 b :
  for_each f (l1 ++ l2) b = (b' ← for_each f l1 b; for_each f l2 b').
Proof.
  revert b. induction l1 as [|a l1 IH]; intros b; [done|]. simpl.
  destruct (f a b); simpl; [apply IH|done..].
Qed.

(** A callback that appends at most what it selects. *)
Lemma for_each_collect {A B} (f : A -> list B -> res (list B)) (g : A -> list B) l :
  (forall a acc, a ∈ l -> f a acc = Ok (acc ++ g a)) ->
  forall acc, for_each f l acc = Ok (acc ++ concat (g <$> l)).
Proof.
  induction l as [|a l IH]; intros Hf acc; [simpl; by rewrite app_nil_r|].
  simpl. rewrite Hf by (left; reflexivity). rsimpl. rewrite IH.
  - by rewrite <- app_assoc.
  - intros x acc' Hx. apply Hf. by right.
Qed.

(** ** The attempts of a payment *)

Section Attempts.
Context `{Secp256k1, VarBytes, MapRange, FailureCodec}.

Lemma update_attempts put l : forall m m',
  NoDup l.*1 ->
  for_each (update_attempt put) l m = Ok m' <->
  forall k, match (list_to_map l : gmap Z (list byte)) !! k with
            | None => m' !! k = m !! k
            | Some v => exists h, put k v (default empty_attempt (m !! k)) = Ok h /\
                m' !! k = Some h
            end.
Proof.
  induction l as [|[k v] l IH]; intros m m' Hn.
  - simpl. split.
    + intros [= <-] k. by rewrite lookup_empty.
    + intros He. f_equal. apply map_eq. intros k. specialize (He k). by rewrite lookup_empty in He.
  - apply NoDup_cons in Hn as [Hk Hn]. apply not_elem_of_list_to_map_1 in Hk. cbn [fst] in Hk.
    cbn [for_each].
    change (update_attempt put (k, v) m) with
      (h ← put k v (default empty_attempt (m !! k)); Ok (<[k := h]> m)). split.
    + intros (m1 & Hm1 & Hr)%bind_ok. apply bind_ok in Hm1 as (h & Hh & [= <-]).
      intros k'. pose proof (proj1 (IH _ _ Hn) Hr k') as Hr'. clear Hr. rename Hr' into Hr. simpl.
      destruct (decide (k = k')) as [<-|Hne].
      * rewrite lookup_insert_eq. rewrite Hk, lookup_insert_eq in Hr. by exists h.
      * rewrite lookup_insert_ne by done. by rewrite lookup_insert_ne in Hr.
    + intros Hm. pose proof (Hm k) as Hmk. simpl in Hmk. rewrite lookup_insert_eq in Hmk.
      destruct Hmk as (h & -> & Hh). rsimpl. apply (proj2 (IH (<[k := h]> m) m' Hn)). intros k'.
      specialize (Hm k'). simpl in Hm. destruct (decide (k = k')) as [<-|Hne].
      * by rewrite Hk, lookup_insert_eq.
      * rewrite lookup_insert_ne in Hm by done. by rewrite lookup_insert_ne.
Qed.

Definition read_opt {A} (f : list byte -> res A) (o : option (list byte)) : res (option A) :=
  match o with None => Ok None | Some v => a ← f v; Ok (Some a) end.

(** What a bucket holds under an attempt id. *)
Definition reads_attempt (b : htlcs_bucket) (aid : Z) (o : option HTLCAttempt) : Prop :=
  match ai b !! aid with
  | None => fi b !! aid = None /\ si b !! aid = None /\ o = None
  | Some v => exists a f s,
      deserializeHTLCAttemptInfo v = Ok a /\
      read_opt deserializeHTLCFailInfo (fi b !! aid) = Ok f /\
      read_opt deserializeHTLCSettleInfo (si b !! aid) = Ok s /\
      o = Some {| attempt_info := with_id a aid; Settle := s; Failure := f |}
  end.

Lemma reads_attempt_unique b aid o o' :
  reads_attempt b aid o -> reads_attempt b aid o' -> o = o'.
Proof.
  unfold reads_attempt. destruct (ai b !! aid); [|naive_solver].
  intros (a & f & s & E1 & E2 & E3 & ->) (a' & f' & s' & E1' & E2' & E3' & ->). congruence.
Qed.

(** It depends on the three entries of the id. *)
Lemma reads_attempt_local b b' aid o :
  ai b !! aid = ai b' !! aid -> fi b !! aid = fi b' !! aid -> si b !! aid = si b' !! aid ->
  reads_attempt b aid o -> reads_attempt b' aid o.
Proof. unfold reads_attempt. by intros -> -> ->. Qed.

Definition attempts_view (b : htlcs_bucket) (m : gmap Z HTLCAttempt) : Prop :=
  forall aid, reads_attempt b aid (m !! aid).

Lemma attempts_view_unique b m m' : attempts_view b m -> attempts_view b m' -> m = m'.
Proof. intros Hm Hm'. apply map_eq. intros aid. by eapply reads_attempt_unique. Qed.

Lemma attempts_view_dom b m : attempts_view b m -> dom m = dom (ai b).
Proof.
  intros Hv. apply set_eq. intros aid. rewrite !elem_of_dom. specialize (Hv aid).
  unfold reads_attempt in Hv. destruct (ai b !! aid).
  - destruct Hv as (? & ? & ? & _ & _ & _ & ->). by split; intros _; eexists.
  - destruct Hv as (_ & _ & ->). split; by intros [? ?].
Qed.
End Attempts.

Section Fetching.
Context `{Secp256k1, VarBytes, MapRange, FailureCodec}.

Lemma update_attempts_total put l : forall m,
  NoDup l.*1 ->
  (forall k v, (k, v) ∈ l -> exists h, put k v (default empty_attempt (m !! k)) = Ok h) ->
  exists m', for_each (update_attempt put) l m = Ok m'.
Proof.
  induction l as [|[k v] l IH]; intros m Hn Hp; [by exists m|].
  apply NoDup_cons in Hn as [Hk Hn]. destruct (Hp k v) as [h Hh]; [by left|].
  destruct (IH (<[k := h]> m) Hn) as [m' Hm'].
  - intros k' v' Hin. rewrite lookup_insert_ne; [apply Hp; by right|].
    intros ->. apply Hk. by apply (list_elem_of_fmap_2 fst _ (k', v')).
  - exists m'. cbn [for_each].
    change (update_attempt put (k, v) m) with
      (h ← put k v (default empty_attempt (m !! k)); Ok (<[k := h]> m)).
    by rewrite Hh.
Qed.

(** The three passes over a bucket, entry by entry. *)
Lemma update_bucket put (bkt : gmap Z (list byte)) m m' :
  for_each (update_attempt put) (bucket_entries bkt) m = Ok m' ->
  forall k, match bkt !! k with
            | None => m' !! k = m !! k
            | Some v => exists h, put k v (default empty_attempt (m !! k)) = Ok h /\
                m' !! k = Some h
            end.
Proof.
  intros Hf. pose proof (proj1 (update_attempts put _ m m' (bucket_entries_NoDup bkt)) Hf) as Hk.
  by rewrite bucket_entries_map in Hk.
Qed.

Lemma update_bucket_total put (bkt : gmap Z (list byte)) m :
  (forall k v, bkt !! k = Some v -> exists h, put k v (default empty_attempt (m !! k)) = Ok h) ->
  exists m', for_each (update_attempt put) (bucket_entries bkt) m = Ok m'.
Proof.
  intros Hp. apply update_attempts_total; [apply bucket_entries_NoDup|].
  intros k v Hin. apply Hp. by apply elem_of_bucket_entries.
Qed.

(** One attempt after the three passes. *)
Lemma passes_read b m1 m2 m3 :
  for_each (update_attempt put_info) (bucket_entries (ai b)) ∅ = Ok m1 ->
  for_each (update_attempt put_fail) (bucket_entries (fi b)) m1 = Ok m2 ->
  for_each (update_attempt put_settle) (bucket_entries (si b)) m2 = Ok m3 ->
  forall aid,
    (is_Some (ai b !! aid) -> reads_attempt b aid (m3 !! aid)) /\
    (is_Some (m3 !! aid) <->
      is_Some (ai b !! aid) \/ is_Some (fi b !! aid) \/ is_Some (si b !! aid)).
Proof.
  intros H1' H2' H3' aid.
  pose proof (update_bucket _ _ _ _ H1' aid) as E1. clear H1'.
  pose proof (update_bucket _ _ _ _ H2' aid) as E2. clear H2'.
  pose proof (update_bucket _ _ _ _ H3' aid) as E3. clear H3'.
  unfold reads_attempt. rewrite lookup_empty in E1. simpl in E1.
  assert (forall v h h', put_settle aid v h = Ok h' -> exists s,
    deserializeHTLCSettleInfo v = Ok s /\ attempt_info h' = attempt_info h /\
    Failure h' = Failure h /\ Settle h' = Some s) as Hs.
  { intros v h h' (s & Es & [= <-])%bind_ok. by exists s. }
  assert (forall v h h', put_fail aid v h = Ok h' -> exists f,
    deserializeHTLCFailInfo v = Ok f /\ attempt_info h' = attempt_info h /\
    Settle h' = Settle h /\ Failure h' = Some f) as Hf.
  { intros v h h' (s & Es & [= <-])%bind_ok. by exists s. }
  split.
  - intros [v Ev]. rewrite Ev in E1 |- *.
    destruct E1 as (h1 & Eh1 & Em1). apply bind_ok in Eh1 as (a & Ea & [= <-]).
    exists a. rewrite Em1 in E2. simpl in E2.
    destruct (fi b !! aid) as [vf|] eqn:Ef; simpl.
    + destruct E2 as (h2 & (f & -> & I2 & S2 & F2)%Hf & Em2). exists (Some f).
      rewrite Em2 in E3. simpl in E3. destruct (si b !! aid) as [vs|] eqn:Es; simpl.
      * destruct E3 as (h3 & (s & -> & I3 & F3 & S3)%Hs & ->). exists (Some s).
        split_and!; [done..|]. f_equal. destruct h3; simpl in *. congruence.
      * exists None. rewrite E3. split_and!; [done..|]. f_equal.
        destruct h2; simpl in *. congruence.
    + exists None. rewrite E2 in E3. simpl in E3.
      destruct (si b !! aid) as [vs|] eqn:Es; simpl.
      * destruct E3 as (h3 & (s & -> & I3 & F3 & S3)%Hs & ->). exists (Some s).
        split_and!; [done..|]. f_equal. destruct h3; simpl in *. congruence.
      * exists None. by rewrite E3.
  - assert (forall (o : option (list byte)) (P : list byte -> HTLCAttempt -> Prop) x y,
      match o with None => y = x | Some v => exists h, P v h /\ y = Some h end ->
      (is_Some y <-> is_Some o \/ is_Some x)) as Hstep.
    { intros [v|] P x y; [intros (h & _ & ->)|intros ->]; split; eauto.
      intros [[? [=]]|]; done. }
    apply (Hstep _ (fun v h => _)) in E1, E2, E3. rewrite E3, E2, E1.
    split; [intros [|[|[|[? [=]]]]]|intros [|[|]]]; auto.
Qed.

Lemma fetchHtlcAttempts_iff b hs :
  fetchHtlcAttempts b = Ok hs <-> exists m, attempts_view b m /\ hs = (bucket_entries m).*2.
Proof.
  unfold fetchHtlcAttempts. split.
  - intros (m1 & E1 & Hr)%bind_ok. apply bind_ok in Hr as (m2 & E2 & Hr).
    apply bind_ok in Hr as (m3 & E3 & Hr). rewrite bucket_entries_length in Hr.
    pose proof (passes_read b m1 m2 m3 E1 E2 E3) as Hp.
    destruct (Nat.eqb_spec (size (ai b)) (size m3)) as [Hs|]; [|done]. injection Hr as <-.
    exists m3. split; [|done].
    assert (dom (ai b) = dom m3) as Hd.
    { apply set_subseteq_size_eq; [|rewrite !size_dom; lia].
      intros aid. rewrite !elem_of_dom. intros Ha. apply Hp. by left. }
    intros aid. destruct (Hp aid) as [Ha Hm]. destruct (ai b !! aid) as [v|] eqn:E; [by apply Ha|].
    assert (m3 !! aid = None) as En.
    { apply not_elem_of_dom. rewrite <- Hd. by apply not_elem_of_dom. }
    unfold reads_attempt. rewrite E, En. rewrite En in Hm.
    destruct (fi b !! aid), (si b !! aid); naive_solver.
  - intros (m & Hv & ->).
    destruct (update_bucket_total put_info (ai b) ∅) as [m1 E1].
    { intros k v Ek. specialize (Hv k). unfold reads_attempt in Hv. rewrite Ek in Hv.
      destruct Hv as (a & f & s & Ea & _). unfold put_info. rewrite Ea. by eexists. }
    destruct (update_bucket_total put_fail (fi b) m1) as [m2 E2].
    { intros k v Ek. specialize (Hv k). unfold reads_attempt in Hv. rewrite Ek in Hv.
      destruct (ai b !! k); [|by destruct Hv].
      destruct Hv as (a & f & s & _ & Ef & _). simpl in Ef.
      apply bind_ok in Ef as (f' & Ef & _). unfold put_fail. rewrite Ef. by eexists. }
    destruct (update_bucket_total put_settle (si b) m2) as [m3 E3].
    { intros k v Ek. specialize (Hv k). unfold reads_attempt in Hv. rewrite Ek in Hv.
      destruct (ai b !! k); [|by destruct Hv as (_ & ? & _)].
      destruct Hv as (a & f & s & _ & _ & Es & _). simpl in Es.
      apply bind_ok in Es as (s' & Es & _). unfold put_settle. rewrite Es. by eexists. }
    pose proof (passes_read b m1 m2 m3 E1 E2 E3) as Hp.
    assert (m3 = m) as ->.
    { apply map_eq. intros aid. destruct (Hp aid) as [Ha Hm]. specialize (Hv aid).
      destruct (ai b !! aid) as [v|] eqn:E.
      - eapply reads_attempt_unique; [by apply Ha|exact Hv].
      - unfold reads_attempt in Hv. rewrite E in Hv. destruct Hv as (Ef & Es & ->).
        rewrite Ef, Es in Hm. destruct (m3 !! aid); naive_solver. }
    rewrite E1. rsimpl. rewrite E2. rsimpl. rewrite E3. rsimpl.
    rewrite bucket_entries_length.
    assert (size (ai b) = size m) as ->.
    { rewrite <- (size_dom (ai b)), <- (size_dom m). by rewrite (attempts_view_dom b m). }
    by rewrite Nat.eqb_refl.
Qed.
End Fetching.

(** ** A payment and its bucket *)

Section Reading.
Context `{Secp256k1, VarBytes, MapRange, FailureCodec}.

Definition settled (h : HTLCAttempt) : bool :=
  match Settle h, Failure h with Some _, None => true | _, _ => false end.

Lemma payment_status_eq hs r :
  payment_status hs r =
  if negb (existsb in_flight hs) && existsb settled hs then StatusSucceeded
  else if negb (existsb in_flight hs) && bool_decide (is_Some r) then StatusFailed
  else StatusInFlight.
Proof.
  unfold payment_status.
  assert (forall acc, fold_left (fun acc h =>
      match Failure h, Settle h with
      | Some _, _ => acc
      | None, Some _ => (acc.1, true)
      | None, None => (true, acc.2)
      end) hs acc = (acc.1 || existsb in_flight hs, acc.2 || existsb settled hs)) as ->; [|done].
  induction hs as [|h hs IH]; intros [x y]; [simpl; by rewrite !orb_false_r|].
  cbn [fold_left]. rewrite IH. unfold in_flight, settled. simpl.
  destruct (Failure h), (Settle h); simpl; by rewrite ?orb_true_r, ?orb_false_r, ?orb_true_l.
Qed.

(** What fails a payment, read from its bucket. *)
Definition read_reason (o : option (list byte)) : res (option Z) :=
  match o with None => Ok None | Some b => r ← index b 0; Ok (Some (bval r)) end.

Lemma fetch_htlcs_iff b hs :
  fetch_htlcs b = Ok hs <->
  exists m, attempts_view (default empty_htlcs (htlcs b)) m /\ hs = (bucket_entries m).*2.
Proof.
  unfold fetch_htlcs. destruct (htlcs b) as [hb|]; [apply fetchHtlcAttempts_iff|]. simpl.
  split.
  - intros [= <-]. exists ∅. split; [|done]. intros aid. unfold reads_attempt. simpl.
    by rewrite !lookup_empty.
  - intros (m & Hv & ->). apply attempts_view_dom in Hv. simpl in Hv.
    rewrite dom_empty_L in Hv. by apply dom_empty_inv_L in Hv as ->.
Qed.

(** [payment_view b m p]: the payment in a bucket is [p], its attempts are [m]. *)
Record payment_view (b : payment_bucket) (m : gmap Z HTLCAttempt) (p : MPPayment) : Prop := {
  pv_seq : sequence_key b = Some (SequenceNum p);
  pv_info : fetchCreationInfo b = Ok (Info p);
  pv_attempts : attempts_view (default empty_htlcs (htlcs b)) m;
  pv_htlcs : HTLCs p = (bucket_entries m).*2;
  pv_reason : read_reason (fail_info b) = Ok (FailureReason p);
  pv_status : Status p = payment_status (HTLCs p) (FailureReason p);
}.

Lemma fetchPayment_iff b p : fetchPayment b = Ok p <-> exists m, payment_view b m p.
Proof.
  unfold fetchPayment. fold (read_reason (fail_info b)). split.
  - intros (s & Es & Hr)%bind_ok. apply bind_ok in Hr as (c & Ec & Hr).
    apply bind_ok in Hr as (hs & (m & Hv & ->)%fetch_htlcs_iff & Hr).
    apply bind_ok in Hr as (r & Er & Hr). injection Hr as <-.
    exists m. constructor; try done. simpl. by destruct (sequence_key b); [injection Es as ->|].
  - intros (m & [Es Ec Hv Eh Er Et]). rewrite Es. rsimpl. rewrite Ec. rsimpl.
    rewrite (proj2 (fetch_htlcs_iff b (HTLCs p))) by eauto. rsimpl. rewrite Er. rsimpl.
    rewrite <- Et. by destruct p.
Qed.

Lemma payment_view_unique b m p m' p' :
  payment_view b m p -> payment_view b m' p' -> m = m' /\ p = p'.
Proof.
  intros Hv Hv'. split.
  - eapply attempts_view_unique; [apply Hv|apply Hv'].
  - apply Ok_inj. rewrite <- (proj2 (fetchPayment_iff b p)), <- (proj2 (fetchPayment_iff b p')); eauto.
Qed.

(** The amount of an attempt that may have reached the receiver. *)
Definition live_amt (h : HTLCAttempt) : Z :=
  match Failure h with
  | Some _ => 0
  | None => ReceiverAmt (attempt_Route (attempt_info h))
  end.

Definition total (hs : list HTLCAttempt) : Z := foldr (fun h acc => live_amt h + acc) 0 hs.

#[export] Instance total_perm : Proper ((≡ₚ) ==> (=)) total.
Proof. induction 1; simpl; lia. Qed.

Definition total_map (m : gmap Z HTLCAttempt) : Z := total (bucket_entries m).*2.

Lemma total_map_insert m aid h :
  m !! aid = None -> total_map (<[aid := h]> m) = live_amt h + total_map m.
Proof.
  intros Hn. unfold total_map. rewrite (bucket_entries_Permutation (<[aid := h]> m)).
  rewrite map_to_list_insert by done. rewrite fmap_cons. simpl. f_equal.
  by rewrite <- bucket_entries_Permutation.
Qed.

Lemma total_map_delete m aid h :
  m !! aid = Some h -> total_map m = live_amt h + total_map (delete aid m).
Proof.
  intros Hm. rewrite <- (insert_delete_id m aid h Hm) at 1.
  apply total_map_insert, lookup_delete_eq.
Qed.

Lemma total_map_update m aid h h' :
  m !! aid = Some h ->
  total_map (<[aid := h']> m) = total_map m - live_amt h + live_amt h'.
Proof.
  intros Hm. rewrite (total_map_delete m aid h Hm), <- insert_delete_eq.
  rewrite total_map_insert by apply lookup_delete_eq. lia.
Qed.

Lemma SentAmt_total p : (SentAmt p).1 = u64 (total (HTLCs p)).
Proof.
  unfold SentAmt. set (f := fun acc h => _).
  assert (forall hs acc, is_u64 acc.1 -> (fold_left f hs acc).1 = u64 (acc.1 + total hs)) as Hf.
  { induction hs as [|h hs IH]; intros [a b] Ha; simpl in Ha.
    - simpl. rewrite Z.add_0_r. by rewrite u64_small.
    - cbn [fold_left total foldr]. fold (total hs). unfold f at 2, live_amt.
      destruct (Failure h); cbn [fst]; rewrite IH; cbn [fst]; [done|done| |apply u64_range].
      unfold u64. rewrite Zplus_mod_idemp_l. f_equal. lia. }
  rewrite Hf; [done|]. by split.
Qed.
End Reading.

(** ** The invariant *)

Section Invariant.
Context `{Secp256k1, VarBytes, MapRange, FailureCodec}.

Definition bucket_at (db : payments_db) (h : list byte) : option payment_bucket :=
  root ← payments_root db; root_payments root !! h.

Definition root_seq (db : payments_db) : Z := root_sequence (default empty_root (payments_root db)).

(** The sequence numbers of a payment and of its duplicates. *)
Definition seqs (b : payment_bucket) : list Z :=
  option_list (sequence_key b) ++
  match duplicates b with None => [] | Some d => (bucket_entries d).*1 end.

(** A payment has at most one outcome per attempt and never more than its value at
    stake. *)
Record payment_ok (m : gmap Z HTLCAttempt) (p : MPPayment) : Prop := {
  po_once : forall aid h, m !! aid = Some h -> Settle h = None \/ Failure h = None;
  po_amounts : forall aid h, m !! aid = Some h -> 0 <= live_amt h;
  po_value : 0 <= Value (Info p) < 2 ^ 63;
  po_total : total_map m <= Value (Info p);
}.

Definition bucket_ok (b : payment_bucket) : Prop :=
  NoDup (seqs b) /\ exists m p, payment_view b m p /\ payment_ok m p.

(** The payments in flight, by sequence number. *)
Definition flying (db : payments_db) (s : Z) : Prop :=
  exists h b p, bucket_at db h = Some b /\ fetchPayment b = Ok p /\
    Status p = StatusInFlight /\ SequenceNum p = s.

Definition indexed_by (db : payments_db) (s : Z) (v : list byte) : Prop :=
  exists h b, bucket_at db h = Some b /\ s ∈ seqs b /\ v = index_value h.

Record db_inv (issued : Z) (db : payments_db) : Prop := {
  di_index : exists idx, payments_index db = Some idx /\
    (forall s v, idx !! s = Some v <-> indexed_by db s v) /\
    (forall s, is_Some (idx !! s) -> 0 < s <= issued);
  di_buckets : forall h b, bucket_at db h = Some b -> length h = 32%nat /\ bucket_ok b;
  di_inflight : forall m s, inflight_index db = Some m -> is_Some (m !! s) <-> flying db s;
}.

(** The numbers handed out so far, and the block reserved for this run. *)
Definition issued (pc : PaymentControl) (db : payments_db) : Z :=
  if currPaymentSeq pc =? 0 then root_seq db else currPaymentSeq pc.

Record control_ok (pc : PaymentControl) (db : payments_db) : Prop := {
  co_seq : 0 <= root_seq db;
  co_block : (currPaymentSeq pc = 0 /\ storedPaymentSeq pc = 0) \/
    (0 < currPaymentSeq pc <= storedPaymentSeq pc /\ storedPaymentSeq pc = root_seq db);
}.

Definition pay_inv (pc : PaymentControl) (db : payments_db) : Prop :=
  db_inv (issued pc db) db /\ control_ok pc db.

Lemma index_value_reads h :
  length h = 32%nat -> deserializePaymentIndex (index_value h) = Ok h.
Proof.
  intros Hl. unfold deserializePaymentIndex, index_value. rewrite read_be_app by done. rsimpl.
  rewrite <- (app_nil_r (WriteVarBytes h)).
  rewrite ReadVarBytes_Write by (rewrite Hl; unfold maxElementBytes; lia). rsimpl.
  unfold MakeHash. by rewrite Hl.
Qed.

Lemma seqs_disjoint n db h1 b1 h2 b2 s :
  db_inv n db -> bucket_at db h1 = Some b1 -> bucket_at db h2 = Some b2 ->
  s ∈ seqs b1 -> s ∈ seqs b2 -> h1 = h2 /\ b1 = b2.
Proof.
  intros [(idx & _ & Hidx & _) Hb _] E1 E2 Hs1 Hs2.
  assert (index_value h1 = index_value h2) as He.
  { assert (idx !! s = Some (index_value h1)) as I1 by (apply Hidx; exists h1, b1; auto).
    assert (idx !! s = Some (index_value h2)) as I2 by (apply Hidx; exists h2, b2; auto).
    congruence. }
  destruct (Hb h1 b1 E1) as [L1 _], (Hb h2 b2 E2) as [L2 _].
  assert (h1 = h2) as ->; [|by rewrite E1 in E2; injection E2].
  apply Ok_inj. by rewrite <- (index_value_reads h1 L1), <- (index_value_reads h2 L2), He.
Qed.

(** A payment that is read is listed under its number. *)
Lemma seq_listed b p : fetchPayment b = Ok p -> SequenceNum p ∈ seqs b.
Proof.
  intros (m & Hv)%fetchPayment_iff. unfold seqs. rewrite (pv_seq _ _ _ Hv).
  apply elem_of_app. left. by apply list_elem_of_singleton.
Qed.

(** [replaced db h b' db']: [db'] is [db] with the bucket of [h] replaced. *)
Record replaced (db : payments_db) (h : list byte) (b' : payment_bucket) (db' : payments_db)
    : Prop := {
  rp_at : forall k, bucket_at db' k = if decide (k = h) then Some b' else bucket_at db k;
  rp_seq : root_seq db' = root_seq db;
}.

Lemma set_payment_replaced db h b' : replaced db h b' (set_payment db h b').
Proof.
  split; [|done]. intros k. unfold bucket_at, set_payment. simpl.
  destruct (decide (k = h)) as [->|Hne]; [by rewrite lookup_insert_eq|].
  rewrite lookup_insert_ne by done. by destruct (payments_root db).
Qed.

Lemma update_inflight_frame db p :
  payments_root (updatePaymentInflightIndexEntry db p) = payments_root db /\
  payments_index (updatePaymentInflightIndexEntry db p) = payments_index db.
Proof.
  unfold updatePaymentInflightIndexEntry, createPaymentInflightIndexEntry,
    deletePaymentInflightIndexEntry.
  case_bool_decide; by destruct (inflight_index db).
Qed.

Lemma replaced_root db h b' db1 db2 :
  payments_root db2 = payments_root db1 -> replaced db h b' db1 -> replaced db h b' db2.
Proof.
  intros E [Ha Hs]. constructor.
  - intros k. rewrite <- Ha. unfold bucket_at. by rewrite E.
  - rewrite <- Hs. unfold root_seq. by rewrite E.
Qed.

(** What is in flight after a bucket is replaced. *)
Lemma flying_replaced n db h b b' p p' db' s :
  db_inv n db -> bucket_at db h = Some b -> fetchPayment b = Ok p ->
  fetchPayment b' = Ok p' -> SequenceNum p' = SequenceNum p -> replaced db h b' db' ->
  flying db' s <->
  if decide (s = SequenceNum p) then Status p' = StatusInFlight else flying db s.
Proof.
  intros Hi Hb Hp Hp' Hseq [Hat _]. split.
  - intros (k & bk & pk & Hk & Hpk & Hst & <-). rewrite Hat in Hk.
    destruct (decide (k = h)) as [->|Hne].
    + injection Hk as <-. rewrite Hp' in Hpk. injection Hpk as <-.
      by rewrite decide_True by done.
    + rewrite decide_False; [by exists k, bk, pk|]. intros He.
      destruct (seqs_disjoint n db k bk h b (SequenceNum pk) Hi Hk Hb) as [-> _]; [|rewrite He|done];
        by apply seq_listed.
  - destruct (decide (s = SequenceNum p)) as [->|Hne].
    + intros Hst. exists h, b', p'. rewrite Hat, decide_True by done. by rewrite Hseq.
    + intros (k & bk & pk & Hk & Hpk & Hst & <-). exists k, bk, pk. rewrite Hat.
      rewrite decide_False; [done|]. intros ->. rewrite Hb in Hk. injection Hk as <-.
      rewrite Hp in Hpk. by injection Hpk as <-.
Qed.

Lemma db_inv_replaced n db h b b' db' :
  db_inv n db -> bucket_at db h = Some b -> seqs b' = seqs b -> bucket_ok b' ->
  replaced db h b' db' -> payments_index db' = payments_index db ->
  (forall m s, inflight_index db' = Some m -> is_Some (m !! s) <-> flying db' s) ->
  db_inv n db'.
Proof.
  intros [(idx & Ei & Hidx & Hr) Hb _] Hat Hs Hok [Hrp _] Eidx Hfl. constructor; [| |done].
  - exists idx. split; [by rewrite Eidx|]. split; [|done]. intros s v. rewrite Hidx.
    split; intros (k & bk & Hk & Hsk & ->).
    + destruct (decide (k = h)) as [->|Hne].
      * exists h, b'. rewrite Hrp, decide_True by done. rewrite Hat in Hk. injection Hk as <-.
        by rewrite Hs.
      * exists k, bk. by rewrite Hrp, decide_False.
    + rewrite Hrp in Hk. destruct (decide (k = h)) as [->|Hne]; [|by exists k, bk].
      injection Hk as <-. exists h, b. by rewrite <- Hs.
  - intros k bk Hk. rewrite Hrp in Hk. destruct (decide (k = h)) as [->|]; [|by apply Hb].
    injection Hk as <-. split; [by apply (Hb h b)|done].
Qed.
End Invariant.

(** ** Updates of one payment *)

Section Updates.
Context `{Secp256k1, VarBytes, MapRange, FailureCodec}.

Lemma bucket_ok_reads b : bucket_ok b -> exists m p,
  payment_view b m p /\ payment_ok m p /\ fetchPayment b = Ok p.
Proof. intros (_ & m & p & Hv & Hok). exists m, p. split_and!; [done..|]. apply fetchPayment_iff. eauto. Qed.

Lemma fetchPaymentBucket_ok db h b :
  fetchPaymentBucket db h = Ok b <-> bucket_at db h = Some b.
Proof.
  unfold fetchPaymentBucket, bucket_at. destruct (payments_root db) as [root|]; simpl; [|done].
  destruct (root_payments root !! h); naive_solver.
Qed.

(** The index entry after an update of a payment. *)
Lemma update_inflight_entry db p m :
  inflight_index (updatePaymentInflightIndexEntry db p) = Some m ->
  exists m0, inflight_index db = Some m0 /\
  forall s, is_Some (m !! s) <->
    if decide (s = SequenceNum p) then Status p = StatusInFlight else is_Some (m0 !! s).
Proof.
  unfold updatePaymentInflightIndexEntry, createPaymentInflightIndexEntry,
    deletePaymentInflightIndexEntry.
  case_bool_decide as Hst; destruct (inflight_index db) as [m0|] eqn:E; simpl; rewrite ?E;
    try done; intros [= <-]; exists m0; (split; [done|]); intros s;
    destruct (decide (s = SequenceNum p)) as [->|Hne].
  - rewrite lookup_insert_eq. split; eauto.
  - by rewrite lookup_insert_ne by done.
  - rewrite lookup_delete_eq. split; [by intros [? ?]|done].
  - by rewrite lookup_delete_ne by done.
Qed.

Lemma write_back_inv n db h b b' db' p' :
  db_inv n db -> bucket_at db h = Some b ->
  sequence_key b' = sequence_key b -> duplicates b' = duplicates b -> bucket_ok b' ->
  write_back db h b' = Ok (db', p') ->
  db_inv n db' /\ replaced db h b' db' /\ fetchPayment b' = Ok p'.
Proof.
  intros Hi Hat Es Ed Hok. unfold write_back. intros (p1 & Hp' & [= <- <-])%bind_ok.
  destruct (update_inflight_frame (set_payment db h b') p1) as [Er Ei].
  pose proof (replaced_root _ _ _ _ _ Er (set_payment_replaced db h b')) as Hr.
  split_and!; [|done..].
  destruct (bucket_ok_reads b) as (m & p & Hv & _ & Hp); [by apply (di_buckets n db Hi h)|].
  assert (SequenceNum p1 = SequenceNum p) as Eseq.
  { apply fetchPayment_iff in Hp' as (m' & Hv'). pose proof (pv_seq _ _ _ Hv).
    pose proof (pv_seq _ _ _ Hv'). congruence. }
  eapply db_inv_replaced; [done..| |exact Hok|exact Hr|exact Ei|].
  - unfold seqs. by rewrite Es, Ed.
  - intros mi s Emi. apply update_inflight_entry in Emi as (m0 & Em0 & Hmi). rewrite Hmi.
    rewrite (flying_replaced n db h b b' p p1 _ s Hi Hat Hp Hp' Eseq Hr), Eseq.
    destruct (decide (s = SequenceNum p)); [done|]. by apply (di_inflight n db Hi).
Qed.

(** The values an outcome is recorded with. *)
Definition outcome (key : htlc_key) (v : list byte) (h h' : HTLCAttempt) : Prop :=
  match key with
  | htlcSettleInfoKey => exists s, deserializeHTLCSettleInfo v = Ok s /\
      h' = {| attempt_info := attempt_info h; Settle := Some s; Failure := None |}
  | htlcFailInfoKey => exists f, deserializeHTLCFailInfo v = Ok f /\
      h' = {| attempt_info := attempt_info h; Settle := None; Failure := Some f |}
  end.

Lemma attempts_view_insert b b' m m' aid h' :
  attempts_view b m -> attempts_view b' m' ->
  (forall k, k <> aid -> ai b !! k = ai b' !! k /\ fi b !! k = fi b' !! k /\ si b !! k = si b' !! k) ->
  reads_attempt b' aid (Some h') -> m' = <[aid := h']> m.
Proof.
  intros Hv Hv' Hk Hr. apply map_eq. intros k. destruct (decide (aid = k)) as [<-|Hne].
  - rewrite lookup_insert_eq. by eapply reads_attempt_unique.
  - rewrite lookup_insert_ne by done. destruct (Hk k) as (E1 & E2 & E3); [done|].
    eapply reads_attempt_unique; [apply Hv'|]. by eapply reads_attempt_local; [..|apply Hv].
Qed.

Lemma view_put_htlc b m p hb key aid v p' v0 :
  payment_view b m p -> htlcs b = Some hb ->
  ai hb !! aid = Some v0 -> fi hb !! aid = None -> si hb !! aid = None ->
  fetchPayment (set_htlcs b (put_htlc hb key aid v)) = Ok p' ->
  exists h h', m !! aid = Some h /\ Settle h = None /\ Failure h = None /\
    outcome key v h h' /\
    payment_view (set_htlcs b (put_htlc hb key aid v)) (<[aid := h']> m) p'.
Proof.
  intros Hv Eb Ea Ef Es (m' & Hv')%fetchPayment_iff.
  pose proof (pv_attempts _ _ _ Hv) as Hm. rewrite Eb in Hm. simpl in Hm.
  pose proof (pv_attempts _ _ _ Hv') as Hm'. simpl in Hm'.
  pose proof (Hm aid) as Hra. unfold reads_attempt in Hra. rewrite Ea, Ef, Es in Hra.
  destruct Hra as (a & f & s & Eda & [= <-] & [= <-] & Emh). 
  pose proof (Hm' aid) as Hra'. unfold reads_attempt in Hra'.
  destruct (m' !! aid) as [h'|] eqn:Em'.
  2:{ destruct key; simpl in Hra'; rewrite Ea in Hra'; naive_solver. }
  eexists _, h'. split_and!; [exact Emh|done|done| |].
  - destruct key; simpl in *; rewrite Ea, Eda, ?Ef, ?Es, lookup_insert_eq in Hra'; simpl in Hra'.
    + destruct Hra' as (a' & f' & s' & [= <-] & [= <-] & (s1 & Es1 & [= <-])%bind_ok & [= ->]). eauto.
    + destruct Hra' as (a' & f' & s' & [= <-] & (s1 & Es1 & [= <-])%bind_ok & [= <-] & [= ->]). eauto.
  - rewrite <- (attempts_view_insert hb _ m m' aid h' Hm Hm'); [done| |].
    + intros k Hk. destruct key; simpl; by rewrite ?lookup_insert_ne.
    + rewrite <- Em'. apply Hm'.
Qed.

Lemma resolved_ok m p p' aid h h' key v :
  payment_ok m p -> m !! aid = Some h -> Settle h = None -> Failure h = None ->
  outcome key v h h' -> Info p' = Info p -> payment_ok (<[aid := h']> m) p'.
Proof.
  intros [Ho Ha Hv Ht] Hm Es Ef Hout Ei.
  assert (0 <= live_amt h' <= live_amt h /\ (Settle h' = None \/ Failure h' = None)) as [Hl Hone].
  { pose proof (Ha aid h Hm). unfold live_amt in *. rewrite Ef in *.
    destruct key; destruct Hout as (x & _ & ->); simpl; split; auto; lia. }
  constructor.
  - intros k hk. destruct (decide (aid = k)) as [<-|]; [|rewrite lookup_insert_ne by done; apply Ho].
    rewrite lookup_insert_eq. by intros [= <-].
  - intros k hk. destruct (decide (aid = k)) as [<-|]; [|rewrite lookup_insert_ne by done; apply Ha].
    rewrite lookup_insert_eq. intros [= <-]. lia.
  - by rewrite Ei.
  - rewrite (total_map_update m aid h h' Hm), Ei. lia.
Qed.
End Updates.

Section Operations.
Context `{Secp256k1, VarBytes, MapRange, FailureCodec}.

(** [holds db h m p]: the payment to hash [h] is [p], with the attempts [m]. *)
Definition holds (db : payments_db) (h : list byte) (m : gmap Z HTLCAttempt) (p : MPPayment)
    : Prop :=
  exists b, bucket_at db h = Some b /\ payment_view b m p.

(** An update of the payment to [h] from [m] to [m']. *)
Record pay_updated (db : payments_db) (h : list byte) (m : gmap Z HTLCAttempt) (p : MPPayment)
    (db' : payments_db) (m' : gmap Z HTLCAttempt) (p' : MPPayment) : Prop := {
  pu_before : holds db h m p;
  pu_after : holds db' h m' p';
  pu_others : forall k, k <> h -> bucket_at db' k = bucket_at db k;
  pu_seq : root_seq db' = root_seq db;
  pu_info : Info p' = Info p;
}.

Lemma holds_unique db h m p m' p' : holds db h m p -> holds db h m' p' -> m = m' /\ p = p'.
Proof.
  intros (b & Eb & Hv) (b' & Eb' & Hv'). rewrite Eb in Eb'. injection Eb' as <-.
  by eapply payment_view_unique.
Qed.

Lemma holds_reads db h m p :
  holds db h m p <-> FetchPayment db h = Ok p /\ exists b, bucket_at db h = Some b /\
    attempts_view (default empty_htlcs (htlcs b)) m.
Proof.
  unfold FetchPayment. split.
  - intros (b & Eb & Hv). split; [|exists b; split; [done|apply Hv]].
    apply bind_ok. exists b. split; [by apply fetchPaymentBucket_ok|]. apply fetchPayment_iff. eauto.
  - intros [(b & Eb & Hp)%bind_ok (b' & Eb' & Hm)]. apply fetchPaymentBucket_ok in Eb.
    rewrite Eb in Eb'. injection Eb' as <-. apply fetchPayment_iff in Hp as (m' & Hv).
    exists b. split; [done|].
    by rewrite (attempts_view_unique _ m m' Hm (pv_attempts _ _ _ Hv)).
Qed.

Lemma holds_ok n db h m p : db_inv n db -> holds db h m p -> payment_ok m p.
Proof.
  intros Hi (b & Eb & Hv). destruct (di_buckets n db Hi h b Eb) as (_ & _ & m' & p' & Hv' & Hok).
  by destruct (payment_view_unique _ _ _ _ _ Hv Hv') as [-> ->].
Qed.

Lemma replaced_updated db h b b' m p m' p' db' :
  bucket_at db h = Some b -> payment_view b m p -> replaced db h b' db' ->
  payment_view b' m' p' -> Info p' = Info p -> pay_updated db h m p db' m' p'.
Proof.
  intros Eb Hv [Hat Hs] Hv' Ei. constructor; [by exists b| | |done..].
  - exists b'. by rewrite Hat, decide_True.
  - intros k Hk. by rewrite Hat, decide_False.
Qed.

Lemma view_same_info b b' m m' p p' :
  payment_view b m p -> payment_view b' m' p' -> creation_info b' = creation_info b ->
  Info p' = Info p.
Proof.
  intros Hv Hv' Ec. pose proof (pv_info _ _ _ Hv) as E. pose proof (pv_info _ _ _ Hv') as E'.
  unfold fetchCreationInfo in *. rewrite Ec in E'. congruence.
Qed.

Lemma view_same_reason b b' m m' p p' :
  payment_view b m p -> payment_view b' m' p' -> fail_info b' = fail_info b ->
  FailureReason p' = FailureReason p.
Proof.
  intros Hv Hv' Ec. pose proof (pv_reason _ _ _ Hv) as E. pose proof (pv_reason _ _ _ Hv') as E'.
  rewrite Ec in E'. congruence.
Qed.

Lemma update_htlc_ok n db h aid key v db' p' :
  db_inv n db -> update_htlc_tx db h aid key v = Ok (db', p') ->
  exists m p a a', m !! aid = Some a /\ Settle a = None /\ Failure a = None /\
    Status p = StatusInFlight /\ outcome key v a a' /\ FailureReason p' = FailureReason p /\
    pay_updated db h m p db' (<[aid := a']> m) p' /\ db_inv n db'.
Proof.
  intros Hi. unfold update_htlc_tx. intros (b & Eb%fetchPaymentBucket_ok & Hr)%bind_ok.
  apply bind_ok in Hr as (p & Hp & Hr). apply bind_ok in Hr as (u & Hst & Hr).
  destruct (htlcs b) as [hb|] eqn:Ehb; [|done].
  destruct (ai hb !! aid) as [v0|] eqn:Ea; [|done].
  destruct (fi hb !! aid) eqn:Ef; [done|]. destruct (si hb !! aid) eqn:Es; [done|].
  destruct (di_buckets n db Hi h b Eb) as (_ & Hnd & m & p1 & Hv & Hok).
  pose proof (proj2 (fetchPayment_iff b p1) (ex_intro _ m Hv)) as Hp1.
  rewrite Hp in Hp1. injection Hp1 as <-.
  pose proof Hr as Hr'. unfold write_back in Hr'. apply bind_ok in Hr' as (p2 & Hp2 & Hr').
  injection Hr' as _ <-.
  destruct (view_put_htlc b m p hb key aid v p2 v0 Hv Ehb Ea Ef Es Hp2)
    as (a & a' & Ema & Esa & Efa & Hout & Hv').
  assert (Info p2 = Info p) as Ei by (by eapply view_same_info; [exact Hv|exact Hv'|]).
  destruct (write_back_inv n db h b (set_htlcs b (put_htlc hb key aid v)) db' p2 Hi Eb)
    as (Hi' & Hrp & _); [done..| |exact Hr|].
  { split; [done|]. exists (<[aid := a']> m), p2. split; [done|]. by eapply resolved_ok. }
  exists m, p, a, a'. split_and!; [done|done|done| |done| | |done].
  - unfold ensureInFlight in Hst. by destruct (Status p).
  - by eapply view_same_reason; [exact Hv|exact Hv'|].
  - by eapply replaced_updated.
Qed.

Lemma ReceiverAmt_stored r : ReceiverAmt (stored_route r) = ReceiverAmt r.
Proof.
  unfold ReceiverAmt, stored_route. simpl. rewrite fmap_last. by destruct (last (Hops r)).
Qed.

Lemma TerminalInfo_none p :
  TerminalInfo p = (None, None) ->
  FailureReason p = None /\ forall h, h ∈ HTLCs p -> Settle h = None.
Proof.
  unfold TerminalInfo. destruct (head (omap Settle (HTLCs p))) eqn:E; [done|]. intros [= Er].
  split; [done|]. intros h Hin. destruct (Settle h) as [s|] eqn:Es; [|done].
  assert (s ∈ omap Settle (HTLCs p)) as Hs by (apply list_elem_of_omap; eauto).
  destruct (omap Settle (HTLCs p)); [by apply not_elem_of_nil in Hs|done].
Qed.

(** The attempt a registration writes. *)
Definition new_attempt (m : gmap Z HTLCAttempt) (a : HTLCAttemptInfo) : HTLCAttempt :=
  {| attempt_info := with_id (stored_attempt a) (AttemptID a);
     Settle := m !! AttemptID a ≫= Settle;
     Failure := m !! AttemptID a ≫= Failure |}.

Lemma view_register b m p a bytes p' :
  payment_view b m p -> deserializeHTLCAttemptInfo bytes = Ok (stored_attempt a) ->
  let hb := default empty_htlcs (htlcs b) in
  let b' := set_htlcs b {| ai := <[AttemptID a := bytes]> (ai hb); fi := fi hb; si := si hb |} in
  fetchPayment b' = Ok p' ->
  payment_view b' (<[AttemptID a := new_attempt m a]> m) p'.
Proof.
  intros Hv Hd hb b' (m' & Hv')%fetchPayment_iff.
  pose proof (pv_attempts _ _ _ Hv) as Hm. fold hb in Hm.
  pose proof (pv_attempts _ _ _ Hv') as Hm'. simpl in Hm'.
  rewrite <- (attempts_view_insert hb _ m m' (AttemptID a) (new_attempt m a) Hm Hm'); [done| |].
  - intros k Hk. simpl. by rewrite lookup_insert_ne by done.
  - unfold reads_attempt. simpl. rewrite lookup_insert_eq. unfold new_attempt.
    pose proof (Hm (AttemptID a)) as Hr. unfold reads_attempt in Hr.
    destruct (ai hb !! AttemptID a).
    + destruct Hr as (a0 & f & s & Ea & Ef & Es & ->). by exists (stored_attempt a), f, s.
    + destruct Hr as (-> & -> & ->). by exists (stored_attempt a), None, None.
Qed.
End Operations.

Section Operations2.
Context `{Secp256k1, VarBytes, MapRange, FailureCodec}.

Lemma live_amt_new m a :
  (forall k x, m !! k = Some x -> Settle x = None) -> 0 <= ReceiverAmt (attempt_Route a) ->
  0 <= live_amt (new_attempt m a) <= ReceiverAmt (attempt_Route a) /\
  Settle (new_attempt m a) = None.
Proof.
  intros Hs Ha. unfold live_amt, new_attempt; simpl. rewrite ReceiverAmt_stored.
  destruct (m !! AttemptID a) as [x|] eqn:E; simpl; [|split; [lia|done]].
  rewrite (Hs _ _ E). destruct (Failure x); split; auto; lia.
Qed.

Lemma registered_ok m p p' a :
  payment_ok m p -> Info p' = Info p ->
  (forall k x, m !! k = Some x -> Settle x = None) -> 0 <= ReceiverAmt (attempt_Route a) ->
  total_map m + ReceiverAmt (attempt_Route a) <= Value (Info p) ->
  payment_ok (<[AttemptID a := new_attempt m a]> m) p'.
Proof.
  intros [Ho Ha Hv Ht] Ei Hs Hamt Hle.
  destruct (live_amt_new m a Hs Hamt) as [Hl Hset]. constructor.
  - intros k x. destruct (decide (AttemptID a = k)) as [<-|]; [|rewrite lookup_insert_ne by done; apply Ho].
    rewrite lookup_insert_eq. intros [= <-]. by left.
  - intros k x. destruct (decide (AttemptID a = k)) as [<-|]; [|rewrite lookup_insert_ne by done; apply Ha].
    rewrite lookup_insert_eq. intros [= <-]. lia.
  - by rewrite Ei.
  - rewrite Ei. destruct (m !! AttemptID a) as [x|] eqn:E.
    + rewrite (total_map_update m _ x _ E). specialize (Ha _ _ E). lia.
    + rewrite (total_map_insert m _ _ E). lia.
Qed.

(** Amounts and values below 2^63, so that their sums do not wrap. *)
Definition amount_ok (v : Z) : Prop := 0 <= v < 2 ^ 63.

(** The sums the check of a registration compares are the real ones. *)
Lemma sent_checked b m p amt :
  payment_view b m p -> payment_ok m p -> amount_ok amt ->
  u64 ((SentAmt p).1 + amt) <= Value (Info p) -> total_map m + amt <= Value (Info p).
Proof.
  intros Hv [_ Ha Hvalue Htot] Hamt. rewrite SentAmt_total, (pv_htlcs _ _ _ Hv).
  fold (total_map m).
  assert (0 <= total_map m).
  { unfold total_map.
    assert (Forall (fun x => 0 <= live_amt x) (bucket_entries m).*2) as Hf.
    { apply Forall_forall. intros x (k & Hk)%elem_of_bucket_values. by eapply Ha. }
    clear -Hf. induction Hf; simpl; lia. }
  unfold amount_ok in Hamt. rewrite !u64_small; unfold is_u64; rewrite ?u64_small; unfold is_u64; lia.
Qed.

Lemma register_ok n db h a bytes db' p' :
  db_inv n db -> wf_attempt a -> amount_ok (ReceiverAmt (attempt_Route a)) ->
  serializeHTLCAttemptInfo a = Ok bytes -> register_tx db h a bytes = Ok (db', p') ->
  exists m p, Status p = StatusInFlight /\ FailureReason p = None /\
    (forall k x, m !! k = Some x -> Settle x = None) /\
    total_map m + ReceiverAmt (attempt_Route a) <= Value (Info p) /\ FailureReason p' = None /\
    pay_updated db h m p db' (<[AttemptID a := new_attempt m a]> m) p' /\ db_inv n db'.
Proof.
  intros Hi Hwf Hamt Ebytes. unfold register_tx.
  intros (b & Eb%fetchPaymentBucket_ok & Hr)%bind_ok.
  apply bind_ok in Hr as (p & Hp & Hr). apply bind_ok in Hr as (u & Ht & Hr).
  apply bind_ok in Hr as (u2 & Hst & Hr). apply bind_ok in Hr as (mpp & _ & Hr).
  apply bind_ok in Hr as (u3 & _ & Hr). apply bind_ok in Hr as (u4 & _ & Hr).
  destruct (SentAmt p) as [sent fees] eqn:Esent.
  destruct (Z.ltb_spec (Value (Info p)) (u64 (sent + ReceiverAmt (attempt_Route a)))) as [|Hle];
    [done|].
  destruct (di_buckets n db Hi h b Eb) as (_ & Hnd & m & p1 & Hv & Hok).
  pose proof (proj2 (fetchPayment_iff b p1) (ex_intro _ m Hv)) as Hp1.
  rewrite Hp in Hp1. injection Hp1 as <-.
  assert (TerminalInfo p = (None, None)) as [Hreason Hset]%TerminalInfo_none.
  { destruct (TerminalInfo p) as [[|] [|]]; done. }
  assert (forall k x, m !! k = Some x -> Settle x = None) as Hms.
  { intros k x Hk. apply Hset. rewrite (pv_htlcs _ _ _ Hv). apply elem_of_bucket_values. eauto. }
  assert (total_map m + ReceiverAmt (attempt_Route a) <= Value (Info p)) as Hsum.
  { apply (sent_checked b m p); [done..|]. by rewrite Esent. }
  pose proof Hr as Hr'. unfold write_back in Hr'. apply bind_ok in Hr' as (p2 & Hp2 & Hr').
  injection Hr' as _ <-.
  destruct (attempt_reads_back a Hwf) as (bytes' & Eb' & Hd). rewrite Ebytes in Eb'. injection Eb' as <-.
  pose proof (view_register b m p a bytes p2 Hv Hd Hp2) as Hv'.
  assert (Info p2 = Info p) as Ei by (by eapply view_same_info; [exact Hv|exact Hv'|]).
  destruct (write_back_inv n db h b (set_htlcs b {| ai := <[AttemptID a := bytes]>
      (ai (default empty_htlcs (htlcs b))); fi := fi (default empty_htlcs (htlcs b));
      si := si (default empty_htlcs (htlcs b)) |}) db' p2 Hi Eb)
    as (Hi' & Hrp & _); [done..| |exact Hr|].
  { split; [done|]. eexists _, p2. split; [exact Hv'|].
    apply (registered_ok m p); try done. apply Hamt. }
  exists m, p. split_and!; [|done|done|done| | |done].
  - unfold ensureInFlight in Hst. by destruct (Status p).
  - rewrite <- Hreason. by eapply view_same_reason; [exact Hv|exact Hv'|].
  - by eapply replaced_updated.
Qed.

Lemma fail_ok n db h reason db' r :
  db_inv n db -> fail_tx db h reason = Ok (db', r) ->
  (db' = db /\ r = (None, Some ErrPaymentNotInitiated)) \/
  exists m p p', r = (Some p', None) /\ FailureReason p' = Some (reason mod 256) /\
    pay_updated db h m p db' m p' /\ db_inv n db'.
Proof.
  intros Hi. unfold fail_tx. destruct (fetchPaymentBucket db h) as [b|e|] eqn:Eb; [| |done].
  2:{ case_bool_decide; [|done]. intros [= <- <-]. by left. }
  apply fetchPaymentBucket_ok in Eb. intros (st & _ & Hr)%bind_ok.
  case_bool_decide; [injection Hr as <- <-; by left|]. right.
  apply bind_ok in Hr as ([db1 p2] & Hr & [= <- <-]).
  destruct (di_buckets n db Hi h b Eb) as (_ & Hnd & m & p & Hv & Hok).
  pose proof Hr as Hr'. unfold write_back in Hr'. apply bind_ok in Hr' as (p3 & Hp2 & Hr').
  injection Hr' as _ ->.
  apply fetchPayment_iff in Hp2 as (m' & Hv').
  assert (m' = m) as -> by (eapply attempts_view_unique; [apply Hv'|apply Hv]).
  assert (Info p2 = Info p) as Ei by (by eapply view_same_info; [exact Hv|exact Hv'|]).
  destruct (write_back_inv n db h b (set_fail_info b [byte_of reason]) db1 p2 Hi Eb)
    as (Hi' & Hrp & _); [done..| |exact Hr|].
  { split; [done|]. exists m, p2. split; [done|]. destruct Hok as [Ho Ha Hvl Ht].
    constructor; [done..| |]; by rewrite Ei. }
  exists m, p, p2. split_and!; [done| | |done].
  - pose proof (pv_reason _ _ _ Hv') as E. simpl in E. rewrite bval_byte_of in E. by injection E as <-.
  - by eapply replaced_updated.
Qed.
End Operations2.

(** ** Initiating a payment *)

Section Initiating.
Context `{Secp256k1, VarBytes, MapRange, FailureCodec}.

(** A payment that was just initiated. *)
Definition fresh_payment (s : Z) (info : PaymentCreationInfo) : MPPayment :=
  {| SequenceNum := s; Info := stored_creation info; HTLCs := []; FailureReason := None;
     Status := StatusInFlight |}.

Definition fresh_bucket (s : Z) (info : PaymentCreationInfo)
    (dups : option (gmap Z duplicate_bucket)) : payment_bucket :=
  {| sequence_key := Some s; creation_info := Some (serializePaymentCreationInfo info);
     fail_info := None; htlcs := None; duplicates := dups |}.

Lemma fresh_view s info dups :
  wf_creation info -> payment_view (fresh_bucket s info dups) ∅ (fresh_payment s info).
Proof.
  intros Hwf. constructor; try done.
  unfold fetchCreationInfo. simpl. by apply creation_info_roundtrip.
Qed.

Lemma view_status b m p : payment_view b m p -> fetchPaymentStatus b = Ok (Status p).
Proof.
  intros Hv. unfold fetchPaymentStatus. pose proof (pv_info _ _ _ Hv) as Ei.
  unfold fetchCreationInfo in Ei. destruct (creation_info b); [|done].
  by rewrite (proj2 (fetchPayment_iff b p)) by eauto.
Qed.

(** The dup numbers and the own number of the payment to [h], before. *)
Definition old_bucket (db : payments_db) (h : list byte) : payment_bucket :=
  default empty_payment (bucket_at db h).

Lemma old_bucket_create db h : (createPaymentBucket db h).2 = old_bucket db h.
Proof.
  unfold createPaymentBucket, old_bucket, bucket_at. simpl.
  by destruct (payments_root db).
Qed.

(** The numbers of the new bucket. *)
Lemma fresh_seqs n db h s info :
  db_inv n db -> forall t,
  t ∈ seqs (fresh_bucket s info (duplicates (old_bucket db h))) <->
  t = s \/ (t ∈ seqs (old_bucket db h) /\ Some t <> sequence_key (old_bucket db h)).
Proof.
  intros Hi t. unfold seqs. simpl. rewrite elem_of_cons.
  assert (NoDup (seqs (old_bucket db h))) as Hnd.
  { unfold old_bucket. destruct (bucket_at db h) as [b|] eqn:E; simpl; [|constructor].
    by destruct (di_buckets n db Hi h b E) as (_ & Hnd & _). }
  unfold seqs in Hnd. destruct (sequence_key (old_bucket db h)) as [s0|]; simpl in *; [|naive_solver].
  rewrite elem_of_cons. apply NoDup_cons in Hnd as [Hnd _]. split.
  - intros [->|Ht]; [by left|]. right. split; [by right|]. by intros [= ->].
  - intros [->|[[->|Ht] Hne]]; [by left|done|by right].
Qed.

Lemma init_index n db h s info idx db' :
  db_inv n db -> n < s -> payments_index db = Some idx ->
  (forall k, bucket_at db' k = if decide (k = h)
    then Some (fresh_bucket s info (duplicates (old_bucket db h))) else bucket_at db k) ->
  forall t v, <[s := index_value h]> (match sequence_key (old_bucket db h) with
                                      | None => idx
                                      | Some s0 => delete s0 idx
                                      end) !! t = Some v <-> indexed_by db' t v.
Proof.
  intros Hi Hn Ei Hat. pose proof (di_index n db Hi) as (idx' & Ei' & Hidx & Hr).
  rewrite Ei in Ei'. injection Ei' as <-.
  assert (forall k b, bucket_at db k = Some b -> s ∉ seqs b) as Hfresh.
  { intros k b Hk Hs. assert (idx !! s = Some (index_value k)) as E by (apply Hidx; exists k, b; auto).
    specialize (Hr s ltac:(eauto)). lia. }
  pose proof (fresh_seqs n db h s info Hi) as Hseqs.
  assert (forall t v, (t <> s) -> (match sequence_key (old_bucket db h) with
      | None => idx | Some s0 => delete s0 idx end) !! t = Some v <->
      idx !! t = Some v /\ Some t <> sequence_key (old_bucket db h)) as Hold.
  { intros t v Hts. destruct (sequence_key (old_bucket db h)) as [s0|]; [|naive_solver].
    rewrite lookup_delete_Some. naive_solver. }
  intros t v. destruct (decide (t = s)) as [->|Hts].
  - rewrite lookup_insert_eq. split.
    + intros [= <-]. exists h. eexists. rewrite Hat, decide_True by done. split; [done|].
      split; [|done]. apply Hseqs. by left.
    + intros (k & b & Hk & Hs & ->). rewrite Hat in Hk. destruct (decide (k = h)) as [->|]; [done|].
      by apply Hfresh in Hk.
  - rewrite lookup_insert_ne, Hold, Hidx by done. split.
    + intros [(k & b & Hk & Hs & ->) Hne]. destruct (decide (k = h)) as [->|Hkh].
      * exists h. eexists. rewrite Hat, decide_True by done. split; [done|]. split; [|done].
        apply Hseqs. right. split; [|done]. unfold old_bucket. by rewrite Hk.
      * exists k, b. by rewrite Hat, decide_False.
    + intros (k & b & Hk & Hs & ->). rewrite Hat in Hk. destruct (decide (k = h)) as [->|Hkh].
      * injection Hk as <-. apply Hseqs in Hs as [->|[Hs Hne]]; [done|]. split; [|done].
        unfold old_bucket in Hs |- *. destruct (bucket_at db h) as [b|] eqn:E; simpl in Hs.
        -- by exists h, b.
        -- by apply not_elem_of_nil in Hs.
      * split; [by exists k, b|]. intros Heq. unfold old_bucket in Heq.
        destruct (bucket_at db h) as [b'|] eqn:E; simpl in Heq; [|done].
        destruct (seqs_disjoint n db k b h b' t Hi Hk E Hs) as [? _]; [|done].
        unfold seqs. rewrite <- Heq. by left.
Qed.

(** The buckets after the transaction of [InitPayment] that commits a new payment. *)
Definition initiated (db : payments_db) (h : list byte) (s : Z) (info : PaymentCreationInfo)
    (db' : payments_db) : Prop :=
  replaced db h (fresh_bucket s info (duplicates (old_bucket db h))) db'.

Lemma create_inflight_root db s :
  payments_root (createPaymentInflightIndexEntry db s) = payments_root db.
Proof. unfold createPaymentInflightIndexEntry. by destruct (inflight_index db). Qed.

Lemma init_tx_frame db h info s db' :
  init_tx db h info s = Ok (db', None) ->
  initiated db h s info db' /\
  (exists idx, payments_index db = Some idx /\
    payments_index db' = Some (<[s := index_value (PaymentIdentifier info)]>
      (match sequence_key (old_bucket db h) with
       | None => idx
       | Some s0 => delete s0 idx
       end))) /\
  inflight_index db' = (fun m => <[s := [paymentInflightIndexValueVersion]]> m) <$> inflight_index db /\
  (fetchPaymentStatus (old_bucket db h) = Ok StatusUnknown \/
   fetchPaymentStatus (old_bucket db h) = Ok StatusFailed).
Proof.
  unfold init_tx. rewrite <- old_bucket_create. unfold initiated. rewrite <- old_bucket_create.
  destruct (createPaymentBucket db h) as [tx bucket] eqn:Ec. simpl.
  injection Ec as Etx Ebk. intros (st & Est & Hr)%bind_ok.
  assert (st = StatusUnknown \/ st = StatusFailed) as Hst by (destruct st; auto; done).
  assert (exists idx, payments_index db = Some idx /\
    Ok (createPaymentInflightIndexEntry (set_payment (set_index tx
          (<[s := index_value (PaymentIdentifier info)]>
            match sequence_key bucket with None => idx | Some s0 => delete s0 idx end)) h
          (fresh_bucket s info (duplicates bucket))) s, None) = Ok (db', @None error)) as (idx & Ei & Hd).
  { assert (payments_index tx = payments_index db) as Eidx by (by subst tx).
    rewrite <- Eidx. destruct Hst as [-> | ->]; destruct (sequence_key bucket) as [s0|];
      apply bind_ok in Hr as (tx1 & E1 & Hr); apply bind_ok in Hr as (tx2 & E2 & Hr);
      destruct (payments_index tx) as [idx|] eqn:Ex; try discriminate E1;
      injection E1 as <-; unfold createPaymentIndexEntry in E2; simpl in E2; rewrite ?Ex in E2;
      try discriminate E2; injection E2 as <-; exists idx; (split; [done|exact Hr]). }
  injection Hd as <-. split_and!.
  - eapply replaced_root; [apply create_inflight_root|].
    split; [|by subst tx]. intros k. rewrite (rp_at _ _ _ _ (set_payment_replaced _ h _)).
    destruct (decide (k = h)) as [->|]; [done|]. subst tx.
    etrans; [apply (rp_at _ _ _ _ (set_payment_replaced db h _))|]. by rewrite decide_False.
  - exists idx. split; [done|]. unfold createPaymentInflightIndexEntry. simpl.
    by destruct (inflight_index tx).
  - unfold createPaymentInflightIndexEntry. subst tx. simpl.
    destruct (inflight_index db) eqn:E; simpl; by rewrite ?E.
  - destruct Hst as [-> | ->]; auto.
Qed.
End Initiating.

Section Initiated.
Context `{Secp256k1, VarBytes, MapRange, FailureCodec}.

Lemma total_map_empty : total_map ∅ = 0.
Proof. reflexivity. Qed.

(** Numbers above the issued ones are not in use. *)
Lemma unissued n db s h b : db_inv n db -> n < s -> bucket_at db h = Some b -> s ∉ seqs b.
Proof.
  intros Hi Hn Hb Hs. pose proof (di_index n db Hi) as (idx & _ & Hidx & Hr).
  assert (idx !! s = Some (index_value h)) as Hx by (apply Hidx; by exists h, b).
  specialize (Hr s ltac:(eauto)). lia.
Qed.

Lemma fresh_bucket_ok n db h info s :
  db_inv n db -> n < s -> wf_creation info -> amount_ok (Value info) ->
  bucket_ok (fresh_bucket s info (duplicates (old_bucket db h))).
Proof.
  intros Hi Hn Hwf Hval. split.
  - unfold seqs, old_bucket. simpl. apply NoDup_cons.
    destruct (bucket_at db h) as [b|] eqn:E; simpl.
    + split.
      * intros Hin. apply (unissued n db s h b Hi Hn E). unfold seqs. apply elem_of_app. by right.
      * destruct (di_buckets n db Hi h b E) as (_ & Hnd & _). unfold seqs in Hnd.
        by apply NoDup_app in Hnd as (_ & _ & Hnd).
    + split; [apply not_elem_of_nil|constructor].
  - exists ∅, (fresh_payment s info). split; [by apply fresh_view|].
    constructor; [intros ? ? [=]|intros ? ? [=]|done|]. rewrite total_map_empty. apply Hval.
Qed.

(** A payment may be initiated when there is none, or when the last one failed. *)
Definition may_initiate (db : payments_db) (h : list byte) : Prop :=
  bucket_at db h = None \/ exists m p, holds db h m p /\ Status p = StatusFailed.

Lemma status_known b m p : payment_view b m p -> Status p <> StatusUnknown.
Proof. intros Hv. rewrite (pv_status _ _ _ Hv), payment_status_eq. repeat case_match; done. Qed.

Lemma init_status n db h st :
  db_inv n db -> fetchPaymentStatus (old_bucket db h) = Ok st ->
  match st with
  | StatusUnknown => bucket_at db h = None
  | _ => exists m p, holds db h m p /\ Status p = st
  end.
Proof.
  intros Hi. unfold old_bucket. destruct (bucket_at db h) as [b|] eqn:E; simpl.
  - destruct (di_buckets n db Hi h b E) as (_ & _ & m & p & Hv & _).
    rewrite (view_status _ _ _ Hv). intros [= <-]. pose proof (status_known _ _ _ Hv).
    assert (holds db h m p) by (by exists b). destruct (Status p) eqn:Es; eauto. done.
  - by intros [= <-].
Qed.

Lemma flying_initiated n db h s info db' t :
  db_inv n db -> n < s -> wf_creation info -> initiated db h s info db' ->
  may_initiate db h -> flying db' t <-> t = s \/ (t <> s /\ flying db t).
Proof.
  intros Hi Hn Hwf [Hat _] Hbefore.
  set (b' := fresh_bucket s info (duplicates (old_bucket db h))) in *.
  assert (fetchPayment b' = Ok (fresh_payment s info)) as Hfetch.
  { apply fetchPayment_iff. eexists. by apply fresh_view. }
  split.
  - intros (k & b & p & Hk & Hp & Hfl & <-). rewrite Hat in Hk.
    destruct (decide (k = h)) as [->|Hkh].
    + injection Hk as <-. rewrite Hfetch in Hp. injection Hp as <-. by left.
    + right. split; [|by exists k, b, p]. intros Hs.
      apply (unissued n db s k b Hi Hn Hk). rewrite <- Hs. by apply seq_listed.
  - intros [->|[Hts (k & b & p & Hk & Hp & Hfl & <-)]].
    + exists h, b', (fresh_payment s info). by rewrite Hat, decide_True by done.
    + exists k, b, p. rewrite Hat, decide_False; [done|]. intros ->.
      destruct Hbefore as [E|(m1 & p1 & (b1 & E & Hv1) & Hs1)]; rewrite Hk in E; [done|].
      injection E as <-. apply fetchPayment_iff in Hp as (m2 & Hv2).
      destruct (payment_view_unique _ _ _ _ _ Hv1 Hv2) as [_ ->]. congruence.
Qed.

Lemma init_ok n db h info s db' :
  db_inv n db -> n < s -> 0 <= n -> wf_creation info -> amount_ok (Value info) ->
  PaymentIdentifier info = h -> init_tx db h info s = Ok (db', None) ->
  db_inv s db' /\ initiated db h s info db' /\ holds db' h ∅ (fresh_payment s info) /\
  may_initiate db h.
Proof.
  intros Hi Hn Hn0 Hwf Hval Hid Ht. apply init_tx_frame in Ht as (Hrp & (idx & Ei & Ei') & Ef & Hst).
  rewrite Hid in Ei'. pose proof Hrp as [Hat _].
  assert (may_initiate db h) as Hbefore.
  { destruct Hst as [Hst|Hst]; apply (init_status n db h _ Hi) in Hst; [by left|by right]. }
  split_and!; [|done| |done].
  2:{ eexists. rewrite Hat, decide_True by done. split; [done|]. by apply fresh_view. }
  constructor.
  - eexists. split; [exact Ei'|]. split; [by eapply init_index|].
    intros t [v Hv]. destruct (decide (t = s)) as [->|Hts]; [lia|].
    rewrite lookup_insert_ne in Hv by done.
    pose proof (di_index n db Hi) as (idx2 & Ei2 & _ & Hr). rewrite Ei in Ei2. injection Ei2 as <-.
    assert (is_Some (idx !! t)) as Hx%Hr; [|lia].
    destruct (sequence_key (old_bucket db h)); [|by eexists].
    apply lookup_delete_Some in Hv as [_ Hv]. by eexists.
  - intros k b Hk. rewrite Hat in Hk. destruct (decide (k = h)) as [->|]; [|by apply (di_buckets n db Hi)].
    injection Hk as <-. split; [rewrite <- Hid; apply Hwf|]. by apply (fresh_bucket_ok n).
  - intros m t Em. rewrite Ef in Em. apply fmap_Some in Em as (m0 & Em0 & ->).
    rewrite (flying_initiated n db h s info db' t) by done.
    pose proof (di_inflight n db Hi m0 t Em0) as Hfl. destruct (decide (t = s)) as [->|Hts].
    + rewrite lookup_insert_eq. split; [by left|eauto].
    + rewrite lookup_insert_ne by done. rewrite Hfl. naive_solver.
Qed.

(** A refused initiation changes nothing. *)
Lemma init_refused n db h info s db' e :
  db_inv n db -> init_tx db h info s = Ok (db', Some e) ->
  db' = db /\ exists m p, holds db h m p /\
    ((Status p = StatusInFlight /\ e = ErrPaymentInFlight) \/
     (Status p = StatusSucceeded /\ e = ErrAlreadyPaid)).
Proof.
  intros Hi. unfold init_tx. pose proof (old_bucket_create db h) as Eo.
  destruct (createPaymentBucket db h) as [tx b] eqn:Ec. simpl in Eo. subst b.
  injection Ec as Etx Eb. intros (st & Hst & Hr)%bind_ok. apply (init_status n db h st Hi) in Hst.
  assert ((st = StatusInFlight /\ e = ErrPaymentInFlight \/
           st = StatusSucceeded /\ e = ErrAlreadyPaid) /\ db' = tx) as [Hcase ->].
  { destruct st; [|injection Hr as <- <-; auto|injection Hr as <- <-; auto|];
      apply bind_ok in Hr as (? & _ & Hr); apply bind_ok in Hr as (? & _ & [=]). }
  assert (exists m p, holds db h m p /\ Status p = st) as (m & p & (b & Eat & Hv) & Hs).
  { destruct Hcase as [[-> _]|[-> _]]; exact Hst. }
  split.
  - rewrite <- Etx. unfold bucket_at in Eat. destruct (payments_root db) as [root|] eqn:Er; [|done].
    simpl in Eat. unfold set_payment. simpl. rewrite Er, Eat. simpl. rewrite insert_id by done.
    destruct db as [r i f]; simpl in *. subst r. by destruct root.
  - exists m, p. split; [by exists b|]. rewrite Hs. destruct Hcase as [[-> ->]|[-> ->]]; auto.
Qed.

Lemma next_sequence_ok pc db :
  pay_inv pc db -> root_seq db + paymentSeqBlockSize < 2 ^ 64 ->
  let '(pc', db', s) := nextPaymentSequence pc db in
  issued pc db < s /\ 0 <= issued pc db /\ db_inv (issued pc db) db' /\
  issued pc' db' = s /\ control_ok pc' db' /\
  (forall h, bucket_at db' h = bucket_at db h) /\
  payments_index db' = payments_index db /\ inflight_index db' = inflight_index db /\
  root_seq db <= root_seq db' <= root_seq db + paymentSeqBlockSize.
Proof.
  intros [Hi [Hs Hb]] Hroom. unfold nextPaymentSequence, issued in *. unfold paymentSeqBlockSize in *.
  destruct (Z.eqb_spec (currPaymentSeq pc) (storedPaymentSeq pc)) as [He|He].
  - assert (forall h, bucket_at {| payments_root := Some {| root_sequence := u64 (root_seq db + 1000);
        root_payments := root_payments (default empty_root (payments_root db)) |};
        payments_index := payments_index db; inflight_index := inflight_index db |} h =
        bucket_at db h) as Hat.
    { intros h. unfold bucket_at. simpl. by destruct (payments_root db). }
    fold (root_seq db). set (db' := Build_payments_db _ _ _) in *.
    assert (root_seq db' = root_seq db + 1000) as Er.
    { unfold db', root_seq at 1. simpl. apply u64_small. unfold is_u64. lia. }
    assert (forall n, db_inv n db -> db_inv n db') as Hinv.
    { intros n [(idx & Ei & Hidx & Hr) Hbk Hf]. constructor.
      - exists idx. split; [done|]. split; [|done]. intros s v. rewrite Hidx.
        unfold indexed_by. by setoid_rewrite Hat.
      - intros h b. rewrite Hat. apply Hbk.
      - intros m s Em. rewrite (Hf m s Em). unfold flying. by setoid_rewrite Hat. }
    cbn [currPaymentSeq storedPaymentSeq].
    destruct (Z.eqb_spec (currPaymentSeq pc) 0) as [E0|E0].
    + rewrite (u64_small (root_seq db + 1)) by (unfold is_u64; lia).
      destruct (Z.eqb_spec (root_seq db + 1) 0) as [|_]; [lia|].
      split_and!; try done; try lia; [by apply Hinv|]. constructor; simpl; [lia|].
      right. rewrite Er, u64_small by (unfold is_u64; lia). lia.
    + destruct Hb as [[? ?]|[Hb1 Hb2]]; [lia|].
      rewrite (u64_small (currPaymentSeq pc + 1)) by (unfold is_u64; lia).
      destruct (Z.eqb_spec (currPaymentSeq pc + 1) 0) as [|_]; [lia|].
      split_and!; try done; try lia; [by apply Hinv|]. constructor; simpl; [lia|].
      right. rewrite Er, u64_small by (unfold is_u64; lia). lia.
  - destruct Hb as [[? ?]|[Hb1 Hb2]]; [lia|].
    rewrite (u64_small (currPaymentSeq pc + 1)) by (unfold is_u64; lia). cbn [currPaymentSeq].
    destruct (Z.eqb_spec (currPaymentSeq pc + 1) 0) as [|_]; [lia|].
    destruct (Z.eqb_spec (currPaymentSeq pc) 0) as [|_]; [lia|].
    split_and!; try done; try lia. constructor; simpl; [lia|]. right. lia.
Qed.
End Initiated.

(** ** Deleting failed attempts *)

Section DeletingAttempts.
Context `{Secp256k1, VarBytes, MapRange, FailureCodec}.

Definition drop_failed (m : gmap Z HTLCAttempt) : gmap Z HTLCAttempt :=
  filter (fun kv => Failure kv.2 = None) m.

Lemma drop_failed_lookup m k :
  drop_failed m !! k = (a ← m !! k; match Failure a with Some _ => None | None => Some a end).
Proof.
  unfold drop_failed. destruct (m !! k) as [a|] eqn:E; simpl.
  - destruct (Failure a) eqn:Ef.
    + apply map_lookup_filter_None. right. intros a' Ea'. simpl. congruence.
    + apply map_lookup_filter_Some. done.
  - apply map_lookup_filter_None. by left.
Qed.

Lemma total_drop_failed m : total_map (drop_failed m) = total_map m.
Proof.
  unfold drop_failed. induction m as [|k a m Hk IH] using map_ind; [done|].
  rewrite (total_map_insert m) by done. unfold live_amt.
  destruct (Failure a) as [f|] eqn:E.
  - rewrite map_filter_insert_False by (simpl; by rewrite E).
    rewrite map_filter_delete. rewrite delete_id; [lia|]. apply map_lookup_filter_None. by left.
  - rewrite map_filter_insert_True by done. rewrite total_map_insert.
    + unfold live_amt. rewrite E. lia.
    + apply map_lookup_filter_None. by left.
Qed.

(** A test that failed attempts do not pass. *)
Lemma existsb_drop_failed f m :
  (forall a, f a = true -> Failure a = None) ->
  existsb f (bucket_entries (drop_failed m)).*2 = existsb f (bucket_entries m).*2.
Proof.
  intros Hf. apply eq_true_iff_eq. rewrite !existsb_exists. split.
  - intros (a & Ha%list_elem_of_In & Hfa). exists a. split; [|done]. apply list_elem_of_In.
    apply elem_of_bucket_values in Ha as (k & Hk). rewrite drop_failed_lookup in Hk.
    apply elem_of_bucket_values. exists k. destruct (m !! k) as [a'|]; simpl in Hk; [|done].
    by destruct (Failure a').
  - intros (a & Ha%list_elem_of_In & Hfa). exists a. split; [|done]. apply list_elem_of_In.
    apply elem_of_bucket_values in Ha as (k & Hk). apply elem_of_bucket_values. exists k.
    rewrite drop_failed_lookup, Hk. simpl. by rewrite (Hf a Hfa).
Qed.

Lemma status_drop_failed m r :
  payment_status (bucket_entries (drop_failed m)).*2 r = payment_status (bucket_entries m).*2 r.
Proof.
  rewrite !payment_status_eq, !existsb_drop_failed; [done|..];
    intros a; unfold in_flight, settled; by destruct (Settle a), (Failure a).
Qed.

Lemma failed_ids_view b m k :
  attempts_view b m -> k ∈ failed_ids (bucket_entries m).*2 <->
  exists a, m !! k = Some a /\ is_Some (Failure a).
Proof.
  intros Hv. unfold failed_ids. rewrite list_elem_of_fmap.
  assert (forall k a, m !! k = Some a -> AttemptID (attempt_info a) = k) as Hid.
  { intros k' a Hk. specialize (Hv k'). rewrite Hk in Hv. unfold reads_attempt in Hv.
    destruct (ai b !! k'); [|naive_solver]. by destruct Hv as (? & ? & ? & _ & _ & _ & [= ->]). }
  split.
  - intros (a & -> & Ha). apply list_elem_of_filter in Ha as [Hf Ha].
    apply elem_of_bucket_values in Ha as (k' & Hk'). exists a. by rewrite (Hid k' a Hk').
  - intros (a & Hk & Hf). exists a. split; [by rewrite (Hid k a Hk)|].
    apply list_elem_of_filter. split; [done|]. apply elem_of_bucket_values. eauto.
Qed.

Lemma delete_htlc_lookup ids : forall hb k,
  let hb' := fold_left delete_htlc ids hb in
  (ai hb' !! k = if decide (k ∈ ids) then None else ai hb !! k) /\
  (fi hb' !! k = if decide (k ∈ ids) then None else fi hb !! k) /\
  (si hb' !! k = if decide (k ∈ ids) then None else si hb !! k).
Proof.
  induction ids as [|i ids IH]; intros hb k; [done|]. simpl.
  destruct (IH (delete_htlc hb i) k) as (-> & -> & ->). simpl.
  destruct (decide (k = i)) as [->|Hne].
  - rewrite !lookup_delete_eq.
    destruct (decide (i ∈ i :: ids)) as [_|Hn]; [by destruct (decide (i ∈ ids))|].
    exfalso. apply Hn. by left.
  - rewrite !lookup_delete_ne by done.
    destruct (decide (k ∈ ids)) as [Hin|Hin], (decide (k ∈ i :: ids)) as [Hc|Hc]; try done.
    + exfalso. apply Hc. by right.
    + by apply elem_of_cons in Hc as [->|].
Qed.

(** The payment after its failed attempts are deleted. *)
Definition without_failed (m : gmap Z HTLCAttempt) (p : MPPayment) : MPPayment :=
  {| SequenceNum := SequenceNum p; Info := Info p;
     HTLCs := (bucket_entries (drop_failed m)).*2;
     FailureReason := FailureReason p; Status := Status p |}.

Lemma delete_htlcs_view b m p ids b' :
  payment_view b m p -> fetchFailedHtlcKeys b = Ok ids -> delete_htlcs b ids = Ok b' ->
  payment_view b' (drop_failed m) (without_failed m p) /\
  sequence_key b' = sequence_key b /\ duplicates b' = duplicates b.
Proof.
  intros Hv. unfold fetchFailedHtlcKeys.
  intros (hs & (m' & Hm' & ->)%fetch_htlcs_iff & [= <-])%bind_ok Hd.
  assert (m' = m) as -> by (eapply attempts_view_unique; [exact Hm'|apply Hv]).
  set (ids := failed_ids (bucket_entries m).*2) in *.
  assert (attempts_view (default empty_htlcs (htlcs b')) (drop_failed m) /\
    sequence_key b' = sequence_key b /\ duplicates b' = duplicates b /\
    creation_info b' = creation_info b /\ fail_info b' = fail_info b) as (Hview & Es & Ed & Ec & Ef).
  { assert (forall k, k ∈ ids <-> exists a, m !! k = Some a /\ is_Some (Failure a)) as Hids
      by (intros k; apply (failed_ids_view _ m k Hm')).
    clearbody ids. unfold delete_htlcs in Hd. destruct ids as [|i0 ids0].
    - injection Hd as <-. split; [|done].
      replace (drop_failed m) with m; [done|]. apply map_eq. intros k.
      rewrite drop_failed_lookup. destruct (m !! k) as [a|] eqn:E; [|done]. simpl.
      destruct (Failure a) eqn:Ef; [|done]. exfalso. apply (not_elem_of_nil k). apply Hids. eauto.
    - destruct (htlcs b) as [hb|] eqn:Eb; [|done]. injection Hd as <-. split; [|done].
      intros k. simpl.
      destruct (delete_htlc_lookup (i0 :: ids0) hb k) as (Ea & Ef & Es). simpl in Hm'.
      specialize (Hm' k). destruct (decide (k ∈ i0 :: ids0)) as [Hin|Hin].
      + unfold reads_attempt. simpl in Ea, Ef, Es. rewrite Ea, Ef, Es. split_and!; [done..|].
        rewrite drop_failed_lookup. apply Hids in Hin as (a & -> & Hfa). simpl.
        by destruct (Failure a); [|destruct Hfa].
      + eapply reads_attempt_local; [symmetry; exact Ea|symmetry; exact Ef|symmetry; exact Es|].
        rewrite drop_failed_lookup. destruct (m !! k) as [a|] eqn:E; simpl; [|done].
        destruct (Failure a) eqn:Efa; [|done]. exfalso. apply Hin, Hids. eauto. }
  split; [|done]. constructor; simpl; [by rewrite Es; apply Hv| |done|done| |].
  - unfold fetchCreationInfo. rewrite Ec. apply (pv_info _ _ _ Hv).
  - rewrite Ef. apply Hv.
  - rewrite status_drop_failed, (pv_status _ _ _ Hv). by rewrite (pv_htlcs _ _ _ Hv).
Qed.

Lemma without_failed_ok m p : payment_ok m p -> payment_ok (drop_failed m) (without_failed m p).
Proof.
  intros [Ho Ha Hv Ht].
  assert (forall k a, drop_failed m !! k = Some a -> m !! k = Some a) as Hsub.
  { intros k a. rewrite drop_failed_lookup. destruct (m !! k) as [a'|]; simpl; [|done].
    by destruct (Failure a'). }
  constructor; [eauto..|done|]. by rewrite total_drop_failed.
Qed.

Lemma same_status_inv n db h b b' m p m' p' :
  db_inv n db -> bucket_at db h = Some b -> payment_view b m p -> payment_view b' m' p' ->
  sequence_key b' = sequence_key b -> duplicates b' = duplicates b -> payment_ok m' p' ->
  Status p' = Status p -> db_inv n (set_payment db h b').
Proof.
  intros Hi Hb Hv Hv' Es Ed Hok Hst.
  assert (seqs b' = seqs b) as Eseqs by (unfold seqs; by rewrite Es, Ed).
  assert (SequenceNum p' = SequenceNum p) as Eseq.
  { pose proof (pv_seq _ _ _ Hv). pose proof (pv_seq _ _ _ Hv'). congruence. }
  assert (fetchPayment b = Ok p /\ fetchPayment b' = Ok p') as [Hp Hp']
    by (split; apply fetchPayment_iff; eauto).
  eapply db_inv_replaced; [done|done|exact Eseqs| |apply set_payment_replaced|done|].
  - split; [|by exists m', p']. rewrite Eseqs. by apply (di_buckets n db Hi h b Hb).
  - intros mi s Emi. rewrite (flying_replaced n db h b b' p p' _ s Hi Hb Hp Hp' Eseq
      (set_payment_replaced db h b')).
    rewrite (di_inflight n db Hi mi s Emi). destruct (decide (s = SequenceNum p)) as [->|]; [|done].
    rewrite Hst. split; [|intros Hf; by exists h, b, p].
    intros (k & bk & pk & Hk & Hpk & Hfl & He).
    destruct (seqs_disjoint n db k bk h b (SequenceNum pk) Hi Hk Hb) as [-> ->];
      [by apply seq_listed|rewrite He; by apply seq_listed|]. congruence.
Qed.
End DeletingAttempts.

(** ** Deleting payments *)

Section DeletingPayments.
Context `{Secp256k1, VarBytes, MapRange, FailureCodec}.

Lemma hash_entries_Permutation {V} (m : gmap (list byte) V) : hash_entries m ≡ₚ map_to_list m.
Proof. apply merge_sort_Permutation. Qed.

Lemma hash_entries_NoDup {V} (m : gmap (list byte) V) : NoDup (hash_entries m).*1.
Proof. rewrite hash_entries_Permutation. apply NoDup_fst_map_to_list. Qed.

Lemma elem_of_hash_entries db root h b :
  payments_root db = Some root ->
  (h, b) ∈ hash_entries (root_payments root) <-> bucket_at db h = Some b.
Proof.
  intros Er. rewrite hash_entries_Permutation, elem_of_map_to_list.
  unfold bucket_at. by rewrite Er.
Qed.

(** [removed db sel db']: the payments [sel] are gone, with their index entries. *)
Record removed (db : payments_db) (sel : list (list byte * payment_bucket)) (db' : payments_db)
    : Prop := {
  rm_at : forall k, bucket_at db' k = if decide (k ∈ sel.*1) then None else bucket_at db k;
  rm_seq : root_seq db' = root_seq db;
  rm_inflight : inflight_index db' = inflight_index db;
  rm_index : forall idx, payments_index db = Some idx -> exists idx',
    payments_index db' = Some idx' /\
    forall s, idx' !! s = if decide (s ∈ concat (seqs ∘ snd <$> sel)) then None else idx !! s;
}.

(** A payment that may be deleted. *)
Definition at_rest (b : payment_bucket) : Prop :=
  exists st, fetchPaymentStatus b = Ok st /\ st <> StatusInFlight.

Lemma elem_of_seqs_of (sel : list (list byte * payment_bucket)) s :
  s ∈ concat (seqs ∘ snd <$> sel) <-> exists h b, (h, b) ∈ sel /\ s ∈ seqs b.
Proof.
  rewrite list_elem_of_In, in_concat. split.
  - intros (l & Hl%list_elem_of_In & Hs%list_elem_of_In).
    apply list_elem_of_fmap in Hl as ([h b] & -> & Hin). by exists h, b.
  - intros (h & b & Hin & Hs). exists (seqs b). split; apply list_elem_of_In; [|done].
    by apply (list_elem_of_fmap_2 (seqs ∘ snd) sel (h, b)).
Qed.

Lemma removed_inv n db sel db' :
  db_inv n db -> removed db sel db' ->
  (forall h b, (h, b) ∈ sel -> bucket_at db h = Some b /\ at_rest b) -> db_inv n db'.
Proof.
  intros Hi [Hat _ Ef Hidx] Hsel. pose proof (di_index n db Hi) as (idx & Ei & Hx & Hr).
  destruct (Hidx idx Ei) as (idx' & Ei' & Hx').
  assert (forall h, h ∈ sel.*1 -> exists b, (h, b) ∈ sel) as Hfst.
  { intros h ([h' b] & -> & Hin)%list_elem_of_fmap. by exists b. }
  constructor.
  - exists idx'. split; [done|]. split.
    + intros s v. rewrite Hx'. destruct (decide (s ∈ concat _)) as [Hin|Hin].
      * split; [done|]. intros (k & b & Hk & Hs & _). rewrite Hat in Hk.
        destruct (decide (k ∈ sel.*1)) as [|Hk']; [done|].
        apply elem_of_seqs_of in Hin as (h2 & b2 & Hin & Hs2).
        destruct (Hsel h2 b2 Hin) as [E2 _].
        destruct (seqs_disjoint n db k b h2 b2 s Hi Hk E2 Hs Hs2) as [-> _].
        exfalso. apply Hk'. by apply (list_elem_of_fmap_2 fst sel (h2, b2)).
      * rewrite Hx. split; intros (k & b & Hk & Hs & ->); exists k, b.
        -- rewrite Hat, decide_False; [done|]. intros (b2 & Hin2)%Hfst. apply Hin.
           apply elem_of_seqs_of. exists k, b2. split; [done|].
           destruct (Hsel k b2 Hin2) as [E2 _]. rewrite Hk in E2. by injection E2 as <-.
        -- rewrite Hat in Hk. by destruct (decide (k ∈ sel.*1)).
    + intros s [v Hv]. apply Hr. rewrite Hx' in Hv. destruct (decide _); [done|by eexists].
  - intros h b Hb. rewrite Hat in Hb. destruct (decide _); [done|]. by apply (di_buckets n db Hi).
  - intros m s Em. rewrite Ef in Em. rewrite (di_inflight n db Hi m s Em).
    split; intros (k & b & p & Hk & Hp & Hst & <-); exists k, b, p.
    + rewrite Hat, decide_False; [done|]. intros (b2 & Hin2)%Hfst.
      destruct (Hsel k b2 Hin2) as (E2 & st & Hst2 & Hne). rewrite Hk in E2. injection E2 as <-.
      apply fetchPayment_iff in Hp as (mm & Hv). rewrite (view_status _ _ _ Hv) in Hst2.
      injection Hst2 as <-. done.
    + rewrite Hat in Hk. by destruct (decide (k ∈ sel.*1)).
Qed.

Lemma fetchSequenceNumbers_seqs b l : fetchSequenceNumbers b = Ok l -> l = seqs b.
Proof.
  unfold fetchSequenceNumbers, seqs. destruct (sequence_key b); [|done].
  by destruct (duplicates b); intros [= <-].
Qed.

Lemma delete_indexes ks : forall tx tx',
  for_each (fun k tx => delete_index tx k) ks tx = Ok tx' ->
  payments_root tx' = payments_root tx /\ inflight_index tx' = inflight_index tx /\
  forall idx, payments_index tx = Some idx -> exists idx', payments_index tx' = Some idx' /\
    forall s, idx' !! s = if decide (s ∈ ks) then None else idx !! s.
Proof.
  induction ks as [|k ks IH]; intros tx tx'.
  - intros [= <-]. split_and!; [done..|]. intros idx Ei. by exists idx.
  - cbn [for_each]. intros (tx1 & Hd & Hr)%bind_ok. unfold delete_index in Hd.
    destruct (payments_index tx) as [idx0|] eqn:Ei0; [|done]. injection Hd as <-.
    destruct (IH _ _ Hr) as (Er & Ef & Hx). split_and!; [done..|].
    intros idx [= <-]. destruct (Hx (delete k idx0) eq_refl) as (idx' & Ei' & Hl).
    exists idx'. split; [done|]. intros s. rewrite Hl.
    destruct (decide (s ∈ ks)) as [Hin|Hin], (decide (s ∈ k :: ks)) as [Hc|Hc]; try done.
    + exfalso. apply Hc. by right.
    + apply elem_of_cons in Hc as [->|]; [|done]. by rewrite lookup_delete_eq.
    + rewrite lookup_delete_ne; [done|]. intros ->. apply Hc. by left.
Qed.

Lemma delete_buckets_at hs : forall tx k,
  bucket_at (fold_left delete_payment_bucket hs tx) k =
    (if decide (k ∈ hs) then None else bucket_at tx k) /\
  root_seq (fold_left delete_payment_bucket hs tx) = root_seq tx /\
  payments_index (fold_left delete_payment_bucket hs tx) = payments_index tx /\
  inflight_index (fold_left delete_payment_bucket hs tx) = inflight_index tx.
Proof.
  induction hs as [|h hs IH]; intros tx k; [done|]. cbn [fold_left].
  destruct (IH (delete_payment_bucket tx h) k) as (-> & -> & -> & ->).
  assert (bucket_at (delete_payment_bucket tx h) k =
    if decide (k = h) then None else bucket_at tx k) as E.
  { unfold bucket_at, delete_payment_bucket. simpl. destruct (payments_root tx) as [root|]; simpl.
    - destruct (decide (k = h)) as [->|]; [apply lookup_delete_eq|by apply lookup_delete_ne].
    - by destruct (decide (k = h)). }
  split_and!; [|by unfold root_seq; simpl; destruct (payments_root tx)|done..]. rewrite E.
  destruct (decide (k ∈ hs)) as [Hin|Hin], (decide (k ∈ h :: hs)) as [Hc|Hc]; try done.
  + exfalso. apply Hc. by right.
  + apply elem_of_cons in Hc as [->|]; [|done]. by rewrite decide_True.
  + rewrite decide_False; [done|]. intros ->. apply Hc. by left.
Qed.
End DeletingPayments.

Section Deleted.
Context `{Secp256k1, VarBytes, MapRange, FailureCodec}.

Lemma delete_payment_ok n db h fh db' :
  db_inv n db -> delete_payment_tx db h fh = Ok (db', tt) ->
  db_inv n db' /\ root_seq db' = root_seq db /\
  (db' = db \/ exists b m p, bucket_at db h = Some b /\ payment_view b m p /\
    Status p <> StatusInFlight /\
    if fh then pay_updated db h m p db' (drop_failed m) (without_failed m p)
    else removed db [(h, b)] db').
Proof.
  intros Hi. unfold delete_payment_tx. destruct (payments_root db) as [root|] eqn:Er.
  2:{ intros [= <-]. auto. }
  destruct (root_payments root !! h) as [b|] eqn:Eb; [|done].
  assert (bucket_at db h = Some b) as Hat by (unfold bucket_at; by rewrite Er).
  destruct (di_buckets n db Hi h b Hat) as (_ & Hnd & m & p & Hv & Hok).
  rewrite (view_status _ _ _ Hv). rsimpl. case_bool_decide as Hst; [done|]. destruct fh.
  - intros (ids & Hids & Hr)%bind_ok. apply bind_ok in Hr as (b' & Hb' & [= <-]).
    destruct (delete_htlcs_view b m p ids b' Hv Hids Hb') as (Hv' & Es & Ed).
    split_and!; [|done|right; exists b, m, p; split_and!; [done..|]].
    + by eapply same_status_inv; [..|apply without_failed_ok|].
    + by eapply replaced_updated; [..|apply set_payment_replaced| |].
  - intros (ks & Hks & Hr)%bind_ok. apply bind_ok in Hr as (tx & Htx & [= <-]).
    apply fetchSequenceNumbers_seqs in Hks as ->.
    destruct (delete_indexes _ _ _ Htx) as (Er' & Ef' & Hx).
    assert (removed db [(h, b)] tx) as Hrm.
    { constructor.
      - intros k. destruct (delete_buckets_at [h] db k) as (E & _). simpl in E |- *.
        rewrite <- E. unfold bucket_at. by rewrite Er'.
      - destruct (delete_buckets_at [h] db h) as (_ & E & _). simpl in E. rewrite <- E.
        unfold root_seq. by rewrite Er'.
      - done.
      - intros idx Ei. destruct (Hx idx Ei) as (idx' & Ei' & Hl). exists idx'. split; [done|].
        intros s. rewrite Hl. simpl. by rewrite app_nil_r. }
    split_and!; [|apply Hrm|right; by exists b, m, p].
    eapply removed_inv; [done|exact Hrm|]. intros k bk [= -> ->]%list_elem_of_singleton.
    split; [done|]. exists (Status p). split; [by eapply view_status|done].
Qed.

(** The payments [DeletePayments] selects. *)
Definition deletable (failedOnly : bool) (b : payment_bucket) : bool :=
  match fetchPaymentStatus b with
  | Ok StatusFailed => true
  | Ok StatusSucceeded | Ok StatusUnknown => negb failedOnly
  | _ => false
  end.

Definition selected (failedOnly : bool) (l : list (list byte * payment_bucket))
    : list (list byte * payment_bucket) :=
  filter (fun kv => deletable failedOnly kv.2 = true) l.

Lemma deletable_at_rest fo b : deletable fo b = true -> at_rest b.
Proof.
  unfold deletable, at_rest. destruct (fetchPaymentStatus b) as [st| |]; [|done..].
  intros Hd. exists st. split; [done|]. by intros ->.
Qed.

Lemma collect_step fo fh h b d d' :
  collect_deletions fo fh (h, b) d = Ok d' ->
  if deletable fo b then
    if fh then deleteBuckets d' = deleteBuckets d /\ deleteIndexes d' = deleteIndexes d /\
      exists ids, fetchFailedHtlcKeys b = Ok ids /\ deleteHtlcs d' = deleteHtlcs d ++ [(h, ids)]
    else deleteHtlcs d' = deleteHtlcs d /\ deleteBuckets d' = deleteBuckets d ++ [h] /\
      deleteIndexes d' = deleteIndexes d ++ seqs b
  else d' = d.
Proof.
  unfold collect_deletions, deletable. intros (st & -> & Hr)%bind_ok.
  assert (st <> StatusInFlight -> fo && negb (bool_decide (st = StatusFailed)) = false ->
    if fh then deleteBuckets d' = deleteBuckets d /\ deleteIndexes d' = deleteIndexes d /\
      exists ids, fetchFailedHtlcKeys b = Ok ids /\ deleteHtlcs d' = deleteHtlcs d ++ [(h, ids)]
    else deleteHtlcs d' = deleteHtlcs d /\ deleteBuckets d' = deleteBuckets d ++ [h] /\
      deleteIndexes d' = deleteIndexes d ++ seqs b) as Hgo.
  { intros Hst Hfo. rewrite bool_decide_false, Hfo in Hr by done. destruct fh.
    - apply bind_ok in Hr as (ids & Hids & Hr). apply bind_ok in Hr as (hash & Hh & Hr).
      injection Hr as <-. split_and!; [done..|]. exists ids. split; [done|].
      unfold MakeHash in Hh. destruct (negb _); [done|]. by injection Hh as ->.
    - apply bind_ok in Hr as (ks & Hks & Hr). injection Hr as <-.
      by apply fetchSequenceNumbers_seqs in Hks as ->. }
  destruct st, fo; simpl in *; try (apply Hgo; done); by injection Hr.
Qed.

Lemma collect_ok fo fh l : forall d d',
  for_each (collect_deletions fo fh) l d = Ok d' ->
  if fh then deleteBuckets d' = deleteBuckets d /\ deleteIndexes d' = deleteIndexes d /\
    exists hl, deleteHtlcs d' = deleteHtlcs d ++ hl /\
      Forall2 (fun kv he => he.1 = kv.1 /\ fetchFailedHtlcKeys kv.2 = Ok he.2) (selected fo l) hl
  else deleteHtlcs d' = deleteHtlcs d /\ deleteBuckets d' = deleteBuckets d ++ (selected fo l).*1 /\
    deleteIndexes d' = deleteIndexes d ++ concat (seqs ∘ snd <$> selected fo l).
Proof.
  induction l as [|[h b] l IH]; intros d d'.
  - intros [= <-]. destruct fh; simpl; rewrite ?app_nil_r; [|done].
    split_and!; [done..|]. exists []. by rewrite app_nil_r.
  - cbn [for_each]. intros (d1 & H1' & Hr)%bind_ok. apply collect_step in H1'. apply IH in Hr.
    unfold selected. rewrite filter_cons. simpl. fold (selected fo l).
    destruct (deletable fo b).
    + rewrite decide_True by done. destruct fh.
      * destruct H1' as (Eb & Ei & ids & Hids & Eh). destruct Hr as (Eb' & Ei' & hl & Eh' & Hf).
        rewrite Eb', Ei', Eb, Ei. split_and!; [done..|]. exists ((h, ids) :: hl).
        rewrite Eh', Eh, <- app_assoc. split; [done|]. by constructor.
      * destruct H1' as (Eh & Eb & Ei). destruct Hr as (Eh' & Eb' & Ei').
        rewrite Eh', Eb', Ei', Eh, Eb, Ei, <- !app_assoc. done.
    + rewrite decide_False by done. by subst d1.
Qed.
End Deleted.

Section DeletedAll.
Context `{Secp256k1, VarBytes, MapRange, FailureCodec}.

(** Failed attempts are dropped from the payments [sel]. *)
Definition trimmed (db : payments_db) (sel : list (list byte * payment_bucket))
    (db' : payments_db) : Prop :=
  root_seq db' = root_seq db /\
  forall k, if decide (k ∈ sel.*1)
    then exists m p, holds db k m p /\ holds db' k (drop_failed m) (without_failed m p)
    else bucket_at db' k = bucket_at db k.

Lemma delete_many_htlcs n sel hl :
  Forall2 (fun kv he => he.1 = kv.1 /\ fetchFailedHtlcKeys kv.2 = Ok he.2) sel hl ->
  NoDup sel.*1 -> forall tx tx',
  db_inv n tx -> (forall h b, (h, b) ∈ sel -> bucket_at tx h = Some b) ->
  for_each delete_payment_htlcs hl tx = Ok tx' -> db_inv n tx' /\ trimmed tx sel tx'.
Proof.
  induction 1 as [|[h b] [h' ids] sel hl [E Hids] _ IH]; intros Hn tx tx' Hi Hs.
  { intros [= <-]. split; [done|]. split; [done|]. intros k. by rewrite decide_False by apply not_elem_of_nil. }
  simpl in E, Hids. subst h'. apply NoDup_cons in Hn as [Hh Hn]. simpl in Hh.
  cbn [for_each]. intros (tx1 & Hd & Hr)%bind_ok. unfold delete_payment_htlcs in Hd. simpl in Hd.
  assert (bucket_at tx h = Some b) as Hb by (apply Hs; by left).
  rewrite (proj2 (fetchPaymentBucket_ok tx h b) Hb) in Hd.
  apply bind_ok in Hd as (b' & Hb' & [= <-]).
  destruct (di_buckets n tx Hi h b Hb) as (_ & Hnd & m & p & Hv & Hok).
  destruct (delete_htlcs_view b m p ids b' Hv Hids Hb') as (Hv' & Es & Ed).
  assert (db_inv n (set_payment tx h b')) as Hi1
    by (by eapply same_status_inv; [..|apply without_failed_ok|]).
  pose proof (set_payment_replaced tx h b') as [Hat Hseq].
  destruct (IH Hn (set_payment tx h b') tx' Hi1) as (Hi' & Eseq & Hk); [|done|].
  { intros k bk Hin. rewrite Hat, decide_False; [apply Hs; by right|]. intros ->. apply Hh.
    by apply (list_elem_of_fmap_2 fst sel (h, bk)). }
  split; [done|]. split; [by rewrite Eseq|]. intros k. specialize (Hk k).
  destruct (decide (k = h)) as [->|Hne].
  - rewrite decide_True by (by left). rewrite decide_False in Hk by done.
    exists m, p. split; [by exists b|]. exists b'. split; [|done]. by rewrite Hk, Hat, decide_True.
  - destruct (decide (k ∈ sel.*1)) as [Hin|Hin].
    + rewrite decide_True by (by right). destruct Hk as (mk & pk & (bk & Ek & Hvk) & Hk).
      exists mk, pk. split; [|done]. exists bk. by rewrite Hat, decide_False in Ek by done.
    + rewrite decide_False by (by intros [->|]%elem_of_cons). by rewrite Hk, Hat, decide_False.
Qed.

Definition all_buckets (db : payments_db) : list (list byte * payment_bucket) :=
  match payments_root db with None => [] | Some root => hash_entries (root_payments root) end.

Lemma elem_of_all_buckets db h b : (h, b) ∈ all_buckets db <-> bucket_at db h = Some b.
Proof.
  unfold all_buckets. destruct (payments_root db) as [root|] eqn:E.
  - by apply elem_of_hash_entries.
  - unfold bucket_at. rewrite E. split; [by intros ?%not_elem_of_nil|done].
Qed.

Lemma all_buckets_NoDup db : NoDup (all_buckets db).*1.
Proof. unfold all_buckets. case_match; [apply hash_entries_NoDup|constructor]. Qed.

Lemma selected_NoDup fo l : NoDup l.*1 -> NoDup (selected fo l).*1.
Proof. intros Hn. eapply sublist_NoDup; [exact Hn|]. apply fmap_sublist, sublist_filter. Qed.

(** The index entries are deleted once more when there is an in-flight index. *)
Lemma delete_twice ks tx tx1 tx2 :
  for_each (fun k tx => delete_index tx k) ks tx = Ok tx1 ->
  match inflight_index tx1 with
  | None => Ok tx1
  | Some _ => for_each (fun k tx => delete_index tx k) ks tx1
  end = Ok tx2 ->
  payments_root tx2 = payments_root tx /\ inflight_index tx2 = inflight_index tx /\
  forall idx, payments_index tx = Some idx -> exists idx', payments_index tx2 = Some idx' /\
    forall s, idx' !! s = if decide (s ∈ ks) then None else idx !! s.
Proof.
  intros H1'. destruct (delete_indexes _ _ _ H1') as (Er & Ef & Hx).
  destruct (inflight_index tx1) as [fi1|] eqn:E1; [|intros [= <-]; by rewrite E1].
  intros H2'. destruct (delete_indexes _ _ _ H2') as (Er2 & Ef2 & Hx2).
  split_and!; [congruence..|]. intros idx Ei. destruct (Hx idx Ei) as (idx1 & Ei1 & Hl).
  destruct (Hx2 idx1 Ei1) as (idx2 & Ei2 & Hl2). exists idx2. split; [done|]. intros s.
  rewrite Hl2, Hl. by destruct (decide (s ∈ ks)).
Qed.

Lemma delete_payments_ok n db fo fh db' :
  db_inv n db -> delete_payments_tx db fo fh = Ok (db', tt) ->
  db_inv n db' /\
  if fh then trimmed db (selected fo (all_buckets db)) db'
  else removed db (selected fo (all_buckets db)) db'.
Proof.
  intros Hi. unfold delete_payments_tx.
  assert (forall h b, (h, b) ∈ selected fo (all_buckets db) ->
    bucket_at db h = Some b /\ at_rest b) as Hsel.
  { intros h b [Hd Hin]%list_elem_of_filter. split; [by apply elem_of_all_buckets|].
    by eapply deletable_at_rest. }
  assert (removed db [] db) as Hnil.
  { constructor; [intros k; by rewrite decide_False by apply not_elem_of_nil|done|done|].
    intros idx Ei. exists idx. split; [done|]. intros s. by rewrite decide_False by apply not_elem_of_nil. }
  destruct (payments_root db) as [root|] eqn:Er.
  2:{ intros [= <-]. split; [done|]. unfold all_buckets. rewrite Er. simpl. destruct fh; [|done].
      split; [done|]. intros k. by rewrite decide_False by apply not_elem_of_nil. }
  replace (hash_entries (root_payments root)) with (all_buckets db)
    by (unfold all_buckets; by rewrite Er).
  intros (d & Hd & Hr)%bind_ok. apply collect_ok in Hd. simpl in Hd.
  apply bind_ok in Hr as (tx1 & H1' & Hr). apply bind_ok in Hr as (tx2 & H2' & Hr).
  apply bind_ok in Hr as (tx3 & H3' & [= <-]). destruct fh.
  - destruct Hd as (Eb & Ei & hl & Eh & Hf). rewrite Eb in H2'. rewrite Ei in H2', H3'. rewrite Eh in H1'.
    injection H2' as <-. assert (tx3 = tx1) as -> by (simpl in H3'; by destruct (inflight_index tx1); injection H3').
    eapply delete_many_htlcs; [exact Hf| |done| |exact H1'].
    + apply selected_NoDup, all_buckets_NoDup.
    + intros h b Hin. by apply Hsel.
  - destruct Hd as (Eh & Eb & Ei). rewrite Eh in H1'. injection H1' as <-. rewrite Eb in H2'. rewrite Ei in H2', H3'.
    destruct (delete_twice _ _ _ _ H2' H3') as (Er3 & Ef3 & Hx3).
    assert (removed db (selected fo (all_buckets db)) tx3) as Hrm.
    { destruct (delete_buckets_at (selected fo (all_buckets db)).*1 db []) as (_ & Es & Eidx & Ef).
      constructor.
      - intros k. destruct (delete_buckets_at (selected fo (all_buckets db)).*1 db k) as (E & _).
        rewrite <- E. unfold bucket_at. by rewrite Er3.
      - rewrite <- Es. unfold root_seq. by rewrite Er3.
      - by rewrite Ef3.
      - intros idx E. apply Hx3. by rewrite Eidx. }
    split; [by eapply removed_inv|done].
Qed.
End DeletedAll.
