(* ===== verification/PaymentRun.v ===== *)
(** * Payments: histories

    Sequences of operations of the payment control, with restarts of the node in
    between, the abstract life of a payment they implement, and what the queries return
    in the states they reach. *)

From Stdlib Require Import Lia.
From S2P Require Import Prelude Ids Tlv PaymentCodec Payments PaymentInv.

Section Histories.
Context `{Secp256k1, VarBytes, MapRange, FailureCodec}.

(** ** Restarting *)

Lemma update_inflight_some db p m0 :
  inflight_index db = Some m0 ->
  exists m, inflight_index (updatePaymentInflightIndexEntry db p) = Some m.
Proof.
  intros E. unfold updatePaymentInflightIndexEntry, createPaymentInflightIndexEntry,
    deletePaymentInflightIndexEntry. rewrite E. case_bool_decide; by eexists.
Qed.

(** The payments of a list of buckets, by number. *)
Definition numbered (l : list (list byte * payment_bucket)) (s : Z) (P : MPPayment -> Prop) : Prop :=
  exists h b p, (h, b) ∈ l /\ fetchPayment b = Ok p /\ SequenceNum p = s /\ P p.

Definition numbers_once (l : list (list byte * payment_bucket)) : Prop :=
  forall h b p h' b' p', (h, b) ∈ l -> (h', b') ∈ l -> fetchPayment b = Ok p ->
    fetchPayment b' = Ok p' -> SequenceNum p = SequenceNum p' -> h = h' /\ b = b'.

Lemma index_payments l : forall tx m0,
  inflight_index tx = Some m0 -> NoDup l.*1 -> numbers_once l ->
  (forall h b, (h, b) ∈ l -> exists p, fetchPayment b = Ok p) ->
  exists tx' m', for_each index_payment l tx = Ok tx' /\ inflight_index tx' = Some m' /\
    payments_root tx' = payments_root tx /\ payments_index tx' = payments_index tx /\
    forall s, is_Some (m' !! s) <->
      numbered l s (fun p => Status p = StatusInFlight) \/
      (is_Some (m0 !! s) /\ ~ numbered l s (fun _ => True)).
Proof.
  induction l as [|[h b] l IH]; intros tx m0 Em0 Hn Ho Hr.
  - exists tx, m0. split_and!; [done..|]. intros s. split.
    + intros Hs. right. split; [done|]. by intros (? & ? & ? & ?%not_elem_of_nil & _).
    + intros [(? & ? & ? & ?%not_elem_of_nil & _)|[? _]]; done.
  - apply NoDup_cons in Hn as [Hh Hn]. simpl in Hh.
    destruct (Hr h b) as [p Hp]; [by left|].
    destruct (update_inflight_some tx p m0 Em0) as [m1 Em1].
    destruct (update_inflight_frame tx p) as [Er1 Ei1].
    destruct (IH (updatePaymentInflightIndexEntry tx p) m1) as (tx' & m' & Hf & Em' & Er & Ei & Hm');
      [done|done| | |].
    { intros h1 b1 p1 h2 b2 p2 Hi1 Hi2. by apply Ho; right. }
    { intros h1 b1 Hi1. apply (Hr h1). by right. }
    exists tx', m'. cbn [for_each].
    change (index_payment (h, b) tx) with
      (p ← fetchPayment b; Ok (updatePaymentInflightIndexEntry tx p)). rewrite Hp. rsimpl.
    split_and!; [done|done|by rewrite Er|by rewrite Ei|]. intros s. rewrite Hm'.
    destruct (update_inflight_entry tx p m1 Em1) as (m0' & Em0' & Hm1).
    rewrite Em0 in Em0'. injection Em0' as <-. rewrite Hm1.
    assert (forall P, numbered ((h, b) :: l) s P <->
      (SequenceNum p = s /\ P p) \/ numbered l s P) as Hc.
    { intros P. split.
      - intros (h1 & b1 & p1 & [[= -> ->]|Hin]%elem_of_cons & Hp1 & Hs & HP).
        + left. rewrite Hp in Hp1. by injection Hp1 as <-.
        + right. by exists h1, b1, p1.
      - intros [[Hs HP]|(h1 & b1 & p1 & Hin & Hp1 & Hs & HP)].
        + exists h, b, p. split; [by left|done].
        + exists h1, b1, p1. split; [by right|done]. }
    rewrite !Hc. destruct (decide (s = SequenceNum p)) as [->|Hne].
    + assert (forall P, ~ numbered l (SequenceNum p) P) as Hno.
      { intros P (h1 & b1 & p1 & Hin & Hp1 & Hs & _).
        destruct (Ho h1 b1 p1 h b p) as [-> _]; [by right|by left|done..|].
        apply Hh. by apply (list_elem_of_fmap_2 fst l (h, b1)). }
      pose proof (Hno (fun p => Status p = StatusInFlight)). pose proof (Hno (fun _ => True)).
      naive_solver.
    + naive_solver.
Qed.

Lemma numbers_once_inv n db : db_inv n db -> numbers_once (all_buckets db).
Proof.
  intros Hi h b p h' b' p' Hin Hin' Hp Hp' Hs.
  apply elem_of_all_buckets in Hin, Hin'.
  eapply (seqs_disjoint n db _ _ _ _ (SequenceNum p) Hi Hin Hin'); [by apply seq_listed|].
  rewrite Hs. by apply seq_listed.
Qed.

Lemma numbered_flying db s :
  numbered (all_buckets db) s (fun p => Status p = StatusInFlight) <-> flying db s.
Proof.
  split.
  - intros (h & b & p & Hin%elem_of_all_buckets & Hp & Hs & Hst). by exists h, b, p.
  - intros (h & b & p & Hin & Hp & Hst & Hs). exists h, b, p.
    split; [by apply elem_of_all_buckets|done].
Qed.

(** Starting up builds a missing index of the payments in flight, and succeeds. *)
Lemma init_features_ok n db db' r :
  db_inv n db -> initDcrlndFeatures db = (db', r) ->
  r = Ok tt /\ db_inv n db' /\ is_Some (inflight_index db') /\
  (forall h, bucket_at db' h = bucket_at db h) /\ root_seq db' = root_seq db.
Proof.
  intros Hi. unfold initDcrlndFeatures. destruct (inflight_index db) as [m|] eqn:Em.
  { intros [= <- <-]. split_and!; [done..|by eexists|done|done]. }
  unfold recreatePaymentsInflightIndex. rewrite Em. cbn [payments_root set_inflight].
  destruct (index_payments (all_buckets db) (set_inflight db ∅) ∅)
    as (tx & m' & Hf & Em' & Er & Ei & Hm'); [done|apply all_buckets_NoDup|by eapply numbers_once_inv| |].
  { intros h b Hin%elem_of_all_buckets.
    destruct (bucket_ok_reads b) as (m & p & _ & _ & Hp); [by apply (di_buckets n db Hi h)|eauto]. }
  assert ((match payments_root db with
           | Some payments => for_each index_payment (hash_entries (root_payments payments))
                                (set_inflight db ∅)
           | None => Ok (set_inflight db ∅)
           end) = Ok tx) as ->.
  { rewrite <- Hf. unfold all_buckets. by destruct (payments_root db). }
  intros [= <- <-]. simpl in Er, Ei.
  assert (forall h, bucket_at tx h = bucket_at db h) as Hat by (intros h; unfold bucket_at; by rewrite Er).
  split_and!; [done| |by eexists|done|unfold root_seq; by rewrite Er].
  destruct Hi as [(idx & Eidx & Hidx & Hr) Hb _]. constructor.
  - exists idx. rewrite Ei. split; [done|]. split; [|done]. intros s v. rewrite Hidx.
    unfold indexed_by. by setoid_rewrite Hat.
  - intros h b. rewrite Hat. apply Hb.
  - intros mm s Emm. rewrite Em' in Emm. injection Emm as <-. rewrite Hm', numbered_flying.
    assert (flying tx s <-> flying db s) as -> by (unfold flying; by setoid_rewrite Hat).
    rewrite lookup_empty. split; [intros [|[[? ?] _]]; done|by left].
Qed.
End Histories.

(** ** The life of a payment *)

(** The outcome of an attempt; a settled one carries the preimage. *)
Inductive aoutcome := OPending | OSettled (preimage : list byte) | OFailed.

#[export] Instance aoutcome_eq_dec : EqDecision aoutcome.
Proof. solve_decision. Defined.

Record apayment := {
  ap_value : Z;
  ap_attempts : gmap Z (Z * aoutcome);
  ap_reason : option Z;
}.

Definition set_attempt (ap : apayment) (aid : Z) (x : Z * aoutcome) : apayment :=
  {| ap_value := ap_value ap; ap_attempts := <[aid := x]> (ap_attempts ap);
     ap_reason := ap_reason ap |}.

Definition pending (ap : apayment) : Prop :=
  exists aid amt, ap_attempts ap !! aid = Some (amt, OPending).

Definition paid (ap : apayment) : Prop :=
  exists aid amt pre, ap_attempts ap !! aid = Some (amt, OSettled pre).

(** A payment is in progress while an attempt is pending, and until it is paid or
    given up. *)
Definition in_progress (ap : apayment) : Prop :=
  pending ap \/ (~ paid ap /\ ap_reason ap = None).

(** What may still reach the receiver, or has. *)
Definition stake (x : Z * aoutcome) : Z := match x.2 with OFailed => 0 | _ => x.1 end.

Definition staked (at_ : gmap Z (Z * aoutcome)) : Z :=
  map_fold (fun _ x acc => stake x + acc) 0 at_.

(** The outcome a registration leaves: a failed attempt stays failed. *)
Definition kept_outcome (o : option (Z * aoutcome)) : aoutcome :=
  match o with Some (_, OFailed) => OFailed | _ => OPending end.

Inductive pay_rule : option apayment -> option apayment -> Prop :=
| rule_init o v :
    (forall ap, o = Some ap -> ~ in_progress ap /\ ~ paid ap) ->
    pay_rule o (Some {| ap_value := v; ap_attempts := ∅; ap_reason := None |})
| rule_register ap aid amt :
    ~ paid ap -> ap_reason ap = None -> 0 <= amt ->
    staked (ap_attempts ap) + amt <= ap_value ap ->
    pay_rule (Some ap) (Some (set_attempt ap aid (amt, kept_outcome (ap_attempts ap !! aid))))
| rule_settle ap aid amt pre :
    ap_attempts ap !! aid = Some (amt, OPending) ->
    pay_rule (Some ap) (Some (set_attempt ap aid (amt, OSettled pre)))
| rule_fail_attempt ap aid amt :
    ap_attempts ap !! aid = Some (amt, OPending) ->
    pay_rule (Some ap) (Some (set_attempt ap aid (amt, OFailed)))
| rule_give_up ap r :
    pay_rule (Some ap) (Some {| ap_value := ap_value ap; ap_attempts := ap_attempts ap;
                                ap_reason := Some r |})
| rule_trim ap :
    ~ in_progress ap ->
    pay_rule (Some ap)
      (Some {| ap_value := ap_value ap;
               ap_attempts := filter (fun kv => kv.2.2 <> OFailed) (ap_attempts ap);
               ap_reason := ap_reason ap |})
| rule_delete ap :
    ~ in_progress ap -> pay_rule (Some ap) None.

(** ** The payments of the database, abstractly *)

Section Abstraction.
Context `{Secp256k1, VarBytes, MapRange, FailureCodec}.

Definition abs_outcome (a : HTLCAttempt) : aoutcome :=
  match Failure a, Settle a with
  | Some _, _ => OFailed
  | None, Some s => OSettled (Preimage s)
  | None, None => OPending
  end.

Definition abs_attempt (a : HTLCAttempt) : Z * aoutcome :=
  (ReceiverAmt (attempt_Route (attempt_info a)), abs_outcome a).

(** A payment as read: its attempts are numbered by their ids. *)
Definition abs_payment (p : MPPayment) : apayment :=
  {| ap_value := Value (Info p);
     ap_attempts := list_to_map ((fun a => (AttemptID (attempt_info a), abs_attempt a)) <$> HTLCs p);
     ap_reason := FailureReason p |}.

Definition aview (db : payments_db) (h : list byte) : option apayment :=
  match FetchPayment db h with Ok p => Some (abs_payment p) | _ => None end.

Lemma view_attempt_id b m k a :
  attempts_view b m -> m !! k = Some a -> AttemptID (attempt_info a) = k.
Proof.
  intros Hv Hk. specialize (Hv k). rewrite Hk in Hv. unfold reads_attempt in Hv.
  destruct (ai b !! k); [|naive_solver]. by destruct Hv as (? & ? & ? & _ & _ & _ & [= ->]).
Qed.

Lemma abs_attempts b m p :
  payment_view b m p -> ap_attempts (abs_payment p) = abs_attempt <$> m.
Proof.
  intros Hv. simpl. rewrite (pv_htlcs _ _ _ Hv).
  assert ((fun a => (AttemptID (attempt_info a), abs_attempt a)) <$> (bucket_entries m).*2 =
    prod_map id abs_attempt <$> bucket_entries m) as ->.
  { rewrite <- list_fmap_compose. apply list_fmap_ext. intros i [k a] Hin%list_elem_of_lookup_2. simpl.
    unfold prod_map. simpl. f_equal. eapply view_attempt_id; [apply Hv|].
    by apply elem_of_bucket_entries. }
  rewrite list_to_map_fmap, bucket_entries_map. done.
Qed.

Lemma staked_total m : staked (abs_attempt <$> m) = total_map m.
Proof.
  unfold staked. induction m as [|k a m Hk IH] using map_ind; [done|].
  rewrite fmap_insert, map_fold_insert_L; [|intros; lia|by rewrite lookup_fmap, Hk].
  rewrite IH, total_map_insert by done. f_equal. unfold stake, abs_attempt, abs_outcome, live_amt.
  simpl. by destruct (Failure a), (Settle a).
Qed.

Lemma aview_holds db h m p :
  holds db h m p -> aview db h = Some (abs_payment p).
Proof. intros [E _]%holds_reads. unfold aview. by rewrite E. Qed.

Lemma aview_None db h : bucket_at db h = None -> aview db h = None.
Proof.
  intros E. unfold aview, FetchPayment. destruct (fetchPaymentBucket db h) as [b|e|] eqn:Eb; [|done..].
  apply fetchPaymentBucket_ok in Eb. congruence.
Qed.

Lemma aview_same db db' h : bucket_at db' h = bucket_at db h -> aview db' h = aview db h.
Proof.
  unfold aview, FetchPayment, fetchPaymentBucket, bucket_at.
  destruct (payments_root db), (payments_root db'); simpl; intros E; rewrite ?E; try done; by rewrite <- E.
Qed.

(** The status of a payment is the abstract one. *)
Lemma status_pending b m p :
  payment_view b m p ->
  (existsb in_flight (HTLCs p) = true <-> pending (abs_payment p)) /\
  (existsb settled (HTLCs p) = true <-> paid (abs_payment p)).
Proof.
  intros Hv. unfold pending, paid. rewrite (abs_attempts b m p Hv), (pv_htlcs _ _ _ Hv).
  rewrite !existsb_exists. split; split.
  - intros (a & Ha%list_elem_of_In & Hf). apply elem_of_bucket_values in Ha as (k & Hk).
    exists k, (abs_attempt a).1. rewrite lookup_fmap, Hk. simpl. unfold abs_attempt, abs_outcome, in_flight in *.
    by destruct (Settle a), (Failure a).
  - intros (k & amt & Hk). rewrite lookup_fmap in Hk. destruct (m !! k) as [a|] eqn:E; [|done].
    injection Hk as _ Ho. exists a. split; [apply list_elem_of_In, elem_of_bucket_values; eauto|].
    unfold abs_outcome, in_flight in *. by destruct (Settle a), (Failure a).
  - intros (a & Ha%list_elem_of_In & Hf). apply elem_of_bucket_values in Ha as (k & Hk).
    unfold settled in Hf. destruct (Settle a) as [s|] eqn:Es; [|done]. destruct (Failure a) eqn:Ef; [done|].
    exists k, (abs_attempt a).1, (Preimage s). rewrite lookup_fmap, Hk. simpl. unfold abs_attempt, abs_outcome.
    by rewrite Es, Ef.
  - intros (k & amt & pre & Hk). rewrite lookup_fmap in Hk. destruct (m !! k) as [a|] eqn:E; [|done].
    injection Hk as _ Ho. exists a. split; [apply list_elem_of_In, elem_of_bucket_values; eauto|].
    unfold abs_outcome, settled in *. by destruct (Settle a), (Failure a).
Qed.

Lemma status_abs b m p :
  payment_view b m p ->
  (Status p = StatusInFlight <-> in_progress (abs_payment p)) /\
  (Status p = StatusFailed -> ~ in_progress (abs_payment p) /\ ~ paid (abs_payment p)).
Proof.
  intros Hv. destruct (status_pending b m p Hv) as [Hp Hs]. unfold in_progress.
  rewrite (pv_status _ _ _ Hv), payment_status_eq, <- Hp, <- Hs. simpl.
  destruct (FailureReason p) as [r|]; [rewrite bool_decide_true by eauto|
    rewrite bool_decide_false by (by intros [? ?])];
    destruct (existsb in_flight (HTLCs p)), (existsb settled (HTLCs p)); simpl; intuition congruence.
Qed.
End Abstraction.

(** ** Histories *)

Section Steps.
Context `{Secp256k1, VarBytes, MapRange, FailureCodec}.

Inductive pay_op :=
| OpInit (h : list byte) (info : PaymentCreationInfo)
| OpRegister (h : list byte) (a : HTLCAttemptInfo)
| OpSettle (h : list byte) (aid : Z) (s : HTLCSettleInfo)
| OpFailAttempt (h : list byte) (aid : Z) (f : HTLCFailInfo)
| OpFail (h : list byte) (reason : Z)
| OpDelete (h : list byte) (failedHtlcsOnly : bool)
| OpDeleteAll (failedOnly failedHtlcsOnly : bool)
| OpRestart.

Definition pay_state : Type := PaymentControl * payments_db.

(** One operation, and whether it reported success. *)
Definition pay_step (op : pay_op) (st : pay_state) : pay_state * bool :=
  let '(pc, db) := st in
  match op with
  | OpInit h info => let '(pc, db, r) := InitPayment pc db h info in ((pc, db), is_ok r)
  | OpRegister h a => let '(db, r) := RegisterAttempt db h a in ((pc, db), is_ok r)
  | OpSettle h aid s => let '(db, r) := SettleAttempt db h aid s in ((pc, db), is_ok r)
  | OpFailAttempt h aid f => let '(db, r) := FailAttempt db h aid f in ((pc, db), is_ok r)
  | OpFail h reason => let '(db, r) := Fail_ db h reason in ((pc, db), is_ok r)
  | OpDelete h b => let '(db, r) := DeletePayment db h b in ((pc, db), is_ok r)
  | OpDeleteAll b1 b2 => let '(db, r) := DeletePayments db b1 b2 in ((pc, db), is_ok r)
  | OpRestart => let '(db, r) := initDcrlndFeatures db in ((NewPaymentControl, db), is_ok r)
  end.

Definition pay_run (ops : list pay_op) (st : pay_state) : pay_state :=
  fold_left (fun st op => (pay_step op st).1) ops st.

(** A database in which the top-level buckets were just created, by this version or by
    one that did not know the index of payments in flight. *)
Definition new_state (indexed : bool) : pay_state :=
  (NewPaymentControl, {| payments_root := None; payments_index := Some ∅;
                         inflight_index := if indexed then Some ∅ else None |}).

(** The callers' side: Go values, amounts below 2^63, and a payment stored under its
    own identifier. *)
Definition op_ok (op : pay_op) : Prop :=
  match op with
  | OpInit h info => wf_creation info /\ amount_ok (Value info) /\ PaymentIdentifier info = h
  | OpRegister h a => wf_attempt a /\ amount_ok (ReceiverAmt (attempt_Route a))
  | _ => True
  end.

Definition state_inv (st : pay_state) : Prop := pay_inv st.1 st.2.

(** What an operation does to the payments, and to the numbers handed out. *)
Record pay_stepped (st st' : pay_state) : Prop := {
  ps_inv : state_inv st';
  ps_rule : forall h, aview st'.2 h = aview st.2 h \/ pay_rule (aview st.2 h) (aview st'.2 h);
  ps_issued : issued st.1 st.2 <= issued st'.1 st'.2;
  ps_room : root_seq st'.2 <= root_seq st.2 + paymentSeqBlockSize;
}.

Lemma control_ok_seq pc db db' :
  control_ok pc db -> root_seq db' = root_seq db -> control_ok pc db' /\ issued pc db' = issued pc db.
Proof. intros [Hs Hb] E. unfold issued. rewrite E. split; [constructor; by rewrite E|done]. Qed.

(** An operation that keeps the payment control. *)
Lemma stepped_db pc db db' :
  state_inv (pc, db) -> db_inv (issued pc db) db' -> root_seq db' = root_seq db ->
  (forall h, aview db' h = aview db h \/ pay_rule (aview db h) (aview db' h)) ->
  pay_stepped (pc, db) (pc, db').
Proof.
  intros [Hi Hc] Hi' Es Hr. destruct (control_ok_seq pc db db' Hc Es) as [Hc' Ei].
  constructor; simpl; [|done|lia|unfold paymentSeqBlockSize; lia].
  split; [|done]. simpl. by rewrite Ei.
Qed.

Lemma stepped_same st : state_inv st -> pay_stepped st st.
Proof. destruct st as [pc db]. intros Hi. apply stepped_db; [done|apply Hi|done|by left]. Qed.

(** An update of one payment is a step when the payment's view is. *)
Lemma updated_rule db h m p db' m' p' :
  pay_updated db h m p db' m' p' ->
  pay_rule (Some (abs_payment p)) (Some (abs_payment p')) ->
  forall k, aview db' k = aview db k \/ pay_rule (aview db k) (aview db' k).
Proof.
  intros [Hb Ha Ho _ _] Hr k. destruct (decide (k = h)) as [->|Hne].
  - right. by rewrite (aview_holds _ _ _ _ Hb), (aview_holds _ _ _ _ Ha).
  - left. by apply aview_same, Ho.
Qed.

Lemma abs_updated db h m p db' m' p' :
  pay_updated db h m p db' m' p' ->
  abs_payment p = {| ap_value := Value (Info p); ap_attempts := abs_attempt <$> m;
                     ap_reason := FailureReason p |} /\
  abs_payment p' = {| ap_value := Value (Info p); ap_attempts := abs_attempt <$> m';
                      ap_reason := FailureReason p' |}.
Proof.
  intros [(b & _ & Hv) (b' & _ & Hv') _ _ Ei].
  pose proof (abs_attempts _ _ _ Hv) as E. pose proof (abs_attempts _ _ _ Hv') as E'.
  unfold abs_payment in *. simpl in E, E'. by rewrite E, E', Ei.
Qed.

(** Outcomes and registrations leave the failure reason. *)
Lemma update_htlc_rule n db h aid key v db' p' :
  db_inv n db -> update_htlc_tx db h aid key v = Ok (db', p') ->
  db_inv n db' /\ root_seq db' = root_seq db /\
  forall k, aview db' k = aview db k \/ pay_rule (aview db k) (aview db' k).
Proof.
  intros Hi Hu.
  destruct (update_htlc_ok n db h aid key v db' p' Hi Hu)
    as (m & p & a & a' & Em & Es & Ef & Hst & Hout & Er & Hup & Hi').
  destruct (abs_updated _ _ _ _ _ _ _ Hup) as [Ea Ea'].
  split_and!; [done|apply (pu_seq _ _ _ _ _ _ _ Hup)|]. eapply updated_rule; [exact Hup|].
  assert ((abs_attempt <$> m) !! aid = Some (ReceiverAmt (attempt_Route (attempt_info a)), OPending)) as El.
  { rewrite lookup_fmap, Em. simpl. unfold abs_attempt, abs_outcome. by rewrite Ef, Es. }
  rewrite Ea, Ea', Er, fmap_insert. destruct key; destruct Hout as (x & _ & ->).
  - apply (rule_settle (Build_apayment _ (abs_attempt <$> m) _) aid _ (Preimage x) El).
  - apply (rule_fail_attempt (Build_apayment _ (abs_attempt <$> m) _) aid _ El).
Qed.
End Steps.

Section Rules.
Context `{Secp256k1, VarBytes, MapRange, FailureCodec}.

Lemma abs_new_attempt m a :
  (forall k x, m !! k = Some x -> Settle x = None) ->
  abs_attempt (new_attempt m a) =
  (ReceiverAmt (attempt_Route a), kept_outcome ((abs_attempt <$> m) !! AttemptID a)).
Proof.
  intros Hs. unfold abs_attempt, abs_outcome. simpl. rewrite ReceiverAmt_stored, lookup_fmap. f_equal.
  destruct (m !! AttemptID a) as [x|] eqn:E; simpl; [|done].
  rewrite (Hs _ _ E). by destruct (Failure x).
Qed.

Lemma register_rule n db h a bytes db' p' :
  db_inv n db -> wf_attempt a -> amount_ok (ReceiverAmt (attempt_Route a)) ->
  serializeHTLCAttemptInfo a = Ok bytes -> register_tx db h a bytes = Ok (db', p') ->
  db_inv n db' /\ root_seq db' = root_seq db /\
  forall k, aview db' k = aview db k \/ pay_rule (aview db k) (aview db' k).
Proof.
  intros Hi Hwf Hamt Es Hr.
  destruct (register_ok n db h a bytes db' p' Hi Hwf Hamt Es Hr)
    as (m & p & Hst & Hre & Hms & Hsum & Hre' & Hup & Hi').
  destruct (abs_updated _ _ _ _ _ _ _ Hup) as [Ea Ea'].
  split_and!; [done|apply (pu_seq _ _ _ _ _ _ _ Hup)|]. eapply updated_rule; [exact Hup|].
  rewrite Ea, Ea', Hre, Hre', fmap_insert, abs_new_attempt by done.
  pose proof (rule_register {| ap_value := Value (Info p); ap_attempts := abs_attempt <$> m;
    ap_reason := None |} (AttemptID a) (ReceiverAmt (attempt_Route a))) as R.
  unfold set_attempt in R. cbn [ap_value ap_attempts ap_reason] in R.
  apply R; [|done|apply Hamt|].
  - intros (k & amt & pre & Hk). simpl in Hk. rewrite lookup_fmap in Hk.
    destruct (m !! k) as [x|] eqn:E; [|done]. injection Hk as _ Ho. unfold abs_outcome in Ho.
    rewrite (Hms k x E) in Ho. by destruct (Failure x).
  - by rewrite staked_total.
Qed.

Lemma fail_rule n db h reason db' r :
  db_inv n db -> fail_tx db h reason = Ok (db', r) ->
  db_inv n db' /\ root_seq db' = root_seq db /\
  forall k, aview db' k = aview db k \/ pay_rule (aview db k) (aview db' k).
Proof.
  intros Hi Hf. destruct (fail_ok n db h reason db' r Hi Hf)
    as [[-> _]|(m & p & p' & _ & Er & Hup & Hi')]; [by split_and!; [..|left]|].
  destruct (abs_updated _ _ _ _ _ _ _ Hup) as [Ea Ea'].
  split_and!; [done|apply (pu_seq _ _ _ _ _ _ _ Hup)|]. eapply updated_rule; [exact Hup|].
  rewrite Ea, Ea', Er. apply (rule_give_up (Build_apayment _ _ _)).
Qed.

Lemma abs_drop_failed m :
  abs_attempt <$> drop_failed m = filter (fun kv => kv.2.2 <> OFailed) (abs_attempt <$> m).
Proof.
  apply map_eq. intros k. rewrite lookup_fmap, drop_failed_lookup.
  destruct (m !! k) as [a|] eqn:E; simpl.
  - destruct (Failure a) eqn:Ef; simpl; symmetry.
    + apply map_lookup_filter_None. right. intros x. rewrite lookup_fmap, E. intros [= <-]. simpl.
      unfold abs_outcome. rewrite Ef. by intros ?.
    + apply map_lookup_filter_Some. rewrite lookup_fmap, E. split; [done|]. simpl.
      unfold abs_outcome. rewrite Ef. by destruct (Settle a).
  - symmetry. apply map_lookup_filter_None. left. by rewrite lookup_fmap, E.
Qed.

(** Dropping failed attempts, seen from outside. *)
Lemma trim_rule db db' k m p :
  holds db k m p -> Status p <> StatusInFlight ->
  holds db' k (drop_failed m) (without_failed m p) -> pay_rule (aview db k) (aview db' k).
Proof.
  intros Hb Hst Ha. rewrite (aview_holds _ _ _ _ Hb), (aview_holds _ _ _ _ Ha).
  pose proof Hb as (b & _ & Hv). pose proof Ha as (b' & _ & Hv').
  pose proof (rule_trim (abs_payment p)) as Hr.
  rewrite (abs_attempts _ _ _ Hv), <- abs_drop_failed in Hr.
  assert (abs_payment (without_failed m p) = {| ap_value := ap_value (abs_payment p);
    ap_attempts := abs_attempt <$> drop_failed m; ap_reason := ap_reason (abs_payment p) |}) as ->.
  { pose proof (abs_attempts _ _ _ Hv') as E. unfold abs_payment in *. simpl in *. by rewrite E. }
  apply Hr. intros Hin. apply Hst. by apply (status_abs _ _ _ Hv).
Qed.

Lemma removed_rule n db sel db' :
  db_inv n db -> removed db sel db' ->
  (forall h b, (h, b) ∈ sel -> bucket_at db h = Some b /\ at_rest b) ->
  forall k, aview db' k = aview db k \/ pay_rule (aview db k) (aview db' k).
Proof.
  intros Hi [Hat _ _ _] Hsel k. specialize (Hat k). destruct (decide (k ∈ sel.*1)) as [Hin|Hin].
  - right. apply list_elem_of_fmap in Hin as ([h b] & -> & Hin). simpl in *.
    destruct (Hsel h b Hin) as (Hb & st & Hst & Hne).
    destruct (di_buckets n db Hi h b Hb) as (_ & _ & m & p & Hv & _).
    rewrite (aview_None _ _ Hat), (aview_holds db h m p) by (by exists b). apply rule_delete.
    rewrite (view_status _ _ _ Hv) in Hst. injection Hst as <-. intros Hp. apply Hne.
    by apply (status_abs _ _ _ Hv).
  - left. by apply aview_same.
Qed.

Lemma delete_rule n db h fh db' :
  db_inv n db -> delete_payment_tx db h fh = Ok (db', tt) ->
  forall k, aview db' k = aview db k \/ pay_rule (aview db k) (aview db' k).
Proof.
  intros Hi Hd k. destruct (delete_payment_ok n db h fh db' Hi Hd)
    as (_ & _ & [->|(b & m & p & Hb & Hv & Hst & Hcase)]); [by left|]. destruct fh.
  - destruct Hcase as [Hbef Haft Ho _ _]. destruct (decide (k = h)) as [->|]; [right|left].
    + by eapply trim_rule.
    + by apply aview_same, Ho.
  - eapply removed_rule; [done|exact Hcase|]. intros k' b' [= -> ->]%list_elem_of_singleton.
    split; [done|]. exists (Status p). split; [by eapply view_status|done].
Qed.

Lemma selected_at_rest fo db h b :
  (h, b) ∈ selected fo (all_buckets db) -> bucket_at db h = Some b /\ at_rest b.
Proof.
  intros [Hd Hin]%list_elem_of_filter. split; [by apply elem_of_all_buckets|].
  by eapply deletable_at_rest.
Qed.

Lemma delete_all_rule n db fo fh db' :
  db_inv n db -> delete_payments_tx db fo fh = Ok (db', tt) ->
  root_seq db' = root_seq db /\
  forall k, aview db' k = aview db k \/ pay_rule (aview db k) (aview db' k).
Proof.
  intros Hi Hd. destruct (delete_payments_ok n db fo fh db' Hi Hd) as [_ Hcase]. destruct fh.
  - destruct Hcase as [Es Hk]. split; [done|]. intros k. specialize (Hk k).
    destruct (decide (k ∈ (selected fo (all_buckets db)).*1)) as [Hin|Hin]; [right|left; by apply aview_same].
    destruct Hk as (m & p & Hb & Ha). eapply trim_rule; [exact Hb| |exact Ha].
    apply list_elem_of_fmap in Hin as ([h b] & -> & Hin). simpl in *.
    destruct (selected_at_rest fo db h b Hin) as (Eb & st & Hst & Hne).
    destruct Hb as (b' & Eb' & Hv). rewrite Eb in Eb'. injection Eb' as <-.
    rewrite (view_status _ _ _ Hv) in Hst. by injection Hst as <-.
  - split; [apply Hcase|]. eapply removed_rule; [done|exact Hcase|].
    intros h b. apply selected_at_rest.
Qed.
End Rules.

Section Running.
Context `{Secp256k1, VarBytes, MapRange, FailureCodec}.

Lemma batch_cases {A} (db : payments_db) (r : res (payments_db * A)) db' x :
  batch db r = (db', x) ->
  (exists a, r = Ok (db', a) /\ x = Ok a) \/ (db' = db /\ is_ok x = false).
Proof. destruct r as [[db1 a]|e|]; intros [= <- <-]; eauto. Qed.

(** A transaction on the buckets is a step. *)
Lemma batch_stepped {A} pc db (r : res (payments_db * A)) db' x :
  state_inv (pc, db) ->
  (forall db1 a, r = Ok (db1, a) -> db_inv (issued pc db) db1 /\ root_seq db1 = root_seq db /\
    forall k, aview db1 k = aview db k \/ pay_rule (aview db k) (aview db1 k)) ->
  batch db r = (db', x) -> pay_stepped (pc, db) (pc, db').
Proof.
  intros Hi Hr [(a & E & _)|[-> _]]%batch_cases; [|by apply stepped_same].
  destruct (Hr db' a E) as (Hi' & Es & Hk). by apply stepped_db.
Qed.

Lemma next_sequence_step pc db :
  state_inv (pc, db) -> root_seq db + paymentSeqBlockSize < 2 ^ 64 ->
  let '(pc', db', s) := nextPaymentSequence pc db in
  db_inv (issued pc db) db' /\ issued pc db < s /\ 0 <= issued pc db /\ issued pc' db' = s /\
  control_ok pc' db' /\ (forall h, aview db' h = aview db h) /\
  (forall h, bucket_at db' h = bucket_at db h) /\
  root_seq db <= root_seq db' <= root_seq db + paymentSeqBlockSize.
Proof.
  intros Hi Hroom. pose proof (next_sequence_ok pc db Hi Hroom) as Hn.
  destruct (nextPaymentSequence pc db) as [[pc' db'] s].
  destruct Hn as (? & ? & ? & ? & ? & Hat & ? & ? & ?).
  split_and!; try done; try lia. intros h. by apply aview_same.
Qed.

Lemma init_rule db h s info db' :
  wf_creation info -> initiated db h s info db' -> holds db' h ∅ (fresh_payment s info) ->
  may_initiate db h ->
  forall k, aview db' k = aview db k \/ pay_rule (aview db k) (aview db' k).
Proof.
  intros Hwf [Hat _] Hh Hmay k. specialize (Hat k). destruct (decide (k = h)) as [->|].
  - right. rewrite (aview_holds _ _ _ _ Hh). apply rule_init. intros ap Eap.
    destruct Hmay as [En|(m & p & Hb & Hst)].
    + by rewrite (aview_None _ _ En) in Eap.
    + rewrite (aview_holds _ _ _ _ Hb) in Eap. injection Eap as <-.
      destruct Hb as (b & _ & Hv). by apply (status_abs _ _ _ Hv).
  - left. by apply aview_same.
Qed.

Lemma init_stepped pc db h info :
  op_ok (OpInit h info) -> state_inv (pc, db) -> root_seq db + paymentSeqBlockSize < 2 ^ 64 ->
  pay_stepped (pc, db) (pay_step (OpInit h info) (pc, db)).1.
Proof.
  intros (Hwf & Hval & Hid) Hi Hroom. pose proof (next_sequence_step pc db Hi Hroom) as Hn.
  cbn [pay_step]. unfold InitPayment. destruct (nextPaymentSequence pc db) as [[pc1 db1] s].
  destruct Hn as (Hi1 & Hs & H0' & Eis & Hc & Hav & _ & Hrs).
  destruct (batch db1 (init_tx db1 h info s)) as [db2 r] eqn:Eb. cbn [fst].
  assert (db_inv s db1) as His.
  { destruct Hi1 as [(idx & Ei & Hx & Hr) Hb Hf]. constructor; [|done..]. exists idx.
    split_and!; [done..|]. intros t Ht. specialize (Hr t Ht). lia. }
  assert (pay_stepped (pc, db) (pc1, db1)) as Hst1.
  { constructor; simpl; [|intros k; left; apply Hav|lia|lia]. split; simpl; [by rewrite Eis|done]. }
  apply batch_cases in Eb as [([e|] & E & _)|[-> _]]; [| |exact Hst1].
  - apply (init_refused s) in E as [-> _]; [|done]. exact Hst1.
  - destruct (init_ok (issued pc db) db1 h info s db2) as (Hi2 & Hin & Hh & Hmay); try done.
    pose proof (rp_seq _ _ _ _ Hin) as Es. destruct (control_ok_seq pc1 db1 db2 Hc Es) as [Hc2 Ei2].
    constructor; simpl.
    + split; simpl; [by rewrite Ei2, Eis|done].
    + intros k. rewrite <- Hav. by eapply init_rule.
    + lia.
    + lia.
Qed.

Lemma step_ok op st :
  op_ok op -> state_inv st -> root_seq st.2 + paymentSeqBlockSize < 2 ^ 64 ->
  pay_stepped st (pay_step op st).1.
Proof.
  destruct st as [pc db]. intros Hop Hi Hroom. simpl in Hroom. pose proof Hi as [Hdb Hc]. simpl in Hdb.
  destruct op as [h info|h a|h aid s|h aid f|h reason|h b|b1 b2|]; [by apply init_stepped|..]; cbn [pay_step].
  - destruct Hop as [Hwf Hamt]. unfold RegisterAttempt.
    destruct (serializeHTLCAttemptInfo a) as [bytes|e|] eqn:Es; [|by apply stepped_same..].
    destruct (batch _ _) as [db' r] eqn:Eb. cbn [fst]. eapply batch_stepped; [done| |exact Eb].
    intros db1 p1 Ht. by eapply register_rule.
  - unfold SettleAttempt, updateHtlcKey. destruct (batch _ _) as [db' r] eqn:Eb. cbn [fst].
    eapply batch_stepped; [done| |exact Eb]. intros db1 p1 Ht. by eapply update_htlc_rule.
  - unfold FailAttempt, updateHtlcKey.
    destruct (serializeHTLCFailInfo f) as [bytes|e|] eqn:Es; [|by apply stepped_same..].
    destruct (batch _ _) as [db' r] eqn:Eb. cbn [fst].
    eapply batch_stepped; [done| |exact Eb]. intros db1 p1 Ht. by eapply update_htlc_rule.
  - unfold Fail_. destruct (batch _ _) as [db' r] eqn:Eb. cbn [fst].
    eapply batch_stepped; [done| |exact Eb]. intros db1 p1 Ht. by eapply fail_rule.
  - unfold DeletePayment. destruct (batch _ _) as [db' r] eqn:Eb. cbn [fst].
    eapply batch_stepped; [done| |exact Eb]. intros db1 [] Ht.
    destruct (delete_payment_ok _ db h b db1 Hdb Ht) as (Hi' & Es & _).
    split_and!; [done..|]. by eapply delete_rule.
  - unfold DeletePayments. destruct (batch _ _) as [db' r] eqn:Eb. cbn [fst].
    eapply batch_stepped; [done| |exact Eb]. intros db1 [] Ht.
    destruct (delete_payments_ok _ db b1 b2 db1 Hdb Ht) as (Hi' & _).
    destruct (delete_all_rule _ db b1 b2 db1 Hdb Ht) as (Es & Hr). done.
  - destruct (initDcrlndFeatures db) as [db' r] eqn:Ed. cbn [fst].
    destruct (init_features_ok _ db db' r Hdb Ed) as (_ & Hi' & _ & Hat & Es).
    pose proof Hc as [Hs Hb].
    assert (issued pc db <= root_seq db) as Hle.
    { unfold issued. destruct (Z.eqb_spec (currPaymentSeq pc) 0); [lia|]. destruct Hb; simpl in *; lia. }
    constructor; simpl.
    + split; simpl.
      * destruct Hi' as [(idx & Ei & Hx & Hr) Hbk Hf]. constructor; [|done..]. exists idx.
        split_and!; [done..|]. intros t Ht. specialize (Hr t Ht). unfold issued at 1. simpl. rewrite Es. lia.
      * constructor; [simpl in *; lia|by left].
    + intros k. left. by apply aview_same.
    + unfold issued at 2. simpl. lia.
    + unfold paymentSeqBlockSize. lia.
Qed.

(** A history, with room for its sequence numbers. *)
Definition history_ok (ops : list pay_op) (st : pay_state) : Prop :=
  Forall op_ok ops /\ root_seq st.2 + paymentSeqBlockSize * Z.of_nat (length ops) < 2 ^ 64.

Lemma history_cons op ops st :
  history_ok (op :: ops) st -> state_inv st ->
  op_ok op /\ pay_stepped st (pay_step op st).1 /\ history_ok ops (pay_step op st).1.
Proof.
  intros [[Ho Hf]%Forall_cons Hr] Hi. cbn [length] in Hr.
  assert (paymentSeqBlockSize = 1000) as Ek by done.
  pose proof (step_ok op st Ho Hi ltac:(lia)) as Hs. split_and!; [done..|].
  split; [done|]. pose proof (ps_room _ _ Hs). lia.
Qed.

(** Induction over a history, on a relation its steps respect. *)
Lemma run_ind (R : pay_state -> pay_state -> Prop) :
  (forall st, R st st) -> (forall s1 s2 s3, R s1 s2 -> R s2 s3 -> R s1 s3) ->
  (forall st op, op_ok op -> state_inv st -> pay_stepped st (pay_step op st).1 ->
    R st (pay_step op st).1) ->
  forall ops st, state_inv st -> history_ok ops st ->
  R st (pay_run ops st) /\ state_inv (pay_run ops st).
Proof.
  intros Hrefl Htrans Hstep. induction ops as [|op ops IH]; intros st Hi Hok; [by split|].
  destruct (history_cons op ops st Hok Hi) as (Ho & Hs & Hok').
  destruct (IH _ (ps_inv _ _ Hs) Hok') as [HR Hi']. split; [|done].
  eapply Htrans; [by apply Hstep|exact HR].
Qed.

Lemma new_state_inv indexed : state_inv (new_state indexed).
Proof.
  split.
  - constructor.
    + exists ∅. split_and!; [done| |by intros s [? ?]]. intros s v. split; [done|].
      by intros (h & b & [=] & _).
    + by intros h b [=].
    + destruct indexed; [|done]. intros m s [= <-]. split; [by intros [? ?]|]. by intros (h & b & p & [=] & _).
  - constructor; [done|by left].
Qed.

Lemma run_inv indexed ops :
  history_ok ops (new_state indexed) -> state_inv (pay_run ops (new_state indexed)).
Proof. intros Hok. by apply (run_ind (fun _ _ => True)); [..|apply new_state_inv|]. Qed.
End Running.

(** ** Pages *)

Section Pages.
Context {V A : Type}.

(** What a query should return: from the entries on the right side of the offset, in the
    direction of the query, the first that are kept. *)
Definition candidates (p : paginator) (l : list (Z * V)) : list (Z * V) :=
  if reversed p
  then reverse (filter (fun kv => indexOffset p = 0 \/ kv.1 < indexOffset p) l)
  else filter (fun kv => indexOffset p < kv.1) l.

Definition page (p : paginator) (keep : Z * V -> option A) (l : list (Z * V)) : list A :=
  take (Z.to_nat (totalItems p)) (omap keep (candidates p l)).

(** A callback that appends what it keeps. *)
Definition appends (keep : Z * V -> option A) (l : list (Z * V))
    (f : Z -> V -> list A -> res (list A * bool)) : Prop :=
  forall k v acc, (k, v) ∈ l ->
    f k v acc = Ok (match keep (k, v) with Some a => (acc ++ [a], true) | None => (acc, false) end).

Definition sorted_keys (l : list (Z * V)) : Prop := StronglySorted Z.lt l.*1.

Lemma sorted_keys_cons (x : Z * V) l :
  sorted_keys (x :: l) -> sorted_keys l /\ forall y, y ∈ l -> x.1 < y.1.
Proof.
  intros Hs. apply StronglySorted_inv in Hs as [Hs Hf]. split; [done|].
  intros y Hy. rewrite Forall_forall in Hf. apply Hf. by apply list_elem_of_fmap_2.
Qed.

(** [Seek] splits a sorted bucket. *)
Lemma Seek_split k (l : list (Z * V)) :
  sorted_keys l ->
  match Seek l k with
  | Some i => (i < length l)%nat /\ drop i l = filter (fun kv => k <= kv.1) l /\
      take i l = filter (fun kv => kv.1 < k) l
  | None => filter (fun kv => k <= kv.1) l = []
  end.
Proof.
  unfold Seek. induction l as [|x l IH]; intros Hs; [done|].
  apply sorted_keys_cons in Hs as [Hs Hx]. cbn [list_find]. destruct (decide (k <= x.1)) as [Hk|Hk].
  - simpl. split_and!; [lia| |].
    + rewrite filter_all; [done|]. intros y [->|Hy]%elem_of_cons; [done|]. specialize (Hx y Hy). lia.
    + rewrite filter_none; [done|]. intros y [->|Hy]%elem_of_cons; [lia|]. specialize (Hx y Hy). lia.
  - specialize (IH Hs). destruct (list_find (fun kv => k <= kv.1) l) as [[i y]|] eqn:E; simpl in *.
    + destruct IH as (Hi & Hd & Ht). rewrite filter_cons_False, filter_cons_True by lia.
      split_and!; [lia|done|by f_equal].
    + by rewrite filter_cons_False by lia.
Qed.

Lemma query_forward (p : paginator) keep f l :
  reversed p = false -> 0 <= totalItems p -> appends keep l f -> forall fuel i count acc,
  (length l - i < fuel)%nat -> 0 <= count ->
  query_loop l p f fuel (if (i <? length l)%nat then Some i else None) count acc =
  Ok (acc ++ take (Z.to_nat (totalItems p - count)) (omap keep (drop i l))).
Proof.
  intros Hr Ht Hf. induction fuel as [|fuel IH]; intros i count acc Hl Hc; [lia|].
  destruct (Nat.ltb_spec i (length l)) as [Hi|Hi].
  2:{ rewrite drop_ge by done. simpl. by rewrite take_nil, app_nil_r. }
  destruct (lookup_lt_is_Some_2 l i Hi) as [[k v] Hkv]. cbn [query_loop]. rewrite Hkv.
  rewrite (drop_S l (k, v) i Hkv). destruct (Z.leb_spec (totalItems p) count) as [Hm|Hm].
  { replace (Z.to_nat (totalItems p - count)) with 0%nat by lia. by rewrite take_0, app_nil_r. }
  rewrite Hf by (by eapply list_elem_of_lookup_2). rsimpl.
  unfold nextKey. rewrite Hr. unfold Next. destruct (keep (k, v)) as [a|] eqn:Ek.
  - rewrite IH by lia. rewrite <- app_assoc. do 2 f_equal.
    cbn [omap list_omap]. rewrite Ek.
    replace (Z.to_nat (totalItems p - count)) with (S (Z.to_nat (totalItems p - (count + 1)))) by lia.
    done.
  - rewrite IH by lia. cbn [omap list_omap]. by rewrite Ek.
Qed.

Lemma query_backward (p : paginator) keep f l :
  reversed p = true -> 0 <= totalItems p -> appends keep l f -> forall fuel i count acc,
  (i <= length l)%nat -> (i < fuel)%nat -> 0 <= count ->
  query_loop l p f fuel (match i with O => None | S j => Some j end) count acc =
  Ok (acc ++ take (Z.to_nat (totalItems p - count)) (omap keep (reverse (take i l)))).
Proof.
  intros Hr Ht Hf. induction fuel as [|fuel IH]; intros i count acc Hi Hl Hc; [lia|].
  destruct i as [|j]; [simpl; by rewrite take_nil, app_nil_r|].
  destruct (lookup_lt_is_Some_2 l j ltac:(lia)) as [[k v] Hkv]. cbn [query_loop]. rewrite Hkv.
  rewrite (take_S_r l j (k, v) Hkv), reverse_app. cbn [reverse rev_append app].
  destruct (Z.leb_spec (totalItems p) count) as [Hm|Hm].
  { replace (Z.to_nat (totalItems p - count)) with 0%nat by lia. by rewrite take_0, app_nil_r. }
  rewrite Hf by (by eapply list_elem_of_lookup_2). rsimpl.
  unfold nextKey. rewrite Hr. unfold Prev. destruct (keep (k, v)) as [a|] eqn:Ek.
  - rewrite IH by lia. rewrite <- app_assoc. do 2 f_equal.
    change (reverse [(k, v)] ++ reverse (take j l)) with ((k, v) :: reverse (take j l)).
    cbn [omap list_omap]. rewrite Ek.
    replace (Z.to_nat (totalItems p - count)) with (S (Z.to_nat (totalItems p - (count + 1)))) by lia.
    done.
  - rewrite IH by lia. change (reverse [(k, v)] ++ reverse (take j l)) with ((k, v) :: reverse (take j l)).
    cbn [omap list_omap]. by rewrite Ek.
Qed.

Lemma last_greatest (l : list (Z * V)) k v x :
  sorted_keys l -> last l = Some (k, v) -> x ∈ l -> x.1 <= k.
Proof.
  induction l as [|y l IH]; intros Hs El Hx; [done|].
  apply sorted_keys_cons in Hs as [Hs Hy]. destruct l as [|z l].
  - injection El as ->. by apply list_elem_of_singleton in Hx as ->.
  - rewrite last_cons_cons in El. apply elem_of_cons in Hx as [->|Hx]; [|by apply IH].
    apply last_Some_elem_of in El. specialize (Hy _ El). simpl in *. lia.
Qed.

Lemma query_page (p : paginator) keep f (l : list (Z * V)) :
  sorted_keys l -> (forall x, x ∈ l -> 0 < x.1) -> 0 <= indexOffset p -> indexOffset p + 1 < 2 ^ 64 ->
  0 <= totalItems p -> appends keep l f -> query l p f [] = Ok (page p keep l).
Proof.
  intros Hs Hpos Ho0 Ho1 Ht Hf. unfold query, page, candidates, cursorStart.
  replace (totalItems p) with (totalItems p - 0) by lia.
  destruct (reversed p) eqn:Er.
  - assert (forall i, (i <= length l)%nat ->
      take i l = filter (fun kv => indexOffset p = 0 \/ kv.1 < indexOffset p) l ->
      query_loop l p f (S (length l)) (match i with O => None | S j => Some j end) 0 [] =
      Ok (take (Z.to_nat (totalItems p - 0))
        (omap keep (reverse (filter (fun kv => indexOffset p = 0 \/ kv.1 < indexOffset p) l))))) as Hgo.
    { intros i Hi <-. rewrite (query_backward p keep f l Er Ht Hf) by lia. done. }
    assert (Last l = match length l with O => None | S j => Some j end) as El.
    { unfold Last. destruct l; [done|]. simpl. by rewrite Nat.sub_0_r. }
    destruct (Z.eqb_spec (indexOffset p) 0) as [E0|E0].
    { rewrite El. apply Hgo; [done|]. rewrite firstn_all. symmetry. apply filter_all. by left. }
    destruct (Z.eqb_spec (indexOffset p) 1) as [E1|E1].
    { apply (Hgo 0%nat); [lia|]. symmetry. apply filter_none. intros x Hx. specialize (Hpos x Hx). lia. }
    assert (filter (fun kv => indexOffset p = 0 \/ kv.1 < indexOffset p) l =
      filter (fun kv => kv.1 < indexOffset p) l) as Ef.
    { apply list_filter_iff. intros x. lia. }
    pose proof (Seek_split (indexOffset p) l Hs) as Hsk.
    destruct (Z.ltb_spec (lastIndex l) (indexOffset p)) as [Hl|Hl].
    + rewrite El. apply Hgo; [done|]. rewrite firstn_all, Ef. symmetry. apply filter_all.
      intros x Hx. unfold lastIndex in Hl. destruct (last l) as [[k v]|] eqn:E.
      * enough (x.1 <= k) by lia. by eapply (last_greatest l).
      * apply last_None in E as ->. by apply not_elem_of_nil in Hx.
    + destruct (Seek l (indexOffset p)) as [i|] eqn:E.
      * destruct Hsk as (Hi & _ & Htk). simpl. apply (Hgo i); [lia|]. by rewrite Ef.
      * simpl. exfalso. unfold lastIndex in Hl. destruct (last l) as [[k v]|] eqn:El'; [|lia].
        apply last_Some_elem_of in El'.
        assert ((k, v) ∈ filter (fun kv => indexOffset p <= kv.1) l) as Hx
          by (by apply list_elem_of_filter).
        rewrite Hsk in Hx. by apply not_elem_of_nil in Hx.
  - rewrite u64_small by (unfold is_u64; lia).
    pose proof (Seek_split (indexOffset p + 1) l Hs) as Hsk.
    assert (filter (fun kv => indexOffset p + 1 <= kv.1) l = filter (fun kv => indexOffset p < kv.1) l) as Ef.
    { apply list_filter_iff. intros x. lia. }
    destruct (Seek l (indexOffset p + 1)) as [i|].
    + destruct Hsk as (Hi & Hd & _). rewrite <- Ef, <- Hd.
      pose proof (query_forward p keep f l Er Ht Hf (S (length l)) i 0 [] ltac:(lia) ltac:(lia)) as Hq.
      by rewrite (proj2 (Nat.ltb_lt i (length l)) Hi) in Hq.
    + rewrite <- Ef, Hsk. simpl. by rewrite take_nil.
Qed.
End Pages.

(** ** Listing payments *)

Section Listing.
Context `{Secp256k1, VarBytes, MapRange, FailureCodec}.

Lemma bucket_entries_sorted {V} (m : gmap Z V) : StronglySorted Z.lt (bucket_entries m).*1.
Proof.
  assert (StronglySorted key_le (bucket_entries m)) as Hs
    by (apply StronglySorted_merge_sort; apply _).
  pose proof (bucket_entries_NoDup m) as Hn. induction Hs as [|x l Hs IH Hf]; [constructor|].
  rewrite fmap_cons in Hn |- *. apply NoDup_cons in Hn as [Hx Hn]. constructor; [by apply IH|].
  rewrite Forall_fmap. apply Forall_forall. intros y Hy. simpl. rewrite Forall_forall in Hf.
  specialize (Hf y Hy). unfold key_le in Hf. assert (x.1 <> y.1); [|lia].
  intros E. apply Hx. rewrite E. by apply list_elem_of_fmap_2.
Qed.

Lemma bucket_entries_fmap {V W} (f : V -> W) (m : gmap Z V) :
  bucket_entries (f <$> m) = prod_map id f <$> bucket_entries m.
Proof.
  apply bucket_entries_unique.
  - rewrite <- list_fmap_compose.
    replace (fst ∘ prod_map id f <$> bucket_entries m) with (bucket_entries m).*1
      by (apply list_fmap_ext; by intros ? [? ?] _).
    apply bucket_entries_sorted.
  - by rewrite list_to_map_fmap, bucket_entries_map.
Qed.

(** The payments of a list of buckets. *)
Definition payments_of (l : list (list byte * payment_bucket)) : list MPPayment :=
  omap (fun kv => match fetchPayment kv.2 with Ok p => Some p | _ => None end) l.

Lemma elem_of_payments_of l p :
  p ∈ payments_of l <-> exists h b, (h, b) ∈ l /\ fetchPayment b = Ok p.
Proof.
  unfold payments_of. rewrite list_elem_of_omap. split.
  - intros ([h b] & Hin & E). exists h, b. simpl in E. by destruct (fetchPayment b); [injection E as <-|..].
  - intros (h & b & Hin & E). exists (h, b). simpl. by rewrite E.
Qed.

Lemma FetchPayment_at db h p :
  FetchPayment db h = Ok p <-> exists b, bucket_at db h = Some b /\ fetchPayment b = Ok p.
Proof.
  unfold FetchPayment. rewrite bind_ok. by setoid_rewrite fetchPaymentBucket_ok.
Qed.

Lemma elem_of_db_payments db p :
  p ∈ payments_of (all_buckets db) <-> exists h, FetchPayment db h = Ok p.
Proof.
  rewrite elem_of_payments_of. setoid_rewrite elem_of_all_buckets. setoid_rewrite FetchPayment_at. done.
Qed.

Lemma payments_of_numbers l :
  NoDup l.*1 -> numbers_once l -> NoDup (SequenceNum <$> payments_of l).
Proof.
  induction l as [|[h b] l IH]; intros Hn Ho; [constructor|].
  apply NoDup_cons in Hn as [Hh Hn]. simpl in Hh. unfold payments_of. cbn [omap list_omap].
  fold (payments_of l).
  assert (numbers_once l) as Hl by (intros h1 b1 p1 h2 b2 p2 I1 I2; by apply Ho; right).
  cbn [snd]. destruct (fetchPayment b) as [p| |] eqn:Ep; [|by apply IH..].
  rewrite fmap_cons. apply NoDup_cons. split; [|by apply IH].
  intros (p' & E & (h' & b' & Hin & Hp')%elem_of_payments_of)%list_elem_of_fmap.
  destruct (Ho h b p h' b' p') as [-> ->]; [by left|by right|done..|].
  apply Hh. by apply (list_elem_of_fmap_2 fst l (h', b')).
Qed.

Definition no_duplicates (db : payments_db) : Prop :=
  forall h b, bucket_at db h = Some b -> duplicates b = None.

#[local] Instance seq_le_total : Total seq_le.
Proof. intros a b. unfold seq_le. lia. Qed.
#[local] Instance seq_le_trans : Transitive seq_le.
Proof. intros a b c. unfold seq_le. lia. Qed.

Lemma fetch_all_buckets n db :
  db_inv n db -> no_duplicates db ->
  FetchPayments db = Ok (merge_sort seq_le (payments_of (all_buckets db))).
Proof.
  intros Hi Hd. unfold FetchPayments, all_buckets. destruct (payments_root db) as [root|] eqn:Er; [|done].
  rewrite (for_each_collect _ (fun kv => option_list
    (match fetchPayment kv.2 with Ok p => Some p | _ => None end))).
  - rsimpl. do 2 f_equal. simpl. unfold payments_of.
    induction (hash_entries (root_payments root)) as [|kv l IH]; [done|]. cbn [omap list_omap fmap list_fmap concat].
    rewrite IH. by destruct (fetchPayment kv.2).
  - intros [h b] acc Hin. apply (elem_of_hash_entries db root h b Er) in Hin. unfold fetch_all. cbn [snd].
    destruct (bucket_ok_reads b) as (m & p & _ & _ & ->); [by apply (di_buckets n db Hi h)|]. rsimpl.
    unfold fetchDuplicatePayments. by rewrite (Hd h b Hin).
Qed.

Lemma numbers_sorted ps :
  NoDup (SequenceNum <$> ps) -> StronglySorted Z.lt (SequenceNum <$> merge_sort seq_le ps).
Proof.
  intros Hn. rewrite <- (merge_sort_Permutation seq_le) in Hn. revert Hn.
  assert (StronglySorted seq_le (merge_sort seq_le ps)) as Hs
    by (apply StronglySorted_merge_sort; apply _).
  induction Hs as [|x l Hs IH Hf]; intros Hn; [constructor|].
  rewrite fmap_cons in Hn |- *. apply NoDup_cons in Hn as [Hx Hn]. constructor; [by apply IH|].
  rewrite Forall_fmap. apply Forall_forall. intros y Hy. simpl.
  rewrite Forall_forall in Hf. specialize (Hf y Hy). unfold seq_le in Hf.
  assert (SequenceNum x <> SequenceNum y); [|lia].
  intros E. apply Hx. rewrite E. by apply list_elem_of_fmap_2.
Qed.

(** The payment an index entry leads to. *)
Definition entry_payment (db : payments_db) (v : list byte) : option MPPayment :=
  match deserializePaymentIndex v with
  | Ok h => match FetchPayment db h with Ok p => Some p | _ => None end
  | _ => None
  end.

Lemma index_resolves n db idx s v :
  db_inv n db -> no_duplicates db -> payments_index db = Some idx -> idx !! s = Some v ->
  exists h p, deserializePaymentIndex v = Ok h /\ FetchPayment db h = Ok p /\ SequenceNum p = s /\
    fetchPaymentWithSequenceNumber db h s = Ok p.
Proof.
  intros Hi Hd Ei Hs. pose proof (di_index n db Hi) as (idx' & Ei' & Hx & _).
  rewrite Ei in Ei'. injection Ei' as <-. apply Hx in Hs as (h & b & Hb & Hin & ->).
  destruct (di_buckets n db Hi h b Hb) as (Hl & _ & m & p & Hv & _).
  assert (SequenceNum p = s) as <-.
  { unfold seqs in Hin. rewrite (Hd h b Hb), (pv_seq _ _ _ Hv) in Hin. simpl in Hin.
    by apply list_elem_of_singleton in Hin. }
  assert (fetchPayment b = Ok p) as Hp by (apply fetchPayment_iff; eauto).
  exists h, p. split_and!; [by apply index_value_reads| |done|].
  - apply FetchPayment_at. eauto.
  - unfold fetchPaymentWithSequenceNumber.
    rewrite (proj2 (fetchPaymentBucket_ok db h b) Hb). rsimpl.
    by rewrite (pv_seq _ _ _ Hv), Z.eqb_refl.
Qed.

(** The sequence index lists the payments in the order of their numbers. *)
Lemma index_lists n db idx :
  db_inv n db -> no_duplicates db -> payments_index db = Some idx ->
  (fun p => (SequenceNum p, Some p)) <$> merge_sort seq_le (payments_of (all_buckets db)) =
  prod_map id (entry_payment db) <$> bucket_entries idx.
Proof.
  intros Hi Hd Ei. set (ps := payments_of (all_buckets db)).
  assert (NoDup (SequenceNum <$> ps)) as Hnd.
  { apply payments_of_numbers; [apply all_buckets_NoDup|by eapply numbers_once_inv]. }
  rewrite <- bucket_entries_fmap.
  symmetry. apply bucket_entries_unique.
  - rewrite <- list_fmap_compose. by apply numbers_sorted.
  - assert (NoDup ((fun p => (SequenceNum p, Some p)) <$> merge_sort seq_le ps).*1) as Hnd'.
    { rewrite <- list_fmap_compose. simpl. rewrite merge_sort_Permutation. exact Hnd. }
    apply map_eq. intros s. rewrite lookup_fmap. apply option_eq. intros o.
    rewrite <- (elem_of_list_to_map _ s o Hnd'), list_elem_of_fmap. split.
    + intros (p & [= -> ->] & Hp). rewrite merge_sort_Permutation in Hp.
      apply elem_of_db_payments in Hp as (h & Hp). pose proof Hp as (b & Hb & Hf)%FetchPayment_at.
      pose proof (di_index n db Hi) as (idx' & Ei' & Hx & _). rewrite Ei in Ei'. injection Ei' as <-.
      assert (idx !! SequenceNum p = Some (index_value h)) as ->.
      { apply Hx. exists h, b. split; [done|]. split; [by apply seq_listed|done]. }
      simpl. unfold entry_payment. rewrite index_value_reads by (by apply (di_buckets n db Hi h b)).
      by rewrite Hp.
    + destruct (idx !! s) as [v|] eqn:E; [|done]. simpl. intros [= <-].
      destruct (index_resolves n db idx s v Hi Hd Ei E) as (h & p & Ed & Hp & <- & _).
      exists p. unfold entry_payment. rewrite Ed, Hp. split; [done|].
      rewrite merge_sort_Permutation. apply elem_of_db_payments. eauto.
Qed.

(** The payments a query selects, in the order it visits them. *)
Definition queried (q : PaymentsQuery) (ps : list MPPayment) : list MPPayment :=
  filter (fun p => Status p = StatusSucceeded \/ IncludeIncomplete q = true)
    (if Reversed q
     then reverse (filter (fun p => IndexOffset q = 0 \/ SequenceNum p < IndexOffset q) ps)
     else filter (fun p => IndexOffset q < SequenceNum p) ps).

Definition keep_payment (q : PaymentsQuery) (o : option MPPayment) : option MPPayment :=
  p ← o; if decide (Status p = StatusSucceeded \/ IncludeIncomplete q = true) then Some p else None.

Lemma accumulate_appends n db idx q :
  db_inv n db -> no_duplicates db -> payments_index db = Some idx ->
  appends (fun kv => keep_payment q (entry_payment db kv.2)) (bucket_entries idx)
    (accumulatePayments db (IncludeIncomplete q)).
Proof.
  intros Hi Hd Ei k v acc Hin%elem_of_bucket_entries.
  destruct (index_resolves n db idx k v Hi Hd Ei Hin) as (h & p & Ed & Hp & Es & Hf).
  unfold accumulatePayments, entry_payment, keep_payment. cbn [snd]. rewrite Ed. rsimpl.
  rewrite Hf, Hp. rsimpl. simpl.
  destruct (decide (Status p = StatusSucceeded \/ IncludeIncomplete q = true)) as [Hk|Hk].
  - destruct Hk as [Hk| ->]; [by rewrite bool_decide_true|]. by rewrite andb_false_r.
  - rewrite bool_decide_false by tauto. by destruct (IncludeIncomplete q); [tauto|].
Qed.

Lemma filter_map {A B} (f : A -> B) (P : B -> Prop) `{!forall x, Decision (P x)} (l : list A) :
  filter P (f <$> l) = f <$> filter (fun x => P (f x)) l.
Proof.
  induction l as [|x l IH]; [done|]. rewrite fmap_cons, !filter_cons, IH.
  by destruct (decide (P (f x))).
Qed.

Lemma omap_map {A B C} (f : A -> B) (g : B -> option C) (l : list A) :
  omap g (f <$> l) = omap (fun x => g (f x)) l.
Proof.
  induction l as [|x l IH]; [done|]. rewrite fmap_cons. cbn [omap list_omap]. by rewrite IH.
Qed.

Lemma omap_keep q (ps : list MPPayment) :
  omap (keep_payment q ∘ snd) ((fun p => (SequenceNum p, Some p)) <$> ps) =
  filter (fun p => Status p = StatusSucceeded \/ IncludeIncomplete q = true) ps.
Proof.
  induction ps as [|p ps IH]; [done|]. rewrite fmap_cons, filter_cons. cbn [omap list_omap].
  rewrite IH. unfold keep_payment. simpl. by destruct (decide _).
Qed.

Lemma page_payments n db idx q :
  db_inv n db -> no_duplicates db -> payments_index db = Some idx ->
  omap (fun kv => keep_payment q (entry_payment db kv.2))
    (candidates {| reversed := Reversed q; indexOffset := IndexOffset q;
                   totalItems := MaxPayments q |} (bucket_entries idx)) =
  queried q (merge_sort seq_le (payments_of (all_buckets db))).
Proof.
  intros Hi Hd Ei. pose proof (index_lists n db idx Hi Hd Ei) as El.
  set (ps := merge_sort seq_le _) in *. set (l := bucket_entries idx) in *.
  unfold candidates, queried. cbn [reversed indexOffset]. destruct (Reversed q).
  - transitivity (omap (keep_payment q ∘ snd) (reverse (filter
      (fun kv => IndexOffset q = 0 \/ kv.1 < IndexOffset q) (prod_map id (entry_payment db) <$> l)))).
    + by rewrite filter_map, <- fmap_reverse, omap_map.
    + rewrite <- El, filter_map, <- fmap_reverse. apply omap_keep.
  - transitivity (omap (keep_payment q ∘ snd) (filter (fun kv => IndexOffset q < kv.1)
      (prod_map id (entry_payment db) <$> l))).
    + by rewrite filter_map, omap_map.
    + rewrite <- El, filter_map. apply omap_keep.
Qed.

Lemma query_payments_page n db q :
  db_inv n db -> no_duplicates db -> 0 <= IndexOffset q -> IndexOffset q + 1 < 2 ^ 64 ->
  0 <= MaxPayments q ->
  exists ps, FetchPayments db = Ok ps /\
    let r := take (Z.to_nat (MaxPayments q)) (queried q ps) in
    QueryPayments db q = Ok (response (if Reversed q then reverse r else r)).
Proof.
  intros Hi Hd Ho0 Ho1 Hm. exists (merge_sort seq_le (payments_of (all_buckets db))).
  split; [by eapply fetch_all_buckets|]. intros r. unfold QueryPayments.
  pose proof (di_index n db Hi) as (idx & Ei & _ & Hr).
  destruct (payments_root db) as [root|] eqn:Er.
  - rewrite Ei, (query_page _ (fun kv => keep_payment q (entry_payment db kv.2))).
    + rsimpl. unfold page. rewrite (page_payments n db idx q Hi Hd Ei). done.
    + apply bucket_entries_sorted.
    + intros [k v] Hin%elem_of_bucket_entries. simpl. specialize (Hr k ltac:(eauto)). lia.
    + done.
    + done.
    + done.
    + by eapply accumulate_appends.
  - rsimpl. subst r. unfold all_buckets. rewrite Er.
    change (merge_sort seq_le (payments_of [])) with (@nil MPPayment).
    assert (queried q [] = []) as -> by (unfold queried; by destruct (Reversed q)).
    rewrite take_nil. by destruct (Reversed q).
Qed.
End Listing.

(** ** The payments in flight *)

Section InFlight.
Context `{Secp256k1, VarBytes, MapRange, FailureCodec}.

Lemma concat_option_list {A B} (f : A -> option B) (l : list A) :
  concat ((fun a => option_list (f a)) <$> l) = omap f l.
Proof.
  induction l as [|a l IH]; [done|]. rewrite fmap_cons. cbn [concat omap list_omap].
  rewrite IH. by destruct (f a).
Qed.

(** A list that is the payments in flight. *)
Definition in_flight_list (db : payments_db) (ps : list MPPayment) : Prop :=
  NoDup (SequenceNum <$> ps) /\
  forall p, p ∈ ps <-> exists h, FetchPayment db h = Ok p /\ Status p = StatusInFlight.

Lemma omap_numbers (f : Z -> option MPPayment) (l : list Z) :
  (forall k, k ∈ l -> exists p, f k = Some p /\ SequenceNum p = k) ->
  SequenceNum <$> omap f l = l.
Proof.
  induction l as [|k l IH]; intros Hf; [done|]. cbn [omap list_omap].
  destruct (Hf k) as (p & Ep & Es); [by left|]. rewrite Ep, fmap_cons, Es. f_equal.
  apply IH. intros k' Hk'. apply Hf. by right.
Qed.

Lemma flying_number n db idx s :
  db_inv n db -> payments_index db = Some idx -> flying db s ->
  exists h b p, bucket_at db h = Some b /\ fetchPayment b = Ok p /\ Status p = StatusInFlight /\
    SequenceNum p = s /\ idx !! s = Some (index_value h) /\ length h = 32%nat.
Proof.
  intros Hi Ei (h & b & p & Hb & Hp & Hst & Hs). exists h, b, p.
  pose proof (di_index n db Hi) as (idx' & Ei' & Hx & _). rewrite Ei in Ei'. injection Ei' as <-.
  split_and!; try done; [|by apply (di_buckets n db Hi h b Hb)].
  apply Hx. exists h, b. split; [done|]. split; [|done]. rewrite <- Hs. by apply seq_listed.
Qed.

Lemma fetch_by_index n db m :
  db_inv n db -> inflight_index db = Some m -> is_Some (payments_root db) ->
  exists ps, fetchInflightPaymentsByIndex db = Ok ps /\ in_flight_list db ps.
Proof.
  intros Hi Em [root Er]. pose proof (di_index n db Hi) as (idx & Ei & _ & _).
  unfold fetchInflightPaymentsByIndex. rewrite Em, Er, Ei.
  set (f := fun k => v ← idx !! k; entry_payment db v).
  assert (forall k, flying db k -> exists h b p, f k = Some p /\ SequenceNum p = k /\
    Status p = StatusInFlight /\ bucket_at db h = Some b /\ fetchPayment b = Ok p /\
    idx !! k = Some (index_value h) /\ length h = 32%nat) as Hf.
  { intros k Hk. destruct (flying_number n db idx k Hi Ei Hk) as (h & b & p & Hb & Hp & Hst & Hs & Hx & Hl).
    exists h, b, p. split_and!; try done. unfold f. rewrite Hx. simpl. unfold entry_payment.
    rewrite index_value_reads by done. by rewrite (proj2 (FetchPayment_at db h p)) by eauto. }
  assert (forall k, k ∈ (bucket_entries m).*1 <-> flying db k) as Hks.
  { intros k. rewrite <- (di_inflight n db Hi m k Em), list_elem_of_fmap. split.
    - intros ([k' v] & -> & Hin%elem_of_bucket_entries). eauto.
    - intros [v Hv]. exists (k, v). by rewrite elem_of_bucket_entries. }
  rewrite (for_each_collect _ (fun k => option_list (f k))).
  2:{ intros k acc Hk. destruct (Hf k) as (h & b & p & Hfk & _ & Hst & Hb & Hp & Hx & Hl); [by apply Hks|].
      unfold fetch_indexed. rewrite Hx, index_value_reads by done. rsimpl.
      unfold bucket_at in Hb. rewrite Er in Hb. simpl in Hb. rewrite Hb, Hp. rsimpl.
      by rewrite Hfk, bool_decide_true. }
  rewrite concat_option_list. eexists. split; [reflexivity|]. split.
  - simpl. rewrite omap_numbers; [apply bucket_entries_NoDup|]. intros k Hk.
    destruct (Hf k) as (h & b & p & Hfk & Hs & _); [by apply Hks|eauto].
  - intros p. simpl. rewrite list_elem_of_omap. split.
    + intros (k & Hk & Hfk). destruct (Hf k) as (h & b & p' & Hfk' & _ & Hst & Hb & Hp & _); [by apply Hks|].
      rewrite Hfk in Hfk'. injection Hfk' as <-. exists h. split; [apply FetchPayment_at; eauto|done].
    + intros (h & (b & Hb & Hp)%FetchPayment_at & Hst). exists (SequenceNum p).
      assert (flying db (SequenceNum p)) as Hfl by (by exists h, b, p). split; [by apply Hks|].
      destruct (Hf _ Hfl) as (h' & b' & p' & -> & Hs' & _ & Hb' & Hp' & _).
      destruct (seqs_disjoint n db h' b' h b (SequenceNum p) Hi Hb' Hb) as [-> ->];
        [rewrite <- Hs'; by apply seq_listed|by apply seq_listed|]. congruence.
Qed.

Lemma fetch_by_scan n db root :
  db_inv n db -> payments_root db = Some root ->
  exists ps, for_each scan_inflight (hash_entries (root_payments root)) [] = Ok ps /\
    in_flight_list db ps.
Proof.
  intros Hi Er. set (f := fun kv : list byte * payment_bucket =>
    match fetchPayment kv.2 with
    | Ok p => if decide (Status p = StatusInFlight) then Some p else None
    | _ => None
    end).
  rewrite (for_each_collect _ (fun kv => option_list (f kv))).
  2:{ intros [h b] acc Hin. apply (elem_of_hash_entries db root h b Er) in Hin.
      destruct (di_buckets n db Hi h b Hin) as (_ & _ & m & p & Hv & _).
      unfold scan_inflight, f. cbn [snd]. rewrite (view_status _ _ _ Hv). rsimpl.
      rewrite (proj2 (fetchPayment_iff b p)) by eauto. rsimpl.
      destruct (decide (Status p = StatusInFlight)).
      - by rewrite bool_decide_true.
      - rewrite bool_decide_false by done. simpl. by rewrite app_nil_r. }
  rewrite concat_option_list. eexists. split; [reflexivity|].
  assert (all_buckets db = hash_entries (root_payments root)) as El by (unfold all_buckets; by rewrite Er).
  assert (omap f (hash_entries (root_payments root)) =
    filter (fun p => Status p = StatusInFlight) (payments_of (all_buckets db))) as ->.
  { rewrite El. clear El. unfold payments_of. induction (hash_entries _) as [|kv l IH]; [done|].
    cbn [omap list_omap]. rewrite IH. unfold f. destruct (fetchPayment kv.2); [|done..].
    rewrite filter_cons. by destruct (decide _). }
  split.
  - eapply sublist_NoDup; [|apply fmap_sublist, sublist_filter].
    apply payments_of_numbers; [apply all_buckets_NoDup|by eapply numbers_once_inv].
  - intros p. cbn [app]. rewrite list_elem_of_filter, elem_of_db_payments. naive_solver.
Qed.

Lemma inflight_fetched n db :
  db_inv n db -> exists ps, FetchInFlightPayments db = Ok ps /\ in_flight_list db ps.
Proof.
  intros Hi. unfold FetchInFlightPayments. destruct (payments_root db) as [root|] eqn:Er.
  - destruct (inflight_index db) as [m|] eqn:Em.
    + destruct (fetch_by_index n db m Hi Em) as (ps & Hps & Hl); [by rewrite Er|].
      rewrite Hps. eauto.
    + unfold fetchInflightPaymentsByIndex. rewrite Em.
      destruct (fetch_by_scan n db root Hi Er) as (ps & Hps & Hl). rewrite bool_decide_true by done.
      eauto.
  - exists []. split; [done|]. split; [constructor|]. intros p. split; [by intros ?%not_elem_of_nil|].
    intros (h & (b & Hb & _)%FetchPayment_at & _). unfold bucket_at in Hb. by rewrite Er in Hb.
Qed.
End InFlight.

(** ** Paid payments *)

Section Paid.
Context `{Secp256k1, VarBytes, MapRange, FailureCodec}.

Lemma rule_keeps_paid ap ap' aid amt pre :
  pay_rule (Some ap) (Some ap') -> ap_attempts ap !! aid = Some (amt, OSettled pre) ->
  ap_attempts ap' !! aid = Some (amt, OSettled pre).
Proof.
  intros Hr Hs. assert (paid ap) as Hp by (by exists aid, amt, pre). inversion Hr; subst; simpl.
  - match goal with Hno : forall x, Some ap = Some x -> _ |- _ => by destruct (Hno ap eq_refl) end.
  - done.
  - rewrite lookup_insert_ne; [done|]. intros ->. congruence.
  - rewrite lookup_insert_ne; [done|]. intros ->. congruence.
  - done.
  - apply map_lookup_filter_Some. by split.
Qed.

(** Operations that do not delete the payment to [h]. *)
Definition spares (h : list byte) (op : pay_op) : Prop :=
  match op with
  | OpDelete h' false => h' <> h
  | OpDeleteAll false false => False
  | _ => True
  end.

Lemma updated_kept db h m p db' m' p' k :
  pay_updated db h m p db' m' p' -> is_Some (bucket_at db k) -> is_Some (bucket_at db' k).
Proof.
  intros [_ (b & Hb & _) Ho _ _] Hk. destruct (decide (k = h)) as [->|Hne]; [by eexists|].
  by rewrite (Ho k Hne).
Qed.

Lemma replaced_kept db h b' db' k :
  replaced db h b' db' -> is_Some (bucket_at db k) -> is_Some (bucket_at db' k).
Proof. intros [Hat _] Hk. rewrite Hat. destruct (decide (k = h)); [by eexists|done]. Qed.

Lemma next_sequence_buckets pc db h :
  bucket_at (nextPaymentSequence pc db).1.2 h = bucket_at db h.
Proof.
  unfold nextPaymentSequence. destruct (currPaymentSeq pc =? storedPaymentSeq pc); [|done].
  unfold bucket_at. simpl. by destruct (payments_root db).
Qed.

Lemma init_kept pc db h info k :
  is_Some (bucket_at db k) -> is_Some (bucket_at (pay_step (OpInit h info) (pc, db)).1.2 k).
Proof.
  intros Hk. cbn [pay_step]. unfold InitPayment. pose proof (next_sequence_buckets pc db) as Hat.
  destruct (nextPaymentSequence pc db) as [[pc1 db1] s]. simpl in Hat.
  destruct (batch db1 (init_tx db1 h info s)) as [db2 r] eqn:Eb. cbn [fst snd].
  assert (is_Some (bucket_at db1 k)) as Hk1 by (by rewrite Hat).
  apply batch_cases in Eb as [([e|] & E & _)|[-> _]]; [| |done].
  - unfold init_tx in E. destruct (createPaymentBucket db1 h) as [tx b] eqn:Ec. injection Ec as Etx Ebb.
    apply bind_ok in E as (st & _ & Hr).
    assert (db2 = tx) as ->.
    { destruct st; [|by injection Hr|by injection Hr|];
        apply bind_ok in Hr as (? & _ & Hr); apply bind_ok in Hr as (? & _ & [=]). }
    rewrite <- Etx. by eapply replaced_kept; [apply set_payment_replaced|].
  - apply init_tx_frame in E as (Hin & _). by eapply replaced_kept.
Qed.

Lemma paid_not_failed b m p aid amt pre :
  payment_view b m p -> ap_attempts (abs_payment p) !! aid = Some (amt, OSettled pre) ->
  Status p <> StatusFailed /\ Status p <> StatusUnknown.
Proof.
  intros Hv Hs. split; [|by eapply status_known]. intros Hst.
  destruct (status_abs b m p Hv) as [_ Hf]. destruct (Hf Hst) as [_ Hn]. apply Hn. by exists aid, amt, pre.
Qed.

Lemma delete_all_spares db b m p fo fh db' h aid amt pre n :
  db_inv n db -> bucket_at db h = Some b -> payment_view b m p ->
  ap_attempts (abs_payment p) !! aid = Some (amt, OSettled pre) ->
  spares h (OpDeleteAll fo fh) -> delete_payments_tx db fo fh = Ok (db', tt) ->
  is_Some (bucket_at db' h).
Proof.
  intros Hi Hb Hv Hs Hsp Hd. destruct (delete_payments_ok n db fo fh db' Hi Hd) as [_ Hcase]. destruct fh.
  - destruct Hcase as [_ Hk]. specialize (Hk h). destruct (decide _) as [Hin|Hin].
    + destruct Hk as (? & ? & _ & (b' & Hb' & _)). by eexists.
    + rewrite Hk. by eexists.
  - destruct fo; [|by destruct Hsp]. destruct Hcase as [Hat _ _ _]. rewrite Hat.
    rewrite decide_False; [by eexists|]. intros ([h' b'] & E & Hin)%list_elem_of_fmap. simpl in E. subst h'.
    apply list_elem_of_filter in Hin as [Hdel Hin]. apply elem_of_all_buckets in Hin.
    rewrite Hb in Hin. injection Hin as <-. simpl in Hdel. unfold deletable in Hdel.
    rewrite (view_status _ _ _ Hv) in Hdel. destruct (paid_not_failed _ _ _ _ _ _ Hv Hs) as [Hnf Hnu].
    by destruct (Status p).
Qed.

(** The payment to [h] survives an operation that spares it. *)
Lemma step_spares op st h b m p aid amt pre :
  op_ok op -> state_inv st -> spares h op -> bucket_at st.2 h = Some b -> payment_view b m p ->
  ap_attempts (abs_payment p) !! aid = Some (amt, OSettled pre) ->
  is_Some (bucket_at (pay_step op st).1.2 h).
Proof.
  destruct st as [pc db]. intros Hop [Hi _] Hsp Hb Hv Hs. simpl in Hi, Hb.
  assert (is_Some (bucket_at db h)) as Hk by (by eexists).
  destruct op as [h' info|h' a|h' aid' s|h' aid' f|h' reason|h' fh|fo fh|]; [by apply init_kept|..]; cbn [pay_step].
  - destruct Hop as [Hwf Hamt]. unfold RegisterAttempt.
    destruct (serializeHTLCAttemptInfo a) as [bytes|e|] eqn:Es; [|done..].
    destruct (batch _ _) as [db' r] eqn:Eb. apply batch_cases in Eb as [(x & E & _)|[-> _]]; [|done].
    destruct (register_ok _ db h' a bytes db' x Hi Hwf Hamt Es E) as (? & ? & _ & _ & _ & _ & _ & Hup & _).
    by eapply updated_kept.
  - unfold SettleAttempt, updateHtlcKey. destruct (batch _ _) as [db' r] eqn:Eb.
    apply batch_cases in Eb as [(x & E & _)|[-> _]]; [|done].
    apply (update_htlc_ok (issued pc db) db) in E as (? & ? & ? & ? & _ & _ & _ & _ & _ & _ & Hup & _); [|done].
    by eapply updated_kept.
  - unfold FailAttempt, updateHtlcKey.
    destruct (serializeHTLCFailInfo f) as [bytes|e|] eqn:Es; [|done..].
    destruct (batch _ _) as [db' r] eqn:Eb. apply batch_cases in Eb as [(x & E & _)|[-> _]]; [|done].
    apply (update_htlc_ok (issued pc db) db) in E as (? & ? & ? & ? & _ & _ & _ & _ & _ & _ & Hup & _); [|done].
    by eapply updated_kept.
  - unfold Fail_. destruct (batch _ _) as [db' r] eqn:Eb.
    apply batch_cases in Eb as [(x & E & _)|[-> _]]; [|done].
    apply (fail_ok (issued pc db) db) in E as [[-> _]|(? & ? & ? & _ & _ & Hup & _)]; [done| |done].
    by eapply updated_kept.
  - unfold DeletePayment. destruct (batch _ _) as [db' r] eqn:Eb.
    apply batch_cases in Eb as [([] & E & _)|[-> _]]; [|done].
    apply (delete_payment_ok (issued pc db) db) in E as (_ & _ & [->|(? & ? & ? & _ & _ & _ & Hcase)]); [done| |done].
    destruct fh; [by eapply updated_kept|]. destruct Hcase as [Hat _ _ _]. cbn [fst snd]. rewrite Hat.
    rewrite decide_False; [done|]. intros ->%list_elem_of_singleton. by apply Hsp.
  - unfold DeletePayments. destruct (batch _ _) as [db' r] eqn:Eb.
    apply batch_cases in Eb as [([] & E & _)|[-> _]]; [|done]. by eapply delete_all_spares.
  - destruct (initDcrlndFeatures db) as [db' r] eqn:Ed. cbn [fst snd].
    destruct (init_features_ok _ db db' r Hi Ed) as (_ & _ & _ & Hat & _). by rewrite Hat.
Qed.

(** A settled attempt in the view of the database. *)
Definition shows_settled (db : payments_db) (h : list byte) (aid amt : Z) (pre : list byte) : Prop :=
  exists b m p, bucket_at db h = Some b /\ payment_view b m p /\
    ap_attempts (abs_payment p) !! aid = Some (amt, OSettled pre).

Lemma settled_kept ops : forall st h aid amt pre,
  state_inv st -> history_ok ops st -> Forall (spares h) ops ->
  shows_settled st.2 h aid amt pre -> shows_settled (pay_run ops st).2 h aid amt pre.
Proof.
  induction ops as [|op ops IH]; intros st h aid amt pre Hi Hok Hsp Hs; [done|].
  destruct (history_cons op ops st Hok Hi) as (Ho & Hst & Hok').
  apply Forall_cons in Hsp as [Hsp1 Hsp]. apply (IH (pay_step op st).1); [apply Hst|done..|].
  destruct Hs as (b & m & p & Hb & Hv & Ha).
  destruct (step_spares op st h b m p aid amt pre Ho Hi Hsp1 Hb Hv Ha) as [b' Hb'].
  pose proof (ps_inv _ _ Hst) as [Hi' _].
  destruct (di_buckets _ _ Hi' h b' Hb') as (_ & _ & m' & p' & Hv' & _).
  exists b', m', p'. split_and!; [done..|].
  assert (aview st.2 h = Some (abs_payment p)) as Ev by (eapply aview_holds; by exists b).
  assert (aview (pay_step op st).1.2 h = Some (abs_payment p')) as Ev' by (eapply aview_holds; by exists b').
  destruct (ps_rule _ _ Hst h) as [E|E]; rewrite Ev, Ev' in E.
  - injection E as E. unfold abs_payment in Ha |- *. simpl in *. congruence.
  - by eapply rule_keeps_paid.
Qed.

(** A payment with a settled attempt can be neither initiated nor extended. *)
Lemma settled_refuses pc db h aid amt pre :
  shows_settled db h aid amt pre ->
  (forall info, is_ok (InitPayment pc db h info).2 = false) /\
  (forall a, is_ok (RegisterAttempt db h a).2 = false).
Proof.
  intros (b & m & p & Hb & Hv & Ha). split.
  - intros info. unfold InitPayment. pose proof (next_sequence_buckets pc db) as Hat.
    destruct (nextPaymentSequence pc db) as [[pc1 db1] s]. simpl in Hat.
    destruct (batch db1 (init_tx db1 h info s)) as [db2 r] eqn:Eb. cbn [snd].
    apply batch_cases in Eb as [([e|] & E & ->)|[-> Hr]]; [done| |by destruct r].
    apply init_tx_frame in E as (_ & _ & _ & Hst). unfold old_bucket in Hst.
    rewrite Hat, Hb in Hst. simpl in Hst. rewrite (view_status _ _ _ Hv) in Hst.
    destruct (paid_not_failed _ _ _ _ _ _ Hv Ha) as [? ?]. destruct Hst as [[=]|[=]]; done.
  - intros a. unfold RegisterAttempt. destruct (serializeHTLCAttemptInfo a) as [bytes|e|]; [|done..].
    unfold register_tx. rewrite (proj2 (fetchPaymentBucket_ok db h b) Hb). rsimpl.
    rewrite (proj2 (fetchPayment_iff b p)) by eauto. rsimpl.
    destruct (TerminalInfo p) as [[s|] [r|]] eqn:Et; [done..|]. apply TerminalInfo_none in Et as [_ Hn].
    rewrite (abs_attempts _ _ _ Hv), lookup_fmap in Ha. destruct (m !! aid) as [x|] eqn:Ex; [|done].
    assert (Settle x = None) as Es.
    { apply Hn. rewrite (pv_htlcs _ _ _ Hv). apply elem_of_bucket_values. eauto. }
    injection Ha as _ Ho. unfold abs_outcome in Ho. rewrite Es in Ho. by destruct (Failure x).
Qed.
End Paid.
