(* ===== verification/PaymentThms.v ===== *)
(** * Payments: theorems

    The properties of the payment database, over all histories of its operations. *)

From Stdlib Require Import Lia.
From S2P Require Import Prelude Ids Tlv PaymentCodec Payments PaymentInv PaymentRun.

Section Claims.
Context `{Secp256k1, VarBytes, MapRange, FailureCodec}.

Lemma run_app ops1 ops2 st : pay_run (ops1 ++ ops2) st = pay_run ops2 (pay_run ops1 st).
Proof. apply fold_left_app. Qed.

Lemma history_app ops1 ops2 st :
  state_inv st -> history_ok (ops1 ++ ops2) st ->
  history_ok ops1 st /\ history_ok ops2 (pay_run ops1 st).
Proof.
  revert st. induction ops1 as [|op ops1 IH]; intros st Hi Hok.
  - split; [|done]. destruct Hok as [_ Hr]. split; [constructor|].
    unfold paymentSeqBlockSize in *. simpl. lia.
  - simpl in Hok. destruct (history_cons op _ st Hok Hi) as (Ho & Hs & Hok').
    destruct (IH _ (ps_inv _ _ Hs) Hok') as [H1' H2']. split; [|done].
    destruct Hok as [Hf Hr]. split; [constructor; [done|apply H1']|].
    rewrite length_cons in *. rewrite length_app in Hr. unfold paymentSeqBlockSize in *. lia.
Qed.

(** The settled attempt of a payment as it is read. *)
Lemma settled_shows db n h p a s :
  db_inv n db -> FetchPayment db h = Ok p -> a ∈ HTLCs p -> Settle a = Some s -> Failure a = None ->
  shows_settled db h (AttemptID (attempt_info a)) (ReceiverAmt (attempt_Route (attempt_info a)))
    (Preimage s).
Proof.
  intros Hi (b & Hb & Hp)%FetchPayment_at Ha Es Ef. apply fetchPayment_iff in Hp as (m & Hv).
  exists b, m, p. split_and!; [done..|]. rewrite (abs_attempts _ _ _ Hv), lookup_fmap.
  rewrite (pv_htlcs _ _ _ Hv) in Ha. apply elem_of_bucket_values in Ha as (k & Hk).
  rewrite (view_attempt_id _ m k a (pv_attempts _ _ _ Hv) Hk), Hk. simpl.
  unfold abs_attempt, abs_outcome. by rewrite Ef, Es.
Qed.

Lemma shows_settled_read db h aid amt pre :
  shows_settled db h aid amt pre -> exists p a s, FetchPayment db h = Ok p /\ a ∈ HTLCs p /\
    AttemptID (attempt_info a) = aid /\ Settle a = Some s /\ Failure a = None /\ Preimage s = pre.
Proof.
  intros (b & m & p & Hb & Hv & Ha). rewrite (abs_attempts _ _ _ Hv), lookup_fmap in Ha.
  destruct (m !! aid) as [a|] eqn:E; [|done]. injection Ha as _ Ho. unfold abs_outcome in Ho.
  destruct (Failure a) eqn:Ef; [done|]. destruct (Settle a) as [s|] eqn:Es; [|done].
  injection Ho as <-. exists p, a, s. split_and!; try done.
  - apply FetchPayment_at. exists b. split; [done|]. apply fetchPayment_iff. eauto.
  - rewrite (pv_htlcs _ _ _ Hv). apply elem_of_bucket_values. eauto.
  - eapply view_attempt_id; [apply Hv|done].
Qed.

Lemma run_state indexed ops1 ops2 :
  history_ok (ops1 ++ ops2) (new_state indexed) ->
  state_inv (pay_run ops1 (new_state indexed)) /\
  history_ok ops2 (pay_run ops1 (new_state indexed)).
Proof.
  intros Hok. destruct (history_app ops1 ops2 _ (new_state_inv indexed) Hok) as [H1' H2'].
  split; [by apply run_inv|done].
Qed.

(** A successful initiation. *)
Lemma init_success pc db h info st' :
  op_ok (OpInit h info) -> state_inv (pc, db) -> root_seq db + paymentSeqBlockSize < 2 ^ 64 ->
  pay_step (OpInit h info) (pc, db) = (st', true) ->
  exists s, issued pc db < s /\ holds st'.2 h ∅ (fresh_payment s info).
Proof.
  intros (Hwf & Hval & Hid) Hi Hroom. pose proof (next_sequence_step pc db Hi Hroom) as Hn.
  cbn [pay_step]. unfold InitPayment. destruct (nextPaymentSequence pc db) as [[pc1 db1] s].
  destruct Hn as (Hi1 & Hs & H0' & _). destruct (batch db1 (init_tx db1 h info s)) as [db2 r] eqn:Eb.
  intros [= <- Hok]. exists s. split; [done|].
  apply batch_cases in Eb as [([e|] & E & ->)|[-> Hr]]; [done| |by destruct r].
  by destruct (init_ok (issued pc db) db1 h info s db2) as (_ & _ & Hh & _).
Qed.

Lemma issued_mono ops st :
  state_inv st -> history_ok ops st ->
  issued st.1 st.2 <= issued (pay_run ops st).1 (pay_run ops st).2.
Proof.
  intros Hi Hok. apply (run_ind (fun s1 s2 => issued s1.1 s1.2 <= issued s2.1 s2.2)); try done.
  - intros s1 s2 s3. lia.
  - intros s op _ _ Hs. apply Hs.
Qed.

Lemma number_issued n db h p :
  db_inv n db -> FetchPayment db h = Ok p ->
  SequenceNum p <= n /\ exists idx v, payments_index db = Some idx /\
    idx !! SequenceNum p = Some v /\ deserializePaymentIndex v = Ok h.
Proof.
  intros Hi (b & Hb & Hp)%FetchPayment_at. pose proof (di_index n db Hi) as (idx & Ei & Hx & Hr).
  assert (idx !! SequenceNum p = Some (index_value h)) as E.
  { apply Hx. exists h, b. split; [done|]. split; [by apply seq_listed|done]. }
  split; [apply (Hr (SequenceNum p)); eauto|]. exists idx, (index_value h). split_and!; [done..|].
  apply index_value_reads. by apply (di_buckets n db Hi h b).
Qed.
End Claims.

(** ** A small instance *)

Fixpoint toy_write (b : list byte) : list byte :=
  match b with [] => [x00] | c :: b' => x01 :: c :: toy_write b' end.

Fixpoint toy_read (r : list byte) : res (list byte * list byte) :=
  match r with
  | x00 :: r' => Ok ([], r')
  | x01 :: c :: r' => '(b, r'') ← toy_read r'; Ok (c :: b, r'')
  | _ => Err ErrUnexpectedEOF
  end.

Lemma toy_read_write b r : toy_read (toy_write b ++ r) = Ok (b, r).
Proof. induction b as [|c b IH]; [done|]. simpl. by rewrite IH. Qed.

#[refine] Instance toy_var_bytes : VarBytes := {
  WriteVarBytes b := toy_write b;
  ReadVarBytes max r :=
    '(b, r') ← toy_read r;
    if Z.of_nat (length b) <=? max then Ok (b, r') else Err (Error "larger than the max");
}.
Proof. intros max b r Hl. rewrite toy_read_write. rsimpl. by rewrite (proj2 (Z.leb_le _ _) Hl). Defined.

#[refine] Instance toy_range : MapRange := { range_map m := map_to_list m }.
Proof. done. Defined.

#[refine] Instance toy_failures : FailureCodec := {
  FailureMessage := list byte;
  EncodeFailureMessage m := Ok (x00 :: m);
  DecodeFailureMessage b := match b with [] => Err EOF | _ :: m => Ok m end;
}.
Proof.
  - by intros m b [= <-].
  - by intros m b [= <-].
Defined.

Definition ex_hash : list byte := replicate 32 x01.
Definition ex_info : PaymentCreationInfo :=
  {| PaymentIdentifier := ex_hash; Value := 1000; CreationTime := UnixNano 5; PaymentRequest := [x02] |}.

Definition ex_hop (amt : Z) : Hop :=
  {| PubKeyBytes := replicate 33 x03; ChannelID := 7; OutgoingTimeLock := 144; AmtToForward := amt;
     hop_MPP := Some {| paymentAddr := replicate 32 x04; totalMAtoms := 1000 |};
     hop_AMP := None; CustomRecords := {[ 65536 := [x05] ]}; LegacyPayload := false |}.

Definition ex_attempt (id amt : Z) : HTLCAttemptInfo :=
  {| AttemptID := id; sessionKey := replicate 32 x06;
     attempt_Route := {| TotalTimeLock := 200; TotalAmount := amt + 3;
                         SourcePubKey := replicate 33 x07; Hops := [ex_hop amt] |};
     AttemptTime := UnixNano 9; attempt_Hash := Some ex_hash |}.

Definition ex_settle : HTLCSettleInfo := {| Preimage := replicate 32 x08; SettleTime := UnixNano 11 |}.
Definition ex_fail : HTLCFailInfo :=
  {| FailTime := UnixNano 12; Message := Some [x09]; Reason := HTLCFailMessage; FailureSourceIndex := 2 |}.

Lemma ex_attempt_wf id amt : 0 <= amt < 2 ^ 62 -> wf_attempt (ex_attempt id amt).
Proof.
  intros Ha. constructor; [done| |by simpl; lia|by intros h [= <-]].
  constructor; [by simpl|unfold is_u64; simpl; lia|done| | |by simpl].
  - constructor; [|done]. constructor; [done|by simpl|by simpl|unfold is_u64; simpl; lia|].
    intros m [= <-]. by split.
  - constructor; [|done]. intros _. split; [|done]. apply map_Forall_singleton. done.
Qed.

Lemma ex_info_wf : wf_creation ex_info.
Proof. constructor; [done|by simpl|simpl; lia|by simpl]. Qed.

(** Two shards, of which the first is settled and the second fails. *)
Definition ex_start : list pay_op :=
  [OpInit ex_hash ex_info; OpRegister ex_hash (ex_attempt 1 600); OpRegister ex_hash (ex_attempt 2 400);
   OpSettle ex_hash 1 ex_settle].
Definition ex_end : list pay_op := [OpFailAttempt ex_hash 2 ex_fail; OpRestart; OpDeleteAll true true].

Lemma ex_ops_ok : Forall op_ok (ex_start ++ ex_end ++ [OpInit ex_hash ex_info]).
Proof.
  assert (op_ok (OpInit ex_hash ex_info)) as Hi.
  { split; [apply ex_info_wf|]. split; [by unfold amount_ok; simpl; lia|done]. }
  assert (forall id amt, 0 <= amt < 2 ^ 62 -> op_ok (OpRegister ex_hash (ex_attempt id amt))) as Hr.
  { intros id amt Ha. split; [by apply ex_attempt_wf|]. unfold amount_ok. change (ReceiverAmt _) with amt. lia. }
  constructor; [exact Hi|]. constructor; [apply Hr; lia|]. constructor; [apply Hr; lia|].
  do 4 (constructor; [done|]). constructor; [exact Hi|constructor].
Qed.

Definition ex_payment (st : pay_state) : MPPayment :=
  match FetchPayment st.2 ex_hash with
  | Ok p => p
  | _ => fresh_payment 0 ex_info
  end.

Lemma ex_history ops1 ops2 :
  ops1 ++ ops2 = ex_start ++ ex_end ++ [OpInit ex_hash ex_info] -> history_ok ops1 (new_state true).
Proof.
  intros E. split.
  - pose proof ex_ops_ok as Hf. rewrite <- E in Hf. by apply Forall_app in Hf as [Hf _].
  - assert (length (ops1 ++ ops2) = 8)%nat as El by (by rewrite E).
    rewrite length_app in El. unfold paymentSeqBlockSize, root_seq. simpl. lia.
Qed.

(** C13. In every state a history of operations and restarts reaches, the attempts of a
    payment that did not fail add up to at most the amount to pay, and no attempt is both
    settled and failed. *)
Theorem payment_within_value `{Secp256k1, VarBytes, MapRange, FailureCodec}
    (indexed : bool) (ops : list pay_op) (h : list byte) (p : MPPayment) :
  history_ok ops (new_state indexed) ->
  FetchPayment (pay_run ops (new_state indexed)).2 h = Ok p ->
  total (HTLCs p) <= Value (Info p) /\
  forall a, a ∈ HTLCs p -> Settle a = None \/ Failure a = None.
Proof.
  intros Hok Hp. destruct (run_inv indexed ops Hok) as [Hi _].
  pose proof Hp as (b & Hb & Hf)%FetchPayment_at. apply fetchPayment_iff in Hf as (m & Hv).
  pose proof (holds_ok _ _ h m p Hi ltac:(by exists b)) as [Ho _ _ Ht].
  rewrite (pv_htlcs _ _ _ Hv). split; [done|]. intros a (k & Hk)%elem_of_bucket_values. by eapply Ho.
Qed.

Lemma payment_within_value_witness :
  history_ok ex_start (new_state true) /\
  total (HTLCs (ex_payment (pay_run ex_start (new_state true)))) <=
  Value (Info (ex_payment (pay_run ex_start (new_state true)))).
Proof.
  split; [by apply (ex_history ex_start (ex_end ++ [OpInit ex_hash ex_info]))|].
  apply (payment_within_value true ex_start ex_hash (ex_payment (pay_run ex_start (new_state true)))).
  - by apply (ex_history ex_start (ex_end ++ [OpInit ex_hash ex_info])).
  - vm_compute. reflexivity.
Defined.

(** C11. A hash is paid at most once: when an attempt of a payment was settled, then
    through any further history that does not delete the payment the attempt stays
    settled with its preimage, every attempt to initiate the payment again is refused,
    and no further attempt can be registered. *)
Theorem paid_once `{Secp256k1, VarBytes, MapRange, FailureCodec}
    (indexed : bool) (ops1 ops2 : list pay_op) (h : list byte) (p : MPPayment) (a : HTLCAttempt)
    (s : HTLCSettleInfo) :
  let st1 := pay_run ops1 (new_state indexed) in
  let st2 := pay_run (ops1 ++ ops2) (new_state indexed) in
  history_ok (ops1 ++ ops2) (new_state indexed) -> Forall (spares h) ops2 ->
  FetchPayment st1.2 h = Ok p -> a ∈ HTLCs p -> Settle a = Some s ->
  (exists p' a' s', FetchPayment st2.2 h = Ok p' /\ a' ∈ HTLCs p' /\
     AttemptID (attempt_info a') = AttemptID (attempt_info a) /\
     Settle a' = Some s' /\ Failure a' = None /\ Preimage s' = Preimage s) /\
  (forall info, is_ok (InitPayment st2.1 st2.2 h info).2 = false) /\
  (forall x, is_ok (RegisterAttempt st2.2 h x).2 = false).
Proof.
  intros st1 st2 Hok Hsp Hp Ha Hs. destruct (run_state indexed ops1 ops2 Hok) as [Hi Hok2].
  assert (Failure a = None) as Hf.
  { pose proof Hp as (b & Hb & Hf)%FetchPayment_at. apply fetchPayment_iff in Hf as (m & Hv).
    pose proof (holds_ok _ _ h m p (proj1 Hi) ltac:(by exists b)) as [Ho _ _ _].
    rewrite (pv_htlcs _ _ _ Hv) in Ha. apply elem_of_bucket_values in Ha as (k & Hk).
    destruct (Ho k a Hk); [congruence|done]. }
  pose proof (settled_shows _ _ h p a s (proj1 Hi) Hp Ha Hs Hf) as Hshow.
  apply (settled_kept ops2 _ h) in Hshow; [|done..]. rewrite <- run_app in Hshow. fold st2 in Hshow.
  split; [|by eapply settled_refuses].
  destruct (shows_settled_read _ _ _ _ _ Hshow) as (p' & a' & s' & ? & ? & ? & ? & ? & ?).
  by exists p', a', s'.
Qed.

Lemma paid_once_witness :
  is_ok (InitPayment (pay_run (ex_start ++ ex_end) (new_state true)).1
    (pay_run (ex_start ++ ex_end) (new_state true)).2 ex_hash ex_info).2 = false.
Proof.
  set (p := ex_payment (pay_run ex_start (new_state true))).
  set (a := hd empty_attempt (HTLCs p)).
  apply (paid_once true ex_start ex_end ex_hash p a
    {| Preimage := replicate 32 x08; SettleTime := UnixNano 11 |}).
  - by apply (ex_history (ex_start ++ ex_end) [OpInit ex_hash ex_info]).
  - by repeat constructor.
  - vm_compute. reflexivity.
  - unfold a, p. vm_compute. left.
  - vm_compute. reflexivity.
Defined.

(** C14. The operations implement the life of a payment: in every state a history
    reaches, an operation leaves the view of each payment as it is or moves it by one
    rule of [pay_rule]. *)
Theorem payments_refine `{Secp256k1, VarBytes, MapRange, FailureCodec}
    (indexed : bool) (ops : list pay_op) (op : pay_op) (h : list byte) :
  history_ok (ops ++ [op]) (new_state indexed) ->
  let st := pay_run ops (new_state indexed) in
  let st' := (pay_step op st).1 in
  aview st'.2 h = aview st.2 h \/ pay_rule (aview st.2 h) (aview st'.2 h).
Proof.
  intros Hok st st'. destruct (run_state indexed ops [op] Hok) as [Hi Hok1].
  destruct (history_cons op [] st Hok1 Hi) as (_ & Hs & _). apply (ps_rule _ _ Hs).
Qed.

Lemma payments_refine_witness :
  history_ok (ex_start ++ [OpFailAttempt ex_hash 2 ex_fail]) (new_state true) /\
  pay_rule (aview (pay_run ex_start (new_state true)).2 ex_hash)
    (aview (pay_run (ex_start ++ [OpFailAttempt ex_hash 2 ex_fail]) (new_state true)).2 ex_hash).
Proof.
  assert (history_ok (ex_start ++ [OpFailAttempt ex_hash 2 ex_fail]) (new_state true)) as Hok
    by (by apply (ex_history _ [OpRestart; OpDeleteAll true true; OpInit ex_hash ex_info])).
  split; [exact Hok|].
  destruct (payments_refine true ex_start (OpFailAttempt ex_hash 2 ex_fail) ex_hash Hok) as [E|E];
    [vm_compute in E; discriminate E|exact E].
Defined.

(** C20. The payments the node resumes at startup are the ones in flight: in every
    state a history reaches, with or without the index of payments in flight,
    [FetchInFlightPayments] succeeds and returns exactly the payments whose status is in
    flight, each once. *)
Theorem in_flight_exact `{Secp256k1, VarBytes, MapRange, FailureCodec}
    (indexed : bool) (ops : list pay_op) :
  history_ok ops (new_state indexed) ->
  let db := (pay_run ops (new_state indexed)).2 in
  exists ps, FetchInFlightPayments db = Ok ps /\ NoDup (SequenceNum <$> ps) /\
    forall p, p ∈ ps <-> exists h, FetchPayment db h = Ok p /\ Status p = StatusInFlight.
Proof.
  intros Hok db. destruct (run_inv indexed ops Hok) as [Hi _].
  destruct (inflight_fetched _ _ Hi) as (ps & Hps & Hn & Hl). by exists ps.
Qed.

Lemma in_flight_exact_witness :
  history_ok ex_start (new_state true) /\
  exists ps, FetchInFlightPayments (pay_run ex_start (new_state true)).2 = Ok ps /\
    NoDup (SequenceNum <$> ps).
Proof.
  assert (history_ok ex_start (new_state true)) as Hok
    by (by apply (ex_history ex_start (ex_end ++ [OpInit ex_hash ex_info]))).
  split; [exact Hok|]. destruct (in_flight_exact true ex_start Hok) as (ps & Hps & Hn & _).
  exists ps. split; [exact Hps|exact Hn].
Defined.

(** Sequence numbers are never reused: the payment a successful [InitPayment]
    creates has no attempts, is in flight, and has a number above that of every payment
    of every earlier state, deleted or not, across restarts; the sequence index leads
    from the number to the payment's hash. *)
Theorem payment_numbers `{Secp256k1, VarBytes, MapRange, FailureCodec}
    (indexed : bool) (ops1 ops2 : list pay_op) (h0 h : list byte) (p0 : MPPayment)
    (info : PaymentCreationInfo) (st3 : pay_state) :
  let st1 := pay_run ops1 (new_state indexed) in
  let st2 := pay_run (ops1 ++ ops2) (new_state indexed) in
  history_ok (ops1 ++ ops2 ++ [OpInit h info]) (new_state indexed) ->
  FetchPayment st1.2 h0 = Ok p0 -> pay_step (OpInit h info) st2 = (st3, true) ->
  exists p, FetchPayment st3.2 h = Ok p /\ HTLCs p = [] /\ Status p = StatusInFlight /\
    SequenceNum p0 < SequenceNum p /\
    exists idx v, payments_index st3.2 = Some idx /\ idx !! SequenceNum p = Some v /\
      deserializePaymentIndex v = Ok h.
Proof.
  intros st1 st2 Hok Hp0 Hst. rewrite app_assoc in Hok.
  destruct (run_state indexed (ops1 ++ ops2) [OpInit h info] Hok) as [Hi2 Hok2].
  destruct (history_cons _ [] _ Hok2 Hi2) as (Ho & Hs & _). fold st2 in Hok2, Hi2, Hs.
  destruct (history_app (ops1 ++ ops2) _ _ (new_state_inv indexed) Hok) as [Hok12 _].
  destruct (run_state indexed ops1 ops2 Hok12) as [Hi1 Hok1]. fold st1 in Hi1, Hok1.
  assert (root_seq st2.2 + paymentSeqBlockSize < 2 ^ 64) as Hroom.
  { destruct Hok2 as [_ Hr]. simpl in Hr. lia. }
  destruct st2 as [pc2 db2] eqn:E2. destruct (init_success pc2 db2 h info st3 Ho Hi2 Hroom Hst) as (s & Hn & Hh).
  pose proof (issued_mono ops2 st1 Hi1 Hok1) as Hm. unfold st1 in Hm at 3 4. rewrite <- run_app in Hm.
  change (pay_run (ops1 ++ ops2) (new_state indexed)) with st2 in Hm. rewrite E2 in Hm. simpl in Hm.
  destruct (number_issued _ _ h0 p0 (proj1 Hi1) Hp0) as [Hn0 _].
  assert (FetchPayment st3.2 h = Ok (fresh_payment s info)) as Hp by (by apply holds_reads in Hh as [? _]).
  exists (fresh_payment s info). rewrite Hst in Hs. simpl in Hs. pose proof (ps_inv _ _ Hs) as [Hi3 _].
  destruct (number_issued _ _ h _ Hi3 Hp) as [_ Hidx]. split_and!; try done. simpl. lia.
Qed.

Definition ex_hash2 : list byte := replicate 32 x0a.
Definition ex_info2 : PaymentCreationInfo :=
  {| PaymentIdentifier := ex_hash2; Value := 50; CreationTime := ZeroTime; PaymentRequest := [] |}.

Lemma ex_history2 : history_ok (ex_start ++ [OpRestart] ++ [OpInit ex_hash2 ex_info2]) (new_state true).
Proof.
  split; [|by vm_compute].
  pose proof ex_ops_ok as [Hf _]%Forall_app. apply Forall_app. split; [exact Hf|].
  constructor; [done|]. constructor; [|constructor]. split; [|split; [|done]].
  - constructor; [done|by simpl|done|by simpl].
  - unfold amount_ok. simpl. lia.
Qed.

Lemma payment_numbers_witness : exists p,
  FetchPayment (pay_run (ex_start ++ [OpRestart] ++ [OpInit ex_hash2 ex_info2]) (new_state true)).2 ex_hash2 = Ok p /\
  1 < SequenceNum p.
Proof.
  destruct (payment_numbers true ex_start [OpRestart] ex_hash ex_hash2
    (ex_payment (pay_run ex_start (new_state true))) ex_info2
    (pay_run (ex_start ++ [OpRestart] ++ [OpInit ex_hash2 ex_info2]) (new_state true)))
    as (p & Hp & _ & _ & Hlt & _).
  - exact ex_history2.
  - vm_compute. reflexivity.
  - vm_compute. reflexivity.
  - exists p. split; [exact Hp|]. vm_compute in Hlt. exact Hlt.
Defined.

(** C37. Without duplicates of old versions, and for an offset below 2^64-1,
    [QueryPayments] returns pages of the list [FetchPayments] returns: the payments
    on the far side of the exclusive offset, in the direction of the query, that are
    settled or wanted anyway, cut to the maximum, and always in the order of their
    numbers; the offsets of the response are the first and last number. *)
Theorem query_pages `{Secp256k1, VarBytes, MapRange, FailureCodec}
    (indexed : bool) (ops : list pay_op) (q : PaymentsQuery) :
  let db := (pay_run ops (new_state indexed)).2 in
  history_ok ops (new_state indexed) -> no_duplicates db ->
  is_u64 (IndexOffset q) -> IndexOffset q <> 2 ^ 64 - 1 -> is_u64 (MaxPayments q) ->
  exists ps, FetchPayments db = Ok ps /\
    let r := take (Z.to_nat (MaxPayments q)) (queried q ps) in
    QueryPayments db q = Ok (response (if Reversed q then reverse r else r)).
Proof.
  intros db Hok Hd Ho Hne Hm. destruct (run_inv indexed ops Hok) as [Hi _].
  unfold is_u64 in Ho, Hm. eapply query_payments_page; [exact Hi|exact Hd|lia|lia|lia].
Qed.

Lemma ex_no_duplicates :
  no_duplicates (pay_run (ex_start ++ [OpRestart] ++ [OpInit ex_hash2 ex_info2]) (new_state true)).2.
Proof.
  intros h b Hb%elem_of_all_buckets.
  assert (Forall (fun kv => duplicates kv.2 = None) (all_buckets
    (pay_run (ex_start ++ [OpRestart] ++ [OpInit ex_hash2 ex_info2]) (new_state true)).2)) as Hf
    by (vm_compute; repeat constructor).
  rewrite Forall_forall in Hf. by apply Hf in Hb.
Qed.

Lemma query_pages_witness : exists ps,
  FetchPayments (pay_run (ex_start ++ [OpRestart] ++ [OpInit ex_hash2 ex_info2]) (new_state true)).2 = Ok ps /\
  QueryPayments (pay_run (ex_start ++ [OpRestart] ++ [OpInit ex_hash2 ex_info2]) (new_state true)).2
    {| IndexOffset := 0; MaxPayments := 1; Reversed := true; IncludeIncomplete := true |} =
  Ok (response (reverse (take 1 (queried
    {| IndexOffset := 0; MaxPayments := 1; Reversed := true; IncludeIncomplete := true |} ps)))).
Proof.
  apply (query_pages true (ex_start ++ [OpRestart] ++ [OpInit ex_hash2 ex_info2])
    {| IndexOffset := 0; MaxPayments := 1; Reversed := true; IncludeIncomplete := true |}).
  - exact ex_history2.
  - exact ex_no_duplicates.
  - by vm_compute.
  - by vm_compute.
  - by vm_compute.
Defined.

(** Payment records survive the disk: a well-formed attempt, creation info or
    outcome is written, and read back with every field but the ones that are not stored,
    which are the attempt id (the key of the record), AMP records, and the TLV records of
    legacy hops; a time at the epoch is read as the zero time. *)
Theorem payment_records_roundtrip `{Secp256k1, VarBytes, MapRange, FailureCodec}
    (c : PaymentCreationInfo) (a : HTLCAttemptInfo) (s : HTLCSettleInfo) (f : HTLCFailInfo)
    (fb : list byte) :
  wf_creation c -> wf_attempt a -> length (Preimage s) = 32%nat -> wf_time (SettleTime s) ->
  wf_time (FailTime f) -> is_u8 (Reason f) -> is_u32 (FailureSourceIndex f) ->
  (forall m b, Message f = Some m -> EncodeFailureMessage m = Ok b ->
     Z.of_nat (length b) <= FailureMessageLength) ->
  serializeHTLCFailInfo f = Ok fb ->
  deserializePaymentCreationInfo (serializePaymentCreationInfo c) = Ok (stored_creation c) /\
  (exists b, serializeHTLCAttemptInfo a = Ok b /\
     deserializeHTLCAttemptInfo b = Ok (stored_attempt a)) /\
  deserializeHTLCSettleInfo (serializeHTLCSettleInfo s) =
    Ok {| Preimage := Preimage s; SettleTime := stored_time (SettleTime s) |} /\
  deserializeHTLCFailInfo fb =
    Ok {| FailTime := stored_time (FailTime f); Message := Message f; Reason := Reason f;
          FailureSourceIndex := FailureSourceIndex f |}.
Proof.
  intros Hc Ha Hp Hs Hf Hr Hx Hm Hfb. split_and!.
  - by apply creation_info_roundtrip.
  - by apply attempt_reads_back.
  - by apply settle_info_roundtrip.
  - by apply (fail_info_roundtrip f fb).
Qed.

Lemma payment_records_roundtrip_witness :
  exists b, serializeHTLCAttemptInfo (ex_attempt 1 600) = Ok b /\
    deserializeHTLCAttemptInfo b = Ok (stored_attempt (ex_attempt 1 600)).
Proof.
  apply (payment_records_roundtrip ex_info (ex_attempt 1 600) ex_settle ex_fail
    (serializeTime (UnixNano 12) ++ toy_write [x00; x09] ++ [x03; x00; x00; x00; x02])).
  - exact ex_info_wf.
  - apply ex_attempt_wf. lia.
  - reflexivity.
  - simpl. lia.
  - simpl. lia.
  - by vm_compute.
  - by vm_compute.
  - intros m b E Eb. simpl in E. injection E as <-. simpl in Eb. injection Eb as <-. by vm_compute.
  - vm_compute. reflexivity.
Defined.

(** ** Deleting *)

Section Deleting.
Context `{Secp256k1, VarBytes, MapRange, FailureCodec}.

Lemma collect_total n db fo : db_inv n db -> forall l d,
  (forall h b, (h, b) ∈ l -> bucket_at db h = Some b) ->
  exists d', for_each (collect_deletions fo false) l d = Ok d'.
Proof.
  intros Hi. induction l as [|[h b] l IH]; intros d Hl; [by exists d|].
  destruct (di_buckets n db Hi h b) as (_ & _ & m & p & Hv & _); [apply Hl; by left|].
  assert (exists d1, collect_deletions fo false (h, b) d = Ok d1) as [d1 E1].
  { unfold collect_deletions. rewrite (view_status _ _ _ Hv). rsimpl.
    case_bool_decide; [by eexists|]. destruct (fo && _); [by eexists|].
    unfold fetchSequenceNumbers. rewrite (pv_seq _ _ _ Hv). destruct (duplicates b); by eexists. }
  cbn [for_each]. rewrite E1. rsimpl. apply IH. intros h' b' Hin. apply Hl. by right.
Qed.

Lemma delete_indexes_total ks : forall tx,
  is_Some (payments_index tx) -> exists tx', for_each (fun k tx => delete_index tx k) ks tx = Ok tx'.
Proof.
  induction ks as [|k ks IH]; intros tx Hi; [by exists tx|]. destruct Hi as [idx Ei].
  cbn [for_each].
  assert (delete_index tx k = Ok (set_index tx (delete k idx))) as -> by (unfold delete_index; by rewrite Ei).
  rsimpl. apply IH. by eexists.
Qed.

Lemma delete_payments_total n db fo :
  db_inv n db -> exists db', delete_payments_tx db fo false = Ok (db', tt).
Proof.
  intros Hi. unfold delete_payments_tx. destruct (payments_root db) as [root|] eqn:Er; [|by eexists].
  destruct (collect_total n db fo Hi (hash_entries (root_payments root))
    {| deleteBuckets := []; deleteIndexes := []; deleteHtlcs := [] |}) as [d Hd].
  { intros h b Hin. by apply (elem_of_hash_entries db root h b Er). }
  rewrite Hd. rsimpl. pose proof (collect_ok fo false _ _ _ Hd) as (Eh & _ & _). simpl in Eh.
  rewrite Eh. rsimpl. simpl.
  pose proof (di_index n db Hi) as (idx & Ei & _).
  destruct (delete_buckets_at (deleteBuckets d) db []) as (_ & _ & Ei' & _).
  destruct (delete_indexes_total (deleteIndexes d) (fold_left delete_payment_bucket (deleteBuckets d) db))
    as [tx1 H1']; [by rewrite Ei', Ei|].
  rewrite H1'. rsimpl. destruct (inflight_index tx1); [|by eexists].
  destruct (delete_indexes _ _ _ H1') as (_ & _ & Hx). rewrite Ei' in Hx.
  destruct (Hx idx Ei) as (idx1 & Ei1 & _).
  destruct (delete_indexes_total (deleteIndexes d) tx1) as [tx2 H2']; [by rewrite Ei1|].
  rewrite H2'. by eexists.
Qed.
End Deleting.

(** C31. [DeletePayments], asked for whole payments, deletes exactly what it should: in every state a history
    reaches it succeeds, the payments left are those in flight and, when only failed ones
    were to go, the succeeded ones, all unchanged, and the payments in flight are found
    as before. *)
Theorem delete_payments_exact `{Secp256k1, VarBytes, MapRange, FailureCodec}
    (indexed failedOnly : bool) (ops : list pay_op) :
  history_ok ops (new_state indexed) ->
  let db := (pay_run ops (new_state indexed)).2 in
  let '(db', r) := DeletePayments db failedOnly false in
  r = Ok tt /\
  (forall h p, FetchPayment db' h = Ok p <->
     FetchPayment db h = Ok p /\
     (Status p = StatusInFlight \/ (failedOnly = true /\ Status p = StatusSucceeded))) /\
  exists ps ps', FetchInFlightPayments db = Ok ps /\ FetchInFlightPayments db' = Ok ps' /\
    forall p, p ∈ ps' <-> p ∈ ps.
Proof.
  intros Hok db. destruct (run_inv indexed ops Hok) as [Hi _]. fold db in Hi.
  destruct (delete_payments_total _ db failedOnly Hi) as [db' Hd].
  unfold DeletePayments. rewrite Hd. cbn [batch].
  destruct (delete_payments_ok _ db failedOnly false db' Hi Hd) as [Hi' [Hat _ _ _]].
  assert (forall h p, FetchPayment db' h = Ok p <->
     FetchPayment db h = Ok p /\
     (Status p = StatusInFlight \/ (failedOnly = true /\ Status p = StatusSucceeded))) as Hf.
  { intros h p. rewrite !FetchPayment_at. setoid_rewrite Hat.
    assert (forall b, bucket_at db h = Some b -> fetchPayment b = Ok p ->
      (h ∈ (selected failedOnly (all_buckets db)).*1 <->
       ~ (Status p = StatusInFlight \/ (failedOnly = true /\ Status p = StatusSucceeded)))) as Hsel.
    { intros b Hb (m & Hv)%fetchPayment_iff. rewrite list_elem_of_fmap.
      pose proof (status_known _ _ _ Hv) as Hu.
      assert (deletable failedOnly b = true <-> ~ (Status p = StatusInFlight \/
        (failedOnly = true /\ Status p = StatusSucceeded))) as <-.
      { unfold deletable. rewrite (view_status _ _ _ Hv).
        destruct (Status p), failedOnly; simpl; intuition congruence. }
      split.
      - intros ([h' b'] & E & Hin). simpl in E. subst h'.
        apply list_elem_of_filter in Hin as [Hdel Hin]. apply elem_of_all_buckets in Hin.
        rewrite Hb in Hin. injection Hin as <-. exact Hdel.
      - intros Hdel. exists (h, b). split; [done|]. apply list_elem_of_filter. split; [done|].
        by apply elem_of_all_buckets. }
    split.
    - intros (b & Hb & Hp). destruct (decide (h ∈ _)) as [|Hn]; [done|]. split; [by exists b|].
      apply dec_stable. intros Hc. apply Hn. by apply (Hsel b).
    - intros ((b & Hb & Hp) & Hc). exists b. rewrite decide_False; [done|]. intros Hin.
      by apply (Hsel b Hb Hp) in Hin. }
  split_and!; [done|done|].
  destruct (inflight_fetched _ db Hi) as (ps & Hps & _ & Hl).
  destruct (inflight_fetched _ db' Hi') as (ps' & Hps' & _ & Hl').
  exists ps, ps'. split_and!; [done..|]. intros p. rewrite Hl, Hl'. setoid_rewrite Hf. naive_solver.
Qed.

Lemma delete_payments_exact_witness :
  (DeletePayments (pay_run (ex_start ++ ex_end) (new_state true)).2 false false).2 = Ok tt.
Proof.
  assert (history_ok (ex_start ++ ex_end) (new_state true)) as Hok
    by (by apply (ex_history (ex_start ++ ex_end) [OpInit ex_hash ex_info])).
  pose proof (delete_payments_exact true false (ex_start ++ ex_end) Hok) as Hd.
  cbv zeta in Hd. destruct (DeletePayments _ _ _) as [db' r]. exact (proj1 Hd).
Defined.

(** The check of a registration adds in 64 bits: a shard large enough to wrap the sum is
    accepted. *)
Example register_sum_wraps :
  let db := (pay_run [OpInit ex_hash ex_info; OpRegister ex_hash (ex_attempt 1 600)] (new_state true)).2 in
  is_ok (RegisterAttempt db ex_hash (ex_attempt 2 (2 ^ 64 - 100))).2 = true.
Proof. vm_compute. reflexivity. Qed.
