(* ===== verification/InvoiceRegistry.v ===== *)
(** * The invoice registry

    [invoices/update.go] and [invoices/invoiceregistry.go]: what becomes of an HTLC that
    pays an invoice, settling and canceling invoices, the links that wait for the
    resolution of an HTLC, and the timers of incomplete sets; with the watcher of
    [invoices/invoice_expiry_watcher.go] that cancels expired invoices.

    A channel a link waits on is a number, and what is sent on it is recorded in the order
    it is sent; so are the events for the clients of the registry.  The state is what the
    lock of the registry protects together with the heap of its event loop and the two
    queues of the watcher, so that every definition of an operation is one atomic step. *)

From S2P Require Import Prelude Sha256 Ids Tlv Features PaymentCodec Amp Payments InvoiceCodec Invoices.

(** ** Resolutions *)

Inductive acceptResolutionResult :=
| resultReplayToAccepted | resultDuplicateToAccepted | resultAccepted | resultPartialAccepted.

Inductive FailResolutionResult :=
| ResultReplayToCanceled | ResultInvoiceAlreadyCanceled | ResultInvoiceAlreadySettled
| ResultAmountTooLow | ResultExpiryTooSoon | ResultCanceled | ResultInvoiceNotOpen
| ResultMppTimeout | ResultAddressMismatch | ResultHtlcSetTotalMismatch
| ResultHtlcSetTotalTooLow | ResultHtlcSetOverpayment | ResultInvoiceNotFound
| ResultKeySendError | ResultMppInProgress | ResultHtlcInvoiceTypeMismatch | ResultAmpError
| ResultAmpReconstruction.

Inductive SettleResolutionResult := ResultSettled | ResultReplayToSettled | ResultDuplicateToSettled.

#[export] Instance acceptResolutionResult_eq_dec : EqDecision acceptResolutionResult.
Proof. solve_decision. Defined.
#[export] Instance FailResolutionResult_eq_dec : EqDecision FailResolutionResult.
Proof. solve_decision. Defined.
#[export] Instance SettleResolutionResult_eq_dec : EqDecision SettleResolutionResult.
Proof. solve_decision. Defined.

Definition IsSetFailure (f : FailResolutionResult) : bool :=
  match f with
  | ResultAmpReconstruction | ResultHtlcSetTotalTooLow | ResultHtlcSetTotalMismatch
  | ResultHtlcSetOverpayment => true
  | _ => false
  end.

(** The accept resolution's [autoRelease] and [acceptTime] are one option. *)
Inductive HtlcResolution :=
| HtlcFailResolution (circuitKey : CircuitKey) (acceptHeight : Z) (outcome : FailResolutionResult)
| HtlcSettleResolution (preimage : list byte) (circuitKey : CircuitKey) (acceptHeight : Z)
    (outcome : SettleResolutionResult)
| htlcAcceptResolution (circuitKey : CircuitKey) (autoRelease : option Time)
    (outcome : acceptResolutionResult).

#[export] Instance HtlcResolution_eq_dec : EqDecision HtlcResolution.
Proof. solve_decision. Defined.

Definition resolution_key (r : HtlcResolution) : CircuitKey :=
  match r with
  | HtlcFailResolution k _ _ | HtlcSettleResolution _ k _ _ | htlcAcceptResolution k _ _ => k
  end.

(** ** The update of an invoice by an HTLC *)

Record invoiceUpdateCtx := {
  ctx_hash : list byte;
  ctx_circuitKey : CircuitKey;
  ctx_amtPaid : Z;
  ctx_expiry : Z;
  ctx_currentHeight : Z;
  ctx_finalCltvRejectDelta : Z;
  ctx_customRecords : option (gmap Z (list byte));
  ctx_mpp : option MPP;
  ctx_amp : option AMP;
}.

Definition invoiceRef (ctx : invoiceUpdateCtx) : InvoiceRef :=
  match ctx_amp ctx, ctx_mpp ctx with
  | Some _, Some mpp => InvoiceRefByAddr (paymentAddr mpp)
  | _, Some mpp => InvoiceRefByHashAndAddr (ctx_hash ctx) (paymentAddr mpp)
  | _, None => InvoiceRefByHash (ctx_hash ctx)
  end.

Definition ctx_setID (ctx : invoiceUpdateCtx) : option (list byte) := PaymentCodec.setID <$> ctx_amp ctx.

Definition failRes (ctx : invoiceUpdateCtx) (outcome : FailResolutionResult) : HtlcResolution :=
  HtlcFailResolution (ctx_circuitKey ctx) (ctx_currentHeight ctx) outcome.

Definition settleRes (ctx : invoiceUpdateCtx) (preimage : list byte) (outcome : SettleResolutionResult)
    : HtlcResolution :=
  HtlcSettleResolution preimage (ctx_circuitKey ctx) (ctx_currentHeight ctx) outcome.

Definition acceptRes (ctx : invoiceUpdateCtx) (outcome : acceptResolutionResult) : HtlcResolution :=
  htlcAcceptResolution (ctx_circuitKey ctx) None outcome.

Definition KeySendType : Z := 5482373484.

Definition errHtlcState : error := Error "unknown htlc state".

(** Dereferencing a preimage that is not known. *)
Definition deref {A} (o : option A) : res A := match o with Some a => Ok a | None => Panic end.

Definition no_update (r : HtlcResolution) : res (option InvoiceUpdateDesc * HtlcResolution) := Ok (None, r).

Definition add_desc (ctx : invoiceUpdateCtx) (d : HtlcAcceptDesc) (state : option InvoiceStateUpdateDesc)
    : InvoiceUpdateDesc :=
  {| desc_State := state; CancelHtlcs := ∅; AddHtlcs := {[ ctx_circuitKey ctx := d ]}; desc_SetID := None |}.

Definition too_soon (ctx : invoiceUpdateCtx) (delta : Z) : bool :=
  ctx_expiry ctx <? u32 (i32 (ctx_currentHeight ctx + delta)).

Section Registry.
Context `{Hasher} `{Secp256k1} `{GoRange} `{TimeZone} `{WireVarInt}.

Definition child_desc_of (a : AMP) : ChildDesc := {| Share := rootShare a; Index := childIndex a |}.

Definition set_descs (l : list (CircuitKey * InvoiceHTLC)) : res (list ChildDesc) :=
  mapM (fun kh => a ← deref (htlc_AMP kh.2); Ok (child_desc_of (amp_Record a))) l.

Definition set_hash (h : InvoiceHTLC) : option (list byte) := amp_Hash <$> htlc_AMP h.

(** The preimages of the set and of the new HTLC, or a failure. *)
Definition reconstructAMPPreimages (ctx : invoiceUpdateCtx) (a : AMP)
    (htlcSet : gmap CircuitKey InvoiceHTLC) : res (gmap CircuitKey (list byte) + HtlcResolution) :=
  let l := range htlcSet in
  descs ← set_descs l;
  match ReconstructChildren (child_desc_of a :: descs) with
  | [] => Panic
  | child0 :: children =>
      if negb (bool_decide (ctx_hash ctx = child_Hash child0)) then
        Ok (inr (failRes ctx ResultAmpReconstruction))
      else if negb (forallb (fun khc => bool_decide (set_hash khc.1.2 = Some (child_Hash khc.2)))
                      (zip l children))
      then Ok (inr (failRes ctx ResultAmpReconstruction))
      else Ok (inl (foldl (fun m khc => <[khc.1.1 := child_Preimage khc.2]> m)
                      {[ ctx_circuitKey ctx := child_Preimage child0 ]} (zip l children)))
  end.

(** The total of a set, unless an HTLC of it names another total. *)
Fixpoint set_total (total : Z) (l : list InvoiceHTLC) (acc : Z) : option Z :=
  match l with
  | [] => Some acc
  | h :: rest =>
      if negb (htlc_State h =? HtlcStateAccepted) then set_total total rest acc
      else if negb (total =? MppTotalAmt h) then None
      else set_total total rest (u64 (acc + htlc_Amt h))
  end.

Definition accept_desc (ctx : invoiceUpdateCtx) (mpp : option MPP) : HtlcAcceptDesc :=
  {| desc_AcceptHeight := ctx_currentHeight ctx; desc_Amt := ctx_amtPaid ctx;
     desc_MppTotalAmt := match mpp with Some m => totalMAtoms m | None => 0 end;
     desc_Expiry := ctx_expiry ctx; desc_CustomRecords := ctx_customRecords ctx;
     desc_AMP := match mpp with
                 | Some _ => (fun a => {| amp_Record := a; amp_Hash := ctx_hash ctx;
                                          amp_Preimage := None |}) <$> ctx_amp ctx
                 | None => None
                 end |}.

Definition updateMpp (ctx : invoiceUpdateCtx) (mpp : MPP) (inv : Invoice)
    : res (option InvoiceUpdateDesc * HtlcResolution) :=
  let requiresAMP := RequiresFeature (features_of inv) AMPRequired in
  let hasAMP := bool_decide (is_Some (ctx_amp ctx)) in
  if negb (Bool.eqb requiresAMP hasAMP) then no_update (failRes ctx ResultHtlcInvoiceTypeMismatch)
  else if negb (inv_State inv =? ContractOpen) then no_update (failRes ctx ResultInvoiceNotOpen)
  else if negb (bool_decide (paymentAddr mpp = PaymentAddr (Terms inv)))
  then no_update (failRes ctx ResultAddressMismatch)
  else if totalMAtoms mpp =? 0 then no_update (failRes ctx ResultHtlcSetTotalTooLow)
  else if totalMAtoms mpp <? term_Value (Terms inv) then no_update (failRes ctx ResultHtlcSetTotalTooLow)
  else
    let id := ctx_setID ctx in
    let htlcSet := HTLCSet inv id HtlcStateAccepted in
    match set_total (totalMAtoms mpp) (range htlcSet).*2 0 with
    | None => no_update (failRes ctx ResultHtlcSetTotalMismatch)
    | Some newSetTotal =>
        let newSetTotal := u64 (newSetTotal + ctx_amtPaid ctx) in
        if totalMAtoms mpp <? newSetTotal then no_update (failRes ctx ResultHtlcSetOverpayment)
        else if too_soon ctx (ctx_finalCltvRejectDelta ctx) then no_update (failRes ctx ResultExpiryTooSoon)
        else if too_soon ctx (FinalCltvDelta (Terms inv)) then no_update (failRes ctx ResultExpiryTooSoon)
        else
          let update := add_desc ctx (accept_desc ctx (Some mpp)) in
          if negb (newSetTotal =? totalMAtoms mpp)
          then Ok (Some (update None), acceptRes ctx resultPartialAccepted)
          else if HodlInvoice inv then
            Ok (Some (update (Some {| NewState := ContractAccepted; upd_Preimage := None;
                                      HTLCPreimages := ∅; upd_SetID := id |})),
                acceptRes ctx resultAccepted)
          else
            match ctx_amp ctx with
            | Some a =>
                r ← reconstructAMPPreimages ctx a htlcSet;
                match r with
                | inr fail =>
                    Ok (Some (update (Some {| NewState := ContractCanceled; upd_Preimage := None;
                                              HTLCPreimages := ∅; upd_SetID := id |})), fail)
                | inl htlcPreimages =>
                    Ok (Some (update (Some {| NewState := ContractSettled;
                                              upd_Preimage := PaymentPreimage (Terms inv);
                                              HTLCPreimages := htlcPreimages; upd_SetID := id |})),
                        settleRes ctx (default unknownPreimage (htlcPreimages !! ctx_circuitKey ctx))
                          ResultSettled)
                end
            | None =>
                htlcPreimage ← deref (PaymentPreimage (Terms inv));
                Ok (Some (update (Some {| NewState := ContractSettled;
                                          upd_Preimage := PaymentPreimage (Terms inv);
                                          HTLCPreimages := ∅; upd_SetID := id |})),
                    settleRes ctx htlcPreimage ResultSettled)
            end
    end.

Definition has_keysend (ctx : invoiceUpdateCtx) : bool :=
  bool_decide (is_Some (m ← ctx_customRecords ctx; m !! KeySendType)).

Definition updateLegacy (ctx : invoiceUpdateCtx) (inv : Invoice)
    : res (option InvoiceUpdateDesc * HtlcResolution) :=
  if inv_State inv =? ContractCanceled then no_update (failRes ctx ResultInvoiceAlreadyCanceled)
  else if ctx_amtPaid ctx <? term_Value (Terms inv) then no_update (failRes ctx ResultAmountTooLow)
  else if negb (has_keysend ctx) && RequiresFeature (features_of inv) PaymentAddrRequired
  then no_update (failRes ctx ResultAddressMismatch)
  else if existsb (fun kh => 0 <? MppTotalAmt kh.2) (range (HTLCSet inv None HtlcStateAccepted))
  then no_update (failRes ctx ResultMppInProgress)
  else if too_soon ctx (ctx_finalCltvRejectDelta ctx) then no_update (failRes ctx ResultExpiryTooSoon)
  else if too_soon ctx (FinalCltvDelta (Terms inv)) then no_update (failRes ctx ResultExpiryTooSoon)
  else
    let update := add_desc ctx (accept_desc ctx None) in
    if inv_State inv =? ContractAccepted
    then Ok (Some (update None), acceptRes ctx resultDuplicateToAccepted)
    else if inv_State inv =? ContractSettled then
      p ← deref (PaymentPreimage (Terms inv));
      Ok (Some (update None), settleRes ctx p ResultDuplicateToSettled)
    else if HodlInvoice inv then
      Ok (Some (update (Some {| NewState := ContractAccepted; upd_Preimage := None;
                                HTLCPreimages := ∅; upd_SetID := None |})),
          acceptRes ctx resultAccepted)
    else
      p ← deref (PaymentPreimage (Terms inv));
      Ok (Some (update (Some {| NewState := ContractSettled;
                                upd_Preimage := PaymentPreimage (Terms inv);
                                HTLCPreimages := ∅; upd_SetID := None |})),
          settleRes ctx p ResultSettled).

Definition updateInvoice (ctx : invoiceUpdateCtx) (inv : Invoice)
    : res (option InvoiceUpdateDesc * HtlcResolution) :=
  match Htlcs inv !! ctx_circuitKey ctx with
  | Some htlc =>
      if htlc_State htlc =? HtlcStateCanceled then no_update (failRes ctx ResultReplayToCanceled)
      else if htlc_State htlc =? HtlcStateAccepted then no_update (acceptRes ctx resultReplayToAccepted)
      else if htlc_State htlc =? HtlcStateSettled then
        p ← deref (PaymentPreimage (Terms inv));
        no_update (settleRes ctx p ResultReplayToSettled)
      else Err errHtlcState
  | None =>
      match ctx_mpp ctx with
      | None => updateLegacy ctx inv
      | Some mpp => updateMpp ctx mpp inv
      end
  end.

(** ** The state of the registry *)

Record RegistryConfig := {
  FinalCltvRejectDelta : Z;
  HtlcHoldDuration : Z;
  AcceptKeySend : bool;
  AcceptAMP : bool;
  GcCanceledInvoicesOnStartup : bool;
  GcCanceledInvoicesOnTheFly : bool;
  KeysendHoldTime : Z;
  blockExpiryDelta : Z;
}.

Record invoiceEvent := {
  ev_hash : option (list byte);
  ev_invoice : Invoice;
  ev_setID : option (list byte);
}.

Record InvoiceSubscription := {
  sub_addIndex : Z;
  sub_settleIndex : Z;
  sub_queue : list invoiceEvent;
}.

Record SingleInvoiceSubscription := { single_ref : InvoiceRef; single_queue : list invoiceEvent }.

(** What the channel [invoiceEvents] carries. *)
Inductive loop_event :=
| InvoiceEvent (e : invoiceEvent)
| NewSingleSubscription (id : Z) (s : SingleInvoiceSubscription).

Record htlcReleaseEvent := {
  rel_invoiceRef : InvoiceRef;
  rel_key : CircuitKey;
  rel_releaseTime : Time;
}.

Record invoiceExpiryTs := { ts_PaymentHash : list byte; ts_Expiry : Time; ts_Keysend : bool }.
Record invoiceExpiryHeight := { eh_paymentHash : list byte; eh_expiryHeight : Z }.

Inductive invoiceExpiry := ExpiryTs (e : invoiceExpiryTs) | ExpiryHeight (e : invoiceExpiryHeight).

Record registry := {
  reg_db : invoices_db;
  hodlSubscriptions : gmap CircuitKey (gset Z);
  hodlReverseSubscriptions : gmap Z (gset CircuitKey);
  reg_sent : list (Z * HtlcResolution);
  invoiceEvents : list loop_event;
  nextClientID : Z;
  notificationClients : gmap Z InvoiceSubscription;
  singleNotificationClients : gmap Z SingleInvoiceSubscription;
  autoReleaseHeap : list htlcReleaseEvent;
  timestampExpiryQueue : list invoiceExpiryTs;
  blockExpiryQueue : list invoiceExpiryHeight;
  watcher_height : Z;
}.

Definition with_db (i : registry) (db : invoices_db) : registry :=
  {| reg_db := db; hodlSubscriptions := hodlSubscriptions i;
     hodlReverseSubscriptions := hodlReverseSubscriptions i; reg_sent := reg_sent i;
     invoiceEvents := invoiceEvents i; nextClientID := nextClientID i;
     notificationClients := notificationClients i;
     singleNotificationClients := singleNotificationClients i; autoReleaseHeap := autoReleaseHeap i;
     timestampExpiryQueue := timestampExpiryQueue i; blockExpiryQueue := blockExpiryQueue i;
     watcher_height := watcher_height i |}.

Definition with_hodl (i : registry) (subs : gmap CircuitKey (gset Z)) (rev : gmap Z (gset CircuitKey))
    (sent : list (Z * HtlcResolution)) : registry :=
  {| reg_db := reg_db i; hodlSubscriptions := subs; hodlReverseSubscriptions := rev; reg_sent := sent;
     invoiceEvents := invoiceEvents i; nextClientID := nextClientID i;
     notificationClients := notificationClients i;
     singleNotificationClients := singleNotificationClients i; autoReleaseHeap := autoReleaseHeap i;
     timestampExpiryQueue := timestampExpiryQueue i; blockExpiryQueue := blockExpiryQueue i;
     watcher_height := watcher_height i |}.

Definition with_events (i : registry) (l : list loop_event) : registry :=
  {| reg_db := reg_db i; hodlSubscriptions := hodlSubscriptions i;
     hodlReverseSubscriptions := hodlReverseSubscriptions i; reg_sent := reg_sent i;
     invoiceEvents := l; nextClientID := nextClientID i;
     notificationClients := notificationClients i;
     singleNotificationClients := singleNotificationClients i; autoReleaseHeap := autoReleaseHeap i;
     timestampExpiryQueue := timestampExpiryQueue i; blockExpiryQueue := blockExpiryQueue i;
     watcher_height := watcher_height i |}.

Definition with_clients (i : registry) (next : Z) (clients : gmap Z InvoiceSubscription)
    (singles : gmap Z SingleInvoiceSubscription) : registry :=
  {| reg_db := reg_db i; hodlSubscriptions := hodlSubscriptions i;
     hodlReverseSubscriptions := hodlReverseSubscriptions i; reg_sent := reg_sent i;
     invoiceEvents := invoiceEvents i; nextClientID := next; notificationClients := clients;
     singleNotificationClients := singles; autoReleaseHeap := autoReleaseHeap i;
     timestampExpiryQueue := timestampExpiryQueue i; blockExpiryQueue := blockExpiryQueue i;
     watcher_height := watcher_height i |}.

Definition with_heap (i : registry) (l : list htlcReleaseEvent) : registry :=
  {| reg_db := reg_db i; hodlSubscriptions := hodlSubscriptions i;
     hodlReverseSubscriptions := hodlReverseSubscriptions i; reg_sent := reg_sent i;
     invoiceEvents := invoiceEvents i; nextClientID := nextClientID i;
     notificationClients := notificationClients i;
     singleNotificationClients := singleNotificationClients i; autoReleaseHeap := l;
     timestampExpiryQueue := timestampExpiryQueue i; blockExpiryQueue := blockExpiryQueue i;
     watcher_height := watcher_height i |}.

Definition with_watcher (i : registry) (ts : list invoiceExpiryTs) (hs : list invoiceExpiryHeight)
    (height : Z) : registry :=
  {| reg_db := reg_db i; hodlSubscriptions := hodlSubscriptions i;
     hodlReverseSubscriptions := hodlReverseSubscriptions i; reg_sent := reg_sent i;
     invoiceEvents := invoiceEvents i; nextClientID := nextClientID i;
     notificationClients := notificationClients i;
     singleNotificationClients := singleNotificationClients i; autoReleaseHeap := autoReleaseHeap i;
     timestampExpiryQueue := ts; blockExpiryQueue := hs; watcher_height := height |}.

Definition NewRegistry (db : invoices_db) (startHeight : Z) : registry :=
  {| reg_db := db; hodlSubscriptions := ∅; hodlReverseSubscriptions := ∅; reg_sent := [];
     invoiceEvents := []; nextClientID := 0; notificationClients := ∅;
     singleNotificationClients := ∅; autoReleaseHeap := []; timestampExpiryQueue := [];
     blockExpiryQueue := []; watcher_height := startHeight |}.

(** ** Times *)

Definition nanos (t : Time) : Z :=
  match t with ZeroTime => - unixToInternal * 10 ^ 9 | UnixNano ns => ns end.

Definition time_Add (t : Time) (d : Z) : Time :=
  let ns := nanos t + d in if ns =? nanos ZeroTime then ZeroTime else UnixNano ns.

Definition Before (t u : Time) : bool := nanos t <? nanos u.

(** ** The expiry watcher *)

Definition DefaultInvoiceExpiry : Z := 3600 * 10 ^ 9.

Definition makeTimestampExpiry (paymentHash : list byte) (invoice : Invoice) : option invoiceExpiryTs :=
  if negb (inv_State invoice =? ContractOpen) then None
  else
    let realExpiry := if term_Expiry (Terms invoice) =? 0 then DefaultInvoiceExpiry
                      else term_Expiry (Terms invoice) in
    Some {| ts_PaymentHash := paymentHash; ts_Expiry := time_Add (CreationDate invoice) realExpiry;
            ts_Keysend := bool_decide (inv_PaymentRequest invoice = []) |}.

Definition makeHeightExpiry (paymentHash : list byte) (minHeight : Z) : option invoiceExpiryHeight :=
  if minHeight =? 0 then None
  else Some {| eh_paymentHash := paymentHash; eh_expiryHeight := minHeight |}.

Definition min_height (l : list (CircuitKey * InvoiceHTLC)) : Z :=
  foldl (fun minHeight kh =>
    if negb (htlc_State kh.2 =? HtlcStateAccepted) then minHeight
    else if (minHeight =? 0) || (htlc_Expiry kh.2 <? minHeight) then htlc_Expiry kh.2
    else minHeight) 0 l.

Definition makeInvoiceExpiry (paymentHash : list byte) (invoice : Invoice) : option invoiceExpiry :=
  if inv_State invoice =? ContractOpen then ExpiryTs <$> makeTimestampExpiry paymentHash invoice
  else if inv_State invoice =? ContractAccepted then
    if negb (HodlInvoice invoice) then None
    else ExpiryHeight <$> makeHeightExpiry paymentHash (min_height (range (Htlcs invoice)))
  else None.

Definition expired (b : invoiceExpiryHeight) (currentHeight delta : Z) : bool :=
  eh_expiryHeight b <=? u32 (currentHeight + delta).

Definition pushInvoice (i : registry) (e : invoiceExpiry) : registry :=
  match e with
  | ExpiryTs e => with_watcher i (timestampExpiryQueue i ++ [e]) (blockExpiryQueue i) (watcher_height i)
  | ExpiryHeight e => with_watcher i (timestampExpiryQueue i) (blockExpiryQueue i ++ [e]) (watcher_height i)
  end.

Definition pushInvoices (i : registry) (l : list invoiceExpiry) : registry := foldl pushInvoice i l.

Definition push_expiry (i : registry) (e : option invoiceExpiry) : registry :=
  match e with Some e => pushInvoice i e | None => i end.

(** ** Subscriptions of links *)

Definition notifyHodlSubscribers (i : registry) (r : HtlcResolution) : registry :=
  let key := resolution_key r in
  match hodlSubscriptions i !! key with
  | None => i
  | Some subscribers =>
      let l := range_set subscribers in
      with_hodl i (base.delete key (hodlSubscriptions i))
        (foldl (fun m s => alter (fun ks => ks ∖ {[ key ]}) s m) (hodlReverseSubscriptions i) l)
        (reg_sent i ++ ((fun s => (s, r)) <$> l))
  end.

Definition hodlSubscribe (i : registry) (subscriber : Z) (circuitKey : CircuitKey) : registry :=
  with_hodl i
    (<[circuitKey := {[ subscriber ]} ∪ default ∅ (hodlSubscriptions i !! circuitKey)]>
       (hodlSubscriptions i))
    (<[subscriber := {[ circuitKey ]} ∪ default ∅ (hodlReverseSubscriptions i !! subscriber)]>
       (hodlReverseSubscriptions i))
    (reg_sent i).

Definition HodlUnsubscribeAll (i : registry) (subscriber : Z) : registry :=
  let hashes := default ∅ (hodlReverseSubscriptions i !! subscriber) in
  with_hodl i
    (foldl (fun m key => alter (fun s => s ∖ {[ subscriber ]}) key m) (hodlSubscriptions i)
       (range_set hashes))
    (base.delete subscriber (hodlReverseSubscriptions i)) (reg_sent i).

(** ** Notifications of clients *)

Definition notifyClients (i : registry) (hash : list byte) (invoice : Invoice) (id : option (list byte))
    : registry :=
  with_events i (invoiceEvents i ++
    [InvoiceEvent {| ev_hash := Some hash; ev_invoice := invoice; ev_setID := id |}]).

Definition dispatchToSingleClients (singles : gmap Z SingleInvoiceSubscription) (event : invoiceEvent)
    : gmap Z SingleInvoiceSubscription :=
  (fun c => if bool_decide (is_Some (ref_payHash (single_ref c))) &&
               bool_decide (ref_payHash (single_ref c) = ev_hash event)
            then {| single_ref := single_ref c; single_queue := single_queue c ++ [event] |}
            else c) <$> singles.

(** What a client that is told of every invoice makes of an event. *)
Definition dispatchToClient (c : InvoiceSubscription) (event : invoiceEvent) : InvoiceSubscription :=
  let invoice := ev_invoice event in
  let state := inv_State invoice in
  if (state =? ContractSettled) && (SettleIndex invoice <=? sub_settleIndex c) then c
  else if bool_decide (ev_setID event = None) && (state =? ContractOpen) &&
          (AddIndex invoice <=? sub_addIndex c) then c
  else
    let queue := sub_queue c ++ [{| ev_hash := None; ev_invoice := invoice; ev_setID := ev_setID event |}] in
    if state =? ContractSettled then
      {| sub_addIndex := sub_addIndex c; sub_settleIndex := SettleIndex invoice; sub_queue := queue |}
    else if state =? ContractOpen then
      match ev_setID event with
      | None => {| sub_addIndex := AddIndex invoice; sub_settleIndex := sub_settleIndex c;
                   sub_queue := queue |}
      | Some id =>
          {| sub_addIndex := sub_addIndex c;
             sub_settleIndex := match AMPState invoice !! id with
                                | Some s => amp_SettleIndex s | None => 0 end;
             sub_queue := queue |}
      end
    else {| sub_addIndex := sub_addIndex c; sub_settleIndex := sub_settleIndex c; sub_queue := queue |}.

(** One run of the event loop over what [invoiceEvents] carries. *)
Definition handle_event (i : registry) : registry :=
  match invoiceEvents i with
  | [] => i
  | InvoiceEvent e :: rest =>
      let state := inv_State (ev_invoice e) in
      let clients := if (state =? ContractCanceled) || (state =? ContractAccepted)
                     then notificationClients i
                     else (fun c => dispatchToClient c e) <$> notificationClients i in
      with_clients (with_events i rest) (nextClientID i) clients
        (dispatchToSingleClients (singleNotificationClients i) e)
  | NewSingleSubscription id s :: rest =>
      with_clients (with_events i rest) (nextClientID i) (notificationClients i)
        (<[id := s]> (singleNotificationClients i))
  end.

Definition deliverBacklogEvents (i : registry) (client : InvoiceSubscription) : res InvoiceSubscription :=
  addEvents ← InvoicesAddedSince (reg_db i) (sub_addIndex client);
  settleEvents ← InvoicesSettledSince (reg_db i) (sub_settleIndex client);
  Ok {| sub_addIndex := sub_addIndex client; sub_settleIndex := sub_settleIndex client;
        sub_queue := sub_queue client ++
          ((fun inv => {| ev_hash := None; ev_invoice := inv; ev_setID := None |}) <$>
             (addEvents ++ settleEvents)) |}.

(** A new client, with the events it missed; it is registered by the event loop. *)
Definition SubscribeNotifications (i : registry) (addIndex settleIndex : Z)
    : res (registry * Z * InvoiceSubscription) :=
  client ← deliverBacklogEvents i
    {| sub_addIndex := addIndex; sub_settleIndex := settleIndex; sub_queue := [] |};
  Ok (with_clients i (u32 (nextClientID i + 1)) (notificationClients i) (singleNotificationClients i),
      nextClientID i, client).

Definition register_client (i : registry) (id : Z) (client : InvoiceSubscription) : registry :=
  with_clients i (nextClientID i) (<[id := client]> (notificationClients i)) (singleNotificationClients i).

Definition cancel_client (i : registry) (id : Z) : registry :=
  with_clients i (nextClientID i) (base.delete id (notificationClients i))
    (base.delete id (singleNotificationClients i)).

Definition deliverSingleBacklogEvents (i : registry) (client : SingleInvoiceSubscription)
    : res SingleInvoiceSubscription :=
  match LookupInvoice (reg_db i) (single_ref client) with
  | Ok invoice =>
      match ref_payHash (single_ref client) with
      | None => Ok client
      | Some payHash =>
          Ok {| single_ref := single_ref client;
                single_queue := single_queue client ++
                  [{| ev_hash := Some payHash; ev_invoice := invoice; ev_setID := None |}] |}
      end
  | Err e =>
      if bool_decide (e = ErrInvoiceNotFound) || bool_decide (e = ErrNoInvoicesCreated)
      then Ok client else Err e
  | Panic => Panic
  end.

Definition SubscribeSingleInvoice (i : registry) (hash : list byte) : res registry :=
  client ← deliverSingleBacklogEvents i {| single_ref := InvoiceRefByHash hash; single_queue := [] |};
  Ok (with_clients (with_events i (invoiceEvents i ++ [NewSingleSubscription (nextClientID i) client]))
        (u32 (nextClientID i + 1)) (notificationClients i) (singleNotificationClients i)).

(** ** Operations *)

Definition AddInvoice (i : registry) (invoice : Invoice) (paymentHash : list byte) : res (registry * Invoice) :=
  '(db, invoice) ← Invoices.AddInvoice (reg_db i) invoice paymentHash;
  let i := notifyClients (with_db i db) paymentHash invoice None in
  Ok (push_expiry i (makeInvoiceExpiry paymentHash invoice), invoice).

Definition LookupInvoiceByRef (i : registry) (ref : InvoiceRef) : res Invoice :=
  LookupInvoice (reg_db i) ref.

Definition startHtlcTimer (cfg : RegistryConfig) (i : registry) (ref : InvoiceRef) (key : CircuitKey)
    (acceptTime : Time) : registry :=
  with_heap i (autoReleaseHeap i ++
    [{| rel_invoiceRef := ref; rel_key := key;
        rel_releaseTime := time_Add acceptTime (HtlcHoldDuration cfg) |}]).

Definition errHtlcNotFound : error := Error "htlc not found".

(** The state of an HTLC by the keys of the sub-invoices, and the last set that has it. *)
Definition find_amp_htlc (states : AMPInvoiceState) (key : CircuitKey) : option (Z * list byte) :=
  foldl (fun found kv => if bool_decide (key ∈ InvoiceKeys kv.2) then Some (amp_State kv.2, kv.1) else found)
    None (range states).

Definition cancel_single_callback (key : CircuitKey) (invoice : Invoice)
    : res (option InvoiceUpdateDesc * bool) :=
  if negb (inv_State invoice =? ContractOpen) then Ok (None, false)
  else
    '(htlcState, id) ← (match Htlcs invoice !! key with
                        | Some htlc => Ok (htlc_State htlc, None)
                        | None =>
                            match find_amp_htlc (AMPState invoice) key with
                            | Some (st, id) => Ok (st, Some id)
                            | None => Err errHtlcNotFound
                            end
                        end);
    if negb (htlcState =? HtlcStateAccepted) then Ok (None, false)
    else Ok (Some {| desc_State := None; CancelHtlcs := {[ key ]}; AddHtlcs := ∅; desc_SetID := id |}, true).

Definition cancelSingleHtlc (now : Time) (i : registry) (ref : InvoiceRef) (key : CircuitKey)
    (result : FailResolutionResult) : registry * res unit :=
  match UpdateInvoice now (reg_db i) ref None (cancel_single_callback key) with
  | Err e => (i, Err e)
  | Panic => (i, Panic)
  | Ok (db, invoice, updated) =>
      let i := with_db i db in
      if negb updated then (i, Ok tt)
      else
        match Htlcs invoice !! key with
        | None => (i, Err errHtlcNotFound)
        | Some htlc =>
            (if htlc_State htlc =? HtlcStateCanceled
             then notifyHodlSubscribers i (HtlcFailResolution key (i32 (AcceptHeight htlc)) result)
             else i, Ok tt)
        end
  end.

(** *** Spontaneous payments *)

Definition placeholder (now : Time) (terms : ContractTerm) (hodl : bool) : Invoice :=
  {| Memo := []; inv_PaymentRequest := []; CreationDate := now; SettleDate := ZeroTime; Terms := terms;
     AddIndex := 0; SettleIndex := 0; inv_State := ContractOpen; inv_AmtPaid := 0; Htlcs := ∅;
     AMPState := ∅; HodlInvoice := hodl |}.

Definition errKeysendPreimage : error := Error "invalid keysend preimage".
Definition errKeysendMpp : error := Error "no mpp keysend supported".
Definition errFinalExpiry : error := Error "final expiry too soon".
Definition errAmpMpp : error := Error "no MPP record for AMP".

(** The writes of the transaction of an error are discarded. *)
Definition ignoring {A} (errs : list error) (i : registry) (r : res (registry * A)) : res registry :=
  match r with
  | Ok (i', _) => Ok i'
  | Err e => if bool_decide (e ∈ errs) then Ok i else Err e
  | Panic => Panic
  end.

Definition processKeySend (cfg : RegistryConfig) (now : Time) (i : registry) (ctx : invoiceUpdateCtx)
    : res registry :=
  match m ← ctx_customRecords ctx; m !! KeySendType with
  | None => Ok i
  | Some preimage =>
      if negb ((length preimage =? 32)%nat && bool_decide (digest preimage = ctx_hash ctx))
      then Err errKeysendPreimage
      else if bool_decide (is_Some (ctx_mpp ctx)) then Err errKeysendMpp
      else if too_soon ctx (FinalCltvRejectDelta cfg) then Err errFinalExpiry
      else
        let hold := negb (KeysendHoldTime cfg =? 0) in
        let invoice := placeholder now
          {| FinalCltvDelta := FinalCltvRejectDelta cfg;
             term_Expiry := if hold then KeysendHoldTime cfg else 0;
             PaymentPreimage := Some preimage; term_Value := ctx_amtPaid ctx;
             PaymentAddr := BlankPayAddr;
             term_Features := Some (NewRawFeatureVector [TLVOnionPayloadOptional]) |} hold in
        ignoring [ErrDuplicateInvoice] i (AddInvoice i invoice (ctx_hash ctx))
  end.

Definition processAMP (cfg : RegistryConfig) (now : Time) (i : registry) (ctx : invoiceUpdateCtx)
    : res registry :=
  match ctx_mpp ctx with
  | None => Err errAmpMpp
  | Some mpp =>
      if too_soon ctx (FinalCltvRejectDelta cfg) then Err errFinalExpiry
      else
        let invoice := placeholder now
          {| FinalCltvDelta := FinalCltvRejectDelta cfg; term_Expiry := 0; PaymentPreimage := None;
             term_Value := totalMAtoms mpp; PaymentAddr := paymentAddr mpp;
             term_Features := Some (NewRawFeatureVector
               [TLVOnionPayloadOptional; PaymentAddrOptional; AMPRequired]) |} false in
        ignoring [ErrDuplicateInvoice; ErrDuplicatePayAddr] i (AddInvoice i invoice (ctx_hash ctx))
  end.

(** *** An HTLC arrives *)

Definition errAcceptedMissing : error := Error "accepted htlc not present on invoice".

Definition notify_all (i : registry) (l : list HtlcResolution) : registry :=
  foldl notifyHodlSubscribers i l.

Definition fail_notices (set : gmap CircuitKey InvoiceHTLC) (outcome : FailResolutionResult)
    : list HtlcResolution :=
  (fun kh => HtlcFailResolution kh.1 (i32 (AcceptHeight kh.2)) outcome) <$> range set.

Definition settle_notices (set : gmap CircuitKey InvoiceHTLC) (preimage : list byte)
    (outcome : SettleResolutionResult) : list HtlcResolution :=
  (fun kh => HtlcSettleResolution (default preimage (a ← htlc_AMP kh.2; amp_Preimage a)) kh.1
               (i32 (AcceptHeight kh.2)) outcome) <$> range set.

Definition htlc_callback (ctx : invoiceUpdateCtx) (inv : Invoice)
    : res (option InvoiceUpdateDesc * (HtlcResolution * bool)) :=
  '(updateDesc, r) ← updateInvoice ctx inv;
  Ok (updateDesc, (r, match updateDesc with
                      | Some d => bool_decide (is_Some (desc_State d))
                      | None => false
                      end)).

(** The links are told of what became of their HTLCs. *)
Definition resolve (i : registry) (ctx : invoiceUpdateCtx) (hodlChan : Z) (invoice : Invoice)
    (r : HtlcResolution) : registry * res (HtlcResolution * option invoiceExpiry) :=
  let id := ctx_setID ctx in
  match r with
  | HtlcFailResolution key height outcome =>
      let height := match Htlcs invoice !! ctx_circuitKey ctx with
                    | Some h => i32 (AcceptHeight h) | None => height end in
      (if IsSetFailure outcome
       then notify_all i (fail_notices (HTLCSet invoice id HtlcStateCanceled) outcome) else i,
       Ok (HtlcFailResolution key height outcome, None))
  | HtlcSettleResolution preimage key height outcome =>
      let i := notify_all i (settle_notices (HTLCSet invoice id HtlcStateSettled) preimage outcome) in
      (notify_all i (fail_notices (HTLCSetCompliment invoice id HtlcStateCanceled)
                       ResultInvoiceAlreadySettled), Ok (r, None))
  | htlcAcceptResolution key _ outcome =>
      match Htlcs invoice !! ctx_circuitKey ctx with
      | None => (i, Err errAcceptedMissing)
      | Some h =>
          let release := if inv_State invoice =? ContractOpen then Some (AcceptTime h) else None in
          let expiry := if bool_decide (outcome = resultAccepted)
                        then makeInvoiceExpiry (ctx_hash ctx) invoice else None in
          (hodlSubscribe i hodlChan (ctx_circuitKey ctx), Ok (htlcAcceptResolution key release outcome, expiry))
      end
  end.

Definition notifyExitHopHtlcLocked (now : Time) (i : registry) (ctx : invoiceUpdateCtx) (hodlChan : Z)
    : registry * res (HtlcResolution * option invoiceExpiry) :=
  match UpdateInvoice now (reg_db i) (invoiceRef ctx) (ctx_setID ctx) (htlc_callback ctx) with
  | Err e => (i, if bool_decide (e = ErrInvoiceNotFound)
                 then Ok (failRes ctx ResultInvoiceNotFound, None) else Err e)
  | Panic => (i, Panic)
  | Ok (db, invoice, (r, updateSubscribers)) =>
      match resolve (with_db i db) ctx hodlChan invoice r with
      | (i, Ok (r, invoiceToExpire)) =>
          (if updateSubscribers : bool
           then notifyClients i (ctx_hash ctx) invoice
                  (match r with HtlcSettleResolution _ _ _ _ => ctx_setID ctx | _ => None end)
           else i, Ok (r, invoiceToExpire))
      | (i, e) => (i, e)
      end
  end.

Definition exit_ctx (cfg : RegistryConfig) (rHash : list byte) (amtPaid expiry currentHeight : Z)
    (circuitKey : CircuitKey) (customRecords : option (gmap Z (list byte))) (mpp : option MPP)
    (amp : option AMP) : invoiceUpdateCtx :=
  {| ctx_hash := rHash; ctx_circuitKey := circuitKey; ctx_amtPaid := amtPaid; ctx_expiry := expiry;
     ctx_currentHeight := currentHeight; ctx_finalCltvRejectDelta := FinalCltvRejectDelta cfg;
     ctx_customRecords := customRecords; ctx_mpp := mpp; ctx_amp := amp |}.

(** The invoice of a spontaneous payment is created before the lock is taken. *)
Definition process_spontaneous (cfg : RegistryConfig) (now : Time) (i : registry) (ctx : invoiceUpdateCtx)
    : res (registry + HtlcResolution) :=
  let check r outcome := match r with
    | Ok i => Ok (inl i) | Err _ => Ok (inr (failRes ctx outcome)) | Panic => Panic end in
  if AcceptAMP cfg && bool_decide (is_Some (ctx_amp ctx))
  then check (processAMP cfg now i ctx) ResultAmpError
  else if AcceptKeySend cfg && negb (bool_decide (is_Some (ctx_amp ctx)))
  then check (processKeySend cfg now i ctx) ResultKeySendError
  else Ok (inl i).

(** A nil resolution stands for an HTLC that is held. *)
Definition finish_exit_hop (cfg : RegistryConfig) (i : registry) (ctx : invoiceUpdateCtx)
    (r : HtlcResolution) (invoiceToExpire : option invoiceExpiry) : registry * option HtlcResolution :=
  let i := push_expiry i invoiceToExpire in
  match r with
  | htlcAcceptResolution _ release _ =>
      (match release with
       | Some acceptTime => startHtlcTimer cfg i (invoiceRef ctx) (ctx_circuitKey ctx) acceptTime
       | None => i
       end, None)
  | _ => (i, Some r)
  end.

Definition NotifyExitHopHtlc (cfg : RegistryConfig) (now : Time) (i : registry) (ctx : invoiceUpdateCtx)
    (hodlChan : Z) : registry * res (option HtlcResolution) :=
  match process_spontaneous cfg now i ctx with
  | Ok (inr fail) => (i, Ok (Some fail))
  | Ok (inl i) =>
      match notifyExitHopHtlcLocked now i ctx hodlChan with
      | (i, Ok (r, invoiceToExpire)) =>
          let '(i, o) := finish_exit_hop cfg i ctx r invoiceToExpire in (i, Ok o)
      | (i, Err e) => (i, Err e)
      | (i, Panic) => (i, Panic)
      end
  | Err e => (i, Err e)
  | Panic => (i, Panic)
  end.

(** *** Settling and canceling *)

Definition settle_hodl_callback (preimage : list byte) (invoice : Invoice)
    : res (option InvoiceUpdateDesc * unit) :=
  if inv_State invoice =? ContractOpen then Err ErrInvoiceStillOpen
  else if inv_State invoice =? ContractCanceled then Err ErrInvoiceAlreadyCanceled
  else if inv_State invoice =? ContractSettled then Err ErrInvoiceAlreadySettled
  else Ok (Some {| desc_State := Some {| NewState := ContractSettled; upd_Preimage := Some preimage;
                                         HTLCPreimages := ∅; upd_SetID := None |};
                   CancelHtlcs := ∅; AddHtlcs := ∅; desc_SetID := None |}, tt).

Definition in_state (i : Invoice) (state : Z) : gmap CircuitKey InvoiceHTLC :=
  base.filter (fun kh => htlc_State kh.2 = state) (Htlcs i).

Definition SettleHodlInvoice (now : Time) (i : registry) (preimage : list byte) : registry * res unit :=
  let hash := digest preimage in
  match UpdateInvoice now (reg_db i) (InvoiceRefByHash hash) None (settle_hodl_callback preimage) with
  | Err e => (i, Err e)
  | Panic => (i, Panic)
  | Ok (db, invoice, _) =>
      let notices := (fun kh => HtlcSettleResolution preimage kh.1 (i32 (AcceptHeight kh.2)) ResultSettled)
                       <$> range (in_state invoice HtlcStateSettled) in
      (notifyClients (notify_all (with_db i db) notices) hash invoice None, Ok tt)
  end.

Definition shouldCancel (state : Z) (cancelAccepted : bool) : bool :=
  if negb (state =? ContractAccepted) then true else cancelAccepted.

Definition cancel_callback (cancelAccepted : bool) (invoice : Invoice)
    : res (option InvoiceUpdateDesc * unit) :=
  if negb (shouldCancel (inv_State invoice) cancelAccepted) then Ok (None, tt)
  else Ok (Some {| desc_State := Some {| NewState := ContractCanceled; upd_Preimage := None;
                                         HTLCPreimages := ∅; upd_SetID := None |};
                   CancelHtlcs := ∅; AddHtlcs := ∅; desc_SetID := None |}, tt).

Definition delete_ref (payHash : list byte) (invoice : Invoice) : InvoiceDeleteRef :=
  {| del_PayHash := payHash;
     del_PayAddr := if bool_decide (PaymentAddr (Terms invoice) = BlankPayAddr) then None
                    else Some (PaymentAddr (Terms invoice));
     del_AddIndex := AddIndex invoice; del_SettleIndex := SettleIndex invoice |}.

(** A deletion that fails is logged. *)
Definition try_delete (i : registry) (refs : list InvoiceDeleteRef) : registry * res unit :=
  match DeleteInvoice (reg_db i) refs with
  | Ok db => (with_db i db, Ok tt)
  | Err _ => (i, Ok tt)
  | Panic => (i, Panic)
  end.

Definition cancelInvoiceImpl (cfg : RegistryConfig) (now : Time) (i : registry) (payHash : list byte)
    (cancelAccepted : bool) : registry * res unit :=
  match UpdateInvoice now (reg_db i) (InvoiceRefByHash payHash) None (cancel_callback cancelAccepted) with
  | Err e => (i, if bool_decide (e = ErrInvoiceAlreadyCanceled) then Ok tt else Err e)
  | Panic => (i, Panic)
  | Ok (db, invoice, _) =>
      let i := with_db i db in
      if inv_State invoice =? ContractAccepted then (i, Ok tt)
      else
        let i := notify_all i (fail_notices (in_state invoice HtlcStateCanceled) ResultCanceled) in
        let i := notifyClients i payHash invoice None in
        if GcCanceledInvoicesOnTheFly cfg then try_delete i [delete_ref payHash invoice] else (i, Ok tt)
  end.

Definition CancelInvoice (cfg : RegistryConfig) (now : Time) (i : registry) (payHash : list byte)
    : registry * res unit :=
  cancelInvoiceImpl cfg now i payHash true.

(** *** Start *)

Definition scan_invoice (cfg : RegistryConfig) (kv : list byte * Invoice)
    (acc : list invoiceExpiry * list InvoiceDeleteRef)
    : res (list invoiceExpiry * list InvoiceDeleteRef) :=
  let '(pending, removable) := acc in
  let '(paymentHash, invoice) := kv in
  if IsPending invoice then
    Ok (match makeInvoiceExpiry paymentHash invoice with
        | Some e => pending ++ [e] | None => pending end, removable)
  else if GcCanceledInvoicesOnStartup cfg && (inv_State invoice =? ContractCanceled)
  then Ok (pending, removable ++ [delete_ref paymentHash invoice])
  else Ok (pending, removable).

Definition scanInvoicesOnStart (cfg : RegistryConfig) (i : registry) : registry * res unit :=
  match ScanInvoices (reg_db i) (scan_invoice cfg) ([], []) with
  | Err e => (i, Err e)
  | Panic => (i, Panic)
  | Ok (pending, removable) =>
      let i := pushInvoices i pending in
      match removable with [] => (i, Ok tt) | _ => try_delete i removable end
  end.

(** *** The event loop and the watcher *)

(** The top of a priority queue: no other item comes before it. *)
Definition is_top {A} (less : A -> A -> bool) (l : list A) (pos : nat) : bool :=
  match l !! pos with Some a => forallb (fun b => negb (less b a)) l | None => false end.

Definition release_less (a b : htlcReleaseEvent) : bool := Before (rel_releaseTime a) (rel_releaseTime b).
Definition ts_less (a b : invoiceExpiryTs) : bool := Before (ts_Expiry a) (ts_Expiry b).
Definition height_less (a b : invoiceExpiryHeight) : bool := eh_expiryHeight a <? eh_expiryHeight b.

(** The timer of the item at [pos], which is at the top of the heap, has fired; an error
    of the cancellation is logged. *)
Definition auto_release (now : Time) (i : registry) (pos : nat) : option registry :=
  match autoReleaseHeap i !! pos with
  | None => None
  | Some event =>
      if negb (is_top release_less (autoReleaseHeap i) pos) then None
      else if Before now (rel_releaseTime event) then None
      else
        match cancelSingleHtlc now (with_heap i (list_delete pos (autoReleaseHeap i)))
                (rel_invoiceRef event) (rel_key event) ResultMppTimeout with
        | (i, Panic) => None
        | (i, _) => Some i
        end
  end.

(** An error of the cancellation is logged at most. *)
Definition expireInvoice (cfg : RegistryConfig) (now : Time) (i : registry) (hash : list byte) (force : bool)
    : option registry :=
  match cancelInvoiceImpl cfg now i hash force with (i, Panic) => None | (i, _) => Some i end.

Definition cancelNextExpiredInvoice (cfg : RegistryConfig) (now : Time) (i : registry) (pos : nat)
    : option registry :=
  match timestampExpiryQueue i !! pos with
  | None => None
  | Some top =>
      if negb (is_top ts_less (timestampExpiryQueue i) pos) then None
      else if negb (Before (ts_Expiry top) now) then None
      else
        i ← expireInvoice cfg now i (ts_PaymentHash top) (ts_Keysend top);
        Some (with_watcher i (list_delete pos (timestampExpiryQueue i)) (blockExpiryQueue i)
                (watcher_height i))
  end.

Definition cancelNextHeightExpiredInvoice (cfg : RegistryConfig) (now : Time) (i : registry) (pos : nat)
    : option registry :=
  match blockExpiryQueue i !! pos with
  | None => None
  | Some top =>
      if negb (is_top height_less (blockExpiryQueue i) pos) then None
      else if negb (expired top (watcher_height i) (blockExpiryDelta cfg)) then None
      else
        i ← expireInvoice cfg now i (eh_paymentHash top) true;
        Some (with_watcher i (timestampExpiryQueue i) (list_delete pos (blockExpiryQueue i))
                (watcher_height i))
  end.

Definition new_block (i : registry) (height : Z) : registry :=
  with_watcher i (timestampExpiryQueue i) (blockExpiryQueue i) (u32 height).

End Registry.
