(* ===== verification/InvoiceDbInv.v ===== *)
(** * The invariant of the invoice database

    What is stored can be traced to the HTLCs that arrived: every stored invoice reads back,
    carries the preimage of its hash, and accounts for its HTLCs; every update that the
    registry asks for keeps this. *)

From S2P Require Import Prelude Sha256 Ids Tlv Features PaymentCodec Amp Payments InvoiceCodec InvoiceCodecInv Invoices InvoiceInv InvoiceRegistry.

Section Database.
Context `{Hasher} `{Secp256k1} `{GoRange} `{TimeZone} `{WireVarInt}.

(** ** The invariant *)

(** The payment hash of an HTLC that pays the invoice with the hash [hash]. *)
Definition htlc_hash (hash : list byte) (h : InvoiceHTLC) : list byte :=
  default hash (amp_Hash <$> htlc_AMP h).

(** [arrived] has the payment hash of every HTLC the links have presented. *)
Record held_ok (arrived : gmap CircuitKey (list byte)) (hash : list byte) (k : CircuitKey)
    (h : InvoiceHTLC) : Prop := {
  ho_hash : arrived !! k = Some (htlc_hash hash h);
  ho_preimage : forall a, htlc_AMP h = Some a -> htlc_State h = HtlcStateSettled ->
    exists p, amp_Preimage a = Some p /\ digest p = amp_Hash a;
}.

Record invoice_ok (arrived : gmap CircuitKey (list byte)) (hash : list byte) (i : Invoice) : Prop := {
  io_wf : wf_invoice i;
  io_bit : is_amp_invoice i = RequiresFeature (features_of i) AMPRequired;
  io_preimage : forall p, PaymentPreimage (Terms i) = Some p -> digest p = hash;
  io_mpp : is_amp_invoice i = false -> mpp_ok i;
  io_amp : is_amp_invoice i = true -> PaymentPreimage (Terms i) = None /\
    (inv_State i = ContractOpen \/ inv_State i = ContractCanceled);
  io_htlcs : map_Forall (held_ok arrived hash) (Htlcs i);
}.

Definition hashes (db : invoices_db) : gmap (list byte) Z :=
  match invoiceIndex db with Some ix => pay_hashes ix | None => ∅ end.

Definition counter (db : invoices_db) : Z :=
  match invoiceIndex db with Some ix => default 0 (num_invoices ix) | None => 0 end.

Record db_ok (arrived : gmap CircuitKey (list byte)) (db : invoices_db) : Prop := {
  dk_hash : forall h n, hashes db !! h = Some n -> 0 <= n < counter db;
  dk_counter : 0 <= counter db;
  dk_inj : forall h h' n, hashes db !! h = Some n -> hashes db !! h' = Some n -> h = h';
  dk_invoices : forall n b, invoice_bytes db !! n = Some b ->
    exists h i, hashes db !! h = Some n /\ serializeInvoice i = Ok b /\ invoice_ok arrived h i;
  dk_sets : forall n id b, set_bytes db !! (n, id) = Some b ->
    exists h m, hashes db !! h = Some n /\ serializeHtlcs m = Ok b /\ wf_htlcs m /\
      map_Forall (held_ok arrived h) m;
}.

Lemma held_ok_mono arrived arrived' h k x : arrived ⊆ arrived' -> held_ok arrived h k x -> held_ok arrived' h k x.
Proof. intros Hs []. split; [|done]. by eapply lookup_weaken. Qed.

Lemma invoice_ok_mono arrived arrived' h i : arrived ⊆ arrived' -> invoice_ok arrived h i -> invoice_ok arrived' h i.
Proof.
  intros Hs []. split; try done. eapply map_Forall_impl; [exact io_htlcs0|].
  intros k x. by apply held_ok_mono.
Qed.

Lemma db_ok_mono arrived arrived' db : arrived ⊆ arrived' -> db_ok arrived db -> db_ok arrived' db.
Proof.
  intros Hs [? ? ? Hi Hst]. split; try done.
  - intros n b Hb. destruct (Hi n b Hb) as (h & i & Hh & Hser & Hok). exists h, i. split_and!; try done.
    by eapply invoice_ok_mono.
  - intros n id b Hb. destruct (Hst n id b Hb) as (h & m & Hh & Hser & Hw & Hok). exists h, m. split_and!; try done.
    eapply map_Forall_impl; [exact Hok|]. intros k x. by apply held_ok_mono.
Qed.

(** ** Reading *)

Lemma invoice_ok_with_htlcs arrived h i m :
  invoice_ok arrived h i -> is_amp_invoice i = true -> wf_htlcs m -> map_Forall (held_ok arrived h) m ->
  invoice_ok arrived h (with_htlcs i m).
Proof.
  intros [[] Hbit Hpre Hmpp Ho _] Hamp Hw Hm. split; try done.
  change (is_amp_invoice (with_htlcs i m)) with (is_amp_invoice i). congruence.
Qed.

Lemma invoice_ok_stored arrived h i : invoice_ok arrived h i -> invoice_ok arrived h (as_stored i).
Proof.
  intros Hok. unfold as_stored. destruct (is_amp_invoice i) eqn:Ea; [|done].
  apply (invoice_ok_with_htlcs arrived h i ∅ Hok Ea); apply map_Forall_empty.
Qed.

Lemma fetchFiltered_ok arrived db n h ids m r :
  db_ok arrived db -> hashes db !! h = Some n -> fetchFilteredAmpInvoices db n ids = (m, r) ->
  wf_htlcs m /\ map_Forall (held_ok arrived h) m.
Proof.
  intros Hdb Hh. unfold fetchFilteredAmpInvoices.
  assert (forall acc, (wf_htlcs acc.1 /\ map_Forall (held_ok arrived h) acc.1) -> forall ids,
    let x := foldl (fun '(htlcs, r) id =>
      match r with
      | Ok _ => match set_bytes db !! (n, id) with
                | None => (htlcs, Err ErrInvoiceNotFound)
                | Some b => match deserializeHtlcs b with
                            | Ok htlcsBySetID => (htlcsBySetID ∪ htlcs, Ok tt)
                            | Err e => (∅, Err e)
                            | Panic => (∅, Panic)
                            end
                end
      | _ => (htlcs, r)
      end) acc ids in wf_htlcs x.1 /\ map_Forall (held_ok arrived h) x.1) as Hgen.
  { intros acc Hacc l. revert acc Hacc. induction l as [|id l IH]; intros acc Hacc; [done|].
    cbn [foldl]. apply IH. destruct acc as [htlcs [[]|e|]]; try done. cbn [fst] in *.
    destruct (set_bytes db !! (n, id)) as [b|] eqn:Eb; [|done].
    destruct (dk_sets _ _ Hdb n id b Eb) as (h' & m' & Hh' & Hser & Hw' & Hok').
    assert (h' = h) as -> by (by eapply (dk_inj _ _ Hdb)).
    rewrite (htlcs_roundtrip m' b Hw' Hser). cbn [fst].
    split; apply map_Forall_union_2; try done; apply Hacc. }
  intros E. specialize (Hgen (∅, Ok tt) ltac:(split; apply map_Forall_empty) ids). cbv zeta in Hgen.
  by rewrite E in Hgen.
Qed.

Lemma set_entries_elem db n id b : (id, b) ∈ set_entries db n -> set_bytes db !! (n, id) = Some b.
Proof.
  unfold set_entries. rewrite merge_sort_Permutation. intros Hin.
  apply list_elem_of_omap in Hin as ([[n' id'] b'] & Hin & E). apply elem_of_map_to_list in Hin.
  destruct (Z.eqb_spec n' n) as [->|]; [|done]. by injection E as <- <-.
Qed.

Lemma fetchAmpSub_ok arrived db n h o m r :
  db_ok arrived db -> hashes db !! h = Some n -> fetchAmpSubInvoices db n o = (m, r) ->
  wf_htlcs m /\ map_Forall (held_ok arrived h) m.
Proof.
  intros Hdb Hh. unfold fetchAmpSubInvoices. destruct o as [id|]; [by apply fetchFiltered_ok|].
  assert (wf_htlcs ∅ /\ map_Forall (held_ok arrived h) (∅ : gmap CircuitKey InvoiceHTLC)) as Hempty by (split; apply map_Forall_empty).
  destruct (forEachAMPInvoice _ _ _ _) as [m0|e|] eqn:E; intros [= <- <-]; try done.
  unfold forEachAMPInvoice in E.
  refine (for_each_ind _ (fun _ m => wf_htlcs m /\ map_Forall (held_ok arrived h) m) _ ∅ m0 Hempty _ E).
  intros pre [id b] post m1 m2 Hl [Hw1 Ho1] (m' & Em & Hm2)%bind_ok. apply Ok_inj in Hm2 as <-.
  assert (set_bytes db !! (n, id) = Some b) as Eb.
  { apply set_entries_elem. rewrite Hl. set_solver. }
  destruct (dk_sets _ _ Hdb n id b Eb) as (h' & m3 & Hh' & Hser & Hw' & Hok').
  assert (h' = h) as -> by (by eapply (dk_inj _ _ Hdb)).
  cbn [snd] in Em. rewrite (htlcs_roundtrip m3 b Hw' Hser) in Em. apply Ok_inj in Em as <-.
  split; by apply map_Forall_union_2.
Qed.

Lemma fetchInvoice_ok arrived db n o i :
  db_ok arrived db -> fetchInvoice db n o = Ok i ->
  exists h, hashes db !! h = Some n /\ invoice_ok arrived h i.
Proof.
  intros Hdb. unfold fetchInvoice. destruct (invoice_bytes db !! n) as [b|] eqn:Eb; [|done].
  destruct (dk_invoices _ _ Hdb n b Eb) as (h & i0 & Hh & Hser & Hok).
  intros (i1 & E1 & Hf)%bind_ok. pose proof (written_invoice_read _ _ _ (io_wf _ _ _ Hok) Hser E1) as ->.
  apply invoice_ok_stored in Hok. exists h. split; [done|].
  destruct (is_amp_invoice (as_stored i0)) eqn:Ea; cbn [negb] in Hf; [|by apply Ok_inj in Hf as <-].
  destruct (negb (bool_decide _)); [by apply Ok_inj in Hf as <-|].
  destruct (bool_decide (o = _)); [by apply Ok_inj in Hf as <-|].
  destruct (fetchAmpSubInvoices db n o) as [m r] eqn:Em.
  destruct (fetchAmpSub_ok arrived db n h o m r Hdb Hh Em) as [Hw Hm].
  destruct r; [..|discriminate]; apply Ok_inj in Hf as <-; apply invoice_ok_with_htlcs; assumption.
Qed.

(** ** Updating *)

Record update_ok (now : Time) (arrived : gmap CircuitKey (list byte)) (hash : list byte) (i : Invoice)
    (update : InvoiceUpdateDesc) : Prop := {
  uk_wf : wf_update now update;
  uk_mpp : is_amp_invoice i = false -> mpp_desc now i update;
  uk_amp : is_amp_invoice i = true -> forall sd, desc_State update = Some sd -> upd_Preimage sd = None;
  uk_adds : forall k d, AddHtlcs update !! k = Some d ->
    arrived !! k = Some (default hash (amp_Hash <$> desc_AMP d));
}.

Lemma htlc_hash_resolve hash h s t : htlc_hash hash (resolve_htlc h s t) = htlc_hash hash h.
Proof. done. Qed.

Lemma htlc_hash_preimage hash h p : htlc_hash hash (with_amp_preimage h p) = htlc_hash hash h.
Proof. unfold htlc_hash. simpl. by destruct (htlc_AMP h). Qed.

Lemma held_changed now arrived hash i update k h :
  map_Forall (held_ok arrived hash) (Htlcs i) ->
  (forall k d, AddHtlcs update !! k = Some d -> arrived !! k = Some (default hash (amp_Hash <$> desc_AMP d))) ->
  changed_htlcs now i update !! k = Some h -> held_ok arrived hash k h.
Proof.
  intros Hh Ha Hk. unfold changed_htlcs in Hk. rewrite map_lookup_imap in Hk.
  apply bind_Some in Hk as (h0 & Hk & [= <-]).
  assert (held_ok arrived hash k h0) as [Hhash Hpre].
  { apply lookup_union_Some_raw in Hk as [Hk|[_ Hk]]; [|by apply Hh].
    unfold accept_map in Hk. rewrite lookup_fmap in Hk. apply fmap_Some in Hk as (d & Hd & ->).
    split; [by apply Ha|done]. }
  unfold canceled_entry. case_bool_decide; [|by split]. by split.
Qed.

Lemma held_align now arrived hash update sid state k h h' b :
  held_ok arrived hash k h -> align_entry now update sid state k h = Ok (h', b) -> held_ok arrived hash k h'.
Proof.
  intros [Hhash Hpre] (h1 & E1 & E2)%bind_ok.
  assert (held_ok arrived hash k h1) as [Hhash1 Hpre1].
  { destruct sid; [|injection E1 as <-; by split]. destruct (desc_State update) as [sd|]; [|injection E1 as <-; by split].
    apply set_htlc_preimage_ok in E1 as [->|(p & a & _ & Ha & Hp & ->)]; [by split|].
    split; [by rewrite htlc_hash_preimage|]. simpl. intros a' _ Hs. destruct (Hpre a Ha Hs) as (? & ? & _). congruence. }
  apply updateHtlc_ok in E2 as [->|[[-> _]|(-> & _ & _ & Hin & Hp)]]; [by split|by split|].
  split; [done|]. simpl. intros a Ha _. apply Hp; [|done]. intros ->. unfold IsInHTLCSet in Hin. by rewrite Ha in Hin.
Qed.

Lemma held_applied now db n hp arrived hash i update st state p d x m paid amp :
  map_Forall (held_ok arrived hash) (Htlcs i) ->
  (forall k d, AddHtlcs update !! k = Some d -> arrived !! k = Some (default hash (amp_Hash <$> desc_AMP d))) ->
  applied now db n hp i update st state p d x m paid amp -> map_Forall (held_ok arrived hash) m.
Proof.
  intros Hh Ha Happ k h' Hk. pose proof (app_htlcs _ _ _ _ _ _ _ _ _ _ _ _ _ _ Happ k) as Hm.
  destruct (changed_htlcs now i update !! k) as [h|] eqn:Ek; [|congruence].
  destruct Hm as (h1 & b & E & Hk1). assert (h1 = h') as -> by congruence.
  eapply held_align; [|exact E]. by eapply held_changed.
Qed.

Lemma applied_ok now db n hp arrived hash i update st state p d x m paid amp :
  invoice_ok arrived hash i -> update_ok now arrived hash i update ->
  (forall h, hp = Some h -> h = hash) ->
  applied now db n hp i update st state p d x m paid amp -> invoice_ok arrived hash (us_invoice st).
Proof.
  intros Hok [Hwf Hmpp Hamp Hadds] Hhp Happ. pose proof (app_invoice _ _ _ _ _ _ _ _ _ _ _ _ _ _ Happ) as Hi.
  pose proof (app_state _ _ _ _ _ _ _ _ _ _ _ _ _ _ Happ) as Hst.
  assert (is_amp_invoice (us_invoice st) = is_amp_invoice i /\
    features_of (us_invoice st) = features_of i) as [Ea Ef] by (by rewrite Hi).
  split.
  - eapply wf_applied; [apply (io_wf _ _ _ Hok)|done|exact Happ].
  - rewrite Ea, Ef. apply (io_bit _ _ _ Hok).
  - rewrite Hi. cbn [Terms reshape restate with_amp with_paid with_htlcs with_settle with_preimage with_state
      PaymentPreimage]. intros q ->.
    destruct (desc_State update) as [sd|]; [|destruct Hst as (_ & Hp & _); by apply (io_preimage _ _ _ Hok)].
    destruct Hst as [Htr _]. destruct (tr_preimage _ _ _ _ Htr) as [Hp|(q' & h' & _ & Eh & Hd & [= <-])].
    + by apply (io_preimage _ _ _ Hok).
    + rewrite Hd. by apply Hhp.
  - rewrite Ea. intros Hna. eapply mpp_update; [done|by apply (io_mpp _ _ _ Hok)|by apply Hmpp|exact Happ].
  - rewrite Ea, Hi. cbn [Terms inv_State reshape restate with_amp with_paid with_htlcs with_settle with_preimage
      with_state PaymentPreimage]. intros Ha. destruct (io_amp _ _ _ Hok Ha) as [Hp Hs].
    destruct (desc_State update) as [sd|] eqn:Esd; [|destruct Hst as (-> & -> & _); done].
    destruct Hst as (Htr & -> & _). split.
    + destruct (tr_preimage _ _ _ _ Htr) as [->|(q & h' & Eq & _)]; [done|].
      rewrite (Hamp Ha sd eq_refl) in Eq. done.
    + rewrite Ha. cbn [negb orb]. destruct (Z.eqb_spec (NewState sd) ContractCanceled); [by right|done].
  - rewrite Hi. cbn [Htlcs reshape with_amp with_paid with_htlcs].
    eapply held_applied; [apply (io_htlcs _ _ _ Hok)|done|exact Happ].
Qed.

(** Databases that differ in indexes only. *)
Lemma db_ok_ext arrived db db' :
  db_ok arrived db -> invoiceIndex db' = invoiceIndex db \/ invoiceIndex db = None /\ invoiceIndex db' = Some empty_invoice_index ->
  invoice_bytes db' = invoice_bytes db -> set_bytes db' = set_bytes db -> db_ok arrived db'.
Proof.
  intros [Hn Hc Hinj Hi Hs] Hix Hb Hsb.
  assert (hashes db' = hashes db /\ counter db' = counter db) as [Eh Ec].
  { unfold hashes, counter. destruct Hix as [->|[-> ->]]; done. }
  split; rewrite ?Eh, ?Ec, ?Hb, ?Hsb; done.
Qed.

Lemma db_ok_put_invoice arrived db n h i b :
  db_ok arrived db -> hashes db !! h = Some n -> invoice_ok arrived h i -> serializeInvoice i = Ok b ->
  db_ok arrived (put_invoice_bytes db n b).
Proof.
  intros Hdb Hh Hok Hser. pose proof Hdb as [Hn Hc Hinj Hi Hs]. split; try done.
  intros n' b' Hb'. cbn [invoice_bytes put_invoice_bytes] in Hb'.
  destruct (decide (n' = n)) as [->|Hne].
  - rewrite lookup_insert_eq in Hb'. injection Hb' as <-. by exists h, i.
  - rewrite lookup_insert_ne in Hb' by done. by apply Hi.
Qed.

Lemma db_ok_put_sets arrived n h i : forall l db db',
  db_ok arrived db -> hashes db !! h = Some n -> invoice_ok arrived h i ->
  updateAMPInvoices db n i l = Ok db' -> db_ok arrived db' /\ hashes db' = hashes db.
Proof.
  induction l as [|[id keys] l IH]; intros db db' Hdb Hh Hok Hu; [by injection Hu as <-|].
  cbn [updateAMPInvoices] in Hu. apply bind_ok in Hu as (b & Eb & Hu).
  apply IH in Hu; [done| |done|done].
  pose proof Hdb as [Hn Hc Hinj Hi Hs]. split; try done.
  intros n' id' b' Hb'. cbn [set_bytes put_set_bytes] in Hb'.
  destruct (decide ((n', id') = (n, id))) as [[= -> ->]|Hne].
  - rewrite lookup_insert_eq in Hb'. injection Hb' as <-.
    exists h, (base.filter (fun kh => kh.1 ∈ keys) (Htlcs i)). split_and!; try done.
    + intros k x [Hx _]%map_lookup_filter_Some. by apply (wfi_htlcs _ (io_wf _ _ _ Hok)).
    + intros k x [Hx _]%map_lookup_filter_Some. by apply (io_htlcs _ _ _ Hok).
  - rewrite lookup_insert_ne in Hb' by done. by apply (Hs n' id').
Qed.

Lemma hashes_of_ref arrived db index ref n :
  db_ok arrived db -> invoiceIndex db = Some index -> ref_setID ref = None ->
  fetchInvoiceNumByRef db index ref = Ok n ->
  forall h, ref_payHash ref = Some h -> hashes db !! h = Some n.
Proof.
  intros Hdb Hix Hsid. unfold fetchInvoiceNumByRef, hashes. rewrite Hsid, Hix. intros Hf h Hh. rewrite Hh in Hf.
  cbn [mbind option_bind] in Hf.
  destruct (payAddr ← ref_payAddr ref; _) as [a|], (pay_hashes index !! h) as [m|]; try done.
  - destruct (Z.eqb_spec a m) as [->|]; [|done]. by injection Hf as <-.
  - by injection Hf as <-.
Qed.

(** What an update returns and leaves behind. *)
Definition open_db (db : invoices_db) : invoices_db :=
  {| invoice_bytes := invoice_bytes db; set_bytes := set_bytes db;
     invoiceIndex := Some (default empty_invoice_index (invoiceIndex db)); addIndex := addIndex db;
     settleIndex := Some (default empty_settle_index (settleIndex db));
     payAddrIndex := payAddrIndex db; setIDIndex := setIDIndex db |}.

Lemma open_db_ok arrived db : db_ok arrived db -> db_ok arrived (open_db db) /\ hashes (open_db db) = hashes db.
Proof.
  intros Hdb. split.
  - eapply db_ok_ext; [exact Hdb| |done|done]. unfold open_db. simpl. destruct (invoiceIndex db); auto.
  - unfold hashes, open_db. simpl. by destruct (invoiceIndex db).
Qed.

Lemma UpdateInvoice_inv {A} now db ref hint (callback : InvoiceUpdateCallback A) db' inv a :
  UpdateInvoice now db ref hint callback = Ok (db', inv, a) ->
  exists n i u, fetchInvoiceNumByRef (open_db db) (default empty_invoice_index (invoiceIndex db)) ref = Ok n /\
    fetchInvoice (open_db db) n (Some (default BlankPayAddr hint)) = Ok i /\
    callback (copyInvoice i) = Ok (u, a) /\
    match u with
    | None => db' = open_db db /\ inv = i
    | Some update =>
        exists st state p d x m paid amp b,
          applied now (open_db db) n (ref_payHash ref) i update st state p d x m paid amp /\
          inv = us_invoice st /\ serializeInvoice inv = Ok b /\
          (if is_amp_invoice inv
           then updateAMPInvoices (put_invoice_bytes (us_db st) n b) n inv (range (us_sets st)) = Ok db'
           else db' = put_invoice_bytes (us_db st) n b)
    end.
Proof.
  unfold UpdateInvoice. fold (open_db db). intros (n & En & Hu)%bind_ok. unfold Invoices.updateInvoice in Hu.
  apply bind_ok in Hu as (i & Ei & Hu). apply bind_ok in Hu as ([u a'] & Ea & Hu).
  exists n, i, u. split; [exact En|]. split; [done|]. destruct u as [update|].
  - apply bind_ok in Hu as (st & Es & Hu). apply bind_ok in Hu as (b & Eb & Hu).
    apply bind_ok in Hu as (db1 & Ed & Hu). injection Hu as <- <- <-. split; [done|].
    apply apply_update_ok in Es as (state & p & d & x & m & paid & amp & Happ).
    exists st, state, p, d, x, m, paid, amp, b. split_and!; try done.
    destruct (is_amp_invoice _); [done|]. by apply Ok_inj in Ed.
  - injection Hu as <- <- <-. done.
Qed.

Lemma index_writes_ok arrived db db' :
  (exists ids, exists sx, db' = set_setid_index db ids \/ db' = set_settle_index (set_setid_index db ids) sx) ->
  db_ok arrived db -> db_ok arrived db' /\ hashes db' = hashes db.
Proof.
  intros (ids & sx & [->| ->]) Hdb; (split; [|done]); (eapply db_ok_ext; [exact Hdb|by left|done..]).
Qed.

(** An update keeps the invariant, and the invoice it returns satisfies it. *)
Lemma UpdateInvoice_ok {A} now arrived db ref hint (callback : InvoiceUpdateCallback A) db' inv a :
  db_ok arrived db -> ref_setID ref = None ->
  (forall n h i u a, hashes db !! h = Some n -> (forall h', ref_payHash ref = Some h' -> h' = h) ->
     invoice_ok arrived h i -> callback (copyInvoice i) = Ok (Some u, a) -> update_ok now arrived h i u) ->
  UpdateInvoice now db ref hint callback = Ok (db', inv, a) ->
  db_ok arrived db' /\ exists n h i u, hashes db !! h = Some n /\ hashes db' = hashes db /\
    (forall h', ref_payHash ref = Some h' -> h' = h) /\
    fetchInvoice (open_db db) n (Some (default BlankPayAddr hint)) = Ok i /\
    invoice_ok arrived h i /\ callback (copyInvoice i) = Ok (u, a) /\ invoice_ok arrived h inv /\
    match u with
    | None => inv = i
    | Some update => exists st state p d x m paid amp,
        applied now (open_db db) n (ref_payHash ref) i update st state p d x m paid amp /\ inv = us_invoice st
    end.
Proof.
  intros Hdb Hsid Hcb (n & i & u & En & Ei & Ea & Hu)%UpdateInvoice_inv.
  destruct (open_db_ok arrived db Hdb) as [Hodb Eh].
  destruct (fetchInvoice_ok arrived _ _ _ _ Hodb Ei) as (h & Hh & Hok).
  assert (forall h', ref_payHash ref = Some h' -> h' = h) as Hhash.
  { intros h' Hh'. eapply (dk_inj _ _ Hodb); [|exact Hh]. eapply hashes_of_ref; [exact Hodb|done..]. }
  destruct u as [update|].
  - destruct Hu as (st & state & p & d & x & m & paid & amp & b & Happ & -> & Eb & Ed).
    assert (invoice_ok arrived h (us_invoice st)) as Hok'.
    { eapply applied_ok; [exact Hok| |exact Hhash|exact Happ]. eapply Hcb; [by rewrite <- Eh|done..]. }
    destruct (index_writes_ok arrived (open_db db) (us_db st) (app_db _ _ _ _ _ _ _ _ _ _ _ _ _ _ Happ) Hodb) as [Hdb1 Eh1].
    assert (db_ok arrived (put_invoice_bytes (us_db st) n b)) as Hdb2.
    { eapply db_ok_put_invoice; [done| |exact Hok'|done]. by rewrite Eh1. }
    assert (db_ok arrived db' /\ hashes db' = hashes db) as [Hdb3 Eh3].
    { destruct (is_amp_invoice (us_invoice st)).
      - eapply db_ok_put_sets in Ed as [? ->]; [|exact Hdb2| |exact Hok'].
        + split; [done|]. change (hashes (us_db st) = hashes db). congruence.
        + change (hashes (us_db st) !! h = Some n). by rewrite Eh1.
      - subst db'. split; [done|]. change (hashes (us_db st) = hashes db). congruence. }
    split; [done|]. exists n, h, i, (Some update). rewrite <- Eh at 1. split_and!; try done. by eauto 10.
  - destruct Hu as [-> ->]. split; [done|]. exists n, h, i, None. rewrite <- Eh at 1. done.
Qed.

(** ** What the registry asks for *)

Record wf_ctx (ctx : invoiceUpdateCtx) : Prop := {
  wc_key : valid_key (ctx_circuitKey ctx);
  wc_hash : length (ctx_hash ctx) = 32%nat;
  wc_amt : is_u64 (ctx_amtPaid ctx);
  wc_expiry : is_u32 (ctx_expiry ctx);
  wc_custom : forall c, ctx_customRecords ctx = Some c -> wf_custom c;
  wc_mpp : forall m, ctx_mpp ctx = Some m -> wf_mpp m;
  wc_amp : forall a, ctx_amp ctx = Some a -> wf_amp a;
}.

Lemma accept_desc_wf ctx mpp :
  wf_ctx ctx -> (forall m, mpp = Some m -> wf_mpp m) -> wf_desc (ctx_circuitKey ctx) (accept_desc ctx mpp).
Proof.
  intros Hc Hm. pose proof (wc_amp _ Hc) as Hamp. destruct Hc. split; try done; simpl.
  - destruct mpp as [m|]; [by destruct (Hm m eq_refl)|done].
  - destruct mpp as [m|]; [|done]. intros a Ha. apply fmap_Some in Ha as (r & Hr & ->).
    split_and!; [by apply Hamp|done|done].
Qed.

(** The sum of a set. *)
Lemma set_total_ok total l : forall acc r,
  is_u64 acc -> set_total total l acc = Some r ->
  r = u64 (acc + zsum (fun h => if htlc_State h =? HtlcStateAccepted then htlc_Amt h else 0) l).
Proof.
  induction l as [|h l IH]; intros acc r Hacc Hr; simpl in *.
  - injection Hr as <-. by rewrite Z.add_0_r, u64_small.
  - destruct (htlc_State h =? HtlcStateAccepted); cbn [negb] in Hr.
    + destruct (total =? MppTotalAmt h); [|done]. cbn [negb] in Hr. apply IH in Hr as ->; [|apply u64_range].
      unfold u64. rewrite Zplus_mod_idemp_l. f_equal. lia.
    + apply IH in Hr as ->; [|done]. f_equal.
Qed.

Lemma paid_by_set i :
  mpp_ok i -> inv_State i = ContractOpen ->
  paid_by (Htlcs i) = zsum (fun h => if htlc_State h =? HtlcStateAccepted then htlc_Amt h else 0)
    (range (HTLCSet i None HtlcStateAccepted)).*2.
Proof.
  intros Hok Hopen. unfold HTLCSet.
  set (P := fun kh : CircuitKey * InvoiceHTLC => htlc_State kh.2 = HtlcStateAccepted /\ IsInHTLCSet kh.2 None = true).
  rewrite <- (map_filter_union_complement P (Htlcs i)) at 1.
  rewrite paid_by_union by apply map_disjoint_filter_complement.
  assert (paid_by (base.filter (fun x => ~ P x) (Htlcs i)) = 0) as ->.
  { rewrite (paid_by_pointwise _ ((fun h => resolve_htlc h HtlcStateCanceled ZeroTime) <$> base.filter (fun x => ~ P x) (Htlcs i))).
    - unfold paid_by. rewrite map_to_list_fmap, !zsum_fmap.
      assert (forall l : list (CircuitKey * InvoiceHTLC), zsum ((live_amt ∘ snd) ∘ prod_map id (fun h => resolve_htlc h HtlcStateCanceled ZeroTime)) l = 0) as E.
      { induction l as [|? l IH]; [done|]. simpl in *. unfold live_amt at 1. simpl. lia. }
      apply E.
    - intros k. rewrite lookup_fmap. destruct (_ !! k) as [h|] eqn:Ek; [|done]. simpl. f_equal.
      apply map_lookup_filter_Some in Ek as [Ek Hn]. apply (mo_htlcs _ Hok) in Ek as (Ha & Hfit & _).
      unfold live_amt, live. simpl. rewrite Hopen in Hfit. unfold fits in Hfit.
      destruct Hfit as [[_ [Hs|Hs]]|[[? _]|[? _]]]; [|by rewrite Hs|done..].
      exfalso. apply Hn. split; [done|]. simpl. unfold IsInHTLCSet. by rewrite Ha. }
  rewrite Z.add_0_r. unfold paid_by. rewrite (zsum_perm _ (range _).*2 (map_to_list (base.filter P (Htlcs i))).*2)
    by (apply fmap_Permutation, range_entries).
  apply zsum_ext. intros h Hin. apply list_elem_of_fmap in Hin as ([k h'] & -> & Hin).
  apply elem_of_map_to_list, map_lookup_filter_Some in Hin as [_ [Hs _]]. simpl in *. unfold live_amt, live.
  by rewrite Hs.
Qed.
End Database.
