(* ===== verification/InvoiceRun.v ===== *)
(** * Runs of the invoice registry

    The invariant of the database and of the registry over every interleaving of its
    operations: what is stored can be traced to the HTLCs that arrived, and the links are
    only told to settle an HTLC with a preimage of its payment hash. *)

From S2P Require Import Prelude Sha256 Ids Tlv Features PaymentCodec Amp Payments InvoiceCodec InvoiceCodecInv Invoices InvoiceInv InvoiceRegistry InvoiceDbInv.

Section Run.
Context `{Hasher} `{Secp256k1} `{GoRange} `{TimeZone} `{WireVarInt}.

(** ** What the registry asks for *)

Lemma reconstruct_ok ctx a set m :
  set !! ctx_circuitKey ctx = None -> reconstructAMPPreimages ctx a set = Ok (inl m) ->
  map_Forall (fun _ p => length p = 32%nat) m /\
  exists p, m !! ctx_circuitKey ctx = Some p /\ digest p = ctx_hash ctx.
Proof.
  intros Hk. unfold reconstructAMPPreimages. intros (descs & Ed & Hr)%bind_ok.
  unfold ReconstructChildren in Hr. cbn [map] in Hr. set (root := foldl _ _ _) in Hr.
  set (child0 := DeriveChild root _) in Hr. set (children := map _ descs) in Hr.
  destruct (bool_decide_reflect (ctx_hash ctx = child_Hash child0)) as [Hc|]; [|done]. cbn [negb] in Hr.
  destruct (negb (forallb _ _)); [done|]. injection Hr as <-.
  assert (Forall (fun c => length (child_Preimage c) = 32%nat) children) as Hch.
  { apply Forall_forall. intros c Hin. apply list_elem_of_In, in_map_iff in Hin as (d & <- & _). apply length_digest. }
  assert (Forall (fun x : CircuitKey * InvoiceHTLC * Child => x.1.1 <> ctx_circuitKey ctx /\
    length (child_Preimage x.2) = 32%nat) (zip (range set) children)) as Hz.
  { apply Forall_forall. intros [[k h] c] Hin. apply elem_of_zip_l in Hin as Hl. apply elem_of_zip_r in Hin.
    simpl. split.
    - intros ->. rewrite range_entries in Hl. apply elem_of_map_to_list in Hl. congruence.
    - rewrite Forall_forall in Hch. by apply Hch. }
  assert (forall m0 : gmap CircuitKey (list byte), map_Forall (fun _ p => length p = 32%nat) m0 ->
    m0 !! ctx_circuitKey ctx = Some (child_Preimage child0) ->
    let m1 := foldl (fun m khc => <[khc.1.1 := child_Preimage khc.2]> m) m0 (zip (range set) children) in
    map_Forall (fun _ p => length p = 32%nat) m1 /\ m1 !! ctx_circuitKey ctx = Some (child_Preimage child0)) as Hgen.
  { induction Hz as [|x l [Hne Hl] _ IH]; intros m0 Hm0 Hk0; [done|]. simpl. apply IH.
    - by apply map_Forall_insert_2.
    - by rewrite lookup_insert_ne. }
  destruct (Hgen {[ctx_circuitKey ctx := child_Preimage child0]}) as [H32 Hk0].
  - apply map_Forall_singleton. apply length_digest.
  - apply lookup_singleton_eq.
  - split; [done|]. exists (child_Preimage child0). split; [done|]. by rewrite Hc.
Qed.

(** The resolution of an HTLC that is settled has a preimage of its hash. *)
Definition resolution_ok (arrived : gmap CircuitKey (list byte)) (r : HtlcResolution) : Prop :=
  match r with
  | HtlcSettleResolution p k _ _ => exists h, arrived !! k = Some h /\ digest p = h
  | _ => True
  end.

Lemma add_desc_wf now ctx mpp s :
  wf_stamp now -> wf_ctx ctx -> (forall m, mpp = Some m -> wf_mpp m) ->
  (forall sd, s = Some sd -> is_u8 (NewState sd) /\ (forall p, upd_Preimage sd = Some p -> length p = 32%nat) /\
    map_Forall (fun _ p => length p = 32%nat) (HTLCPreimages sd)) ->
  wf_update now (add_desc ctx (accept_desc ctx mpp) s).
Proof.
  intros Hn Hc Hm Hs. split; [done| |done]. apply map_Forall_singleton. by apply accept_desc_wf.
Qed.

Lemma add_desc_arrived ctx (arrived : gmap CircuitKey (list byte)) h mpp s k d :
  arrived !! ctx_circuitKey ctx = Some (ctx_hash ctx) ->
  (mpp = None \/ ctx_amp ctx = None -> h = ctx_hash ctx) ->
  AddHtlcs (add_desc ctx (accept_desc ctx mpp) s) !! k = Some d ->
  arrived !! k = Some (default h (amp_Hash <$> desc_AMP d)).
Proof.
  intros Ha Hh Hk. cbn [AddHtlcs add_desc] in Hk. apply lookup_singleton_Some in Hk as [<- <-]. rewrite Ha. f_equal. simpl.
  destruct mpp as [m|]; [|symmetry; apply Hh; by left].
  destruct (ctx_amp ctx); [done|]. symmetry. apply Hh. by right.
Qed.

(** Adding an HTLC without AMP data. *)
Lemma add_desc_mpp now ctx i mpp s :
  wf_ctx ctx -> (mpp = None \/ ctx_amp ctx = None) ->
  (forall sd, s = Some sd -> upd_SetID sd = None /\ HTLCPreimages sd = ∅ /\
    (NewState sd = ContractSettled \/ NewState sd = ContractAccepted) /\
    Htlcs i !! ctx_circuitKey ctx = None /\
    term_Value (Terms i) <= ctx_amtPaid ctx + paid_by (Htlcs i)) ->
  mpp_desc now i (add_desc ctx (accept_desc ctx mpp) s).
Proof.
  intros Hc Hamp Hs. pose proof (wc_amt _ Hc) as [Hamt _]. split.
  - unfold update_set. cbn [desc_State add_desc]. destruct s as [sd|]; [|done]. by destruct (Hs sd eq_refl).
  - cbn [desc_State add_desc]. intros sd Hsd. by destruct (Hs sd Hsd) as (_ & ? & _).
  - cbn [desc_State add_desc]. intros sd Hsd. destruct (Hs sd Hsd) as (_ & _ & ? & _). tauto.
  - apply map_Forall_singleton. simpl. split; [|done]. destruct mpp; [|done]. by destruct Hamp as [?| ->].
  - cbn [desc_State add_desc]. intros sd Hsd _. destruct (Hs sd Hsd) as (_ & _ & _ & Hk & Hv).
    cbn [AddHtlcs add_desc]. unfold accept_map. rewrite map_fmap_singleton, <- insert_union_singleton_l.
    rewrite paid_by_insert by done. exact Hv.
Qed.

(** What becomes of an HTLC: the update keeps the invariant, and the resolution is sound. *)
Definition answer_ok (now : Time) (arrived : gmap CircuitKey (list byte)) (h : list byte) (i : Invoice)
    (ctx : invoiceUpdateCtx) (x : option InvoiceUpdateDesc * HtlcResolution) : Prop :=
  (resolution_ok arrived x.2 /\ resolution_key x.2 = ctx_circuitKey ctx) /\
  forall u, x.1 = Some u -> update_ok now arrived h i u.

Section Answers.
Variables (now : Time) (arrived : gmap CircuitKey (list byte)) (h : list byte) (i : Invoice)
  (ctx : invoiceUpdateCtx).
Hypotheses (Hok : invoice_ok arrived h i) (Hctx : wf_ctx ctx) (Hnow : wf_stamp now)
  (Harr : arrived !! ctx_circuitKey ctx = Some (ctx_hash ctx)).

Lemma add_update_ok mpp s :
  Htlcs i !! ctx_circuitKey ctx = None ->
  (mpp = None \/ ctx_amp ctx = None -> h = ctx_hash ctx) ->
  (forall m, mpp = Some m -> wf_mpp m) ->
  (is_amp_invoice i = false -> mpp = None \/ ctx_amp ctx = None) ->
  (forall sd, s = Some sd -> is_u8 (NewState sd) /\ (forall p, upd_Preimage sd = Some p -> length p = 32%nat) /\
    map_Forall (fun _ p => length p = 32%nat) (HTLCPreimages sd)) ->
  (is_amp_invoice i = false -> forall sd, s = Some sd -> upd_SetID sd = None /\ HTLCPreimages sd = ∅ /\
    (NewState sd = ContractSettled \/ NewState sd = ContractAccepted) /\
    term_Value (Terms i) <= ctx_amtPaid ctx + paid_by (Htlcs i)) ->
  (is_amp_invoice i = true -> forall sd, s = Some sd -> upd_Preimage sd = None) ->
  update_ok now arrived h i (add_desc ctx (accept_desc ctx mpp) s).
Proof.
  intros Hf Hh Hm Ha Hs Hv Hp. split.
  - by apply add_desc_wf.
  - intros Hna. apply add_desc_mpp; [done|by apply Ha|]. intros sd Hsd.
    destruct (Hv Hna sd Hsd) as (? & ? & ? & ?). done.
  - done.
  - intros k d. by apply add_desc_arrived.
Qed.

Lemma settleRes_ok p o : h = ctx_hash ctx -> PaymentPreimage (Terms i) = Some p ->
  resolution_ok arrived (settleRes ctx p o) /\ resolution_key (settleRes ctx p o) = ctx_circuitKey ctx.
Proof. intros Hh Hp. split; [|done]. exists h. split; [by rewrite Hh|]. by apply (io_preimage _ _ _ Hok). Qed.

Lemma no_update_ok r x :
  resolution_ok arrived r /\ resolution_key r = ctx_circuitKey ctx -> no_update r = Ok x -> answer_ok now arrived h i ctx x.
Proof. intros Hr [= <-]. by split. Qed.

Lemma paid_nonneg : is_amp_invoice i = false -> 0 <= paid_by (Htlcs i).
Proof.
  intros Ha. apply paid_by_nonneg. eapply map_Forall_impl; [apply (mo_htlcs _ (io_mpp _ _ _ Hok Ha))|].
  by intros k x (_ & _ & ?).
Qed.

Lemma known_preimage p : PaymentPreimage (Terms i) = Some p -> length p = 32%nat.
Proof. apply (wfi_preimage _ (io_wf _ _ _ Hok)). Qed.

Lemma updateLegacy_ok x :
  Htlcs i !! ctx_circuitKey ctx = None -> h = ctx_hash ctx ->
  updateLegacy ctx (copyInvoice i) = Ok x -> answer_ok now arrived h i ctx x.
Proof.
  intros Hf Hh. unfold updateLegacy.
  change (Terms (copyInvoice i)) with (Terms i). change (inv_State (copyInvoice i)) with (inv_State i).
  change (HodlInvoice (copyInvoice i)) with (HodlInvoice i).
  destruct (_ =? ContractCanceled); [by apply no_update_ok|].
  destruct (Z.ltb_spec (ctx_amtPaid ctx) (term_Value (Terms i))) as [|Hval]; [by apply no_update_ok|].
  destruct (_ && _); [by apply no_update_ok|]. destruct (existsb _ _); [by apply no_update_ok|].
  destruct (too_soon _ _); [by apply no_update_ok|]. destruct (too_soon _ _); [by apply no_update_ok|].
  assert (forall s,
    (forall sd, s = Some sd -> upd_SetID sd = None /\ HTLCPreimages sd = ∅ /\
      (NewState sd = ContractSettled \/ NewState sd = ContractAccepted) /\
      (upd_Preimage sd = None \/ upd_Preimage sd = PaymentPreimage (Terms i))) ->
    update_ok now arrived h i (add_desc ctx (accept_desc ctx None) s)) as Hadd.
  { intros s Hs. apply add_update_ok; try done; [by left|..]; intros.
    - destruct (Hs sd) as (_ & -> & Hn & Hp); [done|]. split_and!.
      + destruct Hn as [-> | ->]; done.
      + intros p Hq. destruct Hp as [Hp|Hp]; [congruence|]. apply known_preimage. congruence.
      + apply map_Forall_empty.
    - destruct (Hs sd) as (? & ? & ? & _); [done|]. split_and!; try done. pose proof (paid_nonneg ltac:(assumption)). lia.
    - destruct (Hs sd) as (_ & _ & _ & [?|Hp]); [done..|]. rewrite Hp. by apply (io_amp _ _ _ Hok). }
  destruct (_ =? ContractAccepted).
  { intros [= <-]. split; [done|]. intros u [= <-]. by apply Hadd. }
  destruct (_ =? ContractSettled).
  { intros (p & Ep & Hx)%bind_ok. injection Hx as <-.
    assert (PaymentPreimage (Terms i) = Some p) as Hp by (destruct (PaymentPreimage (Terms i)); by simplify_eq/=).
    split; [by apply settleRes_ok|]. intros u [= <-]. by apply Hadd. }
  destruct (HodlInvoice i).
  { intros [= <-]. split; [done|]. intros u [= <-]. apply Hadd. intros sd [= <-]. split_and!; auto. }
  intros (p & Ep & Hx)%bind_ok. injection Hx as <-.
  assert (PaymentPreimage (Terms i) = Some p) as Hp by (destruct (PaymentPreimage (Terms i)); by simplify_eq/=).
  split; [by apply settleRes_ok|]. intros u [= <-]. apply Hadd. intros sd [= <-]. split_and!; auto.
Qed.

(** The set is complete: its sum is at least the value of the invoice. *)
Lemma set_value total t :
  is_amp_invoice i = false -> inv_State i = ContractOpen -> term_Value (Terms i) <= total ->
  set_total total (range (HTLCSet i None HtlcStateAccepted)).*2 0 = Some t ->
  u64 (t + ctx_amtPaid ctx) = total -> term_Value (Terms i) <= ctx_amtPaid ctx + paid_by (Htlcs i).
Proof.
  intros Ha Ho Hv Ht Hs. pose proof (paid_nonneg Ha) as Hn. pose proof (wc_amt _ Hctx) as [? ?].
  apply set_total_ok in Ht as ->; [|done].
  rewrite <- paid_by_set in Hs by (first [done|by apply (io_mpp _ _ _ Hok)]). rewrite Z.add_0_l in Hs.
  unfold u64 in Hs. rewrite Zplus_mod_idemp_l in Hs.
  pose proof (Z.mod_le (paid_by (Htlcs i) + ctx_amtPaid ctx) (2 ^ 64)). lia.
Qed.

Lemma set_lookup_None id s : Htlcs i !! ctx_circuitKey ctx = None -> HTLCSet i id s !! ctx_circuitKey ctx = None.
Proof. intros Hf. apply map_lookup_filter_None. by left. Qed.

Lemma updateMpp_ok mpp x :
  Htlcs i !! ctx_circuitKey ctx = None -> wf_mpp mpp -> (ctx_amp ctx = None -> h = ctx_hash ctx) ->
  updateMpp ctx mpp (copyInvoice i) = Ok x -> answer_ok now arrived h i ctx x.
Proof.
  intros Hf Hmpp Hh. unfold updateMpp.
  change (Terms (copyInvoice i)) with (Terms i). change (inv_State (copyInvoice i)) with (inv_State i).
  change (HodlInvoice (copyInvoice i)) with (HodlInvoice i).
  change (features_of (copyInvoice i)) with (features_of i). rewrite <- (io_bit _ _ _ Hok).
  change (HTLCSet (copyInvoice i)) with (HTLCSet i).
  destruct (Bool.eqb _ _) eqn:Eb; [|by apply no_update_ok]. cbn [negb]. apply Bool.eqb_prop in Eb.
  destruct (Z.eqb_spec (inv_State i) ContractOpen) as [Ho|]; [|by apply no_update_ok]. cbn [negb].
  destruct (negb (bool_decide _)); [by apply no_update_ok|].
  destruct (_ =? 0); [by apply no_update_ok|].
  destruct (Z.ltb_spec (totalMAtoms mpp) (term_Value (Terms i))) as [|Hval]; [by apply no_update_ok|].
  destruct (set_total _ _ _) as [t|] eqn:Et; [|by apply no_update_ok].
  destruct (_ <? _); [by apply no_update_ok|].
  destruct (too_soon _ _); [by apply no_update_ok|]. destruct (too_soon _ _); [by apply no_update_ok|].
  assert (is_amp_invoice i = false -> ctx_amp ctx = None) as Hna.
  { intros E. rewrite E in Eb. by case_bool_decide; [|apply eq_None_not_Some]. }
  assert (is_amp_invoice i = true -> exists a, ctx_amp ctx = Some a) as Hya.
  { intros E. rewrite E in Eb. by case_bool_decide. }
  assert (forall s,
    (forall sd, s = Some sd -> is_u8 (NewState sd) /\
      (upd_Preimage sd = None \/ upd_Preimage sd = PaymentPreimage (Terms i)) /\
      map_Forall (fun _ p => length p = 32%nat) (HTLCPreimages sd) /\
      (is_amp_invoice i = false -> upd_SetID sd = None /\ HTLCPreimages sd = ∅ /\
        (NewState sd = ContractSettled \/ NewState sd = ContractAccepted) /\
        term_Value (Terms i) <= ctx_amtPaid ctx + paid_by (Htlcs i))) ->
    update_ok now arrived h i (add_desc ctx (accept_desc ctx (Some mpp)) s)) as Hadd.
  { intros s Hs. apply add_update_ok; try done.
    - intros [?|?]; [done|auto].
    - by intros m [= <-].
    - intros E. right. auto.
    - intros sd Hsd. destruct (Hs sd Hsd) as (? & Hp & ? & _). split_and!; try done.
      intros p Hq. destruct Hp as [Hp|Hp]; [congruence|]. apply known_preimage. congruence.
    - intros E sd Hsd. by destruct (Hs sd Hsd) as (_ & _ & _ & ?); auto.
    - intros E sd Hsd. destruct (Hs sd Hsd) as (_ & [?|Hp] & _); [done|]. rewrite Hp. by apply (io_amp _ _ _ Hok). }
  destruct (Z.eqb_spec (u64 (t + ctx_amtPaid ctx)) (totalMAtoms mpp)) as [Hfull|]; cbn [negb].
  2:{ intros [= <-]. split; [done|]. intros u [= <-]. by apply Hadd. }
  assert (is_amp_invoice i = false -> ctx_setID ctx = None /\
    term_Value (Terms i) <= ctx_amtPaid ctx + paid_by (Htlcs i)) as Hcomplete.
  { intros E. unfold ctx_setID in *. rewrite (Hna E) in *. split; [done|]. by eapply set_value. }
  destruct (HodlInvoice i).
  { intros [= <-]. split; [done|]. intros u [= <-]. apply Hadd. intros sd [= <-].
    split_and!; [done|by left|apply map_Forall_empty|]. intros E. destruct (Hcomplete E). split_and!; auto. }
  destruct (ctx_amp ctx) as [a|] eqn:Eamp.
  - assert (is_amp_invoice i = true) as E by (rewrite Eb; apply bool_decide_true; by eexists).
    intros (r & Er & Hx)%bind_ok. destruct r as [ps|fail].
    + apply reconstruct_ok in Er as (H32 & p & Hp & Hd); [|by apply set_lookup_None].
      injection Hx as <-. split.
      * rewrite Hp. split; [|done]. by exists (ctx_hash ctx).
      * intros u [= <-]. apply Hadd. intros sd [= <-]. split_and!; [done|by right|done|]. congruence.
    + injection Hx as <-. split.
      * unfold reconstructAMPPreimages in Er. apply bind_ok in Er as (ds & _ & Er).
        destruct (ReconstructChildren _); [done|]. destruct (negb _); [by simplify_eq|].
        destruct (negb _); by simplify_eq.
      * intros u [= <-]. apply Hadd. intros sd [= <-]. split_and!; [done|by left|apply map_Forall_empty|]. congruence.
  - intros (p & Ep & Hx)%bind_ok. injection Hx as <-.
    assert (PaymentPreimage (Terms i) = Some p) as Hp by (destruct (PaymentPreimage (Terms i)); by simplify_eq/=).
    assert (is_amp_invoice i = false) as E.
    { destruct (is_amp_invoice i); [|done]. destruct (Hya eq_refl) as (? & ?). done. }
    split; [by apply settleRes_ok; auto|]. intros u [= <-]. apply Hadd. intros sd [= <-].
    destruct (Hcomplete E). split_and!; [done|by right|apply map_Forall_empty|]. intros _. split_and!; auto.
Qed.

Lemma updateInvoice_answer x :
  (ctx_mpp ctx = None \/ ctx_amp ctx = None -> h = ctx_hash ctx) ->
  InvoiceRegistry.updateInvoice ctx (copyInvoice i) = Ok x -> answer_ok now arrived h i ctx x.
Proof.
  intros Hh. unfold InvoiceRegistry.updateInvoice.
  change (Htlcs (copyInvoice i)) with (Htlcs i). change (Terms (copyInvoice i)) with (Terms i).
  destruct (Htlcs i !! ctx_circuitKey ctx) as [x0|] eqn:Ek.
  - destruct (_ =? HtlcStateCanceled); [by apply no_update_ok|].
    destruct (_ =? HtlcStateAccepted); [by apply no_update_ok|].
    destruct (_ =? HtlcStateSettled); [|done].
    intros (p & Ep & Hx)%bind_ok. revert Hx. apply no_update_ok.
    assert (PaymentPreimage (Terms i) = Some p) as Hp by (destruct (PaymentPreimage (Terms i)); by simplify_eq/=).
    destruct (is_amp_invoice i) eqn:Ea; [destruct (io_amp _ _ _ Hok Ea); congruence|].
    destruct (mo_htlcs _ (io_mpp _ _ _ Hok Ea) _ _ Ek) as [Hn _].
    destruct (io_htlcs _ _ _ Hok _ _ Ek) as [Hh' _]. unfold htlc_hash in Hh'. rewrite Hn in Hh'.
    apply settleRes_ok; [|done]. simpl in Hh'. congruence.
  - destruct (ctx_mpp ctx) as [mpp|] eqn:Em.
    + apply updateMpp_ok; [done|by apply (wc_mpp _ Hctx)|auto].
    + apply updateLegacy_ok; auto.
Qed.
End Answers.

Lemma htlc_callback_inv ctx i u r b :
  htlc_callback ctx i = Ok (u, (r, b)) -> InvoiceRegistry.updateInvoice ctx i = Ok (u, r).
Proof. intros ([u' r'] & E & Hx)%bind_ok. by simplify_eq. Qed.

Lemma no_add_ok now arrived h i sd cancels id :
  wf_stamp now ->
  (forall s, sd = Some s -> is_u8 (NewState s) /\ (forall p, upd_Preimage s = Some p -> length p = 32%nat) /\
     HTLCPreimages s = ∅ /\ upd_SetID s = None /\
     (NewState s = ContractSettled \/ NewState s = ContractCanceled) /\
     (NewState s = ContractSettled -> term_Value (Terms i) <= paid_by (Htlcs i)) /\
     (is_amp_invoice i = true -> upd_Preimage s = None)) ->
  (is_amp_invoice i = false -> id = None) ->
  update_ok now arrived h i {| desc_State := sd; CancelHtlcs := cancels; AddHtlcs := ∅; desc_SetID := id |}.
Proof.
  intros Hn Hs Hid. split.
  - split; [done|apply map_Forall_empty|]. cbn [desc_State]. intros s Es. destruct (Hs s Es) as (? & ? & -> & _).
    split_and!; [done..|apply map_Forall_empty].
  - intros Ha. split.
    + unfold update_set. cbn [desc_State desc_SetID]. destruct sd as [s|]; [|by apply Hid]. by destruct (Hs s eq_refl) as (_ & _ & _ & ? & _).
    + cbn [desc_State]. intros s Es. by destruct (Hs s Es) as (_ & _ & ? & _).
    + cbn [desc_State]. intros s Es. destruct (Hs s Es) as (_ & _ & _ & _ & ? & _). tauto.
    + apply map_Forall_empty.
    + cbn [desc_State AddHtlcs]. intros s Es Hst. destruct (Hs s Es) as (_ & _ & _ & _ & Hor & Hv & _).
      unfold accept_map. rewrite fmap_empty, (left_id_L ∅ (∪)). apply Hv.
      destruct Hor as [?|E]; [done|]. rewrite E in Hst. by destruct Hst.
  - cbn [desc_State]. intros Ha s Es. destruct (Hs s Es) as (_ & _ & _ & _ & _ & _ & ?). auto.
  - cbn [AddHtlcs]. intros k d Hk. by apply lookup_empty_Some in Hk.
Qed.

Lemma find_amp_empty key : find_amp_htlc ∅ key = None.
Proof.
  unfold find_amp_htlc. assert (range (∅ : AMPInvoiceState) = []) as ->; [|done].
  apply Permutation_nil. by rewrite range_entries, map_to_list_empty.
Qed.

Lemma cancel_single_ok now arrived h i key u a :
  wf_stamp now -> cancel_single_callback key (copyInvoice i) = Ok (Some u, a) ->
  u = {| desc_State := None; CancelHtlcs := {[ key ]}; AddHtlcs := ∅; desc_SetID := None |} /\ a = true /\
  inv_State i = ContractOpen /\ (exists x, Htlcs i !! key = Some x /\ htlc_State x = HtlcStateAccepted) /\
  update_ok now arrived h i u.
Proof.
  intros Hn. unfold cancel_single_callback. change (inv_State (copyInvoice i)) with (inv_State i).
  change (Htlcs (copyInvoice i)) with (Htlcs i). change (AMPState (copyInvoice i)) with (∅ : AMPInvoiceState).
  destruct (Z.eqb_spec (inv_State i) ContractOpen) as [Ho|]; [|done]. cbn [negb]. rewrite find_amp_empty.
  destruct (Htlcs i !! key) as [x|]; [|done]. cbn [mbind res_bind].
  destruct (Z.eqb_spec (htlc_State x) HtlcStateAccepted) as [Hx|]; [|done]. intros [= <- <-].
  split_and!; [done..|by exists x|by apply no_add_ok].
Qed.

Lemma cancel_callback_ok now arrived h i force u a :
  wf_stamp now -> cancel_callback force (copyInvoice i) = Ok (Some u, a) -> update_ok now arrived h i u.
Proof.
  intros Hn. unfold cancel_callback. destruct (negb _); [done|]. intros [= <- <-].
  apply no_add_ok; [done| |done]. intros s [= <-]. split_and!; try done. by right.
Qed.

Lemma settle_hodl_ok now arrived h i preimage u a :
  wf_stamp now -> invoice_ok arrived h i -> length preimage = 32%nat ->
  settle_hodl_callback preimage (copyInvoice i) = Ok (u, a) ->
  is_amp_invoice i = false /\ forall u', u = Some u' -> update_ok now arrived h i u'.
Proof.
  intros Hn Hok Hl. unfold settle_hodl_callback. change (inv_State (copyInvoice i)) with (inv_State i).
  destruct (Z.eqb_spec (inv_State i) ContractOpen); [done|].
  destruct (Z.eqb_spec (inv_State i) ContractCanceled); [done|].
  destruct (Z.eqb_spec (inv_State i) ContractSettled); [done|]. intros [= <- <-].
  assert (is_amp_invoice i = false) as Ha.
  { destruct (is_amp_invoice i) eqn:Ea; [|done]. destruct (io_amp _ _ _ Hok Ea) as [_ [?|?]]; done. }
  split; [done|]. pose proof (io_mpp _ _ _ Hok Ha) as Hm. intros u' [= <-].
  apply no_add_ok; [done| |done]. intros s [= <-]. split_and!; try done; cbn [upd_Preimage NewState].
  - by intros p [= <-].
  - by left.
  - intros _. apply (mo_value _ Hm). destruct (mo_state _ Hm) as [?|[?|[?|?]]]; tauto || done.
  - congruence.
Qed.

(** ** Adding and deleting *)

(** What the caller of [AddInvoice] has to provide. *)
Record addable (hash : list byte) (i : Invoice) : Prop := {
  ad_wf : wf_invoice i;
  ad_open : inv_State i = ContractOpen;
  ad_paid : inv_AmtPaid i = 0;
  ad_bit : is_amp_invoice i = RequiresFeature (features_of i) AMPRequired;
  ad_preimage : forall p, PaymentPreimage (Terms i) = Some p -> digest p = hash;
  ad_amp : is_amp_invoice i = true -> PaymentPreimage (Terms i) = None;
}.

Lemma addable_ok arrived hash i : addable hash i -> Htlcs i = ∅ -> invoice_ok arrived hash i.
Proof.
  intros [] Hh. split; try done.
  - intros _. split; rewrite ?Hh, ?ad_open0, ?ad_paid0; try done.
    + by left.
    + by intros [|].
  - intros Ha. auto.
  - rewrite Hh. apply map_Forall_empty.
Qed.

Lemma AddInvoice_ok arrived db i hash db' i' :
  db_ok arrived db -> addable hash i -> counter db + 1 < 2 ^ 32 ->
  Invoices.AddInvoice db i hash = Ok (db', i') ->
  db_ok arrived db' /\ invoice_ok arrived hash i' /\ hashes db !! hash = None /\
  hashes db' = <[hash := counter db]> (hashes db) /\ i' = with_add_index i (AddIndex i').
Proof.
  intros Hdb Had Hc. unfold Invoices.AddInvoice. intros (u & Hv & Ha)%bind_ok.
  set (index := default empty_invoice_index (invoiceIndex db)) in Ha.
  set (ix := default empty_add_index (addIndex db)) in Ha.
  assert (hashes db = pay_hashes index /\ counter db = default 0 (num_invoices index)) as [Eh Ec].
  { unfold hashes, counter, index. by destruct (invoiceIndex db). }
  case_bool_decide as Hdup; [done|]. apply eq_None_not_Some in Hdup.
  destruct (negb _ && _); [done|]. unfold putInvoice in Ha. apply bind_ok in Ha as (b & Eb & Ha).
  rewrite <- Ec in *. rewrite <- Eh in *.
  set (i1 := with_add_index i (NextSequence (add_sequence ix))) in *.
  assert (Htlcs i = ∅) as Hh.
  { unfold validateInvoice in Hv. destruct (bool_decide (hash = _)); [done|]. destruct (_ <? _); [done|]. destruct (_ <? _); [done|].
    destruct (term_Features _); [|done]. apply bind_ok in Hv as (? & _ & Hv). destruct (_ && _); [done|].
    destruct (bool_decide_reflect (Htlcs i = ∅)); [done|]. done. }
  assert (invoice_ok arrived hash i1) as Hok.
  { apply addable_ok; [|done]. destruct Had as [[] ? ? ? ? ?]. split; try done. split; try done. apply u64_range. }
  pose proof (dk_counter _ _ Hdb) as Hc0. pose proof (dk_hash _ _ Hdb) as Hn.
  assert (u32 (counter db + 1) = counter db + 1) as Eu by (apply u32_small; unfold is_u32; lia).
  assert (forall k n, <[hash := counter db]> (hashes db) !! k = Some n ->
    k = hash /\ n = counter db \/ k <> hash /\ hashes db !! k = Some n) as Hl.
  { intros k n Hk. apply lookup_insert_Some in Hk as [[-> ->]|[? ?]]; auto. }
  injection Ha as <- <-. match goal with |- db_ok _ ?d /\ _ => set (db' := d) end.
  assert (hashes db' = <[hash := counter db]> (hashes db)) as Eh' by done.
  assert (counter db' = counter db + 1) as Ec' by (by rewrite <- Eu).
  split_and!; try done. split; rewrite ?Eh', ?Ec'.
  - intros k n [[_ ->]|[_ Hk]]%Hl; [lia|]. specialize (Hn _ _ Hk). lia.
  - lia.
  - intros k k' n [[-> ->]|[? Hk]]%Hl [[-> E]|[? Hk']]%Hl; try done.
    + specialize (Hn _ _ Hk'). lia.
    + subst n. specialize (Hn _ _ Hk). lia.
    + by eapply (dk_inj _ _ Hdb).
  - intros n b'. change (invoice_bytes db') with (<[counter db := b]> (invoice_bytes db)). intros [[<- <-]|[Hne Hb]]%lookup_insert_Some.
    + exists hash, i1. split_and!; try done. apply lookup_insert_eq.
    + destruct (dk_invoices _ _ Hdb n b' Hb) as (k & j & Hk & ?). exists k, j. split; [|done].
      rewrite lookup_insert_ne; [done|]. congruence.
  - intros n id b' Hb. destruct (dk_sets _ _ Hdb n id b' Hb) as (k & m & Hk & ?). exists k, m. split; [|done].
    rewrite lookup_insert_ne; [done|]. congruence.
Qed.

Lemma delete_invoice_ok arrived db ref db' :
  db_ok arrived db -> delete_invoice db ref = Ok db' -> db_ok arrived db'.
Proof.
  intros Hdb. unfold delete_invoice. destruct (invoiceIndex db) as [index|] eqn:Ei; [|done].
  destruct (addIndex db) as [ix|]; [|done].
  destruct (pay_hashes index !! del_PayHash ref) as [n|] eqn:En; [|done].
  destruct (negb _); [done|]. intros (settled & _ & Hd)%bind_ok. apply bind_ok in Hd as (db1 & E1 & Hd).
  apply Ok_inj in Hd as <-.
  assert (hashes db = pay_hashes index /\ counter db = default 0 (num_invoices index)) as [Eh Ec]
    by (unfold hashes, counter; by rewrite Ei).
  assert (invoice_bytes db1 = invoice_bytes db /\ set_bytes db1 = set_bytes db /\
    invoiceIndex db1 = Some {| num_invoices := num_invoices index;
                               pay_hashes := base.delete (del_PayHash ref) (pay_hashes index) |}) as (Eb & Es & Ex).
  { unfold delAMPSettleIndex in E1. apply bind_ok in E1 as (st & _ & E1). case_bool_decide; [by injection E1 as <-|].
    destruct (settleIndex _); [|done]. by injection E1 as <-. }
  match goal with |- db_ok _ ?d => set (db' := d) end.
  assert (hashes db' = base.delete (del_PayHash ref) (hashes db) /\ counter db' = counter db) as [Eh' Ec'].
  { unfold db', hashes at 1, counter at 1. cbn [invoiceIndex delAMPInvoices]. rewrite Ex, Eh, Ec. done. }
  rewrite <- Eh in En.
  assert (forall k m, k <> del_PayHash ref -> hashes db !! k = Some m -> hashes db' !! k = Some m) as Hkeep.
  { intros k m Hk Hm. rewrite Eh', lookup_delete_ne; done. }
  split; rewrite ?Ec', ?Eh'.
  - intros k m [_ Hm]%lookup_delete_Some. by eapply (dk_hash _ _ Hdb).
  - apply (dk_counter _ _ Hdb).
  - intros k k' m [_ Hm]%lookup_delete_Some [_ Hm']%lookup_delete_Some. by eapply (dk_inj _ _ Hdb).
  - intros m b. change (invoice_bytes db') with (base.delete n (invoice_bytes db1)). rewrite Eb.
    intros [Hne Hb]%lookup_delete_Some. destruct (dk_invoices _ _ Hdb m b Hb) as (k & i & Hk & Hrest).
    exists k, i. split; [|exact Hrest]. apply lookup_delete_Some. split; [congruence|done].
  - intros m id b. change (set_bytes db') with (base.filter (fun kv : Z * list byte * list byte => kv.1.1 <> n) (set_bytes db1)).
    rewrite Es. intros [Hb Hne]%map_lookup_filter_Some. cbn [fst] in Hne.
    destruct (dk_sets _ _ Hdb m id b Hb) as (k & i & Hk & Hrest).
    exists k, i. split; [|exact Hrest]. apply lookup_delete_Some. split; [congruence|done].
Qed.

Lemma DeleteInvoice_ok arrived db refs db' :
  db_ok arrived db -> DeleteInvoice db refs = Ok db' -> db_ok arrived db'.
Proof.
  unfold DeleteInvoice. destruct (invoiceIndex db); [|done]. destruct (addIndex db); [|done].
  intros Hdb. apply (for_each_ind _ (fun _ d => db_ok arrived d)); [done|].
  intros pre ref post d d' _ Hd. by apply delete_invoice_ok.
Qed.

(** ** The registry *)

(** The two maps of subscriptions mirror each other. *)
Definition mirrored (subs : gmap CircuitKey (gset Z)) (rev : gmap Z (gset CircuitKey)) : Prop :=
  forall k s, s ∈ default ∅ (subs !! k) <-> k ∈ default ∅ (rev !! s).

Record reg_ok (arrived : gmap CircuitKey (list byte)) (i : registry) : Prop := {
  rk_db : db_ok arrived (reg_db i);
  rk_sent : Forall (fun x => resolution_ok arrived x.2) (reg_sent i);
  rk_heap : Forall (fun e => ref_setID (rel_invoiceRef e) = None) (autoReleaseHeap i);
  rk_mirror : mirrored (hodlSubscriptions i) (hodlReverseSubscriptions i);
}.

Lemma elem_of_range_set {A} `{Countable A} (X : gset A) x : x ∈ range_set X <-> x ∈ X.
Proof.
  unfold range_set. rewrite list_elem_of_fmap. split.
  - intros ([k []] & -> & Hin). rewrite range_entries in Hin.
    by apply elem_of_map_to_list, lookup_gset_to_gmap_Some in Hin as [? _].
  - intros Hx. exists (x, tt). split; [done|]. rewrite range_entries. apply elem_of_map_to_list.
    by apply lookup_gset_to_gmap_Some.
Qed.

Lemma alter_sets {A B} `{Countable A} `{Countable B} (x : B) (l : list A) : forall (m : gmap A (gset B)) a,
  default ∅ (foldl (fun m s => alter (fun ks => ks ∖ {[ x ]}) s m) m l !! a) =
  if bool_decide (a ∈ l) then default ∅ (m !! a) ∖ {[ x ]} else default ∅ (m !! a).
Proof.
  induction l as [|a0 l IH]; intros m a; [done|]. simpl. rewrite IH.
  destruct (decide (a = a0)) as [->|Hne].
  - rewrite lookup_alter_eq. rewrite (bool_decide_true (a0 ∈ a0 :: l)) by set_solver.
    destruct (m !! a0) as [X|]; simpl; case_bool_decide; set_solver.
  - rewrite lookup_alter_ne by done. repeat case_bool_decide; set_solver.
Qed.

Lemma notify_ok arrived i r : reg_ok arrived i -> resolution_ok arrived r -> reg_ok arrived (notifyHodlSubscribers i r).
Proof.
  intros [Hdb Hs Hp Hm] Hr. unfold notifyHodlSubscribers.
  destruct (hodlSubscriptions i !! resolution_key r) as [X|] eqn:Ek; [|by split]. split.
  - done.
  - cbn [reg_sent with_hodl]. apply Forall_app. split; [done|]. apply Forall_fmap, Forall_forall. by intros s _.
  - done.
  - cbn [hodlSubscriptions hodlReverseSubscriptions with_hodl]. intros k s. rewrite alter_sets.
    specialize (Hm k s). rewrite (bool_decide_ext _ _ (elem_of_range_set X s)).
    destruct (decide (k = resolution_key r)) as [->|Hne].
    + rewrite lookup_delete_eq. rewrite Ek in Hm. simpl in *. case_bool_decide; set_solver.
    + rewrite lookup_delete_ne by done. case_bool_decide; set_solver.
Qed.

Lemma notify_all_ok arrived l : forall i,
  reg_ok arrived i -> Forall (resolution_ok arrived) l -> reg_ok arrived (notify_all i l).
Proof.
  induction l as [|r l IH]; intros i Hi Hl; [done|]. apply Forall_cons in Hl as [? ?]. apply IH; [|done].
  by apply notify_ok.
Qed.

Lemma subscribe_ok arrived i s k : reg_ok arrived i -> reg_ok arrived (hodlSubscribe i s k).
Proof.
  intros [Hdb Hs Hp Hm]. split; [done..|]. unfold hodlSubscribe.
  cbn [hodlSubscriptions hodlReverseSubscriptions with_hodl]. intros k' s'. specialize (Hm k' s').
  destruct (decide (k' = k)) as [->|], (decide (s' = s)) as [->|];
    rewrite ?lookup_insert_eq, ?lookup_insert_ne by done; simpl; set_solver.
Qed.

Lemma unsubscribe_ok arrived i s : reg_ok arrived i -> reg_ok arrived (HodlUnsubscribeAll i s).
Proof.
  intros [Hdb Hs Hp Hm]. split; [done..|]. unfold HodlUnsubscribeAll.
  cbn [hodlSubscriptions hodlReverseSubscriptions with_hodl]. intros k' s'. specialize (Hm k' s').
  rewrite alter_sets, (bool_decide_ext _ _ (elem_of_range_set _ k')).
  destruct (decide (s' = s)) as [->|].
  - rewrite lookup_delete_eq. simpl. case_bool_decide; set_solver.
  - rewrite lookup_delete_ne by done. case_bool_decide; set_solver.
Qed.

Lemma reg_ok_db arrived i db : reg_ok arrived i -> db_ok arrived db -> reg_ok arrived (with_db i db).
Proof. intros [] Hdb. by split. Qed.

(** What concerns the clients, the timers and the watcher only. *)
Lemma reg_ok_ext arrived i i' :
  reg_ok arrived i -> reg_db i' = reg_db i -> hodlSubscriptions i' = hodlSubscriptions i ->
  hodlReverseSubscriptions i' = hodlReverseSubscriptions i -> reg_sent i' = reg_sent i ->
  autoReleaseHeap i' = autoReleaseHeap i -> reg_ok arrived i'.
Proof. intros [Hd Hs Hp Hm] E1 E2 E3 E4 E5. split; rewrite ?E1, ?E2, ?E3, ?E4, ?E5; done. Qed.

Lemma notifyClients_ok arrived i hash inv id : reg_ok arrived i -> reg_ok arrived (notifyClients i hash inv id).
Proof. intros Hi. by eapply reg_ok_ext. Qed.

Lemma pushInvoice_ok arrived i e : reg_ok arrived i -> reg_ok arrived (pushInvoice i e).
Proof. intros Hi. destruct e; by eapply reg_ok_ext. Qed.

Lemma push_expiry_ok arrived i e : reg_ok arrived i -> reg_ok arrived (push_expiry i e).
Proof. intros Hi. destruct e; [by apply pushInvoice_ok|done]. Qed.

Lemma pushInvoices_ok arrived l : forall i, reg_ok arrived i -> reg_ok arrived (pushInvoices i l).
Proof. induction l as [|e l IH]; intros i Hi; [done|]. by apply IH, pushInvoice_ok. Qed.

Lemma fail_notices_ok arrived set o : Forall (resolution_ok arrived) (fail_notices set o).
Proof. apply Forall_fmap, Forall_forall. done. Qed.

Lemma settle_notices_ok arrived h inv id p o :
  invoice_ok arrived h inv -> (id = None -> digest p = h) ->
  Forall (resolution_ok arrived) (settle_notices (HTLCSet inv id HtlcStateSettled) p o).
Proof.
  intros Hok Hp. apply Forall_fmap, Forall_forall. intros [k x] Hin. rewrite range_entries in Hin.
  apply elem_of_map_to_list, map_lookup_filter_Some in Hin as [Hx [Hs Hid]]. cbn [fst snd] in *.
  destruct (io_htlcs _ _ _ Hok k x Hx) as [Hh Hpre]. unfold htlc_hash in Hh. unfold IsInHTLCSet in Hid. simpl.
  exists (default h (amp_Hash <$> htlc_AMP x)). split; [done|].
  destruct (htlc_AMP x) as [a|]; simpl.
  - destruct (Hpre a eq_refl Hs) as (q & -> & Hq). done.
  - destruct id; [done|]. auto.
Qed.

Lemma resolve_ok arrived h i ctx chan inv r i' x :
  reg_ok arrived i -> invoice_ok arrived h inv -> resolution_ok arrived r ->
  arrived !! ctx_circuitKey ctx = Some (ctx_hash ctx) -> (ctx_amp ctx = None -> h = ctx_hash ctx) ->
  (forall p k ht o, r = HtlcSettleResolution p k ht o -> k = ctx_circuitKey ctx) ->
  resolve i ctx chan inv r = (i', x) ->
  reg_ok arrived i' /\ forall r' e, x = Ok (r', e) -> resolution_ok arrived r'.
Proof.
  intros Hi Hok Hr Harr Hh Hk. unfold resolve. destruct r as [k ht o|p k ht o|k rel o].
  - intros [= <- <-]. split; [|by intros ? ? [= <- <-]].
    destruct (IsSetFailure o); [|done]. apply notify_all_ok; [done|apply fail_notices_ok].
  - intros [= <- <-]. split; [|by intros ? ? [= <- <-]].
    apply notify_all_ok; [|apply fail_notices_ok]. apply notify_all_ok; [done|].
    eapply settle_notices_ok; [exact Hok|]. intros Hid.
    assert (ctx_amp ctx = None) as Ha by (unfold ctx_setID in Hid; by destruct (ctx_amp ctx)).
    specialize (Hk p k ht o eq_refl) as ->. destruct Hr as (h' & Hh' & Hd). rewrite Hd, (Hh Ha).
    simpl in *. congruence.
  - destruct (Htlcs inv !! ctx_circuitKey ctx) as [y|]; intros [= <- <-]; [|done].
    split; [by apply subscribe_ok|]. by intros ? ? [= <- <-].
Qed.

Lemma invoiceRef_hash ctx h : (forall h', ref_payHash (invoiceRef ctx) = Some h' -> h' = h) ->
  ctx_mpp ctx = None \/ ctx_amp ctx = None -> h = ctx_hash ctx.
Proof.
  unfold invoiceRef. intros Hh Hn. symmetry. apply Hh. destruct (ctx_amp ctx), (ctx_mpp ctx); try done.
  by destruct Hn.
Qed.

Lemma locked_ok now arrived i ctx chan i' x :
  reg_ok arrived i -> wf_ctx ctx -> wf_stamp now -> arrived !! ctx_circuitKey ctx = Some (ctx_hash ctx) ->
  notifyExitHopHtlcLocked now i ctx chan = (i', x) ->
  reg_ok arrived i' /\ forall r e, x = Ok (r, e) -> resolution_ok arrived r.
Proof.
  intros Hi Hc Hn Harr. unfold notifyExitHopHtlcLocked.
  destruct (UpdateInvoice _ _ _ _ _) as [[[db inv] [r upd]]|e|] eqn:Eu.
  2:{ intros [= <- <-]. split; [done|]. intros r e'. case_bool_decide; [by intros [= <- <-]|done]. }
  2:{ by intros [= <- <-]. }
  apply (UpdateInvoice_ok now arrived) in Eu as (Hdb & n & h & j & u & Hh & _ & Hhash & _ & Hj & Hcb & Hinv & _).
  - apply htlc_callback_inv in Hcb.
    apply (updateInvoice_answer now arrived h) in Hcb as [[Hr Hk] _]; [|done..|by apply invoiceRef_hash].
    destruct (resolve _ _ _ _ _) as [i1 y] eqn:Er.
    eapply resolve_ok in Er as [Hi1 Hy]; [|by apply reg_ok_db|exact Hinv|exact Hr|exact Harr| |].
    + destruct y as [[r1 e1]|e1|]; intros [= <- <-]; [|done..]. split; [|by intros ? ? [= <- <-]; eapply Hy].
      destruct upd; [by apply notifyClients_ok|done].
    + intros Ha. eapply invoiceRef_hash; [exact Hhash|by right].
    + intros p k ht o ->. done.
  - apply (rk_db _ _ Hi).
  - unfold invoiceRef. by destruct (ctx_amp ctx), (ctx_mpp ctx).
  - intros n' h' j' u' [r' b'] Hh' Hhash' Hj' Hcb'%htlc_callback_inv.
    apply (updateInvoice_answer now arrived h') in Hcb' as [_ Hu]; [by apply Hu|done..|by apply invoiceRef_hash].
Qed.

Lemma settle_hodl_reg_ok now arrived i preimage i' x :
  reg_ok arrived i -> wf_stamp now -> length preimage = 32%nat ->
  SettleHodlInvoice now i preimage = (i', x) -> reg_ok arrived i'.
Proof.
  intros Hi Hn Hl. unfold SettleHodlInvoice.
  destruct (UpdateInvoice _ _ _ _ _) as [[[db inv] []]|e|] eqn:Eu; intros [= <- <-]; [|done..].
  apply (UpdateInvoice_ok now arrived) in Eu as (Hdb & n & h & j & u & Hh & _ & Hhash & _ & Hj & Hcb & Hinv & Hu).
  - destruct (settle_hodl_ok now arrived h j preimage u tt Hn Hj Hl Hcb) as [Ha _].
    apply notifyClients_ok, notify_all_ok; [by apply reg_ok_db|].
    apply Forall_fmap, Forall_forall. intros [k y] Hin. rewrite range_entries in Hin.
    apply elem_of_map_to_list, map_lookup_filter_Some in Hin as [Hy _]. simpl. exists h.
    assert (is_amp_invoice inv = false) as Ha'.
    { destruct u as [u|]; [|by subst]. destruct Hu as (st & state & p & d & x0 & m & paid & amp & Happ & ->).
      by rewrite (app_invoice _ _ _ _ _ _ _ _ _ _ _ _ _ _ Happ). }
    split; [|by apply Hhash].
    destruct (io_htlcs _ _ _ Hinv k y Hy) as [Hkh _]. unfold htlc_hash in Hkh.
    destruct (mo_htlcs _ (io_mpp _ _ _ Hinv Ha') k y Hy) as [E _]. by rewrite E in Hkh.
  - apply (rk_db _ _ Hi).
  - done.
  - intros n' h' j' u' a' Hh' Hhash' Hj' Hcb'.
    destruct (settle_hodl_ok now arrived h' j' preimage (Some u') a' Hn Hj' Hl Hcb') as [_ ?]. auto.
Qed.

Lemma try_delete_ok arrived i refs i' x :
  reg_ok arrived i -> try_delete i refs = (i', x) -> reg_ok arrived i'.
Proof.
  intros Hi. unfold try_delete. destruct (DeleteInvoice _ _) as [db|e|] eqn:Ed; intros [= <- <-]; try done.
  apply reg_ok_db; [done|]. eapply DeleteInvoice_ok; [apply (rk_db _ _ Hi)|done].
Qed.

Lemma cancel_reg_ok cfg now arrived i hash force i' x :
  reg_ok arrived i -> wf_stamp now -> cancelInvoiceImpl cfg now i hash force = (i', x) -> reg_ok arrived i'.
Proof.
  intros Hi Hn. unfold cancelInvoiceImpl.
  destruct (UpdateInvoice _ _ _ _ _) as [[[db inv] []]|e|] eqn:Eu; [|by intros [= <- <-]..].
  apply (UpdateInvoice_ok now arrived) in Eu as (Hdb & _); [|apply (rk_db _ _ Hi)|done|].
  - apply (reg_ok_db _ _ db Hi) in Hdb. destruct (_ =? _); [by intros [= <- <-]|].
    match goal with |- context [notifyClients ?a ?b ?c ?d] => assert (reg_ok arrived (notifyClients a b c d)) as Hi1 end.
    { apply notifyClients_ok, notify_all_ok; [done|apply fail_notices_ok]. }
    destruct (GcCanceledInvoicesOnTheFly cfg); [by apply try_delete_ok|by intros [= <- <-]].
  - intros n' h' j' u' a' _ _ _. by apply cancel_callback_ok.
Qed.

Lemma cancel_single_reg_ok now arrived i ref key o i' x :
  reg_ok arrived i -> wf_stamp now -> ref_setID ref = None ->
  InvoiceRegistry.cancelSingleHtlc now i ref key o = (i', x) -> reg_ok arrived i'.
Proof.
  intros Hi Hn Hs. unfold InvoiceRegistry.cancelSingleHtlc.
  destruct (UpdateInvoice _ _ _ _ _) as [[[db inv] upd]|e|] eqn:Eu; [|by intros [= <- <-]..].
  apply (UpdateInvoice_ok now arrived) in Eu as (Hdb & _); [|apply (rk_db _ _ Hi)|done|].
  - apply (reg_ok_db _ _ db Hi) in Hdb. destruct (negb upd); [by intros [= <- <-]|].
    destruct (Htlcs inv !! key) as [y|]; intros [= <- <-]; [|done].
    destruct (_ =? _); [by apply notify_ok|done].
  - intros n' h' j' u' a' _ _ _ Hcb. by apply (cancel_single_ok now arrived h') in Hcb as (_ & _ & _ & _ & ?).
Qed.

Record wf_config (cfg : RegistryConfig) : Prop := {
  wg_delta : 0 <= FinalCltvRejectDelta cfg < 2 ^ 31;
  wg_hold : 0 <= KeysendHoldTime cfg < 2 ^ 63;
}.

Lemma add_reg_ok arrived i inv hash i' inv' :
  reg_ok arrived i -> addable hash inv -> counter (reg_db i) + 1 < 2 ^ 32 ->
  InvoiceRegistry.AddInvoice i inv hash = Ok (i', inv') -> reg_ok arrived i'.
Proof.
  intros Hi Ha Hc ([db j] & Ed & Hx)%bind_ok. injection Hx as <- <-.
  apply (AddInvoice_ok arrived) in Ed as [Hdb _]; [|apply (rk_db _ _ Hi)|done..].
  by apply push_expiry_ok, notifyClients_ok, reg_ok_db.
Qed.

Lemma placeholder_addable now terms hodl hash fv :
  wf_time now -> - 2 ^ 31 <= FinalCltvDelta terms < 2 ^ 31 -> - 2 ^ 63 <= term_Expiry terms < 2 ^ 63 ->
  (forall p, PaymentPreimage terms = Some p -> length p = 32%nat /\ digest p = hash) ->
  is_u64 (term_Value terms) -> length (PaymentAddr terms) = 32%nat -> term_Features terms = Some fv ->
  set_Forall is_u16 fv -> HasFeature fv AMPOptional = RequiresFeature fv AMPRequired ->
  (HasFeature fv AMPOptional = true -> PaymentPreimage terms = None) ->
  addable hash (placeholder now terms hodl).
Proof.
  intros Ht Hd He Hp Hv Ha Hf Hu Hb Hn.
  assert (features_of (placeholder now terms hodl) = fv) as Ef by (unfold features_of; simpl; by rewrite Hf).
  split; try done.
  - split; cbn [placeholder Memo inv_PaymentRequest CreationDate SettleDate AddIndex SettleIndex Terms inv_State
      inv_AmtPaid AMPState Htlcs]; try done.
    + intros p Hq. by apply Hp.
    + by exists fv.
  - unfold is_amp_invoice. by rewrite Ef.
  - intros p Hq. by apply Hp.
  - unfold is_amp_invoice. rewrite Ef. done.
Qed.

Lemma keysend_ok cfg now arrived i ctx i' :
  wf_config cfg -> wf_stamp now -> wf_ctx ctx -> reg_ok arrived i -> counter (reg_db i) + 1 < 2 ^ 32 ->
  processKeySend cfg now i ctx = Ok i' -> reg_ok arrived i'.
Proof.
  intros Hg Hn Hc Hi Hnum. unfold processKeySend. destruct (m ← _; _) as [p|]; [|by intros [= <-]].
  destruct (_ && _) eqn:Ep; [|done]. cbn [negb]. apply andb_true_iff in Ep as [El%Nat.eqb_eq Ed%bool_decide_eq_true].
  destruct (bool_decide _); [done|]. destruct (too_soon _ _); [done|].
  unfold ignoring. destruct (InvoiceRegistry.AddInvoice _ _ _) as [[i1 inv]|e|] eqn:Ea; [|by case_bool_decide; intros [= <-]|done].
  intros [= <-]. eapply add_reg_ok; [exact Hi| |exact Hnum|exact Ea].
  pose proof (wg_delta _ Hg). pose proof (wg_hold _ Hg). pose proof (wc_amt _ Hc).
  eapply placeholder_addable; cbn [FinalCltvDelta term_Expiry PaymentPreimage term_Value PaymentAddr term_Features];
    [apply Hn|lia| |by intros q [= <-]|done|done|done|..].
  - destruct (negb _); lia.
  - apply (bool_decide_unpack _). vm_compute. exact I.
  - by vm_compute.
  - by vm_compute.
Qed.

Lemma amp_ok cfg now arrived i ctx i' :
  wf_config cfg -> wf_stamp now -> wf_ctx ctx -> reg_ok arrived i -> counter (reg_db i) + 1 < 2 ^ 32 ->
  processAMP cfg now i ctx = Ok i' -> reg_ok arrived i'.
Proof.
  intros Hg Hn Hc Hi Hnum. unfold processAMP. destruct (ctx_mpp ctx) as [mpp|] eqn:Em; [|done].
  destruct (too_soon _ _); [done|].
  unfold ignoring. destruct (InvoiceRegistry.AddInvoice _ _ _) as [[i1 inv]|e|] eqn:Ea; [|by case_bool_decide; intros [= <-]|done].
  intros [= <-]. eapply add_reg_ok; [exact Hi| |exact Hnum|exact Ea].
  pose proof (wg_delta _ Hg). destruct (wc_mpp _ Hc mpp Em) as [? ?].
  eapply placeholder_addable; cbn [FinalCltvDelta term_Expiry PaymentPreimage term_Value PaymentAddr term_Features];
    [apply Hn|lia|lia|done|done|done|done|..].
  - apply (bool_decide_unpack _). vm_compute. exact I.
  - by vm_compute.
  - done.
Qed.

Lemma spontaneous_ok cfg now arrived i ctx x :
  wf_config cfg -> wf_stamp now -> wf_ctx ctx -> reg_ok arrived i -> counter (reg_db i) + 1 < 2 ^ 32 ->
  process_spontaneous cfg now i ctx = Ok x ->
  match x with inl i' => reg_ok arrived i' | inr r => resolution_ok arrived r end.
Proof.
  intros Hg Hn Hc Hi Hnum. unfold process_spontaneous. destruct (_ && _).
  { destruct (processAMP _ _ _ _) as [i1|e|] eqn:E; intros [= <-]; [|done]. by eapply amp_ok. }
  destruct (_ && _); [|by intros [= <-]].
  destruct (processKeySend _ _ _ _) as [i1|e|] eqn:E; intros [= <-]; [|done]. by eapply keysend_ok.
Qed.

Lemma start_ok cfg arrived db height i' x :
  db_ok arrived db -> scanInvoicesOnStart cfg (NewRegistry db height) = (i', x) -> reg_ok arrived i'.
Proof.
  intros Hdb. assert (reg_ok arrived (NewRegistry db height)) as Hi by (split; [done|by constructor..|done]).
  unfold scanInvoicesOnStart. destruct (ScanInvoices _ _ _) as [[pending removable]|e|]; [|by intros [= <- <-]..].
  apply (pushInvoices_ok arrived pending) in Hi. destruct removable as [|r l]; [by intros [= <- <-]|].
  by apply try_delete_ok.
Qed.

Lemma release_ok now arrived i pos i' :
  reg_ok arrived i -> wf_stamp now -> auto_release now i pos = Some i' -> reg_ok arrived i'.
Proof.
  intros Hi Hn. unfold auto_release. destruct (autoReleaseHeap i !! pos) as [e|] eqn:Ee; [|done].
  destruct (negb _); [done|]. destruct (Before _ _); [done|].
  destruct (InvoiceRegistry.cancelSingleHtlc _ _ _ _ _) as [i1 x] eqn:Ec. intros Hx.
  assert (reg_ok arrived i1) as Hi1; [|destruct x; by simplify_eq].
  eapply cancel_single_reg_ok; [|done| |exact Ec].
  - destruct Hi as [? ? Hp ?]. split; try done. cbn [autoReleaseHeap with_heap].
    by apply Forall_delete.
  - pose proof (rk_heap _ _ Hi) as Hp. rewrite Forall_lookup in Hp. by eapply Hp.
Qed.

Lemma expire_ok cfg now arrived i pos i' :
  reg_ok arrived i -> wf_stamp now ->
  cancelNextExpiredInvoice cfg now i pos = Some i' \/ cancelNextHeightExpiredInvoice cfg now i pos = Some i' ->
  reg_ok arrived i'.
Proof.
  intros Hi Hn. assert (forall hash force i1, expireInvoice cfg now i hash force = Some i1 -> reg_ok arrived i1) as He.
  { intros hash force i1. unfold expireInvoice. destruct (cancelInvoiceImpl _ _ _ _ _) as [i2 x] eqn:Ec.
    apply cancel_reg_ok with (arrived := arrived) in Ec; [|done..]. by destruct x; intros [= <-]. }
  intros [Hx|Hx]; [unfold cancelNextExpiredInvoice in Hx; destruct (timestampExpiryQueue i !! pos) as [e|]; [|done]
    |unfold cancelNextHeightExpiredInvoice in Hx; destruct (blockExpiryQueue i !! pos) as [e|]; [|done]];
    (destruct (negb _); [done|]); (destruct (negb _); [done|]);
    apply bind_Some in Hx as (i1 & E1%He & [= <-]); by eapply reg_ok_ext.
Qed.
End Run.
