(* ===== verification/InvoiceThms.v ===== *)
(** * What the invoice registry guarantees

    The interleavings of the registry's operations as a step relation, and the theorems
    about what it tells the links, what it stores, and when it lets an HTLC go. *)

From S2P Require Import Prelude Sha256 Ids Tlv Features PaymentCodec Amp Payments InvoiceCodec InvoiceCodecInv Invoices InvoiceInv InvoiceRegistry InvoiceDbInv InvoiceRun.

(** ** Runs *)

(** The registry together with the calls in flight: an HTLC whose spontaneous invoice was
    dealt with and that waits for the lock, one that has been resolved and whose timers are
    yet to be started, and what the links were told in return.  [run_arrived] has the
    payment hash of every HTLC the links have presented. *)
Record reg_run := {
  run_reg : registry;
  run_arrived : gmap CircuitKey (list byte);
  run_ready : list invoiceUpdateCtx;
  run_pending : list (invoiceUpdateCtx * HtlcResolution * option invoiceExpiry);
  run_returned : list HtlcResolution;
}.

Definition on_reg (s : reg_run) (i : registry) : reg_run :=
  {| run_reg := i; run_arrived := run_arrived s; run_ready := run_ready s; run_pending := run_pending s;
     run_returned := run_returned s |}.

Definition is_panic {A} (r : res A) : bool := match r with Panic => true | _ => false end.

Section Runs.
Context `{Hasher} `{Secp256k1} `{GoRange} `{TimeZone} `{WireVarInt}.
Variable cfg : RegistryConfig.

Definition initial_run (height : Z) : reg_run :=
  {| run_reg := NewRegistry empty_db height; run_arrived := ∅; run_ready := []; run_pending := [];
     run_returned := [] |}.

(** A link presents the same HTLC again after it restarts; it has the same hash then. *)
Definition presents (s : reg_run) (ctx : invoiceUpdateCtx) : Prop :=
  wf_ctx ctx /\ (run_arrived s !! ctx_circuitKey ctx = None \/
                 run_arrived s !! ctx_circuitKey ctx = Some (ctx_hash ctx)).

Definition arrive (s : reg_run) (ctx : invoiceUpdateCtx) (i : registry) (ready : list invoiceUpdateCtx)
    (returned : list HtlcResolution) : reg_run :=
  {| run_reg := i; run_arrived := <[ctx_circuitKey ctx := ctx_hash ctx]> (run_arrived s);
     run_ready := run_ready s ++ ready; run_pending := run_pending s;
     run_returned := run_returned s ++ returned |}.

(** A panic stops the program, which then restarts from what is stored. *)
Inductive reg_step : reg_run -> reg_run -> Prop :=
| step_add s invoice hash i invoice' :
    addable hash invoice -> counter (reg_db (run_reg s)) + 1 < 2 ^ 32 ->
    InvoiceRegistry.AddInvoice (run_reg s) invoice hash = Ok (i, invoice') ->
    reg_step s (on_reg s i)
| step_arrive s now ctx i :
    presents s ctx -> wf_stamp now -> counter (reg_db (run_reg s)) + 1 < 2 ^ 32 ->
    process_spontaneous cfg now (run_reg s) ctx = Ok (inl i) ->
    reg_step s (arrive s ctx i [ctx] [])
| step_refuse s now ctx r :
    presents s ctx -> wf_stamp now -> counter (reg_db (run_reg s)) + 1 < 2 ^ 32 ->
    process_spontaneous cfg now (run_reg s) ctx = Ok (inr r) ->
    reg_step s (arrive s ctx (run_reg s) [] [r])
| step_resolve s now ctx l1 l2 chan i r e :
    run_ready s = l1 ++ ctx :: l2 -> wf_stamp now ->
    notifyExitHopHtlcLocked now (run_reg s) ctx chan = (i, Ok (r, e)) ->
    reg_step s {| run_reg := i; run_arrived := run_arrived s; run_ready := l1 ++ l2;
                  run_pending := run_pending s ++ [(ctx, r, e)]; run_returned := run_returned s |}
| step_error s now ctx l1 l2 chan i e :
    run_ready s = l1 ++ ctx :: l2 -> wf_stamp now ->
    notifyExitHopHtlcLocked now (run_reg s) ctx chan = (i, Err e) ->
    reg_step s {| run_reg := i; run_arrived := run_arrived s; run_ready := l1 ++ l2;
                  run_pending := run_pending s; run_returned := run_returned s |}
| step_finish s ctx r e l1 l2 i o :
    run_pending s = l1 ++ (ctx, r, e) :: l2 ->
    finish_exit_hop cfg (run_reg s) ctx r e = (i, o) ->
    reg_step s {| run_reg := i; run_arrived := run_arrived s; run_ready := run_ready s;
                  run_pending := l1 ++ l2; run_returned := run_returned s ++ option_list o |}
| step_settle s now preimage i x :
    wf_stamp now -> length preimage = 32%nat ->
    SettleHodlInvoice now (run_reg s) preimage = (i, x) -> is_panic x = false ->
    reg_step s (on_reg s i)
| step_cancel s now hash i x :
    wf_stamp now -> CancelInvoice cfg now (run_reg s) hash = (i, x) -> is_panic x = false ->
    reg_step s (on_reg s i)
| step_unsubscribe s chan : reg_step s (on_reg s (HodlUnsubscribeAll (run_reg s) chan))
| step_release s now pos i :
    wf_stamp now -> auto_release now (run_reg s) pos = Some i -> reg_step s (on_reg s i)
| step_expire s now pos i :
    wf_stamp now -> cancelNextExpiredInvoice cfg now (run_reg s) pos = Some i -> reg_step s (on_reg s i)
| step_expire_height s now pos i :
    wf_stamp now -> cancelNextHeightExpiredInvoice cfg now (run_reg s) pos = Some i ->
    reg_step s (on_reg s i)
| step_block s height : reg_step s (on_reg s (new_block (run_reg s) height))
| step_event s : reg_step s (on_reg s (handle_event (run_reg s)))
| step_client s addIndex settleIndex i id client :
    SubscribeNotifications (run_reg s) addIndex settleIndex = Ok (i, id, client) ->
    reg_step s (on_reg s (register_client i id client))
| step_single s hash i : SubscribeSingleInvoice (run_reg s) hash = Ok i -> reg_step s (on_reg s i)
| step_leave s id : reg_step s (on_reg s (cancel_client (run_reg s) id))
| step_restart s height i x :
    scanInvoicesOnStart cfg (NewRegistry (reg_db (run_reg s)) height) = (i, x) ->
    reg_step s {| run_reg := i; run_arrived := run_arrived s; run_ready := []; run_pending := [];
                  run_returned := run_returned s |}.

Inductive reachable (height : Z) : reg_run -> Prop :=
| reach_start : reachable height (initial_run height)
| reach_step s s' : reachable height s -> reg_step s s' -> reachable height s'.

(** ** The invariant of runs *)

Record run_ok (s : reg_run) : Prop := {
  ro_reg : reg_ok (run_arrived s) (run_reg s);
  ro_ready : Forall (fun ctx => wf_ctx ctx /\
    run_arrived s !! ctx_circuitKey ctx = Some (ctx_hash ctx)) (run_ready s);
  ro_pending : Forall (fun x => resolution_ok (run_arrived s) x.1.2) (run_pending s);
  ro_returned : Forall (resolution_ok (run_arrived s)) (run_returned s);
}.

Lemma resolution_ok_mono arrived arrived' r :
  arrived ⊆ arrived' -> resolution_ok arrived r -> resolution_ok arrived' r.
Proof.
  intros Hs. destruct r; try done. intros (h & Hh & Hd). exists h. split; [by eapply lookup_weaken|done].
Qed.

Lemma reg_ok_mono arrived arrived' i : arrived ⊆ arrived' -> reg_ok arrived i -> reg_ok arrived' i.
Proof.
  intros Hs [Hdb Hr Hp Hm]. split; try done.
  - by eapply db_ok_mono.
  - eapply Forall_impl; [exact Hr|]. intros x. by apply resolution_ok_mono.
Qed.

Lemma presents_mono s ctx :
  presents s ctx -> run_arrived s ⊆ <[ctx_circuitKey ctx := ctx_hash ctx]> (run_arrived s).
Proof.
  intros [_ [Hn|Hs]]; [by apply insert_subseteq|]. by rewrite insert_id.
Qed.

Lemma run_ok_mono s arrived' : run_arrived s ⊆ arrived' -> run_ok s ->
  run_ok {| run_reg := run_reg s; run_arrived := arrived'; run_ready := run_ready s;
            run_pending := run_pending s; run_returned := run_returned s |}.
Proof.
  intros Hs [Hr Hy Hp Ht]. split; simpl.
  - by eapply reg_ok_mono.
  - eapply Forall_impl; [exact Hy|]. intros ctx [? ?]. split; [done|]. by eapply lookup_weaken.
  - eapply Forall_impl; [exact Hp|]. intros x. by apply resolution_ok_mono.
  - eapply Forall_impl; [exact Ht|]. intros x. by apply resolution_ok_mono.
Qed.

Lemma on_reg_ok s i : run_ok s -> reg_ok (run_arrived s) i -> run_ok (on_reg s i).
Proof. intros [] Hi. by split. Qed.

Lemma arrive_ok s ctx i ready returned :
  run_ok s -> presents s ctx -> (ready = [ctx] \/ ready = []) ->
  reg_ok (<[ctx_circuitKey ctx := ctx_hash ctx]> (run_arrived s)) i ->
  Forall (resolution_ok (<[ctx_circuitKey ctx := ctx_hash ctx]> (run_arrived s))) returned ->
  run_ok (arrive s ctx i ready returned).
Proof.
  intros Hok Hp Hr Hi Ht. pose proof (run_ok_mono s _ (presents_mono s ctx Hp) Hok) as [_ Hy Hpe Hre].
  simpl in *. split; simpl; [done| |done|by apply Forall_app].
  apply Forall_app. split; [done|]. destruct Hr as [->| ->]; [|done]. apply Forall_singleton.
  split; [apply Hp|]. apply lookup_insert_eq.
Qed.

Lemma client_reg_ok arrived i a s i' id client :
  reg_ok arrived i -> SubscribeNotifications i a s = Ok (i', id, client) ->
  reg_ok arrived (register_client i' id client).
Proof. intros Hi (c & _ & Hx)%bind_ok. injection Hx as <- <- <-. by eapply reg_ok_ext. Qed.

Lemma single_reg_ok arrived i hash i' :
  reg_ok arrived i -> SubscribeSingleInvoice i hash = Ok i' -> reg_ok arrived i'.
Proof. intros Hi (c & _ & Hx)%bind_ok. injection Hx as <-. by eapply reg_ok_ext. Qed.

Lemma event_reg_ok arrived i : reg_ok arrived i -> reg_ok arrived (handle_event i).
Proof.
  intros Hi. unfold handle_event. destruct (invoiceEvents i) as [|[e|id s] rest]; [done|..]; by eapply reg_ok_ext.
Qed.

Lemma finish_exit_hop_ok arrived i ctx r e i' o :
  reg_ok arrived i -> resolution_ok arrived r -> finish_exit_hop cfg i ctx r e = (i', o) ->
  reg_ok arrived i' /\ Forall (resolution_ok arrived) (option_list o).
Proof.
  intros Hi Hr. unfold finish_exit_hop. apply (push_expiry_ok arrived i e) in Hi.
  destruct r as [k ht f|p k ht f|k rel f]; intros [= <- <-]; [by split; [|constructor]..|].
  split; [|by constructor]. destruct rel as [t|]; [|done]. destruct Hi as [? ? Hp ?]. split; try done.
  cbn [startHtlcTimer autoReleaseHeap with_heap]. apply Forall_app. split; [done|]. apply Forall_singleton.
  simpl. unfold invoiceRef. by destruct (ctx_amp ctx), (ctx_mpp ctx).
Qed.

Lemma reg_step_ok s s' : wf_config cfg -> run_ok s -> reg_step s s' -> run_ok s'.
Proof.
  intros Hg Hok Hst. pose proof (ro_reg _ Hok) as Hi.
  destruct Hst as [s inv hash i inv' Ha Hc E|s now ctx i Hp Hn Hc E|s now ctx r Hp Hn Hc E
    |s now ctx l1 l2 chan i r e Hl Hn E|s now ctx l1 l2 chan i e Hl Hn E|s ctx r e l1 l2 i o Hl E
    |s now p i x Hn Hl E _|s now hash i x Hn E _|s chan|s now pos i Hn E|s now pos i Hn E|s now pos i Hn E
    |s height|s|s a t i id client E|s hash i E|s id|s height i x E].
  - apply on_reg_ok; [done|]. by eapply add_reg_ok.
  - apply arrive_ok; [done..|by left| |by constructor].
    eapply (spontaneous_ok _ _ _ _ _ (inl i)); [done..|by apply Hp| |done|exact E].
    eapply reg_ok_mono; [by apply presents_mono|done].
  - apply arrive_ok; [done..|by right| |].
    + eapply reg_ok_mono; [by apply presents_mono|done].
    + apply Forall_singleton. eapply (spontaneous_ok _ _ _ _ _ (inr r)); [done..|by apply Hp| |done|exact E].
      eapply reg_ok_mono; [by apply presents_mono|done].
  - destruct Hok as [_ Hy Hpe Hre]. rewrite Hl in Hy. apply Forall_app in Hy as [Hy1 Hy2].
    apply Forall_cons in Hy2 as [[Hw Ha] Hy2].
    destruct (locked_ok now _ _ ctx chan i _ Hi Hw Hn Ha E) as [Hi' Hr].
    split; simpl; [done|by apply Forall_app| |done]. apply Forall_app. split; [done|]. apply Forall_singleton.
    by eapply Hr.
  - destruct Hok as [_ Hy Hpe Hre]. rewrite Hl in Hy. apply Forall_app in Hy as [Hy1 Hy2].
    apply Forall_cons in Hy2 as [[Hw Ha] Hy2].
    destruct (locked_ok now _ _ ctx chan i _ Hi Hw Hn Ha E) as [Hi' _].
    split; simpl; [done|by apply Forall_app|done|done].
  - destruct Hok as [_ Hy Hpe Hre]. rewrite Hl in Hpe. apply Forall_app in Hpe as [Hp1 Hp2].
    apply Forall_cons in Hp2 as [Hr Hp2]. destruct (finish_exit_hop_ok _ _ ctx r e i o Hi Hr E) as [Hi' Ho].
    split; simpl; [done|done|by apply Forall_app|by apply Forall_app].
  - apply on_reg_ok; [done|]. by eapply settle_hodl_reg_ok.
  - apply on_reg_ok; [done|]. by eapply cancel_reg_ok.
  - apply on_reg_ok; [done|]. by apply unsubscribe_ok.
  - apply on_reg_ok; [done|]. by eapply release_ok.
  - apply on_reg_ok; [done|]. eapply expire_ok; [done..|by left].
  - apply on_reg_ok; [done|]. eapply expire_ok; [done..|by right].
  - apply on_reg_ok; [done|]. by eapply reg_ok_ext.
  - apply on_reg_ok; [done|]. by apply event_reg_ok.
  - apply on_reg_ok; [done|]. by eapply client_reg_ok.
  - apply on_reg_ok; [done|]. by eapply single_reg_ok.
  - apply on_reg_ok; [done|]. by eapply reg_ok_ext.
  - destruct Hok. split; simpl; [|by constructor..|done]. eapply start_ok; [apply (rk_db _ _ Hi)|exact E].
Qed.

Lemma empty_db_ok arrived : db_ok arrived empty_db.
Proof. split; try done. Qed.

Lemma reachable_ok height s : wf_config cfg -> reachable height s -> run_ok s.
Proof.
  intros Hg. induction 1 as [|s s' _ IH Hst]; [|by eapply reg_step_ok].
  split; simpl; [|by constructor..]. split; [apply empty_db_ok|by constructor..|done].
Qed.

(** ** What is read *)

Lemma LookupInvoice_ok arrived db h i :
  db_ok arrived db -> LookupInvoice db (InvoiceRefByHash h) = Ok i -> invoice_ok arrived h i.
Proof.
  intros Hdb. unfold LookupInvoice. destruct (invoiceIndex db) as [index|] eqn:Ei; [|done].
  intros (n & En & Hf)%bind_ok. destruct (fetchInvoice_ok arrived db n _ i Hdb Hf) as (h' & Hh' & Hok).
  assert (hashes db !! h = Some n) as Hh by (by eapply (hashes_of_ref arrived db index (InvoiceRefByHash h))).
  by rewrite (dk_inj _ _ Hdb h h' n Hh Hh').
Qed.

End Runs.

(** ** Safety *)

(** C4. The registry never gives away a wrong preimage: over every interleaving of its
    operations, restarts included, a settle resolution that a link is sent or returned
    carries a preimage of the payment hash of the HTLC it is for. *)
Theorem settled_with_preimage `{Hasher} `{Secp256k1} `{GoRange} `{TimeZone} `{WireVarInt}
    (cfg : RegistryConfig) (start : Z) (s : reg_run) (p : list byte) (k : CircuitKey) (height : Z)
    (o : SettleResolutionResult) :
  wf_config cfg -> reachable cfg start s ->
  (exists chan, (chan, HtlcSettleResolution p k height o) ∈ reg_sent (run_reg s)) \/
  HtlcSettleResolution p k height o ∈ run_returned s ->
  run_arrived s !! k = Some (digest p).
Proof.
  intros Hg Hr Hin. pose proof (reachable_ok cfg start s Hg Hr) as Hok.
  assert (resolution_ok (run_arrived s) (HtlcSettleResolution p k height o)) as (h & Hh & <-); [|done].
  destruct Hin as [[chan Hin]|Hin].
  - pose proof (rk_sent _ _ (ro_reg _ Hok)) as Hs. rewrite Forall_forall in Hs. exact (Hs _ Hin).
  - pose proof (ro_returned _ Hok) as Hs. rewrite Forall_forall in Hs. by apply Hs.
Qed.

(** C10. What is stored accounts for what was paid: over every interleaving, an invoice
    without AMP that is looked up by its hash is in one of the four states; its HTLCs are
    accepted or canceled while it is open or accepted, settled or canceled once it is settled,
    and all canceled once it is canceled; the amount paid is zero while it is open
    and then the sum of the HTLCs that are accepted or settled, in 64 bits, and that sum
    covers the value of an invoice that is accepted or settled; and the preimage of a settled invoice is known, and is that of its hash. *)
Theorem stored_invoice_paid `{Hasher} `{Secp256k1} `{GoRange} `{TimeZone} `{WireVarInt}
    (cfg : RegistryConfig) (start : Z) (s : reg_run) (h : list byte) (i : Invoice) :
  wf_config cfg -> reachable cfg start s ->
  LookupInvoice (reg_db (run_reg s)) (InvoiceRefByHash h) = Ok i -> is_amp_invoice i = false ->
  (inv_State i = ContractOpen \/ inv_State i = ContractSettled \/ inv_State i = ContractCanceled \/
   inv_State i = ContractAccepted) /\
  map_Forall (fun k x => fits (inv_State i) (htlc_State x) /\ run_arrived s !! k = Some h) (Htlcs i) /\
  inv_AmtPaid i = u64 (if inv_State i =? ContractOpen then 0 else paid_by (Htlcs i)) /\
  (inv_State i = ContractAccepted \/ inv_State i = ContractSettled ->
   term_Value (Terms i) <= paid_by (Htlcs i)) /\
  (inv_State i = ContractSettled -> exists p, PaymentPreimage (Terms i) = Some p /\ digest p = h).
Proof.
  intros Hg Hr Hl Ha. pose proof (reachable_ok cfg start s Hg Hr) as Hok.
  pose proof (LookupInvoice_ok _ _ h i (rk_db _ _ (ro_reg _ Hok)) Hl) as Hi.
  pose proof (io_mpp _ _ _ Hi Ha) as [Hm Hs Hp Hv Hk]. split_and!; try done.
  - intros k x Hx. destruct (Hm k x Hx) as (Hn & Hf & _). split; [done|].
    destruct (io_htlcs _ _ _ Hi k x Hx) as [Hh _]. unfold htlc_hash in Hh. by rewrite Hn in Hh.
  - intros E. destruct (Hk E) as [p Ep]. exists p. split; [done|]. by apply (io_preimage _ _ _ Hi).
Qed.

(** ** A run *)

#[refine, local] Instance entries_range : GoRange := {| range K _ _ V m := map_to_list m |}.
Proof. intros. done. Defined.

#[refine, local] Instance utc : TimeZone := {| offsetMin _ := -1 |}.
Proof. intros. lia. Defined.

#[refine, local] Instance wire_size : WireVarInt :=
  {| VarIntSerializeSize v := Z.of_nat (length (WriteVarInt v)) |}.
Proof. intros. done. Defined.

Definition ex_config : RegistryConfig :=
  {| FinalCltvRejectDelta := 19; HtlcHoldDuration := 120 * 10 ^ 9; AcceptKeySend := false; AcceptAMP := true;
     GcCanceledInvoicesOnStartup := true; GcCanceledInvoicesOnTheFly := false; KeysendHoldTime := 0;
     blockExpiryDelta := 3 |}.

Definition ex_now : Time := UnixNano 1650000000000000000.
Definition ex_preimage : list byte := replicate 32 x07.
Definition ex_pay_hash : list byte := digest ex_preimage.

Definition ex_added : Invoice :=
  {| Memo := [x61]; inv_PaymentRequest := [x62; x63]; CreationDate := UnixNano 1600000000000000000;
     SettleDate := ZeroTime;
     Terms := {| FinalCltvDelta := 40; term_Expiry := 3600000000000;
                 PaymentPreimage := Some ex_preimage; term_Value := 100;
                 PaymentAddr := replicate 32 x08;
                 term_Features := Some (NewRawFeatureVector [9; 14; 17]) |};
     AddIndex := 0; SettleIndex := 0; inv_State := ContractOpen; inv_AmtPaid := 0;
     Htlcs := ∅; AMPState := ∅; HodlInvoice := false |}.

Definition ex_ctx (id amt : Z) : invoiceUpdateCtx :=
  exit_ctx ex_config ex_pay_hash amt 700100 700000
    {| ChanID := {| BlockHeight := 600000; TxIndex := 3; TxPosition := 1 |}; HtlcID := id |}
    (Some ∅) (Some {| paymentAddr := replicate 32 x08; totalMAtoms := 100 |}) None.

(** The state after an operation that succeeds. *)
Definition added_run (s : reg_run) (inv : Invoice) (hash : list byte) : reg_run :=
  match InvoiceRegistry.AddInvoice (run_reg s) inv hash with Ok (i, _) => on_reg s i | _ => s end.

Definition exit_hop_run (s : reg_run) (ctx : invoiceUpdateCtx) (chan : Z) : reg_run :=
  match process_spontaneous ex_config ex_now (run_reg s) ctx with
  | Ok (inl i) =>
      let s := arrive s ctx i [ctx] [] in
      match notifyExitHopHtlcLocked ex_now (run_reg s) ctx chan with
      | (i, Ok (r, e)) =>
          let '(i, o) := finish_exit_hop ex_config i ctx r e in
          {| run_reg := i; run_arrived := run_arrived s; run_ready := []; run_pending := [];
             run_returned := run_returned s ++ option_list o |}
      | _ => s
      end
  | _ => s
  end.

Definition ex_run0 : reg_run := added_run (initial_run 700000) ex_added ex_pay_hash.
Definition ex_run1 : reg_run := exit_hop_run ex_run0 (ex_ctx 4 40) 11.
Definition ex_run2 : reg_run := exit_hop_run ex_run1 (ex_ctx 5 60) 12.

Example ex_run2_settles :
  reg_sent (run_reg ex_run2) =
    [(11, HtlcSettleResolution ex_preimage (ctx_circuitKey (ex_ctx 4 40)) 700000 ResultSettled)] /\
  run_returned ex_run2 =
    [HtlcSettleResolution ex_preimage (ctx_circuitKey (ex_ctx 5 60)) 700000 ResultSettled].
Proof. vm_compute. split; reflexivity. Qed.

Lemma added_reachable s inv hash :
  reachable ex_config 700000 s -> addable hash inv -> counter (reg_db (run_reg s)) + 1 < 2 ^ 32 ->
  reachable ex_config 700000 (added_run s inv hash).
Proof.
  intros Hr Ha Hc. unfold added_run.
  destruct (InvoiceRegistry.AddInvoice _ _ _) as [[i inv']|e|] eqn:E; [|done..].
  eapply reach_step; [exact Hr|]. by eapply step_add.
Qed.

Lemma exit_hop_reachable s ctx chan :
  reachable ex_config 700000 s -> presents s ctx -> counter (reg_db (run_reg s)) + 1 < 2 ^ 32 ->
  run_ready s = [] -> run_pending s = [] -> reachable ex_config 700000 (exit_hop_run s ctx chan).
Proof.
  intros Hr Hp Hc E1 E2. unfold exit_hop_run.
  destruct (process_spontaneous _ _ _ _) as [[i|r]|e|] eqn:Es; [|done..]. cbv zeta.
  assert (wf_stamp ex_now) as Hn by done.
  assert (reachable ex_config 700000 (arrive s ctx i [ctx] [])) as Hr1.
  { eapply reach_step; [exact Hr|]. by eapply step_arrive. }
  destruct (notifyExitHopHtlcLocked _ _ _ _) as [i1 [[r e]|e|]] eqn:El; [|done..].
  destruct (finish_exit_hop _ _ _ _ _) as [i2 o] eqn:Ef.
  set (s1 := arrive s ctx i [ctx] []) in *.
  assert (run_ready s1 = [] ++ ctx :: []) as E3 by (by simpl; rewrite E1).
  pose proof (step_resolve ex_config s1 ex_now ctx [] [] chan i1 r e E3 Hn El) as S1.
  apply (reach_step _ _ _ _ Hr1) in S1. set (s2 := {| run_reg := i1 |}) in S1.
  assert (run_pending s2 = [] ++ (ctx, r, e) :: []) as E4 by (by simpl; rewrite E2).
  exact (reach_step _ _ _ _ S1 (step_finish ex_config s2 ctx r e [] [] i2 o E4 Ef)).
Qed.

Lemma ex_config_wf : wf_config ex_config.
Proof. by split. Qed.

Lemma ex_addable : addable ex_pay_hash ex_added.
Proof.
  split; [|reflexivity..| |].
  - split; try done.
    + by intros p [= <-].
    + exists (NewRawFeatureVector [9; 14; 17]). split; [done|]. apply (bool_decide_unpack _). by vm_compute.
  - intros p [= <-]. vm_compute. reflexivity.
  - intros E. vm_compute in E. discriminate.
Qed.

Lemma ex_ctx_wf id amt : 0 <= id < 2 ^ 64 -> 0 <= amt < 2 ^ 64 -> wf_ctx (ex_ctx id amt).
Proof.
  intros Hid Hamt. split; cbn [ex_ctx exit_ctx ctx_circuitKey ctx_hash ctx_amtPaid ctx_expiry ctx_customRecords ctx_mpp ctx_amp]; try done.
  - intros c [= <-]. apply map_Forall_empty.
  - by intros m [= <-].
Qed.

Lemma ex_run0_reachable : reachable ex_config 700000 ex_run0.
Proof. apply added_reachable; [constructor|apply ex_addable|done]. Qed.

Lemma ex_run1_reachable : reachable ex_config 700000 ex_run1.
Proof.
  apply exit_hop_reachable; [apply ex_run0_reachable| |vm_compute; reflexivity..].
  split; [by apply ex_ctx_wf|by left].
Qed.

Lemma ex_run2_reachable : reachable ex_config 700000 ex_run2.
Proof.
  apply exit_hop_reachable; [apply ex_run1_reachable| |vm_compute; reflexivity..].
  split; [by apply ex_ctx_wf|left; vm_compute; reflexivity].
Qed.

Lemma settled_with_preimage_witness :
  run_arrived ex_run2 !! ctx_circuitKey (ex_ctx 4 40) = Some (digest ex_preimage) /\
  run_arrived ex_run2 !! ctx_circuitKey (ex_ctx 5 60) = Some (digest ex_preimage).
Proof.
  destruct ex_run2_settles as [Es Er]. split.
  - apply (settled_with_preimage ex_config 700000 ex_run2 _ _ 700000 ResultSettled ex_config_wf ex_run2_reachable).
    left. exists 11. rewrite Es. apply list_elem_of_here.
  - apply (settled_with_preimage ex_config 700000 ex_run2 _ _ 700000 ResultSettled ex_config_wf ex_run2_reachable).
    right. rewrite Er. apply list_elem_of_here.
Defined.

Lemma ex_run2_stored :
  match LookupInvoice (reg_db (run_reg ex_run2)) (InvoiceRefByHash ex_pay_hash) with
  | Ok i => inv_State i = ContractSettled /\ inv_AmtPaid i = 100 /\ is_amp_invoice i = false
  | _ => False
  end.
Proof. vm_compute. split_and!; reflexivity. Qed.

Lemma stored_invoice_paid_witness :
  exists i, LookupInvoice (reg_db (run_reg ex_run2)) (InvoiceRefByHash ex_pay_hash) = Ok i /\
    inv_State i = ContractSettled /\ inv_AmtPaid i = 100 /\ term_Value (Terms i) <= paid_by (Htlcs i).
Proof.
  pose proof ex_run2_stored as Hx.
  destruct (LookupInvoice (reg_db (run_reg ex_run2)) (InvoiceRefByHash ex_pay_hash)) as [i|e|] eqn:E;
    [|destruct Hx..].
  destruct Hx as (Hs & Hp & Ha). exists i. split; [reflexivity|]. split; [exact Hs|]. split; [exact Hp|].
  apply (stored_invoice_paid ex_config 700000 ex_run2 ex_pay_hash i ex_config_wf ex_run2_reachable E Ha).
  right. exact Hs.
Defined.

(** ** State machines *)

(** The states an update can take an invoice and an HTLC to. *)
Definition state_step (a b : Z) : Prop :=
  b = a \/ a = ContractOpen /\ b <> ContractOpen \/
  a = ContractAccepted /\ b <> ContractOpen /\ b <> ContractAccepted.

Definition htlc_state_step (a b : Z) : Prop :=
  b = a \/ a = HtlcStateAccepted /\ (b = HtlcStateSettled \/ b = HtlcStateCanceled).

Section States.
Context `{Hasher} `{Secp256k1} `{GoRange} `{TimeZone} `{WireVarInt}.

Lemma align_step now update sid state k h h' b :
  align_entry now update sid state k h = Ok (h', b) ->
  htlc_state_step (htlc_State h) (htlc_State h') /\ htlc_Amt h' = htlc_Amt h.
Proof.
  intros (h1 & E1 & E2)%bind_ok.
  assert (htlc_State h1 = htlc_State h /\ htlc_Amt h1 = htlc_Amt h) as [Es Ea].
  { destruct sid; [|by injection E1 as <-]. destruct (desc_State update); [|by injection E1 as <-].
    by apply set_htlc_preimage_ok in E1 as [->|(p & a & _ & _ & _ & ->)]. }
  unfold htlc_state_step. rewrite <- Es, <- Ea.
  apply updateHtlc_ok in E2 as [->|[[-> ?]|(-> & _ & ? & _)]]; simpl; auto.
Qed.

Lemma applied_states now db n hash i update st state p d x m paid amp :
  applied now db n hash i update st state p d x m paid amp ->
  state_step (inv_State i) (inv_State (us_invoice st)) /\
  forall k h, Htlcs i !! k = Some h -> exists h', Htlcs (us_invoice st) !! k = Some h' /\
    htlc_state_step (htlc_State h) (htlc_State h') /\ htlc_Amt h' = htlc_Amt h.
Proof.
  intros [Hi Hf Hc Hs Hh _ _ _ _ _]. rewrite Hi.
  cbn [inv_State Htlcs reshape restate with_amp with_paid with_htlcs with_settle with_preimage with_state]. split.
  - unfold state_step. destruct (desc_State update) as [sd|]; [|by destruct Hs as [-> _]; left].
    destruct Hs as (Htr & -> & _). destruct (_ || _); [|by left].
    pose proof (tr_to _ _ _ _ Htr). pose proof (tr_accept _ _ _ _ Htr) as Ha.
    destruct (tr_from _ _ _ _ Htr) as [E|E]; simpl in E, Ha; [auto|].
    right; right. auto.
  - intros k h Hk. specialize (Hh k).
    assert (changed_htlcs now i update !! k = Some (canceled_entry now (CancelHtlcs update) k h)) as Ec.
    { unfold changed_htlcs. rewrite map_lookup_imap.
      assert ((accept_map now (AddHtlcs update) ∪ Htlcs i) !! k = Some h) as ->; [|done].
      apply lookup_union_Some_raw. right. split; [|done]. unfold accept_map. rewrite lookup_fmap.
      destruct (AddHtlcs update !! k) as [dd|] eqn:Ek; [|done]. destruct (Hf k dd Ek). congruence. }
    rewrite Ec in Hh. destruct Hh as (h' & b & E & Hm). exists h'. split; [done|].
    apply align_step in E as [Hst Ha]. rewrite Ha. unfold canceled_entry in *.
    case_bool_decide as Hin; [|done]. split; [|done].
    destruct (Hc k Hin) as (_ & _ & h0 & Hk0 & Hacc). assert (h0 = h) as -> by congruence.
    simpl in Hst. right. split; [done|]. destruct Hst as [->|[? _]]; [by right|done].
Qed.
End States.

(** An invoice without AMP is read back as it was written. *)
Lemma put_read `{Hasher} `{Secp256k1} `{GoRange} `{TimeZone} `{WireVarInt} (db : invoices_db) n i b o :
  wf_invoice i -> is_amp_invoice i = false -> serializeInvoice i = Ok b ->
  (forall a, ampStateEncoder (AMPState i) = Ok a -> Z.of_nat (length a) <= MaxRecordSize) ->
  fetchInvoice (put_invoice_bytes db n b) n o = Ok i.
Proof.
  intros Hw Ha Hb Hsz. destruct (serializeInvoice_inv i b Hw Hb)
    as (fv & fb & a & hb & Hpre & Efv & Hfb & Dfb & Ea & Ehb & Hla & Hlb & ->).
  unfold fetchInvoice. cbn [put_invoice_bytes invoice_bytes]. rewrite lookup_insert_eq.
  rewrite (invoice_read i fv fb a hb Hw Hpre Efv Hfb Dfb Ea Ehb Hla Hlb).
  rewrite (proj2 (Z.leb_le _ _) (Hsz a Ea)). cbn [mbind res_bind]. unfold as_stored. rewrite Ha. by rewrite Ha.
Qed.

(** C24. Whatever a caller of [UpdateInvoice] asks for, the invoice it returns has moved along
    the allowed transitions only, and a settled or canceled one keeps its state; no HTLC of
    the invoice that was read is missing from it or has another amount, an accepted one is
    settled, canceled or left alone, and one that was settled or canceled keeps its state.
    For an invoice without AMP whose fields have the widths of their types, what is returned
    is also what the database then holds.  Of an AMP invoice the HTLCs are stored by set, and
    a set that grows is stored without its canceled HTLCs: the statement about HTLCs is about
    the returned invoice there. *)
Theorem update_respects_states `{Hasher} `{Secp256k1} `{GoRange} `{TimeZone} `{WireVarInt} {A : Type}
    (now : Time) (db db' : invoices_db) (ref : InvoiceRef) (hint : option (list byte))
    (callback : InvoiceUpdateCallback A) (inv : Invoice) (a : A) :
  UpdateInvoice now db ref hint callback = Ok (db', inv, a) ->
  exists n i, fetchInvoiceNumByRef db (default empty_invoice_index (invoiceIndex db)) ref = Ok n /\
    fetchInvoice db n (Some (default BlankPayAddr hint)) = Ok i /\
    state_step (inv_State i) (inv_State inv) /\
    (forall k h, Htlcs i !! k = Some h -> exists h', Htlcs inv !! k = Some h' /\
      htlc_state_step (htlc_State h) (htlc_State h') /\ htlc_Amt h' = htlc_Amt h) /\
    (is_amp_invoice i = false -> wf_invoice inv ->
     (forall b, ampStateEncoder (AMPState i) = Ok b -> Z.of_nat (length b) <= MaxRecordSize) ->
     forall o, fetchInvoice db' n o = Ok inv).
Proof.
  intros (n & i & u & En & Ei & _ & Hu)%UpdateInvoice_inv. exists n, i. split; [exact En|]. split; [exact Ei|].
  destruct u as [update|].
  - destruct Hu as (st & state & p & d & x & m & paid & amp & b & Happ & -> & Eb & Ed).
    destruct (applied_states _ _ _ _ _ _ _ _ _ _ _ _ _ _ Happ) as [Hs Hh]. split; [exact Hs|]. split; [exact Hh|].
    intros Ha Hw Hsz o. assert (is_amp_invoice (us_invoice st) = false) as Ha'
      by (rewrite (app_invoice _ _ _ _ _ _ _ _ _ _ _ _ _ _ Happ); exact Ha).
    rewrite Ha' in Ed. subst db'. apply put_read; [done..|].
    rewrite (app_invoice _ _ _ _ _ _ _ _ _ _ _ _ _ _ Happ). cbn [AMPState reshape with_amp].
    by rewrite (proj2 (app_mpp _ _ _ _ _ _ _ _ _ _ _ _ _ _ Happ Ha)).
  - destruct Hu as [-> ->]. split; [by left|]. split; [intros k h Hk; exists h; split_and!; try done; by left|].
    intros Ha _ _ o. revert Ei. unfold fetchInvoice. destruct (invoice_bytes _ !! n) as [b|]; [|done].
    destruct (deserializeInvoice b) as [i0| |]; [|done..]. cbn [mbind res_bind].
    destruct (is_amp_invoice i0) eqn:Ha0; cbn [negb]; [|done]. intros Ei. exfalso.
    assert (is_amp_invoice i = true) as Ht; [|congruence]. revert Ei.
    destruct (negb (bool_decide (Htlcs i0 = ∅))); [by intros [= <-]|].
    destruct (bool_decide (Some _ = Some _)); [by intros [= <-]|].
    destruct (fetchAmpSubInvoices _ _ _) as [hs r]. destruct r; [..|done]; by intros [= <-].
Qed.

(** ** Timers *)

Section Timers.
Context `{Hasher} `{Secp256k1} `{GoRange} `{TimeZone} `{WireVarInt}.

(** A loop whose state is a function of what it has gone through. *)
Lemma for_each_exec {A B} (f : A -> B -> res B) (g : list A -> B) l :
  (forall pre a post, l = pre ++ a :: post -> f a (g pre) = Ok (g (pre ++ [a]))) ->
  for_each f l (g []) = Ok (g l).
Proof.
  assert (forall post pre, (forall p a q, pre ++ post = p ++ a :: q -> f a (g p) = Ok (g (p ++ [a]))) ->
    for_each f post (g pre) = Ok (g (pre ++ post))) as Hgen; [|exact (Hgen l [])].
  induction post as [|a post IH]; intros pre Hf; [by rewrite app_nil_r|].
  cbn [for_each]. rewrite (Hf pre a post eq_refl). cbn [mbind res_bind].
  rewrite IH; [by rewrite <- app_assoc|]. by rewrite <- app_assoc.
Qed.

(** What an invoice that was read allows when it is written again. *)
Lemma fetched_readable arrived db n o i :
  db_ok arrived db -> fetchInvoice db n o = Ok i ->
  PaymentPreimage (Terms i) <> Some unknownPreimage /\
  forall a, ampStateEncoder (AMPState i) = Ok a -> Z.of_nat (length a) <= MaxRecordSize.
Proof.
  intros Hdb. unfold fetchInvoice. destruct (invoice_bytes db !! n) as [b|] eqn:Eb; [|done].
  destruct (dk_invoices _ _ Hdb n b Eb) as (h & i0 & Hh & Hser & Hok).
  intros (i1 & E1 & Hf)%bind_ok.
  destruct (serializeInvoice_inv i0 b (io_wf _ _ _ Hok) Hser)
    as (fv & fb & a & hb & Hpre & Efv & Hfb & Dfb & Ea & Ehb & Hla & Hlb & Eb').
  rewrite Eb', (invoice_read i0 fv fb a hb (io_wf _ _ _ Hok) Hpre Efv Hfb Dfb Ea Ehb Hla Hlb) in E1.
  destruct (Z.leb_spec (Z.of_nat (length a)) MaxRecordSize) as [Hle|]; [|done]. apply Ok_inj in E1 as <-.
  assert (Terms i = Terms i0 /\ AMPState i = AMPState i0) as [-> ->].
  { assert (Terms (as_stored i0) = Terms i0 /\ AMPState (as_stored i0) = AMPState i0) as [ET EA]
      by (unfold as_stored; by destruct (is_amp_invoice i0)).
    destruct (negb _); [by apply Ok_inj in Hf as <-|]. destruct (negb _); [by apply Ok_inj in Hf as <-|].
    destruct (bool_decide _); [by apply Ok_inj in Hf as <-|]. destruct (fetchAmpSubInvoices _ _ _) as [m r].
    destruct r; [..|done]; by apply Ok_inj in Hf as <-. }
  split; [done|]. intros a' Ea'. assert (a' = a) as -> by congruence. done.
Qed.

(** One HTLC of an open invoice is canceled. *)
Definition release_desc (key : CircuitKey) : InvoiceUpdateDesc :=
  {| desc_State := None; CancelHtlcs := {[ key ]}; AddHtlcs := ∅; desc_SetID := None |}.

Definition released (now : Time) (i : Invoice) (key : CircuitKey) (h : InvoiceHTLC) : Invoice :=
  with_paid (with_htlcs i (<[key := resolve_htlc h HtlcStateCanceled now]> (Htlcs i))) 0.

Section Release.
Variables (now : Time) (db : invoices_db) (n : Z) (i : Invoice) (key : CircuitKey) (h : InvoiceHTLC).
Hypotheses (Hok : mpp_ok i) (Hamp : is_amp_invoice i = false) (Hopen : inv_State i = ContractOpen)
  (Hkey : Htlcs i !! key = Some h) (Hacc : htlc_State h = HtlcStateAccepted).

Let i1 := with_htlcs i (<[key := resolve_htlc h HtlcStateCanceled now]> (Htlcs i)).

Lemma cancel_pass :
  for_each (cancel_htlc now ContractOpen false ∅) (htlc_keys i)
    ({| us_invoice := i; us_sets := ∅; us_db := db |}, {[ key ]}) =
  Ok ({| us_invoice := i1; us_sets := ∅; us_db := db |}, ∅).
Proof.
  set (g := fun pre : list CircuitKey =>
    if bool_decide (key ∈ pre) then ({| us_invoice := i1; us_sets := ∅; us_db := db |}, ∅)
    else ({| us_invoice := i; us_sets := ∅; us_db := db |}, {[ key ]} : gset CircuitKey)).
  change ({| us_invoice := i; us_sets := ∅; us_db := db |}, {[ key ]} : gset CircuitKey) with (g []).
  rewrite (for_each_exec _ g); unfold g.
  { rewrite bool_decide_true; [done|]. by apply elem_of_htlc_keys. }
  intros pre a post El. pose proof (htlc_keys_NoDup i) as Hnd. rewrite El in Hnd.
  apply NoDup_app in Hnd as (_ & Hd & _). destruct (decide (a = key)) as [->|Hne].
  - assert (key ∉ pre) as Hnot by (intros Hin; apply (Hd key Hin), list_elem_of_here).
    rewrite (bool_decide_false (key ∈ pre)) by done.
    rewrite (bool_decide_true (key ∈ pre ++ [key])) by (apply elem_of_app; right; apply list_elem_of_here).
    unfold cancel_htlc. rewrite bool_decide_true by (by apply elem_of_singleton). cbn [negb us_invoice]. rewrite lookup_empty.
    rewrite bool_decide_false by (intros [? ?]; done). rewrite Hkey. unfold Invoices.cancelSingleHtlc.
    rewrite Hacc. cbn [negb mbind res_bind Z.eqb]. by rewrite difference_diag_L.
  - rewrite (bool_decide_ext (key ∈ pre ++ [a]) (key ∈ pre)).
    2:{ rewrite elem_of_app, list_elem_of_singleton. split; [by intros [?| ->]|auto]. }
    destruct (bool_decide (key ∈ pre)); unfold cancel_htlc; rewrite bool_decide_false; try done.
    by intros ?%elem_of_singleton.
Qed.

Lemma align_pass :
  for_each (align_htlc now (release_desc key) None false) (htlc_keys i1)
    {| al_state := {| us_invoice := i1; us_sets := ∅; us_db := db |}; al_settled := ∅; al_paid := 0 |} =
  Ok {| al_state := {| us_invoice := i1; us_sets := ∅; us_db := db |}; al_settled := ∅; al_paid := 0 |}.
Proof.
  apply (for_each_exec _ (fun _ => {| al_state := {| us_invoice := i1; us_sets := ∅; us_db := db |};
    al_settled := ∅; al_paid := 0 |})).
  intros pre a post El. unfold align_htlc. cbn [al_state us_invoice].
  destruct (Htlcs i1 !! a) as [x|] eqn:Ex; [|done]. cbn [desc_State release_desc mbind res_bind].
  assert (htlc_State x <> HtlcStateSettled) as Hx.
  { unfold i1 in Ex. cbn [Htlcs with_htlcs] in Ex. apply lookup_insert_Some in Ex as [[_ <-]|[_ Ex]]; [done|].
    destruct (mo_htlcs _ Hok a x Ex) as (_ & Hfit & _). rewrite Hopen in Hfit. unfold fits in Hfit.
    destruct Hfit as [[_ [->| ->]]|[[? _]|[? _]]]; done. }
  assert (inv_State i1 = ContractOpen) as Eo by done. unfold updateHtlc. rewrite Eo.
  cbn [Z.eqb ContractOpen ContractSettled]. rewrite (proj2 (Z.eqb_neq _ _) Hx). cbn.

  rewrite Hopen. cbn. rewrite (insert_id _ a x Ex). by destruct i.
Qed.

Lemma release_applied hash :
  apply_update now db n hash i (release_desc key) =
  Ok {| us_invoice := released now i key h; us_sets := ∅; us_db := db |}.
Proof.
  unfold apply_update. cbn [desc_State release_desc AddHtlcs CancelHtlcs desc_SetID]. rewrite Hamp, Hopen.
  assert (range (∅ : gmap CircuitKey HtlcAcceptDesc) = []) as ->
    by (apply Permutation_nil; by rewrite range_entries, map_to_list_empty).
  cbn [for_each mbind res_bind us_invoice]. rewrite cancel_pass. cbn [mbind res_bind].
  rewrite bool_decide_true by done. cbn [negb]. unfold update_invoice_state. cbn [desc_State release_desc mbind res_bind us_invoice].
  change {| desc_State := None; CancelHtlcs := {[key]}; AddHtlcs := ∅; desc_SetID := None |} with (release_desc key).
  rewrite align_pass. cbn [mbind res_bind al_state us_invoice al_settled al_paid us_db us_sets].
  destruct (settle_sets _ _ _ _ _) as [db5 i5] eqn:E5.
  apply settle_sets_ok in E5 as [N5 _]. destruct (N5 eq_refl) as [-> ->]. reflexivity.
Qed.
End Release.

(** The update of the registry's timer. *)
Lemma release_update now arrived db n ref i key h :
  db_ok arrived db -> wf_stamp now ->
  fetchInvoiceNumByRef db (default empty_invoice_index (invoiceIndex db)) ref = Ok n ->
  fetchInvoice db n (Some BlankPayAddr) = Ok i -> is_amp_invoice i = false -> bounded_invoice i ->
  inv_State i = ContractOpen -> Htlcs i !! key = Some h -> htlc_State h = HtlcStateAccepted ->
  exists db', UpdateInvoice now db ref None (cancel_single_callback key) = Ok (db', released now i key h, true) /\
    fetchInvoice db' n (Some BlankPayAddr) = Ok (released now i key h).
Proof.
  intros Hdb Hn En Ei Ha Hbd Ho Hk Hacc.
  destruct (fetchInvoice_ok arrived db n _ i Hdb Ei) as (hash & Hh & Hok).
  destruct (fetched_readable arrived db n _ i Hdb Ei) as [Hpre Hsz].
  pose proof (release_applied now (open_db db) n i key h (io_mpp _ _ _ Hok Ha) Ha Ho Hk Hacc (ref_payHash ref)) as Eu.
  destruct (apply_update_ok _ _ _ _ _ _ _ Eu) as (state & p & d & x & m & paid & amp & Happ).
  assert (wf_invoice (released now i key h)) as Hw.
  { change (released now i key h) with (us_invoice {| us_invoice := released now i key h; us_sets := ∅; us_db := open_db db |}).
    eapply wf_applied; [apply (io_wf _ _ _ Hok)| |exact Happ]. apply (uk_wf _ arrived hash i). by apply no_add_ok. }
  assert (bounded_invoice (released now i key h)) as Hb.
  { destruct Hbd as [Hb1 Hb2]. split; [exact Hb1|]. unfold released. cbn [Htlcs with_paid with_htlcs].
    apply map_Forall_insert_2; [exact (Hb2 key h Hk)|exact Hb2]. }
  destruct (serializeInvoice_ok _ Hw Hb Hpre) as (fv & fb & a & hb & Efv & Hfb & Dfb & Ea & Ehb & Hla & Hlb & Es).
  assert (is_amp_invoice (released now i key h) = false) as Ha' by exact Ha.
  eexists. split.
  - unfold UpdateInvoice. fold (open_db db).
    replace (fetchInvoiceNumByRef (open_db db) _ ref) with (Ok n : res Z) by (symmetry; exact En).
    cbn [mbind res_bind]. unfold Invoices.updateInvoice. cbn [default].
    replace (fetchInvoice (open_db db) n _) with (Ok i) by (symmetry; exact Ei). cbn [mbind res_bind].
    unfold cancel_single_callback. change (inv_State (copyInvoice i)) with (inv_State i).
    change (Htlcs (copyInvoice i)) with (Htlcs i). rewrite Ho, Hk, Z.eqb_refl. cbn [negb mbind res_bind].
    rewrite Hacc, Z.eqb_refl. cbn [negb mbind res_bind]. fold (release_desc key). rewrite Eu. cbn [mbind res_bind us_invoice].
    rewrite Es. cbn [mbind res_bind]. rewrite Ha'. cbn [mbind res_bind]. reflexivity.
  - unfold fetchInvoice. cbn [put_invoice_bytes invoice_bytes]. rewrite lookup_insert_eq.
    rewrite (invoice_read _ fv fb a hb Hw Hpre Efv Hfb Dfb Ea Ehb) by lia.
    rewrite (proj2 (Z.leb_le _ _) (Hsz a Ea)). cbn [mbind res_bind]. unfold as_stored. rewrite Ha'. by rewrite Ha'.
Qed.
End Timers.

(** C17. An HTLC of an incomplete set does not stay locked: in any reachable state, when the
    timer at the top of the heap has run out and its HTLC is accepted on an open invoice
    without AMP, the event loop's step succeeds, the stored HTLC is canceled, every link that
    waits for it is told that the payment timed out, and nobody waits for it any more. *)
Theorem mpp_timeout_releases `{Hasher} `{Secp256k1} `{GoRange} `{TimeZone} `{WireVarInt}
    (cfg : RegistryConfig) (start : Z) (s : reg_run) (now : Time) (pos : nat) (e : htlcReleaseEvent)
    (n : Z) (i : Invoice) (h : InvoiceHTLC) :
  wf_config cfg -> reachable cfg start s -> wf_stamp now ->
  autoReleaseHeap (run_reg s) !! pos = Some e -> is_top release_less (autoReleaseHeap (run_reg s)) pos = true ->
  Before now (rel_releaseTime e) = false ->
  fetchInvoiceNumByRef (reg_db (run_reg s)) (default empty_invoice_index (invoiceIndex (reg_db (run_reg s))))
    (rel_invoiceRef e) = Ok n ->
  fetchInvoice (reg_db (run_reg s)) n (Some BlankPayAddr) = Ok i ->
  is_amp_invoice i = false -> bounded_invoice i -> inv_State i = ContractOpen ->
  Htlcs i !! rel_key e = Some h -> htlc_State h = HtlcStateAccepted ->
  exists reg, auto_release now (run_reg s) pos = Some reg /\
    (exists i' h', fetchInvoice (reg_db reg) n (Some BlankPayAddr) = Ok i' /\
       Htlcs i' !! rel_key e = Some h' /\ htlc_State h' = HtlcStateCanceled) /\
    (forall chan, chan ∈ default ∅ (hodlSubscriptions (run_reg s) !! rel_key e) ->
       (chan, HtlcFailResolution (rel_key e) (i32 (AcceptHeight h)) ResultMppTimeout) ∈ reg_sent reg) /\
    hodlSubscriptions reg !! rel_key e = None.
Proof.
  intros Hg Hr Hn Ep Ht Hb En Ei Ha Hbd Ho Hk Hacc.
  pose proof (reachable_ok cfg start s Hg Hr) as Hok.
  destruct (release_update now _ _ n (rel_invoiceRef e) i (rel_key e) h (rk_db _ _ (ro_reg _ Hok)) Hn En Ei Ha Hbd Ho Hk Hacc)
    as (db' & Eu & Ef).
  assert (Htlcs (released now i (rel_key e) h) !! rel_key e = Some (resolve_htlc h HtlcStateCanceled now)) as Hk'
    by apply lookup_insert_eq.
  unfold auto_release. rewrite Ep, Ht, Hb. cbn [negb]. unfold InvoiceRegistry.cancelSingleHtlc.
  cbn [reg_db with_heap]. rewrite Eu. cbn [negb]. rewrite Hk'. cbn [htlc_State resolve_htlc]. rewrite Z.eqb_refl.
  eexists. split; [reflexivity|]. unfold notifyHodlSubscribers. cbn [resolution_key].
  cbn [hodlSubscriptions with_db with_heap].
  destruct (hodlSubscriptions (run_reg s) !! rel_key e) as [X|] eqn:EX.
  - split_and!.
    + by exists (released now i (rel_key e) h), (resolve_htlc h HtlcStateCanceled now).
    + intros chan Hc. cbn [reg_sent with_hodl]. apply elem_of_app. right. apply list_elem_of_fmap.
      exists chan. split; [done|]. by apply elem_of_range_set.
    + apply lookup_delete_eq.
  - split_and!.
    + by exists (released now i (rel_key e) h), (resolve_htlc h HtlcStateCanceled now).
    + simpl. set_solver.
    + done.
Qed.

Definition ex_later : Time := UnixNano 1650000130000000000.

Lemma ex_run1_held :
  match autoReleaseHeap (run_reg ex_run1) !! 0%nat, fetchInvoice (reg_db (run_reg ex_run1)) 0 (Some BlankPayAddr) with
  | Some e, Ok i =>
      is_top release_less (autoReleaseHeap (run_reg ex_run1)) 0 = true /\
      Before ex_later (rel_releaseTime e) = false /\
      fetchInvoiceNumByRef (reg_db (run_reg ex_run1))
        (default empty_invoice_index (invoiceIndex (reg_db (run_reg ex_run1)))) (rel_invoiceRef e) = Ok 0 /\
      is_amp_invoice i = false /\ ampStateEncoder (AMPState i) = Ok [x00] /\
      forallb (fun kh => bool_decide (htlc_CustomRecords kh.2 = ∅)) (map_to_list (Htlcs i)) = true /\
      inv_State i = ContractOpen /\
      hodlSubscriptions (run_reg ex_run1) !! rel_key e = Some {[ 11 ]} /\
      match Htlcs i !! rel_key e with Some h => htlc_State h = HtlcStateAccepted | None => False end
  | _, _ => False
  end.
Proof. vm_compute. split_and!; reflexivity. Qed.

Lemma mpp_timeout_releases_witness :
  exists reg r, auto_release ex_later (run_reg ex_run1) 0 = Some reg /\ (11, r) ∈ reg_sent reg /\
    exists k height, r = HtlcFailResolution k height ResultMppTimeout.
Proof.
  pose proof ex_run1_held as Hx.
  destruct (autoReleaseHeap (run_reg ex_run1) !! 0%nat) as [e|] eqn:Ee; [|destruct Hx].
  destruct (fetchInvoice (reg_db (run_reg ex_run1)) 0 (Some BlankPayAddr)) as [i| |] eqn:Ei; [|destruct Hx..].
  destruct Hx as (Ht & Hb & En & Ha & Henc & Hcus & Ho & Hs & Hh).
  destruct (Htlcs i !! rel_key e) as [h|] eqn:Eh; [|destruct Hh].
  assert (wf_stamp ex_later) as Hn by (split; [vm_compute; split; congruence|discriminate]).
  assert (bounded_invoice i) as Hbd.
  { split; [intros a Ea; rewrite Henc in Ea; injection Ea as <-; reflexivity|].
    intros k x Hx. rewrite forallb_forall in Hcus. apply elem_of_map_to_list, list_elem_of_In in Hx.
    apply Hcus, bool_decide_eq_true in Hx. cbn [snd] in Hx. rewrite Hx. reflexivity. }
  destruct (mpp_timeout_releases ex_config 700000 ex_run1 ex_later 0 e 0 i h ex_config_wf ex_run1_reachable Hn Ee Ht Hb
    En Ei Ha Hbd Ho Eh Hh) as (reg & Er & _ & Hsent & _).
  exists reg. eexists. split; [exact Er|]. split.
  - apply Hsent. rewrite Hs. apply elem_of_singleton. reflexivity.
  - eexists _, _. reflexivity.
Defined.

Lemma ex_run1_updates :
  is_ok (UpdateInvoice ex_now (reg_db (run_reg ex_run1)) (InvoiceRefByHash ex_pay_hash) None
           (htlc_callback (ex_ctx 5 60))) = true.
Proof. vm_compute. reflexivity. Qed.

Lemma update_respects_states_witness :
  exists db inv a n i, UpdateInvoice ex_now (reg_db (run_reg ex_run1)) (InvoiceRefByHash ex_pay_hash) None
      (htlc_callback (ex_ctx 5 60)) = Ok (db, inv, a) /\
    fetchInvoice (reg_db (run_reg ex_run1)) n (Some BlankPayAddr) = Ok i /\
    state_step (inv_State i) (inv_State inv).
Proof.
  pose proof ex_run1_updates as Hx.
  destruct (UpdateInvoice ex_now (reg_db (run_reg ex_run1)) (InvoiceRefByHash ex_pay_hash) None
    (htlc_callback (ex_ctx 5 60))) as [[[db inv] a]|e|] eqn:E; [|discriminate Hx..].
  destruct (update_respects_states _ _ _ _ _ _ _ _ E) as (n & i & _ & Ei & Hs & _).
  exists db, inv, a, n, i. split; [reflexivity|]. split; [exact Ei|exact Hs].
Defined.

(** ** AMP *)

Lemma foldl_preimages (R : CircuitKey * InvoiceHTLC -> Child -> Prop) l cs :
  Forall2 R l cs -> NoDup l.*1 -> forall m0 : gmap CircuitKey (list byte),
  let m := foldl (fun m khc => <[khc.1.1 := child_Preimage khc.2]> m) m0 (zip l cs) in
  (forall k, k ∉ l.*1 -> m !! k = m0 !! k) /\
  (forall k x, (k, x) ∈ l -> exists c, R (k, x) c /\ c ∈ cs /\ m !! k = Some (child_Preimage c)).
Proof.
  induction 1 as [|[k0 x0] c0 l cs HR _ IH]; intros Hnd m0; cbv zeta.
  { split; [done|]. intros k x Hin. by apply elem_of_nil in Hin. }
  cbn [fmap list_fmap fst] in Hnd. apply NoDup_cons in Hnd as [Hk0 Hnd]. cbn [zip zip_with foldl fst snd].
  destruct (IH Hnd (<[k0 := child_Preimage c0]> m0)) as [Ho Hi]. split.
  - intros k Hk. cbn [fmap list_fmap fst] in Hk. apply not_elem_of_cons in Hk as [Hne Hk].
    rewrite Ho by done. by rewrite lookup_insert_ne.
  - intros k x Hin. apply elem_of_cons in Hin as [[= -> ->]|Hin].
    + exists c0. split; [done|]. split; [apply list_elem_of_here|]. rewrite Ho by done. apply lookup_insert_eq.
    + destruct (Hi k x Hin) as (c & ? & ? & ?). exists c. split_and!; try done. by apply list_elem_of_further.
Qed.

(** C19. The two ends of an AMP payment agree: after any history of shards handed out and
    canceled by the sender's tracker that leaves nothing to share, when the last of the
    outstanding parts reaches the receiver and the others are held, in whatever order the
    map of held HTLCs is gone through, the receiver reconstructs the children the sender
    derived and learns for every part a preimage of its hash. *)
Theorem amp_set_settles `{Hasher} `{Secp256k1} `{GoRange} `{TimeZone} `{WireVarInt}
    (r set addr : list byte) (amt : Z) (ops : list shard_op) (ctx : invoiceUpdateCtx) (a : AMP)
    (htlcSet : gmap CircuitKey InvoiceHTLC) (c0 : Child) (cs : list Child) :
  let t := shard_run ops (NewShardTracker r set addr amt) in
  length r = 32%nat -> shard_history ops (NewShardTracker r set addr amt) ->
  curr (sharer t) = zeroShare -> c0 :: cs ≡ₚ outstanding t ->
  ctx_hash ctx = child_Hash c0 -> child_desc_of a = child_desc c0 ->
  htlcSet !! ctx_circuitKey ctx = None ->
  Forall2 (fun kh c => exists d, htlc_AMP kh.2 = Some d /\ amp_Hash d = child_Hash c /\
    child_desc_of (amp_Record d) = child_desc c) (range htlcSet) cs ->
  exists m, reconstructAMPPreimages ctx a htlcSet = Ok (inl m) /\
    m !! ctx_circuitKey ctx = Some (child_Preimage c0) /\
    (exists p, m !! ctx_circuitKey ctx = Some p /\ digest p = ctx_hash ctx) /\
    forall k x d, htlcSet !! k = Some x -> htlc_AMP x = Some d ->
      exists p, m !! k = Some p /\ digest p = amp_Hash d.
Proof.
  intros t Hr Hh Hz Hp Hc0 Ha Hfresh Hset.
  destruct (amp_reconstructs r set addr amt ops (c0 :: cs) Hr Hh Hz Hp) as [Hrec Hpre].
  apply Forall_cons in Hpre as [Hd0 Hpre].
  assert (set_descs (range htlcSet) = Ok (child_desc <$> cs)) as Eds.
  { unfold set_descs. clear -Hset. induction Hset as [|[k x] c l cs (d & Hd & _ & Hc) _ IH]; [done|].
    cbn [mapM]. cbn [snd] in *. rewrite Hd. cbn [deref mbind res_bind]. rewrite IH. cbn [mbind res_bind].
    by rewrite Hc. }
  unfold reconstructAMPPreimages. rewrite Eds, Ha. cbn [mbind res_bind].
  change (child_desc c0 :: (child_desc <$> cs)) with (child_desc <$> (c0 :: cs)). rewrite Hrec.
  rewrite bool_decide_true by done. cbn [negb].
  assert (forallb (fun khc : CircuitKey * InvoiceHTLC * Child => bool_decide (set_hash khc.1.2 = Some (child_Hash khc.2)))
    (zip (range htlcSet) cs) = true) as ->.
  { clear -Hset. induction Hset as [|[k x] c l cs (d & Hd & Hc & _) _ IH]; [done|].
    cbn [zip zip_with forallb]. rewrite IH, andb_true_r. apply bool_decide_eq_true. unfold set_hash.
    cbn [fst snd] in *. by rewrite Hd, <- Hc. }
  cbn [negb]. eexists. split; [reflexivity|].
  destruct (foldl_preimages _ _ _ Hset (range_NoDup htlcSet) {[ctx_circuitKey ctx := child_Preimage c0]}) as [Ho Hi].
  rewrite Ho. 2:{ intros ([k x] & E & Hin)%list_elem_of_fmap. rewrite range_entries in Hin.
    apply elem_of_map_to_list in Hin. simpl in E. congruence. }
  rewrite lookup_singleton_eq. split; [done|]. split; [exists (child_Preimage c0); by rewrite Hc0, Hd0|].
  intros k x d Hk Hd. destruct (Hi k x) as (c & (d' & Hd' & Hh' & _) & Hin & ->).
  { rewrite range_entries. by apply elem_of_map_to_list. }
  exists (child_Preimage c). split; [done|]. assert (d' = d) as -> by (simpl in Hd'; congruence).
  rewrite Hh'. rewrite Forall_forall in Hpre. by rewrite (Hpre c Hin).
Qed.

Definition amp_of (c : Child) : AMP :=
  {| rootShare := Share (child_desc c); PaymentCodec.setID := replicate 32 x01; childIndex := Index (child_desc c) |}.

Definition ex_amp_ctx (c : Child) : invoiceUpdateCtx :=
  exit_ctx ex_config (child_Hash c) 25 700100 700000 (ctx_circuitKey (ex_ctx 5 60)) (Some ∅)
    (Some {| paymentAddr := replicate 32 x02; totalMAtoms := 50 |}) (Some (amp_of c)).

Definition ex_amp_htlc (c : Child) : InvoiceHTLC :=
  {| htlc_Amt := 25; MppTotalAmt := 50; AcceptHeight := 700000; AcceptTime := ex_now; ResolveTime := ZeroTime;
     htlc_Expiry := 700100; htlc_State := HtlcStateAccepted; htlc_CustomRecords := ∅;
     htlc_AMP := Some {| amp_Record := amp_of c; amp_Hash := child_Hash c; amp_Preimage := None |} |}.

Lemma amp_set_settles_witness :
  exists c0 c1 m, [c0; c1] = outstanding ex_tracker /\
    reconstructAMPPreimages (ex_amp_ctx c0) (amp_of c0)
      {[ctx_circuitKey (ex_ctx 4 40) := ex_amp_htlc c1]} = Ok (inl m) /\
    exists p, m !! ctx_circuitKey (ex_ctx 4 40) = Some p /\ digest p = child_Hash c1.
Proof.
  assert (length (outstanding ex_tracker) = 2%nat) as Hl by (vm_compute; reflexivity).
  destruct (outstanding ex_tracker) as [|c0 [|c1 [|c2 l]]] eqn:E; [discriminate Hl..| |discriminate Hl].
  destruct (amp_set_settles (replicate 32 x77) (replicate 32 x01) (replicate 32 x02) 50 ex_shard_ops
    (ex_amp_ctx c0) (amp_of c0) {[ctx_circuitKey (ex_ctx 4 40) := ex_amp_htlc c1]} c0 [c1])
    as (m & Em & _ & _ & Hm).
  - reflexivity.
  - repeat split; try (vm_compute; reflexivity); by intros b [= <-].
  - vm_compute. reflexivity.
  - fold ex_tracker. rewrite E. reflexivity.
  - reflexivity.
  - by destruct c0 as [[? ?] ? ?].
  - by apply lookup_singleton_ne.
  - cbn [range entries_range]. rewrite map_to_list_singleton. apply Forall2_cons. split; [|apply Forall2_nil; done].
    eexists. split; [reflexivity|]. split; [reflexivity|]. by destruct c1 as [[? ?] ? ?].
  - exists c0, c1, m. split; [reflexivity|]. split; [exact Em|].
    exact (Hm _ (ex_amp_htlc c1) {| amp_Record := amp_of c1; amp_Hash := child_Hash c1; amp_Preimage := None |}
      (lookup_singleton_eq _ _) eq_refl).
Defined.

(** *** HTLCs that stop the program *)

Section Crashes.
Context `{Hasher} `{Secp256k1} `{GoRange} `{TimeZone} `{WireVarInt}.

(** An AMP invoice is stored without its HTLCs. *)
Lemma blank_htlcs arrived db n i :
  db_ok arrived db -> fetchInvoice db n (Some BlankPayAddr) = Ok i -> is_amp_invoice i = true -> Htlcs i = ∅.
Proof.
  intros Hdb. unfold fetchInvoice. destruct (invoice_bytes db !! n) as [b|] eqn:Eb; [|done].
  destruct (dk_invoices _ _ Hdb n b Eb) as (h & i0 & Hh & Hser & Hok).
  intros (i1 & E1 & Hf)%bind_ok Ha. pose proof (written_invoice_read _ _ _ (io_wf _ _ _ Hok) Hser E1) as ->.
  assert (i = as_stored i0) as ->.
  { destruct (negb _); [by apply Ok_inj in Hf|]. destruct (negb _); [by apply Ok_inj in Hf|].
    rewrite bool_decide_true in Hf by done. by apply Ok_inj in Hf. }
  unfold as_stored in *. by destruct (is_amp_invoice i0) eqn:E; [|congruence].
Qed.

Lemma fetch_blank db n o i : fetchInvoice db n o = Ok i ->
  exists i1, fetchInvoice db n (Some BlankPayAddr) = Ok i1 /\ i = with_htlcs i1 (Htlcs i).
Proof.
  unfold fetchInvoice. destruct (invoice_bytes db !! n) as [b|]; [|done]. intros (i1 & -> & Hf)%bind_ok.
  cbn [mbind res_bind]. assert (forall j, j = with_htlcs j (Htlcs j)) as Hself by (by intros []).
  destruct (negb (is_amp_invoice i1)); [apply Ok_inj in Hf as <-; by exists i1|].
  destruct (negb _); [apply Ok_inj in Hf as <-; by exists i1|].
  rewrite (bool_decide_true (Some BlankPayAddr = _)) by done. exists i1. split; [done|].
  destruct (bool_decide _); [by apply Ok_inj in Hf as <-|]. destruct (fetchAmpSubInvoices _ _ _) as [m r].
  destruct r; [..|done]; by apply Ok_inj in Hf as <-.
Qed.

Lemma update_panics {A} now db n i ref hint (callback : InvoiceUpdateCallback A) :
  fetchInvoiceNumByRef db (default empty_invoice_index (invoiceIndex db)) ref = Ok n ->
  fetchInvoice db n (Some (default BlankPayAddr hint)) = Ok i -> callback (copyInvoice i) = Panic ->
  UpdateInvoice now db ref hint callback = Panic.
Proof.
  intros En Ei Hc. unfold UpdateInvoice. fold (open_db db).
  replace (fetchInvoiceNumByRef (open_db db) _ ref) with (Ok n : res Z) by (symmetry; exact En).
  cbn [mbind res_bind]. unfold Invoices.updateInvoice.
  replace (fetchInvoice (open_db db) n _) with (Ok i) by (symmetry; exact Ei). cbn [mbind res_bind].
  by rewrite Hc.
Qed.

Lemma locked_panics now i ctx chan n inv :
  fetchInvoiceNumByRef (reg_db i) (default empty_invoice_index (invoiceIndex (reg_db i))) (invoiceRef ctx) = Ok n ->
  fetchInvoice (reg_db i) n (Some (default BlankPayAddr (ctx_setID ctx))) = Ok inv ->
  InvoiceRegistry.updateInvoice ctx (copyInvoice inv) = Panic ->
  notifyExitHopHtlcLocked now i ctx chan = (i, Panic).
Proof.
  intros En Ei Hu. unfold notifyExitHopHtlcLocked.
  rewrite (update_panics now (reg_db i) n inv); [done..|]. unfold htlc_callback. by rewrite Hu.
Qed.
(** A legacy HTLC that passes the checks needs the preimage of the invoice. *)
Lemma legacy_panics ctx i :
  Htlcs i = ∅ -> PaymentPreimage (Terms i) = None -> inv_State i = ContractOpen -> HodlInvoice i = false ->
  has_keysend ctx = true \/ RequiresFeature (features_of i) PaymentAddrRequired = false ->
  term_Value (Terms i) <= ctx_amtPaid ctx ->
  too_soon ctx (ctx_finalCltvRejectDelta ctx) = false -> too_soon ctx (FinalCltvDelta (Terms i)) = false ->
  updateLegacy ctx (copyInvoice i) = Panic.
Proof.
  intros He Hp Ho Hh Hk Hv Ht1 Ht2. unfold updateLegacy.
  change (Terms (copyInvoice i)) with (Terms i). change (inv_State (copyInvoice i)) with (inv_State i).
  change (HodlInvoice (copyInvoice i)) with (HodlInvoice i).
  change (features_of (copyInvoice i)) with (features_of i).
  change (HTLCSet (copyInvoice i)) with (HTLCSet i).
  rewrite Ho, Hh, Hp, Ht1, Ht2, (proj2 (Z.ltb_ge _ _) Hv).
  assert (negb (has_keysend ctx) && RequiresFeature (features_of i) PaymentAddrRequired = false) as ->.
  { destruct Hk as [-> | ->]; [done|]. apply andb_false_r. }
  assert (range (HTLCSet i None HtlcStateAccepted) = []) as ->; [|done].
  apply Permutation_nil. rewrite range_entries. unfold HTLCSet. by rewrite He, map_filter_empty, map_to_list_empty.
Qed.
End Crashes.

(** Anyone who knows the payment hash of an open AMP invoice can stop the node: in every
    reachable state, an HTLC without MPP record that pays the value of the invoice and
    expires late enough makes the call panic, when the invoice does not insist on a payment
    address or the sender merely adds a keysend record (and keysend is not accepted). *)
Theorem legacy_htlc_crashes_amp `{Hasher} `{Secp256k1} `{GoRange} `{TimeZone} `{WireVarInt}
    (cfg : RegistryConfig) (start : Z) (s : reg_run) (now : Time) (ctx : invoiceUpdateCtx) (chan : Z)
    (i : Invoice) :
  wf_config cfg -> reachable cfg start s -> AcceptKeySend cfg = false ->
  ctx_mpp ctx = None -> ctx_amp ctx = None ->
  LookupInvoice (reg_db (run_reg s)) (InvoiceRefByHash (ctx_hash ctx)) = Ok i ->
  is_amp_invoice i = true -> inv_State i = ContractOpen -> HodlInvoice i = false ->
  has_keysend ctx = true \/ RequiresFeature (features_of i) PaymentAddrRequired = false ->
  term_Value (Terms i) <= ctx_amtPaid ctx ->
  too_soon ctx (ctx_finalCltvRejectDelta ctx) = false -> too_soon ctx (FinalCltvDelta (Terms i)) = false ->
  NotifyExitHopHtlc cfg now (run_reg s) ctx chan = (run_reg s, Panic).
Proof.
  intros Hg Hr Hks Hm Ham Hl Ha Ho Hh Hkey Hv Ht1 Ht2.
  pose proof (rk_db _ _ (ro_reg _ (reachable_ok cfg start s Hg Hr))) as Hdb.
  unfold NotifyExitHopHtlc, process_spontaneous. rewrite Ham, Hks.
  rewrite (bool_decide_false (is_Some None)) by (by intros [? ?]). rewrite andb_false_r. cbn [andb].
  unfold LookupInvoice in Hl. destruct (invoiceIndex (reg_db (run_reg s))) as [index|] eqn:Eix; [|done].
  apply bind_ok in Hl as (n & En & Ei). destruct (fetch_blank _ _ _ _ Ei) as (i1 & Ei1 & Hi).
  rewrite Hi in Ha, Ho, Hh, Hkey, Hv, Ht2.
  destruct (fetchInvoice_ok _ _ _ _ _ Hdb Ei1) as (h & _ & Hok1). destruct (io_amp _ _ _ Hok1 Ha) as [Hp _].
  pose proof (blank_htlcs _ _ _ _ Hdb Ei1 Ha) as Hempty.
  rewrite (locked_panics now (run_reg s) ctx chan n i1).
  - done.
  - unfold invoiceRef. rewrite Ham, Hm, Eix. exact En.
  - unfold ctx_setID. rewrite Ham. exact Ei1.
  - unfold InvoiceRegistry.updateInvoice. change (Htlcs (copyInvoice i1)) with (Htlcs i1).
    rewrite Hempty, lookup_empty, Hm. by apply legacy_panics.
Qed.

(** C29. Settling an AMP payment can keep the node from starting again: in every reachable
    state, an HTLC of an AMP invoice that is stored as settled makes the call panic when the
    link presents it once more, as it does after a restart until the settle is locked in. *)
Theorem settled_amp_replay_panics `{Hasher} `{Secp256k1} `{GoRange} `{TimeZone} `{WireVarInt}
    (cfg : RegistryConfig) (start : Z) (s : reg_run) (now : Time) (ctx : invoiceUpdateCtx) (chan n : Z)
    (i : Invoice) (h : InvoiceHTLC) :
  wf_config cfg -> reachable cfg start s ->
  fetchInvoiceNumByRef (reg_db (run_reg s)) (default empty_invoice_index (invoiceIndex (reg_db (run_reg s))))
    (invoiceRef ctx) = Ok n ->
  fetchInvoice (reg_db (run_reg s)) n (Some (default BlankPayAddr (ctx_setID ctx))) = Ok i ->
  is_amp_invoice i = true -> Htlcs i !! ctx_circuitKey ctx = Some h -> htlc_State h = HtlcStateSettled ->
  notifyExitHopHtlcLocked now (run_reg s) ctx chan = (run_reg s, Panic).
Proof.
  intros Hg Hr En Ei Ha Hk Hs.
  pose proof (rk_db _ _ (ro_reg _ (reachable_ok cfg start s Hg Hr))) as Hdb.
  destruct (fetchInvoice_ok _ _ _ _ _ Hdb Ei) as (h0 & _ & Hok). destruct (io_amp _ _ _ Hok Ha) as [Hp _].
  apply (locked_panics now (run_reg s) ctx chan n i En Ei). unfold InvoiceRegistry.updateInvoice.
  change (Htlcs (copyInvoice i)) with (Htlcs i). change (Terms (copyInvoice i)) with (Terms i).
  by rewrite Hk, Hs, Hp.
Qed.

(** *** Two runs that end in a panic *)

Definition ex_amp_invoice : Invoice :=
  {| Memo := [x61]; inv_PaymentRequest := [x62; x63]; CreationDate := UnixNano 1600000000000000000;
     SettleDate := ZeroTime;
     Terms := {| FinalCltvDelta := 40; term_Expiry := 3600000000000; PaymentPreimage := None; term_Value := 50;
                 PaymentAddr := replicate 32 x02;
                 term_Features := Some (NewRawFeatureVector [TLVOnionPayloadOptional; PaymentAddrRequired; AMPRequired]) |};
     AddIndex := 0; SettleIndex := 0; inv_State := ContractOpen; inv_AmtPaid := 0;
     Htlcs := ∅; AMPState := ∅; HodlInvoice := false |}.

Definition ex_amp_run : reg_run := added_run (initial_run 700000) ex_amp_invoice (replicate 32 x44).

Lemma ex_amp_run_reachable : reachable ex_config 700000 ex_amp_run.
Proof.
  apply added_reachable; [constructor| |done]. split; [|reflexivity..|discriminate|done].
  split; try done.
  exists (NewRawFeatureVector [TLVOnionPayloadOptional; PaymentAddrRequired; AMPRequired]). split; [done|].
  apply (bool_decide_unpack _). by vm_compute.
Qed.

(** An HTLC without MPP record that carries an empty keysend record. *)
Definition ex_legacy_ctx : invoiceUpdateCtx :=
  exit_ctx ex_config (replicate 32 x44) 50 700100 700000 (ctx_circuitKey (ex_ctx 4 40))
    (Some {[ KeySendType := [] ]}) None None.

Lemma ex_amp_run_stored :
  match LookupInvoice (reg_db (run_reg ex_amp_run)) (InvoiceRefByHash (ctx_hash ex_legacy_ctx)) with
  | Ok i => is_amp_invoice i = true /\ inv_State i = ContractOpen /\ HodlInvoice i = false /\
      (term_Value (Terms i) <=? ctx_amtPaid ex_legacy_ctx) = true /\
      too_soon ex_legacy_ctx (FinalCltvDelta (Terms i)) = false
  | _ => False
  end.
Proof. vm_compute. split_and!; reflexivity. Qed.

Lemma legacy_htlc_crashes_amp_witness :
  NotifyExitHopHtlc ex_config ex_now (run_reg ex_amp_run) ex_legacy_ctx 11 = (run_reg ex_amp_run, Panic).
Proof.
  pose proof ex_amp_run_stored as Hx.
  destruct (LookupInvoice (reg_db (run_reg ex_amp_run)) (InvoiceRefByHash (ctx_hash ex_legacy_ctx))) as [i| |] eqn:E;
    [|destruct Hx..].
  destruct Hx as (Ha & Ho & Hh & Hv & Ht).
  apply (legacy_htlc_crashes_amp ex_config 700000 ex_amp_run ex_now ex_legacy_ctx 11 i ex_config_wf ex_amp_run_reachable
    eq_refl eq_refl eq_refl E Ha Ho Hh).
  - left. vm_compute. reflexivity.
  - apply Z.leb_le. exact Hv.
  - vm_compute. reflexivity.
  - exact Ht.
Defined.

(** The two parts of a spontaneous AMP payment arrive and are settled. *)
Definition ex_parts : list Child := outstanding ex_tracker.

Definition ex_part_ctx (id : Z) (c : Child) : invoiceUpdateCtx :=
  exit_ctx ex_config (child_Hash c) 25 700100 700000
    {| ChanID := {| BlockHeight := 600000; TxIndex := 3; TxPosition := 1 |}; HtlcID := id |} (Some ∅)
    (Some {| paymentAddr := replicate 32 x02; totalMAtoms := 50 |}) (Some (amp_of c)).

Definition ex_paid_run : reg_run :=
  match ex_parts with
  | [c0; c1] => exit_hop_run (exit_hop_run (initial_run 700000) (ex_part_ctx 4 c0) 11) (ex_part_ctx 5 c1) 12
  | _ => initial_run 700000
  end.

Example ex_paid_run_settles :
  match ex_parts with
  | [c0; c1] =>
      (snd <$> reg_sent (run_reg ex_paid_run)) ++ run_returned ex_paid_run =
        [HtlcSettleResolution (child_Preimage c0) (ctx_circuitKey (ex_part_ctx 4 c0)) 700000 ResultSettled;
         HtlcSettleResolution (child_Preimage c1) (ctx_circuitKey (ex_part_ctx 5 c1)) 700000 ResultSettled]
  | _ => False
  end.
Proof. vm_compute. reflexivity. Qed.

Lemma ex_part_wf id c :
  0 <= id < 2 ^ 64 -> length (child_Hash c) = 32%nat -> wf_amp (amp_of c) -> wf_ctx (ex_part_ctx id c).
Proof.
  intros Hid Hl Ha. split; cbn [ex_part_ctx exit_ctx ctx_circuitKey ctx_hash ctx_amtPaid ctx_expiry
    ctx_customRecords ctx_mpp ctx_amp]; try done.
  - intros x [= <-]. apply map_Forall_empty.
  - by intros m [= <-].
  - by intros a [= <-].
Qed.

Lemma ex_parts_wf :
  forallb (fun c => (length (child_Hash c) =? 32)%nat && (length (rootShare (amp_of c)) =? 32)%nat &&
    (0 <=? childIndex (amp_of c)) && (childIndex (amp_of c) <? 2 ^ 32)) ex_parts && (length ex_parts =? 2)%nat = true.
Proof. vm_compute. reflexivity. Qed.

Lemma part_ok c :
  (length (child_Hash c) =? 32)%nat && (length (rootShare (amp_of c)) =? 32)%nat &&
    (0 <=? childIndex (amp_of c)) && (childIndex (amp_of c) <? 2 ^ 32) = true ->
  length (child_Hash c) = 32%nat /\ wf_amp (amp_of c).
Proof.
  rewrite !andb_true_iff, !Nat.eqb_eq, Z.leb_le, Z.ltb_lt. intros [[[? ?] ?] ?]. by split_and!.
Qed.

Lemma ex_paid_run_counts :
  match ex_parts with
  | [c0; c1] =>
      let s := exit_hop_run (initial_run 700000) (ex_part_ctx 4 c0) 11 in
      (counter (reg_db (run_reg s)) + 1 <? 2 ^ 32) = true /\ run_ready s = [] /\ run_pending s = [] /\
      run_arrived s !! ctx_circuitKey (ex_part_ctx 5 c1) = None
  | _ => False
  end.
Proof. vm_compute. split_and!; reflexivity. Qed.

Lemma ex_paid_run_reachable : reachable ex_config 700000 ex_paid_run.
Proof.
  pose proof ex_parts_wf as Hw. pose proof ex_paid_run_counts as Hc. unfold ex_paid_run.
  destruct ex_parts as [|c0 [|c1 [|c2 l]]]; [constructor..| |constructor].
  cbn [forallb] in Hw. rewrite !andb_true_iff in Hw. cbv zeta in Hc. destruct Hc as (Hc & E1 & E2 & Ha).
  destruct Hw as [[Hw0 [Hw1 _]] _].
  assert (forall id c, 0 <= id < 2 ^ 64 -> length (child_Hash c) = 32%nat /\ wf_amp (amp_of c) -> wf_ctx (ex_part_ctx id c)) as Hwf
    by (intros id c ? [? ?]; by apply ex_part_wf).
  apply exit_hop_reachable; [apply exit_hop_reachable; [constructor| |reflexivity..]| |by apply Z.ltb_lt|exact E1|exact E2].
  - split; [apply Hwf; [done|by apply part_ok; rewrite !andb_true_iff]|by left].
  - split; [apply Hwf; [done|by apply part_ok; rewrite !andb_true_iff]|left; exact Ha].
Qed.

Lemma ex_paid_run_held :
  match ex_parts with
  | [c0; c1] =>
      fetchInvoiceNumByRef (reg_db (run_reg ex_paid_run))
        (default empty_invoice_index (invoiceIndex (reg_db (run_reg ex_paid_run)))) (invoiceRef (ex_part_ctx 4 c0)) = Ok 0 /\
      match fetchInvoice (reg_db (run_reg ex_paid_run)) 0 (Some (default BlankPayAddr (ctx_setID (ex_part_ctx 4 c0)))) with
      | Ok i => is_amp_invoice i = true /\
          match Htlcs i !! ctx_circuitKey (ex_part_ctx 4 c0) with
          | Some h => htlc_State h = HtlcStateSettled
          | None => False
          end
      | _ => False
      end
  | _ => False
  end.
Proof. vm_compute. split_and!; reflexivity. Qed.

Lemma settled_amp_replay_panics_witness :
  exists c0, head ex_parts = Some c0 /\
    notifyExitHopHtlcLocked ex_now (run_reg ex_paid_run) (ex_part_ctx 4 c0) 11 = (run_reg ex_paid_run, Panic).
Proof.
  pose proof ex_paid_run_held as Hx. destruct ex_parts as [|c0 [|c1 [|c2 l]]]; [destruct Hx..| |destruct Hx].
  exists c0. split; [reflexivity|]. destruct Hx as [En Hx].
  destruct (fetchInvoice (reg_db (run_reg ex_paid_run)) 0 (Some (default BlankPayAddr (ctx_setID (ex_part_ctx 4 c0)))))
    as [i| |] eqn:Ei; [|destruct Hx..]. destruct Hx as [Ha Hx].
  destruct (Htlcs i !! ctx_circuitKey (ex_part_ctx 4 c0)) as [h|] eqn:Eh; [|destruct Hx].
  exact (settled_amp_replay_panics ex_config 700000 ex_paid_run ex_now (ex_part_ctx 4 c0) 11 0 i h ex_config_wf
    ex_paid_run_reachable En Ei Ha Eh Hx).
Defined.
