(* ===== verification/StateRes.v ===== *)
(** * Operations on a state that can fail

    A Go method that changes its receiver and may return an error or panic: a function from
    the state to the state afterwards and a result.  What was written before an error stays
    written. *)

From S2P Require Import Prelude.

Definition op (S A : Type) : Type := S -> S * res A.

Definition op_ret {S A} (a : A) : op S A := fun s => (s, Ok a).
Definition op_err {S A} (e : error) : op S A := fun s => (s, Err e).
Definition op_bind {S A B} (m : op S A) (k : A -> op S B) : op S B := fun s =>
  match m s with
  | (s', Ok a) => k a s'
  | (s', Err e) => (s', Err e)
  | (s', Panic) => (s', Panic)
  end.
Definition op_get {S A} (f : S -> A) : op S A := fun s => (s, Ok (f s)).
Definition op_set {S} (f : S -> S) : op S unit := fun s => (f s, Ok tt).
(** A computation that does not change the state. *)
Definition op_lift {S A} (m : res A) : op S A := fun s => (s, m).

Declare Scope op_scope.
Delimit Scope op_scope with op.
Notation "x <- m ;; k" := (op_bind m (fun x => k))
  (at level 100, m at next level, right associativity) : op_scope.
Notation "m ;; k" := (op_bind m (fun _ => k)) (at level 100, right associativity) : op_scope.

Lemma op_bind_ok {S A B} (m : op S A) (k : A -> op S B) s s' a :
  m s = (s', Ok a) -> op_bind m k s = k a s'.
Proof. unfold op_bind. by intros ->. Qed.

Lemma op_bind_inv {S A B} (m : op S A) (k : A -> op S B) s s' b :
  op_bind m k s = (s', Ok b) -> exists s1 a, m s = (s1, Ok a) /\ k a s1 = (s', Ok b).
Proof.
  unfold op_bind. destruct (m s) as [s1 [a|e|]]; [|discriminate..]. intros Hk. by exists s1, a.
Qed.

(** [op_step] runs the first operation of a sequence whose result is known. *)
Ltac op_step := first
  [ erewrite (op_bind_ok (op_get _)) by reflexivity
  | erewrite (op_bind_ok (op_set _)) by reflexivity
  | erewrite (op_bind_ok (op_ret _)) by reflexivity
  | erewrite op_bind_ok by eassumption ].

#[global] Arguments op_ret {S A} a s /.
#[global] Arguments op_err {S A} e s /.
#[global] Arguments op_get {S A} f s /.
#[global] Arguments op_set {S} f s /.
#[global] Arguments op_lift {S A} m s /.

(** Handling an error; a panic is not handled. *)
Definition op_try {S A} (m : op S A) : op S (res A) := fun s =>
  match m s with (s', Panic) => (s', Panic) | (s', r) => (s', Ok r) end.
