(* ===== verification/WireSig.v ===== *)
(** * Signatures on the wire

    [lnwire/signature.go]: signatures have 64 bytes on the wire, both integers padded to 32
    bytes, and are converted from and to their DER encoding.  Go's integers are small here
    and kept as [nat]. *)

From Stdlib Require Import Lia.
From S2P Require Import Prelude.

(** ** Slices *)

(** [l[i:]] and [l[i:j]]: bounds that do not fit panic. *)
Definition slice_from {A} (l : list A) (i : nat) : res (list A) :=
  if (i <=? length l)%nat then Ok (drop i l) else Panic.

Definition slice {A} (l : list A) (i j : nat) : res (list A) :=
  if (i <=? j)%nat && (j <=? length l)%nat then Ok (take (j - i) (drop i l)) else Panic.

(** [copy(dst[off:], src)]. *)
Definition copy_at {A} (dst : list A) (off : nat) (src : list A) : list A :=
  take off dst ++ take (length dst - off) src ++ drop (off + length src) dst.

(** ** From and to DER *)

Definition minEcdsaSigLen : nat := 8.

Definition errSigTooShort : error := Error "malformed signature: too short".
Definition errBadLength : error := Error "malformed signature: bad length".
Definition errBadRLength : error := Error "malformed signature: bogus R length".
Definition errBadSLength : error := Error "malformed signature: bogus S length".
Definition errRTooLong : error := Error "element R is over 32 bytes long without padding".
Definition errSTooLong : error := Error "element S is over 32 bytes long without padding".

Definition byte_len (b : byte) : nat := Z.to_nat (bval b).

Definition NewSigFromRawSignature (sig : list byte) : res (list byte) :=
  let b := replicate 64 x00 in
  if (length sig <? minEcdsaSigLen)%nat then Err errSigTooShort
  else
    sigLen ← byte_len <$> index sig 1;
    if (length sig <? sigLen + 2)%nat || (sigLen + 2 <? minEcdsaSigLen)%nat
    then Err errBadLength
    else
      rLen ← byte_len <$> index sig 3;
      if (rLen <=? 0)%nat || (length sig <? rLen + 7)%nat then Err errBadRLength
      else
        sLen ← byte_len <$> index sig (5 + rLen);
        if (sLen <=? 0)%nat || (length sig <? sLen + rLen + 6)%nat then Err errBadSLength
        else
          b ← (if (32 <? sLen)%nat then
                 pad ← index sig (6 + rLen);
                 if (33 <? sLen)%nat || negb (bool_decide (pad = x00)) then Err errSTooLong
                 else (src ← slice_from sig (7 + rLen); Ok (copy_at b (64 - (sLen - 1)) src))
               else (src ← slice_from sig (6 + rLen); Ok (copy_at b (64 - sLen) src)));
          if (32 <? rLen)%nat then
            pad ← index sig 4;
            if (33 <? rLen)%nat || negb (bool_decide (pad = x00)) then Err errRTooLong
            else (src ← slice sig 5 (5 + (rLen - 1)); Ok (copy_at b (32 - (rLen - 1)) src))
          else (src ← slice sig 4 (4 + rLen); Ok (copy_at b (32 - rLen) src)).

Fixpoint extractCanonicalPadding (b : list byte) : list byte :=
  match b with
  | [] => [x00]
  | c :: b' =>
      if 0 <? bval c then if Z.land (bval c) 0x80 =? 0x80 then x00 :: b else b
      else extractCanonicalPadding b'
  end.

Definition ToSignatureBytes (b : list byte) : list byte :=
  let r := extractCanonicalPadding (take 32 b) in
  let s := extractCanonicalPadding (take 32 (drop 32 b)) in
  let rLen := Z.of_nat (length r) in
  let sLen := Z.of_nat (length s) in
  [x30; byte_of (4 + rLen + sLen); x02; byte_of rLen] ++ r ++ [x02; byte_of sLen] ++ s.

(** ** Canonical integers *)

(** The integers DER encodes: without superfluous zeros, with one where the first bit is
    set, in at most 33 bytes. *)
Definition canonical_int (r : list byte) : bool :=
  match r with
  | [] => false
  | [c] => bval c <? 128
  | c :: d :: r' =>
      (bval c <? 128) && (length r' <? 32)%nat
      && (if bval c =? 0 then 128 <=? bval d else (length r' <? 31)%nat)
  end.

(** The bytes of an integer, padded on the left to 32. *)
Definition pad32 (r : list byte) : list byte :=
  let digits := match r with c :: d :: r' => if bval c =? 0 then d :: r' else r | _ => r end in
  replicate (32 - length digits) x00 ++ digits.

Definition der (r s : list byte) : list byte :=
  [x30; byte_of (4 + Z.of_nat (length r) + Z.of_nat (length s)); x02; byte_of (Z.of_nat (length r))]
  ++ r ++ [x02; byte_of (Z.of_nat (length s))] ++ s.

Lemma land_msb z : 0 <= z < 256 -> (Z.land z 0x80 =? 0x80) = (128 <=? z).
Proof.
  intros Hz. destruct (Z.leb_spec 128 z) as [Hge|Hlt].
  - apply Z.eqb_eq. change 0x80 with (2 ^ 8 - 2 ^ 7). rewrite (land_high_mask 8 7) by lia.
    assert (z / 2 ^ 7 = 1) as ->; [|done]. symmetry. apply (Z.div_unique z (2 ^ 7) 1 (z - 128)); lia.
  - apply Z.eqb_neq. change 0x80 with (2 ^ 8 - 2 ^ 7). rewrite (land_high_mask 8 7) by lia.
    rewrite Z.div_small by lia. lia.
Qed.

Lemma bval_zero b : bval b <= 0 -> b = x00.
Proof. intros H. pose proof (bval_range b). apply bval_inj. change (bval x00) with 0. lia. Qed.

(** Extraction yields a canonical integer that is padded back to what it was. *)
Lemma extract_spec b :
  (0 < length b <= 32)%nat ->
  canonical_int (extractCanonicalPadding b) = true
  /\ pad32 (extractCanonicalPadding b) = replicate (32 - length b) x00 ++ b.
Proof.
  assert (canonical_int [x00] = true /\ pad32 [x00] = replicate 31 x00 ++ [x00]) as H0
    by (split; vm_compute; reflexivity).
  induction b as [|c b IH]; cbn [length]; [lia|]. intros Hlen. cbn [extractCanonicalPadding].
  destruct (Z.ltb_spec 0 (bval c)) as [Hc|Hc].
  - pose proof (bval_range c). rewrite land_msb by lia. destruct (Z.leb_spec 128 (bval c)) as [Hm|Hm].
    + unfold canonical_int, pad32. change (bval x00) with 0. cbn [Z.eqb Z.ltb Z.compare].
      split; [|done]. rewrite (proj2 (Z.leb_le _ _) Hm).
      by rewrite (proj2 (Nat.ltb_lt _ _)) by lia.
    + unfold canonical_int, pad32. destruct b as [|d b].
      * by rewrite (proj2 (Z.ltb_lt _ _) Hm).
      * cbn [length] in *. rewrite (proj2 (Z.ltb_lt (bval c) 128)) by lia.
        rewrite (proj2 (Z.eqb_neq (bval c) 0)) by lia.
        rewrite !(proj2 (Nat.ltb_lt _ _)) by lia. done.
  - apply bval_zero in Hc as ->. destruct b as [|d b].
    + apply H0.
    + destruct IH as [Hcan Hpad]; [cbn [length] in *; lia|]. split; [done|].
      cbn [length] in *. rewrite Hpad.
      replace (32 - S (length b))%nat with (S (32 - S (S (length b)))) by lia.
      rewrite replicate_S_end, <- app_assoc. done.
Qed.

Lemma byte_len_of n : (n < 256)%nat -> byte_len (byte_of (Z.of_nat n)) = n.
Proof. intros Hn. unfold byte_len. rewrite bval_byte_of, Z.mod_small by lia. lia. Qed.

Lemma canonical_length r : canonical_int r = true -> (1 <= length r <= 33)%nat.
Proof.
  destruct r as [|c [|d r]]; cbn [canonical_int length]; [done|lia|].
  rewrite !andb_true_iff, Nat.ltb_lt. lia.
Qed.

(** The digits of a canonical integer: without the padding that DER asks for. *)
Definition digits (r : list byte) : list byte :=
  match r with c :: d :: r' => if bval c =? 0 then d :: r' else r | _ => r end.

Lemma pad32_digits r : pad32 r = replicate (32 - length (digits r)) x00 ++ digits r.
Proof. done. Qed.

(** What the two branches of the conversion read: all of [r], or all but its first byte. *)
Lemma canonical_cases r :
  canonical_int r = true ->
  ((length r <= 32)%nat /\ (pad32 r = replicate (32 - length r) x00 ++ r))
  \/ (length r = 33%nat /\ exists d, r = x00 :: d /\ pad32 r = d).
Proof.
  destruct r as [|c [|d r]]; [done|left; split; [cbn; lia|done]|]. unfold pad32. cbn [canonical_int length].
  rewrite !andb_true_iff, !Nat.ltb_lt. intros [[Hc Hl] Hd].
  destruct (Z.eqb_spec (bval c) 0) as [Hz|Hz].
  - assert (c = x00) as -> by (apply bval_zero; lia).
    destruct (decide (length r = 31%nat)) as [Hr|Hr].
    + right. split; [lia|]. exists (d :: r). split; [done|]. cbn [length]. by rewrite Hr.
    + left. split; [lia|]. cbn [length].
      replace (32 - S (length r))%nat with (S (32 - S (S (length r)))) by lia.
      by rewrite replicate_S_end, <- app_assoc.
  - apply Nat.ltb_lt in Hd. left. split; [lia|done].
Qed.

Lemma der_length r s : length (der r s) = (6 + length r + length s)%nat.
Proof. unfold der. rewrite !length_app. cbn [length]. lia. Qed.

Lemma der_tail r s : drop (6 + length r) (der r s) = s.
Proof.
  unfold der. rewrite app_assoc, app_assoc. apply drop_app_length'. rewrite !length_app. cbn [length]. lia.
Qed.

Lemma der_lookup_slen r s :
  der r s !! (5 + length r)%nat = Some (byte_of (Z.of_nat (length s))).
Proof.
  unfold der. rewrite lookup_app_r by (cbn [length]; lia). cbn [length].
  rewrite lookup_app_r by lia. by replace (5 + length r - 4 - length r)%nat with 1%nat by lia.
Qed.

Lemma der_head r s : take (length r) (drop 4 (der r s)) = r.
Proof. unfold der. change 4%nat with (length [x30; x30; x02; x30]) at 1. cbn [app drop length]. apply take_app_length. Qed.

Lemma copy_zeros n k (src : list byte) :
  length src = k -> (k <= n)%nat ->
  copy_at (replicate n x00) (n - k) src = replicate (n - k) x00 ++ src.
Proof.
  intros Hs Hk. unfold copy_at. rewrite take_replicate, length_replicate.
  replace ((n - k) `min` n)%nat with (n - k)%nat by lia.
  rewrite (take_ge src) by lia. rewrite drop_ge by (rewrite length_replicate; lia).
  by rewrite app_nil_r.
Qed.

Lemma copy_front j (src hi : list byte) :
  length src = j -> (j <= 32)%nat -> length hi = 32%nat ->
  copy_at (replicate 32 x00 ++ hi) (32 - j) src = (replicate (32 - j) x00 ++ src) ++ hi.
Proof.
  intros Hs Hj Hh. unfold copy_at. rewrite length_app, length_replicate, Hh.
  rewrite take_app_le by (rewrite length_replicate; lia). rewrite take_replicate.
  replace ((32 - j) `min` 32)%nat with (32 - j)%nat by lia.
  rewrite (take_ge src) by lia. replace (32 - j + length src)%nat with 32%nat by lia.
  rewrite drop_app_length' by (by rewrite length_replicate). by rewrite app_assoc.
Qed.

Lemma pad32_length r : canonical_int r = true -> length (pad32 r) = 32%nat.
Proof.
  intros Hr. destruct (canonical_cases r Hr) as [[Hl ->]|(Hl & d & -> & ->)].
  - rewrite length_app, length_replicate. lia.
  - cbn [length] in Hl. lia.
Qed.

Lemma split_zeros (hi : list byte) k :
  (k <= 32)%nat -> replicate (64 - k) x00 ++ hi = replicate 32 x00 ++ (replicate (32 - k) x00 ++ hi).
Proof.
  intros Hk. rewrite app_assoc, <- replicate_add. by replace (32 + (32 - k))%nat with (64 - k)%nat by lia.
Qed.

(** The conversion reads exactly the DER encodings of canonical integers. *)
Lemma NewSig_der r s :
  canonical_int r = true -> canonical_int s = true ->
  NewSigFromRawSignature (der r s) = Ok (pad32 r ++ pad32 s).
Proof.
  intros Hr Hs. pose proof (canonical_length _ Hr). pose proof (canonical_length _ Hs).
  unfold NewSigFromRawSignature, minEcdsaSigLen. rewrite !der_length.
  rewrite (proj2 (Nat.ltb_ge _ 8)) by lia.
  replace (index (der r s) 1) with (Ok (byte_of (Z.of_nat (4 + length r + length s))))
    by (unfold der; cbn; do 2 f_equal; lia).
  replace (index (der r s) 3) with (Ok (byte_of (Z.of_nat (length r)))) by done.
  cbn [fmap res_fmap mbind res_bind]. rewrite !byte_len_of by lia.
  rewrite (proj2 (Nat.ltb_ge _ (4 + length r + length s + 2))) by lia.
  rewrite (proj2 (Nat.ltb_ge _ 8)) by lia. cbn [orb].
  rewrite (proj2 (Nat.leb_gt _ 0)) by lia. rewrite (proj2 (Nat.ltb_ge _ (length r + 7))) by lia. cbn [orb].
  rewrite (proj2 (index_ok _ _ _) (der_lookup_slen r s)). cbn [fmap res_fmap mbind res_bind]. rewrite byte_len_of by lia.
  rewrite (proj2 (Nat.leb_gt _ 0)) by lia. rewrite (proj2 (Nat.ltb_ge _ (length s + length r + 6))) by lia. cbn [orb].
  (* S *)
  match goal with |- context [mbind ?k ?m] => assert (m = Ok (replicate 32 x00 ++ pad32 s)) as -> end.
  { destruct (canonical_cases s Hs) as [[Hl Hp]|(Hl & d & -> & Hp)].
    - rewrite (proj2 (Nat.ltb_ge 32 _)) by lia. unfold slice_from. rewrite der_length.
      rewrite (proj2 (Nat.leb_le _ _)) by lia. rsimpl. rewrite der_tail.
      rewrite (copy_zeros 64), Hp by lia. by rewrite split_zeros by lia.
    - cbn [length] in Hl. injection Hl as Hl. cbn [length]. rewrite Hl. cbn [Nat.ltb Nat.leb].
      assert (index (der r (x00 :: d)) (6 + length r) = Ok x00) as ->.
      { unfold index. rewrite <- (Nat.add_0_r (6 + length r)), <- lookup_drop, der_tail. done. }
      rsimpl. cbn [bool_decide decide_rel byte_eq_decision orb negb].
      rewrite bool_decide_eq_true_2 by done. cbn [negb orb]. unfold slice_from. rewrite der_length. cbn [length].
      rewrite (proj2 (Nat.leb_le _ _)) by lia. rsimpl.
      replace (7 + length r)%nat with (6 + length r + 1)%nat by lia. rewrite <- drop_drop, der_tail. cbn [drop].
      rewrite drop_0, Hp. change (64 - (33 - 1))%nat with (64 - 32)%nat. by rewrite copy_zeros by lia. }
  rsimpl.
  destruct (canonical_cases r Hr) as [[Hl Hp]|(Hl & d & -> & Hp)].
  - rewrite (proj2 (Nat.ltb_ge 32 _)) by lia. unfold slice. rewrite der_length.
    rewrite (proj2 (Nat.leb_le _ _)) by lia. rewrite (proj2 (Nat.leb_le _ _)) by lia. rsimpl.
    replace (4 + length r - 4)%nat with (length r) by lia. cbn [andb]. rsimpl. rewrite der_head.
    rewrite copy_front by (try apply pad32_length; auto; lia). by rewrite Hp.
  - cbn [length] in Hl. injection Hl as Hl. cbn [length]. rewrite Hl. cbn [Nat.ltb Nat.leb].
    change (index (der (x00 :: d) s) 4) with (Ok x00). rsimpl. rewrite bool_decide_eq_true_2 by done.
    cbn [negb orb]. unfold slice. rewrite der_length. cbn [length].
    rewrite (proj2 (Nat.leb_le _ _)) by lia. rewrite (proj2 (Nat.leb_le _ _)) by lia. cbn [andb]. rsimpl.
    assert (drop 5 (der (x00 :: d) s) = d ++ [x02; byte_of (Z.of_nat (length s))] ++ s) as -> by done.
    replace (5 + (33 - 1) - 5)%nat with (length d) by lia. rewrite take_app_length.
    change (32 - (33 - 1))%nat with (32 - 32)%nat.
    rewrite copy_front by (try apply pad32_length; auto; lia). by rewrite Hp.
Qed.

(** Every signature on the wire is read back from its DER encoding, and every canonical
    DER encoding is what its wire form expands to. *)
Lemma sig_wire_roundtrip b :
  length b = 64%nat -> NewSigFromRawSignature (ToSignatureBytes b) = Ok b.
Proof.
  intros Hb.
  assert (length (take 32 b) = 32%nat /\ length (take 32 (drop 32 b)) = 32%nat) as [H1 H2]
    by (rewrite !length_take, length_drop; lia).
  destruct (extract_spec (take 32 b)) as [C1 P1]; [lia|].
  destruct (extract_spec (take 32 (drop 32 b))) as [C2 P2]; [lia|].
  assert (ToSignatureBytes b = der (extractCanonicalPadding (take 32 b))
    (extractCanonicalPadding (take 32 (drop 32 b)))) as -> by done.
  rewrite NewSig_der by done. rewrite P1, P2, H1, H2. cbn [replicate Nat.sub app].
  f_equal. rewrite (take_ge (drop 32 b)) by (rewrite length_drop; lia). apply take_drop.
Qed.

(** A canonical integer is what is extracted from its padded form. *)
Lemma extract_zeros n b : extractCanonicalPadding (replicate n x00 ++ b) = extractCanonicalPadding b.
Proof. induction n as [|n IH]; [done|]. cbn. apply IH. Qed.

Lemma extract_pad32 r : canonical_int r = true -> extractCanonicalPadding (pad32 r) = r.
Proof.
  intros Hr. rewrite pad32_digits, extract_zeros.
  destruct r as [|c [|d r]]; [done| |].
  - cbn [canonical_int digits] in *. cbn [extractCanonicalPadding]. pose proof (bval_range c).
    rewrite land_msb by lia. apply Z.ltb_lt in Hr.
    destruct (Z.ltb_spec 0 (bval c)) as [|Hz]; [|by rewrite (bval_zero c) by lia].
    by rewrite (proj2 (Z.leb_gt _ _)) by lia.
  - cbn [canonical_int digits] in *. rewrite !andb_true_iff in Hr. destruct Hr as [[Hc Hl] Hd].
    apply Z.ltb_lt in Hc. pose proof (bval_range c). pose proof (bval_range d).
    destruct (Z.eqb_spec (bval c) 0) as [Hz|Hz]; cbn [extractCanonicalPadding]; rewrite land_msb by lia.
    + apply Z.leb_le in Hd. rewrite (proj2 (Z.ltb_lt 0 _)) by lia. rewrite (proj2 (Z.leb_le _ _)) by lia.
      by rewrite (bval_zero c) by lia.
    + rewrite (proj2 (Z.ltb_lt 0 _)) by lia. by rewrite (proj2 (Z.leb_gt _ _)) by lia.
Qed.

Lemma der_wire_roundtrip r s b :
  canonical_int r = true -> canonical_int s = true ->
  NewSigFromRawSignature (der r s) = Ok b -> ToSignatureBytes b = der r s /\ length b = 64%nat.
Proof.
  intros Hr Hs. rewrite NewSig_der by done. intros [= <-].
  rewrite length_app, !pad32_length by done. split; [|done].
  unfold ToSignatureBytes. rewrite take_app_length', drop_app_length' by (by rewrite pad32_length).
  rewrite (take_ge (pad32 s)) by (rewrite pad32_length; done). by rewrite !extract_pad32 by done.
Qed.

(** Whatever the bytes, the conversion does not panic. *)
Lemma NewSig_no_panic sig : NewSigFromRawSignature sig <> Panic.
Proof.
  unfold NewSigFromRawSignature, minEcdsaSigLen.
  destruct (Nat.ltb_spec (length sig) 8) as [|Hlen]; [done|].
  assert (forall i, (i < length sig)%nat -> exists b, index sig i = Ok b) as Hix.
  { intros i Hi. unfold index. destruct (lookup_lt_is_Some_2 sig i Hi) as [b ->]. by exists b. }
  destruct (Hix 1%nat) as [b1 ->]; [lia|]. destruct (Hix 3%nat) as [b3 ->]; [lia|].
  destruct (Hix 4%nat) as [b4 ->]; [lia|]. cbn [fmap res_fmap mbind res_bind].
  case_match; [done|]. case_match; [done|]. apply orb_false_iff in H0 as [_ H0%Nat.ltb_ge].
  destruct (Hix (5 + byte_len b3)%nat) as [bs ->]; [lia|]. cbn [fmap res_fmap mbind res_bind].
  case_match; [done|]. apply orb_false_iff in H1 as [Hs0%Nat.leb_gt H1%Nat.ltb_ge].
  destruct (Hix (6 + byte_len b3)%nat) as [bp ->]; [lia|].
  assert (forall i, (i <= length sig)%nat -> slice_from sig i = Ok (drop i sig)) as Hsf
    by (intros i Hi; unfold slice_from; by rewrite (proj2 (Nat.leb_le _ _) Hi)).
  assert (forall i j, (i <= j <= length sig)%nat -> slice sig i j = Ok (take (j - i) (drop i sig))) as Hsl
    by (intros i j Hi; unfold slice; by rewrite !(proj2 (Nat.leb_le _ _)) by lia).
  match goal with |- mbind ?k ?m <> _ => assert (m <> Panic) as Hm end.
  { destruct (Nat.ltb_spec 32 (byte_len bs)); rsimpl; [|by rewrite Hsf by lia].
    match goal with |- (if ?c then _ else _) <> _ => destruct c; [done|] end. by rewrite Hsf by lia. }
  match goal with |- mbind ?k ?m <> _ => destruct m as [dst| |]; [|done|done] end. rsimpl.
  destruct (Nat.ltb_spec 32 (byte_len b3)); rsimpl; [|by rewrite Hsl by lia].
  match goal with |- (if ?c then _ else _) <> _ => destruct c; [done|] end. by rewrite Hsl by lia.
Qed.

(**  Every signature of 64 bytes is read back from its DER encoding; every DER encoding of
    two canonical integers is read, and expands to itself again; no byte string makes the
    conversion panic. *)
Theorem wire_signatures b r s sig :
  length b = 64%nat -> canonical_int r = true -> canonical_int s = true ->
  NewSigFromRawSignature (ToSignatureBytes b) = Ok b
  /\ (exists w, NewSigFromRawSignature (der r s) = Ok w /\ ToSignatureBytes w = der r s)
  /\ NewSigFromRawSignature sig <> Panic.
Proof.
  intros Hb Hr Hs. split; [by apply sig_wire_roundtrip|]. split; [|apply NewSig_no_panic].
  exists (pad32 r ++ pad32 s). pose proof (NewSig_der r s Hr Hs) as E. split; [done|].
  by apply (der_wire_roundtrip r s).
Qed.

Lemma wire_signatures_witness :
  NewSigFromRawSignature (ToSignatureBytes (replicate 31 x00 ++ [x85; x7f] ++ replicate 31 xff))
  = Ok (replicate 31 x00 ++ [x85; x7f] ++ replicate 31 xff).
Proof.
  apply (wire_signatures _ [x00; x85] (x7f :: replicate 31 xff) []); reflexivity.
Defined.
