(* ===== verification/CoopClose.v ===== *)
(** * Cooperative close

    [lnwallet/chancloser/chancloser.go]: the state machine that exchanges shutdown messages,
    negotiates the fee of the closing transaction and broadcasts it; with what it calls of
    [lnwallet/channel.go] and [commitment.go] (proposals, the closing transaction and its
    completion), of [channeldb/channel.go] (the status of a channel, the thaw height) and of
    [input/script_utils.go] and [labels].

    Package [txsort], the signer, the script builder, the script engine and the parser of
    DER signatures are the class [CloseEnv].  The callbacks of the configuration are
    arguments of the operations that call them: whether disconnecting, writing the status
    and broadcasting succeed ([close_calls]).  What was broadcast is recorded in the state.
    Whether the channel could be disabled is only logged. *)

From Stdlib Require Import Lia.
From stdpp Require Import pretty.
From S2P Require Import Prelude Sha256 Shachain Ids Amounts UpdateLog Channel ChannelEval CommitTx WireSig StateRes.

(** ** The channel that is closed *)

Inductive channel_status :=
  | channelPending | channelOpen | channelClosing | channelClosed | channelDispute
  | channelPendingPayment.

#[export] Instance channel_status_eq_dec : EqDecision channel_status.
Proof. solve_decision. Defined.

(** [ChannelStatus], a bit field of eight bits. *)
Definition ChanStatusDefault : Z := 0.
Definition ChanStatusBorked : Z := 1.
Definition ChanStatusCommitBroadcasted : Z := 2.
Definition ChanStatusLocalDataLoss : Z := 4.
Definition ChanStatusRestored : Z := 8.
Definition ChanStatusCoopBroadcasted : Z := 16.
Definition ChanStatusLocalCloseInitiator : Z := 32.
Definition ChanStatusRemoteCloseInitiator : Z := 64.

Definition FrozenBit : ChannelType := 16.
Definition IsFrozen (c : ChannelType) : bool := Z.land c FrozenBit =? FrozenBit.
Definition AbsoluteThawHeightThreshold : Z := 500000.

(** A closing transaction: version 2, and the script of its only input. *)
Record CloseTx := { ct_Version : Z; ct_tx : MsgTx; SignatureScript : list byte }.

(** The channel as the closer uses it: its static state, the latest commitment, the status
    in memory and on disk, and the closing transactions on disk. *)
Record close_chan := {
  cc_state : OpenChannel;
  cc_LocalCommitment : ChannelCommitment;
  cc_status : channel_status;
  cc_chanStatus : Z;
  cc_dbStatus : Z;
  cc_coopCloseTx : option CloseTx;
  cc_forceCloseTx : option CloseTx;
  cc_ShortChannelID : ShortChannelID;
  cc_IsPending : bool;
  RemoteUpfrontShutdownScript : list byte;
  (** the sign descriptor of the funding output *)
  sd_WitnessScript : list byte;
  sd_PkScript : list byte;
}.

Definition set_cc_status (c : close_chan) (s : channel_status) : close_chan :=
  {| cc_state := cc_state c; cc_LocalCommitment := cc_LocalCommitment c; cc_status := s;
     cc_chanStatus := cc_chanStatus c; cc_dbStatus := cc_dbStatus c;
     cc_coopCloseTx := cc_coopCloseTx c; cc_forceCloseTx := cc_forceCloseTx c;
     cc_ShortChannelID := cc_ShortChannelID c; cc_IsPending := cc_IsPending c;
     RemoteUpfrontShutdownScript := RemoteUpfrontShutdownScript c;
     sd_WitnessScript := sd_WitnessScript c; sd_PkScript := sd_PkScript c |}.

Definition hasChanStatus (c : close_chan) (status : Z) : bool :=
  if status =? ChanStatusDefault then cc_chanStatus c =? ChanStatusDefault
  else Z.land (cc_chanStatus c) status =? status.

(** The status is added to what is on disk; the closing transactions are written with it. *)
Definition putChanStatus (c : close_chan) (status : Z) (coop force : option CloseTx)
    (db : res unit) : close_chan * res unit :=
  match db with
  | Ok _ =>
      let status' := Z.lor (cc_dbStatus c) status in
      ({| cc_state := cc_state c; cc_LocalCommitment := cc_LocalCommitment c;
          cc_status := cc_status c; cc_chanStatus := status'; cc_dbStatus := status';
          cc_coopCloseTx := match coop with Some _ => coop | None => cc_coopCloseTx c end;
          cc_forceCloseTx := match force with Some _ => force | None => cc_forceCloseTx c end;
          cc_ShortChannelID := cc_ShortChannelID c; cc_IsPending := cc_IsPending c;
          RemoteUpfrontShutdownScript := RemoteUpfrontShutdownScript c;
          sd_WitnessScript := sd_WitnessScript c; sd_PkScript := sd_PkScript c |}, Ok tt)
  | Err e => (c, Err e)
  | Panic => (c, Panic)
  end.

Definition clearChanStatus (c : close_chan) (status : Z) (db : res unit) : close_chan * res unit :=
  match db with
  | Ok _ =>
      let status' := Z.ldiff (cc_dbStatus c) status in
      ({| cc_state := cc_state c; cc_LocalCommitment := cc_LocalCommitment c;
          cc_status := cc_status c; cc_chanStatus := status'; cc_dbStatus := status';
          cc_coopCloseTx := cc_coopCloseTx c; cc_forceCloseTx := cc_forceCloseTx c;
          cc_ShortChannelID := cc_ShortChannelID c; cc_IsPending := cc_IsPending c;
          RemoteUpfrontShutdownScript := RemoteUpfrontShutdownScript c;
          sd_WitnessScript := sd_WitnessScript c; sd_PkScript := sd_PkScript c |}, Ok tt)
  | Err e => (c, Err e)
  | Panic => (c, Panic)
  end.

Definition close_initiator (locallyInitiated : bool) : Z :=
  if locallyInitiated then ChanStatusLocalCloseInitiator else ChanStatusRemoteCloseInitiator.

Definition MarkCoopBroadcasted (c : close_chan) (closeTx : option CloseTx)
    (locallyInitiated : bool) (db : res unit) : close_chan * res unit :=
  putChanStatus c (Z.lor ChanStatusCoopBroadcasted (close_initiator locallyInitiated))
    closeTx None db.

Definition MarkCommitmentBroadcasted (c : close_chan) (closeTx : option CloseTx)
    (locallyInitiated : bool) (db : res unit) : close_chan * res unit :=
  putChanStatus c (Z.lor ChanStatusCommitBroadcasted (close_initiator locallyInitiated))
    None closeTx db.

Definition ErrNoCloseTx : error := Error "ErrNoCloseTx".

Definition BroadcastedCooperative (c : close_chan) : res CloseTx :=
  match cc_coopCloseTx c with Some tx => Ok tx | None => Err ErrNoCloseTx end.

Definition BroadcastedCommitment (c : close_chan) : res CloseTx :=
  match cc_forceCloseTx c with Some tx => Ok tx | None => Err ErrNoCloseTx end.

Definition errRelativeThaw : error :=
  Error "cannot use relative thaw height for unconfirmed channel".

Definition AbsoluteThawHeight (c : close_chan) : res Z :=
  let t := ChanType (cc_state c) in
  if negb (IsFrozen t) && negb (HasLeaseExpiration t) then Ok 0
  else if IsFrozen t && (ThawHeight (cc_state c) <? AbsoluteThawHeightThreshold) then
    if cc_IsPending c then Err errRelativeThaw
    else Ok (u32 (BlockHeight (cc_ShortChannelID c) + ThawHeight (cc_state c)))
  else Ok (ThawHeight (cc_state c)).

(** ** The closing transaction *)

Class CloseEnv := {
  InPlaceSort : MsgTx -> MsgTx;
  (** a signature in DER: the key, the script that is spent, the transaction *)
  SignClose : list byte -> list byte -> CloseTx -> res (list byte);
  ParseDERSignature : list byte -> res (list byte);
  (** the script that pushes the given data *)
  PushScript : list (list byte) -> res (list byte);
  close_CheckTransactionSanity : CloseTx -> res unit;
  (** the script asking for signatures of two keys, and the hash of a script *)
  MultiSigScript : list byte -> list byte -> res (list byte);
  ScriptHashScript : list byte -> res (list byte);
  Execute : list byte -> CloseTx -> res unit;
}.

Section Close.
Context `{CloseEnv}.

Definition CreateCooperativeCloseTx (fundingTxIn_ : TxIn)
    (localDust remoteDust ourBalance theirBalance : Z)
    (ourDeliveryScript theirDeliveryScript : list byte) : CloseTx :=
  let out v s := {| Value := v; TxOut_Version := 0; PkScript := s |} in
  {| ct_Version := 2;
     ct_tx := InPlaceSort
       {| MsgTx_TxIn := [fundingTxIn_];
          MsgTx_TxOut :=
            (if localDust <=? ourBalance then [out ourBalance ourDeliveryScript] else [])
            ++ (if remoteDust <=? theirBalance then [out theirBalance theirDeliveryScript] else []);
          LockTime := 0 |};
     SignatureScript := [] |}.

Definition ErrChanClosing : error := Error "ErrChanClosing".

(** Both operations build the transaction in the same way. *)
Definition close_tx (c : close_chan) (proposedFee : Z) (local remote : list byte)
    : res (CloseTx * Z) :=
  let cs := cc_state c in
  '(ourBalance, theirBalance) ← CoopCloseBalance (ChanType cs) (IsInitiator cs) proposedFee
                                  (cc_LocalCommitment c);
  let closeTx := CreateCooperativeCloseTx (fundingTxIn cs) (DustLimit (LocalChanCfg cs))
                   (DustLimit (RemoteChanCfg cs)) ourBalance theirBalance local remote in
  _ ← close_CheckTransactionSanity closeTx;
  Ok (closeTx, ourBalance).

Definition CreateCloseProposal (c : close_chan) (proposedFee : Z) (local remote : list byte)
    : close_chan * res (list byte * Z) :=
  if bool_decide (cc_status c = channelClosed) then (c, Err ErrChanClosing)
  else
    match ('(closeTx, ourBalance) ← close_tx c proposedFee local remote;
           sig ← SignClose (LocalMultiSigKey (cc_state c)) (sd_WitnessScript c) closeTx;
           Ok (sig, ourBalance)) with
    | Ok r => (set_cc_status c channelClosing, Ok r)
    | Err e => (c, Err e)
    | Panic => (c, Panic)
    end.

Definition sigHashAll : byte := x01.

(** The signatures are in the order of the keys. *)
Definition SpendMultiSig (witnessScript pubA sigA pubB sigB : list byte) : list (list byte) :=
  match bytes_compare pubA pubB with
  | Gt => [sigB ++ [sigHashAll]; sigA ++ [sigHashAll]; witnessScript]
  | _ => [sigA ++ [sigHashAll]; sigB ++ [sigHashAll]; witnessScript]
  end.

Definition errPubkeySize : error := Error "pubkey size error: compressed pubkeys only".

Definition GenMultiSigScript (aPub bPub : list byte) : res (list byte) :=
  if negb (length aPub =? 33)%nat || negb (length bPub =? 33)%nat then Err errPubkeySize
  else
    match bytes_compare aPub bPub with
    | Gt => MultiSigScript bPub aPub
    | _ => MultiSigScript aPub bPub
    end.

(** The scripts of the sign descriptor. *)
Definition createSignDesc (cs : OpenChannel) : res (list byte * list byte) :=
  multiSigScript ← GenMultiSigScript (LocalMultiSigKey cs) (RemoteMultiSigKey cs);
  fundingPkScript ← ScriptHashScript multiSigScript;
  Ok (multiSigScript, fundingPkScript).

Definition CompleteCooperativeClose (c : close_chan) (localSig remoteSig local remote : list byte)
    (proposedFee : Z) : close_chan * res (CloseTx * Z) :=
  if bool_decide (cc_status c = channelClosed) then (c, Err ErrChanClosing)
  else
    let cs := cc_state c in
    match ('(closeTx, ourBalance) ← close_tx c proposedFee local remote;
           sigScript ← PushScript (SpendMultiSig (sd_WitnessScript c) (LocalMultiSigKey cs) localSig
                                     (RemoteMultiSigKey cs) remoteSig);
           let closeTx := {| ct_Version := ct_Version closeTx; ct_tx := ct_tx closeTx;
                             SignatureScript := sigScript |} in
           _ ← Execute (sd_PkScript c) closeTx;
           Ok (closeTx, ourBalance)) with
    | Ok r => (set_cc_status c channelClosed, Ok r)
    | Err e => (c, Err e)
    | Panic => (c, Panic)
    end.

Definition CalcFee (c : close_chan) (feeRate : Z) : Z :=
  FeeForSize feeRate (CommitSize (ChanType (cc_state c))).

(** ** The fee *)

Definition feeInAcceptableRange (localFee remoteFee : Z) : bool :=
  if localFee <? remoteFee then
    remoteFee <=? i64 (localFee + Z.quot (i64 (localFee * 3)) 10)
  else i64 (localFee - Z.quot (i64 (localFee * 3)) 10) <=? remoteFee.

Definition ratchetFee (fee : Z) (up : bool) : Z :=
  if up then i64 (fee + Z.quot (i64 (fee * 1)) 10)
  else i64 (fee - Z.quot (i64 (fee * 1)) 10).

Definition calcCompromiseFee (ourIdealFee lastSentFee remoteFee : Z) : Z :=
  if (ourIdealFee =? remoteFee) || (lastSentFee =? 0) then ourIdealFee
  else if remoteFee =? lastSentFee then lastSentFee
  else if remoteFee <? lastSentFee then
    if feeInAcceptableRange lastSentFee remoteFee then remoteFee
    else ratchetFee lastSentFee false
  else if feeInAcceptableRange lastSentFee remoteFee then remoteFee
  else ratchetFee lastSentFee true.

(** ** The state machine *)

Inductive closeState := closeIdle | closeShutdownInitiated | closeFeeNegotiation | closeFinished.

#[export] Instance closeState_eq_dec : EqDecision closeState.
Proof. solve_decision. Defined.

Definition xor_byte (a b : byte) : byte := byte_of (Z.lxor (bval a) (bval b)).

Definition xorTxid (cid : list byte) (outputIndex : Z) : list byte :=
  match be_bytes 2 outputIndex with
  | [b0; b1] => alter (fun c => xor_byte c b1) 31%nat (alter (fun c => xor_byte c b0) 30%nat cid)
  | _ => cid
  end.

Definition NewChanIDFromOutPoint (point : list byte * Z) : list byte :=
  xorTxid point.1 (u16 point.2).

Record Shutdown := { sh_ChannelID : list byte; Address : list byte }.
Record ClosingSigned := { cls_ChannelID : list byte; FeeAtoms : Z; cls_Signature : list byte }.

Inductive close_msg := MsgShutdown (m : Shutdown) | MsgClosingSigned (m : ClosingSigned) | MsgOther.

(** The request of a client that asked for the close. *)
Record ChanClose := { CloseType : Z; TargetFeePerKB : Z; DeliveryScript : list byte }.

Record ChanCloser := {
  c_state : closeState;
  c_Channel : close_chan;
  chanPoint : list byte * Z;
  cid : list byte;
  negotiationHeight : Z;
  closingTx : option CloseTx;
  idealFeeSat : Z;
  lastFeeProposal : Z;
  priorFeeOffers : gmap Z ClosingSigned;
  closeReq : option ChanClose;
  localDeliveryScript : list byte;
  remoteDeliveryScript : list byte;
  locallyInitiated : bool;
  (** the calls of [BroadcastTx] *)
  broadcasts : list (CloseTx * string);
}.

Definition NewChanCloser (channel : close_chan) (deliveryScript : list byte)
    (idealFeePerKB height : Z) (req : option ChanClose) (local : bool) : ChanCloser :=
  let fee := CalcFee channel idealFeePerKB in
  let channelCommitFee := CommitFee (cc_LocalCommitment channel) in
  let point := FundingOutpoint (cc_state channel) in
  {| c_state := closeIdle; c_Channel := channel; chanPoint := point;
     cid := NewChanIDFromOutPoint point; negotiationHeight := height; closingTx := None;
     idealFeeSat := if channelCommitFee <? fee then channelCommitFee else fee;
     lastFeeProposal := 0; priorFeeOffers := ∅; closeReq := req;
     localDeliveryScript := deliveryScript; remoteDeliveryScript := [];
     locallyInitiated := local; broadcasts := [] |}.

(** *** Assignments to fields *)

Definition upd (c : ChanCloser) (st : closeState) (ch : close_chan) (tx : option CloseTx)
    (last : Z) (prior : gmap Z ClosingSigned) (remote : list byte)
    (bs : list (CloseTx * string)) : ChanCloser :=
  {| c_state := st; c_Channel := ch; chanPoint := chanPoint c; cid := cid c;
     negotiationHeight := negotiationHeight c; closingTx := tx; idealFeeSat := idealFeeSat c;
     lastFeeProposal := last; priorFeeOffers := prior; closeReq := closeReq c;
     localDeliveryScript := localDeliveryScript c; remoteDeliveryScript := remote;
     locallyInitiated := locallyInitiated c; broadcasts := bs |}.

Definition set_state (st : closeState) (c : ChanCloser) : ChanCloser :=
  upd c st (c_Channel c) (closingTx c) (lastFeeProposal c) (priorFeeOffers c)
    (remoteDeliveryScript c) (broadcasts c).
Definition set_channel (ch : close_chan) (c : ChanCloser) : ChanCloser :=
  upd c (c_state c) ch (closingTx c) (lastFeeProposal c) (priorFeeOffers c)
    (remoteDeliveryScript c) (broadcasts c).
Definition set_closingTx (tx : CloseTx) (c : ChanCloser) : ChanCloser :=
  upd c (c_state c) (c_Channel c) (Some tx) (lastFeeProposal c) (priorFeeOffers c)
    (remoteDeliveryScript c) (broadcasts c).
Definition set_last (fee : Z) (c : ChanCloser) : ChanCloser :=
  upd c (c_state c) (c_Channel c) (closingTx c) fee (priorFeeOffers c)
    (remoteDeliveryScript c) (broadcasts c).
Definition add_offer (fee : Z) (m : ClosingSigned) (c : ChanCloser) : ChanCloser :=
  upd c (c_state c) (c_Channel c) (closingTx c) (lastFeeProposal c)
    (<[fee := m]> (priorFeeOffers c)) (remoteDeliveryScript c) (broadcasts c).
Definition set_remote_script (s : list byte) (c : ChanCloser) : ChanCloser :=
  upd c (c_state c) (c_Channel c) (closingTx c) (lastFeeProposal c) (priorFeeOffers c) s
    (broadcasts c).
Definition add_broadcast (tx : CloseTx) (label : string) (c : ChanCloser) : ChanCloser :=
  upd c (c_state c) (c_Channel c) (closingTx c) (lastFeeProposal c) (priorFeeOffers c)
    (remoteDeliveryScript c) (broadcasts c ++ [(tx, label)]).

(** What the callbacks return. *)
Record close_calls := {
  call_Disconnect : res unit;
  call_db : res unit;
  call_BroadcastTx : res unit;
}.

Local Open Scope op_scope.

(** A method of the channel, called through the configuration. *)
Definition on_channel {A} (f : close_chan -> close_chan * res A) : op ChanCloser A := fun c =>
  let '(ch, r) := f (c_Channel c) in (set_channel ch c, r).

Definition initChanShutdown (calls : close_calls) : op ChanCloser Shutdown :=
  c <- op_get id;;
  let shutdown := {| sh_ChannelID := cid c; Address := localDeliveryScript c |} in
  on_channel (fun ch => MarkCoopBroadcasted ch None (locallyInitiated c) (call_db calls));;
  op_ret shutdown.

Definition ErrChanAlreadyClosing : error := Error "ErrChanAlreadyClosing".
Definition ErrChanCloseNotFinished : error := Error "ErrChanCloseNotFinished".
Definition ErrUpfrontShutdownScriptMismatch : error := Error "ErrUpfrontShutdownScriptMismatch".
Definition errExpectedShutdown : error := Error "expected lnwire.Shutdown".
Definition errExpectedClosingSigned : error := Error "expected lnwire.ClosingSigned".
Definition errFrozen : error := Error "initiator attempting to co-op close frozen channel".

Definition ShutdownChan (calls : close_calls) : op ChanCloser Shutdown :=
  st <- op_get c_state;;
  if negb (bool_decide (st = closeIdle)) then op_err ErrChanAlreadyClosing
  else
    shutdownMsg <- initChanShutdown calls;;
    op_set (set_state closeShutdownInitiated);;
    op_ret shutdownMsg.

Definition ClosingTx (c : ChanCloser) : res (option CloseTx) :=
  if negb (bool_decide (c_state c = closeFinished)) then Err ErrChanCloseNotFinished
  else Ok (closingTx c).

Definition maybeMatchScript (disconnect : res unit) (upfrontScript peerScript : list byte)
    : res unit :=
  if (length upfrontScript =? 0)%nat then Ok tt
  else if negb (bool_decide (upfrontScript = peerScript)) then
    _ ← disconnect; Err ErrUpfrontShutdownScriptMismatch
  else Ok tt.

Definition proposeCloseSigned (fee : Z) : op ChanCloser ClosingSigned :=
  c <- op_get id;;
  proposal <- on_channel (fun ch => CreateCloseProposal ch fee (localDeliveryScript c)
                                         (remoteDeliveryScript c));;
  op_set (set_last fee);;
  parsedSig <- op_lift (NewSigFromRawSignature proposal.1);;
  let closeSignedMsg := {| cls_ChannelID := cid c; FeeAtoms := fee; cls_Signature := parsedSig |} in
  op_set (add_offer fee closeSignedMsg);;
  op_ret closeSignedMsg.

Definition ToSignature (sig : list byte) : res (list byte) :=
  ParseDERSignature (ToSignatureBytes sig).

(** [labels.MakeLabel] for a channel whose short identifier is known. *)
Definition MakeLabel (labelType : string) (channelID : ShortChannelID) : string :=
  ("0:" +:+ labelType +:+ ":shortchanid-" +:+ pretty (Z.to_N (ToUint64 channelID)))%string.

(** The thaw height bars the party that opened the channel from closing a frozen one. *)
Definition check_thaw (c : ChanCloser) : res unit :=
  if IsInitiator (cc_state (c_Channel c)) then Ok tt
  else
    absoluteThawHeight ← AbsoluteThawHeight (c_Channel c);
    if negotiationHeight c <? absoluteThawHeight then Err errFrozen else Ok tt.

Definition handle_idle (calls : close_calls) (msg : close_msg)
    : op ChanCloser (list close_msg * bool) :=
  match msg with
  | MsgShutdown shutdownMsg =>
      c <- op_get id;;
      op_lift (check_thaw c);;
      op_lift (maybeMatchScript (call_Disconnect calls)
                 (RemoteUpfrontShutdownScript (c_Channel c)) (Address shutdownMsg));;
      op_set (set_remote_script (Address shutdownMsg));;
      localShutdown <- initChanShutdown calls;;
      op_set (set_state closeFeeNegotiation);;
      if IsInitiator (cc_state (c_Channel c)) then
        closeSigned <- proposeCloseSigned (idealFeeSat c);;
        op_ret ([MsgShutdown localShutdown; MsgClosingSigned closeSigned], false)
      else op_ret ([MsgShutdown localShutdown], false)
  | _ => op_err errExpectedShutdown
  end.

Definition handle_shutdown_initiated (calls : close_calls) (msg : close_msg)
    : op ChanCloser (list close_msg * bool) :=
  match msg with
  | MsgShutdown shutdownMsg =>
      c <- op_get id;;
      op_lift (maybeMatchScript (call_Disconnect calls)
                 (RemoteUpfrontShutdownScript (c_Channel c)) (Address shutdownMsg));;
      op_set (set_remote_script (Address shutdownMsg));;
      op_set (set_state closeFeeNegotiation);;
      if IsInitiator (cc_state (c_Channel c)) then
        closeSigned <- proposeCloseSigned (idealFeeSat c);;
        op_ret ([MsgClosingSigned closeSigned], false)
      else op_ret ([], false)
  | _ => op_err errExpectedShutdown
  end.

(** Behind the agreement: our signature is that of the offer we made for this fee; without
    one there is nothing to dereference. *)
Definition accept_fee (calls : close_calls) (closeSignedMsg : ClosingSigned)
    : op ChanCloser (list close_msg * bool) :=
  let remoteProposedFee := FeeAtoms closeSignedMsg in
  c <- op_get id;;
  matching <- op_lift (match priorFeeOffers c !! remoteProposedFee with
                       | Some m => Ok m | None => Panic end);;
  localSig <- op_lift (ToSignature (cls_Signature matching));;
  remoteSig <- op_lift (ToSignature (cls_Signature closeSignedMsg));;
  completed <- on_channel (fun ch =>
    CompleteCooperativeClose ch localSig remoteSig (localDeliveryScript c)
      (remoteDeliveryScript c) remoteProposedFee);;
  let closeTx := completed.1 in
  op_set (set_closingTx closeTx);;
  on_channel (fun ch => MarkCoopBroadcasted ch (Some closeTx) (locallyInitiated c) (call_db calls));;
  op_set (add_broadcast closeTx (MakeLabel "closechannel" (cc_ShortChannelID (c_Channel c))));;
  op_lift (call_BroadcastTx calls);;
  op_set (set_state closeFinished);;
  op_ret ([MsgClosingSigned matching], true).

Definition handle_fee_negotiation (calls : close_calls) (msg : close_msg)
    : op ChanCloser (list close_msg * bool) :=
  match msg with
  | MsgClosingSigned closeSignedMsg =>
      let remoteProposedFee := FeeAtoms closeSignedMsg in
      c <- op_get id;;
      match priorFeeOffers c !! remoteProposedFee with
      | Some _ => accept_fee calls closeSignedMsg
      | None =>
          let feeProposal := calcCompromiseFee (idealFeeSat c) (lastFeeProposal c)
                               remoteProposedFee in
          closeSigned <- proposeCloseSigned feeProposal;;
          if negb (feeProposal =? remoteProposedFee)
          then op_ret ([MsgClosingSigned closeSigned], false)
          else accept_fee calls closeSignedMsg
      end
  | _ => op_err errExpectedClosingSigned
  end.

Definition ProcessCloseMsg (calls : close_calls) (msg : close_msg)
    : op ChanCloser (list close_msg * bool) :=
  st <- op_get c_state;;
  match st with
  | closeIdle => handle_idle calls msg
  | closeShutdownInitiated => handle_shutdown_initiated calls msg
  | closeFeeNegotiation => handle_fee_negotiation calls msg
  | closeFinished =>
      match msg with
      | MsgClosingSigned _ => op_ret ([], true)
      | _ => op_err errExpectedClosingSigned
      end
  end.

End Close.
