(* ===== verification/CoopCloseThms.v ===== *)
(** * Cooperative close: two parties

    Both parties of a channel run the state machine of [CoopClose] and exchange messages
    over queues.  The theorems: the parties build the same transaction; the negotiation of
    the fee ends, both broadcast the same transaction, at a fee between the fees they
    started from; what the transaction pays. *)

From Stdlib Require Import Lia.
From S2P Require Import Prelude Sha256 Shachain Ids Amounts UpdateLog Channel ChannelEval CommitTx CommitTxInv WireSig StateRes CoopClose.

(** ** The fee *)

Definition strictly_between (a b k : Z) : Prop := a < k < b \/ b < k < a.

(** From ten atoms on, an offer is either that of the other party or strictly closer to it
    than the last one. *)
Lemma compromise_between ideal last remote :
  ideal <> remote -> last <> remote -> 10 <= last < 2 ^ 60 -> 0 <= remote < 2 ^ 60 ->
  calcCompromiseFee ideal last remote = remote
  \/ strictly_between last remote (calcCompromiseFee ideal last remote).
Proof.
  intros Hi Hl Hlast Hrem. unfold calcCompromiseFee, feeInAcceptableRange, ratchetFee, strictly_between.
  rewrite (proj2 (Z.eqb_neq ideal remote)), (proj2 (Z.eqb_neq last 0)), (proj2 (Z.eqb_neq remote last)) by lia.
  cbn [orb]. rewrite !Z.mul_1_r.
  assert (i64 (last * 3) = last * 3) as -> by (unfold i64; rewrite Z.mod_small by lia; lia).
  assert (i64 last = last) as -> by (unfold i64; rewrite Z.mod_small by lia; lia).
  rewrite !Z.quot_div_nonneg by lia.
  pose proof (Z.div_mod (last * 3) 10 ltac:(lia)). pose proof (Z.mod_pos_bound (last * 3) 10 ltac:(lia)).
  pose proof (Z.div_mod last 10 ltac:(lia)). pose proof (Z.mod_pos_bound last 10 ltac:(lia)).
  assert (forall d, 0 <= d <= last -> i64 (last + d) = last + d /\ i64 (last - d) = last - d) as Hw
    by (intros d Hd; unfold i64; rewrite !Z.mod_small by lia; lia).
  destruct (Hw (last * 3 / 10)) as [-> ->]; [lia|]. destruct (Hw (last / 10)) as [-> ->]; [lia|].
  destruct (Z.ltb_spec remote last); destruct (Z.ltb_spec last remote); try lia;
    match goal with |- context [?a <=? ?b] => destruct (Z.leb_spec a b) end; lia.
Qed.

Lemma compromise_ideal ideal remote : calcCompromiseFee ideal 0 remote = ideal.
Proof. unfold calcCompromiseFee. by rewrite orb_true_r. Qed.

(** ** What the code relies on *)

(** What a transaction with one input must satisfy to be sane. *)
Definition sane (tx : MsgTx) : Prop :=
  MsgTx_TxOut tx <> []
  /\ Forall (fun o => 0 <= Value o <= 21 * 10 ^ 14 /\ (length (PkScript o) <= 500)%nat) (MsgTx_TxOut tx)
  /\ (length (MsgTx_TxOut tx) <= 2)%nat /\ length (MsgTx_TxIn tx) = 1%nat.

Definition with_script (tx : CloseTx) (script : list byte) : CloseTx :=
  {| ct_Version := ct_Version tx; ct_tx := ct_tx tx; SignatureScript := script |}.

(** The documented behaviour of the packages behind [CloseEnv]: [txsort] orders inputs and
    outputs by their contents; a signer signs, in canonical DER, which is parsed back; the
    script builder pushes three short elements; small transactions are sane; and the engine
    accepts the signatures of both keys, in their order. *)
Class CloseLaws `{CloseEnv} := {
  sort_same : forall a b, MsgTx_TxIn a = MsgTx_TxIn b -> LockTime a = LockTime b ->
    MsgTx_TxOut a ≡ₚ MsgTx_TxOut b -> InPlaceSort a = InPlaceSort b;
  sort_perm : forall a, MsgTx_TxIn (InPlaceSort a) ≡ₚ MsgTx_TxIn a
    /\ MsgTx_TxOut (InPlaceSort a) ≡ₚ MsgTx_TxOut a /\ LockTime (InPlaceSort a) = LockTime a;
  sign_canonical : forall key script tx, exists r s, canonical_int r = true
    /\ canonical_int s = true /\ SignClose key script tx = Ok (der r s)
    /\ ParseDERSignature (der r s) = Ok (der r s);
  push_short : forall a b c, (length a <= 73)%nat -> (length b <= 73)%nat ->
    (length c <= 73)%nat -> exists script, PushScript [a; b; c] = Ok script;
  multisig_short : forall a b script, MultiSigScript a b = Ok script -> (length script <= 73)%nat;
  sane_ok : forall tx, sane (ct_tx tx) -> close_CheckTransactionSanity tx = Ok tt;
  engine_accepts : forall a b script pk tx sigA sigB sigScript,
    bytes_compare a b = Lt -> MultiSigScript a b = Ok script -> ScriptHashScript script = Ok pk ->
    SignClose a script tx = Ok sigA -> SignClose b script tx = Ok sigB ->
    PushScript [sigA ++ [sigHashAll]; sigB ++ [sigHashAll]; script] = Ok sigScript ->
    Execute pk (with_script tx sigScript) = Ok tt;
}.

(** ** The two ends of a channel *)

(** The funder [f] and the other party [n] hold the same channel, at rest. *)
Record mirrored `{CloseEnv} (f n : close_chan) : Prop := {
  mi_initiators : IsInitiator (cc_state f) = true /\ IsInitiator (cc_state n) = false;
  mi_type : ChanType (cc_state f) = ChanType (cc_state n);
  mi_point : FundingOutpoint (cc_state f) = FundingOutpoint (cc_state n);
  mi_dust : DustLimit (LocalChanCfg (cc_state f)) = DustLimit (RemoteChanCfg (cc_state n))
    /\ DustLimit (RemoteChanCfg (cc_state f)) = DustLimit (LocalChanCfg (cc_state n));
  mi_keys : LocalMultiSigKey (cc_state f) = RemoteMultiSigKey (cc_state n)
    /\ RemoteMultiSigKey (cc_state f) = LocalMultiSigKey (cc_state n)
    /\ LocalMultiSigKey (cc_state f) <> LocalMultiSigKey (cc_state n);
  mi_balances : LocalBalance (cc_LocalCommitment f) = RemoteBalance (cc_LocalCommitment n)
    /\ RemoteBalance (cc_LocalCommitment f) = LocalBalance (cc_LocalCommitment n);
  mi_fee : CommitFee (cc_LocalCommitment f) = CommitFee (cc_LocalCommitment n);
  mi_desc_f : createSignDesc (cc_state f) = Ok (sd_WitnessScript f, sd_PkScript f);
  mi_desc_n : createSignDesc (cc_state n) = Ok (sd_WitnessScript n, sd_PkScript n);
  mi_open : cc_status f <> channelClosed /\ cc_status n <> channelClosed;
}.

Section TwoParties.
Context `{!CloseEnv} `{!CloseLaws}.

(** The channel at both ends, the scripts to pay to and the fees to start from, indexed by
    the party: [true] is the funder. *)
Variables (ch : bool -> close_chan) (script : bool -> list byte) (rate : bool -> Z)
  (nheight : bool -> Z) (req : bool -> option ChanClose) (local : bool -> bool).

Definition closer (b : bool) : ChanCloser :=
  NewChanCloser (ch b) (script b) (rate b) (nheight b) (req b) (local b).

Definition commit_fee : Z := CommitFee (cc_LocalCommitment (ch true)).
Definition balance (b : bool) : Z := ToAtoms (LocalBalance (cc_LocalCommitment (ch b))).
Definition dust (b : bool) : Z := DustLimit (LocalChanCfg (cc_state (ch b))).
Definition anchors : Z := if HasAnchors (ChanType (cc_state (ch true))) then 2 * anchorSize else 0.
Definition ideal (b : bool) : Z := idealFeeSat (closer b).
Definition key (b : bool) : list byte := LocalMultiSigKey (cc_state (ch b)).

(** A channel that can be closed: amounts within the money supply, one output that is not
    dust, fees of at least ten atoms, scripts that the parties agreed on. *)
Record closable : Prop := {
  cl_mirrored : mirrored (ch true) (ch false);
  cl_amounts : forall b, is_u64 (LocalBalance (cc_LocalCommitment (ch b))) /\ balance b <= 10 ^ 15;
  cl_fee : 0 <= commit_fee <= 10 ^ 12;
  cl_output : dust true <= balance true \/ dust false <= balance false;
  cl_scripts : forall b, (length (script b) <= 500)%nat;
  cl_upfront : forall b, RemoteUpfrontShutdownScript (ch b) = []
    \/ RemoteUpfrontShutdownScript (ch b) = script (negb b);
  cl_thaw : check_thaw (closer false) = Ok tt;
  cl_ideal : forall b, 10 <= ideal b;
}.

Hypothesis Hok : closable.

(** The transaction for a fee, as the funder sees it. *)
Definition funder_pays (fee : Z) : Z := balance true + commit_fee + anchors - fee.

Definition agreed_tx (fee : Z) : CloseTx :=
  CreateCooperativeCloseTx (fundingTxIn (cc_state (ch true))) (dust true) (dust false)
    (funder_pays fee) (balance false) (script true) (script false).

Lemma ideal_le b : ideal b <= commit_fee.
Proof.
  unfold ideal, closer, NewChanCloser, commit_fee. cbn [idealFeeSat].
  destruct (cl_mirrored Hok) as [_ _ _ _ _ _ Hfee _ _ _].
  destruct b; [|rewrite Hfee]; case_match; lia.
Qed.

Lemma balance_range b : 0 <= balance b <= 10 ^ 15.
Proof.
  destruct (cl_amounts Hok b) as [Hu Hb]. split; [|done]. unfold balance, ToAtoms, mAtomScale, is_u64 in *.
  assert (0 <= LocalBalance (cc_LocalCommitment (ch b)) / 1000 < 2 ^ 63).
  { split; [apply Z.div_pos; lia|]. apply Z.div_lt_upper_bound; lia. }
  unfold i64. rewrite Z.mod_small by lia. lia.
Qed.

Lemma i64_small z : - 2 ^ 63 <= z < 2 ^ 63 -> i64 z = z.
Proof. intros Hz. unfold i64. rewrite Z.mod_small by lia. lia. Qed.

(** [i64s] removes the wraps of signed integers from the inside. *)
Ltac i64s := repeat match goal with
  | |- context [i64 ?z] => lazymatch z with context [i64 _] => fail | _ => rewrite (i64_small z) by lia end
  end.

Lemma coop_balance b fee :
  0 <= fee <= commit_fee ->
  CoopCloseBalance (ChanType (cc_state (ch b))) (IsInitiator (cc_state (ch b))) fee
    (cc_LocalCommitment (ch b))
  = Ok (if b then (funder_pays fee, balance false) else (balance false, funder_pays fee)).
Proof.
  intros Hfee. destruct (cl_mirrored Hok) as [[If In] Ht _ _ _ [B1 B2] Hf _ _ _].
  pose proof (cl_fee Hok). pose proof (balance_range true). pose proof (balance_range false).
  unfold CoopCloseBalance.
  destruct b; [rewrite If, B2|rewrite In, <- B1, <- Ht, <- Hf]; fold (balance true) (balance false) commit_fee;
    unfold funder_pays, anchors, anchorSize; destruct (HasAnchors _); i64s;
    match goal with |- context [?x || ?y] => assert (x || y = false) as ->
      by (apply orb_false_iff; rewrite !Z.ltb_ge; lia) end; do 2 f_equal; lia.
Qed.

Lemma sane_agreed fee : 0 <= fee <= commit_fee -> sane (ct_tx (agreed_tx fee)).
Proof.
  intros Hfee. pose proof (balance_range true). pose proof (balance_range false). pose proof (cl_fee Hok).
  assert (0 <= anchors <= 10 ^ 5) by (unfold anchors, anchorSize; case_match; lia).
  unfold agreed_tx, CreateCooperativeCloseTx, sane. cbn [ct_tx].
  match goal with |- context [InPlaceSort ?a] => destruct (sort_perm a) as (Pi & Po & _) end.
  cbn [MsgTx_TxIn MsgTx_TxOut] in Pi, Po. unfold funder_pays in *. split_and!.
  - intros E. rewrite E in Po. apply Permutation_nil_l, eq_sym, app_eq_nil in Po as [E1 E2].
    destruct (cl_output Hok); repeat case_match; try done; rewrite ?Z.leb_gt in *; lia.
  - rewrite Po. clear Pi Po. apply Forall_app; split; case_match; try apply Forall_nil_2; apply Forall_singleton; cbn; (split; [lia|apply (cl_scripts Hok)]).
  - rewrite Po, length_app. repeat case_match; cbn; lia.
  - by rewrite Pi.
Qed.

(** Both parties build the same transaction for a fee. *)
Lemma close_tx_same b fee :
  0 <= fee <= commit_fee ->
  close_tx (ch b) fee (script b) (script (negb b))
  = Ok (agreed_tx fee, if b then funder_pays fee else balance false).
Proof.
  intros Hfee. unfold close_tx. rewrite coop_balance by done.
  pose proof (sane_agreed fee Hfee) as Hs.
  assert (forall a, a = agreed_tx fee -> close_CheckTransactionSanity a = Ok tt) as Hc
    by (intros a ->; by apply sane_ok).
  destruct (cl_mirrored Hok) as [_ _ Hp [D1 D2] _ _ _ _ _ _]. destruct b; cbn [mbind res_bind negb].
  - rewrite D2. fold (dust true) (dust false). fold (agreed_tx fee). by rewrite Hc.
  - assert (CreateCooperativeCloseTx (fundingTxIn (cc_state (ch false)))
      (DustLimit (LocalChanCfg (cc_state (ch false)))) (DustLimit (RemoteChanCfg (cc_state (ch false))))
      (balance false) (funder_pays fee) (script false) (script true) = agreed_tx fee) as ->.
    { unfold agreed_tx, CreateCooperativeCloseTx, fundingTxIn. rewrite <- D1, <- Hp. f_equal.
      apply sort_same; [done..|]. cbn [MsgTx_TxOut]. apply Permutation_app_comm. }
    by rewrite Hc.
Qed.

(** ** Signatures and the final transaction *)

Definition lower : bool := match bytes_compare (key true) (key false) with Gt => false | _ => true end.
Definition witness_script : list byte := sd_WitnessScript (ch true).
Definition pk_script : list byte := sd_PkScript (ch true).

Lemma keys_differ b : bytes_compare (key b) (key (negb b)) = if eqb b lower then Lt else Gt.
Proof.
  destruct (cl_mirrored Hok) as [_ _ _ _ (_ & _ & Hk) _ _ _ _ _]. unfold lower.
  destruct (bytes_compare (key true) (key false)) eqn:E.
  - by apply bytes_compare_eq in E.
  - destruct b; [done|]. cbn [negb eqb]. by rewrite bytes_compare_opp, E.
  - destruct b; [done|]. cbn [negb eqb]. by rewrite bytes_compare_opp, E.
Qed.

Lemma desc_same b : sd_WitnessScript (ch b) = witness_script /\ sd_PkScript (ch b) = pk_script.
Proof.
  destruct b; [done|]. unfold witness_script, pk_script.
  destruct (cl_mirrored Hok) as [_ _ _ _ (K1 & K2 & Hk) _ _ Df Dn _].
  assert (createSignDesc (cc_state (ch false)) = createSignDesc (cc_state (ch true))) as E.
  { unfold createSignDesc. f_equal. rewrite K2, <- K1. fold (key true) (key false). unfold GenMultiSigScript.
    pose proof (keys_differ true) as E1. pose proof (keys_differ false) as E2. cbn [negb] in E1, E2.
    rewrite E1, E2, orb_comm. by destruct lower. }
  rewrite Df, Dn in E. by injection E.
Qed.

Lemma desc_scripts :
  MultiSigScript (key lower) (key (negb lower)) = Ok witness_script
  /\ ScriptHashScript witness_script = Ok pk_script.
Proof.
  destruct (cl_mirrored Hok) as [_ _ _ _ (K1 & K2 & Hk) _ _ Df _ _].
  unfold createSignDesc in Df. apply bind_ok in Df as (ws & E1 & Df). apply bind_ok in Df as (pk & E2 & Df).
  injection Df as Ews Epk. fold witness_script in Ews. fold pk_script in Epk. subst ws pk. split; [|done].
  unfold GenMultiSigScript in E1. rewrite K2 in E1. fold (key true) (key false) in E1.
  pose proof (keys_differ true) as Ek. cbn [negb] in Ek. rewrite Ek in E1.
  destruct lower; cbn in *; by case_match.
Qed.

(** What the signature of party [b] for a fee is on the wire. *)
Definition signed (b : bool) (fee : Z) (w : list byte) : Prop :=
  exists d, SignClose (key b) witness_script (agreed_tx fee) = Ok d /\ ToSignature w = Ok d
    /\ (length d <= 72)%nat.

Lemma sign_wire b fee :
  exists d w, SignClose (key b) witness_script (agreed_tx fee) = Ok d
    /\ NewSigFromRawSignature d = Ok w /\ signed b fee w.
Proof.
  destruct (sign_canonical (key b) witness_script (agreed_tx fee)) as (r & s & Cr & Cs & E & P).
  pose proof (NewSig_der r s Cr Cs) as En. destruct (der_wire_roundtrip r s _ Cr Cs En) as [Et _].
  exists (der r s), (pad32 r ++ pad32 s). split_and!; [done..|]. exists (der r s). split_and!; [done| |].
  - unfold ToSignature. by rewrite Et.
  - rewrite der_length. pose proof (canonical_length _ Cr). pose proof (canonical_length _ Cs). lia.
Qed.

(** The transaction both parties broadcast. *)
Definition final_tx (fee : Z) : CloseTx :=
  match (a ← SignClose (key lower) witness_script (agreed_tx fee);
         b ← SignClose (key (negb lower)) witness_script (agreed_tx fee);
         PushScript [a ++ [sigHashAll]; b ++ [sigHashAll]; witness_script]) with
  | Ok s => with_script (agreed_tx fee) s
  | _ => agreed_tx fee
  end.

Lemma complete_ok b c localSig remoteSig fee :
  cc_state c = cc_state (ch b) -> cc_LocalCommitment c = cc_LocalCommitment (ch b) ->
  sd_WitnessScript c = witness_script -> sd_PkScript c = pk_script -> cc_status c <> channelClosed ->
  0 <= fee <= commit_fee ->
  SignClose (key b) witness_script (agreed_tx fee) = Ok localSig -> (length localSig <= 72)%nat ->
  SignClose (key (negb b)) witness_script (agreed_tx fee) = Ok remoteSig -> (length remoteSig <= 72)%nat ->
  CompleteCooperativeClose c localSig remoteSig (script b) (script (negb b)) fee
  = (set_cc_status c channelClosed, Ok (final_tx fee, if b then funder_pays fee else balance false)).
Proof.
  intros Es El Ew Ep Ho Hfee Sl Ll Sr Lr. unfold CompleteCooperativeClose.
  rewrite bool_decide_eq_false_2 by done. rewrite Es, Ew, Ep.
  pose proof (close_tx_same b fee Hfee) as Ect. unfold close_tx in *. rewrite Es, El, Ect.
  cbn [mbind res_bind].
  destruct (cl_mirrored Hok) as [_ _ _ _ (K1 & K2 & Hk) _ _ _ _ _].
  assert (RemoteMultiSigKey (cc_state (ch b)) = key (negb b)) as ->
    by (destruct b; cbn [negb]; unfold key; congruence).
  fold (key b). unfold SpendMultiSig. rewrite keys_differ.
  destruct desc_scripts as [Em Eh]. pose proof (multisig_short _ _ _ Em).
  set (lo := if eqb b lower then localSig else remoteSig).
  set (hi := if eqb b lower then remoteSig else localSig).
  assert (SignClose (key lower) witness_script (agreed_tx fee) = Ok lo
    /\ SignClose (key (negb lower)) witness_script (agreed_tx fee) = Ok hi) as [Slo Shi]
    by (subst lo hi; destruct b, lower; cbn in *; done).
  replace (match (if eqb b lower then Lt else Gt) with Gt => _ | _ => _ end)
    with [lo ++ [sigHashAll]; hi ++ [sigHashAll]; witness_script] by (subst lo hi; by destruct (eqb b lower)).
  destruct (push_short (lo ++ [sigHashAll]) (hi ++ [sigHashAll]) witness_script) as [sc Esc];
    [subst lo hi; rewrite length_app; cbn; case_match; lia..|lia|].
  unfold final_tx. rewrite Slo, Shi, Esc. cbn [mbind res_bind]. rewrite Esc.
  change {| ct_Version := _; ct_tx := _; SignatureScript := sc |} with (with_script (agreed_tx fee) sc).
  assert (bytes_compare (key lower) (key (negb lower)) = Lt) as Hlt by (rewrite keys_differ; by destruct lower).
  by rewrite (engine_accepts _ _ _ _ _ _ _ _ Hlt Em Eh Slo Shi Esc).
Qed.

(** ** One party *)

Definition calls_ok (calls : close_calls) : Prop :=
  call_db calls = Ok tt /\ call_BroadcastTx calls = Ok tt.

(** The static part of a closer is that of the party, and its offers are signed by it. *)
Record good (b : bool) (c : ChanCloser) : Prop := {
  g_state : cc_state (c_Channel c) = cc_state (ch b);
  g_commit : cc_LocalCommitment (c_Channel c) = cc_LocalCommitment (ch b);
  g_witness : sd_WitnessScript (c_Channel c) = witness_script;
  g_pk : sd_PkScript (c_Channel c) = pk_script;
  g_upfront : RemoteUpfrontShutdownScript (c_Channel c) = RemoteUpfrontShutdownScript (ch b);
  g_thaw : check_thaw c = check_thaw (closer b);
  g_script : localDeliveryScript c = script b;
  g_ideal : idealFeeSat c = ideal b;
  g_offers : map_Forall (fun fee m => FeeAtoms m = fee /\ 0 <= fee <= commit_fee
                                      /\ signed b fee (cls_Signature m)) (priorFeeOffers c);
}.

(** Still negotiating: nothing is closed or broadcast. *)
Record running (c : ChanCloser) : Prop := {
  r_status : cc_status (c_Channel c) <> channelClosed;
  r_tx : closingTx c = None;
  r_broadcasts : broadcasts c = [];
}.

(** Done, with a fee. *)
Record finished (fee : Z) (c : ChanCloser) : Prop := {
  fi_state : c_state c = closeFinished;
  fi_tx : closingTx c = Some (final_tx fee);
  fi_db : cc_coopCloseTx (c_Channel c) = Some (final_tx fee);
  fi_broadcasts : (broadcasts c).*1 = [final_tx fee];
}.

Lemma good_start b : good b (closer b) /\ running (closer b).
Proof.
  destruct (desc_same b). destruct (cl_mirrored Hok) as [_ _ _ _ _ _ _ _ _ [S1 S2]].
  split; split; try done. by destruct b.
Qed.

Lemma check_thaw_ext c c' :
  cc_state (c_Channel c) = cc_state (c_Channel c') -> cc_IsPending (c_Channel c) = cc_IsPending (c_Channel c') ->
  cc_ShortChannelID (c_Channel c) = cc_ShortChannelID (c_Channel c') -> negotiationHeight c = negotiationHeight c' ->
  check_thaw c = check_thaw c'.
Proof. intros E1 E2 E3 E4. unfold check_thaw, AbsoluteThawHeight. by rewrite E1, E2, E3, E4. Qed.

(** Operations that keep the static part keep [good]. *)
Lemma good_ext b c c' :
  good b c -> cc_state (c_Channel c') = cc_state (c_Channel c) ->
  cc_LocalCommitment (c_Channel c') = cc_LocalCommitment (c_Channel c) ->
  sd_WitnessScript (c_Channel c') = sd_WitnessScript (c_Channel c) ->
  sd_PkScript (c_Channel c') = sd_PkScript (c_Channel c) ->
  RemoteUpfrontShutdownScript (c_Channel c') = RemoteUpfrontShutdownScript (c_Channel c) ->
  check_thaw c' = check_thaw c -> localDeliveryScript c' = localDeliveryScript c ->
  idealFeeSat c' = idealFeeSat c -> priorFeeOffers c' = priorFeeOffers c -> good b c'.
Proof. intros [] ???????? Eo. split; try congruence. by rewrite Eo. Qed.

Lemma propose_ok b c fee :
  good b c -> running c -> remoteDeliveryScript c = script (negb b) -> 0 <= fee <= commit_fee ->
  exists m c', proposeCloseSigned fee c = (c', Ok m) /\ FeeAtoms m = fee
    /\ signed b fee (cls_Signature m) /\ good b c' /\ running c'
    /\ c_state c' = c_state c /\ remoteDeliveryScript c' = script (negb b)
    /\ lastFeeProposal c' = fee /\ priorFeeOffers c' = <[fee := m]> (priorFeeOffers c).
Proof.
  intros Hg Hr Hrem Hfee. pose proof (close_tx_same b fee Hfee) as Ect.
  destruct (sign_wire b fee) as (d & w & Es & En & Hw).
  unfold proposeCloseSigned. op_step. cbn [id]. unfold on_channel.
  assert (CreateCloseProposal (c_Channel c) fee (localDeliveryScript c) (remoteDeliveryScript c)
    = (set_cc_status (c_Channel c) channelClosing, Ok (d, if b then funder_pays fee else balance false))) as Ep.
  { unfold CreateCloseProposal. rewrite bool_decide_eq_false_2 by apply Hr.
    unfold close_tx in *. rewrite (g_state _ _ Hg), (g_commit _ _ Hg), (g_witness _ _ Hg), (g_script _ _ Hg), Hrem, Ect.
    cbn [mbind res_bind]. fold (key b). by rewrite Es. }
  unfold op_bind at 1. rewrite Ep. op_step. unfold op_bind at 1. cbn [op_lift fst]. rewrite En. op_step.
  cbn [op_ret]. eexists _, _. split; [reflexivity|]. cbn [cls_Signature FeeAtoms].
  split_and!; try done.
  - destruct Hg. split; try done.
    cbn [priorFeeOffers add_offer set_last set_channel upd]. apply map_Forall_insert_2; done.
  - destruct Hr. by split.
Qed.

Lemma accept_ok b c m mine calls :
  good b c -> running c -> remoteDeliveryScript c = script (negb b) -> calls_ok calls ->
  signed (negb b) (FeeAtoms m) (cls_Signature m) ->
  priorFeeOffers c !! FeeAtoms m = Some mine ->
  exists c', accept_fee calls m c = (c', Ok ([MsgClosingSigned mine], true))
    /\ finished (FeeAtoms m) c'.
Proof.
  intros Hg Hr Hrem [Hdb Hbc] Hs Hm. destruct (g_offers _ _ Hg _ _ Hm) as (Hfm & Hfee & Hs').
  destruct Hs as (dr & Sr & Tr & Lr), Hs' as (dl & Sl & Tl & Ll).
  unfold accept_fee. op_step. cbn [id]. unfold op_bind at 1. cbn [op_lift]. rewrite Hm.
  unfold op_bind at 1. cbn [op_lift]. rewrite Tl. unfold op_bind at 1. cbn [op_lift]. rewrite Tr.
  unfold on_channel at 1. unfold op_bind at 1.
  pose proof (complete_ok b (c_Channel c) dl dr (FeeAtoms m) (g_state _ _ Hg) (g_commit _ _ Hg) (g_witness _ _ Hg)
    (g_pk _ _ Hg) (r_status _ Hr) Hfee Sl Ll Sr Lr) as Ec.
  rewrite (g_script _ _ Hg), Hrem, Ec. cbn [fst]. op_step. unfold op_bind at 1. unfold on_channel at 1.
  unfold MarkCoopBroadcasted, putChanStatus. rewrite Hdb. op_step. unfold op_bind at 1. cbn [op_lift].
  rewrite Hbc. op_step. eexists. split; [reflexivity|]. split; [done..|].
  cbn. by rewrite (r_broadcasts _ Hr).
Qed.

(** ** The network *)

(** Both closers and the messages on their way to each. *)
Record net := { nf : ChanCloser; nn : ChanCloser; qf : list close_msg; qn : list close_msg }.

Definition party (w : net) (b : bool) : ChanCloser := if b then nf w else nn w.
Definition inbox (w : net) (b : bool) : list close_msg := if b then qf w else qn w.

(** Party [b] is now [c], has [mine] left to read and sent [sent]. *)
Definition acted (w : net) (b : bool) (c : ChanCloser) (mine sent : list close_msg) : net :=
  if b then {| nf := c; nn := nn w; qf := mine; qn := qn w ++ sent |}
  else {| nf := nf w; nn := c; qf := qf w ++ sent; qn := mine |}.

Definition start : net := {| nf := closer true; nn := closer false; qf := []; qn := [] |}.

(** What is sent after a message was processed. *)
Definition to_send (r : res (list close_msg * bool)) : list close_msg :=
  match r with Ok (msgs, _) => msgs | _ => [] end.

(** Either party may ask for the close, and reads its messages in order. *)
Inductive net_step (calls : close_calls) : net -> net -> Prop :=
| step_shutdown b w c' m :
    ShutdownChan calls (party w b) = (c', Ok m) ->
    net_step calls w (acted w b c' (inbox w b) [MsgShutdown m])
| step_receive b w m rest c' r :
    inbox w b = m :: rest -> ProcessCloseMsg calls m (party w b) = (c', r) ->
    net_step calls w (acted w b c' rest (to_send r)).

Variable calls : close_calls.
Hypothesis Hcalls : calls_ok calls.

Definition sh (b : bool) (m : close_msg) : Prop := exists s, m = MsgShutdown s /\ Address s = script b.

(** An offer of party [b]. *)
Definition offer (b : bool) (fee : Z) (m : close_msg) : Prop :=
  exists s, m = MsgClosingSigned s /\ FeeAtoms s = fee /\ signed b fee (cls_Signature s).

(** A party in one of the states before agreement; [fees] are its offers, the latest one
    first. *)
Record at_ (b : bool) (st : closeState) (fees : list Z) (c : ChanCloser) : Prop := {
  a_good : good b c;
  a_running : running c;
  a_state : c_state c = st;
  a_remote : st = closeFeeNegotiation -> remoteDeliveryScript c = script (negb b);
  a_last : lastFeeProposal c = hd 0 fees;
  a_offers : forall k, is_Some (priorFeeOffers c !! k) <-> k ∈ fees;
}.

Lemma shutdown_ok b c c' m :
  at_ b closeIdle [] c -> ShutdownChan calls c = (c', Ok m) ->
  at_ b closeShutdownInitiated [] c' /\ sh b (MsgShutdown m).
Proof.
  intros [Hg Hr Hst _ Hl Ho]. unfold ShutdownChan. op_step. rewrite Hst. cbn [negb bool_decide].
  rewrite bool_decide_eq_true_2 by done. cbn [negb]. unfold initChanShutdown.
  unfold op_bind at 1. op_step. cbn [id]. unfold op_bind at 1. unfold on_channel, MarkCoopBroadcasted, putChanStatus.
  destruct Hcalls as [-> _]. cbn [op_ret]. op_step. cbn [op_ret]. intros [= <- <-].
  split; [|eexists; split; [reflexivity|apply (g_script _ _ Hg)]].
  split; try done; [by apply (good_ext b c)|]. destruct Hr; by split.
Qed.

Lemma match_script b c m :
  good b c -> Address m = script (negb b) ->
  maybeMatchScript (call_Disconnect calls) (RemoteUpfrontShutdownScript (c_Channel c)) (Address m) = Ok tt.
Proof.
  intros Hg Hm. rewrite (g_upfront _ _ Hg). unfold maybeMatchScript.
  destruct (cl_upfront Hok b) as [->| ->]; [done|]. rewrite Hm, bool_decide_eq_true_2 by done. by case_match.
Qed.

Lemma is_initiator b c : good b c -> IsInitiator (cc_state (c_Channel c)) = b.
Proof.
  intros Hg. rewrite (g_state _ _ Hg). destruct (cl_mirrored Hok) as [[If In] _ _ _ _ _ _ _ _ _]. by destruct b.
Qed.

(** The first offer, by the funder, is its ideal fee. *)
Lemma ideal_range b : 0 <= ideal b <= commit_fee.
Proof. pose proof (cl_ideal Hok b). pose proof (ideal_le b). lia. Qed.

Lemma propose_at b fees c fee :
  at_ b closeFeeNegotiation fees c -> 0 <= fee <= commit_fee ->
  exists m c', proposeCloseSigned fee c = (c', Ok m) /\ offer b fee (MsgClosingSigned m)
    /\ at_ b closeFeeNegotiation (fee :: fees) c' /\ priorFeeOffers c' !! fee = Some m.
Proof.
  intros [Hg Hr Hst Hrem Hl Ho] Hfee.
  destruct (propose_ok b c fee Hg Hr (Hrem eq_refl) Hfee) as (m & c' & E & Hm & Hs & Hg' & Hr' & Hst' & Hrem' & Hl' & Ho').
  exists m, c'. split_and!; [done|by exists m| |by rewrite Ho', lookup_insert_eq].
  split; try done; [congruence|]. intros k. rewrite Ho', elem_of_cons. destruct (decide (k = fee)) as [->|Hk].
  - rewrite lookup_insert_eq. split; [by left|by eexists].
  - rewrite lookup_insert_ne by done. rewrite Ho. naive_solver.
Qed.

(** *** What a party does with a message *)

(** The messages that follow the other's shutdown: the funder makes the first offer. *)
Definition opening (b : bool) (msgs : list close_msg) : Prop :=
  if b then exists m, msgs = [m] /\ offer b (ideal b) m else msgs = [].

Definition opened (b : bool) : list Z := if b then [ideal b] else [].

Lemma open_negotiation b c k :
  at_ b closeFeeNegotiation [] c ->
  exists c' msgs,
    (if IsInitiator (cc_state (ch b)) then
       op_bind (proposeCloseSigned (ideal b)) (fun m => op_ret (k ++ [MsgClosingSigned m], false))
     else op_ret (k, false)) c = (c', Ok (k ++ msgs, false))
    /\ opening b msgs /\ at_ b closeFeeNegotiation (opened b) c'.
Proof.
  intros Hc. assert (IsInitiator (cc_state (ch b)) = b) as ->
    by (rewrite <- (g_state _ _ (a_good _ _ _ _ Hc)); by apply is_initiator, Hc).
  destruct b.
  - destruct (propose_at true [] c (ideal true) Hc (ideal_range true)) as (m & c' & E & Hm & Hc' & _).
    exists c', [MsgClosingSigned m]. op_step. split_and!; [done| |done]. by exists (MsgClosingSigned m).
  - exists c, []. cbn [op_ret]. by rewrite app_nil_r.
Qed.

Lemma recv_idle b c m :
  at_ b closeIdle [] c -> sh (negb b) m ->
  exists c' s msgs, ProcessCloseMsg calls m c = (c', Ok (s :: msgs, false))
    /\ sh b s /\ opening b msgs /\ at_ b closeFeeNegotiation (opened b) c'.
Proof.
  intros Hat (s & -> & Hs). pose proof Hat as [Hg Hr Hst _ Hl Ho].
  unfold ProcessCloseMsg. op_step. rewrite Hst. unfold handle_idle. op_step. cbn [id].
  assert (check_thaw c = Ok tt) as Et.
  { destruct b; [|rewrite (g_thaw _ _ Hg); apply (cl_thaw Hok)].
    unfold check_thaw. by rewrite (is_initiator true c Hg). }
  unfold op_bind at 1. cbn [op_lift]. rewrite Et. unfold op_bind at 1. cbn [op_lift].
  rewrite (match_script b) by done. op_step. unfold initChanShutdown at 1. unfold op_bind at 1. op_step. cbn [id].
  unfold op_bind at 1. unfold on_channel, MarkCoopBroadcasted, putChanStatus.
  destruct Hcalls as [-> _]. cbn [op_ret]. op_step. rewrite (g_state _ _ Hg), (g_ideal _ _ Hg).
  match goal with |- exists c' s msgs, _ ?x = _ /\ _ => set (c1 := x) end.
  assert (at_ b closeFeeNegotiation [] c1) as Hc1.
  { split; try done; [by apply (good_ext b c)|destruct Hr; by split]. }
  match goal with |- context [MsgShutdown ?y] => destruct (open_negotiation b c1 [MsgShutdown y] Hc1) as (c' & msgs & E & Hop & Hc'); set (sd := y) in * end.
  exists c', (MsgShutdown sd), msgs. split_and!; try done.
  exists sd. split; [done|]. apply (g_script _ _ Hg).
Qed.

Lemma recv_initiated b c m :
  at_ b closeShutdownInitiated [] c -> sh (negb b) m ->
  exists c' msgs, ProcessCloseMsg calls m c = (c', Ok (msgs, false))
    /\ opening b msgs /\ at_ b closeFeeNegotiation (opened b) c'.
Proof.
  intros Hat (s & -> & Hs). pose proof Hat as [Hg Hr Hst _ Hl Ho].
  unfold ProcessCloseMsg. op_step. rewrite Hst. unfold handle_shutdown_initiated. op_step. cbn [id].
  unfold op_bind at 1. cbn [op_lift]. rewrite (match_script b) by done. op_step. op_step.
  rewrite (g_state _ _ Hg), (g_ideal _ _ Hg).
  match goal with |- exists c' msgs, _ ?x = _ /\ _ => set (c1 := x) end.
  assert (at_ b closeFeeNegotiation [] c1) as Hc1.
  { split; try done; [by apply (good_ext b c)|destruct Hr; by split]. }
  destruct (open_negotiation b c1 [] Hc1) as (c' & msgs & E & Hop & Hc'). by exists c', msgs.
Qed.

Lemma accept_at b fees c m x :
  at_ b closeFeeNegotiation fees c -> offer (negb b) x (MsgClosingSigned m) -> x ∈ fees ->
  exists c' mine, accept_fee calls m c = (c', Ok ([MsgClosingSigned mine], true))
    /\ offer b x (MsgClosingSigned mine) /\ finished x c'.
Proof.
  intros [Hg Hr Hst Hrem Hl Ho] (s & [= <-] & <- & Hs) Hx.
  apply Ho in Hx as [mine Hm]. destruct (accept_ok b c m mine calls Hg Hr (Hrem eq_refl) Hcalls Hs Hm) as (c' & E & Hf).
  exists c', mine. split_and!; [done| |done]. exists mine. split; [done|]. apply (g_offers _ _ Hg) in Hm. naive_solver.
Qed.

(** An offer we made before, or the compromise, ends the negotiation; otherwise a new offer
    is made. *)
Lemma recv_negotiation b fees c m x :
  at_ b closeFeeNegotiation fees c -> offer (negb b) x m ->
  let y := calcCompromiseFee (ideal b) (hd 0 fees) x in
  0 <= y <= commit_fee ->
  exists c' r, ProcessCloseMsg calls m c = (c', Ok r) /\
    (((x ∈ fees \/ y = x) /\ (exists mine, r = ([mine], true) /\ offer b x mine) /\ finished x c')
     \/ ((x ∉ fees) /\ y <> x /\ (exists mine, r = ([mine], false) /\ offer b y mine)
         /\ at_ b closeFeeNegotiation (y :: fees) c')).
Proof.
  intros Hat Hof y Hy. destruct Hof as (s & -> & Hx & Hs). pose proof Hat as [Hg Hr Hst Hrem Hl Ho].
  assert (offer (negb b) x (MsgClosingSigned s)) as Hoff by (by exists s).
  unfold ProcessCloseMsg. op_step. rewrite Hst. unfold handle_fee_negotiation. op_step. cbn [id]. rewrite Hx.
  destruct (priorFeeOffers c !! x) as [old|] eqn:Eold.
  - assert (x ∈ fees) as Hin by (apply Ho; by eexists).
    destruct (accept_at b fees c s x Hat Hoff Hin) as (c' & mine & E & Hm & Hf).
    exists c', ([MsgClosingSigned mine], true). split; [done|]. left. split_and!; [by left|by eexists|done].
  - assert (x ∉ fees) as Hnin by (intros Hin%Ho; rewrite Eold in Hin; by destruct Hin).
    rewrite (g_ideal _ _ Hg), Hl. fold y.
    destruct (propose_at b fees c y Hat Hy) as (mine & c1 & Ep & Hm & Hc1 & Hl1). op_step.
    destruct (Z.eqb_spec y x) as [Heq|Hne]; cbn [negb].
    + assert (x ∈ y :: fees) as Hin by (rewrite Heq; by left).
      destruct (accept_at b _ c1 s x Hc1 Hoff Hin) as (c' & mine' & E & Hm' & Hf).
      exists c', ([MsgClosingSigned mine'], true). split; [done|]. left. split_and!; [by right|by eexists|done].
    + exists c1, ([MsgClosingSigned mine], false). split; [done|]. right. split_and!; [done..|by eexists|done].
Qed.

Lemma recv_finished b fee x c m :
  finished fee c -> offer b x m -> ProcessCloseMsg calls m c = (c, Ok ([], true)).
Proof. intros Hf (s & -> & _). unfold ProcessCloseMsg. op_step. by rewrite (fi_state _ _ Hf). Qed.

(** *** The phases of a close *)

Definition lo : Z := Z.min (ideal true) (ideal false).
Definition hi : Z := Z.max (ideal true) (ideal false).

(** [k] is not closer to [y] than [x] is, on the same side. *)
Definition beyond (y x k : Z) : Prop := (y < x <= k) \/ (k <= x < y).

(** The phases, with a bound of the steps that are left. *)
Inductive phase : Z -> net -> Prop :=
| ph_start w :
    (forall b, at_ b closeIdle [] (party w b)) -> (forall b, inbox w b = []) -> phase (hi - lo + 8) w
| ph_asked b w m :
    at_ b closeShutdownInitiated [] (party w b) -> at_ (negb b) closeIdle [] (party w (negb b)) ->
    inbox w b = [] -> inbox w (negb b) = [m] -> sh b m -> phase (hi - lo + 7) w
| ph_crossed w :
    (forall b, at_ b closeShutdownInitiated [] (party w b)) ->
    (forall b, exists m, inbox w b = [m] /\ sh (negb b) m) -> phase (hi - lo + 6) w
| ph_n_ready w m :
    at_ true closeShutdownInitiated [] (party w true) -> at_ false closeFeeNegotiation [] (party w false) ->
    inbox w true = [m] -> sh false m -> inbox w false = [] -> phase (hi - lo + 5) w
| ph_f_ready w m o :
    at_ true closeFeeNegotiation [ideal true] (party w true) -> at_ false closeShutdownInitiated [] (party w false) ->
    inbox w true = [] -> inbox w false = [m; o] -> sh true m -> offer true (ideal true) o ->
    phase (hi - lo + 5) w
| ph_first w o :
    at_ true closeFeeNegotiation [ideal true] (party w true) -> at_ false closeFeeNegotiation [] (party w false) ->
    inbox w true = [] -> inbox w false = [o] -> offer true (ideal true) o -> phase (hi - lo + 4) w
| ph_offer b w x y others own o :
    at_ (negb b) closeFeeNegotiation (x :: others) (party w (negb b)) ->
    at_ b closeFeeNegotiation (y :: own) (party w b) ->
    inbox w b = [o] -> inbox w (negb b) = [] -> offer (negb b) x o -> x <> y ->
    Forall (beyond y x) (x :: others) -> Forall (beyond x y) (y :: own) ->
    ideal b ∈ y :: own -> ideal (negb b) ∈ x :: others ->
    Forall (fun k => lo <= k <= hi) (x :: others) -> Forall (fun k => lo <= k <= hi) (y :: own) ->
    phase (Z.abs (x - y) + 3) w
| ph_accepted b w x fees o :
    finished x (party w (negb b)) -> at_ b closeFeeNegotiation fees (party w b) -> x ∈ fees ->
    inbox w b = [o] -> inbox w (negb b) = [] -> offer (negb b) x o -> lo <= x <= hi -> phase 2 w
| ph_echo b w x o :
    (forall b, finished x (party w b)) -> inbox w b = [o] -> inbox w (negb b) = [] ->
    offer (negb b) x o -> lo <= x <= hi -> phase 1 w
| ph_done w x :
    (forall b, finished x (party w b)) -> (forall b, inbox w b = []) -> lo <= x <= hi -> phase 0 w.

Lemma party_acted w b c mine sent b' :
  party (acted w b c mine sent) b' = if eqb b b' then c else party w b'.
Proof. by destruct b, b'. Qed.

Lemma inbox_acted w b c mine sent b' :
  inbox (acted w b c mine sent) b' = if eqb b b' then mine else inbox w b' ++ sent.
Proof. by destruct b, b'. Qed.

Lemma shutdown_idle c c' m : ShutdownChan calls c = (c', Ok m) -> c_state c = closeIdle.
Proof.
  unfold ShutdownChan. op_step. destruct (decide (c_state c = closeIdle)) as [E|E]; [done|].
  rewrite bool_decide_eq_false_2 by done. cbn [negb op_err]. discriminate.
Qed.

Lemma ideal_bounds b : lo <= ideal b <= hi.
Proof. unfold lo, hi. destruct b; lia. Qed.

Lemma bounds_fee k : lo <= k <= hi -> 10 <= k <= commit_fee.
Proof.
  pose proof (cl_ideal Hok true). pose proof (cl_ideal Hok false). pose proof (ideal_le true).
  pose proof (ideal_le false). unfold lo, hi. lia.
Qed.

Ltac net_simpl := rewrite ?party_acted, ?inbox_acted; cbn [eqb negb app].

(** One step of a negotiation. *)
Lemma step_offer b w x y others own o c' r :
  at_ (negb b) closeFeeNegotiation (x :: others) (party w (negb b)) ->
  at_ b closeFeeNegotiation (y :: own) (party w b) -> inbox w (negb b) = [] ->
  offer (negb b) x o -> x <> y -> Forall (beyond y x) (x :: others) -> Forall (beyond x y) (y :: own) ->
  ideal b ∈ y :: own -> ideal (negb b) ∈ x :: others ->
  Forall (fun k => lo <= k <= hi) (x :: others) -> Forall (fun k => lo <= k <= hi) (y :: own) ->
  ProcessCloseMsg calls o (party w b) = (c', r) ->
  exists k, k < Z.abs (x - y) + 3 /\ phase k (acted w b c' [] (to_send r)).
Proof.
  intros Ho Hb Hq Hof Hne Fx Fy Ib Io Bx By Hp. pose proof (cl_fee Hok).
  assert (10 <= x <= commit_fee /\ 10 <= y <= commit_fee) as [Rx Ry]
    by (split; apply bounds_fee; [by apply Forall_inv in Bx|by apply Forall_inv in By]).
  assert (x ∉ y :: own) as Hnin by (intros Hin; rewrite Forall_forall in Fy; destruct (Fy _ Hin); lia).
  assert (ideal b <> x) as Hix by (by intros <-).
  destruct (compromise_between (ideal b) y x Hix) as [E|Hbt]; [lia..| |].
  - destruct (recv_negotiation b _ _ o x Hb Hof) as (c1 & r1 & Ep & [(_ & (mine & -> & Hm) & Hf)|(_ & Hy & _)]).
    { cbn [hd]. rewrite E. lia. }
    2: { cbn [hd] in Hy. by rewrite E in Hy. }
    rewrite Ep in Hp. injection Hp as <- <-. exists 2. split; [lia|].
    apply (ph_accepted (negb b) _ x (x :: others) mine); rewrite ?negb_involutive; net_simpl;
      rewrite ?eqb_reflx, ?eqb_negb1, ?eqb_negb2; rewrite ?Hq; try done; [by left|by apply Forall_inv in Bx].
  - set (z := calcCompromiseFee (ideal b) y x) in *.
    assert (lo <= z <= hi) as Bz.
    { apply Forall_inv in Bx. apply Forall_inv in By. unfold strictly_between in Hbt. lia. }
    destruct (recv_negotiation b _ _ o x Hb Hof) as (c1 & r1 & Ep & [([Hin|Hy] & _)|(_ & _ & (mine & -> & Hm) & Hc1)]).
    { cbn [hd]. fold z. pose proof (bounds_fee z Bz). lia. }
    { done. }
    { cbn [hd] in Hy. fold z in Hy. unfold strictly_between in Hbt. lia. }
    cbn [hd] in Hm, Hc1. fold z in Hm, Hc1. rewrite Ep in Hp. injection Hp as <- <-.
    exists (Z.abs (z - x) + 3). split; [unfold strictly_between in Hbt; lia|].
    apply (ph_offer (negb b) _ z x (y :: own) others mine); rewrite ?negb_involutive; net_simpl;
      rewrite ?eqb_reflx, ?eqb_negb1, ?eqb_negb2; rewrite ?Hq; try done.
    + unfold strictly_between in Hbt. lia.
    + constructor; [unfold beyond, strictly_between in *; lia|].
      eapply Forall_impl; [exact Fy|]. intros k. unfold beyond, strictly_between in *. lia.
    + eapply Forall_impl; [exact Fx|]. intros k. unfold beyond, strictly_between in *. lia.
    + by right.
    + by constructor.
Qed.

Lemma bool_cases (b b0 : bool) : b0 = b \/ b0 = negb b.
Proof. destruct b, b0; auto. Qed.

(** Asking for the close is possible from the idle state only. *)
Lemma not_idle b st fees c c' m :
  at_ b st fees c -> st <> closeIdle -> ShutdownChan calls c = (c', Ok m) -> False.
Proof. intros Hat Hst Hs%shutdown_idle. by rewrite (a_state _ _ _ _ Hat) in Hs. Qed.

Lemma finished_not_idle x c c' m : finished x c -> ShutdownChan calls c = (c', Ok m) -> False.
Proof. intros Hf Hs%shutdown_idle. by rewrite (fi_state _ _ Hf) in Hs. Qed.

Ltac net_done := net_simpl; rewrite ?eqb_reflx, ?eqb_negb1, ?eqb_negb2; try done.

Lemma step_asked b w m b0 c' r :
  at_ b closeShutdownInitiated [] (party w b) -> at_ (negb b) closeIdle [] (party w (negb b)) ->
  inbox w b = [] -> sh b m -> b0 = negb b ->
  ProcessCloseMsg calls m (party w b0) = (c', r) ->
  exists k, k < hi - lo + 7 /\ phase k (acted w b0 c' [] (to_send r)).
Proof.
  intros Hb Hn Qb Hm -> Hp. rewrite <- (negb_involutive b) in Hm.
  destruct (recv_idle (negb b) _ m Hn Hm) as (c1 & s & msgs & Ep & Hs & Hop & Hc1).
  rewrite Ep in Hp. injection Hp as <- <-. cbn [to_send]. exists (hi - lo + 5). split; [lia|].
  destruct b; cbn [negb opening opened] in *.
  - subst msgs. apply (ph_n_ready _ s); net_done. by rewrite Qb.
  - destruct Hop as (o & -> & Hof). apply (ph_f_ready _ s o); net_done. by rewrite Qb.
Qed.

Lemma step_crossed w b0 m c' r :
  (forall b, at_ b closeShutdownInitiated [] (party w b)) ->
  (forall b, exists m, inbox w b = [m] /\ sh (negb b) m) -> sh (negb b0) m ->
  ProcessCloseMsg calls m (party w b0) = (c', r) ->
  exists k, k < hi - lo + 6 /\ phase k (acted w b0 c' [] (to_send r)).
Proof.
  intros Hat Hq Hm Hp. destruct (recv_initiated b0 _ m (Hat b0) Hm) as (c1 & msgs & Ep & Hop & Hc1).
  rewrite Ep in Hp. injection Hp as <- <-. cbn [to_send]. exists (hi - lo + 5). split; [lia|].
  destruct b0; cbn [negb opening opened] in *.
  - destruct Hop as (o & -> & Hof). destruct (Hq false) as (m' & Q & Hm').
    apply (ph_f_ready _ m' o); net_done. by rewrite Q.
  - subst msgs. destruct (Hq true) as (m' & Q & Hm'). apply (ph_n_ready _ m'); net_done. by rewrite Q.
Qed.

(** The first offer meets a party that has made none. *)
Lemma negotiation_starts w o c' r :
  at_ true closeFeeNegotiation [ideal true] (party w true) -> at_ false closeFeeNegotiation [] (party w false) ->
  inbox w true = [] -> offer true (ideal true) o -> ProcessCloseMsg calls o (party w false) = (c', r) ->
  exists k, k < hi - lo + 4 /\ phase k (acted w false c' [] (to_send r)).
Proof.
  intros Hf Hn Q Hof Hp. pose proof (ideal_bounds true). pose proof (ideal_bounds false).
  destruct (recv_negotiation false [] _ o (ideal true) Hn Hof) as (c1 & r1 & Ep & Hr).
  { cbn [hd]. rewrite compromise_ideal. apply ideal_range. }
  rewrite Ep in Hp. injection Hp as <- <-. cbn [hd] in Hr. rewrite compromise_ideal in Hr.
  destruct Hr as [(Heq & (mine & -> & Hm) & Hfin)|(_ & Hne & (mine & -> & Hm) & Hc1)].
  - exists 2. split; [lia|]. apply (ph_accepted true _ (ideal true) [ideal true] mine); net_done; [by left|by rewrite Q].
  - exists (Z.abs (ideal false - ideal true) + 3). split; [unfold hi, lo; lia|].
    apply (ph_offer true _ (ideal false) (ideal true) [] [] mine); net_done; try (by left); try (by rewrite Q);
      apply Forall_singleton; unfold beyond; lia.
Qed.

Lemma phase_step k w w' : phase k w -> net_step calls w w' -> exists k', k' < k /\ phase k' w'.
Proof.
  intros Hph Hst. destruct Hph as
    [w Hat Hq|b w m Hb Hn Qb Qn Hm|w Hat Hq|w m Hf Hn Qf Hm Qn|w m o Hf Hn Qf Qn Hm Ho|w o Hf Hn Qf Qn Ho
    |b w x y others own o Hx Hy Qb Qo Ho Hne Fx Fy Ib Io Bx By|b w x fees o Hx Hb Hin Qb Qo Ho Bx
    |b w x o Hf Qb Qo Ho Bx|w x Hf Hq Bx];
    inversion Hst as [b0 w0 c' m0 Hs|b0 w0 m0 rest c' r Qm Hp]; subst w0 w'; clear Hst.
  - destruct (shutdown_ok b0 _ _ _ (Hat b0) Hs) as [Hc' Hsh]. exists (hi - lo + 7). split; [lia|].
    apply (ph_asked b0 _ (MsgShutdown m0)); net_done; by rewrite Hq.
  - by rewrite Hq in Qm.
  - destruct (bool_cases b b0) as [->| ->]; [by apply (not_idle _ _ _ _ _ _ Hb) in Hs|].
    destruct (shutdown_ok _ _ _ _ Hn Hs) as [Hc' Hsh]. exists (hi - lo + 6). split; [lia|].
    apply ph_crossed; intros b1; destruct (bool_cases b b1) as [->| ->]; net_done.
    + rewrite Qb. by eexists.
    + rewrite Qn, negb_involutive. by exists m.
  - destruct (bool_cases b b0) as [->| ->]; [by rewrite Qb in Qm|]. rewrite Qn in Qm. injection Qm as <- <-.
    destruct (step_asked b w m (negb b) c' r Hb Hn Qb Hm eq_refl Hp) as (k' & ? & ?). by exists k'.
  - by apply (not_idle _ _ _ _ _ _ (Hat b0)) in Hs.
  - destruct (Hq b0) as (m1 & Q & Hm). rewrite Q in Qm. injection Qm as <- <-. by apply (step_crossed w b0 m1).
  - destruct b0; [by apply (not_idle _ _ _ _ _ _ Hf) in Hs|by apply (not_idle _ _ _ _ _ _ Hn) in Hs].
  - destruct b0; [|by rewrite Qn in Qm]. rewrite Qf in Qm. injection Qm as <- <-.
    destruct (recv_initiated true _ m Hf Hm) as (c1 & msgs & Ep & (o & -> & Ho) & Hc1).
    rewrite Ep in Hp. injection Hp as <- <-. exists (hi - lo + 4). split; [lia|].
    apply (ph_first _ o); net_done. by rewrite Qn.
  - destruct b0; [by apply (not_idle _ _ _ _ _ _ Hf) in Hs|by apply (not_idle _ _ _ _ _ _ Hn) in Hs].
  - destruct b0; [by rewrite Qf in Qm|]. rewrite Qn in Qm. injection Qm as <- <-.
    destruct (recv_initiated false _ m Hn Hm) as (c1 & msgs & Ep & Hop & Hc1). cbn in Hop. subst msgs.
    rewrite Ep in Hp. injection Hp as <- <-. exists (hi - lo + 4). split; [lia|].
    apply (ph_first _ o); net_done. by rewrite Qf.
  - destruct b0; [by apply (not_idle _ _ _ _ _ _ Hf) in Hs|by apply (not_idle _ _ _ _ _ _ Hn) in Hs].
  - destruct b0; [by rewrite Qf in Qm|]. rewrite Qn in Qm. injection Qm as <- <-. by apply (negotiation_starts w o).
  - destruct (bool_cases b b0) as [->| ->]; [by apply (not_idle _ _ _ _ _ _ Hy) in Hs|by apply (not_idle _ _ _ _ _ _ Hx) in Hs].
  - destruct (bool_cases b b0) as [->| ->]; [|by rewrite Qo in Qm]. rewrite Qb in Qm. injection Qm as <- <-.
    by apply (step_offer b w x y others own o).
  - destruct (bool_cases b b0) as [->| ->]; [by apply (not_idle _ _ _ _ _ _ Hb) in Hs|by apply (finished_not_idle _ _ _ _ Hx) in Hs].
  - destruct (bool_cases b b0) as [->| ->]; [|by rewrite Qo in Qm]. rewrite Qb in Qm. injection Qm as <- <-.
    destruct Ho as (s & -> & <- & Hsg).
    destruct (accept_at b fees _ s (FeeAtoms s) Hb ltac:(by exists s) Hin) as (c1 & mine & Ep & Hm & Hf).
    assert (ProcessCloseMsg calls (MsgClosingSigned s) (party w b) = (c1, Ok ([MsgClosingSigned mine], true))) as Ep'.
    { unfold ProcessCloseMsg. op_step. rewrite (a_state _ _ _ _ Hb). unfold handle_fee_negotiation. op_step. cbn [id].
      apply (a_offers _ _ _ _ Hb) in Hin as [old Hold]. by rewrite Hold. }
    rewrite Ep' in Hp. injection Hp as <- <-. exists 1. split; [lia|].
    apply (ph_echo (negb b) _ (FeeAtoms s) (MsgClosingSigned mine)); rewrite ?negb_involutive.
    + intros b1. destruct (bool_cases b b1) as [->| ->]; net_done.
    + net_done. by rewrite Qo.
    + net_done.
    + done.
    + done.
  - by apply (finished_not_idle _ _ _ _ (Hf b0)) in Hs.
  - destruct (bool_cases b b0) as [->| ->]; [|by rewrite Qo in Qm]. rewrite Qb in Qm. injection Qm as <- <-.
    rewrite (recv_finished _ x x _ _ (Hf b) Ho) in Hp. injection Hp as <- <-. exists 0. split; [lia|].
    apply (ph_done _ x); [| |done]; intros b1; destruct (bool_cases b b1) as [->| ->]; net_done. by rewrite Qo.
  - by apply (finished_not_idle _ _ _ _ (Hf b0)) in Hs.
  - by rewrite Hq in Qm.
Qed.

Lemma shutdown_possible b c :
  at_ b closeIdle [] c -> exists c' m, ShutdownChan calls c = (c', Ok m).
Proof.
  intros Hat. unfold ShutdownChan. op_step. rewrite (a_state _ _ _ _ Hat).
  rewrite bool_decide_eq_true_2 by done. cbn [negb]. unfold initChanShutdown, op_bind at 1. op_step. cbn [id].
  unfold op_bind at 1. unfold on_channel, MarkCoopBroadcasted, putChanStatus. destruct Hcalls as [-> _].
  cbn [op_ret]. op_step. by eexists _, _.
Qed.

Lemma receive_possible w b m rest : inbox w b = m :: rest -> exists w', net_step calls w w'.
Proof.
  intros Hq. destruct (ProcessCloseMsg calls m (party w b)) as [c' r] eqn:E. by eexists; eapply step_receive.
Qed.

Lemma phase_progress k w :
  phase k w ->
  0 <= k /\ ((exists w', net_step calls w w')
             \/ (exists x, lo <= x <= hi /\ forall b, finished x (party w b))).
Proof.
  assert (lo <= hi) by (unfold lo, hi; lia).
  intros Hph. destruct Hph as
    [w Hat Hq|b w m Hb Hn Qb Qn Hm|w Hat Hq|w m Hf Hn Qf Hm Qn|w m o Hf Hn Qf Qn Hm Ho|w o Hf Hn Qf Qn Ho
    |b w x y others own o Hx Hy Qb Qo Ho Hne Fx Fy Ib Io Bx By|b w x fees o Hx Hb Hin Qb Qo Ho Bx
    |b w x o Hf Qb Qo Ho Bx|w x Hf Hq Bx];
    (split; [lia|]); try (left; eapply receive_possible; eassumption).
  - left. destruct (shutdown_possible true _ (Hat true)) as (c' & m & E). by eexists; eapply step_shutdown.
  - left. destruct (Hq true) as (m & Q & _). by eapply receive_possible.
  - right. by exists x.
Qed.

Lemma phase_start : phase (hi - lo + 8) start.
Proof.
  apply ph_start; intros b; [|by destruct b]. destruct (good_start b) as [Hg Hr].
  assert (party start b = closer b) as -> by by destruct b.
  split; try done. cbn. intros k. rewrite lookup_empty. split; [intros [? [=]]|intros []%elem_of_nil].
Qed.

Lemma runs_phase n w :
  nsteps (net_step calls) n start w -> exists k, phase k w /\ k + Z.of_nat n <= hi - lo + 8.
Proof.
  intros Hn. assert (forall n k u v, phase k u -> nsteps (net_step calls) n u v ->
    exists k', phase k' v /\ k' + Z.of_nat n <= k) as Hgen.
  { clear n w Hn. induction n as [|n IH]; intros k u v Hp Hs; inversion Hs as [|? ? m ? H1 H2]; subst.
    - exists k. split; [done|lia].
    - destruct (phase_step _ _ _ Hp H1) as (k1 & Hlt & Hp1). destruct (IH _ _ _ Hp1 H2) as (k' & ? & ?).
      exists k'. split; [done|lia]. }
  apply (Hgen _ _ _ _ phase_start Hn).
Qed.

(** What party [b] gets of [v] atoms: one output to its script, unless that is dust. *)
Definition pays (b : bool) (v : Z) : list TxOut :=
  if dust b <=? v then [{| Value := v; TxOut_Version := 0; PkScript := script b |}] else [].

(** ** The claims *)

(** C7. A cooperative close ends and both parties agree.  Between two ends of a channel that
    can be closed ([closable]: among others, ideal fees of at least ten atoms), whose calls
    to their surroundings succeed, every sequence of steps is bounded by the distance of the
    two ideal fees; and where no step is left, both have stored and broadcast the same
    transaction, at a fee between the ideal ones, that spends the funding output and pays
    each party its balance, the funder less the fee, unless that is dust. *)
Theorem close_completes n w :
  nsteps (net_step calls) n start w ->
  Z.of_nat n <= hi - lo + 8
  /\ ((exists w', net_step calls w w')
      \/ exists fee tx, lo <= fee <= hi /\ ct_Version tx = 2
         /\ MsgTx_TxIn (ct_tx tx) = [fundingTxIn (cc_state (ch true))]
         /\ MsgTx_TxOut (ct_tx tx) ≡ₚ pays true (funder_pays fee) ++ pays false (balance false)
         /\ forall b, ClosingTx (party w b) = Ok (Some tx)
              /\ BroadcastedCooperative (c_Channel (party w b)) = Ok tx
              /\ (broadcasts (party w b)).*1 = [tx]).
Proof.
  intros (k & Hp & Hk)%runs_phase. destruct (phase_progress k w Hp) as [Hk0 Hor]. split; [lia|].
  destruct Hor as [Hs|(x & Hx & Hf)]; [by left|right]. exists x, (final_tx x). split; [done|].
  assert (ct_Version (final_tx x) = 2 /\ ct_tx (final_tx x) = ct_tx (agreed_tx x)) as [-> ->]
    by (unfold final_tx; case_match; done).
  unfold agreed_tx, CreateCooperativeCloseTx. cbn [ct_tx].
  match goal with |- context [InPlaceSort ?a] => destruct (sort_perm a) as (Pi & Po & _) end.
  cbn [MsgTx_TxIn MsgTx_TxOut] in Pi, Po. split_and!; [done|by apply Permutation_singleton_r|done|]. intros b. destruct (Hf b) as [E1 E2 E3 E4].
  unfold ClosingTx, BroadcastedCooperative. by rewrite E1, E2, E3, E4, bool_decide_eq_true_2.
Qed.

End TwoParties.

(** ** A concrete channel *)

(** [txsort], a signer, a script builder and an engine in the small: signatures depend on the
    key, scripts are length-prefixed pushes, and the engine compares the signatures with those
    of both keys of the script it runs. *)
Definition demo_sort (a : MsgTx) : MsgTx :=
  {| MsgTx_TxIn := MsgTx_TxIn a;
     MsgTx_TxOut := (go_sort output_less ((fun o => (o, TxOut_Version o)) <$> MsgTx_TxOut a)).*1;
     LockTime := LockTime a |}.

Definition demo_sig (k : list byte) : list byte :=
  der [byte_of (bval (default x00 (last k)) mod 128)] [x01].

Definition demo_push (l : list (list byte)) : list byte :=
  concat ((fun d => byte_of (Z.of_nat (length d)) :: d) <$> l).

Definition demo_execute (pk : list byte) (tx : CloseTx) : res unit :=
  let a := take 33 (drop 2 pk) in
  let b := take 33 (drop 36 pk) in
  if bool_decide (SignatureScript tx
                  = demo_push [demo_sig a ++ [sigHashAll]; demo_sig b ++ [sigHashAll]; pk])
  then Ok tt else Err (Error "signature not valid").

Definition demo_multisig (a b : list byte) : list byte :=
  [x52; x21] ++ a ++ [x21] ++ b ++ [x52; xae].

#[local] Instance demo_env : CloseEnv := {|
  InPlaceSort := demo_sort;
  SignClose := fun k _ _ => Ok (demo_sig k);
  ParseDERSignature := fun d => Ok d;
  PushScript := fun l => Ok (demo_push l);
  close_CheckTransactionSanity := fun tx =>
    match MsgTx_TxOut (ct_tx tx) with [] => Err (Error "no outputs") | _ => Ok tt end;
  MultiSigScript := fun a b =>
    if ((length a =? 33) && (length b =? 33))%nat
    then Ok (demo_multisig a b) else Err errPubkeySize;
  ScriptHashScript := fun s => Ok s;
  Execute := demo_execute;
|}.

Lemma demo_sort_same l k :
  l ≡ₚ k ->
  go_sort output_less ((fun o => (o, TxOut_Version o)) <$> l)
  = go_sort output_less ((fun o => (o, TxOut_Version o)) <$> k).
Proof.
  intros Hp. destruct output_order as [Ht Ho].
  destruct (go_sort_outputs ((fun o => (o, TxOut_Version o)) <$> l)) as [Pl Sl].
  destruct (go_sort_outputs ((fun o => (o, TxOut_Version o)) <$> k)) as [Pk Sk].
  apply (Sorted_unique_strong (not_after output_less)); [|done|done|by rewrite Pl, Pk, Hp].
  intros x y Hx Hy Hxy Hyx. rewrite Pl in Hx. rewrite Pk in Hy.
  apply list_elem_of_fmap in Hx as (x' & -> & _). apply list_elem_of_fmap in Hy as (y' & -> & _).
  match goal with |- ?p = ?q => assert (output_cmp p q = Eq) as E end.
  { unfold not_after in *. rewrite <- not_true_iff_false, output_less_cmp in Hxy, Hyx.
    match goal with |- output_cmp ?p ?q = _ => rewrite (cm_opp _ output_comparing p q) in Hxy; by destruct (output_cmp p q) end. }
  apply output_cmp_key in E as (E1 & E2 & E3). cbn in *. destruct x', y'; cbn in *. congruence.
Qed.

Lemma demo_script_keys a b :
  length a = 33%nat -> length b = 33%nat ->
  take 33 (drop 2 (demo_multisig a b)) = a /\ take 33 (drop 36 (demo_multisig a b)) = b.
Proof.
  intros Ea Eb. unfold demo_multisig. split.
  - rewrite drop_app_length' by done. by rewrite take_app_length'.
  - assert ([x52; x21] ++ a ++ [x21] ++ b ++ [x52; xae] = ([x52; x21] ++ a ++ [x21]) ++ b ++ [x52; xae]) as ->
      by by rewrite <- !app_assoc.
    rewrite drop_app_length' by (rewrite !length_app; cbn [length]; lia). by rewrite take_app_length'.
Qed.

#[local] Instance demo_laws : CloseLaws.
Proof.
  split; cbn [InPlaceSort SignClose ParseDERSignature PushScript close_CheckTransactionSanity MultiSigScript
    ScriptHashScript Execute demo_env].
  - intros [ia oa la] [ib ob lb]; cbn [MsgTx_TxIn MsgTx_TxOut LockTime]. intros -> -> Hp. unfold demo_sort.
    cbn [MsgTx_TxIn MsgTx_TxOut LockTime]. by rewrite (demo_sort_same oa ob).
  - intros a. split; [done|]. split; [|done]. cbn [demo_sort MsgTx_TxOut]. destruct (go_sort_outputs ((fun o => (o, TxOut_Version o)) <$> MsgTx_TxOut a)) as [Hp _].
    rewrite Hp. by rewrite <- list_fmap_compose, list_fmap_id.
  - intros k _ _. exists [byte_of (bval (default x00 (last k)) mod 128)], [x01].
    split_and!; [|done..]. cbn [canonical_int]. rewrite bval_byte_of.
    pose proof (bval_range (default x00 (last k))). pose proof (Z.mod_pos_bound (bval (default x00 (last k))) 128 ltac:(lia)).
    apply Z.ltb_lt. rewrite Z.mod_small; lia.
  - intros. by eexists.
  - intros a b s. destruct (Nat.eqb_spec (length a) 33) as [Ea|]; cbn [andb]; [|done].
    destruct (Nat.eqb_spec (length b) 33) as [Eb|]; [|done]. intros <-%Ok_inj. unfold demo_multisig.
    rewrite !length_app. cbn [length]. lia.
  - intros tx (Hne & _). by destruct (MsgTx_TxOut (ct_tx tx)).
  - intros a b s pk tx sa sb sc _. destruct (Nat.eqb_spec (length a) 33) as [Ea|]; cbn [andb]; [|done].
    destruct (Nat.eqb_spec (length b) 33) as [Eb|]; [|done]. intros <-%Ok_inj <-%Ok_inj <-%Ok_inj <-%Ok_inj <-%Ok_inj.
    unfold demo_execute. cbn [SignatureScript with_script].
    destruct (demo_script_keys a b Ea Eb) as [Ka Kb].
    rewrite Ka, Kb. by rewrite bool_decide_eq_true_2.
Qed.

Definition demo_cfg (d : Z) : ChannelConstraints :=
  {| DustLimit := d; ChanReserve := 0; MaxPendingAmount := 0; MinHTLC := 0; MaxAcceptedHtlcs := 0;
     CsvDelay := 4 |}.
Definition demo_key (b : bool) : list byte := replicate 32 x02 ++ [if b then x07 else x05].
Definition demo_script (b : bool) : list byte := if b then [x76; xa9] else [x76; xaa].

Definition demo_state (b : bool) : OpenChannel :=
  {| ChanType := AnchorOutputsBit; FundingOutpoint := (replicate 32 x11, 1); Capacity := 2045000;
     ThawHeight := 0; IsInitiator := b;
     LocalChanCfg := demo_cfg (if b then 6000 else 7000); RemoteChanCfg := demo_cfg (if b then 7000 else 6000);
     LocalMultiSigKey := demo_key b; RemoteMultiSigKey := demo_key (negb b);
     TotalMAtomsSent := 0; TotalMAtomsReceived := 0 |}.

(** The funder has 1200000 atoms next to the fee and the anchors, the other party 770880. *)
Definition demo_commit (commitFee : Z) (b : bool) : ChannelCommitment :=
  {| CommitHeight := 3; LocalLogIndex := 2; LocalHtlcIndex := 1; RemoteLogIndex := 2; RemoteHtlcIndex := 1;
     LocalBalance := if b then 1200000000 else 770880000;
     RemoteBalance := if b then 770880000 else 1200000000;
     CommitFee := commitFee; FeePerKB := 10000;
     CommitTx_ := {| MsgTx_TxIn := []; MsgTx_TxOut := []; LockTime := 0 |}; CommitSig := []; Htlcs := [] |}.

Definition demo_chan (commitFee : Z) (b : bool) : close_chan :=
  {| cc_state := demo_state b; cc_LocalCommitment := demo_commit commitFee b; cc_status := channelOpen;
     cc_chanStatus := 0; cc_dbStatus := 0; cc_coopCloseTx := None; cc_forceCloseTx := None;
     cc_ShortChannelID := {| BlockHeight := 500; TxIndex := 1; TxPosition := 1 |};
     cc_IsPending := false; RemoteUpfrontShutdownScript := if b then demo_script false else [];
     sd_WitnessScript := demo_multisig (demo_key false) (demo_key true);
     sd_PkScript := demo_multisig (demo_key false) (demo_key true) |}.

(** Fee rates of 10000 and 100000 atoms per kilobyte, a commitment fee of 50000 atoms. *)
Definition demo_rate (b : bool) : Z := if b then 10000 else 100000.
Definition demo_calls : close_calls :=
  {| call_Disconnect := Ok tt; call_db := Ok tt; call_BroadcastTx := Ok tt |}.

Lemma demo_closable :
  closable (demo_chan 50000) demo_script demo_rate (fun _ => 600) (fun _ => None) (fun b => b).
Proof.
  split.
  - split; try (split_and!; reflexivity); try reflexivity; split_and!; try reflexivity; vm_compute; discriminate.
  - intros []; (split; [split; [discriminate|reflexivity]|discriminate]).
  - split; discriminate.
  - left. discriminate.
  - intros []; cbn; lia.
  - intros []; [by right|by left].
  - reflexivity.
  - intros []; discriminate.
Qed.

(** Delivering messages in a fixed order. *)
Fixpoint deliver (order : list bool) (w : net) : option net :=
  match order with
  | [] => Some w
  | b :: order' =>
      match inbox w b with
      | [] => None
      | m :: rest => let '(c, r) := ProcessCloseMsg demo_calls m (party w b) in
                     deliver order' (acted w b c rest (to_send r))
      end
  end.

Lemma deliver_steps order w w' :
  deliver order w = Some w' -> nsteps (net_step demo_calls) (length order) w w'.
Proof.
  revert w. induction order as [|b order IH]; intros w; cbn [deliver length].
  - intros [= <-]. constructor.
  - destruct (inbox w b) as [|m rest] eqn:Q; [done|].
    destruct (ProcessCloseMsg demo_calls m (party w b)) as [c r] eqn:E.
    intros Hd%IH. econstructor; [by eapply step_receive|done].
Qed.

(** The funder asks for the close of a channel. *)
Definition demo_start (commitFee : Z) (rate : bool -> Z) : net :=
  start (demo_chan commitFee) demo_script rate (fun _ => 600) (fun _ => None) (fun b => b).
Definition demo_asked (commitFee : Z) (rate : bool -> Z) : net :=
  let w := demo_start commitFee rate in
  match ShutdownChan demo_calls (party w true) with
  | (c, Ok m) => acted w true c [] [MsgShutdown m]
  | _ => w
  end.

Lemma demo_asked_step commitFee rate :
  net_step demo_calls (demo_start commitFee rate) (demo_asked commitFee rate).
Proof.
  unfold demo_asked. eapply (step_shutdown _ true (demo_start commitFee rate)). reflexivity.
Qed.

Fixpoint alternate (n : nat) (b : bool) : list bool :=
  match n with O => [] | S n' => b :: alternate n' (negb b) end.

Definition demo_order : list bool := alternate 27 false.

(** The parties start from 4320 and 43200 atoms and agree on the offer of one of them. *)
Lemma close_completes_witness :
  exists w, deliver demo_order (demo_asked 50000 demo_rate) = Some w
    /\ c_state (nf w) = closeFinished
    /\ exists fee tx, lo (demo_chan 50000) demo_script demo_rate (fun _ => 600) (fun _ => None) (fun b => b)
         <= fee <= hi (demo_chan 50000) demo_script demo_rate (fun _ => 600) (fun _ => None) (fun b => b)
         /\ forall b, ClosingTx (party w b) = Ok (Some tx).
Proof.
  destruct (deliver demo_order (demo_asked 50000 demo_rate)) as [w|] eqn:E; [|exfalso; vm_compute in E; discriminate].
  exists w. split; [done|].
  assert (inbox w true = [] /\ inbox w false = [] /\ c_state (nf w) = closeFinished /\ c_state (nn w) = closeFinished)
    as (Qf & Qn & Ef & En).
  { cut (match deliver demo_order (demo_asked 50000 demo_rate) with
         | Some w => (inbox w true, inbox w false, c_state (nf w), c_state (nn w)) | None => ([], [], closeIdle, closeIdle) end
         = ([], [], closeFinished, closeFinished)); [rewrite E; intros [= ? ? ? ?]; auto|vm_compute; reflexivity]. }
  split; [done|].
  destruct (close_completes (demo_chan 50000) demo_script demo_rate (fun _ => 600) (fun _ => None) (fun b => b)
    demo_closable demo_calls ltac:(split; reflexivity) (S (length demo_order)) w) as [_ [[w' Hs]|(fee & tx & Hf & _ & _ & _ & Hb)]].
  - econstructor; [apply demo_asked_step|by apply deliver_steps].
  - exfalso. inversion Hs as [b0 w0 c' m0 Hsd|b0 w0 m0 rest c' r Qm Hp]; subst.
    + apply shutdown_idle in Hsd. destruct b0; cbn [party] in Hsd; congruence.
    + destruct b0; congruence.
  - exists fee, tx. split; [done|]. intros b. apply Hb.
Defined.

(** ** Fees of a few atoms *)

(** The ratchet does not move an offer of less than ten atoms.  From six and nine atoms the
    parties repeat their offers for ever. *)
Definition tiny_rate (b : bool) : Z := if b then 15 else 21.

Lemma tiny_fees_cycle n :
  exists w, nsteps (net_step demo_calls) n (demo_start 100 tiny_rate) w
    /\ c_state (nf w) <> closeFinished /\ c_state (nn w) <> closeFinished.
Proof.
  set (P := fun w : net => c_state (nf w) <> closeFinished /\ c_state (nn w) <> closeFinished).
  assert (exists w, deliver [false; true; false] (demo_asked 100 tiny_rate) = Some w
    /\ (exists w1, deliver [true] w = Some w1 /\ deliver [false] w1 = Some w /\ P w1) /\ P w) as (w & Hw & (w1 & H1 & H2 & P1) & Pw).
  { eexists. split; [vm_compute; reflexivity|]. split; [|by split; vm_compute].
    eexists. split; [vm_compute; reflexivity|]. split; [vm_compute; reflexivity|by split; vm_compute]. }
  assert (forall n, (exists u, nsteps (net_step demo_calls) n w u /\ P u)
                    /\ (exists u, nsteps (net_step demo_calls) n w1 u /\ P u)) as Hcyc.
  { apply deliver_steps in H1, H2. cbn [length] in H1, H2.
    apply (nsteps_once_inv (R := net_step demo_calls)) in H1, H2.
    intros j. induction j as [|j [(u & Hu & Pu) (v & Hv & Pv)]].
    - split; [exists w|exists w1]; (split; [constructor|done]).
    - split; [exists v|exists u]; (split; [by econstructor|done]). }
  assert (forall order u, deliver order (demo_asked 100 tiny_rate) = Some u ->
    nsteps (net_step demo_calls) (S (length order)) (demo_start 100 tiny_rate) u) as Hpre.
  { intros order u Hu. econstructor; [apply demo_asked_step|by apply deliver_steps]. }
  destruct n as [|[|[|[|n]]]].
  - exists (demo_start 100 tiny_rate). split; [constructor|by split; vm_compute].
  - eexists. split; [apply (Hpre []); reflexivity|by split; vm_compute].
  - eexists. split; [apply (Hpre [false]); vm_compute; reflexivity|by split; vm_compute].
  - eexists. split; [apply (Hpre [false; true]); vm_compute; reflexivity|by split; vm_compute].
  - destruct (Hcyc n) as [(u & Hu & Pu) _]. exists u. split; [|done].
    apply (nsteps_trans 4 n _ w); [by apply (Hpre [false; true; false])|done].
Qed.
