(* ===== verification/ChanSync.v ===== *)
(** * Restoring a channel and reestablishing the connection

    [lnwallet/channel.go] and [channeldb/channel.go]: after a restart the memory of a channel
    is rebuilt from its database ([NewLightningChannel], [restoreCommitState],
    [restoreStateLogs] and what they call); on every new connection both parties tell each
    other where they stand ([ChanSyncMsg]) and send again what the other has not seen
    ([ProcessChanSyncMsg]).

    The sign descriptor that [NewLightningChannel] also creates is part of the signer here
    (class [Crypto]).  [LastWasRevoke] is the field of the channel as it was loaded. *)

From Stdlib Require Import Lia.
From S2P Require Import Prelude Sha256 Shachain Ids Amounts UpdateLog Channel ChannelEval CommitTx CommitDance.

(** ** What is on disk *)

(** Next to the channel's bucket ([ss_db]) the revocation state and the static part with
    the totals. *)
Record disk := {
  dk_state : OpenChannel;
  dk_Store : RevocationStore;
  dk_Current : option (list byte);
  dk_Next : option (list byte);
}.

Record node := { n_session : session; n_disk : disk }.

Section Restore.
Context `{Hasher} `{Scripts} `{Crypto}.

(** ** Commitments *)

Definition diskHtlcToPayDesc (cs : OpenChannel) (feeRate : Z) (htlc : HTLC)
    (localCommitKeys remoteCommitKeys : option CommitmentKeyRing) (isLocal : bool)
    : res PaymentDescriptor :=
  let isDustLocal := HtlcIsDust (ChanType cs) (disk_Incoming htlc) true feeRate
                       (ToAtoms (disk_Amt htlc)) (DustLimit (LocalChanCfg cs)) in
  '(ourP2SH, ourScript) ←
    match localCommitKeys with
    | Some keys =>
        if isDustLocal then Ok ([], [])
        else genHtlcScript (ChanType cs) (disk_Incoming htlc) true (disk_RefundTimeout htlc)
               (disk_RHash htlc) keys
    | None => Ok ([], [])
    end;
  let isDustRemote := HtlcIsDust (ChanType cs) (disk_Incoming htlc) false feeRate
                        (ToAtoms (disk_Amt htlc)) (DustLimit (RemoteChanCfg cs)) in
  '(theirP2SH, theirScript) ←
    match remoteCommitKeys with
    | Some keys =>
        if isDustRemote then Ok ([], [])
        else genHtlcScript (ChanType cs) (disk_Incoming htlc) false (disk_RefundTimeout htlc)
               (disk_RHash htlc) keys
    | None => Ok ([], [])
    end;
  Ok (emptyPD <| RHash := disk_RHash htlc |>
              <| Timeout := disk_RefundTimeout htlc |>
              <| Amount := disk_Amt htlc |>
              <| EntryType := Add |>
              <| HtlcIndex := disk_HtlcIndex htlc |>
              <| LogIndex := disk_LogIndex htlc |>
              <| OnionBlob := disk_OnionBlob htlc |>
              <| localOutputIndex := if isLocal then disk_OutputIndex htlc else 0 |>
              <| remoteOutputIndex := if isLocal then 0 else disk_OutputIndex htlc |>
              <| ourPkScript := ourP2SH |>
              <| ourWitnessScript := ourScript |>
              <| theirPkScript := theirP2SH |>
              <| theirWitnessScript := theirScript |>).

(** Incoming and outgoing HTLCs. *)
Fixpoint extractPayDescs (cs : OpenChannel) (feeRate : Z) (htlcs : list HTLC)
    (localCommitKeys remoteCommitKeys : option CommitmentKeyRing) (isLocal : bool)
    : res (list PaymentDescriptor * list PaymentDescriptor) :=
  match htlcs with
  | [] => Ok ([], [])
  | htlc :: htlcs' =>
      payDesc ← diskHtlcToPayDesc cs feeRate htlc localCommitKeys remoteCommitKeys isLocal;
      '(incoming, outgoing) ←
        extractPayDescs cs feeRate htlcs' localCommitKeys remoteCommitKeys isLocal;
      Ok (if disk_Incoming htlc then (payDesc :: incoming, outgoing)
          else (incoming, payDesc :: outgoing))
  end.

Definition diskCommitToMemCommit (cs : OpenChannel) (isLocal : bool) (diskCommit : ChannelCommitment)
    (localCommitPoint remoteCommitPoint : option (list byte)) : res commitment :=
  let localCommitKeys := (fun p => DeriveCommitmentKeys p true cs) <$> localCommitPoint in
  let remoteCommitKeys := (fun p => DeriveCommitmentKeys p false cs) <$> remoteCommitPoint in
  '(incoming, outgoing) ← extractPayDescs cs (FeePerKB diskCommit) (Htlcs diskCommit)
                            localCommitKeys remoteCommitKeys isLocal;
  Ok {| height := CommitHeight diskCommit; isOurs := isLocal;
        ourMessageIndex := LocalLogIndex diskCommit; theirMessageIndex := RemoteLogIndex diskCommit;
        ourHtlcIndex := LocalHtlcIndex diskCommit; theirHtlcIndex := RemoteHtlcIndex diskCommit;
        txn := CommitTx_ diskCommit; sig := CommitSig diskCommit;
        ourBalance := LocalBalance diskCommit; theirBalance := RemoteBalance diskCommit;
        fee := CommitFee diskCommit; feePerKB := FeePerKB diskCommit;
        dustLimit := DustLimit (if isLocal then LocalChanCfg cs else RemoteChanCfg cs);
        outgoingHTLCs := outgoing; incomingHTLCs := incoming;
        outgoingHTLCIndex := ∅; incomingHTLCIndex := ∅ |}.

(** ** Updates *)

(** The HTLC an update removes, looked up in a log; a missing one is dereferenced. *)
Definition original_htlc (h : pd_heap) (log : updateLog) (id : Z) : res PaymentDescriptor :=
  match lookupHtlc log id with Some p => index h p | None => Panic end.

(** The removal of [og] that a message asks for. *)
Definition removal_pd (og : PaymentDescriptor) (logIdx : Z) (t : updateType) : PaymentDescriptor :=
  emptyPD <| Amount := Amount og |>
          <| RHash := RHash og |>
          <| LogIndex := logIdx |>
          <| ParentIndex := HtlcIndex og |>
          <| EntryType := t |>.

(** The part the three conversions share: removals and fee updates, before the heights. *)
Definition removal_or_fee (h : pd_heap) (log : updateLog) (u : LogUpdate) (default_ : res PaymentDescriptor)
    : res PaymentDescriptor :=
  match UpdateMsg u with
  | MsgAdd _ => default_
  | MsgFulfill id preimage =>
      og ← original_htlc h log id;
      Ok (let pd := removal_pd og (lu_LogIndex u) Settle in pd <| RPreimage := preimage |>)
  | MsgFail id reason =>
      og ← original_htlc h log id;
      Ok (let pd := removal_pd og (lu_LogIndex u) Fail in pd <| FailReason := reason |>)
  | MsgFailMalformed id sha code =>
      og ← original_htlc h log id;
      Ok (let pd := removal_pd og (lu_LogIndex u) MalformedFail in
          pd <| FailCode := code |> <| ShaOnionBlob := sha |>)
  | MsgFee feePerKB_ =>
      Ok (emptyPD <| LogIndex := lu_LogIndex u |>
                  <| Amount := NewMAtomsFromAtoms feePerKB_ |>
                  <| EntryType := FeeUpdate |>)
  end.

(** The heights of a removal, and both heights of a fee update, on one chain. *)
Definition at_height (remoteChain : bool) (h : Z) (pd : PaymentDescriptor) : PaymentDescriptor :=
  if bool_decide (EntryType pd = FeeUpdate)
  then set_removeHeight remoteChain h (set_addHeight remoteChain h pd)
  else set_removeHeight remoteChain h pd.

Definition add_pd (m : UpdateAddHTLC) (logIdx : Z) : PaymentDescriptor :=
  emptyPD <| RHash := Add_PaymentHash m |>
          <| Timeout := Add_Expiry m |>
          <| Amount := Add_Amount m |>
          <| EntryType := Add |>
          <| HtlcIndex := Add_ID m |>
          <| LogIndex := logIdx |>
          <| OnionBlob := Add_OnionBlob m |>.

(** An update of ours that a pending remote commitment includes. *)
Definition logUpdateToPayDesc (cs : OpenChannel) (h : pd_heap) (remoteLog : updateLog) (u : LogUpdate)
    (commitHeight feeRate : Z) (remoteCommitKeys : CommitmentKeyRing) : res PaymentDescriptor :=
  match UpdateMsg u with
  | MsgAdd m =>
      let pd := set_addHeight true commitHeight (add_pd m (lu_LogIndex u)) in
      if HtlcIsDust (ChanType cs) false false feeRate (ToAtoms (Add_Amount m))
           (DustLimit (RemoteChanCfg cs))
      then Ok pd
      else
        '(theirP2SH, theirScript) ← genHtlcScript (ChanType cs) false false (Add_Expiry m)
                                      (Add_PaymentHash m) remoteCommitKeys;
        Ok (pd <| theirPkScript := theirP2SH |> <| theirWitnessScript := theirScript |>)
  | _ =>
      pd ← removal_or_fee h remoteLog u Panic;
      Ok (at_height true commitHeight pd)
  end.

Definition errUnknownMessage : error := Error "unknown message type".

(** An update of ours that the peer has still to sign for; never an addition. *)
Definition localLogUpdateToPayDesc (h : pd_heap) (remoteLog : updateLog) (u : LogUpdate)
    (commitHeight : Z) : res PaymentDescriptor :=
  pd ← removal_or_fee h remoteLog u (Err errUnknownMessage);
  Ok (at_height true commitHeight pd).

(** An update of the peer that we have revoked for and not signed. *)
Definition remoteLogUpdateToPayDesc (h : pd_heap) (localLog : updateLog) (u : LogUpdate)
    (commitHeight : Z) : res PaymentDescriptor :=
  match UpdateMsg u with
  | MsgAdd m => Ok (set_addHeight false commitHeight (add_pd m (lu_LogIndex u)))
  | _ =>
      pd ← removal_or_fee h localLog u (Err errUnknownMessage);
      Ok (at_height false commitHeight pd)
  end.

(** ** Restoring the logs *)

(** The HTLC a message removes. *)
Definition removed_htlc (u : LogUpdate) : option Z :=
  match UpdateMsg u with
  | MsgFulfill id _ | MsgFail id _ | MsgFailMalformed id _ _ => Some id
  | _ => None
  end.

(** The loops that record heights in a map, in their order. *)
Definition put_heights (h : Z) (ids : list Z) (m : gmap Z Z) : gmap Z Z :=
  foldl (fun m i => <[i := h]> m) m ids.

(** One HTLC of a commitment is put back into a log of the channel. *)
Definition restore_htlcs (remote : bool) (addLocal addRemote : PaymentDescriptor -> Z)
    : list PaymentDescriptor -> LightningChannel -> res LightningChannel :=
  fix go htlcs lc :=
    match htlcs with
    | [] => Ok lc
    | htlc :: htlcs' =>
        let pd := htlc <| addCommitHeightLocal := addLocal htlc |>
                       <| addCommitHeightRemote := addRemote htlc |> in
        let '(h, p) := alloc (lc_heap lc) pd in
        lc' ← (if remote then
                 log ← restoreHtlc h (remoteUpdateLog lc) p;
                 Ok (with_logs (with_heap lc h) (localUpdateLog lc) log)
               else
                 log ← restoreHtlc h (localUpdateLog lc) p;
                 Ok (with_logs (with_heap lc h) log (remoteUpdateLog lc)));
        go htlcs' lc'
    end.

(** The updates leading up to a pending commitment; mismatches panic. *)
Fixpoint restorePendingLocalUpdates (updates : list LogUpdate) (pendingHeight feeRate : Z)
    (keys : CommitmentKeyRing) (lc : LightningChannel) : res LightningChannel :=
  match updates with
  | [] => Ok lc
  | u :: updates' =>
      payDesc ← logUpdateToPayDesc (channelState lc) (lc_heap lc) (remoteUpdateLog lc) u
                  pendingHeight feeRate keys;
      let log := localUpdateLog lc in
      let payDesc :=
        if bool_decide (EntryType payDesc = FeeUpdate) && (LogIndex payDesc =? 0)
           && (0 <? logIndex log)
        then payDesc <| LogIndex := logIndex log |> else payDesc in
      if negb (LogIndex payDesc =? logIndex log) then Panic
      else
        let '(h, p) := alloc (lc_heap lc) payDesc in
        lc' ← match EntryType payDesc with
              | Add =>
                  if negb (HtlcIndex payDesc =? htlcCounter log) then Panic
                  else Ok (with_logs (with_heap lc h) (appendHtlc log p) (remoteUpdateLog lc))
              | FeeUpdate => Ok (with_logs (with_heap lc h) (appendUpdate log p) (remoteUpdateLog lc))
              | _ => Ok (with_logs (with_heap lc h) (appendUpdate log p)
                           (markHtlcModified (remoteUpdateLog lc) (ParentIndex payDesc)))
              end;
        restorePendingLocalUpdates updates' pendingHeight feeRate keys lc'
  end.

Definition errUnsignedRemote : error := Error "attempted to restore an unsigned remote update".

Fixpoint restorePendingRemoteUpdates (updates : list LogUpdate) (localCommitmentHeight : Z)
    (pendingRemoteCommit : option commitment) (lc : LightningChannel) : res LightningChannel :=
  match updates with
  | [] => Ok lc
  | u :: updates' =>
      payDesc ← remoteLogUpdateToPayDesc (lc_heap lc) (localUpdateLog lc) u localCommitmentHeight;
      let logIdx := LogIndex payDesc in
      if logIndex (remoteUpdateLog lc) <=? logIdx then Err errUnsignedRemote
      else if bool_decide (EntryType payDesc = Add)
      then restorePendingRemoteUpdates updates' localCommitmentHeight pendingRemoteCommit lc
      else
        let payDesc :=
          match pendingRemoteCommit with
          | Some c => if logIdx <? theirMessageIndex c then at_height true (height c) payDesc
                      else payDesc
          | None => payDesc
          end in
        let '(h, p) := alloc (lc_heap lc) payDesc in
        log ← restoreUpdate h (remoteUpdateLog lc) p;
        let local := if bool_decide (EntryType payDesc = FeeUpdate) then localUpdateLog lc
                     else markHtlcModified (localUpdateLog lc) (ParentIndex payDesc) in
        restorePendingRemoteUpdates updates' localCommitmentHeight pendingRemoteCommit
          (with_logs (with_heap lc h) local log)
  end.

Fixpoint restorePeerLocalUpdates (updates : list LogUpdate) (remoteCommitmentHeight : Z)
    (lc : LightningChannel) : res LightningChannel :=
  match updates with
  | [] => Ok lc
  | u :: updates' =>
      payDesc ← localLogUpdateToPayDesc (lc_heap lc) (remoteUpdateLog lc) u remoteCommitmentHeight;
      let '(h, p) := alloc (lc_heap lc) payDesc in
      log ← restoreUpdate h (localUpdateLog lc) p;
      let remote := if bool_decide (EntryType payDesc = FeeUpdate) then remoteUpdateLog lc
                    else markHtlcModified (remoteUpdateLog lc) (ParentIndex payDesc) in
      restorePeerLocalUpdates updates' remoteCommitmentHeight (with_logs (with_heap lc h) log remote)
  end.

Definition restoreStateLogs (localCommitment remoteCommitment : commitment)
    (pending : option (commitment * CommitDiff * CommitmentKeyRing))
    (unsignedAcked remoteUnsigned : list LogUpdate) (lc : LightningChannel) : res LightningChannel :=
  let pendingRemoteCommit := (fun p => p.1.1) <$> pending in
  let incomingRemoteAddHeights :=
    put_heights (height remoteCommitment) (omap removed_htlc remoteUnsigned)
      (put_heights (height remoteCommitment) (HtlcIndex <$> incomingHTLCs remoteCommitment)
        match pendingRemoteCommit with
        | Some c => put_heights (height c) (HtlcIndex <$> incomingHTLCs c) ∅
        | None => ∅
        end) in
  let outgoingLocalAddHeights :=
    put_heights (height localCommitment) (omap removed_htlc unsignedAcked)
      (put_heights (height localCommitment) (HtlcIndex <$> outgoingHTLCs localCommitment) ∅) in
  lc ← restore_htlcs true (fun _ => height localCommitment)
         (fun htlc => default 0 (incomingRemoteAddHeights !! HtlcIndex htlc))
         (incomingHTLCs localCommitment) lc;
  lc ← restore_htlcs false
         (fun htlc => default 0 (outgoingLocalAddHeights !! HtlcIndex htlc))
         (fun _ => height remoteCommitment) (outgoingHTLCs remoteCommitment) lc;
  lc ← match pending with
       | Some (_, diff, keys) =>
           restorePendingLocalUpdates (cd_LogUpdates diff) (CommitHeight (cd_Commitment diff))
             (FeePerKB (cd_Commitment diff)) keys lc
       | None => Ok lc
       end;
  lc ← restorePendingRemoteUpdates unsignedAcked (height localCommitment) pendingRemoteCommit lc;
  restorePeerLocalUpdates remoteUnsigned (height remoteCommitment) lc.

(** The commitments and the logs; without a next revocation point there are no keys for a
    pending commitment. *)
Definition restoreCommitState (cs : OpenChannel) (d : chan_db) (producer : RevocationProducer)
    (current next : option (list byte)) (lc : LightningChannel) : res LightningChannel :=
  ourRevPreImage ← AtIndex producer (CommitHeight (LocalCommitment d));
  let localCommitPoint := Some (ComputeCommitmentPoint ourRevPreImage) in
  localCommit ← diskCommitToMemCommit cs true (LocalCommitment d) localCommitPoint current;
  remoteCommit ← diskCommitToMemCommit cs false (RemoteCommitment d) localCommitPoint current;
  pending ← match commitDiff d with
            | None => Ok None
            | Some diff =>
                c ← diskCommitToMemCommit cs false (cd_Commitment diff) None next;
                match next with
                | Some p => Ok (Some (c, diff, DeriveCommitmentKeys p false cs))
                | None => Panic
                end
            end;
  restoreStateLogs localCommit remoteCommit pending (default [] (unsignedAckedUpdates d))
    (default [] (remoteUnsignedLocalUpdates d))
    (with_chains lc [localCommit] (remoteCommit :: option_list ((fun p => p.1.1) <$> pending))).

(** [NewLightningChannel] on the channel that was read from disk. *)
Definition NewLightningChannel (n : node) : res session :=
  let s := n_session n in
  let d := ss_db s in
  let cs := dk_state (n_disk n) in
  let lc := {| lc_heap := []; channelState := cs; localCommitChain := []; remoteCommitChain := [];
               localUpdateLog := newUpdateLog (LocalLogIndex (RemoteCommitment d))
                                   (LocalHtlcIndex (RemoteCommitment d));
               remoteUpdateLog := newUpdateLog (RemoteLogIndex (LocalCommitment d))
                                    (RemoteHtlcIndex (LocalCommitment d)) |} in
  lc ← restoreCommitState cs d (ss_Producer s) (dk_Current (n_disk n)) (dk_Next (n_disk n)) lc;
  Ok {| ss_lc := lc; ss_db := d; currentHeight := CommitHeight (LocalCommitment d);
        ss_obfuscator := ss_obfuscator s; ss_ShortChannelID := ss_ShortChannelID s;
        ss_Producer := ss_Producer s; ss_Store := dk_Store (n_disk n);
        RemoteCurrentRevocation := dk_Current (n_disk n);
        RemoteNextRevocation := dk_Next (n_disk n) |}.

(** ** Reestablishing the connection *)

Record ChannelReestablish := {
  NextLocalCommitHeight : Z;
  RemoteCommitTailHeight : Z;
  LastRemoteCommitSecret : list byte;
  LocalUnrevokedCommitPoint : option (list byte);
}.

Definition flip_lowest (secret : list byte) : list byte :=
  alter (fun b => byte_of (Z.lxor (bval b) 1)) 0%nat secret.

Definition ChanSyncMsg (s : session) : res ChannelReestablish :=
  let d := ss_db s in
  let localHeight := CommitHeight (LocalCommitment d) in
  let remoteChainTipHeight := CommitHeight (RemoteCommitment d) in
  lastCommitSecret ← (if remoteChainTipHeight =? 0 then Ok (replicate 32 x00)
                      else LookUp (ss_Store s) (u64 (remoteChainTipHeight - 1)));
  currentCommitSecret ← AtIndex (ss_Producer s) localHeight;
  let secret := if db_Restored d then flip_lowest currentCommitSecret else currentCommitSecret in
  Ok {| NextLocalCommitHeight :=
          if db_Restored d && IsTweakless (ChanType (channelState (ss_lc s))) then 0
          else u64 (localHeight + 1);
        RemoteCommitTailHeight := remoteChainTipHeight;
        LastRemoteCommitSecret := lastCommitSecret;
        LocalUnrevokedCommitPoint := Some (ComputeCommitmentPoint secret) |}.

(** The messages that are sent again. *)
Inductive sync_msg :=
  | SyncUpdate (u : update_msg)
  | SyncCommitSig (commitSig : list byte) (htlcSigs : list (list byte))
  | SyncRevoke (m : RevokeAndAck).

Definition ErrInvalidLastCommitSecret : error := Error "ErrInvalidLastCommitSecret".
Definition ErrCannotSyncCommitChains : error := Error "ErrCannotSyncCommitChains".
Definition ErrCommitSyncLocalDataLoss : error := Error "ErrCommitSyncLocalDataLoss".
Definition ErrCommitSyncRemoteDataLoss : error := Error "ErrCommitSyncRemoteDataLoss".
Definition ErrInvalidLocalUnrevokedCommitPoint : error := Error "ErrInvalidLocalUnrevokedCommitPoint".
Definition ErrNoPendingCommit : error := Error "ErrNoPendingCommit".

(** The secret of our commitment before the one they believe us to be at. *)
Definition check_last_secret (s : session) (msg : ChannelReestablish) : res unit :=
  if bool_decide (is_Some (LocalUnrevokedCommitPoint msg)) && negb (RemoteCommitTailHeight msg =? 0)
  then
    heightSecret ← AtIndex (ss_Producer s) (u64 (RemoteCommitTailHeight msg - 1));
    if bool_decide (heightSecret = LastRemoteCommitSecret msg) then Ok tt
    else Err ErrInvalidLastCommitSecret
  else Ok tt.

(** Their view of our chain: what we owe them of it. *)
Definition sync_local (s : session) (msg : ChannelReestablish) (localTailHeight : Z) (db : res unit)
    : session * res (list sync_msg) :=
  let r := RemoteCommitTailHeight msg in
  if (localTailHeight <? r) || db_Restored (ss_db s) then
    (s, if bool_decide (is_Some (LocalUnrevokedCommitPoint msg)) then Err ErrCommitSyncLocalDataLoss
        else Err ErrCannotSyncCommitChains)
  else if u64 (r + 1) <? localTailHeight then (s, Err ErrCommitSyncRemoteDataLoss)
  else if r =? localTailHeight then (s, Ok [])
  else if u64 (r + 1) =? localTailHeight then
    match generateRevocation s (u64 (localTailHeight - 1)), oweCommitment (ss_lc s) true with
    | Ok revocationMsg, Ok true =>
        match SignNextCommitment s db with
        | (s', Ok (commitSig, htlcSigs, _)) =>
            (s', Ok [SyncRevoke revocationMsg; SyncCommitSig commitSig htlcSigs])
        | (s', Err e) =>
            (s', if bool_decide (e = ErrNoWindow) then Ok [SyncRevoke revocationMsg] else Err e)
        | (s', Panic) => (s', Panic)
        end
    | Ok revocationMsg, Ok false => (s, Ok [SyncRevoke revocationMsg])
    | Err e, _ => (s, Err e)
    | _, _ => (s, Panic)
    end
  else (s, Err ErrCannotSyncCommitChains).

(** Our view of their chain: the pending commitment they have not received. *)
Definition sync_remote (d : chan_db) (LastWasRevoke : bool) (msg : ChannelReestablish)
    (remoteTailHeight remoteTipHeight : Z) (updates : list sync_msg)
    : res (list sync_msg * list CircuitKey * list CircuitKey) :=
  let next := NextLocalCommitHeight msg in
  if u64 (remoteTipHeight + 1) <? next then Err ErrCannotSyncCommitChains
  else if next <=? remoteTailHeight then Err ErrCommitSyncRemoteDataLoss
  else if next =? u64 (remoteTipHeight + 1) then Ok (updates, [], [])
  else if next =? remoteTipHeight then
    match commitDiff d with
    | None => Err ErrNoPendingCommit
    | Some diff =>
        let commitUpdates := (SyncUpdate ∘ UpdateMsg <$> cd_LogUpdates diff)
                             ++ [SyncCommitSig (cd_CommitSig diff) (cd_HtlcSigs diff)] in
        Ok (if LastWasRevoke then commitUpdates ++ updates else updates ++ commitUpdates,
            OpenedCircuitKeys diff, ClosedCircuitKeys diff)
    end
  else Err ErrCannotSyncCommitChains.

(** The point of their commitment, checked where the keys depend on it. *)
Definition check_commit_point (s : session) (msg : ChannelReestablish) (remoteTailHeight : Z)
    : res unit :=
  match LocalUnrevokedCommitPoint msg with
  | None => Ok tt
  | Some point =>
      let next := NextLocalCommitHeight msg in
      let commitPoint :=
        if next =? u64 (remoteTailHeight + 1) then RemoteCurrentRevocation s
        else if next =? u64 (remoteTailHeight + 2) then RemoteNextRevocation s
        else None in
      match commitPoint with
      | Some p =>
          if negb (IsTweakless (ChanType (channelState (ss_lc s)))) && negb (bool_decide (p = point))
          then Err ErrInvalidLocalUnrevokedCommitPoint else Ok tt
      | None => Ok tt
      end
  end.

Definition ProcessChanSyncMsg (s : session) (LastWasRevoke : bool) (msg : ChannelReestablish)
    (db : res unit) : session * res (list sync_msg * list CircuitKey * list CircuitKey) :=
  let lc := ss_lc s in
  match (_ ← check_last_secret s msg;
         localTail ← tail (localCommitChain lc);
         remoteTail ← tail (remoteCommitChain lc);
         remoteTip ← tip (remoteCommitChain lc);
         Ok (localTail, remoteTail, remoteTip)) with
  | Ok (localTail, remoteTail, remoteTip) =>
      match sync_local s msg (height localTail) db with
      | (s', Ok updates) =>
          (s', result ← sync_remote (ss_db s') LastWasRevoke msg (height remoteTail)
                          (height remoteTip) updates;
               _ ← check_commit_point s' msg (height remoteTail);
               Ok result)
      | (s', Err e) => (s', Err e)
      | (s', Panic) => (s', Panic)
      end
  | Err e => (s, Err e)
  | Panic => (s, Panic)
  end.

End Restore.
