(* ===== verification/ChanSyncInv.v ===== *)
(** * Reestablishing a connection: what each operation does to the chains

    No operation of a channel changes the commitment chains but signing, receiving a
    commitment, revoking and being revoked to, whatever the logs contain; restoring a
    channel rebuilds the chains that the database describes. *)

From Stdlib Require Import Lia.
From S2P Require Import Prelude Sha256 Shachain Ids Amounts UpdateLog Channel ChannelEval ChannelInv CommitTx CommitDance ChanSync.

(** ** Chains that stay *)

Record same_chains (lc lc' : LightningChannel) : Prop := {
  sc_local : localCommitChain lc' = localCommitChain lc;
  sc_remote : remoteCommitChain lc' = remoteCommitChain lc;
}.

#[export] Instance same_chains_preorder : PreOrder same_chains.
Proof. split; [done|]. intros a b c [] []. split; congruence. Qed.

#[local] Hint Extern 0 (same_chains _ _) => (by split) : core.

Lemma eval_removal_chains ours rc m nh p st skip :
  same_chains (ev_lc st) (ev_lc (eval_removal ours rc m nh p st skip).1).
Proof.
  unfold eval_removal, count_settle. repeat case_match; simplify_eq/=; done.
Qed.

Lemma eval_removals_chains ours rc m nh ps st skip :
  same_chains (ev_lc st) (ev_lc (eval_removals ours rc m nh ps st skip).1).
Proof.
  revert st skip. induction ps as [|p ps IH]; intros st skip; [done|]. simpl.
  pose proof (eval_removal_chains ours rc m nh p st skip) as Hc.
  destruct (eval_removal _ _ _ _ _ _ _) as [st' [skip'|e|]]; [|done|done].
  etrans; [exact Hc|apply IH].
Qed.

Lemma eval_adds_chains inc rc m nh skip ps st :
  same_chains (ev_lc st) (ev_lc (eval_adds inc rc m nh skip ps st).1).
Proof.
  revert st. induction ps as [|p ps IH]; intros st; [done|]. simpl.
  destruct (index _ p) as [e|e|]; [|done|done]. case_match; [apply IH|].
  destruct (processAddEntry _ _ _ _ _ _ _) as [[e' our] their].
  pose proof (IH (ev_write st p e' our their (ev_fee st))) as Hc.
  destruct (eval_adds _ _ _ _ _ _ _) as [st' r]. simpl in *.
  etrans; [|exact Hc]. done.
Qed.

Lemma evaluate_chains lc v our their nh rc m :
  same_chains lc (ev_lc (evaluateHTLCView lc v our their nh rc m).1).
Proof.
  unfold evaluateHTLCView.
  set (st0 := {| ev_lc := lc; ev_our := our; ev_their := their; ev_fee := view_feePerKB v |}).
  change (same_chains lc) with (same_chains (ev_lc st0)).
  pose proof (eval_removals_chains true rc m nh (ourUpdates v) st0 ∅) as H1.
  destruct (eval_removals true _ _ _ _ _ _) as [st1 [s1|e|]]; [|done|done].
  pose proof (eval_removals_chains false rc m nh (theirUpdates v) st1 ∅) as H2.
  destruct (eval_removals false _ _ _ _ _ _) as [st2 [s2|e|]]; [|by etrans|by etrans].
  pose proof (eval_adds_chains false rc m nh s2 (ourUpdates v) st2) as H3.
  destruct (eval_adds false _ _ _ _ _ _) as [st3 [us|e|]]; simpl in *;
    [|by etrans; [|etrans]|by etrans; [|etrans]].
  pose proof (eval_adds_chains true rc m nh s1 (theirUpdates v) st3) as H4.
  destruct (eval_adds true _ _ _ _ _ _) as [st4 r]. simpl in *.
  by do 3 (etrans; [eassumption|]).
Qed.

Lemma computeView_chains lc v rc m : same_chains lc (computeView lc v rc m).1.
Proof.
  unfold computeView. destruct (tip _) as [c|e|]; [|done|done].
  match goal with |- context [evaluateHTLCView ?l ?v ?o ?t ?n ?r ?m] =>
    pose proof (evaluate_chains l v o t n r m); destruct (evaluateHTLCView l v o t n r m) end.
  done.
Qed.

Lemma sanity_chains lc a b rc po pt :
  same_chains lc (validateCommitmentSanity lc a b rc po pt).1.
Proof.
  unfold validateCommitmentSanity. destruct (tip _) as [c|e|]; [|done|done].
  match goal with |- context [computeView ?l ?v ?r ?m] =>
    pose proof (computeView_chains l v r m); destruct (computeView l v r m) end.
  done.
Qed.

Lemma validateAddHtlc_chains lc p : same_chains lc (validateAddHtlc lc p).1.
Proof.
  unfold validateAddHtlc. destruct (tail _) as [c|e|]; [|done|done].
  match goal with |- context [validateCommitmentSanity ?l ?a ?b true ?x ?y] =>
    pose proof (sanity_chains l a b true x y) as H1;
    destruct (validateCommitmentSanity l a b true x y) as [lc1 [u|e|]] end; [|done|done].
  etrans; [exact H1|apply sanity_chains].
Qed.

Lemma available_chains lc v rc : same_chains lc (availableCommitmentBalance lc v rc).1.
Proof.
  unfold availableCommitmentBalance. pose proof (computeView_chains lc v rc false) as Hc.
  destruct (computeView _ _ _ _) as [lc1 [[[[our their] size] filtered]|e|]]; [|done|done].
  by repeat case_match.
Qed.

Lemma validateFeeRate_chains lc f : same_chains lc (validateFeeRate lc f).1.
Proof.
  unfold validateFeeRate, availableBalance. destruct (tip _) as [c|e|]; [|done|done].
  match goal with |- context [availableCommitmentBalance lc ?v false] =>
    pose proof (available_chains lc v false) as H1;
    destruct (availableCommitmentBalance lc v false) as [lc1 [b1 s1]];
    pose proof (available_chains lc1 v true) as H2;
    destruct (availableCommitmentBalance lc1 v true) as [lc2 [b2 s2]] end.
  by etrans.
Qed.

Section Steps.
Context `{Hasher}.

Lemma chan_step_chains op lc : same_chains lc (chan_step op lc).1.
Proof.
  destruct op; simpl.
  - unfold AddHTLC, alloc.
    match goal with |- context [validateAddHtlc ?l ?p] =>
      pose proof (validateAddHtlc_chains l p) as Hc; destruct (validateAddHtlc l p) as [lc1 [u|e|]] end;
      destruct Hc; by split.
  - unfold ReceiveHTLC, alloc. case_match; [done|]. destruct (tail _) as [c|e|]; [|done|done].
    match goal with |- context [validateCommitmentSanity ?l ?a ?b ?r ?x ?y] =>
      pose proof (sanity_chains l a b r x y) as Hc;
      destruct (validateCommitmentSanity l a b r x y) as [lc1 [u|e|]] end;
      destruct Hc; by split.
  - unfold SettleHTLC. destruct (removable _ _ _ _); simpl; by repeat case_match.
  - unfold ReceiveHTLCSettle. destruct (removable _ _ _ _); simpl; by repeat case_match.
  - unfold FailHTLC. by destruct (removable _ _ _ _).
  - unfold MalformedFailHTLC. by destruct (removable _ _ _ _).
  - unfold ReceiveFailHTLC. by destruct (removable _ _ _ _).
  - unfold UpdateFee. case_match; [done|].
    pose proof (validateFeeRate_chains lc feePerKB) as Hc.
    destruct (validateFeeRate _ _) as [lc1 [u|e|]]; destruct Hc; by split.
  - unfold ReceiveUpdateFee. by case_match.
Qed.

End Steps.

(** ** Chains that grow *)

Section Dance.
Context `{Hasher} `{Scripts} `{Crypto}.

Lemma populate_height c ct cltvs c' : populateHtlcIndexes c ct cltvs = Ok c' -> height c' = height c.
Proof.
  unfold populateHtlcIndexes. intros ([[outs dups] oi] & _ & ([[ins ?] ii] & _ & [= <-])%bind_ok)%bind_ok.
  done.
Qed.

Lemma fetch_chains lc obf rc a b c d k lc' r :
  fetchCommitmentView lc obf rc a b c d k = (lc', r) ->
  same_chains lc lc' /\
  forall v, r = Ok v -> exists t, tip (commitChain lc rc) = Ok t /\ height v = u64 (height t + 1).
Proof.
  unfold fetchCommitmentView. destruct (tip _) as [t|e|]; [|by intros [= <- <-]|by intros [= <- <-]].
  match goal with |- context [computeView ?l ?v ?r ?m] =>
    pose proof (computeView_chains l v r m) as Hc; destruct (computeView l v r m) as [lc1 r1] end.
  destruct r1 as [[[[our their] size] filtered]|e|]; [|by intros [= <- <-]|by intros [= <- <-]].
  destruct (createUnsignedCommitmentTx _ _ _ _ _ _ _ _ _ _) as [h r2]. intros [= <- <-].
  destruct Hc. split; [done|]. intros v (u & _ & Hv)%bind_ok. exists t. split; [done|].
  unfold commitment_of_tx in Hv. apply bind_ok in Hv as (eff & _ & Hv).
  case_match; [done|]. by apply populate_height in Hv.
Qed.

(** What the operations of the dance leave alone in a session. *)
Record same_rest (s s' : session) : Prop := {
  sr_producer : ss_Producer s' = ss_Producer s;
  sr_store : ss_Store s' = ss_Store s;
  sr_current : RemoteCurrentRevocation s' = RemoteCurrentRevocation s;
  sr_next : RemoteNextRevocation s' = RemoteNextRevocation s;
}.

#[export] Instance same_rest_preorder : PreOrder same_rest.
Proof. split; [done|]. intros a b c [] []. split; congruence. Qed.

(** Signing: nothing happens to the database and the chains, or both get the commitment. *)
Record signed (s s' : session) (commitSig : list byte) (htlcSigs : list (list byte))
    (t c : commitment) (diff : CommitDiff) : Prop := {
  sg_window : hasUnackedCommitment (remoteCommitChain (ss_lc s)) = false;
  sg_tip : tip (remoteCommitChain (ss_lc s)) = Ok t;
  sg_height : height c = u64 (height t + 1);
  sg_local : localCommitChain (ss_lc s') = localCommitChain (ss_lc s);
  sg_remote : remoteCommitChain (ss_lc s') = remoteCommitChain (ss_lc s) ++ [c];
  sg_db : exists db, AppendRemoteCommitChain (ss_db s) diff db = Ok (ss_db s');
  sg_diff : CommitHeight (cd_Commitment diff) = height c;
  sg_sig : cd_CommitSig diff = commitSig;
  sg_htlcs : cd_HtlcSigs diff = htlcSigs;
}.

Lemma sign_cases s db s' r :
  SignNextCommitment s db = (s', r) ->
  same_rest s s' /\ currentHeight s' = currentHeight s /\
  match r with
  | Ok (commitSig, htlcSigs, _) => exists t c diff, signed s s' commitSig htlcSigs t c diff
  | _ => ss_db s' = ss_db s /\ same_chains (ss_lc s) (ss_lc s')
  end.
Proof.
  unfold SignNextCommitment.
  destruct (oweCommitment _ _) as [b|e|]; [|by intros [= <- <-]|by intros [= <- <-]].
  destruct (hasUnackedCommitment _) eqn:Hw; [by intros [= <- <-]|].
  destruct (RemoteNextRevocation s) as [cp|]; [|by intros [= <- <-]].
  destruct (tail _) as [lt|e|]; [|by intros [= <- <-]|by intros [= <- <-]].
  match goal with |- context [validateCommitmentSanity ?l ?a ?b ?r ?x ?y] =>
    pose proof (sanity_chains l a b r x y) as Hc;
    destruct (validateCommitmentSanity l a b r x y) as [lc1 [u|e|]] end;
    [|by intros [= <- <-]|by intros [= <- <-]].
  destruct (fetchCommitmentView _ _ _ _ _ _ _ _) as [lc2 r2] eqn:Ef.
  apply fetch_chains in Ef as [Hf Hv]. simpl in Hc.
  assert (same_chains (ss_lc s) lc2) as Hlc by by etrans.
  destruct r2 as [v|e|]; [|by intros [= <- <-]|by intros [= <- <-]].
  destruct (sign_commitment _ _ _) as [[cs hs]|e|]; [|by intros [= <- <-]|by intros [= <- <-]].
  destruct (AppendRemoteCommitChain _ _ _) as [d|e|] eqn:Ea;
    [|by intros [= <- <-]|by intros [= <- <-]].
  intros [= <- <-]. split; [done|]. split; [done|].
  destruct (Hv v eq_refl) as (t & Ht & Hh). simpl in Ht. rewrite (sc_remote _ _ Hc) in Ht.
  exists t, v. eexists. destruct Hlc as [Hl Hr]. split; simpl; eauto. by rewrite Hr.
Qed.

(** Receiving a commitment. *)
Lemma receive_commitment_cases s cs hs s' r :
  ReceiveNewCommitment s cs hs = (s', r) ->
  same_rest s s' /\ currentHeight s' = currentHeight s /\ ss_db s' = ss_db s /\
  remoteCommitChain (ss_lc s') = remoteCommitChain (ss_lc s) /\
  match r with
  | Ok _ => exists t c, tip (localCommitChain (ss_lc s)) = Ok t /\ height c = u64 (height t + 1) /\
      localCommitChain (ss_lc s') = localCommitChain (ss_lc s) ++ [c]
  | _ => localCommitChain (ss_lc s') = localCommitChain (ss_lc s)
  end.
Proof.
  unfold ReceiveNewCommitment.
  destruct (oweCommitment _ _) as [b|e|]; [|by intros [= <- <-]|by intros [= <- <-]].
  destruct (tail _) as [lt|e|]; [|by intros [= <- <-]|by intros [= <- <-]].
  match goal with |- context [validateCommitmentSanity ?l ?a ?b ?r ?x ?y] =>
    pose proof (sanity_chains l a b r x y) as Hc;
    destruct (validateCommitmentSanity l a b r x y) as [lc1 r1] end.
  simpl in Hc. destruct r1 as [u|e|]; [|by destruct Hc; intros [= <- <-]|by destruct Hc; intros [= <- <-]].
  destruct (AtIndex _ _) as [sec|e|]; [|by destruct Hc; intros [= <- <-]|by destruct Hc; intros [= <- <-]].
  destruct (fetchCommitmentView _ _ _ _ _ _ _ _) as [lc2 r2] eqn:Ef.
  apply fetch_chains in Ef as [Hf Hv].
  assert (same_chains (ss_lc s) lc2) as [Hl Hr] by by etrans.
  destruct r2 as [v|e|]; [|by intros [= <- <-]|by intros [= <- <-]].
  destruct (verify_commitment _ _ _ _ _) as [c|e|] eqn:Ev;
    [|by intros [= <- <-]|by intros [= <- <-]].
  intros [= <- <-]. do 3 (split; [done|]). split; [done|]. simpl in *.
  destruct (Hv v eq_refl) as (t & Ht & Hh). simpl in Ht. rewrite (sc_local _ _ Hc) in Ht.
  exists t, c. split; [done|]. split; [|by rewrite Hl].
  unfold verify_commitment in Ev. apply bind_ok in Ev as (? & _ & Ev).
  apply bind_ok in Ev as (? & _ & Ev). apply bind_ok in Ev as (? & _ & Ev).
  case_match; [done|]. by apply bind_ok in Ev as (? & _ & [= <-]).
Qed.

(** Revoking: the chain moves first; the database follows or nothing else is done. *)
Lemma revoke_cases s db s' r :
  RevokeCurrentCommitment s db = (s', r) ->
  same_rest s s' /\
  match r with
  | Ok (msg, _) => exists c t rest unsigned,
      localCommitChain (ss_lc s) = c :: t :: rest /\ localCommitChain (ss_lc s') = t :: rest /\
      remoteCommitChain (ss_lc s') = remoteCommitChain (ss_lc s) /\
      currentHeight s' = u64 (currentHeight s + 1) /\
      UpdateCommitment (ss_db s) (toDiskCommit t true) unsigned db = Ok (ss_db s') /\
      generateRevocation s (currentHeight s) = Ok msg
  | _ => ss_db s' = ss_db s
  end.
Proof.
  unfold RevokeCurrentCommitment.
  destruct (generateRevocation _ _) as [msg|e|] eqn:Hg; [|by intros [= <- <-]|by intros [= <- <-]].
  destruct (localCommitChain (ss_lc s)) as [|c chain] eqn:Hl; simpl; [by intros [= <- <-]|].
  match goal with |- context [match ?x with Ok _ => _ | Err _ => _ | Panic => _ end] =>
    destruct x as [[d htlcs]|e|] eqn:E end; [|by intros [= <- <-]|by intros [= <- <-]].
  intros [= <- <-]. split; [done|].
  apply bind_ok in E as (t & Ht & E). apply bind_ok in E as (un & _ & E).
  apply bind_ok in E as (d' & Hd & [= <- <-]). simpl in Ht.
  destruct chain as [|t' rest]; [done|]. injection Ht as <-. simpl.
  exists c, t', rest, un. done.
Qed.

(** Being revoked to. *)
Lemma receive_revocation_cases s msg db s' r :
  ReceiveRevocation s msg db = (s', r) ->
  ss_Producer s' = ss_Producer s /\
  match r with
  | Ok _ => exists c chain diff store pkg ups,
      AddNextEntry (ss_Store s) (Revocation msg) = Ok store /\
      remoteCommitChain (ss_lc s) = c :: chain /\ remoteCommitChain (ss_lc s') = chain /\
      localCommitChain (ss_lc s') = localCommitChain (ss_lc s) /\
      currentHeight s' = currentHeight s /\
      commitDiff (ss_db s) = Some diff /\
      AdvanceCommitChainTail (ss_db s) pkg ups db = Ok (ss_db s') /\
      ss_Store s' = store /\ RemoteCurrentRevocation s' = RemoteNextRevocation s /\
      RemoteNextRevocation s' = Some (NextRevocationKey msg)
  | _ => ss_db s' = ss_db s
  end.
Proof.
  unfold ReceiveRevocation.
  match goal with |- context [match ?x with Ok _ => _ | Err _ => _ | Panic => _ end] =>
    destruct x as [store|e|] eqn:E end; [|by intros [= <- <-]|by intros [= <- <-]].
  apply bind_ok in E as (rev & Hn & Ha). unfold NewHash in Hn. case_match; [done|].
  injection Hn as <-.
  destruct (RemoteCurrentRevocation s) as [cp|]; [|by intros [= <- <-]].
  case_match; [by intros [= <- <-]|]. unfold advance_remote.
  match goal with |- context [match ?x with Ok _ => _ | Err _ => _ | Panic => _ end] =>
    destruct x as [[[[rct lt] rt] st]|e|] eqn:E end; [|by intros [= <- <-]|by intros [= <- <-]].
  match goal with |- context [AdvanceCommitChainTail ?d ?p ?u db] =>
    destruct (AdvanceCommitChainTail d p u db) as [d'|e|] eqn:Ed end;
    [|by intros [= <- <-]|by intros [= <- <-]].
  match goal with |- context [match ?x with Ok _ => _ | Err _ => _ | Panic => _ end] =>
    destruct x as [[[chain l] rr]|e|] eqn:E2 end; [|by intros [= <- <-]|by intros [= <- <-]].
  intros [= <- <-]. split; [done|]. simpl in *.
  apply bind_ok in E2 as (chain' & Hch & E2). apply bind_ok in E2 as ([l' r'] & _ & [= <- <- <-]).
  destruct (remoteCommitChain (ss_lc s)) as [|c ch] eqn:Hr; [done|]. injection Hch as <-.
  pose proof Ed as Ed'. unfold AdvanceCommitChainTail in Ed'. apply bind_ok in Ed' as (? & _ & Ed').
  destruct (commitDiff (ss_db s)) as [diff|]; [|done].
  exists c, ch, diff, store. do 2 eexists. done.
Qed.

(** ** Restoring *)

Lemma restore_htlcs_chains remote al ar htlcs lc lc' :
  restore_htlcs remote al ar htlcs lc = Ok lc' -> same_chains lc lc'.
Proof.
  revert lc. induction htlcs as [|htlc htlcs IH]; intros lc; [by intros [= <-]|]. simpl.
  intros (lc1 & K1 & K2)%bind_ok. apply IH in K2. etrans; [|exact K2].
  destruct remote; by apply bind_ok in K1 as (log & _ & [= <-]).
Qed.

Lemma restorePendingLocal_chains us ph fr k lc lc' :
  restorePendingLocalUpdates us ph fr k lc = Ok lc' -> same_chains lc lc'.
Proof.
  revert lc. induction us as [|u us IH]; intros lc; [by intros [= <-]|]. simpl.
  intros (pd & _ & K2)%bind_ok. case_match; [done|].
  apply bind_ok in K2 as (lc1 & K1 & K2). apply IH in K2. etrans; [|exact K2].
  by repeat case_match; simplify_eq.
Qed.

Lemma restorePendingRemote_chains us lh pr lc lc' :
  restorePendingRemoteUpdates us lh pr lc = Ok lc' -> same_chains lc lc'.
Proof.
  revert lc. induction us as [|u us IH]; intros lc; [by intros [= <-]|]. simpl.
  intros (pd & _ & K2)%bind_ok. case_match; [done|]. case_match; [by apply IH|].
  apply bind_ok in K2 as (log & _ & K2). apply IH in K2. etrans; [|exact K2]. done.
Qed.

Lemma restorePeerLocal_chains us rh lc lc' :
  restorePeerLocalUpdates us rh lc = Ok lc' -> same_chains lc lc'.
Proof.
  revert lc. induction us as [|u us IH]; intros lc; [by intros [= <-]|]. simpl.
  intros (pd & _ & K2)%bind_ok. apply bind_ok in K2 as (log & _ & K2). apply IH in K2. etrans; [|exact K2]. done.
Qed.

Lemma restoreStateLogs_chains lcm rcm pend ua ru lc lc' :
  restoreStateLogs lcm rcm pend ua ru lc = Ok lc' -> same_chains lc lc'.
Proof.
  intros (lc1 & K1%restore_htlcs_chains & HH)%bind_ok.
  apply bind_ok in HH as (lc2 & K2%restore_htlcs_chains & HH).
  apply bind_ok in HH as (lc3 & K3 & HH).
  apply bind_ok in HH as (lc4 & K4%restorePendingRemote_chains & K5%restorePeerLocal_chains).
  assert (same_chains lc2 lc3).
  { destruct pend as [[[? ?] ?]|]; [by eapply restorePendingLocal_chains|by injection K3 as <-]. }
  by do 4 (etrans; [eassumption|]).
Qed.

Lemma diskCommit_height cs isLocal dc lp rp c :
  diskCommitToMemCommit cs isLocal dc lp rp = Ok c -> height c = CommitHeight dc.
Proof. by intros ([inc out] & _ & [= <-])%bind_ok. Qed.

(** The heights of the chains of a restored channel, and the rest of it. *)
Record restored (n : node) (s : session) : Prop := {
  rs_db : ss_db s = ss_db (n_session n);
  rs_local : height <$> localCommitChain (ss_lc s) = [CommitHeight (LocalCommitment (ss_db s))];
  rs_remote : height <$> remoteCommitChain (ss_lc s)
    = CommitHeight (RemoteCommitment (ss_db s))
      :: option_list (CommitHeight ∘ cd_Commitment <$> commitDiff (ss_db s));
  rs_height : currentHeight s = CommitHeight (LocalCommitment (ss_db s));
  rs_producer : ss_Producer s = ss_Producer (n_session n);
  rs_store : ss_Store s = dk_Store (n_disk n);
  rs_current : RemoteCurrentRevocation s = dk_Current (n_disk n);
  rs_next : RemoteNextRevocation s = dk_Next (n_disk n);
}.

Lemma restore_ok n s : NewLightningChannel n = Ok s -> restored n s.
Proof.
  intros (lc & Hlc & [= <-])%bind_ok.
  unfold restoreCommitState in Hlc.
  apply bind_ok in Hlc as (secret & _ & Hlc).
  apply bind_ok in Hlc as (lcm & Hl%diskCommit_height & Hlc).
  apply bind_ok in Hlc as (rcm & Hr%diskCommit_height & Hlc).
  apply bind_ok in Hlc as (pend & Hp & Hlc).
  apply restoreStateLogs_chains in Hlc as [Hcl Hcr].
  split; simpl; try done.
  - rewrite Hcl. simpl. by rewrite Hl.
  - rewrite Hcr. simpl. rewrite Hr. f_equal.
    destruct (commitDiff (ss_db (n_session n))) as [diff|]; [|by injection Hp as <-].
    apply bind_ok in Hp as (c & Hc%diskCommit_height & Hp).
    destruct (dk_Next (n_disk n)); [|done]. injection Hp as <-. simpl. by rewrite Hc.
Qed.

End Dance.
