(* ===== verification/ChanSyncThms.v ===== *)
(** * Reestablishing a connection: nothing is lost and nothing is sent twice

    Two parties with the database of a channel each, their connection, and everything that
    can happen to it: updates, signatures, commitments received, revocations sent and
    received, failing operations, lost connections and new ones.  In every world that can
    be reached, a party that reestablishes sends exactly the commitment signature and the
    revocation that the other has not processed, in the order in which it sent them
    first. *)

From Stdlib Require Import Lia.
From S2P Require Import Prelude Sha256 Shachain Ids Amounts UpdateLog Channel ChannelEval ChannelInv ChannelThms CommitTx CommitDance CommitThms ChanSync ChanSyncInv.

Section World.
Context `{Hasher} `{Scripts} `{Crypto}.

(** ** Two parties *)

(** What a party does on a connection: it changes its logs, on its own or because of a
    message, telling the other anything about it; the four operations on commitments. *)
Inductive party_op :=
  | PUpdate (op : chan_op) (told : list update_msg)
  | PSign (db : res unit)
  | PReceiveSig (commitSig : list byte) (htlcSigs : list (list byte))
  | PRevoke (db : res unit)
  | PReceiveRevoke (m : RevokeAndAck) (db : res unit).

Definition with_session (n : node) (s : session) : node :=
  {| n_session := s; n_disk := n_disk n |}.

(** [UpdateCommitment] writes the totals and [AdvanceCommitChainTail] the revocation
    state next to the bucket. *)
Definition write_info (n : node) : node :=
  let d := n_disk n in
  {| n_session := n_session n;
     n_disk := {| dk_state := channelState (ss_lc (n_session n)); dk_Store := dk_Store d;
                  dk_Current := dk_Current d; dk_Next := dk_Next d |} |}.

Definition write_revocations (n : node) : node :=
  let s := n_session n in
  {| n_session := s;
     n_disk := {| dk_state := dk_state (n_disk n); dk_Store := ss_Store s;
                  dk_Current := RemoteCurrentRevocation s; dk_Next := RemoteNextRevocation s |} |}.

(** The party after an operation and the messages it sends. *)
Definition party_step (o : party_op) (n : node) : node * res (list sync_msg) :=
  let s := n_session n in
  match o with
  | PUpdate op told =>
      let '(lc, r) := chan_step op (ss_lc s) in
      (with_session n (set_lc s lc), _ ← r; Ok (SyncUpdate <$> told))
  | PSign db =>
      let '(s', r) := SignNextCommitment s db in
      (with_session n s', '(commitSig, htlcSigs, _) ← r; Ok [SyncCommitSig commitSig htlcSigs])
  | PReceiveSig commitSig htlcSigs =>
      let '(s', r) := ReceiveNewCommitment s commitSig htlcSigs in
      (with_session n s', _ ← r; Ok [])
  | PRevoke db =>
      match RevokeCurrentCommitment s db with
      | (s', Ok (msg, _)) => (write_info (with_session n s'), Ok [SyncRevoke msg])
      | (s', Err e) => (with_session n s', Err e)
      | (s', Panic) => (with_session n s', Panic)
      end
  | PReceiveRevoke m db =>
      match ReceiveRevocation s m db with
      | (s', Ok _) => (write_revocations (with_session n s'), Ok [])
      | (s', Err e) => (with_session n s', Err e)
      | (s', Panic) => (with_session n s', Panic)
      end
  end.

(** Which operation handles which message; the others are a party's own. *)
Definition handles (m : sync_msg) (o : party_op) : Prop :=
  match m, o with
  | SyncUpdate _, PUpdate _ [] => True
  | SyncCommitSig commitSig htlcSigs, PReceiveSig commitSig' htlcSigs' =>
      commitSig' = commitSig /\ htlcSigs' = htlcSigs
  | SyncRevoke m, PReceiveRevoke m' _ => m' = m
  | _, _ => False
  end.

Definition own (o : party_op) : Prop :=
  match o with PUpdate _ _ | PSign _ | PRevoke _ => True | _ => False end.

(** The world: whether the parties are connected, the parties, and the messages on their
    way to each. *)
Record world := {
  w_up : bool;
  w_node : bool -> node;
  w_inbox : bool -> list sync_msg;
}.

Definition put {A} (f : bool -> A) (p : bool) (x : A) : bool -> A :=
  fun q => if eqb q p then x else f q.

Definition down (nodes : bool -> node) : world :=
  {| w_up := false; w_node := nodes; w_inbox := fun _ => [] |}.

(** A failing operation ends the connection. *)
Definition after (w : world) (p : bool) (rest : list sync_msg) (x : node * res (list sync_msg))
    : world :=
  let nodes := put (w_node w) p x.1 in
  match x.2 with
  | Ok out => {| w_up := true; w_node := nodes;
                 w_inbox := put (put (w_inbox w) p rest) (negb p) (w_inbox w (negb p) ++ out) |}
  | _ => down nodes
  end.

Definition LastWasRevoke_ (s : session) : bool := default false (lastWasRevoke (ss_db s)).

(** A party restores its channel and handles the other's message. *)
Definition resync (n : node) (msg : ChannelReestablish) (db : res unit) (s : session)
    : node * res (list sync_msg) :=
  let '(s', r) := ProcessChanSyncMsg s (LastWasRevoke_ s) msg db in
  (with_session n s', '(msgs, _, _) ← r; Ok msgs).

(** A new connection; whatever was on its way is lost. *)
Definition reconnected (w : world) (x y : node * res (list sync_msg)) : world :=
  let nodes := fun p : bool => if p then x.1 else y.1 in
  match x.2, y.2 with
  | Ok toFalse, Ok toTrue =>
      {| w_up := true; w_node := nodes; w_inbox := fun p : bool => if p then toTrue else toFalse |}
  | _, _ => down nodes
  end.

Inductive world_step : world -> world -> Prop :=
  | step_own w p o : w_up w = true -> own o ->
      world_step w (after w p (w_inbox w p) (party_step o (w_node w p)))
  | step_receive w p m rest o : w_up w = true -> w_inbox w p = m :: rest -> handles m o ->
      world_step w (after w p rest (party_step o (w_node w p)))
  | step_disconnect w : world_step w (down (w_node w))
  | step_reconnect w s1 s2 msg1 msg2 db1 db2 :
      NewLightningChannel (w_node w true) = Ok s1 -> NewLightningChannel (w_node w false) = Ok s2 ->
      ChanSyncMsg s1 = Ok msg1 -> ChanSyncMsg s2 = Ok msg2 ->
      world_step w (reconnected w (resync (w_node w true) msg2 db1 s1)
                      (resync (w_node w false) msg1 db2 s2)).

(** ** What a party owes the other *)

(** [roots p] is what the secrets of [p] are derived from. *)
Context (roots : bool -> list byte).

Definition secret (p : bool) (v : Z) : list byte := descend rootIndex (roots p) (startIndex - v).
Definition point (p : bool) (v : Z) : list byte := ComputeCommitmentPoint (secret p v).

Definition db_of (w : world) (p : bool) : chan_db := ss_db (n_session (w_node w p)).
Definition local_height (w : world) (p : bool) : Z := CommitHeight (LocalCommitment (db_of w p)).
Definition remote_height (w : world) (p : bool) : Z := CommitHeight (RemoteCommitment (db_of w p)).

(** The pending commitment, when the other has not revoked for it. *)
Definition owes_sig (w : world) (p : bool) : option CommitDiff :=
  if local_height w (negb p) =? remote_height w p then commitDiff (db_of w p) else None.

(** Whether the other is still waiting for a revocation. *)
Definition owes_revocation (w : world) (p : bool) : bool :=
  remote_height w (negb p) <? local_height w p.

Definition sig_msg (d : CommitDiff) : sync_msg := SyncCommitSig (cd_CommitSig d) (cd_HtlcSigs d).

Definition last_revocation (w : world) (p : bool) : RevokeAndAck :=
  {| Revocation := secret p (local_height w p - 1);
     NextRevocationKey := point p (local_height w p + 1) |}.

(** In the order in which they were produced. *)
Definition owed (w : world) (p : bool) : list sync_msg :=
  let sigs := option_list (sig_msg <$> owes_sig w p) in
  let revs := if owes_revocation w p then [SyncRevoke (last_revocation w p)] else [] in
  if default false (lastWasRevoke (db_of w p)) then sigs ++ revs else revs ++ sigs.

Definition is_chain_msg (m : sync_msg) : bool :=
  match m with SyncUpdate _ => false | _ => true end.

(** Signatures and revocations only. *)
Definition chain_msgs (l : list sync_msg) : list sync_msg := filter is_chain_msg l.

(** What [p] has sent and the other has not acted upon: a commitment it received and has
    not revoked for, and what is still on its way. *)
Definition undelivered (w : world) (p : bool) : list sync_msg :=
  (if hasUnackedCommitment (localCommitChain (ss_lc (n_session (w_node w (negb p)))))
   then option_list (sig_msg <$> commitDiff (db_of w p)) else [])
  ++ chain_msgs (w_inbox w (negb p)).

(** A channel that was just opened and not yet connected: both parties hold the other's
    first two points. *)
Record opened (w : world) : Prop := {
  op_down : w_up w = false;
  op_producer p : ss_Producer (n_session (w_node w p)) = NewRevocationProducer (roots p);
  op_restored p : db_Restored (db_of w p) = false;
  op_local p : local_height w p = 0;
  op_remote p : remote_height w p = 0;
  op_diff p : commitDiff (db_of w p) = None;
  op_store p : dk_Store (n_disk (w_node w p)) = NewRevocationStore;
  op_current p : dk_Current (n_disk (w_node w p)) = Some (point (negb p) 0);
  op_next p : dk_Next (n_disk (w_node w p)) = Some (point (negb p) 1);
}.

Definition reachable (w : world) : Prop := exists w0, opened w0 /\ rtc world_step w0 w.

(** ** The invariant *)

(** What the databases of the two parties know about each other. *)
Record disk_inv (w : world) (p : bool) : Prop := {
  di_producer : ss_Producer (n_session (w_node w p)) = NewRevocationProducer (roots p);
  di_restored : db_Restored (db_of w p) = false;
  di_local : 0 <= local_height w p;
  di_bound : local_height w p + 1 < 2 ^ 48;
  di_remote : 0 <= remote_height w p;
  di_diff : forall d, commitDiff (db_of w p) = Some d ->
    CommitHeight (cd_Commitment d) = remote_height w p + 1;
  di_peer : local_height w (negb p) = remote_height w p \/
    local_height w (negb p) = remote_height w p + 1 /\ is_Some (commitDiff (db_of w p));
  di_store : add_all NewRevocationStore (secrets (roots (negb p)) (Z.to_nat (remote_height w p)))
             = Ok (dk_Store (n_disk (w_node w p)));
  di_current : dk_Current (n_disk (w_node w p)) = Some (point (negb p) (remote_height w p));
  di_next : dk_Next (n_disk (w_node w p)) = Some (point (negb p) (remote_height w p + 1));
}.

(** What the memory of a connected party holds. *)
Record mem_inv (w : world) (p : bool) : Prop := {
  mi_local : height <$> localCommitChain (ss_lc (n_session (w_node w p))) = [local_height w p] \/
    height <$> localCommitChain (ss_lc (n_session (w_node w p)))
    = [local_height w p; local_height w p + 1];
  mi_remote : height <$> remoteCommitChain (ss_lc (n_session (w_node w p)))
    = remote_height w p :: option_list ((fun _ => remote_height w p + 1) <$> commitDiff (db_of w p));
  mi_height : currentHeight (n_session (w_node w p)) = local_height w p;
  mi_store : ss_Store (n_session (w_node w p)) = dk_Store (n_disk (w_node w p));
  mi_current : RemoteCurrentRevocation (n_session (w_node w p)) = dk_Current (n_disk (w_node w p));
  mi_next : RemoteNextRevocation (n_session (w_node w p)) = dk_Next (n_disk (w_node w p));
  mi_sig : hasUnackedCommitment (localCommitChain (ss_lc (n_session (w_node w p)))) = true ->
    is_Some (commitDiff (db_of w (negb p)));
  mi_queue : undelivered w p = owed w p;
}.

Definition world_inv (w : world) : Prop :=
  (forall p, disk_inv w p) /\ (w_up w = true -> forall p, mem_inv w p).

(** ** Secrets *)

Lemma AtIndex_secret p v :
  0 <= v < 2 ^ 48 -> AtIndex (NewRevocationProducer (roots p)) v = Ok (secret p v).
Proof. apply AtIndex_val. Qed.

(** The producer has no secrets past the last index. *)
Lemma AtIndex_bound p v x :
  is_u64 v -> AtIndex (NewRevocationProducer (roots p)) v = Ok x -> v < 2 ^ 48.
Proof.
  unfold is_u64. intros Hv Ha. destruct (Z.lt_ge_cases v (2 ^ 48)) as [?|Hge]; [done|].
  unfold AtIndex, NewRevocationProducer in Ha. cbn [root] in Ha.
  rewrite derive_err in Ha; [done|apply u64_range|].
  assert (newIndex v = 2 ^ 64 + startIndex - v) as ->.
  { unfold newIndex. rewrite (u64_small v) by done. rewrite startIndex_val.
    unfold u64. symmetry. apply (Z.mod_unique _ _ (-1)); [left|]; lia. }
  cbn [el_index]. unfold ancestor. rewrite root_zeros, startIndex_val.
  change (rootIndex / 2 ^ 48) with 0. intros E.
  assert (1 <= (2 ^ 64 + (2 ^ 48 - 1) - v) / 2 ^ 48) by (apply Z.div_le_lower_bound; lia). lia.
Qed.

Lemma generateRevocation_secret s p v :
  ss_Producer s = NewRevocationProducer (roots p) -> 0 <= v -> v + 2 < 2 ^ 48 ->
  generateRevocation s v = Ok {| Revocation := secret p v; NextRevocationKey := point p (v + 2) |}.
Proof.
  intros Hp H0' Hv. unfold generateRevocation. rewrite Hp, (AtIndex_secret p v) by lia. simpl.
  rewrite u64_small by (unfold is_u64; lia). by rewrite AtIndex_secret by lia.
Qed.

Lemma generateRevocation_bound s p v m :
  ss_Producer s = NewRevocationProducer (roots p) -> 0 <= v < 2 ^ 48 ->
  generateRevocation s v = Ok m -> v + 2 < 2 ^ 48.
Proof.
  intros Hp Hv. unfold generateRevocation. rewrite Hp, (AtIndex_secret p v) by lia. simpl.
  rewrite u64_small by (unfold is_u64; lia). intros (x & Hx & _)%bind_ok.
  apply AtIndex_bound in Hx; [done|unfold is_u64; lia].
Qed.

(** A store with the secrets below a height knows the last of them and takes the next. *)
Lemma store_last p n store :
  add_all NewRevocationStore (secrets (roots p) (Z.to_nat n)) = Ok store -> 0 < n ->
  LookUp store (n - 1) = Ok (secret p (n - 1)).
Proof.
  intros Ha Hn. apply (add_all_inv [] _ _ _ store_inv_new) in Ha.
  replace (n - 1) with (Z.of_nat (Z.to_nat (n - 1))) by lia.
  eapply LookUp_inv; [exact Ha|]. rewrite app_nil_l. unfold secret. apply secrets_lookup. lia.
Qed.

Lemma store_next p n store store' :
  add_all NewRevocationStore (secrets (roots p) (Z.to_nat n)) = Ok store -> 0 <= n ->
  AddNextEntry store (secret p n) = Ok store' ->
  add_all NewRevocationStore (secrets (roots p) (Z.to_nat (n + 1))) = Ok store'.
Proof.
  intros Ha Hn Hs. replace (Z.to_nat (n + 1)) with (S (Z.to_nat n)) by lia.
  rewrite secrets_S, add_all_app, Ha. simpl. by rewrite Z2Nat.id by done.
Qed.

(** ** Reestablishing between two databases *)

Lemma local_below w p : disk_inv w p -> disk_inv w (negb p) ->
  remote_height w p + 1 < 2 ^ 48 /\
  (local_height w p = remote_height w (negb p) \/
   local_height w p = remote_height w (negb p) + 1 /\ is_Some (commitDiff (db_of w (negb p)))).
Proof.
  intros [] []. rewrite negb_involutive in *. split; [|done]. lia.
Qed.

Ltac u64s := rewrite ?u64_small by (unfold is_u64; lia).

Section Resync.
Context (w : world) (p : bool) (Hp : disk_inv w p) (Hq : disk_inv w (negb p)).
Context (s s' : session).
Context (Hs : restored (w_node w p) s) (Hs' : restored (w_node w (negb p)) s').

Definition reestablish_of : ChannelReestablish :=
  let q := negb p in
  {| NextLocalCommitHeight := local_height w q + 1;
     RemoteCommitTailHeight := remote_height w q;
     LastRemoteCommitSecret := if remote_height w q =? 0 then replicate 32 x00
                               else secret p (remote_height w q - 1);
     LocalUnrevokedCommitPoint := Some (point q (local_height w q)) |}.

Lemma sync_msg_ok : ChanSyncMsg s' = Ok reestablish_of.
Proof.
  unfold ChanSyncMsg. rewrite (rs_db _ _ Hs').
  change (ss_db (n_session (w_node w (negb p)))) with (db_of w (negb p)).
  fold (local_height w (negb p)). fold (remote_height w (negb p)).
  pose proof (di_local _ _ Hq). pose proof (di_bound _ _ Hq). pose proof (di_remote _ _ Hq).
  pose proof (local_below _ _ Hp Hq) as [_ Hl].
  assert ((if remote_height w (negb p) =? 0 then Ok (replicate 32 x00)
           else LookUp (ss_Store s') (u64 (remote_height w (negb p) - 1)))
          = Ok (LastRemoteCommitSecret reestablish_of)) as ->.
  { simpl. destruct (Z.eqb_spec (remote_height w (negb p)) 0) as [|Hne]; [done|].
    pose proof (di_bound _ _ Hp). u64s. rewrite (rs_store _ _ Hs').
    pose proof (di_store _ _ Hq) as Hst. rewrite negb_involutive in Hst.
    apply store_last; [done|lia]. }
  rewrite (rs_producer _ _ Hs'), (di_producer _ _ Hq). simpl.
  rewrite AtIndex_secret by lia. simpl. rewrite (di_restored _ _ Hq). simpl. by u64s.
Qed.

Lemma last_secret_ok : check_last_secret s reestablish_of = Ok tt.
Proof.
  unfold check_last_secret. simpl. pose proof (di_remote _ _ Hq). pose proof (di_bound _ _ Hp).
  pose proof (local_below _ _ Hp Hq) as [_ Hl].
  destruct (Z.eqb_spec (remote_height w (negb p)) 0); [done|]. simpl. u64s.
  rewrite (rs_producer _ _ Hs), (di_producer _ _ Hp), AtIndex_secret by lia. simpl.
  by rewrite bool_decide_true.
Qed.

(** The chains of the restored channel. *)
Lemma restored_tails : exists lt rt rp,
  localCommitChain (ss_lc s) = [lt] /\ remoteCommitChain (ss_lc s) = rt :: rp /\
  height lt = local_height w p /\ height rt = remote_height w p /\
  tip (remoteCommitChain (ss_lc s)) = Ok (default rt (last rp)) /\
  match commitDiff (db_of w p) with
  | None => rp = []
  | Some _ => exists c, rp = [c] /\ height c = remote_height w p + 1
  end.
Proof.
  pose proof (rs_local _ _ Hs) as Hl. pose proof (rs_remote _ _ Hs) as Hr.
  pose proof (di_diff _ _ Hp) as Hd.
  rewrite (rs_db _ _ Hs) in Hl, Hr.
  change (ss_db (n_session (w_node w p))) with (db_of w p) in *.
  fold (local_height w p) in Hl. fold (remote_height w p) in Hr.
  destruct (localCommitChain (ss_lc s)) as [|lt [|]]; simplify_eq/=.
  destruct (remoteCommitChain (ss_lc s)) as [|rt rp]; [done|]. simpl in Hr.
  injection Hr as Hrt Hrp. exists lt, rt, rp. do 4 (split; [done|]). split.
  - unfold tip. destruct rp as [|c rp]; [done|]. rewrite last_cons_cons.
    destruct (last (c :: rp)) eqn:E; [done|]. by apply last_None in E.
  - destruct (commitDiff (db_of w p)) as [d|]; simpl in Hrp.
    + destruct rp as [|c [|]]; simplify_eq/=. exists c. split; [done|].
      match goal with E : height c = _ |- _ => rewrite E end. by apply Hd.
    + by destruct rp.
Qed.

Definition revs : list sync_msg :=
  if owes_revocation w p then [SyncRevoke (last_revocation w p)] else [].

(** The ways [ProcessChanSyncMsg] can end: with the messages [out]; with a fresh signature
    after them; or with the failure of that signature. *)
Inductive ends {A} (db : res unit) (out : list sync_msg) (result : list sync_msg -> A)
    : session -> res A -> Prop :=
  | ends_same s1 : ss_db s1 = ss_db s -> same_chains (ss_lc s) (ss_lc s1) -> same_rest s s1 ->
      currentHeight s1 = currentHeight s -> ends db out result s1 (Ok (result out))
  | ends_fresh s1 cs hs x : owes_revocation w p = true -> commitDiff (db_of w p) = None ->
      SignNextCommitment s db = (s1, Ok (cs, hs, x)) ->
      ends db out result s1 (Ok (result (out ++ [SyncCommitSig cs hs])))
  | ends_err s1 e : owes_revocation w p = true -> SignNextCommitment s db = (s1, Err e) ->
      ends db out result s1 (Err e)
  | ends_panic s1 : owes_revocation w p = true -> SignNextCommitment s db = (s1, Panic) ->
      ends db out result s1 Panic.

Lemma restored_generate : owes_revocation w p = true ->
  generateRevocation s (u64 (local_height w p - 1)) = Ok (last_revocation w p).
Proof.
  unfold owes_revocation. intros Ho%Z.ltb_lt. pose proof (di_remote _ _ Hq).
  pose proof (di_bound _ _ Hp). u64s. rewrite (generateRevocation_secret _ p); [|by rewrite (rs_producer _ _ Hs); apply Hp|lia|lia].
  unfold last_revocation. do 2 f_equal. f_equal. lia.
Qed.

Lemma sign_no_diff db s1 x : SignNextCommitment s db = (s1, Ok x) -> commitDiff (db_of w p) = None.
Proof.
  intros (_ & _ & Hx)%sign_cases. destruct x as [[cs hs] x]. destruct Hx as (t & c & d & Hsg).
  pose proof (sg_window _ _ _ _ _ _ _ Hsg) as Hwin.
  destruct restored_tails as (lt & rt & rp & _ & Hr & _ & _ & _ & Hd).
  destruct (commitDiff (db_of w p)); [|done]. destruct Hd as (c' & -> & _). by rewrite Hr in Hwin.
Qed.

Lemma sync_local_ok db :
  let '(s1, r) := sync_local s reestablish_of (local_height w p) db in ends db revs id s1 r.
Proof.
  destruct restored_tails as (lt & rt & rp & Hl & Hr & _ & _ & Htip & _).
  destruct (local_below w p Hp Hq) as [_ Hloc].
  pose proof (di_remote _ _ Hq). pose proof (di_bound _ _ Hp).
  unfold sync_local. simpl. rewrite (rs_db _ _ Hs). fold (db_of w p). rewrite (di_restored _ _ Hp).
  unfold revs. u64s. destruct Hloc as [Hloc|[Hloc _]].
  - assert (owes_revocation w p = false) as -> by (unfold owes_revocation; apply Z.ltb_ge; lia).
    rewrite Hloc, Z.ltb_irrefl, Z.eqb_refl, (proj2 (Z.ltb_ge _ _)) by lia.
    by apply (ends_same db []).
  - assert (owes_revocation w p = true) as Ho by (unfold owes_revocation; apply Z.ltb_lt; lia).
    rewrite restored_generate, Ho by done.
    rewrite Hloc, (proj2 (Z.ltb_ge (_ + 1) _)), Z.ltb_irrefl, Z.eqb_refl by lia. simpl.
    rewrite (proj2 (Z.eqb_neq _ _)) by lia.
    assert (exists b, oweCommitment (ss_lc s) true = Ok b) as [b ->].
    { unfold oweCommitment. rewrite Hl, Htip. simpl. eauto. }
    destruct b; [|by apply (ends_same db [SyncRevoke _] id)].
    destruct (SignNextCommitment s db) as [s1 r] eqn:Hsign.
    destruct r as [[[cs hs] x]|e|].
    + by eapply (ends_fresh db [SyncRevoke _] id); [|eapply sign_no_diff|].
    + case_bool_decide; [|by apply ends_err].
      apply sign_cases in Hsign as (? & ? & ? & ?). by apply (ends_same db [SyncRevoke _] id).
    + by apply ends_panic.
Qed.

(** The updates of the pending commitment and its signature. *)
Definition commit_updates (d : CommitDiff) : list sync_msg :=
  (SyncUpdate ∘ UpdateMsg <$> cd_LogUpdates d) ++ [sig_msg d].

Definition in_order (updates : list sync_msg) : list sync_msg :=
  let sigs := match owes_sig w p with Some d => commit_updates d | None => [] end in
  if default false (lastWasRevoke (db_of w p)) then sigs ++ updates else updates ++ sigs.

(** What is sent again. *)
Definition resent : list sync_msg := in_order revs.

Definition circuits : list CircuitKey * list CircuitKey :=
  match owes_sig w p with
  | Some d => (OpenedCircuitKeys d, ClosedCircuitKeys d)
  | None => ([], [])
  end.

Lemma sync_remote_ok d' tipHeight updates :
  (owes_sig w p = None \/ commitDiff d' = commitDiff (db_of w p)) ->
  tipHeight = remote_height w p + match commitDiff (db_of w p) with Some _ => 1 | None => 0 end ->
  sync_remote d' (default false (lastWasRevoke (db_of w p))) reestablish_of
    (remote_height w p) tipHeight updates
  = Ok (in_order updates, circuits.1, circuits.2).
Proof.
  intros Hd ->. pose proof (di_peer _ _ Hp) as Hpeer.
  destruct (local_below w p Hp Hq) as [Hb _]. pose proof (di_remote _ _ Hp).
  unfold sync_remote, in_order, circuits, owes_sig in *. simpl.
  destruct Hpeer as [Hpeer|[Hpeer [d Hdd]]]; rewrite Hpeer in *.
  - rewrite Z.eqb_refl in *. destruct (commitDiff (db_of w p)) as [d|]; u64s.
    + rewrite (proj2 (Z.ltb_ge _ _)), (proj2 (Z.leb_gt _ _)), Z.eqb_refl,
        (proj2 (Z.eqb_neq _ _)) by lia.
      destruct Hd as [?| ->]; [done|]. by destruct (default false _).
    + rewrite Z.add_0_r. rewrite (proj2 (Z.ltb_ge _ _)), (proj2 (Z.leb_gt _ _)), Z.eqb_refl by lia.
      destruct (default false _); by rewrite ?app_nil_r.
  - rewrite (proj2 (Z.eqb_neq (remote_height w p + 1) _)) by lia. rewrite Hdd. u64s.
    rewrite (proj2 (Z.ltb_ge _ _)), (proj2 (Z.leb_gt _ _)), Z.eqb_refl by lia.
    destruct (default false _); by rewrite ?app_nil_r.
Qed.

Lemma commit_point_ok s1 : same_rest s s1 ->
  check_commit_point s1 reestablish_of (remote_height w p) = Ok tt.
Proof.
  intros [_ _ Hc Hn]. rewrite (rs_current _ _ Hs), (di_current _ _ Hp) in Hc.
  rewrite (rs_next _ _ Hs), (di_next _ _ Hp) in Hn.
  destruct (local_below w p Hp Hq) as [Hb _]. pose proof (di_remote _ _ Hp).
  unfold check_commit_point. simpl. u64s.
  destruct (di_peer _ _ Hp) as [->|[-> _]].
  - rewrite Z.eqb_refl, Hc, bool_decide_true by done. by rewrite andb_false_r.
  - rewrite (proj2 (Z.eqb_neq _ _)) by lia. replace (remote_height w p + 1 + 1) with (remote_height w p + 2) by lia.
    rewrite Z.eqb_refl, Hn, bool_decide_true by done. by rewrite andb_false_r.
Qed.

Lemma process_ok db :
  let '(s1, r) := ProcessChanSyncMsg s (LastWasRevoke_ s) reestablish_of db in
  ends db resent (fun out => (out, circuits.1, circuits.2)) s1 r.
Proof.
  destruct restored_tails as (lt & rt & rp & Hl & Hr & Hhl & Hhr & Htip & Hd).
  unfold ProcessChanSyncMsg, LastWasRevoke_. rewrite last_secret_ok, Htip, Hl, Hr. simpl.
  rewrite Hhl, Hhr, (rs_db _ _ Hs). fold (db_of w p).
  assert (height (default rt (last rp))
          = remote_height w p + match commitDiff (db_of w p) with Some _ => 1 | None => 0 end) as Ht.
  { destruct (commitDiff (db_of w p)); [by destruct Hd as (? & -> & <-)|]. subst rp. simpl. lia. }
  pose proof (sync_local_ok db) as He. destruct (sync_local _ _ _ _) as [s1 r].
  inversion He as [s2 Hdb Hch Hre Hh|s2 cs hs x Ho Hnd Hsign|s2 e Ho Hsign|s2 Ho Hsign]; subst; simpl.
  - rewrite sync_remote_ok; [|right; by rewrite Hdb, (rs_db _ _ Hs)|done]. simpl.
    rewrite commit_point_ok by done. rsimpl.
    by apply (ends_same db resent (fun out => (out, circuits.1, circuits.2))).
  - assert (owes_sig w p = None) as Hos by (unfold owes_sig; rewrite Hnd; by destruct (_ =? _)).
    rewrite sync_remote_ok; [|by left|done]. simpl.
    rewrite commit_point_ok by (by apply sign_cases in Hsign as [? _]). rsimpl.
    replace (in_order (revs ++ [SyncCommitSig cs hs])) with (resent ++ [SyncCommitSig cs hs]).
    + by eapply (ends_fresh db resent (fun out => (out, circuits.1, circuits.2))).
    + unfold resent, in_order. rewrite Hos. by destruct (default false _); rewrite ?app_nil_r.
  - by apply ends_err.
  - by apply ends_panic.
Qed.

End Resync.

(** ** Steps of one party *)

Lemma both (P : bool -> Prop) p : P p -> P (negb p) -> forall q, P q.
Proof. by destruct p; intros ?? []. Qed.

(** Party [p] moved to [n'], leaving [rest] in its inbox and sending [out]. *)
Record moved (w : world) (p : bool) (n' : node) (rest out : list sync_msg) (w' : world) : Prop := {
  mv_node : w_node w' p = n';
  mv_peer : w_node w' (negb p) = w_node w (negb p);
  mv_inbox : w_inbox w' p = rest;
  mv_sent : w_inbox w' (negb p) = w_inbox w (negb p) ++ out;
}.

Lemma after_moved w p rest n' out : moved w p n' rest out (after w p rest (n', Ok out)).
Proof. by destruct p. Qed.

Lemma after_nodes w p rest x q : w_node (after w p rest x) q = if eqb q p then x.1 else w_node w q.
Proof. unfold after. by destruct x as [n [out|e|]]. Qed.

(** What a party's part of the invariant of the databases depends on. *)
Record same_disk (n n' : node) : Prop := {
  sd_db : ss_db (n_session n') = ss_db (n_session n);
  sd_producer : ss_Producer (n_session n') = ss_Producer (n_session n);
  sd_store : dk_Store (n_disk n') = dk_Store (n_disk n);
  sd_current : dk_Current (n_disk n') = dk_Current (n_disk n);
  sd_next : dk_Next (n_disk n') = dk_Next (n_disk n);
}.

#[local] Hint Extern 0 (same_disk _ _) => (by split) : core.

Lemma disk_inv_same w w' :
  (forall q, same_disk (w_node w q) (w_node w' q)) ->
  (forall q, disk_inv w q) -> forall q, disk_inv w' q.
Proof.
  intros Hsame Hd q. destruct (Hd q) as [D1 D2 D3 D4 D5 D6 D7 D8 D9 D10].
  assert (forall x, db_of w' x = db_of w x) as Edb by (intros x; apply Hsame).
  destruct (Hsame q) as [_ Ep Es Ec En].
  split; unfold local_height, remote_height in *; rewrite ?Edb, ?Ep, ?Es, ?Ec, ?En; auto.
Qed.

Lemma owed_ext w w' p :
  db_of w' p = db_of w p -> local_height w' (negb p) = local_height w (negb p) ->
  remote_height w' (negb p) = remote_height w (negb p) -> owed w' p = owed w p.
Proof.
  intros E1 E2 E3. unfold owed, owes_sig, owes_revocation, last_revocation.
  unfold local_height, remote_height in *. by rewrite !E1, !E2, !E3.
Qed.

Lemma undelivered_ext w w' p :
  localCommitChain (ss_lc (n_session (w_node w' (negb p))))
  = localCommitChain (ss_lc (n_session (w_node w (negb p)))) ->
  commitDiff (db_of w' p) = commitDiff (db_of w p) ->
  chain_msgs (w_inbox w' (negb p)) = chain_msgs (w_inbox w (negb p)) ->
  undelivered w' p = undelivered w p.
Proof. intros E1 E2 E3. unfold undelivered. by rewrite E1, E2, E3. Qed.

Lemma chain_msgs_app l k : chain_msgs (l ++ k) = chain_msgs l ++ chain_msgs k.
Proof. apply filter_app. Qed.

Lemma chain_msgs_updates us : chain_msgs (SyncUpdate <$> us) = [].
Proof. by induction us. Qed.

(** A party that changes neither its chains nor its database. *)
Lemma quiet_inv w w' p n' rest out :
  world_inv w -> w_up w = true -> moved w p n' rest out w' ->
  same_disk (w_node w p) n' -> same_chains (ss_lc (n_session (w_node w p))) (ss_lc (n_session n')) ->
  same_rest (n_session (w_node w p)) (n_session n') ->
  currentHeight (n_session n') = currentHeight (n_session (w_node w p)) ->
  chain_msgs rest = chain_msgs (w_inbox w p) -> chain_msgs out = [] -> world_inv w'.
Proof.
  intros [Hd Hm] Hup Hmv Hsd Hsc Hsr Hh Hrest Hout. specialize (Hm Hup).
  destruct Hmv as [Mn Mp Mi Ms].
  assert (forall q, same_disk (w_node w q) (w_node w' q)) as Hall
    by (apply (both _ p); [by rewrite Mn|by rewrite Mp]).
  split; [by eapply disk_inv_same|]. intros _.
  assert (forall x, db_of w' x = db_of w x) as Edb by (intros x; apply Hall).
  assert (forall x, localCommitChain (ss_lc (n_session (w_node w' x)))
                    = localCommitChain (ss_lc (n_session (w_node w x)))) as El
    by (apply (both _ p); [rewrite Mn; apply Hsc|by rewrite Mp]).
  assert (forall x, remoteCommitChain (ss_lc (n_session (w_node w' x)))
                    = remoteCommitChain (ss_lc (n_session (w_node w x)))) as Er
    by (apply (both _ p); [rewrite Mn; apply Hsc|by rewrite Mp]).
  assert (forall x, chain_msgs (w_inbox w' x) = chain_msgs (w_inbox w x)) as Ei
    by (apply (both _ p); [by rewrite Mi|by rewrite Ms, chain_msgs_app, Hout, app_nil_r]).
  assert (forall x, same_rest (n_session (w_node w x)) (n_session (w_node w' x))) as Esr
    by (apply (both _ p); [by rewrite Mn|by rewrite Mp]).
  assert (forall x, currentHeight (n_session (w_node w' x)) = currentHeight (n_session (w_node w x)))
    as Ehh by (apply (both _ p); [by rewrite Mn|by rewrite Mp]).
  intros x. destruct (Hm x) as [M1 M2 M3 M4 M5 M6 M7 M8], (Esr x) as [_ Y1 Y2 Y3], (Hall x) as [_ _ Z1 Z2 Z3].
  split; unfold local_height, remote_height in *; rewrite ?El, ?Er, ?Edb, ?Ehh, ?Y1, ?Y2, ?Y3, ?Z1, ?Z2, ?Z3; auto.
  rewrite (undelivered_ext w), (owed_ext w); unfold local_height, remote_height;
    rewrite ?Edb; auto.
Qed.

(** A connection that ends without a write to a database. *)
Lemma down_inv w nodes :
  (forall q, disk_inv w q) -> (forall q, same_disk (w_node w q) (nodes q)) -> world_inv (down nodes).
Proof. intros Hd Hs. split; [by eapply (disk_inv_same w)|done]. Qed.

Lemma failed_inv w p rest n' r :
  world_inv w -> same_disk (w_node w p) n' -> (forall out, r <> Ok out) ->
  world_inv (after w p rest (n', r)).
Proof.
  intros [Hd _] Hsd Hr. unfold after. simpl.
  destruct r as [out|e|]; [by destruct (Hr out)| |];
    (apply (down_inv w); [done|]; intros q; unfold put; destruct (eqb_spec q p) as [->|]; by try apply Hsd).
Qed.

Lemma failed_rest w p rest s1 r :
  world_inv w -> same_rest (n_session (w_node w p)) s1 ->
  ss_db s1 = ss_db (n_session (w_node w p)) -> (forall out, r <> Ok out) ->
  world_inv (after w p rest (with_session (w_node w p) s1, r)).
Proof. intros Hw [] Hdb Hr. apply failed_inv; [done|by split|done]. Qed.

(** The heights in memory. *)
Lemma remote_tip w p t :
  mem_inv w p -> tip (remoteCommitChain (ss_lc (n_session (w_node w p)))) = Ok t ->
  hasUnackedCommitment (remoteCommitChain (ss_lc (n_session (w_node w p)))) = false ->
  commitDiff (db_of w p) = None /\ height t = remote_height w p /\
  remoteCommitChain (ss_lc (n_session (w_node w p))) = [t].
Proof.
  intros [_ Hr _ _ _ _ _ _]. destruct (remoteCommitChain _) as [|c [|c' l]]; intros Ht Hw; [done| |done].
  injection Ht as ->. destruct (commitDiff (db_of w p)); by simplify_eq/=.
Qed.

(** The database of the party after signing. *)
Lemma append_db d diff db d' :
  AppendRemoteCommitChain d diff db = Ok d' ->
  LocalCommitment d' = LocalCommitment d /\ RemoteCommitment d' = RemoteCommitment d /\
  commitDiff d' = Some diff /\ lastWasRevoke d' = Some false /\ db_Restored d' = db_Restored d.
Proof. by intros (u & _ & [= <-])%bind_ok. Qed.

(** Signing adds the commitment to the database: it is owed. *)
Lemma disk_inv_signed w w' p n' d :
  (forall q, disk_inv w q) -> w_node w' p = n' -> w_node w' (negb p) = w_node w (negb p) ->
  LocalCommitment (ss_db (n_session n')) = LocalCommitment (db_of w p) ->
  RemoteCommitment (ss_db (n_session n')) = RemoteCommitment (db_of w p) ->
  db_Restored (ss_db (n_session n')) = db_Restored (db_of w p) ->
  ss_Producer (n_session n') = ss_Producer (n_session (w_node w p)) ->
  n_disk n' = n_disk (w_node w p) -> commitDiff (db_of w p) = None ->
  commitDiff (ss_db (n_session n')) = Some d ->
  CommitHeight (cd_Commitment d) = remote_height w p + 1 -> forall q, disk_inv w' q.
Proof.
  intros Hd Mn Mp El Er Eres Epr Edk Hn Hs Hh.
  apply (both _ p).
  - destruct (Hd p) as [D1 D2 D3 D4 D5 D6 D7 D8 D9 D10].
    split; unfold local_height, remote_height, db_of in *; rewrite ?Mp, ?Mn, ?El, ?Er, ?Eres, ?Epr, ?Edk;
      auto.
    + rewrite Hs. by intros ? [= <-].
    + rewrite Hn in D7. left. by destruct D7 as [?|[_ [? ?]]].
  - destruct (Hd (negb p)) as [D1 D2 D3 D4 D5 D6 D7 D8 D9 D10].
    unfold local_height, remote_height, db_of in *. rewrite negb_involutive in *.
    split; unfold local_height, remote_height, db_of; rewrite ?negb_involutive, ?Mp, ?Mn, ?El; auto.
Qed.

Lemma owed_signed w w' p n' d :
  w_node w' p = n' -> w_node w' (negb p) = w_node w (negb p) -> disk_inv w p ->
  LocalCommitment (ss_db (n_session n')) = LocalCommitment (db_of w p) ->
  RemoteCommitment (ss_db (n_session n')) = RemoteCommitment (db_of w p) ->
  commitDiff (db_of w p) = None -> commitDiff (ss_db (n_session n')) = Some d ->
  lastWasRevoke (ss_db (n_session n')) = Some false ->
  owed w' p = owed w p ++ [sig_msg d].
Proof.
  intros Mn Mp Hd El Er Hn Hs Hlw. pose proof (di_peer _ _ Hd) as Hpeer. rewrite Hn in Hpeer.
  destruct Hpeer as [Hpeer|[_ [? ?]]]; [|done].
  unfold owed, owes_sig, owes_revocation, last_revocation, local_height, remote_height, db_of in *.
  rewrite Mp, Mn, El, Er, Hs, Hlw, Hn, Hpeer, Z.eqb_refl. simpl.
  destruct (default false _); by rewrite ?app_nil_r.
Qed.

Lemma sign_inv w w' p db s1 cs hs x :
  world_inv w -> w_up w = true ->
  SignNextCommitment (n_session (w_node w p)) db = (s1, Ok (cs, hs, x)) ->
  moved w p (with_session (w_node w p) s1) (w_inbox w p) [SyncCommitSig cs hs] w' -> world_inv w'.
Proof.
  intros [Hd Hm] Hup Hsign [Mn Mp Mi Ms]. specialize (Hm Hup).
  apply sign_cases in Hsign as (Hsr & Hch & t & c0 & d & [Hwin Htip Hh Hl Hr [db' Hdb] Hdh Hsg Hhs]).
  destruct (remote_tip w p t (Hm p) Htip Hwin) as (Hnone & Ht & Htl).
  apply append_db in Hdb as (El & Er & Es & Elw & Eres).
  destruct (local_below w p (Hd p) (Hd (negb p))) as [Hb _]. pose proof (di_remote _ _ (Hd p)).
  assert (height c0 = remote_height w p + 1) as Hc0 by (rewrite Hh, Ht; u64s; lia).
  assert (hasUnackedCommitment (localCommitChain (ss_lc (n_session (w_node w (negb p))))) = false) as Hun.
  { apply not_true_is_false. intros Hq%(mi_sig _ _ (Hm (negb p))). rewrite negb_involutive, Hnone in Hq.
    by destruct Hq. }
  split; [eapply (disk_inv_signed w w' p _ d Hd Mn Mp); simpl; first [done|apply Hsr|congruence]|].
  intros _. apply (both _ p).
  - destruct (Hm p) as [M1 M2 M3 M4 M5 M6 M7 M8], Hsr as [Y0 Y1 Y2 Y3].
    split; unfold local_height, remote_height, db_of in *; rewrite ?Mn, ?Mp; simpl;
      rewrite ?El, ?Er, ?Hl, ?Hch, ?Y1, ?Y2, ?Y3; auto.
    + rewrite Hr, Htl, Es. simpl. by rewrite Ht, Hc0.
    + fold (owed w' p). rewrite (owed_signed w w' p _ d Mn Mp (Hd p)) by done. rewrite <- M8.
      unfold undelivered. rewrite Mp, Hun, Ms, chain_msgs_app. unfold sig_msg. by rewrite Hsg, Hhs.
  - destruct (Hm (negb p)) as [M1 M2 M3 M4 M5 M6 M7 M8].
    unfold undelivered, local_height, remote_height, db_of in *. rewrite negb_involutive in *.
    split; unfold undelivered, local_height, remote_height, db_of; rewrite ?negb_involutive, ?Mn, ?Mp, ?Mi; simpl;
      rewrite ?Hl; auto.
    rewrite M8. symmetry. apply owed_ext; unfold local_height, remote_height, db_of;
      rewrite ?negb_involutive, ?Mp, ?Mn; simpl; by rewrite ?El, ?Er.
Qed.

(** At most one signature is owed. *)
Lemma owed_sig w p cs hs l :
  owed w p = SyncCommitSig cs hs :: l ->
  (exists d, owes_sig w p = Some d /\ commitDiff (db_of w p) = Some d /\ sig_msg d = SyncCommitSig cs hs) /\
  forall cs' hs', SyncCommitSig cs' hs' ∉ l.
Proof.
  assert (forall d, owes_sig w p = Some d -> commitDiff (db_of w p) = Some d) as Hod
    by (unfold owes_sig; intros d; by case_match).
  unfold owed. destruct (owes_sig w p) as [d|]; simpl;
    destruct (owes_revocation w p), (default false _); simpl; intros E; simplify_eq;
    (split; [exists d; split_and!; auto|set_solver]).
Qed.

Lemma local_single w p :
  mem_inv w p -> hasUnackedCommitment (localCommitChain (ss_lc (n_session (w_node w p)))) = false ->
  exists t, localCommitChain (ss_lc (n_session (w_node w p))) = [t] /\ height t = local_height w p.
Proof.
  intros [Hl _ _ _ _ _ _ _]. destruct (localCommitChain _) as [|t [|t' l]]; [by destruct Hl| |done].
  intros _. exists t. split; [done|]. by destruct Hl; simplify_eq/=.
Qed.

Lemma receive_sig_inv w w' p cs hs rest s1 :
  world_inv w -> w_up w = true -> w_inbox w p = SyncCommitSig cs hs :: rest ->
  ReceiveNewCommitment (n_session (w_node w p)) cs hs = (s1, Ok tt) ->
  moved w p (with_session (w_node w p) s1) rest [] w' -> world_inv w'.
Proof.
  intros [Hd Hm] Hup Hin Hrec [Mn Mp Mi Ms]. specialize (Hm Hup). rewrite app_nil_r in Ms.
  apply receive_commitment_cases in Hrec as (Hsr & Hch & Hdb & Hr & t & c0 & Htip & Hh & Hl).
  pose proof (mi_queue _ _ (Hm (negb p))) as Hqueue. unfold undelivered in Hqueue.
  rewrite negb_involutive, Hin in Hqueue.
  destruct (hasUnackedCommitment (localCommitChain (ss_lc (n_session (w_node w p))))) eqn:Hun.
  { destruct (mi_sig _ _ (Hm p) Hun) as [d Hdiff]. rewrite Hdiff in Hqueue. symmetry in Hqueue.
    simpl in Hqueue. apply owed_sig in Hqueue as [_ Hno]. exfalso. eapply Hno. left. }
  symmetry in Hqueue. pose proof Hqueue as Hqueue'.
  apply owed_sig in Hqueue' as [(d & _ & Hdiff & Hsig) _].
  destruct (local_single w p (Hm p) Hun) as (t' & Hl0 & Ht). rewrite Hl0 in *. injection Htip as ->.
  pose proof (di_local _ _ (Hd p)). pose proof (di_bound _ _ (Hd p)).
  assert (height c0 = local_height w p + 1) as Hc0 by (rewrite Hh, Ht; u64s; lia).
  assert (forall q, same_disk (w_node w q) (w_node w' q)) as Hall.
  { apply (both _ p); [rewrite Mn|by rewrite Mp]. split; try done; [apply Hsr]. }
  assert (forall x, db_of w' x = db_of w x) as Edb by (intros x; apply Hall).
  split; [by eapply disk_inv_same|]. intros _.
  apply (both _ p).
  - destruct (Hm p) as [M1 M2 M3 M4 M5 M6 M7 M8], Hsr as [Y0 Y1 Y2 Y3].
    split; unfold local_height, remote_height in *; rewrite ?Edb, ?Mn; simpl;
      rewrite ?Hr, ?Hch, ?Y1, ?Y2, ?Y3; auto.
    + right. rewrite Hl. simpl. by rewrite Ht, Hc0.
    + rewrite (undelivered_ext w), (owed_ext w); unfold local_height, remote_height;
        rewrite ?Edb, ?Mp, ?Ms; auto.
  - destruct (Hm (negb p)) as [M1 M2 M3 M4 M5 M6 M7 M8].
    split; unfold local_height, remote_height in *; rewrite ?Edb, ?Mp; auto.
    rewrite (owed_ext w) by (unfold local_height, remote_height; by rewrite ?Edb).
    rewrite Hqueue. unfold undelivered. rewrite negb_involutive, Mn, Mi, Edb. simpl.
    rewrite Hl, Hdiff. simpl. by rewrite Hsig.
Qed.

Lemma owed_tail w p d l :
  commitDiff (db_of w p) = Some d -> owed w p = sig_msg d :: l ->
  l = revs w p /\ local_height w (negb p) = remote_height w p.
Proof.
  intros Hd. unfold owed, owes_sig. fold (revs w p).
  assert (forall x, SyncRevoke x <> sig_msg d) as Hne by done.
  destruct (Z.eqb_spec (local_height w (negb p)) (remote_height w p)); rewrite ?Hd;
    unfold revs; destruct (owes_revocation w p), (default false _); simpl; intros E; by simplify_eq.
Qed.

(** A pending commitment that was received is the one the other signed. *)
Lemma pending_sig w p :
  mem_inv w p -> mem_inv w (negb p) ->
  hasUnackedCommitment (localCommitChain (ss_lc (n_session (w_node w p)))) = true ->
  is_Some (commitDiff (db_of w (negb p))) /\ chain_msgs (w_inbox w p) = revs w (negb p) /\
  local_height w p = remote_height w (negb p).
Proof.
  intros Hp Hq Hun. destruct (mi_sig _ _ Hp Hun) as [d Hd]. pose proof (mi_queue _ _ Hq) as E.
  unfold undelivered in E. rewrite negb_involutive, Hun, Hd in E. symmetry in E. simpl in E.
  apply owed_tail in E as [-> E]; [|done]. rewrite negb_involutive in E. eauto.
Qed.

Lemma update_db d c un db d' :
  UpdateCommitment d c un db = Ok d' ->
  LocalCommitment d' = c /\ RemoteCommitment d' = RemoteCommitment d /\
  commitDiff d' = commitDiff d /\ lastWasRevoke d' = Some true /\ db_Restored d' = db_Restored d.
Proof. by intros (u & _ & [= <-])%bind_ok. Qed.

(** What a party looks like that has revoked. *)
Record revoked (w : world) (p : bool) (n' : node) : Prop := {
  rv_local : CommitHeight (LocalCommitment (ss_db (n_session n'))) = local_height w p + 1;
  rv_remote : RemoteCommitment (ss_db (n_session n')) = RemoteCommitment (db_of w p);
  rv_diff : commitDiff (ss_db (n_session n')) = commitDiff (db_of w p);
  rv_last : lastWasRevoke (ss_db (n_session n')) = Some true;
  rv_restored : db_Restored (ss_db (n_session n')) = db_Restored (db_of w p);
  rv_producer : ss_Producer (n_session n') = ss_Producer (n_session (w_node w p));
  rv_store : dk_Store (n_disk n') = dk_Store (n_disk (w_node w p));
  rv_current : dk_Current (n_disk n') = dk_Current (n_disk (w_node w p));
  rv_next : dk_Next (n_disk n') = dk_Next (n_disk (w_node w p));
}.

Lemma disk_inv_revoked w w' p n' :
  (forall q, disk_inv w q) -> w_node w' p = n' -> w_node w' (negb p) = w_node w (negb p) ->
  revoked w p n' -> local_height w p = remote_height w (negb p) ->
  is_Some (commitDiff (db_of w (negb p))) -> local_height w p + 2 < 2 ^ 48 ->
  forall q, disk_inv w' q.
Proof.
  intros Hd Mn Mp [El Er Edf _ Eres Epr Est Ecu Ene] Hh Hs Hb. apply (both _ p).
  - destruct (Hd p) as [D1 D2 D3 D4 D5 D6 D7 D8 D9 D10].
    split; unfold local_height, remote_height, db_of in *;
      rewrite ?Mp, ?Mn, ?El, ?Er, ?Edf, ?Eres, ?Epr, ?Est, ?Ecu, ?Ene; auto; lia.
  - destruct (Hd (negb p)) as [D1 D2 D3 D4 D5 D6 D7 D8 D9 D10].
    unfold local_height, remote_height, db_of in *. rewrite negb_involutive in *.
    split; unfold local_height, remote_height, db_of; rewrite ?negb_involutive, ?Mp, ?Mn, ?El; auto.
    right. split; [lia|done].
Qed.

Lemma owed_revoked w w' p n' :
  w_node w' p = n' -> w_node w' (negb p) = w_node w (negb p) -> revoked w p n' ->
  local_height w p = remote_height w (negb p) ->
  owed w' p = owed w p ++ [SyncRevoke {| Revocation := secret p (local_height w p);
                                         NextRevocationKey := point p (local_height w p + 2) |}] /\
  owed w' (negb p) = revs w (negb p).
Proof.
  intros Mn Mp [El Er Edf Elw _ _ _ _ _] Hh.
  unfold revs, owed, owes_sig, owes_revocation, last_revocation, local_height, remote_height, db_of in *.
  rewrite !negb_involutive, Mp, Mn, El, Er, Edf, Elw, Hh. simpl. rewrite Z.ltb_irrefl. split.
  - rewrite (proj2 (Z.ltb_lt _ _)) by lia.
    replace (CommitHeight (RemoteCommitment (ss_db (n_session (w_node w (negb p))))) + 1 - 1) with (CommitHeight (RemoteCommitment (ss_db (n_session (w_node w (negb p)))))) by lia.
    rewrite <- Z.add_assoc. change (1 + 1) with 2.
    destruct (default false _); by rewrite ?app_nil_r.
  - rewrite (proj2 (Z.eqb_neq _ _)) by lia. simpl.
    destruct (default false _); by rewrite ?app_nil_r.
Qed.

Lemma revoke_inv w w' p db s1 msg x :
  world_inv w -> w_up w = true ->
  RevokeCurrentCommitment (n_session (w_node w p)) db = (s1, Ok (msg, x)) ->
  moved w p (write_info (with_session (w_node w p) s1)) (w_inbox w p) [SyncRevoke msg] w' ->
  world_inv w'.
Proof.
  intros [Hd Hm] Hup Hrev [Mn Mp Mi Ms]. specialize (Hm Hup).
  apply revoke_cases in Hrev as (Hsr & c0 & t & rest & un & Hl & Hl' & Hr & Hch & Hdb & Hgen).
  destruct (pending_sig w p (Hm p) (Hm (negb p))) as (Hsig & Hin & Hh); [by rewrite Hl|].
  pose proof (mi_local _ _ (Hm p)) as Hlh. rewrite Hl in Hlh.
  destruct Hlh as [?|Hlh]; [done|]. destruct rest; [|done]. injection Hlh as Hc0 Ht.
  rewrite (mi_height _ _ (Hm p)) in *.
  pose proof (di_local _ _ (Hd p)). pose proof (di_bound _ _ (Hd p)).
  pose proof (generateRevocation_bound _ p (local_height w p) _ (di_producer _ _ (Hd p)) ltac:(lia) Hgen) as Hb.
  rewrite (generateRevocation_secret _ p) in Hgen by (lia || apply (Hd p)). injection Hgen as <-.
  apply update_db in Hdb as (El & Er & Edf & Elw & Eres).
  assert (revoked w p (write_info (with_session (w_node w p) s1))) as Hrvk.
  { split; simpl; try done; [by rewrite El|apply Hsr]. }
  destruct (owed_revoked w w' p _ Mn Mp Hrvk Hh) as [Ho1 Ho2].
  split; [exact (disk_inv_revoked w w' p _ Hd Mn Mp Hrvk Hh Hsig Hb)|]. intros _. apply (both _ p).
  - destruct (Hm p) as [M1 M2 M3 M4 M5 M6 M7 M8], Hsr as [Y0 Y1 Y2 Y3].
    split; unfold local_height, remote_height, db_of in *; rewrite ?Mn, ?Mp; simpl;
      rewrite ?El, ?Er, ?Edf, ?Hl', ?Hr, ?Y1, ?Y2, ?Y3; auto.
    + rewrite Hch. simpl. rewrite Ht. by u64s.
    + rewrite Ho1, <- M8. unfold undelivered. rewrite Mp, Ms, chain_msgs_app. simpl.
      unfold db_of. rewrite Mn. simpl. by rewrite Edf, app_assoc.
  - destruct (Hm (negb p)) as [M1 M2 M3 M4 M5 M6 M7 M8].
    split; unfold local_height, remote_height, db_of in *; rewrite ?negb_involutive in *; rewrite ?Mn, ?Mp; simpl;
      rewrite ?Edf; auto.
    rewrite Ho2. unfold undelivered. rewrite negb_involutive, Mn, Mi. simpl. by rewrite Hl', Hin.
Qed.

(** A revocation on its way is the last one; the rest is what else is owed. *)
Lemma owed_revocation w p m pre l :
  owed w p = pre ++ SyncRevoke m :: l ->
  owes_revocation w p = true /\ m = last_revocation w p /\
  pre ++ l = option_list (sig_msg <$> owes_sig w p).
Proof.
  unfold owed. destruct (owes_sig w p) as [d|]; simpl; unfold sig_msg;
    destruct (owes_revocation w p), (default false _); simpl; intros E;
    destruct pre as [|? [|? [|]]]; simplify_eq/=; try done; by destruct l.
Qed.

Lemma advance_db d pkg ups db d' diff :
  AdvanceCommitChainTail d pkg ups db = Ok d' -> commitDiff d = Some diff ->
  LocalCommitment d' = LocalCommitment d /\ RemoteCommitment d' = cd_Commitment diff /\
  commitDiff d' = None /\ lastWasRevoke d' = lastWasRevoke d /\ db_Restored d' = db_Restored d.
Proof.
  unfold AdvanceCommitChainTail. intros (u & _ & Hd)%bind_ok E. rewrite E in Hd. by injection Hd as <-.
Qed.

(** What a party looks like that was revoked to. *)
Record advanced (w : world) (p : bool) (n' : node) : Prop := {
  ad_local : LocalCommitment (ss_db (n_session n')) = LocalCommitment (db_of w p);
  ad_remote : CommitHeight (RemoteCommitment (ss_db (n_session n'))) = remote_height w p + 1;
  ad_diff : commitDiff (ss_db (n_session n')) = None;
  ad_restored : db_Restored (ss_db (n_session n')) = db_Restored (db_of w p);
  ad_producer : ss_Producer (n_session n') = ss_Producer (n_session (w_node w p));
  ad_store : AddNextEntry (dk_Store (n_disk (w_node w p))) (secret (negb p) (remote_height w p))
             = Ok (dk_Store (n_disk n'));
  ad_current : dk_Current (n_disk n') = dk_Next (n_disk (w_node w p));
  ad_next : dk_Next (n_disk n') = Some (point (negb p) (remote_height w p + 2));
}.

Lemma disk_inv_advanced w w' p n' :
  (forall q, disk_inv w q) -> w_node w' p = n' -> w_node w' (negb p) = w_node w (negb p) ->
  advanced w p n' -> local_height w (negb p) = remote_height w p + 1 -> forall q, disk_inv w' q.
Proof.
  intros Hd Mn Mp [El Er Edf Eres Epr Est Ecu Ene] Hh. apply (both _ p).
  - destruct (Hd p) as [D1 D2 D3 D4 D5 D6 D7 D8 D9 D10].
    split; unfold local_height, remote_height, db_of in *;
      rewrite ?Mp, ?Mn, ?El, ?Er, ?Edf, ?Eres, ?Epr, ?Ecu, ?Ene; auto; [lia|done| |].
    + by eapply store_next.
    + do 2 f_equal. lia.
  - destruct (Hd (negb p)) as [D1 D2 D3 D4 D5 D6 D7 D8 D9 D10].
    unfold local_height, remote_height, db_of in *. rewrite negb_involutive in *.
    split; unfold local_height, remote_height, db_of; rewrite ?negb_involutive, ?Mp, ?Mn, ?El; auto.
Qed.

Lemma owed_advanced w w' p n' :
  w_node w' p = n' -> w_node w' (negb p) = w_node w (negb p) -> advanced w p n' ->
  local_height w (negb p) = remote_height w p + 1 ->
  owed w' p = owed w p /\ owed w' (negb p) = option_list (sig_msg <$> owes_sig w (negb p)).
Proof.
  intros Mn Mp [El Er Edf _ _ _ _ _] Hh.
  unfold owed, owes_sig, owes_revocation, last_revocation, local_height, remote_height, db_of in *.
  rewrite !negb_involutive, Mp, Mn, El, Er, Edf, Hh. rewrite Z.eqb_refl, Z.ltb_irrefl.
  rewrite (proj2 (Z.eqb_neq (_ + 1) _)) by lia. simpl. split.
  - destruct (default false _), (default false _); by rewrite ?app_nil_r.
  - destruct (default false _); by rewrite ?app_nil_r.
Qed.

Lemma receive_revocation_inv w w' p m db rest s1 x :
  world_inv w -> w_up w = true -> w_inbox w p = SyncRevoke m :: rest ->
  ReceiveRevocation (n_session (w_node w p)) m db = (s1, Ok x) ->
  moved w p (write_revocations (with_session (w_node w p) s1)) rest [] w' -> world_inv w'.
Proof.
  intros [Hd Hm] Hup Hin Hrec [Mn Mp Mi Ms]. specialize (Hm Hup). rewrite app_nil_r in Ms.
  apply receive_revocation_cases in Hrec
    as (Hpr & c0 & chain & diff & store & pkg & ups & Hst & Hr & Hr' & Hl & Hch & Hdf & Hdb & Es & Ec & En).
  pose proof (mi_queue _ _ (Hm (negb p))) as Hqueue. unfold undelivered in Hqueue.
  rewrite negb_involutive, Hin in Hqueue. symmetry in Hqueue.
  change (chain_msgs (SyncRevoke m :: rest)) with (SyncRevoke m :: chain_msgs rest) in Hqueue.
  apply owed_revocation in Hqueue as (Ho & -> & Hsigs).
  assert (local_height w (negb p) = remote_height w p + 1) as Hh.
  { unfold owes_revocation in Ho. rewrite negb_involutive in Ho. apply Z.ltb_lt in Ho.
    destruct (di_peer _ _ (Hd p)) as [|[? _]]; lia. }
  assert (hasUnackedCommitment (localCommitChain (ss_lc (n_session (w_node w (negb p))))) = false) as Hun.
  { apply not_true_is_false. intros Hq.
    apply (pending_sig w (negb p)) in Hq as (_ & _ & Hq); rewrite ?negb_involutive in *; auto. lia. }
  apply (advance_db _ _ _ _ _ diff) in Hdb as (El & Er & Edf & Elw & Eres); [|done].
  pose proof (di_diff _ _ (Hd p) diff Hdf) as Hdh.
  pose proof (mi_remote _ _ (Hm p)) as Hrh. unfold db_of in Hrh. rewrite Hr, Hdf in Hrh.
  destruct chain as [|c1 [|]]; [done| |done]. injection Hrh as _ Hc1.
  rewrite (mi_store _ _ (Hm p)) in Hst. cbn [Revocation last_revocation] in Hst.
  rewrite Hh, Z.add_simpl_r in Hst.
  assert (advanced w p (write_revocations (with_session (w_node w p) s1))) as Hadv.
  { split; simpl; try done; [by rewrite Er, Hdh|by rewrite Es|by rewrite Ec; apply Hm|].
    rewrite En. cbn [NextRevocationKey last_revocation]. rewrite Hh. by rewrite <- Z.add_assoc. }
  destruct (owed_advanced w w' p _ Mn Mp Hadv Hh) as [Ho1 Ho2].
  split; [exact (disk_inv_advanced w w' p _ Hd Mn Mp Hadv Hh)|]. intros _. apply (both _ p).
  - destruct (Hm p) as [M1 M2 M3 M4 M5 M6 M7 M8].
    split; unfold local_height, remote_height, db_of in *; rewrite ?Mn, ?Mp; simpl;
      rewrite ?El, ?Er, ?Edf, ?Hl, ?Hr', ?Hch; auto; [simpl; by rewrite Hdh, Hc1|].
    rewrite Ho1, <- M8. unfold undelivered. by rewrite Mp, Ms, Hun.
  - destruct (Hm (negb p)) as [M1 M2 M3 M4 M5 M6 M7 M8].
    split; unfold local_height, remote_height, db_of in *; rewrite ?negb_involutive in *; rewrite ?Mn, ?Mp; simpl;
      rewrite ?Hl; auto; [by rewrite Hun|].
    rewrite Ho2, <- Hsigs. unfold undelivered, db_of. rewrite negb_involutive, Mn, Mp, Mi. simpl. by rewrite Hl.
Qed.

(** ** A new connection *)

Lemma chain_resent w p : chain_msgs (resent w p) = owed w p.
Proof.
  assert (chain_msgs (revs w p) = revs w p) as Hr by (unfold revs; by case_match).
  assert (forall d, chain_msgs (commit_updates d) = [sig_msg d]) as Hc.
  { intros d. unfold commit_updates. rewrite chain_msgs_app, list_fmap_compose, chain_msgs_updates. done. }
  unfold resent, in_order, owed. fold (revs w p).
  destruct (owes_sig w p), (default false _); by rewrite chain_msgs_app, Hr, ?Hc.
Qed.

(** Both channels are restored and everything that is owed is on its way. *)
Definition restarted (w : world) (s : bool -> session) : world :=
  {| w_up := true; w_node := fun p => with_session (w_node w p) (s p);
     w_inbox := fun p => resent w (negb p) |}.

Lemma restarted_inv w s :
  (forall p, disk_inv w p) -> (forall p, restored (w_node w p) (s p)) -> world_inv (restarted w s).
Proof.
  intros Hd Hs.
  assert (forall q, same_disk (w_node w q) (w_node (restarted w s) q)) as Hall.
  { intros q. destruct (Hs q). by split. }
  assert (forall x, db_of (restarted w s) x = db_of w x) as Edb by (intros x; apply Hall).
  split; [by eapply disk_inv_same|]. intros _ p.
  destruct (Hs p) as [R0 R1 R2 R3 R4 R5 R6 R7]. rewrite R0 in *. fold (db_of w p) in *.
  destruct (restored_tails w p (Hd p) (s p) (Hs p)) as (lt & rt & rp & Hl & Hr & Hhl & Hhr & _ & Hdf).
  destruct (restored_tails w (negb p) (Hd (negb p)) (s (negb p)) (Hs (negb p))) as (lt' & _ & _ & Hl' & _).
  split; unfold local_height, remote_height in *; rewrite ?Edb; simpl; auto.
  - rewrite Hr. simpl. rewrite Hhr.
    destruct (commitDiff (db_of w p)); [by destruct Hdf as (c0 & -> & <-)|by subst rp].
  - by rewrite Hl.
  - unfold undelivered. simpl. rewrite Hl', negb_involutive. simpl. rewrite chain_resent.
    symmetry. by apply owed_ext; unfold local_height, remote_height; rewrite ?Edb.
Qed.

Lemma world_inv_ext w w' :
  world_inv w -> w_up w = true -> (forall p, w_node w' p = w_node w p) ->
  (forall p, w_inbox w' p = w_inbox w p) -> world_inv w'.
Proof.
  intros Hw Hup En Ei.
  apply (quiet_inv w w' true (w_node w true) (w_inbox w true) []); try done.
  split; rewrite ?En, ?Ei; by rewrite ?app_nil_r.
Qed.

(** What one party's handling of the other's message amounts to: at most a signature. *)
Lemma party_resync w p s s' db :
  disk_inv w p -> disk_inv w (negb p) ->
  restored (w_node w p) s -> restored (w_node w (negb p)) s' ->
  exists n' out,
    let x := resync (w_node w p) (reestablish_of w p) db s in
    same_disk n' x.1 /\
    (forall msgs, x.2 = Ok msgs -> n' = x.1 /\ msgs = resent w p ++ out) /\
    forall w1 w2, world_inv w1 -> w_up w1 = true -> w_node w1 p = with_session (w_node w p) s ->
      moved w1 p n' (w_inbox w1 p) out w2 -> world_inv w2.
Proof.
  intros Hp Hq Hs Hs'. unfold resync.
  pose proof (process_ok w p Hp Hq s Hs db) as He.
  destruct (ProcessChanSyncMsg _ _ _ _) as [s1 r].
  inversion He as [s2 Hdb Hch Hre Hh|s2 cs hs x Ho Hnd Hsign|s2 e Ho Hsign|s2 Ho Hsign]; subst; simpl.
  - exists (with_session (w_node w p) s1), []. split; [done|]. split.
    { intros msgs [= <-]. by rewrite app_nil_r. }
    intros w1 w2 Hw1 Hup Hn Hmv. eapply (quiet_inv w1 w2 p); try done; rewrite Hn; try done.
    by split; try done; apply Hre.
  - exists (with_session (w_node w p) s1), [SyncCommitSig cs hs]. split; [done|]. split.
    { by intros msgs [= <-]. }
    intros w1 w2 Hw1 Hup Hn Hmv.
    apply (sign_inv w1 w2 p db s1 cs hs x); auto; rewrite Hn; done.
  - apply sign_cases in Hsign as (Hsr & _ & Hdb & _).
    exists (with_session (w_node w p) s), []. split; [by destruct Hsr|]. split; [done|].
    intros w1 w2 Hw1 Hup Hn Hmv. by eapply (quiet_inv w1 w2 p); try done; rewrite Hn.
  - apply sign_cases in Hsign as (Hsr & _ & Hdb & _).
    exists (with_session (w_node w p) s), []. split; [by destruct Hsr|]. split; [done|].
    intros w1 w2 Hw1 Hup Hn Hmv. by eapply (quiet_inv w1 w2 p); try done; rewrite Hn.
Qed.

(** One party after the other. *)
Definition replaced (w : world) (p : bool) (n' : node) (out : list sync_msg) : world :=
  {| w_up := true; w_node := put (w_node w) p n';
     w_inbox := put (w_inbox w) (negb p) (w_inbox w (negb p) ++ out) |}.

Lemma replaced_moved w p n' out : moved w p n' (w_inbox w p) out (replaced w p n' out).
Proof. by destruct p. Qed.

Lemma reconnect_inv w s1 s2 msg1 msg2 db1 db2 :
  (forall p, disk_inv w p) ->
  NewLightningChannel (w_node w true) = Ok s1 -> NewLightningChannel (w_node w false) = Ok s2 ->
  ChanSyncMsg s1 = Ok msg1 -> ChanSyncMsg s2 = Ok msg2 ->
  world_inv (reconnected w (resync (w_node w true) msg2 db1 s1) (resync (w_node w false) msg1 db2 s2)).
Proof.
  intros Hd Hs1%restore_ok Hs2%restore_ok Hm1 Hm2.
  pose proof (Hd true) as Dt. pose proof (Hd false) as Df.
  rewrite (sync_msg_ok w false Df Dt s1 Hs1) in Hm1. injection Hm1 as <-.
  rewrite (sync_msg_ok w true Dt Df s2 Hs2) in Hm2. injection Hm2 as <-.
  destruct (party_resync w true s1 s2 db1 Dt Df Hs1 Hs2) as (n1 & out1 & Sd1 & Ok1 & Mv1).
  destruct (party_resync w false s2 s1 db2 Df Dt Hs2 Hs1) as (n2 & out2 & Sd2 & Ok2 & Mv2).
  set (s := fun p : bool => if p then s1 else s2).
  assert (world_inv (restarted w s)) as W0 by (by apply restarted_inv; [|intros []]).
  set (w1 := replaced (restarted w s) true n1 out1). set (w2 := replaced w1 false n2 out2).
  assert (world_inv w1) as W1 by (by eapply (Mv1 (restarted w s)), replaced_moved).
  assert (world_inv w2) as W2 by (by eapply (Mv2 w1), replaced_moved).
  set (x := resync (w_node w true) _ db1 s1) in *. set (y := resync (w_node w false) _ db2 s2) in *.
  assert (forall q, same_disk (w_node w2 q) (if q : bool then x.1 else y.1)) as Hsame by (by intros []).
  unfold reconnected. destruct x as [nx [mx|e|]], y as [ny [my|e'|]]; simpl in *;
    try (by apply (down_inv w2); [apply W2|]).
  destruct (Ok1 mx eq_refl) as [<- ->], (Ok2 my eq_refl) as [<- ->].
  by apply (world_inv_ext w2); [| |intros []|intros []].
Qed.

(** ** Every reachable world *)

Lemma party_step_inv w p o rest :
  world_inv w -> w_up w = true ->
  (own o /\ rest = w_inbox w p \/ exists m, w_inbox w p = m :: rest /\ handles m o) ->
  world_inv (after w p rest (party_step o (w_node w p))).
Proof.
  intros Hw Hup Hrest. destruct o as [op told|db|cs hs|db|m db]; simpl.
  - pose proof (chan_step_chains op (ss_lc (n_session (w_node w p)))) as Hc.
    destruct (chan_step _ _) as [lc [u|e|]]; simpl in *; [|by apply failed_inv|by apply failed_inv].
    assert (chain_msgs rest = chain_msgs (w_inbox w p)) as Hcm.
    { destruct Hrest as [[_ ->]|([| |] & -> & Hh)]; by try destruct Hh. }
    by eapply (quiet_inv w _ p), chain_msgs_updates; [| |apply after_moved|..].
  - destruct Hrest as [[_ ->]|([| |] & _ & Hh)]; [|by destruct Hh..].
    destruct (SignNextCommitment _ db) as [s1 r] eqn:E. destruct r as [[[cs hs] x]|e|]; simpl.
    + by eapply (sign_inv w _ p), after_moved.
    + apply sign_cases in E as (Hsr & _ & Hdb & _). by apply failed_rest.
    + apply sign_cases in E as (Hsr & _ & Hdb & _). by apply failed_rest.
  - destruct Hrest as [[[] _]|([| |] & Hin & Hh)]; [by destruct Hh| |by destruct Hh].
    destruct Hh as [-> ->].
    destruct (ReceiveNewCommitment _ _ _) as [s1 r] eqn:E. destruct r as [[]|e|]; simpl.
    + by eapply (receive_sig_inv w _ p), after_moved.
    + apply receive_commitment_cases in E as (Hsr & _ & Hdb & _). by apply failed_rest.
    + apply receive_commitment_cases in E as (Hsr & _ & Hdb & _). by apply failed_rest.
  - destruct Hrest as [[_ ->]|([| |] & _ & Hh)]; [|by destruct Hh..].
    destruct (RevokeCurrentCommitment _ db) as [s1 r] eqn:E. destruct r as [[msg x]|e|]; simpl.
    + by eapply (revoke_inv w _ p), after_moved.
    + apply revoke_cases in E as (Hsr & Hdb). by apply failed_rest.
    + apply revoke_cases in E as (Hsr & Hdb). by apply failed_rest.
  - destruct Hrest as [[[] _]|([| |] & Hin & Hh)]; [by destruct Hh|by destruct Hh|]. simpl in Hh. subst.
    destruct (ReceiveRevocation _ _ db) as [s1 r] eqn:E. destruct r as [x|e|]; simpl.
    + by eapply (receive_revocation_inv w _ p), after_moved.
    + apply receive_revocation_cases in E as (Hsr & Hdb). by apply failed_inv.
    + apply receive_revocation_cases in E as (Hsr & Hdb). by apply failed_inv.
Qed.

Lemma world_step_inv w w' : world_inv w -> world_step w w' -> world_inv w'.
Proof.
  intros Hw Hst. revert Hw.
  destruct Hst as [w1 p o Hup Ho|w1 p m rest o Hup Hin Hh|w1|w1 s1 s2 m1 m2 db1 db2 E1 E2 E3 E4]; intros Hw.
  - apply party_step_inv; auto.
  - apply party_step_inv; eauto.
  - by apply (down_inv w1); [apply Hw|].
  - apply reconnect_inv; [apply Hw|done..].
Qed.

Lemma opened_inv w : opened w -> world_inv w.
Proof.
  intros [O1 O2 O3 O4 O5 O6 O7 O8 O9]. split; [|congruence].
  intros p. split; rewrite ?O4, ?O5, ?O6; auto; try done; by rewrite O7.
Qed.

Lemma reachable_world w : reachable w -> world_inv w.
Proof.
  intros (w0 & Hw0%opened_inv & Hr). induction Hr as [|w1 w2 w3 Hst _ IH]; [done|].
  by eapply IH, world_step_inv.
Qed.

(** C3. Reestablishing loses nothing and repeats nothing.  Take two parties of a channel in
    any world that can be reached by updates, signatures, revocations, failing operations,
    lost connections and new ones.  Whenever both restore their channel from disk, the
    party [p] handles the other's message without finding a mismatch: it sends the updates
    and the signature of its pending commitment if the other has not revoked for it, and
    its last revocation if the other has not received it, in the order of their first
    transmission; perhaps followed by the signature of a further commitment, and it fails
    only if that signature fails.  If they are connected, these are exactly the signature and
    revocation that [p] sent and that the other has not acted upon. *)
Theorem reestablish_resends (w : world) (p : bool) (s s' : session) (db : res unit)
    (Hreach : reachable w)
    (Hs : NewLightningChannel (w_node w p) = Ok s)
    (Hs' : NewLightningChannel (w_node w (negb p)) = Ok s') :
  (exists msg, ChanSyncMsg s' = Ok msg /\
   match ProcessChanSyncMsg s (LastWasRevoke_ s) msg db with
   | (s1, Ok (msgs, opened_, closed)) =>
       (opened_, closed) = circuits w p /\
       (msgs = resent w p /\ ss_db s1 = ss_db s \/
        exists cs hs x, SignNextCommitment s db = (s1, Ok (cs, hs, x)) /\
          msgs = resent w p ++ [SyncCommitSig cs hs])
   | (s1, Err e) => owes_revocation w p = true /\ SignNextCommitment s db = (s1, Err e)
   | (s1, Panic) => owes_revocation w p = true /\ SignNextCommitment s db = (s1, Panic)
   end) /\
  (w_up w = true -> chain_msgs (resent w p) = undelivered w p).
Proof.
  apply reachable_world in Hreach as [Hd Hm]. apply restore_ok in Hs, Hs'. split.
  - exists (reestablish_of w p). split; [by apply (sync_msg_ok w p)|].
    pose proof (process_ok w p (Hd p) (Hd (negb p)) s Hs db) as He.
    destruct (ProcessChanSyncMsg _ _ _ _) as [s1 r].
    inversion He; subst; simpl; [| |done|done]; (split; [by destruct (circuits w p)|]); [by left|].
    right. eauto.
  - intros Hup. rewrite chain_resent. symmetry. apply (Hm Hup).
Qed.

End World.

(** ** Two parties on which it is evaluated *)

#[local] Existing Instance ex_scripts.
#[local] Existing Instance ex_hasher.
#[local] Existing Instance ex_crypto.

(** The steps as a function. *)
Inductive action := AOwn (p : bool) (o : party_op) | AReceive (p : bool) (o : party_op) | AReconnect.

Definition ownb (o : party_op) : bool :=
  match o with PUpdate _ _ | PSign _ | PRevoke _ => true | _ => false end.

Definition handlesb (m : sync_msg) (o : party_op) : bool :=
  match m, o with
  | SyncUpdate _, PUpdate _ [] => true
  | SyncCommitSig cs hs, PReceiveSig cs' hs' => bool_decide (cs' = cs /\ hs' = hs)
  | SyncRevoke m, PReceiveRevoke m' _ =>
      bool_decide (Revocation m' = Revocation m /\ NextRevocationKey m' = NextRevocationKey m)
  | _, _ => false
  end.

Definition act (a : action) (w : world) : option world :=
  match a with
  | AOwn p o => if w_up w && ownb o
                then Some (after w p (w_inbox w p) (party_step o (w_node w p))) else None
  | AReceive p o =>
      match w_inbox w p with
      | m :: rest => if w_up w && handlesb m o
                     then Some (after w p rest (party_step o (w_node w p))) else None
      | [] => None
      end
  | AReconnect =>
      match NewLightningChannel (w_node w true), NewLightningChannel (w_node w false) with
      | Ok s1, Ok s2 =>
          match ChanSyncMsg s1, ChanSyncMsg s2 with
          | Ok msg1, Ok msg2 =>
              Some (reconnected w (resync (w_node w true) msg2 (Ok tt) s1)
                      (resync (w_node w false) msg1 (Ok tt) s2))
          | _, _ => None
          end
      | _, _ => None
      end
  end.

Fixpoint act_all (l : list action) (w : world) : option world :=
  match l with [] => Some w | a :: l' => w' ← act a w; act_all l' w' end.

Lemma handlesb_handles m o : handlesb m o = true -> handles m o.
Proof.
  destruct m as [u|cs hs|[r k]], o as [op [|]|db|cs' hs'|db|[r' k'] db]; try done; simpl.
  - by intros [-> ->]%bool_decide_eq_true.
  - by intros [-> ->]%bool_decide_eq_true.
Qed.

Lemma act_step a w w' : act a w = Some w' -> world_step w w'.
Proof.
  destruct a as [p o|p o|]; simpl.
  - destruct (w_up w && ownb o) eqn:E; [|done]. apply andb_true_iff in E as [Hup Ho].
    intros [= <-]. apply step_own; [done|]. by destruct o.
  - destruct (w_inbox w p) as [|m rest] eqn:Hin; [done|].
    destruct (w_up w && handlesb m o) eqn:E; [|done]. apply andb_true_iff in E as [Hup Ho].
    intros [= <-]. by eapply step_receive; [| |apply handlesb_handles].
  - destruct (NewLightningChannel (w_node w true)) as [s1|e|] eqn:E1; [|done|done].
    destruct (NewLightningChannel (w_node w false)) as [s2|e|] eqn:E2; [|done|done].
    destruct (ChanSyncMsg s1) as [m1|e|] eqn:E3; [|done|done].
    destruct (ChanSyncMsg s2) as [m2|e|] eqn:E4; [|done|done].
    intros [= <-]. by eapply step_reconnect.
Qed.

Lemma act_all_steps l w w' : act_all l w = Some w' -> rtc world_step w w'.
Proof.
  revert w. induction l as [|a l IH]; intros w; simpl; [by intros [= <-]|].
  intros (w1 & Ha%act_step & Hl%IH)%bind_Some. by eapply rtc_l.
Qed.

Definition ex_roots (p : bool) : list byte := replicate 32 (if p then x44 else x33).

Definition ex_node (p : bool) : node :=
  let s := ex_session in
  {| n_session :=
       {| ss_lc := ss_lc s; ss_db := ss_db s; currentHeight := 0; ss_obfuscator := ss_obfuscator s;
          ss_ShortChannelID := ss_ShortChannelID s;
          ss_Producer := NewRevocationProducer (ex_roots p); ss_Store := NewRevocationStore;
          RemoteCurrentRevocation := None; RemoteNextRevocation := None |};
     n_disk := {| dk_state := channelState (ss_lc s); dk_Store := NewRevocationStore;
                  dk_Current := Some (point ex_roots (negb p) 0);
                  dk_Next := Some (point ex_roots (negb p) 1) |} |}.

Definition ex_world : world := down ex_node.

Lemma ex_opened : opened ex_roots ex_world.
Proof. by split. Qed.

(** They connect; one offers an HTLC and signs; the other takes both, revokes and signs. *)
Definition ex_actions : list action :=
  [AReconnect; AOwn true (PUpdate (OpAddHTLC ex_htlc None) [MsgAdd ex_htlc]); AOwn true (PSign (Ok tt));
   AReceive false (PUpdate (OpReceiveHTLC ex_htlc) []); AReceive false (PReceiveSig [xaa] [[xbb]]);
   AOwn false (PRevoke (Ok tt)); AOwn false (PSign (Ok tt))].

Definition ex_final : world := default ex_world (act_all ex_actions ex_world).

Definition ex_restores : bool :=
  match act_all ex_actions ex_world with
  | Some w => match NewLightningChannel (w_node w true), NewLightningChannel (w_node w false) with
              | Ok _, Ok _ => w_up w && (length (undelivered w false) =? 2)%nat
              | _, _ => false
              end
  | None => false
  end.

(** A revocation and a signature are on their way when the parties restore. *)
Lemma ex_final_ok : exists s1 s2,
  reachable ex_roots ex_final /\ w_up ex_final = true /\ length (undelivered ex_final false) = 2%nat /\
  NewLightningChannel (w_node ex_final true) = Ok s1 /\
  NewLightningChannel (w_node ex_final false) = Ok s2.
Proof.
  assert (ex_restores = true) as Hok by (vm_compute; reflexivity).
  unfold ex_restores in Hok. unfold ex_final.
  destruct (act_all ex_actions ex_world) as [w|] eqn:E; [|done]. simpl.
  destruct (NewLightningChannel (w_node w true)) as [s1|e|] eqn:E1; [|done|done].
  destruct (NewLightningChannel (w_node w false)) as [s2|e|] eqn:E2; [|done|done].
  apply andb_true_iff in Hok as [Hup Hl]. apply Nat.eqb_eq in Hl. exists s1, s2.
  split; [exists ex_world; split; [apply ex_opened|exact (act_all_steps _ _ _ E)]|].
  split; [exact Hup|]. split; [exact Hl|]. split; reflexivity.
Qed.

Lemma reestablish_resends_witness : exists s1 s2,
  NewLightningChannel (w_node ex_final false) = Ok s2 /\
  NewLightningChannel (w_node ex_final true) = Ok s1 /\
  (exists msg, ChanSyncMsg s1 = Ok msg) /\
  length (chain_msgs (resent ex_roots ex_final false)) = 2%nat.
Proof.
  destruct ex_final_ok as (s1 & s2 & Hr & Hup & Hl & E1 & E2). exists s1, s2.
  split; [exact E2|]. split; [exact E1|].
  destruct (reestablish_resends ex_roots ex_final false s2 s1 (Ok tt) Hr E2 E1) as [(msg & Hmsg & _) Hu].
  split; [by exists msg|]. rewrite (Hu Hup). exact Hl.
Defined.
