(* ===== verification/Arbitrator.v ===== *)
(** * The channel arbitrator

    [contractcourt/channel_arbitrator.go] with the log of [briefcase.go]: which HTLCs need an
    action on chain, the state machine that closes a channel by force and waits until every
    contract is resolved, the events it reacts to, and its start from the log after a
    restart.

    What the arbitrator calls (the channel, the wallet, the sweeper, the switch, the
    preimage cache, the invoice registry, the clock) answers through a record [env]; each
    step of the state machine gets its own.  Every call is recorded ([arb_calls]).  Sign
    descriptors, reports and the channel state that resolvers carry along are left out, as
    are the resolvers' own procedures: a running resolver either replaces itself or
    finishes.  Go's maps are iterated in the order of the model's finite maps. *)

From Stdlib Require Import Lia.
From S2P Require Import Prelude Sha256 Ids Amounts UpdateLog Channel CommitTx StateRes.

(** ** Outputs *)

Record OutPoint := { op_Hash : list byte; op_Index : Z }.

#[export] Instance OutPoint_eq_dec : EqDecision OutPoint.
Proof. solve_decision. Defined.
#[export] Instance OutPoint_countable : Countable OutPoint.
Proof.
  refine (inj_countable' (fun o => (op_Hash o, op_Index o)) (fun p => {| op_Hash := p.1; op_Index := p.2 |}) _).
  by intros [].
Defined.

(** The previous output of a transaction's first input. *)
Definition first_input (tx : MsgTx) : res OutPoint :=
  i ← index (MsgTx_TxIn tx) 0; Ok {| op_Hash := PrevHash i; op_Index := PrevIndex i |}.

(** ** HTLC sets *)

Record htlcSet := { incomingHTLCs_ : gmap Z HTLC; outgoingHTLCs_ : gmap Z HTLC }.

Definition empty_set : htlcSet := {| incomingHTLCs_ := ∅; outgoingHTLCs_ := ∅ |}.

Definition newHtlcSet (htlcs : list HTLC) : htlcSet :=
  foldl (fun s htlc =>
           if disk_Incoming htlc
           then {| incomingHTLCs_ := <[disk_HtlcIndex htlc := htlc]> (incomingHTLCs_ s);
                   outgoingHTLCs_ := outgoingHTLCs_ s |}
           else {| incomingHTLCs_ := incomingHTLCs_ s;
                   outgoingHTLCs_ := <[disk_HtlcIndex htlc := htlc]> (outgoingHTLCs_ s) |})
        empty_set htlcs.

(** The values of a map, as a loop visits them. *)
Definition values {A} (m : gmap Z A) : list A := (map_to_list m).*2.

Record HtlcSetKey := { IsRemote : bool; IsPending : bool }.

#[export] Instance HtlcSetKey_eq_dec : EqDecision HtlcSetKey.
Proof. solve_decision. Defined.
#[export] Instance HtlcSetKey_countable : Countable HtlcSetKey.
Proof.
  refine (inj_countable' (fun k => (IsRemote k, IsPending k))
            (fun p => {| IsRemote := p.1; IsPending := p.2 |}) _).
  by intros [].
Defined.

Definition LocalHtlcSet : HtlcSetKey := {| IsRemote := false; IsPending := false |}.
Definition RemoteHtlcSet : HtlcSetKey := {| IsRemote := true; IsPending := false |}.
Definition RemotePendingHtlcSet : HtlcSetKey := {| IsRemote := true; IsPending := true |}.

Record CommitSet := { ConfCommitKey : option HtlcSetKey; HtlcSets : gmap HtlcSetKey (list HTLC) }.

(** [IsEmpty] is called on a nil set too. *)
Definition CommitSet_IsEmpty (c : option CommitSet) : bool :=
  match c with
  | None => true
  | Some c => forallb (fun p => bool_decide (p.2 = [])) (map_to_list (HtlcSets c))
  end.

Definition toActiveHTLCSets (c : CommitSet) : gmap HtlcSetKey htlcSet := newHtlcSet <$> HtlcSets c.

(** ** Chain actions *)

Inductive transitionTrigger :=
  | chainTrigger | userTrigger | remoteCloseTrigger | localCloseTrigger | coopCloseTrigger
  | breachCloseTrigger.

#[export] Instance transitionTrigger_eq_dec : EqDecision transitionTrigger.
Proof. solve_decision. Defined.

Inductive ChainAction :=
  | NoAction | HtlcTimeoutAction | HtlcClaimAction | HtlcFailNowAction
  | HtlcOutgoingWatchAction | HtlcIncomingWatchAction.

#[export] Instance ChainAction_eq_dec : EqDecision ChainAction.
Proof. solve_decision. Defined.

Definition action_byte (a : ChainAction) : nat :=
  match a with
  | NoAction => 0 | HtlcTimeoutAction => 1 | HtlcClaimAction => 2 | HtlcFailNowAction => 3
  | HtlcOutgoingWatchAction => 4 | HtlcIncomingWatchAction => 5
  end.

Definition action_of_byte (n : nat) : ChainAction :=
  match n with
  | 1 => HtlcTimeoutAction | 2 => HtlcClaimAction | 3 => HtlcFailNowAction
  | 4 => HtlcOutgoingWatchAction | 5 => HtlcIncomingWatchAction | _ => NoAction
  end%nat.

#[export] Instance ChainAction_countable : Countable ChainAction.
Proof. refine (inj_countable' action_byte action_of_byte _). by intros []. Defined.

Abbreviation ChainActionMap := (gmap ChainAction (list HTLC)).

Definition add_action (a : ChainAction) (m : ChainActionMap) (htlc : HTLC) : ChainActionMap :=
  <[a := default [] (m !! a) ++ [htlc]]> m.

Definition Merge (c actions : ChainActionMap) : ChainActionMap :=
  union_with (fun l k => Some (l ++ k)) c actions.

(** ** Configuration and surroundings *)

Inductive ClosureType :=
  | CooperativeClose | LocalForceClose | RemoteForceClose | BreachClose | FundingCanceled | Abandoned.

Record ChannelArbitratorConfig := {
  cfg_ChanPoint : OutPoint;
  cfg_ShortChanID : ShortChannelID;
  OutgoingBroadcastDelta : Z;
  IncomingBroadcastDelta : Z;
  PaymentsExpirationGracePeriod : Z;
  IsPendingClose : bool;
  ClosingHeight : Z;
  CloseType : ClosureType;
}.

Record AnchorResolution := { CommitAnchor : OutPoint }.
Record AnchorResolutions := {
  ar_Local : option AnchorResolution;
  ar_Remote : option AnchorResolution;
  ar_RemotePending : option AnchorResolution;
}.

(** The three places that decide whether to go on chain; the clock is read at each. *)
Inductive clock_site := FirstPass | SecondPass | Dangling.

Record env := {
  LookupPreimage : list byte -> bool;
  (** the preimage of the invoice's terms *)
  LookupInvoice : list byte -> res (option (list byte));
  IsForwardedHTLC : Z -> bool;
  upTime : clock_site -> HTLC -> Z;
  ForceCloseChan : res MsgTx;
  MarkCommitmentBroadcasted_ : res unit;
  PublishTx : res unit;
  NewAnchorResolutions : res AnchorResolutions;
  SweepInput : AnchorResolution -> Z -> res unit;
  FetchHistoricalChannel : res unit;
  DeliverResolutionMsg : res unit;
  MarkChannelResolved : res unit;
  db_Insert : res unit;
  db_CommitState : res unit;
}.

Definition ErrInvoiceNotFound_ : error := Error "ErrInvoiceNotFound".
Definition ErrNoInvoicesCreated_ : error := Error "ErrNoInvoicesCreated".

Definition isPreimageAvailable (e : env) (hash : list byte) : res bool :=
  if LookupPreimage e hash then Ok true
  else
    match LookupInvoice e hash with
    | Ok preimage => Ok (bool_decide (is_Some preimage))
    | Err er => if bool_decide (er = ErrInvoiceNotFound_) || bool_decide (er = ErrNoInvoicesCreated_)
                then Ok false else Err er
    | Panic => Panic
    end.

Section Actions.
Context (cfg : ChannelArbitratorConfig) (e : env).

Definition shouldGoOnChain (site : clock_site) (htlc : HTLC) (broadcastDelta currentHeight : Z)
    : bool :=
  let broadcastCutOff := u32 (disk_RefundTimeout htlc - broadcastDelta) in
  if currentHeight <? broadcastCutOff then false
  else if disk_Incoming htlc then true
  else IsForwardedHTLC e (disk_HtlcIndex htlc)
       || (PaymentsExpirationGracePeriod cfg <? upTime e site htlc).

(** The first pass over incoming HTLCs. *)
Fixpoint incoming_to_chain (height : Z) (htlcs : list HTLC) (have : bool) : res bool :=
  match htlcs with
  | [] => Ok have
  | htlc :: htlcs' =>
      preimageAvailable ← isPreimageAvailable e (disk_RHash htlc);
      incoming_to_chain height htlcs'
        (if (preimageAvailable : bool)
         then have || shouldGoOnChain FirstPass htlc (IncomingBroadcastDelta cfg) height
         else have)
  end.

Definition outgoing_action (height : Z) (htlc : HTLC) : ChainAction :=
  if disk_OutputIndex htlc <? 0 then HtlcFailNowAction
  else if negb (shouldGoOnChain SecondPass htlc (OutgoingBroadcastDelta cfg) height)
  then HtlcOutgoingWatchAction
  else HtlcTimeoutAction.

Definition checkCommitChainActions (height : Z) (trigger : transitionTrigger) (htlcs : htlcSet)
    : res ChainActionMap :=
  let outgoing := values (outgoingHTLCs_ htlcs) in
  let incoming := values (incomingHTLCs_ htlcs) in
  let have := existsb (fun htlc => shouldGoOnChain FirstPass htlc (OutgoingBroadcastDelta cfg) height)
                outgoing in
  haveChainActions ← incoming_to_chain height incoming have;
  if negb haveChainActions && bool_decide (trigger = chainTrigger) then Ok ∅
  else
    let m := foldl (fun m htlc => add_action (outgoing_action height htlc) m htlc) ∅ outgoing in
    Ok (foldl (fun m htlc => if disk_OutputIndex htlc <? 0 then m
                             else add_action HtlcIncomingWatchAction m htlc) m incoming).

(** The outgoing HTLCs of the remote commitments and the indexes of ours. *)
Definition remote_outgoing (activeHTLCs : gmap HtlcSetKey htlcSet) : gmap Z HTLC :=
  foldl (fun m p => if IsRemote p.1
                    then foldl (fun m htlc => <[disk_HtlcIndex htlc := htlc]> m) m
                           (values (outgoingHTLCs_ p.2))
                    else m) ∅ (map_to_list activeHTLCs).

Definition local_outgoing (activeHTLCs : gmap HtlcSetKey htlcSet) : gset Z :=
  foldl (fun s p => if IsRemote p.1 then s
                    else foldl (fun s htlc => {[ disk_HtlcIndex htlc ]} ∪ s) s
                           (values (outgoingHTLCs_ p.2))) ∅ (map_to_list activeHTLCs).

Definition checkRemoteDanglingActions (height : Z) (activeHTLCs : gmap HtlcSetKey htlcSet)
    (commitsConfirmed : bool) : ChainActionMap :=
  let pendingRemoteHTLCs :=
    (filter (fun p => p.1 ∉ local_outgoing activeHTLCs) (map_to_list (remote_outgoing activeHTLCs))).*2 in
  foldl (fun m htlc =>
           if negb (shouldGoOnChain Dangling htlc (OutgoingBroadcastDelta cfg) height)
              && negb commitsConfirmed
           then m else add_action HtlcFailNowAction m htlc) ∅ pendingRemoteHTLCs.

Definition active (activeHTLCs : gmap HtlcSetKey htlcSet) (k : HtlcSetKey) : htlcSet :=
  default empty_set (activeHTLCs !! k).

Definition checkLocalChainActions (height : Z) (trigger : transitionTrigger)
    (activeHTLCs : gmap HtlcSetKey htlcSet) (commitsConfirmed : bool) : res ChainActionMap :=
  localCommitActions ← checkCommitChainActions height trigger (active activeHTLCs LocalHtlcSet);
  Ok (Merge localCommitActions (checkRemoteDanglingActions height activeHTLCs commitsConfirmed)).

Definition checkRemoteDiffActions (activeHTLCs : gmap HtlcSetKey htlcSet) (pendingConf : bool)
    : ChainActionMap :=
  let confHTLCs := active activeHTLCs (if pendingConf then RemotePendingHtlcSet else RemoteHtlcSet) in
  let danglingHTLCs :=
    active activeHTLCs (if pendingConf then RemoteHtlcSet else RemotePendingHtlcSet) in
  let remoteHtlcs : gset Z :=
    foldl (fun s htlc => {[ disk_HtlcIndex htlc ]} ∪ s) ∅ (values (outgoingHTLCs_ confHTLCs)) in
  foldl (fun m htlc => if bool_decide (disk_HtlcIndex htlc ∈ remoteHtlcs) then m
                       else add_action HtlcFailNowAction m htlc)
        ∅ (values (outgoingHTLCs_ danglingHTLCs)).

Definition checkRemoteChainActions (height : Z) (trigger : transitionTrigger)
    (activeHTLCs : gmap HtlcSetKey htlcSet) (pendingConf : bool) : res ChainActionMap :=
  let confHTLCs := active activeHTLCs (if pendingConf then RemotePendingHtlcSet else RemoteHtlcSet) in
  remoteCommitActions ← checkCommitChainActions height trigger confHTLCs;
  Ok (Merge remoteCommitActions (checkRemoteDiffActions activeHTLCs pendingConf)).

Definition errNoChainActions : error := Error "unable to locate chain actions".

(** [stored] are the chain actions in the log, for channels of older versions. *)
Definition constructChainActions (stored : res ChainActionMap) (confCommitSet : option CommitSet)
    (height : Z) (trigger : transitionTrigger) : res ChainActionMap :=
  match confCommitSet with
  | None => stored
  | Some c =>
      let htlcSets := toActiveHTLCSets c in
      match ConfCommitKey c with
      | None => Panic
      | Some k =>
          if bool_decide (k = LocalHtlcSet) then checkLocalChainActions height trigger htlcSets true
          else if bool_decide (k = RemoteHtlcSet)
          then checkRemoteChainActions height trigger htlcSets false
          else if bool_decide (k = RemotePendingHtlcSet)
          then checkRemoteChainActions height trigger htlcSets true
          else Err errNoChainActions
      end
  end.

(** ** Deadlines of anchors *)

Definition anchorSweepConfTarget : Z := 144.
Definition MaxUint32 : Z := 2 ^ 32 - 1.

Definition lower_deadline (d : Z) (htlc : HTLC) : Z :=
  if disk_RefundTimeout htlc <? d then disk_RefundTimeout htlc else d.

Fixpoint incoming_deadline (htlcs : list HTLC) (d : Z) : res Z :=
  match htlcs with
  | [] => Ok d
  | htlc :: htlcs' =>
      if disk_OutputIndex htlc <? 0 then incoming_deadline htlcs' d
      else
        preimageAvailable ← isPreimageAvailable e (disk_RHash htlc);
        incoming_deadline htlcs' (if (preimageAvailable : bool) then lower_deadline d htlc else d)
  end.

Definition findCommitmentDeadline (heightHint : Z) (htlcs : htlcSet) : res Z :=
  let outgoing := foldl (fun d htlc => if disk_OutputIndex htlc <? 0 then d else lower_deadline d htlc)
                    MaxUint32 (values (outgoingHTLCs_ htlcs)) in
  deadlineMinHeight ← incoming_deadline (values (incomingHTLCs_ htlcs)) outgoing;
  Ok (if deadlineMinHeight =? MaxUint32 then anchorSweepConfTarget
      else if deadlineMinHeight <=? heightHint then 1
      else u32 (deadlineMinHeight - heightHint)).

End Actions.

(** ** Resolutions and resolvers *)

Record CommitOutputResolution := { SelfOutPoint : OutPoint }.

Record IncomingHtlcResolution := {
  ihr_Preimage : list byte;
  SignedSuccessTx : option MsgTx;
  ihr_CsvDelay : Z;
  ihr_ClaimOutpoint : OutPoint;
}.

Record OutgoingHtlcResolution := {
  ohr_Expiry : Z;
  SignedTimeoutTx : option MsgTx;
  ohr_CsvDelay : Z;
  ohr_ClaimOutpoint : OutPoint;
}.

Definition IncomingHtlcPoint (r : IncomingHtlcResolution) : res OutPoint :=
  match SignedSuccessTx r with Some tx => first_input tx | None => Ok (ihr_ClaimOutpoint r) end.

Definition OutgoingHtlcPoint (r : OutgoingHtlcResolution) : res OutPoint :=
  match SignedTimeoutTx r with Some tx => first_input tx | None => Ok (ohr_ClaimOutpoint r) end.

Record BreachResolution := { FundingOutPoint : OutPoint }.

Record ContractResolutions := {
  CommitHash : list byte;
  CommitResolution : option CommitOutputResolution;
  IncomingHTLCs : list IncomingHtlcResolution;
  OutgoingHTLCs : list OutgoingHtlcResolution;
  cr_AnchorResolution : option AnchorResolution;
  cr_BreachResolution : option BreachResolution;
}.

Definition Resolutions_IsEmpty (c : ContractResolutions) : bool :=
  bool_decide (CommitResolution c = None) && bool_decide (IncomingHTLCs c = [])
  && bool_decide (OutgoingHTLCs c = []) && bool_decide (cr_AnchorResolution c = None)
  && bool_decide (cr_BreachResolution c = None).

Inductive ContractResolver :=
  | AnchorResolver (anchor : OutPoint) (broadcastHeight : Z)
  | BreachResolver (chanPoint : OutPoint)
  | CommitSweepResolver (commitResolution : CommitOutputResolution) (broadcastHeight : Z)
  | SuccessResolver (r : IncomingHtlcResolution) (broadcastHeight : Z) (htlc : HTLC)
  | TimeoutResolver (r : OutgoingHtlcResolution) (broadcastHeight : Z) (htlc : HTLC)
  | IncomingContestResolver (r : IncomingHtlcResolution) (broadcastHeight : Z) (htlc : HTLC)
  | OutgoingContestResolver (r : OutgoingHtlcResolution) (broadcastHeight : Z) (htlc : HTLC).

Definition newResolverID (o : OutPoint) : list byte := op_Hash o ++ be_bytes 4 (op_Index o).

(** No key for a resolver without state. *)
Definition ResolverKey (r : ContractResolver) : res (option (list byte)) :=
  match r with
  | AnchorResolver _ _ => Ok None
  | BreachResolver o => Ok (Some (newResolverID o))
  | CommitSweepResolver c _ => Ok (Some (newResolverID (SelfOutPoint c)))
  | SuccessResolver r _ _ | IncomingContestResolver r _ _ =>
      o ← IncomingHtlcPoint r; Ok (Some (newResolverID o))
  | TimeoutResolver r _ _ | OutgoingContestResolver r _ _ =>
      o ← OutgoingHtlcPoint r; Ok (Some (newResolverID o))
  end.

(** What the switch is told: the HTLC is cancelled backwards. *)
Record ResolutionMsg := { SourceChan : ShortChannelID; rm_HtlcIndex : Z }.

Section Prepare.
Context (cfg : ChannelArbitratorConfig) (e : env).

Definition fail_msg (htlc : HTLC) : ResolutionMsg :=
  {| SourceChan := cfg_ShortChanID cfg; rm_HtlcIndex := disk_HtlcIndex htlc |}.

Fixpoint resolution_map {A} (point : A -> res OutPoint) (l : list A) (m : gmap OutPoint A)
    : res (gmap OutPoint A) :=
  match l with
  | [] => Ok m
  | r :: l' => o ← point r; resolution_map point l' (<[o := r]> m)
  end.

Definition htlc_op (commitHash : list byte) (htlc : HTLC) : OutPoint :=
  {| op_Hash := commitHash; op_Index := u32 (disk_OutputIndex htlc) |}.

(** The resolvers of the HTLCs whose resolution is found. *)
Definition resolvers_for {A} (commitHash : list byte) (m : gmap OutPoint A)
    (mk : A -> HTLC -> ContractResolver) (htlcs : list HTLC) : list ContractResolver :=
  omap (fun htlc => (fun r => mk r htlc) <$> m !! htlc_op commitHash htlc) htlcs.

Definition act_on (commitHash : list byte) (height : Z)
    (inRes : gmap OutPoint IncomingHtlcResolution) (outRes : gmap OutPoint OutgoingHtlcResolution)
    (p : ChainAction * list HTLC) : list ContractResolver * list ResolutionMsg :=
  let '(action, htlcs) := p in
  match action with
  | NoAction => ([], [])
  | HtlcFailNowAction => ([], fail_msg <$> htlcs)
  | HtlcClaimAction =>
      (resolvers_for commitHash inRes (fun r => SuccessResolver r height) htlcs, [])
  | HtlcTimeoutAction =>
      (resolvers_for commitHash outRes (fun r => TimeoutResolver r height) htlcs, [])
  | HtlcIncomingWatchAction =>
      (resolvers_for commitHash inRes (fun r => IncomingContestResolver r height) htlcs, [])
  | HtlcOutgoingWatchAction =>
      (resolvers_for commitHash outRes (fun r => OutgoingContestResolver r height) htlcs, [])
  end.

(** All outgoing HTLCs of the remote commitments. *)
Definition breach_outgoing (c : CommitSet) : gmap Z HTLC :=
  foldl (fun m p => if IsRemote p.1
                    then foldl (fun m htlc => if disk_Incoming htlc then m
                                              else <[disk_HtlcIndex htlc := htlc]> m) m p.2
                    else m) ∅ (map_to_list (HtlcSets c)).

Definition ErrNoHistoricalBucket : error := Error "ErrNoHistoricalBucket".
Definition ErrChannelNotFound : error := Error "ErrChannelNotFound".

Definition historical_ok : res unit :=
  match FetchHistoricalChannel e with
  | Err er => if bool_decide (er = ErrNoHistoricalBucket) || bool_decide (er = ErrChannelNotFound)
              then Ok tt else Err er
  | r => r
  end.

Definition prepContractResolutions (stored : res ChainActionMap) (c : ContractResolutions)
    (height : Z) (trigger : transitionTrigger) (confCommitSet : option CommitSet)
    : res (list ContractResolver * list ResolutionMsg) :=
  htlcActions ← constructChainActions cfg e stored confCommitSet height trigger;
  _ ← historical_ok;
  inResolutionMap ← resolution_map IncomingHtlcPoint (IncomingHTLCs c) ∅;
  outResolutionMap ← resolution_map OutgoingHtlcPoint (OutgoingHTLCs c) ∅;
  let anchors := option_list ((fun a => AnchorResolver (CommitAnchor a) height)
                              <$> cr_AnchorResolution c) in
  match cr_BreachResolution c with
  | Some _ =>
      match confCommitSet with
      | None => Panic
      | Some s => Ok (anchors ++ [BreachResolver (cfg_ChanPoint cfg)],
                      fail_msg <$> values (breach_outgoing s))
      end
  | None =>
      let acts := act_on (CommitHash c) height inResolutionMap outResolutionMap
                  <$> map_to_list htlcActions in
      Ok (anchors ++ mjoin acts.*1
          ++ option_list ((fun r => CommitSweepResolver r height) <$> CommitResolution c),
          mjoin acts.*2)
  end.

End Prepare.

(** ** The log *)

Inductive ArbitratorState :=
  | StateDefault | StateBroadcastCommit | StateCommitmentBroadcasted | StateContractClosed
  | StateWaitingFullResolution | StateFullyResolved | StateError.

#[export] Instance ArbitratorState_eq_dec : EqDecision ArbitratorState.
Proof. solve_decision. Defined.

(** The bucket of a channel.  The anchor and breach resolutions have keys of their own. *)
Record scope_bucket := {
  lg_state : ArbitratorState;
  lg_contracts : gmap (list byte) ContractResolver;
  lg_resolutions : option ContractResolutions;
  lg_anchor : option AnchorResolution;
  lg_breach : option BreachResolution;
  lg_commitSet : option CommitSet;
  lg_actions : option ChainActionMap;
}.

Definition empty_scope : scope_bucket :=
  {| lg_state := StateDefault; lg_contracts := ∅; lg_resolutions := None; lg_anchor := None;
     lg_breach := None; lg_commitSet := None; lg_actions := None |}.

(** Writers create the bucket. *)
Abbreviation arb_log := (option scope_bucket).
Definition scope (l : arb_log) : scope_bucket := default empty_scope l.

Definition with_state (s : ArbitratorState) (b : scope_bucket) : scope_bucket :=
  {| lg_state := s; lg_contracts := lg_contracts b; lg_resolutions := lg_resolutions b;
     lg_anchor := lg_anchor b; lg_breach := lg_breach b; lg_commitSet := lg_commitSet b;
     lg_actions := lg_actions b |}.

Definition with_contracts (m : gmap (list byte) ContractResolver) (b : scope_bucket) : scope_bucket :=
  {| lg_state := lg_state b; lg_contracts := m; lg_resolutions := lg_resolutions b;
     lg_anchor := lg_anchor b; lg_breach := lg_breach b; lg_commitSet := lg_commitSet b;
     lg_actions := lg_actions b |}.

Definition with_resolutions (c : ContractResolutions) (b : scope_bucket) : scope_bucket :=
  {| lg_state := lg_state b; lg_contracts := lg_contracts b; lg_resolutions := Some c;
     lg_anchor := match cr_AnchorResolution c with Some a => Some a | None => lg_anchor b end;
     lg_breach := match cr_BreachResolution c with Some r => Some r | None => lg_breach b end;
     lg_commitSet := lg_commitSet b; lg_actions := lg_actions b |}.

Definition with_commitSet (c : CommitSet) (b : scope_bucket) : scope_bucket :=
  {| lg_state := lg_state b; lg_contracts := lg_contracts b; lg_resolutions := lg_resolutions b;
     lg_anchor := lg_anchor b; lg_breach := lg_breach b; lg_commitSet := Some c;
     lg_actions := lg_actions b |}.

Definition errScopeBucketNoExist : error := Error "errScopeBucketNoExist".
Definition errNoResolutions : error := Error "errNoResolutions".
Definition errNoActions : error := Error "errNoActions".

Definition FetchContractResolutions (l : arb_log) : res ContractResolutions :=
  match l with
  | None => Err errScopeBucketNoExist
  | Some b =>
      match lg_resolutions b with
      | None => Err errNoResolutions
      | Some c => Ok {| CommitHash := CommitHash c; CommitResolution := CommitResolution c;
                        IncomingHTLCs := IncomingHTLCs c; OutgoingHTLCs := OutgoingHTLCs c;
                        cr_AnchorResolution := lg_anchor b; cr_BreachResolution := lg_breach b |}
      end
  end.

Definition FetchChainActions (l : arb_log) : res ChainActionMap :=
  match l with
  | None => Err errScopeBucketNoExist
  | Some b => match lg_actions b with Some m => Ok m | None => Err errNoActions end
  end.

Definition FetchUnresolvedContracts (l : arb_log) : list ContractResolver :=
  (map_to_list (lg_contracts (scope l))).*2.

Definition writeResolver (m : gmap (list byte) ContractResolver) (r : ContractResolver)
    : res (gmap (list byte) ContractResolver) :=
  k ← ResolverKey r;
  Ok match k with Some k => <[k := r]> m | None => m end.

Fixpoint write_resolvers (m : gmap (list byte) ContractResolver) (rs : list ContractResolver)
    : res (gmap (list byte) ContractResolver) :=
  match rs with
  | [] => Ok m
  | r :: rs' => m' ← writeResolver m r; write_resolvers m' rs'
  end.

(** [db] tells whether the transaction commits. *)
Definition InsertUnresolvedContracts (l : arb_log) (rs : list ContractResolver) (db : res unit)
    : res arb_log :=
  m ← write_resolvers (lg_contracts (scope l)) rs;
  _ ← db;
  Ok (Some (with_contracts m (scope l))).

Definition delete_key (k : option (list byte)) (m : gmap (list byte) ContractResolver)
    : gmap (list byte) ContractResolver :=
  match k with Some k => delete k m | None => m end.

Definition SwapContract (l : arb_log) (old new : ContractResolver) (db : res unit) : res arb_log :=
  k ← ResolverKey old;
  m ← writeResolver (delete_key k (lg_contracts (scope l))) new;
  _ ← db;
  Ok (Some (with_contracts m (scope l))).

Definition ResolveContract (l : arb_log) (r : ContractResolver) (db : res unit) : res arb_log :=
  k ← ResolverKey r;
  _ ← db;
  Ok (Some (with_contracts (delete_key k (lg_contracts (scope l))) (scope l))).

(** ** The state machine *)

(** Calls that succeeded. *)
Inductive arb_call :=
  | CallForceClose (tx : MsgTx)
  | CallMarkBroadcasted (tx : MsgTx)
  | CallPublish (tx : MsgTx)
  | CallSweepAnchor (a : AnchorResolution) (deadline : Z)
  | CallDeliver (msgs : list ResolutionMsg)
  | CallMarkClosed
  | CallMarkResolved.

Record arbitrator := {
  arb_state : ArbitratorState;
  arb_log_ : arb_log;
  activeHTLCs : gmap HtlcSetKey htlcSet;
  activeResolvers : list ContractResolver;
  bestHeight : Z;
  arb_exited : bool;
  arb_calls : list arb_call;
}.

Definition set_arb_state (s : ArbitratorState) (a : arbitrator) : arbitrator :=
  {| arb_state := s; arb_log_ := arb_log_ a; activeHTLCs := activeHTLCs a;
     activeResolvers := activeResolvers a; bestHeight := bestHeight a; arb_exited := arb_exited a;
     arb_calls := arb_calls a |}.
Definition set_log (l : arb_log) (a : arbitrator) : arbitrator :=
  {| arb_state := arb_state a; arb_log_ := l; activeHTLCs := activeHTLCs a;
     activeResolvers := activeResolvers a; bestHeight := bestHeight a; arb_exited := arb_exited a;
     arb_calls := arb_calls a |}.
Definition set_active (m : gmap HtlcSetKey htlcSet) (a : arbitrator) : arbitrator :=
  {| arb_state := arb_state a; arb_log_ := arb_log_ a; activeHTLCs := m;
     activeResolvers := activeResolvers a; bestHeight := bestHeight a; arb_exited := arb_exited a;
     arb_calls := arb_calls a |}.
Definition set_resolvers (rs : list ContractResolver) (a : arbitrator) : arbitrator :=
  {| arb_state := arb_state a; arb_log_ := arb_log_ a; activeHTLCs := activeHTLCs a;
     activeResolvers := rs; bestHeight := bestHeight a; arb_exited := arb_exited a;
     arb_calls := arb_calls a |}.
Definition set_best (h : Z) (a : arbitrator) : arbitrator :=
  {| arb_state := arb_state a; arb_log_ := arb_log_ a; activeHTLCs := activeHTLCs a;
     activeResolvers := activeResolvers a; bestHeight := h; arb_exited := arb_exited a;
     arb_calls := arb_calls a |}.
Definition set_exited (b : bool) (a : arbitrator) : arbitrator :=
  {| arb_state := arb_state a; arb_log_ := arb_log_ a; activeHTLCs := activeHTLCs a;
     activeResolvers := activeResolvers a; bestHeight := bestHeight a; arb_exited := b;
     arb_calls := arb_calls a |}.
Definition add_call (c : arb_call) (a : arbitrator) : arbitrator :=
  {| arb_state := arb_state a; arb_log_ := arb_log_ a; activeHTLCs := activeHTLCs a;
     activeResolvers := activeResolvers a; bestHeight := bestHeight a; arb_exited := arb_exited a;
     arb_calls := arb_calls a ++ [c] |}.

Open Scope op_scope.

Definition ErrDoubleSpend : error := Error "ErrDoubleSpend".
Definition errOutOfFuel : error := Error "out of fuel".
Definition errAlreadyForceClosed : error := Error "errAlreadyForceClosed".
Definition errResolverUnavailable : error := Error "htlc resolver unavailable".

(** A call whose answer is [r]. *)
Definition call {A} (r : res A) (c : A -> arb_call) : op arbitrator A :=
  a <- op_lift r ;; op_set (add_call (c a)) ;; op_ret a.

Section Machine.
Context (cfg : ChannelArbitratorConfig).

Definition checkLegacyBreach : op arbitrator ArbitratorState :=
  l <- op_get arb_log_ ;;
  match FetchContractResolutions l with
  | Ok _ => op_ret StateContractClosed
  | Err er => if bool_decide (er = errNoResolutions) then op_ret StateFullyResolved else op_err er
  | Panic => op_lift Panic
  end.

(** The anchor of the commitment with key [k]. *)
Definition anchor_for (anchors : AnchorResolutions) (k : HtlcSetKey) : option AnchorResolution :=
  if bool_decide (k = LocalHtlcSet) then ar_Local anchors
  else if bool_decide (k = RemoteHtlcSet) then ar_Remote anchors
  else if bool_decide (k = RemotePendingHtlcSet) then ar_RemotePending anchors
  else None.

Fixpoint sweep_sets (e : env) (anchors : AnchorResolutions) (heightHint : Z)
    (sets : list (HtlcSetKey * htlcSet)) : op arbitrator unit :=
  match sets with
  | [] => op_ret tt
  | (k, htlcs) :: sets' =>
      match anchor_for anchors k with
      | None => sweep_sets e anchors heightHint sets'
      | Some anchor =>
          deadline <- op_lift (findCommitmentDeadline e heightHint htlcs) ;;
          call (SweepInput e anchor deadline) (fun _ => CallSweepAnchor anchor deadline) ;;
          sweep_sets e anchors heightHint sets'
      end
  end.

Definition sweepAnchors (e : env) (anchors : AnchorResolutions) (heightHint : Z)
    : op arbitrator unit :=
  sets <- op_get activeHTLCs ;;
  sweep_sets e anchors heightHint (map_to_list sets).

Definition step_default (e : env) (triggerHeight : Z) (trigger : transitionTrigger)
    (confCommitSet : option CommitSet) : op arbitrator (ArbitratorState * option MsgTx) :=
  own <- op_get activeHTLCs ;;
  let htlcs := match confCommitSet with Some c => toActiveHTLCSets c | None => own end in
  chainActions <- op_lift (checkLocalChainActions cfg e triggerHeight trigger htlcs false) ;;
  if bool_decide (chainActions = ∅) && bool_decide (trigger = chainTrigger)
  then op_ret (StateDefault, None)
  else
    match trigger with
    | chainTrigger | userTrigger => op_ret (StateBroadcastCommit, None)
    | coopCloseTrigger => op_ret (StateFullyResolved, None)
    | localCloseTrigger | remoteCloseTrigger => op_ret (StateContractClosed, None)
    | breachCloseTrigger => s <- checkLegacyBreach ;; op_ret (s, None)
    end.

Definition step_broadcast (e : env) (trigger : transitionTrigger)
    : op arbitrator (ArbitratorState * option MsgTx) :=
  match trigger with
  | localCloseTrigger | remoteCloseTrigger => op_ret (StateContractClosed, None)
  | breachCloseTrigger => s <- checkLegacyBreach ;; op_ret (s, None)
  | coopCloseTrigger => op_ret (StateFullyResolved, None)
  | chainTrigger | userTrigger =>
      closeTx <- call (ForceCloseChan e) CallForceClose ;;
      call (MarkCommitmentBroadcasted_ e) (fun _ => CallMarkBroadcasted closeTx) ;;
      match PublishTx e with
      | Ok _ => op_set (add_call (CallPublish closeTx))
      | Err er => if bool_decide (er = ErrDoubleSpend) then op_ret tt else op_err er
      | Panic => op_lift Panic
      end ;;
      op_ret (StateCommitmentBroadcasted, Some closeTx)
  end.

Definition step_broadcasted (e : env) (triggerHeight : Z) (trigger : transitionTrigger)
    : op arbitrator (ArbitratorState * option MsgTx) :=
  match trigger with
  | chainTrigger | userTrigger =>
      anchors <- op_lift (NewAnchorResolutions e) ;;
      sweepAnchors e anchors triggerHeight ;;
      op_ret (StateCommitmentBroadcasted, None)
  | localCloseTrigger | remoteCloseTrigger => op_ret (StateContractClosed, None)
  | coopCloseTrigger => op_ret (StateFullyResolved, None)
  | breachCloseTrigger => s <- checkLegacyBreach ;; op_ret (s, None)
  end.

Definition launchResolvers (rs : list ContractResolver) : op arbitrator unit :=
  op_set (set_resolvers rs).

Definition step_closed (e : env) (triggerHeight : Z) (trigger : transitionTrigger)
    (confCommitSet : option CommitSet) : op arbitrator (ArbitratorState * option MsgTx) :=
  l <- op_get arb_log_ ;;
  contractResolutions <- op_lift (FetchContractResolutions l) ;;
  if Resolutions_IsEmpty contractResolutions && CommitSet_IsEmpty confCommitSet
  then op_ret (StateFullyResolved, None)
  else
    prepared <- op_lift (prepContractResolutions cfg e (FetchChainActions l) contractResolutions
                           triggerHeight trigger confCommitSet) ;;
    let '(htlcResolvers, pktsToSend) := prepared in
    (if bool_decide (pktsToSend = []) then op_ret tt
     else call (DeliverResolutionMsg e) (fun _ => CallDeliver pktsToSend)) ;;
    l' <- op_lift (InsertUnresolvedContracts l htlcResolvers (db_Insert e)) ;;
    op_set (set_log l') ;;
    launchResolvers htlcResolvers ;;
    op_ret (StateWaitingFullResolution, None).

(** The next state and the commitment transaction that was broadcast. *)
Definition stateStep (e : env) (triggerHeight : Z) (trigger : transitionTrigger)
    (confCommitSet : option CommitSet) : op arbitrator (ArbitratorState * option MsgTx) :=
  s <- op_get arb_state ;;
  match s with
  | StateDefault => step_default e triggerHeight trigger confCommitSet
  | StateBroadcastCommit => step_broadcast e trigger
  | StateCommitmentBroadcasted => step_broadcasted e triggerHeight trigger
  | StateContractClosed => step_closed e triggerHeight trigger confCommitSet
  | StateWaitingFullResolution =>
      l <- op_get arb_log_ ;;
      op_ret (if bool_decide (FetchUnresolvedContracts l = []) then StateFullyResolved
              else StateWaitingFullResolution, None)
  | StateFullyResolved =>
      call (MarkChannelResolved e) (fun _ => CallMarkResolved) ;;
      op_ret (StateFullyResolved, None)
  | StateError => op_ret (StateDefault, None)
  end.

Definition CommitState (e : env) (s : ArbitratorState) : op arbitrator unit :=
  _ <- op_lift (db_CommitState e) ;;
  l <- op_get arb_log_ ;;
  op_set (set_log (Some (with_state s (scope l)))).

(** The [n]th iteration meets the surroundings [envs n]. *)
Fixpoint advanceState (fuel : nat) (envs : nat -> env) (n : nat) (triggerHeight : Z)
    (trigger : transitionTrigger) (confCommitSet : option CommitSet) (forceCloseTx : option MsgTx)
    : op arbitrator (ArbitratorState * option MsgTx) :=
  match fuel with
  | O => op_err errOutOfFuel
  | S fuel' =>
      priorState <- op_get arb_state ;;
      stepped <- stateStep (envs n) triggerHeight trigger confCommitSet ;;
      let '(nextState, closeTx) := stepped in
      let forceCloseTx' := match forceCloseTx with Some tx => Some tx | None => closeTx end in
      if bool_decide (nextState = priorState) then op_ret (nextState, forceCloseTx')
      else
        CommitState (envs n) nextState ;;
        op_set (set_arb_state nextState) ;;
        advanceState fuel' envs (S n) triggerHeight trigger confCommitSet forceCloseTx'
  end.

(** Enough for every run: a run passes each state at most once. *)
Definition max_steps : nat := 7.

Definition advance (envs : nat -> env) (triggerHeight : Z) (trigger : transitionTrigger)
    (confCommitSet : option CommitSet) : op arbitrator (ArbitratorState * option MsgTx) :=
  advanceState max_steps envs 0 triggerHeight trigger confCommitSet None.

(** ** Events *)

(** What a confirmed commitment comes with, and whether its three writes succeed. *)
Record close_info := {
  ci_resolutions : ContractResolutions;
  ci_commitSet : CommitSet;
  ci_height : Z;
  ci_db_resolutions : res unit;
  ci_db_commitSet : res unit;
  ci_MarkChannelClosed : res unit;
}.

(** After a run the attendant exits when the channel is resolved: on an error the state is
    the one the run ended in, too. *)
Definition exit_if_resolved : op arbitrator unit :=
  s <- op_get arb_state ;;
  op_set (fun a => if bool_decide (s = StateFullyResolved) then set_exited true a else a).

Definition on_block (envs : nat -> env) (height : Z) : op arbitrator unit :=
  op_set (set_best height) ;;
  s <- op_get arb_state ;;
  if bool_decide (s = StateDefault) then
    op_try (advance envs height chainTrigger None) ;; exit_if_resolved
  else op_ret tt.

Definition on_htlc_update (k : HtlcSetKey) (htlcs : list HTLC) : op arbitrator unit :=
  op_set (fun a => set_active (<[k := newHtlcSet htlcs]> (activeHTLCs a)) a).

Definition on_coop_close (envs : nat -> env) (height : Z) (mark : res unit) : op arbitrator unit :=
  r <- op_try (call mark (fun _ => CallMarkClosed) ;; advance envs height coopCloseTrigger None) ;;
  match r with Ok _ => op_ret tt | _ => op_set (set_exited true) end.

(** A commitment was confirmed: what is needed to resolve it is stored before the channel is
    marked closed. *)
Definition log_close (info : close_info) : op arbitrator unit :=
  l <- op_get arb_log_ ;;
  op_lift (ci_db_resolutions info) ;;
  let l1 := Some (with_resolutions (ci_resolutions info) (scope l)) in
  op_set (set_log l1) ;;
  op_lift (ci_db_commitSet info) ;;
  op_set (set_log (Some (with_commitSet (ci_commitSet info) (scope l1)))) ;;
  call (ci_MarkChannelClosed info) (fun _ => CallMarkClosed).

Definition on_close (envs : nat -> env) (trigger : transitionTrigger) (height : Z)
    (info : close_info) : op arbitrator unit :=
  r <- op_try (log_close info) ;;
  match r with
  | Ok _ => op_try (advance envs height trigger (Some (ci_commitSet info))) ;; op_ret tt
  | _ => op_set (set_exited true)
  end.

Definition on_local_close (envs : nat -> env) (info : close_info) : op arbitrator unit :=
  on_close envs localCloseTrigger (ci_height info) info.

Definition on_remote_close (envs : nat -> env) (info : close_info) : op arbitrator unit :=
  on_close envs remoteCloseTrigger (ci_height info) info.

Definition on_breach (envs : nat -> env) (info : close_info) : op arbitrator unit :=
  best <- op_get bestHeight ;;
  on_close envs breachCloseTrigger best info.

Definition on_resolution (envs : nat -> env) : op arbitrator unit :=
  best <- op_get bestHeight ;;
  op_try (advance envs best chainTrigger None) ;; exit_if_resolved.

(** The transaction and the error that are sent back. *)
Definition on_force_close (envs : nat -> env) : op arbitrator (res (option MsgTx)) :=
  s <- op_get arb_state ;;
  if bool_decide (s = StateDefault) then
    best <- op_get bestHeight ;;
    r <- op_try (advance envs best userTrigger None) ;;
    exit_if_resolved ;;
    op_ret (rs ← r; Ok rs.2)
  else op_ret (Err errAlreadyForceClosed).

(** ** Resolvers *)

Definition key_eq (a b : res (option (list byte))) : bool :=
  match a, b with
  | Ok ka, Ok kb => bool_decide (default [] ka = default [] kb)
  | _, _ => false
  end.

Definition replaceResolver (old new : ContractResolver) (rs : list ContractResolver)
    : list ContractResolver :=
  match list_find (fun r => key_eq (ResolverKey r) (ResolverKey old) = true) rs with
  | Some (i, _) => <[i := new]> rs
  | None => rs
  end.

(** A resolver produced another; errors are only logged. *)
Definition resolver_swaps (old new : ContractResolver) (db : res unit) : op arbitrator unit :=
  op_set (fun a =>
    let a1 := match SwapContract (arb_log_ a) old new db with Ok l => set_log l a | _ => a end in
    set_resolvers (replaceResolver old new (activeResolvers a1)) a1).

(** A resolver has finished. *)
Definition resolver_finishes (r : ContractResolver) (db : res unit) : op arbitrator unit :=
  op_set (fun a => match ResolveContract (arb_log_ a) r db with Ok l => set_log l a | _ => a end).

(** A running resolver writes itself down. *)
Definition checkpointContract (r : ContractResolver) (db : res unit) : op arbitrator unit :=
  l <- op_get arb_log_ ;;
  l' <- op_lift (InsertUnresolvedContracts l [r] db) ;;
  op_set (set_log l').

(** ** Starting *)

Definition resolver_htlc_point (r : ContractResolver) : option (res OutPoint) :=
  match r with
  | SuccessResolver r _ _ | IncomingContestResolver r _ _ => Some (IncomingHtlcPoint r)
  | TimeoutResolver r _ _ | OutgoingContestResolver r _ _ => Some (OutgoingHtlcPoint r)
  | _ => None
  end.

Definition Supplement (htlc : HTLC) (r : ContractResolver) : ContractResolver :=
  match r with
  | SuccessResolver r h _ => SuccessResolver r h htlc
  | IncomingContestResolver r h _ => IncomingContestResolver r h htlc
  | TimeoutResolver r h _ => TimeoutResolver r h htlc
  | OutgoingContestResolver r h _ => OutgoingContestResolver r h htlc
  | r => r
  end.

Fixpoint supplement_all (htlcMap : gmap OutPoint HTLC) (rs : list ContractResolver)
    : res (list ContractResolver) :=
  match rs with
  | [] => Ok []
  | r :: rs' =>
      r' ← match resolver_htlc_point r with
           | None => Ok r
           | Some point =>
               o ← point;
               match htlcMap !! o with
               | Some htlc => Ok (Supplement htlc r)
               | None => Err errResolverUnavailable
               end
           end;
      rest ← supplement_all htlcMap rs';
      Ok (r' :: rest)
  end.

Definition confirmed_htlcs (l : arb_log) (commitSet : option CommitSet) : res (list HTLC) :=
  match commitSet with
  | Some c => match ConfCommitKey c with
              | Some k => Ok (default [] (HtlcSets c !! k))
              | None => Panic
              end
  | None => actions ← FetchChainActions l; Ok (mjoin (map_to_list actions).*2)
  end.

Definition relaunchResolvers (e : env) (commitSet : option CommitSet) (heightHint : Z)
    : op arbitrator unit :=
  l <- op_get arb_log_ ;;
  contractResolutions <- op_lift (FetchContractResolutions l) ;;
  confirmedHTLCs <- op_lift (confirmed_htlcs l commitSet) ;;
  let htlcMap := foldl (fun m htlc => <[htlc_op (CommitHash contractResolutions) htlc := htlc]> m)
                   (∅ : gmap OutPoint HTLC) confirmedHTLCs in
  op_lift (historical_ok e) ;;
  unresolved <- op_lift (supplement_all htlcMap (FetchUnresolvedContracts l)) ;;
  launchResolvers
    (unresolved ++ option_list ((fun a => AnchorResolver (CommitAnchor a) heightHint)
                                <$> cr_AnchorResolution contractResolutions)).

(** A channel that is pending close starts with the trigger of its closure, unless the
    state machine has already recorded it. *)
Definition start_trigger (s : ArbitratorState) : transitionTrigger :=
  if IsPendingClose cfg then
    match s with
    | StateDefault | StateBroadcastCommit | StateCommitmentBroadcasted =>
        match CloseType cfg with
        | CooperativeClose => coopCloseTrigger
        | BreachClose => breachCloseTrigger
        | LocalForceClose => localCloseTrigger
        | RemoteForceClose => remoteCloseTrigger
        | _ => chainTrigger
        end
    | _ => chainTrigger
    end
  else chainTrigger.

Definition NewChannelArbitrator (htlcSets : gmap HtlcSetKey htlcSet) (l : arb_log)
    (calls : list arb_call) : arbitrator :=
  {| arb_state := StateDefault; arb_log_ := l; activeHTLCs := htlcSets; activeResolvers := [];
     bestHeight := 0; arb_exited := true; arb_calls := calls |}.

(** [best] is the answer of [GetBestBlock]; the state is read from the log. *)
Definition Start (envs : nat -> env) (best : res Z) : op arbitrator unit :=
  l <- op_get arb_log_ ;;
  let state := lg_state (scope l) in
  let commitSet := lg_commitSet (scope l) in
  op_set (set_arb_state state) ;;
  height <- op_lift best ;;
  let triggerHeight := if IsPendingClose cfg then ClosingHeight cfg else u32 height in
  r <- op_try (advance envs triggerHeight (start_trigger state) commitSet) ;;
  match r with
  | Err er => if bool_decide (er = errScopeBucketNoExist) || bool_decide (er = errNoResolutions)
              then op_ret tt else op_err er
  | _ => op_ret tt
  end ;;
  nextState <- op_get arb_state ;;
  (if bool_decide (state = StateWaitingFullResolution)
      && bool_decide (nextState = StateWaitingFullResolution)
   then relaunchResolvers (envs 0%nat) commitSet triggerHeight
   else op_ret tt) ;;
  op_set (fun a => set_exited false (set_best height a)).

End Machine.
