(* ===== verification/ArbitratorInv.v ===== *)
(** * The channel arbitrator: lemmas

    What the loops over HTLC sets compute, the states a run passes and what it leaves in the
    log. *)

From Stdlib Require Import Lia.
From S2P Require Import Prelude Sha256 Ids Amounts UpdateLog Channel CommitTx StateRes Arbitrator.

(** ** Maps of actions *)

(** The HTLCs an action is to be taken on. *)
Definition acts (m : ChainActionMap) (a : ChainAction) : list HTLC := default [] (m !! a).

Lemma acts_empty a : acts ∅ a = [].
Proof. unfold acts. by rewrite lookup_empty. Qed.

Lemma acts_add a m htlc b : acts (add_action a m htlc) b = acts m b ++ (if decide (a = b) then [htlc] else []).
Proof.
  unfold acts, add_action. destruct (decide (a = b)) as [->|Hne].
  - by rewrite lookup_insert_eq.
  - by rewrite lookup_insert_ne, app_nil_r.
Qed.

Lemma acts_merge c d a : acts (Merge c d) a = acts c a ++ acts d a.
Proof.
  unfold acts, Merge. rewrite lookup_union_with.
  destruct (c !! a), (d !! a); simpl; by rewrite ?app_nil_r.
Qed.

(** A loop that files each HTLC under an action, or skips it. *)
Lemma acts_fold (f : HTLC -> option ChainAction) l m a :
  acts (foldl (fun m htlc => match f htlc with Some b => add_action b m htlc | None => m end) m l) a
  = acts m a ++ filter (fun htlc => f htlc = Some a) l.
Proof.
  revert m. induction l as [|h l IH]; intros m; simpl; [by rewrite app_nil_r|].
  rewrite IH, filter_cons. destruct (f h) as [b|]; [|by rewrite decide_False by done].
  rewrite acts_add, <- app_assoc. f_equal.
  destruct (decide (b = a)) as [->|Hne]; [by rewrite decide_True|].
  rewrite decide_False by congruence. done.
Qed.

Lemma foldl_ext {A B} (f g : A -> B -> A) l a :
  (forall x y, f x y = g x y) -> foldl f a l = foldl g a l.
Proof. intros E. revert a. induction l as [|y l IH]; intros a; simpl; [done|]. by rewrite E. Qed.

(** ** Sets of HTLCs *)

(** The set of one direction, as a list of HTLCs gives it. *)
Definition dir_map (incoming : bool) (htlcs : list HTLC) : gmap Z HTLC :=
  foldl (fun m htlc => if eqb (disk_Incoming htlc) incoming then <[disk_HtlcIndex htlc := htlc]> m else m)
        ∅ htlcs.

Lemma newHtlcSet_spec htlcs :
  newHtlcSet htlcs = {| incomingHTLCs_ := dir_map true htlcs; outgoingHTLCs_ := dir_map false htlcs |}.
Proof.
  unfold newHtlcSet, dir_map, empty_set. generalize (∅ : gmap Z HTLC) at 1 3 as mi.
  generalize (∅ : gmap Z HTLC) as mo.
  induction htlcs as [|h l IH]; intros mo mi; simpl; [done|].
  destruct (disk_Incoming h); simpl; apply IH.
Qed.

(** The HTLCs of a commitment in one direction. *)
Definition in_dir (incoming : bool) (htlcs : list HTLC) : list HTLC :=
  filter (fun h => disk_Incoming h = incoming) htlcs.

Lemma dir_map_list incoming htlcs :
  NoDup (disk_HtlcIndex <$> in_dir incoming htlcs) ->
  dir_map incoming htlcs = list_to_map ((fun h => (disk_HtlcIndex h, h)) <$> in_dir incoming htlcs).
Proof.
  unfold dir_map. assert (forall l (m : gmap Z HTLC), NoDup (disk_HtlcIndex <$> in_dir incoming l) ->
    (forall h, h ∈ in_dir incoming l -> m !! disk_HtlcIndex h = None) ->
    foldl (fun m htlc => if eqb (disk_Incoming htlc) incoming then <[disk_HtlcIndex htlc := htlc]> m else m) m l
    = list_to_map ((fun h => (disk_HtlcIndex h, h)) <$> in_dir incoming l) ∪ m) as Hgen.
  { induction l as [|h l IH]; intros m Hnd Hm; simpl; [by rewrite map_empty_union|].
    unfold in_dir in *. rewrite filter_cons in *.
    destruct (decide (disk_Incoming h = incoming)) as [->|Hne].
    - rewrite eqb_reflx. rewrite fmap_cons, NoDup_cons in Hnd. destruct Hnd as [Hni Hnd]. simpl.
      rewrite IH; [|done|].
      + rewrite <- insert_union_l, insert_union_r; [done|].
        apply not_elem_of_list_to_map. rewrite <- list_fmap_compose. exact Hni.
      + intros h' Hh'. rewrite lookup_insert_ne; [apply Hm; set_solver|].
        intros E. apply Hni. rewrite E. apply list_elem_of_fmap. eauto.
    - rewrite (proj2 (eqb_false_iff _ _)) by done. apply IH; [done|]. set_solver. }
  intros Hnd. rewrite Hgen by (done || intros; apply lookup_empty). apply map_union_empty.
Qed.

Lemma dir_map_values incoming htlcs :
  NoDup (disk_HtlcIndex <$> in_dir incoming htlcs) ->
  values (dir_map incoming htlcs) ≡ₚ in_dir incoming htlcs.
Proof.
  intros Hnd. rewrite dir_map_list by done. unfold values.
  rewrite map_to_list_to_map by (by rewrite <- list_fmap_compose).
  rewrite <- list_fmap_compose. by rewrite list_fmap_id.
Qed.

Lemma dir_map_lookup incoming htlcs i h :
  dir_map incoming htlcs !! i = Some h -> disk_HtlcIndex h = i /\ h ∈ in_dir incoming htlcs.
Proof.
  unfold dir_map, in_dir.
  assert (forall l (m : gmap Z HTLC), foldl (fun m htlc => if eqb (disk_Incoming htlc) incoming
      then <[disk_HtlcIndex htlc := htlc]> m else m) m l !! i = Some h ->
    (disk_HtlcIndex h = i /\ h ∈ filter (fun h => disk_Incoming h = incoming) l) \/ m !! i = Some h) as Hgen.
  { induction l as [|x l IH]; intros m; simpl; [by right|]. intros Hl. apply IH in Hl.
    rewrite filter_cons. destruct (eqb_spec (disk_Incoming x) incoming) as [E|E].
    - rewrite decide_True by done. destruct Hl as [[? ?]|Hl]; [left; split; [done|by right]|].
      apply lookup_insert_Some in Hl as [[<- <-]|[_ ?]]; [left; split; [done|left]|by right].
    - rewrite decide_False by done. tauto. }
  intros Hl. apply Hgen in Hl as [?|Hl]; [done|]. by rewrite lookup_empty in Hl.
Qed.

Lemma elem_of_values (m : gmap Z HTLC) h : h ∈ values m <-> exists i, m !! i = Some h.
Proof.
  unfold values. rewrite list_elem_of_fmap. split.
  - intros ([i x] & -> & Hx). apply elem_of_map_to_list in Hx. eauto.
  - intros [i Hi]. exists (i, h). split; [done|]. by apply elem_of_map_to_list.
Qed.

Lemma dir_map_is_Some incoming htlcs i :
  is_Some (dir_map incoming htlcs !! i) <-> i ∈ (disk_HtlcIndex <$> in_dir incoming htlcs).
Proof.
  split; [intros [h Hh]; apply dir_map_lookup in Hh as [<- Hh]; apply list_elem_of_fmap; eauto|].
  unfold dir_map, in_dir.
  assert (forall l (m : gmap Z HTLC), is_Some (m !! i) \/
      i ∈ (disk_HtlcIndex <$> filter (fun h => disk_Incoming h = incoming) l) ->
    is_Some (foldl (fun m htlc => if eqb (disk_Incoming htlc) incoming
      then <[disk_HtlcIndex htlc := htlc]> m else m) m l !! i)) as Hgen; [|by intros Hi; apply Hgen; right].
  induction l as [|x l IH]; intros m Hm; simpl; [by destruct Hm as [?|?%elem_of_nil]|]. apply IH.
  rewrite filter_cons in Hm. destruct (eqb_spec (disk_Incoming x) incoming) as [E|E].
  - rewrite decide_True in Hm by done. rewrite fmap_cons, elem_of_cons in Hm.
    destruct Hm as [Hm|[->|Hm]]; [left|left|by right].
    + destruct (decide (disk_HtlcIndex x = i)) as [->|]; [by rewrite lookup_insert_eq|by rewrite lookup_insert_ne].
    + by rewrite lookup_insert_eq.
  - by rewrite decide_False in Hm.
Qed.

(** Filing HTLCs of many sets by index. *)
Lemma fold_insert_lookup l (m : gmap Z HTLC) i h :
  foldl (fun m htlc => <[disk_HtlcIndex htlc := htlc]> m) m l !! i = Some h ->
  (h ∈ l /\ disk_HtlcIndex h = i) \/ m !! i = Some h.
Proof.
  revert m. induction l as [|x l IH]; intros m; simpl; [by right|]. intros [[? ?]|Hl]%IH.
  - left. split; [by right|done].
  - apply lookup_insert_Some in Hl as [[<- <-]|[_ ?]]; [left; split; [left|done]|by right].
Qed.

Lemma fold_insert_is_Some l (m : gmap Z HTLC) i :
  is_Some (m !! i) \/ i ∈ (disk_HtlcIndex <$> l) ->
  is_Some (foldl (fun m htlc => <[disk_HtlcIndex htlc := htlc]> m) m l !! i).
Proof.
  revert m. induction l as [|x l IH]; intros m Hm; simpl; [by destruct Hm as [?|?%elem_of_nil]|].
  apply IH. rewrite fmap_cons, elem_of_cons in Hm.
  destruct Hm as [Hm|[->|Hm]]; [left|left; by rewrite lookup_insert_eq|by right].
  destruct (decide (disk_HtlcIndex x = i)) as [->|]; [by rewrite lookup_insert_eq|by rewrite lookup_insert_ne].
Qed.

Lemma fold_set_elem l (s : gset Z) i :
  i ∈ foldl (fun s htlc => {[ disk_HtlcIndex htlc ]} ∪ s) s l <-> i ∈ s \/ i ∈ (disk_HtlcIndex <$> l).
Proof. revert s. induction l as [|x l IH]; intros s; simpl; [set_solver|]. rewrite IH. set_solver. Qed.

Lemma remote_outgoing_lookup sets i h :
  remote_outgoing sets !! i = Some h ->
  disk_HtlcIndex h = i /\
  exists k s, sets !! k = Some s /\ IsRemote k = true /\ h ∈ values (outgoingHTLCs_ s).
Proof.
  unfold remote_outgoing.
  assert (forall l (m : gmap Z HTLC),
    foldl (fun m p => if IsRemote p.1 then foldl (fun m htlc => <[disk_HtlcIndex htlc := htlc]> m) m
             (values (outgoingHTLCs_ p.2)) else m) m l !! i = Some h ->
    (disk_HtlcIndex h = i /\ exists k s, (k, s) ∈ l /\ IsRemote k = true /\ h ∈ values (outgoingHTLCs_ s))
    \/ m !! i = Some h) as Hgen.
  { induction l as [|[k s] l IH]; intros m; simpl; [by right|]. intros [(? & k' & s' & ? & ?)|Hl]%IH.
    - left. split; [done|]. exists k', s'. split; [by right|done].
    - destruct (IsRemote k) eqn:Ek; [|by right].
      apply fold_insert_lookup in Hl as [[? ?]|?]; [|by right]. left. split; [done|].
      exists k, s. split; [left|done]. }
  intros Hl. apply Hgen in Hl as [(? & k & s & Hin & ?)|Hl]; [|by rewrite lookup_empty in Hl].
  split; [done|]. exists k, s. split; [by apply elem_of_map_to_list|done].
Qed.

Lemma remote_outgoing_is_Some sets k s h :
  sets !! k = Some s -> IsRemote k = true -> h ∈ values (outgoingHTLCs_ s) ->
  is_Some (remote_outgoing sets !! disk_HtlcIndex h).
Proof.
  intros Hk Hr Hh. unfold remote_outgoing.
  assert (forall l (m : gmap Z HTLC), is_Some (m !! disk_HtlcIndex h) \/ (k, s) ∈ l ->
    is_Some (foldl (fun m p => if IsRemote p.1 then foldl (fun m htlc => <[disk_HtlcIndex htlc := htlc]> m) m
             (values (outgoingHTLCs_ p.2)) else m) m l !! disk_HtlcIndex h)) as Hgen.
  { induction l as [|[k' s'] l IH]; intros m Hm; simpl; [by destruct Hm as [?|?%elem_of_nil]|]. apply IH.
    rewrite elem_of_cons in Hm. destruct Hm as [Hm|[[= <- <-]|Hm]]; [left|left|by right].
    - destruct (IsRemote k'); [|done]. apply fold_insert_is_Some. by left.
    - rewrite Hr. apply fold_insert_is_Some. right. apply list_elem_of_fmap. eauto. }
  apply Hgen. right. by apply elem_of_map_to_list.
Qed.

Lemma local_outgoing_elem sets i :
  i ∈ local_outgoing sets <->
  exists k s h, sets !! k = Some s /\ IsRemote k = false /\ h ∈ values (outgoingHTLCs_ s) /\
    disk_HtlcIndex h = i.
Proof.
  unfold local_outgoing.
  assert (forall l (s0 : gset Z),
    i ∈ foldl (fun s p => if IsRemote p.1 then s else
          foldl (fun s htlc => {[ disk_HtlcIndex htlc ]} ∪ s) s (values (outgoingHTLCs_ p.2))) s0 l <->
    i ∈ s0 \/ exists k s h, (k, s) ∈ l /\ IsRemote k = false /\ h ∈ values (outgoingHTLCs_ s) /\
      disk_HtlcIndex h = i) as Hgen.
  { induction l as [|[k s] l IH]; intros s0; simpl.
    - split; [by left|]. intros [?|(? & ? & ? & ?%elem_of_nil & _)]; done.
    - rewrite IH. destruct (IsRemote k) eqn:Ek; rewrite ?fold_set_elem, ?list_elem_of_fmap; split.
      + intros [?|(k' & s' & h & ? & ?)]; [by left|]. right. exists k', s', h. split; [by right|done].
      + intros [?|(k' & s' & h & [[= -> ->]|?]%elem_of_cons & ? & ?)]; [by left|congruence|right; eauto 10].
      + intros [[?|(h & -> & ?)]|(k' & s' & h & ? & ?)]; [by left| |].
        * right. exists k, s, h. split; [left|done].
        * right. exists k', s', h. split; [by right|done].
      + intros [?|(k' & s' & h & [[= -> ->]|?]%elem_of_cons & ? & ? & <-)]; [by left; left| |].
        * left. right. eauto.
        * right. eauto 10. }
  rewrite Hgen. split.
  - intros [?|(k & s & h & ?%elem_of_map_to_list & ?)]; [set_solver|eauto 10].
  - intros (k & s & h & ? & ?). right. exists k, s, h. split; [by apply elem_of_map_to_list|done].
Qed.

(** ** The actions on a confirmed commitment *)

Section Actions.
Context (cfg : ChannelArbitratorConfig) (e : env) (ht : Z) (trigger : transitionTrigger).

Definition has_output (htlc : HTLC) : Prop := 0 <= disk_OutputIndex htlc.
#[export] Instance has_output_dec htlc : Decision (has_output htlc).
Proof. unfold has_output. apply _. Defined.

(** The trigger asks for the actions on [s]: a block does so only when an HTLC is due. *)
Definition asks_for (s : htlcSet) : Prop :=
  forall b, incoming_to_chain cfg e ht (values (incomingHTLCs_ s))
      (existsb (fun h => shouldGoOnChain cfg e FirstPass h (OutgoingBroadcastDelta cfg) ht)
         (values (outgoingHTLCs_ s))) = Ok b ->
    b = true \/ trigger <> chainTrigger.

Lemma commit_actions s m a :
  asks_for s -> checkCommitChainActions cfg e ht trigger s = Ok m ->
  acts m a = filter (fun h => outgoing_action cfg e ht h = a) (values (outgoingHTLCs_ s))
             ++ (if decide (a = HtlcIncomingWatchAction)
                 then filter has_output (values (incomingHTLCs_ s)) else []).
Proof.
  intros Ht. unfold checkCommitChainActions. intros (have & Hhave & Hm)%bind_ok.
  assert (negb have && bool_decide (trigger = chainTrigger) = false) as Hf.
  { apply andb_false_iff. destruct (Ht have Hhave) as [->|Hne]; [by left|right; by apply bool_decide_eq_false]. }
  rewrite Hf in Hm. injection Hm as <-.
  rewrite (foldl_ext _ (fun m htlc => match (if disk_OutputIndex htlc <? 0 then None
    else Some HtlcIncomingWatchAction) with Some b => add_action b m htlc | None => m end))
    by (intros x y; by case_match).
  rewrite acts_fold.
  rewrite (acts_fold (fun h => Some (outgoing_action cfg e ht h))), acts_empty, app_nil_l. f_equal.
  - apply list_filter_iff. naive_solver.
  - destruct (decide (a = HtlcIncomingWatchAction)) as [->|Hne].
    + apply list_filter_iff. intros h. unfold has_output. destruct (Z.ltb_spec (disk_OutputIndex h) 0); naive_solver lia.
    + apply filter_none. intros h _. case_match; congruence.
Qed.

(** Outgoing HTLCs of the remote commitments that are on none of ours. *)
Definition dangling (sets : gmap HtlcSetKey htlcSet) : list HTLC :=
  (filter (fun p => p.1 ∉ local_outgoing sets) (map_to_list (remote_outgoing sets))).*2.

Lemma dangling_actions sets a :
  acts (checkRemoteDanglingActions cfg e ht sets true) a
  = if decide (a = HtlcFailNowAction) then dangling sets else [].
Proof.
  unfold checkRemoteDanglingActions. fold (dangling sets).
  rewrite (foldl_ext _ (fun m htlc => add_action HtlcFailNowAction m htlc))
    by (intros x y; by rewrite andb_false_r).
  rewrite (acts_fold (fun _ => Some HtlcFailNowAction)), acts_empty, app_nil_l. destruct (decide (a = HtlcFailNowAction)) as [->|Hne].
  - by apply filter_all.
  - apply filter_none. intros h _. congruence.
Qed.

(** Outgoing HTLCs of one remote commitment that the confirmed one does not have. *)
Definition only_on (other conf : htlcSet) : list HTLC :=
  filter (fun h => disk_HtlcIndex h ∉ (disk_HtlcIndex <$> values (outgoingHTLCs_ conf)))
    (values (outgoingHTLCs_ other)).

Lemma diff_actions sets pendingConf a :
  acts (checkRemoteDiffActions sets pendingConf) a
  = if decide (a = HtlcFailNowAction)
    then only_on (active sets (if pendingConf then RemoteHtlcSet else RemotePendingHtlcSet))
                 (active sets (if pendingConf then RemotePendingHtlcSet else RemoteHtlcSet))
    else [].
Proof.
  unfold checkRemoteDiffActions.
  set (conf := active sets (if pendingConf then RemotePendingHtlcSet else RemoteHtlcSet)).
  set (other := active sets (if pendingConf then RemoteHtlcSet else RemotePendingHtlcSet)).
  set (s := foldl _ ∅ (values (outgoingHTLCs_ conf))).
  rewrite (foldl_ext _ (fun m htlc => match (if bool_decide (disk_HtlcIndex htlc ∈ s) then None
    else Some HtlcFailNowAction) with Some b => add_action b m htlc | None => m end))
    by (intros x y; by case_match).
  rewrite acts_fold, acts_empty, app_nil_l.
  assert (forall i, i ∈ s <-> i ∈ (disk_HtlcIndex <$> values (outgoingHTLCs_ conf))) as Hs.
  { intros i. unfold s. rewrite fold_set_elem. set_solver. }
  destruct (decide (a = HtlcFailNowAction)) as [->|Hne].
  - apply list_filter_iff. intros h. rewrite <- Hs. case_bool_decide; naive_solver.
  - apply filter_none. intros h _. case_match; congruence.
Qed.

(** The HTLCs of a commitment. *)
Definition htlcs_of (c : CommitSet) (k : HtlcSetKey) : list HTLC := default [] (HtlcSets c !! k).

(** The outgoing HTLCs of the commitments that lost to the confirmed one and whose HTLCs
    were offered to the other party. *)
Definition competing (c : CommitSet) (k : HtlcSetKey) : list HTLC :=
  in_dir false (if bool_decide (k = LocalHtlcSet)
                then htlcs_of c RemoteHtlcSet ++ htlcs_of c RemotePendingHtlcSet
                else htlcs_of c (if bool_decide (k = RemoteHtlcSet) then RemotePendingHtlcSet
                                 else RemoteHtlcSet)).

(** A commitment of the three kinds was confirmed, and on every commitment the HTLCs of a
    direction have indexes of their own. *)
Record good_set (c : CommitSet) (k : HtlcSetKey) : Prop := {
  gs_conf : ConfCommitKey c = Some k;
  gs_key : k ∈ [LocalHtlcSet; RemoteHtlcSet; RemotePendingHtlcSet];
  gs_keys : forall k', is_Some (HtlcSets c !! k') ->
    k' ∈ [LocalHtlcSet; RemoteHtlcSet; RemotePendingHtlcSet];
  gs_nodup : forall k' b, NoDup (disk_HtlcIndex <$> in_dir b (htlcs_of c k'));
}.

Lemma active_sets c k : active (toActiveHTLCSets c) k = newHtlcSet (htlcs_of c k).
Proof.
  unfold active, toActiveHTLCSets, htlcs_of. rewrite lookup_fmap. by destruct (HtlcSets c !! k).
Qed.

Lemma active_outgoing c k k' : good_set c k ->
  values (outgoingHTLCs_ (active (toActiveHTLCSets c) k')) ≡ₚ in_dir false (htlcs_of c k').
Proof.
  intros Hg. rewrite active_sets, newHtlcSet_spec. simpl. apply dir_map_values, (gs_nodup _ _ Hg).
Qed.

Lemma active_incoming c k k' : good_set c k ->
  values (incomingHTLCs_ (active (toActiveHTLCSets c) k')) ≡ₚ in_dir true (htlcs_of c k').
Proof.
  intros Hg. rewrite active_sets, newHtlcSet_spec. simpl. apply dir_map_values, (gs_nodup _ _ Hg).
Qed.

(** What is cancelled because it is only on a commitment that lost. *)
Record lost_htlcs (c : CommitSet) (k : HtlcSetKey) (l : list HTLC) : Prop := {
  lo_nodup : NoDup (disk_HtlcIndex <$> l);
  lo_elem : forall i, i ∈ (disk_HtlcIndex <$> l) <->
    i ∈ (disk_HtlcIndex <$> competing c k) /\ i ∉ (disk_HtlcIndex <$> in_dir false (htlcs_of c k));
}.

Lemma set_lookup c k s : toActiveHTLCSets c !! k = Some s -> s = active (toActiveHTLCSets c) k.
Proof. unfold active. by intros ->. Qed.

Lemma dangling_lost c : good_set c LocalHtlcSet -> lost_htlcs c LocalHtlcSet (dangling (toActiveHTLCSets c)).
Proof.
  intros Hg. set (sets := toActiveHTLCSets c).
  assert (forall p, p ∈ map_to_list (remote_outgoing sets) -> disk_HtlcIndex p.2 = p.1) as Hidx.
  { intros [i h] Hp%elem_of_map_to_list. by apply remote_outgoing_lookup in Hp as [? _]. }
  assert (forall i, i ∈ local_outgoing sets <->
    i ∈ (disk_HtlcIndex <$> in_dir false (htlcs_of c LocalHtlcSet))) as Hloc.
  { intros i. rewrite local_outgoing_elem, list_elem_of_fmap. split.
    - intros (k & s & h & Hk & Hr & Hh & <-). exists h. split; [done|].
      assert (k = LocalHtlcSet) as ->.
      { assert (is_Some (HtlcSets c !! k)) as Hs
          by (unfold sets, toActiveHTLCSets in Hk; rewrite lookup_fmap in Hk; by destruct (HtlcSets c !! k)).
        apply (gs_keys _ _ Hg) in Hs. set_solver. }
      rewrite <- (active_outgoing _ _ _ Hg), <- (set_lookup _ _ _ Hk). done.
    - intros (h & -> & Hh). rewrite <- (active_outgoing _ _ _ Hg) in Hh.
      exists LocalHtlcSet. unfold active in Hh. fold sets in Hh.
      destruct (sets !! LocalHtlcSet) as [s|]; [|by apply elem_of_values in Hh as [? ?]].
      exists s, h. done. }
  assert (dangling sets = (filter (fun p => p.1 ∉ local_outgoing sets) (map_to_list (remote_outgoing sets))).*2)
    as Ed by done.
  split.
  - rewrite Ed, <- list_fmap_compose.
    rewrite (list_fmap_ext _ fst); [|intros i p Hp; simpl; apply Hidx;
      apply list_elem_of_lookup_2 in Hp; by apply list_elem_of_filter in Hp as [_ ?]].
    apply NoDup_fmap_fst; [|apply NoDup_filter, NoDup_map_to_list].
    intros i h1 h2 [_ Hi1%elem_of_map_to_list]%list_elem_of_filter [_ Hi2%elem_of_map_to_list]%list_elem_of_filter.
    congruence.
  - intros i. rewrite <- Hloc, Ed, !list_elem_of_fmap. split.
    + intros (h & -> & Hh). apply list_elem_of_fmap in Hh as ([i' h'] & -> & Hh). simpl.
      apply list_elem_of_filter in Hh as [Hni Hin]. pose proof (Hidx _ Hin) as Ei. simpl in *. rewrite Ei.
      split; [|done]. exists h'. split; [done|].
      apply elem_of_map_to_list in Hin. apply remote_outgoing_lookup in Hin as (_ & k & s & Hk & Hr & Hh).
      unfold competing. rewrite bool_decide_true by done. unfold in_dir. rewrite filter_app, elem_of_app.
      rewrite (set_lookup _ _ _ Hk) in Hh. rewrite (active_outgoing _ _ _ Hg) in Hh.
      assert (is_Some (HtlcSets c !! k)) as Hs
        by (unfold sets, toActiveHTLCSets in Hk; rewrite lookup_fmap in Hk; by destruct (HtlcSets c !! k)).
      apply (gs_keys _ _ Hg) in Hs. unfold in_dir in Hh.
      assert (k = RemoteHtlcSet \/ k = RemotePendingHtlcSet) as [-> | ->] by set_solver; auto.
    + intros [(h & -> & Hh) Hni]. unfold competing in Hh. rewrite bool_decide_true in Hh by done.
      unfold in_dir in Hh. rewrite filter_app, elem_of_app in Hh.
      assert (is_Some (remote_outgoing sets !! disk_HtlcIndex h)) as [h' Hh'].
      { assert (forall k, IsRemote k = true -> h ∈ in_dir false (htlcs_of c k) ->
          is_Some (remote_outgoing sets !! disk_HtlcIndex h)) as Hk.
        { intros k Hr Hin. rewrite <- (active_outgoing _ _ _ Hg) in Hin. unfold active in Hin. fold sets in Hin.
          destruct (sets !! k) as [s|] eqn:Es; [|by apply elem_of_values in Hin as [? ?]].
          by eapply remote_outgoing_is_Some. }
        destruct Hh as [Hh|Hh]; [by apply (Hk RemoteHtlcSet)|by apply (Hk RemotePendingHtlcSet)]. }
      pose proof (remote_outgoing_lookup _ _ _ Hh') as [Ei _].
      exists h'. split; [done|]. apply list_elem_of_fmap. exists (disk_HtlcIndex h, h').
      split; [done|]. apply list_elem_of_filter. split; [done|]. by apply elem_of_map_to_list.
Qed.

Lemma only_on_lost c k other : good_set c k -> k <> LocalHtlcSet ->
  other = (if bool_decide (k = RemoteHtlcSet) then RemotePendingHtlcSet else RemoteHtlcSet) ->
  lost_htlcs c k (only_on (active (toActiveHTLCSets c) other) (active (toActiveHTLCSets c) k)).
Proof.
  intros Hg Hk ->. unfold only_on.
  set (o := if bool_decide (k = RemoteHtlcSet) then RemotePendingHtlcSet else RemoteHtlcSet).
  assert (competing c k = in_dir false (htlcs_of c o)) as Ec
    by (unfold competing; by rewrite bool_decide_false).
  split.
  - assert (NoDup (disk_HtlcIndex <$> values (outgoingHTLCs_ (active (toActiveHTLCSets c) o)))) as Hnd
      by (rewrite (active_outgoing _ _ _ Hg); apply (gs_nodup _ _ Hg)).
    revert Hnd. generalize (values (outgoingHTLCs_ (active (toActiveHTLCSets c) o))) as l.
    induction l as [|h l IH]; [done|]. rewrite fmap_cons, NoDup_cons. intros [Hni Hnd].
    rewrite filter_cons. case_decide; [|by apply IH]. rewrite fmap_cons, NoDup_cons. split; [|by apply IH].
    intros (h' & E & Hh')%list_elem_of_fmap. apply Hni, list_elem_of_fmap. exists h'. split; [done|].
    by apply list_elem_of_filter in Hh' as [_ ?].
  - intros i. rewrite Ec, !list_elem_of_fmap. split.
    + intros (h & -> & [Hni Hh]%list_elem_of_filter).
      rewrite (active_outgoing _ _ _ Hg) in Hh. rewrite (active_outgoing _ _ _ Hg) in Hni. split; [eauto|]. by rewrite <- list_elem_of_fmap.
    + intros [(h & -> & Hh) Hni]. exists h. split; [done|]. apply list_elem_of_filter.
      rewrite (active_outgoing _ _ _ Hg), list_elem_of_fmap. split; [done|].
      by rewrite (active_outgoing _ _ _ Hg).
Qed.

Lemma outgoing_fail h : outgoing_action cfg e ht h = HtlcFailNowAction <-> ~ has_output h.
Proof.
  unfold outgoing_action, has_output. destruct (Z.ltb_spec (disk_OutputIndex h) 0); [naive_solver lia|].
  case_match; naive_solver lia.
Qed.

(** All that is done about the HTLCs of a confirmed commitment and of those it beat. *)
Record all_actions (c : CommitSet) (k : HtlcSetKey) (m : ChainActionMap) : Prop := {
  aa_other a : a <> HtlcFailNowAction ->
    acts m a ≡ₚ filter (fun h => outgoing_action cfg e ht h = a) (in_dir false (htlcs_of c k))
                ++ (if decide (a = HtlcIncomingWatchAction)
                    then filter has_output (in_dir true (htlcs_of c k)) else []);
  aa_fail : exists lost, lost_htlcs c k lost /\
    acts m HtlcFailNowAction
    ≡ₚ filter (fun h => ~ has_output h) (in_dir false (htlcs_of c k)) ++ lost;
}.

Lemma merged_actions c k m m1 m2 lost :
  good_set c k -> asks_for (active (toActiveHTLCSets c) k) ->
  checkCommitChainActions cfg e ht trigger (active (toActiveHTLCSets c) k) = Ok m1 ->
  (forall a, acts m2 a = if decide (a = HtlcFailNowAction) then lost else []) ->
  lost_htlcs c k lost -> m = Merge m1 m2 -> all_actions c k m.
Proof.
  intros Hg Ht H1 H2 Hl ->. split.
  - intros a Ha. rewrite acts_merge, H2, decide_False, app_nil_r by done.
    rewrite (commit_actions _ _ _ Ht H1). apply Permutation_app.
    + by rewrite (active_outgoing _ _ _ Hg).
    + case_decide; [|done]. by rewrite (active_incoming _ _ _ Hg).
  - exists lost. split; [done|]. rewrite acts_merge, H2, decide_True by done.
    rewrite (commit_actions _ _ _ Ht H1), decide_False, app_nil_r by done.
    apply Permutation_app; [|done]. rewrite (active_outgoing _ _ _ Hg).
    erewrite list_filter_iff; [done|]. intros h. apply outgoing_fail.
Qed.

Lemma construct_actions stored c k m :
  good_set c k -> asks_for (active (toActiveHTLCSets c) k) ->
  constructChainActions cfg e stored (Some c) ht trigger = Ok m -> all_actions c k m.
Proof.
  intros Hg Ht. unfold constructChainActions. rewrite (gs_conf _ _ Hg).
  pose proof (gs_key _ _ Hg) as Hk. rewrite !elem_of_cons in Hk.
  destruct Hk as [->|[->|[->|Hk%elem_of_nil]]]; [| | |done].
  - rewrite bool_decide_true by done. intros (m1 & H1 & [= <-])%bind_ok.
    eapply (merged_actions c LocalHtlcSet _ m1); [done|done|done|intros a; apply dangling_actions|by apply dangling_lost|done].
  - rewrite bool_decide_false, bool_decide_true by done. intros (m1 & H1 & [= <-])%bind_ok.
    eapply (merged_actions c RemoteHtlcSet _ m1 (checkRemoteDiffActions _ false)); [done|done|done|intros a; apply diff_actions| |done].
    by apply only_on_lost.
  - rewrite !bool_decide_false, bool_decide_true by done. intros (m1 & H1 & [= <-])%bind_ok.
    eapply (merged_actions c RemotePendingHtlcSet _ m1 (checkRemoteDiffActions _ true)); [done|done|done|intros a; apply diff_actions| |done].
    by apply only_on_lost.
Qed.

End Actions.

(** ** Resolvers *)

Lemma resolution_map_lookup {A} (point : A -> res OutPoint) l m0 m o r :
  resolution_map point l m0 = Ok m -> m !! o = Some r -> (r ∈ l /\ point r = Ok o) \/ m0 !! o = Some r.
Proof.
  revert m0. induction l as [|x l IH]; intros m0; simpl; [intros [= <-]; by right|].
  intros (o' & Ho & Hm)%bind_ok Hl. destruct (IH _ Hm Hl) as [[? ?]|Hx]; [left; split; [by right|done]|].
  apply lookup_insert_Some in Hx as [[<- <-]|[_ ?]]; [left; split; [left|done]|by right].
Qed.

Lemma resolution_map_is_Some {A} (point : A -> res OutPoint) l m0 m o :
  resolution_map point l m0 = Ok m -> is_Some (m0 !! o) \/ (exists r, r ∈ l /\ point r = Ok o) ->
  is_Some (m !! o).
Proof.
  revert m0. induction l as [|x l IH]; intros m0; simpl.
  - intros [= <-] [?|(r & ?%elem_of_nil & _)]; done.
  - intros (o' & Ho & Hm)%bind_ok Hx. apply (IH _ Hm).
    destruct Hx as [Hx|(r & [->|Hr]%elem_of_cons & Hp)]; [left|left|right; eauto].
    + destruct (decide (o' = o)) as [->|]; [by rewrite lookup_insert_eq|by rewrite lookup_insert_ne].
    + assert (o' = o) as -> by congruence. by rewrite lookup_insert_eq.
Qed.

Lemma write_resolvers_lookup rs m m' K :
  write_resolvers m rs = Ok m' ->
  (exists r, r ∈ rs /\ ResolverKey r = Ok (Some K)) ->
  exists r, r ∈ rs /\ ResolverKey r = Ok (Some K) /\ m' !! K = Some r.
Proof.
  assert (forall rs m, write_resolvers m rs = Ok m' ->
    (exists r, r ∈ rs /\ ResolverKey r = Ok (Some K) /\ m' !! K = Some r) \/
    (m' !! K = m !! K /\ forall r, r ∈ rs -> ResolverKey r <> Ok (Some K))) as Hgen.
  { clear. induction rs as [|r rs IH]; intros m; simpl.
    - intros [= <-]. right. split; [done|]. by intros r ?%elem_of_nil.
    - intros (m1 & Hw & Hm)%bind_ok. destruct (IH _ Hm) as [(r' & ? & ?)|[E Hno]].
      + left. exists r'. split; [by right|done].
      + unfold writeResolver in Hw. apply bind_ok in Hw as (k & Hk & [= <-]).
        destruct (decide (k = Some K)) as [->|Hne].
        * left. exists r. split; [left|]. split; [done|]. by rewrite E, lookup_insert_eq.
        * right. split.
          -- destruct k; [|done]. rewrite E, lookup_insert_ne; [done|]. congruence.
          -- intros r' [->|Hr]%elem_of_cons; [rewrite Hk; congruence|by apply Hno]. }
  intros Hw (r & Hr & Hk). destruct (Hgen _ _ Hw) as [?|[_ Hno]]; [done|]. by destruct (Hno r Hr).
Qed.

Lemma newResolverID_inj hash a b :
  0 <= a < 2 ^ 32 -> 0 <= b < 2 ^ 32 ->
  newResolverID {| op_Hash := hash; op_Index := a |} = newResolverID {| op_Hash := hash; op_Index := b |} -> a = b.
Proof.
  intros Ha Hb E. unfold newResolverID in E. simpl in E. apply app_inv_head in E.
  apply be_bytes_inj in E; done.
Qed.

(** The entries of a map, through a function that yields a list. *)
Lemma elem_of_mjoin_map {B} (g : ChainAction * list HTLC -> list B) (m : ChainActionMap) x :
  x ∈ mjoin (g <$> map_to_list m) <-> exists a l, m !! a = Some l /\ x ∈ g (a, l).
Proof.
  rewrite list_elem_of_join. split.
  - intros (l & Hx & Hl). apply list_elem_of_fmap in Hl as ([a hs] & -> & Ha%elem_of_map_to_list). eauto.
  - intros (a & l & Ha & Hx). exists (g (a, l)). split; [done|]. apply list_elem_of_fmap.
    exists (a, l). split; [done|]. by apply elem_of_map_to_list.
Qed.

(** Only one action gives a list that is not empty. *)
Lemma mjoin_single {B} (g : ChainAction * list HTLC -> list B) (m : ChainActionMap) a :
  (forall b l, b <> a -> g (b, l) = []) -> g (a, []) = [] -> mjoin (g <$> map_to_list m) ≡ₚ g (a, acts m a).
Proof.
  intros Hne Hnil.
  assert (forall m' : ChainActionMap, m' !! a = None -> mjoin (g <$> map_to_list m') = []) as Hrest.
  { intros m' Hm'. destruct (mjoin (g <$> map_to_list m')) as [|x l] eqn:E; [done|].
    assert (x ∈ mjoin (g <$> map_to_list m')) as (b & hs & Hb & Hx)%elem_of_mjoin_map by (rewrite E; left).
    destruct (decide (b = a)) as [->|Hba]; [congruence|]. rewrite Hne in Hx by done. by apply elem_of_nil in Hx. }
  unfold acts. destruct (m !! a) as [l|] eqn:Ha; simpl; [|by rewrite Hrest, Hnil].
  rewrite <- (insert_delete_id m a l) at 1 by done.
  rewrite map_to_list_insert by apply lookup_delete_eq. simpl.
  rewrite Hrest, app_nil_r by apply lookup_delete_eq. done.
Qed.

(** ** What is prepared when a commitment is confirmed *)

(** The stored resolutions fit the confirmed commitment: every HTLC with an output has one,
    and the outputs are distinct. *)
Record resolvable (r : ContractResolutions) (c : CommitSet) (k : HtlcSetKey) : Prop := {
  rv_incoming : forall h, h ∈ in_dir true (htlcs_of c k) -> has_output h ->
    exists x, x ∈ IncomingHTLCs r /\ IncomingHtlcPoint x = Ok (htlc_op (CommitHash r) h);
  rv_outgoing : forall h, h ∈ in_dir false (htlcs_of c k) -> has_output h ->
    exists x, x ∈ OutgoingHTLCs r /\ OutgoingHtlcPoint x = Ok (htlc_op (CommitHash r) h);
  rv_in_points : Forall (fun x => exists o, IncomingHtlcPoint x = Ok o) (IncomingHTLCs r);
  rv_out_points : Forall (fun x => exists o, OutgoingHtlcPoint x = Ok o) (OutgoingHTLCs r);
  rv_index : forall h, h ∈ htlcs_of c k -> disk_OutputIndex h < 2 ^ 31;
  rv_nodup : NoDup (disk_OutputIndex <$> filter has_output (htlcs_of c k));
  rv_self : forall x h, CommitResolution r = Some x -> h ∈ htlcs_of c k -> has_output h ->
    newResolverID (SelfOutPoint x) <> newResolverID (htlc_op (CommitHash r) h);
}.

Section Prepared.
Context (cfg : ChannelArbitratorConfig) (e : env) (ht : Z) (trigger : transitionTrigger).

(** [R] takes care of [h], from the height of the closure on. *)
Definition guards (R : ContractResolver) (h : HTLC) : Prop :=
  match R with
  | IncomingContestResolver _ b h' => h' = h /\ b = ht /\ disk_Incoming h = true
  | TimeoutResolver _ b h' => h' = h /\ b = ht /\ disk_Incoming h = false /\
      shouldGoOnChain cfg e SecondPass h (OutgoingBroadcastDelta cfg) ht = true
  | OutgoingContestResolver _ b h' => h' = h /\ b = ht /\ disk_Incoming h = false /\
      shouldGoOnChain cfg e SecondPass h (OutgoingBroadcastDelta cfg) ht = false
  | _ => False
  end.

Lemma in_dir_elem b l h : h ∈ in_dir b l <-> disk_Incoming h = b /\ h ∈ l.
Proof. unfold in_dir. by rewrite list_elem_of_filter. Qed.

Lemma same_output r c k h h' :
  resolvable r c k -> h ∈ htlcs_of c k -> has_output h -> h' ∈ htlcs_of c k -> has_output h' ->
  newResolverID (htlc_op (CommitHash r) h) = newResolverID (htlc_op (CommitHash r) h') -> h = h'.
Proof.
  intros Hr Hh Ho Hh' Ho' E. pose proof (rv_index _ _ _ Hr _ Hh). pose proof (rv_index _ _ _ Hr _ Hh').
  unfold has_output in *.
  assert (forall z, 0 <= z < 2 ^ 31 -> u32 z = z) as Hu by (intros z ?; apply Z.mod_small; lia).
  unfold htlc_op in E. rewrite !Hu in E by lia. apply newResolverID_inj in E; [|lia|lia].
  pose proof (rv_nodup _ _ _ Hr) as Hnd.
  apply NoDup_fmap_1 in Hnd as Hnd1.
  assert (forall x, x ∈ [h; h'] -> x ∈ filter has_output (htlcs_of c k)) as Hin.
  { intros x Hx. apply list_elem_of_filter. unfold has_output. set_solver. }
  assert (h ∈ filter has_output (htlcs_of c k)) as [i Hi]%list_elem_of_lookup by (apply Hin; left).
  assert (h' ∈ filter has_output (htlcs_of c k)) as [j Hj]%list_elem_of_lookup by (apply Hin; set_solver).
  assert (i = j) as ->; [|congruence].
  eapply NoDup_lookup; [exact Hnd| |]; rewrite list_lookup_fmap; [by rewrite Hi|by rewrite Hj, E].
Qed.

(** The resolvers of an HTLC on the confirmed commitment. *)
Lemma outgoing_action_cases h : has_output h ->
  outgoing_action cfg e ht h
  = if shouldGoOnChain cfg e SecondPass h (OutgoingBroadcastDelta cfg) ht
    then HtlcTimeoutAction else HtlcOutgoingWatchAction.
Proof.
  unfold outgoing_action, has_output. intros Ho. rewrite (proj2 (Z.ltb_ge _ _)) by lia.
  by destruct (shouldGoOnChain _ _ _ _ _ _).
Qed.

Lemma acts_elem m a h : h ∈ acts m a <-> exists l, m !! a = Some l /\ h ∈ l.
Proof.
  unfold acts. destruct (m !! a) as [l|]; simpl; [naive_solver|].
  split; [by intros ?%elem_of_nil|by intros (? & ? & _)].
Qed.

(** Which HTLCs an action other than a cancellation is taken on. *)
Lemma action_elem c k m a h :
  all_actions cfg e ht c k m -> a <> HtlcFailNowAction ->
  h ∈ acts m a <->
  h ∈ htlcs_of c k /\ has_output h /\
  if disk_Incoming h then a = HtlcIncomingWatchAction else outgoing_action cfg e ht h = a.
Proof.
  intros Ha Hne. rewrite (aa_other _ _ _ _ _ _ Ha a Hne), elem_of_app, list_elem_of_filter, in_dir_elem.
  assert (outgoing_action cfg e ht h = a -> has_output h) as Hout.
  { intros E. destruct (decide (has_output h)) as [?|Hno]; [done|].
    apply (outgoing_fail cfg e ht) in Hno. congruence. }
  assert (outgoing_action cfg e ht h <> HtlcIncomingWatchAction) as Hni
    by (unfold outgoing_action; by repeat case_match).
  destruct (decide (a = HtlcIncomingWatchAction)) as [->|Hna].
  - rewrite list_elem_of_filter, in_dir_elem. destruct (disk_Incoming h); naive_solver.
  - rewrite elem_of_nil. destruct (disk_Incoming h); naive_solver.
Qed.

Section Built.
Context (r : ContractResolutions) (c : CommitSet) (k : HtlcSetKey) (m : ChainActionMap).
Context (Hres : resolvable r c k) (Hall : all_actions cfg e ht c k m).
Context (inRes : gmap OutPoint IncomingHtlcResolution) (outRes : gmap OutPoint OutgoingHtlcResolution).
Context (Hin : resolution_map IncomingHtlcPoint (IncomingHTLCs r) ∅ = Ok inRes).
Context (Hout : resolution_map OutgoingHtlcPoint (OutgoingHTLCs r) ∅ = Ok outRes).

Definition htlc_id (h : HTLC) : list byte := newResolverID (htlc_op (CommitHash r) h).

Lemma in_point o x : inRes !! o = Some x -> IncomingHtlcPoint x = Ok o.
Proof.
  intros Hx. destruct (resolution_map_lookup _ _ _ _ _ _ Hin Hx) as [[_ ?]|Hx']; [done|].
  by rewrite lookup_empty in Hx'.
Qed.

Lemma out_point o x : outRes !! o = Some x -> OutgoingHtlcPoint x = Ok o.
Proof.
  intros Hx. destruct (resolution_map_lookup _ _ _ _ _ _ Hout Hx) as [[_ ?]|Hx']; [done|].
  by rewrite lookup_empty in Hx'.
Qed.

(** A resolver that an action creates belongs to an HTLC of the confirmed commitment. *)
Lemma built_resolver a l x :
  m !! a = Some l -> x ∈ (act_on cfg (CommitHash r) ht inRes outRes (a, l)).1 ->
  exists h, h ∈ htlcs_of c k /\ has_output h /\ ResolverKey x = Ok (Some (htlc_id h)) /\ guards x h.
Proof.
  intros Hl Hx.
  assert (forall h, h ∈ l -> h ∈ acts m a) as Hacts by (intros h Hh; apply acts_elem; eauto).
  destruct a; simpl in Hx; try (by apply elem_of_nil in Hx); unfold resolvers_for in Hx;
    apply list_elem_of_omap in Hx as (h & Hh & (rr & Hrr & ->)%fmap_Some); apply Hacts in Hh;
    rewrite (action_elem _ _ _ _ _ Hall) in Hh by done; destruct Hh as (Hh & Ho & Hk);
    exists h; (split; [done|]); (split; [done|]).
  - destruct (disk_Incoming h) eqn:Ei; [done|]. simpl. rewrite (out_point _ _ Hrr). simpl.
    split; [done|]. rewrite outgoing_action_cases in Hk by done. by destruct (shouldGoOnChain _ _ _ _ _ _).
  - destruct (disk_Incoming h) eqn:Ei; [done|]. exfalso. revert Hk. unfold outgoing_action. by repeat case_match.
  - destruct (disk_Incoming h) eqn:Ei; [done|]. simpl. rewrite (out_point _ _ Hrr). simpl.
    split; [done|]. rewrite outgoing_action_cases in Hk by done. by destruct (shouldGoOnChain _ _ _ _ _ _).
  - destruct (disk_Incoming h) eqn:Ei; [|by revert Hk; unfold outgoing_action; repeat case_match].
    simpl. rewrite (in_point _ _ Hrr). by simpl.
Qed.

(** Every HTLC with an output gets one. *)
Lemma built_for h :
  h ∈ htlcs_of c k -> has_output h ->
  exists a l x, m !! a = Some l /\ x ∈ (act_on cfg (CommitHash r) ht inRes outRes (a, l)).1 /\
    ResolverKey x = Ok (Some (htlc_id h)).
Proof.
  intros Hh Ho. destruct (disk_Incoming h) eqn:Ei.
  - assert (h ∈ acts m HtlcIncomingWatchAction) as (l & Hl & Hhl)%acts_elem
      by (apply (action_elem _ _ _ _ _ Hall); [done|]; by rewrite Ei).
    assert (is_Some (inRes !! htlc_op (CommitHash r) h)) as [x Hx].
    { eapply resolution_map_is_Some; [exact Hin|]. right. apply (rv_incoming _ _ _ Hres); [|done].
      by apply in_dir_elem. }
    exists HtlcIncomingWatchAction, l, (IncomingContestResolver x ht h). split; [done|]. split.
    + simpl. unfold resolvers_for. apply list_elem_of_omap. exists h. by rewrite Hx.
    + simpl. by rewrite (in_point _ _ Hx).
  - assert (is_Some (outRes !! htlc_op (CommitHash r) h)) as [x Hx].
    { eapply resolution_map_is_Some; [exact Hout|]. right. apply (rv_outgoing _ _ _ Hres); [|done].
      by apply in_dir_elem. }
    pose proof (outgoing_action_cases h Ho) as Ea.
    set (a := outgoing_action cfg e ht h) in *.
    assert (a <> HtlcFailNowAction) as Hne by (rewrite Ea; by destruct (shouldGoOnChain _ _ _ _ _ _)).
    assert (h ∈ acts m a) as (l & Hl & Hhl)%acts_elem
      by (apply (action_elem _ _ _ _ _ Hall); [done|]; by rewrite Ei).
    exists a, l. destruct (shouldGoOnChain _ _ _ _ _ _); rewrite Ea in *.
    + exists (TimeoutResolver x ht h). split; [done|]. simpl. rewrite (out_point _ _ Hx). split; [|done].
      unfold resolvers_for. apply list_elem_of_omap. exists h. by rewrite Hx.
    + exists (OutgoingContestResolver x ht h). split; [done|]. simpl. rewrite (out_point _ _ Hx). split; [|done].
      unfold resolvers_for. apply list_elem_of_omap. exists h. by rewrite Hx.
Qed.

End Built.

(** The three lists that are put together: the anchor's, the HTLCs' and the sweep of our own
    output; and the HTLCs that are cancelled. *)
Record prepared (r : ContractResolutions) (c : CommitSet) (k : HtlcSetKey)
    (R : list ContractResolver) (M : list ResolutionMsg) : Prop := {
  pr_covers : forall h, h ∈ htlcs_of c k -> has_output h ->
    exists x, x ∈ R /\ ResolverKey x = Ok (Some (htlc_id r h));
  pr_guards : forall x h, x ∈ R -> h ∈ htlcs_of c k -> has_output h ->
    ResolverKey x = Ok (Some (htlc_id r h)) -> guards x h;
  pr_keys : Forall (fun x => exists K, ResolverKey x = Ok K) R;
  pr_cancels : exists lost, lost_htlcs c k lost /\
    M ≡ₚ fail_msg cfg <$> (filter (fun h => ~ has_output h) (in_dir false (htlcs_of c k)) ++ lost);
}.

Lemma resolution_map_total {A} (point : A -> res OutPoint) l :
  Forall (fun x => exists o, point x = Ok o) l -> forall m0, exists m, resolution_map point l m0 = Ok m.
Proof.
  induction 1 as [|x l (o & Ho) _ IH]; intros m0; simpl; [by eexists|]. rewrite Ho. simpl. apply IH.
Qed.

Lemma incoming_total l have : (forall x, exists b, isPreimageAvailable e x = Ok b) ->
  exists b, incoming_to_chain cfg e ht l have = Ok b.
Proof.
  intros Hp. revert have. induction l as [|h l IH]; intros have; simpl; [by eexists|].
  destruct (Hp (disk_RHash h)) as [b ->]. simpl. apply IH.
Qed.

Lemma commit_actions_total s : (forall x, exists b, isPreimageAvailable e x = Ok b) ->
  exists m, checkCommitChainActions cfg e ht trigger s = Ok m.
Proof.
  intros Hp. unfold checkCommitChainActions.
  destruct (incoming_total (values (incomingHTLCs_ s))
    (existsb (fun htlc => shouldGoOnChain cfg e FirstPass htlc (OutgoingBroadcastDelta cfg) ht)
       (values (outgoingHTLCs_ s))) Hp) as [b ->]. simpl. case_match; by eexists.
Qed.

Lemma construct_total stored c k : good_set c k -> (forall x, exists b, isPreimageAvailable e x = Ok b) ->
  exists m, constructChainActions cfg e stored (Some c) ht trigger = Ok m.
Proof.
  intros Hc Hp. unfold constructChainActions. rewrite (gs_conf _ _ Hc).
  pose proof (gs_key _ _ Hc) as Hk. unfold checkLocalChainActions, checkRemoteChainActions.
  repeat (case_bool_decide; [|]); try
    (edestruct commit_actions_total as [m ->]; [exact Hp|]; simpl; by eexists).
  exfalso. set_solver.
Qed.

Lemma prepares stored r c k :
  good_set c k -> asks_for cfg e ht trigger (active (toActiveHTLCSets c) k) -> resolvable r c k -> cr_BreachResolution r = None ->
  (forall x, exists b, isPreimageAvailable e x = Ok b) -> historical_ok e = Ok tt ->
  exists R M, prepContractResolutions cfg e stored r ht trigger (Some c) = Ok (R, M) /\ prepared r c k R M.
Proof.
  intros Hc Ht Hr Hb Hp Hh. unfold prepContractResolutions.
  destruct (construct_total stored c k Hc Hp) as [m Hm]. rewrite Hm, Hh. simpl.
  pose proof (construct_actions _ _ _ _ _ _ _ _ Hc Ht Hm) as Hall.
  destruct (resolution_map_total IncomingHtlcPoint _ (rv_in_points _ _ _ Hr) ∅) as [inRes Hin].
  destruct (resolution_map_total OutgoingHtlcPoint _ (rv_out_points _ _ _ Hr) ∅) as [outRes Hout].
  rewrite Hin, Hout. simpl. rewrite Hb. do 2 eexists. split; [reflexivity|].
  set (f := act_on cfg (CommitHash r) ht inRes outRes).
  rewrite <- !list_fmap_compose.
  assert (forall x, x ∈ mjoin ((fst ∘ f) <$> map_to_list m) ->
    exists h, h ∈ htlcs_of c k /\ has_output h /\ ResolverKey x = Ok (Some (htlc_id r h)) /\ guards x h) as Hbuilt.
  { intros x (a & l & Hl & Hx)%elem_of_mjoin_map. by eapply built_resolver. }
  split.
  - intros h Hh' Ho. destruct (built_for r c k m Hr Hall _ _ Hin Hout h Hh' Ho) as (a & l & x & Hl & Hx & Hk).
    exists x. split; [|done]. rewrite !elem_of_app. right. left. apply elem_of_mjoin_map. by exists a, l.
  - intros x h Hx Hh' Ho Hk. rewrite !elem_of_app in Hx. destruct Hx as [Hx|[Hx|Hx]].
    + destruct (cr_AnchorResolution r); simpl in Hx; [|by apply elem_of_nil in Hx].
      apply list_elem_of_singleton in Hx as ->. discriminate.
    + destruct (Hbuilt x Hx) as (h' & Hh'' & Ho' & Hk' & Hg). rewrite Hk in Hk'. injection Hk' as E.
      by rewrite (same_output r c k h h' Hr Hh' Ho Hh'' Ho' E).
    + destruct (CommitResolution r) as [s|] eqn:Es; simpl in Hx; [|by apply elem_of_nil in Hx].
      apply list_elem_of_singleton in Hx as ->. injection Hk as Hk.
      by destruct (rv_self _ _ _ Hr s h Es Hh' Ho).
  - rewrite !Forall_app. split; [|split].
    + destruct (cr_AnchorResolution r); simpl; repeat constructor. by eexists.
    + apply Forall_forall. intros x Hx. destruct (Hbuilt x Hx) as (h & _ & _ & Hk & _). by eexists.
    + destruct (CommitResolution r); simpl; repeat constructor. by eexists.
  - destruct (aa_fail _ _ _ _ _ _ Hall) as (lost & Hlost & Hperm). exists lost. split; [done|].
    rewrite (mjoin_single _ m HtlcFailNowAction) by (try intros [] l ?; done). simpl. by rewrite Hperm.
Qed.

Lemma write_resolvers_total rs : Forall (fun x => exists K, ResolverKey x = Ok K) rs ->
  forall m, exists m', write_resolvers m rs = Ok m'.
Proof.
  induction 1 as [|x rs (K & HK) _ IH]; intros m; simpl; [by eexists|].
  unfold writeResolver. rewrite HK. simpl. apply IH.
Qed.

End Prepared.

#[global] Arguments pr_covers {cfg e ht r c k R M}.
#[global] Arguments pr_guards {cfg e ht r c k R M}.
#[global] Arguments pr_keys {cfg e ht r c k R M}.
#[global] Arguments pr_cancels {cfg e ht r c k R M}.
