(* ===== verification/ArbitratorRun.v ===== *)
(** * Histories of a channel arbitrator

    The events of a channel's life as the steps of a transition system, failing writes and
    restarts included; the loop of [advanceState] as a relation without a bound; and the
    invariant that holds between events. *)

From Stdlib Require Import Lia.
From S2P Require Import Prelude Sha256 Ids Amounts UpdateLog Channel CommitTx StateRes Arbitrator ArbitratorInv.

(** ** What an operation leaves alone *)

(** [m] keeps [P], whether it succeeds or not. *)
Definition keeps {S A} (P : S -> Prop) (m : op S A) : Prop := forall s, P s -> P (m s).1.

Lemma keeps_bind {S A B} (P : S -> Prop) (m : op S A) (k : A -> op S B) :
  keeps P m -> (forall a, keeps P (k a)) -> keeps P (op_bind m k).
Proof.
  intros Hm Hk s Hs. unfold op_bind. pose proof (Hm s Hs) as Hs1.
  destruct (m s) as [s1 [a|er|]]; [by apply Hk|done..].
Qed.

Lemma keeps_same {S A} (P : S -> Prop) (m : op S A) : (forall s, (m s).1 = s) -> keeps P m.
Proof. intros Hm s Hs. by rewrite Hm. Qed.

Lemma keeps_set {S} (P : S -> Prop) f : (forall s, P s -> P (f s)) -> keeps P (op_set f).
Proof. intros Hf s Hs. by apply Hf. Qed.

Lemma keeps_try {S A} (P : S -> Prop) (m : op S A) : keeps P m -> keeps P (op_try m).
Proof.
  intros Hm s Hs. unfold op_try. pose proof (Hm s Hs). by destruct (m s) as [? [| |]].
Qed.

Create HintDb keeps.
#[export] Hint Resolve keeps_bind keeps_set keeps_try : keeps.
#[export] Hint Extern 1 (keeps _ (op_get _)) => apply keeps_same; done : keeps.
#[export] Hint Extern 1 (keeps _ (op_ret _)) => apply keeps_same; done : keeps.
#[export] Hint Extern 1 (keeps _ (op_err _)) => apply keeps_same; done : keeps.
#[export] Hint Extern 1 (keeps _ (op_lift _)) => apply keeps_same; done : keeps.

(** ** The loop without a bound *)

Section Loop.
Context (cfg : ChannelArbitratorConfig) (envs : nat -> env) (ht : Z) (trigger : transitionTrigger).
Context (c : option CommitSet).

Definition first_tx (forceCloseTx closeTx : option MsgTx) : option MsgTx :=
  match forceCloseTx with Some tx => Some tx | None => closeTx end.

(** A new state, in memory and in the log. *)
Definition moved (s : ArbitratorState) (a : arbitrator) : arbitrator :=
  set_arb_state s (set_log (Some (with_state s (scope (arb_log_ a)))) a).

Inductive loop : nat -> option MsgTx -> arbitrator -> arbitrator * res (ArbitratorState * option MsgTx) -> Prop :=
  | loop_stay n tx a a' closeTx :
      stateStep cfg (envs n) ht trigger c a = (a', Ok (arb_state a, closeTx)) ->
      loop n tx a (a', Ok (arb_state a, first_tx tx closeTx))
  | loop_move n tx a a1 nextState closeTx out :
      stateStep cfg (envs n) ht trigger c a = (a1, Ok (nextState, closeTx)) ->
      nextState <> arb_state a -> db_CommitState (envs n) = Ok tt ->
      loop (S n) (first_tx tx closeTx) (moved nextState a1) out ->
      loop n tx a out
  | loop_step_fails n tx a a' er :
      stateStep cfg (envs n) ht trigger c a = (a', Err er) -> loop n tx a (a', Err er)
  | loop_step_panics n tx a a' :
      stateStep cfg (envs n) ht trigger c a = (a', Panic) -> loop n tx a (a', Panic)
  | loop_commit_fails n tx a a1 nextState closeTx er :
      stateStep cfg (envs n) ht trigger c a = (a1, Ok (nextState, closeTx)) ->
      nextState <> arb_state a -> db_CommitState (envs n) = Err er -> loop n tx a (a1, Err er)
  | loop_commit_panics n tx a a1 nextState closeTx :
      stateStep cfg (envs n) ht trigger c a = (a1, Ok (nextState, closeTx)) ->
      nextState <> arb_state a -> db_CommitState (envs n) = Panic -> loop n tx a (a1, Panic).

(** How far the state machine has come. *)
Definition progress (s : ArbitratorState) : nat :=
  match s with
  | StateError => 0 | StateDefault => 1 | StateBroadcastCommit => 2 | StateCommitmentBroadcasted => 3
  | StateContractClosed => 4 | StateWaitingFullResolution => 5 | StateFullyResolved => 6
  end.

Lemma progress_inj s t : progress s = progress t -> s = t.
Proof. by destruct s, t. Qed.

End Loop.

Section Steps.
Context (cfg : ChannelArbitratorConfig).

Lemma keeps_call {A} (P : arbitrator -> Prop) (r : res A) f :
  (forall a x, P a -> P (add_call (f x) a)) -> keeps P (call r f).
Proof. intros HP. unfold call. eauto 8 with keeps. Qed.

(** Nothing but calls other than the final one has happened since [a0]. *)
Record calm (a0 a : arbitrator) : Prop := {
  cm_state : arb_state a = arb_state a0;
  cm_log : arb_log_ a = arb_log_ a0;
  cm_calls : exists xs, arb_calls a = arb_calls a0 ++ xs /\ CallMarkResolved ∉ xs;
}.

Lemma calm_refl a : calm a a.
Proof. split; [done..|]. exists []. rewrite app_nil_r. split; [done|apply not_elem_of_nil]. Qed.

Lemma calm_call a0 {A} (r : res A) f : (forall x, f x <> CallMarkResolved) -> keeps (calm a0) (call r f).
Proof.
  intros Hf. apply keeps_call. intros a x [Hs Hl (xs & Hc & Hx)]. split; [done..|].
  exists (xs ++ [f x]). simpl. rewrite Hc, app_assoc. split; [done|].
  rewrite not_elem_of_app, list_elem_of_singleton. split; [done|]. by intros ?%eq_sym%Hf.
Qed.

Hint Extern 2 (keeps (calm _) (call _ _)) => apply calm_call; done : keeps.

Lemma calm_add_call a0 x : x <> CallMarkResolved -> keeps (calm a0) (op_set (add_call x)).
Proof. intros Hx. apply (calm_call a0 (Ok tt) (fun _ => x)). done. Qed.

Hint Extern 2 (keeps (calm _) (op_set (add_call _))) => apply calm_add_call; done : keeps.

Lemma calm_breach a0 : keeps (calm a0) checkLegacyBreach.
Proof.
  unfold checkLegacyBreach. apply keeps_bind; [auto with keeps|]. intros l.
  destruct (FetchContractResolutions l); [auto with keeps| |auto with keeps]. case_match; auto with keeps.
Qed.
Hint Resolve calm_breach : keeps.

Lemma calm_sweep a0 e anchors ht sets : keeps (calm a0) (sweep_sets e anchors ht sets).
Proof.
  induction sets as [|[k s] sets IH]; simpl; [auto with keeps|].
  case_match; [|done]. apply keeps_bind; [auto with keeps|]. intros d. apply keeps_bind; auto with keeps.
Qed.
Hint Resolve calm_sweep : keeps.

Lemma calm_default a0 e ht trigger c : keeps (calm a0) (step_default cfg e ht trigger c).
Proof.
  unfold step_default. apply keeps_bind; [auto with keeps|]. intros own. apply keeps_bind; [auto with keeps|].
  intros m. case_match; [auto with keeps|]. destruct trigger; auto with keeps.
Qed.

Lemma calm_broadcast a0 e trigger : keeps (calm a0) (step_broadcast e trigger).
Proof.
  unfold step_broadcast. destruct trigger; auto with keeps.
  all: apply keeps_bind; [auto with keeps|]; intros tx; apply keeps_bind; [auto with keeps|]; intros _;
    apply keeps_bind; [|auto with keeps]; destruct (PublishTx e); [auto with keeps| |auto with keeps];
    case_match; auto with keeps.
Qed.

Lemma calm_broadcasted a0 e ht trigger : keeps (calm a0) (step_broadcasted e ht trigger).
Proof.
  unfold step_broadcasted, sweepAnchors. destruct trigger; auto 8 with keeps.
Qed.

(** What a step does to the state, the log and the calls. *)
Record stepped (e : env) (ht : Z) (trigger : transitionTrigger) (c : option CommitSet)
    (a a' : arbitrator) : Prop := {
  sp_state : arb_state a' = arb_state a;
  sp_log : arb_log_ a' = arb_log_ a \/
    exists r R M, arb_state a = StateContractClosed /\ FetchContractResolutions (arb_log_ a) = Ok r /\
      prepContractResolutions cfg e (FetchChainActions (arb_log_ a)) r ht trigger c = Ok (R, M) /\
      InsertUnresolvedContracts (arb_log_ a) R (db_Insert e) = Ok (arb_log_ a');
  sp_calls : exists xs, arb_calls a' = arb_calls a ++ xs /\
    (CallMarkResolved ∈ xs -> arb_state a = StateFullyResolved);
}.

Lemma calm_stepped e ht trigger c a a' : calm a a' -> stepped e ht trigger c a a'.
Proof. intros [? ? (xs & ? & ?)]. split; [done|by left|]. by exists xs. Qed.

Lemma closed_stepped e ht trigger c a :
  arb_state a = StateContractClosed -> stepped e ht trigger c a (step_closed cfg e ht trigger c a).1.
Proof.
  intros Hs. unfold step_closed, op_bind at 1 2. simpl.
  destruct (FetchContractResolutions (arb_log_ a)) as [r|er|] eqn:Hr; simpl;
    [|by apply calm_stepped, calm_refl..].
  case_match; [by apply calm_stepped, calm_refl|]. unfold op_bind at 1. simpl.
  destruct (prepContractResolutions _ _ _ _ _ _ _) as [[R M]|er|] eqn:Hp; simpl;
    [|by apply calm_stepped, calm_refl..].
  set (deliver := if bool_decide (M = []) then op_ret tt
    else call (DeliverResolutionMsg e) (fun _ => CallDeliver M)).
  assert (keeps (calm a) deliver) as Hk by (unfold deliver; case_match; auto with keeps).
  clearbody deliver. specialize (Hk a (calm_refl a)). unfold op_bind at 1.
  destruct (deliver a) as [a1 [u|er|]]; simpl in Hk; [|by apply calm_stepped..].
  unfold op_bind at 1. simpl. destruct (InsertUnresolvedContracts _ _ _) as [l'|er|] eqn:Hi; simpl;
    [|by apply calm_stepped..].
  destruct Hk as [Hs1 Hl1 (xs & Hc & Hx)]. split; simpl; [done| |by exists xs].
  right. exists r, R, M. done.
Qed.

Lemma step_stepped e ht trigger c a : stepped e ht trigger c a (stateStep cfg e ht trigger c a).1.
Proof.
  unfold stateStep, op_bind at 1. simpl. destruct (arb_state a) eqn:Hs.
  - apply calm_stepped, calm_default, calm_refl.
  - apply calm_stepped, calm_broadcast, calm_refl.
  - apply calm_stepped, calm_broadcasted, calm_refl.
  - by apply closed_stepped.
  - apply calm_stepped, calm_refl.
  - unfold call, op_bind. simpl. destruct (MarkChannelResolved e); simpl; [|by apply calm_stepped, calm_refl..].
    split; simpl; [done|by left|]. by exists [CallMarkResolved].
  - apply calm_stepped, calm_refl.
Qed.

(** The state machine never goes back. *)
Lemma step_forward e ht trigger c a a' s tx :
  stateStep cfg e ht trigger c a = (a', Ok (s, tx)) -> (progress (arb_state a) <= progress s)%nat.
Proof.
  unfold stateStep, op_bind at 1. simpl.
  assert (forall a a' s, checkLegacyBreach a = (a', Ok s) -> (4 <= progress s)%nat) as Hb.
  { intros a1 a2 s1. unfold checkLegacyBreach, op_bind. simpl.
    destruct (FetchContractResolutions _); simpl; [|case_bool_decide|done]; intros [= <- <-]; simpl; lia. }
  destruct (arb_state a); simpl.
  - unfold step_default. intros (? & ? & _ & (? & m & _ & E)%op_bind_inv)%op_bind_inv. revert E.
    case_match; [intros [= <- <- <-]; simpl; lia|].
    destruct trigger; try (intros [= <- <- <-]; simpl; lia).
    intros (? & s1 & ?%Hb & [= <- <- <-])%op_bind_inv. lia.
  - unfold step_broadcast. destruct trigger; try (intros [= <- <- <-]; simpl; lia).
    1-2: intros (? & ? & _ & (? & ? & _ & (? & ? & _ & [= <- <- <-])%op_bind_inv)%op_bind_inv)%op_bind_inv; simpl; lia.
    intros (? & s1 & ?%Hb & [= <- <- <-])%op_bind_inv. lia.
  - unfold step_broadcasted. destruct trigger; try (intros [= <- <- <-]; simpl; lia).
    1-2: intros (? & ? & _ & (? & ? & _ & [= <- <- <-])%op_bind_inv)%op_bind_inv; simpl; lia.
    intros (? & s1 & ?%Hb & [= <- <- <-])%op_bind_inv. lia.
  - unfold step_closed. intros (? & ? & _ & (? & r & _ & E)%op_bind_inv)%op_bind_inv. revert E.
    case_match; [intros [= <- <- <-]; simpl; lia|].
    intros (? & [R M] & _ & (? & ? & _ & (? & ? & _ & (? & ? & _ & (? & ? & _ & [= <- <- <-])%op_bind_inv)%op_bind_inv)%op_bind_inv)%op_bind_inv)%op_bind_inv.
    simpl. lia.
  - intros [= <- <- <-]. case_match; simpl; lia.
  - intros (? & ? & _ & [= <- <- <-])%op_bind_inv. simpl. lia.
  - intros [= <- <- <-]. simpl. lia.
Qed.

(** The bounded loop computes what the loop does, when the bound covers the states ahead. *)
Lemma advance_loop envs ht trigger c fuel n a tx :
  (6 < fuel + progress (arb_state a))%nat ->
  loop cfg envs ht trigger c n tx a (advanceState cfg fuel envs n ht trigger c tx a).
Proof.
  revert n a tx. induction fuel as [|fuel IH]; intros n a tx Hf.
  { exfalso. destruct (arb_state a); simpl in Hf; lia. }
  simpl. unfold op_bind at 1 2. simpl.
  destruct (stateStep cfg (envs n) ht trigger c a) as [a1 [[s closeTx]|er|]] eqn:Hs;
    [|by apply loop_step_fails|by apply loop_step_panics].
  case_bool_decide as Heq; [subst s; by apply loop_stay|].
  unfold op_bind at 1. unfold CommitState, op_bind at 1. simpl.
  destruct (db_CommitState (envs n)) as [[]|er|] eqn:Hdb; simpl;
    [|by eapply loop_commit_fails|by eapply loop_commit_panics].
  eapply loop_move; [exact Hs|exact Heq|exact Hdb|]. apply IH.
  pose proof (step_forward _ _ _ _ _ _ _ _ Hs) as Hle.
  assert (progress s <> progress (arb_state a)) by (intros E; by apply Heq, progress_inj).
  simpl. lia.
Qed.

(** A run keeps what its steps and their commits keep. *)
Lemma advance_keeps (P : arbitrator -> Prop) envs ht trigger c fuel n tx :
  (forall e a, P a -> P (stateStep cfg e ht trigger c a).1) ->
  (forall e a a1 s closeTx, P a -> stateStep cfg e ht trigger c a = (a1, Ok (s, closeTx)) -> P (moved s a1)) ->
  keeps P (advanceState cfg fuel envs n ht trigger c tx).
Proof.
  intros Hstep Hmove. revert n tx. induction fuel as [|fuel IH]; intros n tx a Ha; [done|].
  pose proof (Hstep (envs n) a Ha) as H1. simpl. unfold op_bind at 1 2. simpl.
  destruct (stateStep cfg (envs n) ht trigger c a) as [a1 [[s closeTx]|er|]] eqn:Hs; [|done..].
  case_bool_decide as Heq; [done|]. unfold op_bind at 1. unfold CommitState, op_bind at 1. simpl.
  destruct (db_CommitState (envs n)) as [[]|er|] eqn:Hdb; simpl; [|done..].
  apply IH. exact (Hmove _ _ _ _ _ Ha Hs).
Qed.

End Steps.

(** ** Events *)

Inductive event :=
  | EvBlock (envs : nat -> env) (height : Z)
  | EvHtlcUpdate (k : HtlcSetKey) (htlcs : list HTLC)
  | EvCoopClose (envs : nat -> env) (height : Z) (mark : res unit)
  | EvLocalClose (envs : nat -> env) (info : close_info)
  | EvRemoteClose (envs : nat -> env) (info : close_info)
  | EvBreach (envs : nat -> env) (info : close_info)
  | EvResolution (envs : nat -> env)
  | EvForceClose (envs : nat -> env)
  | EvCheckpoint (r : ContractResolver) (db : res unit)
  | EvSwap (old new : ContractResolver) (db : res unit)
  | EvFinish (r : ContractResolver) (db : res unit)
  | EvRestart (cfg : ChannelArbitratorConfig) (sets : gmap HtlcSetKey htlcSet) (envs : nat -> env)
      (best : res Z).

(** The configuration in use and the arbitrator. *)
Definition node : Type := ChannelArbitratorConfig * arbitrator.

Definition occurs (ev : event) (n : node) : node :=
  let '(cfg, a) := n in
  match ev with
  | EvBlock envs height => (cfg, (on_block cfg envs height a).1)
  | EvHtlcUpdate k htlcs => (cfg, (on_htlc_update k htlcs a).1)
  | EvCoopClose envs height mark => (cfg, (on_coop_close cfg envs height mark a).1)
  | EvLocalClose envs info => (cfg, (on_local_close cfg envs info a).1)
  | EvRemoteClose envs info => (cfg, (on_remote_close cfg envs info a).1)
  | EvBreach envs info => (cfg, (on_breach cfg envs info a).1)
  | EvResolution envs => (cfg, (on_resolution cfg envs a).1)
  | EvForceClose envs => (cfg, (on_force_close cfg envs a).1)
  | EvCheckpoint r db => (cfg, (checkpointContract r db a).1)
  | EvSwap old new db => (cfg, (resolver_swaps old new db a).1)
  | EvFinish r db => (cfg, (resolver_finishes r db a).1)
  | EvRestart cfg' sets envs best =>
      (cfg', (Start cfg' envs best (NewChannelArbitrator sets (arb_log_ a) (arb_calls a))).1)
  end.

(** There is an unresolved contract under key [K]. *)
Definition recorded (a : arbitrator) (K : list byte) : Prop :=
  is_Some (lg_contracts (scope (arb_log_ a)) !! K).

Section History.
(** How the commitment that spends the channel, if one does, can be resolved. *)
Context (r0 : ContractResolutions).

(** The attendant serves events while it runs; resolvers run on their own, and those that
    write into the log are unresolved there.  A resolver is replaced by one for the same
    output. *)
Definition possible (a : arbitrator) (ev : event) : Prop :=
  match ev with
  | EvLocalClose _ info | EvRemoteClose _ info | EvBreach _ info =>
      arb_exited a = false /\ ci_resolutions info = r0
  | EvCheckpoint r _ =>
      ResolverKey r = Ok None \/ exists K, ResolverKey r = Ok (Some K) /\ recorded a K
  | EvSwap old new _ =>
      exists K, ResolverKey old = Ok (Some K) /\ ResolverKey new = Ok (Some K) /\ recorded a K
  | EvFinish _ _ | EvRestart _ _ _ _ => True
  | _ => arb_exited a = false
  end.

Inductive history : node -> list event -> node -> Prop :=
  | history_nil n : history n [] n
  | history_cons n ev evs n' :
      possible n.2 ev -> history (occurs ev n) evs n' -> history n (ev :: evs) n'.

(** ** Between events *)

Record held (a : arbitrator) : Prop := {
  hl_state : arb_state a = lg_state (scope (arb_log_ a));
  hl_fate : (lg_anchor (scope (arb_log_ a)) = None /\ lg_breach (scope (arb_log_ a)) = None /\
             lg_resolutions (scope (arb_log_ a)) = None) \/
            FetchContractResolutions (arb_log_ a) = Ok r0;
  hl_contracts : lg_contracts (scope (arb_log_ a)) = ∅ \/
    (arb_state a ∈ [StateContractClosed; StateWaitingFullResolution] /\ Resolutions_IsEmpty r0 = false);
  hl_resolved : CallMarkResolved ∈ arb_calls a -> arb_state a = StateFullyResolved;
}.

(** Resolutions without contents give no resolvers. *)
Lemma empty_prepares cfg e stored r ht trigger c R M :
  Resolutions_IsEmpty r = true ->
  prepContractResolutions cfg e stored r ht trigger c = Ok (R, M) -> R = [].
Proof.
  unfold Resolutions_IsEmpty. rewrite !andb_true_iff, !bool_decide_eq_true.
  intros ((((Hc & Hi) & Ho) & Ha) & Hb). unfold prepContractResolutions.
  destruct (constructChainActions _ _ _ _ _ _) as [m| |]; simpl; [|discriminate..].
  destruct (historical_ok e); simpl; [|discriminate..]. rewrite Hi, Ho, Ha, Hb, Hc. simpl. intros [= <- _].
  rewrite app_nil_r, <- list_fmap_compose. apply elem_of_nil_inv.
  intros x (act & l & _ & Hx)%elem_of_mjoin_map. revert Hx.
  assert (forall A (mk : A -> HTLC -> ContractResolver), resolvers_for (CommitHash r) ∅ mk l = []) as Hnil.
  { intros A mk. unfold resolvers_for. induction l as [|h l IHl]; [done|]. simpl. by rewrite lookup_empty. }
  destruct act; simpl; rewrite ?Hnil; apply not_elem_of_nil.
Qed.

Lemma insert_log l R db l' : InsertUnresolvedContracts l R db = Ok l' ->
  exists m, write_resolvers (lg_contracts (scope l)) R = Ok m /\ l' = Some (with_contracts m (scope l)).
Proof.
  unfold InsertUnresolvedContracts. destruct (write_resolvers _ _) as [m| |]; simpl; [|discriminate..].
  destruct db; simpl; [|discriminate..]. intros [= <-]. by exists m.
Qed.

Lemma fetch_scope l l' :
  lg_resolutions (scope l') = lg_resolutions (scope l) -> lg_anchor (scope l') = lg_anchor (scope l) ->
  lg_breach (scope l') = lg_breach (scope l) -> is_Some l' ->
  forall r, FetchContractResolutions l = Ok r -> FetchContractResolutions l' = Ok r.
Proof.
  intros Hr Ha Hb [b' ->] r. unfold FetchContractResolutions. destruct l as [b|]; [|discriminate].
  simpl in *. by rewrite Hr, Ha, Hb.
Qed.

Lemma scope_fetch l r : FetchContractResolutions l = Ok r -> is_Some (lg_resolutions (scope l)).
Proof.
  unfold FetchContractResolutions. destruct l as [b|]; [|discriminate]. simpl.
  by destruct (lg_resolutions b).
Qed.

Lemma held_fetch a r : held a -> FetchContractResolutions (arb_log_ a) = Ok r -> r = r0.
Proof.
  intros Ha Hr. destruct (hl_fate _ Ha) as [(_ & _ & Hn)|Hf]; [|congruence].
  apply scope_fetch in Hr as [? ?]. congruence.
Qed.

Lemma held_step cfg e ht trigger c a : held a -> held (stateStep cfg e ht trigger c a).1.
Proof.
  intros Ha. destruct (step_stepped cfg e ht trigger c a) as [Hs Hl (xs & Hc & Hx)].
  set (a' := (stateStep cfg e ht trigger c a).1) in *. clearbody a'.
  assert (CallMarkResolved ∈ arb_calls a' -> arb_state a' = StateFullyResolved) as Hcalls.
  { rewrite Hc, elem_of_app, Hs. intros [?|?]; [by apply Ha|by apply Hx]. }
  destruct Hl as [Hl|(r & R & M & Hst & Hr & Hp & (m & Hw & Hl)%insert_log)].
  - split; rewrite ?Hl, ?Hs; [by destruct Ha..|]. by rewrite <- Hs.
  - assert (r = r0) as -> by (by eapply held_fetch). split; rewrite ?Hs.
    + rewrite Hl. simpl. apply Ha.
    + right. eapply fetch_scope; [..|exact Hr]; rewrite Hl; [done..|by eexists].
    + destruct (Resolutions_IsEmpty r0) eqn:He.
      * left. rewrite (empty_prepares _ _ _ _ _ _ _ _ _ He Hp) in Hw. injection Hw as <-. rewrite Hl. simpl.
        destruct (hl_contracts _ Ha) as [?|[_ ?]]; [done|congruence].
      * right. split; [|done]. rewrite Hst. left.
    + by rewrite <- Hs.
Qed.

(** How the last two states before the end are left. *)
Lemma step_late cfg e ht trigger c a a1 s tx :
  stateStep cfg e ht trigger c a = (a1, Ok (s, tx)) ->
  arb_state a ∈ [StateContractClosed; StateWaitingFullResolution] ->
  s ∈ [StateContractClosed; StateWaitingFullResolution] \/
  (exists r, FetchContractResolutions (arb_log_ a) = Ok r /\ Resolutions_IsEmpty r = true) \/
  lg_contracts (scope (arb_log_ a1)) = ∅.
Proof.
  unfold stateStep, op_bind at 1. simpl. intros Hstep [Hst|Hst%list_elem_of_singleton]%elem_of_cons;
    rewrite Hst in Hstep.
  - unfold step_closed in Hstep. apply op_bind_inv in Hstep as (? & l & [= <- <-] & Hstep).
    apply op_bind_inv in Hstep as (? & r & [= <- Hr] & Hstep). revert Hstep.
    destruct (Resolutions_IsEmpty r) eqn:He; simpl; [intros _; right; left; by exists r|].
    intros (? & [R M] & _ & (? & ? & _ & (? & ? & _ & (? & ? & _ & (? & ? & _ & [= <- <- <-])%op_bind_inv)%op_bind_inv)%op_bind_inv)%op_bind_inv)%op_bind_inv.
    left. right. left.
  - injection Hstep as <- <- <-. case_bool_decide as Hu; [|left; right; left]. right. right.
    unfold FetchUnresolvedContracts in Hu. apply fmap_nil_inv in Hu. by apply map_to_list_empty_iff in Hu.
Qed.

Lemma held_move cfg e ht trigger c a a1 s tx :
  held a -> stateStep cfg e ht trigger c a = (a1, Ok (s, tx)) -> held (moved s a1).
Proof.
  intros Ha Hstep. pose proof (held_step cfg e ht trigger c a Ha) as H1. rewrite Hstep in H1. simpl in H1.
  pose proof (step_stepped cfg e ht trigger c a) as [Hs _ _]. rewrite Hstep in Hs. simpl in Hs.
  split; simpl.
  - done.
  - destruct (hl_fate _ H1) as [?|Hf]; [by left|right].
    exact (fetch_scope (arb_log_ a1) (arb_log_ (moved s a1)) eq_refl eq_refl eq_refl (mk_is_Some _ _ eq_refl) _ Hf).
  - destruct (hl_contracts _ H1) as [?|[Hin Hne]]; [by left|]. rewrite Hs in Hin.
    destruct (step_late _ _ _ _ _ _ _ _ _ Hstep Hin) as [?|[(r & Hr & He)|?]]; [by right| |by left].
    rewrite (held_fetch _ _ Ha Hr) in He. congruence.
  - intros Hin%(hl_resolved _ H1). rewrite Hs in Hin.
    pose proof (step_forward _ _ _ _ _ _ _ _ _ Hstep) as Hle. rewrite Hin in Hle.
    destruct s; simpl in Hle; first [done|lia].
Qed.

Lemma held_advance cfg envs ht trigger c : keeps held (advance cfg envs ht trigger c).
Proof. apply advance_keeps; intros; [by apply held_step|by eapply held_move]. Qed.

Lemma held_call x : x <> CallMarkResolved -> forall a, held a -> held (add_call x a).
Proof.
  intros Hx a [? ? ? Hr]. split; simpl; [done..|].
  rewrite elem_of_app, list_elem_of_singleton. intros [?|?]; [by apply Hr|by destruct Hx].
Qed.

(** Only the state, the log and the calls matter. *)
Lemma held_ext a a' : arb_state a' = arb_state a -> arb_log_ a' = arb_log_ a -> arb_calls a' = arb_calls a ->
  held a -> held a'.
Proof. intros E1 E2 E3 [? ? ? ?]. split; rewrite ?E1, ?E2, ?E3; done. Qed.

Lemma held_set f :
  (forall a, arb_state (f a) = arb_state a) -> (forall a, arb_log_ (f a) = arb_log_ a) ->
  (forall a, arb_calls (f a) = arb_calls a) -> keeps held (op_set f).
Proof. intros E1 E2 E3. apply keeps_set. intros a Ha. exact (held_ext a (f a) (E1 a) (E2 a) (E3 a) Ha). Qed.

Lemma keeps_held_call {A} (r : res A) f : (forall x, f x <> CallMarkResolved) -> keeps held (call r f).
Proof. intros Hf. apply keeps_call. intros a x. by apply held_call. Qed.

Hint Resolve held_advance : keeps.
Hint Extern 2 (keeps held (op_set _)) => apply held_set; intros; try case_match; done : keeps.
Hint Extern 2 (keeps held (call _ _)) => apply keeps_held_call; done : keeps.

Lemma held_exit : keeps held exit_if_resolved.
Proof. unfold exit_if_resolved. auto with keeps. Qed.
Hint Resolve held_exit : keeps.

(** A new log that keeps the state and the contracts. *)
Lemma held_relog a l :
  held a -> lg_state (scope l) = lg_state (scope (arb_log_ a)) ->
  lg_contracts (scope l) = lg_contracts (scope (arb_log_ a)) ->
  FetchContractResolutions l = Ok r0 -> held (set_log l a).
Proof. intros [? ? Hc ?] Hs Hm Hf. split; simpl; [congruence|by right|by rewrite Hm|done]. Qed.

Lemma logged_resolutions a : held a ->
  FetchContractResolutions (Some (with_resolutions r0 (scope (arb_log_ a)))) = Ok r0.
Proof.
  intros Ha. simpl. f_equal.
  assert (forall b, (lg_anchor b = None \/ lg_anchor b = cr_AnchorResolution r0) ->
    (lg_breach b = None \/ lg_breach b = cr_BreachResolution r0) ->
    match cr_AnchorResolution r0 with Some x => Some x | None => lg_anchor b end = cr_AnchorResolution r0 /\
    match cr_BreachResolution r0 with Some x => Some x | None => lg_breach b end = cr_BreachResolution r0) as Hb.
  { intros b H1 H2. destruct (cr_AnchorResolution r0), (cr_BreachResolution r0); naive_solver. }
  destruct (Hb (scope (arb_log_ a))) as [-> ->]; [..|by destruct r0].
  all: destruct (hl_fate _ Ha) as [(? & ? & _)|Hf]; [by left|right].
  all: revert Hf; unfold FetchContractResolutions; destruct (arb_log_ a) as [b|]; [|discriminate]; simpl;
    destruct (lg_resolutions b); [|discriminate]; intros E; apply (f_equal (fun x => match x with Ok y => y | _ => r0 end)) in E;
    simpl in E; by rewrite <- E.
Qed.

Lemma held_log_close info : ci_resolutions info = r0 -> keeps held (log_close info).
Proof.
  intros Hr a Ha. unfold log_close. unfold op_bind at 1. simpl. rewrite Hr.
  destruct (ci_db_resolutions info) as [[]| |]; unfold op_bind at 1; simpl; [|done..].
  unfold op_bind at 1. simpl.
  assert (held (set_log (Some (with_resolutions r0 (scope (arb_log_ a)))) a)) as H1.
  { apply held_relog; [done..|]. by apply logged_resolutions. }
  destruct (ci_db_commitSet info) as [[]| |]; unfold op_bind at 1; simpl; [|done..].
  unfold op_bind at 1. simpl. apply keeps_held_call; [done|].
  apply (held_relog _ (Some (with_commitSet (ci_commitSet info) (with_resolutions r0 (scope (arb_log_ a)))))) in H1;
    [|done..|].
  - eapply held_ext; [..|exact H1]; done.
  - exact (logged_resolutions a Ha).
Qed.

Lemma held_close cfg envs trigger ht info : ci_resolutions info = r0 -> keeps held (on_close cfg envs trigger ht info).
Proof.
  intros Hr. unfold on_close. apply keeps_bind; [by apply keeps_try, held_log_close|].
  intros []; auto 8 with keeps.
Qed.

Lemma held_coop cfg envs ht mark : keeps held (on_coop_close cfg envs ht mark).
Proof. unfold on_coop_close. apply keeps_bind; [auto 8 with keeps|]. intros []; auto with keeps. Qed.

Lemma held_block cfg envs ht : keeps held (on_block cfg envs ht).
Proof.
  unfold on_block. apply keeps_bind; [auto with keeps|]. intros _. apply keeps_bind; [auto with keeps|].
  intros st. case_match; auto 8 with keeps.
Qed.

Lemma held_resolution cfg envs : keeps held (on_resolution cfg envs).
Proof. unfold on_resolution. auto 8 with keeps. Qed.

Lemma held_force_close cfg envs : keeps held (on_force_close cfg envs).
Proof.
  unfold on_force_close. apply keeps_bind; [auto with keeps|]. intros st. case_match; auto 10 with keeps.
Qed.

(** Resolvers that change the log are unresolved there. *)
Lemma held_contracts a m :
  held a -> (lg_contracts (scope (arb_log_ a)) = ∅ -> m = ∅) ->
  held (set_log (Some (with_contracts m (scope (arb_log_ a)))) a).
Proof.
  intros [Hs Hf Hc Hx] Hm. split; simpl; [done| |naive_solver|done].
  destruct Hf as [?|Hf]; [by left|right].
  exact (fetch_scope (arb_log_ a) (Some (with_contracts m (scope (arb_log_ a)))) eq_refl eq_refl eq_refl
           (mk_is_Some _ _ eq_refl) _ Hf).
Qed.

Lemma recorded_nonempty a K : recorded a K -> lg_contracts (scope (arb_log_ a)) <> ∅.
Proof. intros [x Hx] E. by rewrite E, lookup_empty in Hx. Qed.

Lemma held_finishes r db : keeps held (resolver_finishes r db).
Proof.
  intros a Ha. unfold resolver_finishes, ResolveContract. simpl.
  destruct (ResolverKey r) as [K| |]; simpl; [|done..]. destruct db as [[]| |]; simpl; [|done..].
  apply held_contracts; [done|]. intros ->. destruct K; simpl; [by rewrite delete_empty|done].
Qed.

Lemma held_swaps old new db a : possible a (EvSwap old new db) -> held a -> held (resolver_swaps old new db a).1.
Proof.
  intros (K & Ho & Hn & Hrec) Ha. unfold resolver_swaps, SwapContract, writeResolver. simpl.
  rewrite Ho, Hn. simpl. destruct db as [[]| |]; simpl;
    [|eapply held_ext; [..|exact Ha]; done|eapply held_ext; [..|exact Ha]; done].
  match goal with |- held (set_resolvers _ ?a1) => apply (held_ext a1); [done..|] end.
  apply held_contracts; [done|]. intros E. by apply recorded_nonempty in Hrec.
Qed.

Lemma held_checkpoint r db a : possible a (EvCheckpoint r db) -> held a -> held (checkpointContract r db a).1.
Proof.
  intros Hpos Ha. unfold checkpointContract, op_bind. simpl.
  destruct (InsertUnresolvedContracts _ _ _) as [l| |] eqn:Hi; simpl; [|done..].
  apply insert_log in Hi as (m & Hw & ->). apply held_contracts; [done|]. intros E. revert Hw. simpl.
  unfold writeResolver. destruct Hpos as [Hk|(K & Hk & Hrec)]; [|by apply recorded_nonempty in Hrec].
  rewrite Hk. simpl. intros [= <-]. done.
Qed.

Lemma held_start cfg sets envs best a :
  held a -> held (Start cfg envs best (NewChannelArbitrator sets (arb_log_ a) (arb_calls a))).1.
Proof.
  intros [Hs Hf Hc Hx]. unfold Start. unfold op_bind at 1 2. simpl.
  set (a1 := set_arb_state _ _). assert (held a1) as Ha by (split; simpl; rewrite <- ?Hs; done).
  clearbody a1. revert a1 Ha.
  match goal with |- forall a1, held a1 -> held (?m a1).1 => change (keeps held m) end.
  apply keeps_bind; [auto with keeps|]. intros height. apply keeps_bind; [auto with keeps|]. intros r.
  apply keeps_bind; [destruct r; try case_match; auto with keeps|]. intros _.
  apply keeps_bind; [auto with keeps|]. intros st. apply keeps_bind; [|auto with keeps].
  case_match; [|auto with keeps]. unfold relaunchResolvers, launchResolvers. auto 12 with keeps.
Qed.

Lemma held_occurs cfg a ev : possible a ev -> held a -> held (occurs ev (cfg, a)).2.
Proof.
  intros Hp Ha. destruct ev as [envs h|k l|envs h mark|envs i|envs i|envs i|envs|envs|r db|o n db|r db|cfg' sets envs best].
  - exact (held_block cfg envs h a Ha).
  - exact (held_ext a (occurs (EvHtlcUpdate k l) (cfg, a)).2 eq_refl eq_refl eq_refl Ha).
  - exact (held_coop cfg envs h mark a Ha).
  - exact (held_close cfg envs localCloseTrigger (ci_height i) i (proj2 Hp) a Ha).
  - exact (held_close cfg envs remoteCloseTrigger (ci_height i) i (proj2 Hp) a Ha).
  - exact (held_close cfg envs breachCloseTrigger (bestHeight a) i (proj2 Hp) a Ha).
  - exact (held_resolution cfg envs a Ha).
  - exact (held_force_close cfg envs a Ha).
  - exact (held_checkpoint r db a Hp Ha).
  - exact (held_swaps o n db a Hp Ha).
  - exact (held_finishes r db a Ha).
  - exact (held_start cfg' sets envs best a Ha).
Qed.

Lemma held_history n evs n' : history n evs n' -> held n.2 -> held n'.2.
Proof.
  induction 1 as [n|[cfg a] ev evs n' Hp _ IH]; intros Ha; [done|]. apply IH. by apply held_occurs.
Qed.

(** ** Contracts in the log *)

Section Recorded.
Context (K : list byte).
Abbreviation rec := (fun a => recorded a K).

Lemma write_resolvers_grows rs m m' :
  write_resolvers m rs = Ok m' -> is_Some (m !! K) -> is_Some (m' !! K).
Proof.
  revert m. induction rs as [|r rs IH]; intros m; simpl; [by intros [= ->]|].
  unfold writeResolver. destruct (ResolverKey r) as [[k|]| |]; simpl; [|by apply IH|discriminate..].
  intros Hw Hm. apply (IH _ Hw). destruct (decide (K = k)) as [->|Hne];
    [rewrite lookup_insert_eq; by eexists|by rewrite lookup_insert_ne].
Qed.

Lemma rec_step cfg e ht trigger c a : rec a -> rec (stateStep cfg e ht trigger c a).1.
Proof.
  intros Ha. unfold recorded. destruct (sp_log _ _ _ _ _ _ _ (step_stepped cfg e ht trigger c a))
    as [->|(r & R & M & _ & _ & _ & (m & Hw & ->)%insert_log)]; [done|].
  exact (write_resolvers_grows _ _ _ Hw Ha).
Qed.

Lemma rec_advance cfg envs ht trigger c : keeps rec (advance cfg envs ht trigger c).
Proof.
  apply advance_keeps; intros e a; [apply rec_step|]. intros a1 s tx Ha Hs.
  pose proof (rec_step cfg e ht trigger c a Ha) as H1. rewrite Hs in H1. exact H1.
Qed.

Lemma rec_set f : (forall a, lg_contracts (scope (arb_log_ (f a))) = lg_contracts (scope (arb_log_ a))) ->
  keeps rec (op_set f).
Proof. intros E a Ha. unfold recorded. simpl. rewrite E. exact Ha. Qed.

Lemma rec_call {A} (r : res A) f : keeps rec (call r f).
Proof. apply keeps_call. intros a x Ha. exact Ha. Qed.

Hint Resolve rec_advance rec_call : keeps.
Hint Extern 2 (keeps rec (op_set _)) => apply rec_set; intros; try case_match; done : keeps.

Lemma rec_exit : keeps rec exit_if_resolved.
Proof. unfold exit_if_resolved. auto with keeps. Qed.
Hint Resolve rec_exit : keeps.

Lemma rec_close cfg envs trigger ht info : keeps rec (on_close cfg envs trigger ht info).
Proof.
  unfold on_close. apply keeps_bind; [|intros []; auto 8 with keeps]. apply keeps_try. intros a Ha.
  unfold log_close, op_bind at 1 2. simpl. destruct (ci_db_resolutions info) as [[]| |]; [|done..].
  unfold op_bind. simpl. destruct (ci_db_commitSet info) as [[]| |]; [|done..]. simpl.
  destruct (ci_MarkChannelClosed info) as [[]| |]; exact Ha.
Qed.

Lemma rec_start cfg sets envs best a : rec a ->
  rec (Start cfg envs best (NewChannelArbitrator sets (arb_log_ a) (arb_calls a))).1.
Proof.
  intros Ha. set (a1 := NewChannelArbitrator _ _ _). assert (rec a1) as H1 by exact Ha.
  clearbody a1. revert a1 H1. clear a Ha. change (keeps rec (Start cfg envs best)). unfold Start.
  apply keeps_bind; [auto with keeps|]. intros l. apply keeps_bind; [auto with keeps|]. intros _.
  apply keeps_bind; [auto with keeps|]. intros height. apply keeps_bind; [auto with keeps|]. intros r.
  apply keeps_bind; [destruct r; try case_match; auto with keeps|]. intros _.
  apply keeps_bind; [auto with keeps|]. intros st. apply keeps_bind; [|auto with keeps].
  case_match; [|auto with keeps]. unfold relaunchResolvers, launchResolvers. auto 12 with keeps.
Qed.

Lemma rec_block cfg envs ht : keeps rec (on_block cfg envs ht).
Proof.
  unfold on_block. apply keeps_bind; [auto with keeps|]. intros _. apply keeps_bind; [auto with keeps|].
  intros st. case_match; auto 8 with keeps.
Qed.

Lemma rec_force_close cfg envs : keeps rec (on_force_close cfg envs).
Proof.
  unfold on_force_close. apply keeps_bind; [auto with keeps|]. intros st. case_match; auto 10 with keeps.
Qed.

Lemma rec_coop cfg envs ht mark : keeps rec (on_coop_close cfg envs ht mark).
Proof. unfold on_coop_close. apply keeps_bind; [auto 8 with keeps|]. intros []; auto with keeps. Qed.

Lemma rec_resolution cfg envs : keeps rec (on_resolution cfg envs).
Proof. unfold on_resolution. auto 8 with keeps. Qed.

Lemma rec_checkpoint r db : keeps rec (checkpointContract r db).
Proof.
  intros a Ha. unfold checkpointContract, op_bind. simpl.
  destruct (InsertUnresolvedContracts _ _ _) as [l| |] eqn:Hi; simpl; [|done..].
  apply insert_log in Hi as (m & Hw & ->). exact (write_resolvers_grows _ _ _ Hw Ha).
Qed.

Lemma rec_swaps old new db a : possible a (EvSwap old new db) -> rec a -> rec (resolver_swaps old new db a).1.
Proof.
  intros (K' & Ho & Hn & _) Ha. unfold resolver_swaps, SwapContract, writeResolver. simpl.
  rewrite Ho, Hn. simpl. destruct db as [[]| |]; simpl; [|exact Ha..].
  unfold recorded. simpl. destruct (decide (K = K')) as [->|Hne]; [rewrite lookup_insert_eq; by eexists|].
  by rewrite lookup_insert_ne, lookup_delete_ne.
Qed.

Lemma rec_finishes r db a : rec a ->
  rec (resolver_finishes r db a).1 \/ (ResolverKey r = Ok (Some K) /\ db = Ok tt).
Proof.
  intros Ha. unfold resolver_finishes, ResolveContract. simpl.
  destruct (ResolverKey r) as [[k|]| |]; simpl; [|destruct db as [[]| |]; by left..].
  destruct db as [[]| |]; simpl; [|by left..]. destruct (decide (k = K)) as [->|Hne]; [by right|left].
  unfold recorded. simpl. by rewrite lookup_delete_ne.
Qed.

(** A contract leaves the log only when its resolver has finished. *)
Lemma rec_occurs cfg a ev : possible a ev -> rec a ->
  rec (occurs ev (cfg, a)).2 \/ exists r, ev = EvFinish r (Ok tt) /\ ResolverKey r = Ok (Some K).
Proof.
  intros Hp Ha. destruct ev as [envs h|k l|envs h mark|envs i|envs i|envs i|envs|envs|r db|o n db|r db|cfg' sets envs best].
  11: { destruct (rec_finishes r db a Ha) as [?|[? ->]]; [by left|right; by exists r]. }
  all: left.
  - exact (rec_block cfg envs h a Ha).
  - exact Ha.
  - exact (rec_coop cfg envs h mark a Ha).
  - exact (rec_close cfg envs localCloseTrigger (ci_height i) i a Ha).
  - exact (rec_close cfg envs remoteCloseTrigger (ci_height i) i a Ha).
  - exact (rec_close cfg envs breachCloseTrigger (bestHeight a) i a Ha).
  - exact (rec_resolution cfg envs a Ha).
  - exact (rec_force_close cfg envs a Ha).
  - exact (rec_checkpoint r db a Ha).
  - exact (rec_swaps o n db a Hp Ha).
  - exact (rec_start cfg' sets envs best a Ha).
Qed.

Lemma rec_history n evs n' : history n evs n' -> rec n.2 ->
  rec n'.2 \/ exists r, EvFinish r (Ok tt) ∈ evs /\ ResolverKey r = Ok (Some K).
Proof.
  induction 1 as [n|[cfg a] ev evs n' Hp _ IH]; intros Ha; [by left|].
  destruct (rec_occurs cfg a ev Hp Ha) as [H1|(r & -> & Hk)].
  - destruct (IH H1) as [?|(r & Hr & Hk)]; [by left|]. right. exists r. split; [by right|done].
  - right. exists r. split; [left|done].
Qed.

End Recorded.

(** The arbitrator of a new channel, before its first start. *)
Lemma held_fresh sets : held (NewChannelArbitrator sets None []).
Proof. split; simpl; [done|by left|by left|by intros ?%elem_of_nil]. Qed.

Lemma resolved_empty a : held a -> CallMarkResolved ∈ arb_calls a -> lg_contracts (scope (arb_log_ a)) = ∅.
Proof.
  intros Ha Hin%(hl_resolved _ Ha). destruct (hl_contracts _ Ha) as [?|[Hst _]]; [done|].
  rewrite Hin in Hst. set_solver.
Qed.

End History.
