(* ===== verification/ArbitratorThms.v ===== *)
(** * The channel arbitrator: properties

    A block makes the arbitrator broadcast its commitment exactly when some HTLC is due; runs
    of the state machine end; on a confirmed commitment every HTLC with an output gets a
    resolver and exactly the lost ones are cancelled; and a channel is marked resolved only
    when the resolver of every recorded contract has finished.  A restart after the resolvers
    could not be written, however, loses the HTLCs. *)

From Stdlib Require Import Lia.
From S2P Require Import Prelude Sha256 Ids Amounts UpdateLog Channel CommitTx StateRes Arbitrator ArbitratorInv ArbitratorRun.

(** ** Runs end *)

Section Ends.
Context (cfg : ChannelArbitratorConfig) (envs : nat -> env) (ht : Z) (trigger : transitionTrigger).
Context (c : option CommitSet).

Lemma loop_det n tx a out1 out2 :
  loop cfg envs ht trigger c n tx a out1 -> loop cfg envs ht trigger c n tx a out2 -> out1 = out2.
Proof.
  intros L1. revert out2. induction L1; intros out2 L2; inversion L2; subst; try congruence.
  assert (a1 = a2 /\ nextState = nextState0 /\ closeTx = closeTx0) as (-> & -> & ->) by (repeat split; congruence).
  by apply IHL1.
Qed.

Lemma loop_forward n tx a out a' s tx' :
  loop cfg envs ht trigger c n tx a out -> out = (a', Ok (s, tx')) ->
  arb_state a' = s /\ (progress (arb_state a) <= progress s)%nat.
Proof.
  induction 1 as [n tx a a1 closeTx Hs| n tx a a1 s1 closeTx out Hs _ _ _ IH|n tx a a1 er _|n tx a a1 _
    |n tx a a1 s1 closeTx er _ _ _|n tx a a1 s1 closeTx _ _ _]; intros E; try discriminate.
  - injection E as <- <- <-. pose proof (sp_state _ _ _ _ _ _ _ (step_stepped cfg (envs n) ht trigger c a)) as Hst.
    rewrite Hs in Hst. simpl in Hst. done.
  - destruct (IH E) as [-> Hle]. simpl in Hle. pose proof (step_forward _ _ _ _ _ _ _ _ _ Hs). split; [done|lia].
Qed.

End Ends.

(** C32. Whatever the surroundings answer, the loop that advances the state machine ends after
    at most seven iterations: the bounded loop computes the one and only outcome of the loop
    without a bound.  When it succeeds the state in memory is the one returned, and the
    machine has not gone back. *)
Theorem advance_terminates cfg envs ht trigger c a :
  loop cfg envs ht trigger c 0 None a (advance cfg envs ht trigger c a) /\
  (forall out, loop cfg envs ht trigger c 0 None a out -> out = advance cfg envs ht trigger c a) /\
  (forall a' s tx, advance cfg envs ht trigger c a = (a', Ok (s, tx)) ->
     arb_state a' = s /\ (progress (arb_state a) <= progress s)%nat).
Proof.
  assert (loop cfg envs ht trigger c 0 None a (advance cfg envs ht trigger c a)) as Hl.
  { apply advance_loop. unfold max_steps. lia. }
  split; [done|]. split.
  - intros out Ho. by eapply loop_det.
  - intros a' s tx E. by eapply loop_forward.
Qed.

(** ** A confirmed commitment *)

(** The surroundings answer, and the writes succeed. *)
Record obliging (e : env) : Prop := {
  ob_preimages : forall x, exists b, isPreimageAvailable e x = Ok b;
  ob_history : historical_ok e = Ok tt;
  ob_deliver : DeliverResolutionMsg e = Ok tt;
  ob_insert : db_Insert e = Ok tt;
}.

Section Asked.
Context (cfg : ChannelArbitratorConfig) (e : env) (ht : Z).

(** The preimage of [x] is known. *)
Definition known (x : list byte) : Prop := isPreimageAvailable e x = Ok true.

Lemma incoming_chain l have b : incoming_to_chain cfg e ht l have = Ok b ->
  b = true <-> have = true \/ exists h, h ∈ l /\ known (disk_RHash h) /\
    shouldGoOnChain cfg e FirstPass h (IncomingBroadcastDelta cfg) ht = true.
Proof.
  revert have. induction l as [|h l IH]; intros have; simpl.
  { intros [= <-]. split; [by left|]. intros [?|(? & ?%elem_of_nil & _)]; done. }
  unfold known. destruct (isPreimageAvailable e (disk_RHash h)) as [p| |] eqn:Hp; simpl; [|discriminate..].
  intros E. rewrite (IH _ E). setoid_rewrite elem_of_cons. unfold known. destruct p.
  - rewrite orb_true_iff. naive_solver.
  - naive_solver congruence.
Qed.

(** An HTLC on the commitment [k] makes a block go on chain. *)
Definition due_on (c : CommitSet) (k : HtlcSetKey) : Prop :=
  (exists h, h ∈ in_dir false (htlcs_of c k) /\
     shouldGoOnChain cfg e FirstPass h (OutgoingBroadcastDelta cfg) ht = true) \/
  (exists h, h ∈ in_dir true (htlcs_of c k) /\ known (disk_RHash h) /\
     shouldGoOnChain cfg e FirstPass h (IncomingBroadcastDelta cfg) ht = true).

Lemma due_on_chain c k b : good_set c k ->
  incoming_to_chain cfg e ht (values (incomingHTLCs_ (active (toActiveHTLCSets c) k)))
    (existsb (fun h => shouldGoOnChain cfg e FirstPass h (OutgoingBroadcastDelta cfg) ht)
       (values (outgoingHTLCs_ (active (toActiveHTLCSets c) k)))) = Ok b ->
  b = true <-> due_on c k.
Proof.
  intros Hg Hb. rewrite (incoming_chain _ _ _ Hb), existsb_exists. unfold due_on.
  setoid_rewrite <- list_elem_of_In. setoid_rewrite (active_outgoing c k k Hg).
  by setoid_rewrite (active_incoming c k k Hg).
Qed.

Lemma asks_due trigger c k :
  good_set c k -> trigger <> chainTrigger \/ due_on c k ->
  asks_for cfg e ht trigger (active (toActiveHTLCSets c) k).
Proof. intros Hg Ht b Hb. destruct Ht as [Ht|Hd]; [by right|left]. by apply (due_on_chain c k b Hg Hb). Qed.

End Asked.

(** The HTLCs that are given up when [k] is confirmed: those we offered that have no output
    there, and those that are only on a commitment that lost. *)
Definition given_up (c : CommitSet) (k : HtlcSetKey) (i : Z) : Prop :=
  exists h, disk_HtlcIndex h = i /\
    ((h ∈ in_dir false (htlcs_of c k) /\ ~ has_output h) \/
     (h ∈ competing c k /\ i ∉ (disk_HtlcIndex <$> in_dir false (htlcs_of c k)))).

Lemma cancels_exactly cfg e ht c k M r R : good_set c k -> prepared cfg e ht r c k R M ->
  NoDup M /\ forall m, m ∈ M <-> SourceChan m = cfg_ShortChanID cfg /\ given_up c k (rm_HtlcIndex m).
Proof.
  intros Hc Hp. destruct (pr_cancels Hp) as (lost & [Hnd Hlost] & HM).
  set (dust := filter (fun h => ~ has_output h) (in_dir false (htlcs_of c k))) in *.
  assert (forall h, h ∈ dust <-> ~ has_output h /\ h ∈ in_dir false (htlcs_of c k)) as Hdust
    by (intros h; unfold dust; by rewrite list_elem_of_filter).
  set (mk := fun i => {| SourceChan := cfg_ShortChanID cfg; rm_HtlcIndex := i |}).
  assert (M ≡ₚ mk <$> (disk_HtlcIndex <$> (dust ++ lost))) as EM.
  { rewrite HM, <- list_fmap_compose. done. }
  assert (forall i, i ∈ (disk_HtlcIndex <$> (dust ++ lost)) <-> given_up c k i) as Hidx.
  { intros i. rewrite fmap_app, elem_of_app, Hlost. unfold given_up. split.
    - intros [(h & -> & Hh)%list_elem_of_fmap|[(h & -> & Hh)%list_elem_of_fmap Hn]]; exists h;
        (split; [done|]); [left|by right]. apply Hdust in Hh. naive_solver.
    - intros (h & <- & [[Hh Ho]|[Hh Hn]]); [left|right; split; [|done]]; apply list_elem_of_fmap; exists h;
        (split; [done|]); [by apply Hdust|done]. }
  split.
  - rewrite EM. apply NoDup_fmap_2; [by intros ? ? [= ?]|]. rewrite fmap_app. apply NoDup_app. split; [|split; [|done]].
    + eapply sublist_NoDup; [apply (gs_nodup _ _ Hc k false)|]. apply fmap_sublist, sublist_filter.
    + intros i (h & -> & Hh%Hdust)%list_elem_of_fmap [_ Hn]%Hlost. apply Hn. apply list_elem_of_fmap_2, Hh.
  - intros m. rewrite EM, list_elem_of_fmap. setoid_rewrite Hidx. split.
    + by intros (i & -> & Hi).
    + intros [E Hi]. exists (rm_HtlcIndex m). split; [|done]. destruct m. simpl in *. by subst.
Qed.

(** C5. A commitment of ours or of the other party was confirmed, without a breach, and the
    stored resolutions fit it; the step is taken for the closure itself, or for a block at
    whose height an HTLC on the commitment is due.  Its surroundings answering, it goes on to
    wait for the contracts.  Then every HTLC with an output on that commitment has a running
    resolver that is in the log under its output and deals with it: an incoming HTLC is
    contested, an outgoing one is timed out if it is due and watched otherwise.  And the switch
    is told, in one message each, to cancel exactly the HTLCs we offered that have no output
    there or are only on a commitment that lost.  (A step for a block at which nothing is due,
    as a restart may take, is the subject of [restart_forgets_htlcs].) *)
Theorem closed_contracts_covered cfg e ht trigger c k r a :
  arb_state a = StateContractClosed -> trigger <> chainTrigger \/ due_on cfg e ht c k -> obliging e ->
  FetchContractResolutions (arb_log_ a) = Ok r -> cr_BreachResolution r = None ->
  good_set c k -> resolvable r c k ->
  Resolutions_IsEmpty r && CommitSet_IsEmpty (Some c) = false ->
  exists a' msgs,
    stateStep cfg e ht trigger (Some c) a = (a', Ok (StateWaitingFullResolution, None)) /\
    (forall h, h ∈ htlcs_of c k -> has_output h ->
       exists x, lg_contracts (scope (arb_log_ a')) !! newResolverID (htlc_op (CommitHash r) h) = Some x /\
         x ∈ activeResolvers a' /\ guards cfg e ht x h) /\
    arb_calls a' = arb_calls a ++ (if decide (msgs = []) then [] else [CallDeliver msgs]) /\
    NoDup msgs /\
    (forall m, m ∈ msgs <-> SourceChan m = cfg_ShortChanID cfg /\ given_up c k (rm_HtlcIndex m)).
Proof.
  intros Hs Ht [Hpre Hhist Hdel Hins] Hr Hb Hc Hres Hne.
  destruct (prepares cfg e ht trigger (FetchChainActions (arb_log_ a)) r c k Hc (asks_due _ _ _ _ _ _ Hc Ht) Hres Hb Hpre Hhist)
    as (R & M & Hprep & Hp).
  destruct (write_resolvers_total _ (pr_keys Hp) (lg_contracts (scope (arb_log_ a)))) as [m Hw].
  set (a1 := if decide (M = []) then a else add_call (CallDeliver M) a).
  exists (set_resolvers R (set_log (Some (with_contracts m (scope (arb_log_ a)))) a1)), M. split; [|split; [|split]].
  - unfold stateStep. op_step. rewrite Hs. unfold step_closed. op_step.
    rewrite (op_bind_ok _ _ a a r) by (simpl; by rewrite Hr). rewrite Hne.
    rewrite (op_bind_ok _ _ a a (R, M)) by (simpl; by rewrite Hprep).
    rewrite (op_bind_ok _ _ a a1 tt).
    2: { unfold a1. case_bool_decide; destruct (decide (M = [])); try done. unfold call, op_bind. simpl. by rewrite Hdel. }
    rewrite (op_bind_ok _ _ a1 a1 (Some (with_contracts m (scope (arb_log_ a))))).
    2: { simpl. unfold InsertUnresolvedContracts. rewrite Hw. simpl. by rewrite Hins. }
    done.
  - intros h Hh Ho. destruct (write_resolvers_lookup _ _ _ (htlc_id r h) Hw (pr_covers Hp h Hh Ho))
      as (x & Hx & Hk & Hl).
    exists x. split; [exact Hl|]. split; [exact Hx|]. by apply (pr_guards Hp x h).
  - unfold a1. simpl. case_decide; simpl; by rewrite ?app_nil_r.
  - by eapply cancels_exactly.
Qed.

(** ** When a channel is resolved *)

(** C6. In every history of a channel, failing writes and restarts at any point included, in
    which one commitment at most spends the channel: once the channel has been marked
    resolved, no unresolved contract is in the log, and for every contract that was ever
    recorded there the resolver of its output has since reported that it finished. *)
Theorem resolved_only_when_done r0 cfg0 sets evs cfg a evs' cfg' a' K :
  history r0 (cfg0, NewChannelArbitrator sets None []) evs (cfg, a) ->
  history r0 (cfg, a) evs' (cfg', a') ->
  CallMarkResolved ∈ arb_calls a' ->
  FetchUnresolvedContracts (arb_log_ a') = [] /\
  (recorded a K -> exists r, EvFinish r (Ok tt) ∈ evs' /\ ResolverKey r = Ok (Some K)).
Proof.
  intros Hh1 Hh2 Hin.
  assert (held r0 a) as Ha by exact (held_history _ _ _ _ Hh1 (held_fresh r0 sets)).
  assert (held r0 a') as Ha' by exact (held_history _ _ _ _ Hh2 Ha).
  pose proof (resolved_empty _ _ Ha' Hin) as He. split.
  - unfold FetchUnresolvedContracts. by rewrite He, map_to_list_empty.
  - intros Hrec. destruct (rec_history _ K _ _ _ Hh2 Hrec) as [Hr|?]; [|done].
    by destruct (recorded_nonempty _ _ Hr).
Qed.

(** ** When to go on chain *)

Section Due.
Context (cfg : ChannelArbitratorConfig) (e : env) (ht : Z).

Definition reached (delta : Z) (h : HTLC) : Prop := disk_RefundTimeout h <= ht + delta.

(** We may let an HTLC of our own time out for a while after we come up. *)
Definition patient (site : clock_site) (h : HTLC) : Prop :=
  IsForwardedHTLC e (disk_HtlcIndex h) = false /\ upTime e site h <= PaymentsExpirationGracePeriod cfg.

(** An HTLC of the active sets that needs the chain. *)
Inductive due (sets : gmap HtlcSetKey htlcSet) : Prop :=
  | due_outgoing h :
      h ∈ values (outgoingHTLCs_ (active sets LocalHtlcSet)) ->
      reached (OutgoingBroadcastDelta cfg) h -> ~ patient FirstPass h -> due sets
  | due_incoming h h' :
      h ∈ values (incomingHTLCs_ (active sets LocalHtlcSet)) -> known e (disk_RHash h) ->
      reached (IncomingBroadcastDelta cfg) h ->
      h' ∈ values (outgoingHTLCs_ (active sets LocalHtlcSet)) \/
      (h' ∈ values (incomingHTLCs_ (active sets LocalHtlcSet)) /\ has_output h') -> due sets
  | due_dangling h :
      h ∈ dangling sets -> reached (OutgoingBroadcastDelta cfg) h -> ~ patient Dangling h -> due sets.

(** Heights and timeouts at which the cut-off does not wrap around. *)
Definition timely (h : HTLC) : Prop :=
  OutgoingBroadcastDelta cfg <= disk_RefundTimeout h < 2 ^ 32 /\
  IncomingBroadcastDelta cfg <= disk_RefundTimeout h < 2 ^ 32 /\
  0 <= OutgoingBroadcastDelta cfg /\ 0 <= IncomingBroadcastDelta cfg.

Lemma should_outgoing site h : timely h -> disk_Incoming h = false ->
  shouldGoOnChain cfg e site h (OutgoingBroadcastDelta cfg) ht = true <->
  reached (OutgoingBroadcastDelta cfg) h /\ ~ patient site h.
Proof.
  intros (? & _ & ? & _) Hi. unfold shouldGoOnChain, reached, patient, u32.
  rewrite Z.mod_small, Hi by lia. destruct (Z.ltb_spec ht (disk_RefundTimeout h - OutgoingBroadcastDelta cfg));
    [split; [done|lia]|].
  rewrite orb_true_iff, Z.ltb_lt. destruct (IsForwardedHTLC e (disk_HtlcIndex h)).
  - split; [|by left]. intros _. split; [lia|]. by intros [? _].
  - split; [intros [|?]; [done|]; split; [lia|]; intros [_ ?]; lia|].
    intros [_ Hn]. right. destruct (Z.lt_ge_cases (PaymentsExpirationGracePeriod cfg) (upTime e site h)); [done|].
    by destruct Hn.
Qed.

Lemma should_incoming site h : timely h -> disk_Incoming h = true ->
  shouldGoOnChain cfg e site h (IncomingBroadcastDelta cfg) ht = true <-> reached (IncomingBroadcastDelta cfg) h.
Proof.
  intros (_ & ? & _ & ?) Hi. unfold shouldGoOnChain, reached, u32. rewrite Z.mod_small, Hi by lia.
  case_match; rewrite ?Z.ltb_lt, ?Z.ltb_ge in *; split; try done; lia.
Qed.

(** A fold that adds an action for some HTLCs leaves nothing only if it adds none. *)
Lemma fold_nothing (f : HTLC -> ChainAction) (skip : HTLC -> bool) l m :
  foldl (fun m h => if skip h then m else add_action (f h) m h) m l = ∅ <->
  m = ∅ /\ forall h, h ∈ l -> skip h = true.
Proof.
  revert m. induction l as [|h l IH]; intros m; simpl.
  { split; [intros ->; split; [done|by intros h ?%elem_of_nil]|by intros [? _]]. }
  rewrite IH. setoid_rewrite elem_of_cons. destruct (skip h) eqn:Hs.
  - naive_solver.
  - unfold add_action. split; [intros [Hm _]; by apply insert_non_empty in Hm|].
    intros [_ Hall]. rewrite (Hall h) in Hs by (by left). done.
Qed.

Lemma merge_empty (m1 m2 : ChainActionMap) : Merge m1 m2 = ∅ <-> m1 = ∅ /\ m2 = ∅.
Proof.
  unfold Merge. split.
  - intros Hm. split; apply map_empty; intros i; pose proof (f_equal (.!! i) Hm) as Hi;
      rewrite lookup_union_with, lookup_empty in Hi; by destruct (m1 !! i), (m2 !! i).
  - intros [-> ->]. by rewrite (left_id_L ∅ (union_with _)).
Qed.

Context (sets : gmap HtlcSetKey htlcSet).

(** The active sets: directions are as filed, and cut-offs do not wrap around. *)
Record sane : Prop := {
  sn_outgoing : forall k s h, sets !! k = Some s -> h ∈ values (outgoingHTLCs_ s) ->
    disk_Incoming h = false /\ timely h;
  sn_incoming : forall k s h, sets !! k = Some s -> h ∈ values (incomingHTLCs_ s) ->
    disk_Incoming h = true /\ timely h;
}.

Lemma active_cases k : sets !! k = Some (active sets k) \/ active sets k = empty_set.
Proof. unfold active. destruct (sets !! k); [by left|by right]. Qed.

Lemma values_empty {A} : values (∅ : gmap Z A) = [].
Proof. unfold values. by rewrite map_to_list_empty. Qed.

Lemma sane_outgoing k h : sane -> h ∈ values (outgoingHTLCs_ (active sets k)) -> disk_Incoming h = false /\ timely h.
Proof.
  intros Hs Hh. destruct (active_cases k) as [Hk|Hk]; [by eapply sn_outgoing|].
  rewrite Hk in Hh. simpl in Hh. rewrite values_empty in Hh. by apply elem_of_nil in Hh.
Qed.

Lemma sane_incoming k h : sane -> h ∈ values (incomingHTLCs_ (active sets k)) -> disk_Incoming h = true /\ timely h.
Proof.
  intros Hs Hh. destruct (active_cases k) as [Hk|Hk]; [by eapply sn_incoming|].
  rewrite Hk in Hh. simpl in Hh. rewrite values_empty in Hh. by apply elem_of_nil in Hh.
Qed.

Lemma commit_nothing m :
  sane -> checkCommitChainActions cfg e ht chainTrigger (active sets LocalHtlcSet) = Ok m ->
  let out := values (outgoingHTLCs_ (active sets LocalHtlcSet)) in
  let inc := values (incomingHTLCs_ (active sets LocalHtlcSet)) in
  m <> ∅ <->
  ((exists h, h ∈ out /\ reached (OutgoingBroadcastDelta cfg) h /\ ~ patient FirstPass h) \/
   (exists h, h ∈ inc /\ known e (disk_RHash h) /\ reached (IncomingBroadcastDelta cfg) h)) /\
  (exists h', h' ∈ out \/ (h' ∈ inc /\ has_output h')).
Proof.
  intros Hsane Hm out inc. revert Hm. unfold checkCommitChainActions. fold out inc.
  destruct (incoming_to_chain _ _ _ _ _) as [b| |] eqn:Hb; simpl; [|discriminate..].
  pose proof (incoming_chain cfg e ht _ _ _ Hb) as Hbt. rewrite existsb_exists in Hbt.
  assert (b = true <->
    (exists h, h ∈ out /\ reached (OutgoingBroadcastDelta cfg) h /\ ~ patient FirstPass h) \/
    (exists h, h ∈ inc /\ known e (disk_RHash h) /\ reached (IncomingBroadcastDelta cfg) h)) as Hb'.
  { rewrite Hbt. f_equiv; split; intros (h & Hh & Hrest); exists h.
    - apply list_elem_of_In in Hh. split; [done|]. destruct (sane_outgoing _ _ Hsane Hh).
      by apply should_outgoing in Hrest.
    - split; [by apply list_elem_of_In|]. destruct (sane_outgoing _ _ Hsane Hh). by apply should_outgoing.
    - split; [done|]. destruct (sane_incoming _ _ Hsane Hh). rewrite should_incoming in Hrest by done. done.
    - split; [done|]. destruct (sane_incoming _ _ Hsane Hh). rewrite should_incoming by done. done. }
  rewrite <- Hb'. destruct b; simpl; [|intros [= <-]; naive_solver]. intros [= <-].
  rewrite (fold_nothing (fun _ => HtlcIncomingWatchAction)).
  pose proof (fold_nothing (outgoing_action cfg e ht) (fun _ => false) out ∅) as Hf. simpl in Hf. rewrite Hf.
  unfold has_output. split.
  - intros Hn. split; [done|]. destruct out as [|h l] eqn:Ho; [|exists h; left; left].
    destruct (decide (Exists (fun h => 0 <= disk_OutputIndex h) inc)) as [(h & Hh & ?)%Exists_exists|Hno];
      [by exists h; right|].
    exfalso. apply Hn. split; [split; [done|by intros h ?%elem_of_nil]|]. intros h Hh. apply Z.ltb_lt.
    rewrite Exists_exists in Hno. destruct (Z.lt_ge_cases (disk_OutputIndex h) 0); [done|]. destruct Hno. by exists h.
  - intros (_ & h & [Hh|[Hh Ho]]) ((_ & Hno) & Hni); [by apply Hno in Hh|].
    apply Hni, Z.ltb_lt in Hh. lia.
Qed.

Lemma dangling_elem h : sane -> h ∈ dangling sets -> disk_Incoming h = false /\ timely h.
Proof.
  intros Hs ([i h'] & -> & [_ Hp]%list_elem_of_filter)%list_elem_of_fmap. apply elem_of_map_to_list in Hp.
  destruct (remote_outgoing_lookup _ _ _ Hp) as (_ & k & s & Hk & _ & Hh). by eapply sn_outgoing.
Qed.

Lemma dangling_nothing : sane ->
  checkRemoteDanglingActions cfg e ht sets false <> ∅ <->
  exists h, h ∈ dangling sets /\ reached (OutgoingBroadcastDelta cfg) h /\ ~ patient Dangling h.
Proof.
  intros Hs. unfold checkRemoteDanglingActions. fold (dangling sets).
  rewrite (fold_nothing (fun _ => HtlcFailNowAction)). split.
  - intros Hn. destruct (decide (Exists (fun h =>
      shouldGoOnChain cfg e Dangling h (OutgoingBroadcastDelta cfg) ht = true) (dangling sets)))
      as [(h & Hh & Hsh)%Exists_exists|Hno].
    + exists h. split; [done|]. destruct (dangling_elem _ Hs Hh). by apply should_outgoing in Hsh.
    + exfalso. apply Hn. split; [done|]. intros h Hh. rewrite andb_true_r, negb_true_iff.
      rewrite Exists_exists in Hno. destruct (shouldGoOnChain _ _ _ _ _ _) eqn:E; [|done]. destruct Hno. by exists h.
  - intros (h & Hh & Hrest) [_ Hall]. pose proof (Hall h Hh) as Hf. destruct (dangling_elem _ Hs Hh).
    apply should_outgoing in Hrest; [|done..]. by rewrite Hrest in Hf.
Qed.

(** Nothing is to be done on chain unless an HTLC is due. *)
Lemma local_actions_due m :
  sane -> checkLocalChainActions cfg e ht chainTrigger sets false = Ok m -> m <> ∅ <-> due sets.
Proof.
  intros Hs. unfold checkLocalChainActions.
  destruct (checkCommitChainActions _ _ _ _ _) as [m1| |] eqn:Hm1; simpl; [|discriminate..]. intros [= <-].
  rewrite merge_empty. pose proof (commit_nothing _ Hs Hm1) as Hc. simpl in Hc. pose proof (dangling_nothing Hs) as Hd.
  split.
  - intros Hn. destruct (decide (m1 = ∅)) as [E1|(Hdue & h' & Hh')%Hc].
    + destruct (decide (checkRemoteDanglingActions cfg e ht sets false = ∅)) as [E2|(h & Hh & Hr & Hp)%Hd];
        [by destruct Hn|]. by eapply due_dangling.
    + destruct Hdue as [(h & Hh & Hr & Hp)|(h & Hh & Hk & Hr)]; [by eapply due_outgoing|by eapply due_incoming].
  - intros Hdue [E1 E2]. destruct Hdue as [h Hh Hr Hp|h h' Hh Hk Hr Hh'|h Hh Hr Hp].
    + apply Hc in E1; [done|]. split; [left; by exists h|]. exists h. by left.
    + apply Hc in E1; [done|]. split; [right; by exists h|]. by exists h'.
    + apply Hd in E2; [done|]. by exists h.
Qed.

End Due.

(** A run that starts after the broadcast only sweeps. *)
Lemma broadcasted_calm cfg envs n ht c tx fuel a :
  arb_state a = StateCommitmentBroadcasted ->
  calm a (advanceState cfg (S fuel) envs n ht chainTrigger c tx a).1.
Proof.
  intros Hs. simpl. unfold op_bind at 1 2. simpl.
  pose proof (calm_broadcasted a (envs n) ht chainTrigger a (calm_refl a)) as Hc.
  assert (stateStep cfg (envs n) ht chainTrigger c a = step_broadcasted (envs n) ht chainTrigger a) as ->.
  { unfold stateStep, op_bind. simpl. by rewrite Hs. }
  destruct (step_broadcasted (envs n) ht chainTrigger a) as [a1 [[s closeTx]| |]] eqn:E; simpl in Hc; [|done..].
  assert (s = StateCommitmentBroadcasted) as ->.
  { unfold step_broadcasted in E. apply op_bind_inv in E as (? & ? & _ & (? & ? & _ & [= _ <- _])%op_bind_inv). done. }
  rewrite Hs. simpl. exact Hc.
Qed.

Lemma default_moves cfg envs ht m a :
  arb_state a = StateDefault ->
  checkLocalChainActions cfg (envs 0%nat) ht chainTrigger (activeHTLCs a) false = Ok m -> m <> ∅ ->
  db_CommitState (envs 0%nat) = Ok tt ->
  advance cfg envs ht chainTrigger None a
  = advanceState cfg 6 envs 1 ht chainTrigger None None (moved StateBroadcastCommit a).
Proof.
  intros Hs Hm Hne Hdb. unfold advance, max_steps. cbn [advanceState]. op_step.
  rewrite (op_bind_ok _ _ a a (StateBroadcastCommit, None)).
  2: { unfold stateStep. op_step. rewrite Hs. unfold step_default. op_step.
       rewrite (op_bind_ok _ _ a a m) by (simpl; by rewrite Hm). by rewrite (bool_decide_eq_false_2 (m = ∅)). }
  rewrite Hs. simpl. unfold op_bind at 1, CommitState. simpl. unfold op_bind. simpl. by rewrite Hdb.
Qed.

Lemma broadcast_moves cfg envs ht tx a :
  arb_state a = StateBroadcastCommit ->
  ForceCloseChan (envs 1%nat) = Ok tx -> MarkCommitmentBroadcasted_ (envs 1%nat) = Ok tt ->
  PublishTx (envs 1%nat) = Ok tt -> db_CommitState (envs 1%nat) = Ok tt ->
  advanceState cfg 6 envs 1 ht chainTrigger None None a
  = advanceState cfg 5 envs 2 ht chainTrigger None (Some tx)
      (moved StateCommitmentBroadcasted
         (add_call (CallPublish tx) (add_call (CallMarkBroadcasted tx) (add_call (CallForceClose tx) a)))).
Proof.
  intros Hs Hf Hmk Hp Hdb. cbn [advanceState]. op_step.
  rewrite (op_bind_ok _ _ a (add_call (CallPublish tx) (add_call (CallMarkBroadcasted tx) (add_call (CallForceClose tx) a)))
    (StateCommitmentBroadcasted, Some tx)).
  2: { unfold stateStep. op_step. rewrite Hs. unfold step_broadcast, call. simpl. unfold op_bind. simpl.
       rewrite Hf. simpl. rewrite Hmk. simpl. by rewrite Hp. }
  rewrite Hs. simpl. unfold op_bind at 1, CommitState. simpl. unfold op_bind. simpl. by rewrite Hdb.
Qed.

(** C12. A block makes an arbitrator in its initial state close the channel exactly when an
    HTLC needs the chain: one we offered (on our commitment or, not on ours, on one of the
    other party) whose timeout less our safety margin is reached and that we do not wait for
    after a restart, or one offered to us whose preimage we know and whose timeout less its
    margin is reached, as long as there is something to act on.  Then the commitment is
    signed, marked as broadcast and published in this order and the state moves on in memory
    and in the log; otherwise nothing changes but the height. *)
Theorem goes_on_chain_iff cfg envs ht tx a :
  arb_state a = StateDefault -> sane cfg (activeHTLCs a) ->
  (forall x, exists b, isPreimageAvailable (envs 0%nat) x = Ok b) ->
  db_CommitState (envs 0%nat) = Ok tt ->
  ForceCloseChan (envs 1%nat) = Ok tx -> MarkCommitmentBroadcasted_ (envs 1%nat) = Ok tt ->
  PublishTx (envs 1%nat) = Ok tt -> db_CommitState (envs 1%nat) = Ok tt ->
  let a' := (on_block cfg envs ht a).1 in
  (due cfg (envs 0%nat) ht (activeHTLCs a) ->
     arb_state a' = StateCommitmentBroadcasted /\
     lg_state (scope (arb_log_ a')) = StateCommitmentBroadcasted /\
     exists xs, arb_calls a' = arb_calls a ++ [CallForceClose tx; CallMarkBroadcasted tx; CallPublish tx] ++ xs) /\
  (~ due cfg (envs 0%nat) ht (activeHTLCs a) -> a' = set_best ht a).
Proof.
  intros Hs Hsane Hpre Hdb0 Hf Hmk Hp Hdb1 a'.
  destruct (commit_actions_total cfg (envs 0%nat) ht chainTrigger (active (activeHTLCs a) LocalHtlcSet) Hpre) as [m1 Hm1].
  assert (exists m, checkLocalChainActions cfg (envs 0%nat) ht chainTrigger (activeHTLCs a) false = Ok m) as [m Hm].
  { unfold checkLocalChainActions. rewrite Hm1. by eexists. }
  pose proof (local_actions_due cfg (envs 0%nat) ht (activeHTLCs a) m Hsane Hm) as Hdue.
  set (b := set_best ht a) in *.
  assert (a' = (op_bind (op_try (advance cfg envs ht chainTrigger None)) (fun _ => exit_if_resolved) b).1) as Ea.
  { unfold a', on_block. op_step. op_step. simpl. by rewrite Hs. }
  split.
  - intros Hd. apply Hdue in Hd. revert Ea. unfold op_bind at 1, op_try.
    rewrite (default_moves cfg envs ht m b) by done. rewrite (broadcast_moves cfg envs ht tx) by done.
    set (b1 := moved StateCommitmentBroadcasted _).
    pose proof (broadcasted_calm cfg envs 2 ht None (Some tx) 4 b1 eq_refl) as [Hcs Hcl (xs & Hcc & _)].
    destruct (advanceState cfg 5 envs 2 ht chainTrigger None (Some tx) b1) as [b2 out]. cbn [fst] in *.
    assert ((exit_if_resolved b2).1 = b2) as Hx by (unfold exit_if_resolved, op_bind; simpl; by rewrite Hcs).
    assert (a' = b2 -> arb_state a' = StateCommitmentBroadcasted /\
      lg_state (scope (arb_log_ a')) = StateCommitmentBroadcasted /\
      exists xs, arb_calls a' = arb_calls a ++ [CallForceClose tx; CallMarkBroadcasted tx; CallPublish tx] ++ xs) as Hend.
    { intros ->. rewrite Hcs, Hcl, Hcc. split; [done|]. split; [done|]. exists xs. simpl. by rewrite <- !app_assoc. }
    destruct out; cbn [fst]; rewrite ?Hx; exact Hend.
  - intros Hnd. assert (m = ∅) as -> by (destruct (decide (m = ∅)); [done|by destruct Hnd; apply Hdue]).
    rewrite Ea. unfold op_bind at 1, op_try, advance, max_steps. cbn [advanceState].
    rewrite (op_bind_ok _ _ b b StateDefault) by (simpl; by rewrite Hs).
    rewrite (op_bind_ok _ _ b b (StateDefault, None)); [simpl; by rewrite Hs|].
    unfold stateStep. op_step. simpl. rewrite Hs. unfold step_default. op_step.
    rewrite (op_bind_ok _ _ b b ∅) by (simpl; by rewrite Hm). done.
Qed.

(** ** Deadlines *)

Section Deadline.
Context (e : env) (htlcs : htlcSet).

(** An HTLC whose timeout presses: it has an output, and we either offered it or can claim it. *)
Definition pressing (h : HTLC) : Prop :=
  has_output h /\ (h ∈ values (outgoingHTLCs_ htlcs) \/ (h ∈ values (incomingHTLCs_ htlcs) /\ known e (disk_RHash h))).

(** [d] is the least of [d0] and the timeouts of the HTLCs in [P]. *)
Record least (P : HTLC -> Prop) (d0 d : Z) : Prop := {
  le_start : d <= d0;
  le_all : forall h, P h -> d <= disk_RefundTimeout h;
  le_attained : d = d0 \/ exists h, P h /\ disk_RefundTimeout h = d;
}.

Lemma outgoing_least l d0 :
  least (fun h => has_output h /\ h ∈ l) d0
    (foldl (fun d h => if disk_OutputIndex h <? 0 then d else lower_deadline d h) d0 l).
Proof.
  revert d0. induction l as [|h l IH]; intros d0; simpl.
  { split; [done|by intros h [_ ?%elem_of_nil]|by left]. }
  set (d1 := if disk_OutputIndex h <? 0 then d0 else lower_deadline d0 h).
  assert (d1 <= d0 /\ (has_output h -> d1 <= disk_RefundTimeout h) /\
          (d1 = d0 \/ has_output h /\ disk_RefundTimeout h = d1)) as (Ha & Hb & Hc).
  { unfold d1, has_output, lower_deadline. destruct (Z.ltb_spec (disk_OutputIndex h) 0); [lia|].
    case_match; rewrite ?Z.ltb_lt, ?Z.ltb_ge in *; lia. }
  destruct (IH d1) as [H1 H2 H3]. split; [lia| |].
  - intros h' [Ho [->|Hh]%elem_of_cons]; [specialize (Hb Ho); lia|by apply H2].
  - setoid_rewrite elem_of_cons. destruct H3 as [->|(h' & ? & ?)]; [|right; exists h'; naive_solver].
    destruct Hc as [?|?]; [by left|right; exists h; naive_solver].
Qed.

Lemma incoming_least l d0 d : incoming_deadline e l d0 = Ok d ->
  least (fun h => has_output h /\ h ∈ l /\ known e (disk_RHash h)) d0 d.
Proof.
  revert d0. induction l as [|h l IH]; intros d0; simpl.
  { intros [= <-]. split; [done|by intros h (_ & ?%elem_of_nil & _)|by left]. }
  assert (forall d1, (d1 <= d0) -> (has_output h -> known e (disk_RHash h) -> d1 <= disk_RefundTimeout h) ->
    (d1 = d0 \/ (has_output h /\ known e (disk_RHash h) /\ disk_RefundTimeout h = d1)) ->
    incoming_deadline e l d1 = Ok d ->
    least (fun h' => has_output h' /\ h' ∈ h :: l /\ known e (disk_RHash h')) d0 d) as Hgen.
  { intros d1 Ha Hb Hc [H1 H2 H3]%IH. split; [lia| |].
    - intros h' (Ho & [->|Hh]%elem_of_cons & Hk); [specialize (Hb Ho Hk); lia|by apply H2].
    - setoid_rewrite elem_of_cons. destruct H3 as [->|(h' & ? & ?)]; [|right; exists h'; naive_solver].
      destruct Hc as [?|?]; [by left|right; exists h; naive_solver]. }
  destruct (Z.ltb_spec (disk_OutputIndex h) 0) as [Hneg|Hpos].
  { apply Hgen; [lia| |by left]. unfold has_output. lia. }
  unfold known in *. destruct (isPreimageAvailable e (disk_RHash h)) as [[]| |] eqn:Hp; simpl; [| |discriminate..].
  - apply Hgen; unfold lower_deadline; case_match; rewrite ?Z.ltb_lt, ?Z.ltb_ge in *; try lia; auto.
  - apply Hgen; [lia|congruence|by left].
Qed.

End Deadline.

(** C33. The confirmation target of an anchor is between one block and the width of a height.
    When no HTLC presses it is the default of 144 blocks; otherwise the commitment is to be
    confirmed at the earliest timeout, to the block, or in the next block if that timeout has
    been reached: the subtraction does not wrap around. *)
Theorem deadline_bounds e hint htlcs d :
  0 <= hint < 2 ^ 32 ->
  (forall h, pressing e htlcs h -> 0 <= disk_RefundTimeout h < 2 ^ 32 - 1) ->
  findCommitmentDeadline e hint htlcs = Ok d ->
  1 <= d < 2 ^ 32 /\
  ((forall h, ~ pressing e htlcs h) -> d = anchorSweepConfTarget) /\
  (forall h, pressing e htlcs h -> d = 1 \/ hint + d <= disk_RefundTimeout h) /\
  ((exists h, pressing e htlcs h) ->
     exists h, pressing e htlcs h /\ d = Z.max 1 (disk_RefundTimeout h - hint)).
Proof.
  intros Hhint Hw. unfold findCommitmentDeadline.
  pose proof (outgoing_least (values (outgoingHTLCs_ htlcs)) MaxUint32) as [O1 O2 O3].
  set (d0 := foldl _ _ _) in *. clearbody d0.
  destruct (incoming_deadline e (values (incomingHTLCs_ htlcs)) d0) as [d1| |] eqn:Hi; simpl; [|discriminate..].
  apply incoming_least in Hi as [I1 I2 I3].
  assert (least (pressing e htlcs) MaxUint32 d1) as [L1 L2 L3].
  { split; [lia| |].
    - intros h [Ho [Hh|[Hh Hk]]]; [|by apply I2]. specialize (O2 h (conj Ho Hh)). lia.
    - destruct I3 as [->|(h & (? & ? & ?) & ?)]; [|right; exists h; unfold pressing; naive_solver].
      destruct O3 as [?|(h & [? ?] & ?)]; [by left|right; exists h; unfold pressing; naive_solver]. }
  unfold MaxUint32 in *. intros [= <-].
  destruct (Z.eqb_spec d1 (2 ^ 32 - 1)) as [E|Hne].
  { assert (forall h, ~ pressing e htlcs h) as Hno by (intros h Hh; specialize (L2 h Hh); specialize (Hw h Hh); lia).
    unfold anchorSweepConfTarget. split; [lia|]. split; [done|]. split; [by intros h ?%Hno|by intros (h & ?%Hno)]. }
  destruct L3 as [?|(h & Hh & Hd)]; [lia|]. specialize (Hw h Hh).
  assert ((if d1 <=? hint then 1 else u32 (d1 - hint)) = Z.max 1 (d1 - hint)) as ->.
  { unfold u32. destruct (Z.leb_spec d1 hint); [lia|]. rewrite Z.mod_small by lia. lia. }
  split; [lia|]. split; [by intros Hno; destruct (Hno h)|]. split; [|intros _; exists h; by rewrite Hd].
  intros h' Hh'. specialize (L2 h' Hh'). lia.
Qed.

(** ** A channel with four HTLCs *)

Definition ex_hash : list byte := [xaa].
Definition ex_htlc (incoming : bool) (index output timeout : Z) : HTLC :=
  {| disk_Signature := []; disk_RHash := [x01]; disk_Amt := 1000; disk_RefundTimeout := timeout;
     disk_OutputIndex := output; disk_Incoming := incoming; disk_OnionBlob := [];
     disk_HtlcIndex := index; disk_LogIndex := index |}.
Definition ex_in1 : HTLC := ex_htlc true 0 1 1000.
Definition ex_out1 : HTLC := ex_htlc false 0 2 500.
Definition ex_dust : HTLC := ex_htlc false 1 (-1) 600.
Definition ex_late : HTLC := ex_htlc false 2 3 700.

Definition ex_set : CommitSet :=
  {| ConfCommitKey := Some LocalHtlcSet;
     HtlcSets := <[LocalHtlcSet := [ex_in1; ex_out1; ex_dust]]>
                   (<[RemotePendingHtlcSet := [ex_in1; ex_out1; ex_dust; ex_late]]> ∅) |}.

Definition ex_point (i : Z) : OutPoint := {| op_Hash := ex_hash; op_Index := i |}.

Definition ex_resolutions : ContractResolutions :=
  {| CommitHash := ex_hash; CommitResolution := Some {| SelfOutPoint := ex_point 0 |};
     IncomingHTLCs := [{| ihr_Preimage := []; SignedSuccessTx := None; ihr_CsvDelay := 4; ihr_ClaimOutpoint := ex_point 1 |}];
     OutgoingHTLCs := [{| ohr_Expiry := 500; SignedTimeoutTx := None; ohr_CsvDelay := 4; ohr_ClaimOutpoint := ex_point 2 |}];
     cr_AnchorResolution := None; cr_BreachResolution := None |}.

Definition ex_cfg (pending : bool) : ChannelArbitratorConfig :=
  {| cfg_ChanPoint := ex_point 9; cfg_ShortChanID := {| BlockHeight := 7; TxIndex := 1; TxPosition := 0 |};
     OutgoingBroadcastDelta := 10; IncomingBroadcastDelta := 10; PaymentsExpirationGracePeriod := 60;
     IsPendingClose := pending; ClosingHeight := 100; CloseType := LocalForceClose |}.

Definition ex_tx : MsgTx := {| MsgTx_TxIn := []; MsgTx_TxOut := []; LockTime := 0 |}.

Definition ex_env (insert : res unit) : env :=
  {| LookupPreimage := fun _ => false; LookupInvoice := fun _ => Err ErrInvoiceNotFound_;
     IsForwardedHTLC := fun _ => true; upTime := fun _ _ => 0; ForceCloseChan := Ok ex_tx;
     MarkCommitmentBroadcasted_ := Ok tt; PublishTx := Ok tt;
     NewAnchorResolutions := Ok {| ar_Local := None; ar_Remote := None; ar_RemotePending := None |};
     SweepInput := fun _ _ => Ok tt; FetchHistoricalChannel := Ok tt; DeliverResolutionMsg := Ok tt;
     MarkChannelResolved := Ok tt; db_Insert := insert; db_CommitState := Ok tt |}.

Lemma ex_obliging : obliging (ex_env (Ok tt)).
Proof. split; [by exists false|done..]. Qed.

Lemma ex_good : good_set ex_set LocalHtlcSet.
Proof.
  split; [done|left| |].
  - intros [[] []] Hk; [right; right; left|right; left| |left]. vm_compute in Hk. by destruct Hk.
  - intros [[] []] []; apply (bool_decide_unpack _); vm_compute; exact I.
Qed.

Lemma ex_resolvable : resolvable ex_resolutions ex_set LocalHtlcSet.
Proof.
  assert (htlcs_of ex_set LocalHtlcSet = [ex_in1; ex_out1; ex_dust]) as E by reflexivity.
  split; rewrite ?E.
  - intros h Hh _. vm_compute in Hh. apply list_elem_of_singleton in Hh as ->. eexists. split; [left|reflexivity].
  - intros h Hh Ho. apply in_dir_elem in Hh as [Hd Hh]. rewrite !elem_of_cons, elem_of_nil in Hh.
    destruct Hh as [->|[->|[->|[]]]]; [done| |by destruct Ho]. eexists. split; [left|reflexivity].
  - repeat constructor. by eexists.
  - repeat constructor. by eexists.
  - intros h Hh. rewrite !elem_of_cons, elem_of_nil in Hh. by destruct Hh as [->|[->|[->|[]]]].
  - apply (bool_decide_unpack _). vm_compute. exact I.
  - intros x h [= <-] Hh Ho. rewrite !elem_of_cons, elem_of_nil in Hh.
    destruct Hh as [->|[->|[->|[]]]]; by vm_compute.
Qed.

Definition ex_log (s : ArbitratorState) : arb_log :=
  Some (with_commitSet ex_set (with_resolutions ex_resolutions (with_state s empty_scope))).

Definition ex_arb : arbitrator :=
  set_arb_state StateContractClosed (NewChannelArbitrator ∅ (ex_log StateContractClosed) []).

Lemma closed_contracts_covered_witness :
  exists a' x, stateStep (ex_cfg true) (ex_env (Ok tt)) 100 localCloseTrigger (Some ex_set) ex_arb
    = (a', Ok (StateWaitingFullResolution, None)) /\
    lg_contracts (scope (arb_log_ a')) !! newResolverID (ex_point 1) = Some x.
Proof.
  destruct (closed_contracts_covered (ex_cfg true) (ex_env (Ok tt)) 100 localCloseTrigger ex_set LocalHtlcSet
    ex_resolutions ex_arb eq_refl ltac:(by left) ex_obliging eq_refl eq_refl ex_good ex_resolvable eq_refl)
    as (a' & msgs & Hs & Hc & _).
  destruct (Hc ex_in1) as (x & Hx & _); [left|by vm_compute|]. exists a', x. split; [exact Hs|exact Hx].
Defined.

(** ** Its life *)

Definition ex_info : close_info :=
  {| ci_resolutions := ex_resolutions; ci_commitSet := ex_set; ci_height := 100;
     ci_db_resolutions := Ok tt; ci_db_commitSet := Ok tt; ci_MarkChannelClosed := Ok tt |}.

Definition ex_envs (insert : res unit) : nat -> env := fun _ => ex_env insert.

Definition ex_up : list event :=
  [EvRestart (ex_cfg false) ∅ (ex_envs (Ok tt)) (Ok 90); EvLocalClose (ex_envs (Ok tt)) ex_info].

Definition ex_down : list event :=
  [EvFinish (IncomingContestResolver {| ihr_Preimage := []; SignedSuccessTx := None; ihr_CsvDelay := 4;
               ihr_ClaimOutpoint := ex_point 1 |} 100 ex_in1) (Ok tt);
   EvFinish (TimeoutResolver {| ohr_Expiry := 500; SignedTimeoutTx := None; ohr_CsvDelay := 4;
               ohr_ClaimOutpoint := ex_point 2 |} 100 ex_out1) (Ok tt);
   EvFinish (CommitSweepResolver {| SelfOutPoint := ex_point 0 |} 100) (Ok tt);
   EvResolution (ex_envs (Ok tt))].

Definition run_events (evs : list event) (n : ArbitratorRun.node) : ArbitratorRun.node := foldl (fun n ev => occurs ev n) n evs.

Definition ex_fresh : ArbitratorRun.node := (ex_cfg false, NewChannelArbitrator ∅ None []).

Lemma resolved_only_when_done_witness :
  exists r, EvFinish r (Ok tt) ∈ ex_down /\ ResolverKey r = Ok (Some (newResolverID (ex_point 1))).
Proof.
  set (n1 := run_events ex_up ex_fresh). set (n2 := run_events ex_down n1).
  assert (history ex_resolutions ex_fresh ex_up (n1.1, n1.2)) as Hh1.
  { rewrite <- surjective_pairing. do 2 (apply history_cons; [vm_compute; done|]). apply history_nil. }
  assert (history ex_resolutions (n1.1, n1.2) ex_down (n2.1, n2.2)) as Hh2.
  { rewrite <- !surjective_pairing. do 4 (apply history_cons; [vm_compute; done|]). apply history_nil. }
  destruct (resolved_only_when_done ex_resolutions (ex_cfg false) ∅ ex_up n1.1 n1.2 ex_down n2.1 n2.2
    (newResolverID (ex_point 1)) Hh1 Hh2) as [_ Hr].
  - apply list_elem_of_lookup. exists 2%nat. vm_compute. reflexivity.
  - apply Hr. unfold recorded. apply (bool_decide_unpack _). vm_compute. exact I.
Defined.

Definition ex_active : arbitrator :=
  NewChannelArbitrator (<[LocalHtlcSet := newHtlcSet [ex_out1]]> ∅) None [].

Lemma goes_on_chain_iff_witness :
  arb_state (on_block (ex_cfg false) (ex_envs (Ok tt)) 490 ex_active).1 = StateCommitmentBroadcasted /\
  (on_block (ex_cfg false) (ex_envs (Ok tt)) 489 ex_active).1 = set_best 489 ex_active.
Proof.
  assert (values (outgoingHTLCs_ (newHtlcSet [ex_out1])) = [ex_out1]) as Eo by reflexivity.
  assert (sane (ex_cfg false) (activeHTLCs ex_active)) as Hsane.
  { split; unfold ex_active; simpl; intros k s h [[_ <-]|[_ Hs]]%lookup_insert_Some Hh; try (by rewrite lookup_empty in Hs).
    - rewrite Eo in Hh. apply list_elem_of_singleton in Hh as ->. split; [reflexivity|]. unfold timely. simpl. lia.
    - vm_compute in Hh. by apply elem_of_nil in Hh. }
  assert (forall x, exists b, isPreimageAvailable (ex_env (Ok tt)) x = Ok b) as Hpre by (intros x; by exists false).
  split.
  - apply (goes_on_chain_iff (ex_cfg false) (ex_envs (Ok tt)) 490 ex_tx ex_active eq_refl Hsane Hpre
      eq_refl eq_refl eq_refl eq_refl eq_refl).
    apply (due_outgoing _ _ _ _ ex_out1); [left|unfold reached; simpl; lia|intros [? _]; discriminate].
  - apply (goes_on_chain_iff (ex_cfg false) (ex_envs (Ok tt)) 489 ex_tx ex_active eq_refl Hsane Hpre
      eq_refl eq_refl eq_refl eq_refl eq_refl).
    assert (dangling (activeHTLCs ex_active) = []) as Ed by reflexivity.
    intros [h Hh Hr _|h h' Hh _ _ _|h Hh _ _].
    + change (h ∈ values (outgoingHTLCs_ (newHtlcSet [ex_out1]))) in Hh. rewrite Eo in Hh.
      apply list_elem_of_singleton in Hh as ->. unfold reached in Hr. simpl in Hr. lia.
    + change (h ∈ values (incomingHTLCs_ (newHtlcSet [ex_out1]))) in Hh. vm_compute in Hh. by apply elem_of_nil in Hh.
    + rewrite Ed in Hh. by apply elem_of_nil in Hh.
Defined.

(** ** A restart that loses HTLCs *)

(** Our commitment with one incoming HTLC and no output of our own was confirmed; the write
    of the resolvers fails, and the node is restarted with the channel pending close. *)
Definition ex_alone : CommitSet :=
  {| ConfCommitKey := Some LocalHtlcSet; HtlcSets := <[LocalHtlcSet := [ex_in1]]> ∅ |}.
Definition ex_only_htlc : ContractResolutions :=
  {| CommitHash := ex_hash; CommitResolution := None; IncomingHTLCs := IncomingHTLCs ex_resolutions;
     OutgoingHTLCs := []; cr_AnchorResolution := None; cr_BreachResolution := None |}.
Definition ex_alone_info : close_info :=
  {| ci_resolutions := ex_only_htlc; ci_commitSet := ex_alone; ci_height := 100;
     ci_db_resolutions := Ok tt; ci_db_commitSet := Ok tt; ci_MarkChannelClosed := Ok tt |}.
Definition ex_interrupted : list event :=
  [EvRestart (ex_cfg false) ∅ (ex_envs (Ok tt)) (Ok 90);
   EvLocalClose (ex_envs (Err (Error "database closed"))) ex_alone_info;
   EvRestart (ex_cfg true) ∅ (ex_envs (Ok tt)) (Ok 101)].

Lemma ex_alone_good : good_set ex_alone LocalHtlcSet.
Proof.
  split; [done|left| |].
  - intros [[] []] Hk; [right; right; left|right; left| |left]. vm_compute in Hk. by destruct Hk.
  - intros [[] []] []; apply (bool_decide_unpack _); vm_compute; exact I.
Qed.

Lemma ex_alone_resolvable : resolvable ex_only_htlc ex_alone LocalHtlcSet.
Proof.
  assert (htlcs_of ex_alone LocalHtlcSet = [ex_in1]) as E by reflexivity.
  split; rewrite ?E.
  - intros h Hh _. vm_compute in Hh. apply list_elem_of_singleton in Hh as ->. eexists. split; [left|reflexivity].
  - intros h Hh _. vm_compute in Hh. by apply elem_of_nil in Hh.
  - repeat constructor. by eexists.
  - constructor.
  - intros h ->%list_elem_of_singleton. by vm_compute.
  - apply (bool_decide_unpack _). vm_compute. exact I.
  - intros x h [=].
Qed.

(** The surroundings answer and every write succeeds. *)
Record answering (e : env) : Prop := {
  an_obliging : obliging e;
  an_commit : db_CommitState e = Ok tt;
  an_mark : MarkChannelResolved e = Ok tt;
}.

Section Quiet.
Context (cfg : ChannelArbitratorConfig) (e : env) (ht : Z) (c : CommitSet) (k : HtlcSetKey).
Context (Hg : good_set c k) (Hp : forall x, exists b, isPreimageAvailable e x = Ok b).
Context (Hn : ~ due_on cfg e ht c k).

(** A block at which nothing is due asks for no action on the commitment, *)
Lemma quiet_actions :
  checkCommitChainActions cfg e ht chainTrigger (active (toActiveHTLCSets c) k) = Ok ∅.
Proof.
  unfold checkCommitChainActions.
  destruct (incoming_total cfg e ht (values (incomingHTLCs_ (active (toActiveHTLCSets c) k)))
    (existsb (fun h => shouldGoOnChain cfg e FirstPass h (OutgoingBroadcastDelta cfg) ht)
       (values (outgoingHTLCs_ (active (toActiveHTLCSets c) k)))) Hp) as [b Hb].
  rewrite Hb. rsimpl. destruct b; [|done]. destruct Hn. by apply (due_on_chain cfg e ht c k true Hg Hb).
Qed.

(** only cancellations are left, *)
Lemma quiet_construct stored : exists m,
  constructChainActions cfg e stored (Some c) ht chainTrigger = Ok m /\
  forall a, a <> HtlcFailNowAction -> acts m a = [].
Proof.
  unfold constructChainActions. rewrite (gs_conf _ _ Hg). pose proof quiet_actions as Hq.
  pose proof (gs_key _ _ Hg) as Hk. rewrite !elem_of_cons in Hk.
  destruct Hk as [->|[->|[->|Hk%elem_of_nil]]]; [| | |done].
  - rewrite bool_decide_true by done. unfold checkLocalChainActions. rewrite Hq. eexists. split; [reflexivity|].
    intros a Ha. by rewrite acts_merge, acts_empty, dangling_actions, decide_False.
  - rewrite bool_decide_false, bool_decide_true by done. unfold checkRemoteChainActions. rewrite Hq.
    eexists. split; [reflexivity|]. intros a Ha. by rewrite acts_merge, acts_empty, diff_actions, decide_False.
  - rewrite !bool_decide_false, bool_decide_true by done. unfold checkRemoteChainActions. rewrite Hq.
    eexists. split; [reflexivity|]. intros a Ha. by rewrite acts_merge, acts_empty, diff_actions, decide_False.
Qed.

(** and no HTLC gets a resolver. *)
Lemma quiet_prepares stored r :
  resolvable r c k -> cr_BreachResolution r = None -> historical_ok e = Ok tt ->
  exists M, prepContractResolutions cfg e stored r ht chainTrigger (Some c) =
    Ok (option_list ((fun a => AnchorResolver (CommitAnchor a) ht) <$> cr_AnchorResolution r) ++
        option_list ((fun s => CommitSweepResolver s ht) <$> CommitResolution r), M).
Proof.
  intros Hr Hb Hh. unfold prepContractResolutions.
  destruct (quiet_construct stored) as (m & Hm & Hacts). rewrite Hm, Hh. rsimpl.
  destruct (resolution_map_total IncomingHtlcPoint _ (rv_in_points _ _ _ Hr) ∅) as [inRes Hin].
  destruct (resolution_map_total OutgoingHtlcPoint _ (rv_out_points _ _ _ Hr) ∅) as [outRes Hout].
  rewrite Hin, Hout. rsimpl. rewrite Hb. eexists. do 2 f_equal.
  set (f := act_on cfg (CommitHash r) ht inRes outRes).
  assert (forall l, (forall p, p ∈ l -> (f p).1 = []) -> mjoin (f <$> l).*1 = []) as Hj.
  { induction l as [|p l IH]; intros Hl; [done|]. rewrite !fmap_cons. simpl.
    rewrite (Hl p) by left. apply IH. intros q Hq. apply Hl. by right. }
  rewrite Hj; [done|]. intros [a l] Hl%elem_of_map_to_list.
  destruct (decide (a = HtlcFailNowAction)) as [->|Hne]; [done|].
  pose proof (Hacts a Hne) as Ha. unfold acts in Ha. rewrite Hl in Ha. simpl in Ha. subst l. by destruct a.
Qed.

End Quiet.

(** A run from a confirmed commitment whose resolvers are written. *)
Lemma waits_or_ends cfg envs ht c a a1 :
  arb_state a = StateContractClosed -> (forall n, answering (envs n)) ->
  stateStep cfg (envs 0%nat) ht chainTrigger c a = (a1, Ok (StateWaitingFullResolution, None)) ->
  exists a2 out, advance cfg envs ht chainTrigger c a = (a2, Ok out) /\
    lg_contracts (scope (arb_log_ a2)) = lg_contracts (scope (arb_log_ a1)) /\
    activeResolvers a2 = activeResolvers a1 /\
    (lg_contracts (scope (arb_log_ a1)) = ∅ -> CallMarkResolved ∈ arb_calls a2).
Proof.
  intros Hs He Hstep. unfold advance, max_steps.
  assert (forall fuel n a s a', arb_state a <> s -> stateStep cfg (envs n) ht chainTrigger c a = (a', Ok (s, None)) ->
    advanceState cfg (S fuel) envs n ht chainTrigger c None a
    = advanceState cfg fuel envs (S n) ht chainTrigger c None (moved s a')) as Hmove.
  { clear -He. intros fuel n a s a' Hne Hst. cbn [advanceState]. op_step. rewrite (op_bind_ok _ _ a a' (s, None)) by done.
    rewrite bool_decide_false by congruence. unfold op_bind at 1, CommitState. simpl. unfold op_bind. simpl.
    by rewrite (an_commit _ (He n)). }
  assert (forall fuel n a s a', arb_state a = s -> stateStep cfg (envs n) ht chainTrigger c a = (a', Ok (s, None)) ->
    advanceState cfg (S fuel) envs n ht chainTrigger c None a = (a', Ok (s, None))) as Hstay.
  { clear. intros fuel n a s a' E Hst. cbn [advanceState]. op_step. rewrite (op_bind_ok _ _ a a' (s, None)) by done.
    by rewrite bool_decide_true. }
  rewrite (Hmove 6%nat 0%nat a StateWaitingFullResolution a1) by (done || congruence).
  set (b := moved StateWaitingFullResolution a1).
  assert (FetchUnresolvedContracts (arb_log_ b) = [] <-> lg_contracts (scope (arb_log_ a1)) = ∅) as Hf.
  { unfold FetchUnresolvedContracts, b. simpl. split; [|intros ->; by rewrite map_to_list_empty].
    intros Hl%fmap_nil_inv. by apply map_to_list_empty_iff. }
  assert (stateStep cfg (envs 1%nat) ht chainTrigger c b
    = (b, Ok (if bool_decide (FetchUnresolvedContracts (arb_log_ b) = []) then StateFullyResolved
              else StateWaitingFullResolution, None))) as Hb by reflexivity.
  case_bool_decide as Hempty.
  - rewrite (Hmove 5%nat 1%nat b StateFullyResolved b) by done. set (b2 := moved StateFullyResolved b).
    rewrite (Hstay 4%nat 2%nat b2 StateFullyResolved (add_call CallMarkResolved b2)); [|done|].
    2: { unfold stateStep, call, op_bind. simpl. by rewrite (an_mark _ (He 2%nat)). }
    eexists _, _. split; [reflexivity|]. split; [done|]. split; [done|]. intros _. simpl. set_solver.
  - rewrite (Hstay 5%nat 1%nat b StateWaitingFullResolution b) by done.
    eexists _, _. split; [reflexivity|]. split; [done|]. split; [done|]. intros E. by apply Hf in E.
Qed.

(** The first step on a confirmed commitment, when the resolvers cannot be written. *)
Lemma unwritten_step cfg e er ht trigger c k r a :
  arb_state a = StateContractClosed -> trigger <> chainTrigger \/ due_on cfg e ht c k ->
  (forall x, exists b, isPreimageAvailable e x = Ok b) -> historical_ok e = Ok tt ->
  DeliverResolutionMsg e = Ok tt -> db_Insert e = Err er ->
  FetchContractResolutions (arb_log_ a) = Ok r -> cr_BreachResolution r = None ->
  good_set c k -> resolvable r c k -> Resolutions_IsEmpty r && CommitSet_IsEmpty (Some c) = false ->
  exists a1, stateStep cfg e ht trigger (Some c) a = (a1, Err er) /\ arb_log_ a1 = arb_log_ a.
Proof.
  intros Hs Ht Hpre Hhist Hdel Hins Hr Hb Hc Hres Hne.
  destruct (prepares cfg e ht trigger (FetchChainActions (arb_log_ a)) r c k Hc (asks_due _ _ _ _ _ _ Hc Ht) Hres Hb
    Hpre Hhist) as (R & M & Hprep & Hp).
  destruct (write_resolvers_total _ (pr_keys Hp) (lg_contracts (scope (arb_log_ a)))) as [m Hw].
  set (a1 := if decide (M = []) then a else add_call (CallDeliver M) a). exists a1. split.
  - unfold stateStep. op_step. rewrite Hs. unfold step_closed. op_step.
    rewrite (op_bind_ok _ _ a a r) by (simpl; by rewrite Hr). rewrite Hne.
    rewrite (op_bind_ok _ _ a a (R, M)) by (simpl; by rewrite Hprep).
    rewrite (op_bind_ok _ _ a a1 tt).
    2: { unfold a1. case_bool_decide; destruct (decide (M = [])); try done. unfold call, op_bind. simpl. by rewrite Hdel. }
    unfold op_bind at 1. simpl. unfold InsertUnresolvedContracts. rewrite Hw. simpl. by rewrite Hins.
  - unfold a1. by case_decide.
Qed.

(** The step of a block at which nothing is due. *)
Lemma quiet_step cfg e ht c k r a :
  arb_state a = StateContractClosed -> obliging e -> ~ due_on cfg e ht c k ->
  FetchContractResolutions (arb_log_ a) = Ok r -> cr_BreachResolution r = None ->
  good_set c k -> resolvable r c k -> Resolutions_IsEmpty r && CommitSet_IsEmpty (Some c) = false ->
  lg_contracts (scope (arb_log_ a)) = ∅ ->
  exists a1, stateStep cfg e ht chainTrigger (Some c) a = (a1, Ok (StateWaitingFullResolution, None)) /\
    (forall K, recorded a1 K -> exists s, CommitResolution r = Some s /\ K = newResolverID (SelfOutPoint s)) /\
    (forall x h, x ∈ activeResolvers a1 -> ~ guards cfg e ht x h).
Proof.
  intros Hs [Hpre Hhist Hdel Hins] Hn Hr Hb Hc Hres Hne Hct.
  destruct (quiet_prepares cfg e ht c k Hc Hpre Hn (FetchChainActions (arb_log_ a)) r Hres Hb Hhist) as [M Hprep].
  set (R := option_list _ ++ option_list _) in Hprep.
  set (m := match CommitResolution r with Some s => {[ newResolverID (SelfOutPoint s) := CommitSweepResolver s ht ]}
            | None => ∅ end : gmap (list byte) ContractResolver).
  assert (write_resolvers (lg_contracts (scope (arb_log_ a))) R = Ok m) as Hw.
  { rewrite Hct. unfold R, m. destruct (cr_AnchorResolution r), (CommitResolution r); reflexivity. }
  set (a1 := if decide (M = []) then a else add_call (CallDeliver M) a).
  exists (set_resolvers R (set_log (Some (with_contracts m (scope (arb_log_ a)))) a1)). split; [|split].
  - unfold stateStep. op_step. rewrite Hs. unfold step_closed. op_step.
    rewrite (op_bind_ok _ _ a a r) by (simpl; by rewrite Hr). rewrite Hne.
    rewrite (op_bind_ok _ _ a a (R, M)) by (simpl; by rewrite Hprep).
    rewrite (op_bind_ok _ _ a a1 tt).
    2: { unfold a1. case_bool_decide; destruct (decide (M = [])); try done. unfold call, op_bind. simpl. by rewrite Hdel. }
    rewrite (op_bind_ok _ _ a1 a1 (Some (with_contracts m (scope (arb_log_ a))))).
    2: { simpl. unfold InsertUnresolvedContracts. rewrite Hw. simpl. by rewrite Hins. }
    done.
  - intros K [x Hx]. simpl in Hx. unfold m in Hx. destruct (CommitResolution r) as [s|]; [|done].
    apply lookup_singleton_Some in Hx as [<- _]. by exists s.
  - intros x h Hx. simpl in Hx. unfold R in Hx. rewrite elem_of_app in Hx.
    destruct (cr_AnchorResolution r), (CommitResolution r); simpl in Hx; set_solver.
Qed.

(** C26. After a restart the contracts of a confirmed commitment are worked out again for a
    new block, not for the closure.  Suppose the resolvers of a confirmed commitment could not
    be written: the step returns the error and the log is as before.  If then no HTLC is due
    at the height the restarted arbitrator starts with, then, although every call and every
    write succeeds now, no HTLC on the commitment gets a resolver, in the log or running; and
    if the commitment has no other output of ours, the channel is marked as fully resolved. *)
Theorem restart_forgets_htlcs cfg cfg' e er ht trigger sets envs height c k r a :
  arb_state a = StateContractClosed -> lg_state (scope (arb_log_ a)) = StateContractClosed ->
  lg_commitSet (scope (arb_log_ a)) = Some c -> lg_contracts (scope (arb_log_ a)) = ∅ ->
  FetchContractResolutions (arb_log_ a) = Ok r -> cr_BreachResolution r = None ->
  good_set c k -> resolvable r c k -> Resolutions_IsEmpty r && CommitSet_IsEmpty (Some c) = false ->
  trigger <> chainTrigger \/ due_on cfg e ht c k ->
  (forall x, exists b, isPreimageAvailable e x = Ok b) -> historical_ok e = Ok tt ->
  DeliverResolutionMsg e = Ok tt -> db_Insert e = Err er ->
  (forall n, answering (envs n)) ->
  let ht' := if IsPendingClose cfg' then ClosingHeight cfg' else u32 height in
  ~ due_on cfg' (envs 0%nat) ht' c k ->
  let failed := stateStep cfg e ht trigger (Some c) a in
  let started := Start cfg' envs (Ok height)
                   (NewChannelArbitrator sets (arb_log_ failed.1) (arb_calls failed.1)) in
  failed.2 = Err er /\ arb_log_ failed.1 = arb_log_ a /\ started.2 = Ok tt /\
  (forall h, h ∈ htlcs_of c k -> has_output h ->
     ~ recorded started.1 (newResolverID (htlc_op (CommitHash r) h))) /\
  (forall x h, x ∈ activeResolvers started.1 -> ~ guards cfg' (envs 0%nat) ht' x h) /\
  (CommitResolution r = None -> CallMarkResolved ∈ arb_calls started.1).
Proof.
  intros Hs Hls Hlc Hct Hr Hb Hc Hres Hne Ht Hpre Hhist Hdel Hins He ht' Hn failed started.
  destruct (unwritten_step cfg e er ht trigger c k r a) as (a1 & Hf & Hlog); try done.
  assert (failed = (a1, Err er)) as Ef by exact Hf. split; [by rewrite Ef|]. split; [by rewrite Ef|].
  set (a0 := set_arb_state StateContractClosed (NewChannelArbitrator sets (arb_log_ a) (arb_calls a1))).
  destruct (quiet_step cfg' (envs 0%nat) ht' c k r a0) as (a2 & Hq & Hrec & Hgu); try done.
  { apply (an_obliging _ (He 0%nat)). }
  destruct (waits_or_ends cfg' envs ht' (Some c) a0 a2 eq_refl He Hq) as (a3 & out & Hadv & Hl3 & Hr3 & Hm3).
  assert (exists a4, started = (a4, Ok tt) /\ arb_log_ a4 = arb_log_ a3 /\ activeResolvers a4 = activeResolvers a3 /\
    arb_calls a4 = arb_calls a3) as (a4 & -> & Elog & Eres & Ecalls).
  { unfold started. rewrite Ef. cbn [fst]. rewrite Hlog. unfold Start. op_step. cbn [arb_log_ NewChannelArbitrator].
    rewrite Hls, Hlc. op_step. fold a0. rewrite (op_bind_ok _ _ a0 a0 height) by done. fold ht'.
    assert (start_trigger cfg' StateContractClosed = chainTrigger) as -> by (unfold start_trigger; by case_match).
    rewrite (op_bind_ok _ _ a0 a3 (Ok out)) by (unfold op_try; by rewrite Hadv). op_step. op_step.
    rewrite bool_decide_false by done. simpl. by eexists. }
  cbn [fst snd]. split; [done|]. split; [|split].
  - intros h Hh Ho Hrc. unfold recorded in Hrc. rewrite Elog, Hl3 in Hrc.
    destruct (Hrec _ Hrc) as (s & Es & EK). by apply (rv_self _ _ _ Hres s h Es Hh Ho).
  - rewrite Eres, Hr3. exact Hgu.
  - intros Hcr. rewrite Ecalls. apply Hm3. apply map_empty. intros K. apply eq_None_not_Some. intros Hk.
    destruct (Hrec K Hk) as (s & Es & _). congruence.
Qed.

(** The log of the channel of [ex_interrupted] when its resolvers are to be written. *)
Definition ex_unwritten : arbitrator :=
  set_arb_state StateContractClosed
    (NewChannelArbitrator ∅
       (Some (with_state StateContractClosed (with_commitSet ex_alone (with_resolutions ex_only_htlc empty_scope)))) []).

(** The history up to the failing write ends in that log, and what the restart makes of it is
    the end of the history: marked as resolved, with an HTLC output nobody watches. *)
Lemma restart_forgets_htlcs_witness :
  arb_log_ (run_events (take 2 ex_interrupted) ex_fresh).2 = arb_log_ ex_unwritten /\
  has_output ex_in1 /\
  let failed := stateStep (ex_cfg false) (ex_env (Err (Error "database closed"))) 100 localCloseTrigger (Some ex_alone)
                  ex_unwritten in
  let started := Start (ex_cfg true) (ex_envs (Ok tt)) (Ok 101)
                   (NewChannelArbitrator ∅ (arb_log_ failed.1) (arb_calls failed.1)) in
  ~ recorded started.1 (newResolverID (ex_point 1)) /\ CallMarkResolved ∈ arb_calls started.1 /\
  CallMarkResolved ∈ arb_calls (run_events ex_interrupted ex_fresh).2.
Proof.
  assert (forall e, isPreimageAvailable (ex_env e) = isPreimageAvailable (ex_env (Ok tt))) as Epre by done.
  assert (~ due_on (ex_cfg true) (ex_env (Ok tt)) 100 ex_alone LocalHtlcSet) as Hn.
  { intros [(h & Hh & _)|(h & _ & Hk & _)]; [vm_compute in Hh; by apply elem_of_nil in Hh|by vm_compute in Hk]. }
  assert (forall n : nat, answering (ex_envs (Ok tt) n)) as Ha by (intros n; split; [exact ex_obliging|done..]).
  destruct (restart_forgets_htlcs (ex_cfg false) (ex_cfg true) (ex_env (Err (Error "database closed")))
    (Error "database closed") 100 localCloseTrigger ∅ (ex_envs (Ok tt)) 101 ex_alone LocalHtlcSet ex_only_htlc
    ex_unwritten eq_refl eq_refl eq_refl eq_refl eq_refl eq_refl ex_alone_good ex_alone_resolvable eq_refl
    ltac:(by left) ltac:(by exists false) eq_refl eq_refl eq_refl Ha Hn) as (_ & _ & _ & Hrec & _ & Hm).
  split; [vm_compute; reflexivity|]. split; [by vm_compute|]. split; [|split].
  - apply (Hrec ex_in1); [left|by vm_compute].
  - by apply Hm.
  - apply list_elem_of_lookup. exists 1%nat. vm_compute. reflexivity.
Defined.

Lemma deadline_bounds_witness :
  exists h, pressing (ex_env (Ok tt)) (newHtlcSet [ex_out1]) h /\ 400 = Z.max 1 (disk_RefundTimeout h - 100).
Proof.
  assert (values (outgoingHTLCs_ (newHtlcSet [ex_out1])) = [ex_out1]) as Eo by reflexivity.
  assert (pressing (ex_env (Ok tt)) (newHtlcSet [ex_out1]) ex_out1) as Hp
    by (split; [by vm_compute|left; rewrite Eo; left]).
  apply (deadline_bounds (ex_env (Ok tt)) 100 (newHtlcSet [ex_out1]) 400); [lia| |reflexivity|by exists ex_out1].
  intros h [_ [Hh|[Hh _]]].
  - rewrite Eo in Hh. apply list_elem_of_singleton in Hh as ->. simpl. lia.
  - vm_compute in Hh. by apply elem_of_nil in Hh.
Defined.
