(* ===== verification/Routing.v ===== *)
(** * Routes, onion payloads and forwarding

    The sender builds a route for a path ([routing/pathfind.go]) and packs the instructions
    of every hop ([routing/route/route.go], [record/]); the hop reads them
    ([htlcswitch/hop/payload.go]) and its outgoing link decides whether to forward
    ([htlcswitch/link.go]), the exit hop whether the HTLC is the one that was announced.

    Failure messages carry no channel update here; whether the link can fetch one is a field
    of [link].  The onion itself is made by a package outside the repository. *)

From Stdlib Require Import Lia.
From stdpp Require Import pretty.
From S2P Require Import Prelude Ids Tlv Features PaymentCodec Amp InvoiceCodec.

(** ** Failure messages *)

Inductive FailureMessage :=
  | FailInvalidRealm | FailTemporaryNodeFailure | FailPermanentNodeFailure
  | FailRequiredNodeFeatureMissing | FailPermanentChannelFailure | FailRequiredChannelFeatureMissing
  | FailUnknownNextPeer | FailIncorrectPaymentAmount
  | FailIncorrectDetails (amount height : Z) (extraOpaqueData : list byte)
  | FailFinalExpiryTooSoon | FailInvalidOnionVersion (OnionSHA256 : list byte)
  | FailInvalidOnionHmac (OnionSHA256 : list byte) | FailInvalidOnionKey (OnionSHA256 : list byte)
  | FailTemporaryChannelFailure | FailAmountBelowMinimum (HtlcMAtoms : Z)
  | FailFeeInsufficient (HtlcMAtoms : Z) | FailIncorrectCltvExpiry (CltvExpiry : Z)
  | FailExpiryTooSoon | FailChannelDisabled (Flags : Z) | FailFinalIncorrectCltvExpiry (CltvExpiry : Z)
  | FailFinalIncorrectHtlcAmount (IncomingHTLCAmount : Z) | FailExpiryTooFar
  | InvalidOnionPayload (Type' Offset : Z)
  | FailMPPTimeout.

(** ** Policies *)

Record CachedEdgePolicy := {
  ep_ChannelID : Z;
  MessageFlags : Z;
  ChannelFlags : Z;
  ep_TimeLockDelta : Z;
  MinHTLC : Z;
  ep_MaxHTLC : Z;
  FeeBaseMAtoms : Z;
  FeeProportionalMillionths : Z;
  ToNodePubKey : list byte;
  ToNodeFeatures : option RawFeatureVector;
}.

Definition feeRateParts : Z := 1000000.

Definition ComputeFee (c : CachedEdgePolicy) (amt : Z) : Z :=
  u64 (FeeBaseMAtoms c + u64 (amt * FeeProportionalMillionths c) / feeRateParts).

Definition divideCeil (dividend factor : Z) : Z := u64 (dividend + factor - 1) / factor.

Definition ComputeFeeFromIncoming (c : CachedEdgePolicy) (incomingAmt : Z) : Z :=
  u64 (incomingAmt -
       divideCeil (u64 (feeRateParts * u64 (incomingAmt - FeeBaseMAtoms c)))
                  (u64 (feeRateParts + FeeProportionalMillionths c))).

(** ** Building a route *)

Record finalHopParams := {
  fh_amt : Z;
  fh_totalAmt : Z;
  fh_cltvDelta : Z;
  fh_records : option (gmap Z (list byte));
  fh_paymentAddr : option (list byte);
}.

Definition errCustomRecords : error := Error "cannot attach custom records".
Definition errPaymentAddr : error := Error "cannot attach payment addr".
Definition ErrNoRouteHopsProvided : error := Error "ErrNoRouteHopsProvided".

Definition supports (edge : CachedEdgePolicy) (feature : Z) : bool :=
  match ToNodeFeatures edge with None => false | Some fv => HasFeature fv feature end.

Definition final_hop (edge : CachedEdgePolicy) (timeLock : Z) (finalHop : finalHopParams) : res Hop :=
  let tlvPayload := supports edge TLVOnionPayloadOptional in
  if negb tlvPayload && bool_decide (is_Some (fh_records finalHop)) then Err errCustomRecords
  else if negb (supports edge PaymentAddrOptional) && bool_decide (is_Some (fh_paymentAddr finalHop))
  then Err errPaymentAddr
  else Ok {| PubKeyBytes := ToNodePubKey edge; ChannelID := ep_ChannelID edge;
             OutgoingTimeLock := timeLock; AmtToForward := fh_amt finalHop;
             hop_MPP := (fun addr => {| paymentAddr := addr; totalMAtoms := fh_totalAmt finalHop |})
                        <$> fh_paymentAddr finalHop;
             hop_AMP := None; CustomRecords := default ∅ (fh_records finalHop);
             LegacyPayload := negb tlvPayload |}.

Definition forwarding_hop (edge : CachedEdgePolicy) (amtToForward outgoingTimeLock : Z) : Hop :=
  {| PubKeyBytes := ToNodePubKey edge; ChannelID := ep_ChannelID edge;
     OutgoingTimeLock := outgoingTimeLock; AmtToForward := amtToForward; hop_MPP := None;
     hop_AMP := None; CustomRecords := ∅;
     LegacyPayload := negb (supports edge TLVOnionPayloadOptional) |}.

(** The loop from the last edge to the first: the hops, the total time lock and the amount
    that flows into the next hop. *)
Fixpoint route_hops (pathEdges : list CachedEdgePolicy) (currentHeight : Z) (finalHop : finalHopParams)
    : res (list Hop * Z * Z) :=
  match pathEdges with
  | [] => Ok ([], currentHeight, 0)
  | edge :: rest =>
      '(hops, totalTimeLock, nextIncomingAmount) ← route_hops rest currentHeight finalHop;
      match rest with
      | [] =>
          let totalTimeLock := u32 (totalTimeLock + fh_cltvDelta finalHop) in
          currentHop ← final_hop edge totalTimeLock finalHop;
          Ok (currentHop :: hops, totalTimeLock, fh_amt finalHop)
      | next :: _ =>
          let amtToForward := nextIncomingAmount in
          let fee := ComputeFee next amtToForward in
          Ok (forwarding_hop edge amtToForward totalTimeLock :: hops,
              u32 (totalTimeLock + ep_TimeLockDelta next), u64 (amtToForward + fee))
      end
  end.

Definition NewRouteFromHops (amtToSend timeLock : Z) (sourceVertex : list byte) (hops : list Hop)
    : res Route :=
  match hops with
  | [] => Err ErrNoRouteHopsProvided
  | _ => Ok {| TotalTimeLock := timeLock; TotalAmount := amtToSend; SourcePubKey := sourceVertex;
               Hops := hops |}
  end.

Definition newRoute (sourceVertex : list byte) (pathEdges : list CachedEdgePolicy) (currentHeight : Z)
    (finalHop : finalHopParams) : res Route :=
  '(hops, totalTimeLock, nextIncomingAmount) ← route_hops pathEdges currentHeight finalHop;
  NewRouteFromHops nextIncomingAmount totalTimeLock sourceVertex hops.

(** ** Packing the payload of a hop *)

Definition AmtOnionType : Z := 2.
Definition LockTimeOnionType : Z := 4.
Definition NextHopOnionType : Z := 6.

Definition errLegacyPayload : error := Error "cannot pack hop payloads for legacy payloads".
Definition ErrIntermediateMPPHop : error := Error "ErrIntermediateMPPHop".
Definition ErrAMPMissingMPP : error := Error "ErrAMPMissingMPP".

Section Payloads.
Context `{Secp256k1}.

Definition NewAmtToFwdRecord (amt : Z) : tlv_record :=
  MakeDynamicRecord AmtOnionType (PUint64 amt) (fun _ => SizeTUint64 amt) (Some ETUint64) (Some DTUint64).

Definition NewLockTimeRecord (lockTime : Z) : tlv_record :=
  MakeDynamicRecord LockTimeOnionType (PUint32 lockTime) (fun _ => SizeTUint32 lockTime)
    (Some ETUint32) (Some DTUint32).

Definition NewNextHopIDRecord (cid : Z) : res tlv_record :=
  MakePrimitiveRecord NextHopOnionType (PUint64 cid).

Definition AMP_Record (a : AMP) : tlv_record :=
  dynamic_source AMPOnionType (AMPEncoder a) (AMP_PayloadSize a).

Definition payload_records (h : Hop) (nextChanID : Z) : res (list tlv_record) :=
  next ← (if nextChanID =? 0 then Ok []
          else r ← NewNextHopIDRecord nextChanID; Ok [r]);
  mpp ← match hop_MPP h with
        | None => Ok []
        | Some m => if nextChanID =? 0 then Ok [MPP_Record m] else Err ErrIntermediateMPPHop
        end;
  amp ← match hop_AMP h with
        | None => Ok []
        | Some a => match hop_MPP h with Some _ => Ok [AMP_Record a] | None => Err ErrAMPMissingMPP end
        end;
  Ok ([NewAmtToFwdRecord (AmtToForward h); NewLockTimeRecord (OutgoingTimeLock h)]
      ++ next ++ mpp ++ amp ++ MapToRecords (CustomRecords h)).

Definition PackHopPayload (h : Hop) (nextChanID : Z) : res (list byte) :=
  if LegacyPayload h then Err errLegacyPayload
  else
    records ← payload_records h nextChanID;
    tlvStream ← NewStream (SortRecords records);
    StreamEncode tlvStream.

(** The channel a hop is told to forward over: that of the hop behind it. *)
Definition next_channel (hops : list Hop) (i : nat) : Z :=
  match hops !! S i with Some h => ChannelID h | None => 0 end.

(** ** Reading the payload of a hop *)

Inductive Network := BitcoinNetwork | LitecoinNetwork | DecredNetwork.

Record ForwardingInfo := {
  fi_Network : Network;
  NextHop : ShortChannelID;
  AmountToForward : Z;
  OutgoingCTLV : Z;
}.

Record Payload := {
  FwdInfo : ForwardingInfo;
  pl_MPP : option MPP;
  pl_AMP : option AMP;
  pl_customRecords : gmap Z (list byte);
}.

Definition Exit : ShortChannelID := {| BlockHeight := 0; TxIndex := 0; TxPosition := 0 |}.

Inductive PayloadViolation := OmittedViolation | IncludedViolation | RequiredViolation.

Definition violation_string (v : PayloadViolation) : string :=
  match v with
  | OmittedViolation => "omitted" | IncludedViolation => "included" | RequiredViolation => "required"
  end.

Definition ErrInvalidPayload (t : Z) (violation : PayloadViolation) (finalHop : bool) : error :=
  Error ("onion payload for " +:+ (if finalHop then "final" else "intermediate") +:+ " hop "
         +:+ violation_string violation +:+ " record with type " +:+ pretty t).

(** A legacy payload holds the amount, the time lock and the next channel. *)
Definition NewLegacyPayload (forwardAmount outgoingCltv nextAddress : Z) : Payload :=
  {| FwdInfo := {| fi_Network := DecredNetwork; NextHop := NewShortChanIDFromInt nextAddress;
                   AmountToForward := forwardAmount; OutgoingCTLV := outgoingCltv |};
     pl_MPP := None; pl_AMP := None; pl_customRecords := ∅ |}.

Definition has_type (parsedTypes : TypeMap) (t : Z) : bool := bool_decide (is_Some (parsedTypes !! t)).

Definition ValidateParsedPayloadTypes (parsedTypes : TypeMap) (nextHop : ShortChannelID) : res unit :=
  let isFinalHop := bool_decide (nextHop = Exit) in
  if negb (has_type parsedTypes AmtOnionType) then Err (ErrInvalidPayload AmtOnionType OmittedViolation isFinalHop)
  else if negb (has_type parsedTypes LockTimeOnionType)
  then Err (ErrInvalidPayload LockTimeOnionType OmittedViolation isFinalHop)
  else if isFinalHop && has_type parsedTypes NextHopOnionType
  then Err (ErrInvalidPayload NextHopOnionType IncludedViolation true)
  else if negb isFinalHop && has_type parsedTypes MPPOnionType
  then Err (ErrInvalidPayload MPPOnionType IncludedViolation isFinalHop)
  else if negb isFinalHop && has_type parsedTypes AMPOnionType
  then Err (ErrInvalidPayload AMPOnionType IncludedViolation isFinalHop)
  else Ok tt.

(** The lowest unknown type that must be understood. *)
Definition getMinRequiredViolation (set : TypeMap) : option Z :=
  foldl (fun acc p =>
           if negb (bool_decide (is_Some p.2)) || negb (p.1 mod 2 =? 0) || (CustomTypeStart <=? p.1)
           then acc
           else match acc with
                | Some m => Some (if p.1 <? m then p.1 else m)
                | None => Some p.1
                end) None (map_to_list set).

Definition payload_targets : res (list tlv_record) :=
  cid ← NewNextHopIDRecord 0;
  Ok [NewAmtToFwdRecord 0; NewLockTimeRecord 0; cid; dynamic_target MPPOnionType MPPDecoder;
      dynamic_target AMPOnionType AMPDecoder].

Definition NewPayloadFromReader (r : list byte) : res Payload :=
  targets ← payload_targets;
  tlvStream ← NewStream targets;
  '(recs, parsed) ← DecodeWithParsedTypes tlvStream r;
  let parsedTypes := default ∅ parsed in
  let nextHop := NewShortChanIDFromInt (int_field recs NextHopOnionType) in
  _ ← ValidateParsedPayloadTypes parsedTypes nextHop;
  match getMinRequiredViolation parsedTypes with
  | Some violatingType =>
      Err (ErrInvalidPayload violatingType RequiredViolation (bool_decide (nextHop = Exit)))
  | None =>
      Ok {| FwdInfo := {| fi_Network := DecredNetwork; NextHop := nextHop;
                          AmountToForward := int_field recs AmtOnionType;
                          OutgoingCTLV := int_field recs LockTimeOnionType |};
            pl_MPP := if has_type parsedTypes MPPOnionType
                      then dynamic_field recs MPPOnionType MPPDecoder else None;
            pl_AMP := if has_type parsedTypes AMPOnionType
                      then dynamic_field recs AMPOnionType AMPDecoder else None;
            pl_customRecords := NewCustomRecords parsedTypes |}
  end.

(** What a hop reads: the payload its predecessors peeled off, in either format. *)
Definition hop_reads (h : Hop) (nextChanID : Z) : res Payload :=
  if LegacyPayload h then Ok (NewLegacyPayload (AmtToForward h) (OutgoingTimeLock h) nextChanID)
  else b ← PackHopPayload h nextChanID; NewPayloadFromReader b.

End Payloads.

(** ** Links *)

Record ForwardingPolicy := {
  MinHTLCOut : Z;
  MaxHTLC : Z;
  BaseFee : Z;
  FeeRate : Z;
  TimeLockDelta : Z;
}.

Definition ExpectedFee (f : ForwardingPolicy) (htlcAmt : Z) : Z :=
  u64 (BaseFee f + u64 (htlcAmt * FeeRate f) / 1000000).

Record link := {
  FwrdingPolicy : ForwardingPolicy;
  OutgoingCltvRejectDelta : Z;
  MaxOutgoingCltvExpiry : Z;
  Bandwidth : Z;
  (** whether the last channel update can be fetched *)
  has_update : bool;
}.

Inductive OutgoingFailure :=
  | OutgoingFailureNone | OutgoingFailureDecodeError | OutgoingFailureLinkNotEligible
  | OutgoingFailureOnChainTimeout | OutgoingFailureHTLCExceedsMax | OutgoingFailureInsufficientBalance
  | OutgoingFailureCircularRoute | OutgoingFailureIncompleteForward | OutgoingFailureDownstreamHtlcAdd
  | OutgoingFailureForwardsDisabled.

Record LinkError := { le_msg : FailureMessage; le_detail : option OutgoingFailure }.

Definition NewLinkError (msg : FailureMessage) : LinkError := {| le_msg := msg; le_detail := None |}.

Definition NewDetailedLinkError (msg : FailureMessage) (detail : OutgoingFailure) : LinkError :=
  {| le_msg := msg; le_detail := Some detail |}.

Definition createFailureWithUpdate (l : link) (failure : FailureMessage) : FailureMessage :=
  if has_update l then failure else FailTemporaryNodeFailure.

(** [None] when the HTLC can be sent. *)
Definition canSendHtlc (l : link) (policy : ForwardingPolicy) (amt timeout heightNow : Z)
    : option LinkError :=
  if amt <? MinHTLCOut policy
  then Some (NewLinkError (createFailureWithUpdate l (FailAmountBelowMinimum amt)))
  else if negb (MaxHTLC policy =? 0) && (MaxHTLC policy <? amt)
  then Some (NewDetailedLinkError (createFailureWithUpdate l FailTemporaryChannelFailure)
               OutgoingFailureHTLCExceedsMax)
  else if timeout <=? u32 (heightNow + OutgoingCltvRejectDelta l)
  then Some (NewLinkError (createFailureWithUpdate l FailExpiryTooSoon))
  else if u32 (MaxOutgoingCltvExpiry l + heightNow) <? timeout
  then Some (NewLinkError FailExpiryTooFar)
  else if Bandwidth l <? amt
  then Some (NewDetailedLinkError (createFailureWithUpdate l FailTemporaryChannelFailure)
               OutgoingFailureInsufficientBalance)
  else None.

Definition CheckHtlcForward (l : link) (incomingHtlcAmt amtToForward incomingTimeout outgoingTimeout
    heightNow : Z) : option LinkError :=
  let policy := FwrdingPolicy l in
  match canSendHtlc l policy amtToForward outgoingTimeout heightNow with
  | Some err => Some err
  | None =>
      let expectedFee := ExpectedFee policy amtToForward in
      let actualFee := u64 (incomingHtlcAmt - amtToForward) in
      if (incomingHtlcAmt <? amtToForward) || (actualFee <? expectedFee)
      then Some (NewLinkError (createFailureWithUpdate l (FailFeeInsufficient amtToForward)))
      else if incomingTimeout <? u32 (outgoingTimeout + TimeLockDelta policy)
      then Some (NewLinkError (createFailureWithUpdate l (FailIncorrectCltvExpiry incomingTimeout)))
      else None
  end.

Definition CheckHtlcTransit (l : link) (amt timeout heightNow : Z) : option LinkError :=
  canSendHtlc l (FwrdingPolicy l) amt timeout heightNow.

(** The checks of [processExitHop] before the invoice registry is asked. *)
Definition exit_hop_check (pd_Amount pd_Timeout : Z) (fwdInfo : ForwardingInfo) : option LinkError :=
  if negb (pd_Amount =? AmountToForward fwdInfo)
  then Some (NewLinkError (FailFinalIncorrectHtlcAmount pd_Amount))
  else if negb (pd_Timeout =? OutgoingCTLV fwdInfo)
  then Some (NewLinkError (FailFinalIncorrectCltvExpiry pd_Timeout))
  else None.
