(* ===== verification/RoutingThms.v ===== *)
(** * Routes, onion payloads and forwarding: properties

    What the sender packs for a hop is what the hop reads; and on a route built for a path,
    every link that keeps the policy of its edge forwards the HTLC as instructed, the exit hop
    accepts it, and nothing less would do. *)

From Stdlib Require Import Lia.
From S2P Require Import Prelude Ids Tlv Features PaymentCodec Amp InvoiceCodec InvoiceCodecInv Routing.

(** ** Payloads *)

Section Payloads.
Context `{Secp256k1}.

Lemma MPP_codec m r :
  wf_mpp m ->
  MPPDecoder (Z.of_nat (length (MPPEncoder m))) (MPPEncoder m ++ r) = Ok (m, r) /\
  MPP_PayloadSize m = Z.of_nat (length (MPPEncoder m)) /\
  Z.of_nat (length (MPPEncoder m)) <= maxMPPLength.
Proof.
  intros [Ha Ht]. unfold MPPDecoder, MPPEncoder. rewrite length_app, Ha.
  pose proof numLeadingZeroBytes64_spec as Hl. pose proof (Hl (totalMAtoms m) Ht) as (Hb & _).
  assert (Z.of_nat (length (ETUint64T (totalMAtoms m))) =
    Z.of_nat 8 - numLeadingZeroBytes64 (totalMAtoms m)) as El.
  { unfold ETUint64T. rewrite length_drop, length_be_bytes. lia. }
  rewrite Nat2Z.inj_add, El. unfold minMPPLength, maxMPPLength.
  split; [|split; [unfold MPP_PayloadSize, SizeTUint64; rewrite !u64_small; unfold is_u64;
    rewrite ?u64_small; unfold is_u64; lia|lia]].
  rewrite !(proj2 (Z.leb_le _ _)) by lia. cbn [andb]. rewrite <- app_assoc.
  unfold DBytes32. cbn [Z.eqb Pos.eqb]. rewrite read_full_app' by done. rsimpl.
  assert (DTUint64 (PUint64 0) (Z.of_nat 32 + (Z.of_nat 8 - numLeadingZeroBytes64 (totalMAtoms m)) - 32)
    (ETUint64T (totalMAtoms m) ++ r) = Ok (PUint64 (totalMAtoms m), r)) as ->.
  { apply truncated_ints_canonical; [lia|]. exists (totalMAtoms m). split_and!; try done.
    unfold SizeTUint64. rewrite u64_small by (unfold is_u64; lia). lia. }
  by destruct m.
Qed.

Lemma truncated_length w lead v :
  leading_zeros_of (Z.of_nat w) lead -> 0 <= v < 256 ^ Z.of_nat w -> (w <= 8)%nat ->
  u64 (Z.of_nat w - lead v) = Z.of_nat (length (drop (Z.to_nat (lead v)) (be_bytes w v))) /\
  (length (drop (Z.to_nat (lead v)) (be_bytes w v)) <= w)%nat.
Proof.
  intros Hl Hv Hw. destruct (Hl v Hv) as (Hb & _). rewrite length_drop, length_be_bytes.
  rewrite u64_small by (unfold is_u64; lia). lia.
Qed.

Lemma amt_codec v v0 : is_u64 v ->
  writes (NewAmtToFwdRecord v) (AmtOnionType, ETUint64T v) /\
  decodes (NewAmtToFwdRecord v0) (ETUint64T v) (PUint64 v) /\ (length (ETUint64T v) <= 8)%nat.
Proof.
  intros Hv. destruct (truncated_length 8 _ v numLeadingZeroBytes64_spec Hv ltac:(lia)) as [El Hle].
  split; [|split; [|exact Hle]].
  - split; [done|]. split; [done|]. unfold Size. simpl. exact El.
  - intros r. unfold RecordDecode. cbn [decoder NewAmtToFwdRecord MakeDynamicRecord].
    apply truncated_ints_canonical; [lia|]. exists v. by split_and!.
Qed.

Lemma lock_codec v v0 : is_u32 v ->
  writes (NewLockTimeRecord v) (LockTimeOnionType, ETUint32T v) /\
  decodes (NewLockTimeRecord v0) (ETUint32T v) (PUint32 v) /\ (length (ETUint32T v) <= 4)%nat.
Proof.
  intros Hv. destruct (truncated_length 4 _ v numLeadingZeroBytes32_spec Hv ltac:(lia)) as [El Hle].
  split; [|split; [|exact Hle]].
  - split; [done|]. split; [done|]. unfold Size. simpl. exact El.
  - intros r. unfold RecordDecode. cbn [decoder NewLockTimeRecord MakeDynamicRecord].
    apply truncated_ints_canonical; [lia|]. exists v. by split_and!.
Qed.

(** What can be packed for a hop that is told to forward over channel [next] (zero for the
    last hop). *)
Record packable (h : Hop) (next : Z) : Prop := {
  pk_hop : wf_hop h;
  pk_next : is_u64 next;
  pk_tlv : LegacyPayload h = false;
  pk_custom : wf_custom (CustomRecords h);
  pk_amp : forall a, hop_AMP h = Some a -> wf_amp a;
  pk_last : is_Some (hop_MPP h) -> next = 0;
  pk_both : is_Some (hop_AMP h) -> is_Some (hop_MPP h);
}.

(** The raw records before the custom ones. *)
Definition payload_head (h : Hop) (next : Z) : list raw :=
  [(AmtOnionType, ETUint64T (AmtToForward h)); (LockTimeOnionType, ETUint32T (OutgoingTimeLock h))]
  ++ (if next =? 0 then [] else [(NextHopOnionType, be_bytes 8 next)])
  ++ option_list ((fun m => (MPPOnionType, MPPEncoder m)) <$> hop_MPP h)
  ++ option_list ((fun a => (AMPOnionType, AMPEncoder a)) <$> hop_AMP h).

(** The three shapes: forwarding, last without and last with the record of a payment. *)
Lemma payload_shapes h next : packable h next ->
  (next <> 0 /\ hop_MPP h = None /\ hop_AMP h = None) \/
  (next = 0 /\ hop_MPP h = None /\ hop_AMP h = None) \/
  (next = 0 /\ exists m, hop_MPP h = Some m /\ wf_mpp m /\
     (hop_AMP h = None \/ exists a, hop_AMP h = Some a /\ wf_amp a)).
Proof.
  intros [Hw Hn _ _ Ha Hl Hb]. destruct (hop_MPP h) as [m|] eqn:Em.
  - right. right. split; [by apply Hl|]. exists m. split; [done|]. split; [by apply (wh_mpp h Hw)|].
    destruct (hop_AMP h) as [a|]; [right; exists a; auto|by left].
  - destruct (hop_AMP h) as [a|]; [destruct (Hb ltac:(done)) as [? ?]; done|].
    destruct (decide (next = 0)); [right; by left|by left].
Qed.

Lemma payload_head_ok h next : packable h next ->
  StronglySorted Z.lt (payload_head h next).*1 /\
  Forall (fun x => x.1 < CustomTypeStart) (payload_head h next) /\
  Forall (fun '(t, b) => is_u64 t /\ Z.of_nat (length b) <= MaxRecordSize) (payload_head h next).
Proof.
  intros Hp. destruct (amt_codec _ 0 (wh_amt h (pk_hop _ _ Hp))) as (_ & _ & L1).
  destruct (lock_codec _ 0 (wh_lock h (pk_hop _ _ Hp))) as (_ & _ & L2).
  pose proof (length_be_bytes 8 next) as L3. unfold payload_head.
  destruct (payload_shapes h next Hp) as [(Hn & Em & Ea)|[(-> & Em & Ea)|(-> & m & Em & Hm & Ha)]].
  - rewrite Em, Ea, (proj2 (Z.eqb_neq _ _)) by done. simpl.
    split; [by repeat constructor|]. split; [by repeat constructor|].
    forall_list ltac:(split; [done|unfold MaxRecordSize; lia]).
  - rewrite Em, Ea. simpl. split; [by repeat constructor|]. split; [by repeat constructor|].
    forall_list ltac:(split; [done|unfold MaxRecordSize; lia]).
  - destruct (MPP_codec m [] Hm) as (_ & _ & L4). unfold maxMPPLength in L4. rewrite Em.
    destruct Ha as [->|(a & -> & Ha)]; simpl.
    + split; [by repeat constructor|]. split; [by repeat constructor|].
      forall_list ltac:(split; [done|unfold MaxRecordSize; lia]).
    + destruct (AMPDecoder_Encoder a [] Ha) as (_ & _ & L5). unfold maxAMPLength in L5.
      split; [by repeat constructor|]. split; [by repeat constructor|].
      forall_list ltac:(split; [done|unfold MaxRecordSize; lia]).
Qed.

(** Sorting leaves records in strictly increasing order as they are. *)
Lemma SortRecords_sorted recs : sorted_records recs -> SortRecords recs = recs.
Proof.
  intros Hs. unfold SortRecords. apply (StronglySorted_unique_strong typ_le).
  - intros x y Hx Hy Hxy Hyx. unfold typ_le in *.
    rewrite merge_sort_Permutation in Hx. apply list_elem_of_lookup in Hx as [i Hi], Hy as [j Hj].
    assert (i = j) as ->; [|congruence].
    apply (NoDup_lookup (typ <$> recs) i j (typ x)); [by apply sorted_NoDup|by rewrite list_lookup_fmap, Hi|].
    rewrite list_lookup_fmap, Hj. simpl. f_equal. lia.
  - apply StronglySorted_merge_sort; [intros a b c; unfold typ_le; lia|intros a b; unfold typ_le; lia].
  - clear -Hs. unfold sorted_records in Hs. induction recs as [|x recs IH]; [constructor|].
    rewrite fmap_cons in Hs. apply StronglySorted_inv in Hs as [Hs Hf]. constructor; [by apply IH|].
    rewrite Forall_fmap in Hf. eapply Forall_impl; [exact Hf|]. unfold typ_le. simpl. lia.
  - apply merge_sort_Permutation.
Qed.

Lemma payload_writes h next : packable h next ->
  exists recs custom, payload_records h next = Ok recs /\ Forall2 writes recs (payload_head h next ++ custom) /\
    canonical (payload_head h next ++ custom) /\ raw_map custom = CustomRecords h /\
    Forall (fun x => CustomTypeStart <= x.1) custom.
Proof.
  intros Hp. destruct (payload_head_ok h next Hp) as (Hhs & Hhl & Hhb). pose proof (pk_custom _ _ Hp) as Hcu.
  destruct (MapToRecords_raws (CustomRecords h)) as (custom & Em & Hc & Hm).
  { eapply map_Forall_impl; [exact Hcu|]. unfold is_u64, CustomTypeStart. simpl. intros. lia. }
  assert (Forall (fun x => CustomTypeStart <= x.1) custom) as Hlow.
  { apply Forall_forall. intros [t b] Hin. simpl. assert (raw_map custom !! t = Some b) as E.
    { apply elem_of_list_to_map_1; [apply sorted_NoDup, Hc|done]. }
    rewrite Hm in E. apply Hcu in E. lia. }
  destruct (amt_codec _ 0 (wh_amt h (pk_hop _ _ Hp))) as (W1 & _ & _).
  destruct (lock_codec _ 0 (wh_lock h (pk_hop _ _ Hp))) as (W2 & _ & _).
  assert (exists recs, payload_records h next = Ok recs /\ Forall2 writes recs (payload_head h next ++ custom))
    as (recs & Er & Hw).
  { unfold payload_records, payload_head. rewrite Em. pose proof (custom_writes custom Hc) as Hcw.
    destruct (payload_shapes h next Hp) as [(Hn & Emp & Ea)|[(-> & Emp & Ea)|(-> & m & Emp & Hwm & Ha)]].
    - rewrite Emp, Ea, (proj2 (Z.eqb_neq _ _)) by done. eexists. split; [reflexivity|]. simpl.
      repeat (apply Forall2_cons; split); [done|done| |done].
      apply (prim_writes NextHopOnionType (PUint64 next)); [exact (pk_next _ _ Hp)|reflexivity].
    - rewrite Emp, Ea. eexists. split; [reflexivity|]. simpl. repeat (apply Forall2_cons; split); done.
    - destruct (MPP_codec m [] Hwm) as (_ & Sz & _). rewrite Emp.
      destruct Ha as [->|(a & -> & Ha)]; (eexists; split; [reflexivity|]); simpl.
      + repeat (apply Forall2_cons; split); [done|done|by split|done].
      + destruct (AMPDecoder_Encoder a [] Ha) as (_ & Sz' & _).
        repeat (apply Forall2_cons; split); [done|done|by split|by split|done]. }
  exists recs, custom. split_and!; [done..| | |done].
  - split.
    + rewrite fmap_app. apply (sorted_app _ _ CustomTypeStart); [done|apply Hc|by apply Forall_fmap|by apply Forall_fmap].
    + apply Forall_app. split; [done|apply Hc].
  - done.
Qed.

Lemma sorted_typ recs raws : Forall2 writes recs raws -> StronglySorted Z.lt raws.*1 -> sorted_records recs.
Proof.
  intros Hw Hs. unfold sorted_records.
  replace (typ <$> recs) with raws.*1; [done|]. clear Hs.
  induction Hw as [|rec x recs raws (E & _) _ IH]; [done|]. by rewrite !fmap_cons, IH, E.
Qed.

(** What is packed. *)
Lemma PackHopPayload_ok h next : packable h next ->
  exists custom, PackHopPayload h next = Ok (encode_raw (payload_head h next ++ custom)) /\
    canonical (payload_head h next ++ custom) /\ raw_map custom = CustomRecords h /\
    Forall (fun x => CustomTypeStart <= x.1) custom.
Proof.
  intros Hp. destruct (payload_writes h next Hp) as (recs & custom & Er & Hw & Hc & Hm & Hlow).
  exists custom. split; [|done]. unfold PackHopPayload. rewrite (pk_tlv _ _ Hp), Er. rsimpl.
  rewrite SortRecords_sorted by (eapply sorted_typ; [exact Hw|apply Hc]).
  destruct (stream_encodes recs _ Hw (proj1 Hc)) as [En Es].
  { apply Forall_fmap. destruct Hc as [_ Hb]. eapply Forall_impl; [exact Hb|]. by intros [t b] [? _]. }
  rewrite En. rsimpl. exact Es.
Qed.

Lemma payload_targets_ok :
  payload_targets = Ok (targets_of payload_targets) /\
  NewStream (targets_of payload_targets) = Ok (targets_of payload_targets) /\
  sorted_records (targets_of payload_targets) /\
  Forall (fun rec => typ rec < CustomTypeStart) (targets_of payload_targets).
Proof. split; [reflexivity|]. split; [reflexivity|]. split; by repeat constructor. Qed.

Section Read.
Context (h : Hop) (next : Z) (custom : list raw).
Context (Hp : packable h next) (Hc : canonical (payload_head h next ++ custom)).
Context (Hlow : Forall (fun x => CustomTypeStart <= x.1) custom).
Abbreviation raws := (payload_head h next ++ custom).

(** Only the records before the custom ones have the known types. *)
Lemma known_raw t : t < CustomTypeStart -> raw_map raws !! t = raw_map (payload_head h next) !! t.
Proof.
  intros Ht. rewrite raw_map_app by (apply sorted_NoDup, Hc).
  rewrite (raw_absent custom t); [by destruct (raw_map (payload_head h next) !! t)|].
  eapply Forall_impl; [exact Hlow|]. simpl. lia.
Qed.

(** The raw record of each target. *)
Lemma head_raw :
  raw_map raws !! AmtOnionType = Some (ETUint64T (AmtToForward h)) /\
  raw_map raws !! LockTimeOnionType = Some (ETUint32T (OutgoingTimeLock h)) /\
  raw_map raws !! NextHopOnionType = (if next =? 0 then None else Some (be_bytes 8 next)) /\
  raw_map raws !! MPPOnionType = MPPEncoder <$> hop_MPP h /\
  raw_map raws !! AMPOnionType = AMPEncoder <$> hop_AMP h.
Proof.
  rewrite !known_raw by done. unfold payload_head.
  destruct (payload_shapes h next Hp) as [(Hn & Em & Ea)|[(-> & Em & Ea)|(-> & m & Em & Hm & [Ea|(a & Ea & Ha)])]];
    rewrite Em, Ea, ?(proj2 (Z.eqb_neq next 0)) by done; split_and!; reflexivity.
Qed.

Lemma payload_readable : Forall (readable raws) (targets_of payload_targets).
Proof.
  destruct head_raw as (R1 & R2 & R3 & R4 & R5).
  destruct (amt_codec _ 0 (wh_amt h (pk_hop _ _ Hp))) as (_ & D1 & _).
  destruct (lock_codec _ 0 (wh_lock h (pk_hop _ _ Hp))) as (_ & D2 & _).
  unfold targets_of. cbn [payload_targets]. unfold readable.
  forall_list idtac; simpl typ.
  - rewrite R1. by eexists.
  - rewrite R2. by eexists.
  - rewrite R3. destruct (next =? 0); [done|]. exists (PUint64 next).
    apply (prim_decodes NextHopOnionType (PUint64 next) (PUint64 0)); [exact (pk_next _ _ Hp)|done|reflexivity].
  - rewrite R4. destruct (hop_MPP h) as [m|] eqn:Em; [|done]. simpl. eexists.
    eapply dynamic_decodes. intros r. apply MPP_codec. by apply (wh_mpp h (pk_hop _ _ Hp)).
  - rewrite R5. destruct (hop_AMP h) as [a|] eqn:Ea; [|done]. simpl. eexists.
    eapply dynamic_decodes. intros r. apply AMPDecoder_Encoder. by apply (pk_amp _ _ Hp).
Qed.

(** The types found: known ones without bytes, custom ones with theirs. *)
Lemma payload_parsed_high t : CustomTypeStart <= t ->
  parsed (targets_of payload_targets) raws !! t = Some <$> raw_map custom !! t.
Proof.
  intros Ht. rewrite parsed_at. rewrite raw_map_app by (apply sorted_NoDup, Hc).
  destruct (payload_head_ok h next Hp) as (_ & Hhl & _).
  rewrite (raw_map_high _ t CustomTypeStart) by done.
  destruct (raw_map custom !! t) as [b|]; [|done]. simpl. rewrite bool_decide_false; [done|].
  intros Hin. unfold targets_of in Hin. cbn in Hin. rewrite !elem_of_cons, elem_of_nil in Hin.
  unfold CustomTypeStart in Ht. destruct Hin as [->|[->|[->|[->|[->|[]]]]]]; by compute in Ht.
Qed.

Lemma payload_parsed_low t : t < CustomTypeStart ->
  parsed (targets_of payload_targets) raws !! t ∈ [None; Some None].
Proof.
  intros Ht. rewrite parsed_at, known_raw by done.
  destruct (raw_map (payload_head h next) !! t) as [b|] eqn:E; [|left]. simpl.
  rewrite bool_decide_true; [right; left|].
  apply elem_of_list_to_map_2 in E. apply (list_elem_of_fmap_2 fst) in E.
  change (t ∈ (payload_head h next).*1) in E. unfold payload_head in E.
  change (t ∈ [AmtOnionType; LockTimeOnionType; NextHopOnionType; MPPOnionType; AMPOnionType]).
  rewrite !fmap_app, !elem_of_app in E. revert E.
  intros [E|[E|[E|E]]].
  - set_solver.
  - destruct (next =? 0); set_solver.
  - destruct (hop_MPP h); set_solver.
  - destruct (hop_AMP h); set_solver.
Qed.

Lemma payload_no_violation : getMinRequiredViolation (parsed (targets_of payload_targets) raws) = None.
Proof.
  unfold getMinRequiredViolation.
  assert (forall l, (forall p, p ∈ l -> parsed (targets_of payload_targets) raws !! p.1 = Some p.2) ->
    foldl (fun acc p =>
      if negb (bool_decide (is_Some p.2)) || negb (p.1 mod 2 =? 0) || (CustomTypeStart <=? p.1) then acc
      else match acc with Some m => Some (if p.1 <? m then p.1 else m) | None => Some p.1 end)
      (None : option Z) l = None) as Hgen.
  { induction l as [|[t v] l IH]; intros Hl; [done|]. simpl.
    pose proof (Hl (t, v) (list_elem_of_here _ _)) as Ht.
    change (parsed (targets_of payload_targets) raws !! t = Some v) in Ht.
    destruct (Z.leb_spec CustomTypeStart t) as [Hge|Hlt].
    - rewrite orb_true_r. apply IH. intros p Hin. apply Hl. by right.
    - pose proof (payload_parsed_low t Hlt) as Hin. rewrite Ht in Hin.
      apply elem_of_cons in Hin as [?|Hin%list_elem_of_singleton]; [done|]. injection Hin as ->.
      rewrite bool_decide_false by (by intros [? ?]). simpl. apply IH. intros p Hin. apply Hl. by right. }
  apply Hgen. intros [t v] Hin. by apply elem_of_map_to_list in Hin.
Qed.

Lemma payload_custom : raw_map custom = CustomRecords h ->
  NewCustomRecords (parsed (targets_of payload_targets) raws) = CustomRecords h.
Proof.
  intros Hm. pose proof payload_parsed_high as Hph.
  unfold NewCustomRecords. unfold TypeMap in *.
  apply map_eq. intros t. rewrite lookup_omap, <- Hm. rewrite (map_lookup_filter (M := gmap Z)).
  destruct (Z.le_gt_cases CustomTypeStart t) as [Ht|Ht].
  - rewrite Hph by done. destruct (raw_map custom !! t); [|done]. simpl. by rewrite option_guard_True.
  - rewrite (raw_absent custom t) by (eapply Forall_impl; [exact Hlow|]; simpl; lia).
    match goal with |- (?o ≫= _) ≫= _ = _ => destruct o as [v|]; simpl; [|reflexivity] end.
    case_guard; [simpl in *; lia|reflexivity].
Qed.

Lemma exit_iff : NewShortChanIDFromInt next = Exit <-> next = 0.
Proof.
  split; [|by intros ->]. intros E. rewrite <- (ToUint64_NewShortChanIDFromInt next (pk_next _ _ Hp)), E.
  reflexivity.
Qed.

Lemma payload_valid :
  ValidateParsedPayloadTypes (parsed (targets_of payload_targets) raws) (NewShortChanIDFromInt next) = Ok tt.
Proof.
  destruct head_raw as (R1 & R2 & R3 & R4 & R5). unfold ValidateParsedPayloadTypes, has_type.
  pose proof (fun t => bool_decide_ext _ _ (parsed_is_Some (targets_of payload_targets) raws t)) as Hb.
  rewrite !Hb, R1, R2, R3, R4, R5, (bool_decide_ext _ _ exit_iff). simpl.
  destruct (Z.eqb_spec next 0) as [->|Hne]; simpl; [done|].
  rewrite (bool_decide_eq_false_2 (next = 0)) by done. simpl.
  destruct (payload_shapes h next Hp) as [(_ & -> & ->)|[(-> & _)|(-> & _)]]; done.
Qed.

Lemma payload_fields rs' : fields_read raws (targets_of payload_targets) rs' ->
  int_field rs' AmtOnionType = AmtToForward h /\ int_field rs' LockTimeOnionType = OutgoingTimeLock h /\
  int_field rs' NextHopOnionType = next /\
  (forall m, hop_MPP h = Some m -> dynamic_field rs' MPPOnionType MPPDecoder = Some m) /\
  (forall a, hop_AMP h = Some a -> dynamic_field rs' AMPOnionType AMPDecoder = Some a).
Proof.
  intros Hf. destruct head_raw as (R1 & R2 & R3 & R4 & R5).
  destruct (amt_codec _ 0 (wh_amt h (pk_hop _ _ Hp))) as (_ & D1 & _).
  destruct (lock_codec _ 0 (wh_lock h (pk_hop _ _ Hp))) as (_ & D2 & _).
  assert (forall i rec, targets_of payload_targets !! i = Some rec ->
    match raw_map raws !! typ rec with
    | None => field rs' (typ rec) = value rec
    | Some b => forall v, decodes rec b v -> field rs' (typ rec) = v
    end) as Hat by (intros i rec Hi; apply Hf; by eapply list_elem_of_lookup_2).
  unfold int_field. split_and!.
  - pose proof (Hat 0%nat _ eq_refl) as H0. simpl typ in H0. rewrite R1 in H0. by rewrite (H0 _ D1).
  - pose proof (Hat 1%nat _ eq_refl) as H0. simpl typ in H0. rewrite R2 in H0. by rewrite (H0 _ D2).
  - pose proof (Hat 2%nat _ eq_refl) as H0. simpl typ in H0. rewrite R3 in H0.
    destruct (Z.eqb_spec next 0) as [->|]; [by rewrite H0|]. rewrite (H0 (PUint64 next)); [done|].
    apply (prim_decodes NextHopOnionType (PUint64 next) (PUint64 0)); [exact (pk_next _ _ Hp)|done|reflexivity].
  - intros m Em. pose proof (Hat 3%nat _ eq_refl) as H0. simpl typ in H0. rewrite R4, Em in H0. simpl in H0.
    assert (forall r, MPPDecoder (Z.of_nat (length (MPPEncoder m))) (MPPEncoder m ++ r) = Ok (m, r)) as Hd
      by (intros r; apply MPP_codec; by apply (wh_mpp h (pk_hop _ _ Hp))).
    apply (dynamic_field_ok rs' _ _ (MPPEncoder m)); [|exact Hd]. apply H0. by eapply dynamic_decodes.
  - intros a Ea. pose proof (Hat 4%nat _ eq_refl) as H0. simpl typ in H0. rewrite R5, Ea in H0. simpl in H0.
    assert (forall r, AMPDecoder (Z.of_nat (length (AMPEncoder a))) (AMPEncoder a ++ r) = Ok (a, r)) as Hd
      by (intros r; apply AMPDecoder_Encoder; by apply (pk_amp _ _ Hp)).
    apply (dynamic_field_ok rs' _ _ (AMPEncoder a)); [|exact Hd]. apply H0. by eapply dynamic_decodes.
Qed.

End Read.

(** What is read from a packed payload. *)
Definition payload_of (h : Hop) (next : Z) : Payload :=
  {| FwdInfo := {| fi_Network := DecredNetwork; NextHop := NewShortChanIDFromInt next;
                   AmountToForward := AmtToForward h; OutgoingCTLV := OutgoingTimeLock h |};
     pl_MPP := hop_MPP h; pl_AMP := hop_AMP h; pl_customRecords := CustomRecords h |}.

Lemma payload_read h next b : packable h next -> PackHopPayload h next = Ok b ->
  NewPayloadFromReader b = Ok (payload_of h next).
Proof.
  intros Hp Hb. destruct (PackHopPayload_ok h next Hp) as (custom & Eb & Hc & Hm & Hlow).
  assert (b = encode_raw (payload_head h next ++ custom)) as -> by congruence.
  destruct payload_targets_ok as (Et & En & Hs & _).
  destruct (decode_into (targets_of payload_targets) _ Hs Hc (payload_readable h next custom Hp Hc Hlow))
    as (rs' & Ed & Hf).
  destruct (payload_fields h next custom Hp Hc Hlow rs' Hf) as (F1 & F2 & F3 & F4 & F5).
  pose proof (payload_valid h next custom Hp Hc Hlow) as Hv.
  pose proof (payload_no_violation h next custom Hp Hc Hlow) as Hn.
  pose proof (payload_custom h next custom Hp Hc Hlow Hm) as Hcu.
  pose proof (fun t => bool_decide_ext _ _ (parsed_is_Some (targets_of payload_targets) (payload_head h next ++ custom) t)) as Hbd.
  destruct (head_raw h next custom Hp Hc Hlow) as (_ & _ & _ & R4 & R5).
  unfold NewPayloadFromReader. rewrite Et.
  set (ts := targets_of payload_targets) in *. set (rw := payload_head h next ++ custom) in *.
  clearbody ts rw. rsimpl. rewrite En. rsimpl. rewrite Ed. rsimpl.
  change (default ∅ (Some ?x)) with x. rewrite F1, F2, F3, Hv. rsimpl. rewrite Hn, Hcu. unfold has_type.
  rewrite !Hbd, R4, R5. unfold payload_of. repeat f_equal.
  - destruct (hop_MPP h) as [m|]; [simpl; by apply F4|done].
  - destruct (hop_AMP h) as [a|]; [simpl; by apply F5|done].
Qed.

End Payloads.

(** ** Routes *)

Section Routes.
Context (height : Z) (fh : finalHopParams).

(** The amount and the expiry of the HTLC over the first of the edges, without wrap-around. *)
Fixpoint inflow (edges : list CachedEdgePolicy) : Z :=
  match edges with
  | [] => 0
  | _ :: rest =>
      match rest with
      | [] => fh_amt fh
      | next :: _ =>
          inflow rest + FeeBaseMAtoms next + inflow rest * FeeProportionalMillionths next / feeRateParts
      end
  end.

Fixpoint expiry (edges : list CachedEdgePolicy) : Z :=
  match edges with
  | [] => height
  | _ :: rest =>
      match rest with
      | [] => height + fh_cltvDelta fh
      | next :: _ => expiry rest + ep_TimeLockDelta next
      end
  end.

(** Amounts, fees and time locks fit their widths. *)
Fixpoint fits (edges : list CachedEdgePolicy) : Prop :=
  match edges with
  | [] => True
  | _ :: rest =>
      match rest with
      | [] => is_u64 (fh_amt fh) /\ is_u32 (height + fh_cltvDelta fh)
      | next :: _ =>
          fits rest /\ 0 <= FeeBaseMAtoms next /\ 0 <= FeeProportionalMillionths next /\
          0 <= ep_TimeLockDelta next /\ inflow rest * FeeProportionalMillionths next < 2 ^ 64 /\
          inflow edges < 2 ^ 64 /\ expiry edges < 2 ^ 32
      end
  end.

Lemma inflow_cons e next rest :
  inflow (e :: next :: rest)
  = inflow (next :: rest) + FeeBaseMAtoms next + inflow (next :: rest) * FeeProportionalMillionths next / feeRateParts.
Proof. reflexivity. Qed.

Lemma expiry_cons e next rest : expiry (e :: next :: rest) = expiry (next :: rest) + ep_TimeLockDelta next.
Proof. reflexivity. Qed.

Lemma fits_cons e next rest : fits (e :: next :: rest) ->
  fits (next :: rest) /\ 0 <= FeeBaseMAtoms next /\ 0 <= FeeProportionalMillionths next /\
  0 <= ep_TimeLockDelta next /\ inflow (next :: rest) * FeeProportionalMillionths next < 2 ^ 64 /\
  inflow (e :: next :: rest) < 2 ^ 64 /\ expiry (e :: next :: rest) < 2 ^ 32.
Proof. exact id. Qed.

Lemma rate_pos next rest : 0 <= inflow (next :: rest) -> 0 <= FeeProportionalMillionths next ->
  0 <= inflow (next :: rest) * FeeProportionalMillionths next / feeRateParts.
Proof. intros Hi Hp. apply Z.div_pos; [by apply Z.mul_nonneg_nonneg|done]. Qed.

Lemma fits_bounds edges : edges <> [] -> fits edges -> is_u64 (inflow edges) /\ is_u32 (expiry edges).
Proof.
  induction edges as [|e rest IH]; [done|]. intros _. destruct rest as [|next rest']; [done|].
  intros (Hr & Hb & Hp & Hd & Hm & Hi & Hl)%fits_cons. destruct (IH ltac:(done) Hr) as [Hu Hx].
  unfold is_u64, is_u32 in *. pose proof (rate_pos next rest' ltac:(lia) Hp). rewrite inflow_cons in Hi |- *.
  rewrite expiry_cons in Hl |- *. lia.
Qed.

Lemma fee_exact e next rest : fits (e :: next :: rest) ->
  ComputeFee next (inflow (next :: rest)) = inflow (e :: next :: rest) - inflow (next :: rest) /\
  0 <= ComputeFee next (inflow (next :: rest)).
Proof.
  intros (Hr & Hb & Hp & Hd & Hm & Hi & Hl)%fits_cons.
  destruct (fits_bounds (next :: rest) ltac:(done) Hr) as [Hu _]. unfold is_u64 in Hu.
  pose proof (rate_pos next rest ltac:(lia) Hp) as Hq. rewrite inflow_cons in Hi |- *.
  assert (0 <= inflow (next :: rest) * FeeProportionalMillionths next) by (apply Z.mul_nonneg_nonneg; lia).
  unfold ComputeFee. rewrite (u64_small (inflow (next :: rest) * _)) by (unfold is_u64; lia).
  rewrite u64_small by (unfold is_u64; lia). lia.
Qed.

(** Fees are not negative. *)
Lemma inflow_ge edges : edges <> [] -> fits edges -> 0 <= fh_amt fh <= inflow edges /\ inflow edges < 2 ^ 64.
Proof.
  induction edges as [|e rest IH]; [done|]. intros _ Hf. destruct rest as [|next rest'].
  - destruct Hf as [Ha _]. unfold is_u64 in Ha. simpl. lia.
  - destruct (fee_exact e next rest' Hf) as [Ef H0]. pose proof (fits_bounds (e :: next :: rest') ltac:(done) Hf) as [Hu _].
    destruct (IH ltac:(done) (proj1 (fits_cons _ _ _ Hf))). unfold is_u64 in Hu. lia.
Qed.

(** What the loop over the path builds. *)
Record built (edges : list CachedEdgePolicy) (hops : list Hop) : Prop := {
  bt_length : length hops = length edges;
  bt_hop : forall i e, edges !! i = Some e -> exists hp, hops !! i = Some hp /\
    ChannelID hp = ep_ChannelID e /\ PubKeyBytes hp = ToNodePubKey e /\ hop_AMP hp = None /\
    (drop (S i) edges = [] -> AmtToForward hp = fh_amt fh /\ OutgoingTimeLock hp = height + fh_cltvDelta fh /\
       hop_MPP hp = (fun addr => {| paymentAddr := addr; totalMAtoms := fh_totalAmt fh |}) <$> fh_paymentAddr fh /\
       CustomRecords hp = default ∅ (fh_records fh)) /\
    (drop (S i) edges <> [] -> AmtToForward hp = inflow (drop (S i) edges) /\
       OutgoingTimeLock hp = expiry (drop (S i) edges) /\ hop_MPP hp = None /\ CustomRecords hp = ∅);
}.

Lemma route_hops_ok edges hops tl amt :
  edges <> [] -> fits edges -> route_hops edges height fh = Ok (hops, tl, amt) ->
  tl = expiry edges /\ amt = inflow edges /\ built edges hops.
Proof.
  revert hops tl amt. induction edges as [|e rest IH]; [done|]. intros hops tl amt _ Hf. cbn [route_hops].
  destruct rest as [|next rest'].
  - destruct Hf as [Ha Hl]. cbn [route_hops]. rsimpl.
    destruct (final_hop e _ fh) as [hp| |] eqn:Eh; rsimpl; [|discriminate..]. intros [= <- <- <-].
    assert (u32 (height + fh_cltvDelta fh) = height + fh_cltvDelta fh) as Eu by (apply Z.mod_small; exact Hl).
    rewrite Eu in *. split; [done|]. split; [done|]. unfold final_hop in Eh.
    do 2 (case_match; [discriminate|]). injection Eh as <-.
    split; [done|]. intros [|i] e' Hi; [|done]. injection Hi as <-.
    eexists. split; [reflexivity|]. simpl. split_and!; done.
  - pose proof Hf as (Hr & Hb & Hp & Hd & Hm & Hi & Hl).
    destruct (route_hops (next :: rest') height fh) as [[[hops' tl'] amt']| |] eqn:E; rsimpl; [|discriminate..].
    destruct (IH hops' tl' amt' ltac:(done) Hr eq_refl) as (Etl & Eamt & [Hlen Hhop]). intros [= <- <- <-].
    destruct (fee_exact e next rest' Hf) as [Efee _]. rewrite Eamt, Etl, Efee.
    destruct (fits_bounds (e :: next :: rest') ltac:(done) Hf) as [Hu Hx].
    split; [apply Z.mod_small; exact Hx|]. split.
    { rewrite u64_small; [lia|]. replace (inflow (next :: rest') + _) with (inflow (e :: next :: rest')) by lia. done. }
    split; [simpl in *; lia|]. intros [|i] e' Hi'.
    + injection Hi' as <-. eexists. split; [reflexivity|]. by split_and!.
    + destruct (Hhop i e' Hi') as (hp & Hhp & Hrest). by exists hp.
Qed.

End Routes.

(** The amount and the expiry of the HTLC that reaches hop [i]. *)
Definition arriving (rt : Route) (i : nat) : Z * Z :=
  match i with
  | O => (TotalAmount rt, TotalTimeLock rt)
  | S j => match Hops rt !! j with Some hp => (AmtToForward hp, OutgoingTimeLock hp) | None => (0, 0) end
  end.

(** The edge is announced by a link with this policy. *)
Record announces (l : link) (e : CachedEdgePolicy) : Prop := {
  an_min : MinHTLCOut (FwrdingPolicy l) = MinHTLC e;
  an_max : MaxHTLC (FwrdingPolicy l) = ep_MaxHTLC e;
  an_base : BaseFee (FwrdingPolicy l) = FeeBaseMAtoms e;
  an_rate : FeeRate (FwrdingPolicy l) = FeeProportionalMillionths e;
  an_delta : TimeLockDelta (FwrdingPolicy l) = ep_TimeLockDelta e;
}.

(** The HTLC can leave over the link at this height. *)
Record sendable (l : link) (amt timeout now : Z) : Prop := {
  sd_min : MinHTLCOut (FwrdingPolicy l) <= amt;
  sd_max : MaxHTLC (FwrdingPolicy l) = 0 \/ amt <= MaxHTLC (FwrdingPolicy l);
  sd_soon : 0 <= now + OutgoingCltvRejectDelta l < 2 ^ 32 /\ now + OutgoingCltvRejectDelta l < timeout;
  sd_far : 0 <= MaxOutgoingCltvExpiry l + now < 2 ^ 32 /\ timeout <= MaxOutgoingCltvExpiry l + now;
  sd_balance : amt <= Bandwidth l;
}.

Lemma sendable_ok l amt timeout now : sendable l amt timeout now ->
  canSendHtlc l (FwrdingPolicy l) amt timeout now = None.
Proof.
  intros [H1 H2 [H3 H3'] [H4 H4'] H5]. unfold canSendHtlc.
  rewrite (proj2 (Z.ltb_ge _ _)) by done.
  assert (negb (MaxHTLC (FwrdingPolicy l) =? 0) && (MaxHTLC (FwrdingPolicy l) <? amt) = false) as ->.
  { destruct H2 as [->|H2]; [done|]. rewrite (proj2 (Z.ltb_ge _ _)) by done. apply andb_false_r. }
  unfold u32. rewrite !Z.mod_small by done. rewrite (proj2 (Z.leb_gt _ _)) by done.
  rewrite (proj2 (Z.ltb_ge _ _)) by done. by rewrite (proj2 (Z.ltb_ge _ _)).
Qed.

(** A link forwards exactly what pays its fee and keeps its time lock. *)
Lemma forward_exact l in_amt out_amt in_lock out_lock now fee :
  sendable l out_amt out_lock now -> is_u64 out_amt -> is_u64 in_amt ->
  ExpectedFee (FwrdingPolicy l) out_amt = fee -> 0 <= fee -> is_u32 (out_lock + TimeLockDelta (FwrdingPolicy l)) ->
  CheckHtlcForward l in_amt out_amt in_lock out_lock now =
  if in_amt <? out_amt + fee then Some (NewLinkError (createFailureWithUpdate l (FailFeeInsufficient out_amt)))
  else if in_lock <? out_lock + TimeLockDelta (FwrdingPolicy l)
  then Some (NewLinkError (createFailureWithUpdate l (FailIncorrectCltvExpiry in_lock)))
  else None.
Proof.
  intros Hs Ho Hi Hf Hf0 Hl. unfold CheckHtlcForward. rewrite sendable_ok, Hf by done.
  unfold is_u64 in *. unfold u32. rewrite (Z.mod_small (out_lock + _)) by exact Hl.
  assert ((in_amt <? out_amt) || (u64 (in_amt - out_amt) <? fee) = (in_amt <? out_amt + fee)) as ->; [|done].
  destruct (Z.ltb_spec in_amt out_amt); simpl; [by rewrite (proj2 (Z.ltb_lt _ _)) by lia|].
  rewrite u64_small by (unfold is_u64; lia).
  destruct (Z.ltb_spec (in_amt - out_amt) fee), (Z.ltb_spec in_amt (out_amt + fee)); (done || lia).
Qed.

(** ** Along a route *)

Section Along.
Context `{Secp256k1}.
Context (height : Z) (fh : finalHopParams) (src : list byte) (edges : list CachedEdgePolicy) (rt : Route).

(** What the sender knows is well-formed. *)
Record path_ok : Prop := {
  po_edges : Forall (fun e => length (ToNodePubKey e) = VertexSize /\ is_u64 (ep_ChannelID e) /\
                              ep_ChannelID e <> 0) edges;
  po_fits : fits height fh edges;
  po_addr : forall addr, fh_paymentAddr fh = Some addr -> length addr = 32%nat /\ is_u64 (fh_totalAmt fh);
  po_records : wf_custom (default ∅ (fh_records fh));
}.

Context (Hpath : path_ok) (Hrt : newRoute src edges height fh = Ok rt).

Lemma route_built : edges <> [] /\ built height fh edges (Hops rt) /\
  TotalAmount rt = inflow fh edges /\ TotalTimeLock rt = expiry height fh edges.
Proof.
  unfold newRoute in Hrt. apply bind_ok in Hrt as ([[hops tl] amt] & Er & Hn). unfold NewRouteFromHops in Hn.
  destruct hops as [|hp hops]; [discriminate|]. assert (edges <> []) as Hne by (intros E; rewrite E in Er; done).
  destruct (route_hops_ok height fh edges _ tl amt Hne (po_fits Hpath) Er) as (-> & -> & Hb).
  assert (rt = {| TotalTimeLock := expiry height fh edges; TotalAmount := inflow fh edges;
    SourcePubKey := src; Hops := hp :: hops |}) as -> by congruence. done.
Qed.

Lemma fits_drop i : drop i edges <> [] -> fits height fh (drop i edges).
Proof.
  pose proof (po_fits Hpath) as Hf. clear Hpath Hrt. revert edges Hf. induction i as [|i IH]; intros l Hf Hne; [done|].
  destruct l as [|e [|next l]]; [done|by destruct i|]. apply fits_cons in Hf as [Hf _]. by apply (IH (next :: l)).
Qed.

Lemma arriving_amount i e : edges !! i = Some e ->
  arriving rt i = (inflow fh (drop i edges), expiry height fh (drop i edges)).
Proof.
  destruct route_built as (_ & Hb & Ha & Hl). intros Hi. destruct i as [|j]; [by rewrite drop_0; unfold arriving; rewrite Ha, Hl|].
  destruct (lookup_lt_is_Some_2 edges j) as [e0 He0]; [apply lookup_lt_Some in Hi; lia|].
  destruct (bt_hop _ _ _ _ Hb j e0 He0) as (hp & Hhp & _ & _ & _ & _ & Hfwd). unfold arriving. rewrite Hhp.
  destruct Hfwd as (-> & -> & _); [|done]. apply lookup_lt_Some in Hi. intros E. apply (f_equal length) in E.
  rewrite length_drop in E. simpl in E. lia.
Qed.

Lemma route_next i : next_channel (Hops rt) i = match edges !! S i with Some e => ep_ChannelID e | None => 0 end.
Proof.
  destruct route_built as (_ & Hb & _). unfold next_channel.
  destruct (edges !! S i) as [e|] eqn:E.
  - destruct (bt_hop _ _ _ _ Hb (S i) e E) as (hp & -> & Hc & _). exact Hc.
  - apply lookup_ge_None in E. rewrite lookup_ge_None_2; [done|]. rewrite (bt_length _ _ _ _ Hb). lia.
Qed.

(** What each hop is told. *)
Lemma hop_told i e hp : edges !! i = Some e -> Hops rt !! i = Some hp ->
  exists P, hop_reads hp (next_channel (Hops rt) i) = Ok P /\
    NextHop (FwdInfo P) = NewShortChanIDFromInt (next_channel (Hops rt) i) /\
    AmountToForward (FwdInfo P) = AmtToForward hp /\ OutgoingCTLV (FwdInfo P) = OutgoingTimeLock hp /\
    (LegacyPayload hp = false -> pl_MPP P = hop_MPP hp /\ pl_customRecords P = CustomRecords hp).
Proof.
  intros He Hhp. destruct route_built as (_ & Hb & _).
  destruct (bt_hop _ _ _ _ Hb i e He) as (hp' & Hhp' & Hch & Hpub & Hamp & Hlast & Hfwd).
  assert (hp' = hp) as -> by congruence.
  unfold hop_reads. destruct (LegacyPayload hp) eqn:El; [eexists; split; [reflexivity|done]|].
  pose proof (po_edges Hpath) as Hed. rewrite Forall_lookup in Hed. destruct (Hed i e He) as (Hl & Hu & _).
  assert (is_u64 (next_channel (Hops rt) i)) as Hnu.
  { rewrite route_next. destruct (edges !! S i) as [e'|] eqn:E; [by apply (Hed _ _ E)|done]. }
  assert (packable hp (next_channel (Hops rt) i)) as Hpk.
  { destruct (decide (drop (S i) edges = [])) as [Hd|Hd].
    - destruct (Hlast Hd) as (Ea & Et & Em & Ec).
      assert (drop i edges = [e]) as Edi by (rewrite (drop_S _ _ _ He), Hd; done).
      pose proof (fits_drop i) as Hfd. rewrite Edi in Hfd. destruct (Hfd ltac:(done)) as [Hfa Hft].
      assert (edges !! S i = None) as En
        by (apply lookup_ge_None; apply (f_equal length) in Hd; rewrite length_drop in Hd; simpl in Hd; lia).
      split; [split|..]; rewrite ?Ea, ?Et, ?Em, ?Ec, ?Hamp, ?Hpub, ?Hch; try done.
      + intros m Hm. apply fmap_Some in Hm as (addr & Haddr & ->). by apply (po_addr Hpath).
      + apply (po_records Hpath).
      + intros _. rewrite route_next, En. done.
    - destruct (Hfwd Hd) as (Ea & Et & Em & Ec).
      destruct (fits_bounds height fh _ Hd (fits_drop (S i) Hd)) as [Hfa Hft].
      split; [split|..]; rewrite ?Ea, ?Et, ?Em, ?Ec, ?Hamp, ?Hpub, ?Hch; try done. }
  destruct (PackHopPayload_ok hp _ Hpk) as (custom & Eb & _).
  exists (payload_of hp (next_channel (Hops rt) i)). rewrite Eb. rsimpl. split; [by apply payload_read|done].
Qed.

End Along.

(** C9. A route that is built for a path works: every hop but the last reads from its payload
    the next channel, the amount and the expiry of the route, and a link that keeps the
    policy announced for that channel forwards the HTLC; with one milli-atom or one block
    less it would refuse for exactly that reason.  The last hop reads that it is the exit,
    with the multi-path record and the custom records of the sender, and the HTLC that
    reaches it has the announced amount and expiry.  The total amount is the amount to be
    received and the fees. *)
Theorem route_forwarded `{Secp256k1} height fh src edges rt :
  path_ok height fh edges -> newRoute src edges height fh = Ok rt ->
  length (Hops rt) = length edges /\ TotalAmount rt = fh_amt fh + TotalFees rt /\
  (forall i next hp l now, edges !! S i = Some next -> Hops rt !! i = Some hp -> announces l next ->
     sendable l (AmtToForward hp) (OutgoingTimeLock hp) now ->
     let '(amt, lock) := arriving rt i in
     exists P, hop_reads hp (next_channel (Hops rt) i) = Ok P /\
       NextHop (FwdInfo P) = NewShortChanIDFromInt (ep_ChannelID next) /\
       let forward amt lock := CheckHtlcForward l amt (AmountToForward (FwdInfo P)) lock
                                 (OutgoingCTLV (FwdInfo P)) now in
       forward amt lock = None /\
       (0 < amt -> forward (amt - 1) lock
          = Some (NewLinkError (createFailureWithUpdate l (FailFeeInsufficient (AmtToForward hp))))) /\
       forward amt (lock - 1)
          = Some (NewLinkError (createFailureWithUpdate l (FailIncorrectCltvExpiry (lock - 1))))) /\
  (forall i hp, S i = length edges -> Hops rt !! i = Some hp ->
     let '(amt, lock) := arriving rt i in
     exists P, hop_reads hp (next_channel (Hops rt) i) = Ok P /\ NextHop (FwdInfo P) = Exit /\
       exit_hop_check amt lock (FwdInfo P) = None /\
       (LegacyPayload hp = false ->
        pl_MPP P = (fun addr => {| paymentAddr := addr; totalMAtoms := fh_totalAmt fh |}) <$> fh_paymentAddr fh /\
        pl_customRecords P = default ∅ (fh_records fh))).
Proof.
  intros Hpath Hrt. destruct (route_built height fh src edges rt Hpath Hrt) as (Hne & Hb & Ha & Hl).
  pose proof (bt_length _ _ _ _ Hb) as Hlen.
  assert (forall i e, edges !! i = Some e -> fits height fh (drop i edges)) as Hfd.
  { intros i e Hi. apply (fits_drop height fh edges Hpath). rewrite (drop_S _ _ _ Hi). done. }
  split; [done|]. split; [|split].
  - destruct (lookup_lt_is_Some_2 edges (length edges - 1)) as [e He]; [destruct edges; simpl; [done|lia]|].
    destruct (bt_hop _ _ _ _ Hb _ e He) as (hp & Hhp & _ & _ & _ & Hlast & _).
    destruct Hlast as (Eamt & _); [rewrite drop_ge; [done|lia]|].
    assert (ReceiverAmt rt = fh_amt fh) as Erec.
    { unfold ReceiverAmt. rewrite last_lookup, Hlen. replace (pred (length edges)) with (length edges - 1)%nat by lia.
      by rewrite Hhp. }
    unfold TotalFees. rewrite Erec. destruct (Hops rt) as [|h0 hs] eqn:Eh; [by destruct edges|]. rewrite <- Eh in *.
    destruct (inflow_ge height fh edges Hne (po_fits _ _ _ Hpath)) as [H1 H2].
    rewrite Ha, u64_small; [lia|]. unfold is_u64 in *. lia.
  - intros i next hp l now Hnext Hhp Han Hsend.
    destruct (lookup_lt_is_Some_2 edges i) as [e He]; [apply lookup_lt_Some in Hnext; lia|].
    rewrite (arriving_amount height fh src edges rt Hpath Hrt i e He).
    destruct (hop_told height fh src edges rt Hpath Hrt i e hp He Hhp) as (P & EP & EN & EA & EO & _).
    rewrite (route_next height fh src edges rt Hpath Hrt i), Hnext in EN, EP |- *.
    exists P. split; [done|]. split; [done|]. rewrite EA, EO.
    destruct (bt_hop _ _ _ _ Hb i e He) as (hp' & Hhp' & _ & _ & _ & _ & Hfwd).
    assert (hp' = hp) as -> by congruence.
    rewrite (drop_S _ _ _ Hnext) in Hfwd. destruct (Hfwd ltac:(done)) as (Eamt & Elock & _).
    pose proof (Hfd i e He) as Hf. rewrite (drop_S _ _ _ He), (drop_S _ _ _ Hnext) in Hf |- *.
    set (rest := drop (S (S i)) edges) in *. destruct (fee_exact height fh e next rest Hf) as [Efee Hfee].
    destruct (fits_bounds height fh (e :: next :: rest) ltac:(done) Hf) as [Hu Hx].
    destruct (fits_bounds height fh (next :: rest) ltac:(done) (proj1 (fits_cons _ _ _ _ _ Hf))) as [Hu' Hx'].
    pose proof (fits_cons _ _ _ _ _ Hf) as (_ & _ & _ & Hd & _ & _ & Hxl). rewrite expiry_cons in Hx, Hxl |- *.
    assert (ExpectedFee (FwrdingPolicy l) (AmtToForward hp) = inflow fh (e :: next :: rest) - AmtToForward hp) as EE.
    { unfold ExpectedFee. rewrite (an_base _ _ Han), (an_rate _ _ Han), Eamt, <- Efee. reflexivity. }
    assert (forall amt lock, is_u64 amt -> CheckHtlcForward l amt (AmtToForward hp) lock (OutgoingTimeLock hp) now =
      if amt <? inflow fh (e :: next :: rest)
      then Some (NewLinkError (createFailureWithUpdate l (FailFeeInsufficient (AmtToForward hp))))
      else if lock <? expiry height fh (next :: rest) + ep_TimeLockDelta next
      then Some (NewLinkError (createFailureWithUpdate l (FailIncorrectCltvExpiry lock))) else None) as Hex.
    { intros amt lock Hamt. rewrite (forward_exact l amt _ lock _ now (inflow fh (e :: next :: rest) - AmtToForward hp) Hsend).
      - rewrite (an_delta _ _ Han), Elock. by replace (AmtToForward hp + _) with (inflow fh (e :: next :: rest)) by lia.
      - by rewrite Eamt.
      - done.
      - exact EE.
      - rewrite Eamt, <- Efee. exact Hfee.
      - rewrite Elock, (an_delta _ _ Han). exact Hx. }
    split_and!.
    + rewrite Hex by done. by rewrite !Z.ltb_irrefl.
    + intros Hpos. rewrite Hex by (unfold is_u64 in *; lia). by rewrite (proj2 (Z.ltb_lt _ _)) by lia.
    + rewrite Hex by done. rewrite Z.ltb_irrefl. by rewrite (proj2 (Z.ltb_lt _ _)) by lia.
  - intros i hp Hi Hhp. destruct (lookup_lt_is_Some_2 edges i) as [e He]; [lia|].
    assert (edges !! S i = None) as En by (apply lookup_ge_None; lia).
    rewrite (arriving_amount height fh src edges rt Hpath Hrt i e He).
    destruct (hop_told height fh src edges rt Hpath Hrt i e hp He Hhp) as (P & EP & EN & EA & EO & EM).
    destruct (bt_hop _ _ _ _ Hb i e He) as (hp' & Hhp' & _ & _ & _ & Hlast & _).
    assert (hp' = hp) as -> by congruence. rewrite (drop_ge edges (S i)) in Hlast by lia.
    destruct (Hlast eq_refl) as (Eamt & Elock & Em & Ec).
    exists P. split; [done|]. rewrite (route_next height fh src edges rt Hpath Hrt i), En in EN. split; [done|].
    assert (drop i edges = [e]) as -> by (rewrite (drop_S _ _ _ He), drop_ge by lia; done).
    split; [|by rewrite <- Em, <- Ec]. unfold exit_hop_check. rewrite EA, EO, Eamt, Elock. simpl.
    by rewrite !Z.eqb_refl.
Qed.

(** ** A path of two channels *)

Definition ex_edge (chan pub : Z) : CachedEdgePolicy :=
  {| ep_ChannelID := chan; MessageFlags := 0; ChannelFlags := 0; ep_TimeLockDelta := 40;
     MinHTLC := 1000; ep_MaxHTLC := 0; FeeBaseMAtoms := 1000;
     FeeProportionalMillionths := 100; ToNodePubKey := be_bytes 33 pub;
     ToNodeFeatures := Some (NewRawFeatureVector [TLVOnionPayloadOptional; PaymentAddrOptional]) |}.
Definition ex_final : finalHopParams :=
  {| fh_amt := 1000000; fh_totalAmt := 1000000; fh_cltvDelta := 80; fh_records := None;
     fh_paymentAddr := Some (be_bytes 32 5) |}.
Definition ex_path : list CachedEdgePolicy := [ex_edge 11 1; ex_edge 12 2].
Definition ex_link : link :=
  {| FwrdingPolicy := {| MinHTLCOut := 1000; MaxHTLC := 0; BaseFee := 1000; FeeRate := 100; TimeLockDelta := 40 |};
     OutgoingCltvRejectDelta := 10; MaxOutgoingCltvExpiry := 1000; Bandwidth := 10 ^ 9; has_update := true |}.

Lemma route_forwarded_witness :
  exists rt, newRoute (be_bytes 33 0) ex_path 100 ex_final = Ok rt /\ TotalFees rt = 1100 /\
    CheckHtlcForward ex_link 1001100 1000000 220 180 100 = None /\
    CheckHtlcForward ex_link 1001099 1000000 220 180 100 = Some (NewLinkError (FailFeeInsufficient 1000000)).
Proof.
  assert (path_ok 100 ex_final ex_path) as Hp.
  { split.
    - repeat constructor; done.
    - vm_compute. repeat split; done.
    - intros addr [= <-]. done.
    - simpl. apply map_Forall_empty. }
  destruct (newRoute (be_bytes 33 0) ex_path 100 ex_final) as [rt| |] eqn:E; [|by vm_compute in E..].
  exists rt. split; [done|].
  destruct (route_forwarded 100 ex_final (be_bytes 33 0) ex_path rt Hp E) as (_ & Hfees & Hfwd & _).
  vm_compute in E. injection E as <-. split; [reflexivity|].
  specialize (Hfwd 0%nat (ex_edge 12 2) _ ex_link 100 eq_refl eq_refl).
  destruct Hfwd as (P & _ & _ & H1 & H2 & _); [by split|split; simpl; (done || lia || auto)|].
  split; reflexivity.
Defined.
